(* ===== verification/_CoqProject ===== *)
-Q . S2P
Prelude.v
GoStrings.v
Errors.v
ImapGrammar.v
Quarantine.v
QuarantineInv.v
QuarantineGrammar.v
QuarantineSystem.v
QuarantineAccept.v
GoText.v
GoJson.v
Config.v
Session.v
Adapter.v
MessageID.v
Search.v
AdapterSpec.v
SearchSpec.v
Triage.v
TriageSpec.v
AdapterRuns.v
SearchObserver.v
SearchObserverSpec.v
DispatchGuard.v
Threads.v
ThreadsSpec.v
Headers.v
HeadersSpec.v
Mime.v
MimeSpec.v
ImapSession.v
ImapSessionSpec.v
AttachmentProjection.v
AttachmentProjectionSpec.v
Dial.v
DialSpec.v
StructureSession.v
StructureSessionSpec.v
StrictJson.v
StrictJsonSpec.v
StdioFrame.v
Credentials.v
CredentialsSpec.v
GoMarshal.v
ToolResults.v
ToolResultsSpec.v
ToolServer.v
ToolServerSpec.v
ToolTriageSpec.v
ToolThreadSpec.v
ToolAdapter.v
ToolSearchSpec.v
ToolRuns.v
Monitor.v
DriveTypes.v
DriveCli.v
DriveGate.v
DriveGateSpec.v
DriveServer.v
DriveCliSpec.v
DriveServerSpec.v
DriveFS.v
DriveCopySpec.v
ConfigFile.v
ConfigFileSpec.v
OpenSession.v
Lifecycle.v
TrustAnchor.v
ImapTokens.v
MailboxStore.v
MailboxStoreSpec.v
Transcript.v
LabelStore.v
LabelStoreSpec.v
TestCommands.v
BodyStructureFixture.v
TestFaults.v
TestServer.v
TestServerSpec.v
EndToEnd.v
