(* ===== verification/Prelude.v ===== *)
(** * Croton MCP: a verification library

    Croton MCP gives a language model bounded access to a local Proton Mail
    Bridge over IMAP, and to Proton Drive through a command line program.  This
    development models both halves, from the tool call to the bytes on the wire
    or the argument vector of the command, and proves what their components
    promise to each other.

    ** The program and its model

    A tool of [src/internal/mcpserver] calls the adapter ([bridge.go]), which
    serialises operations by one gate, keeps one session, replays a failed
    operation at most once and names messages by keyed identifiers.  A session
    ([imapclient.go]) sends one command at a time through go-imap; beneath the
    client stand a read budget with an observer of SEARCH responses and a guard
    on what a MOVE may write, and, for one dedicated session, a quarantine that
    frames every server byte before the client sees it
    ([structure_quarantine.go]).  Headers and bodies that come back are
    normalised under fixed limits ([mime.go], [thread_fields.go]) and threads
    are resolved locally ([threads.go]).  The mail program reads one private
    file ([src/internal/config]), validates it and registers the read tools, and
    the triage tools when the file says so.

    The Drive program ([src/cmd/croton-drive-mcp]) reads a file of its own by the
    same loader and serves three tools ([src/internal/drivemcp]).  Each passes a
    gate that lets one version handshake run, then runs one frozen command of
    [src/internal/drivecli] and bounds what it printed.  [src/internal/drivefs]
    holds the primitives of confined output, which no tool calls yet.

    Shared files.
    - [Prelude]: scopes, record update, tactics, byte and length lemmas, the
      closure of a step relation.
    - [GoStrings], [GoText]: the functions of [strings], [bytes], [strconv],
      [unicode/utf8] and [encoding] the sources call, exact on bytes, with
      [truncateUTF8], and the buffered lines of [bufio].
    - [Errors]: [errors.go], [mapIMAPError] and the tool codes.  A Go error is
      the list of what [errors.Is] and [errors.As] find in it.
    - [GoJson], [GoMarshal]: the tokens of [encoding/json] with the grammar over
      them, what [json.Marshal] writes, and reading and writing of structs with
      raw messages.
    - [Monitor]: logged operations on an abstract world, monitors that read such
      a log and the judgement [tracks] that composes along operations;
      step relations over finite maps of processes, and how they come to rest.
    - [Session]: the session interfaces as the class [Backend] over an abstract
      world, and the state monad of the adapter with a ghost log of every call.

    Components.
    - [ImapGrammar], [Quarantine]: the structure quarantine; [QuarantineInv],
      [QuarantineGrammar], [QuarantineSystem] and [QuarantineAccept] hold its
      invariant, the grammar of released lines, the step relation of the system
      (reads, dispatch, abort, released bytes) and the converse of framing.
    - [Config]: [config.go], [bounds.go], [tlspolicy.go], [endpoint.go].
    - [Adapter], [AdapterSpec]: [bridge.go], [messages.go], [folders.go].
    - [MessageID], [Search], [SearchSpec]: [search.go].
    - [Triage], [TriageSpec]: [seen.go], [move.go].
    - [AdapterRuns]: concrete runs of the adapter over a small world, which the
      witnesses of the adapter's theorems evaluate.
    - [SearchObserver], [SearchObserverSpec]: [readBudgetConn] of
      [imapclient.go].
    - [DispatchGuard]: [dispatchGuardConn] and [MoveUID].
    - [ImapSession], [ImapSessionSpec]: the commands of [imapSession].
    - [Headers], [HeadersSpec], [Mime], [MimeSpec]: header rules and
      [normalizeMessage].
    - [Threads], [ThreadsSpec]: [BuildThread].
    - [Dial], [DialSpec]: [dial.go], the plaintext STARTTLS dialogue over
      [GoText]'s lines.  [Credentials], [CredentialsSpec]: [credentials.go].
    - [StructureSession], [StructureSessionSpec]: [structure_session.go] and
      [attachment_structure.go]; its state holds a state of [QuarantineSystem],
      and the client answers commands through the class [DedicatedClient], whose
      one law is that it only reads.  [AttachmentProjection],
      [AttachmentProjectionSpec]: [attachment_projection.go].
    - [OpenSession]: [openSession], where [Dial], the client, the credential
      helper and the login meet.
    - [StrictJson], [StrictJsonSpec]: [internal/strictjson].  [StdioFrame]:
      [internal/stdioframe].
    - [ToolResults], [ToolResultsSpec]: the results of [internal/mcpserver], their
      reductions and [encodeBounded]; a result type is an instance of the class
      [ToolResult] with the laws [ShrinkLaws].  [ToolServer]: argument checks,
      every handler, the audit and the answer, over the interface [Mail] of the
      adapter; [ToolServerSpec], [ToolSearchSpec], [ToolThreadSpec] and
      [ToolTriageSpec] hold what the tools promise of any such adapter,
      [ToolAdapter] puts [Adapter] behind them and [ToolRuns] runs them.
      [Lifecycle]: [lifecycle.go], the race of closers and the context.
    - [DriveTypes], [DriveCli], [DriveCliSpec]: [internal/drivecli] with the process
      as a parameter.  [DriveGate], [DriveGateSpec]: [gate.go] as a step relation
      of any number of requests; [DriveServer], [DriveServerSpec]:
      [internal/drivemcp], where one request sees the gate as a wait for its slot.
    - [DriveFS], [DriveCopySpec]: [internal/drivefs] over the class
      [Kernel] of system calls, every one logged with its answer.
    - [ConfigFile], [ConfigFileSpec]: [internal/config] over the class
      [ConfigKernel], and what both programs of [src/cmd] start with.
    - [TrustAnchor]: the anchor file and the TLS configuration, over the same
      class and the verifier of [Config].

    The test server ([src/internal/testkit]), against which the adapter is
    tested.
    - [ImapTokens]: the argument parser and UID sets of [stateful.go].
      [MailboxStore], [MailboxStoreSpec]: its mutable mailboxes and every
      command on them.  [LabelStore], [LabelStoreSpec]: the folders and label
      views of [labels.go], which read through [MailboxStore].
    - [Transcript]: the exact grammar tests read recorded commands with, and that
      it agrees with the argument parser.  [TestCommands]: recording, and the two
      assertions on a log with what they see.
    - [BodyStructureFixture]: the typed structures of [bodystructure.go], over a
      heap of descriptors.
    - [TestFaults]: one-shot faults ([faults.go], [label_faults.go]).
    - [TestServer]: [server.go], one connection as a function of events and the
      server as a step relation over its connections, with the handling of an
      event cut into effects.  [TestServerSpec] proves its invariants of one
      effect at a time.
    - [EndToEnd]: [SetSeen] of the adapter composed with the mutable mailboxes,
      across the class [FixtureClient] of clients whose SELECT and STORE are
      command lines of that server.

    ** How code becomes definitions

    Strings and byte slices are lists of bytes; integers are [Z] with the
    wrap-around of uint32 and uint64 written where it can happen; a Go map is a
    [gmap]; errors are values of a sum or an option.  A definition has the name
    of its function; a loop that the code writes inline has a name of its own.
    State is passed explicitly: the quarantine, the read budget and the guard
    are records and their operations functions on them; the adapter runs in the
    state monad of [Session].  Mutexes disappear where one operation holds them
    throughout; where operations interleave, a step relation orders them.

    Go-imap, [net/mail], [mime], [mime/multipart], [charset], [html], TLS, HMAC,
    Unicode folding, instants of [time], the kernel and every process are parameters: what the client decoded, what a reader
    gives, what a parser returns.  A theorem that relies on such a parameter
    states what it assumes of it and has a witness with a concrete one.

    ** What is proved

    - Quarantine: in every reachable state the released bytes are complete
      frames, the only structure response is of the selected UID and was asked
      for; no budget is exceeded; how the network splits bytes is irrelevant; a
      refusal is final; a read returns; the feasibility shortcuts refuse no
      response that could be completed; every admitted control line passes.
    - Adapter: operations run with the gate held; at most one replay, only after
      a transport failure; no read operation can write; a session is dropped
      whenever its framing is untrustworthy.
    - Identifiers: what the adapter made it decodes, and what it decodes carries
      its own hash.  Search: the windows, their pages and their truncation are
      exact.  Triage: a STORE or MOVE directly follows the confirmation of its
      UID on a session selected under the requested generation, a MOVE's target
      is what the fresh listing resolves to, outcomes agree with what was sent.
    - Session: fetched metadata, headers and bodies are of exactly the requested
      UIDs, once each, inside their limits, or the transport is aborted; a
      search answer is distinct, in its window and of this command; the observer
      reports every raw duplicate and every UID outside the window; a MOVE is
      one native line; no command reads more than its budget.
    - Text: cutting headers keeps complete blocks; the threading fields are the
      first of each name; normalised messages are within their limits and valid
      UTF-8.  Threads: the heap selects the earliest messages, and the nodes are
      a forest with distinct keys and exact bounded depths.

    - Dedicated session: whatever is called in whatever order, its commands go
      out in one order, one FETCH at most, and no structure response is released
      before it; a read ends with the transport closed and the credentials
      erased.  An attachment list without a flag is complete.
    - Edges: STARTTLS connects exactly for the dialogues of a reference grammar
      and sends two commands in plaintext; credentials, JSON objects and stdio
      frames are accepted exactly when a grammar reads them as asked for.  The
      credential helper runs only over a verified transport, and a failed opening
      closes it.
    - Tools: a call of any tool with any arguments gives one answer within the
      bound, or one of the known codes, and one audit line without content; the
      bounded encoding is the first reduction that fits; threads, searches and
      triage relate the answer to what the adapter said; a server without the
      triage option cannot write to a mailbox.  A connection is closed once.
    - Drive: a call runs at most the handshake and one frozen command with a
      canonical path; handshakes never overlap and requests are never stuck; the
      client's argument vectors are frozen; a link's password is not shown.
    - Files: a transaction opens only beneath held directories without links and
      publishes at most once, after write and close; the copy loop ends for
      every source within its limit.  A configuration is read only from a private
      regular file reached without links, and the Drive program starts only from
      one without writes or downloads.
    - Test server: stores built from typed seeds stay well formed, lose no
      message and never reuse a UID; labels never touch a message; the LIST
      wildcards match what their grammar says; tokens that are printed read
      back; a transcript says what the server did.  Under every interleaving
      nobody is authenticated outside TLS and a fault fires once, on a
      connection that finishes it, and when the read-only assertion accepts a
      log of printable commands the mailboxes are untouched.  Structures the
      fixture serves are responses of the grammar of the quarantine.
    - End to end: a [SetSeen] of the adapter through such a client changes only
      the Seen flags of the UIDs it reports as applied, in the mailbox of the
      requested generation, and of at most one it reports as unknown.

    ** Bounds and fuel

    Loops over bytes recurse on the input or on its length, which every round
    shortens.  [execute_loop] has the two attempts of the code and
    [searchWindows] its eight windows.  [readAttempts] of the quarantine has
    fuel, and [read_returns] gives the amount that always suffices.  The heap
    loops have the length of the heap as fuel, [freshKey] one more than the keys
    in use and [wouldCycle] and [resolveThreadDepth] one more than the nodes;
    the proofs in [ThreadsSpec] use that these are enough (a path in a forest
    has no node twice).  The walks of [GoJson] and [StrictJson] have three turns
    for each byte of input, of which two are needed; [commandLoop] has the lines
    the response budget leaves.  [parseEntity] recurses on the depth that is left.
    [encodeLoop] and [driveEncodeLoop] have one round more than the size of what
    they reduce, which every reduction lessens.  [rawElements] and [rawMembers]
    have the fuel of [parse].  [copyFuel] allows a hundred reads for each byte of
    the limit; [copy_exact] shows that the loop never uses it up.
    [tokenizeList] has more fuel than its input has bytes, each of which a round
    consumes ([tokenizeList_enough]), and so has [parseFlags];
    [validateBodyPart] and [renderBodyPart] have one level more than the depth
    limit, which the validation of a cyclic tree reaches.

    ** Not modelled

    Of [src/internal/testkit] the constant messages ([fixtures.go]), the stand-in
    for the Drive program ([fakedrive.go]), the generated certificates, the delay
    before an answer and the shutdown are left out.  The MCP SDK, its
    sessions and the published schemas and descriptions of the tools are not the
    program's logic; of [stdio.go] the frames are modelled.  TLS handshakes, flag
    parsing, signals, process groups ([process_linux.go], [process_unix.go]) and
    the kernel's own behaviour are the operating system's.  Of the builds for
    several systems the Linux one is modelled.
*)
From Stdlib Require Import ZArith Lia Strings.Byte.
From stdpp Require Import base list gmap strings.

Global Open Scope Z_scope.

(** ** Scopes and notations *)

Declare Scope go_scope.
Delimit Scope go_scope with go.
Global Open Scope go_scope.

(** A Go [string] or [[]byte] is a sequence of bytes. *)
Abbreviation byte := Byte.byte.
Abbreviation bytes := (list Byte.byte).

(** A Go string literal. *)
Notation "$ s" := (String.list_byte_of_string s%string) (at level 5, s at level 4) : go_scope.

Infix "=b" := Byte.eqb (at level 70, no associativity) : go_scope.

(** Go's [len] as an [int]. *)
Definition zlen {A} (l : list A) : Z := Z.of_nat (length l).
#[global] Arguments zlen : simpl never.

(** The numeric value of a byte. *)
Definition bZ (b : byte) : Z := Z.of_N (Byte.to_N b).

(** 64-bit unsigned wrap-around. *)
Definition u64 (z : Z) : Z := z mod 2 ^ 64.
#[global] Arguments u64 : simpl never.
Definition u32 (z : Z) : Z := z mod 2 ^ 32.
Definition MaxUint32 : Z := 2 ^ 32 - 1.

(** ** Record update

    [r <| proj := v |>] rebuilds the record [r] with one field changed.  A
    record opts in by giving an [Eta] instance that spells out its fields. *)
Class Eta (R : Type) := eta : R -> R.
Class Setter {R E : Type} (proj : R -> E) := set_field : (E -> E) -> R -> R.

Ltac derive_setter R E proj :=
  let e := constr:(_ : Eta R) in
  let e := eval cbv beta in e in
  let upd := fresh "upd" in
  let r := fresh "r" in
  intros upd r;
  let b := eval cbv beta delta [e] in (e r) in
  let p := eval pattern (proj r) in b in
  lazymatch p with ?f _ => let t := eval cbv beta in (f (upd (proj r))) in exact t end.

#[export] Hint Extern 1 (@Setter ?R ?E ?proj) => derive_setter R E proj : typeclass_instances.

Notation "r <| proj := v |>" := (@set_field _ _ proj _ (fun _ => v) r)
  (at level 1, left associativity, proj constr, v at level 99,
   format "r  <| proj  :=  v |>") : go_scope.

(** ** Tactics *)

(** Reduce record updates and projections. *)
Ltac rsimpl := cbn in *.

(** Case analysis on the first [if] or [match] of the goal or a hypothesis. *)
Ltac split_goal :=
  match goal with
  | |- context [if ?b then _ else _] => destruct b eqn:?
  | |- context [match ?x with _ => _ end] => destruct x eqn:?
  end.
Ltac split_in H :=
  match type of H with
  | context [if ?b then _ else _] => destruct b eqn:?
  | context [match ?x with _ => _ end] => destruct x eqn:?
  end.

(** Turn boolean hypotheses into propositions. *)
Ltac bool_prop :=
  repeat match goal with
  | H : (_ && _) = true |- _ => apply andb_prop in H as [? ?]
  | H : (_ || _) = false |- _ => apply orb_false_iff in H as [? ?]
  | H : (_ && _) = false |- _ => apply andb_false_iff in H
  | H : (_ || _) = true |- _ => apply orb_true_iff in H
  | H : negb _ = true |- _ => apply negb_true_iff in H
  | H : negb _ = false |- _ => apply negb_false_iff in H
  | H : (_ =? _) = true |- _ => apply Z.eqb_eq in H
  | H : (_ =? _) = false |- _ => apply Z.eqb_neq in H
  | H : (_ <? _) = true |- _ => apply Z.ltb_lt in H
  | H : (_ <? _) = false |- _ => apply Z.ltb_ge in H
  | H : (_ <=? _) = true |- _ => apply Z.leb_le in H
  | H : (_ <=? _) = false |- _ => apply Z.leb_gt in H
  | H : (_ >? _) = true |- _ => rewrite Z.gtb_ltb in H; apply Z.ltb_lt in H
  | H : (_ >? _) = false |- _ => rewrite Z.gtb_ltb in H; apply Z.ltb_ge in H
  | H : (_ =b _) = true |- _ => apply Byte.byte_dec_bl in H
  end.

(** ** Bytes *)

#[export] Instance byte_eq_dec : EqDecision byte := Byte.byte_eq_dec.
#[export] Instance byte_countable : Countable byte.
Proof.
  refine (inj_countable Byte.to_N Byte.of_N _). apply Byte.of_to_N.
Defined.

Lemma bZ_range b : 0 <= bZ b < 256.
Proof.
  unfold bZ. pose proof (Byte.to_N_bounded b). split; [lia|].
  change 256 with (Z.of_N 256). lia.
Qed.

Lemma beq_refl b : (b =b b) = true.
Proof. by apply Byte.byte_dec_lb. Qed.

Lemma beq_eq a b : (a =b b) = true <-> a = b.
Proof. split; [apply Byte.byte_dec_bl | apply Byte.byte_dec_lb]. Qed.

Lemma beq_neq a b : (a =b b) = false <-> a <> b.
Proof. split; [apply Byte.eqb_false | intros H]. destruct (a =b b) eqn:E; [|done]. by apply beq_eq in E. Qed.

(** All 256 bytes, for facts checked by evaluation. *)
Definition all_bytes : bytes :=
  omap Byte.of_nat (seq 0 256).

Lemma byte_forall (P : byte -> bool) : forallb P all_bytes = true -> forall b, P b = true.
Proof.
  intros H b. rewrite forallb_forall in H. apply H.
  apply list_elem_of_In, list_elem_of_omap. exists (Byte.to_nat b). split.
  - apply elem_of_seq. pose proof (Byte.to_nat_bounded b). lia.
  - apply Byte.of_to_nat.
Qed.

(** Prove a boolean fact about every byte by evaluation. *)
Ltac by_all_bytes b :=
  revert b; apply (byte_forall _); vm_compute; reflexivity.

(** ** Lengths *)

Lemma zlen_nonneg {A} (l : list A) : 0 <= zlen l.
Proof. unfold zlen. lia. Qed.
Lemma zlen_nil {A} : zlen (@nil A) = 0.
Proof. done. Qed.
Lemma zlen_cons {A} (x : A) l : zlen (x :: l) = 1 + zlen l.
Proof. unfold zlen. cbn [length]. lia. Qed.
Lemma zlen_app {A} (l k : list A) : zlen (l ++ k) = zlen l + zlen k.
Proof. unfold zlen. rewrite length_app. lia. Qed.
Lemma zlen_snoc {A} (l : list A) x : zlen (l ++ [x]) = zlen l + 1.
Proof. rewrite zlen_app. done. Qed.
Lemma zlen_0_nil {A} (l : list A) : zlen l = 0 -> l = [].
Proof. unfold zlen. destruct l; [done|cbn [length]; lia]. Qed.

Create HintDb croton.
Create Rewrite HintDb croton.
#[export] Hint Rewrite @zlen_nil @zlen_cons @zlen_app : croton.
#[export] Hint Resolve zlen_nonneg bZ_range : croton.

(** ** Reflexive transitive closure of a step relation *)
Inductive star {A : Type} (R : A -> A -> Prop) : A -> A -> Prop :=
| star_refl a : star R a a
| star_snoc a b c : star R a b -> R b c -> star R a c.

(** Rule induction for an invariant of the reachable states. *)
Lemma star_invariant {A} (R : A -> A -> Prop) (I : A -> Prop) a b :
  I a -> (forall x y, I x -> R x y -> I y) -> star R a b -> I b.
Proof. intros Ha Hstep H. induction H; eauto. Qed.

Lemma star_trans {A} (R : A -> A -> Prop) a b c : star R a b -> star R b c -> star R a c.
Proof. intros Hab Hbc. revert Hab. induction Hbc; eauto using star_snoc. Qed.
