(* ===== verification/GoStrings.v ===== *)
(** * The Go string and number functions the sources use

    Byte-level definitions of the functions of [strings], [bytes],
    [strconv] and [unicode/utf8] that the modelled code calls, with the
    lemmas the components share.  Case folding is only ever compared with an
    ASCII constant here, so it is defined up to the runes that fold into
    ASCII. *)
From Stdlib Require Import ZArith Lia Strings.Byte.
From stdpp Require Import base list gmap strings.
From S2P Require Import Prelude.

(** ** Searching and cutting *)

(** [strings.IndexByte]: the index of the first occurrence, if any. *)
Fixpoint index_byte (c : byte) (s : bytes) : option nat :=
  match s with
  | [] => None
  | x :: s' => if x =b c then Some 0%nat else option_map S (index_byte c s')
  end.

Definition contains_byte (c : byte) (s : bytes) : bool :=
  match index_byte c s with Some _ => true | None => false end.

(** [strings.ContainsAny] with an ASCII set. *)
Definition contains_any (s set : bytes) : bool :=
  existsb (fun c => contains_byte c s) set.

(** [strings.Cut] at a one-byte separator: before, after, found. *)
Definition cut_byte (c : byte) (s : bytes) : bytes * bytes * bool :=
  match index_byte c s with
  | Some i => (take i s, drop (S i) s, true)
  | None => (s, [], false)
  end.

(** [strings.HasPrefix]. *)
Fixpoint has_prefix (s p : bytes) : bool :=
  match p, s with
  | [], _ => true
  | _ :: _, [] => false
  | a :: p', b :: s' => (a =b b) && has_prefix s' p'
  end.

Definition has_suffix (s p : bytes) : bool := has_prefix (rev s) (rev p).

(** [strings.CutPrefix] and [strings.CutSuffix]: rest and whether found; the
    input itself when it was not. *)
Definition cut_prefix (s p : bytes) : bytes * bool :=
  if has_prefix s p then (drop (length p) s, true) else (s, false).
Definition cut_suffix (s p : bytes) : bytes * bool :=
  if has_suffix s p then (take (length s - length p) s, true) else (s, false).

Definition trim_prefix (s p : bytes) : bytes := fst (cut_prefix s p).
Definition trim_suffix (s p : bytes) : bytes := fst (cut_suffix s p).

(** [strings.Split] at a one-byte separator: always at least one part. *)
Fixpoint split_byte (c : byte) (s : bytes) : list bytes :=
  match s with
  | [] => [[]]
  | x :: s' =>
      if x =b c then [] :: split_byte c s'
      else match split_byte c s' with
           | [] => [[x]]
           | part :: parts => (x :: part) :: parts
           end
  end.

Fixpoint beqs (s t : bytes) : bool :=
  match s, t with
  | [], [] => true
  | a :: s', b :: t' => (a =b b) && beqs s' t'
  | _, _ => false
  end.

(** ** Case folding against ASCII constants *)

Definition is_upper (b : byte) : bool := (65 <=? bZ b) && (bZ b <=? 90).
Definition is_lower (b : byte) : bool := (97 <=? bZ b) && (bZ b <=? 122).
Definition is_digit (b : byte) : bool := (48 <=? bZ b) && (bZ b <=? 57).

(** ASCII upper and lower case of one byte; other bytes are unchanged. *)
Definition byte_of_Z (z : Z) : byte := default x00 (Byte.of_N (Z.to_N z)).
Definition ascii_upper (b : byte) : byte := if is_lower b then byte_of_Z (bZ b - 32) else b.
Definition ascii_lower (b : byte) : byte := if is_upper b then byte_of_Z (bZ b + 32) else b.

(** [strings.ToUpper], exact on every rune whose upper case is ASCII: the
    letters, dotless i (C4 B1) and long s (C5 BF).  Bytes of other runes are
    kept, so the result equals an ASCII constant exactly when Go's does. *)
Fixpoint to_upper (s : bytes) : bytes :=
  match s with
  | [] => []
  | a :: s' =>
      match s' with
      | b :: s'' =>
          if (a =b xc4) && (b =b xb1) then "I"%byte :: to_upper s''
          else if (a =b xc5) && (b =b xbf) then "S"%byte :: to_upper s''
          else ascii_upper a :: to_upper s'
      | [] => [ascii_upper a]
      end
  end.

(** [strings.EqualFold] with an ASCII constant [t]: simple folding maps only
    the letters, long s (C5 BF) and the Kelvin sign (E2 84 AA) to ASCII. *)
Fixpoint equal_fold (s t : bytes) : bool :=
  match t with
  | [] => match s with [] => true | _ => false end
  | c :: t' =>
      match s with
      | [] => false
      | a :: s1 =>
          if ascii_lower a =b ascii_lower c then equal_fold s1 t'
          else match s1 with
               | b :: s2 =>
                   if (a =b xc5) && (b =b xbf) && (ascii_lower c =b "s"%byte) then equal_fold s2 t'
                   else match s2 with
                        | d :: s3 =>
                            if (a =b xe2) && (b =b x84) && (d =b xaa) && (ascii_lower c =b "k"%byte)
                            then equal_fold s3 t' else false
                        | [] => false
                        end
               | [] => false
               end
      end
  end.

(** ** Numbers *)

(** The value of a string of ASCII digits, or [None] at another byte. *)
Fixpoint digits_value (acc : Z) (s : bytes) : option Z :=
  match s with
  | [] => Some acc
  | b :: s' => if is_digit b then digits_value (acc * 10 + (bZ b - 48)) s' else None
  end.

(** [strconv.ParseUint s 10 bits]: unsigned decimal, no sign, no overflow. *)
Definition parse_uint (s : bytes) (bits : Z) : option Z :=
  match s with
  | [] => None
  | _ => match digits_value 0 s with
         | Some v => if v <? 2 ^ bits then Some v else None
         | None => None
         end
  end.

(** ** Lemmas *)

Lemma beqs_eq s t : beqs s t = true <-> s = t.
Proof.
  revert t. induction s as [|a s IH]; intros [|b t]; cbn; try done.
  rewrite andb_true_iff, beq_eq, IH. naive_solver.
Qed.

Lemma beqs_refl s : beqs s s = true.
Proof. by apply beqs_eq. Qed.

Lemma index_byte_Some c s i :
  index_byte c s = Some i -> s = take i s ++ c :: drop (S i) s /\ ~ In c (take i s).
Proof.
  revert i. induction s as [|x s IH]; intros i; cbn; [done|].
  destruct (x =b c) eqn:E; [intros [= <-]; apply beq_eq in E; subst; auto|].
  destruct (index_byte c s) as [j|]; [|done]. intros [= <-].
  destruct (IH j eq_refl) as [H1 H2]. cbn. split; [by rewrite <- H1|].
  intros [->|?]; [|done]. by rewrite beq_refl in E.
Qed.

Lemma index_byte_None c s : index_byte c s = None <-> ~ In c s.
Proof.
  induction s as [|x s IH]; cbn; [tauto|].
  destruct (x =b c) eqn:E.
  - apply beq_eq in E as ->. split; [done|tauto].
  - apply beq_neq in E. destruct (index_byte c s); cbn; [|tauto].
    split; [done|]. intros H. exfalso. assert (~ In c s) by tauto. apply IH in H0. done.
Qed.

Lemma contains_byte_In c s : contains_byte c s = true <-> In c s.
Proof.
  unfold contains_byte. destruct (index_byte c s) eqn:E.
  - split; [|done]. intros _. apply index_byte_Some in E as [-> _].
    apply in_app_iff. right. by left.
  - apply index_byte_None in E. done.
Qed.

Lemma contains_byte_false c s : contains_byte c s = false <-> ~ In c s.
Proof. rewrite <- contains_byte_In. destruct (contains_byte c s); naive_solver. Qed.

Lemma has_prefix_spec s p : has_prefix s p = true <-> exists r, s = p ++ r.
Proof.
  revert s. induction p as [|a p IH]; intros s; cbn.
  { split; [intros _; by exists s|]. intros _. by destruct s. }
  destruct s as [|b s]; [split; [done|intros [r ?]; done]|]. cbn.
  rewrite andb_true_iff, beq_eq, IH. split.
  - intros [-> [r ->]]. by exists r.
  - intros [r [= -> ->]]. eauto.
Qed.

Lemma cut_prefix_true s p r : cut_prefix s p = (r, true) <-> s = p ++ r.
Proof.
  unfold cut_prefix. destruct (has_prefix s p) eqn:E.
  - apply has_prefix_spec in E as [r' ->]. rewrite drop_app_length.
    split; [intros [= ->]; done | intros ->%app_inv_head; done].
  - split; [done|]. intros ->. assert (has_prefix (p ++ r) p = true) by (apply has_prefix_spec; eauto).
    congruence.
Qed.

Lemma has_suffix_spec s p : has_suffix s p = true <-> exists r, s = r ++ p.
Proof.
  unfold has_suffix. rewrite has_prefix_spec. split; intros [r H].
  - exists (rev r). apply (f_equal (@rev _)) in H. rewrite rev_involutive in H.
    by rewrite H, rev_app_distr, rev_involutive.
  - exists (rev r). by rewrite H, rev_app_distr.
Qed.

Lemma cut_suffix_true s p r : cut_suffix s p = (r, true) <-> s = r ++ p.
Proof.
  unfold cut_suffix. destruct (has_suffix s p) eqn:E.
  - apply has_suffix_spec in E as [r' ->].
    rewrite length_app, Nat.add_sub, take_app_length.
    split; [intros [= ->]; done | intros ->%app_inv_tail; done].
  - split; [done|]. intros ->. assert (has_suffix (r ++ p) p = true) by (apply has_suffix_spec; eauto).
    congruence.
Qed.

Lemma cut_byte_true c s a b : cut_byte c s = (a, b, true) -> s = a ++ c :: b /\ ~ In c a.
Proof.
  unfold cut_byte. destruct (index_byte c s) eqn:E; [|done].
  intros [= <- <-]. by apply index_byte_Some.
Qed.

Lemma cut_byte_false c s a b : cut_byte c s = (a, b, false) -> a = s /\ b = [] /\ ~ In c s.
Proof.
  unfold cut_byte. destruct (index_byte c s) eqn:E; [done|].
  intros [= <- <-]. by apply index_byte_None in E.
Qed.

Lemma index_byte_mid c a b : ~ In c a -> index_byte c (a ++ c :: b) = Some (length a).
Proof.
  induction a as [|x a IH]; intros Hn; cbn; [by rewrite beq_refl|]. destruct (x =b c) eqn:E.
  - apply beq_eq in E. destruct Hn. by left.
  - rewrite IH; [done|]. intros ?. apply Hn. by right.
Qed.

(** The first separator of [a ++ c :: b] is the [c] shown when [a] has none. *)
Lemma cut_byte_app c a b : ~ In c a -> cut_byte c (a ++ c :: b) = (a, b, true).
Proof.
  intros H. unfold cut_byte.
  rewrite (index_byte_mid c a b H).
  rewrite take_app_length. f_equal. f_equal.
  change (S (length a)) with (1 + length a)%nat. rewrite Nat.add_comm, <- drop_drop, drop_app_length. done.
Qed.

(** Joining the parts of a split with the separator gives the input back. *)
Fixpoint join_byte (c : byte) (parts : list bytes) : bytes :=
  match parts with
  | [] => []
  | [p] => p
  | p :: ps => p ++ c :: join_byte c ps
  end.

Lemma split_byte_nonempty c s : split_byte c s <> [].
Proof. destruct s as [|x s]; cbn; [done|]. destruct (x =b c); [done|]. by destruct (split_byte c s). Qed.

Lemma join_split c s : join_byte c (split_byte c s) = s.
Proof.
  induction s as [|x s IH]; cbn; [done|].
  pose proof (split_byte_nonempty c s) as Hne.
  destruct (x =b c) eqn:E.
  - apply beq_eq in E as ->. destruct (split_byte c s); [done|]. by rewrite <- IH.
  - destruct (split_byte c s) as [|p ps]; [done|]. rewrite <- IH. by destruct ps.
Qed.

Lemma split_byte_no_sep c s p : In p (split_byte c s) -> ~ In c p.
Proof.
  revert p. induction s as [|x s IH]; cbn; intros p; [intros [<-|[]]; auto|].
  pose proof (split_byte_nonempty c s) as Hne.
  destruct (x =b c) eqn:E.
  - intros [<-|H]; [auto|]. by apply IH.
  - destruct (split_byte c s) as [|q qs]; [done|].
    intros [<-|H]; [|apply IH; by right].
    intros [->|H]; [by rewrite beq_refl in E|]. eapply IH; [by left|done].
Qed.

Lemma digits_value_app acc s t :
  digits_value acc (s ++ t) = match digits_value acc s with Some v => digits_value v t | None => None end.
Proof. revert acc. induction s as [|b s IH]; intros acc; cbn; [done|]. destruct (is_digit b); auto. Qed.

Lemma is_digit_range b : is_digit b = true -> 48 <= bZ b <= 57.
Proof. unfold is_digit. intros. bool_prop. lia. Qed.

Lemma digits_value_ge acc s v : 0 <= acc -> digits_value acc s = Some v -> acc <= v.
Proof.
  revert acc. induction s as [|b s IH]; intros acc Ha; cbn; [intros [= <-]; lia|].
  destruct (is_digit b) eqn:E; [|done]. apply is_digit_range in E.
  intros H. apply IH in H; lia.
Qed.

Lemma parse_uint_range s bits v : parse_uint s bits = Some v -> 0 <= v < 2 ^ bits.
Proof.
  unfold parse_uint. destruct s as [|b s]; [done|].
  destruct (digits_value 0 (b :: s)) as [w|] eqn:E; [|done].
  apply digits_value_ge in E; [|lia].
  destruct (w <? 2 ^ bits) eqn:F; [|done]. intros [= <-]. bool_prop. lia.
Qed.

(** Splitting a join gives the parts back, when none has the separator. *)
Lemma split_byte_cut c p s : ~ In c p -> split_byte c (p ++ c :: s) = p :: split_byte c s.
Proof.
  induction p as [|x p IH]; intros H; cbn; [by rewrite beq_refl|].
  destruct (x =b c) eqn:E; [apply beq_eq in E as ->; destruct H; by left|]. rewrite IH; [done|]. intros K. apply H. by right.
Qed.
Lemma split_byte_whole c p : ~ In c p -> split_byte c p = [p].
Proof.
  induction p as [|x p IH]; intros H; cbn; [done|]. destruct (x =b c) eqn:E; [apply beq_eq in E as ->; destruct H; by left|].
  rewrite IH; [done|]. intros K. apply H. by right.
Qed.
Lemma split_join c parts : parts <> [] -> Forall (fun p => ~ In c p) parts -> split_byte c (join_byte c parts) = parts.
Proof.
  intros Hne H. induction H as [|p [|q parts] Hp Hps IH]; [done|by apply split_byte_whole|].
  change (join_byte c (p :: q :: parts)) with (p ++ c :: join_byte c (q :: parts)). rewrite split_byte_cut by done. by rewrite IH.
Qed.
