(* ===== verification/Errors.v ===== *)
(** * Stable errors

    [bridge/errors.go], [mapIMAPError] of [bridge/imapclient.go] and the tool
    error vocabulary of [internal/mcpserver/errors.go] and [audit.go].

    A Go [error] is modelled by the pre-order list of the nodes its chain of
    wrapped and joined errors visits: [errors.As] finds the first node of a
    type and [errors.Is] asks whether a node occurs. *)
From Stdlib Require Import ZArith Lia Strings.Byte.
From stdpp Require Import base list gmap strings.
From S2P Require Import Prelude GoStrings.

(** ** The codes of the bridge *)

Inductive code :=
| CodeInvalidConfig | CodeInvalidEndpoint | CodeTLSRequired | CodeTLSMismatch
| CodeTLSNegotiation | CodeCredentialCommand | CodeCredentialTimeout
| CodeCredentialOutput | CodeCredentialOverflow | CodeBridgeUnreachable
| CodeBoundsExceeded | CodeOperationCanceled | CodeCommandTimedOut
| CodeAuthentication | CodeMailboxNotFound | CodeStaleMessageID
| CodeMessageNotFound | CodeInvalidRequest | CodeUnsupported | CodeIMAPCommand
| CodeIMAPProtocol | CodeAdapterClosed.

#[export] Instance code_eq_dec : EqDecision code.
Proof. solve_decision. Defined.

Definition code_text (c : code) : bytes :=
  match c with
  | CodeInvalidConfig => $"invalid_config"
  | CodeInvalidEndpoint => $"invalid_endpoint"
  | CodeTLSRequired => $"tls_trust_required"
  | CodeTLSMismatch => $"tls_mismatch"
  | CodeTLSNegotiation => $"tls_negotiation_failed"
  | CodeCredentialCommand => $"credential_command_failed"
  | CodeCredentialTimeout => $"credential_command_timed_out"
  | CodeCredentialOutput => $"credential_command_invalid_output"
  | CodeCredentialOverflow => $"credential_command_output_too_large"
  | CodeBridgeUnreachable => $"bridge_unreachable"
  | CodeBoundsExceeded => $"bounds_exceeded"
  | CodeOperationCanceled => $"operation_canceled"
  | CodeCommandTimedOut => $"command_timed_out"
  | CodeAuthentication => $"authentication_failed"
  | CodeMailboxNotFound => $"mailbox_not_found"
  | CodeStaleMessageID => $"stale_message_id"
  | CodeMessageNotFound => $"message_not_found"
  | CodeInvalidRequest => $"invalid_request"
  | CodeUnsupported => $"unsupported"
  | CodeIMAPCommand => $"imap_command_failed"
  | CodeIMAPProtocol => $"imap_protocol_error"
  | CodeAdapterClosed => $"adapter_closed"
  end.

(** ** Error chains *)

Inductive errnode :=
| NBridge (c : code)          (* *bridge.Error *)
| NNormalize (text : bytes)   (* *bridge.NormalizeError *)
| NAuthFailure                (* authenticationFailure *)
| NEOF | NUnexpectedEOF | NNetClosed | NConnReset | NPipe
| NNetOp                      (* *net.OpError *)
| NImap                       (* *imap.Error *)
| NCanceled | NDeadlineExceeded
| NOther.

#[export] Instance errnode_eq_dec : EqDecision errnode.
Proof. solve_decision. Defined.

Definition goerror := list errnode.

Definition errorCode (c : code) : goerror := [NBridge c].

(** [errors.As] for [*bridge.Error]. *)
Fixpoint CodeOf (e : goerror) : option code :=
  match e with
  | [] => None
  | NBridge c :: _ => Some c
  | _ :: e' => CodeOf e'
  end.

Definition errors_is (n : errnode) (e : goerror) : bool := bool_decide (n ∈ e).

(** ** Contexts *)

Inductive ctx_end := Canceled | DeadlineExceeded.

#[export] Instance ctx_end_eq_dec : EqDecision ctx_end.
Proof. solve_decision. Defined.

(** What a context says at one moment: [ctx.Err()], and whether its deadline,
    if it has one, is not after the current time. *)
Record ctx := mkCtx { ctx_err : option ctx_end; ctx_late : bool }.

Definition live_ctx : ctx := mkCtx None false.

Definition mapIMAPError (c : option ctx) (err : option goerror) : option goerror :=
  match err with
  | None => None
  | Some e =>
      match c with
      | Some (mkCtx (Some Canceled) _) => Some (errorCode CodeOperationCanceled)
      | Some (mkCtx (Some DeadlineExceeded) _) => Some (errorCode CodeCommandTimedOut)
      | Some (mkCtx None true) => Some (errorCode CodeCommandTimedOut)
      | _ =>
          match CodeOf e with
          | Some c => Some (errorCode c)
          | None =>
              if errors_is NAuthFailure e then Some (errorCode CodeAuthentication)
              else if errors_is NEOF e || errors_is NUnexpectedEOF e || errors_is NNetClosed e
                      || errors_is NConnReset e || errors_is NPipe e
              then Some (errorCode CodeBridgeUnreachable)
              else if errors_is NNetOp e then Some (errorCode CodeBridgeUnreachable)
              else if errors_is NImap e then Some (errorCode CodeIMAPCommand)
              else Some (errorCode CodeIMAPProtocol)
          end
      end
  end.

#[global] Arguments mapIMAPError : simpl never.

(** ** Tool errors *)

Inductive tool_code :=
| errInvalidArgument | errNotFound | errStaleID | errBoundsExceeded | errTimedOut
| errCanceled | errUnavailable | errUnsupported | errInternal.

#[export] Instance tool_code_eq_dec : EqDecision tool_code.
Proof. solve_decision. Defined.

Definition mapAdapterError (err : goerror) : tool_code :=
  match CodeOf err with
  | Some CodeMailboxNotFound | Some CodeMessageNotFound => errNotFound
  | Some CodeInvalidRequest => errInvalidArgument
  | Some CodeUnsupported => errUnsupported
  | Some CodeStaleMessageID => errStaleID
  | Some CodeBoundsExceeded => errBoundsExceeded
  | Some CodeCommandTimedOut | Some CodeCredentialTimeout => errTimedOut
  | Some CodeOperationCanceled => errCanceled
  | Some CodeInvalidConfig | Some CodeInvalidEndpoint | Some CodeTLSRequired
  | Some CodeTLSMismatch | Some CodeTLSNegotiation | Some CodeCredentialCommand
  | Some CodeCredentialOutput | Some CodeCredentialOverflow | Some CodeBridgeUnreachable
  | Some CodeAuthentication | Some CodeIMAPCommand | Some CodeIMAPProtocol
  | Some CodeAdapterClosed => errUnavailable
  | None => errInternal
  end.

(** ** Facts *)

Lemma code_text_inj c d : code_text c = code_text d -> c = d.
Proof. destruct c, d; intros H; first [reflexivity | discriminate H]. Qed.

(** A mapped error is always one bridge error, so its code is present. *)
Lemma mapIMAPError_code c e e' :
  mapIMAPError c (Some e) = Some e' -> exists d, e' = errorCode d /\ CodeOf e' = Some d.
Proof.
  unfold mapIMAPError. intros H.
  repeat split_in H; injection H as <-; eauto.
Qed.

Lemma mapIMAPError_Some c e : exists d, mapIMAPError c (Some e) = Some (errorCode d).
Proof.
  destruct (mapIMAPError c (Some e)) as [e'|] eqn:E.
  - destruct (mapIMAPError_code _ _ _ E) as [d [-> _]]. eauto.
  - exfalso. unfold mapIMAPError in E. repeat split_in E; discriminate E.
Qed.

(** On a live context a bridge error keeps its code. *)
Lemma mapIMAPError_bridge e d :
  CodeOf e = Some d -> mapIMAPError (Some live_ctx) (Some e) = Some (errorCode d).
Proof. unfold mapIMAPError, live_ctx. by intros ->. Qed.
