(* ===== verification/ImapGrammar.v ===== *)
(** * The flat IMAP grammar of the structure quarantine

    The lexical predicates and the control-line classifier at the end of
    [bridge/structure_quarantine.go]. *)
From Stdlib Require Import ZArith Lia Strings.Byte.
From stdpp Require Import base list gmap strings.
From S2P Require Import Prelude GoStrings.

Definition DQUOTE : byte := x22.
Definition BACKSLASH : byte := x5c.
Definition CR : byte := x0d.
Definition LF : byte := x0a.
Definition SP : byte := x20.

(** [quarantineAtomChar]: an IMAP ATOM-CHAR. *)
Definition quarantineAtomChar (value : byte) : bool :=
  if (bZ value <=? 32) || (127 <=? bZ value) then false
  else negb (contains_byte value ["("%byte; ")"%byte; "{"%byte; DQUOTE; "%"%byte; "*"%byte; BACKSLASH; "]"%byte]).

Definition quarantineAtom (value : bytes) : bool :=
  match value with
  | [] => false
  | _ => forallb quarantineAtomChar value
  end.

(** [quarantineFlag]: a keyword or a system flag. *)
Definition quarantineFlag (value : bytes) : bool :=
  quarantineAtom (trim_prefix value [BACKSLASH]).

(** [quarantineNumber]: a canonical uint32; zero only when allowed. *)
Definition quarantineNumber (value : bytes) (zero : bool) : option Z :=
  match value with
  | [] => None
  | b :: rest =>
      if (b =b "0"%byte) && (negb (bool_decide (rest = [])) || negb zero) then None
      else parse_uint value 32
  end.

(** [quarantineText]: a leading response code must close on the line. *)
Definition quarantineText (text : bytes) : bool :=
  if has_prefix text $"[" then contains_byte "]"%byte text else true.

(** The loop of [quarantineFlat]: printable ASCII with complete quoted strings
    and no brace. *)
Fixpoint flat_loop (quoted escaped : bool) (value : bytes) : bool :=
  match value with
  | [] => negb quoted && negb escaped
  | c :: rest =>
      if (bZ c <? 32) || (127 <=? bZ c) then false
      else if escaped then
        if negb (c =b DQUOTE) && negb (c =b BACKSLASH) then false
        else flat_loop quoted false rest
      else if quoted && (c =b BACKSLASH) then flat_loop quoted true rest
      else if c =b DQUOTE then flat_loop (negb quoted) escaped rest
      else if (c =b "{"%byte) || (c =b "}"%byte) then false
      else flat_loop quoted escaped rest
  end.

Definition quarantineFlat (value : bytes) : bool := flat_loop false false value.

(** [quarantineControl]: [line], without CRLF, is one admitted flat control. *)
Definition quarantineControl (line : bytes) : bool :=
  let (rest, plus) := cut_prefix line $"+" in
  if plus then
    match rest with
    | [] => true
    | _ => let (text, spaced) := cut_prefix rest $" " in spaced && quarantineText text
    end
  else
  let (rest, untagged) := cut_prefix line $"* " in
  if negb untagged then
    let '(tag, status, _) := cut_byte SP line in
    if negb (quarantineAtom tag) || contains_byte "+"%byte tag then false
    else
      let '(name, text, hasText) := cut_byte SP status in
      let upper := to_upper name in
      if beqs upper $"OK" || beqs upper $"NO" || beqs upper $"BAD"
      then negb hasText || quarantineText text
      else false
  else
    let '(name, arguments, hasArguments) := cut_byte SP rest in
    if match name with b :: _ => is_digit b | [] => false end then
      let number := quarantineNumber name true in
      let '(kind, _, extra) := cut_byte SP arguments in
      match number with
      | None => false
      | Some number =>
          if negb hasArguments || extra then false
          else
            let upper := to_upper kind in
            if beqs upper $"EXISTS" || beqs upper $"RECENT" then true
            else if beqs upper $"EXPUNGE" then 0 <? number
            else false
      end
    else
      let upper := to_upper name in
      if beqs upper $"OK" || beqs upper $"NO" || beqs upper $"BAD" || beqs upper $"BYE"
         || beqs upper $"PREAUTH"
      then negb hasArguments || quarantineText arguments
      else if beqs upper $"CAPABILITY" then
        if negb hasArguments || contains_any arguments $"{}" then false
        else forallb quarantineAtom (split_byte SP arguments)
      else if beqs upper $"FLAGS" then
        let (list, closed) := cut_suffix arguments $")" in
        let (list, opened) := cut_prefix list $"(" in
        if negb hasArguments || negb closed || negb opened || contains_any list $"{}" then false
        else match list with
             | [] => true
             | _ => forallb quarantineFlag (split_byte SP list)
             end
      else if beqs upper $"SEARCH" || beqs upper $"ESEARCH" then
        negb hasArguments || quarantineFlat arguments
      else false.

(** [fetchPrefix]: whether ["* "] and two words each followed by a space start
    a FETCH; [None] is the protocol error of a bad sequence number. *)
Definition fetchPrefix (prefix : bytes) : option bool :=
  let '(number, name, _) := cut_byte SP (drop 2 (take (length prefix - 1) prefix)) in
  if match number with [] => true | b :: _ => negb (is_digit b) end
     || negb (equal_fold name $"FETCH")
  then Some false
  else match quarantineNumber number false with
       | None => None
       | Some _ => Some true
       end.

(** ** Facts *)

Lemma atomChar_printable b : quarantineAtomChar b = true -> 33 <= bZ b <= 126.
Proof. unfold quarantineAtomChar. destruct (_ || _) eqn:E; [done|]. bool_prop. lia. Qed.

Lemma atomChar_not_special b :
  quarantineAtomChar b = true ->
  b <> SP /\ b <> "("%byte /\ b <> ")"%byte /\ b <> "{"%byte /\ b <> DQUOTE /\ b <> BACKSLASH /\ b <> CR /\ b <> LF.
Proof. intros H. repeat split; intros ->; vm_compute in H; discriminate. Qed.

(** Accepted numbers are in the uint32 range, and positive when zero is not
    allowed. *)
Lemma quarantineNumber_range value zero v :
  quarantineNumber value zero = Some v -> 0 <= v <= MaxUint32.
Proof.
  unfold quarantineNumber, MaxUint32. destruct value as [|b rest]; [done|].
  destruct (_ && _); [done|]. intros H%parse_uint_range. lia.
Qed.

Lemma quarantineNumber_positive value v : quarantineNumber value false = Some v -> 0 < v.
Proof.
  unfold quarantineNumber. destruct value as [|b rest]; [done|].
  cbn. rewrite orb_true_r, andb_true_r.
  destruct (b =b "0"%byte) eqn:E; [done|]. apply beq_neq in E.
  unfold parse_uint. cbn [digits_value]. destruct (is_digit b) eqn:D; [|done].
  destruct (digits_value _ rest) as [w|] eqn:Hw; [|done].
  destruct (w <? _); [|done]. intros [= <-].
  apply is_digit_range in D.
  assert (bZ b <> 48) as Hb.
  { intros Hb. apply E. unfold bZ in Hb. change 48 with (Z.of_N (Byte.to_N "0"%byte)) in Hb.
    apply N2Z.inj in Hb. pose proof (Byte.of_to_N b) as H1. rewrite Hb in H1. by injection H1. }
  apply digits_value_ge in Hw; lia.
Qed.

(** A flat control line carries no line break. *)
Lemma flat_loop_printable quoted escaped value b :
  flat_loop quoted escaped value = true -> In b value -> 32 <= bZ b < 127.
Proof.
  revert quoted escaped. induction value as [|c rest IH]; intros quoted escaped; cbn; [done|].
  destruct (_ || _) eqn:E; [done|]. apply orb_false_iff in E as [E1 E2].
  intros H [<-|Hin]; [bool_prop; lia|]. repeat split_in H; try done; eauto.
Qed.
