(* ===== verification/Quarantine.v ===== *)
(** * The structure quarantine

    The pre-decoder reader of [bridge/structure_quarantine.go]: its state, the
    byte machine that frames server responses, and the operations the session
    calls.  Every operation of the source is one definition here; those that
    can fail return the new state with the error, because the source mutates
    the state on its error paths too.  The two halves of [Read] around the
    unlocked source read are [readPrepare] and [readAbsorb]; the interleaving
    of the halves with [beginDispatch] and [abort] is the step relation of
    [QuarantineSystem]. *)
From Stdlib Require Import ZArith Lia Strings.Byte.
From stdpp Require Import base list gmap strings.
From S2P Require Import Prelude GoStrings Errors ImapGrammar.

(** ** Limits *)

Definition quarantineFrameBytes : Z := 65536.
Definition quarantineDepth : Z := 64.
Definition quarantineFetchTokens : Z := 4096.
Definition quarantineAtomBytes : Z := 4096.
Definition quarantineControlBytes : Z := 4096.
Definition quarantineSessionBytes : Z := 131072.
Definition quarantineResponses : Z := 64.
Definition quarantineWorkUnits : Z := 8192.
Definition quarantineReadBytes : Z := 4096.

(** ** State *)

Inductive quarantineDispatch := quarantineIdle | quarantineActive | quarantineDelivered.
Inductive quarantineMode := quarantineBetween | quarantineLine | quarantineFetch.
Inductive fetchState :=
| fetchOpen | fetchItems | fetchAtom | fetchQuoted | fetchEscape | fetchLiteralSize
| fetchLiteralCR | fetchLiteralLF | fetchLiteral | fetchEndCR | fetchEndLF.
Inductive fetchPrevious := previousOpen | previousSpace | previousToken | previousClose.
Inductive fetchItemPhase := itemName | itemNamed | itemValue | itemDone.
Inductive fetchItem := itemUID | itemFlags | itemStructure.

#[export] Instance dispatch_eq_dec : EqDecision quarantineDispatch. Proof. solve_decision. Defined.
#[export] Instance mode_eq_dec : EqDecision quarantineMode. Proof. solve_decision. Defined.
#[export] Instance fetchState_eq_dec : EqDecision fetchState. Proof. solve_decision. Defined.
#[export] Instance previous_eq_dec : EqDecision fetchPrevious. Proof. solve_decision. Defined.
#[export] Instance phase_eq_dec : EqDecision fetchItemPhase. Proof. solve_decision. Defined.
#[export] Instance item_eq_dec : EqDecision fetchItem. Proof. solve_decision. Defined.

(** The fields of [structureQuarantine] that its locks protect.  [frameCap] is
    Go's [cap] of the slice [frame]. *)
Record structureQuarantine := mkQuarantine {
  selectedUID : Z;
  dispatch : quarantineDispatch;
  pending : bytes;
  terminal : option code;
  sessionBytes : Z;
  responses : Z;
  work : Z;
  mode : quarantineMode;
  frame : bytes;
  frameCap : Z;
  lineSpaces : Z;
  lineCR : bool;
  state : fetchState;
  depth : Z;
  tokens : Z;
  previous : fetchPrevious;
  phase : fetchItemPhase;
  item : fetchItem;
  flagsList : bool;
  atomStart : nat;
  literal : Z;
  digits : Z;
  uidCount : Z;
  uid : Z;
  flags : Z;
  structure : Z }.

#[export] Instance eta_quarantine : Eta structureQuarantine := fun q =>
  mkQuarantine (selectedUID q) (dispatch q) (pending q) (terminal q) (sessionBytes q)
    (responses q) (work q) (mode q) (frame q) (frameCap q) (lineSpaces q) (lineCR q)
    (state q) (depth q) (tokens q) (previous q) (phase q) (item q) (flagsList q)
    (atomStart q) (literal q) (digits q) (uidCount q) (uid q) (flags q) (structure q).

(** The result of an operation that may return an error. *)
Abbreviation qresult := (structureQuarantine * option code)%type.

(** Go's [if err := m; err != nil { return err }]. *)
Definition andThen (r : qresult) (k : structureQuarantine -> qresult) : qresult :=
  match r with
  | (q, None) => k q
  | (q, Some e) => (q, Some e)
  end.

Notation "'do' q <- m ; k" := (andThen m (fun q => k))
  (at level 200, q name, m at level 100, k at level 200) : go_scope.

Definition ok (q : structureQuarantine) : qresult := (q, None).
Definition fails (c : code) (q : structureQuarantine) : qresult := (q, Some c).

(** [newStructureQuarantine] with a non-nil source. *)
Definition newStructureQuarantine (selected : Z) : structureQuarantine + code :=
  if selected =? 0 then inr CodeInvalidRequest
  else inl (mkQuarantine selected quarantineIdle [] None 0 0 0 quarantineBetween [] 0 0 false
              fetchOpen 0 0 previousOpen itemName itemUID false 0 0 0 0 0 0 0).

(** ** Refusal, dispatch and abort *)

Definition refuseLocked (e : code) (q : structureQuarantine) : structureQuarantine :=
  q <| terminal := Some e |> <| frame := [] |> <| frameCap := 0 |>.

Definition abortLocked (cause : goerror) (q : structureQuarantine) : structureQuarantine :=
  if errors_is NCanceled cause || bool_decide (CodeOf cause = Some CodeOperationCanceled)
  then refuseLocked CodeOperationCanceled q
  else refuseLocked CodeCommandTimedOut q.

(** [abort]: the new state and the returned error. *)
Definition abort (cause : goerror) (q : structureQuarantine) : qresult :=
  match terminal q with
  | Some e => (q, Some e)
  | None => let q := abortLocked cause q in (q, terminal q)
  end.

Definition beginDispatch (q : structureQuarantine) : qresult :=
  match terminal q with
  | Some e => (q, Some e)
  | None =>
      if negb (bool_decide (dispatch q = quarantineIdle))
      then let q := refuseLocked CodeIMAPProtocol q in (q, terminal q)
      else ok (q <| dispatch := quarantineActive |>)
  end.

Definition sourceFailedLocked (err : goerror) (q : structureQuarantine) : structureQuarantine :=
  if errors_is NCanceled err || errors_is NDeadlineExceeded err then abortLocked err q
  else if negb (bool_decide (mode q = quarantineBetween)) then refuseLocked CodeIMAPProtocol q
  else refuseLocked CodeBridgeUnreachable q.

(** ** Budgets *)

Definition tokenLocked (q : structureQuarantine) : qresult :=
  if (tokens q =? quarantineFetchTokens) || (work q =? quarantineWorkUnits)
  then fails CodeBoundsExceeded q
  else ok (q <| tokens := tokens q + 1 |> <| work := work q + 1 |>).

Definition openLocked (q : structureQuarantine) : qresult :=
  if depth q =? quarantineDepth then fails CodeBoundsExceeded q
  else do q <- tokenLocked q;
       ok (q <| depth := depth q + 1 |> <| previous := previousOpen |>).

Definition closeLocked (q : structureQuarantine) : qresult :=
  do q <- tokenLocked q;
  let q := q <| depth := depth q - 1 |> <| previous := previousClose |> in
  ok (if depth q =? 1 then q <| phase := itemDone |> <| flagsList := false |>
      else if depth q =? 0 then q <| state := fetchEndCR |>
      else q).

(** The least number of bytes and list closings that can complete the FETCH
    being read, as [fetchFeasibleLocked] counts them. *)
Definition bytesNeeded (q : structureQuarantine) : Z :=
  let base := depth q + 2 in
  match state q with
  | fetchOpen => 4
  | fetchQuoted => base + 1
  | fetchEscape => base + 2
  | fetchLiteralSize => base + (3 + literal q) + (if digits q =? 0 then 1 else 0)
  | fetchLiteralCR => base + (2 + literal q)
  | fetchLiteralLF => base + (1 + literal q)
  | fetchLiteral => base + literal q
  | fetchEndLF => 1
  | _ => base
  end.

Definition closingNeeded (q : structureQuarantine) : Z :=
  match state q with fetchOpen => 2 | _ => depth q end.

Definition fetchFeasibleLocked (q : structureQuarantine) : qresult :=
  if (quarantineFrameBytes <? zlen (frame q) + bytesNeeded q)
     || (quarantineSessionBytes <? sessionBytes q + bytesNeeded q)
     || (quarantineFetchTokens <? tokens q + closingNeeded q)
     || (quarantineWorkUnits <? work q + closingNeeded q)
  then fails CodeBoundsExceeded q
  else ok q.

(** ** Completing a response *)

Definition releaseLocked (q : structureQuarantine) : structureQuarantine :=
  q <| pending := pending q ++ frame q |> <| mode := quarantineBetween |>.

Definition completeLineLocked (q : structureQuarantine) : qresult :=
  if negb (quarantineControl (take (length (frame q) - 2) (frame q)))
  then fails CodeIMAPProtocol q
  else ok (releaseLocked (q <| work := work q + 1 |>)).

Definition completeFetchLocked (q : structureQuarantine) : qresult :=
  if structure q =? 1 then
    if (uidCount q =? 0) || negb (uid q =? selectedUID q)
       || negb (bool_decide (dispatch q = quarantineActive))
    then fails CodeIMAPProtocol q
    else ok (releaseLocked (q <| dispatch := quarantineDelivered |>))
  else if flags q =? 1 then ok (q <| mode := quarantineBetween |>)
  else fails CodeIMAPProtocol q.

(** ** Atoms *)

Definition nameLocked (name : bytes) (q : structureQuarantine) : qresult :=
  let upper := to_upper name in
  if beqs upper $"UID" then
    let q := q <| item := itemUID |> in
    if 0 <? uidCount q then fails CodeIMAPProtocol q
    else ok (q <| uidCount := 1 |> <| phase := itemNamed |>)
  else if beqs upper $"FLAGS" then
    let q := q <| item := itemFlags |> in
    if 0 <? flags q then fails CodeIMAPProtocol q
    else ok (q <| flags := 1 |> <| phase := itemNamed |>)
  else if beqs upper $"BODYSTRUCTURE" then
    let q := q <| item := itemStructure |> in
    if 0 <? structure q then fails CodeIMAPProtocol q
    else ok (q <| structure := 1 |> <| phase := itemNamed |>)
  else fails CodeIMAPProtocol q.

Definition endAtomLocked (stop : nat) (q : structureQuarantine) : qresult :=
  let atom := take (stop - atomStart q) (drop (atomStart q) (frame q)) in
  let q := q <| previous := previousToken |> in
  if (depth q =? 1) && bool_decide (phase q = itemName) then nameLocked atom q
  else if depth q =? 1 then
    match quarantineNumber atom false with
    | None => fails CodeIMAPProtocol q
    | Some n => ok (q <| uid := n |> <| phase := itemDone |>)
    end
  else if flagsList q && negb (quarantineFlag atom) then fails CodeIMAPProtocol q
  else ok q.

(** ** One byte of a FETCH *)

Definition literalSizeByteLocked (value : byte) (q : structureQuarantine) : qresult :=
  if (value =b "}"%byte) && (0 <? digits q) then ok (q <| state := fetchLiteralCR |>)
  else if negb (is_digit value) || (digits q =? 10) then fails CodeIMAPProtocol q
  else
    let q := q <| digits := digits q + 1 |>
               <| literal := u64 (literal q * 10 + (bZ value - 48)) |> in
    if MaxUint32 <? literal q then fails CodeIMAPProtocol q else ok q.

(** The byte starts a token: the tail of [itemsByteLocked]. *)
Definition startTokenLocked (value : byte) (q : structureQuarantine) : qresult :=
  let atom := quarantineAtomChar value || (value =b BACKSLASH) in
  if negb (bool_decide (previous q = previousOpen)) && negb (bool_decide (previous q = previousSpace))
  then fails CodeIMAPProtocol q
  else if (depth q =? 1)
          && (negb atom || (bool_decide (phase q = itemValue) && negb (bool_decide (item q = itemUID))))
  then fails CodeIMAPProtocol q
  else if flagsList q && negb atom then fails CodeIMAPProtocol q
  else if value =b DQUOTE then tokenLocked (q <| state := fetchQuoted |>)
  else if value =b "{"%byte then
    tokenLocked (q <| state := fetchLiteralSize |> <| literal := 0 |> <| digits := 0 |>)
  else if atom then
    tokenLocked (q <| state := fetchAtom |> <| atomStart := (length (frame q) - 1)%nat |>)
  else fails CodeIMAPProtocol q.

Definition itemsByteLocked (value : byte) (q : structureQuarantine) : qresult :=
  if value =b SP then
    if negb (bool_decide (previous q = previousToken)) && negb (bool_decide (previous q = previousClose))
    then fails CodeIMAPProtocol q
    else if depth q =? 1 then
      match phase q with
      | itemNamed => ok (q <| phase := itemValue |> <| previous := previousSpace |>)
      | itemDone => ok (q <| phase := itemName |> <| previous := previousSpace |>)
      | _ => fails CodeIMAPProtocol q
      end
    else ok (q <| previous := previousSpace |>)
  else if value =b "("%byte then
    let nested := bool_decide (previous q = previousClose) && (2 <=? depth q) && negb (flagsList q) in
    if negb (bool_decide (previous q = previousOpen)) && negb (bool_decide (previous q = previousSpace))
       && negb nested
    then fails CodeIMAPProtocol q
    else if depth q =? 1 then
      if negb (bool_decide (phase q = itemValue)) || bool_decide (item q = itemUID)
      then fails CodeIMAPProtocol q
      else openLocked (q <| flagsList := bool_decide (item q = itemFlags) |>)
    else if flagsList q then fails CodeIMAPProtocol q
    else openLocked q
  else if value =b ")"%byte then
    if bool_decide (previous q = previousSpace)
       || ((depth q =? 1) && negb (bool_decide (phase q = itemDone)))
    then fails CodeIMAPProtocol q
    else closeLocked q
  else startTokenLocked value q.

(** The end of a quoted string or of a literal. *)
Definition tokenEnded (q : structureQuarantine) : structureQuarantine :=
  q <| state := fetchItems |> <| previous := previousToken |>.

Definition fetchByteLocked (value : byte) (q : structureQuarantine) : qresult :=
  match state q with
  | fetchOpen =>
      if negb (value =b "("%byte) then fails CodeIMAPProtocol q
      else openLocked (q <| state := fetchItems |>)
  | fetchItems => itemsByteLocked value q
  | fetchAtom =>
      if quarantineAtomChar value then
        if quarantineAtomBytes <? zlen (frame q) - Z.of_nat (atomStart q)
        then fails CodeBoundsExceeded q else ok q
      else
        do q <- endAtomLocked (length (frame q) - 1) q;
        itemsByteLocked value (q <| state := fetchItems |>)
  | fetchQuoted =>
      if value =b DQUOTE then ok (tokenEnded q)
      else if value =b BACKSLASH then ok (q <| state := fetchEscape |>)
      else if (value =b CR) || (value =b LF) || (value =b x00) then fails CodeIMAPProtocol q
      else ok q
  | fetchEscape =>
      if negb (value =b DQUOTE) && negb (value =b BACKSLASH) then fails CodeIMAPProtocol q
      else ok (q <| state := fetchQuoted |>)
  | fetchLiteralSize => literalSizeByteLocked value q
  | fetchLiteralCR =>
      if negb (value =b CR) then fails CodeIMAPProtocol q else ok (q <| state := fetchLiteralLF |>)
  | fetchLiteralLF =>
      if negb (value =b LF) then fails CodeIMAPProtocol q
      else let q := q <| state := fetchLiteral |> in
           ok (if literal q =? 0 then tokenEnded q else q)
  | fetchLiteral =>
      let q := q <| literal := u64 (literal q - 1) |> in
      ok (if literal q =? 0 then tokenEnded q else q)
  | fetchEndCR =>
      if negb (value =b CR) then fails CodeIMAPProtocol q else ok (q <| state := fetchEndLF |>)
  | fetchEndLF =>
      if negb (value =b LF) then fails CodeIMAPProtocol q else completeFetchLocked q
  end.

(** ** One byte of a line *)

Definition startFetchLocked (q : structureQuarantine) : structureQuarantine :=
  q <| mode := quarantineFetch |> <| state := fetchOpen |> <| depth := 0 |> <| tokens := 0 |>
    <| phase := itemName |> <| flagsList := false |> <| uidCount := 0 |> <| uid := 0 |>
    <| flags := 0 |> <| structure := 0 |>.

Definition startResponseLocked (q : structureQuarantine) : structureQuarantine :=
  q <| responses := responses q + 1 |> <| mode := quarantineLine |> <| frame := [] |>
    <| lineSpaces := 0 |> <| lineCR := false |>.

(** The budget check at the end of [lineByteLocked]. *)
Definition lineBudget (q : structureQuarantine) : qresult :=
  let need := if lineCR q then 1 else 2 in
  if (quarantineControlBytes <? zlen (frame q) + need)
     || (quarantineSessionBytes <? sessionBytes q + need)
  then fails CodeBoundsExceeded q else ok q.

Definition lineByteLocked (value : byte) (q : structureQuarantine) : qresult :=
  if lineCR q then
    if negb (value =b LF) then fails CodeIMAPProtocol q else completeLineLocked q
  else if value =b CR then lineBudget (q <| lineCR := true |>)
  else if value =b LF then fails CodeIMAPProtocol q
  else if (value =b SP) && match frame q with b :: _ => b =b "*"%byte | [] => false end then
    let q := q <| lineSpaces := lineSpaces q + 1 |> in
    if lineSpaces q =? 3 then
      match fetchPrefix (frame q) with
      | None => fails CodeIMAPProtocol q
      | Some true => fetchFeasibleLocked (startFetchLocked q)
      | Some false => lineBudget q
      end
    else lineBudget q
  else lineBudget q.

(** ** Feeding *)

Definition growFrameLocked (q : structureQuarantine) : structureQuarantine :=
  if zlen (frame q) <? frameCap q then q
  else q <| frameCap := Z.min (Z.max (2 * frameCap q) 256) quarantineFrameBytes |>.

Definition feedLocked (value : byte) (q : structureQuarantine) : qresult :=
  if sessionBytes q =? quarantineSessionBytes then fails CodeBoundsExceeded q
  else
    do q <- (if bool_decide (mode q = quarantineBetween) then
               if (responses q =? quarantineResponses) || (work q =? quarantineWorkUnits)
               then fails CodeBoundsExceeded q else ok (startResponseLocked q)
             else ok q);
    let q := growFrameLocked (q <| sessionBytes := sessionBytes q + 1 |>) in
    let q := q <| frame := frame q ++ [value] |> in
    if bool_decide (mode q = quarantineLine) then lineByteLocked value q
    else
      do q <- fetchByteLocked value q;
      if bool_decide (mode q = quarantineFetch) then fetchFeasibleLocked q else ok q.

(** The loop of [Read] over one chunk: the first refused byte ends the reader. *)
Fixpoint feedChunk (chunk : bytes) (q : structureQuarantine) : structureQuarantine :=
  match chunk with
  | [] => q
  | value :: rest =>
      match feedLocked value q with
      | (q, None) => feedChunk rest q
      | (q, Some e) => refuseLocked e q
      end
  end.

(** ** Read *)

Inductive readAction :=
| readReturn (data : bytes) (err : option code)   (* Read returns *)
| readSource (limit : Z).                         (* Read asks its source *)

(** From the lock to the source read, or to the return. *)
Definition readPrepare (buffer : nat) (q : structureQuarantine) : structureQuarantine * readAction :=
  match pending q with
  | _ :: _ => (q <| pending := drop buffer (pending q) |>, readReturn (take buffer (pending q)) None)
  | [] =>
      match terminal q with
      | Some e => (q, readReturn [] (Some e))
      | None =>
          match buffer with
          | O => (q, readReturn [] None)
          | _ => (q, readSource (Z.min quarantineReadBytes (quarantineSessionBytes - sessionBytes q + 1)))
          end
      end
  end.

(** What the source returned, absorbed under the lock again. *)
Definition readAbsorb (chunk : bytes) (err : option goerror) (q : structureQuarantine) : structureQuarantine :=
  match terminal q with
  | Some _ => q
  | None =>
      let q := feedChunk chunk q in
      match terminal q, err with
      | None, Some e => sourceFailedLocked e q
      | _, _ => q
      end
  end.

(** [Read] over a source whose answers are listed: the final state, the answers
    left and the returned data and error.  [None] when the listed answers run
    out while the reader still waits on its source. *)
Fixpoint Read (buffer : nat) (source : list (bytes * option goerror)) (q : structureQuarantine)
  : option (structureQuarantine * list (bytes * option goerror) * bytes * option code) :=
  match readPrepare buffer q with
  | (q, readReturn data err) => Some (q, source, data, err)
  | (q, readSource _) =>
      match source with
      | [] => None
      | (chunk, err) :: source => Read buffer source (readAbsorb chunk err q)
      end
  end.
