(* ===== verification/QuarantineInv.v ===== *)
(** * Budgets and shape of the structure quarantine

    The invariant every operation of [Quarantine] keeps, the lower bound that
    makes [fetchFeasibleLocked] exact, and the stickiness of a refusal. *)
From Stdlib Require Import ZArith Lia Strings.Byte.
From stdpp Require Import base list gmap strings.
From S2P Require Import Prelude GoStrings Errors ImapGrammar Quarantine.

(** ** The invariant *)

(** Budget counters and raw storage; holds in every state, refused or not. *)
Record counters_ok (q : structureQuarantine) : Prop := {
  c_session : 0 <= sessionBytes q <= quarantineSessionBytes;
  c_responses : 0 <= responses q <= quarantineResponses;
  c_work : 0 <= work q <= quarantineWorkUnits;
  c_frame : zlen (frame q) <= frameCap q <= quarantineFrameBytes }.

(** The lexical state of a FETCH being read. *)
Record shape_ok (q : structureQuarantine) : Prop := {
  s_depth : 0 <= depth q <= quarantineDepth;
  s_state : match state q with
            | fetchOpen | fetchEndCR | fetchEndLF => depth q = 0
            | _ => 1 <= depth q
            end;
  s_literal : 0 <= literal q <= MaxUint32;
  s_payload : state q = fetchLiteral -> 0 < literal q;
  s_digits : 0 <= digits q <= 10;
  s_tokens : 0 <= tokens q }.

(** The atom being read lies in the frame and within its byte limit. *)
Definition atom_ok (q : structureQuarantine) : Prop :=
  state q = fetchAtom ->
  Z.of_nat (atomStart q) < zlen (frame q) <= Z.of_nat (atomStart q) + quarantineAtomBytes.

(** The least completion fits every budget. *)
Record feasible (q : structureQuarantine) : Prop := {
  f_frame : zlen (frame q) + bytesNeeded q <= quarantineFrameBytes;
  f_session : sessionBytes q + bytesNeeded q <= quarantineSessionBytes;
  f_tokens : tokens q + closingNeeded q <= quarantineFetchTokens;
  f_work : work q + closingNeeded q <= quarantineWorkUnits }.

Record line_ok (q : structureQuarantine) : Prop := {
  l_frame : 1 <= zlen (frame q) <= quarantineControlBytes - (if lineCR q then 1 else 2);
  l_session : sessionBytes q + (if lineCR q then 1 else 2) <= quarantineSessionBytes;
  l_work : work q < quarantineWorkUnits }.

(** The literal registers keep their last value between frames. *)
Definition regs_ok (q : structureQuarantine) : Prop :=
  0 <= literal q <= MaxUint32 /\ 0 <= digits q <= 10.

(** A reader that is not refused. *)
Definition live_ok (q : structureQuarantine) : Prop :=
  regs_ok q /\
  match mode q with
  | quarantineBetween => True
  | quarantineLine => line_ok q
  | quarantineFetch => shape_ok q /\ atom_ok q /\ feasible q
  end.

Definition quarantine_ok (q : structureQuarantine) : Prop :=
  counters_ok q /\ (terminal q = None -> live_ok q).

(** ** Automation *)

Ltac limits :=
  unfold quarantineFrameBytes, quarantineDepth, quarantineFetchTokens, quarantineAtomBytes,
    quarantineControlBytes, quarantineSessionBytes, quarantineResponses, quarantineWorkUnits,
    quarantineReadBytes, MaxUint32 in *.

Ltac case_result H :=
  repeat (first [ discriminate H | progress (unfold ok, fails, andThen in H; cbn -[u64 Z.add Z.mul Z.sub Z.ltb Z.eqb Z.leb Z.min Z.max is_digit quarantineAtomChar beqs to_upper] in H) | split_in H ]);
  try (injection H as <- ).

Lemma tokenLocked_ok q q' :
  tokenLocked q = (q', None) ->
  q' = q <| tokens := tokens q + 1 |> <| work := work q + 1 |>
  /\ tokens q <> quarantineFetchTokens /\ work q <> quarantineWorkUnits.
Proof.
  unfold tokenLocked, fails, ok. destruct (_ || _) eqn:E; [done|].
  intros [= <-]. bool_prop. done.
Qed.

(** ** One byte of a FETCH *)

(** What no byte of a FETCH changes, and the tokens it counts. *)
Record fetch_frame (q q' : structureQuarantine) : Prop := {
  ff_session : sessionBytes q' = sessionBytes q;
  ff_responses : responses q' = responses q;
  ff_frame : frame q' = frame q;
  ff_cap : frameCap q' = frameCap q;
  ff_terminal : terminal q' = terminal q;
  ff_selected : selectedUID q' = selectedUID q;
  ff_tokens : tokens q <= tokens q';
  ff_work : work q' - work q = tokens q' - tokens q }.

(** The potential argument behind [fetchFeasibleLocked]: one byte lowers the
    least completion by at most one, and a closing counts a token. *)
Definition fetch_advance (q q' : structureQuarantine) : Prop :=
  match mode q' with
  | quarantineFetch =>
      mode q = quarantineFetch /\ shape_ok q' /\ atom_ok q'
      /\ bytesNeeded q <= 1 + bytesNeeded q'
      /\ closingNeeded q + tokens q <= closingNeeded q' + tokens q'
  | quarantineBetween =>
      regs_ok q' /\ bytesNeeded q <= 1 /\ closingNeeded q = 0 /\ tokens q' = tokens q
  | quarantineLine => False
  end.

Definition fetch_step (q q' : structureQuarantine) : Prop :=
  fetch_frame q q' /\ fetch_advance q q'.

(** Two states that differ only in what the FETCH attributes have shown. *)
Record lex_eq (q q' : structureQuarantine) : Prop := {
  le_frame : fetch_frame q q';
  le_tokens : tokens q' = tokens q;
  le_mode : mode q' = mode q;
  le_state : state q' = state q;
  le_depth : depth q' = depth q;
  le_literal : literal q' = literal q;
  le_digits : digits q' = digits q;
  le_atom : atomStart q' = atomStart q }.

Ltac frame_refl := constructor; rsimpl; first [reflexivity | lia].
Ltac open_result H :=
  repeat (split_in H; try discriminate H; bool_prop);
  try (injection H as <-).

Lemma nameLocked_lex name q q' : nameLocked name q = (q', None) -> lex_eq q q'.
Proof.
  unfold nameLocked, fails, ok. intros H. open_result H;
    (constructor; [frame_refl|..]; reflexivity).
Qed.

Lemma endAtomLocked_lex stop q q' : endAtomLocked stop q = (q', None) -> lex_eq q q'.
Proof.
  unfold endAtomLocked, fails, ok. cbv zeta. intros H.
  destruct (_ && _) in H.
  { apply nameLocked_lex in H as [[]]. constructor; [constructor|..]; assumption. }
  open_result H; (constructor; [frame_refl|..]; reflexivity).
Qed.

Lemma openLocked_ok q q' :
  openLocked q = (q', None) ->
  q' = q <| tokens := tokens q + 1 |> <| work := work q + 1 |>
         <| depth := depth q + 1 |> <| previous := previousOpen |>
  /\ depth q <> quarantineDepth.
Proof.
  unfold openLocked, fails, ok. destruct (depth q =? _) eqn:E; [done|]. bool_prop.
  destruct (tokenLocked q) as [q1 [e|]] eqn:Ht; [done|].
  apply tokenLocked_ok in Ht as [-> _]. by intros [= <-].
Qed.

Lemma closeLocked_ok q q' :
  closeLocked q = (q', None) ->
  fetch_frame q q' /\ tokens q' = tokens q + 1 /\ mode q' = mode q /\ depth q' = depth q - 1
  /\ literal q' = literal q /\ digits q' = digits q
  /\ state q' = (if depth q =? 1 then fetchEndCR else state q).
Proof.
  unfold closeLocked, ok. destruct (tokenLocked q) as [q1 [e|]] eqn:Ht; [done|].
  apply tokenLocked_ok in Ht as [-> _]. cbn [andThen]. intros [= <-].
  cbn.
  destruct (depth q - 1 =? 1) eqn:E1; [|destruct (depth q - 1 =? 0) eqn:E2];
    destruct (depth q =? 1) eqn:E3; bool_prop; try lia; repeat split; cbn; lia.
Qed.

(** A byte between tokens. *)
Ltac use_state :=
  repeat match goal with
  | H : mode _ = _ |- _ => rewrite H in *
  | H : state _ = _ |- _ => rewrite H in *
  end.
Ltac close_goal :=
  cbn; use_state; limits; try (intros Habs; discriminate Habs); try done; try lia.
Ltac close_step :=
  split; [frame_refl|]; unfold fetch_advance, bytesNeeded, closingNeeded; cbn; use_state;
  repeat match goal with |- _ /\ _ => split end;
  lazymatch goal with
  | |- shape_ok _ => constructor; close_goal
  | |- atom_ok _ => unfold atom_ok; close_goal
  | |- _ => close_goal
  end.

Lemma startToken_step v q q' :
  mode q = quarantineFetch -> state q = fetchItems -> shape_ok q -> 0 < zlen (frame q) ->
  startTokenLocked v q = (q', None) -> fetch_step q q'.
Proof.
  intros Hm Hst [Hd Hs Hl Hp Hg Ht] Hf. unfold startTokenLocked, fails. rewrite Hst in Hs.
  limits. intros H.
  repeat (split_in H; try discriminate H);
    apply tokenLocked_ok in H as [-> _]; close_step.
  intros _. unfold zlen in *. lia.
Qed.

Lemma itemsByte_step v q q' :
  mode q = quarantineFetch -> state q = fetchItems -> shape_ok q -> 0 < zlen (frame q) ->
  itemsByteLocked v q = (q', None) -> fetch_step q q'.
Proof.
  intros Hm Hst Hshape Hf. unfold itemsByteLocked, fails, ok.
  destruct (v =b SP); [|destruct (v =b "("%byte); [|destruct (v =b ")"%byte)]].
  - intros H. destruct Hshape as [Hd Hs Hl Hp Hg Ht]. rewrite Hst in Hs.
    repeat (split_in H; try discriminate H); injection H as <-; close_step.
  - intros H. destruct Hshape as [Hd Hs Hl Hp Hg Ht]. rewrite Hst in Hs. limits.
    repeat (split_in H; try discriminate H);
      apply openLocked_ok in H as [-> Hne]; limits; close_step.
  - destruct (_ || _); [done|]. intros (Hff & Htok & Hmode & Hdep & Hlit & Hdig & Hstate)%closeLocked_ok.
    destruct Hshape as [Hd Hs Hl Hp Hg Ht]. rewrite Hst in Hs, Hstate. split; [done|].
    unfold fetch_advance, bytesNeeded, closingNeeded. rewrite Hmode, Hm, Hst.
    destruct (depth q =? 1) eqn:E; bool_prop; rewrite Hstate;
      (split; [done|split; [constructor; rewrite ?Hstate; try (intros Hx; discriminate Hx); lia|]];
       split; [unfold atom_ok; rewrite Hstate; intros Hx; discriminate Hx|lia]).
  - by apply startToken_step.
Qed.

(** Ending an atom moves only the attribute bookkeeping, so the byte after it
    is a byte between tokens. *)
Lemma fetch_step_lex q q1 q' :
  state q = fetchAtom -> lex_eq q q1 -> mode q = quarantineFetch ->
  fetch_step (q1 <| state := fetchItems |>) q' -> fetch_step q q'.
Proof.
  intros Hst [[] ? ? ? ? ? ? ?] Hm [[] Hadv]. rsimpl. split.
  - constructor; congruence || lia.
  - unfold fetch_advance, bytesNeeded, closingNeeded in *. rsimpl. rewrite Hst.
    destruct (mode q'); [|done|]; intuition (congruence || lia).
Qed.

Lemma shape_items q : state q = fetchAtom -> shape_ok q -> shape_ok (q <| state := fetchItems |>).
Proof. intros Hst [Hd Hs Hl Hp Hg Ht]. rewrite Hst in Hs. by constructor; rsimpl. Qed.

Lemma shape_lex q q' : lex_eq q q' -> shape_ok q -> shape_ok q'.
Proof.
  intros [[] Ht ? Hst Hd Hl Hg ?] []. constructor; rewrite ?Hst, ?Hd, ?Hl, ?Hg, ?Ht; assumption.
Qed.

Lemma literal_digit l d : 0 <= l <= MaxUint32 -> 48 <= d <= 57 -> u64 (l * 10 + (d - 48)) = l * 10 + (d - 48).
Proof. unfold MaxUint32, u64. intros. apply Z.mod_small. lia. Qed.

Lemma literalSize_step v q q' :
  mode q = quarantineFetch -> state q = fetchLiteralSize -> shape_ok q ->
  literalSizeByteLocked v q = (q', None) -> fetch_step q q'.
Proof.
  intros Hm Hst [Hd Hs Hl Hp Hg Ht]. unfold literalSizeByteLocked, fails, ok. rewrite Hst in Hs.
  destruct (_ && _) eqn:E.
  { intros [= <-]. bool_prop. close_step. destruct (digits q =? 0) eqn:?; bool_prop; lia. }
  destruct (_ || _) eqn:F; [done|]. bool_prop.
  assert (48 <= bZ v <= 57) as Hv by (by apply is_digit_range).
  cbv zeta. split_goal; [done|]. intros [= <-]. bool_prop. cbn in Heqb.
  rewrite literal_digit in Heqb by done.
  close_step; rewrite ?literal_digit by done; try lia;
    destruct (digits q =? 0) eqn:?; destruct (digits q + 1 =? 0) eqn:?; bool_prop; lia.
Qed.

Lemma completeFetch_step q q' :
  mode q = quarantineFetch -> state q = fetchEndLF -> shape_ok q ->
  completeFetchLocked q = (q', None) -> fetch_step q q'.
Proof.
  intros Hm Hst [Hd Hs Hl Hp Hg Ht]. unfold completeFetchLocked, fails, ok, releaseLocked.
  rewrite Hst in Hs. intros H.
  repeat (split_in H; try discriminate H); injection H as <-;
    (split; [frame_refl|]); unfold fetch_advance, bytesNeeded, closingNeeded, regs_ok; cbn; rewrite Hst; lia.
Qed.

Lemma fetchByte_step v q q' :
  mode q = quarantineFetch -> shape_ok q -> 0 < zlen (frame q) ->
  (state q = fetchAtom -> Z.of_nat (atomStart q) < zlen (frame q)) ->
  fetchByteLocked v q = (q', None) -> fetch_step q q'.
Proof.
  intros Hm Hshape Hf Ha. pose proof Hshape as [Hd Hs Hl Hp Hg Ht].
  unfold fetchByteLocked, fails, ok. destruct (state q) eqn:Hst; limits.
  - (* fetchOpen *)
    destruct (negb _); [done|]. intros [-> Hne]%openLocked_ok. rsimpl. limits. close_step.
  - by apply itemsByte_step.
  - (* fetchAtom *)
    destruct (quarantineAtomChar v).
    + split_goal; [done|]. intros [= <-]. bool_prop. specialize (Ha eq_refl).
      split; [frame_refl|]. unfold fetch_advance. rewrite Hm.
      assert (atom_ok q) by (intros _; limits; lia).
      repeat match goal with |- _ /\ _ => split end; done || lia.
    + destruct (endAtomLocked _ q) as [q1 [e|]] eqn:He; [done|]. cbn [andThen]. intros H.
      apply endAtomLocked_lex in He. eapply fetch_step_lex; [done|done|done|].
      pose proof He as [[] ? Hmode Hstate ? ? ? ?].
      apply itemsByte_step in H; rsimpl; try congruence; try lia.
      apply shape_items; [congruence|]. by apply (shape_lex q).
  - (* fetchQuoted *)
    intros H. repeat (split_in H; try discriminate H); injection H as <-; unfold tokenEnded; close_step.
  - intros H. repeat (split_in H; try discriminate H); injection H as <-; close_step.
  - by apply literalSize_step.
  - intros H. repeat (split_in H; try discriminate H); injection H as <-; close_step.
  - intros H. cbv zeta in H. repeat (split_in H; try discriminate H); injection H as <-;
      unfold tokenEnded in *; cbn in Heqb0; bool_prop; close_step.
  - (* fetchLiteral *)
    specialize (Hp eq_refl). cbv zeta. intros [= <-].
    assert (u64 (literal q - 1) = literal q - 1) as Hu by (apply Z.mod_small; lia).
    split_goal; unfold tokenEnded in *; cbn in Heqb; bool_prop; close_step; rewrite ?Hu in *; lia.
  - intros H. repeat (split_in H; try discriminate H); injection H as <-; close_step.
  - split_goal; [done|]. by apply completeFetch_step.
Qed.

(** ** One byte of a line *)

Lemma lineBudget_ok q q' :
  lineBudget q = (q', None) ->
  q' = q /\ zlen (frame q) + (if lineCR q then 1 else 2) <= quarantineControlBytes
  /\ sessionBytes q + (if lineCR q then 1 else 2) <= quarantineSessionBytes.
Proof.
  unfold lineBudget, fails, ok. cbv zeta. destruct (_ || _) eqn:E; [done|]. intros [= <-]. bool_prop. done.
Qed.

Lemma fetchFeasible_ok q q' : fetchFeasibleLocked q = (q', None) -> q' = q /\ feasible q.
Proof.
  unfold fetchFeasibleLocked, fails, ok. destruct (_ || _) eqn:E; [done|]. intros [= <-].
  bool_prop. split; [done|]. constructor; lia.
Qed.

(** A refusal by [fetchFeasibleLocked] is exactly infeasibility. *)
Lemma fetchFeasible_fails q e : snd (fetchFeasibleLocked q) = Some e -> ~ feasible q.
Proof.
  unfold fetchFeasibleLocked, fails, ok. destruct (_ || _) eqn:E; [|done].
  intros _ [H1 H2 H3 H4]. apply orb_true_iff in E as [E|E];
    [apply orb_true_iff in E as [E|E]; [apply orb_true_iff in E as [E|E]|]|]; bool_prop; lia.
Qed.

Lemma feasible_state q : feasible q -> shape_ok q -> zlen (frame q) < quarantineFrameBytes.
Proof.
  intros [Hf _ _ _] [Hd Hs Hl Hp Hg Ht]. unfold bytesNeeded in Hf.
  destruct (state q); try lia. destruct (digits q =? 0); lia.
Qed.

(** What a byte of a line keeps; [pending] grows only by a release. *)
Lemma lineByte_ok v q q' :
  mode q = quarantineLine -> counters_ok q -> regs_ok q -> 1 <= zlen (frame q) ->
  work q < quarantineWorkUnits ->
  lineByteLocked v q = (q', None) -> counters_ok q' /\ live_ok q' /\ terminal q' = terminal q.
Proof.
  intros Hm Hc Hre Hf Hw. pose proof Hc as [Hs Hr Hwk Hcap]. unfold lineByteLocked, fails.
  destruct (lineCR q) eqn:Hcr.
  { destruct (negb _); [done|]. unfold completeLineLocked, fails, ok. destruct (negb _); [done|].
    intros [= <-]. split; [constructor; cbn; lia|]. done. }
  assert (forall q1, mode q1 = quarantineLine -> counters_ok q1 -> regs_ok q1 -> 1 <= zlen (frame q1) ->
            work q1 < quarantineWorkUnits -> terminal q1 = terminal q ->
            lineBudget q1 = (q', None) -> counters_ok q' /\ live_ok q' /\ terminal q' = terminal q) as Hb.
  { intros q1 Hm1 Hc1 Hr1 Hf1 Hw1 Ht1 (-> & Hb1 & Hb2)%lineBudget_ok. split; [done|split; [|done]].
    unfold live_ok. split; [done|]. rewrite Hm1. constructor; lia. }
  destruct (v =b CR); [apply Hb; rsimpl; done || constructor; done|].
  destruct (v =b LF); [done|].
  destruct (_ && _); [|by apply Hb].
  cbv zeta. destruct (_ =? 3); [|apply Hb; rsimpl; done || constructor; done].
  destruct (fetchPrefix _) as [[|]|]; [|apply Hb; rsimpl; done || constructor; done|done].
  intros [-> Hfe]%fetchFeasible_ok. split; [constructor; rsimpl; done|].
  destruct Hre. split; [|done]. hnf. split; [done|]. cbn. split; [|split; [|done]].
  - constructor; close_goal.
  - intros Hx. discriminate Hx.
Qed.

(** ** Feeding *)

Lemma growFrame_cap q :
  zlen (frame q) < quarantineFrameBytes -> zlen (frame q) <= frameCap q <= quarantineFrameBytes ->
  zlen (frame q) + 1 <= frameCap (growFrameLocked q) <= quarantineFrameBytes.
Proof.
  unfold growFrameLocked. intros Hf Hc. destruct (_ <? _) eqn:E; bool_prop; cbn; [lia|].
  limits. pose proof (zlen_nonneg (frame q)). lia.
Qed.

Lemma growFrame_same q : exists c, growFrameLocked q = q <| frameCap := c |>.
Proof.
  unfold growFrameLocked. destruct (_ <? _); [|eauto]. exists (frameCap q). by destruct q.
Qed.

(** The state [feedLocked] gives to the byte machines: the byte counted and
    appended, a new response started at a boundary. *)
Definition started (q : structureQuarantine) : structureQuarantine :=
  if bool_decide (mode q = quarantineBetween) then startResponseLocked q else q.
#[global] Arguments started : simpl never.
Definition admitted (value : byte) (q : structureQuarantine) : structureQuarantine :=
  let q := growFrameLocked ((started q) <| sessionBytes := sessionBytes (started q) + 1 |>) in
  q <| frame := frame q ++ [value] |>.

#[global] Arguments admitted : simpl never.

(** [feedLocked] is: the budgets at the boundary, then one byte of a line or
    of a FETCH. *)
Lemma feed_cases value q :
  feedLocked value q = fails CodeBoundsExceeded q \/
  (sessionBytes q <> quarantineSessionBytes
   /\ (mode q = quarantineBetween -> responses q <> quarantineResponses /\ work q <> quarantineWorkUnits)
   /\ feedLocked value q =
        let q1 := admitted value q in
        if bool_decide (mode q1 = quarantineLine) then lineByteLocked value q1
        else do q2 <- fetchByteLocked value q1;
             if bool_decide (mode q2 = quarantineFetch) then fetchFeasibleLocked q2 else ok q2).
Proof.
  unfold feedLocked, admitted, started. destruct (sessionBytes q =? _) eqn:E; [by left|].
  case_bool_decide as Hm; [destruct (_ || _) eqn:F; [by left|]|];
    right; bool_prop; (split; [done|split; [|done]]); done.
Qed.

(** Facts about the admitted state, from the invariant. *)
Lemma admitted_ok value q :
  counters_ok q -> live_ok q -> sessionBytes q <> quarantineSessionBytes ->
  (mode q = quarantineBetween -> responses q <> quarantineResponses /\ work q <> quarantineWorkUnits) ->
  counters_ok (admitted value q) /\ 1 <= zlen (frame (admitted value q))
  /\ terminal (admitted value q) = terminal q /\ regs_ok (admitted value q)
  /\ (mode (admitted value q) = quarantineLine /\ work (admitted value q) < quarantineWorkUnits
      \/ mode (admitted value q) = quarantineFetch /\ shape_ok (admitted value q)
         /\ (state (admitted value q) = fetchAtom ->
             Z.of_nat (atomStart (admitted value q)) < zlen (frame (admitted value q)))).
Proof.
  intros [Hs Hr Hw Hc] [Hre Hl] Hns Hb. unfold admitted.
  pose proof (zlen_nonneg (frame q)) as Hz.
  assert (zlen (frame (started q)) < quarantineFrameBytes) as Hlt.
  { unfold started. case_bool_decide; [done|].
    destruct (mode q); [done| |destruct Hl as (? & _ & ?); by apply feasible_state].
    destruct Hl. limits. destruct (lineCR q); lia. }
  assert (zlen (frame (started q)) <= frameCap (started q) <= quarantineFrameBytes) as Hc0.
  { unfold started. case_bool_decide; [|done]. split; [|apply Hc]. cbn. rewrite zlen_nil. lia. }
  pose proof (growFrame_cap ((started q) <| sessionBytes := sessionBytes (started q) + 1 |>)) as Hg.
  specialize (Hg ltac:(cbn; exact Hlt) ltac:(cbn; exact Hc0)).
  destruct (growFrame_same ((started q) <| sessionBytes := sessionBytes (started q) + 1 |>)) as [c Hgrow].
  rewrite Hgrow in Hg |- *. unfold started in *.
  case_bool_decide as Hm; [specialize (Hb Hm)|clear Hb]; cbn in *;
    (split; [constructor; cbn; rewrite ?zlen_snoc, ?zlen_cons, ?zlen_nil in *; lia|]);
    rewrite ?zlen_snoc, ?zlen_cons, ?zlen_nil.
  - split; [lia|split; [done|split; [done|]]]. left. split; [done|lia].
  - split; [lia|split; [done|split; [done|]]]. destruct (mode q); [done| |].
    + left. destruct Hl. done.
    + right. destruct Hl as (Hsh & Ha & _). split; [done|]. destruct Hsh. split; [by constructor|].
      intros Hst. specialize (Ha Hst). lia.
Qed.

(** ** Refused bytes *)

(** What every operation keeps whether or not it fails: no operation counts
    past a budget even when it then refuses. *)
Record keeps (q q' : structureQuarantine) : Prop := {
  k_session : sessionBytes q' = sessionBytes q;
  k_responses : responses q' = responses q;
  k_frame : frame q' = frame q;
  k_cap : frameCap q' = frameCap q;
  k_terminal : terminal q' = terminal q;
  k_selected : selectedUID q' = selectedUID q;
  k_work_mono : work q <= work q';
  k_work : work q <= quarantineWorkUnits -> work q' <= quarantineWorkUnits }.

Lemma keeps_refl q : keeps q q.
Proof. by constructor. Qed.
Lemma keeps_trans q1 q2 q3 : keeps q1 q2 -> keeps q2 q3 -> keeps q1 q3.
Proof. intros [] []. constructor; try congruence; try lia; auto. Qed.

Lemma keeps_andThen q r k :
  keeps q (fst r) -> (forall q1, keeps q1 (fst (k q1))) -> keeps q (fst (andThen r k)).
Proof. destruct r as [q1 [e|]]; cbn; [done|]. intros H1 H2. eapply keeps_trans; eauto. Qed.

Ltac keeps_here := constructor; cbn; first [reflexivity | lia].
Ltac keeps_step lem :=
  eapply keeps_trans; [|apply lem]; keeps_here.

Lemma tokenLocked_keeps q : keeps q (fst (tokenLocked q)).
Proof.
  unfold tokenLocked, fails, ok. destruct (_ || _) eqn:E; cbn; [apply keeps_refl|].
  bool_prop. constructor; cbn; try done; lia.
Qed.

Lemma openLocked_keeps q : keeps q (fst (openLocked q)).
Proof.
  unfold openLocked, fails, ok. destruct (_ =? _); [apply keeps_refl|].
  apply keeps_andThen; [apply tokenLocked_keeps|]. intros q1. keeps_here.
Qed.

Lemma closeLocked_keeps q : keeps q (fst (closeLocked q)).
Proof.
  unfold closeLocked, ok. apply keeps_andThen; [apply tokenLocked_keeps|]. intros q1. cbv zeta.
  split_goal; [|split_goal]; keeps_here.
Qed.

Lemma nameLocked_keeps name q : keeps q (fst (nameLocked name q)).
Proof. unfold nameLocked, fails, ok. cbv zeta. repeat split_goal; keeps_here. Qed.

Lemma endAtomLocked_keeps stop q : keeps q (fst (endAtomLocked stop q)).
Proof.
  unfold endAtomLocked, fails, ok. cbv zeta. split_goal; [keeps_step nameLocked_keeps|].
  repeat split_goal; keeps_here.
Qed.

Lemma itemsByteLocked_keeps v q : keeps q (fst (itemsByteLocked v q)).
Proof.
  unfold itemsByteLocked, startTokenLocked, fails, ok. cbv zeta.
  repeat split_goal; try keeps_here;
    first [apply openLocked_keeps | keeps_step openLocked_keeps
          | apply closeLocked_keeps | keeps_step tokenLocked_keeps].
Qed.

Lemma fetchByteLocked_keeps v q : keeps q (fst (fetchByteLocked v q)).
Proof.
  unfold fetchByteLocked, literalSizeByteLocked, completeFetchLocked, tokenEnded, releaseLocked, fails, ok.
  cbv zeta. destruct (state q);
    try (repeat split_goal; try keeps_here;
         first [apply itemsByteLocked_keeps | keeps_step openLocked_keeps]).
  split_goal; [split_goal; keeps_here|].
  apply keeps_andThen; [apply endAtomLocked_keeps|]. intros q1. keeps_step itemsByteLocked_keeps.
Qed.

Lemma lineByte_refused v q q' e : lineByteLocked v q = (q', Some e) -> keeps q q'.
Proof.
  unfold lineByteLocked, completeLineLocked, lineBudget, fetchFeasibleLocked, fails, ok. cbv zeta.
  intros H. repeat (split_in H; try discriminate H); injection H as <- _; keeps_here.
Qed.

Lemma keeps_counters q q' : keeps q q' -> counters_ok q -> counters_ok q'.
Proof. intros [] []. constructor; rewrite ?k_session0, ?k_responses0, ?k_frame0, ?k_cap0; lia. Qed.

Lemma feasible_keeps q : keeps q (fst (fetchFeasibleLocked q)).
Proof. unfold fetchFeasibleLocked, fails, ok. destruct (_ || _); apply keeps_refl. Qed.

(** ** The invariant is kept *)

(** A byte that is refused still keeps every counter within its budget. *)
Lemma feed_counters value q :
  counters_ok q -> live_ok q -> terminal q = None -> counters_ok (fst (feedLocked value q)).
Proof.
  intros Hc Hl Ht.
  destruct (feed_cases value q) as [->|(Hns & Hb & ->)]; [done|].
  destruct (admitted_ok value q Hc Hl Hns Hb) as (Hc1 & Hf1 & Ht1 & Hr1 & Hcase).
  cbv zeta. destruct Hcase as [[Hm Hw]|(Hm & Hsh & Ha)]; rewrite Hm.
  - rewrite bool_decide_true by done.
    destruct (lineByteLocked value (admitted value q)) as [q2 [e|]] eqn:E; cbn.
    + by eapply keeps_counters; [eapply lineByte_refused|].
    + by eapply lineByte_ok in E as (? & _).
  - rewrite bool_decide_false by done.
    eapply keeps_counters; [|done]. apply keeps_andThen; [apply fetchByteLocked_keeps|].
    intros q2. case_bool_decide; [apply feasible_keeps|apply keeps_refl].
Qed.

(** An accepted byte keeps the whole invariant. *)
Lemma feed_accepted value q q' :
  counters_ok q -> live_ok q -> terminal q = None ->
  feedLocked value q = (q', None) -> live_ok q' /\ terminal q' = None.
Proof.
  intros Hc Hl Ht Hfeed.
  destruct (feed_cases value q) as [E|(Hns & Hb & E)]; rewrite E in Hfeed; [discriminate|].
  destruct (admitted_ok value q Hc Hl Hns Hb) as (Hc1 & Hf1 & Ht1 & Hr1 & Hcase).
  cbv zeta in Hfeed. destruct Hcase as [[Hm Hw]|(Hm & Hsh & Ha)]; rewrite Hm in Hfeed.
  - rewrite bool_decide_true in Hfeed by done.
    apply lineByte_ok in Hfeed as (? & ? & ?); [|done..]. split; [done|congruence].
  - rewrite bool_decide_false in Hfeed by done.
    destruct (fetchByteLocked _ _) as [q2 [e|]] eqn:Hb2; [discriminate|]. cbn [andThen] in Hfeed.
    apply fetchByte_step in Hb2 as [[] Hadv]; [|done|done|lia|done].
    assert (terminal q2 = None) as Ht2 by congruence.
    unfold fetch_advance in Hadv. unfold live_ok.
    case_bool_decide as Hm2.
    + apply fetchFeasible_ok in Hfeed as [-> Hfe]. rewrite Hm2 in *.
      destruct Hadv as (_ & Hsh2 & Ha2 & _). split; [|done]. split; [|done]. split; apply Hsh2.
    + injection Hfeed as <-. split; [|done]. destruct (mode q2); [|done|done].
      split; [apply Hadv|done].
Qed.

Lemma refuse_ok e q : counters_ok q -> quarantine_ok (refuseLocked e q).
Proof.
  intros [Hs Hr Hw Hc]. split; [|done]. constructor; cbn; rewrite ?zlen_nil; limits; lia.
Qed.
#[export] Hint Resolve refuse_ok : croton.

Lemma feedChunk_ok chunk q : quarantine_ok q -> terminal q = None -> quarantine_ok (feedChunk chunk q).
Proof.
  revert q. induction chunk as [|value rest IH]; intros q [Hc Hl] Ht; [by split|]. cbn [feedChunk].
  pose proof (feed_counters value q Hc (Hl Ht) Ht) as Hc'.
  destruct (feedLocked value q) as [q' [e|]] eqn:E; [by apply refuse_ok|].
  apply feed_accepted in E as [Hl' Ht']; [|by auto..]. apply IH; [by split|done].
Qed.

Lemma abortLocked_ok cause q : counters_ok q -> quarantine_ok (abortLocked cause q).
Proof. intros Hc. unfold abortLocked. destruct (_ || _); by apply refuse_ok. Qed.

Lemma sourceFailed_ok err q : counters_ok q -> quarantine_ok (sourceFailedLocked err q).
Proof.
  intros Hc. unfold sourceFailedLocked.
  destruct (_ || _); [by apply abortLocked_ok|]. destruct (negb _); by apply refuse_ok.
Qed.

Lemma readAbsorb_ok chunk err q : quarantine_ok q -> quarantine_ok (readAbsorb chunk err q).
Proof.
  intros Hq. unfold readAbsorb. destruct (terminal q) eqn:Ht; [done|]. cbv zeta.
  pose proof (feedChunk_ok chunk q Hq Ht) as Hf.
  destruct (terminal (feedChunk chunk q)); [done|]. destruct err; [|done].
  apply sourceFailed_ok, Hf.
Qed.

Lemma readPrepare_ok buffer q : quarantine_ok q -> quarantine_ok (fst (readPrepare buffer q)).
Proof.
  intros Hq. unfold readPrepare. destruct (pending q); [destruct (terminal q); [done|]; by destruct buffer|].
  destruct Hq as [[] Hl]. split; [by constructor|]. intros Ht. apply Hl in Ht. cbn.
  destruct Ht as [? Ht]. split; [done|]. cbn. destruct (mode q); [done| |].
  - by destruct Ht.
  - destruct Ht as ([] & Ha & []). split; [by constructor|split; [done|by constructor]].
Qed.

Lemma beginDispatch_ok q : quarantine_ok q -> quarantine_ok (fst (beginDispatch q)).
Proof.
  intros Hq. unfold beginDispatch. destruct (terminal q) eqn:Ht; [done|].
  destruct (negb _); [apply refuse_ok, Hq|].
  destruct Hq as [[] Hl]. split; [by constructor|]. intros _. apply Hl in Ht. cbn.
  destruct Ht as [? Ht]. split; [done|]. cbn. destruct (mode q); [done| |].
  - by destruct Ht.
  - destruct Ht as ([] & Ha & []). split; [by constructor|split; [done|by constructor]].
Qed.

Lemma abort_ok cause q : quarantine_ok q -> quarantine_ok (fst (abort cause q)).
Proof.
  intros Hq. unfold abort. destruct (terminal q) eqn:Ht; [done|]. apply abortLocked_ok, Hq.
Qed.

Lemma new_ok selected q : newStructureQuarantine selected = inl q -> quarantine_ok q /\ terminal q = None.
Proof.
  unfold newStructureQuarantine. destruct (_ =? 0); [done|]. intros [= <-]. split; [|done]. split.
  - constructor; cbn; rewrite ?zlen_nil; limits; lia.
  - intros _. split; [|done]. split; cbn; limits; lia.
Qed.
