(* ===== verification/QuarantineGrammar.v ===== *)
(** * The grammar of the frames the quarantine releases

    A declarative grammar of the FETCH responses of
    [bridge/structure_quarantine.go], independent of the byte machine: tokens,
    nested structure lists, flag lists and attributes.  [reading] says which
    prefix of the grammar a machine state has read; [fetchByte_reading] proves
    one accepted byte extends it. *)
From Stdlib Require Import ZArith Lia Strings.Byte.
From stdpp Require Import base list gmap strings.
From S2P Require Import Prelude GoStrings Errors ImapGrammar Quarantine QuarantineInv.

(** ** Tokens *)

Definition atom_token (a : bytes) : Prop :=
  match a with
  | [] => False
  | c :: rest => (quarantineAtomChar c || (c =b BACKSLASH)) = true /\ forallb quarantineAtomChar rest = true
  end.

(** The text of a complete quoted string, without its quotes. *)
Inductive quoted_text : bytes -> Prop :=
| quoted_nil : quoted_text []
| quoted_char s c : quoted_text s -> c <> DQUOTE -> c <> BACKSLASH -> c <> CR -> c <> LF -> c <> x00 ->
    quoted_text (s ++ [c])
| quoted_escape s c : quoted_text s -> c = DQUOTE \/ c = BACKSLASH -> quoted_text (s ++ [BACKSLASH; c]).

(** The decimal digits of a literal size: one to ten, at most [MaxUint32]. *)
Definition literal_digits (ds : bytes) (n : Z) : Prop :=
  digits_value 0 ds = Some n /\ 1 <= zlen ds <= 10 /\ n <= MaxUint32.

Inductive token : bytes -> Prop :=
| token_atom a : atom_token a -> token a
| token_quoted s : quoted_text s -> token (DQUOTE :: s ++ [DQUOTE])
| token_literal ds n payload : literal_digits ds n -> zlen payload = n ->
    token ("{"%byte :: ds ++ "}"%byte :: CR :: LF :: payload).

(** ** Structure lists *)

Definition can_start (p : fetchPrevious) : Prop := p = previousOpen \/ p = previousSpace.
Definition can_end (p : fetchPrevious) : Prop := p = previousToken \/ p = previousClose.

(** The content of a list, by its last lexical element: elements separated by
    one space, a list also directly after a list. *)
Inductive elems : fetchPrevious -> bytes -> Prop :=
| elems_open : elems previousOpen []
| elems_space p s : elems p s -> can_end p -> elems previousSpace (s ++ [SP])
| elems_token p s t : elems p s -> can_start p -> token t -> elems previousToken (s ++ t)
| elems_list p s q l : elems p s -> p <> previousToken -> elems q l -> q <> previousSpace ->
    elems previousClose (s ++ "("%byte :: l ++ [")"%byte]).

Definition body_list (s : bytes) : Prop :=
  exists p l, elems p l /\ p <> previousSpace /\ s = "("%byte :: l ++ [")"%byte].

(** [n] lists still open, the innermost ending in [p]. *)
Inductive opened : Z -> fetchPrevious -> bytes -> Prop :=
| opened_one p l : elems p l -> opened 1 p ("("%byte :: l)
| opened_more n p0 s p l : opened n p0 s -> p0 <> previousToken -> elems p l ->
    opened (n + 1) p (s ++ "("%byte :: l).

Lemma opened_pos n p s : opened n p s -> 1 <= n.
Proof. induction 1; lia. Qed.

Lemma opened_extend n p s p' t :
  opened n p s -> (forall l, elems p l -> elems p' (l ++ t)) -> opened n p' (s ++ t).
Proof.
  intros H Hext. destruct H as [p l Hl|n p0 s p l H Hp0 Hl].
  - apply opened_one, Hext, Hl.
  - rewrite <- app_assoc. apply (opened_more n p0 s p' (l ++ t)); auto.
Qed.

Lemma opened_token n p s t : opened n p s -> can_start p -> token t -> opened n previousToken (s ++ t).
Proof. intros H Hp Ht. eapply opened_extend; [done|]. intros l Hl. by econstructor. Qed.

Lemma opened_space n p s : opened n p s -> can_end p -> opened n previousSpace (s ++ [SP]).
Proof. intros H Hp. eapply opened_extend; [done|]. intros l Hl. by econstructor. Qed.

Lemma opened_open n p s : opened n p s -> p <> previousToken -> opened (n + 1) previousOpen (s ++ ["("%byte]).
Proof. intros H Hp. econstructor; [done|done|constructor]. Qed.

Lemma opened_close n p s :
  opened n p s -> 1 < n -> p <> previousSpace -> opened (n - 1) previousClose (s ++ [")"%byte]).
Proof.
  intros H Hn Hp. destruct H as [|n p0 s p l H Hp0 Hl]; [lia|].
  replace (n + 1 - 1) with n by lia. rewrite <- app_assoc. cbn.
  eapply opened_extend; [done|]. intros k Hk. by eapply elems_list.
Qed.

Lemma opened_last n p s : opened n p s -> n = 1 -> p <> previousSpace -> body_list (s ++ [")"%byte]).
Proof.
  intros H Hn Hp. destruct H as [p l Hl|n p0 s p l H]; [by exists p, l|].
  apply opened_pos in H. lia.
Qed.

(** ** Attributes *)

Inductive flag_seq : fetchPrevious -> bytes -> Prop :=
| flag_open : flag_seq previousOpen []
| flag_token p s a : flag_seq p s -> can_start p -> quarantineFlag a = true -> flag_seq previousToken (s ++ a)
| flag_space s : flag_seq previousToken s -> flag_seq previousSpace (s ++ [SP]).

Definition item_name (it : fetchItem) : bytes :=
  match it with itemUID => $"UID" | itemFlags => $"FLAGS" | itemStructure => $"BODYSTRUCTURE" end.

(** One attribute: its kind, its UID if it is one, its text. *)
Inductive attr : fetchItem -> Z -> bytes -> Prop :=
| attr_uid nm v n : to_upper nm = item_name itemUID -> quarantineNumber v false = Some n ->
    attr itemUID n (nm ++ SP :: v)
| attr_flags nm p l : to_upper nm = item_name itemFlags -> flag_seq p l -> p <> previousSpace ->
    attr itemFlags 0 (nm ++ SP :: "("%byte :: l ++ [")"%byte])
| attr_structure nm l : to_upper nm = item_name itemStructure -> body_list l ->
    attr itemStructure 0 (nm ++ SP :: l).

Inductive attrs : list (fetchItem * Z) -> bytes -> Prop :=
| attrs_one it n s : attr it n s -> attrs [(it, n)] s
| attrs_snoc ks s it n t : attrs ks s -> attr it n t -> attrs (ks ++ [(it, n)]) (s ++ SP :: t).

(** A complete FETCH response with attributes [ks], none repeated. *)
Definition fetch_frame_of (ks : list (fetchItem * Z)) (f : bytes) : Prop :=
  exists prefix s, fetchPrefix prefix = Some true /\ attrs ks s /\ NoDup (ks.*1)
    /\ f = prefix ++ "("%byte :: s ++ [")"%byte; CR; LF].

(** The released structure FETCH of [selected]. *)
Definition structure_frame (selected : Z) (f : bytes) : Prop :=
  exists ks, fetch_frame_of ks f /\ (itemUID, selected) ∈ ks /\ itemStructure ∈ ks.*1.

(** The consumed update: flags and at most one UID. *)
Definition flags_frame (f : bytes) : Prop :=
  exists ks, fetch_frame_of ks f /\ itemFlags ∈ ks.*1 /\ itemStructure ∉ ks.*1.

(** A released control line. *)
Definition control_frame (f : bytes) : Prop :=
  exists line, f = line ++ [CR; LF] /\ quarantineControl line = true
    /\ ~ In CR line /\ ~ In LF line /\ zlen f <= quarantineControlBytes.

(** ** What a machine state has read *)

(** The position before an attribute name. *)
Inductive lead : list (fetchItem * Z) -> bytes -> Prop :=
| lead_first : lead [] []
| lead_next ks s : attrs ks s -> lead ks (s ++ [SP]).

Lemma lead_attr ks s it n t : lead ks s -> attr it n t -> attrs (ks ++ [(it, n)]) (s ++ t).
Proof. intros [|ks' s' H] Ht; [by apply attrs_one|]. rewrite <- app_assoc. by apply attrs_snoc. Qed.

Definition count_of (it : fetchItem) (names : list fetchItem) : Z :=
  if decide (it ∈ names) then 1 else 0.

(** The counters and the UID agree with the attributes read. *)
Record tracked (q : structureQuarantine) (names : list fetchItem) (ks : list (fetchItem * Z)) : Prop := {
  t_nodup : NoDup names;
  t_uids : uidCount q = count_of itemUID names;
  t_flags : flags q = count_of itemFlags names;
  t_structure : structure q = count_of itemStructure names;
  t_uid : forall n, (itemUID, n) ∈ ks -> uid q = n }.

(** After the opening parenthesis, between tokens. *)
Inductive items_ok (q : structureQuarantine) : bytes -> Prop :=
| items_name ks s :
    depth q = 1 -> flagsList q = false -> phase q = itemName -> can_start (previous q) ->
    lead ks s -> tracked q (ks.*1) ks -> items_ok q s
| items_named ks s nm :
    depth q = 1 -> flagsList q = false -> phase q = itemNamed -> previous q = previousToken ->
    lead ks s -> to_upper nm = item_name (item q) -> tracked q (ks.*1 ++ [item q]) ks ->
    items_ok q (s ++ nm)
| items_value ks s nm :
    depth q = 1 -> flagsList q = false -> phase q = itemValue -> previous q = previousSpace ->
    lead ks s -> to_upper nm = item_name (item q) -> tracked q (ks.*1 ++ [item q]) ks ->
    items_ok q (s ++ nm ++ [SP])
| items_done ks s :
    depth q = 1 -> flagsList q = false -> phase q = itemDone -> can_end (previous q) ->
    attrs ks s -> tracked q (ks.*1) ks -> items_ok q s
| items_flags ks s nm l :
    depth q = 2 -> flagsList q = true -> item q = itemFlags ->
    lead ks s -> to_upper nm = item_name itemFlags -> tracked q (ks.*1 ++ [itemFlags]) ks ->
    flag_seq (previous q) l -> items_ok q (s ++ nm ++ SP :: "("%byte :: l)
| items_structure ks s nm l :
    2 <= depth q -> flagsList q = false -> item q = itemStructure ->
    lead ks s -> to_upper nm = item_name itemStructure -> tracked q (ks.*1 ++ [itemStructure]) ks ->
    opened (depth q - 1) (previous q) l -> items_ok q (s ++ nm ++ SP :: l).

(** The fields [items_ok] reads. *)
Definition items_eq (q q' : structureQuarantine) : Prop :=
  depth q' = depth q /\ flagsList q' = flagsList q /\ phase q' = phase q /\ previous q' = previous q
  /\ item q' = item q /\ uidCount q' = uidCount q /\ uid q' = uid q /\ flags q' = flags q
  /\ structure q' = structure q.

Lemma tracked_eq q q' names ks :
  uidCount q' = uidCount q -> uid q' = uid q -> flags q' = flags q -> structure q' = structure q ->
  tracked q names ks -> tracked q' names ks.
Proof. intros H1 H2 H3 H4 []. constructor; congruence || intros; rewrite H2; eauto. Qed.

Lemma items_ok_eq q q' s : items_eq q q' -> items_ok q s -> items_ok q' s.
Proof.
  intros (H1 & H2 & H3 & H4 & H5 & H6 & H7 & H8 & H9) [].
  all: [> eapply items_name | eapply items_named | eapply items_value | eapply items_done
        | eapply items_flags | eapply items_structure ];
    rewrite ?H1, ?H2, ?H3, ?H4, ?H5 in *; try eassumption; try congruence; by eapply tracked_eq.
Qed.

(** A token other than an atom is read inside a structure list. *)
Definition in_structure (q : structureQuarantine) (s : bytes) : Prop :=
  items_ok q s /\ can_start (previous q) /\ depth q <> 1 /\ flagsList q = false.

Lemma in_structure_eq q q' s : items_eq q q' -> in_structure q s -> in_structure q' s.
Proof.
  intros He (H1 & H2 & H3 & H4). split; [by eapply items_ok_eq|].
  destruct He as (-> & -> & _ & -> & _). done.
Qed.

(** Completing a token inside a structure list. *)
Lemma in_structure_token q q' s t :
  in_structure q s -> token t ->
  items_eq (q <| previous := previousToken |>) q' -> items_ok q' (s ++ t).
Proof.
  intros (Hi & Hp & Hd & Hf) Ht He. eapply items_ok_eq; [done|].
  destruct Hi; try congruence. rewrite <- !app_assoc. cbn.
  eapply items_structure; try eassumption; [by eapply tracked_eq; [..|exact H4]|].
  by eapply opened_token.
Qed.

(** The bytes after the opening parenthesis, by lexical state; [start] is the
    length of what comes before them. *)
Definition reading_body (q : structureQuarantine) (start : nat) (body : bytes) : Prop :=
  match state q with
  | fetchOpen => False
  | fetchItems => items_ok q body
  | fetchAtom => exists s a, body = s ++ a /\ items_ok q s /\ can_start (previous q) /\ atom_token a
      /\ atomStart q = (start + length s)%nat
      /\ (depth q = 1 -> phase q = itemValue -> item q = itemUID)
  | fetchQuoted => exists s t, body = s ++ DQUOTE :: t /\ in_structure q s /\ quoted_text t
  | fetchEscape => exists s t, body = s ++ DQUOTE :: t ++ [BACKSLASH] /\ in_structure q s /\ quoted_text t
  | fetchLiteralSize => exists s ds, body = s ++ "{"%byte :: ds /\ in_structure q s
      /\ digits_value 0 ds = Some (literal q) /\ zlen ds = digits q /\ digits q <= 10
      /\ 0 <= literal q <= MaxUint32
  | fetchLiteralCR => exists s ds, body = s ++ "{"%byte :: ds ++ ["}"%byte] /\ in_structure q s
      /\ literal_digits ds (literal q)
  | fetchLiteralLF => exists s ds, body = s ++ "{"%byte :: ds ++ ["}"%byte; CR] /\ in_structure q s
      /\ literal_digits ds (literal q)
  | fetchLiteral => exists s ds n payload,
      body = s ++ "{"%byte :: ds ++ "}"%byte :: CR :: LF :: payload /\ in_structure q s
      /\ literal_digits ds n /\ zlen payload + literal q = n /\ 0 < literal q
  | fetchEndCR => exists ks s, body = s ++ [")"%byte] /\ attrs ks s /\ tracked q (ks.*1) ks
  | fetchEndLF => exists ks s, body = s ++ [")"%byte; CR] /\ attrs ks s /\ tracked q (ks.*1) ks
  end.

(** [f] is the part of a FETCH response the machine has read. *)
Definition reading (q : structureQuarantine) (f : bytes) : Prop :=
  exists prefix, fetchPrefix prefix = Some true /\
  match state q with
  | fetchOpen => f = prefix /\ depth q = 0 /\ phase q = itemName /\ flagsList q = false
      /\ tracked q [] []
  | _ => exists body, f = prefix ++ "("%byte :: body /\ reading_body q (S (length prefix)) body
  end.

(** ** One byte extends what was read *)

Lemma count_of_spec it names : it ∈ names /\ count_of it names = 1 \/ it ∉ names /\ count_of it names = 0.
Proof. unfold count_of. case_decide; auto. Qed.

Lemma count_of_snoc it it' names :
  count_of it (names ++ [it']) = if decide (it = it') then 1 else count_of it names.
Proof. unfold count_of. repeat case_decide; set_solver. Qed.

(** The counter of one attribute kind. *)
Definition counter (it : fetchItem) (q : structureQuarantine) : Z :=
  match it with itemUID => uidCount q | itemFlags => flags q | itemStructure => structure q end.

Lemma tracked_counter q names ks it : tracked q names ks -> counter it q = count_of it names.
Proof. intros []. by destruct it. Qed.

(** A name not seen before is recorded once. *)
Lemma tracked_name q q' names ks it :
  tracked q names ks -> counter it q <= 0 -> uid q' = uid q ->
  (forall it', counter it' q' = if decide (it' = it) then 1 else counter it' q) ->
  tracked q' (names ++ [it]) ks.
Proof.
  intros Ht Hc Hu Hcount. pose proof Ht as [Hn _ _ _ Huid].
  rewrite (tracked_counter _ _ _ it Ht) in Hc.
  assert (forall it', counter it' q' = count_of it' (names ++ [it])) as H.
  { intros it'. rewrite Hcount, count_of_snoc. case_decide; [done|]. by apply tracked_counter with ks. }
  constructor; try (apply (H itemUID) || apply (H itemFlags) || apply (H itemStructure)).
  - apply NoDup_app. split; [done|]. split; [|apply NoDup_singleton].
    intros x Hx ->%list_elem_of_singleton. destruct (count_of_spec it names) as [[_ E]|[? _]]; [lia|done].
  - rewrite Hu. done.
Qed.

(** [nameLocked] accepts one of the three names, not seen before. *)
Lemma nameLocked_spec a q q' :
  nameLocked a q = (q', None) ->
  exists it, to_upper a = item_name it /\ counter it q <= 0 /\ item q' = it /\ phase q' = itemNamed
    /\ depth q' = depth q /\ flagsList q' = flagsList q /\ previous q' = previous q /\ uid q' = uid q
    /\ state q' = state q /\ mode q' = mode q
    /\ forall it', counter it' q' = if decide (it' = it) then 1 else counter it' q.
Proof.
  unfold nameLocked, fails, ok. cbv zeta. intros H.
  destruct (beqs (to_upper a) $"UID") eqn:E1;
    [|destruct (beqs (to_upper a) $"FLAGS") eqn:E2;
      [|destruct (beqs (to_upper a) $"BODYSTRUCTURE") eqn:E3; [|discriminate]]];
    split_in H; try discriminate H; injection H as <-; bool_prop; cbn in Heqb;
    [exists itemUID|exists itemFlags|exists itemStructure];
    (split; [by apply beqs_eq|]); repeat split; try done; by intros [].
Qed.

Lemma nameLocked_items a q q' ks s :
  nameLocked a q = (q', None) ->
  depth q = 1 -> flagsList q = false -> previous q = previousToken ->
  lead ks s -> tracked q (ks.*1) ks -> items_ok q' (s ++ a).
Proof.
  intros (it & Hn & Hc & Hit & Hph & Hd & Hf & Hp & Hu & _ & _ & Hcount)%nameLocked_spec Hd0 Hf0 Hp0 Hl Ht.
  eapply items_named; try congruence; [exact Hl|]. rewrite Hit. by eapply tracked_name.
Qed.

(** A complete attribute is recorded. *)
Lemma tracked_done q q' names ks it n :
  tracked q names ks -> names = ks.*1 ++ [it] ->
  uidCount q' = uidCount q -> flags q' = flags q -> structure q' = structure q ->
  (it = itemUID -> uid q' = n) -> (it <> itemUID -> uid q' = uid q) ->
  tracked q' ((ks ++ [(it, n)]).*1) (ks ++ [(it, n)]).
Proof.
  intros [Hn H1 H2 H3 Hu] -> E1 E2 E3 Hv Hk. rewrite fmap_app. cbn.
  constructor; try congruence. intros m [Hm|Hm]%elem_of_app.
  - assert (it <> itemUID) as Hne.
    { intros ->. apply NoDup_app in Hn as (_ & Hn & _). apply (Hn itemUID); [|set_solver].
      apply list_elem_of_fmap. by exists (itemUID, m). }
    rewrite Hk by done. by apply Hu.
  - apply list_elem_of_singleton in Hm. injection Hm as <- <-. by apply Hv.
Qed.

(** The end of an atom, in any position an atom may start in. *)
Lemma endAtom_items q q' s a stop :
  items_ok q s -> can_start (previous q) -> atom_token a ->
  (depth q = 1 -> phase q = itemValue -> item q = itemUID) ->
  take (stop - atomStart q) (drop (atomStart q) (frame q)) = a ->
  endAtomLocked stop q = (q', None) -> items_ok q' (s ++ a).
Proof.
  intros Hi Hp Ha Hv Hslice. unfold endAtomLocked, fails, ok. cbn [atomStart frame]. cbv zeta.
  change (atomStart (q <| previous := previousToken |>)) with (atomStart q).
  rewrite Hslice. cbn [depth phase flagsList set_field].
  destruct Hi as [ks s Hd Hf Hph _ Hl Ht|ks s nm Hd Hf Hph Hpr Hl Hn Ht|ks s nm Hd Hf Hph Hpr Hl Hn Ht
                 |ks s Hd Hf Hph Hpr Hl Ht|ks s nm l Hd Hf Hit Hl Hn Ht Hfl|ks s nm l Hd Hf Hit Hl Hn Ht Ho].
  - (* a name *)
    intros H. replace (depth _ =? 1) with true in H by (cbn; rewrite Hd; done).
    rewrite bool_decide_true in H by done. cbn [andb] in H.
    eapply nameLocked_items; [exact H|done..| |]; [done|by eapply tracked_eq; [..|exact Ht]].
  - destruct Hp; congruence.
  - (* a UID *)
    specialize (Hv Hd Hph). intros H. replace (depth _ =? 1) with true in H by (cbn; rewrite Hd; done).
    rewrite bool_decide_false in H by (cbn; rewrite Hph; done). cbn [andb] in H.
    destruct (quarantineNumber a false) as [n|] eqn:Hq; [|discriminate]. injection H as <-.
    rewrite <- !app_assoc. cbn [app]. rewrite Hv in *.
    eapply items_done with (ks := ks ++ [(itemUID, n)]); try done; [by left| |].
    + apply lead_attr; [done|]. by apply attr_uid.
    + eapply tracked_done; [exact Ht|done..].
  - destruct Hp, Hpr; congruence.
  - (* a flag *)
    intros H. replace (depth _ =? 1) with false in H by (cbn; rewrite Hd; done). cbn [andb] in H.
    split_in H; [discriminate|]. injection H as <-. cbn in Heqb. rewrite Hf in Heqb. bool_prop.
    rewrite <- !app_assoc. cbn [app].
    eapply items_flags; try eassumption; [by eapply tracked_eq; [..|exact Ht]|].
    destruct Heqb as [?|Hflag]; [done|]. apply negb_false_iff in Hflag. by eapply flag_token.
  - (* an atom of a structure *)
    intros H. replace (depth _ =? 1) with false in H by (cbn; destruct (Z.eqb_spec (depth q) 1); [lia|done]).
    cbn [andb] in H. split_in H; [discriminate|]. injection H as <-.
    rewrite <- !app_assoc. cbn [app].
    eapply items_structure; try eassumption; [by eapply tracked_eq; [..|exact Ht]|].
    eapply opened_token; [done|done|by apply token_atom].
Qed.

Lemma closeLocked_cases q q' :
  closeLocked q = (q', None) ->
  mode q' = mode q /\ previous q' = previousClose /\ depth q' = depth q - 1 /\ item q' = item q
  /\ uidCount q' = uidCount q /\ uid q' = uid q /\ flags q' = flags q /\ structure q' = structure q
  /\ (if depth q =? 1 then state q' = fetchEndCR
      else state q' = state q
           /\ if depth q =? 2 then phase q' = itemDone /\ flagsList q' = false
              else phase q' = phase q /\ flagsList q' = flagsList q).
Proof.
  unfold closeLocked, ok. destruct (tokenLocked q) as [q1 [e|]] eqn:Ht; [done|].
  apply tokenLocked_ok in Ht as [-> _]. cbn [andThen]. intros [= <-]. cbn.
  destruct (depth q - 1 =? 1) eqn:E1; [|destruct (depth q - 1 =? 0) eqn:E2];
    destruct (depth q =? 1) eqn:E3; bool_prop; try lia;
    destruct (depth q =? 2) eqn:E4; bool_prop; try lia; done.
Qed.

(** What a byte leads to while the response goes on. *)
Definition extends (q q' : structureQuarantine) (start : nat) (body : bytes) : Prop :=
  mode q' = mode q /\ state q' <> fetchOpen /\ reading_body q' start body.

Lemma space_reading q q' start body :
  state q = fetchItems -> items_ok q body -> itemsByteLocked SP q = (q', None) ->
  extends q q' start (body ++ [SP]).
Proof.
  intros Hst Hi. unfold itemsByteLocked, fails, ok. rewrite beq_refl.
  destruct (_ && _) eqn:Hprev; [discriminate|].
  assert (can_end (previous q)) as He.
  { apply andb_false_iff in Hprev as [H|H]; apply negb_false_iff, bool_decide_eq_true in H; [by left|by right]. }
  unfold extends, reading_body.
  destruct Hi as [ks s Hd Hf Hph Hpr Hl Ht|ks s nm Hd Hf Hph Hpr Hl Hn Ht|ks s nm Hd Hf Hph Hpr Hl Hn Ht
                 |ks s Hd Hf Hph Hpr Hl Ht|ks s nm l Hd Hf Hit Hl Hn Ht Hfl|ks s nm l Hd Hf Hit Hl Hn Ht Ho].
  - rewrite Hd, Hph. discriminate.
  - rewrite Hd, Hph. cbn. intros [= <-]. cbn. rewrite Hst. split; [done|split; [done|]].
    rewrite <- app_assoc. eapply items_value; try eassumption; [done..|]. by eapply tracked_eq; [..|exact Ht].
  - rewrite Hd, Hph. discriminate.
  - rewrite Hd, Hph. cbn. intros [= <-]. cbn. rewrite Hst. split; [done|split; [done|]].
    eapply items_name; try done; [by right|by apply lead_next|]. by eapply tracked_eq; [..|exact Ht].
  - rewrite Hd. cbn. intros [= <-]. cbn. rewrite Hst. split; [done|split; [done|]].
    rewrite <- !app_assoc. cbn [app]. eapply items_flags; try eassumption; [by eapply tracked_eq; [..|exact Ht]|].
    cbn. destruct Hfl; [destruct He; congruence|by eapply flag_space, flag_token|destruct He; congruence].
  - replace (depth q =? 1) with false by (symmetry; apply Z.eqb_neq; lia). intros [= <-]. cbn. rewrite Hst.
    split; [done|split; [done|]].
    rewrite <- !app_assoc. cbn [app]. eapply items_structure; try eassumption; [by eapply tracked_eq; [..|exact Ht]|].
    by eapply opened_space.
Qed.

Lemma open_reading q q' start body :
  state q = fetchItems -> items_ok q body -> itemsByteLocked "("%byte q = (q', None) ->
  extends q q' start (body ++ ["("%byte]).
Proof.
  intros Hst Hi. unfold itemsByteLocked, fails, ok. cbn [Byte.eqb]. cbv zeta.
  change ("("%byte =b SP) with false. change ("("%byte =b "("%byte) with true. cbv iota.
  destruct (_ && _ && _) eqn:Hprev; [discriminate|].
  assert (previous q <> previousToken) as Hnt.
  { intros E. rewrite E in Hprev. done. }
  unfold extends, reading_body.
  destruct Hi as [ks s Hd Hf Hph Hpr Hl Ht|ks s nm Hd Hf Hph Hpr Hl Hn Ht|ks s nm Hd Hf Hph Hpr Hl Hn Ht
                 |ks s Hd Hf Hph Hpr Hl Ht|ks s nm l Hd Hf Hit Hl Hn Ht Hfl|ks s nm l Hd Hf Hit Hl Hn Ht Ho].
  - rewrite Hd, Hph. discriminate.
  - rewrite Hd, Hph. discriminate.
  - rewrite Hd. cbn [Z.eqb Pos.eqb]. destruct (_ || _) eqn:Hit; [discriminate|].
    apply orb_false_iff in Hit as [_ Hit]. apply bool_decide_eq_false in Hit.
    intros [-> _]%openLocked_ok. cbn. rewrite Hst. split; [done|split; [done|]].
    rewrite <- !app_assoc. cbn [app].
    destruct (item q) eqn:E; [done| |].
    + eapply items_flags with (l := []); try eassumption; cbn; [lia|done| |constructor].
      by eapply tracked_eq; [..|exact Ht].
    + eapply items_structure; try eassumption; cbn; [lia|done|by eapply tracked_eq; [..|exact Ht]|].
      replace (depth q + 1 - 1) with 1 by lia. apply opened_one, elems_open.
  - rewrite Hd, Hph. discriminate.
  - rewrite Hd, Hf. discriminate.
  - replace (depth q =? 1) with false by (symmetry; apply Z.eqb_neq; lia). rewrite Hf.
    intros [-> _]%openLocked_ok. cbn. rewrite Hst. split; [done|split; [done|]].
    rewrite <- !app_assoc. cbn [app].
    eapply items_structure; try eassumption; cbn; [lia|by eapply tracked_eq; [..|exact Ht]|].
    replace (depth q + 1 - 1) with (depth q - 1 + 1) by lia. by eapply opened_open.
Qed.

Lemma close_reading q q' start body :
  state q = fetchItems -> items_ok q body -> itemsByteLocked ")"%byte q = (q', None) ->
  extends q q' start (body ++ [")"%byte]).
Proof.
  intros Hst Hi. unfold itemsByteLocked, fails, ok. cbv zeta.
  change (")"%byte =b SP) with false. change (")"%byte =b "("%byte) with false.
  change (")"%byte =b ")"%byte) with true. cbv iota.
  destruct (_ || _) eqn:Hprev; [discriminate|]. apply orb_false_iff in Hprev as [Hp Hph1].
  apply bool_decide_eq_false in Hp. apply andb_false_iff in Hph1.
  intros (Hm & Hpr' & Hd' & Hit' & Hu1 & Hu2 & Hf' & Hs' & Hcase)%closeLocked_cases.
  unfold extends, reading_body. split; [done|].
  destruct Hi as [ks s Hd Hf Hph Hpr Hl Ht|ks s nm Hd Hf Hph Hpr Hl Hn Ht|ks s nm Hd Hf Hph Hpr Hl Hn Ht
                 |ks s Hd Hf Hph Hpr Hl Ht|ks s nm l Hd Hf Hit Hl Hn Ht Hfl|ks s nm l Hd Hf Hit Hl Hn Ht Ho].
  1-3: exfalso; rewrite Hd, Hph in Hph1; by destruct Hph1.
  - rewrite Hd in Hcase. cbn in Hcase. rewrite Hcase. split; [done|].
    exists ks, s. split; [done|split; [done|]]. by eapply tracked_eq; [..|exact Ht].
  - rewrite Hd in Hcase. destruct Hcase as [Hst' [Hph' Hfl']]. rewrite Hst', Hst. split; [done|].
    rewrite <- !app_assoc.
    eapply items_done with (ks := ks ++ [(itemFlags, 0)]); try done; [lia|by right| |].
    + apply lead_attr; [done|]. cbn. by eapply attr_flags.
    + by eapply tracked_done; [exact Ht|..].
  - destruct (depth q =? 1) eqn:E; [bool_prop; lia|]. destruct Hcase as [Hst' Hcase].
    rewrite Hst', Hst. split; [done|]. rewrite <- !app_assoc. cbn [app].
    destruct (depth q =? 2) eqn:E2; bool_prop; destruct Hcase as [Hph' Hfl'].
    + eapply items_done with (ks := ks ++ [(itemStructure, 0)]); try done; [lia|by right| |].
      * apply lead_attr; [done|]. apply attr_structure; [done|]. eapply opened_last; [done|lia|done].
      * by eapply tracked_done; [exact Ht|..].
    + eapply items_structure; try eassumption; [lia|congruence..| |].
      * by eapply tracked_eq; [..|exact Ht].
      * rewrite Hd', Hpr'.
        eapply opened_close; [done|lia|done].
Qed.

(** A byte that starts a token; [length (frame q)] counts that byte. *)
Lemma startToken_reading v q q' start body :
  state q = fetchItems -> items_ok q body -> length (frame q) = S (start + length body) ->
  startTokenLocked v q = (q', None) -> extends q q' start (body ++ [v]).
Proof.
  intros Hst Hi Hlen. unfold startTokenLocked, fails. cbv zeta.
  destruct (_ && _) eqn:Hprev; [discriminate|].
  assert (can_start (previous q)) as Hcs.
  { apply andb_false_iff in Hprev as [H|H]; apply negb_false_iff, bool_decide_eq_true in H; [by left|by right]. }
  destruct ((depth q =? 1) && _) eqn:H1; [discriminate|].
  destruct (flagsList q && _) eqn:H2; [discriminate|].
  assert (quarantineAtomChar v || (v =b BACKSLASH) = false -> in_structure q body) as Hin.
  { intros E. rewrite E in H1, H2. split; [done|split; [done|]]. bool_prop.
    destruct H1 as [H1|H1]; [|by bool_prop]. destruct H2 as [H2|H2]; [|by bool_prop].
    bool_prop. done. }
  destruct (v =b DQUOTE) eqn:Eq.
  { apply beq_eq in Eq as ->. intros [-> _]%tokenLocked_ok. unfold extends, reading_body. cbn.
    split; [done|split; [done|]]. exists body, []. split; [done|]. split; [|constructor].
    eapply in_structure_eq; [|by apply Hin]. done. }
  destruct (v =b "{"%byte) eqn:Eb.
  { apply beq_eq in Eb as ->. intros [-> _]%tokenLocked_ok. unfold extends, reading_body. cbn.
    split; [done|split; [done|]]. exists body, []. split; [done|]. split.
    - eapply in_structure_eq; [|by apply Hin]. done.
    - unfold MaxUint32; repeat match goal with |- _ /\ _ => split end; done || lia. }
  destruct (quarantineAtomChar v || (v =b BACKSLASH)) eqn:Ea; [|intros Habs; discriminate Habs].
  intros [-> _]%tokenLocked_ok. unfold extends, reading_body. cbn.
  split; [done|split; [done|]]. exists body, [v]. split; [done|].
  split; [eapply items_ok_eq; [|done]; done|]. split; [done|]. split; [by cbn|]. split; [lia|].
  intros Hd Hph. rewrite Hd, Hph in H1. cbn in H1. by apply negb_false_iff, bool_decide_eq_true in H1.
Qed.

Lemma itemsByte_reading v q q' start body :
  state q = fetchItems -> items_ok q body -> length (frame q) = S (start + length body) ->
  itemsByteLocked v q = (q', None) -> extends q q' start (body ++ [v]).
Proof.
  intros Hst Hi Hlen H.
  destruct (v =b SP) eqn:E1; [apply beq_eq in E1 as ->; by eapply space_reading|].
  destruct (v =b "("%byte) eqn:E2; [apply beq_eq in E2 as ->; by eapply open_reading|].
  destruct (v =b ")"%byte) eqn:E3; [apply beq_eq in E3 as ->; by eapply close_reading|].
  unfold itemsByteLocked in H. rewrite E1, E2, E3 in H. by eapply startToken_reading.
Qed.

(** The digits of a literal size, one more. *)
Lemma digits_snoc ds n v :
  digits_value 0 ds = Some n -> is_digit v = true ->
  digits_value 0 (ds ++ [v]) = Some (n * 10 + (bZ v - 48)).
Proof. intros Hn Hv. rewrite digits_value_app, Hn. cbn. by rewrite Hv. Qed.

Lemma literalSize_reading v q q' start body :
  state q = fetchLiteralSize -> reading_body q start body ->
  literalSizeByteLocked v q = (q', None) -> extends q q' start (body ++ [v]).
Proof.
  intros Hst. unfold reading_body. rewrite Hst.
  intros (s & ds & -> & Hin & Hv & Hn & Hle & Hl). unfold literalSizeByteLocked, fails, ok. cbv zeta.
  unfold extends, reading_body.
  destruct (_ && _) eqn:E.
  { apply andb_prop in E as [E1 E2]. apply beq_eq in E1 as ->. bool_prop. intros [= <-]. cbn.
    split; [done|split; [done|]]. exists s, ds. rewrite <- app_assoc. split; [done|].
    split; [by eapply in_structure_eq; [|exact Hin]|]. split; [done|]. split; [lia|apply Hl]. }
  destruct (_ || _) eqn:F; [discriminate|]. apply orb_false_iff in F as [F1 F2]. bool_prop.
  pose proof (is_digit_range v F1) as Hd.
  destruct (MaxUint32 <? _) eqn:G; [discriminate|]. intros [= <-]. bool_prop. cbn in G |- *.
  rewrite literal_digit in G |- * by done. rewrite Hst.
  split; [done|split; [done|]]. exists s, (ds ++ [v]). rewrite <- app_assoc. split; [done|].
  split; [by eapply in_structure_eq; [|exact Hin]|]. split; [by apply digits_snoc|].
  rewrite zlen_snoc. lia.
Qed.

(** A byte of an atom, or the byte that ends it. *)
Lemma atom_reading v q q' start body prefix :
  state q = fetchAtom -> reading_body q start body -> length prefix = start ->
  frame q = prefix ++ body ++ [v] -> fetchByteLocked v q = (q', None) ->
  extends q q' start (body ++ [v]).
Proof.
  intros Hst Hr Hlen Hf. unfold fetchByteLocked, fails, ok. rewrite Hst.
  unfold reading_body in Hr. rewrite Hst in Hr. destruct Hr as (s & a & -> & Hi & Hcs & Ha & Has & Hv).
  destruct (quarantineAtomChar v) eqn:Hc.
  { destruct (_ <? _); [discriminate|]. intros [= <-]. split; [done|]. split; [congruence|].
    unfold reading_body. rewrite Hst. exists s, (a ++ [v]). rewrite app_assoc.
    repeat match goal with |- _ /\ _ => split end; try done.
    destruct a as [|c a]; [done|]. destruct Ha as [Ha1 Ha2]. split; [done|].
    rewrite forallb_app, Ha2. cbn. by rewrite Hc. }
  destruct (endAtomLocked _ q) as [q1 [e|]] eqn:He; [discriminate|]. cbn [andThen]. intros H.
  pose proof (endAtomLocked_lex _ _ _ He) as Hlex. pose proof (le_mode _ _ Hlex) as Hmode.
  pose proof (ff_frame _ _ (le_frame _ _ Hlex)) as Hff.
  assert (take (length (frame q) - 1 - atomStart q) (drop (atomStart q) (frame q)) = a) as Hslice.
  { rewrite Hf, Has, <- Hlen.
    replace (prefix ++ (s ++ a) ++ [v]) with ((prefix ++ s) ++ a ++ [v]) by (by rewrite !app_assoc).
    rewrite <- length_app, drop_app_length.
    replace (_ - _)%nat with (length a) by (rewrite !length_app; cbn; lia).
    apply take_app_length. }
  pose proof (endAtom_items _ _ _ _ _ Hi Hcs Ha Hv Hslice He) as Hi1.
  eapply itemsByte_reading with (start := start) (body := s ++ a) in H as (Hm & Hs & Hb).
  - cbn in Hm. by split; [rewrite Hm|].
  - done.
  - by eapply items_ok_eq; [|exact Hi1].
  - cbn. rewrite Hff, Hf, !length_app. cbn. lia.
Qed.

(** The end of a quoted string or a literal is one token of the structure. *)
Lemma ended_reading q q' start s t :
  in_structure q s -> token t -> mode q' = mode q -> state q' = fetchItems ->
  items_eq (q <| previous := previousToken |>) q' -> extends q q' start (s ++ t).
Proof.
  intros Hin Ht Hm Hst He. split; [done|]. unfold reading_body. rewrite Hst. split; [done|].
  by eapply in_structure_token.
Qed.

Lemma quoted_reading v q q' start body :
  state q = fetchQuoted -> reading_body q start body -> fetchByteLocked v q = (q', None) ->
  extends q q' start (body ++ [v]).
Proof.
  intros Hst. unfold reading_body. rewrite Hst. intros (s & t & -> & Hin & Ht).
  unfold fetchByteLocked, fails, ok. rewrite Hst.
  destruct (v =b DQUOTE) eqn:E1.
  { apply beq_eq in E1 as ->. intros [= <-]. rewrite <- app_assoc. cbn [app].
    eapply ended_reading; [done|by apply token_quoted|done..]. }
  apply beq_neq in E1. destruct (v =b BACKSLASH) eqn:E2.
  { apply beq_eq in E2 as ->. intros [= <-]. split; [done|]. split; [done|]. cbn.
    exists s, t. rewrite <- app_assoc. split; [done|]. split; [|done].
    by eapply in_structure_eq; [|exact Hin]. }
  apply beq_neq in E2. destruct (_ || _) eqn:E3; [discriminate|]. intros [= <-].
  apply orb_false_iff in E3 as [[E3 E4]%orb_false_iff E5].
  apply beq_neq in E3, E4, E5. split; [done|]. split; [congruence|]. unfold reading_body. rewrite Hst.
  exists s, (t ++ [v]). rewrite <- app_assoc. split; [done|]. split; [done|]. by apply quoted_char.
Qed.

Lemma escape_reading v q q' start body :
  state q = fetchEscape -> reading_body q start body -> fetchByteLocked v q = (q', None) ->
  extends q q' start (body ++ [v]).
Proof.
  intros Hst. unfold reading_body. rewrite Hst. intros (s & t & -> & Hin & Ht).
  unfold fetchByteLocked, fails, ok. rewrite Hst. destruct (_ && _) eqn:E; [discriminate|].
  intros [= <-]. split; [done|]. split; [done|]. cbn.
  exists s, (t ++ [BACKSLASH; v]). rewrite <- !app_assoc. cbn [app]. rewrite <- app_assoc.
  split; [done|]. split; [by eapply in_structure_eq; [|exact Hin]|].
  apply quoted_escape; [done|]. apply andb_false_iff in E as [E|E]; apply negb_false_iff, beq_eq in E; auto.
Qed.

Lemma literal_reading v q q' start body :
  state q = fetchLiteralCR \/ state q = fetchLiteralLF \/ state q = fetchLiteral ->
  reading_body q start body -> fetchByteLocked v q = (q', None) ->
  extends q q' start (body ++ [v]).
Proof.
  intros Hst Hr. unfold fetchByteLocked, fails, ok. unfold reading_body in Hr.
  destruct Hst as [Hst|[Hst|Hst]]; rewrite Hst in *.
  - destruct Hr as (s & ds & -> & Hin & Hds). destruct (negb _) eqn:E; [discriminate|].
    apply negb_false_iff, beq_eq in E as ->. intros [= <-]. split; [done|]. split; [done|]. cbn.
    exists s, ds. rewrite <- app_assoc. cbn. rewrite <- app_assoc. split; [done|].
    split; [by eapply in_structure_eq; [|exact Hin]|done].
  - destruct Hr as (s & ds & -> & Hin & Hds). destruct (negb _) eqn:E; [discriminate|].
    apply negb_false_iff, beq_eq in E as ->. cbv zeta. cbn [literal set_field].
    change (literal (q <| state := fetchLiteral |>)) with (literal q).
    rewrite <- app_assoc. cbn. rewrite <- app_assoc. cbn.
    destruct (literal q =? 0) eqn:E; intros [= <-].
    + bool_prop. eapply ended_reading; [done| |done..].
      eapply token_literal; [done|]. by rewrite E.
    + bool_prop. split; [done|]. split; [done|]. cbn. exists s, ds, (literal q), []. split; [done|].
      split; [by eapply in_structure_eq; [|exact Hin]|]. split; [done|].
      destruct Hds as (Hv & _). apply digits_value_ge in Hv; [|lia]. rewrite zlen_nil. lia.
  - destruct Hr as (s & ds & n & payload & -> & Hin & Hds & Hn & Hpos). cbv zeta. intros [= <-].
    pose proof (zlen_nonneg payload). pose proof Hds as (_ & _ & Hmax). limits.
    assert (u64 (literal q - 1) = literal q - 1) as Hu by (apply Z.mod_small; lia).
    assert (zlen (payload ++ [v]) = zlen payload + 1) as Hp by apply zlen_snoc.
    rewrite <- app_assoc. cbn. rewrite <- app_assoc. cbn. rewrite Hu.
    destruct (literal q - 1 =? 0) eqn:E; bool_prop.
    + eapply ended_reading; [done| |done..]. eapply token_literal; [done|]. lia.
    + split; [done|]. split; [cbn; congruence|]. unfold reading_body. cbn. rewrite Hst. exists s, ds, n, (payload ++ [v]).
      split; [done|]. split; [by eapply in_structure_eq; [|exact Hin]|]. split; [done|]. lia.
Qed.

(** One accepted byte extends what was read, or completes the response. *)
Lemma fetchByte_reading v q q' f :
  mode q = quarantineFetch -> reading q f -> frame q = f ++ [v] -> fetchByteLocked v q = (q', None) ->
  mode q' = quarantineFetch /\ reading q' (f ++ [v])
  \/ exists ks, fetch_frame_of ks (f ++ [v]) /\ tracked q (ks.*1) ks /\ completeFetchLocked q = (q', None).
Proof.
  intros Hm (prefix & Hp & Hr) Hf H.
  assert (forall body, f = prefix ++ "("%byte :: body -> extends q q' (S (length prefix)) (body ++ [v]) ->
    mode q' = quarantineFetch /\ reading q' (f ++ [v])) as Hext.
  { intros body -> (Hm' & Hs' & Hb'). split; [congruence|]. exists prefix. split; [done|].
    rewrite <- app_assoc. cbn [app].
    destruct (state q') eqn:E; [done|..]; exists (body ++ [v]); split; done. }
  assert (forall body, f = prefix ++ "("%byte :: body ->
    length (frame q) = S (S (length prefix) + length body)
    /\ frame q = (prefix ++ ["("%byte]) ++ body ++ [v]) as Hfr.
  { intros body ->. rewrite Hf, !length_app, <- !app_assoc. cbn. split; [lia|done]. }
  destruct (state q) eqn:Hst.
  - (* fetchOpen *)
    destruct Hr as (-> & Hd & Hph & Hfl & Ht). left. unfold fetchByteLocked, fails, ok in H. rewrite Hst in H.
    destruct (negb _) eqn:E; [discriminate|]. apply negb_false_iff, beq_eq in E as ->.
    apply openLocked_ok in H as [-> _]. split; [done|]. exists prefix. split; [done|]. cbn.
    exists []. split; [done|]. apply items_name with (ks := []); cbn; [lia|done..|by left|constructor|].
    by eapply tracked_eq; [..|exact Ht].
  - destruct Hr as (body & E & Hb). left. apply (Hext _ E). unfold fetchByteLocked in H. rewrite Hst in H.
    unfold reading_body in Hb. rewrite Hst in Hb. eapply itemsByte_reading; [done|done| |done].
    rewrite (proj1 (Hfr _ E)). lia.
  - destruct Hr as (body & E & Hb). left. apply (Hext _ E).
    eapply atom_reading; [done|done| |apply Hfr, E|done]. rewrite length_app. cbn. lia.
  - destruct Hr as (body & E & Hb). left. apply (Hext _ E). by eapply quoted_reading.
  - destruct Hr as (body & E & Hb). left. apply (Hext _ E). by eapply escape_reading.
  - destruct Hr as (body & E & Hb). left. apply (Hext _ E).
    unfold fetchByteLocked in H. rewrite Hst in H. by eapply literalSize_reading.
  - destruct Hr as (body & E & Hb). left. apply (Hext _ E). eapply literal_reading; [|done|done]. auto.
  - destruct Hr as (body & E & Hb). left. apply (Hext _ E). eapply literal_reading; [|done|done]. auto.
  - destruct Hr as (body & E & Hb). left. apply (Hext _ E). eapply literal_reading; [|done|done]. auto.
  - destruct Hr as (body & E & Hb). left. apply (Hext _ E). unfold reading_body in Hb. rewrite Hst in Hb.
    destruct Hb as (ks & s & -> & Ha & Ht). unfold fetchByteLocked, fails, ok in H. rewrite Hst in H.
    destruct (negb _) eqn:E'; [discriminate|]. apply negb_false_iff, beq_eq in E' as ->.
    injection H as <-. split; [done|]. split; [done|]. cbn. exists ks, s. rewrite <- app_assoc.
    split; [done|]. split; [done|]. by eapply tracked_eq; [..|exact Ht].
  - destruct Hr as (body & -> & Hb). right. unfold reading_body in Hb. rewrite Hst in Hb.
    destruct Hb as (ks & s & -> & Ha & Ht). unfold fetchByteLocked, fails, ok in H. rewrite Hst in H.
    destruct (negb _) eqn:E'; [discriminate|]. apply negb_false_iff, beq_eq in E' as ->.
    exists ks. split; [|done]. exists prefix, s. split; [done|]. split; [done|]. split; [apply Ht|].
    rewrite <- !app_assoc. cbn. by rewrite <- app_assoc.
Qed.

(** The fields [reading] depends on. *)
Lemma reading_eq q q' f :
  items_eq q q' -> state q' = state q -> atomStart q' = atomStart q -> literal q' = literal q ->
  digits q' = digits q -> reading q f -> reading q' f.
Proof.
  intros He Hst Ha Hl Hd (prefix & Hp & Hr). exists prefix. split; [done|]. rewrite Hst.
  pose proof He as (Hde & Hfl & Hph & Hpr & Hit & Hu1 & Hu2 & Hf & Hs).
  assert (forall names ks, tracked q names ks -> tracked q' names ks) as Htr
    by (intros names ks; by apply tracked_eq).
  assert (forall s, items_ok q s -> items_ok q' s) as Hi by (intros s; by apply items_ok_eq).
  assert (forall s, in_structure q s -> in_structure q' s) as Hin by (intros s; by apply in_structure_eq).
  destruct (state q) eqn:E;
    [destruct Hr as (-> & ? & ? & ? & ?); repeat (split; [congruence|]); auto|..];
    destruct Hr as (body & -> & Hb); exists body; (split; [done|]);
    unfold reading_body in *; rewrite ?Hst, ?E, ?Ha, ?Hl, ?Hd, ?Hpr, ?Hde, ?Hph, ?Hit in *;
    repeat match goal with
    | H : ex _ |- _ => destruct H
    | H : _ /\ _ |- _ => destruct H
    end; eauto 10.
Qed.
