(* ===== verification/QuarantineSystem.v ===== *)
(** * The structure quarantine as a concurrent system

    [Read] holds its lock only around the two halves [readPrepare] and
    [readAbsorb]; [beginDispatch] and [abort] may run between them.  This file
    interleaves the operations of [Quarantine] as a step relation and proves
    what every reachable state promises: budgets, framing, at most one
    structure response, and a refusal that stays. *)
From Stdlib Require Import ZArith Lia Strings.Byte.
From stdpp Require Import base list gmap strings.
From S2P Require Import Prelude GoStrings Errors ImapGrammar Quarantine QuarantineInv QuarantineGrammar.

(** ** The step relation *)

(** [wire] and [out] are ghost: the bytes the source has returned and those
    [Read] has returned.  [awaiting] is the limit of the source read under way. *)
Record system := mkSystem {
  reader : structureQuarantine;
  awaiting : option Z;
  wire : bytes;
  out : bytes }.

Inductive step : system -> system -> Prop :=
| step_return q q' buffer data err w o :
    readPrepare buffer q = (q', readReturn data err) ->
    step (mkSystem q None w o) (mkSystem q' None w (o ++ data))
| step_ask q q' buffer limit w o :
    readPrepare buffer q = (q', readSource limit) ->
    step (mkSystem q None w o) (mkSystem q' (Some limit) w o)
| step_answer q limit chunk err w o :
    zlen chunk <= limit ->
    step (mkSystem q (Some limit) w o) (mkSystem (readAbsorb chunk err q) None (w ++ chunk) o)
| step_dispatch q a w o :
    step (mkSystem q a w o) (mkSystem (fst (beginDispatch q)) a w o)
| step_abort q a w o cause :
    step (mkSystem q a w o) (mkSystem (fst (abort cause q)) a w o).

Definition initial (selected : Z) (s : system) : Prop :=
  exists q, newStructureQuarantine selected = inl q /\ s = mkSystem q None [] [].

Definition reachable (selected : Z) (s : system) : Prop :=
  exists s0, initial selected s0 /\ star step s0 s.

(** ** Framing *)

Inductive frame_kind := controlFrame | structureFrame | flagsFrame.
#[export] Instance kind_eq_dec : EqDecision frame_kind. Proof. solve_decision. Defined.

Definition frame_ok (selected : Z) (kf : frame_kind * bytes) : Prop :=
  match kf with
  | (controlFrame, f) => control_frame f
  | (structureFrame, f) => structure_frame selected f
  | (flagsFrame, f) => flags_frame f
  end.

(** Flag updates are consumed, every other complete frame is released. *)
Definition released (fs : list (frame_kind * bytes)) : bytes :=
  concat (map (fun kf => match kf with (flagsFrame, _) => [] | (_, f) => f end) fs).

Definition structures (fs : list (frame_kind * bytes)) : Z :=
  zlen (filter (fun kf => kf.1 = structureFrame) fs).

(** What of the wire is not yet a complete frame. *)
Definition partial (q : structureQuarantine) : bytes :=
  match mode q with quarantineBetween => [] | _ => frame q end.

Definition line_reading (q : structureQuarantine) : Prop :=
  exists s, frame q = (if lineCR q then s ++ [CR] else s) /\ ~ In CR s /\ ~ In LF s.

Definition live_reading (q : structureQuarantine) : Prop :=
  match mode q with
  | quarantineBetween => True
  | quarantineLine => line_reading q
  | quarantineFetch => reading q (frame q)
  end.

(** The bytes [w] split into complete frames and a rest; exactly the released
    ones are in [o] and in the queue. *)
Definition framing (selected : Z) (q : structureQuarantine) (w o : bytes) : Prop :=
  exists fs rest,
    w = concat (map snd fs) ++ rest
    /\ Forall (frame_ok selected) fs
    /\ o ++ pending q = released fs
    /\ structures fs = (if decide (dispatch q = quarantineDelivered) then 1 else 0)
    /\ selectedUID q = selected
    /\ (terminal q = None -> rest = partial q /\ live_reading q).

(** ** One byte *)

(** What the delivery to the decoder depends on. *)
Definition same_out (q q' : structureQuarantine) : Prop :=
  pending q' = pending q /\ dispatch q' = dispatch q /\ selectedUID q' = selectedUID q.

Lemma same_out_trans q1 q2 q3 : same_out q1 q2 -> same_out q2 q3 -> same_out q1 q3.
Proof. intros (? & ? & ?) (? & ? & ?). repeat split; congruence. Qed.

Lemma same_andThen q r k :
  same_out q (fst r) -> (forall q1, same_out q1 (fst (k q1))) -> same_out q (fst (andThen r k)).
Proof. destruct r as [q1 [e|]]; cbn; [done|]. intros H1 H2. eapply same_out_trans; eauto. Qed.

Ltac same_step lem := eapply same_out_trans; [|apply lem]; done.

Lemma tokenLocked_same q : same_out q (fst (tokenLocked q)).
Proof. unfold tokenLocked, fails, ok. by destruct (_ || _). Qed.
Lemma openLocked_same q : same_out q (fst (openLocked q)).
Proof.
  unfold openLocked, fails, ok. destruct (_ =? _); [done|]. by apply same_andThen; [apply tokenLocked_same|].
Qed.
Lemma closeLocked_same q : same_out q (fst (closeLocked q)).
Proof.
  unfold closeLocked, ok. apply same_andThen; [apply tokenLocked_same|]. intros q1. cbv zeta.
  split_goal; [|split_goal]; done.
Qed.
Lemma nameLocked_same name q : same_out q (fst (nameLocked name q)).
Proof. unfold nameLocked, fails, ok. cbv zeta. repeat split_goal; done. Qed.
Lemma endAtomLocked_same stop q : same_out q (fst (endAtomLocked stop q)).
Proof.
  unfold endAtomLocked, fails, ok. cbv zeta. split_goal; [same_step nameLocked_same|].
  repeat split_goal; done.
Qed.
Lemma itemsByteLocked_same v q : same_out q (fst (itemsByteLocked v q)).
Proof.
  unfold itemsByteLocked, startTokenLocked, fails, ok. cbv zeta.
  repeat split_goal; try done;
    first [apply openLocked_same | same_step openLocked_same
          | apply closeLocked_same | same_step tokenLocked_same].
Qed.

Lemma fetchByteLocked_same v q : state q <> fetchEndLF -> same_out q (fst (fetchByteLocked v q)).
Proof.
  intros Hne. unfold fetchByteLocked, literalSizeByteLocked, tokenEnded, fails, ok.
  cbv zeta. destruct (state q); try congruence;
    try (repeat split_goal; try done;
         first [apply itemsByteLocked_same | same_step openLocked_same]).
  split_goal; [by split_goal|].
  apply same_andThen; [apply endAtomLocked_same|]. intros q1. same_step itemsByteLocked_same.
Qed.

Lemma tracked_in q names ks it : tracked q names ks -> counter it q <> 0 -> it ∈ names.
Proof.
  intros Ht Hc. rewrite (tracked_counter _ _ _ it Ht) in Hc.
  by destruct (count_of_spec it names) as [[? _]|[_ ?]].
Qed.
Lemma tracked_notin q names ks it : tracked q names ks -> counter it q <> 1 -> it ∉ names.
Proof.
  intros Ht Hc. rewrite (tracked_counter _ _ _ it Ht) in Hc.
  by destruct (count_of_spec it names) as [[_ ?]|[? _]].
Qed.

(** The end of an accepted FETCH: the one structure response of the operation,
    or a flag update. *)
Definition completed (q q' : structureQuarantine) (f : bytes) : Prop :=
  (structure_frame (selectedUID q) f /\ dispatch q = quarantineActive
   /\ dispatch q' = quarantineDelivered /\ pending q' = pending q ++ f)
  \/ (flags_frame f /\ dispatch q' = dispatch q /\ pending q' = pending q).

Lemma completeFetch_completed q q' ks f :
  fetch_frame_of ks f -> tracked q (ks.*1) ks -> frame q = f ->
  completeFetchLocked q = (q', None) ->
  completed q q' f /\ mode q' = quarantineBetween /\ terminal q' = terminal q
  /\ selectedUID q' = selectedUID q.
Proof.
  intros Hf Ht Hq. unfold completeFetchLocked, fails, ok, releaseLocked.
  destruct (structure q =? 1) eqn:Es; bool_prop.
  - destruct (_ || _) eqn:E; [discriminate|]. intros [= <-].
    apply orb_false_iff in E as [[E1 E2]%orb_false_iff E3]. bool_prop.
    apply bool_decide_eq_true in E3. split; [|done]. left. cbn. rewrite Hq.
    split; [|done]. exists ks. split; [done|].
    assert (itemUID ∈ ks.*1) as Hu by (eapply tracked_in; [exact Ht|done]).
    apply list_elem_of_fmap in Hu as ([it n] & Hn & Hu). cbn in Hn. subst it.
    rewrite <- E2, (t_uid _ _ _ Ht n Hu).
    split; [done|]. eapply tracked_in; [exact Ht|]. cbn. by rewrite Es.
  - destruct (flags q =? 1) eqn:Ef; [|discriminate]. intros [= <-]. bool_prop.
    split; [|done]. right. split; [|done]. exists ks. split; [done|].
    split; [eapply tracked_in; [exact Ht|]; cbn; by rewrite Ef|by eapply tracked_notin].
Qed.

(** The effect of one accepted byte: it extends the partial frame or completes
    one frame. *)
Definition accepts (q q' : structureQuarantine) (f : bytes) : Prop :=
  (partial q' = f /\ live_reading q' /\ same_out q q')
  \/ (mode q' = quarantineBetween /\ selectedUID q' = selectedUID q
      /\ ((control_frame f /\ dispatch q' = dispatch q /\ pending q' = pending q ++ f)
          \/ completed q q' f)).

Lemma accepts_same q q1 q' f : same_out q q1 -> accepts q1 q' f -> accepts q q' f.
Proof.
  intros (Hp & Hd & Hs) [(H1 & H2 & H3 & H4 & H5)|(H1 & H2 & H3)]; [left|right].
  - unfold same_out. rewrite H3, H4, H5. done.
  - unfold completed in *. rewrite Hp, Hd, Hs in *. done.
Qed.

Lemma lineBudget_line q q1 q' s :
  same_out q q1 -> mode q1 = quarantineLine -> frame q1 = (if lineCR q1 then s ++ [CR] else s) ->
  ~ In CR s -> ~ In LF s -> lineBudget q1 = (q', None) -> accepts q q' (frame q1).
Proof.
  intros Hs Hm Hf Hc Hl (-> & _)%lineBudget_ok. left. unfold partial, live_reading. rewrite Hm.
  split; [done|]. split; [by exists s|done].
Qed.

Lemma startFetch_fields q :
  same_out q (startFetchLocked q) /\ mode (startFetchLocked q) = quarantineFetch
  /\ frame (startFetchLocked q) = frame q /\ state (startFetchLocked q) = fetchOpen
  /\ depth (startFetchLocked q) = 0 /\ phase (startFetchLocked q) = itemName
  /\ flagsList (startFetchLocked q) = false /\ uidCount (startFetchLocked q) = 0
  /\ flags (startFetchLocked q) = 0 /\ structure (startFetchLocked q) = 0.
Proof. destruct q. done. Qed.

Lemma startFetch_accepts q q1 :
  same_out q q1 -> fetchPrefix (frame q1) = Some true -> accepts q (startFetchLocked q1) (frame q1).
Proof.
  intros Hs Hp. destruct (startFetch_fields q1) as (Hs1 & Hm & Hf & Hst & Hd & Hph & Hfl & Hu & Hflags & Hstr).
  left. unfold partial, live_reading. rewrite Hm, Hf. split; [done|].
  split; [|by eapply same_out_trans]. exists (frame q1). split; [done|]. rewrite Hst.
  do 4 (split; [done|]). constructor; [constructor|done..|]. by intros n ?%elem_of_nil.
Qed.

(** A byte of a line, already in the frame. *)
Lemma lineByte_accepts v q q' s :
  mode q = quarantineLine -> frame q = (if lineCR q then s ++ [CR] else s) ++ [v] ->
  ~ In CR s -> ~ In LF s -> (lineCR q = true -> zlen (frame q) <= quarantineControlBytes) ->
  lineByteLocked v q = (q', None) -> accepts q q' (frame q).
Proof.
  intros Hm Hf Hcr Hlf Hlen. unfold lineByteLocked, fails.
  destruct (lineCR q) eqn:Ecr.
  { destruct (negb _) eqn:E; [discriminate|]. apply negb_false_iff, beq_eq in E as ->.
    unfold completeLineLocked, fails, ok, releaseLocked.
    assert (take (length (frame q) - 2) (frame q) = s) as Hs.
    { rewrite Hf, <- app_assoc, !length_app. cbn [length app].
      replace (_ - 2)%nat with (length s) by lia. apply take_app_length. }
    rewrite Hs. destruct (quarantineControl s) eqn:Hq; [|discriminate].
    intros [= <-]. right. split; [done|split; [done|]]. left. split; [|done].
    exists s. repeat split; try done; [by rewrite Hf, <- app_assoc|]. by apply Hlen. }
  destruct (v =b CR) eqn:E1.
  { apply beq_eq in E1 as ->. intros H. apply (lineBudget_line q _ _ s) in H; done. }
  apply beq_neq in E1. destruct (v =b LF) eqn:E2; [discriminate|]. apply beq_neq in E2.
  assert (~ In CR (frame q) /\ ~ In LF (frame q)) as [Hc Hl].
  { rewrite Hf. split; intros [?|[?|[]]]%in_app_or; done. }
  assert (forall q1, same_out q q1 -> mode q1 = quarantineLine -> frame q1 = frame q -> lineCR q1 = false ->
            lineBudget q1 = (q', None) -> accepts q q' (frame q)) as Hb.
  { intros q1 Hs1 Hm1 Hf1 Hc1 H. rewrite <- Hf1.
    apply (lineBudget_line _ _ _ (frame q) Hs1 Hm1) in H; [done|by rewrite Hc1|done|done]. }
  destruct (_ && _); cbv zeta.
  - cbn [lineSpaces set_field]. destruct (_ =? 3); [|by apply Hb].
    destruct (fetchPrefix _) as [[|]|] eqn:Hp; [|by apply Hb|discriminate].
    intros [-> _]%fetchFeasible_ok. exact (startFetch_accepts q (q <| lineSpaces := lineSpaces q + 1 |>) ltac:(done) Hp).
  - by apply Hb.
Qed.

(** A byte of a FETCH, already in the frame. *)
Lemma fetchByte_accepts v q q' f :
  mode q = quarantineFetch -> reading q f -> frame q = f ++ [v] ->
  fetchByteLocked v q = (q', None) -> accepts q q' (f ++ [v]).
Proof.
  intros Hm Hr Hf H. pose proof (fetchByteLocked_keeps v q) as [_ _ Hfr _ _ Hsel _ _].
  rewrite H in Hfr, Hsel. cbn in Hfr, Hsel.
  destruct (fetchByte_reading _ _ _ _ Hm Hr Hf H) as [[Hm' Hr']|(ks & Hk & Ht & Hc)].
  - left. unfold partial, live_reading. rewrite Hm', Hfr, <- Hf. split; [done|].
    rewrite Hf. split; [done|]. destruct (decide (state q = fetchEndLF)) as [E|E].
    + exfalso. unfold fetchByteLocked, fails in H. rewrite E in H.
      destruct (negb _); [discriminate|]. unfold completeFetchLocked, fails, ok, releaseLocked in H.
      repeat (split_in H; try discriminate H); injection H as <-; done.
    + pose proof (fetchByteLocked_same v q E) as Hs. by rewrite H in Hs.
  - destruct (completeFetch_completed _ _ _ _ Hk Ht Hf Hc) as (? & ? & _ & ?).
    right. auto.
Qed.

(** One accepted byte. *)
Lemma feed_accepts v q q' :
  quarantine_ok q -> terminal q = None -> live_reading q -> feedLocked v q = (q', None) ->
  accepts q q' (partial q ++ [v]).
Proof.
  intros [Hcnt Hlive] Hterm Hr Hfeed. specialize (Hlive Hterm).
  destruct (feed_cases v q) as [E|(_ & _ & E)]; rewrite E in Hfeed; [discriminate|]. clear E.
  cbv zeta in Hfeed. unfold admitted in Hfeed.
  destruct (growFrame_same ((started q) <| sessionBytes := sessionBytes (started q) + 1 |>)) as [c Hg].
  rewrite Hg in Hfeed. unfold started, startResponseLocked in Hfeed. clear Hg.
  unfold partial. unfold live_reading in Hr. destruct Hlive as [_ Hlive].
  destruct (mode q) eqn:Hmode;
    cbn -[lineByteLocked fetchByteLocked fetchFeasibleLocked andThen bool_decide] in Hfeed;
    change (bool_decide (quarantineBetween = quarantineBetween)) with true in Hfeed;
    change (bool_decide (quarantineLine = quarantineBetween)) with false in Hfeed;
    change (bool_decide (quarantineFetch = quarantineBetween)) with false in Hfeed;
    cbn -[lineByteLocked fetchByteLocked fetchFeasibleLocked andThen bool_decide] in Hfeed; rewrite ?Hmode in Hfeed;
    change (bool_decide (quarantineLine = quarantineLine)) with true in Hfeed;
    change (bool_decide (quarantineFetch = quarantineLine)) with false in Hfeed;
    cbv iota in Hfeed.
  - match type of Hfeed with lineByteLocked _ ?q1 = _ => set (q1' := q1) in Hfeed end.
    apply (lineByte_accepts v q1' q' []) in Hfeed; [exact Hfeed|done|done|intros []|intros []|done].
  - destruct Hr as (s & Hs & Hcr & Hlf).
    match type of Hfeed with lineByteLocked _ ?q1 = _ => set (q1' := q1) in Hfeed end.
    apply (lineByte_accepts v q1' q' s) in Hfeed; [exact Hfeed|done|..]; cbn; rewrite ?Hs; try done.
    intros Hl. destruct Hlive as [Hlen _ _]. rewrite Hs, Hl in Hlen. rewrite Hl, zlen_snoc. lia.
  - match type of Hfeed with andThen (fetchByteLocked _ ?q1) _ = _ => set (q1' := q1) in Hfeed end.
    destruct (fetchByteLocked v q1') as [q2 [e|]] eqn:Hb; [discriminate|]. cbn [andThen] in Hfeed.
    apply (fetchByte_accepts v q1' q2 (frame q)) in Hb; [|done| |done].
    + case_bool_decide; [apply fetchFeasible_ok in Hfeed as [-> _]|injection Hfeed as <-]; exact Hb.
    + eapply reading_eq; [..|exact Hr]; done.
Qed.

(** A byte that does not complete a FETCH releases nothing. *)
Lemma fetchByte_same v q q' e :
  fetchByteLocked v q = (q', e) -> e <> None \/ mode q' = quarantineFetch -> same_out q q'.
Proof.
  intros H Hor. destruct (decide (state q = fetchEndLF)) as [E|E].
  - unfold fetchByteLocked, completeFetchLocked, fails, ok, releaseLocked in H. rewrite E in H.
    repeat (split_in H; try (injection H as <- <-; done)); injection H as <- <-; by destruct Hor.
  - pose proof (fetchByteLocked_same v q E) as Hs. by rewrite H in Hs.
Qed.

Lemma lineByte_refused_same v q q' e : lineByteLocked v q = (q', Some e) -> same_out q q'.
Proof.
  unfold lineByteLocked, completeLineLocked, lineBudget, fetchFeasibleLocked, fails, ok. cbv zeta.
  intros H. repeat (split_in H; try discriminate H); injection H as <- _; done.
Qed.

Lemma admitted_same v q : same_out q (admitted v q) /\ terminal (admitted v q) = terminal q.
Proof.
  unfold admitted. destruct (growFrame_same ((started q) <| sessionBytes := sessionBytes (started q) + 1 |>)) as [c ->].
  unfold started. by case_bool_decide.
Qed.

(** A refused byte releases nothing. *)
Lemma feed_refused v q q' e : feedLocked v q = (q', Some e) -> same_out q q'.
Proof.
  intros H. destruct (feed_cases v q) as [E|(_ & _ & E)]; rewrite E in H; [by injection H as <- _|].
  cbv zeta in H. pose proof (proj1 (admitted_same v q)) as Ha.
  case_bool_decide; [eapply same_out_trans; [exact Ha|]; by eapply lineByte_refused_same|].
  eapply same_out_trans; [exact Ha|].
  destruct (fetchByteLocked v (admitted v q)) as [q2 [e2|]] eqn:Hb; cbn [andThen] in H.
  - injection H as <- _. eapply fetchByte_same; [exact Hb|by left].
  - case_bool_decide; [|discriminate]. apply fetchByte_same in Hb; [|by right].
    unfold fetchFeasibleLocked, fails, ok in H. destruct (_ || _); [|discriminate]. by injection H as <- _.
Qed.

(** ** Framing is kept *)

Lemma released_snoc fs k f :
  released (fs ++ [(k, f)]) = released fs ++ match k with flagsFrame => [] | _ => f end.
Proof. unfold released. rewrite map_app, concat_app. cbn. rewrite app_nil_r. by destruct k. Qed.

Lemma structures_snoc fs k f :
  structures (fs ++ [(k, f)]) = structures fs + match k with structureFrame => 1 | _ => 0 end.
Proof. unfold structures. rewrite filter_app, zlen_app. by destruct k. Qed.

Lemma framing_refused selected q q' w o x :
  framing selected q w o -> same_out q q' -> terminal q' <> None -> framing selected q' (w ++ x) o.
Proof.
  intros (fs & rest & -> & Hok & Ho & Hs & Hsel & _) (Hp & Hd & Hse) Ht.
  exists fs, (rest ++ x). rewrite <- app_assoc, Hp, Hd, Hse. repeat split; try done.
Qed.

Lemma framing_accepts selected q q' w o v :
  framing selected q w o -> terminal q = None -> accepts q q' (partial q ++ [v]) ->
  framing selected q' (w ++ [v]) o.
Proof.
  intros (fs & rest & -> & Hok & Ho & Hs & Hsel & Hlive) Ht.
  destruct (Hlive Ht) as [-> _].
  intros [(Hpart & Hlr & Hp & Hd & Hse)|(Hm & Hse & Hc)].
  { exists fs, (partial q ++ [v]). rewrite <- app_assoc, Hp, Hd, Hse, <- Hpart. done. }
  assert (exists k, frame_ok selected (k, partial q ++ [v])
    /\ pending q' = pending q ++ match k with flagsFrame => [] | _ => partial q ++ [v] end
    /\ (if decide (dispatch q' = quarantineDelivered) then 1 else 0)
       = (if decide (dispatch q = quarantineDelivered) then 1 else 0)
         + match k with structureFrame => 1 | _ => 0 end) as (k & Hk & Hp & Hn).
  { destruct Hc as [(Hf & Hd & Hp)|[(Hf & Hd & Hd' & Hp)|(Hf & Hd & Hp)]].
    - exists controlFrame. rewrite Hd, Hp. split; [done|split; [done|lia]].
    - exists structureFrame. rewrite Hd, Hd', Hp. split; [by rewrite <- Hsel|done].
    - exists flagsFrame. rewrite Hd, Hp, app_nil_r. split; [done|split; [done|lia]]. }
  exists (fs ++ [(k, partial q ++ [v])]), [].
  rewrite map_app, concat_app, released_snoc, structures_snoc, Hp, Hn, Hs, <- Ho, Hse. cbn.
  rewrite !app_nil_r, <- !app_assoc. split; [done|].
  split; [apply Forall_app; split; [done|by apply Forall_singleton]|].
  split; [by rewrite app_assoc|]. split; [done|split; [done|]]. intros _.
  unfold partial, live_reading. by rewrite Hm.
Qed.

Lemma framing_chunk selected chunk q w o :
  quarantine_ok q -> terminal q = None -> framing selected q w o ->
  framing selected (feedChunk chunk q) (w ++ chunk) o.
Proof.
  revert q w. induction chunk as [|v rest IH]; intros q w Hq Ht Hf; cbn [feedChunk].
  { by rewrite app_nil_r. }
  pose proof (feedChunk_ok [v] q Hq Ht) as Hq'. cbn [feedChunk] in Hq'.
  destruct (feedLocked v q) as [q' [e|]] eqn:E.
  - eapply framing_refused; [exact Hf| |done].
    by eapply same_out_trans; [eapply feed_refused|].
  - rewrite (app_assoc w [v] rest : w ++ v :: rest = _). 
    assert (terminal q' = None) as Ht'.
    { destruct Hq as [Hc Hl]. by apply feed_accepted in E as [_ E]; [| |apply Hl|]. }
    apply IH; [done|done|].
    apply (framing_accepts _ q); [done|done|]. apply feed_accepts; [done|done| |done].
    destruct Hf as (fs & r & _ & _ & _ & _ & _ & Hl). by apply Hl.
Qed.

(** The invariant of the reachable states. *)
Definition system_ok (selected : Z) (s : system) : Prop :=
  quarantine_ok (reader s) /\ framing selected (reader s) (wire s) (out s).

Lemma readAbsorb_framing selected chunk err q w o :
  quarantine_ok q -> framing selected q w o -> framing selected (readAbsorb chunk err q) (w ++ chunk) o.
Proof.
  intros Hq Hf. unfold readAbsorb. destruct (terminal q) eqn:Ht.
  { eapply framing_refused; [exact Hf|done|congruence]. }
  pose proof (framing_chunk selected chunk q w o Hq Ht Hf) as Hc. cbv zeta.
  destruct (terminal (feedChunk chunk q)) eqn:Ht'; [done|]. destruct err as [e|]; [|done].
  rewrite <- (app_nil_r (w ++ chunk)).
  eapply framing_refused; [exact Hc| |]; unfold sourceFailedLocked, abortLocked;
    repeat split_goal; done.
Qed.

Lemma readPrepare_cases buffer q q' a :
  readPrepare buffer q = (q', a) ->
  match a with
  | readReturn data None => q' = q <| pending := drop buffer (pending q) |>
      /\ data ++ pending q' = pending q /\ zlen data <= Z.of_nat buffer /\ (data = [] -> buffer = 0%nat)
  | readReturn data (Some e) => q' = q /\ data = [] /\ pending q = [] /\ terminal q = Some e
  | readSource limit => q' = q /\ pending q = [] /\ terminal q = None /\ buffer <> 0%nat
      /\ limit = Z.min quarantineReadBytes (quarantineSessionBytes - sessionBytes q + 1)
  end.
Proof.
  unfold readPrepare. destruct (pending q) as [|b p] eqn:Hp.
  - destruct (terminal q) eqn:Ht; [by intros [= <- <-]|].
    destruct buffer; intros [= <- <-]; [|done].
    split; [by destruct q; cbn in *; subst|]. by rewrite Hp.
  - intros [= <- <-]. cbn [pending set_field]. split; [done|].
    split; [apply (take_drop buffer)|]. split; [unfold zlen; rewrite length_take; lia|].
    destruct buffer; [done|]. done.
Qed.

Lemma framing_pending selected q w o data rest :
  framing selected q w o -> data ++ rest = pending q ->
  framing selected (q <| pending := rest |>) w (o ++ data).
Proof.
  intros (fs & r & Hw & Hok & Ho & Hs & Hsel & Hl) Hp. exists fs, r. cbn.
  rewrite <- app_assoc, Hp. split; [done|split; [done|split; [done|split; [done|split; [done|]]]]].
  intros Ht. destruct (Hl Ht) as [-> Hr]. split; [done|].
  unfold live_reading in *. cbn. destruct (mode q); [done|exact Hr|]. eapply reading_eq; [..|exact Hr]; done.
Qed.

Lemma step_ok selected s s' : system_ok selected s -> step s s' -> system_ok selected s'.
Proof.
  intros [Hq Hf] Hstep. unfold system_ok.
  destruct Hstep as [q q' buffer data err w o E|q q' buffer limit w o E|q limit chunk err w o E|q a w o|q a w o cause];
    cbn in *.
  - pose proof (readPrepare_ok buffer q Hq) as Hq'. rewrite E in Hq'. split; [done|].
    apply readPrepare_cases in E. destruct err as [e|].
    + destruct E as (-> & -> & _). by rewrite app_nil_r.
    + destruct E as (-> & E & _). by apply framing_pending.
  - apply readPrepare_cases in E as (-> & _). done.
  - split; [by apply readAbsorb_ok|]. by apply readAbsorb_framing.
  - split; [by apply beginDispatch_ok|]. unfold beginDispatch, ok.
    destruct (terminal q) eqn:Ht; [done|]. destruct (negb _) eqn:E.
    + rewrite <- (app_nil_r w). eapply framing_refused; [exact Hf|done|done].
    + bool_prop. apply bool_decide_eq_true in E. destruct Hf as (fs & r & Hw & Hok & Ho & Hs & Hsel & Hl).
      exists fs, r. cbn. rewrite E in Hs. split; [done|split; [done|split; [done|split; [done|split; [done|]]]]].
      intros _. destruct (Hl Ht) as [-> Hr]. split; [done|].
      unfold live_reading in *. cbn. destruct (mode q); [done|exact Hr|]. eapply reading_eq; [..|exact Hr]; done.
  - split; [by apply abort_ok|]. unfold abort. destruct (terminal q) eqn:Ht; [done|].
    rewrite <- (app_nil_r w). eapply framing_refused; [exact Hf| |];
      unfold abortLocked; repeat split_goal; done.
Qed.

Lemma initial_ok selected s : initial selected s -> system_ok selected s.
Proof.
  intros (q & Hnew & ->). split; [by eapply new_ok|]. cbn.
  unfold newStructureQuarantine in Hnew. destruct (_ =? 0); [done|]. injection Hnew as <-.
  by exists [], [].
Qed.

Lemma reachable_ok selected s : reachable selected s -> system_ok selected s.
Proof.
  intros (s0 & Hi & Hstar). eapply star_invariant; [by eapply initial_ok| |exact Hstar].
  intros x y. apply step_ok.
Qed.

(** ** Properties *)

(** C1: in every reachable state the quarantine splits the wire into complete
    frames, each an admitted control line, a flag update or the structure
    FETCH of the selected UID, and what the decoder was given plus what is
    queued is exactly the released frames in order; the structure response is
    released at most once, exactly when the dispatch is delivered. *)
Theorem quarantine_framing selected s :
  reachable selected s ->
  exists fs rest,
    wire s = concat (map snd fs) ++ rest
    /\ Forall (frame_ok selected) fs
    /\ out s ++ pending (reader s) = released fs
    /\ structures fs = (if decide (dispatch (reader s) = quarantineDelivered) then 1 else 0).
Proof.
  intros [_ (fs & rest & Hw & Hok & Ho & Hs & _)]%reachable_ok. by exists fs, rest.
Qed.

(** C33: no reachable state exceeds a budget: session bytes, responses, work,
    and the storage of one frame, whatever the source returns. *)
Theorem quarantine_budgets selected s :
  reachable selected s ->
  0 <= sessionBytes (reader s) <= 131072 /\ 0 <= responses (reader s) <= 64
  /\ 0 <= work (reader s) <= 8192 /\ zlen (frame (reader s)) <= frameCap (reader s) <= 65536.
Proof. intros [[[] _] _]%reachable_ok. limits. lia. Qed.

Lemma feed_terminal v q : terminal (fst (feedLocked v q)) = terminal q.
Proof.
  destruct (feed_cases v q) as [->|(_ & _ & ->)]; [done|]. cbv zeta.
  rewrite <- (proj2 (admitted_same v q)). set (q1 := admitted v q). case_bool_decide.
  - unfold lineByteLocked, completeLineLocked, lineBudget, fetchFeasibleLocked, fails, ok. cbv zeta.
    repeat split_goal; done.
  - apply (k_terminal q1). apply keeps_andThen; [apply fetchByteLocked_keeps|].
    intros q2. case_bool_decide; [apply feasible_keeps|apply keeps_refl].
Qed.

Lemma feedChunk_app a b q :
  terminal q = None ->
  feedChunk (a ++ b) q =
    match terminal (feedChunk a q) with None => feedChunk b (feedChunk a q) | Some _ => feedChunk a q end.
Proof.
  revert q. induction a as [|v a IH]; intros q Ht; cbn [feedChunk app]; [by rewrite Ht|].
  pose proof (feed_terminal v q) as Hv. destruct (feedLocked v q) as [q' [e|]]; [done|].
  apply IH. cbn in Hv. congruence.
Qed.

(** How the network splits the bytes into reads changes nothing: absorbing
    two chunks is absorbing their concatenation. *)
Theorem read_chunk_independence a b q :
  readAbsorb b None (readAbsorb a None q) = readAbsorb (a ++ b) None q.
Proof.
  unfold readAbsorb. destruct (terminal q) as [e|] eqn:Ht; [by rewrite Ht|]. cbv zeta.
  rewrite feedChunk_app by done.
  destruct (terminal (feedChunk a q)) as [e|] eqn:Ha; rewrite ?Ha; [done|].
  by destruct (terminal (feedChunk b (feedChunk a q))).
Qed.

(** A refused reader. *)
Lemma step_refused s s' e :
  step s s' -> terminal (reader s) = Some e ->
  terminal (reader s') = Some e /\ out s' ++ pending (reader s') = out s ++ pending (reader s).
Proof.
  intros [q q' buffer data err w o E|q q' buffer limit w o E|q limit chunk err w o E|q a w o|q a w o cause] Ht;
    cbn in *.
  - apply readPrepare_cases in E. destruct err as [e'|].
    + destruct E as (-> & -> & _). by rewrite app_nil_r.
    + destruct E as (Hq & E & _). rewrite <- app_assoc, E. split; [by rewrite Hq|done].
  - apply readPrepare_cases in E as (-> & _). done.
  - unfold readAbsorb. by rewrite Ht.
  - unfold beginDispatch. by rewrite Ht.
  - unfold abort. by rewrite Ht.
Qed.

(** A refusal is final: the first refusal code stays whatever happens
    next, and not one byte more is released after it. *)
Theorem refusal_final s s' e :
  star step s s' -> terminal (reader s) = Some e ->
  terminal (reader s') = Some e /\ out s' ++ pending (reader s') = out s ++ pending (reader s).
Proof.
  intros H Ht. induction H as [|a b c _ IH Hstep]; [done|].
  destruct (IH Ht) as [Ht' <-]. by apply step_refused.
Qed.

(** ** The feasibility check *)

(** The FETCH machine run over [bs] without the reader's budget checks, to the
    end of the response. *)
Fixpoint completes (bs : bytes) (q : structureQuarantine) : option structureQuarantine :=
  match bs with
  | [] => None
  | v :: rest =>
      match fetchByteLocked v (admitted v q) with
      | (_, Some _) => None
      | (q, None) =>
          if bool_decide (mode q = quarantineFetch) then completes rest q
          else match rest with [] => Some q | _ => None end
      end
  end.

(** What admitting a byte of a FETCH changes. *)
Lemma admitted_fetch v q :
  mode q = quarantineFetch ->
  exists c, admitted v q = q <| sessionBytes := sessionBytes q + 1 |> <| frameCap := c |> <| frame := frame q ++ [v] |>.
Proof.
  intros Hm. unfold admitted, started. rewrite bool_decide_false by congruence.
  destruct (growFrame_same (q <| sessionBytes := sessionBytes q + 1 |>)) as [c ->]. by exists c.
Qed.

(** One byte of a run, with the potential it uses. *)
Lemma fetchByte_admitted v q q' :
  mode q = quarantineFetch -> shape_ok q -> atom_ok q ->
  fetchByteLocked v (admitted v q) = (q', None) ->
  zlen (frame q') = zlen (frame q) + 1 /\ sessionBytes q' = sessionBytes q + 1
  /\ work q' - work q = tokens q' - tokens q
  /\ (mode q' = quarantineFetch -> shape_ok q' /\ atom_ok q' /\ bytesNeeded q <= 1 + bytesNeeded q'
        /\ closingNeeded q + tokens q <= closingNeeded q' + tokens q')
  /\ (mode q' <> quarantineFetch -> bytesNeeded q <= 1 /\ closingNeeded q = 0 /\ tokens q' = tokens q).
Proof.
  intros Hm Hsh Ha. destruct (admitted_fetch v q Hm) as [c ->].
  set (q1 := q <| sessionBytes := _ |> <| frameCap := _ |> <| frame := _ |>).
  assert (shape_ok q1) as Hsh1 by (destruct Hsh; by constructor).
  assert (zlen (frame q1) = zlen (frame q) + 1) as Hl by apply zlen_snoc.
  assert (bytesNeeded q1 = bytesNeeded q /\ closingNeeded q1 = closingNeeded q /\ tokens q1 = tokens q
    /\ work q1 = work q /\ sessionBytes q1 = sessionBytes q + 1) as (Hb1 & Hc1 & Ht1 & Hw1 & Hs1) by done.
  assert (mode q1 = quarantineFetch) as Hm1 by done.
  assert (state q1 = fetchAtom -> Z.of_nat (atomStart q1) < zlen (frame q1)) as Ha1.
  { intros Hst. specialize (Ha Hst). rewrite Hl. cbn. lia. }
  clearbody q1. intros Hv. pose proof (zlen_nonneg (frame q)).
  apply fetchByte_step in Hv as [[] Hadv]; [|done|done|lia|done].
  rewrite ff_frame, ff_session, Hl, Hs1. unfold fetch_advance in Hadv.
  do 2 (split; [done|]). split; [lia|].
  destruct (mode q'); (split; [intros Hx|intros Hx]); try done; try congruence; rewrite <- Hb1, <- Hc1, <- Ht1; try apply Hadv; intuition.
Qed.

(** Completing takes at least what [fetchFeasibleLocked] counts. *)
Lemma completes_needs bs q q' :
  mode q = quarantineFetch -> shape_ok q -> atom_ok q -> completes bs q = Some q' ->
  zlen (frame q) + bytesNeeded q <= zlen (frame q')
  /\ sessionBytes q + bytesNeeded q <= sessionBytes q'
  /\ tokens q + closingNeeded q <= tokens q' /\ work q + closingNeeded q <= work q'.
Proof.
  revert q. induction bs as [|v rest IH]; intros q Hm Hsh Ha; cbn [completes]; [done|].
  destruct (fetchByteLocked v (admitted v q)) as [q2 [e|]] eqn:Hv; [done|].
  apply fetchByte_admitted in Hv as (Hf & Hs & Hw & Hgo & Hend); [|done..].
  case_bool_decide as Hm2.
  - destruct (Hgo Hm2) as (Hsh2 & Ha2 & Hb & Hc). intros H. apply IH in H; [|done..]. lia.
  - destruct rest; [|done]. intros [= <-]. specialize (Hend Hm2). lia.
Qed.

Lemma feasible_ok q : feasible q -> fetchFeasibleLocked q = ok q.
Proof.
  intros []. unfold fetchFeasibleLocked.
  repeat match goal with |- context [?a <? ?b] => replace (a <? b) with false by (symmetry; apply Z.ltb_ge; lia) end.
  done.
Qed.

(** [feedLocked] within a FETCH. *)
Lemma feed_fetch v q :
  mode q = quarantineFetch -> sessionBytes q <> quarantineSessionBytes ->
  feedLocked v q = do q2 <- fetchByteLocked v (admitted v q);
                   if bool_decide (mode q2 = quarantineFetch) then fetchFeasibleLocked q2 else ok q2.
Proof.
  intros Hm Hs. unfold feedLocked. replace (sessionBytes q =? quarantineSessionBytes) with false
    by (symmetry; by apply Z.eqb_neq).
  rewrite bool_decide_false by congruence. cbn [andThen ok]. cbv zeta.
  rewrite bool_decide_false.
  - unfold admitted, started. by rewrite bool_decide_false by congruence.
  - destruct (growFrame_same (q <| sessionBytes := sessionBytes q + 1 |>)) as [c ->]. cbn. congruence.
Qed.

Lemma feedChunk_completes bs q q' :
  mode q = quarantineFetch -> shape_ok q -> atom_ok q -> completes bs q = Some q' ->
  zlen (frame q') <= quarantineFrameBytes -> sessionBytes q' <= quarantineSessionBytes ->
  tokens q' <= quarantineFetchTokens -> work q' <= quarantineWorkUnits -> feedChunk bs q = q'.
Proof.
  intros Hm Hsh Ha Hc Hb1 Hb2 Hb3 Hb4. revert q Hm Hsh Ha Hc.
  induction bs as [|v rest IH]; intros q Hm Hsh Ha Hc; [done|].
  pose proof (completes_needs _ _ _ Hm Hsh Ha Hc) as Hn. cbn [completes feedChunk] in *.
  assert (1 <= bytesNeeded q) as Hpos.
  { destruct Hsh as [Hd Hs Hl Hp Hg Ht]. unfold bytesNeeded. destruct (state q); try lia.
    destruct (digits q =? 0); lia. }
  rewrite feed_fetch by (done || lia).
  destruct (fetchByteLocked v (admitted v q)) as [q2 [e|]] eqn:Hv; [done|]. cbn [andThen].
  apply fetchByte_admitted in Hv as (Hf & Hs & Hw & Hgo & Hend); [|done..].
  case_bool_decide as Hm2.
  - destruct (Hgo Hm2) as (Hsh2 & Ha2 & _). pose proof (completes_needs _ _ _ Hm2 Hsh2 Ha2 Hc) as Hn2.
    rewrite feasible_ok; [by apply IH|]. constructor; lia.
  - destruct rest; [|done]. by injection Hc as <-.
Qed.

(** The feasibility checks are transparent: a FETCH under way that the
    byte machine can complete within the budgets is never refused early, and
    the reader ends in exactly the state the unchecked machine reaches. *)
Theorem feasibility_transparent selected s bs q' :
  reachable selected s -> terminal (reader s) = None -> mode (reader s) = quarantineFetch ->
  completes bs (reader s) = Some q' ->
  zlen (frame q') <= 65536 -> sessionBytes q' <= 131072 -> tokens q' <= 4096 -> work q' <= 8192 ->
  feedChunk bs (reader s) = q'.
Proof.
  intros [[_ Hl] _]%reachable_ok Ht Hm. specialize (Hl Ht) as [_ Hl]. rewrite Hm in Hl.
  destruct Hl as (Hsh & Ha & _). by apply feedChunk_completes.
Qed.

(** ** Read *)

Lemma feed_session v q q' :
  feedLocked v q = (q', None) -> sessionBytes q' = sessionBytes q + 1 /\ sessionBytes q <> quarantineSessionBytes.
Proof.
  intros H. destruct (feed_cases v q) as [E|(Hs & _ & E)]; rewrite E in H; [discriminate|]. split; [|done].
  assert (sessionBytes (admitted v q) = sessionBytes q + 1) as <-.
  { unfold admitted. destruct (growFrame_same ((started q) <| sessionBytes := sessionBytes (started q) + 1 |>)) as [c ->].
    unfold started. by case_bool_decide. }
  cbv zeta in H. case_bool_decide.
  - revert H. generalize (admitted v q). intros q1.
    unfold lineByteLocked, completeLineLocked, lineBudget, fetchFeasibleLocked, fails, ok. cbv zeta.
    intros H1. repeat (split_in H1; try discriminate H1); injection H1 as <-; done.
  - pose proof (fetchByteLocked_keeps v (admitted v q)) as Hk.
    destruct (fetchByteLocked v (admitted v q)) as [q2 [e|]]; [discriminate|]. cbn in H, Hk.
    rewrite <- (k_session _ _ Hk). case_bool_decide; [|by injection H as <-].
    by apply fetchFeasible_ok in H as [-> _].
Qed.

(** An answer of the source either ends the reader or uses session bytes. *)
Lemma readAbsorb_progress chunk err q :
  terminal q = None -> sessionBytes q <= quarantineSessionBytes -> chunk <> [] \/ err <> None ->
  terminal (readAbsorb chunk err q) <> None
  \/ sessionBytes q < sessionBytes (readAbsorb chunk err q) <= quarantineSessionBytes.
Proof.
  intros Ht Hs Hprog. unfold readAbsorb. rewrite Ht. cbv zeta.
  assert (terminal (feedChunk chunk q) <> None \/
          sessionBytes (feedChunk chunk q) = sessionBytes q + zlen chunk
          /\ sessionBytes q + zlen chunk <= quarantineSessionBytes) as Hf.
  { clear Hprog. revert q Ht Hs. induction chunk as [|v rest IH]; intros q Ht Hs; cbn [feedChunk].
    { right. rewrite zlen_nil. lia. }
    pose proof (feed_terminal v q) as Hv.
    destruct (feedLocked v q) as [q' [e|]] eqn:E; [by left|]. cbn in Hv.
    apply feed_session in E as [E1 E2]. destruct (IH q') as [?|?]; [congruence|lia|by left|].
    right. rewrite zlen_cons. lia. }
  destruct (terminal (feedChunk chunk q)) eqn:Ht'; [left; congruence|].
  destruct err as [e|].
  - left. unfold sourceFailedLocked, abortLocked. repeat split_goal; done.
  - right. destruct Hf as [?|[Hf ?]]; [done|]. destruct Hprog as [Hc|]; [|done].
    destruct chunk; [done|]. rewrite zlen_cons in *. pose proof (zlen_nonneg chunk). lia.
Qed.

(** [Read] returns: against a source that never answers with neither
    bytes nor an error, it needs at most one answer per byte left in the
    session budget, and one more. *)
Theorem read_returns (src : nat -> bytes * option goerror) buffer q :
  sessionBytes q <= quarantineSessionBytes ->
  (forall i, fst (src i) <> [] \/ snd (src i) <> None) ->
  exists n, Z.of_nat n <= quarantineSessionBytes - sessionBytes q + 1
    /\ exists result, Read buffer (map src (seq 0 n)) q = Some result.
Proof.
  intros Hs Hsrc.
  assert (forall m start q, sessionBytes q <= quarantineSessionBytes ->
    quarantineSessionBytes - sessionBytes q <= Z.of_nat m ->
    exists n, Z.of_nat n <= quarantineSessionBytes - sessionBytes q + 1
      /\ exists result, Read buffer (map src (seq start n)) q = Some result) as Hgen.
  { clear q Hs. induction m as [|m IH]; intros start q Hs Hm;
      (destruct (readPrepare buffer q) as [q1 a] eqn:E; pose proof (readPrepare_cases _ _ _ _ E) as Hc;
       destruct a as [data err|limit]; [exists 0%nat; split; [lia|]; cbn; rewrite E; eauto|]);
      destruct Hc as (-> & _ & Ht & _);
      destruct (readAbsorb_progress (fst (src start)) (snd (src start)) q Ht Hs (Hsrc start)) as [Hp|Hp].
    2: lia.
    3: { destruct (IH (S start) (readAbsorb (fst (src start)) (snd (src start)) q)) as (n & Hn & r & Hr); [lia..|].
         exists (S n). split; [lia|]. exists r. cbn. rewrite E. by destruct (src start). }
    all: exists 1%nat; split; [lia|]; cbn; rewrite E; destruct (src start) as [chunk err]; cbn in Hp;
      unfold readPrepare; destruct (pending (readAbsorb chunk err q)); [|eauto];
      destruct (terminal (readAbsorb chunk err q)); [eauto|done]. }
  destruct (Hgen (Z.to_nat (quarantineSessionBytes - sessionBytes q)) 0%nat q) as (n & Hn & Hr); [done|lia|].
  by exists n.
Qed.

(** [Read] never returns bytes together with an error, never more than
    the buffer holds, no empty success on a non-empty buffer, and the error it
    returns is the reader's refusal. *)
Theorem read_result buffer source q q' rest data err :
  Read buffer source q = Some (q', rest, data, err) ->
  zlen data <= Z.of_nat buffer
  /\ match err with
     | None => data = [] -> buffer = 0%nat
     | Some e => data = [] /\ pending q' = [] /\ terminal q' = Some e
     end.
Proof.
  revert q. induction source as [|[chunk serr] source IH]; intros q; cbn [Read];
    destruct (readPrepare buffer q) as [q1 a] eqn:E; apply readPrepare_cases in E;
    (destruct a as [d [e|]|limit]; [intros [= <- <- <- <-]..|]); try done; try apply IH.
  1,3: destruct E as (-> & -> & Hp & Ht); rewrite zlen_nil; repeat split; try done; lia.
  all: destruct E as (_ & _ & Hl & Hn); done.
Qed.
