(* ===== verification/QuarantineAccept.v ===== *)
(** * What the structure quarantine lets through

    The converse of framing: every admitted control line within the budgets is
    released unchanged, and concrete conversations that exercise the
    properties of [QuarantineSystem]. *)
From Stdlib Require Import ZArith Lia Strings.Byte.
From stdpp Require Import base list gmap strings.
From S2P Require Import Prelude GoStrings Errors ImapGrammar Quarantine QuarantineInv QuarantineGrammar QuarantineSystem.

Definition CRLF : bytes := [CR; LF].

(** ** Admitted control lines *)

Fixpoint count_byte (c : byte) (s : bytes) : Z :=
  match s with [] => 0 | x :: s => (if x =b c then 1 else 0) + count_byte c s end.

Lemma count_byte_app c a b : count_byte c (a ++ b) = count_byte c a + count_byte c b.
Proof. induction a as [|x a IH]; cbn; [done|]. rewrite IH. lia. Qed.

Lemma count_byte_none c s : ~ In c s -> count_byte c s = 0.
Proof.
  induction s as [|x s IH]; cbn; [done|]. intros H. destruct (x =b c) eqn:E; [apply beq_eq in E; tauto|].
  rewrite IH; tauto.
Qed.

(** Spaces of a line as [lineByteLocked] counts them. *)
Definition star_spaces (p : bytes) : Z :=
  match p with b :: _ => if b =b "*"%byte then count_byte SP p else 0 | [] => 0 end.

(** An admitted line never reaches the FETCH check with a FETCH. *)
Lemma control_not_fetch p rest :
  quarantineControl (p ++ SP :: rest) = true -> star_spaces (p ++ [SP]) = 3 ->
  fetchPrefix (p ++ [SP]) = Some false.
Proof.
  intros Hc Hs. unfold fetchPrefix.
  replace (take (length (p ++ [SP]) - 1) (p ++ [SP])) with p
    by (rewrite length_app; cbn; replace (length p + 1 - 1)%nat with (length p) by lia; by rewrite take_app_length).
  destruct p as [|b p]; [done|]. cbn in Hs. destruct (b =b "*"%byte) eqn:Eb; [|done].
  apply beq_eq in Eb as ->. destruct p as [|b p]; [done|].
  unfold quarantineControl in Hc. cbn [app] in Hc.
  change (cut_prefix ("*"%byte :: b :: p ++ SP :: rest) $"+") with ("*"%byte :: b :: p ++ SP :: rest, false) in Hc.
  cbv iota in Hc. destruct (decide (b = SP)) as [->|Hb].
  - assert (cut_prefix ("*"%byte :: SP :: p ++ SP :: rest) $"* " = (p ++ SP :: rest, true)) as Hcp
      by (by apply cut_prefix_true).
    rewrite Hcp in Hc.
    cbn [negb drop] in *. destruct (cut_byte SP p) as [[number name] found] eqn:Hcut.
    rewrite count_byte_app in Hs. cbn in Hs.
    destruct found.
    + apply cut_byte_true in Hcut as [-> Hno].
      rewrite <- app_assoc in Hc. cbn [app] in Hc.
      rewrite cut_byte_app in Hc by done. rewrite drop_0, cut_byte_app by done.
      destruct number as [|d number]; [done|]. cbn [negb] in *.
      destruct (is_digit d) eqn:Hd; [exfalso|done].
      destruct (cut_byte SP (name ++ SP :: rest)) as [[kind tail] extra] eqn:Hk.
      destruct (quarantineNumber (d :: number) true); [|done].
      destruct extra; [done|].
      apply cut_byte_false in Hk as (_ & _ & Hk). apply Hk. apply in_or_app. right. by left.
    + apply cut_byte_false in Hcut as (_ & _ & Hno). rewrite (count_byte_none _ _ Hno) in Hs. done.
  - destruct (cut_prefix ("*"%byte :: b :: p ++ SP :: rest) $"* ") as [r [|]] eqn:E.
    { apply cut_prefix_true in E. by injection E. }
    cbn [negb] in Hc.
    destruct (cut_byte SP ("*"%byte :: b :: p ++ SP :: rest)) as [[tag status] f] eqn:Hcut.
    assert (exists t, tag = "*"%byte :: t) as [t ->].
    { destruct f; [apply cut_byte_true in Hcut as [Hcut _]|apply cut_byte_false in Hcut as [-> _]; eauto].
      destruct tag; [done|]. injection Hcut as <- _. eauto. }
    exfalso. revert Hc. unfold quarantineAtom. cbn [forallb]. done.
Qed.

(** The reader [q] in the middle of a line, [p] of it read since [q0]. *)
Record line_at (q0 : structureQuarantine) (p : bytes) (q : structureQuarantine) : Prop := {
  la_terminal : terminal q = None;
  la_mode : mode q = quarantineLine;
  la_frame : frame q = p;
  la_cr : lineCR q = false;
  la_spaces : lineSpaces q = star_spaces p;
  la_session : sessionBytes q = sessionBytes q0 + zlen p;
  la_responses : responses q = responses q0 + 1;
  la_work : work q = work q0;
  la_out : same_out q0 q }.

Lemma star_spaces_snoc p v :
  star_spaces (p ++ [v]) =
    star_spaces p + (if (v =b SP) && match p ++ [v] with b :: _ => b =b "*"%byte | [] => false end then 1 else 0).
Proof.
  destruct p as [|b p]; cbn.
  - destruct (v =b "*"%byte) eqn:E; [|by rewrite andb_false_r]. apply beq_eq in E as ->. done.
  - destruct (b =b "*"%byte); [|by rewrite andb_false_r].
    rewrite count_byte_app, andb_true_r. cbn. lia.
Qed.

Lemma lineBudget_go q :
  lineCR q = false -> zlen (frame q) + 2 <= quarantineControlBytes ->
  sessionBytes q + 2 <= quarantineSessionBytes -> lineBudget q = ok q.
Proof.
  intros Hc Hf Hs. unfold lineBudget. rewrite Hc. cbv zeta.
  by rewrite (proj2 (Z.ltb_ge _ _) Hf), (proj2 (Z.ltb_ge _ _) Hs).
Qed.

(** One more byte of an admitted line. *)
Lemma lineByte_go v p q :
  mode q = quarantineLine -> frame q = p ++ [v] -> lineCR q = false -> lineSpaces q = star_spaces p ->
  v <> CR -> v <> LF -> zlen (frame q) + 2 <= quarantineControlBytes ->
  sessionBytes q + 2 <= quarantineSessionBytes ->
  (v = SP -> star_spaces (p ++ [v]) = 3 -> fetchPrefix (p ++ [v]) = Some false) ->
  exists n, n = star_spaces (p ++ [v]) /\ lineByteLocked v q = ok (q <| lineSpaces := n |>).
Proof.
  intros Hm Hf Hcr Hsp Hvc Hvl Hlen Hs Hfetch. eexists; split; [done|].
  unfold lineByteLocked. rewrite Hcr.
  rewrite (proj2 (beq_neq v CR) Hvc), (proj2 (beq_neq v LF) Hvl).
  rewrite star_spaces_snoc in *. rewrite <- Hf in *.
  destruct (_ && _) eqn:E; cbv zeta.
  - change (lineSpaces (q <| lineSpaces := lineSpaces q + 1 |>)) with (lineSpaces q + 1).
    change (frame (q <| lineSpaces := lineSpaces q + 1 |>)) with (frame q). rewrite Hsp.
    apply andb_prop in E as [E _]. apply beq_eq in E.
    destruct (_ =? 3) eqn:E3; [bool_prop; rewrite Hfetch by done|]; by apply lineBudget_go.
  - rewrite lineBudget_go by done. rewrite Z.add_0_r, <- Hsp. by destruct q.
Qed.

(** [feedLocked] with room in the budgets is one byte of the line. *)
Lemma feed_line v q :
  sessionBytes q <> quarantineSessionBytes -> mode q <> quarantineFetch ->
  (mode q = quarantineBetween -> responses q <> quarantineResponses /\ work q <> quarantineWorkUnits) ->
  feedLocked v q = lineByteLocked v (admitted v q).
Proof.
  intros Hs Hm Hb. unfold feedLocked, admitted, started.
  replace (sessionBytes q =? quarantineSessionBytes) with false by (symmetry; by apply Z.eqb_neq).
  case_bool_decide as Hbt.
  - destruct (Hb Hbt) as [Hr Hw].
    rewrite (proj2 (Z.eqb_neq _ _) Hr), (proj2 (Z.eqb_neq _ _) Hw). cbn [orb andThen ok]. cbv zeta.
    destruct (growFrame_same ((startResponseLocked q) <| sessionBytes := sessionBytes (startResponseLocked q) + 1 |>)) as [c ->].
    rewrite bool_decide_true by done. done.
  - cbn [andThen ok]. cbv zeta.
    destruct (growFrame_same (q <| sessionBytes := sessionBytes q + 1 |>)) as [c ->].
    rewrite bool_decide_true; [done|]. change (mode q = quarantineLine). by destruct (mode q).
Qed.

(** The admitted state of a line byte. *)
Lemma admitted_line v q :
  mode q <> quarantineFetch ->
  let q1 := admitted v q in
  let b := bool_decide (mode q = quarantineBetween) in
  same_out q q1 /\ terminal q1 = terminal q /\ mode q1 = quarantineLine
  /\ frame q1 = partial q ++ [v] /\ sessionBytes q1 = sessionBytes q + 1 /\ work q1 = work q
  /\ lineCR q1 = (if b then false else lineCR q) /\ lineSpaces q1 = (if b then 0 else lineSpaces q)
  /\ responses q1 = responses q + (if b then 1 else 0).
Proof.
  intros Hm q1 b. subst q1 b. split; [apply admitted_same|]. split; [apply admitted_same|].
  unfold admitted, started, partial.
  destruct (growFrame_same ((if bool_decide (mode q = quarantineBetween) then startResponseLocked q else q)
    <| sessionBytes := sessionBytes (if bool_decide (mode q = quarantineBetween) then startResponseLocked q else q) + 1 |>)) as [c ->].
  case_bool_decide as Hb; cbn.
  - rewrite Hb. done.
  - destruct (mode q); [done| |done]. repeat split; lia.
Qed.

(** Feeding a byte of a line, at a boundary or inside. *)
Lemma feed_go q0 p v q :
  line_at q0 p q \/ (p = [] /\ q = q0 /\ mode q0 = quarantineBetween /\ terminal q0 = None
    /\ responses q0 <> quarantineResponses /\ work q0 <> quarantineWorkUnits) ->
  v <> CR -> v <> LF -> zlen p + 3 <= quarantineControlBytes ->
  sessionBytes q0 + zlen p + 3 <= quarantineSessionBytes ->
  (v = SP -> star_spaces (p ++ [v]) = 3 -> fetchPrefix (p ++ [v]) = Some false) ->
  exists q', feedLocked v q = (q', None) /\ line_at q0 (p ++ [v]) q'.
Proof.
  intros Hq Hvc Hvl Hlen Hs Hfetch.
  assert (mode q <> quarantineFetch /\ sessionBytes q = sessionBytes q0 + zlen p /\ partial q = p
    /\ same_out q0 q /\ terminal q = None /\ work q = work q0
    /\ (mode q = quarantineBetween -> responses q <> quarantineResponses /\ work q <> quarantineWorkUnits)
    /\ (if bool_decide (mode q = quarantineBetween) then false else lineCR q) = false
    /\ (if bool_decide (mode q = quarantineBetween) then 0 else lineSpaces q) = star_spaces p
    /\ responses q + (if bool_decide (mode q = quarantineBetween) then 1 else 0) = responses q0 + 1)
    as (Hm & Hse & Hpa & Hso & Ht & Hw & Hb & Hcr & Hls & Hre).
  { unfold partial. destruct Hq as [[]|(-> & -> & Hm & ? & ? & ?)].
    - rewrite la_mode0. rewrite bool_decide_false by done. repeat split; congruence || lia || apply la_out0.
    - rewrite Hm. rewrite bool_decide_true by done. rewrite zlen_nil. repeat split; done || lia. }
  rewrite feed_line; [|limits; lia|done|done].
  destruct (admitted_line v q Hm) as (Ho1 & Ht1 & Hm1 & Hf1 & Hs1 & Hw1 & Hc1 & Hl1 & Hr1).
  rewrite Hpa in Hf1. rewrite Hcr in Hc1. rewrite Hls in Hl1. rewrite Hre in Hr1.
  revert Ho1 Ht1 Hm1 Hf1 Hs1 Hw1 Hc1 Hl1 Hr1. generalize (admitted v q). intros q1 Ho1 Ht1 Hm1 Hf1 Hs1 Hw1 Hc1 Hl1 Hr1.
  destruct (lineByte_go v p q1) as (n & Hn & ->); try done.
  - rewrite Hf1, zlen_snoc. lia.
  - lia.
  - eexists. split; [done|]. constructor; cbn; try congruence.
    + rewrite zlen_snoc. lia.
    + eapply same_out_trans; [exact Hso|]. exact Ho1.
Qed.

(** A line prefix of an admitted control. *)
Lemma feed_prefix q0 p rest q :
  quarantineControl (p ++ rest) = true -> ~ In CR (p ++ rest) -> ~ In LF (p ++ rest) ->
  p <> [] -> mode q0 = quarantineBetween -> terminal q0 = None ->
  responses q0 <> quarantineResponses -> work q0 <> quarantineWorkUnits ->
  zlen (p ++ rest) + 2 <= quarantineControlBytes ->
  sessionBytes q0 + zlen (p ++ rest) + 2 <= quarantineSessionBytes ->
  q = feedChunk p q0 -> line_at q0 p q.
Proof.
  intros Hc Hcr Hlf Hp Hm Ht Hr Hw Hlen Hs ->. revert rest Hc Hcr Hlf Hlen Hs Hp.
  induction p as [|v p IH] using rev_ind; intros rest Hc Hcr Hlf Hlen Hs Hp; [done|clear Hp].
  rewrite <- app_assoc in *. cbn [app] in *. pose proof (zlen_nonneg rest) as Hz.
  rewrite !zlen_app, !zlen_cons in *.
  assert (line_at q0 p (feedChunk p q0) \/ (p = [] /\ feedChunk p q0 = q0 /\ mode q0 = quarantineBetween
    /\ terminal q0 = None /\ responses q0 <> quarantineResponses /\ work q0 <> quarantineWorkUnits)) as Hq.
  { destruct p as [|b p]; [by right|left]. apply (IH (v :: rest)); try done; rewrite !zlen_app, !zlen_cons in *; lia. }
  destruct (feed_go q0 p v _ Hq) as (q' & Hfeed & Hat).
  - intros ->. apply Hcr, in_or_app. right. by left.
  - intros ->. apply Hlf, in_or_app. right. by left.
  - lia.
  - lia.
  - intros -> H3. by eapply control_not_fetch.
  - rewrite feedChunk_app by done.
    assert (terminal (feedChunk p q0) = None) as -> by (destruct Hq as [[]|(_ & -> & _)]; done).
    cbn [feedChunk]. by rewrite Hfeed.
Qed.

(** The CR and the LF that end an admitted line. *)
Lemma feed_crlf q0 line q :
  line_at q0 line q -> quarantineControl line = true -> line <> [] ->
  zlen line + 2 <= quarantineControlBytes ->
  sessionBytes q0 + zlen line + 2 <= quarantineSessionBytes ->
  let q' := feedChunk CRLF q in
  terminal q' = None /\ mode q' = quarantineBetween /\ pending q' = pending q0 ++ line ++ CRLF
  /\ dispatch q' = dispatch q0 /\ responses q' = responses q0 + 1 /\ work q' = work q0 + 1
  /\ sessionBytes q' = sessionBytes q0 + zlen line + 2.
Proof.
  intros [] Hc Hne Hlen Hs. cbv zeta. cbn [CRLF feedChunk].
  rewrite feed_line; [|limits; lia|congruence|congruence].
  assert (mode q <> quarantineFetch) as Hm by congruence.
  destruct (admitted_line CR q Hm) as (Ho1 & Ht1 & Hm1 & Hf1 & Hs1 & Hw1 & Hc1 & _ & Hr1).
  rewrite bool_decide_false in Hc1, Hr1 by congruence.
  unfold partial in Hf1. rewrite la_mode0 in Hf1.
  revert Ho1 Ht1 Hm1 Hf1 Hs1 Hw1 Hc1 Hr1. generalize (admitted CR q).
  intros q1 Ho1 Ht1 Hm1 Hf1 Hs1 Hw1 Hc1 Hr1.
  assert (lineByteLocked CR q1 = ok (q1 <| lineCR := true |>)) as ->.
  { unfold lineByteLocked. rewrite Hc1, la_cr0, beq_refl. unfold lineBudget. cbn.
    rewrite Hf1, zlen_snoc, la_frame0, Hs1.
    rewrite (proj2 (Z.ltb_ge quarantineControlBytes _)), (proj2 (Z.ltb_ge quarantineSessionBytes _)) by lia. done. }
  cbn [ok]. set (q2 := q1 <| lineCR := true |>).
  rewrite feed_line; [|limits; cbn; lia|cbn; congruence|cbn; congruence].
  assert (mode q2 <> quarantineFetch) as Hm2 by (cbn; congruence).
  destruct (admitted_line LF q2 Hm2) as (Ho3 & Ht3 & Hm3 & Hf3 & Hs3 & Hw3 & Hc3 & _ & Hr3).
  rewrite bool_decide_false in Hc3, Hr3 by (cbn; congruence).
  unfold partial in Hf3. cbn in Hf3, Hs3, Hw3, Hc3, Hr3, Ht3. rewrite Hm1, Hf1, la_frame0 in Hf3.
  revert Ho3 Ht3 Hm3 Hf3 Hs3 Hw3 Hc3 Hr3. generalize (admitted LF q2).
  intros q3 (Hp3 & Hd3 & _) Ht3 Hm3 Hf3 Hs3 Hw3 Hc3 Hr3. destruct Ho1 as (Hp1 & Hd1 & _), la_out0 as (Hp0 & Hd0 & _).
  unfold lineByteLocked. rewrite Hc3, beq_refl. cbn [negb]. unfold completeLineLocked.
  assert (take (length (frame q3) - 2) (frame q3) = line) as ->.
  { rewrite Hf3, <- app_assoc, !length_app. cbn [length app].
    replace (_ - 2)%nat with (length line) by lia. apply take_app_length. }
  rewrite Hc. cbn. cbn in Hp3, Hd3. rewrite Hf3, <- app_assoc, Ht3, Ht1, Hp3, Hp1, Hp0, Hd3, Hd1, Hd0.
  repeat split; congruence || lia.
Qed.

(** Every admitted control line that fits the budgets passes through: fed
    to a reader between responses it is appended to the queue unchanged, at
    the cost of one response and one work unit. *)
Theorem control_released line q :
  terminal q = None -> mode q = quarantineBetween ->
  quarantineControl line = true -> ~ In CR line -> ~ In LF line -> zlen line + 2 <= 4096 ->
  sessionBytes q + zlen line + 2 <= 131072 -> responses q <> 64 -> work q <> 8192 ->
  let q' := feedChunk (line ++ CRLF) q in
  terminal q' = None /\ mode q' = quarantineBetween /\ pending q' = pending q ++ line ++ CRLF
  /\ dispatch q' = dispatch q /\ responses q' = responses q + 1 /\ work q' = work q + 1
  /\ sessionBytes q' = sessionBytes q + zlen line + 2.
Proof.
  intros Ht Hm Hc Hcr Hlf Hlen Hs Hr Hw q'. subst q'. assert (line <> []) as Hne by (by intros ->).
  assert (line_at q line (feedChunk line q)) as Hat.
  { apply (feed_prefix q line []); rewrite ?app_nil_r; done. }
  rewrite feedChunk_app, (la_terminal _ _ _ Hat) by done. by apply feed_crlf.
Qed.

(** ** A conversation *)

Definition greeting : bytes := $"* 3 EXISTS" ++ CRLF.
Definition flag_update : bytes := $"* 2 FETCH (FLAGS (\Seen custom))" ++ CRLF.
Definition structure_reply : bytes :=
  $"* 1 FETCH (UID 7 BODYSTRUCTURE ((" ++ [DQUOTE] ++ $"text" ++ [DQUOTE] ++ $" {3}" ++ CRLF
  ++ $"abc NIL)(alternative)))" ++ CRLF.

Definition quarantine0 : structureQuarantine :=
  mkQuarantine 7 quarantineIdle [] None 0 0 0 quarantineBetween [] 0 0 false
    fetchOpen 0 0 previousOpen itemName itemUID false 0 0 0 0 0 0 0.

(** Dispatch, ask, answer with [chunk]. *)
Lemma answered_reachable chunk :
  (zlen chunk <=? 4096) = true ->
  reachable 7 (mkSystem (readAbsorb chunk None (quarantine0 <| dispatch := quarantineActive |>)) None chunk []).
Proof.
  intros Hlen. exists (mkSystem quarantine0 None [] []). split; [by exists quarantine0|].
  set (q1 := quarantine0 <| dispatch := quarantineActive |>).
  eapply star_snoc; [|by apply (step_answer q1 4096 chunk None [] []), Z.leb_le].
  eapply star_snoc; [|by apply (step_ask q1 q1 1 4096 [] [])].
  eapply star_snoc; [apply star_refl|]. exact (step_dispatch quarantine0 None [] []).
Qed.

(** The same, and up to [n] bytes returned. *)
Lemma conversation_reachable chunk n d q :
  (zlen chunk <=? 4096) = true ->
  readPrepare n (readAbsorb chunk None (quarantine0 <| dispatch := quarantineActive |>)) = (q, readReturn d None) ->
  reachable 7 (mkSystem q None chunk d).
Proof.
  intros Hlen E. destruct (answered_reachable chunk Hlen) as (s0 & Hi & Hs). exists s0. split; [done|].
  eapply star_snoc; [exact Hs|]. by eapply (step_return _ q n d None chunk []).
Qed.

Definition conversation : bytes := greeting ++ flag_update ++ structure_reply.

(** The flag update is consumed, the rest is delivered in order. *)
Example conversation_out :
  snd (readPrepare 200 (readAbsorb conversation None (quarantine0 <| dispatch := quarantineActive |>)))
  = readReturn (greeting ++ structure_reply) None.
Proof. vm_compute. reflexivity. Qed.

Lemma quarantine_framing_witness :
  exists s, reachable 7 s /\ dispatch (reader s) = quarantineDelivered /\ out s = greeting ++ structure_reply
  /\ exists fs rest, wire s = concat (map snd fs) ++ rest /\ Forall (frame_ok 7) fs
    /\ out s ++ pending (reader s) = released fs
    /\ structures fs = (if decide (dispatch (reader s) = quarantineDelivered) then 1 else 0).
Proof.
  eexists. split; [|split; [|split; [|apply quarantine_framing]]].
  - apply (conversation_reachable conversation 200); vm_compute; reflexivity.
  - vm_compute. reflexivity.
  - vm_compute. reflexivity.
  - apply (conversation_reachable conversation 200); vm_compute; reflexivity.
Defined.

Lemma quarantine_budgets_witness :
  exists s, reachable 7 s /\ 0 <= sessionBytes (reader s) <= 131072 /\ 0 <= responses (reader s) <= 64
    /\ 0 <= work (reader s) <= 8192 /\ zlen (frame (reader s)) <= frameCap (reader s) <= 65536.
Proof.
  eexists. split; [|apply quarantine_budgets with 7]; by apply (answered_reachable conversation).
Defined.

Definition refused : structureQuarantine :=
  readAbsorb $"* 1 FETCH (X " None (quarantine0 <| dispatch := quarantineActive |>).

Definition refused_system : system := mkSystem refused (Some 4096) [] [].
Definition later_system : system := mkSystem (readAbsorb greeting None refused) None greeting [].

Lemma refusal_final_witness :
  terminal (reader later_system) = Some CodeIMAPProtocol
  /\ out later_system ++ pending (reader later_system) = out refused_system ++ pending (reader refused_system).
Proof.
  apply (refusal_final refused_system later_system CodeIMAPProtocol).
  - eapply star_snoc; [apply star_refl|]. by apply (step_answer refused 4096 greeting None [] []).
  - vm_compute. reflexivity.
Defined.

Definition half_fetch : bytes := $"* 1 FETCH (UID 7 BODYSTRUCTURE (".
Definition other_half : bytes := $"NIL))" ++ CRLF.

Definition half_system : system :=
  mkSystem (readAbsorb half_fetch None (quarantine0 <| dispatch := quarantineActive |>)) None half_fetch [].

Lemma feasibility_transparent_witness :
  exists q', completes other_half (reader half_system) = Some q' /\ feedChunk other_half (reader half_system) = q'.
Proof.
  eexists. split; [vm_compute; reflexivity|].
  apply (feasibility_transparent 7 half_system other_half); [exact (answered_reachable half_fetch eq_refl)|..];
    vm_compute; (reflexivity || discriminate).
Defined.

Lemma read_returns_witness :
  exists n, Z.of_nat n <= 131072 - sessionBytes quarantine0 + 1
    /\ exists result, Read 16 (map (fun _ => ($"+", None)) (seq 0 n)) quarantine0 = Some result.
Proof.
  apply (read_returns (fun _ => ($"+", None)) 16 quarantine0); [vm_compute; discriminate|].
  intros i. left. discriminate.
Defined.

Lemma read_result_witness :
  zlen ($"* 3 E") <= Z.of_nat 5 /\ ($"* 3 E" = [] -> 5%nat = 0%nat).
Proof.
  apply (read_result 5 [(greeting, None)] quarantine0
           ((readAbsorb greeting None quarantine0) <| pending := $"XISTS" ++ CRLF |>) [] $"* 3 E" None).
  vm_compute. reflexivity.
Defined.

Lemma control_released_witness :
  pending (feedChunk ($"* 3 EXISTS" ++ CRLF) quarantine0) = $"* 3 EXISTS" ++ CRLF.
Proof.
  apply (control_released $"* 3 EXISTS" quarantine0);
    try (vm_compute; (reflexivity || discriminate)); apply contains_byte_false; reflexivity.
Defined.
