(* ===== verification/GoText.v ===== *)
(** * Text: UTF-8, Unicode classes and buffered lines

    Go's [unicode/utf8] decoding as the program uses it ([utf8.ValidString],
    ranging over a string, [strings.TrimSpace], [unicode.IsControl]), the text
    functions over it and the lines of [bufio.Reader]. *)
From Stdlib Require Import ZArith Lia Strings.Byte.
From stdpp Require Import base list gmap strings.
From S2P Require Import Prelude GoStrings.

Definition RuneError : Z := 65533.

Definition continuation (b : byte) : bool := (128 <=? bZ b) && (bZ b <=? 191).
Definition between (lo hi : Z) (b : byte) : bool := (lo <=? bZ b) && (bZ b <=? hi).

(** The range of the second byte after a leading byte of a longer sequence. *)
Definition second_ok (b0 b1 : byte) : bool :=
  let x := bZ b0 in
  if x =? 224 then between 160 191 b1
  else if x =? 237 then between 128 159 b1
  else if x =? 240 then between 144 191 b1
  else if x =? 244 then between 128 143 b1
  else continuation b1.

(** [utf8.DecodeRuneInString]: the rune and its width; [(RuneError, 1)] at an
    invalid byte and [(RuneError, 0)] at the end. *)
Definition decode_rune (s : bytes) : Z * nat :=
  match s with
  | [] => (RuneError, 0%nat)
  | b0 :: s1 =>
      let x := bZ b0 in
      if x <? 128 then (x, 1%nat)
      else if (x <? 194) || (244 <? x) then (RuneError, 1%nat)
      else match s1 with
      | [] => (RuneError, 1%nat)
      | b1 :: s2 =>
          if negb (second_ok b0 b1) then (RuneError, 1%nat)
          else if x <? 224 then ((x - 192) * 64 + (bZ b1 - 128), 2%nat)
          else match s2 with
          | [] => (RuneError, 1%nat)
          | b2 :: s3 =>
              if negb (continuation b2) then (RuneError, 1%nat)
              else if x <? 240 then
                ((x - 224) * 4096 + (bZ b1 - 128) * 64 + (bZ b2 - 128), 3%nat)
              else match s3 with
              | [] => (RuneError, 1%nat)
              | b3 :: _ =>
                  if negb (continuation b3) then (RuneError, 1%nat)
                  else ((x - 240) * 262144 + (bZ b1 - 128) * 4096 + (bZ b2 - 128) * 64 + (bZ b3 - 128), 4%nat)
              end
          end
      end
  end.

(** The runes of a string with their widths, as [range] visits them; [skip]
    bytes belong to the rune before. *)
Fixpoint runes_from (skip : nat) (s : bytes) : list (Z * nat) :=
  match s with
  | [] => []
  | _ :: s' =>
      match skip with
      | S k => runes_from k s'
      | O => let (r, n) := decode_rune s in (r, n) :: runes_from (n - 1) s'
      end
  end.

Definition runes (s : bytes) : list (Z * nat) := runes_from 0 s.

(** [utf8.ValidString]. *)
Definition valid_string (s : bytes) : bool :=
  forallb (fun '(r, n) => negb ((r =? RuneError) && (n =? 1)%nat)) (runes s).

(** [unicode.IsSpace] and [unicode.IsControl]. *)
Definition is_space (r : Z) : bool :=
  ((9 <=? r) && (r <=? 13)) || (r =? 32) || (r =? 133) || (r =? 160) || (r =? 5760)
  || ((8192 <=? r) && (r <=? 8202)) || (r =? 8232) || (r =? 8233) || (r =? 8239) || (r =? 8287) || (r =? 12288).
Definition is_control (r : Z) : bool := ((0 <=? r) && (r <=? 31)) || ((127 <=? r) && (r <=? 159)).

(** [strings.TrimSpace s == ""]. *)
Definition blank (s : bytes) : bool := forallb (fun rn => is_space (fst rn)) (runes s).

(** ** Facts *)

Lemma decode_rune_width s : s <> [] -> (1 <= snd (decode_rune s) <= 4)%nat /\ (snd (decode_rune s) <= length s)%nat.
Proof.
  intros H. destruct s as [|b0 s]; [done|]. unfold decode_rune.
  repeat split_goal; cbn; lia.
Qed.

Lemma second_ok_continuation b0 b1 : second_ok b0 b1 = true -> continuation b1 = true.
Proof.
  unfold second_ok, between, continuation. repeat split_goal; intros ?; bool_prop;
    apply andb_true_intro; split; apply Z.leb_le; lia.
Qed.

(** An ASCII byte is one rune. *)
Lemma decode_rune_ascii b s : bZ b < 128 -> decode_rune (b :: s) = (bZ b, 1%nat).
Proof. intros H. unfold decode_rune. by rewrite (proj2 (Z.ltb_lt _ _) H). Qed.

Lemma runes_ascii s : (forall b, In b s -> bZ b < 128) -> runes s = map (fun b => (bZ b, 1%nat)) s.
Proof.
  unfold runes. induction s as [|b s IH]; intros H; cbn [runes_from map]; [done|].
  rewrite decode_rune_ascii by (apply H; by left). cbn [Nat.sub].
  rewrite IH; [done|]. intros c Hc. apply H. by right.
Qed.

Lemma valid_string_ascii s : (forall b, In b s -> bZ b < 128) -> valid_string s = true.
Proof.
  intros H. unfold valid_string. rewrite runes_ascii by done. apply forallb_forall.
  intros [r n] (b & [= <- <-] & Hb)%in_map_iff. specialize (H b Hb). pose proof (bZ_range b).
  unfold RuneError. destruct (bZ b =? 65533) eqn:E; [bool_prop; lia|done].
Qed.

(** Every visited rune is a byte, a valid scalar value or [RuneError]. *)
Lemma decode_rune_range s : 0 <= fst (decode_rune s) <= 1114111.
Proof.
  unfold decode_rune, RuneError. destruct s as [|b0 s]; [cbn; lia|].
  pose proof (bZ_range b0).
  repeat split_goal; cbn [fst]; try lia; bool_prop; unfold second_ok, between, continuation in *;
    repeat match goal with b : byte |- _ => lazymatch goal with H : 0 <= bZ b < 256 |- _ => fail | _ => pose proof (bZ_range b) end end;
    repeat match goal with H : (if ?c then _ else _) = true |- _ => destruct c eqn:?; bool_prop end; bool_prop; lia.
Qed.

(** * Text functions

    The functions of [strings], [bytes] and [encoding] that header and MIME
    normalization calls: substring search, trimming, repairing UTF-8, and the
    acceptance of [base64.StdEncoding] and [hex].  [truncateUTF8] of
    [bridge/mime.go] is here because every component uses it. *)

(** ** Searching *)

(** [strings.Index] and [strings.Contains]. *)
Fixpoint index_sub (needle s : bytes) : option nat :=
  if has_prefix s needle then Some O
  else match s with [] => None | _ :: s' => option_map S (index_sub needle s') end.

Definition contains_sub (s needle : bytes) : bool := match index_sub needle s with Some _ => true | None => false end.

(** [strings.IndexAny] with an ASCII set. *)
Fixpoint index_any (set s : bytes) : option nat :=
  match s with
  | [] => None
  | x :: s' => if contains_byte x set then Some O else option_map S (index_any set s')
  end.

(** One more than [strings.LastIndexAny], so 0 when there is none. *)
Fixpoint after_last_any (set s : bytes) : nat :=
  match s with
  | [] => O
  | x :: s' =>
      match after_last_any set s' with
      | O => if contains_byte x set then 1%nat else O
      | n => S n
      end
  end.

(** [strings.TrimRight] with an ASCII set. *)
Fixpoint trim_right (set s : bytes) : bytes :=
  match s with
  | [] => []
  | x :: s' => match trim_right set s' with [] => if contains_byte x set then [] else [x] | r => x :: r end
  end.

(** [strings.ToLower], exact on every rune whose lower case is ASCII: the
    letters, dotted I (C4 B0) and the Kelvin sign (E2 84 AA). *)
Fixpoint to_lower (s : bytes) : bytes :=
  match s with
  | [] => []
  | a :: s1 =>
      match s1 with
      | b :: s2 =>
          if (a =b xc4) && (b =b xb0) then "i"%byte :: to_lower s2
          else match s2 with
               | c :: s3 => if (a =b xe2) && (b =b x84) && (c =b xaa) then "k"%byte :: to_lower s3 else ascii_lower a :: to_lower s1
               | [] => ascii_lower a :: to_lower s1
               end
      | [] => [ascii_lower a]
      end
  end.

(** [strconv.ParseInt(s, 10, 64)] when the result is not negative. *)
Definition parse_nonnegative (s : bytes) : option Z :=
  match s with
  | c :: digits =>
      if c =b "-"%byte then match parse_uint digits 63 with Some 0 => Some 0 | _ => None end
      else parse_uint (if c =b "+"%byte then digits else s) 63
  | [] => None
  end.

(** ** Comparing *)

(** Go's [<] on strings. *)
Fixpoint bytes_ltb (s t : bytes) : bool :=
  match s, t with
  | _, [] => false
  | [], _ :: _ => true
  | a :: s', b :: t' => if bZ a <? bZ b then true else if bZ b <? bZ a then false else bytes_ltb s' t'
  end.

(** ** Runes with their bytes *)

Fixpoint pieces_fuel (fuel : nat) (s : bytes) : list (Z * bytes) :=
  match fuel, s with
  | O, _ | _, [] => []
  | S fuel, _ => let (r, n) := decode_rune s in (r, take n s) :: pieces_fuel fuel (drop n s)
  end.

(** The runes that [range] visits, each with the bytes it comes from. *)
Definition pieces (s : bytes) : list (Z * bytes) := pieces_fuel (length s) s.

Definition unpieces (ps : list (Z * bytes)) : bytes := concat (map snd ps).

(** A byte that is not part of a rune. *)
Definition bad_piece (p : Z * bytes) : bool := (fst p =? RuneError) && (length (snd p) =? 1)%nat.

(** [strings.ContainsFunc], [strings.ContainsRune(s, utf8.RuneError)]. *)
Definition contains_func (f : Z -> bool) (s : bytes) : bool := existsb (fun p => f (fst p)) (pieces s).

(** [strings.TrimSpace]. *)
Fixpoint drop_spaces (ps : list (Z * bytes)) : list (Z * bytes) :=
  match ps with
  | [] => []
  | p :: rest => if is_space (fst p) then drop_spaces rest else ps
  end.

Definition trim_space (s : bytes) : bytes := unpieces (rev (drop_spaces (rev (drop_spaces (pieces s))))).

(** [strings.Fields] joined by spaces. *)
Fixpoint fields_aux (ps : list (Z * bytes)) (word : bytes) : list bytes :=
  match ps with
  | [] => match word with [] => [] | _ => [word] end
  | (r, b) :: rest =>
      if is_space r then match word with [] => fields_aux rest [] | _ => word :: fields_aux rest [] end
      else fields_aux rest (word ++ b)
  end.

Definition fields (s : bytes) : list bytes := fields_aux (pieces s) [].

Fixpoint join_space (words : list bytes) : bytes :=
  match words with [] => [] | [w] => w | w :: rest => w ++ $" " ++ join_space rest end.

(** ** Repairing *)

(** U+FFFD in UTF-8. *)
Definition replacement : bytes := [xef; xbf; xbd].

(** [string(rune)]: an invalid rune gives U+FFFD. *)
Definition encodeRune (r : Z) : bytes :=
  if (r <? 0) || (1114111 <? r) || ((55296 <=? r) && (r <=? 57343)) then replacement
  else if r <? 128 then [byte_of_Z r]
  else if r <? 2048 then [byte_of_Z (192 + r / 64); byte_of_Z (128 + r mod 64)]
  else if r <? 65536 then [byte_of_Z (224 + r / 4096); byte_of_Z (128 + r / 64 mod 64); byte_of_Z (128 + r mod 64)]
  else [byte_of_Z (240 + r / 262144); byte_of_Z (128 + r / 4096 mod 64); byte_of_Z (128 + r / 64 mod 64); byte_of_Z (128 + r mod 64)].

(** A run of bad bytes becomes one replacement; [bad] says that one was just
    written. *)
Fixpoint repair (bad : bool) (ps : list (Z * bytes)) : bytes :=
  match ps with
  | [] => []
  | p :: rest =>
      if bad_piece p then (if bad then [] else replacement) ++ repair true rest
      else snd p ++ repair false rest
  end.

(** [strings.ToValidUTF8(s, U+FFFD)]. *)
Definition toValidUTF8 (s : bytes) : bytes := repair false (pieces s).

(** The loop of [truncateUTF8]: bytes are dropped from the end until the rest
    is valid. *)
Fixpoint shrink (fuel : nat) (s : bytes) : bytes :=
  match fuel with
  | O => []
  | S fuel => if bool_decide (s = []) || valid_string s then s else shrink fuel (take (length s - 1) s)
  end.

Definition truncateUTF8 (value : bytes) (limit : Z) : bytes * bool :=
  if zlen value <=? limit then (toValidUTF8 value, false)
  else
    let truncated := take (Z.to_nat limit) value in
    (toValidUTF8 (shrink (S (length truncated)) truncated), true).

(** ** Encodings *)

(** Whether [base64.StdEncoding.DecodeString] accepts: line breaks aside, full
    quanta of the alphabet with padding at the end only. *)
Definition base64_std (b : byte) : bool :=
  is_upper b || is_lower b || is_digit b || (b =b "+"%byte) || (b =b "/"%byte).

Fixpoint base64_std_quanta (s : bytes) : bool :=
  match s with
  | [] => true
  | [a; b; c; d] =>
      base64_std a && base64_std b
      && ((base64_std c && (base64_std d || (d =b "="%byte))) || ((c =b "="%byte) && (d =b "="%byte)))
  | a :: b :: c :: d :: rest => base64_std a && base64_std b && base64_std c && base64_std d && base64_std_quanta rest
  | _ => false
  end.

Definition base64_std_accepts (s : bytes) : bool :=
  base64_std_quanta (filter (fun b => ~ (b = x0a \/ b = x0d)) s).

Definition hex_digit_ok (b : byte) : bool :=
  is_digit b || ((97 <=? bZ b) && (bZ b <=? 102)) || ((65 <=? bZ b) && (bZ b <=? 70)).

(** ** Facts *)

Lemma pieces_fuel_enough fuel s : (length s <= fuel)%nat -> pieces_fuel fuel s = pieces s.
Proof.
  revert s. unfold pieces. assert (K : forall n f s, (length s <= n <= f)%nat -> pieces_fuel f s = pieces_fuel n s).
  { intros n. induction n as [|n IH]; intros [|f] [|b s] Hl; try done; cbn [length] in Hl; try lia.
    cbn [pieces_fuel]. destruct (decode_rune (b :: s)) as [r w] eqn:E. f_equal.
    destruct (decode_rune_width (b :: s)) as [Hw _]; [done|]. rewrite E in Hw. cbn in Hw.
    destruct w as [|w]; [lia|]. apply IH. change (drop (S w) (b :: s)) with (drop w s). rewrite length_drop. lia. }
  intros s Hl. by apply K.
Qed.

Lemma pieces_step b s : let '(r, n) := decode_rune (b :: s) in pieces (b :: s) = (r, take n (b :: s)) :: pieces (drop n (b :: s)).
Proof.
  destruct (decode_rune (b :: s)) as [r n] eqn:E. unfold pieces at 1. cbn [length pieces_fuel]. rewrite E. f_equal.
  destruct (decode_rune_width (b :: s)) as [Hw _]; [done|]. rewrite E in Hw. cbn in Hw. destruct n as [|n]; [lia|].
  apply pieces_fuel_enough. change (drop (S n) (b :: s)) with (drop n s). rewrite length_drop. lia.
Qed.

(** Induction over the runes of a string. *)
Lemma pieces_ind (P : bytes -> Prop) : P [] ->
  (forall s r n, s <> [] -> decode_rune s = (r, n) -> (1 <= n <= length s)%nat ->
     pieces s = (r, take n s) :: pieces (drop n s) -> P (drop n s) -> P s) -> forall s, P s.
Proof.
  intros H0 H s. remember (length s) as l eqn:Hl. revert s Hl. induction l as [l IH] using lt_wf_ind. intros [|b s] ->; [done|].
  pose proof (pieces_step b s) as Hp. destruct (decode_rune (b :: s)) as [r n] eqn:E.
  destruct (decode_rune_width (b :: s)) as [Hw Hle]; [done|]. rewrite E in Hw, Hle. cbn [snd] in Hw, Hle.
  eapply (H _ r n); [done|done|lia|done|]. eapply IH; [|done]. rewrite length_drop. lia.
Qed.

Lemma unpieces_pieces s : unpieces (pieces s) = s.
Proof.
  induction s as [|s r n _ _ _ -> IH] using pieces_ind; [done|]. unfold unpieces in *. cbn [map concat snd]. rewrite IH. apply take_drop.
Qed.

Lemma runes_from_drop k s : runes_from k s = runes_from 0 (drop k s).
Proof. revert s. induction k as [|k IH]; intros [|b s]; try done. cbn [runes_from]. by rewrite IH. Qed.

Lemma runes_pieces s : runes s = map (fun p => (fst p, length (snd p))) (pieces s).
Proof.
  induction s as [|s r n Hne Hd Hn Hp IH] using pieces_ind; [done|]. rewrite Hp. cbn [map fst snd]. rewrite <- IH, length_take_le by lia.
  destruct s as [|b s]; [done|]. unfold runes. cbn [runes_from]. rewrite Hd. f_equal. rewrite runes_from_drop.
  destruct n as [|n]; [lia|]. change (drop (S n) (b :: s)) with (drop n s). by replace (S n - 1)%nat with n by lia.
Qed.

Lemma valid_pieces s : valid_string s = forallb (fun p => negb (bad_piece p)) (pieces s).
Proof. unfold valid_string. rewrite runes_pieces. induction (pieces s) as [|p ps IH]; [done|]. cbn. by rewrite IH. Qed.

(** A whole rune is decoded the same whatever follows. *)
Definition good_piece (p : Z * bytes) : Prop :=
  bad_piece p = false /\ snd p <> [] /\ forall t, decode_rune (snd p ++ t) = (fst p, length (snd p)).

Lemma decode_stable s r n : s <> [] -> decode_rune s = (r, n) -> bad_piece (r, take n s) = false -> good_piece (r, take n s).
Proof.
  intros Hne Hd Hb. split; [done|]. destruct (decode_rune_width s Hne) as [Hw Hle]. rewrite Hd in Hw, Hle. cbn [snd fst] in *.
  split; [destruct s; [done|]; destruct n; [lia|done]|].
  unfold bad_piece in Hb. cbn [fst snd] in Hb. rewrite length_take_le in * by lia. intros t.
  destruct s as [|b0 [|b1 [|b2 [|b3 s]]]]; [done|..]; unfold decode_rune in Hd; repeat split_in Hd; injection Hd as <- <-;
    try (cbn in Hb; done); cbn [take firstn app length] in *; unfold decode_rune;
    repeat match goal with H : ?x = ?v |- context [if ?x then _ else _] => rewrite H; cbn [negb] end; try reflexivity.
Qed.

Lemma pieces_good s p : p ∈ pieces s -> bad_piece p = false -> good_piece p.
Proof.
  induction s as [|s r n Hne Hd Hn Hp IH] using pieces_ind; [by intros ?%elem_of_nil|].
  rewrite Hp. intros [->|H]%elem_of_cons Hb; [by apply decode_stable|by apply IH].
Qed.

Lemma pieces_cons_good p t : good_piece p -> pieces (snd p ++ t) = p :: pieces t.
Proof.
  intros (_ & Hne & Hd). destruct (snd p) as [|b s] eqn:E; [done|]. pose proof (pieces_step b (s ++ t)) as K.
  change (b :: s ++ t) with ((b :: s) ++ t) in K. rewrite Hd in K. rewrite K, take_app_length, drop_app_length, <- E.
  by destruct p.
Qed.

Lemma valid_cons_good p t : good_piece p -> valid_string (snd p ++ t) = valid_string t.
Proof. intros H. rewrite !valid_pieces, pieces_cons_good by done. cbn. destruct H as (-> & _). done. Qed.

Lemma replacement_good : good_piece (RuneError, replacement).
Proof. by split. Qed.

(** Repairing gives valid UTF-8, and nothing changes when it was valid. *)
Lemma toValidUTF8_valid s : valid_string (toValidUTF8 s) = true.
Proof.
  unfold toValidUTF8. assert (Hg : forall p, p ∈ pieces s -> bad_piece p = false -> good_piece p) by apply pieces_good.
  revert Hg. generalize false at 2 as bad. induction (pieces s) as [|p ps IH]; intros bad Hg; [done|]. cbn [repair].
  assert (Hg' : forall p, p ∈ ps -> bad_piece p = false -> good_piece p) by (intros q Hq; apply Hg; by right).
  destruct (bad_piece p) eqn:E.
  - destruct bad; [by apply IH|]. rewrite (valid_cons_good _ _ replacement_good). by apply IH.
  - rewrite valid_cons_good; [by apply IH|]. apply Hg; [by left|done].
Qed.

Lemma toValidUTF8_id s : valid_string s = true -> toValidUTF8 s = s.
Proof.
  rewrite valid_pieces. intros H. rewrite <- (unpieces_pieces s) at 2. unfold toValidUTF8, unpieces. revert H. generalize false.
  induction (pieces s) as [|p ps IH]; intros bad; cbn; [done|]. destruct (bad_piece p); [done|]. cbn. intros H. by rewrite IH.
Qed.

(** Each bad byte may grow to three, with a good one between two of them. *)
Lemma repair_length ps bad : (forall p, p ∈ ps -> snd p <> []) ->
  (length (repair bad ps) <= 2 * length (unpieces ps) + if bad then 0 else 1)%nat.
Proof.
  revert bad. induction ps as [|p ps IH]; intros bad Hne; [cbn; lia|]. unfold unpieces in *. cbn [repair map concat].
  assert (Hp : (1 <= length (snd p))%nat) by (destruct (snd p) eqn:E; [destruct (Hne p); [by left|done]|cbn; lia]).
  assert (Hne' : forall p, p ∈ ps -> snd p <> []) by (intros q Hq; apply Hne; by right).
  pose proof (IH true Hne'). pose proof (IH false Hne'). cbv iota in *. destruct (bad_piece p); rewrite !length_app; destruct bad; cbn [length replacement]; lia.
Qed.

Lemma pieces_nonempty s p : p ∈ pieces s -> snd p <> [].
Proof.
  induction s as [|s r n Hne Hd Hn Hp IH] using pieces_ind; [by intros ?%elem_of_nil|].
  rewrite Hp. intros [->|H]%elem_of_cons; [|by apply IH]. cbn. destruct s, n; done || lia.
Qed.

(** The longest valid prefix. *)
Lemma shrink_spec fuel s : (length s < fuel)%nat ->
  exists k, (k <= length s)%nat /\ shrink fuel s = take k s /\ valid_string (take k s) = true
    /\ forall j, (k < j <= length s)%nat -> valid_string (take j s) = false.
Proof.
  revert s. induction fuel as [|fuel IH]; intros s Hf; [lia|]. cbn [shrink].
  destruct (bool_decide (s = []) || valid_string s) eqn:E.
  - exists (length s). rewrite take_ge by lia. split_and!; [lia|done| |intros; lia].
    apply orb_true_iff in E as [->%bool_decide_eq_true|E]; done.
  - apply orb_false_iff in E as [Hne%bool_decide_eq_false Hv]. assert (length s <> 0)%nat by (by destruct s).
    destruct (IH (take (length s - 1) s)) as (k & Hk & -> & Hvk & Hmax); [rewrite length_take; lia|]. rewrite length_take in *.
    exists k. rewrite take_take, Nat.min_l in * by lia. split_and!; [lia|done|done|].
    intros j Hj. destruct (decide (j = length s)) as [->|]; [by rewrite take_ge by lia|].
    rewrite <- (Hmax j ltac:(lia)). by rewrite take_take, Nat.min_l by lia.
Qed.

(** A text over the limit is cut to its longest valid UTF-8 prefix of at
    most [limit] bytes and flagged; one within the limit is kept as it is when
    it is valid, and repaired otherwise, which at most doubles it and adds
    one byte.  The result is always valid UTF-8. *)
Theorem truncate_utf8 value limit (Hl : 0 <= limit) :
  let r := truncateUTF8 value limit in
  snd r = (limit <? zlen value) /\ valid_string (fst r) = true
  /\ (snd r = true -> exists k, (k <= Z.to_nat limit)%nat /\ fst r = take k value
        /\ forall j, (k < j <= Z.to_nat limit)%nat -> valid_string (take j value) = false)
  /\ (snd r = false -> zlen (fst r) <= 2 * zlen value + 1 /\ (valid_string value = true -> fst r = value)).
Proof.
  cbv zeta. unfold truncateUTF8. destruct (zlen value <=? limit) eqn:E; bool_prop; cbn [fst snd].
  - rewrite (proj2 (Z.ltb_ge _ _)) by lia. split_and!; [done|apply toValidUTF8_valid|done|].
    intros _. split; [|apply toValidUTF8_id]. pose proof (repair_length (pieces value) false (pieces_nonempty value)) as K.
    rewrite unpieces_pieces in K. unfold toValidUTF8, zlen. lia.
  - rewrite (proj2 (Z.ltb_lt _ _)) by lia. set (s := take (Z.to_nat limit) value).
    assert (Hs : length s = Z.to_nat limit) by (subst s; rewrite length_take; unfold zlen in E; lia).
    destruct (shrink_spec (S (length s)) s) as (k & Hk & Hr & Hv & Hmax); [lia|]. rewrite Hr.
    split_and!; [done|apply toValidUTF8_valid| |done]. intros _. exists k. rewrite Hs in *.
    rewrite toValidUTF8_id by done. subst s. split_and!; [done|by rewrite take_take, Nat.min_l by lia|].
    intros j Hj. rewrite <- (Hmax j Hj), take_take, Nat.min_l by lia. done.
Qed.

Lemma truncate_utf8_witness :
  0 <= 3 /\ snd (truncateUTF8 $"a€b" 3) = true /\ fst (truncateUTF8 $"a€b" 3) = $"a"
  /\ (exists k, (k <= Z.to_nat 3)%nat /\ fst (truncateUTF8 $"a€b" 3) = take k $"a€b").
Proof.
  split; [lia|]. assert (E : truncateUTF8 $"a€b" 3 = ($"a", true)) by (vm_compute; reflexivity). rewrite E. split_and!; [done..|].
  pose proof (truncate_utf8 $"a€b" 3 ltac:(lia)) as (_ & _ & K & _). rewrite E in K. destruct (K eq_refl) as (k & H1 & H2 & _). by exists k.
Defined.

(** The result may be longer than the limit without being flagged, and one bad
    byte at the front of a long text loses all of it. *)
Lemma truncate_over_limit :
  truncateUTF8 (xff :: $"a" ++ [xff]) 3 = (replacement ++ $"a" ++ replacement, false)
  /\ truncateUTF8 (xff :: $"subject") 7 = ([], true).
Proof. vm_compute. split; reflexivity. Qed.

(** ** The order of strings *)

Lemma bytes_ltb_irrefl s : bytes_ltb s s = false.
Proof. induction s as [|a s IH]; [done|]. cbn. by rewrite Z.ltb_irrefl. Qed.

Lemma bytes_ltb_trans s t u : bytes_ltb s t = true -> bytes_ltb t u = true -> bytes_ltb s u = true.
Proof.
  revert t u. induction s as [|a s IH]; intros [|b t] [|c u]; cbn; try done.
  destruct (bZ a <? bZ b) eqn:E1, (bZ b <? bZ c) eqn:E2, (bZ a <? bZ c) eqn:E3; try done; bool_prop;
    destruct (bZ b <? bZ a) eqn:E4, (bZ c <? bZ b) eqn:E5, (bZ c <? bZ a) eqn:E6; try done; bool_prop; try lia. apply IH.
Qed.

Lemma bZ_inj a b : bZ a = bZ b -> a = b.
Proof. intros H%N2Z.inj. apply (f_equal Byte.of_N) in H. rewrite !Byte.of_to_N in H. by injection H. Qed.

Lemma bytes_ltb_total s t : bytes_ltb s t = false -> bytes_ltb t s = false -> s = t.
Proof.
  revert t. induction s as [|a s IH]; intros [|b t]; cbn; try done.
  destruct (bZ a <? bZ b) eqn:E1, (bZ b <? bZ a) eqn:E2; try done. bool_prop. intros H1 H2.
  f_equal; [apply bZ_inj; lia|by apply IH].
Qed.

Lemma bytes_trichotomy s t : bytes_ltb s t = true \/ s = t \/ bytes_ltb t s = true.
Proof. destruct (bytes_ltb s t) eqn:E1, (bytes_ltb t s) eqn:E2; auto. right. left. by apply bytes_ltb_total. Qed.

(** ** Trimming *)

Lemma drop_spaces_suffix ps : exists l, ps = l ++ drop_spaces ps.
Proof.
  induction ps as [|p ps [l IH]]; cbn; [by exists []|]. destruct (is_space (fst p)); [|by exists []].
  exists (p :: l). cbn. by rewrite <- IH.
Qed.

Lemma trim_space_inner s : exists l mid r, pieces s = l ++ mid ++ r /\ trim_space s = unpieces mid.
Proof.
  unfold trim_space. destruct (drop_spaces_suffix (pieces s)) as [l Hl]. set (ps := drop_spaces (pieces s)) in *.
  destruct (drop_spaces_suffix (rev ps)) as [r Hr]. exists l, (rev (drop_spaces (rev ps))), (rev r). split; [|done].
  rewrite Hl. f_equal. rewrite <- (rev_involutive ps) at 1. rewrite Hr at 1. by rewrite rev_app_distr.
Qed.

Lemma unpieces_app l k : unpieces (l ++ k) = unpieces l ++ unpieces k.
Proof. unfold unpieces. by rewrite map_app, concat_app. Qed.

Lemma trim_space_length s : zlen (trim_space s) <= zlen s.
Proof.
  destruct (trim_space_inner s) as (l & mid & r & Hp & ->). rewrite <- (unpieces_pieces s), Hp, !unpieces_app, !zlen_app.
  pose proof (zlen_nonneg (unpieces l)). pose proof (zlen_nonneg (unpieces r)). lia.
Qed.

Lemma unpieces_valid ps : Forall good_piece ps -> valid_string (unpieces ps) = true.
Proof. induction 1 as [|p ps Hp _ IH]; [done|]. unfold unpieces in *. cbn [map concat]. by rewrite valid_cons_good. Qed.

Lemma trim_space_valid s : valid_string s = true -> valid_string (trim_space s) = true.
Proof.
  intros Hv. destruct (trim_space_inner s) as (l & mid & r & Hp & ->). apply unpieces_valid. apply Forall_forall. intros p Hin.
  assert (Hps : p ∈ pieces s) by (rewrite Hp; set_solver). apply (pieces_good s); [done|].
  rewrite valid_pieces, forallb_forall in Hv. apply negb_true_iff, Hv. by apply list_elem_of_In.
Qed.

(** A valid text stays within the limit. *)
Lemma truncate_bounded value limit : 0 <= limit -> valid_string value = true ->
  zlen (fst (truncateUTF8 value limit)) <= limit /\ valid_string (fst (truncateUTF8 value limit)) = true.
Proof.
  intros Hl Hv. unfold truncateUTF8. destruct (zlen value <=? limit) eqn:E; bool_prop; cbn [fst]; split; try apply toValidUTF8_valid.
  - by rewrite toValidUTF8_id.
  - set (s := take _ value). destruct (shrink_spec (S (length s)) s) as (k & Hk & -> & Hk2 & _); [lia|]. rewrite toValidUTF8_id by done.
    subst s. unfold zlen. rewrite !length_take. lia.
Qed.

Lemma truncate_length value limit : 0 <= limit ->
  zlen (fst (truncateUTF8 value limit)) <= 2 * limit + 1 /\ valid_string (fst (truncateUTF8 value limit)) = true.
Proof.
  intros Hl. unfold truncateUTF8. destruct (zlen value <=? limit) eqn:E; bool_prop; cbn [fst]; (split; [|apply toValidUTF8_valid]).
  - pose proof (repair_length (pieces value) false (pieces_nonempty value)) as K. rewrite unpieces_pieces in K.
    unfold toValidUTF8, zlen in *. lia.
  - set (s := take _ value). destruct (shrink_spec (S (length s)) s) as (k & Hk & -> & Hk2 & _); [lia|]. rewrite toValidUTF8_id by done.
    subst s. unfold zlen. rewrite !length_take. lia.
Qed.

(** ** Trimming line breaks *)

(** After its first byte, a rune has only continuation bytes. *)
Lemma decode_continuations s r n i b : decode_rune s = (r, n) -> (1 <= i < n)%nat -> s !! i = Some b -> 128 <= bZ b.
Proof.
  unfold decode_rune. intros Hd Hi Hb.
  destruct s as [|b0 [|b1 [|b2 [|b3 s]]]]; repeat split_in Hd; injection Hd as <- <-; cbn in Hi; try lia;
    repeat match goal with H : negb _ = false |- _ => apply negb_false_iff in H end;
    repeat match goal with H : second_ok _ _ = true |- _ => apply second_ok_continuation in H end;
    destruct i as [|[|[|[|i]]]]; try lia; cbn in Hb; injection Hb as <-;
    unfold continuation in *; bool_prop; lia.
Qed.

Lemma good_piece_ascii p t c : good_piece p -> snd p = t ++ [c] -> bZ c < 128 -> t = [].
Proof.
  intros (_ & _ & Hd) He Hc. specialize (Hd []). rewrite app_nil_r in Hd. destruct t as [|b t]; [done|].
  assert (128 <= bZ c); [|lia]. eapply (decode_continuations (snd p) (fst p) _ (length (b :: t))); [exact Hd| |].
  - rewrite He, length_app. cbn. lia.
  - rewrite He. by rewrite list_lookup_middle.
Qed.

Lemma pieces_unpieces ps : Forall good_piece ps -> pieces (unpieces ps) = ps.
Proof. induction 1 as [|p ps Hp _ IH]; [done|]. unfold unpieces in *. cbn [map concat]. by rewrite pieces_cons_good, IH. Qed.

Lemma valid_good s : valid_string s = true -> Forall good_piece (pieces s).
Proof.
  intros Hv. apply Forall_forall. intros p Hin. apply (pieces_good s); [done|].
  rewrite valid_pieces, forallb_forall in Hv. apply negb_true_iff, Hv. by apply list_elem_of_In.
Qed.

Lemma valid_string_unsnoc s c : valid_string (s ++ [c]) = true -> bZ c < 128 -> valid_string s = true.
Proof.
  intros Hv Hc. pose proof (valid_good _ Hv) as Hg. destruct (pieces (s ++ [c])) as [|p ps _] eqn:E using rev_ind.
  - apply (f_equal unpieces) in E. rewrite unpieces_pieces in E. by destruct s.
  - pose proof (unpieces_pieces (s ++ [c])) as Hu. rewrite E, unpieces_app in Hu. apply Forall_app in Hg as [Hg Hp].
    apply Forall_cons in Hp as [Hp _]. unfold unpieces at 2 in Hu. cbn in Hu. rewrite app_nil_r in Hu.
    destruct (snd p) as [|x l _] eqn:Ep using rev_ind; [destruct Hp as (_ & ? & _); done|].
    rewrite app_assoc in Hu. apply app_inj_tail in Hu as [Hs ->]. apply (good_piece_ascii p l c Hp Ep) in Hc as ->.
    rewrite app_nil_r in Hs. rewrite <- Hs. by apply unpieces_valid.
Qed.

Lemma trim_right_prefix set s : exists r, s = trim_right set s ++ r /\ Forall (fun c => c ∈ set) r.
Proof.
  induction s as [|x s IH]; cbn; [by exists []|]. destruct IH as (r & Hs & Hr). destruct (trim_right set s) as [|y t].
  - destruct (contains_byte x set) eqn:E.
    + exists (x :: s). split; [done|]. cbn in Hs. subst s. constructor; [by apply list_elem_of_In, contains_byte_In|done].
    + exists r. split; [by rewrite Hs|done].
  - exists r. split; [by rewrite Hs at 1|done].
Qed.

Lemma trim_right_valid set s : (forall c, c ∈ set -> bZ c < 128) -> valid_string s = true -> valid_string (trim_right set s) = true.
Proof.
  intros Hset Hv. destruct (trim_right_prefix set s) as (r & Hs & Hr). rewrite Hs in Hv. clear Hs.
  induction r as [|c r IH] using rev_ind; [by rewrite app_nil_r in Hv|]. apply Forall_app in Hr as [Hr Hc]. apply Forall_cons in Hc as [Hc _].
  rewrite app_assoc in Hv. apply valid_string_unsnoc in Hv; [auto|by apply Hset].
Qed.

Lemma trim_right_length set s : zlen (trim_right set s) <= zlen s.
Proof. destruct (trim_right_prefix set s) as (r & Hs & _). rewrite Hs at 2. rewrite zlen_app. pose proof (zlen_nonneg r). lia. Qed.

(** * Buffered line reading

    [bufio.Reader.ReadSlice('\n')] of a reader of a given size over a source
    whose remaining bytes and final error are given.  How the source splits
    its bytes into reads does not matter: the buffer is refilled until it holds
    the delimiter, is full, or the source has failed. *)

(** A line with its newline and what is left; a full buffer without one
    ([bufio.ErrBufferFull]); or the last bytes of a source that failed. *)
Inductive slice := sliceLine (line rest : bytes) | sliceFull (buffer rest : bytes) | sliceEnd (line : bytes).

Definition readSlice (size : nat) (source : bytes) : slice :=
  match index_byte x0a (take size source) with
  | Some i => sliceLine (take (S i) source) (drop (S i) source)
  | None => if (size <=? length source)%nat then sliceFull (take size source) (drop size source) else sliceEnd source
  end.

Lemma readSlice_line size source line rest : readSlice size source = sliceLine line rest <->
  exists text, line = text ++ [x0a] /\ source = text ++ x0a :: rest /\ ~ In x0a text /\ (length line <= size)%nat.
Proof.
  unfold readSlice. split.
  - destruct (index_byte x0a _) as [i|] eqn:E; [|by destruct (_ <=? _)%nat]. intros H. injection H as <- <-.
    pose proof E as E0. apply index_byte_Some in E as (H1 & H2). remember (take i (take size source)) as text eqn:Et. remember (drop (S i) (take size source)) as tail eqn:El.
    assert (Hs : source = text ++ x0a :: tail ++ drop size source) by (rewrite <- (take_drop size source) at 1; rewrite H1; by rewrite <- app_assoc).
    assert (Hi : length text = i).
    { rewrite H1, (index_byte_mid x0a text tail H2) in E0. congruence. }
    exists text. rewrite Hs. change (x0a :: tail ++ drop size source) with ([x0a] ++ tail ++ drop size source).
    assert (Hl : S i = length (text ++ [x0a])) by (rewrite length_app; cbn; lia).
    rewrite app_assoc, Hl, take_app_length, drop_app_length. split; [done|]. split; [by rewrite <- app_assoc|]. split; [done|].
    rewrite <- Hl, <- Hi. pose proof (f_equal length H1) as L. rewrite length_app, length_take in L. cbn in L. lia.
  - intros (text & -> & -> & Hn & Hl). rewrite length_app in Hl. cbn [length] in Hl.
    change (x0a :: rest) with ([x0a] ++ rest). rewrite (app_assoc text).
    rewrite take_app, (take_ge (text ++ [x0a])) by (rewrite length_app; cbn; lia). rewrite <- (app_assoc text). cbn [app].
    rewrite (index_byte_mid x0a text _ Hn).
    assert (E : S (length text) = length (text ++ [x0a])) by (rewrite length_app; cbn; lia).
    rewrite E. by rewrite take_app_length, drop_app_length.
Qed.

(** A failed source gave fewer bytes than the buffer holds, none a newline. *)
Lemma readSlice_end size source line : readSlice size source = sliceEnd line ->
  line = source /\ (length source < size)%nat /\ ~ In x0a source.
Proof.
  unfold readSlice. destruct (index_byte x0a _) eqn:E; [done|]. destruct (_ <=? _)%nat eqn:El; [done|].
  intros H. injection H as <-. apply Nat.leb_gt in El. split; [done|]. split; [done|].
  rewrite take_ge in E by lia. by apply index_byte_None.
Qed.

(** What is left is shorter. *)
Lemma readSlice_rest size source line rest : readSlice size source = sliceLine line rest -> source = line ++ rest /\ line <> [].
Proof.
  intros (text & -> & -> & _)%readSlice_line. split; [by rewrite <- app_assoc|]. by destruct text.
Qed.
