(* ===== verification/GoJson.v ===== *)
(** * Reading JSON tokens

    The parts of [encoding/json] the source calls: [Decoder.Token] and
    [Decoder.More] over a decoder that holds all its input, with the token
    state machine, the scalars' grammar and the unquoting of strings.  Numbers
    keep their text, as with [UseNumber]. *)
From Stdlib Require Import ZArith Lia Strings.Byte.
From stdpp Require Import base list strings.
From S2P Require Import Prelude GoStrings GoText.

(** ** Scalars *)

Inductive token := Delim (c : byte) | TString (s : bytes) | TNumber (text : bytes) | TBool (b : bool) | TNull.

Definition json_space (c : byte) : bool := (c =b x20) || (c =b x09) || (c =b x0d) || (c =b x0a).

Fixpoint skip_space (s : bytes) : bytes :=
  match s with
  | c :: s' => if json_space c then skip_space s' else s
  | [] => []
  end.

(** The raw text of a string up to its closing quote, and the rest. *)
Fixpoint scan_string (s : bytes) : option (bytes * bytes) :=
  match s with
  | [] => None
  | c :: s' =>
      if c =b x22 then Some ([], s')
      else if bZ c <? 32 then None
      else if c =b x5c then
        match s' with
        | e :: s'' =>
            if contains_byte e ($"bfnrt/" ++ [x5c; x22]) then option_map (fun '(raw, rest) => (c :: e :: raw, rest)) (scan_string s'')
            else if e =b "u"%byte then
              match s'' with
              | h1 :: h2 :: h3 :: h4 :: s''' =>
                  if hex_digit_ok h1 && hex_digit_ok h2 && hex_digit_ok h3 && hex_digit_ok h4
                  then option_map (fun '(raw, rest) => (c :: e :: h1 :: h2 :: h3 :: h4 :: raw, rest)) (scan_string s''')
                  else None
              | _ => None
              end
            else None
        | [] => None
        end
      else option_map (fun '(raw, rest) => (c :: raw, rest)) (scan_string s')
  end.

(** [getu4] of four hex digits. *)
Definition hex_nibble (c : byte) : Z :=
  if is_digit c then bZ c - 48 else if (97 <=? bZ c) && (bZ c <=? 102) then bZ c - 87 else bZ c - 55.
Definition getu4 (h1 h2 h3 h4 : byte) : Z := hex_nibble h1 * 4096 + hex_nibble h2 * 256 + hex_nibble h3 * 16 + hex_nibble h4.

(** The simple escapes. *)
Definition escaped (e : byte) : byte :=
  if e =b "b"%byte then x08 else if e =b "f"%byte then x0c else if e =b "n"%byte then x0a
  else if e =b "r"%byte then x0d else if e =b "t"%byte then x09 else e.

(** [unquoteBytes] of a scanned text: escapes, surrogate pairs, and U+FFFD for
    a lone surrogate or a byte that is not UTF-8. *)
Fixpoint unquote (fuel : nat) (s : bytes) : bytes :=
  match fuel with
  | O => []
  | S fuel =>
      match s with
      | [] => []
      | x5c :: "u"%byte :: h1 :: h2 :: h3 :: h4 :: s' =>
          let rr := getu4 h1 h2 h3 h4 in
          if (55296 <=? rr) && (rr <? 57344) then
            match s' with
            | x5c :: "u"%byte :: k1 :: k2 :: k3 :: k4 :: s'' =>
                let rr1 := getu4 k1 k2 k3 k4 in
                if (rr <? 56320) && (56320 <=? rr1) && (rr1 <? 57344)
                then encodeRune ((rr - 55296) * 1024 + (rr1 - 56320) + 65536) ++ unquote fuel s''
                else replacement ++ unquote fuel s'
            | _ => replacement ++ unquote fuel s'
            end
          else encodeRune rr ++ unquote fuel s'
      | x5c :: e :: s' => escaped e :: unquote fuel s'
      | c :: s' =>
          if bZ c <? 128 then c :: unquote fuel s'
          else let (r, n) := decode_rune s in encodeRune r ++ unquote fuel (drop n s)
      end
  end.

Fixpoint take_digits (s : bytes) : bytes * bytes :=
  match s with
  | c :: s' => if is_digit c then let (d, r) := take_digits s' in (c :: d, r) else ([], s)
  | [] => ([], [])
  end.

(** One or more digits. *)
Definition some_digits (s : bytes) : option (bytes * bytes) :=
  match take_digits s with ([], _) => None | r => Some r end.

(** The parts of a number: sign, integer, fraction and exponent. *)
Definition scan_sign (s : bytes) : bytes * bytes := match s with "-"%byte :: s' => ($"-", s') | _ => ([], s) end.
Definition scan_int (s : bytes) : option (bytes * bytes) := match s with "0"%byte :: s' => Some ($"0", s') | _ => some_digits s end.
Definition scan_frac (s : bytes) : option (bytes * bytes) :=
  match s with "."%byte :: s' => option_map (fun '(d, r) => ($"." ++ d, r)) (some_digits s') | _ => Some ([], s) end.
Definition scan_exp (s : bytes) : option (bytes * bytes) :=
  match s with
  | c :: s' =>
      if (c =b "e"%byte) || (c =b "E"%byte) then
        let (sign, s'') := match s' with x :: t => if (x =b "+"%byte) || (x =b "-"%byte) then ([x], t) else ([], s') | [] => ([], s') end in
        option_map (fun '(d, r) => (c :: sign ++ d, r)) (some_digits s'')
      else Some ([], s)
  | [] => Some ([], s)
  end.

Definition scan_number (s : bytes) : option (bytes * bytes) :=
  let (sign, s) := scan_sign s in
  match scan_int s with
  | None => None
  | Some (int, s) =>
      match scan_frac s with
      | None => None
      | Some (frac, s) =>
          match scan_exp s with
          | None => None
          | Some (exp, s) => Some (sign ++ int ++ frac ++ exp, s)
          end
      end
  end.

(** A scalar value at its first byte. *)
Definition scan_scalar (s : bytes) : option (token * bytes) :=
  match s with
  | [] => None
  | c :: s' =>
      if c =b x22 then option_map (fun '(raw, rest) => (TString (unquote (length raw) raw), rest)) (scan_string s')
      else if (c =b "-"%byte) || is_digit c then option_map (fun '(text, rest) => (TNumber text, rest)) (scan_number s)
      else if has_prefix s $"true" then Some (TBool true, drop 4 s)
      else if has_prefix s $"false" then Some (TBool false, drop 5 s)
      else if has_prefix s $"null" then Some (TNull, drop 4 s)
      else None
  end.

(** ** The token state machine *)

Inductive tokenState := tokenTopValue | tokenArrayStart | tokenArrayValue | tokenArrayComma
  | tokenObjectStart | tokenObjectKey | tokenObjectColon | tokenObjectValue | tokenObjectComma.

Record decoder := mkDecoder { rest : bytes; tstate : tokenState; tstack : list tokenState }.

Inductive tokenError := tokenEOF | tokenSyntax.

Definition newDecoder (data : bytes) : decoder := mkDecoder data tokenTopValue [].

Definition tokenValueAllowed (t : tokenState) : bool :=
  match t with tokenTopValue | tokenArrayStart | tokenArrayValue | tokenObjectValue => true | _ => false end.

Definition tokenValueEnd (t : tokenState) : tokenState :=
  match t with tokenArrayStart | tokenArrayValue => tokenArrayComma | tokenObjectValue => tokenObjectComma | _ => t end.

(** Leaving an array or object. *)
Definition pop (s : bytes) (stack : list tokenState) : decoder :=
  match stack with
  | t :: stack => mkDecoder s (tokenValueEnd t) stack
  | [] => mkDecoder s tokenTopValue []
  end.

(** One turn of the loop of [Token]: a token, a consumed separator, or an error. *)
Inductive turn := turnToken (t : token) (d : decoder) | turnAgain (d : decoder) | turnError (e : tokenError).

(** A string, number or literal, or an object's key. *)
Definition scalarTurn (c : byte) (s : bytes) (d : decoder) : turn :=
  let key := (c =b x22) && match tstate d with tokenObjectStart | tokenObjectKey => true | _ => false end in
  if negb key && negb (tokenValueAllowed (tstate d)) then turnError tokenSyntax
  else match scan_scalar s with
       | Some (t, s') => turnToken t (mkDecoder s' (if key then tokenObjectColon else tokenValueEnd (tstate d)) (tstack d))
       | None => turnError tokenSyntax
       end.

Definition tokenTurn (d : decoder) : turn :=
  match skip_space (rest d) with
  | [] => turnError tokenEOF
  | (c :: s) as s0 =>
      match c with
      | "["%byte => if tokenValueAllowed (tstate d) then turnToken (Delim c) (mkDecoder s tokenArrayStart (tstate d :: tstack d)) else turnError tokenSyntax
      | "]"%byte => match tstate d with tokenArrayStart | tokenArrayComma => turnToken (Delim c) (pop s (tstack d)) | _ => turnError tokenSyntax end
      | "{"%byte => if tokenValueAllowed (tstate d) then turnToken (Delim c) (mkDecoder s tokenObjectStart (tstate d :: tstack d)) else turnError tokenSyntax
      | "}"%byte => match tstate d with tokenObjectStart | tokenObjectComma => turnToken (Delim c) (pop s (tstack d)) | _ => turnError tokenSyntax end
      | ":"%byte => match tstate d with tokenObjectColon => turnAgain (mkDecoder s tokenObjectValue (tstack d)) | _ => turnError tokenSyntax end
      | ","%byte =>
          match tstate d with
          | tokenArrayComma => turnAgain (mkDecoder s tokenArrayValue (tstack d))
          | tokenObjectComma => turnAgain (mkDecoder s tokenObjectKey (tstack d))
          | _ => turnError tokenSyntax
          end
      | _ => scalarTurn c s0 d
      end
  end.

Fixpoint tokenLoop (fuel : nat) (d : decoder) : (token * decoder) + tokenError :=
  match fuel with
  | O => inr tokenSyntax
  | S fuel =>
      match tokenTurn d with
      | turnToken t d => inl (t, d)
      | turnAgain d => tokenLoop fuel d
      | turnError e => inr e
      end
  end.

(** Two separators never follow each other, so three turns are enough. *)
Definition Token (d : decoder) : (token * decoder) + tokenError := tokenLoop 3 d.

Definition More (d : decoder) : bool :=
  match skip_space (rest d) with
  | [] => false
  | c :: _ => negb (c =b "]"%byte) && negb (c =b "}"%byte)
  end.

(** ** A token is at least one byte *)

Lemma skip_space_length s : (length (skip_space s) <= length s)%nat.
Proof. induction s as [|c s IH]; cbn; [lia|]. destruct (json_space c); cbn; lia. Qed.

Lemma scan_string_length s raw r : scan_string s = Some (raw, r) -> (length r < length s)%nat.
Proof.
  revert s raw r. apply (well_founded_induction_type (Wf_nat.well_founded_ltof bytes (@length byte)) (fun s => forall raw r, scan_string s = Some (raw, r) -> (length r < length s)%nat)).
  intros s IH raw r. unfold Wf_nat.ltof in IH. destruct s as [|c s]; cbn [scan_string]; [done|].
  destruct (c =b x22); [intros [= <- <-]; cbn; lia|]. destruct (bZ c <? 32); [done|]. destruct (c =b x5c).
  - destruct s as [|e s]; [done|]. destruct (contains_byte e _).
    + destruct (scan_string s) as [[raw' r']|] eqn:E; [|done]. cbn. intros [= <- <-]. apply IH in E; cbn in *; lia.
    + destruct (e =b "u"%byte); [|done]. destruct s as [|h1 [|h2 [|h3 [|h4 s]]]]; try done. destruct (_ && _); [|done].
      destruct (scan_string s) as [[raw' r']|] eqn:E; [|done]. cbn. intros [= <- <-]. apply IH in E; cbn in *; lia.
  - destruct (scan_string s) as [[raw' r']|] eqn:E; [|done]. cbn. intros [= <- <-]. apply IH in E; cbn in *; lia.
Qed.

Lemma take_digits_length s : (length (snd (take_digits s)) <= length s)%nat.
Proof. induction s as [|c s IH]; cbn; [lia|]. destruct (is_digit c); [|cbn; lia]. destruct (take_digits s). cbn in *. lia. Qed.

Lemma some_digits_length s d r : some_digits s = Some (d, r) -> (length r < length s)%nat.
Proof.
  unfold some_digits. destruct s as [|c s]; [done|]. cbn [take_digits]. destruct (is_digit c); [|done].
  pose proof (take_digits_length s) as H. destruct (take_digits s) as [d' r']. intros [= <- <-]. cbn in *. lia.
Qed.

Lemma scan_sign_length s : (length (snd (scan_sign s)) <= length s)%nat.
Proof. destruct s as [|c s]; [done|]. destruct c; cbn; lia. Qed.

Lemma scan_int_length s d r : scan_int s = Some (d, r) -> (length r < length s)%nat.
Proof. destruct s as [|c s]; [done|]. destruct c; cbn [scan_int]; try apply some_digits_length. intros [= <- <-]. cbn. lia. Qed.

Lemma scan_frac_length s d r : scan_frac s = Some (d, r) -> (length r <= length s)%nat.
Proof.
  destruct s as [|c s]; [by intros [= <- <-]|]. destruct c; cbn [scan_frac]; try (intros [= <- <-]; done).
  destruct (some_digits s) as [[d' r']|] eqn:E; [|done]. intros [= <- <-]. apply some_digits_length in E. cbn. lia.
Qed.

Lemma scan_exp_length s d r : scan_exp s = Some (d, r) -> (length r <= length s)%nat.
Proof.
  destruct s as [|c s]; [by intros [= <- <-]|]. unfold scan_exp. destruct (_ || _); [|by intros [= <- <-]].
  destruct s as [|x s]; [done|]. destruct (_ || _); (destruct (some_digits _) as [[d' r']|] eqn:E; [|done]; intros [= <- <-]; apply some_digits_length in E; cbn in *; lia).
Qed.

Lemma scan_number_length s t r : scan_number s = Some (t, r) -> (length r < length s)%nat.
Proof.
  unfold scan_number. pose proof (scan_sign_length s) as L1. destruct (scan_sign s) as [sign s1]. cbn [snd] in L1.
  destruct (scan_int s1) as [[int s2]|] eqn:E2; [|done]. apply scan_int_length in E2.
  destruct (scan_frac s2) as [[frac s3]|] eqn:E3; [|done]. apply scan_frac_length in E3.
  destruct (scan_exp s3) as [[exp s4]|] eqn:E4; [|done]. apply scan_exp_length in E4. intros [= <- <-]. lia.
Qed.

Lemma scan_scalar_length s t r : scan_scalar s = Some (t, r) -> (length r < length s)%nat.
Proof.
  destruct s as [|c s]; [done|]. unfold scan_scalar. destruct (c =b x22).
  { destruct (scan_string s) as [[raw r']|] eqn:E; [|done]. intros [= _ <-]. apply scan_string_length in E. cbn. lia. }
  destruct (_ || _).
  { destruct (scan_number (c :: s)) as [[raw r']|] eqn:E; [|done]. intros [= _ <-]. by apply scan_number_length in E. }
  destruct (has_prefix _ _); [intros [= _ <-]; rewrite length_drop; cbn; lia|].
  destruct (has_prefix _ _); [intros [= _ <-]; rewrite length_drop; cbn; lia|].
  destruct (has_prefix _ _); [intros [= _ <-]; rewrite length_drop; cbn; lia|done].
Qed.

Lemma scan_scalar_token s t r : scan_scalar s = Some (t, r) -> forall c, t <> Delim c.
Proof.
  destruct s as [|c s]; [done|]. unfold scan_scalar. destruct (c =b x22); [destruct (scan_string s) as [[? ?]|]; [by intros [= <- _]|done]|].
  destruct (_ || _); [destruct (scan_number _) as [[? ?]|]; [by intros [= <- _]|done]|].
  repeat (destruct (has_prefix _ _); [by intros [= <- _]|]). done.
Qed.

Lemma pop_rest s k : rest (pop s k) = s.
Proof. by destruct k. Qed.

Lemma scalarTurn_spec c s d : match scalarTurn c s d with
  turnToken t d' => (length (rest d') < length s)%nat /\ (forall c, t <> Delim c) | turnAgain _ => False | turnError _ => True end.
Proof.
  unfold scalarTurn. cbv zeta. destruct (_ && _); [done|]. destruct (scan_scalar s) as [[t s']|] eqn:E; [|done].
  split; [by apply scan_scalar_length in E|by eapply scan_scalar_token].
Qed.

(** What a turn consumed, and the states a separator leaves. *)
Lemma tokenTurn_spec d : match tokenTurn d with
  | turnToken _ d' => (length (rest d') < length (rest d))%nat
  | turnAgain d' => (length (rest d') < length (rest d))%nat /\ (tstate d' = tokenObjectValue \/ tstate d' = tokenArrayValue \/ tstate d' = tokenObjectKey)
  | turnError _ => True
  end.
Proof.
  unfold tokenTurn. pose proof (skip_space_length (rest d)) as L. destruct (skip_space (rest d)) as [|c s]; [done|]. cbn [length] in L.
  assert (Hs : match scalarTurn c (c :: s) d with turnToken _ d' => (length (rest d') < length (rest d))%nat
    | turnAgain d' => (length (rest d') < length (rest d))%nat /\ (tstate d' = tokenObjectValue \/ tstate d' = tokenArrayValue \/ tstate d' = tokenObjectKey)
    | turnError _ => True end).
  { pose proof (scalarTurn_spec c (c :: s) d) as Hs. destruct (scalarTurn c (c :: s) d); [destruct Hs as [Hs _]; cbn [length] in Hs; lia|done..]. }
  destruct c; try exact Hs; destruct (tstate d); cbn; rewrite ?pop_rest; first [done | lia | split; [lia|auto]].
Qed.

(** After a separator the next turn is a token or an error. *)
Lemma tokenTurn_value d : tstate d = tokenObjectValue \/ tstate d = tokenArrayValue \/ tstate d = tokenObjectKey ->
  match tokenTurn d with turnAgain _ => False | _ => True end.
Proof.
  intros H. unfold tokenTurn. destruct (skip_space (rest d)) as [|c s]; [done|].
  assert (Hs : match scalarTurn c (c :: s) d with turnAgain _ => False | _ => True end).
  { pose proof (scalarTurn_spec c (c :: s) d) as Hs. by destruct (scalarTurn c (c :: s) d). }
  destruct c; try exact Hs; destruct H as [-> | [-> | ->]]; done.
Qed.

Lemma tokenLoop_enough n d : tokenLoop (2 + n) d = tokenLoop 2 d.
Proof.
  cbn. pose proof (tokenTurn_spec d) as H. destruct (tokenTurn d) as [| d1 |]; try done. destruct H as [_ H].
  apply tokenTurn_value in H. by destruct (tokenTurn d1).
Qed.

Lemma Token_length d t d' : Token d = inl (t, d') -> (length (rest d') < length (rest d))%nat.
Proof.
  unfold Token. generalize 3%nat. intros n. revert d. induction n as [|n IH]; intros d; [done|]. cbn.
  pose proof (tokenTurn_spec d) as H. destruct (tokenTurn d) as [t1 d1|d1|]; [|intros K%IH; lia|done]. by intros [= <- <-].
Qed.

(** ** Values *)

Inductive json :=
| JScalar (t : token)
| JArray (l : list json)
| JObject (m : list (bytes * json)).

(** The grammar over the tokens: [reads d j d'] when the next value of [d] is
    [j] and [d'] is the decoder behind it. *)
Inductive reads : decoder -> json -> decoder -> Prop :=
| reads_scalar d t d' : Token d = inl (t, d') -> (forall c, t <> Delim c) -> reads d (JScalar t) d'
| reads_array d d1 l d' : Token d = inl (Delim "["%byte, d1) -> elements d1 l d' -> reads d (JArray l) d'
| reads_object d d1 m d' : Token d = inl (Delim "{"%byte, d1) -> members d1 m d' -> reads d (JObject m) d'
with elements : decoder -> list json -> decoder -> Prop :=
| elements_nil d d' : More d = false -> Token d = inl (Delim "]"%byte, d') -> elements d [] d'
| elements_cons d j d1 l d' : More d = true -> reads d j d1 -> elements d1 l d' -> elements d (j :: l) d'
with members : decoder -> list (bytes * json) -> decoder -> Prop :=
| members_nil d d' : More d = false -> Token d = inl (Delim "}"%byte, d') -> members d [] d'
| members_cons d key d1 j d2 m d' : More d = true -> Token d = inl (TString key, d1) -> reads d1 j d2 -> members d2 m d' -> members d ((key, j) :: m) d'.

Scheme reads_mut := Induction for reads Sort Prop
  with elements_mut := Induction for elements Sort Prop
  with members_mut := Induction for members Sort Prop.
Combined Scheme reads_elements_members from reads_mut, elements_mut, members_mut.

(** A whole input: one value and white space. *)
Definition document (data : bytes) (j : json) : Prop := exists d, reads (newDecoder data) j d /\ Token d = inr tokenEOF.

Lemma reads_length_all :
  (forall d j d', reads d j d' -> (length (rest d') < length (rest d))%nat)
  /\ (forall d l d', elements d l d' -> (length (rest d') < length (rest d))%nat)
  /\ (forall d m d', members d m d' -> (length (rest d') < length (rest d))%nat).
Proof.
  apply (reads_elements_members (fun d _ d' _ => length (rest d') < length (rest d))%nat (fun d _ d' _ => length (rest d') < length (rest d))%nat
    (fun d _ d' _ => length (rest d') < length (rest d))%nat); intros; repeat match goal with H : Token _ = inl _ |- _ => apply Token_length in H end; lia.
Qed.

Lemma reads_length d j d' : reads d j d' -> (length (rest d') < length (rest d))%nat.
Proof. apply reads_length_all. Qed.

(** The value as [Unmarshal] into an empty interface builds it; every turn
    consumes a byte, so the length of the input bounds the fuel. *)
Fixpoint parseValue (fuel : nat) (d : decoder) : option (json * decoder) :=
  match fuel with
  | O => None
  | S fuel =>
      match Token d with
      | inl (Delim c, d) =>
          if c =b "["%byte then option_map (fun '(l, d) => (JArray l, d)) (parseElements fuel d)
          else if c =b "{"%byte then option_map (fun '(m, d) => (JObject m, d)) (parseMembers fuel d)
          else None
      | inl (t, d) => Some (JScalar t, d)
      | inr _ => None
      end
  end
with parseElements (fuel : nat) (d : decoder) : option (list json * decoder) :=
  match fuel with
  | O => None
  | S fuel =>
      if More d then
        match parseValue fuel d with
        | Some (j, d) => option_map (fun '(l, d) => (j :: l, d)) (parseElements fuel d)
        | None => None
        end
      else match Token d with inl (Delim "]"%byte, d) => Some ([], d) | _ => None end
  end
with parseMembers (fuel : nat) (d : decoder) : option (list (bytes * json) * decoder) :=
  match fuel with
  | O => None
  | S fuel =>
      if More d then
        match Token d with
        | inl (TString key, d) =>
            match parseValue fuel d with
            | Some (j, d) => option_map (fun '(m, d) => ((key, j) :: m, d)) (parseMembers fuel d)
            | None => None
            end
        | _ => None
        end
      else match Token d with inl (Delim "}"%byte, d) => Some ([], d) | _ => None end
  end.

Definition parseFuel (data : bytes) : nat := 3 * (length data + 1).

(** [json.Unmarshal]'s reading: one value and the end of the input. *)
Definition parse (data : bytes) : option json :=
  match parseValue (parseFuel data) (newDecoder data) with
  | Some (j, d) => match Token d with inr tokenEOF => Some j | _ => None end
  | None => None
  end.

Lemma parse_sound_all fuel :
  (forall d j d', parseValue fuel d = Some (j, d') -> reads d j d')
  /\ (forall d l d', parseElements fuel d = Some (l, d') -> elements d l d')
  /\ (forall d m d', parseMembers fuel d = Some (m, d') -> members d m d').
Proof.
  induction fuel as [|fuel (IHv & IHe & IHm)]; [done|]. split; [|split]; intros d x d'; cbn [parseValue parseElements parseMembers].
  - destruct (Token d) as [[t d1]|] eqn:Et; [|done]. destruct t as [c| | | |]; try (intros [= <- <-]; by constructor).
    destruct (c =b "["%byte) eqn:E1; [apply beq_eq in E1 as ->|destruct (c =b "{"%byte) eqn:E2; [apply beq_eq in E2 as ->|done]].
    + destruct (parseElements fuel d1) as [[l d2]|] eqn:E; [|done]. intros [= <- <-]. econstructor; [exact Et|by apply IHe].
    + destruct (parseMembers fuel d1) as [[m d2]|] eqn:E; [|done]. intros [= <- <-]. econstructor; [exact Et|by apply IHm].
  - destruct (More d) eqn:Em.
    + destruct (parseValue fuel d) as [[j d1]|] eqn:E; [|done]. destruct (parseElements fuel d1) as [[l d2]|] eqn:E2; [|done]. intros [= <- <-].
      econstructor; [done|by apply IHv|by apply IHe].
    + destruct (Token d) as [[[c| | | |] d1]|] eqn:Et; try done. destruct (decide (c = "]"%byte)) as [->|Hc]; [intros [= <- <-]; by constructor|by destruct c].
  - destruct (More d) eqn:Em.
    + destruct (Token d) as [[[c|key| | |] d1]|] eqn:Et; try done. destruct (parseValue fuel d1) as [[j d2]|] eqn:E; [|done].
      destruct (parseMembers fuel d2) as [[m d3]|] eqn:E2; [|done]. intros [= <- <-]. econstructor; [done|exact Et|by apply IHv|by apply IHm].
    + destruct (Token d) as [[[c| | | |] d1]|] eqn:Et; try done. destruct (decide (c = "}"%byte)) as [->|Hc]; [intros [= <- <-]; by constructor|by destruct c].
Qed.

Lemma parse_complete_all :
  (forall d j d', reads d j d' -> forall fuel, (2 * length (rest d) < fuel)%nat -> parseValue fuel d = Some (j, d'))
  /\ (forall d l d', elements d l d' -> forall fuel, (2 * length (rest d) + 1 < fuel)%nat -> parseElements fuel d = Some (l, d'))
  /\ (forall d m d', members d m d' -> forall fuel, (2 * length (rest d) < fuel)%nat -> parseMembers fuel d = Some (m, d')).
Proof.
  apply (reads_elements_members (fun d j d' _ => forall fuel, (2 * length (rest d) < fuel)%nat -> parseValue fuel d = Some (j, d'))
    (fun d l d' _ => forall fuel, (2 * length (rest d) + 1 < fuel)%nat -> parseElements fuel d = Some (l, d'))
    (fun d m d' _ => forall fuel, (2 * length (rest d) < fuel)%nat -> parseMembers fuel d = Some (m, d'))).
  all: intros; (destruct fuel as [|fuel]; [lia|]); cbn [parseValue parseElements parseMembers].
  - rewrite e. destruct t as [c| | | |]; try done. by destruct (n c).
  - rewrite e. cbn. apply Token_length in e. by rewrite H by lia.
  - rewrite e. cbn. apply Token_length in e. by rewrite H by lia.
  - by rewrite e, e0.
  - rewrite e. rewrite H by lia. apply reads_length in r. by rewrite H0 by lia.
  - by rewrite e, e0.
  - rewrite e, e0. apply Token_length in e0. rewrite H by lia. apply reads_length in r. by rewrite H0 by lia.
Qed.

Lemma parse_document data j : parse data = Some j <-> document data j.
Proof.
  unfold parse, document. split.
  - destruct (parseValue _ _) as [[j' d]|] eqn:E; [|done]. apply parse_sound_all in E. destruct (Token d) as [|[]] eqn:Et; try done. intros [= <-]. eauto.
  - intros (d & H & Ht). rewrite (proj1 parse_complete_all _ _ _ H) by (cbn; unfold parseFuel; lia). by rewrite Ht.
Qed.
