(* ===== verification/Config.v ===== *)
(** * Configuration, limits and the TLS policy

    [bridge/bounds.go], [bridge/config.go], the limits of [bridge/types.go],
    [bridge/endpoint.go] and the policy of [bridge/tlspolicy.go].  Parsing an
    IP literal, reading a trust anchor file and SHA-256 are parameters. *)
From Stdlib Require Import ZArith Lia Strings.Byte.
From stdpp Require Import base list gmap strings.
From S2P Require Import Prelude GoStrings GoText Errors.

(** A step that may fail: [v, err := m; if err != nil { return err }]. *)
Notation "'need!' x := m 'in' k" := (match m with inl x => k | inr e => inr e end)
  (at level 10, x pattern, m at level 100, k at level 200) : go_scope.

(** ** Bounds *)

Definition defaultMaxSearchResults : Z := 50.
Definition hardMaxSearchResults : Z := 250.
Definition defaultMaxFolderResults : Z := 200.
Definition hardMaxFolderResults : Z := 1000.
Definition defaultMaxBodyBytes : Z := 256 * 1024.
Definition hardMaxBodyBytes : Z := 1024 * 1024.
Definition defaultMaxHeaderBytes : Z := 16384.
Definition maximumMaxHeaderBytes : Z := 65536.
Definition defaultMaxMIMEParts : Z := 50.
Definition maximumMaxMIMEParts : Z := 200.
Definition defaultMaxAttachmentCount : Z := 20.
Definition maximumMaxAttachmentCount : Z := 100.
Definition defaultMaxThreadMessages : Z := 20.
Definition hardMaxThreadMessages : Z := 100.
Definition defaultMaxThreadFetches : Z := 30.
Definition hardMaxThreadFetches : Z := 100.
Definition defaultMaxPreviewChars : Z := 200.
Definition hardMaxPreviewChars : Z := 1000.
Definition defaultMaxOutputBytes : Z := 100000.
Definition hardMaxOutputBytes : Z := 400000.
Definition maxMailboxNameBytes : Z := 512.
Definition maxSearchTermBytes : Z := 1024.

Record Bounds := mkBounds {
  MaxSearchResults : Z; MaxFolderResults : Z; MaxBodyBytes : Z; MaxHeaderBytes : Z; MaxMimeParts : Z;
  MaxAttachmentCount : Z; MaxThreadMessages : Z; MaxThreadFetches : Z; MaxPreviewChars : Z;
  MaxOutputBytes : Z }.

(** [BoundsPatch]: a nil pointer is [None]. *)
Record BoundsPatch := mkPatch {
  pSearchResults : option Z; pFolderResults : option Z; pBodyBytes : option Z; pHeaderBytes : option Z;
  pMimeParts : option Z; pAttachmentCount : option Z; pThreadMessages : option Z;
  pThreadFetches : option Z; pPreviewChars : option Z; pOutputBytes : option Z }.

Definition defaultBounds : Bounds :=
  mkBounds defaultMaxSearchResults defaultMaxFolderResults defaultMaxBodyBytes defaultMaxHeaderBytes
    defaultMaxMIMEParts defaultMaxAttachmentCount defaultMaxThreadMessages defaultMaxThreadFetches
    defaultMaxPreviewChars defaultMaxOutputBytes.

Definition clampBound (value : option Z) (fallback ceiling : Z) : Z + goerror :=
  match value with
  | None => inl fallback
  | Some v =>
      if v <? 0 then inr (errorCode CodeBoundsExceeded)
      else if ceiling <? v then inl ceiling
      else inl v
  end.

Definition mergeBounds (patch : BoundsPatch) : Bounds + goerror :=
  let d := defaultBounds in
  need! search := clampBound (pSearchResults patch) (MaxSearchResults d) hardMaxSearchResults in
  need! folders := clampBound (pFolderResults patch) (MaxFolderResults d) hardMaxFolderResults in
  need! body := clampBound (pBodyBytes patch) (MaxBodyBytes d) hardMaxBodyBytes in
  if bool_decide (pHeaderBytes patch = Some 0) then inr (errorCode CodeBoundsExceeded) else
  need! header := clampBound (pHeaderBytes patch) (MaxHeaderBytes d) maximumMaxHeaderBytes in
  need! parts := clampBound (pMimeParts patch) (MaxMimeParts d) maximumMaxMIMEParts in
  need! attachments := clampBound (pAttachmentCount patch) (MaxAttachmentCount d) maximumMaxAttachmentCount in
  need! messages := clampBound (pThreadMessages patch) (MaxThreadMessages d) hardMaxThreadMessages in
  need! fetches := clampBound (pThreadFetches patch) (MaxThreadFetches d) hardMaxThreadFetches in
  need! preview := clampBound (pPreviewChars patch) (MaxPreviewChars d) hardMaxPreviewChars in
  need! output := clampBound (pOutputBytes patch) (MaxOutputBytes d) hardMaxOutputBytes in
  inl (mkBounds search folders body header parts attachments messages fetches preview output).

(** [boundsPatch] of [bridge.go]: effective bounds as a patch again. *)
Definition boundsPatch (b : Bounds) : BoundsPatch :=
  mkPatch (Some (MaxSearchResults b)) (Some (MaxFolderResults b)) (Some (MaxBodyBytes b))
    (Some (MaxHeaderBytes b)) (Some (MaxMimeParts b)) (Some (MaxAttachmentCount b))
    (Some (MaxThreadMessages b)) (Some (MaxThreadFetches b)) (Some (MaxPreviewChars b))
    (Some (MaxOutputBytes b)).

(** ** Normalization limits *)

Definition boundedLimit (value defaultValue maximum : Z) : Z :=
  if value <=? 0 then defaultValue else if maximum <? value then maximum else value.

Record NormalizeLimits := mkLimits {
  lMaxRawBytes : Z; lMaxHeaderBytes : Z; lMaxHeaderCount : Z; lMaxMIMEParts : Z; lMaxMIMEDepth : Z;
  lMaxDecodedTextBytes : Z; lMaxAttachmentCount : Z; lMaxFilenameBytes : Z; lMaxContentTypeBytes : Z;
  lMaxDispositionBytes : Z; lMaxReferenceCount : Z; lMaxThreadDepth : Z; lMaxThreadMessages : Z }.

Definition normalizedLimits (l : NormalizeLimits) : NormalizeLimits :=
  mkLimits (boundedLimit (lMaxRawBytes l) 262144 1048576)
    (boundedLimit (lMaxHeaderBytes l) defaultMaxHeaderBytes maximumMaxHeaderBytes)
    (boundedLimit (lMaxHeaderCount l) 100 500)
    (boundedLimit (lMaxMIMEParts l) defaultMaxMIMEParts maximumMaxMIMEParts)
    (boundedLimit (lMaxMIMEDepth l) 10 20)
    (boundedLimit (lMaxDecodedTextBytes l) 262144 1048576)
    (boundedLimit (lMaxAttachmentCount l) defaultMaxAttachmentCount maximumMaxAttachmentCount)
    (boundedLimit (lMaxFilenameBytes l) 255 1024)
    (boundedLimit (lMaxContentTypeBytes l) 255 1024)
    (boundedLimit (lMaxDispositionBytes l) 127 512)
    (boundedLimit (lMaxReferenceCount l) 50 200)
    (boundedLimit (lMaxThreadDepth l) 20 100)
    (boundedLimit (lMaxThreadMessages l) 20 100).

(** ** TLS policy *)

Record TLSConfig := mkTLS { TrustAnchorFile : bytes; SPKISHA256 : bytes; MinVersion : bytes }.

Inductive tlsVersion := VersionTLS12 | VersionTLS13.

Definition parseTLSMinimumVersion (value : bytes) : tlsVersion + goerror :=
  if beqs value [] || beqs value $"TLSv1.2" then inl VersionTLS12
  else if beqs value $"TLSv1.3" then inl VersionTLS13
  else inr (errorCode CodeInvalidConfig).

(** [hex.DecodeString]. *)
Definition hex_value (b : byte) : option Z :=
  if is_digit b then Some (bZ b - 48)
  else if (97 <=? bZ b) && (bZ b <=? 102) then Some (bZ b - 87)
  else if (65 <=? bZ b) && (bZ b <=? 70) then Some (bZ b - 55)
  else None.

Fixpoint hex_decode (s : bytes) : option bytes :=
  match s with
  | [] => Some []
  | a :: b :: s' =>
      match hex_value a, hex_value b, hex_decode s' with
      | Some x, Some y, Some r => Some (byte_of_Z (x * 16 + y) :: r)
      | _, _, _ => None
      end
  | _ => None
  end.

(** [strings.ToLower value = value] for a value that is all hex digits. *)
Definition parseSPKIPin (value : bytes) : bytes + goerror :=
  match hex_decode value with
  | Some pin =>
      if negb (zlen pin =? 32) || negb (beqs (map ascii_lower value) value)
      then inr (errorCode CodeInvalidConfig) else inl pin
  | None => inr (errorCode CodeInvalidConfig)
  end.

Definition validateTLSConfig (input : TLSConfig) : tlsVersion + goerror :=
  if blank (TrustAnchorFile input) && blank (SPKISHA256 input) then inr (errorCode CodeTLSRequired) else
  need! version := parseTLSMinimumVersion (MinVersion input) in
  if negb (beqs (SPKISHA256 input) []) then
    need! _ := parseSPKIPin (SPKISHA256 input) in inl version
  else inl version.

(** What the policy reads of a parsed certificate; [ExtKeyUsageAny] is 0 and
    [ExtKeyUsageServerAuth] 1, instants are numbers. *)
Record certificate := mkCertificate {
  Raw : bytes; RawSubjectPublicKeyInfo : bytes; NotBefore : Z; NotAfter : Z; ExtKeyUsage : list Z }.

Record tlsVerifier := mkVerifier { anchor : option certificate; pin : option bytes }.

Definition verifyLeafCertificate (c : certificate) (now : Z) : option goerror :=
  if (now <? NotBefore c) || (NotAfter c <? now) then Some (errorCode CodeTLSMismatch)
  else if existsb (fun usage => (usage =? 1) || (usage =? 0)) (ExtKeyUsage c) then None
  else Some (errorCode CodeTLSMismatch).

Section Tls.
Variable sha256 : bytes -> bytes.
(** [loadTrustAnchor]: the one certificate of the file at the path, or its error. *)
Variable loadTrustAnchor : bytes -> certificate + goerror.

Definition newTLSVerifier (input : TLSConfig) : (tlsVerifier * tlsVersion) + goerror :=
  if blank (TrustAnchorFile input) && blank (SPKISHA256 input) then inr (errorCode CodeTLSRequired) else
  need! minimumVersion := parseTLSMinimumVersion (MinVersion input) in
  let verifier := mkVerifier None None in
  match (if negb (beqs (TrustAnchorFile input) []) then
           match loadTrustAnchor (TrustAnchorFile input) with
           | inl a => inl (mkVerifier (Some a) None)
           | inr _ => inr (errorCode CodeInvalidConfig)
           end
         else inl verifier) with
  | inr e => inr e
  | inl verifier =>
      if negb (beqs (SPKISHA256 input) []) then
        need! p := parseSPKIPin (SPKISHA256 input) in
        inl (mkVerifier (anchor verifier) (Some p), minimumVersion)
      else inl (verifier, minimumVersion)
  end.

(** [tlsVerifier.verify] on the peer's certificates, leaf first. *)
Definition verify (v : tlsVerifier) (peers : list certificate) (now : Z) : option goerror :=
  match peers with
  | [] => Some (errorCode CodeTLSMismatch)
  | leaf :: _ =>
      match verifyLeafCertificate leaf now with
      | Some _ => Some (errorCode CodeTLSMismatch)
      | None =>
          if match anchor v with Some a => negb (beqs (Raw leaf) (Raw a)) | None => false end
          then Some (errorCode CodeTLSMismatch)
          else if match pin v with
                  | Some p => negb (beqs (sha256 (RawSubjectPublicKeyInfo leaf)) p)
                  | None => false end
          then Some (errorCode CodeTLSMismatch)
          else None
      end
  end.
End Tls.

(** ** Endpoint and configuration *)

(** A parsed [netip.Addr]; [AddrV4 n] and the two halves of [AddrV6]. *)
Inductive addr := AddrV4 (n : Z) | AddrV6 (hi lo : Z) (zone : bytes).

#[export] Instance addr_eq_dec : EqDecision addr. Proof. solve_decision. Defined.

(** [Addr.Unmap] and [Addr.IsLoopback]; [Unmap] drops the zone of a 4-in-6
    address with it. *)
Definition Unmap (a : addr) : addr :=
  match a with
  | AddrV6 hi lo _ => if (hi =? 0) && (Z.shiftr lo 32 =? 65535) then AddrV4 (Z.land lo MaxUint32) else a
  | _ => a
  end.
Definition IsLoopback (a : addr) : bool :=
  match Unmap a with
  | AddrV4 n => Z.shiftr n 24 =? 127
  | AddrV6 hi lo _ => (hi =? 0) && (lo =? 1)
  end.

Record IMAPConfig := mkIMAP {
  Host : bytes; Port : Z; TLSMode : bytes; CredentialCommand : list bytes; TLS : TLSConfig;
  ConnectTimeoutMs : Z; CommandTimeoutMs : Z }.
Record Config := mkConfig { cIMAP : IMAPConfig; cBounds : BoundsPatch; cAudit : bool; cMutations : bool }.
Record ValidatedConfig := mkValidated { vIMAP : IMAPConfig; vBounds : Bounds; vAudit : bool }.

Definition timeoutMilliseconds (value fallback : Z) : Z + goerror :=
  if value =? 0 then inl fallback
  else if (value <? 0) || (60000 <? value) then inr (errorCode CodeInvalidConfig)
  else inl value.

Section Validate.
(** [netip.ParseAddr], and whether the platform can kill a process tree. *)
Variable ParseAddr : bytes -> option addr.
Variable credentialProcessTreeKillSupported : bool.

Definition ParseLoopbackEndpoint (host : bytes) (port : Z) : (addr * Z) + goerror :=
  match ParseAddr host with
  | None => inr (errorCode CodeInvalidEndpoint)
  | Some address =>
      let address := Unmap address in
      if negb (IsLoopback address) then inr (errorCode CodeInvalidEndpoint)
      else if (port <? 1) || (65535 <? port) then inr (errorCode CodeInvalidEndpoint)
      else inl (address, port)
  end.

(** [filepath.IsAbs] is a leading slash on the supported platforms. *)
Definition isSafeCredentialCommand (command : list bytes) : bool :=
  credentialProcessTreeKillSupported
  && match command with first :: _ => has_prefix first $"/" | [] => false end.

Definition ValidateConfig (input : Config) : ValidatedConfig + goerror :=
  let i := cIMAP input in
  let host := if beqs (Host i) [] then $"127.0.0.1" else Host i in
  let port := if Port i =? 0 then 1143 else Port i in
  need! _ := ParseLoopbackEndpoint host port in
  let mode := if beqs (TLSMode i) [] then $"starttls" else TLSMode i in
  if negb (beqs mode $"starttls") && negb (beqs mode $"implicit") then inr (errorCode CodeInvalidConfig) else
  if negb (isSafeCredentialCommand (CredentialCommand i)) then inr (errorCode CodeInvalidConfig) else
  if blank (TrustAnchorFile (TLS i)) && blank (SPKISHA256 (TLS i)) then inr (errorCode CodeTLSRequired) else
  need! _ := validateTLSConfig (TLS i) in
  need! connect := timeoutMilliseconds (ConnectTimeoutMs i) 5000 in
  need! command := timeoutMilliseconds (CommandTimeoutMs i) 5000 in
  need! bounds := mergeBounds (cBounds input) in
  inl (mkValidated (mkIMAP host port mode (CredentialCommand i) (TLS i) connect command) bounds (cAudit input)).

(** The configuration [openSession] hands to [Dial]. *)
Definition dialConfig (v : ValidatedConfig) : Config :=
  mkConfig (vIMAP v) (boundsPatch (vBounds v)) (vAudit v) false.
End Validate.

(** ** Properties *)

Definition bounds_ok (b : Bounds) : Prop :=
  0 <= MaxSearchResults b <= 250 /\ 0 <= MaxFolderResults b <= 1000 /\ 0 <= MaxBodyBytes b <= 1048576
  /\ 1 <= MaxHeaderBytes b <= 65536 /\ 0 <= MaxMimeParts b <= 200 /\ 0 <= MaxAttachmentCount b <= 100
  /\ 0 <= MaxThreadMessages b <= 100 /\ 0 <= MaxThreadFetches b <= 100 /\ 0 <= MaxPreviewChars b <= 1000
  /\ 0 <= MaxOutputBytes b <= 400000.

Lemma clampBound_spec value fallback ceiling v :
  clampBound value fallback ceiling = inl v -> 0 <= fallback <= ceiling ->
  0 <= v <= ceiling /\ (value <> Some 0 -> 0 < fallback -> 0 < ceiling -> 0 < v).
Proof.
  unfold clampBound. destruct value as [w|]; [|intros [= <-]; lia].
  destruct (w <? 0) eqn:E1; [done|]. destruct (ceiling <? w) eqn:E2; intros [= <-] Hf; bool_prop; [lia|].
  split; [lia|]. intros Hw. assert (w <> 0) by congruence. lia.
Qed.

(** A value within its ceiling is kept. *)
Lemma clampBound_keep v fallback ceiling : 0 <= v <= ceiling -> clampBound (Some v) fallback ceiling = inl v.
Proof.
  intros H. unfold clampBound. by rewrite (proj2 (Z.ltb_ge v 0)), (proj2 (Z.ltb_ge ceiling v)) by lia.
Qed.

Ltac ceilings :=
  unfold hardMaxSearchResults, hardMaxFolderResults, hardMaxBodyBytes, maximumMaxHeaderBytes, defaultMaxHeaderBytes,
    maximumMaxMIMEParts, maximumMaxAttachmentCount, hardMaxThreadMessages, hardMaxThreadFetches,
    hardMaxPreviewChars, hardMaxOutputBytes, defaultMaxSearchResults, defaultMaxFolderResults, defaultMaxBodyBytes,
    defaultMaxMIMEParts, defaultMaxAttachmentCount, defaultMaxThreadMessages, defaultMaxThreadFetches,
    defaultMaxPreviewChars, defaultMaxOutputBytes in *.

(** Inversion of one successful [need!]. *)
Ltac need_step H v E :=
  lazymatch type of H with
  | match ?m with inl _ => _ | inr _ => _ end = inl _ => destruct m as [v|] eqn:E; [|discriminate H]
  end.

Lemma mergeBounds_range patch b : mergeBounds patch = inl b -> bounds_ok b.
Proof.
  unfold mergeBounds. cbv zeta. intros H.
  need_step H v1 E1. need_step H v2 E2. need_step H v3 E3.
  case_bool_decide as Hh; [discriminate|].
  need_step H v4 E4. need_step H v5 E5. need_step H v6 E6. need_step H v7 E7. need_step H v8 E8.
  need_step H v9 E9. need_step H v10 E10. injection H as <-.
  apply clampBound_spec in E1, E2, E3, E4, E5, E6, E7, E8, E9, E10;
    cbn [defaultBounds MaxSearchResults MaxFolderResults MaxBodyBytes MaxHeaderBytes MaxMimeParts MaxAttachmentCount
         MaxThreadMessages MaxThreadFetches MaxPreviewChars MaxOutputBytes] in *; ceilings; try lia.
  unfold bounds_ok. cbn [MaxSearchResults MaxFolderResults MaxBodyBytes MaxHeaderBytes MaxMimeParts MaxAttachmentCount
         MaxThreadMessages MaxThreadFetches MaxPreviewChars MaxOutputBytes].
  destruct E4 as [E4 E4']. specialize (E4' Hh). lia.
Qed.

Lemma mergeBounds_stable b : bounds_ok b -> mergeBounds (boundsPatch b) = inl b.
Proof.
  unfold bounds_ok. intros H. unfold mergeBounds, boundsPatch. cbn [pSearchResults pFolderResults pBodyBytes pHeaderBytes
    pMimeParts pAttachmentCount pThreadMessages pThreadFetches pPreviewChars pOutputBytes].
  rewrite bool_decide_false by (intros [= E]; lia).
  rewrite !clampBound_keep by (ceilings; lia). by destruct b.
Qed.

Lemma validate_again parse kill input v :
  ValidateConfig parse kill input = inl v ->
  bounds_ok (vBounds v) /\ 1 <= CommandTimeoutMs (vIMAP v) <= 60000
  /\ ValidateConfig parse kill (dialConfig v) = inl v.
Proof.
  unfold ValidateConfig. cbv zeta. intros H.
  need_step H endpoint Eap. destruct (_ && _) eqn:Emode in H; [discriminate|].
  destruct (negb _) eqn:Ecmd in H; [discriminate|]. destruct (_ && _) eqn:Eblank in H; [discriminate|].
  need_step H ver Ever. need_step H c1 Ec1. need_step H c2 Ec2. need_step H b Eb. injection H as <-.
  pose proof (mergeBounds_range _ _ Eb) as Hb.
  assert (forall x y, timeoutMilliseconds x 5000 = inl y -> 1 <= y <= 60000) as Ht.
  { intros x y. unfold timeoutMilliseconds. destruct (x =? 0) eqn:E0; [intros [= <-]; lia|].
    destruct (_ || _) eqn:E1; [done|]. intros [= <-]. bool_prop. lia. }
  assert (forall y, 1 <= y <= 60000 -> timeoutMilliseconds y 5000 = inl y) as Hk.
  { intros y Hy. unfold timeoutMilliseconds.
    by rewrite (proj2 (Z.eqb_neq y 0)), (proj2 (Z.ltb_ge y 0)), (proj2 (Z.ltb_ge 60000 y)) by lia. }
  cbn [vBounds vIMAP CommandTimeoutMs]. split; [done|]. split; [eauto|].
  unfold dialConfig. cbn [cIMAP cBounds cAudit vIMAP vBounds vAudit Host Port TLSMode CredentialCommand TLS
    ConnectTimeoutMs CommandTimeoutMs].
  set (host := if beqs (Host (cIMAP input)) [] then _ else _) in *.
  set (port := if Port (cIMAP input) =? 0 then _ else _) in *.
  set (mode := if beqs (TLSMode (cIMAP input)) [] then _ else _) in *.
  assert (beqs host [] = false) as ->.
  { subst host. destruct (beqs (Host (cIMAP input)) []) eqn:E; done. }
  assert ((port =? 0) = false) as ->.
  { apply Z.eqb_neq. subst port. destruct (Port (cIMAP input) =? 0) eqn:E; [done|by bool_prop]. }
  assert (beqs mode [] = false) as ->.
  { subst mode. destruct (beqs (TLSMode (cIMAP input)) []) eqn:E; done. }
  rewrite Eap, Emode, Ecmd, Eblank, Ever, (Hk c1), (Hk c2), (mergeBounds_stable b) by eauto. done.
Qed.

(** C25: the effective bounds of any accepted patch lie within the hard
    ceilings, with at least one header byte, and a validated configuration
    passes validation again unchanged when a session is dialled with it. *)
Theorem validated_stable parse kill input v :
  ValidateConfig parse kill input = inl v ->
  bounds_ok (vBounds v) /\ 1 <= CommandTimeoutMs (vIMAP v) <= 60000
  /\ ValidateConfig parse kill (dialConfig v) = inl v.
Proof. apply validate_again. Qed.

(** A connection is accepted only for a leaf certificate that is valid
    now, serves TLS servers and matches every configured trust material, of
    which there is at least one: the exact anchor certificate, or the pinned
    key digest. *)
Theorem verify_sound sha256 load input v version peers now :
  newTLSVerifier load input = inl (v, version) -> verify sha256 v peers now = None ->
  (TrustAnchorFile input <> [] \/ SPKISHA256 input <> [])
  /\ exists leaf rest, peers = leaf :: rest
     /\ NotBefore leaf <= now <= NotAfter leaf
     /\ (1 ∈ ExtKeyUsage leaf \/ 0 ∈ ExtKeyUsage leaf)
     /\ (TrustAnchorFile input <> [] -> exists a, load (TrustAnchorFile input) = inl a /\ Raw leaf = Raw a)
     /\ (SPKISHA256 input <> [] -> hex_decode (SPKISHA256 input) = Some (sha256 (RawSubjectPublicKeyInfo leaf))).
Proof.
  unfold newTLSVerifier. intros H Hv.
  destruct (_ && _) eqn:Eblank in H; [discriminate|]. need_step H mv Emv. cbv zeta in H.
  destruct peers as [|leaf rest]; [discriminate Hv|]. cbn [verify] in Hv.
  destruct (verifyLeafCertificate leaf now) eqn:Eleaf; [discriminate|].
  destruct (match anchor v with Some a => _ | None => _ end) eqn:Ea; [discriminate|].
  destruct (match pin v with Some p => _ | None => _ end) eqn:Ep; [discriminate|]. clear Hv.
  assert (TrustAnchorFile input <> [] \/ SPKISHA256 input <> []) as Hor.
  { destruct (TrustAnchorFile input); [|by left]. destruct (SPKISHA256 input); [done|by right]. }
  split; [done|]. exists leaf, rest. split; [done|].
  unfold verifyLeafCertificate in Eleaf. destruct (_ || _) eqn:Et in Eleaf; [discriminate|].
  destruct (existsb _ _) eqn:Eu in Eleaf; [|discriminate]. bool_prop. split; [lia|].
  apply existsb_exists in Eu as (u & Hu & Eu). apply list_elem_of_In in Hu.
  split; [apply orb_true_iff in Eu as [Eu|Eu]; bool_prop; subst; auto|].
  assert (forall x, negb (beqs x []) = false -> x = []) as Hnil by (intros x E; by apply negb_false_iff, beqs_eq in E).
  assert (forall p, parseSPKIPin (SPKISHA256 input) = inl p -> hex_decode (SPKISHA256 input) = Some p) as Hpin.
  { intros p Hp. unfold parseSPKIPin in Hp. repeat (split_in Hp; try discriminate Hp). by injection Hp as ->. }
  destruct (negb (beqs (TrustAnchorFile input) [])) eqn:Ef.
  - destruct (load (TrustAnchorFile input)) as [a|] eqn:El; [|discriminate H].
    destruct (negb (beqs (SPKISHA256 input) [])) eqn:Es.
    + need_step H p Epin. injection H as <- <-. cbn in Ea, Ep.
      apply negb_false_iff, beqs_eq in Ea, Ep. subst p. eauto.
    + injection H as <- <-. cbn in Ea. apply negb_false_iff, beqs_eq in Ea. apply Hnil in Es.
      split; [eauto|done].
  - apply Hnil in Ef. destruct (negb (beqs (SPKISHA256 input) [])) eqn:Es.
    + need_step H p Epin. injection H as <- <-. cbn in Ep. apply negb_false_iff, beqs_eq in Ep. subst p.
      split; [done|eauto].
    + apply Hnil in Es. destruct Hor; done.
Qed.

(** ** Witnesses *)

Definition loopback_only (host : bytes) : option addr :=
  if beqs host $"127.0.0.1" then Some (AddrV4 2130706433) else None.

Definition sample_pin : bytes := List.repeat "0"%byte 64.

Definition sample_config : Config :=
  mkConfig (mkIMAP [] 0 [] [$"/bin/cat"] (mkTLS [] sample_pin []) 0 2000)
    (mkPatch (Some 9999) None None (Some 5) None None None None None None) true false.

Lemma validated_stable_witness :
  exists v, ValidateConfig loopback_only true sample_config = inl v
    /\ bounds_ok (vBounds v) /\ 1 <= CommandTimeoutMs (vIMAP v) <= 60000
    /\ ValidateConfig loopback_only true (dialConfig v) = inl v.
Proof.
  eexists. split; [vm_compute; reflexivity|].
  apply (validated_stable loopback_only true sample_config). vm_compute. reflexivity.
Defined.

Definition zero_digest (_ : bytes) : bytes := List.repeat x00 32.
Definition no_anchor (_ : bytes) : certificate + goerror := inr (errorCode CodeInvalidConfig).
Definition sample_leaf : certificate := mkCertificate $"der" $"spki" 10 20 [1].

Lemma verify_sound_witness :
  SPKISHA256 (mkTLS [] sample_pin []) <> []
  /\ verify zero_digest (mkVerifier None (Some (zero_digest []))) [sample_leaf] 15 = None
  /\ exists leaf rest, [sample_leaf] = leaf :: rest /\ NotBefore leaf <= 15 <= NotAfter leaf.
Proof.
  split; [discriminate|]. split; [vm_compute; reflexivity|].
  destruct (verify_sound zero_digest no_anchor (mkTLS [] sample_pin []) (mkVerifier None (Some (zero_digest [])))
              VersionTLS12 [sample_leaf] 15) as (_ & leaf & rest & Hp & Ht & _);
    [vm_compute; reflexivity|vm_compute; reflexivity|]. by exists leaf, rest.
Defined.
