(* ===== verification/Session.v ===== *)
(** * Sessions, contexts and the adapter's effects

    The data that crosses the session interfaces of [bridge/imapclient.go],
    the interfaces themselves as one class over an abstract outside world, and
    the state monad the adapter of [bridge/bridge.go] runs in.  Every call to a
    session is recorded in a ghost log with whether the adapter's gate was
    held, so theorems can speak of what was sent, in which order. *)
From Stdlib Require Import ZArith Lia Strings.Byte.
From stdpp Require Import base list gmap strings.
From S2P Require Import Prelude GoStrings Errors.

(** ** Data *)

Record Truncation := mkTruncation {
  tHeaders : bool; tHeaderCount : bool; tText : bool; tMIMEParts : bool; tMIMEDepth : bool;
  tAttachments : bool; tReferences : bool; tThreadCycle : bool; tThreadDepth : bool;
  tThreadMessages : bool }.

Record CanonicalHeaders := mkCanonicalHeaders {
  hDate : bytes; hFrom : bytes; hTo : bytes; hSubject : bytes; hMessageID : bytes;
  hInReplyTo : bytes; hReferences : list bytes }.

Inductive DateSource := DateSourceUnknown | DateSourceHeader.
Inductive ReadState := ReadStateUnknown | ReadStateUnread | ReadStateRead.

(** [MessageMetadata]; [fetchedUID] is the unexported field [uid]. *)
Record MessageMetadata := mkMetadata {
  mID : bytes; mMailbox : bytes; mUIDValidity : Z; mUID : Z; mSubject : bytes; mSize : Z;
  mFrom : bytes; mDate : bytes; mDateSource : DateSource; mReadState : ReadState;
  mMetadataTruncated : bool; fetchedUID : Z }.

#[export] Instance eta_metadata : Eta MessageMetadata := fun m =>
  mkMetadata (mID m) (mMailbox m) (mUIDValidity m) (mUID m) (mSubject m) (mSize m) (mFrom m) (mDate m)
    (mDateSource m) (mReadState m) (mMetadataTruncated m) (fetchedUID m).

Record MessageHeaders := mkHeaders {
  mhMetadata : MessageMetadata; mhHeaders : CanonicalHeaders; mhTruncation : Truncation }.

#[export] Instance eta_headers : Eta MessageHeaders := fun m =>
  mkHeaders (mhMetadata m) (mhHeaders m) (mhTruncation m).

Record Folder := mkFolder { fName : bytes; fDelimiter : bytes }.
Record MailboxStatus := mkStatus { sMessages : Z; sUIDNext : Z; sUIDValidity : Z; sUnseen : Z }.
Record mailboxSnapshot := mkSnapshot { UIDNext : Z; UIDValidity : Z }.
Record uidWindow := mkWindow { Start : Z; End : Z }.

(** [listedMailbox]; the delimiter is a rune, 0 when the mailbox has none. *)
Record listedMailbox := mkListed { Name : bytes; Delimiter : Z; Attributes : list bytes }.

(** [SearchQuery]; the two dates are instants the adapter only passes on. *)
Record SearchQuery := mkQuery {
  qMailbox : bytes; qSince : Z; qBefore : Z; qSender : bytes; qSubject : bytes; qUnread : bool }.

Definition emptyQuery : SearchQuery := mkQuery [] 0 0 [] [] false.

Record messageIDPayload := mkPayload { pMailbox : bytes; pUIDValidity : Z; pUID : Z }.

(** [uidWindow.width], on uint32 ends. *)
Definition width (window : uidWindow) : Z :=
  if (Start window =? 0) || (End window <? Start window) then 0
  else End window - Start window + 1.

(** ** The interfaces *)

(** [W] is everything outside the adapter; [S] a session value, compared by
    identity; [C] a context.  Every operation may change the world, and the
    time that passes: two looks at one context may differ. *)
Class Backend (W S C : Type) := {
  session_eq : EqDecision S;
  (* contexts *)
  background : C;
  ctx_now : C -> W -> ctx * W;                    (* ctx.Err() and the deadline, now *)
  ctx_done_first : C -> W -> bool * W;            (* select: ctx.Done before the gate *)
  ctx_remaining : C -> W -> option Z * W;         (* time until the deadline, in ms *)
  ctx_with_timeout : C -> Z -> W -> C * W;
  ctx_cancel : C -> W -> W;
  (* adapter.factory *)
  factory : C -> W -> (S + goerror) * W;
  (* readSession *)
  op_list : C -> S -> Z -> W -> (list Folder + goerror) * W;
  op_status : C -> S -> bytes -> W -> (MailboxStatus + goerror) * W;
  op_examine : C -> S -> bytes -> W -> (mailboxSnapshot + goerror) * W;
  op_search : C -> S -> SearchQuery -> uidWindow -> Z -> W -> (list Z + goerror) * W;
  op_metadata : C -> S -> bytes -> list Z -> Z -> W -> (list MessageMetadata + goerror) * W;
  op_body : C -> S -> Z -> Z -> W -> (bytes + goerror) * W;
  op_logout : C -> S -> W -> option goerror * W;
  op_abort : S -> W -> W;
  (* session.(headerSession), session.(seenSession), session.(moveSession) *)
  as_headers : S -> bool;
  as_seen : S -> bool;
  as_move : S -> bool;
  op_headers : C -> S -> Z -> Z -> W -> (MessageHeaders + goerror) * W;
  op_select : C -> S -> bytes -> W -> (mailboxSnapshot + goerror) * W;
  op_store : C -> S -> Z -> bool -> W -> option goerror * W;
  op_supports_move : S -> W -> bool * W;
  op_list_mailboxes : C -> S -> bytes -> Z -> W -> (list listedMailbox + goerror) * W;
  op_move : C -> S -> Z -> bytes -> W -> option goerror * W }.

#[export] Existing Instance session_eq.

(** What reaches a session, with its answer where theorems need it. *)
Inductive event (S : Type) :=
| EvOpen (r : S + goerror)
| EvAbort (s : S)
| EvLogout (s : S)
| EvRead (s : S)
| EvExamine (s : S) (mailbox : bytes) (r : mailboxSnapshot + goerror)
| EvMetadata (s : S) (uids : list Z) (r : list MessageMetadata + goerror)
| EvSearch (s : S) (query : SearchQuery) (window : uidWindow) (r : list Z + goerror)
| EvSelect (s : S) (mailbox : bytes) (r : mailboxSnapshot + goerror)
| EvListing (s : S) (r : list listedMailbox + goerror)
| EvStore (s : S) (uid : Z) (seen : bool) (r : option goerror)
| EvMove (s : S) (uid : Z) (target : bytes) (r : option goerror)
| EvAttempt (s : S) (r : option goerror).
Arguments EvOpen {S}. Arguments EvAbort {S}. Arguments EvLogout {S}. Arguments EvRead {S}. Arguments EvExamine {S}. Arguments EvMetadata {S}.
Arguments EvSearch {S}. Arguments EvSelect {S}. Arguments EvListing {S}. Arguments EvStore {S}.
Arguments EvMove {S}. Arguments EvAttempt {S}.

(** ** The adapter's state and monad *)

(** The mutable fields of [Adapter], the world and the ghost log; [held] says
    that the one token of [gate] is taken. *)
Record st (W S : Type) := mkSt {
  session : option S; closed : bool; held : bool; world : W; log : list (bool * event S) }.
Arguments mkSt {W S}. Arguments session {W S}. Arguments closed {W S}. Arguments held {W S}.
Arguments world {W S}. Arguments log {W S}.

Definition M (W S A : Type) : Type := st W S -> A * st W S.

Definition ret {W S A} (a : A) : M W S A := fun s => (a, s).
Definition bind {W S A B} (m : M W S A) (k : A -> M W S B) : M W S B :=
  fun s => let '(a, s) := m s in k a s.

Notation "'let!' x := m 'in' k" := (bind m (fun x => k))
  (at level 10, x pattern, m at level 100, k at level 200) : go_scope.
Notation "m ;; k" := (bind m (fun _ => k)) (at level 100, k at level 200, right associativity) : go_scope.

(** A fallible step: [r, err := m; if err != nil { return err }]. *)
Definition try {W S A B} (m : M W S (A + goerror)) (k : A -> M W S (B + goerror)) : M W S (B + goerror) :=
  bind m (fun r => match r with inl a => k a | inr e => ret (inr e) end).
Notation "'try!' x := m 'in' k" := (try m (fun x => k))
  (at level 10, x pattern, m at level 100, k at level 200) : go_scope.

Definition fail {W S A} (c : code) : M W S (A + goerror) := ret (inr (errorCode c)).

Section Effects.
Context {W S C : Type} `{Backend W S C}.

Definition set_session (v : option S) : M W S unit := fun s =>
  (tt, mkSt v (closed s) (held s) (world s) (log s)).
Definition set_closed (v : bool) : M W S unit := fun s =>
  (tt, mkSt (session s) v (held s) (world s) (log s)).
Definition set_held (v : bool) : M W S unit := fun s =>
  (tt, mkSt (session s) (closed s) v (world s) (log s)).
Definition get_session : M W S (option S) := fun s => (session s, s).
Definition get_closed : M W S bool := fun s => (closed s, s).

(** A call that only the world sees. *)
Definition outside {A} (f : W -> A * W) : M W S A := fun s =>
  let '(a, w) := f (world s) in (a, mkSt (session s) (closed s) (held s) w (log s)).

(** A call to a session, logged with its answer. *)
Definition call {A} (f : W -> A * W) (ev : A -> event S) : M W S A := fun s =>
  let '(a, w) := f (world s) in
  (a, mkSt (session s) (closed s) (held s) w (log s ++ [(held s, ev a)])).

Definition note (ev : event S) : M W S unit := fun s =>
  (tt, mkSt (session s) (closed s) (held s) (world s) (log s ++ [(held s, ev)])).

(** [mapIMAPError(ctx, err)]. *)
Definition mapError (c : C) (err : goerror) : M W S goerror :=
  let! now := outside (ctx_now c) in
  ret (default err (mapIMAPError (Some now) (Some err))).

End Effects.

(** Inversion of a sequence. *)
Lemma bind_inv {W S A B} (m : M W S A) (k : A -> M W S B) s r s' :
  bind m k s = (r, s') -> exists a s1, m s = (a, s1) /\ k a s1 = (r, s').
Proof. unfold bind. destruct (m s) as [a s1]. eauto. Qed.

Lemma ret_inv {W S A} (a r : A) (s s' : st W S) : ret a s = (r, s') -> r = a /\ s' = s.
Proof. by intros [= <- <-]. Qed.
