(* ===== verification/Adapter.v ===== *)
(** * The adapter: one serialized session

    [bridge/bridge.go]: the gate, the retained session, the two-attempt
    [execute] with its single replay, [Close], and the read operations of
    [messages.go] and [folders.go] that run through it.  Waiting for the gate
    is the environment's: an operation starts in any state in which it
    received the token. *)
From Stdlib Require Import ZArith Lia Strings.Byte.
From stdpp Require Import base list gmap strings.
From S2P Require Import Prelude GoStrings Errors Config Session.

(** The verdict of [requireMessageUID] on the answer of its search. *)
Definition messageUIDPresent (uid : Z) (r : list Z + goerror) : unit + goerror :=
  match r with
  | inr err => if bool_decide (CodeOf err = Some CodeBoundsExceeded)
               then inr (errorCode CodeIMAPProtocol) else inr err
  | inl [] => inr (errorCode CodeStaleMessageID)
  | inl [u] => if u =? uid then inl tt else inr (errorCode CodeIMAPProtocol)
  | inl _ => inr (errorCode CodeIMAPProtocol)
  end.

Lemma messageUIDPresent_exact uid r : messageUIDPresent uid r = inl tt <-> r = inl [uid].
Proof.
  destruct r as [[|u [|? ?]]|e]; cbn; try done.
  - destruct (Z.eqb_spec u uid) as [->|]; [done|]. by split; [|intros [= ->]].
  - by case_bool_decide.
Qed.

Section Adapter.
Context {W S C : Type} `{B : Backend W S C}.
Variable config : ValidatedConfig.

(** ** Gate, contexts and the retained session *)

(** [acquire]: [None] once the token is taken, or the mapped context error. *)
Definition acquire (c : C) : M W S (option goerror) :=
  let! done := outside (ctx_done_first c) in
  if done : bool then
    let! now := outside (ctx_now c) in
    let err := match ctx_err now with
               | Some Canceled => [NCanceled]
               | _ => [NDeadlineExceeded]
               end in
    let! e := mapError c err in ret (Some e)
  else set_held true ;; ret None.

(** The deferred send back to the gate. *)
Definition release : M W S unit := set_held false.

Definition operationContext (c : C) : M W S C :=
  let timeout := CommandTimeoutMs (vIMAP config) in
  let! remaining := outside (ctx_remaining c) in
  let timeout := match remaining with
                 | Some r => if r <? timeout then r else timeout
                 | None => timeout
                 end in
  outside (ctx_with_timeout c timeout).

Definition cancel (c : C) : M W S unit := outside (fun w => (tt, ctx_cancel c w)).

Definition sessionForOperation (c : C) : M W S (S + goerror) :=
  let! cl := get_closed in
  if cl : bool then fail CodeAdapterClosed else
  let! current := get_session in
  match current with
  | Some s => ret (inl s)
  | None =>
      let! r := call (factory c) EvOpen in
      match r with
      | inr e => ret (inr e)
      | inl s => set_session (Some s) ;; ret (inl s)
      end
  end.

(** [canReplay]: the context is still live and the failure is the transport's. *)
Definition canReplay (c : C) (err : goerror) : M W S bool :=
  let! now := outside (ctx_now c) in
  ret (match ctx_err now with None => bool_decide (CodeOf err = Some CodeBridgeUnreachable) | Some _ => false end).

Definition invalidatesSession (err : goerror) : bool :=
  match CodeOf err with
  | Some CodeBridgeUnreachable | Some CodeCommandTimedOut | Some CodeOperationCanceled
  | Some CodeBoundsExceeded | Some CodeIMAPProtocol => true
  | _ => false
  end.

Definition abort_session (s : S) : M W S unit := call (fun w => (tt, op_abort s w)) (fun _ => EvAbort s).

Definition invalidate (s : S) : M W S unit :=
  let! current := get_session in
  if bool_decide (current = Some s) then abort_session s ;; set_session None else ret tt.

(** ** execute *)

(** [operation] returns its value and error; the attempt is logged. *)
Definition run {A} (operation : C -> S -> M W S (A + goerror)) (c : C) (s : S) : M W S (A + goerror) :=
  let! r := operation c s in
  note (EvAttempt s (match r with inl _ => None | inr e => Some e end)) ;; ret r.

(** The loop of [execute]; [attempts] is how many are left. *)
Fixpoint execute_loop {A} (operation : C -> S -> M W S (A + goerror)) (c : C) (attempts : nat)
  : M W S (A + goerror) :=
  match attempts with
  | O => fail CodeBridgeUnreachable
  | Datatypes.S more =>
      let! opened := sessionForOperation c in
      match opened with
      | inr err =>
          let! err := mapError c err in
          let! replay := (if (more =? 1)%nat then canReplay c err else ret false) in
          if replay : bool then execute_loop operation c more else ret (inr err)
      | inl s =>
          let! r := run operation c s in
          match r with
          | inl a => ret (inl a)
          | inr err =>
              let! replay := (if (more =? 1)%nat then canReplay c err else ret false) in
              if replay : bool then invalidate s ;; execute_loop operation c more
              else (if invalidatesSession err then invalidate s else ret tt) ;; ret (inr err)
          end
      end
  end.

Definition execute {A} (c : C) (operation : C -> S -> M W S (A + goerror)) : M W S (A + goerror) :=
  let! refused := acquire c in
  match refused with
  | Some e => ret (inr e)
  | None =>
      let! oc := operationContext c in
      let! r := execute_loop operation oc 2 in
      cancel oc ;; release ;; ret r
  end.

(** [Close], with the error it returns. *)
Definition Close : M W S (option goerror) :=
  let! refused := acquire background in
  match refused with
  | Some e => ret (Some e)
  | None =>
      let! cl := get_closed in
      if cl : bool then release ;; ret None else
      set_closed true ;;
      let! current := get_session in
      match current with
      | None => release ;; ret None
      | Some s =>
          let! oc := operationContext background in
          let! err := call (op_logout oc s) (fun _ => EvLogout s) in
          set_session None ;; cancel oc ;; release ;; ret err
      end
  end.

(** ** Read operations *)

Definition read {A} (f : W -> A * W) (s : S) : M W S A := call f (fun _ => EvRead s).

Definition examine (c : C) (s : S) (mailbox : bytes) : M W S (mailboxSnapshot + goerror) :=
  call (op_examine c s mailbox) (EvExamine s mailbox).

Definition fetchMetadata (c : C) (s : S) (mailbox : bytes) (uids : list Z) (headerLimit : Z)
  : M W S (list MessageMetadata + goerror) :=
  call (op_metadata c s mailbox uids headerLimit) (EvMetadata s uids).

Definition searchWindow (c : C) (s : S) (query : SearchQuery) (window : uidWindow) (limit : Z)
  : M W S (list Z + goerror) :=
  call (op_search c s query window limit) (EvSearch s query window).

(** [requireMessageUID]: [inl tt] when exactly this UID is present. *)
Definition requireMessageUID (c : C) (s : S) (uid : Z) : M W S (unit + goerror) :=
  let! r := searchWindow c s emptyQuery (mkWindow uid uid) 1 in
  ret (messageUIDPresent uid r).

(** The EXAMINE and generation check every message read starts with. *)
Definition confirmMessage (c : C) (s : S) (payload : messageIDPayload) : M W S (unit + goerror) :=
  try! snapshot := examine c s (pMailbox payload) in
  if negb (UIDValidity snapshot =? pUIDValidity payload) then fail CodeStaleMessageID
  else requireMessageUID c s (pUID payload).

Definition ListFolders (c : C) : M W S (list Folder + goerror) :=
  execute c (fun oc s =>
    try! result := read (op_list oc s (MaxFolderResults (vBounds config))) s in
    if MaxFolderResults (vBounds config) <? zlen result then fail CodeBoundsExceeded
    else ret (inl result)).

Definition Status (c : C) (mailbox : bytes) : M W S (MailboxStatus + goerror) :=
  if beqs mailbox [] then fail CodeMailboxNotFound
  else if maxMailboxNameBytes <? zlen mailbox then fail CodeBoundsExceeded
  else execute c (fun oc s => read (op_status oc s mailbox) s).

Section Identified.
(** [decodeMessageID] under the adapter's key. *)
Variable decodeMessageID : bytes -> messageIDPayload + goerror.

Definition GetMessageMetadata (c : C) (identifier : bytes) : M W S (MessageMetadata + goerror) :=
  match decodeMessageID identifier with
  | inr e => ret (inr e)
  | inl payload =>
      execute c (fun oc s =>
        try! _ := confirmMessage oc s payload in
        try! metadata := fetchMetadata oc s (pMailbox payload) [pUID payload] (MaxHeaderBytes (vBounds config)) in
        match metadata with
        | [m] =>
            if fetchedUID m =? pUID payload then
              ret (inl (m <| mID := identifier |> <| mMailbox := pMailbox payload |>
                          <| mUIDValidity := pUIDValidity payload |> <| mUID := pUID payload |>))
            else fail CodeStaleMessageID
        | _ => fail CodeStaleMessageID
        end)
  end.

Definition GetMessageBody (c : C) (identifier : bytes) : M W S (bytes + goerror) :=
  match decodeMessageID identifier with
  | inr e => ret (inr e)
  | inl payload =>
      execute c (fun oc s =>
        try! _ := confirmMessage oc s payload in
        read (op_body oc s (pUID payload) (MaxBodyBytes (vBounds config))) s)
  end.

Definition GetMessageHeaders (c : C) (identifier : bytes) : M W S (MessageHeaders + goerror) :=
  match decodeMessageID identifier with
  | inr e => ret (inr e)
  | inl payload =>
      execute c (fun oc s =>
        if negb (as_headers s) then fail CodeUnsupported else
        try! _ := confirmMessage oc s payload in
        try! record := read (op_headers oc s (pUID payload) (MaxHeaderBytes (vBounds config))) s in
        ret (inl (record <| mhMetadata := (mhMetadata record) <| mID := identifier |>
                    <| mMailbox := pMailbox payload |> <| mUIDValidity := pUIDValidity payload |>
                    <| mUID := pUID payload |> |>)))
  end.
End Identified.

End Adapter.
