(* ===== verification/MessageID.v ===== *)
(** * Message identifiers

    [encodeMessageID] and [decodeMessageID] of [bridge/search.go], with the
    parts of [encoding/json] and [encoding/base64] they use.  The keyed hash
    and the JSON decoder of the payload are parameters. *)
From Stdlib Require Import ZArith Lia Strings.Byte DecimalString.
From stdpp Require Import base list gmap strings.
From S2P Require Import Prelude GoStrings GoText Errors Session.

(** ** JSON output *)

(** Decimal digits of an integer. *)
Definition decimal (z : Z) : bytes := String.list_byte_of_string (NilZero.string_of_int (Z.to_int z)).

Definition hex_digit (n : Z) : byte := byte_of_Z (if n <? 10 then 48 + n else 87 + n).

(** The escape of one ASCII byte in a JSON string, with HTML escaping on. *)
Definition json_ascii (b : byte) : bytes :=
  let z := bZ b in
  if (b =b x5c) || (b =b x22) then [x5c; b]
  else if z =? 8 then $"\b" else if z =? 12 then $"\f" else if z =? 10 then $"\n"
  else if z =? 13 then $"\r" else if z =? 9 then $"\t"
  else if (z <? 32) || (b =b "<"%byte) || (b =b ">"%byte) || (b =b "&"%byte)
  then $"\u00" ++ [hex_digit (z / 16); hex_digit (z mod 16)]
  else [b].

(** The body of a JSON string; [skip] bytes were copied with the rune before. *)
Fixpoint json_body (skip : nat) (s : bytes) : bytes :=
  match s with
  | [] => []
  | b :: s' =>
      match skip with
      | S k => b :: json_body k s'
      | O =>
          if bZ b <? 128 then json_ascii b ++ json_body 0 s'
          else
            let (r, n) := decode_rune s in
            if (r =? RuneError) && (n =? 1)%nat then $"\ufffd" ++ json_body 0 s'
            else if (r =? 8232) || (r =? 8233)
            then $"\u202" ++ [hex_digit (r mod 16)] ++ drop (n - 1) (json_body (n - 1) s')
            else b :: json_body (n - 1) s'
      end
  end.

Definition json_string (s : bytes) : bytes := [x22] ++ json_body 0 s ++ [x22].
Definition json_key (name : bytes) : bytes := json_string name ++ $":".

(** [json.Marshal] of a [messageIDPayload]. *)
Definition marshalPayload (p : messageIDPayload) : bytes :=
  $"{" ++ json_key $"m" ++ json_string (pMailbox p) ++ $"," ++ json_key $"v" ++ decimal (pUIDValidity p)
  ++ $"," ++ json_key $"u" ++ decimal (pUID p) ++ $"}".

Definition DateSource_MarshalText (d : DateSource) : bytes :=
  match d with DateSourceHeader => $"header" | DateSourceUnknown => $"unknown" end.
Definition ReadState_MarshalText (r : ReadState) : bytes :=
  match r with ReadStateUnread => $"unread" | ReadStateRead => $"read" | ReadStateUnknown => $"unknown" end.

(** [json.Marshal] of a [MessageMetadata]. *)
Definition marshalMetadata (m : MessageMetadata) : bytes :=
  $"{" ++ json_key $"ID" ++ json_string (mID m) ++ $"," ++ json_key $"Mailbox" ++ json_string (mMailbox m)
  ++ $"," ++ json_key $"UIDValidity" ++ decimal (mUIDValidity m) ++ $"," ++ json_key $"UID" ++ decimal (mUID m)
  ++ $"," ++ json_key $"Subject" ++ json_string (mSubject m) ++ $"," ++ json_key $"Size" ++ decimal (mSize m)
  ++ $"," ++ json_key $"From" ++ json_string (mFrom m) ++ $"," ++ json_key $"Date" ++ json_string (mDate m)
  ++ $"," ++ json_key $"DateSource" ++ json_string (DateSource_MarshalText (mDateSource m))
  ++ $"," ++ json_key $"ReadState" ++ json_string (ReadState_MarshalText (mReadState m))
  ++ $"," ++ json_key $"MetadataTruncated" ++ (if mMetadataTruncated m then $"true" else $"false") ++ $"}".

(** ** Base64, URL alphabet, no padding *)

Definition base64_alphabet : bytes :=
  $"ABCDEFGHIJKLMNOPQRSTUVWXYZabcdefghijklmnopqrstuvwxyz0123456789-_".

Definition enc6 (n : Z) : byte := default x00 (base64_alphabet !! Z.to_nat n).

Definition dec6 (b : byte) : option Z :=
  match index_byte b base64_alphabet with Some i => Some (Z.of_nat i) | None => None end.

Fixpoint base64_encode (s : bytes) : bytes :=
  match s with
  | a :: b :: c :: rest =>
      let v := bZ a * 65536 + bZ b * 256 + bZ c in
      enc6 (v / 262144) :: enc6 (v / 4096 mod 64) :: enc6 (v / 64 mod 64) :: enc6 (v mod 64) :: base64_encode rest
  | [a; b] =>
      let v := bZ a * 65536 + bZ b * 256 in
      [enc6 (v / 262144); enc6 (v / 4096 mod 64); enc6 (v / 64 mod 64)]
  | [a] => let v := bZ a * 65536 in [enc6 (v / 262144); enc6 (v / 4096 mod 64)]
  | [] => []
  end.

(** Quanta of four characters; the last may have two or three.  Trailing bits
    are ignored, as the non-strict encoding does. *)
Fixpoint base64_quanta (s : bytes) : option bytes :=
  match s with
  | [] => Some []
  | [_] => None
  | [a; b] =>
      match dec6 a, dec6 b with
      | Some x, Some y => Some [byte_of_Z ((x * 64 + y) / 16)]
      | _, _ => None
      end
  | [a; b; c] =>
      match dec6 a, dec6 b, dec6 c with
      | Some x, Some y, Some z =>
          let v := (x * 4096 + y * 64 + z) / 4 in Some [byte_of_Z (v / 256); byte_of_Z (v mod 256)]
      | _, _, _ => None
      end
  | a :: b :: c :: d :: rest =>
      match dec6 a, dec6 b, dec6 c, dec6 d, base64_quanta rest with
      | Some x, Some y, Some z, Some w, Some r =>
          let v := x * 262144 + y * 4096 + z * 64 + w in
          Some (byte_of_Z (v / 65536) :: byte_of_Z (v / 256 mod 256) :: byte_of_Z (v mod 256) :: r)
      | _, _, _, _, _ => None
      end
  end.

(** [RawURLEncoding.DecodeString]: line breaks are skipped. *)
Definition base64_decode (s : bytes) : option bytes :=
  base64_quanta (filter (fun b => ~ (b = x0a \/ b = x0d)) s).

(** ** Identifiers *)

Definition maxMessageIDBytes : Z := 1024.
Definition maxMessageIDEncodedBytes : Z := 1366.

Section Identifier.
(** HMAC-SHA-256 under the adapter's key, and [json.Unmarshal] into a payload. *)
Variable mac : bytes -> bytes.
Variable unmarshalPayload : bytes -> option messageIDPayload.

Definition encodeMessageID (p : messageIDPayload) : bytes + goerror :=
  if beqs (pMailbox p) [] || (pUIDValidity p =? 0) || (pUID p =? 0) then inr (errorCode CodeIMAPProtocol)
  else
    let encoded := marshalPayload p in
    if maxMessageIDBytes <? zlen encoded + 32 then inr (errorCode CodeBoundsExceeded)
    else
      let value := base64_encode (encoded ++ mac encoded) in
      if maxMessageIDEncodedBytes <? zlen value then inr (errorCode CodeBoundsExceeded) else inl value.

Definition decodeMessageID (value : bytes) : messageIDPayload + goerror :=
  if maxMessageIDEncodedBytes <? zlen value then inr (errorCode CodeStaleMessageID)
  else match base64_decode value with
  | None => inr (errorCode CodeStaleMessageID)
  | Some decoded =>
      if (zlen decoded <=? 32) || (maxMessageIDBytes <? zlen decoded) then inr (errorCode CodeStaleMessageID)
      else
        let payloadBytes := take (length decoded - 32) decoded in
        if negb (beqs (drop (length payloadBytes) decoded) (mac payloadBytes))
        then inr (errorCode CodeStaleMessageID)
        else match unmarshalPayload payloadBytes with
        | None => inr (errorCode CodeStaleMessageID)
        | Some p =>
            if beqs (pMailbox p) [] || (pUIDValidity p =? 0) || (pUID p =? 0)
            then inr (errorCode CodeStaleMessageID) else inl p
        end
  end.
End Identifier.

(** ** Base64 round trip *)

Lemma byte_of_Z_bZ b : byte_of_Z (bZ b) = b.
Proof. unfold byte_of_Z, bZ. rewrite N2Z.id, Byte.of_to_N. done. Qed.

Lemma enc6_spec n : 0 <= n < 64 -> dec6 (enc6 n) = Some n /\ enc6 n <> x0a /\ enc6 n <> x0d.
Proof.
  intros H. assert (forallb (fun k => match dec6 (enc6 (Z.of_nat k)) with Some m => m =? Z.of_nat k | None => false end
    && negb (enc6 (Z.of_nat k) =b x0a) && negb (enc6 (Z.of_nat k) =b x0d)) (seq 0 64) = true) as Hall by (vm_compute; reflexivity).
  rewrite forallb_forall in Hall. specialize (Hall (Z.to_nat n)). rewrite Z2Nat.id in Hall by lia.
  destruct (dec6 (enc6 n)); [|exfalso; discriminate Hall; apply in_seq; lia].
  assert (In (Z.to_nat n) (seq 0 64)) as Hin by (apply in_seq; lia). specialize (Hall Hin).
  apply andb_prop in Hall as [Hall H2]. apply andb_prop in Hall as [H0 H1]. bool_prop.
  split; [by f_equal|]. split; by apply beq_neq.
Qed.

Lemma dec6_enc6 n : 0 <= n < 64 -> dec6 (enc6 n) = Some n.
Proof. intros H. by destruct (enc6_spec n H). Qed.

Lemma list_ind3 {A} (P : list A -> Prop) :
  P [] -> (forall a, P [a]) -> (forall a b, P [a; b]) -> (forall a b c l, P l -> P (a :: b :: c :: l)) -> forall l, P l.
Proof.
  intros H0 H1 H2 H3. assert (forall n l, (length l <= n)%nat -> P l) as H.
  { induction n as [|n IH]; intros [|a [|b [|c l]]] Hl; auto; cbn in Hl; try lia. apply H3, IH. lia. }
  intros l. by apply (H (length l)).
Qed.

Lemma base64_quanta_encode s : base64_quanta (base64_encode s) = Some s.
Proof.
  induction s as [|a|a b|a b c l IH] using list_ind3; [done|..]; pose proof (bZ_range a); try pose proof (bZ_range b);
    try pose proof (bZ_range c); cbn [base64_encode base64_quanta].
  - set (v := bZ a * 65536).
    assert (0 <= v / 262144 < 64) by (subst v; split; [apply Z.div_pos|apply Z.div_lt_upper_bound]; lia).
    assert (0 <= v / 4096 mod 64 < 64) by (apply Z.mod_pos_bound; lia).
    rewrite !dec6_enc6 by done. do 2 f_equal.
    rewrite <- (byte_of_Z_bZ a). f_equal. subst v. Z.to_euclidean_division_equations. lia.
  - set (v := bZ a * 65536 + bZ b * 256).
    assert (0 <= v / 262144 < 64) by (subst v; split; [apply Z.div_pos|apply Z.div_lt_upper_bound]; lia).
    assert (0 <= v / 4096 mod 64 < 64) by (apply Z.mod_pos_bound; lia).
    assert (0 <= v / 64 mod 64 < 64) by (apply Z.mod_pos_bound; lia).
    rewrite !dec6_enc6 by done. cbv zeta.
    assert ((v / 262144 * 4096 + v / 4096 mod 64 * 64 + v / 64 mod 64) / 4 = bZ a * 256 + bZ b) as ->
      by (subst v; Z.to_euclidean_division_equations; lia).
    do 2 f_equal; [|f_equal]; etransitivity; [|apply byte_of_Z_bZ| |apply byte_of_Z_bZ]; f_equal;
      Z.to_euclidean_division_equations; lia.
  - set (v := bZ a * 65536 + bZ b * 256 + bZ c).
    assert (0 <= v / 262144 < 64) by (subst v; split; [apply Z.div_pos|apply Z.div_lt_upper_bound]; lia).
    assert (0 <= v / 4096 mod 64 < 64) by (apply Z.mod_pos_bound; lia).
    assert (0 <= v / 64 mod 64 < 64) by (apply Z.mod_pos_bound; lia).
    assert (0 <= v mod 64 < 64) by (apply Z.mod_pos_bound; lia).
    rewrite !dec6_enc6 by done. rewrite IH. cbv zeta.
    assert (v / 262144 * 262144 + v / 4096 mod 64 * 4096 + v / 64 mod 64 * 64 + v mod 64 = v) as ->
      by (subst v; Z.to_euclidean_division_equations; lia).
    f_equal. f_equal; [|f_equal; [|f_equal]]; (etransitivity; [|apply byte_of_Z_bZ]); f_equal; subst v;
      Z.to_euclidean_division_equations; lia.
Qed.

Lemma enc6_lines n : 0 <= n < 64 -> ~ (enc6 n = x0a \/ enc6 n = x0d).
Proof. intros H [E|E]; destruct (enc6_spec n H) as (_ & ? & ?); done. Qed.

Lemma base64_no_lines s : Forall (fun b => ~ (b = x0a \/ b = x0d)) (base64_encode s).
Proof.
  induction s as [|a|a b|a b c l IH] using list_ind3; cbn [base64_encode]; [constructor|..];
    pose proof (bZ_range a); try pose proof (bZ_range b); try pose proof (bZ_range c);
    repeat (first [exact IH | constructor]);
    apply enc6_lines; first [by apply Z.mod_pos_bound | split; [apply Z.div_pos|apply Z.div_lt_upper_bound]; lia].
Qed.

Lemma base64_decode_encode s : base64_decode (base64_encode s) = Some s.
Proof.
  unfold base64_decode.
  assert (filter (fun b => ~ (b = x0a \/ b = x0d)) (base64_encode s) = base64_encode s) as ->.
  { pose proof (base64_no_lines s) as H. induction H as [|b l Hb _ IH]; [done|].
    rewrite filter_cons_True by done. by rewrite IH. }
  apply base64_quanta_encode.
Qed.

(** Four characters for three bytes, rounded up. *)
Lemma base64_length s : zlen (base64_encode s) = (4 * zlen s + 2) / 3.
Proof.
  induction s as [|a|a b|a b c l IH] using list_ind3; [done..|].
  cbn [base64_encode]. rewrite !zlen_cons, IH. Z.to_euclidean_division_equations. lia.
Qed.

(** ** The identifiers *)

(** What an identifier can name. *)
Definition nameable (p : messageIDPayload) : Prop :=
  pMailbox p <> [] /\ pUIDValidity p <> 0 /\ pUID p <> 0.

#[export] Instance nameable_dec p : Decision (nameable p).
Proof. unfold nameable. apply _. Defined.

Lemma nameable_spec p : beqs (pMailbox p) [] || (pUIDValidity p =? 0) || (pUID p =? 0) = false <-> nameable p.
Proof.
  unfold nameable. rewrite !orb_false_iff, !Z.eqb_neq. destruct (pMailbox p); cbn; intuition (congruence || done).
Qed.

(** An identifier is made for exactly the nameable messages whose payload
    fits 1024 bytes with its 32-byte hash; the check of the encoded length never
    refuses one that fits. *)
Theorem encode_exact mac p :
  zlen (mac (marshalPayload p)) = 32 ->
  encodeMessageID mac p =
    (if decide (nameable p) then
       if decide (zlen (marshalPayload p) + 32 <= 1024)
       then inl (base64_encode (marshalPayload p ++ mac (marshalPayload p)))
       else inr (errorCode CodeBoundsExceeded)
     else inr (errorCode CodeIMAPProtocol)).
Proof.
  intros Hmac. unfold encodeMessageID. destruct (_ || (pUID p =? 0)) eqn:Hn.
  { rewrite decide_False; [done|]. intros H. apply nameable_spec in H. congruence. }
  rewrite decide_True by (by apply nameable_spec). cbv zeta.
  unfold maxMessageIDBytes, maxMessageIDEncodedBytes.
  destruct (1024 <? _) eqn:Hl; bool_prop; [by rewrite decide_False by lia|]. rewrite decide_True by lia.
  rewrite base64_length, zlen_app, Hmac.
  destruct (1366 <? _) eqn:Hv; [bool_prop|done]. exfalso. revert Hv. Z.to_euclidean_division_equations. lia.
Qed.

(** An identifier the adapter made names the message it was made for. *)
Theorem identifier_roundtrip mac unmarshal p v :
  zlen (mac (marshalPayload p)) = 32 ->
  unmarshal (marshalPayload p) = Some p ->
  encodeMessageID mac p = inl v ->
  decodeMessageID mac unmarshal v = inl p.
Proof.
  intros Hmac Hjson. unfold encodeMessageID, decodeMessageID. destruct (_ || (pUID p =? 0)) eqn:Hn; [done|].
  cbv zeta. destruct (_ <? zlen (marshalPayload p) + 32) eqn:Hl; [done|].
  destruct (_ <? zlen (base64_encode _)) eqn:Hv; [done|]. intros Hinl.
  assert (v = base64_encode (marshalPayload p ++ mac (marshalPayload p))) as -> by congruence.
  rewrite Hv, base64_decode_encode. clear Hv Hinl.
  set (m := marshalPayload p) in *. rewrite zlen_app, Hmac.
  assert (1 <= zlen m) as H1 by (subst m; unfold marshalPayload; cbn [app]; autorewrite with croton; cbn; pose proof (zlen_nonneg (decimal (pUIDValidity p))); unfold zlen; cbn; lia).
  assert (zlen m + 32 <=? 32 = false) as -> by (apply Z.leb_gt; lia). rewrite Hl. cbn [orb].
  assert (take (length (m ++ mac m) - 32) (m ++ mac m) = m) as ->.
  { rewrite length_app. unfold zlen in Hmac. replace (length m + length (mac m) - 32)%nat with (length m) by lia.
    by rewrite take_app_length. }
  rewrite drop_app_length, beqs_refl. cbn [negb]. by rewrite Hjson, Hn.
Qed.

(** Every identifier that is accepted carries the keyed hash of its own
    payload, fits the bounds, and names a message. *)
Theorem identifier_authentic mac unmarshal v p :
  decodeMessageID mac unmarshal v = inl p ->
  exists payload hash,
    base64_decode v = Some (payload ++ hash) /\ hash = mac payload /\ zlen hash = 32 /\
    unmarshal payload = Some p /\ nameable p /\ payload <> [] /\ zlen payload <= 992 /\ zlen v <= 1366.
Proof.
  unfold decodeMessageID. intros H.
  destruct (_ <? zlen v) eqn:Hv; [done|]. destruct (base64_decode v) as [d|] eqn:Hd; [|done].
  destruct (_ || _) eqn:Hl in H; [done|]. bool_prop. cbv zeta in H.
  destruct (negb _) eqn:Hmac in H; [done|]. bool_prop. apply beqs_eq in Hmac.
  destruct (unmarshal _) as [p'|] eqn:Hu; [|done]. destruct (_ || (pUID p' =? 0)) eqn:Hn; [done|].
  injection H as ->. unfold maxMessageIDBytes, maxMessageIDEncodedBytes in *.
  assert (length (take (length d - 32) d) = (length d - 32)%nat) as Hlen by (rewrite length_take; lia).
  exists (take (length d - 32) d), (drop (length d - 32) d).
  rewrite take_drop, Hlen in *. unfold zlen in *. rewrite length_drop, Hlen.
  split_and!; [done|done|lia|done|by apply nameable_spec| |lia|lia].
  intros E. rewrite E in Hlen. cbn in Hlen. lia.
Qed.

(** A payload of the inbox, a constant hash and a decoder of that payload. *)
Definition wp := mkPayload $"INBOX" 7 42.
Definition wmac (_ : bytes) : bytes := replicate 32 x41.
Definition wunmarshal (_ : bytes) : option messageIDPayload := Some wp.

Lemma encode_exact_witness :
  encodeMessageID wmac wp = (if decide (nameable wp) then
       if decide (zlen (marshalPayload wp) + 32 <= 1024)
       then inl (base64_encode (marshalPayload wp ++ wmac (marshalPayload wp)))
       else inr (errorCode CodeBoundsExceeded)
     else inr (errorCode CodeIMAPProtocol)).
Proof. apply (encode_exact wmac wp). reflexivity. Defined.

Lemma identifier_roundtrip_witness :
  decodeMessageID wmac wunmarshal $"eyJtIjoiSU5CT1giLCJ2Ijo3LCJ1Ijo0Mn1BQUFBQUFBQUFBQUFBQUFBQUFBQUFBQUFBQUFBQUFBQQ" = inl wp.
Proof. apply (identifier_roundtrip wmac wunmarshal wp); [reflexivity|reflexivity|vm_compute; reflexivity]. Defined.

Lemma identifier_authentic_witness : exists payload hash,
    base64_decode $"eyJtIjoiSU5CT1giLCJ2Ijo3LCJ1Ijo0Mn1BQUFBQUFBQUFBQUFBQUFBQUFBQUFBQUFBQUFBQUFBQQ" = Some (payload ++ hash) /\
    hash = wmac payload /\ zlen hash = 32 /\
    wunmarshal payload = Some wp /\ nameable wp /\ payload <> [] /\ zlen payload <= 992 /\
    zlen $"eyJtIjoiSU5CT1giLCJ2Ijo3LCJ1Ijo0Mn1BQUFBQUFBQUFBQUFBQUFBQUFBQUFBQUFBQUFBQUFBQQ" <= 1366.
Proof. apply (identifier_authentic wmac wunmarshal). vm_compute. reflexivity. Defined.
