(* ===== verification/Search.v ===== *)
(** * Windowed search

    [SearchMailPage] and [selectHighestUIDs] of [bridge/search.go], with
    [validateFetchedMetadataUIDs] and [boundedSearchUIDs] of
    [bridge/imapclient.go]. *)
From Stdlib Require Import ZArith Lia Strings.Byte.
From stdpp Require Import base list gmap strings sorting.
From S2P Require Import Prelude GoStrings Errors Config Session Adapter MessageID.

Definition maxSearchWindows : nat := 8.
Definition searchWindowWidth : Z := 100.

Record SearchPage := mkPage { Messages : list MessageMetadata; Truncated : bool }.

(** ** Selection inside one window *)

(** Descending order, as [sort.Slice] with [>]. *)
Definition desc (a b : Z) : Prop := b <= a.
#[export] Instance desc_dec a b : Decision (desc a b) := Z.le_dec b a.
Definition descending (uids : list Z) : list Z := merge_sort desc uids.

(** The checks of one UID; [previous] is the one sorted before it. *)
Fixpoint checkSorted (window : uidWindow) (previous : option Z) (uids : list Z) : option goerror :=
  match uids with
  | [] => None
  | uid :: rest =>
      if uid =? 0 then Some (errorCode CodeIMAPProtocol)
      else if (uid <? Start window) || (End window <? uid) then Some (errorCode CodeBoundsExceeded)
      else if bool_decide (previous = Some uid) then Some (errorCode CodeIMAPProtocol)
      else checkSorted window (Some uid) rest
  end.

Definition selectHighestUIDs (uids : list Z) (window : uidWindow) (budget : Z) : list Z + goerror :=
  if width window <? zlen uids then inr (errorCode CodeBoundsExceeded)
  else
    let sorted := descending uids in
    match checkSorted window None sorted with
    | Some err => inr err
    | None => inl (if budget <? zlen sorted then take (Z.to_nat budget) sorted else sorted)
    end.

(** [boundedSearchUIDs] on the ranges of the decoded set, each [Start] at most
    [Stop]; [None] when the response carried no UID set. *)
Fixpoint addRange (uid : Z) (more : nat) (seen : gset Z) (results : list Z) : (gset Z * list Z) + goerror :=
  if bool_decide (uid ∈ seen) then inr (errorCode CodeIMAPProtocol)
  else
    let seen := {[uid]} ∪ seen in
    let results := results ++ [uid] in
    match more with
    | O => inl (seen, results)
    | Datatypes.S more => addRange (u32 (uid + 1)) more seen results
    end.

Fixpoint boundedRanges (ranges : list (Z * Z)) (window : uidWindow) (limit : Z) (seen : gset Z) (results : list Z)
  : list Z + goerror :=
  match ranges with
  | [] => inl results
  | (start, stop) :: rest =>
      if (start =? 0) || (stop =? 0) then inr (errorCode CodeIMAPProtocol)
      else if (start <? Start window) || (End window <? stop) then inr (errorCode CodeBoundsExceeded)
      else
        let count := u64 (u64 (stop - start) + 1) in
        if u64 (limit - zlen results) <? count then inr (errorCode CodeBoundsExceeded)
        else match addRange start (Z.to_nat (stop - start)) seen results with
             | inr err => inr err
             | inl (seen, results) => boundedRanges rest window limit seen results
             end
  end.

Definition boundedSearchUIDs (ranges : option (list (Z * Z))) (window : uidWindow) (limit : Z) : list Z + goerror :=
  match ranges with
  | None => inr (errorCode CodeIMAPProtocol)
  | Some ranges => boundedRanges ranges window limit ∅ []
  end.

(** [validateFetchedMetadataUIDs]: [None] when the results are exactly the
    requested UIDs, once each. *)
Fixpoint collectRequested (requested : list Z) (remaining : gset Z) : option (gset Z) :=
  match requested with
  | [] => Some remaining
  | uid :: rest =>
      if (uid =? 0) || bool_decide (uid ∈ remaining) then None
      else collectRequested rest ({[uid]} ∪ remaining)
  end.

Fixpoint removeFetched (results : list MessageMetadata) (remaining : gset Z) : option (gset Z) :=
  match results with
  | [] => Some remaining
  | result :: rest =>
      if bool_decide (fetchedUID result ∈ remaining) then removeFetched rest (remaining ∖ {[fetchedUID result]})
      else None
  end.

Definition validateFetchedMetadataUIDs (requested : list Z) (results : list MessageMetadata) : option goerror :=
  if negb (length results =? length requested)%nat then Some (errorCode CodeIMAPProtocol)
  else match collectRequested requested ∅ with
  | None => Some (errorCode CodeIMAPProtocol)
  | Some remaining =>
      match removeFetched results remaining with
      | None => Some (errorCode CodeIMAPProtocol)
      | Some unmatched => if bool_decide (unmatched = ∅) then None else Some (errorCode CodeIMAPProtocol)
      end
  end.

(** ** The search *)

Definition desc_metadata (a b : MessageMetadata) : Prop := fetchedUID b <= fetchedUID a.
#[export] Instance desc_metadata_dec a b : Decision (desc_metadata a b) := Z.le_dec _ _.

Section Search.
Context {W S C : Type} `{B : Backend W S C}.
Variable config : ValidatedConfig.
Variable mac : bytes -> bytes.

#[local] Abbreviation bounds := (vBounds config).

(** The loop that identifies the fetched messages and accounts for their
    JSON encoding. *)
Fixpoint emitItems (mailbox : bytes) (uidValidity : Z) (metadata results : list MessageMetadata) (outputBytes : Z)
  : (list MessageMetadata * Z) + goerror :=
  match metadata with
  | [] => inl (results, outputBytes)
  | item :: rest =>
      let payload := mkPayload mailbox uidValidity (fetchedUID item) in
      match encodeMessageID mac payload with
      | inr err => inr err
      | inl identifier =>
          let item := item <| mID := identifier |> <| mMailbox := pMailbox payload |>
                        <| mUIDValidity := pUIDValidity payload |> <| mUID := pUID payload |> in
          let encodedItem := marshalMetadata item in
          let separatorBytes := if 0 <? zlen results then 1 else 0 in
          if (MaxOutputBytes bounds <? outputBytes)
             || (MaxOutputBytes bounds - outputBytes <? zlen encodedItem + separatorBytes)
          then inr (errorCode CodeBoundsExceeded)
          else emitItems mailbox uidValidity rest (results ++ [item]) (outputBytes + (zlen encodedItem + separatorBytes))
      end
  end.

(** One window per step; [windows] is how many may still be searched. *)
Fixpoint searchWindows (windows : nat) (c : C) (s : S) (query : SearchQuery) (uidValidity remaining : Z)
    (results : list MessageMetadata) (outputBytes : Z) (omitted : bool) : M W S (SearchPage + goerror) :=
  let finish := ret (inl (mkPage results (omitted || (1 <? remaining)))) in
  match windows with
  | O => finish
  | Datatypes.S more =>
      if (1 <? remaining) && (zlen results <? MaxSearchResults bounds) then
        let start := if searchWindowWidth <? remaining then u32 (remaining - searchWindowWidth) else 1 in
        let window := mkWindow start (u32 (remaining - 1)) in
        try! uids := searchWindow c s query window (width window) in
        match selectHighestUIDs uids window (MaxSearchResults bounds - zlen results) with
        | inr err => ret (inr err)
        | inl selected =>
            let omitted := omitted || (zlen selected <? zlen uids) in
            try! metadata := fetchMetadata c s (qMailbox query) selected (MaxHeaderBytes bounds) in
            match validateFetchedMetadataUIDs selected metadata with
            | Some err => ret (inr err)
            | None =>
                match emitItems (qMailbox query) uidValidity (merge_sort desc_metadata metadata) results outputBytes with
                | inr err => ret (inr err)
                | inl (results, outputBytes) =>
                    searchWindows more c s query uidValidity start results outputBytes omitted
                end
            end
        end
      else finish
  end.

Definition searchOperation (query : SearchQuery) (oc : C) (s : S) : M W S (SearchPage + goerror) :=
  try! snapshot := examine oc s (qMailbox query) in
  searchWindows maxSearchWindows oc s query (UIDValidity snapshot) (UIDNext snapshot) [] 2 false.

Definition SearchMailPage (c : C) (query : SearchQuery) : M W S (SearchPage + goerror) :=
  if beqs (qMailbox query) [] then fail CodeMailboxNotFound
  else if (maxMailboxNameBytes <? zlen (qMailbox query)) || (maxSearchTermBytes <? zlen (qSender query))
          || (maxSearchTermBytes <? zlen (qSubject query)) || (MaxOutputBytes bounds <? 2)
  then fail CodeBoundsExceeded
  else execute config c (searchOperation query).

Definition SearchMail (c : C) (query : SearchQuery) : M W S (list MessageMetadata + goerror) :=
  try! page := SearchMailPage c query in ret (inl (Messages page)).
End Search.
