(* ===== verification/AdapterSpec.v ===== *)
(** * What the adapter promises

    The contract of [Adapter]: sessions are only used while the gate is held
    and the gate is always returned, an operation is attempted at most twice
    and replayed only after a transport failure, a session that can no longer
    be trusted is dropped, and read operations cannot write. *)
From Stdlib Require Import ZArith Lia Strings.Byte.
From stdpp Require Import base list gmap strings.
From S2P Require Import Prelude GoStrings Errors Config Session Adapter MessageID Search.

Section Spec.
Context {W S C : Type} `{B : Backend W S C}.
Variable config : ValidatedConfig.

(** ** Effects *)

(** From [s] to [s'] exactly the events [l], all under the same gate. *)
Record eff (s s' : st W S) (l : list (event S)) : Prop := {
  eff_held : held s' = held s;
  eff_closed : closed s' = closed s;
  eff_log : log s' = log s ++ map (pair (held s)) l }.

Lemma eff_refl s : eff s s [].
Proof. constructor; rewrite ?app_nil_r; done. Qed.
Lemma eff_trans s1 s2 s3 l1 l2 : eff s1 s2 l1 -> eff s2 s3 l2 -> eff s1 s3 (l1 ++ l2).
Proof.
  intros [Hh1 Hc1 Hl1] [Hh2 Hc2 Hl2].
  constructor; [congruence|congruence|]. rewrite Hl2, Hl1, Hh1, map_app, app_assoc. done.
Qed.
Lemma eff_nil s1 s2 s3 l : eff s1 s2 [] -> eff s2 s3 l -> eff s1 s3 l.
Proof. intros H1 H2. apply (eff_trans _ _ _ [] l H1 H2). Qed.

(** Events that only read. *)
Definition read_event (e : event S) : Prop :=
  match e with EvRead _ | EvExamine _ _ _ | EvMetadata _ _ _ | EvSearch _ _ _ _ | EvListing _ _ => True | _ => False end.

(** A step that keeps the adapter and only reads from its session. *)
Definition calm {A} (m : M W S A) : Prop :=
  forall s a s', m s = (a, s') -> session s' = session s /\ exists l, eff s s' l /\ Forall read_event l.

Lemma calm_ret {A} (a : A) : calm (ret a).
Proof. intros s b s' [= <- <-]. split; [done|]. exists []. split; [apply eff_refl|done]. Qed.

Lemma calm_bind {A D} (m : M W S A) (k : A -> M W S D) : calm m -> (forall a, calm (k a)) -> calm (bind m k).
Proof.
  intros Hm Hk s d s' H. unfold bind in H. destruct (m s) as [a s1] eqn:E.
  apply Hm in E as (Hs1 & l1 & He1 & Hl1). apply Hk in H as (Hs2 & l2 & He2 & Hl2).
  split; [congruence|]. exists (l1 ++ l2). split; [by eapply eff_trans|by apply Forall_app].
Qed.

Lemma calm_try {A D} (m : M W S (A + goerror)) (k : A -> M W S (D + goerror)) :
  calm m -> (forall a, calm (k a)) -> calm (try m k).
Proof. intros Hm Hk. apply calm_bind; [done|]. intros [a|e]; [apply Hk|apply calm_ret]. Qed.

Lemma outside_eff {A} (f : W -> A * W) s a s' :
  outside f s = (a, s') -> session s' = session s /\ eff s s' [].
Proof.
  unfold outside. destruct (f (world s)) as [b w]. intros [= <- <-]. split; [done|].
  constructor; rewrite ?app_nil_r; done.
Qed.

Lemma calm_outside {A} (f : W -> A * W) : calm (outside f).
Proof. intros s a s' [? ?]%outside_eff. split; [done|]. by exists []. Qed.

Lemma call_eff {A} (f : W -> A * W) ev s a s' :
  call f ev s = (a, s') -> session s' = session s /\ eff s s' [ev a].
Proof. unfold call. destruct (f (world s)) as [b w]. intros [= <- <-]. by split. Qed.

Lemma calm_call {A} (f : W -> A * W) ev : (forall a, read_event (ev a)) -> calm (call f ev).
Proof.
  intros Hev s a s' [? ?]%call_eff. split; [done|]. exists [ev a]. split; [done|].
  by apply Forall_singleton.
Qed.

Lemma mapError_eff (c : C) err s e s' :
  mapError c err s = (e, s') -> session s' = session s /\ eff s s' [] /\ exists d, e = errorCode d.
Proof.
  unfold mapError, bind, ret. destruct (outside _ s) as [now s1] eqn:E. intros [= <- <-].
  apply outside_eff in E as [? ?]. split; [done|split; [done|]].
  destruct (mapIMAPError_Some (Some now) err) as [d ->]. by exists d.
Qed.

Lemma requireMessageUID_calm c s uid : calm (requireMessageUID c s uid).
Proof. apply calm_bind; [by apply calm_call|]. intros r. apply calm_ret. Qed.

Lemma read_calm {A} (f : W -> A * W) s : calm (read f s).
Proof. by apply calm_call. Qed.

Lemma examine_calm c s mailbox : calm (examine c s mailbox).
Proof. by apply calm_call. Qed.

Lemma fetchMetadata_calm c s mailbox uids limit : calm (fetchMetadata c s mailbox uids limit).
Proof. by apply calm_call. Qed.

Lemma searchWindow_calm c s query window limit : calm (searchWindow c s query window limit).
Proof. by apply calm_call. Qed.

Lemma confirmMessage_calm c s payload : calm (confirmMessage c s payload).
Proof.
  apply calm_try; [apply examine_calm|]. intros snapshot.
  destruct (negb _); [apply calm_ret|apply requireMessageUID_calm].
Qed.
Hint Resolve calm_ret read_calm confirmMessage_calm requireMessageUID_calm : croton.

(** ** One attempt *)

Definition attempts (l : list (event S)) : list (S * option goerror) :=
  omap (fun e => match e with EvAttempt s r => Some (s, r) | _ => None end) l.

Lemma attempts_app l1 l2 : attempts (l1 ++ l2) = attempts l1 ++ attempts l2.
Proof. apply omap_app. Qed.

Lemma attempts_read l : Forall read_event l -> attempts l = [].
Proof. induction 1 as [|e l He _ IH]; [done|]. cbn. by destruct e. Qed.

Definition failure {A} (r : A + goerror) : option goerror :=
  match r with inl _ => None | inr e => Some e end.

Lemma run_eff {A} (operation : C -> S -> M W S (A + goerror)) c x s r s' :
  calm (operation c x) -> run operation c x s = (r, s') ->
  session s' = session s /\ exists l, eff s s' l /\ attempts l = [(x, failure r)]
    /\ Forall (fun e => read_event e \/ exists y z, e = EvAttempt y z) l.
Proof.
  intros Hcalm. unfold run, bind, ret, note. destruct (operation c x s) as [r1 s1] eqn:E.
  intros [= <- <-]. apply Hcalm in E as (Hs & l & He & Hl). split; [done|].
  exists (l ++ [EvAttempt x (failure r1)]). split; [|split].
  - eapply eff_trans; [done|]. by constructor.
  - by rewrite attempts_app, (attempts_read l Hl).
  - apply Forall_app. split; [eapply Forall_impl; [exact Hl|]; auto|].
    apply Forall_singleton. eauto.
Qed.

Lemma sessionForOperation_eff c s r s' :
  sessionForOperation c s = (r, s') ->
  (closed s = true /\ r = inr (errorCode CodeAdapterClosed) /\ s' = s)
  \/ (closed s = false /\ ((exists x, session s = Some x /\ r = inl x /\ s' = s)
      \/ (session s = None /\ eff s s' [EvOpen r] /\ session s' = match r with inl x => Some x | inr _ => None end))).
Proof.
  unfold sessionForOperation, bind, get_closed, get_session, fail, ret.
  destruct (closed s) eqn:Hc; [intros [= <- <-]; by left|].
  intros H. right. split; [done|]. destruct (session s) as [x|] eqn:Hs.
  - injection H as <- <-. left. by exists x.
  - right. destruct (call (factory c) EvOpen s) as [o s1] eqn:E. apply call_eff in E as [E1 E2].
    destruct o as [x|e]; injection H as <- <-; (split; [done|split; [|cbn; congruence]]); [|done].
    destruct E2. by constructor.
Qed.

Lemma invalidate_eff (x : S) s s' :
  invalidate x s = (tt, s') ->
  (session s = Some x /\ eff s s' [EvAbort x] /\ session s' = None) \/ (session s <> Some x /\ s' = s).
Proof.
  unfold invalidate, bind, get_session, ret, abort_session, set_session. case_bool_decide as Hs.
  - destruct (call _ _ s) as [u s1] eqn:E. apply call_eff in E as [E1 []]. intros [= <-]. left.
    split; [done|]. by split.
  - intros [= <-]. by right.
Qed.

Lemma canReplay_eff (c : C) err s b s' :
  canReplay c err s = (b, s') ->
  session s' = session s /\ eff s s' [] /\ (b = true -> CodeOf err = Some CodeBridgeUnreachable).
Proof.
  unfold canReplay, bind, ret. destruct (outside _ s) as [now s1] eqn:E. intros [= <- <-].
  apply outside_eff in E as [? ?]. split; [done|split; [done|]].
  destruct (ctx_err now); [done|]. by intros ?%bool_decide_eq_true.
Qed.

(** ** The loop of execute *)

Definition not_write (e : event S) : Prop :=
  match e with EvStore _ _ _ _ | EvMove _ _ _ _ | EvSelect _ _ _ | EvLogout _ => False | _ => True end.

(** What a run of the loop did: its attempts, its events and what it left of
    the session. *)
Record looped {A} (n : nat) (s : st W S) (r : A + goerror) (s' : st W S) (l : list (event S)) : Prop := {
  lp_eff : eff s s' l;
  lp_count : (length (attempts l) <= n)%nat;
  lp_replay : forall x res rest, attempts l = (x, res) :: rest -> rest <> [] ->
                exists e, res = Some e /\ CodeOf e = Some CodeBridgeUnreachable;
  lp_result : forall a, r = inl a -> exists x, last (attempts l) = Some (x, None) /\ session s' = Some x;
  lp_dropped : forall x e, last (attempts l) = Some (x, Some e) -> invalidatesSession e = true -> session s' = None;
  lp_idle : attempts l = [] -> session s' = session s;
  lp_events : Forall not_write l;
  lp_closed : closed s = true -> l = [] }.

Lemma run_not_write l : Forall (fun e => read_event e \/ exists y z, e = @EvAttempt S y z) l -> Forall not_write l.
Proof. intros H. eapply Forall_impl; [exact H|]. intros e [He|(y & z & ->)]; [by destruct e|done]. Qed.

(** A prefix of the loop that made no attempt. *)
Lemma looped_before {A} n s s1 s' (r : A + goerror) l0 l :
  eff s s1 l0 -> attempts l0 = [] -> Forall not_write l0 -> session s1 = session s ->
  (closed s = true -> l0 = []) -> looped n s1 r s' l -> looped (Datatypes.S n) s r s' (l0 ++ l).
Proof.
  intros He0 Ha0 Hw0 Hs1 Hc0 [He Hn Hr Hres Hd Hi Hw Hc].
  assert (attempts (l0 ++ l) = attempts l) as Ha by (by rewrite attempts_app, Ha0).
  constructor; rewrite ?Ha; try done.
  - by eapply eff_trans.
  - lia.
  - intros E. rewrite Hi by done. done.
  - by apply Forall_app.
  - intros Hcl. rewrite (Hc0 Hcl), Hc; [done|]. by rewrite (eff_closed _ _ _ He0).
Qed.

(** The loop ends without an attempt. *)
Lemma looped_none {A} n s s' (e : goerror) l :
  eff s s' l -> attempts l = [] -> Forall not_write l -> session s' = session s ->
  (closed s = true -> l = []) -> looped n s (@inr A _ e) s' l.
Proof. intros He Ha Hw Hs Hc. constructor; rewrite ?Ha; try done. cbn. lia. Qed.

(** One attempt that ends the loop. *)
Lemma looped_last {A} n s s' (r : A + goerror) x l :
  eff s s' l -> attempts l = [(x, failure r)] -> Forall not_write l -> closed s = false ->
  (forall a, r = inl a -> session s' = Some x) ->
  (forall e, r = inr e -> invalidatesSession e = true -> session s' = None) ->
  looped (Datatypes.S n) s r s' l.
Proof.
  intros He Ha Hw Hc Hok Hd. constructor; rewrite ?Ha; try done.
  - cbn. lia.
  - by intros y res rest [= <- <- <-].
  - intros a ->. exists x. split; [done|eauto].
  - intros y e. cbn. destruct r; intros [= <- <-]. eauto.
  - congruence.
Qed.

(** A failed attempt, the session dropped, then the rest of the loop. *)
Lemma looped_replayed {A} n s s1 s' (r : A + goerror) x e l0 l :
  eff s s1 l0 -> attempts l0 = [(x, Some e)] -> Forall not_write l0 -> closed s = false ->
  session s1 = None -> CodeOf e = Some CodeBridgeUnreachable ->
  looped n s1 r s' l -> looped (Datatypes.S n) s r s' (l0 ++ l).
Proof.
  intros He0 Ha0 Hw0 Hc0 Hs1 Hcode [He Hn Hr Hres Hd Hi Hw Hc].
  assert (attempts (l0 ++ l) = (x, Some e) :: attempts l) as Ha by (by rewrite attempts_app, Ha0).
  constructor; rewrite ?Ha.
  - by eapply eff_trans.
  - cbn. lia.
  - intros y res rest [= <- <- <-] _. by exists e.
  - intros b Hb. destruct (Hres b Hb) as (y & Hy & Hy'). exists y. split; [|done].
    destruct (attempts l); [done|exact Hy].
  - intros y e' Hlast Hinv. destruct (attempts l) as [|p rest] eqn:El; [rewrite Hi by done; done|].
    by apply (Hd y e').
  - done.
  - by apply Forall_app.
  - congruence.
Qed.

Lemma replay_eff (c : C) err n s b s' :
  (if (n =? 1)%nat then canReplay c err else ret false) s = (b, s') ->
  session s' = session s /\ eff s s' [] /\ (b = true -> CodeOf err = Some CodeBridgeUnreachable).
Proof.
  destruct (n =? 1)%nat; [apply canReplay_eff|]. intros [= <- <-]. split; [done|split; [apply eff_refl|done]].
Qed.

Lemma loop_spec {A} (operation : C -> S -> M W S (A + goerror)) c n s r s' :
  (forall x, calm (operation c x)) -> execute_loop operation c n s = (r, s') ->
  exists l, looped n s r s' l.
Proof.
  intros Hcalm. revert s. induction n as [|n IH]; intros s; cbn [execute_loop].
  { intros [= <- <-]. exists []. apply looped_none; try done. apply eff_refl. }
  unfold bind at 1. destruct (sessionForOperation c s) as [[x|err] s1] eqn:Hopen;
    apply sessionForOperation_eff in Hopen.
  - assert (closed s = false /\ session s1 = Some x /\ exists l1, eff s s1 l1 /\ attempts l1 = [] /\ Forall not_write l1)
      as (Hcl & Hsess & l1 & He1 & Ha1 & Hw1).
    { destruct Hopen as [(_ & ? & _)|[? [(y & ? & [= ->] & ->)|(? & ? & ?)]]]; [done| |];
        (split; [done|split; [done|]]); [exists []|eexists]; (split; [first [apply eff_refl|done]|]); (split; [done|]);
        [constructor|by repeat constructor]. }
    unfold bind at 1. destruct (run operation c x s1) as [r1 s2] eqn:Hrun.
    apply run_eff in Hrun as (Hs2 & l2 & He2 & Ha2 & Hw2); [|done]. apply run_not_write in Hw2.
    pose proof (eff_trans _ _ _ _ _ He1 He2) as He.
    assert (attempts (l1 ++ l2) = [(x, failure r1)]) as Ha by (by rewrite attempts_app, Ha1, Ha2).
    assert (Forall not_write (l1 ++ l2)) as Hw by (by apply Forall_app).
    destruct r1 as [a|err].
    { intros [= <- <-]. exists (l1 ++ l2). apply looped_last with x; try done; intros; congruence. }
    unfold bind at 1. match goal with |- context [(if (n =? 1)%nat then ?f else ?g) s2] =>
      destruct ((if (n =? 1)%nat then f else g) s2) as [replay s3] eqn:Hrep end.
    apply replay_eff in Hrep as (Hs3 & He3 & Hcode).
    pose proof (eff_trans _ _ _ _ _ He He3) as He'. rewrite app_nil_r in He'.
    destruct replay; unfold bind at 1.
    + destruct (invalidate x s3) as [[] s4] eqn:Hinv.
      apply invalidate_eff in Hinv as [(_ & He4 & Hs4)|[Hne _]]; [|congruence].
      intros Hloop. apply IH in Hloop as [l Hl]. exists (((l1 ++ l2) ++ [EvAbort x]) ++ l).
      eapply looped_replayed; [by eapply eff_trans| | |done|exact Hs4|by apply Hcode|done].
      * by rewrite attempts_app, Ha.
      * apply Forall_app. split; [done|]. by repeat constructor.
    + destruct (invalidatesSession err) eqn:Hi.
      * destruct (invalidate x s3) as [[] s4] eqn:Hinv.
        apply invalidate_eff in Hinv as [(_ & He4 & Hs4)|[Hne _]]; [|congruence].
        intros [= <- <-]. exists ((l1 ++ l2) ++ [EvAbort x]). apply looped_last with x; try done.
        -- by eapply eff_trans.
        -- by rewrite attempts_app, Ha.
        -- apply Forall_app. split; [done|]. by repeat constructor.
      * intros [= <- <-]. exists (l1 ++ l2). apply looped_last with x; try done. intros; congruence.
  - assert (exists l0, eff s s1 l0 /\ attempts l0 = [] /\ Forall not_write l0 /\ session s1 = session s
      /\ (closed s = true -> l0 = [])) as (l0 & He0 & Ha0 & Hw0 & Hs0 & Hc0).
    { destruct Hopen as [(? & _ & ->)|[? [(y & _ & ? & _)|(? & ? & ?)]]]; [|done|].
      - exists []. split; [apply eff_refl|done].
      - exists [EvOpen (inr err)]. split; [done|]. split; [done|]. split; [by repeat constructor|].
        split; congruence. }
    unfold bind at 1. destruct (mapError c err s1) as [err' s2] eqn:Hmap.
    apply mapError_eff in Hmap as (Hs2 & He2 & _). pose proof (eff_trans _ _ _ _ _ He0 He2) as He'.
    unfold bind at 1. match goal with |- context [(if (n =? 1)%nat then ?f else ?g) s2] =>
      destruct ((if (n =? 1)%nat then f else g) s2) as [replay s3] eqn:Hrep end.
    apply replay_eff in Hrep as (Hs3 & He3 & _).
    pose proof (eff_trans _ _ _ _ _ He' He3) as He''. rewrite !app_nil_r in He''.
    destruct replay.
    + intros Hloop. apply IH in Hloop as [l Hl]. exists (l0 ++ l). eapply looped_before; [exact He''|..]; try done. congruence.
    + intros [= <- <-]. exists l0. apply looped_none; try done. congruence.
Qed.

(** ** execute *)

Lemma acquire_spec c s e s' :
  acquire c s = (e, s') ->
  session s' = session s /\ closed s' = closed s /\ log s' = log s
  /\ match e with None => held s' = true | Some _ => held s' = held s end.
Proof.
  unfold acquire, bind, ret, set_held. destruct (outside _ s) as [done s1] eqn:E1.
  apply outside_eff in E1 as [Hs1 [Hh1 Hc1 Hl1]]. rewrite app_nil_r in Hl1. destruct done.
  - destruct (outside _ s1) as [now s2] eqn:E2. apply outside_eff in E2 as [Hs2 [Hh2 Hc2 Hl2]].
    rewrite app_nil_r in Hl2. destruct (mapError _ _ s2) as [e' s3] eqn:E3.
    apply mapError_eff in E3 as (Hs3 & [Hh3 Hc3 Hl3] & _). rewrite app_nil_r in Hl3.
    intros [= <- <-]. repeat split; congruence.
  - intros [= <- <-]. done.
Qed.

Lemma operationContext_eff c s oc s' :
  operationContext config c s = (oc, s') -> session s' = session s /\ eff s s' [].
Proof.
  unfold operationContext, bind. destruct (outside _ s) as [rem s1] eqn:E1.
  apply outside_eff in E1 as [Hs1 He1]. intros [Hs2 He2]%outside_eff.
  split; [congruence|]. by eapply eff_nil.
Qed.

(** The gate is taken, [l] happens, the gate is returned. *)
Record gated (s s' : st W S) (l : list (event S)) : Prop := {
  g_held : held s = false -> held s' = false;
  g_closed : closed s' = closed s;
  g_log : log s' = log s ++ map (pair true) l }.

Lemma execute_spec {A} (operation : C -> S -> M W S (A + goerror)) c s r s' :
  (forall oc x, calm (operation oc x)) -> execute config c operation s = (r, s') ->
  exists l, gated s s' l
    /\ (attempts l = [] \/ exists s0 s1 n, looped n s0 r s1 l /\ session s0 = session s /\ session s1 = session s'
          /\ (n <= 2)%nat)
    /\ (l = [] \/ closed s = false) /\ (attempts l = [] -> exists e, r = inr e)
    /\ Forall not_write l.
Proof.
  intros Hcalm. unfold execute. unfold bind at 1. destruct (acquire c s) as [e s1] eqn:Hacq.
  apply acquire_spec in Hacq as (Hs1 & Hc1 & Hl1 & Hh1). destruct e as [e|].
  { intros [= <- <-]. exists []. split; [|eauto 10].
    constructor; [congruence|done|]. by rewrite app_nil_r. }
  unfold bind at 1. destruct (operationContext config c s1) as [oc s2] eqn:Hoc.
  apply operationContext_eff in Hoc as [Hs2 He2].
  unfold bind at 1. destruct (execute_loop operation oc 2 s2) as [r1 s3] eqn:Hloop.
  unfold bind at 1. destruct (cancel oc s3) as [u s4] eqn:Hcan.
  unfold cancel in Hcan. apply outside_eff in Hcan as [Hs4 He4]. unfold release, set_held, bind, ret. intros [= <- <-].
  apply loop_spec in Hloop as [l Hl]; [|apply Hcalm]. pose proof Hl as [He Hn Hr Hres Hd Hi Hw Hc].
  pose proof (eff_trans _ _ _ _ _ (eff_nil _ _ _ _ He2 He) He4) as [Eh Ec El]. rewrite app_nil_r in El.
  exists l. split; [|split; [|split; [|split]]].
  - constructor; cbn; [done|congruence|]. rewrite El, Hl1, Hh1. done.
  - right. exists s2, s3, 2%nat. cbn. split; [done|]. split; [congruence|]. split; [congruence|lia].
  - destruct (closed s) eqn:E; [left|by right]. apply Hc. rewrite (eff_closed _ _ _ He2). congruence.
  - intros Ha. destruct r1 as [a|e]; [|eauto]. destruct (Hres a eq_refl) as (x & Hx & _). by rewrite Ha in Hx.
  - done.
Qed.

(** A success is what the last attempt returned, and its events end the log. *)
Lemma loop_success {A} (operation : C -> S -> M W S (A + goerror)) c n s a s' :
  execute_loop operation c n s = (inl a, s') ->
  exists x s1 s2, operation c x s1 = (inl a, s2) /\ log s' = log s2 ++ [(held s2, EvAttempt x None)].
Proof.
  revert s. induction n as [|n IH]; intros s; cbn [execute_loop]; [done|].
  intros (opened & s1 & Ho & H)%bind_inv. destruct opened as [x|err].
  - apply bind_inv in H as (r & s2 & Hrun & H). apply bind_inv in Hrun as (r1 & s3 & Hop & Hrun).
    apply bind_inv in Hrun as (u & s4 & [= <- <-] & [= <- <-]). destruct r1 as [b|err].
    + injection H as <- <-. by exists x, s1, s3.
    + apply bind_inv in H as (b & s5 & _ & H). destruct b.
      * apply bind_inv in H as (u & s6 & _ & H). by apply (IH s6).
      * apply bind_inv in H as (u & s6 & _ & [=]).
  - apply bind_inv in H as (e & s2 & _ & H). apply bind_inv in H as (b & s5 & _ & H).
    destruct b; [by apply (IH s5)|done].
Qed.

Lemma execute_success {A} (operation : C -> S -> M W S (A + goerror)) c s a s' :
  execute config c operation s = (inl a, s') ->
  exists oc x s1 s2, operation oc x s1 = (inl a, s2) /\ log s' = log s2 ++ [(held s2, EvAttempt x None)].
Proof.
  intros (e & s1 & _ & H)%bind_inv. destruct e; [done|].
  apply bind_inv in H as (oc & s2 & _ & H). apply bind_inv in H as (r & s3 & Hl & H).
  apply bind_inv in H as (u & s4 & Hc & H). unfold cancel in Hc. apply outside_eff in Hc.
  apply bind_inv in H as (u2 & s5 & Hr & [= -> <-]).
  apply loop_success in Hl as (x & s6 & s7 & Hop & Hlog). exists oc, x, s6, s7. split; [done|].
  destruct Hc as [_ [_ _ Hc]]. rewrite app_nil_r in Hc. injection Hr as _ <-. cbn. congruence.
Qed.

(** The adapter serializes: every event of an operation happens with the
    gate held, the gate is always returned, and a closed adapter touches no
    session and fails. *)
Theorem execute_serialized {A} (operation : C -> S -> M W S (A + goerror)) c s r s' :
  (forall oc x, calm (operation oc x)) -> held s = false -> execute config c operation s = (r, s') ->
  held s' = false /\ closed s' = closed s
  /\ exists l, log s' = log s ++ map (pair true) l /\ (closed s = true -> l = [] /\ exists e, r = inr e).
Proof.
  intros Hcalm Hh H. apply execute_spec in H as (l & [G1 G2 G3] & _ & Hcl & Hr & _); [|done].
  split; [by apply G1|split; [done|]]. exists l. split; [done|]. intros Hc.
  destruct Hcl as [->|?]; [|congruence]. split; [done|]. by apply Hr.
Qed.

(** An operation is attempted at most twice; the second attempt follows
    only a transport failure of the first, and a success is the result of the
    last attempt on the session that is retained. *)
Theorem execute_replay {A} (operation : C -> S -> M W S (A + goerror)) c s r s' :
  (forall oc x, calm (operation oc x)) -> execute config c operation s = (r, s') ->
  exists l, log s' = log s ++ map (pair true) l
    /\ (length (attempts l) <= 2)%nat
    /\ (forall x res rest, attempts l = (x, res) :: rest -> rest <> [] ->
          exists e, res = Some e /\ CodeOf e = Some CodeBridgeUnreachable)
    /\ (forall a, r = inl a -> exists x, last (attempts l) = Some (x, None) /\ session s' = Some x).
Proof.
  intros Hcalm H. apply execute_spec in H as (l & [_ _ Hlog] & Hor & _ & Hr & _); [|done].
  exists l. split; [done|]. destruct Hor as [Ha|(s0 & s1 & n & [] & Hs0 & Hs1 & Hn)].
  - rewrite Ha. split; [cbn; lia|]. split; [done|]. intros a ->. by destruct (Hr Ha).
  - split; [lia|]. split; [done|]. intros a Hra. destruct (lp_result0 a Hra) as (x & ? & ?). exists x.
    split; [done|congruence].
Qed.

(** A session is not retained after a failure that makes it
    untrustworthy: transport, timeout, cancellation, bounds or protocol. *)
Theorem execute_drops {A} (operation : C -> S -> M W S (A + goerror)) c s r s' :
  (forall oc x, calm (operation oc x)) -> execute config c operation s = (r, s') ->
  exists l, log s' = log s ++ map (pair true) l
    /\ forall x e, last (attempts l) = Some (x, Some e) ->
         (exists d, CodeOf e = Some d /\ d ∈ [CodeBridgeUnreachable; CodeCommandTimedOut; CodeOperationCanceled;
                                             CodeBoundsExceeded; CodeIMAPProtocol]) ->
         session s' = None.
Proof.
  intros Hcalm H. apply execute_spec in H as (l & [_ _ Hlog] & Hor & _ & _ & _); [|done].
  exists l. split; [done|]. intros x e Hlast (d & Hd & Hin).
  destruct Hor as [Ha|(s0 & s1 & n & [] & Hs0 & Hs1 & Hn)]; [by rewrite Ha in Hlast|].
  rewrite <- Hs1. apply (lp_dropped0 x e Hlast). unfold invalidatesSession. rewrite Hd.
  repeat (apply elem_of_cons in Hin as [->|Hin]; [done|]). by apply elem_of_nil in Hin.
Qed.

(** ** The read operations *)

Lemma ListFolders_calm oc x :
  calm (try! result := read (op_list oc x (MaxFolderResults (vBounds config))) x in
        if MaxFolderResults (vBounds config) <? zlen result then fail CodeBoundsExceeded else ret (inl result)).
Proof. apply calm_try; [apply read_calm|]. intros result. destruct (_ <? _); apply calm_ret. Qed.

(** The operations of the read surface. *)
Inductive read_operation : st W S -> st W S -> Prop :=
| reads_folders c s r s' : ListFolders config c s = (r, s') -> read_operation s s'
| reads_status c mailbox s r s' : Status config c mailbox s = (r, s') -> read_operation s s'
| reads_metadata decode c identifier s r s' : GetMessageMetadata config decode c identifier s = (r, s') -> read_operation s s'
| reads_body decode c identifier s r s' : GetMessageBody config decode c identifier s = (r, s') -> read_operation s s'
| reads_headers decode c identifier s r s' : GetMessageHeaders config decode c identifier s = (r, s') -> read_operation s s'
| reads_search mac c query s r s' : SearchMailPage config mac c query s = (r, s') -> read_operation s s'.

Lemma GetMessageMetadata_calm identifier payload oc x :
  calm (try! _ := confirmMessage oc x payload in
        try! metadata := fetchMetadata oc x (pMailbox payload) [pUID payload] (MaxHeaderBytes (vBounds config)) in
        match metadata with
        | [m] => if fetchedUID m =? pUID payload
                 then ret (inl (m <| mID := identifier |> <| mMailbox := pMailbox payload |>
                            <| mUIDValidity := pUIDValidity payload |> <| mUID := pUID payload |>))
                 else fail CodeStaleMessageID
        | _ => fail CodeStaleMessageID
        end).
Proof.
  apply calm_try; [apply confirmMessage_calm|]. intros _. apply calm_try; [apply fetchMetadata_calm|].
  intros [|m [|? ?]]; [apply calm_ret| |apply calm_ret]. destruct (_ =? _); apply calm_ret.
Qed.

Lemma searchOperation_calm mac query oc x : calm (searchOperation config mac query oc x).
Proof.
  apply calm_try; [apply examine_calm|]. intros snapshot. generalize maxSearchWindows (UIDNext snapshot) false 2.
  intros windows. generalize (@nil MessageMetadata).
  induction windows as [|more IH]; intros results remaining omitted out; cbn [searchWindows]; [apply calm_ret|].
  destruct (_ && _); [|apply calm_ret]. apply calm_try; [apply searchWindow_calm|]. intros uids.
  destruct (selectHighestUIDs _ _ _); [|apply calm_ret]. apply calm_try; [apply fetchMetadata_calm|]. intros metadata.
  destruct (validateFetchedMetadataUIDs _ _); [apply calm_ret|].
  destruct (emitItems _ _ _ _ _ _ _) as [[? ?]|?]; [apply IH|apply calm_ret].
Qed.

(** What a read operation adds to the log. *)
Lemma read_operations_quiet s s' : read_operation s s' -> exists l, log s' = log s ++ map (pair true) l /\ Forall not_write l.
Proof.
  assert (forall A (operation : C -> S -> M W S (A + goerror)) c s r s',
    (forall oc x, calm (operation oc x)) -> execute config c operation s = (r, s') ->
    exists l, log s' = log s ++ map (pair true) l /\ Forall not_write l) as Hex.
  { intros A operation c s0 r s1 Hcalm H. apply execute_spec in H as (l & [] & _ & _ & _ & ?); eauto. }
  assert (forall A (v r : A) (s s' : st W S), (v, s) = (r, s') -> exists l, log s' = log s ++ map (pair true) l
    /\ Forall not_write l) as Hnone by (intros A v r s0 s1 [= _ <-]; exists []; by rewrite app_nil_r).
  intros H.
  destruct H as [c s r s' H|c mailbox s r s' H|decode c identifier s r s' H|decode c identifier s r s' H|decode c identifier s r s' H
    |mac c query s r s' H].
  - unfold ListFolders in H. eapply Hex; [|exact H]. intros. apply ListFolders_calm.
  - unfold Status, fail, ret in H. destruct (beqs _ _); [by eapply Hnone|].
    destruct (_ <? _); [by eapply Hnone|].
    eapply Hex; [|exact H]. intros. apply read_calm.
  - unfold GetMessageMetadata, ret in H. destruct (decode identifier) as [payload|e];
      [|by eapply Hnone].
    eapply Hex; [|exact H]. intros. apply GetMessageMetadata_calm.
  - unfold GetMessageBody, ret in H. destruct (decode identifier) as [payload|e];
      [|by eapply Hnone].
    eapply Hex; [|exact H]. intros. apply calm_try; [apply confirmMessage_calm|]. intros _. apply read_calm.
  - unfold GetMessageHeaders, ret in H. destruct (decode identifier) as [payload|e];
      [|by eapply Hnone].
    eapply Hex; [|exact H]. intros oc x. cbv beta. destruct (negb (as_headers x)); [apply calm_ret|].
    apply calm_try; [apply confirmMessage_calm|]. intros _. apply calm_try; [apply read_calm|].
    intros record. apply calm_ret.
  - unfold SearchMailPage, fail, ret in H. destruct (beqs _ _); [by eapply Hnone|].
    destruct (_ || _); [by eapply Hnone|].
    eapply Hex; [|exact H]. intros. apply searchOperation_calm.
Qed.

(** The read operations cannot write: whatever the server answers, no
    STORE, MOVE or read-write selection is ever sent by them. *)
Theorem read_operations_never_write s s' :
  read_operation s s' ->
  exists l, log s' = log s ++ l
    /\ forall h x, (forall uid seen r, (h, EvStore x uid seen r) ∉ l) /\ (forall uid t r, (h, EvMove x uid t r) ∉ l)
        /\ (forall m r, (h, EvSelect x m r) ∉ l).
Proof.
  intros (l & Hl & Hw)%read_operations_quiet. exists (map (pair true) l). split; [done|]. rewrite Forall_forall in Hw.
  assert (forall h e, (h, e) ∈ map (pair true) l -> not_write e) as Hin.
  { intros h e (e' & E & He)%list_elem_of_fmap. injection E as _ ->. by apply Hw. }
  intros h x. split; [|split]; intros; intros Hx; apply Hin in Hx; exact Hx.
Qed.
End Spec.
