(* ===== verification/SearchSpec.v ===== *)
(** * What a search returns

    A successful search against its reference: the windows are a fixed
    descending partition of the UID space, the page holds the highest UIDs the
    server reported, and [Truncated] is exact. *)
From Stdlib Require Import ZArith Lia Strings.Byte Sorting.Sorted.
From stdpp Require Import base list gmap strings sorting.
From S2P Require Import Prelude GoStrings Errors Config Session Adapter MessageID Search AdapterSpec.

Abbreviation decreasing := (StronglySorted Z.gt).

(** ** Selection *)

Lemma decreasing_unique l k : decreasing l -> decreasing k -> l ≡ₚ k -> l = k.
Proof.
  intros Hl. revert k. induction Hl as [|a l Hl IH Ha]; intros k Hk Hp.
  { by apply Permutation_nil_l in Hp. }
  destruct Hk as [|b k Hk Hb]; [by apply Permutation_nil_r in Hp|].
  assert (a = b) as ->.
  { assert (a ∈ b :: k) as Ha' by (rewrite <- Hp; by left). assert (b ∈ a :: l) as Hb' by (rewrite Hp; by left).
    apply elem_of_cons in Ha' as [?|Ha']; [done|]. apply elem_of_cons in Hb' as [?|Hb']; [done|].
    rewrite Forall_forall in Ha, Hb. specialize (Ha _ Hb'). specialize (Hb _ Ha'). lia. }
  f_equal. apply IH; [done|]. by apply (Permutation_cons_inv Hp).
Qed.

Lemma decreasing_strict (l : list Z) : StronglySorted desc l -> NoDup l -> decreasing l.
Proof.
  induction 1 as [|a l Hl IH Ha]; intros Hn; [constructor|]. apply NoDup_cons in Hn as [Hin Hn].
  constructor; [by apply IH|]. rewrite Forall_forall in Ha |- *. intros b Hb.
  assert (b <> a) by (intros ->; done). specialize (Ha b Hb). unfold desc in Ha. lia.
Qed.


#[export] Instance desc_total : Total desc.
Proof. intros a b. unfold desc. lia. Qed.
#[export] Instance desc_trans : Transitive desc.
Proof. intros a b c. unfold desc. lia. Qed.
#[export] Instance desc_metadata_total : Total desc_metadata.
Proof. intros a b. unfold desc_metadata. lia. Qed.
#[export] Instance desc_metadata_trans : Transitive desc_metadata.
Proof. intros a b c. unfold desc_metadata. lia. Qed.

Definition in_window (window : uidWindow) (uid : Z) : Prop := Start window <= uid <= End window /\ uid <> 0.

Lemma checkSorted_spec window previous uids :
  checkSorted window previous uids = None -> StronglySorted desc uids ->
  (forall p, previous = Some p -> Forall (fun u => u <= p) uids) ->
  decreasing uids /\ Forall (in_window window) uids /\ forall p, previous = Some p -> Forall (fun u => p > u) uids.
Proof.
  revert previous. induction uids as [|uid rest IH]; intros previous; cbn [checkSorted].
  { intros _ _ _. split_and!; constructor. }
  intros H Hs Hp. destruct (uid =? 0) eqn:H0; [done|]. destruct (_ || _) eqn:Hw; [done|].
  case_bool_decide as Hd; [done|]. bool_prop. apply StronglySorted_inv in Hs as [Hs Hall].
  destruct (IH (Some uid) H Hs) as (K1 & K2 & K3); [by intros p [= <-]|].
  specialize (K3 uid eq_refl). split_and!.
  - by constructor.
  - constructor; [|done]. split; lia.
  - intros p ->. specialize (Hp p eq_refl). apply Forall_cons in Hp as [Hle Hp].
    assert (p > uid) by (destruct (decide (p = uid)) as [->|]; [done|lia]).
    constructor; [done|]. eapply Forall_impl; [exact K3|]. cbn. lia.
Qed.

Lemma selectHighestUIDs_spec uids window budget selected :
  0 <= budget -> selectHighestUIDs uids window budget = inl selected ->
  selected = take (Z.to_nat budget) (descending uids) /\ decreasing (descending uids)
  /\ Forall (in_window window) (descending uids).
Proof.
  unfold selectHighestUIDs. intros Hb. destruct (_ <? _) eqn:Hw; [done|].
  destruct (checkSorted _ _ _) eqn:Hc; [done|]. intros H.
  destruct (checkSorted_spec _ _ _ Hc) as (K1 & K2 & _);
    [apply (StronglySorted_merge_sort desc)|done|]. split; [|done].
  destruct (budget <? _) eqn:E; injection H as <-; [done|]. bool_prop. unfold zlen in E. rewrite take_ge; [done|lia].
Qed.

Lemma checkSorted_complete window previous uids :
  decreasing uids -> Forall (in_window window) uids -> (forall p, previous = Some p -> Forall (fun u => p > u) uids) ->
  checkSorted window previous uids = None.
Proof.
  intros Hs. revert previous. induction Hs as [|uid rest Hs IH Hall]; intros previous Hw Hp; [done|].
  apply Forall_cons in Hw as [[Hu Hz] Hw]. cbn [checkSorted].
  destruct (uid =? 0) eqn:E; bool_prop; [done|].
  destruct (uid <? Start window) eqn:E1; bool_prop; [lia|]. destruct (End window <? uid) eqn:E2; bool_prop; [lia|]. cbn [orb].
  case_bool_decide as Hd. { specialize (Hp _ Hd). apply Forall_cons in Hp. lia. }
  apply IH; [done|]. by intros p [= <-].
Qed.

Lemma decreasing_NoDup uids : decreasing uids -> NoDup uids.
Proof.
  induction 1 as [|u l _ IH Hall]; constructor; [|done]. intros Hin. rewrite Forall_forall in Hall.
  specialize (Hall u Hin). lia.
Qed.

(** No more distinct UIDs than the window is wide. *)
Lemma window_pigeonhole window uids :
  1 <= Start window <= End window -> NoDup uids -> Forall (in_window window) uids -> zlen uids <= width window.
Proof.
  intros Hw Hn Hin. unfold width. destruct (_ =? 0) eqn:E; bool_prop; [lia|].
  destruct (_ <? Start window) eqn:E2; bool_prop; [lia|]. cbn [orb].
  assert (uids ⊆+ seqZ (Start window) (End window - Start window + 1)) as Hsub.
  { apply NoDup_submseteq; [done|]. intros u Hu. rewrite Forall_forall in Hin. destruct (Hin u Hu).
    apply elem_of_seqZ. lia. }
  apply submseteq_length in Hsub. rewrite length_seqZ in Hsub. unfold zlen. lia.
Qed.

(** A window's answer is accepted exactly when its UIDs are distinct,
    nonzero and inside the window; then the highest ones that fit the budget
    are selected, in descending order. *)
Theorem select_exact uids window budget selected :
  0 <= budget -> 1 <= Start window <= End window ->
  selectHighestUIDs uids window budget = inl selected <->
  NoDup uids /\ Forall (in_window window) uids /\ selected = take (Z.to_nat budget) (descending uids).
Proof.
  intros Hb Hw. assert (descending uids ≡ₚ uids) as Hp by apply merge_sort_Permutation. split.
  - intros (-> & Hd & Hin)%selectHighestUIDs_spec; [|done]. rewrite Hp in Hin. split_and!; [|done|done].
    rewrite <- Hp. by apply decreasing_NoDup.
  - intros (Hn & Hin & ->). unfold selectHighestUIDs.
    pose proof (window_pigeonhole window uids Hw Hn Hin) as Hlen.
    destruct (_ <? zlen uids) eqn:E; bool_prop; [lia|].
    rewrite checkSorted_complete; [|apply decreasing_strict|by rewrite Hp|done].
    + destruct (budget <? _) eqn:E2; bool_prop; [done|]. unfold zlen in E2. rewrite take_ge; [done|lia].
    + apply StronglySorted_merge_sort; apply _.
    + by rewrite Hp.
Qed.

(** ** Ranges *)

Definition expand (ranges : list (Z * Z)) : list Z := concat (map (fun '(a, b) => seqZ a (b - a + 1)) ranges).

Lemma addRange_spec more uid (seen : gset Z) results :
  0 <= uid -> uid + Z.of_nat more < 2 ^ 32 ->
  match addRange uid more seen results with
  | inl (seen', results') => results' = results ++ seqZ uid (Z.of_nat more + 1)
      /\ seen' = list_to_set (seqZ uid (Z.of_nat more + 1)) ∪ seen
      /\ forall u, u ∈ seqZ uid (Z.of_nat more + 1) -> u ∉ seen
  | inr err => err = errorCode CodeIMAPProtocol /\ exists u, u ∈ seqZ uid (Z.of_nat more + 1) /\ u ∈ seen
  end.
Proof.
  revert uid seen results. induction more as [|more IH]; intros uid seen results Hu Hm; cbn [addRange];
    (case_bool_decide as Hin; [split; [done|]; exists uid; split; [apply elem_of_seqZ; lia|done]|]).
  - rewrite (seqZ_cons uid) by lia. cbn [Z.of_nat Z.add Z.sub Z.pred]. rewrite seqZ_nil by lia. cbn.
    split_and!; [done|set_solver|set_solver].
  - replace (u32 (uid + 1)) with (uid + 1) by (unfold u32; rewrite Z.mod_small; lia).
    specialize (IH (uid + 1) ({[uid]} ∪ seen) (results ++ [uid]) ltac:(lia) ltac:(lia)).
    rewrite (seqZ_cons uid) by lia.
    replace (Z.pred (Z.of_nat (Datatypes.S more) + 1)) with (Z.of_nat more + 1) by lia. rewrite <- Z.add_1_r.
    destruct (addRange _ _ _ _) as [[seen' results']|err].
    + destruct IH as (-> & -> & K). rewrite <- app_assoc. split_and!; [done|set_solver|].
      intros u [->|Hu']%elem_of_cons; [done|]. specialize (K u Hu'). set_solver.
    + destruct IH as [-> (u & K1 & K2)]. split; [done|]. exists u. split; [by right|].
      apply elem_of_union in K2 as [->%elem_of_singleton|]; [|done]. apply elem_of_seqZ in K1. lia.
Qed.

Definition wellformed (ranges : list (Z * Z)) : Prop := Forall (fun '(a, b) => 0 <= a <= b /\ b < 2 ^ 32) ranges.

Lemma boundedRanges_spec ranges window limit seen results answer :
  wellformed ranges -> 0 <= limit < 2 ^ 32 -> zlen results <= limit -> (forall u, u ∈ seen <-> u ∈ results) -> NoDup results ->
  boundedRanges ranges window limit seen results = inl answer <->
  answer = results ++ expand ranges /\ NoDup answer /\ Forall (in_window window) (expand ranges) /\ zlen answer <= limit.
Proof.
  revert seen results. induction ranges as [|[a b] rest IH]; intros seen results Hwf Hl Hr Hseen Hn; cbn [boundedRanges].
  { change (expand []) with (@nil Z). rewrite app_nil_r. split; [intros [= <-]; by split_and!|]. by intros [-> _]. }
  apply Forall_cons in Hwf as [[Hab Hb] Hwf].
  change (expand ((a, b) :: rest)) with (seqZ a (b - a + 1) ++ expand rest).
  assert (forall A B : Prop, ~ A -> ~ B -> (A <-> B)) as Hno by tauto.
  destruct ((a =? 0) || (b =? 0)) eqn:E0.
  { apply Hno; [done|]. intros (_ & _ & Hf & _). rewrite Forall_forall in Hf.
    destruct (Hf a) as [_ Hz]; [apply elem_of_app; left; apply elem_of_seqZ; lia|].
    destruct (Hf b) as [_ Hz']; [apply elem_of_app; left; apply elem_of_seqZ; lia|]. bool_prop.
    destruct E0; bool_prop; done. }
  destruct ((a <? Start window) || (End window <? b)) eqn:E1.
  { apply Hno; [done|]. intros (_ & _ & Hf & _). rewrite Forall_forall in Hf.
    destruct (Hf a) as [Ha _]; [apply elem_of_app; left; apply elem_of_seqZ; lia|].
    destruct (Hf b) as [Hb' _]; [apply elem_of_app; left; apply elem_of_seqZ; lia|].
    apply orb_prop in E1 as [E1|E1]; bool_prop; lia. }
  pose proof (zlen_nonneg results) as Hr0.
  assert (u64 (u64 (b - a) + 1) = b - a + 1) as -> by (unfold u64; rewrite !Z.mod_small; rewrite ?Z.mod_small; lia).
  assert (u64 (limit - zlen results) = limit - zlen results) as -> by (unfold u64; rewrite Z.mod_small; lia).
  assert (forall k, zlen (results ++ seqZ a (b - a + 1) ++ k) = zlen results + (b - a + 1) + zlen k) as Hz.
  { intros k. rewrite !zlen_app. unfold zlen at 2. rewrite length_seqZ. lia. }
  destruct (_ <? b - a + 1) eqn:E2; bool_prop.
  { apply Hno; [done|]. intros (-> & _ & _ & Hlen). rewrite Hz in Hlen. pose proof (zlen_nonneg (expand rest)). lia. }
  pose proof (addRange_spec (Z.to_nat (b - a)) a seen results) as Hadd. rewrite Z2Nat.id in Hadd by lia.
  specialize (Hadd ltac:(lia) ltac:(lia)).
  destruct (addRange _ _ _ _) as [[seen' results']|err].
  - destruct Hadd as (-> & -> & Hfresh). rewrite IH; [|done|done| | |].
    + rewrite <- app_assoc. rewrite Forall_app. split; [|tauto]. intros (-> & K1 & K2 & K3). split_and!; try done.
      apply Forall_forall. intros u Hu%elem_of_seqZ. bool_prop. split; [lia|]. lia.
    + rewrite <- (app_nil_r (seqZ _ _)), Hz, zlen_nil. lia.
    + intros u. rewrite elem_of_union, elem_of_list_to_set, elem_of_app, Hseen. tauto.
    + apply NoDup_app. split_and!; [done| |apply NoDup_seqZ]. intros u Hu Hu'. apply (Hfresh u Hu'). by apply Hseen.
  - destruct Hadd as [_ (u & K1 & K2)]. apply Hno; [done|]. intros (-> & Hnd & _).
    apply NoDup_app in Hnd as (_ & Hnd & _). apply (Hnd u); [by apply Hseen|]. apply elem_of_app. by left.
Qed.

(** The UIDs decoded from a SEARCH response are its ranges written out, and
    they are accepted exactly when they are distinct, nonzero, inside the window
    and no more than the limit; the uint32 counter ends at every range's end,
    the last UID 4294967295 included. *)
Theorem ranges_exact ranges window limit answer :
  wellformed ranges -> 0 <= limit < 2 ^ 32 ->
  boundedSearchUIDs (Some ranges) window limit = inl answer <->
  answer = expand ranges /\ NoDup answer /\ Forall (in_window window) answer /\ zlen answer <= limit.
Proof.
  intros Hwf Hl. unfold boundedSearchUIDs. rewrite boundedRanges_spec by (done || set_solver || constructor).
  cbn [app]. split; intros (-> & ?); done.
Qed.

(** ** Validation of the fetched metadata *)

Lemma collectRequested_spec requested remaining all :
  collectRequested requested remaining = Some all ->
  NoDup requested /\ (forall u, u ∈ requested -> u ∉ remaining) /\ all = list_to_set requested ∪ remaining.
Proof.
  revert remaining. induction requested as [|uid rest IH]; intros remaining; cbn [collectRequested].
  { intros [= <-]. split_and!; [constructor|set_solver|set_solver]. }
  destruct (_ || _) eqn:H; [done|]. bool_prop. case_bool_decide as Hin; [done|].
  intros (K1 & K2 & ->)%IH. split_and!.
  - constructor; [|done]. intros Hu. specialize (K2 _ Hu). set_solver.
  - intros u [->|Hu]%elem_of_cons; [done|]. specialize (K2 _ Hu). set_solver.
  - cbn. set_solver.
Qed.

Lemma removeFetched_spec results remaining unmatched :
  removeFetched results remaining = Some unmatched ->
  NoDup (map fetchedUID results) /\ (forall u, u ∈ map fetchedUID results -> u ∈ remaining).
Proof.
  revert remaining. induction results as [|r rest IH]; intros remaining; cbn [removeFetched map].
  { intros _. split; [constructor|set_solver]. }
  case_bool_decide as Hin; [|done]. intros [K1 K2]%IH. split.
  - constructor; [|done]. intros Hu%K2. set_solver.
  - intros u [->|Hu%K2]%elem_of_cons; set_solver.
Qed.

(** The fetched messages are exactly the requested ones, once each. *)
Lemma validateFetched_spec requested results :
  validateFetchedMetadataUIDs requested results = None ->
  NoDup requested /\ map fetchedUID results ≡ₚ requested.
Proof.
  unfold validateFetchedMetadataUIDs. destruct (negb _) eqn:Hlen; [done|].
  destruct (collectRequested _ _) as [all|] eqn:Hc; [|done].
  destruct (removeFetched _ _) as [unmatched|] eqn:Hr; [|done]. intros _.
  apply collectRequested_spec in Hc as (K1 & _ & ->). apply removeFetched_spec in Hr as [K2 K3].
  split; [done|]. apply negb_false_iff, Nat.eqb_eq in Hlen.
  apply submseteq_length_Permutation; [|by rewrite length_map, Hlen].
  apply NoDup_submseteq; [done|]. intros u Hu. apply K3 in Hu. set_solver.
Qed.

Lemma sorted_map (l : list MessageMetadata) :
  StronglySorted desc_metadata l -> StronglySorted desc (map fetchedUID l).
Proof. induction 1 as [|a l _ IH Ha]; cbn; constructor; [done|]. by rewrite Forall_map. Qed.

(** Sorted, the fetched metadata lists the selection. *)
Lemma sorted_metadata selected metadata :
  decreasing selected -> validateFetchedMetadataUIDs selected metadata = None ->
  map fetchedUID (merge_sort desc_metadata metadata) = selected.
Proof.
  intros Hs [Hn Hp]%validateFetched_spec.
  assert (map fetchedUID (merge_sort desc_metadata metadata) ≡ₚ selected) as Hq
    by (rewrite <- Hp; apply Permutation_map, merge_sort_Permutation).
  apply decreasing_unique; [|done|done]. apply decreasing_strict; [|by rewrite Hq].
  apply sorted_map, StronglySorted_merge_sort; apply _.
Qed.

(** ** The output account *)

Fixpoint joinItems (items : list bytes) : bytes :=
  match items with
  | [] => []
  | [x] => x
  | x :: rest => x ++ $"," ++ joinItems rest
  end.

(** [json.Marshal] of a [[]MessageMetadata]. *)
Definition marshalMessages (messages : list MessageMetadata) : bytes :=
  $"[" ++ joinItems (map marshalMetadata messages) ++ $"]".

Lemma joinItems_snoc items x :
  zlen (joinItems (items ++ [x])) = zlen (joinItems items) + (zlen x + (if 0 <? zlen items then 1 else 0)).
Proof.
  induction items as [|a [|b rest] IH]; [cbn; autorewrite with croton; cbn; lia|..].
  - cbn. autorewrite with croton. cbn. destruct (0 <? 1 + 0) eqn:E; [lia|discriminate E].
  - change ((a :: b :: rest) ++ [x]) with (a :: b :: (rest ++ [x])).
    change (joinItems (a :: b :: (rest ++ [x]))) with (a ++ $"," ++ joinItems ((b :: rest) ++ [x])).
    change (joinItems (a :: b :: rest)) with (a ++ $"," ++ joinItems (b :: rest)).
    rewrite !(zlen_app a), !(zlen_app $","), IH. assert (zlen $"," = 1) as -> by reflexivity. rewrite !zlen_cons.
    pose proof (zlen_nonneg rest). rewrite !(proj2 (Z.ltb_lt 0 _)) by lia. lia.
Qed.

Lemma marshalMessages_snoc messages m :
  zlen (marshalMessages (messages ++ [m])) =
  zlen (marshalMessages messages) + (zlen (marshalMetadata m) + (if 0 <? zlen messages then 1 else 0)).
Proof.
  unfold marshalMessages. rewrite map_app. cbn [map]. rewrite !zlen_app, joinItems_snoc.
  assert (zlen (map marshalMetadata messages) = zlen messages) as -> by (unfold zlen; by rewrite length_map). lia.
Qed.

(** What every message of a page carries. *)
Record identified (mac : bytes -> bytes) (mailbox : bytes) (uidValidity : Z) (m : MessageMetadata) : Prop := {
  id_mailbox : mMailbox m = mailbox;
  id_validity : mUIDValidity m = uidValidity;
  id_uid : mUID m = fetchedUID m;
  id_id : encodeMessageID mac (mkPayload mailbox uidValidity (mUID m)) = inl (mID m) }.

Section Spec.
Context {W S C : Type} `{B : Backend W S C}.
Variable config : ValidatedConfig.
Variable mac : bytes -> bytes.

#[local] Abbreviation limit := (MaxSearchResults (vBounds config)).
#[local] Abbreviation budget := (MaxOutputBytes (vBounds config)).

Lemma emitItems_spec mailbox v metadata results out results' out' :
  emitItems config mac mailbox v metadata results out = inl (results', out') ->
  out = zlen (marshalMessages results) -> out <= budget ->
  exists items, results' = results ++ items /\ map mUID items = map fetchedUID metadata
    /\ Forall (identified mac mailbox v) items /\ out' = zlen (marshalMessages results') /\ out' <= budget.
Proof.
  revert results out. induction metadata as [|item rest IH]; intros results out; cbn [emitItems].
  { intros [= <- <-] -> Hb. exists []. rewrite app_nil_r. done. }
  destruct (encodeMessageID _ _) as [identifier|] eqn:Hid; [|done].
  set (item' := _ <| mUID := _ |>). destruct (_ || _) eqn:Hfit; [done|]. intros H Hout Hb. bool_prop.
  destruct (IH _ _ H) as (items & -> & Hu & Hi & Ho & Hob).
  - rewrite marshalMessages_snoc, Hout. done.
  - lia.
  - exists (item' :: items). split_and!; [by rewrite <- app_assoc|cbn [map]; by rewrite Hu|..|done|done].
    constructor; [|done]. constructor; done.
Qed.

(** ** The reference *)

(** The windows of a search: 100 UIDs each, from the top down. *)
Fixpoint windows_from (windows : nat) (next : Z) : list uidWindow :=
  match windows with
  | O => []
  | Datatypes.S more =>
      if 1 <? next then
        let start := Z.max 1 (next - 100) in mkWindow start (next - 1) :: windows_from more start
      else []
  end.

(** One round: the window, what the server reported, what was fetched. *)
Record round := mkRound {
  rWindow : uidWindow; rAnswer : list Z; rFetched : list Z; rMetadata : list MessageMetadata }.

Definition round_events (x : S) (query : SearchQuery) (r : round) : list (event S) :=
  [EvSearch x query (rWindow r) (inl (rAnswer r)); EvMetadata x (rFetched r) (inl (rMetadata r))].

Definition events (s : st W S) : list (event S) := map snd (log s).

Definition answered (rounds : list round) : list Z := concat (map (fun r => descending (rAnswer r)) rounds).
Definition sound (r : round) : Prop :=
  decreasing (descending (rAnswer r)) /\ Forall (in_window (rWindow r)) (descending (rAnswer r)).

(** The lowest UID bound reached. *)
Fixpoint reached (next : Z) (rounds : list round) : Z :=
  match rounds with [] => next | r :: rest => reached (Start (rWindow r)) rest end.

Lemma call_events {A} (f : W -> A * W) ev s a s' : call f ev s = (a, s') -> events s' = events s ++ [ev a].
Proof.
  unfold call, events. destruct (f (world s)) as [b w]. intros [= <- <-]. cbn. by rewrite map_app.
Qed.

Lemma zlen_take {A} (n : Z) (l : list A) : 0 <= n -> zlen (take (Z.to_nat n) l) = Z.min n (zlen l).
Proof. intros. unfold zlen. rewrite length_take. lia. Qed.

(** What a run of the loop adds to [results]. *)
Record loop_result (windows : nat) (x : S) (query : SearchQuery) (v next : Z) (results : list MessageMetadata)
    (omitted : bool) (page : SearchPage) (rounds : list round) (items : list MessageMetadata) : Prop := {
  lr_items : Messages page = results ++ items;
  lr_windows : map rWindow rounds = take (length rounds) (windows_from windows next);
  lr_sound : Forall sound rounds;
  lr_uids : map mUID items = take (Z.to_nat (limit - zlen results)) (answered rounds);
  lr_identified : Forall (identified mac (qMailbox query) v) items;
  lr_size : zlen (marshalMessages (Messages page)) <= budget;
  lr_truncated : Truncated page = omitted || (zlen items <? zlen (answered rounds)) || (1 <? reached next rounds) }.

Lemma u32_id z : 0 <= z < 2 ^ 32 -> u32 z = z.
Proof. unfold u32. apply Z.mod_small. Qed.

Lemma sum_short a b c d : a <= c -> b <= d -> (a + b <? c + d) = (a <? c) || (b <? d).
Proof. intros. destruct (a <? c) eqn:E1, (b <? d) eqn:E2; bool_prop; cbn; apply Z.ltb_lt || apply Z.ltb_ge; lia. Qed.

Lemma loop_step windows x query v next results omitted page r rounds items1 items2 :
  1 < next -> limit - zlen results > 0 ->
  rWindow r = mkWindow (Z.max 1 (next - 100)) (next - 1) -> sound r ->
  map mUID items1 = take (Z.to_nat (limit - zlen results)) (descending (rAnswer r)) ->
  Forall (identified mac (qMailbox query) v) items1 ->
  loop_result windows x query v (Z.max 1 (next - 100)) (results ++ items1)
    (omitted || (zlen items1 <? zlen (descending (rAnswer r)))) page rounds items2 ->
  loop_result (Datatypes.S windows) x query v next results omitted page (r :: rounds) (items1 ++ items2).
Proof.
  intros Hn Hl Hw Hs Hu1 Hi1 []. 
  assert (zlen items1 = Z.min (limit - zlen results) (zlen (descending (rAnswer r)))) as Hlen1.
  { rewrite <- (zlen_take (A := Z)) by lia. rewrite <- Hu1. unfold zlen. by rewrite length_map. }
  assert (answered (r :: rounds) = descending (rAnswer r) ++ answered rounds) as Ha by done.
  constructor.
  - by rewrite lr_items0, app_assoc.
  - cbn [map length windows_from]. destruct (1 <? next) eqn:E; [|bool_prop; lia]. cbn [take].
    by rewrite Hw, lr_windows0.
  - by constructor.
  - rewrite map_app, Hu1, lr_uids0, Ha. rewrite zlen_app, Hlen1, take_app. f_equal.
    f_equal. unfold zlen. lia.
  - by apply Forall_app.
  - done.
  - rewrite lr_truncated0, Ha, !zlen_app. cbn [reached]. rewrite Hw. cbn [Start].
    assert (zlen items2 <= zlen (answered rounds)) as Hle2.
    { assert (zlen items2 = zlen (map mUID items2)) as -> by (unfold zlen; by rewrite length_map).
      rewrite lr_uids0. unfold zlen. rewrite length_take. lia. }
    rewrite sum_short by lia. by rewrite !orb_assoc.
Qed.

Lemma searchWindows_spec windows (c : C) x query v next results out omitted s page s' :
  searchWindows config mac windows c x query v next results out omitted s = (inl page, s') ->
  0 <= next < 2 ^ 32 -> out = zlen (marshalMessages results) -> out <= budget ->
  exists rounds items, loop_result windows x query v next results omitted page rounds items
    /\ events s' = events s ++ concat (map (round_events x query) rounds).
Proof.
  revert next results out omitted s. induction windows as [|more IH]; intros next results out omitted s; cbn [searchWindows].
  { intros [= <- <-] Hn -> Hb. exists [], []. split; [|by rewrite app_nil_r].
    constructor; cbn; rewrite ?app_nil_r, ?take_nil, ?orb_false_r; try done; constructor. }
  destruct (_ && _) eqn:Hgo; cycle 1.
  { intros [= <- <-] Hn -> Hb. exists [], []. split; [|by rewrite app_nil_r].
    constructor; cbn [Messages Truncated answered map concat length reached]; rewrite ?app_nil_r, ?take_nil, ?orb_false_r; try done; constructor. }
  intros H Hn Hout Hb. apply andb_prop in Hgo as [Hgo%Z.ltb_lt Hroom%Z.ltb_lt]. change (zlen results < limit) in Hroom.
  assert ((if searchWindowWidth <? next then u32 (next - searchWindowWidth) else 1) = Z.max 1 (next - 100)) as Hstart.
  { unfold searchWindowWidth. destruct (100 <? next) eqn:E; bool_prop; [rewrite u32_id by lia|]; lia. }
  rewrite Hstart, u32_id in H by lia. set (window := mkWindow _ (next - 1)) in *.
  apply bind_inv in H as (ans & s1 & Hs & H). destruct ans as [uids|]; [|done].
  apply call_events in Hs. destruct (selectHighestUIDs _ _ _) as [selected|] eqn:Hsel; [|done].
  apply selectHighestUIDs_spec in Hsel as (Hsel & Hdec & Hin); [|lia].
  apply bind_inv in H as (md & s2 & Hm & H). destruct md as [metadata|]; [|done]. apply call_events in Hm.
  destruct (validateFetchedMetadataUIDs _ _) eqn:Hval; [done|].
  destruct (emitItems _ _ _ _ _ _ _) as [[results' out']|] eqn:He; [|done].
  apply emitItems_spec in He as (items1 & -> & Hu1 & Hi1 & Ho' & Hb'); [|done|done].
  assert (decreasing selected) as Hdsel.
  { rewrite Hsel. rewrite <- (take_drop (Z.to_nat (limit - zlen results)) (descending uids)) in Hdec.
    apply StronglySorted_app in Hdec. apply Hdec. }
  rewrite (sorted_metadata selected metadata) in Hu1 by done.
  assert (zlen (descending uids) = zlen uids) as Hlen by (unfold zlen, descending; by rewrite merge_sort_Permutation).
  assert (zlen selected = zlen items1) as Hzs by (rewrite <- Hu1; unfold zlen; by rewrite length_map).
  rewrite Hzs, <- Hlen in H.
  destruct (IH _ _ _ _ _ H ltac:(lia) Ho' Hb') as (rounds & items & Hlr & Hev).
  exists (mkRound window uids selected metadata :: rounds), (items1 ++ items). split.
  - eapply loop_step; [lia|lia|done|by split| |done|exact Hlr]. rewrite Hu1. exact Hsel.
  - rewrite Hev, Hm, Hs. cbn [map concat]. by rewrite <- !app_assoc.
Qed.

Lemma reached_le rounds windows next :
  map rWindow rounds = take (length rounds) (windows_from windows next) ->
  reached next rounds <= next /\ Forall (fun r => reached next rounds <= Start (rWindow r)) rounds.
Proof.
  revert windows next. induction rounds as [|r rounds IH]; intros windows next Hw; [cbn; split; [lia|constructor]|].
  destruct windows as [|windows]; [done|]. cbn in Hw. destruct (1 <? next) eqn:E; [|done]. bool_prop.
  injection Hw as Hr Hw. apply IH in Hw as [Hle Hall]. cbn. rewrite Hr. cbn. split; [lia|].
  constructor; [rewrite Hr; cbn; lia|done].
Qed.

(** The rounds partition the UID space from the top down. *)
Lemma rounds_descend rounds windows next :
  map rWindow rounds = take (length rounds) (windows_from windows next) -> Forall sound rounds ->
  decreasing (answered rounds) /\ Forall (fun u => reached next rounds <= u < next) (answered rounds)
  /\ (forall u, reached next rounds <= u < next -> exists r, r ∈ rounds /\ Start (rWindow r) <= u <= End (rWindow r)).
Proof.
  revert windows next. induction rounds as [|r rounds IH]; intros windows next Hw Hs.
  { cbn. split_and!; [constructor|constructor|lia]. }
  apply Forall_cons in Hs as [[Hdec Hin] Hs]. cbn [map length] in Hw.
  destruct windows as [|windows]; [done|]. cbn [windows_from] in Hw. destruct (1 <? next) eqn:Hn; [|done].
  cbn [take] in Hw. injection Hw as Hr Hw. bool_prop. destruct (IH _ _ Hw Hs) as (K1 & K2 & K3).
  change (answered (r :: rounds)) with (descending (rAnswer r) ++ answered rounds). cbn [reached].
  rewrite Hr in *. cbn [Start] in *. set (low := Z.max 1 (next - 100)) in *.
  destruct (reached_le _ _ _ Hw) as [Hlow _].
  assert (Forall (fun u => low <= u < next) (descending (rAnswer r))) as Hin'.
  { eapply Forall_impl; [exact Hin|]. intros u [Hu _]. cbn in Hu. lia. }
  split_and!.
  - apply StronglySorted_app. split_and!; [|done|done]. intros u v Hu Hv. rewrite Forall_forall in Hin', K2.
    specialize (Hin' u Hu). specialize (K2 v Hv). lia.
  - apply Forall_app. split; (eapply Forall_impl; [eassumption|]); cbn; lia.
  - intros u Hu. destruct (decide (u < low)) as [Hl|Hl].
    + destruct (K3 u) as (r' & ? & ?); [lia|]. exists r'. split; [by right|done].
    + exists r. split; [by left|]. rewrite Hr. cbn. lia.
Qed.

(** The session answers EXAMINE with a uint32. *)
Hypothesis uint32_next : forall c (x : S) mailbox w snapshot w',
  op_examine c x mailbox w = (inl snapshot, w') -> 0 <= UIDNext snapshot < 2 ^ 32.

Lemma search_run c query s page s' :
  SearchMailPage config mac c query s = (inl page, s') ->
  exists x snapshot before rounds,
    events s' = before ++ EvExamine x (qMailbox query) (inl snapshot) :: concat (map (round_events x query) rounds)
                  ++ [EvAttempt x None]
    /\ loop_result maxSearchWindows x query (UIDValidity snapshot) (UIDNext snapshot) [] false page rounds (Messages page)
    /\ beqs (qMailbox query) [] = false.
Proof.
  unfold SearchMailPage. destruct (beqs _ _); [done|]. destruct (_ || _) eqn:Hq; [done|]. intros H.
  apply execute_success in H as (oc & x & s1 & s2 & Hop & Hlog).
  apply bind_inv in Hop as (ans & s3 & He & H). destruct ans as [snapshot|]; [|done].
  assert (0 <= UIDNext snapshot < 2 ^ 32) as Hu.
  { unfold examine, call in He. destruct (op_examine _ _ _ _) as [a w] eqn:E. injection He as -> <-.
    by apply (uint32_next _ _ _ _ _ _ E). }
  apply call_events in He.
  assert (2 <= budget) as Hb by (bool_prop; lia).
  apply searchWindows_spec in H as (rounds & items & Hlr & Hev); [|done|done|done].
  exists x, snapshot, (events s1), rounds. split_and!; [|assert (Messages page = items) as -> by apply Hlr; done|done].
  unfold events in *. rewrite Hlog, map_app, Hev, He, <- !app_assoc. done.
Qed.

(** C11: A successful search ran EXAMINE and then at most eight SEARCH windows,
    the fixed windows of 100 UIDs from UIDNEXT down, never a whole-mailbox
    search; its page holds the highest UIDs the server reported, at most
    [MaxSearchResults], newest first and without repeats, each under an
    identifier of its own mailbox, generation and UID, in at most
    [MaxOutputBytes] bytes of JSON. *)
Theorem search_page c query s page s' :
  SearchMailPage config mac c query s = (inl page, s') ->
  exists x snapshot before rounds,
    events s' = before ++ EvExamine x (qMailbox query) (inl snapshot) :: concat (map (round_events x query) rounds)
                  ++ [EvAttempt x None]
    /\ map rWindow rounds = take (length rounds) (windows_from maxSearchWindows (UIDNext snapshot))
    /\ map mUID (Messages page) = take (Z.to_nat limit) (answered rounds)
    /\ decreasing (map mUID (Messages page))
    /\ Forall (identified mac (qMailbox query) (UIDValidity snapshot)) (Messages page)
    /\ zlen (marshalMessages (Messages page)) <= budget.
Proof.
  intros (x & snapshot & before & rounds & Hev & [] & _)%search_run.
  exists x, snapshot, before, rounds. rewrite zlen_nil, Z.sub_0_r in lr_uids0.
  split_and!; try done. destruct (rounds_descend _ _ _ lr_windows0 lr_sound0) as (K & _).
  rewrite lr_uids0. rewrite <- (take_drop (Z.to_nat limit) (answered rounds)) in K.
  apply StronglySorted_app in K. apply K.
Qed.

(** [Truncated] is exact: it is false just when every UID the server
    reported is on the page and every UID below UIDNEXT lies in a window that
    was searched. *)
Theorem search_truncated c query s page s' :
  SearchMailPage config mac c query s = (inl page, s') ->
  exists x snapshot before rounds,
    events s' = before ++ EvExamine x (qMailbox query) (inl snapshot) :: concat (map (round_events x query) rounds)
                  ++ [EvAttempt x None]
    /\ (Truncated page = false <->
          (forall r u, r ∈ rounds -> u ∈ rAnswer r -> u ∈ map mUID (Messages page))
          /\ (forall u, 1 <= u < UIDNext snapshot ->
                exists r, r ∈ rounds /\ Start (rWindow r) <= u <= End (rWindow r))).
Proof.
  intros (x & snapshot & before & rounds & Hev & [] & _)%search_run.
  exists x, snapshot, before, rounds. split; [done|]. rewrite zlen_nil, Z.sub_0_r in lr_uids0.
  destruct (rounds_descend _ _ _ lr_windows0 lr_sound0) as (Hdec & Hlow & Hcover).
  assert (forall r u, r ∈ rounds -> u ∈ rAnswer r -> u ∈ answered rounds) as Hans.
  { intros r u Hr Hu. unfold answered. apply list_elem_of_In, in_concat. exists (descending (rAnswer r)). split.
    - apply list_elem_of_In, list_elem_of_fmap. by exists r.
    - apply list_elem_of_In. unfold descending. by rewrite merge_sort_Permutation. }
  assert (zlen (Messages page) = zlen (map mUID (Messages page))) as Hlen by (unfold zlen; by rewrite length_map).
  rewrite lr_truncated0. cbn [orb]. rewrite orb_false_iff, !Z.ltb_ge. split.
  - intros [Hall Hreach]. split.
    + intros r u Hr Hu. specialize (Hans r u Hr Hu). rewrite lr_uids0.
      rewrite take_ge; [done|]. rewrite Hlen, lr_uids0 in Hall. unfold zlen in Hall. rewrite length_take in Hall. lia.
    + intros u Hu. apply Hcover. lia.
  - intros [Hall Hreach]. split.
    + destruct (decide (zlen (answered rounds) <= zlen (Messages page))) as [|Hlt]; [done|exfalso].
      rewrite Hlen in Hlt. destruct (drop (Z.to_nat limit) (answered rounds)) as [|u rest] eqn:Hd.
      { rewrite <- (take_drop (Z.to_nat limit) (answered rounds)), Hd, app_nil_r, <- lr_uids0 in Hlt. lia. }
      assert (u ∈ answered rounds) as Hu.
      { rewrite <- (take_drop (Z.to_nat limit) (answered rounds)), Hd. set_solver. }
      rewrite <- (take_drop (Z.to_nat limit) (answered rounds)), Hd in Hdec.
      apply StronglySorted_app in Hdec as (Hdec & _ & _).
      assert (u ∈ map mUID (Messages page)) as Hin.
      { unfold answered in Hu. apply list_elem_of_In, in_concat in Hu as (l & Hl & Hu).
        apply list_elem_of_In, list_elem_of_fmap in Hl as (r & -> & Hr). apply (Hall r); [done|].
        apply list_elem_of_In in Hu. unfold descending in Hu. by rewrite merge_sort_Permutation in Hu. }
      rewrite lr_uids0 in Hin. specialize (Hdec u u Hin ltac:(by left)). lia.
    + destruct (decide (reached (UIDNext snapshot) rounds <= 1)) as [|Hgt]; [done|exfalso].
      destruct (reached_le _ _ _ lr_windows0) as [Hle Hall'].
      destruct (Hreach (reached (UIDNext snapshot) rounds - 1)) as (r & Hr & Hin & _); [lia|].
      rewrite Forall_forall in Hall'. specialize (Hall' r Hr). lia.
Qed.
End Spec.
