(* ===== verification/Triage.v ===== *)
(** * Mail triage: Seen and native moves

    [bridge/seen.go] and [bridge/move.go]: validation, the source selection,
    the per-UID STORE and MOVE with their outcomes, the batch loops, and the
    resolution of a destination from a fresh listing. *)
From Stdlib Require Import ZArith Lia Strings.Byte.
From stdpp Require Import base list gmap strings.
From S2P Require Import Prelude GoStrings GoText Errors Config Session Adapter.

Definition MaxTriageUIDs : Z := 50.

(** [OutcomeNone] is the empty string of a zero [TriageResult]. *)
Inductive outcome := OutcomeNone | OutcomeApplied | OutcomeRefused | OutcomeNotAttempted | OutcomeUnknown.
#[export] Instance outcome_eq_dec : EqDecision outcome. Proof. solve_decision. Defined.

(** [TriageResult]; an empty [Code] is [None]. *)
Record TriageResult := mkResult { UID : Z; Outcome : outcome; Code : option code }.

(** ** Validation *)

(** The loop over the UIDs with the set of those already seen. *)
Fixpoint validUIDs (seen : gset Z) (uids : list Z) : bool :=
  match uids with
  | [] => true
  | uid :: rest =>
      if uid =? 0 then false
      else if bool_decide (uid ∈ seen) then false
      else validUIDs ({[uid]} ∪ seen) rest
  end.

Definition validateTriageRequest (mailbox : bytes) (uidValidity : Z) (uids : list Z) : option goerror :=
  if beqs mailbox [] || (uidValidity =? 0) || (zlen uids =? 0) then Some (errorCode CodeInvalidRequest)
  else if (maxMailboxNameBytes <? zlen mailbox) || (MaxTriageUIDs <? zlen uids)
  then Some (errorCode CodeBoundsExceeded)
  else if validUIDs ∅ uids then None else Some (errorCode CodeInvalidRequest).

Definition validateMoveDestination (destination : bytes) : option goerror :=
  if beqs destination [] || negb (valid_string destination) then Some (errorCode CodeInvalidRequest)
  else if maxMailboxNameBytes <? zlen destination then Some (errorCode CodeBoundsExceeded)
  else if existsb (fun rn => is_control (fst rn) || (fst rn =? 42) || (fst rn =? 37)) (runes destination)
  then Some (errorCode CodeInvalidRequest)
  else None.

(** ** Destinations *)

Definition foldersPrefix : bytes := $"Folders/".
Definition rootSystemAttributes : list bytes := [$"\Sent"; $"\Drafts"; $"\Junk"; $"\Archive"; $"\Trash"].
Definition refusedDestinationAttributes : list bytes := [$"\Noselect"; $"\NonExistent"; $"\All"; $"\Flagged"].
Definition aggregateViews : list bytes := [$"All Mail"; $"Starred"].

(** [mailboxIdentityMatches] of [imapclient.go]. *)
Definition mailboxIdentityMatches (requested actual : bytes) : bool :=
  if equal_fold requested $"INBOX" then equal_fold actual $"INBOX" else beqs requested actual.

Definition isAggregateView (name : bytes) : bool := existsb (fun view => equal_fold name view) aggregateViews.

(** [strings.ContainsRune]. *)
Definition contains_rune (s : bytes) (r : Z) : bool := existsb (fun rn => fst rn =? r) (runes s).

Definition isHierarchyRoot (m : listedMailbox) : bool :=
  if contains_byte "/"%byte (Name m) then false
  else (Delimiter m =? 0) || negb (contains_rune (Name m) (Delimiter m)).

Definition hasAttribute (attributes wanted : list bytes) : bool :=
  existsb (fun attribute => existsb (fun candidate => equal_fold attribute candidate) wanted) attributes.

(** The loop that keeps the one entry satisfying [p]: [None] at a second one. *)
Fixpoint onlyMatch (p : listedMailbox -> bool) (found : option listedMailbox) (listing : list listedMailbox)
  : option (option listedMailbox) :=
  match listing with
  | [] => Some found
  | m :: rest =>
      if negb (p m) then onlyMatch p found rest
      else match found with Some _ => None | None => onlyMatch p (Some m) rest end
  end.

Definition resolveMoveDestination (listing : list listedMailbox) (destination : bytes) : option bytes :=
  match onlyMatch (fun m => mailboxIdentityMatches destination (Name m)) None listing with
  | Some (Some m) =>
      if hasAttribute (Attributes m) refusedDestinationAttributes then None
      else if equal_fold (Name m) $"INBOX" then Some $"INBOX"
      else if (Delimiter m =? 47) && has_prefix (Name m) foldersPrefix && (zlen foldersPrefix <? zlen (Name m))
      then Some (Name m)
      else if isHierarchyRoot m && hasAttribute (Attributes m) rootSystemAttributes then Some (Name m)
      else None
  | _ => None
  end.

Definition resolveAttributeDestination (listing : list listedMailbox) (attribute : bytes) : option bytes :=
  match onlyMatch (fun m => hasAttribute (Attributes m) [attribute]) None listing with
  | Some (Some holder) => if isAggregateView (Name holder) then None else resolveMoveDestination listing (Name holder)
  | _ => None
  end.

(** ** Results *)

Definition pendingResults (uids : list Z) : list TriageResult :=
  map (fun uid => mkResult uid OutcomeNotAttempted None) uids.

Definition refused (r : TriageResult) : TriageResult := mkResult (UID r) OutcomeRefused (Some CodeUnsupported).

(** [refuseRemaining(results, from)]. *)
Definition refuseRemaining (results : list TriageResult) (from : nat) : list TriageResult :=
  take from results ++ map refused (drop from results).

Section Triage.
Context {W S C : Type} `{B : Backend W S C}.
Variable config : ValidatedConfig.

(** ** The source *)

(** [selectTriageSource]: the session, if one was obtained, and the snapshot. *)
Definition selectTriageSource (c : C) (mailbox : bytes)
  : M W S (option S * (mailboxSnapshot + goerror)) :=
  let! opened := sessionForOperation c in
  match opened with
  | inr err => ret (None, inr err)
  | inl s =>
      if negb (as_seen s) then ret (Some s, inr (errorCode CodeIMAPProtocol)) else
      let! r := call (op_select c s mailbox) (EvSelect s mailbox) in
      ret (Some s, r)
  end.

(** The loop of [openTriageSource]; [attempts] is how many are left. *)
Fixpoint openSourceLoop (c : C) (mailbox : bytes) (uidValidity : Z) (attempts : nat) : M W S (S + goerror) :=
  match attempts with
  | O => fail CodeBridgeUnreachable
  | Datatypes.S more =>
      let! oc := operationContext config c in
      let! selected := selectTriageSource oc mailbox in
      match selected with
      | (opened, inr err) =>
          let! err := mapError oc err in
          let! retry := (if (more =? 1)%nat then canReplay oc err else ret false) in
          cancel oc ;;
          (match opened with
           | Some s => if retry || invalidatesSession err then invalidate s else ret tt
           | None => ret tt
           end) ;;
          if retry : bool then openSourceLoop c mailbox uidValidity more else ret (inr err)
      | (Some s, inl snapshot) =>
          cancel oc ;;
          if negb (UIDValidity snapshot =? uidValidity) then fail CodeStaleMessageID else ret (inl s)
      | (None, inl _) => fail CodeBridgeUnreachable
      end
  end.

Definition openTriageSource (c : C) (mailbox : bytes) (uidValidity : Z) : M W S (S + goerror) :=
  openSourceLoop c mailbox uidValidity 2.

(** ** Seen *)

(** [storeSeen]: the result and whether to stop. *)
Definition storeSeen (c : C) (s : S) (uid : Z) (seen : bool) : M W S (TriageResult * bool) :=
  let! oc := operationContext config c in
  let! present := requireMessageUID oc s uid in
  match present with
  | inr err =>
      if bool_decide (CodeOf err = Some CodeStaleMessageID) then
        cancel oc ;; ret (mkResult uid OutcomeRefused (Some CodeMessageNotFound), false)
      else
        invalidate s ;;
        let! err := mapError oc err in
        cancel oc ;; ret (mkResult uid OutcomeNotAttempted (CodeOf err), true)
  | inl _ =>
      let! stored := call (op_store oc s uid seen) (EvStore s uid seen) in
      match stored with
      | None => cancel oc ;; ret (mkResult uid OutcomeApplied None, false)
      | Some err =>
          let! err := mapError oc err in
          if bool_decide (CodeOf err = Some CodeIMAPCommand) then
            cancel oc ;; ret (mkResult uid OutcomeRefused (Some CodeIMAPCommand), false)
          else
            invalidate s ;; cancel oc ;; ret (mkResult uid OutcomeUnknown (CodeOf err), true)
      end
  end.

(** The loop of [SetSeen]: UIDs not reached keep their initial result. *)
Fixpoint seenLoop (c : C) (s : S) (seen : bool) (uids : list Z) : M W S (list TriageResult) :=
  match uids with
  | [] => ret []
  | uid :: rest =>
      let! r := storeSeen c s uid seen in
      if snd r : bool then ret (fst r :: pendingResults rest)
      else let! results := seenLoop c s seen rest in ret (fst r :: results)
  end.

Definition SetSeen (c : C) (mailbox : bytes) (uidValidity : Z) (uids : list Z) (seen : bool)
  : M W S (list TriageResult + goerror) :=
  match validateTriageRequest mailbox uidValidity uids with
  | Some e => ret (inr e)
  | None =>
      let! refused := acquire c in
      match refused with
      | Some e => ret (inr e)
      | None =>
          let! source := openTriageSource c mailbox uidValidity in
          match source with
          | inr e => release ;; ret (inr e)
          | inl s => let! results := seenLoop c s seen uids in release ;; ret (inl results)
          end
      end
  end.

(** ** Moves *)

Definition abandonUID (c : C) (s : S) (uid : Z) (err : goerror) : M W S TriageResult :=
  invalidate s ;;
  let! err := mapError c err in
  ret (mkResult uid OutcomeNotAttempted (CodeOf err)).

Definition zeroResult : TriageResult := mkResult 0 OutcomeNone None.

(** [prepareMove]: the exact target, or an empty one with the UID's result and
    whether to stop. *)
Definition prepareMove (c : C) (s : S) (uid : Z) (resolve : list listedMailbox -> option bytes)
  : M W S (bytes * TriageResult * bool) :=
  let! oc := operationContext config c in
  let! present := requireMessageUID oc s uid in
  match present with
  | inr err =>
      if bool_decide (CodeOf err = Some CodeStaleMessageID) then
        cancel oc ;; ret ([], mkResult uid OutcomeRefused (Some CodeMessageNotFound), false)
      else let! r := abandonUID oc s uid err in cancel oc ;; ret ([], r, true)
  | inl _ =>
      let! listing := call (op_list_mailboxes oc s $"*" (MaxFolderResults (vBounds config))) (EvListing s) in
      match listing with
      | inr err => let! r := abandonUID oc s uid err in cancel oc ;; ret ([], r, true)
      | inl listing =>
          cancel oc ;;
          match resolve listing with
          | None => ret ([], mkResult uid OutcomeRefused (Some CodeUnsupported), false)
          | Some target => ret (target, zeroResult, false)
          end
      end
  end.

Definition moveUID (c : C) (s : S) (uid : Z) (resolve : list listedMailbox -> option bytes)
  : M W S (TriageResult * bool) :=
  let! prepared := prepareMove c s uid resolve in
  match prepared with
  | ([], refusal, stop) => ret (refusal, stop)
  | (target, _, _) =>
      let! oc := operationContext config c in
      let! moved := call (op_move oc s uid target) (EvMove s uid target) in
      match moved with
      | None => cancel oc ;; ret (mkResult uid OutcomeApplied None, false)
      | Some err =>
          let! err := mapError oc err in
          match CodeOf err with
          | Some CodeUnsupported =>
              invalidate s ;; cancel oc ;; ret (mkResult uid OutcomeRefused (Some CodeUnsupported), false)
          | Some CodeIMAPCommand =>
              cancel oc ;; ret (mkResult uid OutcomeRefused (Some CodeIMAPCommand), false)
          | other =>
              invalidate s ;; cancel oc ;; ret (mkResult uid OutcomeUnknown other, true)
          end
      end
  end.

(** The loop of [move]: the results, or the code that fails the whole request. *)
Fixpoint moveLoop (c : C) (s : S) (resolve : list listedMailbox -> option bytes) (written : bool) (uids : list Z)
  : M W S (list TriageResult + goerror) :=
  match uids with
  | [] => ret (inl [])
  | uid :: rest =>
      let! r := moveUID c s uid resolve in
      let (result, stop) := r in
      if bool_decide (Code result = Some CodeUnsupported) then
        ret (inl (result :: map refused (pendingResults rest)))
      else if stop && negb written && bool_decide (Outcome result = OutcomeNotAttempted) then
        ret (inr (match Code result with Some d => errorCode d | None => [NOther] end))
      else if stop then ret (inl (result :: pendingResults rest))
      else
        let written := written || bool_decide (Outcome result = OutcomeApplied) in
        let! results := moveLoop c s resolve written rest in
        ret (match results with inl results => inl (result :: results) | inr e => inr e end)
  end.

Definition move (c : C) (mailbox : bytes) (uidValidity : Z) (uids : list Z)
  (resolve : list listedMailbox -> option bytes) : M W S (list TriageResult + goerror) :=
  let! taken := acquire c in
  match taken with
  | Some e => ret (inr e)
  | None =>
      let! source := openTriageSource c mailbox uidValidity in
      match source with
      | inr e => release ;; ret (inr e)
      | inl s =>
          if negb (as_move s) then release ;; ret (inr (errorCode CodeIMAPProtocol)) else
          let! supported := outside (op_supports_move s) in
          if negb supported then release ;; ret (inl (refuseRemaining (pendingResults uids) 0)) else
          let! results := moveLoop c s resolve false uids in release ;; ret results
      end
  end.

Definition Move (c : C) (mailbox : bytes) (uidValidity : Z) (uids : list Z) (destination : bytes)
  : M W S (list TriageResult + goerror) :=
  match validateTriageRequest mailbox uidValidity uids with
  | Some e => ret (inr e)
  | None =>
      match validateMoveDestination destination with
      | Some e => ret (inr e)
      | None =>
          if mailboxIdentityMatches mailbox destination then
            ret (inl (refuseRemaining (pendingResults uids) 0))
          else move c mailbox uidValidity uids (fun listing => resolveMoveDestination listing destination)
      end
  end.

Definition attributeResolver (mailbox attribute : bytes) (listing : list listedMailbox) : option bytes :=
  match resolveAttributeDestination listing attribute with
  | Some target => if mailboxIdentityMatches mailbox target then None else Some target
  | None => None
  end.

Definition moveToAttribute (c : C) (mailbox : bytes) (uidValidity : Z) (uids : list Z) (attribute : bytes)
  : M W S (list TriageResult + goerror) :=
  match validateTriageRequest mailbox uidValidity uids with
  | Some e => ret (inr e)
  | None => move c mailbox uidValidity uids (attributeResolver mailbox attribute)
  end.

Definition Archive (c : C) (mailbox : bytes) (uidValidity : Z) (uids : list Z) :=
  moveToAttribute c mailbox uidValidity uids $"\Archive".
Definition Trash (c : C) (mailbox : bytes) (uidValidity : Z) (uids : list Z) :=
  moveToAttribute c mailbox uidValidity uids $"\Trash".

End Triage.
