(* ===== verification/TriageSpec.v ===== *)
(** * What triage promises

    The contract of [Triage] over the ghost log: which UIDs are written, in
    which order, after which checks, and what the reported outcomes mean.  The
    loops refine small trace grammars ([seen_batch], [move_batch]); the
    properties follow from the grammars. *)
From Stdlib Require Import ZArith Lia Strings.Byte.
From stdpp Require Import base list gmap strings.
From S2P Require Import Prelude GoStrings GoText Errors Config Session Adapter AdapterSpec Triage.

(** ** Destinations *)

Lemma onlyMatch_spec p found listing r :
  onlyMatch p found listing = Some (Some r) ->
  (found = None /\ filter p listing = [r]) \/ (found = Some r /\ filter p listing = []).
Proof.
  revert found. induction listing as [|m rest IH]; intros found; cbn [onlyMatch].
  - intros [= ->]. by right.
  - destruct (p m) eqn:E; cbn [negb].
    + destruct found; [done|]. intros H. left. split; [done|].
      rewrite filter_cons_True by (by apply Is_true_true). apply IH in H as [[? _]|[[= ->] ->]]; done.
    + intros H. rewrite filter_cons_False by (rewrite E; intros []). by apply IH.
Qed.

(** One listed entry, selected by [p], as a destination. *)
Definition allowed (m : listedMailbox) (target : bytes) : Prop :=
  hasAttribute (Attributes m) refusedDestinationAttributes = false
  /\ ((equal_fold (Name m) $"INBOX" = true /\ target = $"INBOX")
      \/ (target = Name m
          /\ ((has_prefix target foldersPrefix = true /\ zlen foldersPrefix < zlen target)
              \/ (~ In "/"%byte target /\ hasAttribute (Attributes m) rootSystemAttributes = true)))).

Lemma resolve_allowed listing destination target :
  resolveMoveDestination listing destination = Some target ->
  exists m, filter (fun m => mailboxIdentityMatches destination (Name m)) listing = [m] /\ allowed m target.
Proof.
  unfold resolveMoveDestination. destruct (onlyMatch _ None listing) as [[m|]|] eqn:E; try done.
  apply onlyMatch_spec in E as [[_ E]|[? _]]; [|done].
  destruct (hasAttribute (Attributes m) refusedDestinationAttributes) eqn:Er; [done|].
  intros H. exists m. split; [done|]. split; [done|].
  destruct (equal_fold (Name m) $"INBOX") eqn:Ei; [injection H as <-; by left|]. right.
  destruct ((Delimiter m =? 47) && _ && _) eqn:Ef.
  - injection H as <-. split; [done|]. left. apply andb_prop in Ef as [Ef ?]. apply andb_prop in Ef as [_ ?].
    bool_prop. done.
  - destruct (isHierarchyRoot m && _) eqn:Eh; [|done]. injection H as <-. split; [done|]. right.
    apply andb_prop in Eh as [Eh ?]. split; [|done]. unfold isHierarchyRoot in Eh.
    destruct (contains_byte "/"%byte (Name m)) eqn:Ec; [done|]. by apply contains_byte_false.
Qed.

Lemma allowed_not_label m target : allowed m target -> has_prefix target $"Labels/" = false.
Proof.
  intros [_ [[_ ->]|[-> [[H _]|[H _]]]]]; [done| |]; destruct (has_prefix (Name m) $"Labels/") eqn:E; try done;
    apply has_prefix_spec in E as [r E]; rewrite E in H; [done|]. exfalso. apply H. cbn. tauto.
Qed.


(** An archive or trash target carries the attribute, no other listed
    entry does, and it passes every rule of an explicit destination; it is
    never an aggregate view. *)
Theorem attribute_destination_safe listing attribute target :
  resolveAttributeDestination listing attribute = Some target ->
  has_prefix target $"Labels/" = false
  /\ exists holder m,
       filter (fun m => hasAttribute (Attributes m) [attribute]) listing = [holder]
       /\ isAggregateView (Name holder) = false
       /\ filter (fun m => mailboxIdentityMatches (Name holder) (Name m)) listing = [m] /\ allowed m target.
Proof.
  unfold resolveAttributeDestination. destruct (onlyMatch _ None listing) as [[holder|]|] eqn:E; try done.
  apply onlyMatch_spec in E as [[_ E]|[? _]]; [|done].
  destruct (isAggregateView (Name holder)) eqn:Ev; [done|].
  intros H. apply resolve_allowed in H as (m & Hm & Ha). split; [by eapply allowed_not_label|]. by exists holder, m.
Qed.

(** ** Validation *)

Lemma validUIDs_spec seen uids :
  validUIDs seen uids = true -> NoDup uids /\ (forall u, u ∈ uids -> u <> 0 /\ u ∉ seen).
Proof.
  revert seen. induction uids as [|u rest IH]; intros seen; cbn [validUIDs]; [split; [constructor|set_solver]|].
  destruct (u =? 0) eqn:E0; [done|]. case_bool_decide as Hs; [done|].
  intros [Hn Hu]%IH. bool_prop. split.
  - constructor; [|done]. intros Hin. apply Hu in Hin. set_solver.
  - intros z [->|Hv]%elem_of_cons; [done|]. apply Hu in Hv. destruct Hv. split; [done|set_solver].
Qed.

Lemma validateTriageRequest_ok mailbox v uids :
  validateTriageRequest mailbox v uids = None ->
  NoDup uids /\ zlen uids <= 50 /\ (forall u, u ∈ uids -> u <> 0) /\ v <> 0 /\ mailbox <> [] /\ uids <> [].
Proof.
  unfold validateTriageRequest, MaxTriageUIDs. destruct (_ || _) eqn:E1; [done|]. destruct (_ || _) eqn:E2 in |- *; [done|].
  destruct (validUIDs ∅ uids) eqn:E3; [|done]. intros _. apply validUIDs_spec in E3 as [Hn Hu].
  apply orb_false_iff in E1 as [[E1 E4]%orb_false_iff E5]. apply orb_false_iff in E2 as [_ E2]. bool_prop.
  repeat split; try done; try (intros u Hin; by apply Hu).
  - by intros ->.
  - intros ->. by rewrite zlen_nil in E5.
Qed.

Section Spec.
Context {W S C : Type} `{B : Backend W S C}.
Variable config : ValidatedConfig.

(** ** The source *)

Definition quiet (e : event S) : Prop := match e with EvStore _ _ _ _ | EvMove _ _ _ _ => False | _ => True end.

Lemma invalidate_quiet (x : S) s s' u :
  invalidate x s = (u, s') -> exists l, eff s s' l /\ (l = [] \/ l = [EvAbort x]).
Proof.
  destruct u. intros [(_ & He & _)|[_ ->]]%invalidate_eff; eauto. exists []. split; [apply eff_refl|auto].
Qed.

Lemma cancel_eff (c : C) s s' u : cancel c s = (u, s') -> session s' = session s /\ eff s s' [].
Proof. unfold cancel. apply outside_eff. Qed.

Lemma operationContext_nil c s oc s' : operationContext config c s = (oc, s') -> eff s s' [].
Proof. by intros [_ ?]%operationContext_eff. Qed.

(** Dropping the session of a failed selection. *)
Lemma drop_eff (opened : option S) (b : bool) s s' u :
  (match opened with Some x => if b then invalidate x else ret tt | None => ret tt end) s = (u, s') ->
  exists l, eff s s' l /\ Forall quiet l.
Proof.
  destruct opened as [x|]; [destruct b|];
    [|intros [-> ->]%ret_inv; exists []; split; [apply eff_refl|constructor]..].
  intros (l & He & Hl)%invalidate_quiet. exists l. split; [done|]. destruct Hl as [->| ->]; by repeat constructor.
Qed.

Lemma sessionForOperation_quiet (c : C) s r s' :
  sessionForOperation c s = (r, s') -> exists l, eff s s' l /\ Forall quiet l.
Proof.
  intros [(_ & _ & ->)|[_ [(x & _ & _ & ->)|(_ & He & _)]]]%sessionForOperation_eff;
    [exists []|exists []|eexists]; (split; [first [apply eff_refl|exact He]|]); repeat constructor.
Qed.

Lemma selectTriageSource_spec (c : C) mailbox s opened sel s' :
  selectTriageSource c mailbox s = ((opened, sel), s') ->
  exists l, eff s s' l /\ Forall quiet l
    /\ forall x snap, opened = Some x -> sel = inl snap -> exists l0, l = l0 ++ [EvSelect x mailbox (inl snap)].
Proof.
  unfold selectTriageSource. intros (o & s1 & Ho & H)%bind_inv.
  apply sessionForOperation_quiet in Ho as (l & He & Hq).
  destruct o as [x|e]; [|apply ret_inv in H as [[= -> ->] ->]; exists l; done].
  destruct (negb (as_seen x)); [apply ret_inv in H as [[= -> ->] ->]; exists l; done|].
  apply bind_inv in H as (r & s2 & Hc & H). apply ret_inv in H as [[= -> ->] ->].
  apply call_eff in Hc as [_ Hec]. exists (l ++ [EvSelect x mailbox r]). split; [by eapply eff_trans|].
  split; [apply Forall_app; split; [done|by repeat constructor]|]. intros y snap [= ->] ->. eauto.
Qed.

Lemma openSource_spec c mailbox v n s r s' :
  openSourceLoop config c mailbox v n s = (r, s') ->
  exists l, eff s s' l /\ Forall quiet l
    /\ forall x, r = inl x -> exists l0 snapshot, l = l0 ++ [EvSelect x mailbox (inl snapshot)] /\ UIDValidity snapshot = v.
Proof.
  revert s. induction n as [|n IH]; intros s; cbn [openSourceLoop].
  { intros [-> ->]%ret_inv. exists []. split; [apply eff_refl|]. split; [constructor|done]. }
  intros (oc & s1 & He1%operationContext_nil & H)%bind_inv.
  apply bind_inv in H as ([opened sel] & s2 & Hsel & H).
  apply selectTriageSource_spec in Hsel as (l2 & He2 & Hq2 & Hsel).
  pose proof (eff_nil _ _ _ _ He1 He2) as He.
  destruct sel as [snap|err].
  - destruct opened as [x|]; [|apply ret_inv in H as [-> ->]; exists l2; done].
    apply bind_inv in H as (u & s3 & [_ He3]%cancel_eff & H).
    pose proof (eff_trans _ _ _ _ _ He He3) as He'. rewrite app_nil_r in He'.
    destruct (negb _) eqn:Ev; apply ret_inv in H as [-> ->]; exists l2; (split; [done|split; [done|]]); [done|].
    intros y [= <-]. destruct (Hsel x snap eq_refl eq_refl) as [l0 ->]. exists l0, snap. split; [done|].
    by bool_prop.
  - assert (exists (retry : bool) err' s6 l, eff s s6 l /\ Forall quiet l
      /\ (if retry then openSourceLoop config c mailbox v n else ret (inr err')) s6 = (r, s'))
      as (retry & err' & s6 & l & He6 & Hq6 & Hrest).
    { assert ((let! err := mapError oc err in
               let! retry := (if (n =? 1)%nat then canReplay oc err else ret false) in
               cancel oc ;;
               (match opened with
                | Some x => if retry || invalidatesSession err then invalidate x else ret tt
                | None => ret tt
                end) ;;
               if retry : bool then openSourceLoop config c mailbox v n else ret (inr err)) s2 = (r, s')) as H'
        by (destruct opened; exact H). clear H. rename H' into H.
      apply bind_inv in H as (err' & s3 & (_ & He3 & _)%mapError_eff & H).
      apply bind_inv in H as (retry & s4 & (_ & He4 & _)%replay_eff & H).
      apply bind_inv in H as (u & s5 & [_ He5]%cancel_eff & H).
      apply bind_inv in H as (u' & s6 & (l6 & He6 & Hq6)%drop_eff & H).
      exists retry, err', s6, (l2 ++ l6). split; [|split; [by apply Forall_app|exact H]].
      eapply eff_trans; [exact He|]. eapply eff_nil; [exact He3|]. eapply eff_nil; [exact He4|].
      by eapply eff_nil. }
    destruct retry.
    + apply IH in Hrest as (l' & He' & Hq' & Hr'). exists (l ++ l'). split; [by eapply eff_trans|].
      split; [by apply Forall_app|]. intros x Hx. destruct (Hr' x Hx) as (l0 & snap & -> & Hv).
      exists (l ++ l0), snap. by rewrite app_assoc.
    + apply ret_inv in Hrest as [-> ->]. exists l. done.
Qed.

(** ** One UID *)

Definition probe (x : S) (uid : Z) (ans : list Z + goerror) : event S :=
  EvSearch x emptyQuery (mkWindow uid uid) ans.

Lemma requireMessageUID_spec (c : C) x uid s r s' :
  requireMessageUID c x uid s = (r, s') ->
  exists ans, eff s s' [probe x uid ans] /\ (r = inl tt <-> ans = inl [uid]).
Proof.
  unfold requireMessageUID. intros (ans & s1 & [_ He]%call_eff & [-> ->]%ret_inv)%bind_inv.
  exists ans. split; [done|]. apply messageUIDPresent_exact.
Qed.

(** The events and the result of one Seen UID. *)
Inductive seen_one (x : S) (seen : bool) (uid : Z) : TriageResult -> bool -> list (event S) -> Prop :=
| so_absent ans : ans <> inl [uid] ->
    seen_one x seen uid (mkResult uid OutcomeRefused (Some CodeMessageNotFound)) false [probe x uid ans]
| so_lost ans d l : Forall quiet l ->
    seen_one x seen uid (mkResult uid OutcomeNotAttempted (Some d)) true (probe x uid ans :: l)
| so_applied :
    seen_one x seen uid (mkResult uid OutcomeApplied None) false [probe x uid (inl [uid]); EvStore x uid seen None]
| so_refused e :
    seen_one x seen uid (mkResult uid OutcomeRefused (Some CodeIMAPCommand)) false
      [probe x uid (inl [uid]); EvStore x uid seen (Some e)]
| so_unknown e d l : d <> CodeIMAPCommand -> Forall quiet l ->
    seen_one x seen uid (mkResult uid OutcomeUnknown (Some d)) true
      (probe x uid (inl [uid]) :: EvStore x uid seen (Some e) :: l).

Lemma storeSeen_spec c x uid seen s res stop s' :
  storeSeen config c x uid seen s = ((res, stop), s') -> exists l, eff s s' l /\ seen_one x seen uid res stop l.
Proof.
  unfold storeSeen. intros (oc & s1 & He1%operationContext_nil & H)%bind_inv.
  apply bind_inv in H as (present & s2 & (ans & He2 & Hans)%requireMessageUID_spec & H).
  pose proof (eff_nil _ _ _ _ He1 He2) as He.
  destruct present as [[]|err].
  - assert (ans = inl [uid]) as -> by (by apply Hans).
    apply bind_inv in H as (stored & s3 & [_ He3]%call_eff & H). pose proof (eff_trans _ _ _ _ _ He He3) as He'.
    destruct stored as [err|].
    + apply bind_inv in H as (err' & s4 & (_ & He4 & d & ->)%mapError_eff & H).
      pose proof (eff_trans _ _ _ _ _ He' He4) as He''. rewrite app_nil_r in He''. cbn [CodeOf errorCode] in H.
      case_bool_decide as Hd.
      * apply bind_inv in H as (u & s5 & [_ He5]%cancel_eff & H). apply ret_inv in H as [[= -> ->] ->].
        eexists. split; [eapply eff_trans; [exact He''|exact He5]|]. apply so_refused.
      * apply bind_inv in H as (u & s5 & (l5 & He5 & Hl5)%invalidate_quiet & H).
        apply bind_inv in H as (u' & s6 & [_ He6]%cancel_eff & H). apply ret_inv in H as [[= -> ->] ->].
        eexists. split; [eapply eff_trans; [exact He''|eapply eff_trans; [exact He5|exact He6]]|].
        apply so_unknown; [congruence|]. rewrite app_nil_r. destruct Hl5 as [->| ->]; by repeat constructor.
    + apply bind_inv in H as (u & s5 & [_ He5]%cancel_eff & H). apply ret_inv in H as [[= -> ->] ->].
      eexists. split; [eapply eff_trans; [exact He'|exact He5]|]. apply so_applied.
  - assert (ans <> inl [uid]) as Hne by (intros E; by apply Hans in E).
    case_bool_decide as Hd.
    + apply bind_inv in H as (u & s5 & [_ He5]%cancel_eff & H). apply ret_inv in H as [[= -> ->] ->].
      eexists. split; [eapply eff_trans; [exact He|exact He5]|]. by apply so_absent.
    + apply bind_inv in H as (u & s3 & (l3 & He3 & Hl3)%invalidate_quiet & H).
      apply bind_inv in H as (err' & s4 & (_ & He4 & d & ->)%mapError_eff & H).
      apply bind_inv in H as (u' & s5 & [_ He5]%cancel_eff & H). apply ret_inv in H as [[= -> ->] ->].
      eexists. split; [eapply eff_trans; [exact He|eapply eff_trans; [exact He3|eapply eff_trans; [exact He4|exact He5]]]|].
      cbn. apply so_lost. rewrite app_nil_r. destruct Hl3 as [->| ->]; by repeat constructor.
Qed.

(** The events and the result of one move; [resolve] sees the listing that
    immediately precedes the MOVE. *)
Inductive move_one (x : S) (resolve : list listedMailbox -> option bytes) (uid : Z)
  : TriageResult -> bool -> list (event S) -> Prop :=
| mo_absent ans : ans <> inl [uid] ->
    move_one x resolve uid (mkResult uid OutcomeRefused (Some CodeMessageNotFound)) false [probe x uid ans]
| mo_lost d l : Forall quiet l ->
    move_one x resolve uid (mkResult uid OutcomeNotAttempted (Some d)) true l
| mo_unsupported listing : resolve listing = None ->
    move_one x resolve uid (mkResult uid OutcomeRefused (Some CodeUnsupported)) false
      [probe x uid (inl [uid]); EvListing x (inl listing)]
| mo_empty listing : resolve listing = Some [] ->
    move_one x resolve uid zeroResult false [probe x uid (inl [uid]); EvListing x (inl listing)]
| mo_applied listing target : resolve listing = Some target ->
    move_one x resolve uid (mkResult uid OutcomeApplied None) false
      [probe x uid (inl [uid]); EvListing x (inl listing); EvMove x uid target None]
| mo_refused listing target e : resolve listing = Some target ->
    move_one x resolve uid (mkResult uid OutcomeRefused (Some CodeIMAPCommand)) false
      [probe x uid (inl [uid]); EvListing x (inl listing); EvMove x uid target (Some e)]
| mo_gone listing target e l : resolve listing = Some target -> Forall quiet l ->
    move_one x resolve uid (mkResult uid OutcomeRefused (Some CodeUnsupported)) false
      (probe x uid (inl [uid]) :: EvListing x (inl listing) :: EvMove x uid target (Some e) :: l)
| mo_unknown listing target e d l : resolve listing = Some target -> Forall quiet l ->
    d <> CodeUnsupported -> d <> CodeIMAPCommand ->
    move_one x resolve uid (mkResult uid OutcomeUnknown (Some d)) true
      (probe x uid (inl [uid]) :: EvListing x (inl listing) :: EvMove x uid target (Some e) :: l).

Lemma abandonUID_spec c x uid err s r s' :
  abandonUID c x uid err s = (r, s') ->
  exists l d, eff s s' l /\ Forall quiet l /\ r = mkResult uid OutcomeNotAttempted (Some d).
Proof.
  unfold abandonUID. intros (u & s3 & (l3 & He3 & Hl3)%invalidate_quiet & H)%bind_inv.
  apply bind_inv in H as (err' & s4 & (_ & He4 & d & ->)%mapError_eff & H). apply ret_inv in H as [-> ->].
  exists l3, d. pose proof (eff_trans _ _ _ _ _ He3 He4) as He. rewrite app_nil_r in He.
  split; [done|]. split; [|done]. destruct Hl3 as [->| ->]; by repeat constructor.
Qed.

(** What a preparation did: it found a target, or the UID is decided. *)
Lemma prepareMove_spec c x uid resolve s target res stop s' :
  prepareMove config c x uid resolve s = ((target, res, stop), s') ->
  (exists listing, eff s s' [probe x uid (inl [uid]); EvListing x (inl listing)] /\ resolve listing = Some target
      /\ res = zeroResult /\ stop = false)
  \/ (target = [] /\ exists l, eff s s' l /\ move_one x resolve uid res stop l).
Proof.
  unfold prepareMove. intros (oc & s1 & He1%operationContext_nil & H)%bind_inv.
  apply bind_inv in H as (present & s2 & (ans & He2 & Hans)%requireMessageUID_spec & H).
  pose proof (eff_nil _ _ _ _ He1 He2) as He.
  destruct present as [[]|err].
  - assert (ans = inl [uid]) as -> by (by apply Hans).
    apply bind_inv in H as (listing & s3 & [_ He3]%call_eff & H). pose proof (eff_trans _ _ _ _ _ He He3) as He'.
    destruct listing as [listing|err].
    + apply bind_inv in H as (u & s5 & [_ He5]%cancel_eff & H).
      pose proof (eff_trans _ _ _ _ _ He' He5) as He''. rewrite app_nil_r in He''.
      destruct (resolve listing) as [t|] eqn:Er; apply ret_inv in H as [[= -> -> ->] ->].
      * left. by exists listing.
      * right. split; [done|]. eexists. split; [exact He''|]. by apply mo_unsupported.
    + apply bind_inv in H as (r & s4 & (l & d & He4 & Hl & ->)%abandonUID_spec & H).
      apply bind_inv in H as (u & s5 & [_ He5]%cancel_eff & H). apply ret_inv in H as [[= -> -> ->] ->].
      right. split; [done|]. eexists. split; [eapply eff_trans; [exact He'|eapply eff_trans; [exact He4|exact He5]]|].
      apply mo_lost. rewrite app_nil_r. repeat (apply Forall_app; split); try done; by repeat constructor.
  - right. assert (ans <> inl [uid]) as Hne by (intros E; by apply Hans in E).
    case_bool_decide as Hd.
    + apply bind_inv in H as (u & s5 & [_ He5]%cancel_eff & H). apply ret_inv in H as [[= -> -> ->] ->].
      split; [done|]. eexists. split; [eapply eff_trans; [exact He|exact He5]|]. by apply mo_absent.
    + apply bind_inv in H as (r & s4 & (l & d & He4 & Hl & ->)%abandonUID_spec & H).
      apply bind_inv in H as (u & s5 & [_ He5]%cancel_eff & H). apply ret_inv in H as [[= -> -> ->] ->].
      split; [done|]. eexists. split; [eapply eff_trans; [exact He|eapply eff_trans; [exact He4|exact He5]]|].
      apply mo_lost. rewrite app_nil_r. apply Forall_app; split; [by repeat constructor|done].
Qed.

Lemma moveUID_spec c x uid resolve s res stop s' :
  moveUID config c x uid resolve s = ((res, stop), s') -> exists l, eff s s' l /\ move_one x resolve uid res stop l.
Proof.
  unfold moveUID. intros ([[target refusal] stop0] & s1 & Hp & H)%bind_inv.
  apply prepareMove_spec in Hp as [(listing & He & Hr & -> & ->)|(-> & l & He & Hl)].
  2: { apply ret_inv in H as [[= -> ->] ->]. by exists l. }
  destruct target as [|b target]; [apply ret_inv in H as [[= -> ->] ->]; eexists; split; [exact He|by apply mo_empty]|].
  apply bind_inv in H as (oc & s2 & He2%operationContext_nil & H).
  apply bind_inv in H as (moved & s3 & [_ He3]%call_eff & H).
  pose proof (eff_trans _ _ _ _ _ He (eff_nil _ _ _ _ He2 He3)) as He'. cbn [app] in He'.
  destruct moved as [err|].
  - apply bind_inv in H as (err' & s4 & (_ & He4 & d & ->)%mapError_eff & H).
    pose proof (eff_trans _ _ _ _ _ He' He4) as He''. cbn [app] in He''.
    assert (forall (d : code) (o : outcome) (st : bool),
      (invalidate x ;; cancel oc ;; ret (mkResult uid o (Some d), st)) s4 = ((res, stop), s') ->
      exists l, eff s s' ([probe x uid (inl [uid]); EvListing x (inl listing); EvMove x uid (b :: target) (Some err)] ++ l)
        /\ Forall quiet l /\ res = mkResult uid o (Some d) /\ stop = st) as Hdrop.
    { intros d0 o stop0 H0. apply bind_inv in H0 as (u & s5 & (l5 & He5 & Hl5)%invalidate_quiet & H0).
      apply bind_inv in H0 as (u' & s6 & [_ He6]%cancel_eff & H0). apply ret_inv in H0 as [[= -> ->] ->].
      exists l5. pose proof (eff_trans _ _ _ _ _ He5 He6) as He56. rewrite app_nil_r in He56.
      split; [by eapply eff_trans|]. split; [|done]. destruct Hl5 as [->| ->]; by repeat constructor. }
    cbn [CodeOf errorCode] in H.
    assert (d = CodeUnsupported \/ d = CodeIMAPCommand \/ (d <> CodeUnsupported /\ d <> CodeIMAPCommand)) as Hd
      by (destruct d; auto; right; right; done).
    destruct Hd as [->|[->|[Hd1 Hd2]]].
    + apply Hdrop in H as (l & He5 & Hl & -> & ->). eexists. split; [exact He5|]. by apply mo_gone.
    + apply bind_inv in H as (u & s5 & [_ He5]%cancel_eff & H). apply ret_inv in H as [[= -> ->] ->].
      eexists. split; [eapply eff_trans; [exact He''|exact He5]|]. by apply mo_refused.
    + assert ((invalidate x ;; cancel oc ;; ret (mkResult uid OutcomeUnknown (Some d), true)) s4 = ((res, stop), s')) as H'
        by (destruct d; done).
      apply Hdrop in H' as (l & He5 & Hl & -> & ->). eexists. split; [exact He5|]. by apply mo_unknown.
  - apply bind_inv in H as (u & s5 & [_ He5]%cancel_eff & H). apply ret_inv in H as [[= -> ->] ->].
    eexists. split; [eapply eff_trans; [exact He'|exact He5]|]. by apply mo_applied.
Qed.

(** ** Batches *)

Inductive seen_batch (x : S) (seen : bool) : list Z -> list TriageResult -> list (event S) -> Prop :=
| sb_nil : seen_batch x seen [] [] []
| sb_go uid rest res rs l ls : seen_one x seen uid res false l -> seen_batch x seen rest rs ls ->
    seen_batch x seen (uid :: rest) (res :: rs) (l ++ ls)
| sb_stop uid rest res l : seen_one x seen uid res true l ->
    seen_batch x seen (uid :: rest) (res :: pendingResults rest) l.

Inductive move_batch (x : S) (resolve : list listedMailbox -> option bytes)
  : bool -> list Z -> list TriageResult + goerror -> list (event S) -> Prop :=
| mb_nil w : move_batch x resolve w [] (inl []) []
| mb_unsupported w uid rest res stop l : move_one x resolve uid res stop l -> Code res = Some CodeUnsupported ->
    move_batch x resolve w (uid :: rest) (inl (res :: map refused (pendingResults rest))) l
| mb_failed uid rest res e l : move_one x resolve uid res true l -> Outcome res = OutcomeNotAttempted ->
    move_batch x resolve false (uid :: rest) (inr e) l
| mb_stop w uid rest res l : move_one x resolve uid res true l ->
    move_batch x resolve w (uid :: rest) (inl (res :: pendingResults rest)) l
| mb_go w uid rest res rs l ls : move_one x resolve uid res false l ->
    move_batch x resolve (w || bool_decide (Outcome res = OutcomeApplied)) rest rs ls ->
    move_batch x resolve w (uid :: rest) (match rs with inl rs => inl (res :: rs) | inr e => inr e end) (l ++ ls).

Lemma seenLoop_spec c x seen uids s results s' :
  seenLoop config c x seen uids s = (results, s') -> exists l, eff s s' l /\ seen_batch x seen uids results l.
Proof.
  revert s results s'. induction uids as [|uid rest IH]; intros s results s'; cbn [seenLoop].
  { intros [-> ->]%ret_inv. exists []. split; [apply eff_refl|constructor]. }
  intros ([res stop] & s1 & (l & He & Hl)%storeSeen_spec & H)%bind_inv. cbn [fst snd] in H. destruct stop.
  - apply ret_inv in H as [-> ->]. exists l. split; [done|by constructor].
  - apply bind_inv in H as (rs & s2 & (ls & Hes & Hls)%IH & H). apply ret_inv in H as [-> ->].
    exists (l ++ ls). split; [by eapply eff_trans|by constructor].
Qed.

Lemma moveLoop_spec c x resolve w uids s r s' :
  moveLoop config c x resolve w uids s = (r, s') -> exists l, eff s s' l /\ move_batch x resolve w uids r l.
Proof.
  revert w s r s'. induction uids as [|uid rest IH]; intros w s r s'; cbn [moveLoop].
  { intros [-> ->]%ret_inv. exists []. split; [apply eff_refl|constructor]. }
  intros ([res stop] & s1 & (l & He & Hl)%moveUID_spec & H)%bind_inv.
  case_bool_decide as Hc; [apply ret_inv in H as [-> ->]; exists l; split; [done|by eapply mb_unsupported]|].
  destruct (stop && negb w && _) eqn:Ef.
  { apply andb_prop in Ef as [Ef Ho]. apply andb_prop in Ef as [-> Hw]. apply bool_decide_eq_true in Ho. bool_prop.
    subst w. apply ret_inv in H as [-> ->]. exists l. split; [done|by eapply mb_failed]. }
  destruct stop; [apply ret_inv in H as [-> ->]; exists l; split; [done|by apply mb_stop]|].
  apply bind_inv in H as (rs & s2 & (ls & Hes & Hls)%IH & H). apply ret_inv in H as [-> ->].
  exists (l ++ ls). split; [by eapply eff_trans|by constructor].
Qed.

(** ** Every write is led by its checks *)

(** A STORE directly follows the answer that exactly its UID is present; a
    MOVE follows that answer and the listing that resolves to its target. *)
Inductive led (resolve : list listedMailbox -> option bytes) : list (event S) -> Prop :=
| led_nil : led resolve []
| led_quiet e l : quiet e -> led resolve l -> led resolve (e :: l)
| led_store x uid seen r l : led resolve l ->
    led resolve (probe x uid (inl [uid]) :: EvStore x uid seen r :: l)
| led_move x uid listing target r l : resolve listing = Some target -> led resolve l ->
    led resolve (probe x uid (inl [uid]) :: EvListing x (inl listing) :: EvMove x uid target r :: l).

Lemma led_app resolve l1 l2 : led resolve l1 -> led resolve l2 -> led resolve (l1 ++ l2).
Proof. intros H1 H2. induction H1; cbn; [done|by constructor..|]. by eapply led_move. Qed.

Lemma led_all_quiet resolve l : Forall quiet l -> led resolve l.
Proof. induction 1; by constructor. Qed.

(** The reading of [led] at one position. *)
Lemma led_at resolve l l1 e l2 :
  led resolve l -> l = l1 ++ e :: l2 ->
  match e with
  | EvStore x uid _ _ => exists l0, l1 = l0 ++ [probe x uid (inl [uid])]
  | EvMove x uid target _ => exists l0 listing,
      l1 = l0 ++ [probe x uid (inl [uid]); EvListing x (inl listing)] /\ resolve listing = Some target
  | _ => True
  end.
Proof.
  intros H. revert l1. induction H as [|e0 l He0 _ IH|x uid seen r l _ IH|x uid listing target r l Hr _ IH]; intros l1 E.
  - by destruct l1.
  - destruct l1 as [|e1 l1]; injection E as -> ->; [by destruct e|].
    specialize (IH l1 eq_refl). destruct e; try done.
    + destruct IH as [l0 ->]. by exists (e1 :: l0).
    + destruct IH as (l0 & listing & -> & ?). by exists (e1 :: l0), listing.
  - destruct l1 as [|e1 [|e2 l1]]; injection E as E; subst; try done; [by exists []|].
    specialize (IH l1 eq_refl). destruct e; try done.
    + destruct IH as [l0 ->]. by exists (probe x uid (inl [uid]) :: EvStore x uid seen r :: l0).
    + destruct IH as (l0 & listing & -> & ?).
      by exists (probe x uid (inl [uid]) :: EvStore x uid seen r :: l0), listing.
  - destruct l1 as [|e1 [|e2 [|e3 l1]]]; injection E as E; subst; try done; [by exists [], listing|].
    specialize (IH l1 eq_refl). destruct e; try done.
    + destruct IH as [l0 ->].
      by exists (probe x uid (inl [uid]) :: EvListing x (inl listing) :: EvMove x uid target r :: l0).
    + destruct IH as (l0 & listing' & -> & ?).
      by exists (probe x uid (inl [uid]) :: EvListing x (inl listing) :: EvMove x uid target r :: l0), listing'.
Qed.

Lemma seen_one_led x seen uid res stop l : seen_one x seen uid res stop l -> led (fun _ => None) l.
Proof. intros []; repeat first [constructor; fail | apply led_store | apply led_quiet; [done|] | by apply led_all_quiet | constructor]. Qed.

Lemma move_one_led x resolve uid res stop l : move_one x resolve uid res stop l -> led resolve l.
Proof.
  intros []; repeat first [by constructor | eapply led_move; [eassumption|] | by apply led_all_quiet | apply led_quiet; [done|]].
Qed.

Lemma seen_batch_led x seen uids rs l : seen_batch x seen uids rs l -> led (fun _ => None) l.
Proof.
  induction 1; [constructor|apply led_app; [by eapply seen_one_led|done]|by eapply seen_one_led].
Qed.

Lemma move_batch_led x resolve w uids rs l : move_batch x resolve w uids rs l -> led resolve l.
Proof.
  induction 1; try (by eapply move_one_led); [constructor|]. apply led_app; [by eapply move_one_led|done].
Qed.

(** ** What was written *)

Definition writes (l : list (event S)) : list Z :=
  omap (fun e => match e with EvStore _ uid _ _ | EvMove _ uid _ _ => Some uid | _ => None end) l.
Definition applied (l : list (event S)) : list Z :=
  omap (fun e => match e with EvStore _ uid _ None | EvMove _ uid _ None => Some uid | _ => None end) l.

Lemma writes_app l1 l2 : writes (l1 ++ l2) = writes l1 ++ writes l2.
Proof. apply omap_app. Qed.
Lemma applied_app l1 l2 : applied (l1 ++ l2) = applied l1 ++ applied l2.
Proof. apply omap_app. Qed.
Lemma quiet_writes l : Forall quiet l -> writes l = [] /\ applied l = [].
Proof. induction 1 as [|e l He _ [IH1 IH2]]; [done|]. unfold writes, applied in *. cbn. by destruct e. Qed.

(** The results that were reached with a write. *)
Definition written (r : TriageResult) : Prop :=
  Outcome r = OutcomeApplied \/ Outcome r = OutcomeUnknown
  \/ (Outcome r = OutcomeRefused /\ Code r = Some CodeIMAPCommand).
#[global] Instance written_dec r : Decision (written r). Proof. unfold written. solve_decision. Defined.
Definition was_applied (r : TriageResult) : Prop := Outcome r = OutcomeApplied.
#[global] Instance was_applied_dec r : Decision (was_applied r). Proof. unfold was_applied. solve_decision. Defined.

Lemma pending_UID uids : map UID (pendingResults uids) = uids.
Proof. unfold pendingResults. rewrite map_map. apply map_id. Qed.
Lemma pending_not_written uids :
  filter written (pendingResults uids) = [] /\ filter was_applied (pendingResults uids) = [].
Proof. 
  induction uids as [|u uids [IH1 IH2]]; [done|]. unfold pendingResults in *. cbn [map]. rewrite !filter_cons.
  case_decide as H1; [destruct H1 as [H1|[H1|[H1 _]]]; discriminate H1|].
  case_decide as H2; [discriminate H2|]. done.
Qed.

Lemma quiet_tail l : Forall quiet l -> writes l = [] /\ applied l = [] /\ forall x uid seen r, EvStore x uid seen r ∉ l.
Proof.
  intros H. destruct (quiet_writes l H) as [H1 H2]. split; [done|split; [done|]].
  intros x uid seen r Hin. rewrite Forall_forall in H. exact (H _ Hin).
Qed.

Lemma seen_one_writes x seen uid res stop l :
  seen_one x seen uid res stop l ->
  UID res = uid /\ writes l = map UID (filter written [res]) /\ applied l = map UID (filter was_applied [res]).
Proof.
  intros H. destruct H as [ans Hne|ans d l Hl|  |e|e d l Hd Hl]; (split; [done|]);
    try (destruct (quiet_writes l Hl) as [Hw Ha]; unfold writes, applied in *; cbn; rewrite ?Hw, ?Ha); done.
Qed.

Lemma seen_batch_writes x seen uids rs l :
  seen_batch x seen uids rs l ->
  map UID rs = uids /\ writes l = map UID (filter written rs) /\ applied l = map UID (filter was_applied rs).
Proof.
  induction 1 as [|uid rest res rs l ls Hone _ (IH1 & IH2 & IH3)|uid rest res l Hone]; [done| |];
    apply seen_one_writes in Hone as (H1 & H2 & H3); cbn [map]; rewrite H1.
  - split; [by rewrite IH1|]. rewrite writes_app, applied_app, H2, H3, IH2, IH3.
    by rewrite <- !map_app, <- !filter_app.
  - split; [by rewrite pending_UID|]. destruct (pending_not_written rest) as [P1 P2].
    change (res :: pendingResults rest) with ([res] ++ pendingResults rest).
    by rewrite !filter_app, P1, P2, !app_nil_r.
Qed.

(** Once a write may or may not have applied, nothing more is sent. *)
Definition halted (rs : list TriageResult) : Prop :=
  forall r1 r r2, rs = r1 ++ r :: r2 -> Outcome r = OutcomeUnknown -> r2 = pendingResults (map UID r2).

Lemma pending_halted uids : halted (pendingResults uids).
Proof.
  intros r1 r r2 E Hr. assert (r ∈ pendingResults uids) as Hin by (rewrite E; set_solver).
  unfold pendingResults in Hin. apply list_elem_of_fmap in Hin as (u & -> & _). done.
Qed.

Lemma halted_cons r rs : Outcome r <> OutcomeUnknown -> halted rs -> halted (r :: rs).
Proof. intros Hr Hrs [|r0 r1] r' r2 [= -> E] Ho; [done|]. by eapply Hrs. Qed.

Lemma halted_stop r uids : halted (r :: pendingResults uids).
Proof. intros [|r0 r1] r' r2 [= -> E] Ho; [subst; by rewrite pending_UID|]. by eapply pending_halted. Qed.

Lemma seen_batch_halted x seen uids rs l : seen_batch x seen uids rs l -> halted rs.
Proof.
  induction 1 as [|uid rest res rs l ls Hone _ IH|uid rest res l Hone]; [by intros []| |apply halted_stop].
  apply halted_cons; [|done]. inversion Hone; done.
Qed.

(** Moves: the same, when the resolver never answers with an empty name. *)
Lemma move_one_writes x resolve uid res stop l :
  (forall listing, resolve listing <> Some []) -> move_one x resolve uid res stop l ->
  UID res = uid /\ applied l = map UID (filter was_applied [res]) /\ writes l `sublist_of` [uid].
Proof.
  intros Hne H.
  destruct H as [ans Ha|d l Hl|listing Hr|listing Hr|listing t Hr|listing t e Hr|listing t e l Hr Hl|listing t e d l Hr Hl Hd1 Hd2];
    try (by destruct (Hne listing)); (split; [done|]);
    try (destruct (quiet_writes l Hl) as [Hw Hap]; unfold writes, applied in *; cbn; rewrite ?Hw, ?Hap);
    (split; [done|]); repeat constructor.
Qed.

Lemma refused_UID uids : map UID (map refused (pendingResults uids)) = uids.
Proof. unfold pendingResults. rewrite !map_map. apply map_id. Qed.
Lemma refused_not_applied uids : filter was_applied (map refused (pendingResults uids)) = [].
Proof.
  induction uids as [|u uids IH]; [done|]. unfold pendingResults in *. cbn [map]. rewrite filter_cons.
  case_decide as H2; [discriminate H2|]. done.
Qed.
Lemma refused_halted uids : halted (map refused (pendingResults uids)).
Proof.
  intros r1 r r2 E Hr. assert (r ∈ map refused (pendingResults uids)) as Hin by (rewrite E; set_solver).
  apply list_elem_of_fmap in Hin as (u & -> & _). done.
Qed.

Lemma move_one_unknown x resolve uid res stop l :
  move_one x resolve uid res stop l -> Outcome res = OutcomeUnknown ->
  stop = true /\ Code res <> Some CodeUnsupported.
Proof. intros [] Ho; try discriminate Ho. split; [done|]. cbn. congruence. Qed.

Lemma move_batch_writes x resolve w uids r l :
  (forall listing, resolve listing <> Some []) -> move_batch x resolve w uids r l ->
  writes l `sublist_of` uids /\
  match r with
  | inl rs => map UID rs = uids /\ applied l = map UID (filter was_applied rs) /\ halted rs
  | inr _ => w = false /\ applied l = []
  end.
Proof.
  intros Hne. induction 1 as [w|w uid rest res stop l Hone Hc|uid rest res e l Hone Ho|w uid rest res l Hone|w uid rest res rs l ls Hone _ [IHw IH]].
  - split; [constructor|]. split; [done|split; [done|by intros []]].
  - pose proof (move_one_writes _ _ _ _ _ _ Hne Hone) as (H1 & H2 & H3).
    split; [by apply (sublist_inserts_r rest (writes l) [uid])|]. cbn [map]. rewrite H1, refused_UID, H2.
    change (res :: map refused (pendingResults rest)) with ([res] ++ map refused (pendingResults rest)).
    rewrite filter_app, refused_not_applied, app_nil_r. split; [done|split; [done|]].
    apply halted_cons; [|apply refused_halted]. intros Ho. by destruct (move_one_unknown _ _ _ _ _ _ Hone Ho).
  - pose proof (move_one_writes _ _ _ _ _ _ Hne Hone) as (H1 & H2 & H3).
    split; [by apply (sublist_inserts_r rest (writes l) [uid])|]. split; [done|]. rewrite H2.
    rewrite filter_cons. case_decide as Hd; [unfold was_applied in Hd; congruence|done].
  - pose proof (move_one_writes _ _ _ _ _ _ Hne Hone) as (H1 & H2 & H3).
    split; [by apply (sublist_inserts_r rest (writes l) [uid])|]. cbn [map]. rewrite H1, pending_UID, H2.
    destruct (pending_not_written rest) as [_ P2].
    change (res :: pendingResults rest) with ([res] ++ pendingResults rest).
    rewrite filter_app, P2, app_nil_r. split; [done|split; [done|]]. apply halted_stop.
  - pose proof (move_one_writes _ _ _ _ _ _ Hne Hone) as (H1 & H2 & H3).
    rewrite writes_app. split; [by apply (sublist_app _ [uid] _ rest)|]. rewrite applied_app, H2.
    destruct rs as [rs|e].
    + destruct IH as (I1 & I2 & I3). cbn [map]. rewrite H1, I1, I2, <- map_app, <- filter_app.
      split; [done|split; [done|]]. apply halted_cons; [|done]. intros Ho. by destruct (move_one_unknown _ _ _ _ _ _ Hone Ho).
    + destruct IH as [I1 I2]. apply orb_false_iff in I1 as [-> I1]. split; [done|]. rewrite I2, filter_cons.
      apply bool_decide_eq_false in I1. case_decide; [done|]. done.
Qed.

(** ** The operations *)

(** The gate taken, the source opened, then [m], and the gate returned. *)
Lemma gated_spec c s (e : option goerror) s1 s2 s3 l1 l2 (u : unit) s4 :
  acquire c s = (e, s1) -> e = None -> eff s1 s2 l1 -> eff s2 s3 l2 -> release s3 = (u, s4) ->
  log s4 = log s ++ map (pair true) (l1 ++ l2) /\ held s4 = false.
Proof.
  intros (_ & _ & Hl1 & Hh1)%acquire_spec -> He1 He2 Hr. unfold release, set_held in Hr. injection Hr as _ <-. cbn.
  rewrite (eff_log _ _ _ (eff_trans _ _ _ _ _ He1 He2)), Hl1, Hh1. done.
Qed.

(** What a triage batch reports against what it sent. *)
Record batch_report (resolve : list listedMailbox -> option bytes) (mailbox : bytes) (v : Z) (uids : list Z)
  (l : list (event S)) (results : list TriageResult) : Prop := {
  br_order : map UID results = uids;
  br_applied : applied l = map UID (filter was_applied results);
  br_writes : writes l `sublist_of` uids;
  br_halted : halted results }.

(** No write before the source was selected in the expected generation, and
    every write led by its checks. *)
Definition batch_safe (resolve : list listedMailbox -> option bytes) (mailbox : bytes) (v : Z) (l : list (event S)) : Prop :=
  led resolve l
  /\ (writes l <> [] -> exists l0 x snapshot l2, l = l0 ++ EvSelect x mailbox (inl snapshot) :: l2
        /\ UIDValidity snapshot = v /\ writes l0 = []).

Lemma batch_safe_intro resolve mailbox v l0 x snapshot l2 :
  Forall quiet (l0 ++ [EvSelect x mailbox (inl snapshot)]) -> UIDValidity snapshot = v -> led resolve l2 ->
  batch_safe resolve mailbox v ((l0 ++ [EvSelect x mailbox (inl snapshot)]) ++ l2).
Proof.
  intros Hq Hv Hl. split; [apply led_app; [by apply led_all_quiet|done]|]. intros _.
  exists l0, x, snapshot, l2. rewrite <- app_assoc. apply Forall_app in Hq as [Hq _].
  split; [done|split; [done|]]. by apply quiet_writes.
Qed.

Lemma batch_safe_quiet resolve mailbox v l : Forall quiet l -> batch_safe resolve mailbox v l.
Proof. intros H. split; [by apply led_all_quiet|]. by rewrite (proj1 (quiet_writes _ H)). Qed.

Lemma SetSeen_spec c mailbox v uids seen s r s' :
  SetSeen config c mailbox v uids seen s = (r, s') ->
  exists l, log s' = log s ++ map (pair true) l /\ batch_safe (fun _ => None) mailbox v l
    /\ match r with
       | inl results => NoDup uids /\ map UID results = uids /\ writes l = map UID (filter written results)
           /\ applied l = map UID (filter was_applied results) /\ halted results
       | inr _ => writes l = []
       end.
Proof.
  unfold SetSeen. destruct (validateTriageRequest mailbox v uids) eqn:Ev.
  { intros [-> ->]%ret_inv. exists []. rewrite app_nil_r. split; [done|]. split; [by apply batch_safe_quiet|done]. }
  apply validateTriageRequest_ok in Ev as [Hnd _]. intros (e & s1 & Hacq & H)%bind_inv.
  destruct e as [e|].
  { apply ret_inv in H as [-> ->]. apply acquire_spec in Hacq as (_ & _ & Hl & _). exists [].
    rewrite app_nil_r. split; [done|]. split; [by apply batch_safe_quiet|done]. }
  apply bind_inv in H as (source & s2 & (l1 & He1 & Hq1 & Hsel)%openSource_spec & H).
  destruct source as [x|e].
  - apply bind_inv in H as (results & s3 & (l2 & He2 & Hb)%seenLoop_spec & H).
    apply bind_inv in H as (u & s4 & Hrel & [-> ->]%ret_inv).
    destruct (Hsel x eq_refl) as (l0 & snapshot & -> & Hv). exists ((l0 ++ [EvSelect x mailbox (inl snapshot)]) ++ l2).
    destruct (gated_spec _ _ _ _ _ _ _ _ _ _ Hacq eq_refl He1 He2 Hrel) as [Hlog _]. split; [done|].
    split; [apply batch_safe_intro; [done|done|by eapply seen_batch_led]|].
    apply seen_batch_writes in Hb as Hb'. destruct Hb' as (H1 & H2 & H3).
    destruct (quiet_writes _ Hq1) as [Hw Ha]. rewrite writes_app, applied_app, Hw, Ha. cbn [app].
    split; [done|]. do 3 (split; [done|]). by eapply seen_batch_halted.
  - apply bind_inv in H as (u & s4 & Hrel & [-> ->]%ret_inv). exists (l1 ++ []).
    destruct (gated_spec _ _ _ _ _ _ _ _ _ _ Hacq eq_refl He1 (eff_refl s2) Hrel) as [Hlog _]. split; [done|].
    rewrite app_nil_r. split; [by apply batch_safe_quiet|]. by apply quiet_writes.
Qed.

Lemma refuseRemaining_all uids : refuseRemaining (pendingResults uids) 0 = map refused (pendingResults uids).
Proof. done. Qed.

Lemma move_spec c mailbox v uids resolve s r s' :
  (forall listing, resolve listing <> Some []) -> move config c mailbox v uids resolve s = (r, s') ->
  exists l, log s' = log s ++ map (pair true) l /\ batch_safe resolve mailbox v l
    /\ writes l `sublist_of` uids
    /\ match r with
       | inl results => map UID results = uids /\ applied l = map UID (filter was_applied results) /\ halted results
       | inr _ => applied l = []
       end.
Proof.
  intros Hne. unfold move. intros (e & s1 & Hacq & H)%bind_inv.
  assert (forall l, Forall quiet l -> writes l `sublist_of` uids) as Hsub.
  { intros l Hl. rewrite (proj1 (quiet_writes l Hl)). apply sublist_nil_l. }
  destruct e as [e|].
  { apply ret_inv in H as [-> ->]. apply acquire_spec in Hacq as (_ & _ & Hl & _). exists [].
    rewrite app_nil_r. split; [done|]. split; [by apply batch_safe_quiet|]. split; [by apply Hsub|done]. }
  apply bind_inv in H as (source & s2 & (l1 & He1 & Hq1 & Hsel)%openSource_spec & H).
  destruct (quiet_writes _ Hq1) as [Hw Ha].
  assert (forall (v0 : list TriageResult + goerror) s0, eff s2 s0 [] -> (release ;; ret v0) s0 = (r, s') ->
    r = v0 /\ log s' = log s ++ map (pair true) l1) as Hend.
  { intros v0 s0 He0 H0. apply bind_inv in H0 as (u & s4 & Hrel & [-> ->]%ret_inv). split; [done|].
    destruct (gated_spec _ _ _ _ _ _ _ _ _ _ Hacq eq_refl He1 He0 Hrel) as [Hlog _]. by rewrite app_nil_r in Hlog. }
  destruct source as [x|e].
  2: { apply Hend in H as [-> Hlog]; [|apply eff_refl]. exists l1. split; [done|]. split; [by apply batch_safe_quiet|].
       split; [by apply Hsub|done]. }
  destruct (negb (as_move x)).
  { apply Hend in H as [-> Hlog]; [|apply eff_refl]. exists l1. split; [done|]. split; [by apply batch_safe_quiet|].
    split; [by apply Hsub|done]. }
  apply bind_inv in H as (supported & s3 & [_ He3]%outside_eff & H). destruct (negb supported).
  { apply Hend in H as [-> Hlog]; [|done]. exists l1. split; [done|]. split; [by apply batch_safe_quiet|].
    split; [by apply Hsub|]. rewrite refuseRemaining_all, refused_UID, refused_not_applied, Ha.
    split; [done|split; [done|]]. apply refused_halted. }
  apply bind_inv in H as (rs & s4 & (l2 & He4 & Hb)%moveLoop_spec & H).
  apply bind_inv in H as (u & s5 & Hrel & [-> ->]%ret_inv).
  destruct (Hsel x eq_refl) as (l0 & snapshot & -> & Hv). exists ((l0 ++ [EvSelect x mailbox (inl snapshot)]) ++ l2).
  destruct (gated_spec _ _ _ _ _ _ _ _ _ _ Hacq eq_refl He1 (eff_nil _ _ _ _ He3 He4) Hrel) as [Hlog _]. split; [done|].
  split; [apply batch_safe_intro; [done|done|by eapply move_batch_led]|].
  apply move_batch_writes in Hb as [Hbw Hb]; [|done].
  rewrite writes_app, applied_app, Hw, Ha. cbn [app]. split; [done|]. destruct rs; [done|]. by destruct Hb.
Qed.

(** The Seen outcomes are the truth about what was sent: one result per
    requested UID in request order, a STORE exactly for the UIDs reported as
    applied, unknown or refused by the server, an acknowledged STORE exactly
    for the applied ones, and none after an unknown one. *)
Theorem set_seen_outcomes c mailbox v uids seen s results s' :
  SetSeen config c mailbox v uids seen s = (inl results, s') ->
  exists l, log s' = log s ++ map (pair true) l
    /\ NoDup uids /\ map UID results = uids /\ writes l = map UID (filter written results)
    /\ applied l = map UID (filter was_applied results) /\ halted results.
Proof. intros (l & Hlog & _ & H)%SetSeen_spec. by exists l. Qed.


(** The requests that reach [move], with the resolver each gives it. *)
Inductive move_request (mailbox : bytes) (v : Z) (uids : list Z)
  : (list listedMailbox -> option bytes) -> st W S -> list TriageResult + goerror -> st W S -> Prop :=
| request_move c destination s r s' :
    Move config c mailbox v uids destination s = (r, s') ->
    move_request mailbox v uids (fun listing => resolveMoveDestination listing destination) s r s'
| request_attribute c attribute s r s' :
    moveToAttribute config c mailbox v uids attribute s = (r, s') ->
    move_request mailbox v uids (attributeResolver mailbox attribute) s r s'.

Lemma move_request_spec mailbox v uids resolve s r s' :
  move_request mailbox v uids resolve s r s' -> (forall listing, resolve listing <> Some []) ->
  exists l, log s' = log s ++ map (pair true) l /\ batch_safe resolve mailbox v l /\ writes l `sublist_of` uids
    /\ match r with
       | inl results => NoDup uids /\ map UID results = uids /\ applied l = map UID (filter was_applied results)
           /\ halted results
       | inr _ => applied l = []
       end.
Proof.
  assert (forall resolve (r0 r : list TriageResult + goerror) (s s' : st W S),
    ret r0 s = (r, s') -> (match r0 with inl results => NoDup uids /\ map UID results = uids
      /\ filter was_applied results = [] /\ halted results | inr _ => True end) ->
    exists l, log s' = log s ++ map (pair true) l /\ batch_safe resolve mailbox v l /\ writes l `sublist_of` uids
    /\ match r with
       | inl results => NoDup uids /\ map UID results = uids /\ applied l = map UID (filter was_applied results)
           /\ halted results
       | inr _ => applied l = [] end) as Hnone.
  { intros resolve0 r0 r1 s0 s0' [-> ->]%ret_inv Hr0. exists []. rewrite app_nil_r. split; [done|].
    split; [by apply batch_safe_quiet|]. split; [apply sublist_nil_l|]. destruct r0; [|done].
    destruct Hr0 as (H1 & H2 & -> & H4). done. }
  intros [c destination s0 r0 s0' H|c attribute s0 r0 s0' H] Hne.
  - unfold Move in H. destruct (validateTriageRequest mailbox v uids) eqn:Ev; [by eapply Hnone|].
    apply validateTriageRequest_ok in Ev as [Hnd _].
    destruct (validateMoveDestination destination); [by eapply Hnone|].
    destruct (mailboxIdentityMatches mailbox destination).
    + eapply Hnone; [exact H|]. rewrite refuseRemaining_all. split; [done|]. split; [apply refused_UID|].
      split; [apply refused_not_applied|apply refused_halted].
    + apply move_spec in H as (l & Hl & Hsafe & Hw & H); [|done]. exists l. split; [done|split; [done|split; [done|]]].
      destruct r0; [|done]. by destruct H as (? & ? & ?).
  - unfold moveToAttribute in H. destruct (validateTriageRequest mailbox v uids) eqn:Ev; [by eapply Hnone|].
    apply validateTriageRequest_ok in Ev as [Hnd _].
    apply move_spec in H as (l & Hl & Hsafe & Hw & H); [|done]. exists l. split; [done|split; [done|split; [done|]]].
    destruct r0; [|done]. by destruct H as (? & ? & ?).
Qed.

(** A move, archive or trash request: one result per requested UID in
    order, at most one MOVE per UID in that order, a UID is reported as applied
    exactly when its MOVE was acknowledged, nothing is sent after an unknown
    one, and a request that fails as a whole moved nothing. *)
Theorem move_outcomes mailbox v uids resolve s r s' :
  move_request mailbox v uids resolve s r s' -> (forall listing, resolve listing <> Some []) ->
  exists l, log s' = log s ++ map (pair true) l /\ writes l `sublist_of` uids
    /\ match r with
       | inl results => NoDup uids /\ map UID results = uids /\ applied l = map UID (filter was_applied results)
           /\ halted results
       | inr _ => applied l = []
       end.
Proof. intros H Hne. destruct (move_request_spec _ _ _ _ _ _ _ H Hne) as (l & ? & _ & ?). by exists l. Qed.

End Spec.

(** An explicit destination is never resolved to an empty name. *)
Lemma resolve_nonempty destination listing : destination <> [] -> resolveMoveDestination listing destination <> Some [].
Proof.
  intros Hd (m & Hm & _ & H)%resolve_allowed. assert (m ∈ [m]) as Hin by (by apply list_elem_of_singleton).
  rewrite <- Hm in Hin. apply list_elem_of_filter in Hin as [Hin _]. apply Is_true_true in Hin.
  unfold mailboxIdentityMatches in Hin. destruct H as [[_ ?]|[Hn _]]; [done|]. rewrite <- Hn in Hin.
  destruct (equal_fold destination $"INBOX"); [done|]. apply beqs_eq in Hin. done.
Qed.
