(* ===== verification/AdapterRuns.v ===== *)
(** * Concrete runs of the adapter

    A small server as an instance of [Backend], with runs of the adapter and
    of the triage operations against it that exercise every property of
    [AdapterSpec] and [TriageSpec]. *)
From Stdlib Require Import ZArith Lia Strings.Byte.
From stdpp Require Import base list gmap strings.
From S2P Require Import Prelude GoStrings GoText Errors Config Session Adapter MessageID Search AdapterSpec SearchSpec Triage TriageSpec.

(** ** A server *)

(** The world counts the sessions opened; session 0 has lost its transport.
    UID 9 is absent, UID 3 is refused and UID 4 loses the connection. *)
Definition sample_listing : list listedMailbox :=
  [ mkListed $"INBOX" 47 []; mkListed $"Folders/Work" 47 []; mkListed $"Labels/Work" 47 [];
    mkListed $"Archive" 47 [$"\HasNoChildren"; $"\Archive"]; mkListed $"Starred" 47 [$"\Flagged"] ].

Definition write_answer (uid : Z) : option goerror :=
  if uid =? 3 then Some [NImap] else if uid =? 4 then Some [NEOF] else None.

Definition sample_metadata (uid : Z) : MessageMetadata :=
  mkMetadata [] [] 0 0 $"Re: plan" 512 $"Ann" $"2024-01-02T03:04:05Z" DateSourceHeader ReadStateUnread false uid.

(** A server that lists [listing]. *)
Definition server (listing : list listedMailbox) : Backend nat nat unit := {|
  session_eq := Nat.eq_dec;
  background := tt;
  ctx_now := fun _ w => (live_ctx, w);
  ctx_done_first := fun _ w => (false, w);
  ctx_remaining := fun _ w => (None, w);
  ctx_with_timeout := fun _ _ w => (tt, w);
  ctx_cancel := fun _ w => w;
  factory := fun _ w => (inl w, Datatypes.S w);
  op_list := fun _ _ _ w => (inl [mkFolder $"INBOX" $"/"], w);
  op_status := fun _ _ _ w => (inl (mkStatus 1 100 5 0), w);
  op_examine := fun _ s _ w => ((if (s =? 0)%nat then inr (errorCode CodeBridgeUnreachable) else inl (mkSnapshot 350 5)), w);
  op_search := fun _ _ _ window _ w => (inl (if Start window =? 9 then [] else [Start window]), w);
  op_metadata := fun _ _ _ uids _ w => (inl (map sample_metadata uids), w);
  op_body := fun _ _ _ _ w => (inl $"body", w);
  op_logout := fun _ _ w => (None, w);
  op_abort := fun _ w => w;
  as_headers := fun _ => false;
  as_seen := fun _ => true;
  as_move := fun _ => true;
  op_headers := fun _ _ _ _ w => (inr (errorCode CodeUnsupported), w);
  op_select := fun _ s _ w => ((if (s =? 0)%nat then inr (errorCode CodeBridgeUnreachable) else inl (mkSnapshot 100 5)), w);
  op_store := fun _ _ uid _ w => (write_answer uid, w);
  op_supports_move := fun _ w => (true, w);
  op_list_mailboxes := fun _ _ _ _ w => (inl listing, w);
  op_move := fun _ _ uid _ w => (write_answer uid, w) |}.

#[local] Instance sample_server : Backend nat nat unit := server sample_listing.

Definition start : st nat nat := mkSt None false false 0%nat [].
Definition adapter_config : ValidatedConfig :=
  match ValidateConfig loopback_only true sample_config with
  | inl v => v
  | inr _ => mkValidated (cIMAP sample_config) defaultBounds false
  end.

(** ** Runs of execute *)

(** EXAMINE, then the body: fails on the first session, then succeeds. *)
Definition sample_operation (c : unit) (s : nat) : M nat nat (bytes + goerror) :=
  try! _ := read (op_examine c s $"INBOX") s in read (op_body c s 1 10) s.

Lemma sample_calm oc x : calm (sample_operation oc x).
Proof. apply calm_try; [apply read_calm|]. intros _. apply read_calm. Qed.

Definition sample_run := execute adapter_config tt sample_operation start.

Example sample_replays : attempts (map snd (log (snd sample_run)))
  = [(0%nat, Some (errorCode CodeBridgeUnreachable)); (1%nat, None)] /\ fst sample_run = inl $"body".
Proof. vm_compute. done. Qed.

Lemma execute_serialized_witness :
  held start = false /\ held (snd sample_run) = false
  /\ exists l, log (snd sample_run) = log start ++ map (pair true) l.
Proof.
  split; [done|].
  destruct (execute_serialized adapter_config sample_operation tt start (fst sample_run) (snd sample_run)
              sample_calm eq_refl (surjective_pairing _)) as (H1 & _ & l & H2 & _).
  split; [exact H1|]. exists l. exact H2.
Defined.

Lemma execute_replay_witness :
  exists l, log (snd sample_run) = log start ++ map (pair true) l /\ (length (attempts l) <= 2)%nat.
Proof.
  destruct (execute_replay adapter_config sample_operation tt start (fst sample_run) (snd sample_run)
              sample_calm (surjective_pairing _)) as (l & H1 & H2 & _).
  exists l. exact (conj H1 H2).
Defined.

Definition failing_operation (_ : unit) (_ : nat) : M nat nat (unit + goerror) := fail CodeIMAPProtocol.
Definition failing_run := execute adapter_config tt failing_operation start.

Lemma failing_calm oc x : calm (failing_operation oc x).
Proof. apply calm_ret. Qed.

Lemma execute_drops_witness :
  attempts (map snd (log (snd failing_run))) = [(0%nat, Some (errorCode CodeIMAPProtocol))]
  /\ exists l, log (snd failing_run) = log start ++ map (pair true) l
     /\ (last (attempts l) = Some (0%nat, Some (errorCode CodeIMAPProtocol)) -> session (snd failing_run) = None).
Proof.
  split; [vm_compute; reflexivity|].
  destruct (execute_drops adapter_config failing_operation tt start (fst failing_run) (snd failing_run)
              failing_calm (surjective_pairing _)) as (l & H1 & H2).
  exists l. split; [exact H1|]. intros Hl. apply (H2 _ _ Hl). exists CodeIMAPProtocol. split; [done|]. set_solver.
Defined.

Definition folders_run := ListFolders adapter_config tt start.

Lemma read_operations_never_write_witness :
  exists l, log (snd folders_run) = log start ++ l /\ forall uid seen r, (true, EvStore 0%nat uid seen r) ∉ l.
Proof.
  destruct (read_operations_never_write adapter_config start (snd folders_run)) as (l & H1 & H2).
  - exact (reads_folders adapter_config tt start (fst folders_run) (snd folders_run) (surjective_pairing _)).
  - exists l. split; [exact H1|]. apply (H2 true 0%nat).
Defined.

(** ** A search *)

Definition sample_mac (_ : bytes) : bytes := replicate 32 x41.
Definition sample_query : SearchQuery := mkQuery $"INBOX" 0 0 [] [] true.
Definition search_run := SearchMailPage adapter_config sample_mac tt sample_query start.
Definition sample_page : SearchPage := match fst search_run with inl p => p | inr _ => mkPage [] false end.

Example sample_page_is : map mUID (Messages sample_page) = [250; 150; 50; 1] /\ Truncated sample_page = false.
Proof. vm_compute. done. Qed.

Lemma search_run_ok : SearchMailPage adapter_config sample_mac tt sample_query start = (inl sample_page, snd search_run).
Proof. vm_compute. reflexivity. Qed.

Lemma sample_uint32 c x mailbox w snapshot w' :
  op_examine (Backend := sample_server) c x mailbox w = (inl snapshot, w') -> 0 <= UIDNext snapshot < 2 ^ 32.
Proof. cbn. destruct (x =? 0)%nat; intros [=]; subst; cbn; lia. Qed.

Lemma search_page_witness :
  exists rounds next, map rWindow rounds = take (length rounds) (windows_from maxSearchWindows next)
    /\ map mUID (Messages sample_page) = take (Z.to_nat (MaxSearchResults (vBounds adapter_config))) (answered rounds).
Proof.
  destruct (search_page adapter_config sample_mac sample_uint32 tt sample_query start sample_page (snd search_run)
              search_run_ok) as (x & snapshot & before & rounds & _ & H1 & H2 & _).
  exists rounds, (UIDNext snapshot). exact (conj H1 H2).
Defined.

Lemma search_truncated_witness :
  Truncated sample_page = false /\ exists rounds : list round,
    forall r u, r ∈ rounds -> u ∈ rAnswer r -> u ∈ map mUID (Messages sample_page).
Proof.
  split; [vm_compute; reflexivity|].
  destruct (search_truncated adapter_config sample_mac sample_uint32 tt sample_query start sample_page (snd search_run)
              search_run_ok) as (x & snapshot & before & rounds & _ & H).
  exists rounds. apply H. vm_compute. reflexivity.
Defined.

Lemma select_exact_witness :
  selectHighestUIDs [12; 19; 15] (mkWindow 10 20) 2 = inl [19; 15].
Proof.
  apply (select_exact [12; 19; 15] (mkWindow 10 20) 2 [19; 15]); [lia|cbn; lia|].
  split; [|split; [|vm_compute; reflexivity]].
  - apply (bool_decide_unpack _). vm_compute. exact I.
  - repeat constructor; cbn; lia.
Defined.

Lemma ranges_exact_witness :
  boundedSearchUIDs (Some [(4294967294, 4294967295)]) (mkWindow 4294967290 4294967295) 6 = inl [4294967294; 4294967295].
Proof.
  apply (ranges_exact [(4294967294, 4294967295)] (mkWindow 4294967290 4294967295) 6).
  - repeat constructor; lia.
  - lia.
  - split; [vm_compute; reflexivity|split; [|split; [|vm_compute; discriminate]]].
    + apply (bool_decide_unpack _). vm_compute. exact I.
    + repeat constructor; cbn; lia.
Defined.

(** ** Triage runs *)

Definition seen_uids : list Z := [1; 3; 9; 4; 6].
Definition seen_run := SetSeen adapter_config tt $"INBOX" 5 seen_uids true start.
Definition seen_results : list TriageResult := match fst seen_run with inl r => r | inr _ => [] end.

Example seen_results_are :
  seen_results = [ mkResult 1 OutcomeApplied None; mkResult 3 OutcomeRefused (Some CodeIMAPCommand);
                   mkResult 9 OutcomeRefused (Some CodeMessageNotFound);
                   mkResult 4 OutcomeUnknown (Some CodeBridgeUnreachable); mkResult 6 OutcomeNotAttempted None ].
Proof. vm_compute. done. Qed.

Lemma seen_run_ok : seen_run = (inl seen_results, snd seen_run).
Proof. vm_compute. reflexivity. Qed.

Lemma set_seen_outcomes_witness :
  exists l, log (snd seen_run) = log start ++ map (pair true) l
    /\ NoDup seen_uids /\ map UID seen_results = seen_uids /\ writes l = map UID (filter written seen_results)
    /\ applied l = map UID (filter was_applied seen_results) /\ halted seen_results.
Proof. exact (set_seen_outcomes adapter_config tt _ 5 seen_uids true start _ _ seen_run_ok). Defined.


Definition move_run := Move adapter_config tt $"INBOX" 5 seen_uids $"Folders/Work" start.
Definition to_work (listing : list listedMailbox) : option bytes := resolveMoveDestination listing $"Folders/Work".

Lemma to_work_nonempty listing : to_work listing <> Some [].
Proof. by apply resolve_nonempty. Qed.

Lemma move_run_request : move_request adapter_config $"INBOX" 5 seen_uids to_work start (fst move_run) (snd move_run).
Proof. apply (request_move adapter_config _ _ _ tt). apply surjective_pairing. Qed.

Lemma move_outcomes_witness :
  exists l, log (snd move_run) = log start ++ map (pair true) l /\ writes l `sublist_of` seen_uids
    /\ match fst move_run with
       | inl results => NoDup seen_uids /\ map UID results = seen_uids
           /\ applied l = map UID (filter was_applied results) /\ halted results
       | inr _ => applied l = []
       end.
Proof. exact (move_outcomes adapter_config _ _ _ _ _ _ _ move_run_request to_work_nonempty). Defined.



Lemma attribute_destination_safe_witness :
  exists holder m, filter (fun m => hasAttribute (Attributes m) [$"\Archive"]) sample_listing = [holder]
    /\ isAggregateView (Name holder) = false /\ allowed m $"Archive".
Proof.
  destruct (attribute_destination_safe sample_listing $"\Archive" $"Archive") as (_ & holder & m & H1 & H2 & _ & H3);
    [vm_compute; reflexivity|]. by exists holder, m.
Defined.

(** ** An empty mailbox name *)

(** Against a listing whose only [\Archive] entry has the empty name, an
    archive request reports UID 0 with no outcome and no code for every UID:
    the empty target is taken for a decided UID. *)
Theorem archive_empty_name :
  fst (@Archive nat nat unit (server [mkListed [] 47 [$"\Archive"]]) adapter_config tt $"INBOX" 5 [7; 8] start)
  = inl [mkResult 0 OutcomeNone None; mkResult 0 OutcomeNone None].
Proof. vm_compute. reflexivity. Qed.
