(* ===== verification/SearchObserver.v ===== *)
(** * The wire observer and the input budget

    [readBudgetConn] of [bridge/imapclient.go]: the reader between the
    transport and the IMAP client that limits how much one command may read
    and, while a SEARCH runs, reads the same lines the client does, to catch
    what the client's decoded result can no longer show.  [Read] is its two
    locked halves around the transport's own read. *)
From Stdlib Require Import ZArith Lia Strings.Byte.
From stdpp Require Import base list gmap strings sorting.
From S2P Require Import Prelude GoStrings ImapGrammar GoText Session.

(** ** Scanners *)

Definition isIMAPAtomChar (character : byte) : bool :=
  if existsb (Byte.eqb character) ["("%byte; ")"%byte; "{"%byte; SP; "%"%byte; "*"%byte; DQUOTE; BACKSLASH; "]"%byte]
  then false else negb (is_control (bZ character)).

Fixpoint eSearchAtom (input : bytes) : bytes * bytes :=
  match input with
  | [] => ([], [])
  | b :: rest => if isIMAPAtomChar b then let (name, after) := eSearchAtom rest in (b :: name, after) else ([], input)
  end.

(** The loops of [eSearchValue], [correlatorEnd] and [trailingIMAPLiteral]
    walk bytes with a quote state; [skip] is set behind a backslash. *)
Fixpoint valueEnd (index : nat) (depth : Z) (quoted skip : bool) (input : bytes) : option nat :=
  match input with
  | [] => None
  | character :: rest =>
      if skip then valueEnd (index + 1) depth quoted false rest
      else if quoted && (character =b BACKSLASH) then valueEnd (index + 1) depth quoted true rest
      else if character =b DQUOTE then
        let quoted := negb quoted in
        if negb quoted && (depth =? 0) then Some (index + 1)%nat else valueEnd (index + 1) depth quoted false rest
      else if quoted then valueEnd (index + 1) depth quoted false rest
      else if character =b "("%byte then valueEnd (index + 1) (depth + 1) quoted false rest
      else if character =b ")"%byte then
        if depth - 1 =? 0 then Some (index + 1)%nat else valueEnd (index + 1) (depth - 1) quoted false rest
      else valueEnd (index + 1) depth quoted false rest
  end.

Definition eSearchValue (input : bytes) : bytes * bytes :=
  match input with
  | [] => ([], input)
  | b :: _ =>
      if negb (b =b DQUOTE) && negb (b =b "("%byte) then eSearchAtom input
      else match valueEnd 0 0 false false input with
           | Some n => (take n input, drop n input)
           | None => ([], input)
           end
  end.

Fixpoint correlatorLoop (index : nat) (quoted skip : bool) (rest : bytes) : option nat :=
  match rest with
  | [] => None
  | character :: more =>
      if skip then correlatorLoop (index + 1) quoted false more
      else if quoted && (character =b BACKSLASH) then correlatorLoop (index + 1) quoted true more
      else if character =b DQUOTE then correlatorLoop (index + 1) (negb quoted) false more
      else if negb quoted && (character =b ")"%byte) then Some index
      else correlatorLoop (index + 1) quoted false more
  end.

Definition correlatorEnd (rest : bytes) : option nat := correlatorLoop 1 false false (drop 1 rest).

Fixpoint literalScan (index : nat) (opening : option nat) (quoted skip : bool) (line : bytes) : option nat * bool :=
  match line with
  | [] => (opening, quoted)
  | character :: more =>
      if skip then literalScan (index + 1) opening quoted false more
      else if quoted && (character =b BACKSLASH) then literalScan (index + 1) opening quoted true more
      else if character =b DQUOTE then literalScan (index + 1) opening (negb quoted) false more
      else if negb quoted && (character =b "{"%byte) then literalScan (index + 1) (Some index) quoted false more
      else literalScan (index + 1) opening quoted false more
  end.

(** [trailingIMAPLiteral]: the literal, its size and opening, or whether the
    line ends inside a quoted string. *)
Definition trailingIMAPLiteral (line : bytes) : option (Z * nat) * bool :=
  let (opening, quoted) := literalScan 0 None false false line in
  if quoted then (None, true)
  else
    let line := trim_suffix line [SP] in
    match opening with
    | None => (None, false)
    | Some opening =>
        if negb (has_suffix line $"}") then (None, false)
        else
          let digits := trim_suffix (take (length line - 1 - (opening + 1)) (drop (opening + 1) line)) $"+" in
          if beqs digits [] then (None, false)
          else if negb (forallb is_digit digits) then (None, false)
          else match parse_uint digits 64 with
               | None => (Some (2 ^ 64 - 1, opening), false)
               | Some size => (Some (size, opening), false)
               end
    end.

(** ** Classification *)

Inductive imapLineKind := imapLineUnclassified | imapLineText | imapLineData | imapLineSearch | imapLineESearch.

Definition imapStatusText (rest : bytes) : imapLineKind :=
  if has_prefix rest $" [" && negb (contains_byte "]"%byte rest) then imapLineUnclassified else imapLineText.

Definition statusNames : list bytes := [$"OK"; $"PREAUTH"; $"NO"; $"BAD"; $"BYE"].
Definition dataNames : list bytes :=
  [$"ID"; $"CAPABILITY"; $"ENABLED"; $"NAMESPACE"; $"FLAGS"; $"EXISTS"; $"RECENT"; $"LIST"; $"STATUS";
   $"FETCH"; $"EXPUNGE"; $"SORT"; $"THREAD"; $"METADATA"; $"QUOTA"; $"QUOTAROOT"; $"MYRIGHTS"; $"ACL"].

Definition classifyName (untagged : bool) (name rest : bytes) : imapLineKind * bytes :=
  if beqs name [] then (imapLineUnclassified, [])
  else
    let name := to_upper name in
    if negb untagged || existsb (beqs name) statusNames then (imapStatusText rest, [])
    else if beqs name $"SEARCH" then (imapLineSearch, rest)
    else if beqs name $"ESEARCH" then (imapLineESearch, rest)
    else if existsb (beqs name) dataNames then (imapLineData, [])
    else (imapLineUnclassified, []).

Definition classifyIMAPResponse (line : bytes) : imapLineKind * bytes :=
  if has_prefix line $"+" then (imapLineText, [])
  else
    let (rest, untagged) := cut_prefix line $"*" in
    let (tag, rest) := if untagged then ($"*", rest) else eSearchAtom line in
    if beqs tag [] then (imapLineUnclassified, [])
    else
      let (rest, spaced) := cut_prefix rest [SP] in
      if negb spaced then (imapLineUnclassified, [])
      else
        let (name, rest) := eSearchAtom rest in
        if untagged && match name with c :: _ => is_digit c | [] => false end then
          match parse_uint name 32 with
          | None => (imapLineUnclassified, [])
          | Some _ =>
              let (rest, spaced) := cut_prefix rest [SP] in
              if negb spaced then (imapLineUnclassified, [])
              else let (name, rest) := eSearchAtom rest in classifyName untagged name rest
          end
        else classifyName untagged name rest.

(** ** SEARCH and ESEARCH data *)

Definition searchModSeqGroup (group : bytes) : bool :=
  let group := trim_suffix group [SP] in
  let '(name, value, ok) := cut_byte SP (trim_suffix (trim_prefix group $"(") $")") in
  if negb ok || negb (has_prefix group $"(") || negb (has_suffix group $")") || negb (equal_fold name $"MODSEQ")
  then false
  else match parse_uint value 64 with Some _ => true | None => false end.

Fixpoint parseIntervals (items : list bytes) : option (list (Z * Z)) :=
  match items with
  | [] => Some []
  | item :: rest =>
      let '(low, high, isRange) := cut_byte ":"%byte item in
      match parse_uint low 32 with
      | None => None
      | Some start =>
          match (if isRange : bool then parse_uint high 32 else Some start) with
          | None => None
          | Some stop =>
              match parseIntervals rest with
              | None => None
              | Some more => Some ((if stop <? start then (stop, start) else (start, stop)) :: more)
              end
          end
      end
  end.

Definition by_start (a b : Z * Z) : Prop := fst a <= fst b.
#[export] Instance by_start_dec a b : Decision (by_start a b) := Z.le_dec _ _.

Fixpoint touching (previous : Z * Z) (intervals : list (Z * Z)) : bool :=
  match intervals with
  | [] => false
  | item :: rest => (fst item <=? snd previous) || touching item rest
  end.

Definition overlapping (intervals : list (Z * Z)) : bool :=
  match merge_sort by_start intervals with [] => false | first :: rest => touching first rest end.

(** The intervals handed to [observe], whether they overlap, whether the set
    parsed. *)
Definition sequenceSetOverlaps (set : bytes) : list (Z * Z) * bool * bool :=
  match parseIntervals (split_byte ","%byte set) with
  | None => ([], false, false)
  | Some intervals => (intervals, overlapping intervals, true)
  end.

(** The loop over name and value pairs; each round shortens [rest]. *)
Fixpoint eSearchPairs (fuel : nat) (name rest : bytes) (seen : list (Z * Z)) : list (Z * Z) * bool * bool :=
  match fuel with
  | O => (seen, false, false)
  | Datatypes.S fuel =>
      if beqs name [] then (seen, false, beqs rest [])
      else if negb (has_prefix rest [SP]) then (seen, false, false)
      else
        let (value, after) := eSearchValue (drop 1 rest) in
        if beqs value [] then (seen, false, false)
        else
          let '(observed, overlap, parsed) :=
            if equal_fold name $"ALL" then sequenceSetOverlaps value else ([], false, true) in
          let seen := seen ++ observed in
          if overlap : bool then (seen, true, true)
          else if negb parsed then (seen, false, false)
          else if beqs after [] then (seen, false, true)
          else if negb (has_prefix after [SP]) then (seen, false, false)
          else let (name, rest) := eSearchAtom (drop 1 after) in eSearchPairs fuel name rest seen
  end.

Definition eSearchAllOverlaps (rest : bytes) : list (Z * Z) * bool * bool :=
  let rest := trim_space rest in
  let behind := if has_prefix rest $"(" then
                  match correlatorEnd rest with
                  | None => None
                  | Some closing => Some (trim_prefix (drop (closing + 1) rest) [SP])
                  end
                else Some rest in
  match behind with
  | None => ([], false, false)
  | Some rest =>
      let (name, rest) := eSearchAtom rest in
      let (name, rest) := if beqs name $"UID" then eSearchAtom (trim_prefix rest [SP]) else (name, rest) in
      eSearchPairs (Datatypes.S (length rest)) name rest []
  end.

Example esearch_disjoint :
  eSearchAllOverlaps $" (TAG T1) UID ALL 3:5,9 X (ALL 3)" = ([(3, 5); (9, 9)], false, true).
Proof. vm_compute. reflexivity. Qed.
Example esearch_overlap :
  eSearchAllOverlaps $" UID COUNT 3 ALL 9:7,8" = ([(7, 9); (8, 8)], true, true).
Proof. vm_compute. reflexivity. Qed.
Example literal_found : trailingIMAPLiteral $"* LIST () NIL {12+} " = (Some (12, 14%nat), false).
Proof. vm_compute. reflexivity. Qed.
Example classify_search : classifyIMAPResponse $"* search 1 2" = (imapLineSearch, $" 1 2").
Proof. vm_compute. reflexivity. Qed.

(** ** The connection *)

Record readBudgetConn := mkBudget {
  active : bool; idleLimit : Z; remaining : Z; exceeded : bool;
  searchActive : bool; searchResponseSeen : bool; eSearchResponseSeen : bool;
  searchBuffer : bytes; searchLiteralBytes : Z; searchContinues : bool; searchPending : bytes;
  searchUIDs : gset Z; searchDuplicate : bool; searchIncomplete : bool;
  searchWindow : uidWindow; searchOutOfWindow : bool }.

#[export] Instance eta_budget : Eta readBudgetConn := fun c =>
  mkBudget (active c) (idleLimit c) (remaining c) (exceeded c) (searchActive c) (searchResponseSeen c)
    (eSearchResponseSeen c) (searchBuffer c) (searchLiteralBytes c) (searchContinues c) (searchPending c)
    (searchUIDs c) (searchDuplicate c) (searchIncomplete c) (searchWindow c) (searchOutOfWindow c).

Record searchObservation := mkObservation {
  oExceeded : bool; oSearchSeen : bool; oESearchSeen : bool; oDuplicate : bool; oIncomplete : bool; oOutOfWindow : bool }.

Definition noWindow : uidWindow := mkWindow 0 0.

Definition newReadBudgetConn (idle : Z) : readBudgetConn :=
  mkBudget true idle idle false false false false [] 0 false [] ∅ false false noWindow false.

Definition begin (c : readBudgetConn) (limit : Z) : readBudgetConn :=
  c <| active := true |> <| remaining := limit |> <| exceeded := false |>.

(** The part of [beginSearch] and [endSearch] that resets the observation. *)
Definition resetSearch (c : readBudgetConn) (running : bool) : readBudgetConn :=
  mkBudget (active c) (idleLimit c) (remaining c) (exceeded c) running false false [] 0 false [] ∅ false false noWindow false.

Definition beginSearch (c : readBudgetConn) (limit : Z) : readBudgetConn := resetSearch (begin c limit) true.

Definition checkSearchWindow (c : readBudgetConn) (window : uidWindow) : readBudgetConn := c <| searchWindow := window |>.

Definition finish (c : readBudgetConn) : bool * readBudgetConn :=
  (exceeded c, c <| active := true |> <| remaining := idleLimit c |> <| exceeded := false |>).

Definition endSearch (c : readBudgetConn) : searchObservation * readBudgetConn :=
  (mkObservation (exceeded c) (searchResponseSeen c) (eSearchResponseSeen c) (searchDuplicate c)
     (searchIncomplete c) (searchOutOfWindow c),
   resetSearch (snd (finish c)) false).

(** ** Observing *)

Definition searchRangeLocked (c : readBudgetConn) (range : Z * Z) : readBudgetConn :=
  let (start, stop) := range in
  if (start =? 0) || (stop =? 0) then c <| searchIncomplete := true |>
  else if width (searchWindow c) =? 0 then c
  else if (start <? Start (searchWindow c)) || (End (searchWindow c) <? stop) then c <| searchOutOfWindow := true |>
  else c.

Fixpoint observeFields (c : readBudgetConn) (numbers : list bytes) : readBudgetConn :=
  match numbers with
  | [] => c
  | field :: rest =>
      match parse_uint field 32 with
      | None => c <| searchIncomplete := true |>
      | Some uid =>
          let c := searchRangeLocked c (uid, uid) in
          let c := if bool_decide (uid ∈ searchUIDs c) then c <| searchDuplicate := true |> else c in
          observeFields (c <| searchUIDs := {[uid]} ∪ searchUIDs c |>) rest
      end
  end.

Definition observeSearchUIDsLocked (c : readBudgetConn) (numbers : bytes) : readBudgetConn :=
  let (c, numbers) :=
    match index_byte "("%byte numbers with
    | None => (c, numbers)
    | Some opening =>
        (if searchModSeqGroup (drop opening numbers) then c else c <| searchIncomplete := true |>, take opening numbers)
    end in
  observeFields c (fields numbers).

Definition twoQuotes : bytes := [DQUOTE; DQUOTE].

(** One line, without its LF, taken from the buffer: the line with what was
    pending before it, its kind and rest, the literal that ends it, and whether
    it ends inside a quoted string. *)
Definition lineParts (c : readBudgetConn) (raw : bytes)
  : bytes * (imapLineKind * bytes) * option (Z * nat) * bool :=
  let pending := searchPending c in
  let line := pending ++ trim_suffix raw [CR] in
  let kindrest := if negb (searchContinues c) || negb (beqs pending [])
                  then classifyIMAPResponse line else (imapLineData, []) in
  let '(literal, unterminated) :=
    match fst kindrest with imapLineText => (None, false) | _ => trailingIMAPLiteral line end in
  (line, kindrest, literal, unterminated).

(** The updates before the line is judged by its kind. *)
Definition frameLine (c : readBudgetConn) (line : bytes) (literal : option (Z * nat)) (unterminated : bool) : readBudgetConn :=
  let c := c <| searchPending := [] |> in
  let c := if contains_byte CR line || unterminated then c <| searchIncomplete := true |> else c in
  match literal with
  | Some (size, _) => (c <| searchContinues := true |>) <| searchLiteralBytes := size |>
  | None => c <| searchContinues := false |>
  end.

Definition observeLine (c : readBudgetConn) (raw : bytes) : readBudgetConn :=
  let '(line, (kind, rest), literal, unterminated) := lineParts c raw in
  let c := frameLine c line literal unterminated in
  match kind with
  | imapLineUnclassified => c <| searchIncomplete := true |>
  | imapLineSearch => observeSearchUIDsLocked (c <| searchResponseSeen := true |>) rest
  | imapLineESearch =>
      let c := c <| eSearchResponseSeen := true |> in
      match literal with
      | Some (_, opening) => c <| searchPending := take opening line ++ twoQuotes |>
      | None =>
          let '(ranges, overlaps, complete) := eSearchAllOverlaps rest in
          let c := fold_left searchRangeLocked ranges c in
          let c := if overlaps : bool then c <| searchDuplicate := true |> else c in
          if complete : bool then c else c <| searchIncomplete := true |>
      end
  | imapLineText | imapLineData => c
  end.

(** Drop what is left of a literal, then take a line; [None] to wait. *)
Definition takeLine (c : readBudgetConn) : readBudgetConn * option bytes :=
  if (0 <? searchLiteralBytes c) && (zlen (searchBuffer c) <=? searchLiteralBytes c)
  then ((c <| searchLiteralBytes := searchLiteralBytes c - zlen (searchBuffer c) |>) <| searchBuffer := [] |>, None)
  else
    let c := if 0 <? searchLiteralBytes c
             then (c <| searchBuffer := drop (Z.to_nat (searchLiteralBytes c)) (searchBuffer c) |>) <| searchLiteralBytes := 0 |>
             else c in
    match index_byte LF (searchBuffer c) with
    | None => (c, None)
    | Some e => (c <| searchBuffer := drop (Datatypes.S e) (searchBuffer c) |>, Some (take e (searchBuffer c)))
    end.

Fixpoint observeLoop (fuel : nat) (c : readBudgetConn) : readBudgetConn :=
  match fuel with
  | O => c
  | Datatypes.S fuel =>
      match takeLine c with
      | (c, None) => c
      | (c, Some raw) => observeLoop fuel (observeLine c raw)
      end
  end.

Definition observeSearchResponseLocked (c : readBudgetConn) (input : bytes) : readBudgetConn :=
  let c := c <| searchBuffer := searchBuffer c ++ input |> in
  observeLoop (Datatypes.S (length (searchBuffer c))) c.

(** ** The two halves of Read *)

(** [buffer[:n]] panics when [n] is negative. *)
Inductive prepared := PrepareDirect (n : Z) | PrepareRefused | PreparePanic | PrepareRead (n : Z).

Definition budgetPrepare (c : readBudgetConn) (buffer : Z) : readBudgetConn * prepared :=
  if negb (active c) then (c, PrepareDirect buffer)
  else if remaining c =? 0 then (c <| exceeded := true |>, PrepareRefused)
  else if remaining c <? buffer then (c, if remaining c <? 0 then PreparePanic else PrepareRead (remaining c))
  else (c, PrepareRead buffer).

Definition budgetAbsorb (c : readBudgetConn) (data : bytes) : readBudgetConn :=
  let c := if active c then c <| remaining := remaining c - zlen data |> else c in
  if searchActive c && (0 <? zlen data) then observeSearchResponseLocked c data else c.
