(* ===== verification/SearchObserverSpec.v ===== *)
(** * What the observer guarantees

    [SearchObserver] against its purpose: the input budget, the independence
    from how the wire is split into reads, and what a clean observation says
    about the lines that were read. *)
From Stdlib Require Import ZArith Lia Strings.Byte Sorting.Sorted.
From stdpp Require Import base list gmap strings sorting.
From S2P Require Import Prelude GoStrings ImapGrammar GoText Errors Session Search SearchSpec SearchObserver.

(** ** The buffer *)

Definition append (c : readBudgetConn) (input : bytes) : readBudgetConn :=
  c <| searchBuffer := searchBuffer c ++ input |>.

Lemma append_nil c : append c [] = c.
Proof. destruct c. unfold append, set_field. cbn. by rewrite app_nil_r. Qed.

Lemma append_app c a b : append (append c a) b = append c (a ++ b).
Proof. destruct c. unfold append, set_field. cbn. by rewrite app_assoc. Qed.

Lemma searchRange_append c range input : searchRangeLocked (append c input) range = append (searchRangeLocked c range) input.
Proof. destruct range as [a b]. destruct c. unfold searchRangeLocked, append, set_field. cbn. repeat case_match; done. Qed.

Lemma ranges_append ranges c input : fold_left searchRangeLocked ranges (append c input) = append (fold_left searchRangeLocked ranges c) input.
Proof. revert c. induction ranges as [|r ranges IH]; intros c; [done|]. cbn [fold_left]. by rewrite searchRange_append, IH. Qed.

(** A step that leaves the buffer alone. *)
Definition buffer_free (f : readBudgetConn -> readBudgetConn) : Prop := forall c input, f (append c input) = append (f c) input.

Lemma observeFields_append numbers c input : observeFields (append c input) numbers = append (observeFields c numbers) input.
Proof.
  revert c. induction numbers as [|field rest IH]; intros c; [done|]. cbn [observeFields].
  destruct (parse_uint field 32) as [uid|]; [|by destruct c]. rewrite searchRange_append.
  generalize (searchRangeLocked c (uid, uid)). intros d.
  assert (searchUIDs (append d input) = searchUIDs d) as -> by done.
  rewrite <- IH. f_equal. destruct d. unfold append, set_field. cbn. by case_bool_decide.
Qed.

Lemma observeSearchUIDs_append numbers c input :
  observeSearchUIDsLocked (append c input) numbers = append (observeSearchUIDsLocked c numbers) input.
Proof.
  unfold observeSearchUIDsLocked. destruct (index_byte _ numbers) as [o|]; [|apply observeFields_append].
  rewrite <- observeFields_append. f_equal. destruct (searchModSeqGroup _); [done|by destruct c].
Qed.

Lemma frameLine_append c line literal unterminated input :
  frameLine (append c input) line literal unterminated = append (frameLine c line literal unterminated) input.
Proof. unfold frameLine. destruct (contains_byte CR line || unterminated), literal as [[? ?]|], c; done. Qed.

Lemma observeLine_append raw c input : observeLine (append c input) raw = append (observeLine c raw) input.
Proof.
  unfold observeLine. assert (lineParts (append c input) raw = lineParts c raw) as -> by (destruct c; done).
  destruct (lineParts c raw) as [[[line [kind rest]] literal] unterminated].
  rewrite frameLine_append. generalize (frameLine c line literal unterminated). clear c. intros d.
  destruct kind; [by destruct d|done|done| |].
  - rewrite <- observeSearchUIDs_append. f_equal; by destruct d.
  - assert ((append d input) <| eSearchResponseSeen := true |> = append (d <| eSearchResponseSeen := true |>) input) as ->
      by (destruct d; done).
    generalize (d <| eSearchResponseSeen := true |>). clear d. intros d.
    destruct literal as [[size opening]|]; [by destruct d|].
    destruct (eSearchAllOverlaps rest) as [[ranges overlaps] complete].
    rewrite ranges_append. generalize (fold_left searchRangeLocked ranges d).
    intros e. destruct overlaps, complete, e; done.
Qed.

Lemma index_byte_app c s t : index_byte c (s ++ t) =
  match index_byte c s with Some i => Some i | None => option_map (fun i => (length s + i)%nat) (index_byte c t) end.
Proof.
  induction s as [|x s IH]; cbn [index_byte app length]; [by destruct (index_byte c t)|].
  destruct (x =b c); [done|]. rewrite IH. destruct (index_byte c s); [done|]. by destruct (index_byte c t).
Qed.

Lemma index_byte_lt c s i : index_byte c s = Some i -> (Datatypes.S i <= length s)%nat.
Proof.
  intros [H _]%index_byte_Some. apply (f_equal length) in H. rewrite length_app, length_take in H. cbn [length] in H.
  rewrite length_drop in H. lia.
Qed.

(** The search for LF in the buffer. *)
Definition cutLine (c : readBudgetConn) : readBudgetConn * option bytes :=
  match index_byte LF (searchBuffer c) with
  | None => (c, None)
  | Some e => (c <| searchBuffer := drop (Datatypes.S e) (searchBuffer c) |>, Some (take e (searchBuffer c)))
  end.

Lemma cutLine_some c d raw input : cutLine c = (d, Some raw) -> cutLine (append c input) = (append d input, Some raw).
Proof.
  unfold cutLine. assert (searchBuffer (append c input) = searchBuffer c ++ input) as -> by (destruct c; done).
  rewrite index_byte_app. destruct (index_byte LF _) as [e|] eqn:E; [|done]. intros [= <- <-].
  pose proof (index_byte_lt _ _ _ E). rewrite drop_app_le, take_app_le by lia. by destruct c.
Qed.

Definition dropLiteral (c : readBudgetConn) : readBudgetConn :=
  if 0 <? searchLiteralBytes c
  then (c <| searchBuffer := drop (Z.to_nat (searchLiteralBytes c)) (searchBuffer c) |>) <| searchLiteralBytes := 0 |>
  else c.

Lemma takeLine_eq c : takeLine c =
  if (0 <? searchLiteralBytes c) && (zlen (searchBuffer c) <=? searchLiteralBytes c)
  then ((c <| searchLiteralBytes := searchLiteralBytes c - zlen (searchBuffer c) |>) <| searchBuffer := [] |>, None)
  else cutLine (dropLiteral c).
Proof. done. Qed.

Definition waiting (c : readBudgetConn) : bool :=
  (0 <? searchLiteralBytes c) && (zlen (searchBuffer c) <=? searchLiteralBytes c).

Lemma waiting_append c input : waiting c = false -> waiting (append c input) = false.
Proof.
  unfold waiting. destruct c. unfold append, set_field. cbn. rewrite zlen_app. pose proof (zlen_nonneg input).
  destruct (0 <? searchLiteralBytes); cbn; [|done]. intros E. bool_prop. apply Z.leb_gt. lia.
Qed.

Lemma dropLiteral_append c input : waiting c = false -> dropLiteral (append c input) = append (dropLiteral c) input.
Proof.
  unfold waiting, dropLiteral. destruct c. unfold append, set_field. cbn. destruct (0 <? searchLiteralBytes) eqn:E0; [|done].
  cbn. intros E. bool_prop. unfold zlen in E. rewrite drop_app_le by lia. done.
Qed.

Lemma dropLiteral_none c input : waiting (append (dropLiteral c) input) = false
  /\ dropLiteral (append (dropLiteral c) input) = append (dropLiteral c) input.
Proof.
  unfold waiting, dropLiteral. destruct c. unfold append, set_field. cbn. by destruct (0 <? searchLiteralBytes) eqn:E0; cbn; rewrite ?E0.
Qed.

Lemma takeLine_some c d raw input : takeLine c = (d, Some raw) -> takeLine (append c input) = (append d input, Some raw).
Proof.
  rewrite !takeLine_eq. fold (waiting c) (waiting (append c input)). intros H. destruct (waiting c) eqn:E; [done|].
  rewrite waiting_append, dropLiteral_append by done. by apply cutLine_some.
Qed.

Lemma takeLine_none c d input : takeLine c = (d, None) -> takeLine (append c input) = takeLine (append d input).
Proof.
  rewrite (takeLine_eq c). destruct (_ && _) eqn:E.
  - intros [= <-]. rewrite !takeLine_eq. destruct c. unfold dropLiteral, append, set_field. cbn in *. bool_prop.
    rewrite zlen_app. pose proof (zlen_nonneg input) as Hi. rewrite (proj2 (Z.ltb_lt 0 _)) by done. cbn [andb].
    destruct (decide (zlen searchBuffer = searchLiteralBytes)) as [Heq|Hne].
    + rewrite Heq, Z.sub_diag. cbn [Z.ltb Z.compare andb].
      destruct (_ <=? searchLiteralBytes) eqn:E2; bool_prop.
      * assert (input = []) as -> by (apply zlen_0_nil; lia). by rewrite zlen_nil, Z.add_0_r, Z.sub_diag.
      * cbn. replace (Z.to_nat searchLiteralBytes) with (length searchBuffer) by (unfold zlen in Heq; lia).
        by rewrite drop_app_length.
    + rewrite (proj2 (Z.ltb_lt 0 (searchLiteralBytes - _))) by lia. cbn [andb].
      destruct (_ + zlen input <=? searchLiteralBytes) eqn:E2, (zlen input <=? _) eqn:E3; bool_prop; try lia.
      * by rewrite Z.sub_add_distr.
      * cbn. rewrite drop_app_ge by (unfold zlen in *; lia). do 3 f_equal. unfold zlen in *. 
        replace (Z.to_nat searchLiteralBytes - length searchBuffer)%nat with (Z.to_nat (searchLiteralBytes - Z.of_nat (length searchBuffer))) by lia.
        done.
  - fold (waiting c) in E. intros H. rewrite !takeLine_eq. fold (waiting (append c input)) (waiting (append d input)).
    rewrite waiting_append, dropLiteral_append by done. unfold cutLine in H.
    destruct (index_byte LF _); [done|]. injection H as <-.
    destruct (dropLiteral_none c input) as [-> ->]. done.
Qed.

(** Fuel: a line taken shortens the buffer. *)
Lemma takeLine_shorter c d raw : takeLine c = (d, Some raw) -> (length (searchBuffer d) < length (searchBuffer c))%nat.
Proof.
  rewrite takeLine_eq. destruct (_ && _); [done|]. unfold cutLine, dropLiteral.
  destruct (0 <? _) eqn:E0; destruct (index_byte LF _) as [e|] eqn:E; try done; intros [= <- <-];
    apply index_byte_lt in E; destruct c; unfold set_field in *; cbn in *; rewrite !length_drop in *; lia.
Qed.


(** No step but [takeLine] touches the buffer. *)
Lemma searchRange_buffer c range : searchBuffer (searchRangeLocked c range) = searchBuffer c.
Proof. destruct range, c. unfold searchRangeLocked, set_field. cbn. by repeat case_match. Qed.

Lemma ranges_buffer ranges c : searchBuffer (fold_left searchRangeLocked ranges c) = searchBuffer c.
Proof. revert c. induction ranges as [|r ranges IH]; intros c; [done|]. cbn [fold_left]. by rewrite IH, searchRange_buffer. Qed.

Lemma observeFields_buffer numbers c : searchBuffer (observeFields c numbers) = searchBuffer c.
Proof.
  revert c. induction numbers as [|field rest IH]; intros c; [done|]. cbn [observeFields].
  destruct (parse_uint field 32) as [uid|]; [|by destruct c]. rewrite IH. rewrite <- (searchRange_buffer c (uid, uid)).
  generalize (searchRangeLocked c (uid, uid)). intros d. by destruct (bool_decide _), d.
Qed.

Lemma observeSearchUIDs_buffer numbers c : searchBuffer (observeSearchUIDsLocked c numbers) = searchBuffer c.
Proof.
  unfold observeSearchUIDsLocked. destruct (index_byte _ numbers); rewrite observeFields_buffer; [|done].
  by destruct (searchModSeqGroup _), c.
Qed.

Lemma observeLine_buffer c raw : searchBuffer (observeLine c raw) = searchBuffer c.
Proof.
  unfold observeLine. destruct (lineParts c raw) as [[[line [kind rest]] literal] unterminated].
  assert (searchBuffer (frameLine c line literal unterminated) = searchBuffer c) as <-
    by (unfold frameLine; by destruct (_ || _), literal as [[? ?]|], c).
  generalize (frameLine c line literal unterminated). clear c. intros d. destruct kind; [by destruct d|done|done| |].
  - rewrite observeSearchUIDs_buffer. by destruct d.
  - destruct literal as [[? ?]|]; [by destruct d|]. destruct (eSearchAllOverlaps rest) as [[ranges overlaps] complete].
    transitivity (searchBuffer (fold_left searchRangeLocked ranges (d <| eSearchResponseSeen := true |>))).
    + generalize (fold_left searchRangeLocked ranges (d <| eSearchResponseSeen := true |>)). intros e. by destruct overlaps, complete, e.
    + rewrite ranges_buffer. by destruct d.
Qed.

(** ** Independence from the split into reads *)

Lemma observeLoop_fuel f1 f2 c :
  (length (searchBuffer c) < f1)%nat -> (length (searchBuffer c) < f2)%nat -> observeLoop f1 c = observeLoop f2 c.
Proof.
  revert f2 c. induction f1 as [|f1 IH]; intros f2 c H1 H2; [lia|]. destruct f2 as [|f2]; [lia|]. cbn [observeLoop].
  destruct (takeLine c) as [d [raw|]] eqn:E; cbn; [|done]. apply takeLine_shorter in E.
  apply IH; rewrite observeLine_buffer; lia.
Qed.

(** Process everything that is buffered. *)
Definition settle (c : readBudgetConn) : readBudgetConn := observeLoop (Datatypes.S (length (searchBuffer c))) c.

Lemma settle_step c :
  settle c = match takeLine c with (d, None) => d | (d, Some raw) => settle (observeLine d raw) end.
Proof.
  unfold settle at 1. cbn [observeLoop]. destruct (takeLine c) as [d [raw|]] eqn:E; [|done].
  apply takeLine_shorter in E. apply observeLoop_fuel; rewrite observeLine_buffer; lia.
Qed.

Lemma settle_append c b : settle (append c b) = settle (append (settle c) b).
Proof.
  remember (length (searchBuffer c)) as n eqn:Hn. revert c Hn. induction (lt_wf n) as [n _ IH]. intros c ->.
  rewrite (settle_step c). destruct (takeLine c) as [d [raw|]] eqn:E.
  - rewrite settle_step, (takeLine_some _ _ _ _ E), observeLine_append.
    apply (IH (length (searchBuffer (observeLine d raw)))); [|done].
    apply takeLine_shorter in E. by rewrite observeLine_buffer.
  - rewrite !settle_step. by rewrite (takeLine_none _ _ _ E).
Qed.

Lemma settle_empty c : searchBuffer c = [] -> settle c = c.
Proof.
  intros H. rewrite settle_step. assert (takeLine c = (c, None)) as ->; [|done].
  unfold takeLine. destruct c. unfold set_field. cbn in *. subst searchBuffer.
  change (zlen []) with 0. rewrite Z.sub_0_r.
  destruct (0 <? searchLiteralBytes) eqn:E; cbn; [|done]. rewrite (proj2 (Z.leb_le _ _)); [done|bool_prop; lia].
Qed.

(** How the network splits a response into reads does not change what is
    observed: any reads of the same bytes lead to the same observer. *)
Theorem observe_chunk_independence c reads :
  searchBuffer c = [] ->
  fold_left observeSearchResponseLocked reads c = observeSearchResponseLocked c (concat reads).
Proof.
  intros Hc.
  assert (forall d input, observeSearchResponseLocked d input = settle (append d input)) as Heq.
  { intros d input. unfold observeSearchResponseLocked, settle, append. by destruct d. }
  assert (forall d b, settle (append d b) = settle (append (settle d) b)) as Happ by apply settle_append.
  rewrite Heq. transitivity (fold_left observeSearchResponseLocked reads (settle c)); [by rewrite settle_empty|].
  assert (forall d, fold_left observeSearchResponseLocked reads (settle d) = settle (append d (concat reads))) as H; [|apply H].
  clear c Hc. induction reads as [|read reads IH]; intros d; cbn [fold_left concat]; [by rewrite append_nil|].
  rewrite Heq, <- settle_append, IH, append_app. done.
Qed.

(** ** Sequence sets *)

#[export] Instance by_start_total : Total by_start.
Proof. intros a b. unfold by_start. lia. Qed.
#[export] Instance by_start_trans : Transitive by_start.
Proof. intros a b c. unfold by_start. lia. Qed.

Lemma expand_cons a b rest : expand ((a, b) :: rest) = seqZ a (b - a + 1) ++ expand rest.
Proof. done. Qed.

#[export] Instance expand_proper : Proper (Permutation ==> Permutation) expand.
Proof.
  intros l k H. induction H as [|[a b] l k _ IH|[a b] [c d] l|l k m _ IH1 _ IH2]; rewrite ?expand_cons.
  - done.
  - by rewrite IH.
  - rewrite !app_assoc. f_equiv. apply Permutation_app_comm.
  - by rewrite IH1.
Qed.

Lemma elem_of_expand u ranges : u ∈ expand ranges <-> exists r, r ∈ ranges /\ fst r <= u <= snd r.
Proof.
  induction ranges as [|[a b] rest IH]; [split; [by intros ?%elem_of_nil|by intros (r & ?%elem_of_nil & _)]|].
  rewrite expand_cons, elem_of_app, IH, elem_of_seqZ. split.
  - intros [H|(r & H1 & H2)]; [exists (a, b); split; [by left|cbn; lia]|exists r; split; [by right|done]].
  - intros (r & [->|H1]%elem_of_cons & H2); [left; cbn in H2; lia|right; by exists r].
Qed.

Lemma touching_spec first rest :
  StronglySorted by_start (first :: rest) -> wellformed (first :: rest) ->
  touching first rest = false <-> NoDup (expand (first :: rest)).
Proof.
  revert first. induction rest as [|item rest IH]; intros [a b] Hs Hw.
  { rewrite expand_cons. cbn. rewrite app_nil_r. split; [intros _; apply NoDup_seqZ|done]. }
  apply StronglySorted_inv in Hs as [Hs Hall]. apply Forall_cons in Hw as [[Hab Hb] Hw].
  rewrite expand_cons. cbn [touching snd]. rewrite NoDup_app. destruct item as [c d].
  destruct (c <=? b) eqn:E; cbn [fst orb]; rewrite E; cbn [orb]; bool_prop.
  - split; [done|]. intros (_ & H & _). exfalso. apply Forall_cons in Hall as [Hac _]. unfold by_start in Hac. cbn in Hac.
    apply Forall_cons in Hw as [[Hcd _] _].
    apply (H c); [apply elem_of_seqZ; lia|]. apply elem_of_expand. exists (c, d). split; [by left|cbn; lia].
  - rewrite (IH (c, d) Hs Hw). split; [|by intros (_ & _ & ?)]. intros Hn. split_and!; [apply NoDup_seqZ| |done].
    intros u Hu%elem_of_seqZ (r & Hr & Hin)%elem_of_expand.
    assert (c <= fst r).
    { apply elem_of_cons in Hr as [->|Hr]; [done|]. apply StronglySorted_inv in Hs as [_ Hs].
      rewrite Forall_forall in Hs. apply (Hs r Hr). }
    lia.
Qed.

Lemma parseIntervals_wellformed items intervals : parseIntervals items = Some intervals -> wellformed intervals.
Proof.
  revert intervals. induction items as [|item rest IH]; intros intervals; cbn [parseIntervals]; [intros [= <-]; constructor|].
  destruct (cut_byte _ item) as [[low high] isRange]. destruct (parse_uint low 32) as [start|] eqn:E1; [|done].
  destruct (if isRange then _ else _) as [stop|] eqn:E2; [|done]. destruct (parseIntervals rest) as [more|]; [|done].
  intros [= <-]. apply parse_uint_range in E1.
  assert (0 <= stop < 2 ^ 32) by (destruct isRange; [by apply parse_uint_range in E2|by injection E2 as <-]).
  constructor; [|by apply IH]. destruct (stop <? start) eqn:E3; bool_prop; lia.
Qed.

(** A sequence set is reported to overlap exactly when written out it names
    some number twice, whatever the order of its items and of the ends of each
    range. *)
Theorem sequence_set_exact set intervals overlaps :
  sequenceSetOverlaps set = (intervals, overlaps, true) ->
  wellformed intervals /\ (overlaps = true <-> ~ NoDup (expand intervals)).
Proof.
  unfold sequenceSetOverlaps. destruct (parseIntervals _) as [found|] eqn:E; [|done].
  apply parseIntervals_wellformed in E. intros [= <- <-]. split; [done|].
  assert (overlapping found = false <-> NoDup (expand found)) as H.
  { unfold overlapping. pose proof (merge_sort_Permutation by_start found) as Hp.
    pose proof (StronglySorted_merge_sort by_start found) as Hs.
    rewrite <- Hp at 2. destruct (merge_sort by_start found) as [|first rest]; [split; [constructor|done]|].
    apply touching_spec; [done|]. unfold wellformed in *. by rewrite Hp. }
  rewrite <- H. by destruct (overlapping found).
Qed.

(** ** A clean observation *)

Definition clean (c : readBudgetConn) : Prop :=
  searchDuplicate c = false /\ searchIncomplete c = false /\ searchOutOfWindow c = false.

(** A range the window admits; without a window only zero is refused. *)
Definition admitted (window : uidWindow) (range : Z * Z) : Prop :=
  fst range <> 0 /\ snd range <> 0 /\ (width window <> 0 -> Start window <= fst range /\ snd range <= End window).

(** The flags and the UID set, the part of the state that is judged. *)
Definition judged (c : readBudgetConn) := (searchUIDs c, searchWindow c).

Lemma searchRange_clean c range :
  clean (searchRangeLocked c range) -> clean c /\ admitted (searchWindow c) range /\ judged (searchRangeLocked c range) = judged c.
Proof.
  destruct range as [a b], c. unfold searchRangeLocked, clean, admitted, judged, set_field. cbn.
  destruct ((a =? 0) || (b =? 0)) eqn:E; cbn; [by intros (_ & ? & _)|]. bool_prop.
  destruct (width _ =? 0) eqn:E2; cbn; bool_prop; [intros ?; split; [done|split; [split; [done|split; done]|done]]|].
  destruct ((a <? _) || _) eqn:E3; cbn; [by intros (_ & _ & ?)|]. bool_prop. intros ?.
  split; [done|split; [split; [done|split; done]|done]].
Qed.

Lemma ranges_clean ranges c :
  clean (fold_left searchRangeLocked ranges c) ->
  clean c /\ Forall (admitted (searchWindow c)) ranges /\ judged (fold_left searchRangeLocked ranges c) = judged c.
Proof.
  revert c. induction ranges as [|r ranges IH]; intros c; cbn [fold_left]; [done|].
  intros (K1 & K2 & K3)%IH. apply searchRange_clean in K1 as (K1 & K4 & K5). rewrite K5 in K3.
  apply pair_equal_spec in K5 as [_ Hw]. rewrite Hw in K2. split_and!; [done|by constructor|done].
Qed.

Definition searchLineUIDs (numbers : list bytes) : list Z := omap (fun field => parse_uint field 32) numbers.

Lemma observeFields_clean numbers c :
  clean (observeFields c numbers) ->
  clean c /\ Forall (fun field => is_Some (parse_uint field 32)) numbers /\ NoDup (searchLineUIDs numbers)
  /\ Forall (fun u => u ∉ searchUIDs c /\ admitted (searchWindow c) (u, u)) (searchLineUIDs numbers)
  /\ judged (observeFields c numbers) = (list_to_set (searchLineUIDs numbers) ∪ searchUIDs c, searchWindow c).
Proof.
  revert c. induction numbers as [|field rest IH]; intros c; cbn [observeFields].
  { intros H. split_and!; try done; try constructor. unfold judged. f_equal. cbn. set_solver. }
  destruct (parse_uint field 32) as [uid|] eqn:Ep; [|by destruct c; intros (_ & ? & _)].
  assert (searchLineUIDs (field :: rest) = uid :: searchLineUIDs rest) as -> by (unfold searchLineUIDs; cbn; by rewrite Ep).
  intros (K1 & K2 & K3 & K4 & K5)%IH.
  destruct (bool_decide (uid ∈ searchUIDs (searchRangeLocked c (uid, uid)))) eqn:Ed;
    [exfalso; destruct K1 as [K1 _]; by destruct (searchRangeLocked c (uid, uid))|].
  apply bool_decide_eq_false in Ed.
  assert (clean (searchRangeLocked c (uid, uid))) as Hc by (by destruct (searchRangeLocked c (uid, uid))).
  apply searchRange_clean in Hc as (Hc & Ha & Hj). apply pair_equal_spec in Hj as [Hu Hw]. rewrite Hu in *.
  assert (forall d u, searchUIDs (d <| searchUIDs := u |>) = u /\ searchWindow (d <| searchUIDs := u |>) = searchWindow d) as Hset
    by (by intros []).
  destruct (Hset (searchRangeLocked c (uid, uid)) ({[uid]} ∪ searchUIDs c)) as [-> E2] in K4, K5. rewrite E2, Hw in K4, K5.
  split_and!.
  - done.
  - constructor; [by eexists|done].
  - constructor; [|done]. intros Hin. rewrite Forall_forall in K4. destruct (K4 _ Hin) as [K _]. set_solver.
  - constructor; [done|]. eapply Forall_impl; [exact K4|]. intros u [Hn ?]. split; [set_solver|done].
  - rewrite K5. f_equal. cbn. set_solver.
Qed.

(** The numbers of a SEARCH line, before its MODSEQ group. *)
Definition searchNumbers (rest : bytes) : bytes :=
  match index_byte "("%byte rest with Some opening => take opening rest | None => rest end.

Lemma observeSearchUIDs_clean rest c :
  clean (observeSearchUIDsLocked c rest) ->
  clean c /\ Forall (fun field => is_Some (parse_uint field 32)) (fields (searchNumbers rest))
  /\ NoDup (searchLineUIDs (fields (searchNumbers rest)))
  /\ Forall (fun u => u ∉ searchUIDs c /\ admitted (searchWindow c) (u, u)) (searchLineUIDs (fields (searchNumbers rest)))
  /\ judged (observeSearchUIDsLocked c rest)
     = (list_to_set (searchLineUIDs (fields (searchNumbers rest))) ∪ searchUIDs c, searchWindow c).
Proof.
  unfold observeSearchUIDsLocked, searchNumbers. destruct (index_byte _ rest) as [o|]; [|apply observeFields_clean].
  destruct (searchModSeqGroup _); [apply observeFields_clean|].
  intros ([_ [K _]] & _)%observeFields_clean. by destruct c.
Qed.

(** What one line of a clean observation says. *)
Definition line_ok (window : uidWindow) (kind : imapLineKind) (rest : bytes) (literal : option (Z * nat)) : Prop :=
  match kind with
  | imapLineUnclassified => False
  | imapLineSearch =>
      Forall (fun field => is_Some (parse_uint field 32)) (fields (searchNumbers rest))
      /\ Forall (fun u => admitted window (u, u)) (searchLineUIDs (fields (searchNumbers rest)))
  | imapLineESearch =>
      literal = None -> exists ranges, eSearchAllOverlaps rest = (ranges, false, true) /\ Forall (admitted window) ranges
  | imapLineText | imapLineData => True
  end.

Definition line_uids (kind : imapLineKind) (rest : bytes) : list Z :=
  match kind with imapLineSearch => searchLineUIDs (fields (searchNumbers rest)) | _ => [] end.

Lemma frameLine_clean c line literal unterminated :
  clean (frameLine c line literal unterminated) ->
  clean c /\ contains_byte CR line = false /\ unterminated = false
  /\ judged (frameLine c line literal unterminated) = judged c.
Proof.
  unfold frameLine. destruct (contains_byte CR line), unterminated, literal as [[? ?]|], c; unfold clean; cbn; intros (?&?&?); split_and!; done.
Qed.

Lemma observeLine_clean c raw line kind rest literal unterminated :
  lineParts c raw = (line, (kind, rest), literal, unterminated) -> clean (observeLine c raw) ->
  clean c /\ contains_byte CR line = false /\ unterminated = false /\ line_ok (searchWindow c) kind rest literal
  /\ NoDup (line_uids kind rest) /\ Forall (fun u => u ∉ searchUIDs c) (line_uids kind rest)
  /\ judged (observeLine c raw) = (list_to_set (line_uids kind rest) ∪ searchUIDs c, searchWindow c).
Proof.
  intros Hparts. unfold observeLine. rewrite Hparts. clear Hparts.
  assert (forall d, clean (frameLine c line literal unterminated) -> judged d = judged (frameLine c line literal unterminated) ->
    line_ok (searchWindow c) kind rest literal -> line_uids kind rest = [] ->
    clean c /\ contains_byte CR line = false /\ unterminated = false /\ line_ok (searchWindow c) kind rest literal
    /\ NoDup (line_uids kind rest) /\ Forall (fun u => u ∉ searchUIDs c) (line_uids kind rest)
    /\ judged d = (list_to_set (line_uids kind rest) ∪ searchUIDs c, searchWindow c)) as Hquiet.
  { intros d Hf Hd Hok Hnil. apply frameLine_clean in Hf as (? & ? & ? & Hj). rewrite Hnil, Hd, Hj.
    do 4 (split; [done|]). split; [apply NoDup_nil_2|]. split; [apply Forall_nil_2|]. unfold judged. f_equal. set_solver. }
  destruct kind.
  - intros (_ & K & _). by destruct (frameLine c line literal unterminated).
  - intros Hc. apply Hquiet; done.
  - intros Hc. apply Hquiet; done.
  - intros (K1 & K2 & K3 & K4 & K5)%observeSearchUIDs_clean.
    assert (judged ((frameLine c line literal unterminated) <| searchResponseSeen := true |>) = judged (frameLine c line literal unterminated)) as Hr
      by (by destruct (frameLine c line literal unterminated)).
    assert (clean (frameLine c line literal unterminated)) as Hf by (by destruct (frameLine c line literal unterminated)).
    apply frameLine_clean in Hf as (? & ? & ? & Hj). rewrite Hj in Hr. apply pair_equal_spec in Hr as [Hr1 Hr2]. rewrite Hr1, Hr2 in *.
    do 3 (split; [done|]). split; [|split; [done|split; [|done]]].
    + split; [done|]. eapply Forall_impl; [exact K4|]. by intros u [_ ?].
    + eapply Forall_impl; [exact K4|]. by intros u [? _].
  - assert (forall d, clean (d <| eSearchResponseSeen := true |>) <-> clean d) as Hcl by (by intros []).
    assert (forall d, judged (d <| eSearchResponseSeen := true |>) = judged d) as Hju by (by intros []).
    destruct literal as [[size opening]|].
    + intros Hc. apply Hquiet; try done.
    + destruct (eSearchAllOverlaps rest) as [[ranges overlaps] complete] eqn:Eo.
      set (f := frameLine c line None unterminated) in *. set (e := fold_left _ _ _). intros Hc.
      assert (clean e /\ overlaps = false /\ complete = true) as (He & -> & ->).
      { revert Hc. generalize e. intros []. unfold clean. destruct overlaps, complete; cbn; intros (?&?&?); by split_and!. }
      apply ranges_clean in He as (K1 & K2 & K3). rewrite Hcl in K1. rewrite Hju in K3.
      assert (Forall (admitted (searchWindow f)) ranges) as K2' by exact K2. clear K2.
      pose proof K1 as K1'. apply frameLine_clean in K1' as (_ & _ & _ & Hj). apply pair_equal_spec in Hj as [_ Hw].
      apply Hquiet; try done. cbn. intros _. exists ranges. by rewrite <- Hw.
Qed.

(** The lines a run of the observer classifies, oldest first. *)
Fixpoint observedLines (fuel : nat) (c : readBudgetConn) : list (imapLineKind * bytes * option (Z * nat)) :=
  match fuel with
  | O => []
  | Datatypes.S fuel =>
      match takeLine c with
      | (_, None) => []
      | (c, Some raw) =>
          let '(_, (kind, rest), literal, _) := lineParts c raw in
          (kind, rest, literal) :: observedLines fuel (observeLine c raw)
      end
  end.

Definition linesOf (c : readBudgetConn) (input : bytes) : list (imapLineKind * bytes * option (Z * nat)) :=
  observedLines (Datatypes.S (length (searchBuffer (append c input)))) (append c input).

Definition all_uids (lines : list (imapLineKind * bytes * option (Z * nat))) : list Z :=
  concat (map (fun '(kind, rest, _) => line_uids kind rest) lines).

Lemma takeLine_flags c d raw : takeLine c = (d, Some raw) -> (clean d -> clean c) /\ judged d = judged c.
Proof.
  rewrite takeLine_eq. destruct (_ && _); [done|]. unfold cutLine, dropLiteral.
  destruct (0 <? _), (index_byte LF _); try done; intros [= <- <-]; by destruct c.
Qed.

Lemma takeLine_flags_none c d : takeLine c = (d, None) -> (clean d -> clean c) /\ judged d = judged c.
Proof.
  rewrite takeLine_eq. destruct (_ && _); [intros [= <-]; by destruct c|]. unfold cutLine, dropLiteral.
  destruct (0 <? _), (index_byte LF _); try done; intros [= <-]; by destruct c.
Qed.

Lemma observeLoop_clean fuel c :
  clean (observeLoop fuel c) ->
  clean c /\ NoDup (all_uids (observedLines fuel c)) /\ Forall (fun u => u ∉ searchUIDs c) (all_uids (observedLines fuel c))
  /\ Forall (fun '(kind, rest, literal) => line_ok (searchWindow c) kind rest literal) (observedLines fuel c).
Proof.
  revert c. induction fuel as [|fuel IH]; intros c; cbn [observeLoop observedLines].
  { intros H. split; [done|]. split; [apply NoDup_nil_2|]. split; apply Forall_nil_2. }
  destruct (takeLine c) as [d [raw|]] eqn:E.
  - apply takeLine_flags in E as [Ec Ej]. apply pair_equal_spec in Ej as [Eu Ew]. rewrite <- Eu, <- Ew.
    intros (K1 & K2 & K3 & K4)%IH.
    destruct (lineParts d raw) as [[[line [kind rest]] literal] unterminated] eqn:Hp.
    destruct (observeLine_clean _ _ _ _ _ _ _ Hp K1) as (Hd & _ & _ & Hok & Hn & Hf & Hj).
    apply pair_equal_spec in Hj as [Hju Hjw]. rewrite Hju in K3. rewrite Hjw in K4.
    split; [by apply Ec|]. change (all_uids ((kind, rest, literal) :: observedLines fuel (observeLine d raw)))
      with (line_uids kind rest ++ all_uids (observedLines fuel (observeLine d raw))).
    split; [|split].
    + apply NoDup_app. split_and!; [done| |done]. intros u Hu Hin. rewrite Forall_forall in K3. apply (K3 u Hin). set_solver.
    + apply Forall_app. split; [done|]. eapply Forall_impl; [exact K3|]. set_solver.
    + by constructor.
  - apply takeLine_flags_none in E as [Ec Ej]. intros Hd. split; [by apply Ec|].
    split; [apply NoDup_nil_2|]. split; apply Forall_nil_2.
Qed.


(** The fuel of the pair walk is never short: every round consumes text. *)
Lemma eSearchAtom_app input : fst (eSearchAtom input) ++ snd (eSearchAtom input) = input.
Proof. induction input as [|b rest IH]; [done|]. cbn. destruct (isIMAPAtomChar b); [|done]. destruct (eSearchAtom rest); cbn in *. by f_equal. Qed.

Lemma eSearchValue_app input : fst (eSearchValue input) ++ snd (eSearchValue input) = input.
Proof.
  unfold eSearchValue. destruct input as [|b rest]; [done|]. destruct (_ && _); [apply eSearchAtom_app|].
  destruct (valueEnd _ _ _ _ _); [apply take_drop|done].
Qed.

Lemma eSearchPairs_fuel f1 f2 name rest seen :
  (length rest < f1)%nat -> (length rest < f2)%nat -> eSearchPairs f1 name rest seen = eSearchPairs f2 name rest seen.
Proof.
  revert f2 name rest seen. induction f1 as [|f1 IH]; intros f2 name rest seen H1 H2; [lia|]. destruct f2 as [|f2]; [lia|].
  cbn [eSearchPairs]. destruct (beqs name []); [done|]. destruct rest as [|r rest]; [done|].
  destruct (negb (has_prefix (r :: rest) [SP])); [done|]. change (drop 1 (r :: rest)) with rest.
  destruct (eSearchValue rest) as [value after] eqn:Ev. destruct (beqs value []); [done|].
  destruct (if equal_fold name _ then _ else _) as [[observed overlap] parsed]. cbv zeta.
  destruct overlap; [done|]. destruct (negb parsed); [done|]. destruct (beqs after []); [done|].
  destruct (negb (has_prefix after [SP])); [done|].
  destruct (eSearchAtom (drop 1 after)) as [name' rest'] eqn:Ea.
  assert (length rest' <= length after)%nat.
  { pose proof (eSearchAtom_app (drop 1 after)) as Hl. rewrite Ea in Hl. apply (f_equal length) in Hl.
    rewrite length_app, length_drop in Hl. cbn in Hl. lia. }
  assert (length after <= length rest)%nat.
  { pose proof (eSearchValue_app rest) as Hl. rewrite Ev in Hl. apply (f_equal length) in Hl.
    rewrite length_app in Hl. cbn in Hl. lia. }
  cbn in *. apply IH; lia.
Qed.

(** ** The input budget *)

(** The connection with one read in flight, the limit last begun and what was
    absorbed under it. *)
Record metered := mkMetered { conn : readBudgetConn; inflight : option Z; limit : Z; absorbed : Z }.

(** The reader runs beside the operations.  A command begins only with a limit
    that covers the read already in flight, which go-imap's 4096-byte buffer
    and the limits the adapter uses guarantee. *)
Definition covers (m : metered) (n : Z) : Prop := 0 <= n /\ forall k, inflight m = Some k -> k <= n.

Inductive meter_step : metered -> metered -> Prop :=
| meter_begin m n : covers m n ->
    meter_step m (mkMetered (begin (conn m) n) (inflight m) n 0)
| meter_begin_search m n window : covers m n ->
    meter_step m (mkMetered (checkSearchWindow (beginSearch (conn m) n) window) (inflight m) n 0)
| meter_end m : covers m (idleLimit (conn m)) ->
    meter_step m (mkMetered (snd (finish (conn m))) (inflight m) (idleLimit (conn m)) 0)
| meter_end_search m : covers m (idleLimit (conn m)) ->
    meter_step m (mkMetered (snd (endSearch (conn m))) (inflight m) (idleLimit (conn m)) 0)
| meter_prepare m buffer c p : inflight m = None -> 0 <= buffer -> budgetPrepare (conn m) buffer = (c, p) ->
    meter_step m (mkMetered c (match p with PrepareRead n => Some n | _ => None end) (limit m) (absorbed m))
| meter_absorb m n data : inflight m = Some n -> zlen data <= n ->
    meter_step m (mkMetered (budgetAbsorb (conn m) data) None (limit m) (absorbed m + zlen data)).

Definition metered_start (idle : Z) : metered := mkMetered (newReadBudgetConn idle) None idle 0.

Record within_budget (idle : Z) (m : metered) : Prop := {
  wb_active : active (conn m) = true;
  wb_idle : idleLimit (conn m) = idle;
  wb_remaining : remaining (conn m) = limit m - absorbed m;
  wb_absorbed : 0 <= absorbed m <= limit m;
  wb_inflight : forall n, inflight m = Some n -> 0 <= n <= remaining (conn m) }.

(** Observing changes none of the budget's own fields. *)
Definition meter (c : readBudgetConn) := (active c, idleLimit c, remaining c).

Lemma searchRange_meter c range : meter (searchRangeLocked c range) = meter c.
Proof. destruct range, c. unfold searchRangeLocked, set_field. cbn. by repeat case_match. Qed.

Lemma ranges_meter ranges c : meter (fold_left searchRangeLocked ranges c) = meter c.
Proof. revert c. induction ranges as [|r ranges IH]; intros c; [done|]. cbn [fold_left]. by rewrite IH, searchRange_meter. Qed.

Lemma observeFields_meter numbers c : meter (observeFields c numbers) = meter c.
Proof.
  revert c. induction numbers as [|field rest IH]; intros c; [done|]. cbn [observeFields].
  destruct (parse_uint field 32) as [uid|]; [|by destruct c]. rewrite IH, <- (searchRange_meter c (uid, uid)).
  generalize (searchRangeLocked c (uid, uid)). intros d. by destruct (bool_decide _), d.
Qed.

Lemma observeLine_meter c raw : meter (observeLine c raw) = meter c.
Proof.
  unfold observeLine. destruct (lineParts c raw) as [[[line [kind rest]] literal] unterminated].
  assert (meter (frameLine c line literal unterminated) = meter c) as <-
    by (unfold frameLine; by destruct (_ || _), literal as [[? ?]|], c).
  generalize (frameLine c line literal unterminated). clear c. intros d. destruct kind; [by destruct d|done|done| |].
  - unfold observeSearchUIDsLocked. destruct (index_byte _ rest); rewrite observeFields_meter; [|by destruct d].
    by destruct (searchModSeqGroup _), d.
  - destruct literal as [[? ?]|]; [by destruct d|]. destruct (eSearchAllOverlaps rest) as [[ranges overlaps] complete].
    transitivity (meter (fold_left searchRangeLocked ranges (d <| eSearchResponseSeen := true |>))).
    + generalize (fold_left searchRangeLocked ranges (d <| eSearchResponseSeen := true |>)). intros e. by destruct overlaps, complete, e.
    + rewrite ranges_meter. by destruct d.
Qed.

Lemma takeLine_meter c d r : takeLine c = (d, r) -> meter d = meter c.
Proof.
  rewrite takeLine_eq. destruct (_ && _); [intros [= <- <-]; by destruct c|]. unfold cutLine, dropLiteral.
  destruct (0 <? _), (index_byte LF _); intros [= <- <-]; by destruct c.
Qed.

Lemma observe_meter c input : meter (observeSearchResponseLocked c input) = meter c.
Proof.
  unfold observeSearchResponseLocked. fold (append c input).
  transitivity (meter (append c input)); [|by destruct c].
  generalize (append c input) (Datatypes.S (length (searchBuffer (append c input)))). clear c. intros c fuel.
  revert c. induction fuel as [|fuel IH]; intros c; [done|]. cbn [observeLoop].
  destruct (takeLine c) as [d [raw|]] eqn:E; apply takeLine_meter in E; [|done]. by rewrite IH, observeLine_meter.
Qed.

Lemma budgetAbsorb_meter c data : active c = true ->
  meter (budgetAbsorb c data) = (true, idleLimit c, remaining c - zlen data).
Proof.
  unfold budgetAbsorb. intros Ha. rewrite Ha. destruct (_ && _); [rewrite observe_meter|]; destruct c; cbn in *; by subst.
Qed.

Lemma within_budget_step idle m m' : 0 <= idle -> within_budget idle m -> meter_step m m' -> within_budget idle m'.
Proof.
  intros Hidle [Ha Hi Hr Hab Hf] Hstep.
  destruct Hstep as [m n [Hn Hc]|m n window [Hn Hc]|m [Hn Hc]|m [Hn Hc]|m buffer c p Hnone Hb Hp|m n data Hin Hd];
    cbn [conn inflight limit absorbed] in *.
  1-4: constructor; cbn; rewrite ?Hi in *; try done; try lia; intros k Hk; specialize (Hf k Hk); specialize (Hc k Hk); cbn in *; lia.
  - unfold budgetPrepare in Hp. rewrite Ha in Hp. cbn [negb] in Hp. destruct (remaining (conn m) =? 0) eqn:E0.
    + injection Hp as <- <-. destruct m as [[] ? ? ?]. cbn in *. by constructor.
    + destruct (remaining (conn m) <? buffer) eqn:E1; injection Hp as <- <-.
      * destruct (remaining (conn m) <? 0) eqn:E2; constructor; cbn; try done; intros k [= <-]; bool_prop; lia.
      * constructor; cbn; try done. intros k [= <-]. bool_prop. lia.
  - pose proof (budgetAbsorb_meter (conn m) data Ha) as Hm. unfold meter in Hm. injection Hm as H1 H2 H3.
    specialize (Hf n Hin). pose proof (zlen_nonneg data). constructor; cbn [conn inflight limit absorbed]; try done; try lia.
    
Qed.

(** However the reader interleaves with the operations, no command reads
    more than its limit, the allowance never goes below zero, and so cutting
    the buffer to it never fails. *)
Theorem input_budget idle m :
  0 <= idle -> star meter_step (metered_start idle) m ->
  0 <= absorbed m <= limit m /\ remaining (conn m) = limit m - absorbed m
  /\ forall buffer, snd (budgetPrepare (conn m) buffer) <> PreparePanic.
Proof.
  intros Hidle Hm. assert (within_budget idle m) as [Ha Hi Hr Hab Hf].
  { revert Hm. apply star_invariant; [|intros x y Hx Hxy; by apply (within_budget_step idle x)].
    constructor; cbn; try done; lia. }
  split; [done|]. split; [done|]. intros buffer. unfold budgetPrepare. rewrite Ha. cbn [negb].
  destruct (_ =? 0); [done|]. destruct (_ <? buffer); [|done]. destruct (_ <? 0) eqn:E; [|done]. bool_prop. lia.
Qed.

(** ** Runs *)

Definition idle_limit : Z := 65536.
Definition searching : readBudgetConn := checkSearchWindow (beginSearch (newReadBudgetConn idle_limit) 4096) (mkWindow 1 100).
Definition crlf : bytes := [CR; LF].
Definition two_reads : list bytes := [$"* SEARCH 3 1"; $"7 99" ++ crlf ++ $"* 12 EXISTS" ++ crlf ++ $"T3 OK done" ++ crlf].

Example two_reads_lines : linesOf searching (concat two_reads)
  = [(imapLineSearch, $" 3 17 99", None); (imapLineData, [], None); (imapLineText, [], None)].
Proof. vm_compute. reflexivity. Qed.

Lemma observe_chunk_independence_witness :
  fold_left observeSearchResponseLocked two_reads searching = observeSearchResponseLocked searching (concat two_reads).
Proof. apply (observe_chunk_independence searching two_reads). reflexivity. Defined.

Lemma sequence_set_exact_witness : ~ NoDup (expand [(3, 5); (9, 9); (4, 4)]).
Proof.
  destruct (sequence_set_exact $"5:3,9,4" [(3, 5); (9, 9); (4, 4)] true) as [_ H]; [vm_compute; reflexivity|].
  apply H. reflexivity.
Defined.


(** A read in flight when a SEARCH begins, and the rest of its budget. *)
Lemma input_budget_witness :
  exists m, star meter_step (metered_start idle_limit) m /\ absorbed m = 23 /\ absorbed m <= limit m.
Proof.
  set (m1 := mkMetered (newReadBudgetConn idle_limit) (Some 4096) idle_limit 0).
  set (m2 := mkMetered (checkSearchWindow (beginSearch (conn m1) 4096) (mkWindow 1 100)) (Some 4096) 4096 0).
  set (data := $"* SEARCH 3 17 99 OK now").
  assert (star meter_step (metered_start idle_limit) (mkMetered (budgetAbsorb (conn m2) data) None 4096 23)) as Hs.
  { apply (star_snoc _ _ m2); [apply (star_snoc _ _ m1); [apply (star_snoc _ _ (metered_start idle_limit)); [apply star_refl|]|]|].
    - exact (meter_prepare (metered_start idle_limit) 4096 (newReadBudgetConn idle_limit) (PrepareRead 4096)
        eq_refl ltac:(lia) eq_refl).
    - apply (meter_begin_search m1 4096 (mkWindow 1 100)). split; [lia|]. by intros k [= <-].
    - apply (meter_absorb m2 4096 data eq_refl). vm_compute. discriminate. }
  exists (mkMetered (budgetAbsorb (conn m2) data) None 4096 23). split; [exact Hs|]. split; [reflexivity|].
  apply (input_budget idle_limit _ ltac:(unfold idle_limit; lia) Hs).
Defined.
