(* ===== verification/DispatchGuard.v ===== *)
(** * The native-MOVE dispatch guard

    [dispatchGuardConn], [dispatchMove] and [deadlineConn] of
    [bridge/imapclient.go]: while a MOVE is dispatched the write side of the
    transport lets through one complete command line and nothing else. *)
From Stdlib Require Import ZArith Lia Strings.Byte.
From stdpp Require Import base list gmap strings.
From S2P Require Import Prelude GoStrings ImapGrammar Errors Session MessageID.

(** ** The guard *)

Record dispatchGuardConn := mkGuard { armed : bool; used : bool; tripped : bool; prefix : bytes }.

Definition newGuard : dispatchGuardConn := mkGuard false false false [].

(** [strconv.FormatUint(uint64(uid), 10)] is the decimal text. *)
Definition movePrefix (uid : Z) : bytes := $"UID MOVE " ++ decimal uid ++ $" ".

Definition arm (c : dispatchGuardConn) (uid : Z) : dispatchGuardConn := mkGuard true false false (movePrefix uid).

Definition disarm (c : dispatchGuardConn) : bool * dispatchGuardConn :=
  (tripped c, mkGuard false (used c) (tripped c) (prefix c)).

Definition CRLF : bytes := [CR; LF].

Definition nativeMoveLine (buffer line_prefix : bytes) : bool :=
  let (body, complete) := cut_suffix buffer CRLF in
  if negb complete || contains_any body CRLF then false
  else
    let '(tag, command, found) := cut_byte SP body in
    if negb found || beqs tag [] then false
    else
      let (mailbox, native) := cut_prefix command line_prefix in
      native && negb (beqs mailbox []) && negb (has_suffix mailbox $"}").

(** One write: the state after it and whether the bytes reach the transport;
    when they do not, the transport is closed. *)
Definition guardWrite (c : dispatchGuardConn) (buffer : bytes) : dispatchGuardConn * bool :=
  if armed c then
    if tripped c || used c || negb (nativeMoveLine buffer (prefix c))
    then (mkGuard (armed c) (used c) true (prefix c), false)
    else (mkGuard (armed c) true (tripped c) (prefix c), true)
  else (c, true).

(** A sequence of writes and what of them reached the transport. *)
Fixpoint guardWrites (c : dispatchGuardConn) (writes : list bytes) : dispatchGuardConn * list bytes :=
  match writes with
  | [] => (c, [])
  | buffer :: rest =>
      let (c, forwarded) := guardWrite c buffer in
      let (c, more) := guardWrites c rest in
      (c, if forwarded then buffer :: more else more)
  end.

(** [dispatchMove]: the guard is armed, the client writes [writes] and its
    command ends with [err]; [now] is the context when it ends. *)
Definition dispatchMove (c : dispatchGuardConn) (now : ctx) (uid : Z) (writes : list bytes)
    (exceeded : bool) (err : option goerror) : (option goerror * list bytes) * dispatchGuardConn :=
  let (c, sent) := guardWrites (arm c uid) writes in
  let err := mapIMAPError (Some now) (if exceeded then Some (errorCode CodeBoundsExceeded) else err) in
  let (refused, c) := disarm c in
  (if refused : bool then Some (errorCode CodeUnsupported) else err, sent, c).

Definition MoveUID (c : dispatchGuardConn) (supported : bool) (now : ctx) (uid : Z) (destination : bytes)
    (writes : list bytes) (exceeded : bool) (err : option goerror)
  : (option goerror * list bytes) * dispatchGuardConn :=
  if (uid =? 0) || beqs destination [] then (Some (errorCode CodeIMAPProtocol), [], c)
  else if negb supported then (Some (errorCode CodeUnsupported), [], c)
  else dispatchMove c now uid writes exceeded err.

(** ** The deadline *)

(** The limit of one operation; no limit is [None], as the zero time. *)
Definition setDeadline (operation deadline : option Z) : option Z :=
  match operation with
  | None => deadline
  | Some limit =>
      match deadline with
      | None => Some limit
      | Some d => if limit <? d then Some limit else Some d
      end
  end.

(** ** What reaches the transport *)

(** One complete line [<tag> UID MOVE <uid> <mailbox>]. *)
Definition move_line (uid : Z) (line : bytes) : Prop :=
  exists tag mailbox, line = tag ++ $" " ++ movePrefix uid ++ mailbox ++ CRLF
    /\ tag <> [] /\ ~ In SP tag /\ mailbox <> [] /\ ~ In CR (tag ++ mailbox) /\ ~ In LF (tag ++ mailbox)
    /\ has_suffix mailbox $"}" = false.

Lemma nativeMoveLine_spec buffer uid : nativeMoveLine buffer (movePrefix uid) = true -> move_line uid buffer.
Proof.
  unfold nativeMoveLine. destruct (cut_suffix buffer CRLF) as [body complete] eqn:E1.
  destruct complete; [|done]. apply cut_suffix_true in E1. cbn [negb orb].
  destruct (contains_any body CRLF) eqn:E2; [done|]. destruct (cut_byte SP body) as [[tag command] found] eqn:E3.
  destruct found; [|done]. cbn [negb orb]. destruct (beqs tag []) eqn:E4; [done|].
  apply cut_byte_true in E3 as [E3 Htag]. destruct (cut_prefix command _) as [mailbox native] eqn:E5.
  destruct native; [|done]. apply cut_prefix_true in E5. cbn [andb]. intros H. apply andb_prop in H as [H1 H2].
  apply negb_true_iff in H1, H2. unfold contains_any in E2. cbn in E2. rewrite orb_false_r in E2.
  apply orb_false_iff in E2 as [Ecr Elf]. apply contains_byte_false in Ecr, Elf.
  exists tag, mailbox. split_and!.
  - rewrite E1, E3, E5, <- app_assoc. change ($" ") with [SP]. cbn [app]. by rewrite <- app_assoc.
  - intros ->. done.
  - done.
  - intros ->. done.
  - intros [Hin|Hin]%in_app_or; apply Ecr; rewrite E3; apply in_or_app; [by left|right; right].
    rewrite E5. apply in_or_app. by right.
  - intros [Hin|Hin]%in_app_or; apply Elf; rewrite E3; apply in_or_app; [by left|right; right].
    rewrite E5. apply in_or_app. by right.
  - done.
Qed.

Lemma guardWrites_used c writes : armed c = true -> used c || tripped c = true ->
  snd (guardWrites c writes) = [] /\ tripped (fst (guardWrites c writes)) = tripped c || negb (bool_decide (writes = [])).
Proof.
  revert c. induction writes as [|w writes IH]; intros c Ha Hu; cbn [guardWrites]; [by rewrite orb_false_r|].
  unfold guardWrite. rewrite Ha. rewrite (orb_comm (tripped c)), Hu. cbn [orb].
  destruct (IH (mkGuard true (used c) true (prefix c))) as [H1 H2]; [done|cbn; by rewrite orb_true_r|].
  destruct (guardWrites _ writes) as [d more]. cbn in *. split; [done|]. rewrite H2. by rewrite orb_true_r.
Qed.

(** What a dispatch can send: nothing, or exactly one native MOVE line of this
    UID; and it is refused unless the client wrote that one line and no more. *)
Lemma dispatch_forwards c now uid writes exceeded err :
  let '(r, sent, c') := dispatchMove c now uid writes exceeded err in
  armed c' = false
  /\ ((exists line, writes = [line] /\ sent = [line] /\ move_line uid line
        /\ r = mapIMAPError (Some now) (if exceeded then Some (errorCode CodeBoundsExceeded) else err))
      \/ (writes = [] /\ sent = []
        /\ r = mapIMAPError (Some now) (if exceeded then Some (errorCode CodeBoundsExceeded) else err))
      \/ (r = Some (errorCode CodeUnsupported)
        /\ (sent = [] \/ exists line more, writes = line :: more /\ more <> [] /\ sent = [line] /\ move_line uid line))).
Proof.
  unfold dispatchMove. destruct writes as [|line more]; cbn [guardWrites]; [by split; [|right; left]|].
  unfold guardWrite. cbn [armed tripped used orb arm]. destruct (nativeMoveLine line (prefix (arm c uid))) eqn:E; cbn [negb].
  - apply nativeMoveLine_spec in E.
    destruct (guardWrites_used (mkGuard true true false (movePrefix uid)) more eq_refl eq_refl) as [H1 H2].
    cbn [arm prefix]. destruct (guardWrites _ more) as [d sent]. cbn in *. subst sent. split; [done|].
    rewrite H2. case_bool_decide as Hm; cbn.
    + subst more. left. by exists line.
    + right. right. split; [done|]. right. by exists line, more.
  - destruct (guardWrites_used (mkGuard true false true (movePrefix uid)) more eq_refl eq_refl) as [H1 H2].
    cbn [arm prefix]. destruct (guardWrites _ more) as [d sent]. cbn in *. subst sent. split; [done|]. rewrite H2. cbn.
    right. right. split; [done|]. by left.
Qed.

(** C26: While a MOVE is dispatched, whatever the client writes, the transport
    receives nothing or exactly one complete native [UID MOVE] line of this UID,
    without a line break or literal inside it; a fallback, a second command or
    a split line is refused, and the guard is always disarmed at the end. *)
Theorem dispatch_native c supported now uid destination writes exceeded err :
  armed c = false ->
  let '(r, sent, c') := MoveUID c supported now uid destination writes exceeded err in
  armed c' = false
  /\ (sent = [] \/ exists line, sent = [line] /\ move_line uid line)
  /\ (r = None -> writes = sent)
  /\ (supported = false \/ uid = 0 \/ destination = [] -> sent = [] /\ r <> None).
Proof.
  intros Ha. unfold MoveUID. destruct (_ || _) eqn:E0.
  { split; [done|]. split; [by left|]. by split. }
  destruct supported; cbn [negb]; [|split; [done|split; [by left|by split]]].
  pose proof (dispatch_forwards c now uid writes exceeded err) as H.
  destruct (dispatchMove c now uid writes exceeded err) as [[r sent] c']. destruct H as [Hd H].
  apply orb_false_iff in E0 as [Hu Hdest]. apply Z.eqb_neq in Hu.
  split; [done|]. split; [|split].
  - destruct H as [(line & _ & -> & ? & _)|[(_ & -> & _)|(_ & [->|(line & more & _ & _ & -> & ?)])]]; eauto.
  - intros ->. destruct H as [(line & -> & -> & _)|[(-> & -> & _)|([=] & _)]]; done.
  - intros [?|[?|Hd0]]; [done|done|]. by rewrite Hd0, beqs_refl in Hdest.
Qed.

(** The refusal is not always of an unsent command: when the client writes
    anything after the MOVE line, the line has been sent and the MOVE is still
    reported as unsupported. *)
Theorem dispatch_sent_unsupported :
  dispatchMove newGuard live_ctx 7 [$"T1 UID MOVE 7 Archive" ++ CRLF; $"T2 NOOP" ++ CRLF] false None
  = (Some (errorCode CodeUnsupported), [$"T1 UID MOVE 7 Archive" ++ CRLF],
     mkGuard false true true $"UID MOVE 7 ").
Proof. vm_compute. reflexivity. Qed.

Lemma dispatch_native_witness :
  armed newGuard = false /\
  let '(r, sent, c') := MoveUID newGuard true live_ctx 7 $"Archive" [$"T1 UID MOVE 7 Archive" ++ CRLF] false None in
  armed c' = false
  /\ (sent = [] \/ exists line, sent = [line] /\ move_line 7 line)
  /\ (r = None -> [$"T1 UID MOVE 7 Archive" ++ CRLF] = sent).
Proof.
  split; [reflexivity|].
  pose proof (dispatch_native newGuard true live_ctx 7 $"Archive" [$"T1 UID MOVE 7 Archive" ++ CRLF] false None eq_refl) as H.
  destruct (MoveUID _ _ _ _ _ _ _ _) as [[r sent] c'].
  destruct H as (H1 & H2 & H3 & _). exact (conj H1 (conj H2 H3)).
Defined.

(** The deadline of an operation is never extended or removed. *)
Lemma setDeadline_bounded limit deadline d : setDeadline (Some limit) deadline = d -> exists t, d = Some t /\ t <= limit.
Proof.
  intros <-. cbn. destruct deadline as [t|]; [|by exists limit]. destruct (limit <? t) eqn:E; bool_prop; [by exists limit|].
  by exists t.
Qed.
