(* ===== verification/Threads.v ===== *)
(** * Local thread resolution

    [bridge/threads.go]: [BuildThread] selects the earliest messages with a
    bounded heap, gives each a unique key, links parents by [References] and
    [In-Reply-To] without cycles, and bounds the depth.  The operations of
    [container/heap] that it uses are written out. *)
From Stdlib Require Import ZArith Lia Strings.Byte.
From stdpp Require Import base list gmap strings sorting.
From S2P Require Import Prelude GoStrings GoText Config Session MessageID.

Record ThreadMessage := mkThreadMessage { tKey : bytes; tmHeaders : CanonicalHeaders; ReceivedAt : Z }.

Record ThreadNode := mkNode {
  nKey : bytes; nMessageID : bytes; nParentKey : bytes; nMissingParentID : bytes; nDepth : nat;
  nMessage : ThreadMessage }.

Record Thread := mkThread {
  Nodes : list ThreadNode; thThreadMessages : bool; thReferences : bool; thThreadCycle : bool; thThreadDepth : bool }.

(** ** Order *)

Record indexedThreadMessage := mkIndexed { message : ThreadMessage; inputIndex : nat }.

Definition threadMessageBefore (l r : indexedThreadMessage) : bool :=
  if negb (ReceivedAt (message l) =? ReceivedAt (message r)) then ReceivedAt (message l) <? ReceivedAt (message r)
  else if negb (beqs (tKey (message l)) (tKey (message r))) then bytes_ltb (tKey (message l)) (tKey (message r))
  else if negb (beqs (hMessageID (tmHeaders (message l))) (hMessageID (tmHeaders (message r))))
  then bytes_ltb (hMessageID (tmHeaders (message l))) (hMessageID (tmHeaders (message r)))
  else (inputIndex l <? inputIndex r)%nat.

(** ** The heap of the latest selected message *)

Abbreviation latestThreadMessageHeap := (list indexedThreadMessage).

(** [Less(i, j)]: the later message comes first. *)
Definition Less (h : latestThreadMessageHeap) (i j : nat) : bool :=
  match h !! i, h !! j with Some a, Some b => threadMessageBefore b a | _, _ => false end.

Definition Swap (h : latestThreadMessageHeap) (i j : nat) : latestThreadMessageHeap :=
  match h !! i, h !! j with Some a, Some b => <[i := b]> (<[j := a]> h) | _, _ => h end.

(** [heap.up] and [heap.down]; [fuel] is at least the number of levels. *)
Fixpoint heap_up (fuel : nat) (h : latestThreadMessageHeap) (j : nat) : latestThreadMessageHeap :=
  match fuel with
  | O => h
  | Datatypes.S fuel =>
      let i := ((j - 1) / 2)%nat in
      if (i =? j)%nat || negb (Less h j i) then h else heap_up fuel (Swap h i j) i
  end.

Fixpoint heap_down (fuel : nat) (h : latestThreadMessageHeap) (i n : nat) : latestThreadMessageHeap * nat :=
  match fuel with
  | O => (h, i)
  | Datatypes.S fuel =>
      let j1 := (2 * i + 1)%nat in
      if (n <=? j1)%nat then (h, i)
      else
        let j2 := (j1 + 1)%nat in
        let j := if (j2 <? n)%nat && Less h j2 j1 then j2 else j1 in
        if negb (Less h j i) then (h, i) else heap_down fuel (Swap h i j) j n
  end.

Definition heap_Push (h : latestThreadMessageHeap) (value : indexedThreadMessage) : latestThreadMessageHeap :=
  let h := h ++ [value] in heap_up (length h) h (length h - 1).

Definition heap_Fix (h : latestThreadMessageHeap) (i : nat) : latestThreadMessageHeap :=
  let (h', last) := heap_down (length h) h i (length h) in
  if (i <? last)%nat then h' else heap_up (length h') h' i.

(** ** Selection *)

Definition selectMessage (limit : nat) (selected : latestThreadMessageHeap) (candidate : indexedThreadMessage)
  : latestThreadMessageHeap :=
  if (length selected <? limit)%nat then heap_Push selected candidate
  else match selected with
  | [] => selected
  | root :: _ =>
      if threadMessageBefore candidate root then heap_Fix (<[0%nat := candidate]> selected) 0 else selected
  end.

Definition before_eq (a b : indexedThreadMessage) : Prop := threadMessageBefore b a = false.
#[export] Instance before_eq_dec a b : Decision (before_eq a b) := decide (threadMessageBefore b a = false).

(** Each message with its place in the input. *)
Definition indexed (messages : list ThreadMessage) : list indexedThreadMessage := imap (fun i m => mkIndexed m i) messages.

Definition earliestThreadMessages (messages : list ThreadMessage) (limit : nat) : list ThreadMessage :=
  map message (merge_sort before_eq (fold_left (selectMessage limit) (indexed messages) [])).

(** ** Keys *)

(** The loop over suffixes. *)
Fixpoint freshKey (fuel : nat) (base key : bytes) (suffix : Z) (keys : gmap bytes nat) : bytes :=
  match fuel with
  | O => key
  | Datatypes.S fuel =>
      match keys !! key with
      | None => key
      | Some _ => freshKey fuel base (base ++ $"#" ++ decimal suffix) (suffix + 1) keys
      end
  end.

Definition stableThreadKey (m : ThreadMessage) (keys : gmap bytes nat) : bytes :=
  let key := tKey m in
  let key := if beqs key [] then hMessageID (tmHeaders m) else key in
  let key := if beqs key [] then $"message" else key in
  freshKey (Datatypes.S (size keys)) key key 2 keys.

(** The loop that names the messages from [index] on. *)
Fixpoint assignKeys (index : nat) (ordered : list ThreadMessage) (keys identifiers : gmap bytes nat)
  : list ThreadMessage * gmap bytes nat :=
  match ordered with
  | [] => ([], identifiers)
  | m :: rest =>
      let key := stableThreadKey m keys in
      let m := mkThreadMessage key (tmHeaders m) (ReceivedAt m) in
      let identifier := hMessageID (tmHeaders m) in
      let identifiers := if negb (beqs identifier []) && bool_decide (identifiers !! identifier = None)
                         then <[identifier := index]> identifiers else identifiers in
      let (rest, identifiers) := assignKeys (index + 1) rest (<[key := index]> keys) identifiers in
      (m :: rest, identifiers)
  end.

(** ** Parents *)

(** The last reference that names a message. *)
Fixpoint lastKnown (references : list bytes) (identifiers : gmap bytes nat) : option nat :=
  match references with
  | [] => None
  | identifier :: rest =>
      match lastKnown rest identifiers with Some p => Some p | None => identifiers !! identifier end
  end.

(** The parent's index, the missing identifier and the truncation flag. *)
Definition parentFor (m : ThreadMessage) (identifiers : gmap bytes nat) (maxReferences : nat) (alreadyTruncated : bool)
  : option nat * bytes * bool :=
  let references := hReferences (tmHeaders m) in
  let truncated := alreadyTruncated || (maxReferences <? length references)%nat in
  let references := if (maxReferences <? length references)%nat
                    then drop (length references - maxReferences) references else references in
  match lastKnown references identifiers with
  | Some parent => (Some parent, [], truncated)
  | None =>
      match last references with
      | Some identifier => (None, identifier, truncated)
      | None =>
          let identifier := hInReplyTo (tmHeaders m) in
          if negb (beqs identifier []) then
            match identifiers !! identifier with
            | Some parent => (Some parent, [], truncated)
            | None => (None, identifier, truncated)
            end
          else (None, [], truncated)
      end
  end.

(** A parent is an index, or [None] where the code has -1. *)
Abbreviation parents := (list (option nat)).

Definition parentOf (ps : parents) (i : nat) : option nat := default None (ps !! i).

Fixpoint wouldCycle (fuel : nat) (child : nat) (parent : option nat) (ps : parents) : bool :=
  match fuel, parent with
  | Datatypes.S fuel, Some p => if (p =? child)%nat then true else wouldCycle fuel child (parentOf ps p) ps
  | _, _ => false
  end.

(** The loop that links message [index] and those behind it. *)
Fixpoint linkParents (index : nat) (ordered : list ThreadMessage) (identifiers : gmap bytes nat) (maxReferences : nat)
    (ps : parents) (missing : list bytes) (truncated cycle : bool) : parents * list bytes * bool * bool :=
  match ordered with
  | [] => (ps, missing, truncated, cycle)
  | m :: rest =>
      let '(parent, missingParent, truncated) := parentFor m identifiers maxReferences truncated in
      let ps := <[index := parent]> ps in
      let missing := <[index := missingParent]> missing in
      let cyclic := wouldCycle (Datatypes.S (length ps)) index parent ps in
      linkParents (index + 1) rest identifiers maxReferences
        (if cyclic then <[index := None]> ps else ps) missing truncated (cycle || cyclic)
  end.

(** ** Depths *)

Fixpoint resolveThreadDepth (fuel index : nat) (ps : parents) (depths : list nat) : nat :=
  match fuel with
  | O => O
  | Datatypes.S fuel =>
      match parentOf ps index with
      | None => O
      | Some parent =>
          let known := default O (depths !! parent) in
          if (0 <? known)%nat then Datatypes.S known
          else Datatypes.S (resolveThreadDepth fuel parent ps depths)
      end
  end.

Fixpoint computeDepths (indices : list nat) (maxDepth : Z) (ps : parents) (depths : list nat) (truncated : bool)
  : parents * list nat * bool :=
  match indices with
  | [] => (ps, depths, truncated)
  | index :: rest =>
      let depth := resolveThreadDepth (Datatypes.S (length ps)) index ps depths in
      if maxDepth <? Z.of_nat depth
      then computeDepths rest maxDepth (<[index := None]> ps) (<[index := O]> depths) true
      else computeDepths rest maxDepth ps (<[index := depth]> depths) truncated
  end.

(** ** BuildThread *)

Definition threadNode (ordered : list ThreadMessage) (ps : parents) (missing : list bytes) (depths : list nat)
    (index : nat) (m : ThreadMessage) : ThreadNode :=
  mkNode (tKey m) (hMessageID (tmHeaders m))
    (match parentOf ps index with
     | Some parent => match ordered !! parent with Some pm => tKey pm | None => [] end
     | None => []
     end)
    (default [] (missing !! index)) (default O (depths !! index)) m.

Definition BuildThread (messages : list ThreadMessage) (options : NormalizeLimits) : Thread :=
  let limits := normalizedLimits options in
  let limit := Z.to_nat (lMaxThreadMessages limits) in
  let ordered := earliestThreadMessages messages limit in
  let (ordered, identifiers) := assignKeys 0 ordered ∅ ∅ in
  let n := length ordered in
  let '(ps, missing, references, cycle) :=
    linkParents 0 ordered identifiers (Z.to_nat (lMaxReferenceCount limits)) (replicate n None) (replicate n []) false false in
  let '(ps, depths, depthTruncated) := computeDepths (seq 0 n) (lMaxThreadDepth limits) ps (replicate n O) false in
  mkThread (imap (threadNode ordered ps missing depths) ordered)
    (limit <? length messages)%nat references cycle depthTruncated.
