(* ===== verification/ThreadsSpec.v ===== *)
(** * What thread resolution guarantees

    The bounded heap selects exactly the earliest messages, keys are unique,
    and the parents form a forest whose depths are exact and bounded, whatever
    the headers claim. *)
From Stdlib Require Import ZArith Lia Strings.Byte Sorting.Sorted DecimalString DecimalZ DecimalPos.
From stdpp Require Import base list gmap strings sorting.
From S2P Require Import Prelude GoStrings GoText Config Session MessageID Threads.

(** ** The order of messages *)

(** The three keys are compared in turn, then the place in the input. *)
Lemma before_irrefl a : threadMessageBefore a a = false.
Proof. unfold threadMessageBefore. rewrite Z.eqb_refl, !beqs_refl. cbn. apply Nat.ltb_irrefl. Qed.

(** A lexicographic step: [x] decides by [lt] unless it is equal. *)
Lemma before_spec a b : threadMessageBefore a b = true <->
  ReceivedAt (message a) < ReceivedAt (message b)
  \/ (ReceivedAt (message a) = ReceivedAt (message b)
      /\ (bytes_ltb (tKey (message a)) (tKey (message b)) = true
          \/ (tKey (message a) = tKey (message b)
              /\ (bytes_ltb (hMessageID (tmHeaders (message a))) (hMessageID (tmHeaders (message b))) = true
                  \/ (hMessageID (tmHeaders (message a)) = hMessageID (tmHeaders (message b))
                      /\ (inputIndex a < inputIndex b)%nat))))).
Proof.
  unfold threadMessageBefore. destruct (ReceivedAt (message a) =? _) eqn:E1; cbn [negb]; bool_prop; [|rewrite Z.ltb_lt; intuition lia].
  destruct (beqs (tKey (message a)) _) eqn:E2; cbn [negb].
  2:{ assert (tKey (message a) <> tKey (message b)) by (intros H; rewrite H, beqs_refl in E2; done). intuition lia. }
  apply beqs_eq in E2. destruct (beqs (hMessageID _) _) eqn:E3; cbn [negb].
  2:{ assert (hMessageID (tmHeaders (message a)) <> hMessageID (tmHeaders (message b)))
        by (intros H; rewrite H, beqs_refl in E3; done). rewrite E2, bytes_ltb_irrefl. intuition (lia || congruence). }
  apply beqs_eq in E3. rewrite Nat.ltb_lt, E2, E3, !bytes_ltb_irrefl. intuition (lia || congruence).
Qed.

Lemma before_trans a b c : threadMessageBefore a b = true -> threadMessageBefore b c = true -> threadMessageBefore a c = true.
Proof.
  rewrite !before_spec. intros [H1|(H1 & [H2|(H2 & [H3|(H3 & H4)])])] [K1|(K1 & [K2|(K2 & [K3|(K3 & K4)])])];
    try (left; lia); right; (split; [lia|]);
    try (left; first [by eapply bytes_ltb_trans|congruence]); right; (split; [congruence|]);
    try (left; first [by eapply bytes_ltb_trans|congruence]); right; (split; [congruence|lia]).
Qed.

(** The same in everything the order looks at. *)
Definition same_place (a b : indexedThreadMessage) : Prop :=
  ReceivedAt (message a) = ReceivedAt (message b) /\ tKey (message a) = tKey (message b)
  /\ hMessageID (tmHeaders (message a)) = hMessageID (tmHeaders (message b)) /\ inputIndex a = inputIndex b.

Lemma before_trichotomy a b : threadMessageBefore a b = true \/ same_place a b \/ threadMessageBefore b a = true.
Proof.
  rewrite !before_spec.
  destruct (Z.lt_trichotomy (ReceivedAt (message a)) (ReceivedAt (message b))) as [H1|[H1|H1]]; [by left; left| |by right; right; left].
  destruct (bytes_trichotomy (tKey (message a)) (tKey (message b))) as [H2|[H2|H2]]; [left; right; by auto| |right; right; right; by auto].
  destruct (bytes_trichotomy (hMessageID (tmHeaders (message a))) (hMessageID (tmHeaders (message b)))) as [H3|[H3|H3]];
    [left; right; by auto 6| |right; right; right; by auto 6].
  destruct (Nat.lt_trichotomy (inputIndex a) (inputIndex b)) as [H4|[H4|H4]]; [left; right; by auto 8| |right; right; right; by auto 8].
  right. left. done.
Qed.

Lemma before_same a b c : same_place a b -> threadMessageBefore a c = threadMessageBefore b c /\ threadMessageBefore c a = threadMessageBefore c b.
Proof. intros (H1 & H2 & H3 & H4). unfold threadMessageBefore. by rewrite H1, H2, H3, H4. Qed.

Lemma before_asym a b : threadMessageBefore a b = true -> threadMessageBefore b a = false.
Proof.
  intros H. destruct (threadMessageBefore b a) eqn:E; [|done]. pose proof (before_trans _ _ _ H E) as K.
  by rewrite before_irrefl in K.
Qed.

(** [before_eq a b]: [a] is not later than [b]. *)
#[export] Instance before_eq_total : Total before_eq.
Proof. intros a b. unfold before_eq. destruct (threadMessageBefore b a) eqn:E; [right; by apply before_asym|by left]. Qed.

Lemma before_eq_spec a b : before_eq a b <-> threadMessageBefore a b = true \/ same_place a b.
Proof.
  unfold before_eq. split.
  - intros H. destruct (before_trichotomy a b) as [?|[?|?]]; [by left|by right|congruence].
  - intros [H|H]; [by apply before_asym|]. destruct (before_same a b b H) as [_ H2]. by rewrite H2, before_irrefl.
Qed.

#[export] Instance before_eq_trans : Transitive before_eq.
Proof.
  intros a b c. rewrite !before_eq_spec. intros [H1|H1] [H2|H2].
  - left. by eapply before_trans.
  - left. destruct (before_same b c a H2) as [_ K]. congruence.
  - left. destruct (before_same a b c H1) as [K _]. congruence.
  - right. unfold same_place in *. intuition congruence.
Qed.

(** ** The heap *)

(** Every node but the root is not later than its parent. *)
Definition parent_index (k : nat) : nat := ((k - 1) / 2)%nat.
Definition at_most (h : latestThreadMessageHeap) (k p : nat) : Prop :=
  forall a b, h !! k = Some a -> h !! p = Some b -> before_eq a b.
Definition heap_ok (h : latestThreadMessageHeap) : Prop := forall k, (0 < k)%nat -> at_most h k (parent_index k).

Lemma Less_false h i j : (Less h i j = false) <-> at_most h i j.
Proof.
  unfold Less, at_most, before_eq. destruct (h !! i) as [a|], (h !! j) as [b|]; split; try done.
  - by intros H x y [= <-] [= <-].
  - intros H. by apply H.
Qed.

Lemma Swap_Permutation h i j : Swap h i j ≡ₚ h.
Proof.
  unfold Swap. destruct (h !! i) as [a|] eqn:Hi; [|done]. destruct (h !! j) as [b|] eqn:Hj; [|done].
  by apply Permutation_insert_swap.
Qed.

Lemma Swap_length h i j : length (Swap h i j) = length h.
Proof. apply Permutation_length, Swap_Permutation. Qed.

Lemma Swap_lookup h i j a b k : h !! i = Some a -> h !! j = Some b ->
  Swap h i j !! k = if decide (k = i) then Some b else if decide (k = j) then Some a else h !! k.
Proof.
  intros Hi Hj. unfold Swap. rewrite Hi, Hj. pose proof (lookup_lt_Some _ _ _ Hi). pose proof (lookup_lt_Some _ _ _ Hj).
  rewrite !list_lookup_insert, length_insert. repeat case_decide; done || lia.
Qed.

Lemma Less_true h i j : Less h i j = true ->
  exists a b, h !! i = Some a /\ h !! j = Some b /\ before_eq b a.
Proof.
  unfold Less. destruct (h !! i) as [a|], (h !! j) as [b|]; try done. intros H. apply before_asym in H. eauto 10.
Qed.

Lemma parent_lt k : (0 < k -> parent_index k < k)%nat.
Proof. intros H. unfold parent_index. apply Nat.Div0.div_lt_upper_bound; lia. Qed.

Lemma parent_children k i : (0 < k)%nat -> (parent_index k = i <-> k = 2 * i + 1 \/ k = 2 * i + 2)%nat.
Proof. intros H. unfold parent_index. pose proof (Nat.div_mod (k - 1) 2). pose proof (Nat.mod_upper_bound (k - 1) 2). lia. Qed.

(** The heap is right but between [j] and its parent. *)
Definition up_inv (h : latestThreadMessageHeap) (j : nat) : Prop :=
  (forall k, (0 < k)%nat -> k <> j -> at_most h k (parent_index k))
  /\ (forall k, (0 < k)%nat -> parent_index k = j -> (0 < j)%nat -> at_most h k (parent_index j)).

(** The heap is right but between [i] and its children. *)
Definition down_inv (h : latestThreadMessageHeap) (i : nat) : Prop :=
  (forall k, (0 < k)%nat -> parent_index k <> i -> at_most h k (parent_index k))
  /\ (forall k, (0 < k)%nat -> parent_index k = i -> (0 < i)%nat -> at_most h k (parent_index i)).

(** At one pair of places after a swap. *)
Ltac swapped Hi Hj :=
  let x := fresh "x" in let y := fresh "y" in let Hx := fresh "Hx" in let Hy := fresh "Hy" in
  intros x y; rewrite !(Swap_lookup _ _ _ _ _ _ Hi Hj); repeat case_decide; intros Hx Hy; simplify_eq; try lia.

Lemma heap_up_ok fuel h j : (j < fuel)%nat -> up_inv h j -> heap_ok (heap_up fuel h j).
Proof.
  revert h j. induction fuel as [|fuel IH]; intros h j Hf [H1 H2]; [lia|]. cbn [heap_up]. fold (parent_index j).
  destruct (decide (j = 0%nat)) as [->|Hj].
  { cbn. intros k Hk. apply H1; lia. }
  pose proof (parent_lt j ltac:(lia)) as Hlt.
  destruct (Nat.eqb_spec (parent_index j) j); [lia|]. cbn [orb].
  destruct (Less h j (parent_index j)) eqn:E2; cbn [negb].
  2:{ intros k Hk. destruct (decide (k = j)) as [->|]; [by apply Less_false|auto]. }
  apply IH; [lia|]. apply Less_true in E2 as (a & b & Ha & Hb & Hab).
  split.
  - intros k Hk Hn. pose proof (parent_lt k Hk). swapped Hb Ha; subst; try congruence.
    + transitivity b; [|done]. refine (H1 k Hk _ x b Hx _); congruence.
    + refine (H2 k Hk _ _ x y Hx _); [congruence|lia|congruence].
    + refine (H1 k Hk _ x y Hx Hy); congruence.
  - intros k Hk He Hpos. pose proof (parent_lt _ Hpos). assert (Hup : at_most h (parent_index j) (parent_index (parent_index j))) by (apply H1; lia).
    swapped Hb Ha; subst; try congruence.
    + by apply Hup.
    + transitivity b; [|by apply Hup]. refine (H1 k Hk _ x b Hx _); congruence.
Qed.

Lemma heap_up_perm fuel h j : heap_up fuel h j ≡ₚ h.
Proof.
  revert h j. induction fuel as [|fuel IH]; intros h j; [done|]. cbn [heap_up]. destruct (_ || _); [done|].
  by rewrite IH, Swap_Permutation.
Qed.

Lemma heap_down_perm fuel h i n : (heap_down fuel h i n).1 ≡ₚ h.
Proof.
  revert h i. induction fuel as [|fuel IH]; intros h i; [done|]. cbn [heap_down]. destruct (_ <=? _)%nat; [done|].
  destruct (negb _); [done|]. by rewrite IH, Swap_Permutation.
Qed.

(** The child that [heap_down] compares: the later one. *)
Definition later_child (h : latestThreadMessageHeap) (i : nat) : nat :=
  if ((2 * i + 1 + 1 <? length h)%nat && Less h (2 * i + 1 + 1) (2 * i + 1)) then (2 * i + 1 + 1)%nat else (2 * i + 1)%nat.

Lemma later_child_spec h i : (2 * i + 1 < length h)%nat ->
  parent_index (later_child h i) = i /\ (i < later_child h i < length h)%nat
  /\ forall k, (0 < k)%nat -> parent_index k = i -> k <> later_child h i -> at_most h k (later_child h i).
Proof.
  intros Hl. unfold later_child. destruct (Nat.ltb_spec (2 * i + 1 + 1) (length h)) as [H2|H2]; cbn [andb].
  - destruct (Less h (2 * i + 1 + 1) (2 * i + 1)) eqn:E; (split; [apply parent_children; lia|]); (split; [lia|]);
      intros k Hk Hp Hn; apply parent_children in Hp as [->| ->]; try done; try lia.
    + apply Less_true in E as (a & b & Ha & Hb & Hab). intros x y Hx Hy. congruence.
    + replace (2 * i + 2)%nat with (2 * i + 1 + 1)%nat by lia. by apply Less_false.
  - split; [apply parent_children; lia|]. split; [lia|]. intros k Hk Hp Hn. apply parent_children in Hp as [->| ->]; try lia.
    intros x y Hx Hy. apply lookup_lt_Some in Hx. lia.
Qed.

Lemma down_done h i : down_inv h i -> (forall k, (0 < k)%nat -> parent_index k = i -> at_most h k i) -> heap_ok h.
Proof. intros [H1 _] H k Hk. destruct (decide (parent_index k = i)) as [<-|]; auto. Qed.

Lemma heap_down_ok fuel h i : (length h - i <= fuel)%nat -> down_inv h i -> heap_ok (heap_down fuel h i (length h)).1.
Proof.
  assert (Hempty : forall h i, (length h <= 2 * i + 1)%nat -> down_inv h i -> heap_ok h).
  { intros h0 i0 Hl H. eapply down_done; [done|]. intros k Hk Hp x y Hx Hy. apply lookup_lt_Some in Hx.
    apply parent_children in Hp; lia. }
  revert h i. induction fuel as [|fuel IH]; intros h i Hf Hinv; cbn [heap_down].
  { apply (Hempty h i); [lia|done]. }
  destruct (Nat.leb_spec (length h) (2 * i + 1)) as [Hl|Hl]; [by apply (Hempty h i)|].
  fold (later_child h i). destruct (later_child_spec h i Hl) as (Hp & [Hlt Hj] & Hother).
  revert Hp Hlt Hj Hother. generalize (later_child h i) as j. intros j Hp Hlt Hj Hother. destruct (Less h j i) eqn:E; cbn [negb fst].
  2:{ apply Less_false in E. apply (down_done h i Hinv). intros k Hk Hpk.
      destruct (decide (k = j)) as [->|Hn]; [done|]. intros x y Hx Hy. destruct (lookup_lt_is_Some_2 h j Hj) as [c Hc].
      transitivity c; [by apply (Hother k Hk Hpk Hn)|by apply E]. }
  rewrite <- (Swap_length h i j). apply IH; [rewrite Swap_length; lia|].
  apply Less_true in E as (a & b & Ha & Hb & Hab). destruct Hinv as [H1 H2]. split.
  - intros k Hk Hn. pose proof (parent_lt k Hk). swapped Hb Ha; try congruence.
    + refine (H2 j _ eq_refl _ x y Ha Hy); lia.
    + refine (Hother k Hk _ _ x y Hx Ha); congruence.
    + refine (H1 k Hk _ x y Hx Hy); congruence.
  - intros k Hk Hpk Hpos. pose proof (parent_lt k Hk). rewrite Hp. swapped Hb Ha; try congruence.
    refine (H1 k Hk _ x y Hx Ha); lia.
Qed.

Lemma heap_Push_ok h c : heap_ok h -> heap_ok (heap_Push h c) /\ heap_Push h c ≡ₚ c :: h.
Proof.
  intros H. unfold heap_Push. rewrite length_app. cbn. split.
  - apply heap_up_ok; [lia|]. split.
    + intros k Hk Hn x y Hx Hy. pose proof (parent_lt k Hk). pose proof (lookup_lt_Some _ _ _ Hx) as Hl.
      rewrite length_app in Hl. cbn in Hl. rewrite lookup_app_l in Hx, Hy by lia. by apply (H k Hk).
    + intros k Hk Hp _ x y Hx Hy. pose proof (lookup_lt_Some _ _ _ Hx) as Hl. rewrite length_app in Hl. cbn in Hl.
      pose proof (parent_lt k Hk). lia.
  - rewrite heap_up_perm. by rewrite Permutation_app_comm.
Qed.

Lemma heap_Fix_ok r h c : heap_ok (r :: h) -> heap_ok (heap_Fix (c :: h) 0) /\ heap_Fix (c :: h) 0 ≡ₚ c :: h.
Proof.
  intros H. unfold heap_Fix. pose proof (heap_down_ok (length (c :: h)) (c :: h) 0 ltac:(lia)) as K.
  pose proof (heap_down_perm (length (c :: h)) (c :: h) 0 (length (c :: h))) as P.
  destruct (heap_down _ _ _ _) as [h' last]. cbn in K, P.
  assert (Hinv : down_inv (c :: h) 0).
  { split; [|intros; lia]. intros k Hk Hp x y Hx Hy. destruct k as [|k]; [lia|]. destruct (parent_index (Datatypes.S k)) as [|p] eqn:Ep; [done|].
    pose proof (H (Datatypes.S k) Hk) as Hok. rewrite Ep in Hok. by apply Hok. }
  destruct (Nat.ltb_spec 0 last); [by split; [apply K|]|].
  assert (Hup : heap_up (length h') h' 0 = h') by (by destruct (length h')). rewrite Hup. split; [by apply K|done].
Qed.

(** The root is the latest. *)
Lemma heap_root h r k a : heap_ok h -> h !! 0%nat = Some r -> h !! k = Some a -> before_eq a r.
Proof.
  intros H Hr. revert a. induction k as [k IH] using lt_wf_ind. intros a Ha.
  destruct (decide (k = 0%nat)) as [->|Hk].
  { rewrite Hr in Ha. injection Ha as <-. apply before_irrefl. }
  pose proof (parent_lt k ltac:(lia)) as Hlt. pose proof (lookup_lt_Some _ _ _ Ha).
  destruct (lookup_lt_is_Some_2 h (parent_index k) ltac:(lia)) as [b Hb].
  transitivity b; [apply (H k ltac:(lia) a b Ha Hb)|by apply (IH _ Hlt)].
Qed.

(** ** The selection *)

(** [h] is a heap of the [limit] earliest of [seen]. *)
Definition selection (limit : nat) (seen h : list indexedThreadMessage) : Prop :=
  heap_ok h /\ length h = Nat.min limit (length seen)
  /\ exists rest, h ++ rest ≡ₚ seen /\ forall x y, x ∈ h -> y ∈ rest -> before_eq x y.

Lemma selection_step limit seen h c : (0 < limit)%nat ->
  selection limit seen h -> selection limit (seen ++ [c]) (selectMessage limit h c).
Proof.
  intros Hlim (Hok & Hlen & rest & Hp & Hle). unfold selection, selectMessage. rewrite length_app. cbn [length].
  pose proof (Permutation_length Hp) as Hn. rewrite length_app in Hn.
  destruct (Nat.ltb_spec (length h) limit) as [Hl|Hl].
  - destruct (heap_Push_ok h c Hok) as [K1 K2]. split_and!; [done|rewrite K2; cbn; lia|].
    destruct rest; [|cbn in Hn; lia]. exists []. split; [|by intros x y _ ?%elem_of_nil].
    rewrite app_nil_r, K2, Permutation_app_comm. cbn. by rewrite <- Hp, app_nil_r.
  - destruct h as [|r h]; [cbn in Hl; lia|].
    assert (Hr : forall x, x ∈ r :: h -> before_eq x r).
    { intros x [k Hk]%list_elem_of_lookup. by eapply (heap_root (r :: h) r k x). }
    destruct (threadMessageBefore c r) eqn:E.
    + destruct (heap_Fix_ok r h c Hok) as [K1 K2]. cbn [insert list_insert]. split_and!; [done|rewrite K2; cbn in *; lia|].
      exists (r :: rest). split.
      * rewrite K2, (Permutation_app_comm seen). cbn. rewrite <- Hp. cbn. constructor. by rewrite <- Permutation_middle.
      * intros x y Hx [->|Hy]%elem_of_cons; rewrite K2 in Hx; apply elem_of_cons in Hx as [->|Hx].
        -- by apply before_asym.
        -- apply Hr. by right.
        -- transitivity r; [by apply before_asym|]. apply Hle; [by left|done].
        -- apply Hle; [by right|done].
    + split_and!; [done|cbn in *; lia|]. exists (c :: rest). split.
      * rewrite (Permutation_app_comm seen), <- Permutation_middle, Hp. done.
      * intros x y Hx [->|Hy]%elem_of_cons; [|by apply Hle]. transitivity r; [by apply Hr|done].
Qed.

Lemma selection_all limit cs : (0 < limit)%nat -> selection limit cs (fold_left (selectMessage limit) cs []).
Proof.
  intros Hlim. change cs with ([] ++ cs) at 1.
  assert (K : selection limit [] []).
  { split_and!; [intros k Hk x y Hx; done|cbn; lia|]. exists []. split; [done|]. by intros x y ?%elem_of_nil. }
  revert K. generalize (@nil indexedThreadMessage) at 1 3 as seen. generalize (@nil indexedThreadMessage) as h.
  induction cs as [|c cs IH]; intros h seen H; cbn; [by rewrite app_nil_r|].
  change (c :: cs) with ([c] ++ cs). rewrite app_assoc. apply IH. by apply selection_step.
Qed.

Lemma indexed_inj ms a b : a ∈ indexed ms -> b ∈ indexed ms -> same_place a b -> a = b.
Proof.
  unfold indexed. intros [i Hi]%list_elem_of_lookup [j Hj]%list_elem_of_lookup (_ & _ & _ & H).
  rewrite list_lookup_imap in Hi, Hj. apply fmap_Some in Hi as (x & Hx & ->). apply fmap_Some in Hj as (y & Hy & ->).
  cbn in H. congruence.
Qed.

Lemma earliest_sorted ms limit : (0 < limit)%nat ->
  merge_sort before_eq (fold_left (selectMessage limit) (indexed ms) []) = take limit (merge_sort before_eq (indexed ms)).
Proof.
  intros Hlim. destruct (selection_all limit (indexed ms) Hlim) as (_ & Hlen & rest & Hp & Hle).
  set (h := fold_left _ _ _) in *.
  assert (Hh : merge_sort before_eq h ≡ₚ h) by apply merge_sort_Permutation.
  assert (Hr : merge_sort before_eq rest ≡ₚ rest) by apply merge_sort_Permutation.
  assert (Hall : merge_sort before_eq h ++ merge_sort before_eq rest = merge_sort before_eq (indexed ms)).
  { assert (P : merge_sort before_eq h ++ merge_sort before_eq rest ≡ₚ indexed ms) by (by rewrite Hh, Hr).
    apply (StronglySorted_unique_strong before_eq).
    - intros x y Hx Hy Hxy Hyx. apply (indexed_inj ms); [by rewrite <- P|by rewrite merge_sort_Permutation in Hy|].
      unfold before_eq in *. destruct (before_trichotomy x y) as [?|[?|?]]; [congruence|done|congruence].
    - apply StronglySorted_app_2; [|by apply Sorted_StronglySorted, Sorted_merge_sort; apply _..].
      intros x y Hx Hy. apply Hle; [by rewrite <- Hh|by rewrite <- Hr].
    - apply Sorted_StronglySorted, Sorted_merge_sort; apply _.
    - by rewrite P, merge_sort_Permutation. }
  rewrite <- Hall. pose proof (Permutation_length Hp) as Hn. rewrite length_app in Hn. pose proof (Permutation_length Hh) as Hl.
  destruct (Nat.le_gt_cases limit (length (indexed ms))) as [K|K].
  - rewrite take_app_length' by lia. done.
  - rewrite take_ge; [|rewrite length_app, Hr; lia]. destruct rest; [by rewrite app_nil_r|cbn in Hn; lia].
Qed.

(** ** Keys *)

Lemma decimal_inj a b : decimal a = decimal b -> a = b.
Proof.
  unfold decimal. intros H. apply (f_equal String.string_of_list_byte) in H. rewrite !String.string_of_list_byte_of_string in H.
  apply DecimalZ.to_int_inj. apply (f_equal NilZero.int_of_string) in H.
  assert (K : forall z, NilZero.int_of_string (NilZero.string_of_int (Z.to_int z)) = Some (Z.to_int z)).
  { intros z. apply NilZero.isi; destruct z as [|p|p]; cbn; try done; intros E; injection E; apply DecimalPos.Unsigned.to_uint_nonnil. }
  rewrite !K in H. congruence.
Qed.

(** The [n]th key that is tried. *)
Definition candidate (base : bytes) (n : nat) : bytes :=
  match n with O => base | Datatypes.S n => base ++ $"#" ++ decimal (Z.of_nat n + 2) end.

Lemma candidate_inj base i j : candidate base i = candidate base j -> i = j.
Proof.
  destruct i as [|i], j as [|j]; cbn [candidate]; intros H; [done| | |].
  - apply (f_equal length) in H. rewrite !length_app in H. cbn in H. lia.
  - apply (f_equal length) in H. rewrite !length_app in H. cbn in H. lia.
  - apply app_inv_head in H. apply app_inv_head in H. apply decimal_inj in H. lia.
Qed.

(** Distinct keys of a map are at most as many as its entries. *)
Lemma keys_pigeonhole (keys : gmap bytes nat) (l : list bytes) :
  NoDup l -> (forall k, k ∈ l -> is_Some (keys !! k)) -> (length l <= size keys)%nat.
Proof.
  intros Hn H. rewrite <- (size_dom keys), <- (size_list_to_set (C := gset bytes) l Hn).
  apply subseteq_size. intros k Hk. apply elem_of_dom. apply H. by apply elem_of_list_to_set in Hk.
Qed.

Lemma freshKey_new (base : bytes) (n fuel : nat) (keys : gmap bytes nat) :
  (forall i, (i < n)%nat -> is_Some (keys !! candidate base i)) -> (size keys < n + fuel)%nat ->
  keys !! freshKey fuel base (candidate base n) (Z.of_nat n + 2) keys = None.
Proof.
  assert (Hfull : forall n, (forall i, (i < n)%nat -> is_Some (keys !! candidate base i)) -> (n <= size keys)%nat).
  { intros m H. rewrite <- (length_seq m 0), <- (length_map (candidate base)). apply keys_pigeonhole.
    - apply NoDup_fmap_2_strong; [|apply NoDup_seq]. intros x y _ _. apply candidate_inj.
    - intros k (i & -> & Hi%elem_of_seq)%list_elem_of_fmap. apply H. lia. }
  revert n. induction fuel as [|fuel IH]; intros n Hused Hs.
  - specialize (Hfull n Hused). lia.
  - cbn [freshKey]. destruct (keys !! candidate base n) as [v|] eqn:E; [|done].
    replace (Z.of_nat n + 2 + 1) with (Z.of_nat (Datatypes.S n) + 2) by lia.
    apply (IH (Datatypes.S n)); [|lia]. intros i Hi. destruct (decide (i = n)) as [->|]; [by rewrite E|apply Hused; lia].
Qed.

Lemma stableThreadKey_new (m : ThreadMessage) (keys : gmap bytes nat) : keys !! stableThreadKey m keys = None.
Proof.
  unfold stableThreadKey. generalize (if beqs (if beqs (tKey m) [] then hMessageID (tmHeaders m) else tKey m) []
    then $"message" else (if beqs (tKey m) [] then hMessageID (tmHeaders m) else tKey m)) as base. intros base.
  apply (freshKey_new base 0); [lia|lia].
Qed.

(** The names given are new and pairwise different, and only the keys change. *)
Lemma assignKeys_spec (index : nat) (ordered : list ThreadMessage) (keys identifiers : gmap bytes nat) named identifiers' :
  assignKeys index ordered keys identifiers = (named, identifiers') ->
  NoDup (map tKey named) /\ (forall m, m ∈ named -> keys !! tKey m = None)
  /\ map (fun m => (tmHeaders m, ReceivedAt m)) named = map (fun m => (tmHeaders m, ReceivedAt m)) ordered.
Proof.
  revert index keys identifiers named. induction ordered as [|m ordered IH]; intros index keys identifiers named; cbn.
  { intros [= <- <-]. split_and!; [constructor|by intros m ?%elem_of_nil|done]. }
  pose proof (stableThreadKey_new m keys) as Hnew. destruct (assignKeys _ _ _ _) as [rest ids] eqn:E.
  intros [= <- <-]. apply IH in E as (H1 & H2 & H3). cbn. split_and!.
  - constructor; [|done]. intros (x & Hx & Hin)%list_elem_of_fmap. specialize (H2 x Hin). rewrite <- Hx, lookup_insert_eq in H2. done.
  - intros x [->|Hx]%elem_of_cons; [done|]. specialize (H2 x Hx). by apply lookup_insert_None in H2 as [??].
  - by rewrite H3.
Qed.

(** Distinct keys that are not empty are kept. *)
Lemma stableThreadKey_kept (m : ThreadMessage) (keys : gmap bytes nat) : tKey m <> [] -> keys !! tKey m = None -> stableThreadKey m keys = tKey m.
Proof.
  intros Hne Hk. unfold stableThreadKey. assert (beqs (tKey m) [] = false) as -> by (by destruct (tKey m)). cbv zeta.
  assert (beqs (tKey m) [] = false) as -> by (by destruct (tKey m)). cbn [freshKey]. by rewrite Hk.
Qed.

Lemma assignKeys_kept (index : nat) (ordered : list ThreadMessage) (keys identifiers : gmap bytes nat) :
  NoDup (map tKey ordered) -> (forall m, m ∈ ordered -> tKey m <> [] /\ keys !! tKey m = None) ->
  fst (assignKeys index ordered keys identifiers) = ordered.
Proof.
  revert index keys identifiers. induction ordered as [|m ordered IH]; intros index keys identifiers Hn Hk; cbn [assignKeys]; [done|]. cbv zeta.
  destruct (Hk m) as [Hm1 Hm2]; [by left|]. rewrite stableThreadKey_kept by done. apply NoDup_cons in Hn as [Hni Hn].
  match goal with |- context [assignKeys ?i ordered ?k ?d] => pose proof (IH i k d Hn) as IH'; destruct (assignKeys i ordered k d) as [rest ids] end.
  cbn [fst] in *. rewrite IH'; [by destruct m|]. intros x Hx. destruct (Hk x) as [Hx1 Hx2]; [by right|]. split; [done|].
  rewrite lookup_insert_ne; [done|]. intros E. apply Hni. rewrite E. by apply list_elem_of_fmap_2.
Qed.

(** ** The parents are a forest *)

(** [i] is [d] steps from a root. *)
Inductive depth_is (ps : parents) : nat -> nat -> Prop :=
| depth_root i : parentOf ps i = None -> depth_is ps i 0
| depth_step i p d : parentOf ps i = Some p -> depth_is ps p d -> depth_is ps i (Datatypes.S d).

Definition forest (ps : parents) : Prop := forall i, exists d, depth_is ps i d.

Lemma depth_fun ps i d1 d2 : depth_is ps i d1 -> depth_is ps i d2 -> d1 = d2.
Proof.
  intros H. revert d2. induction H as [i Hr|i p d Hp H IH]; intros d2 K; inversion K; subst; try congruence.
  f_equal. apply IH. congruence.
Qed.

Lemma depth_ext ps ps' i d : (forall j, parentOf ps' j = parentOf ps j) -> depth_is ps i d -> depth_is ps' i d.
Proof. intros He H. induction H; [apply depth_root|eapply depth_step]; rewrite ?He; eauto. Qed.

Lemma parentOf_lt ps i p : parentOf ps i = Some p -> (i < length ps)%nat.
Proof. unfold parentOf. destruct (ps !! i) eqn:E; [|done]. intros _. by eapply lookup_lt_Some. Qed.

(** The nodes on the way to the root are different, so a depth is at most the number of nodes. *)
Lemma depth_le ps i d : depth_is ps i d -> (d <= length ps)%nat.
Proof.
  intros H. assert (exists l, NoDup l /\ length l = d
    /\ forall x, x ∈ l -> (x < length ps)%nat /\ exists dx, depth_is ps x dx /\ (dx <= d)%nat) as (l & Hn & Hl & Hin).
  { induction H as [i Hr|i p d Hp H (l & Hn & Hl & Hin)].
    { exists []. split_and!; [constructor|done|by intros x ?%elem_of_nil]. }
    pose proof (depth_step ps i p d Hp H) as Hd. exists (i :: l). split_and!.
    - constructor; [|done]. intros Hi. apply Hin in Hi as (_ & dx & Hdx & Hle). pose proof (depth_fun _ _ _ _ Hd Hdx). lia.
    - cbn. lia.
    - intros x [->|Hx]%elem_of_cons; [split; [by eapply parentOf_lt|by eauto]|].
      apply Hin in Hx as (? & dx & ? & ?). eauto. }
  rewrite <- Hl, <- (length_seq (length ps) 0). apply submseteq_length, NoDup_submseteq; [done|].
  intros x Hx. apply Hin in Hx as [? _]. apply elem_of_seq. lia.
Qed.

Lemma parentOf_insert ps i o j : (i < length ps)%nat ->
  parentOf (<[i := o]> ps) j = if decide (j = i) then o else parentOf ps j.
Proof.
  intros H. unfold parentOf. rewrite list_lookup_insert. repeat case_decide; try done; lia.
Qed.

(** Without a cycle through [child], the chain from [q] still ends. *)
Lemma wouldCycle_false ps child o fuel q d : (child < length ps)%nat -> depth_is ps q d -> (d < fuel)%nat ->
  wouldCycle fuel child (Some q) (<[child := o]> ps) = false -> exists d', depth_is (<[child := o]> ps) q d'.
Proof.
  intros Hc H. revert fuel. induction H as [i Hr|i p d Hp H IH]; intros [|fuel] Hf; try lia; cbn [wouldCycle];
    (destruct (Nat.eqb_spec i child) as [|Hn]; [done|]); intros E.
  - exists 0%nat. apply depth_root. rewrite parentOf_insert by done. by case_decide.
  - assert (Hp' : parentOf (<[child := o]> ps) i = Some p) by (rewrite parentOf_insert by done; by case_decide).
    rewrite Hp' in E. destruct (IH fuel ltac:(lia) E) as [d' Hd']. exists (Datatypes.S d'). by eapply depth_step.
Qed.

Lemma link_forest ps child o : (child < length ps)%nat -> forest ps -> parentOf ps child = None ->
  wouldCycle (Datatypes.S (length (<[child := o]> ps))) child o (<[child := o]> ps) = false -> forest (<[child := o]> ps).
Proof.
  intros Hc Hf Hn. rewrite length_insert. intros E. assert (Hchild : exists d, depth_is (<[child := o]> ps) child d).
  { destruct o as [p|].
    - destruct (Hf p) as [d Hd]. pose proof (depth_le _ _ _ Hd). destruct (wouldCycle_false ps child (Some p) (Datatypes.S (length ps)) p d Hc Hd ltac:(lia) E) as [d' Hd'].
      exists (Datatypes.S d'). eapply depth_step; [|done]. rewrite parentOf_insert by done. by case_decide.
    - exists 0%nat. apply depth_root. rewrite parentOf_insert by done. by case_decide. }
  intros i. destruct (Hf i) as [d Hd]. induction Hd as [i Hr|i p d Hp Hd IH].
  - destruct (decide (i = child)) as [->|]; [done|]. exists 0%nat. apply depth_root. rewrite parentOf_insert by done. by case_decide.
  - destruct (decide (i = child)) as [->|]; [done|]. destruct IH as [d' Hd']. exists (Datatypes.S d').
    eapply depth_step; [|done]. rewrite parentOf_insert by done. by case_decide.
Qed.

(** Cutting [i] keeps a forest, and the depths below that of [i]. *)
Lemma cut_forest ps i : (i < length ps)%nat -> forest ps -> forest (<[i := None]> ps).
Proof.
  intros Hi Hf j. destruct (Hf j) as [d Hd]. induction Hd as [j Hr|j p d Hp Hd [d' IH]].
  - exists 0%nat. apply depth_root. rewrite parentOf_insert by done. by case_decide.
  - destruct (decide (j = i)) as [->|]; [exists 0%nat; apply depth_root|exists (Datatypes.S d'); eapply depth_step; [|done]];
      rewrite parentOf_insert by done; by case_decide.
Qed.

Lemma cut_depth ps i d j dj : (i < length ps)%nat -> depth_is ps i d -> depth_is ps j dj -> (dj < d)%nat ->
  depth_is (<[i := None]> ps) j dj.
Proof.
  intros Hi Hd H. induction H as [j Hr|j p dj Hp H IH]; intros Hl.
  - apply depth_root. rewrite parentOf_insert by done. by case_decide.
  - eapply depth_step; [|apply IH; lia]. rewrite parentOf_insert by done. case_decide; [|done]. subst j.
    pose proof (depth_fun _ _ _ _ Hd (depth_step _ _ _ _ Hp H)). lia.
Qed.

(** ** The loops *)

Definition in_range (n : nat) (identifiers : gmap bytes nat) : Prop := forall k v, identifiers !! k = Some v -> (v < n)%nat.

Lemma assignKeys_range (index : nat) (ordered : list ThreadMessage) (keys identifiers : gmap bytes nat) named identifiers' :
  assignKeys index ordered keys identifiers = (named, identifiers') ->
  in_range index identifiers -> in_range (index + length ordered) identifiers'.
Proof.
  revert index keys identifiers named. induction ordered as [|m ordered IH]; intros index keys identifiers named; cbn.
  { intros [= <- <-]. by rewrite Nat.add_0_r. }
  destruct (assignKeys _ _ _ _) as [rest ids] eqn:E. intros [= <- <-] H. replace (index + S (length ordered))%nat with (index + 1 + length ordered)%nat by lia.
  eapply IH; [exact E|]. intros k v Hk. destruct (_ && _) in Hk.
  - apply lookup_insert_Some in Hk as [[_ <-]|[_ Hk]]; [lia|]. apply H in Hk. lia.
  - apply H in Hk. lia.
Qed.

Lemma lastKnown_range n identifiers references p : in_range n identifiers -> lastKnown references identifiers = Some p -> (p < n)%nat.
Proof.
  intros H. induction references as [|r references IH]; cbn; [done|]. destruct (lastKnown references identifiers); [exact IH|apply H].
Qed.

Lemma parentFor_range n m identifiers maxr t p miss t' : in_range n identifiers ->
  parentFor m identifiers maxr t = (Some p, miss, t') -> (p < n)%nat.
Proof.
  intros H. unfold parentFor. destruct (lastKnown _ _) eqn:E; [intros [= -> _ _]; by eapply lastKnown_range|].
  destruct (last _); [done|]. destruct (negb _); [|done]. destruct (identifiers !! _) eqn:E2; [|done].
  intros [= -> _ _]. by eapply H.
Qed.

(** Every parent is a message, and the parents are a forest. *)
Definition linked (n : nat) (ps : parents) : Prop :=
  length ps = n /\ forest ps /\ forall i p, parentOf ps i = Some p -> (p < n)%nat.

Lemma linked_insert n ps i o : linked n ps -> (i < n)%nat -> forest (<[i := o]> ps) -> (forall p, o = Some p -> (p < n)%nat) ->
  linked n (<[i := o]> ps).
Proof.
  intros (Hl & Hf & Hr) Hi Hf' Ho. split_and!; [by rewrite length_insert|done|]. intros j p.
  rewrite parentOf_insert by lia. case_decide; [apply Ho|apply Hr].
Qed.

Lemma linkParents_linked ordered index identifiers maxr ps missing t c ps' missing' t' c' :
  linkParents index ordered identifiers maxr ps missing t c = (ps', missing', t', c') ->
  forall n, n = (index + length ordered)%nat -> in_range n identifiers -> linked n ps -> (forall j, (index <= j)%nat -> parentOf ps j = None) -> linked n ps'.
Proof.
  revert index ps missing t c. induction ordered as [|m ordered IH]; intros index ps missing t c; cbn [linkParents].
  { by intros [= <- <- <- <-] n -> Hr Hl Hn. }
  destruct (parentFor m identifiers maxr t) as [[o miss] t1] eqn:Ep. intros E n En Hr Hlink Hn. cbn [length] in En.
  pose proof Hlink as (Hl & Hf & Hrange). assert (Hi : (index < length ps)%nat) by lia.
  apply IH with (n := n) in E; [exact E|lia|done| |].
  - destruct (wouldCycle _ _ _ _) eqn:Ec.
    + rewrite list_insert_insert_eq. apply linked_insert; [done|lia|by apply cut_forest|done].
    + apply linked_insert; [done|lia|apply link_forest; auto|]. intros p ->. eapply parentFor_range; [exact Hr|exact Ep].
  - intros j Hj. destruct (wouldCycle _ _ _ _); [rewrite list_insert_insert_eq|]; rewrite parentOf_insert by done; case_decide; try lia; apply Hn; lia.
Qed.

Lemma resolve_exact ps depths fuel i d : depth_is ps i d -> (d < fuel)%nat ->
  (forall j, (0 < default O (depths !! j))%nat -> depth_is ps j (default O (depths !! j))) ->
  resolveThreadDepth fuel i ps depths = d.
Proof.
  intros H Hf Hk. revert fuel Hf. induction H as [i Hr|i p d Hp H IH]; intros [|fuel] Hf; try lia; cbn [resolveThreadDepth].
  - by rewrite Hr.
  - rewrite Hp. destruct (Nat.ltb_spec 0 (default 0%nat (depths !! p))) as [K|K].
    + f_equal. by eapply depth_fun; [apply Hk|].
    + f_equal. apply IH. lia.
Qed.

(** The depths of the first [k] nodes are exact and bounded, the others are unset. *)
Definition depths_ok (k : nat) (maxDepth : Z) (ps : parents) (depths : list nat) : Prop :=
  (forall j, (j < k)%nat -> depth_is ps j (default O (depths !! j)) /\ Z.of_nat (default O (depths !! j)) <= maxDepth)
  /\ forall j, (k <= j)%nat -> default O (depths !! j) = O.

Lemma default_insert (l : list nat) i x j : (i < length l)%nat ->
  default O (<[i := x]> l !! j) = if decide (j = i) then x else default O (l !! j).
Proof. intros H. rewrite list_lookup_insert. repeat case_decide; try done; lia. Qed.

Lemma computeDepths_ok m k n maxDepth ps depths t ps' depths' t' : (k + m = n)%nat -> 0 <= maxDepth ->
  computeDepths (seq k m) maxDepth ps depths t = (ps', depths', t') ->
  linked n ps -> length depths = n -> depths_ok k maxDepth ps depths -> linked n ps' /\ depths_ok n maxDepth ps' depths'.
Proof.
  intros Hn Hmax. revert k ps depths t Hn. induction m as [|m IH]; intros k ps depths t Hn; cbn [seq computeDepths].
  { intros [= <- <- <-] Hl Hd Hok. assert (n = k) as -> by lia. done. }
  intros E Hl Hd [Hok Hun]. pose proof Hl as (Hlen & Hf & Hr). destruct (Hf k) as [d Hk].
  assert (Hres : resolveThreadDepth (Datatypes.S (length ps)) k ps depths = d).
  { apply resolve_exact; [done|pose proof (depth_le _ _ _ Hk); lia|]. intros j Hj.
    destruct (Nat.lt_ge_cases j k) as [K|K]; [by apply Hok|]. rewrite (Hun j K) in Hj. lia. }
  rewrite Hres in E. destruct (Z.ltb_spec maxDepth (Z.of_nat d)) as [Hdeep|Hdeep].
  - apply IH in E; [exact E|lia|apply linked_insert; [done|lia|apply cut_forest; [lia|done]|done]|by rewrite length_insert|].
    split; intros j Hj; rewrite default_insert by lia; case_decide; try lia; [| |apply Hun; lia].
    + subst j. split; [|lia]. apply depth_root. rewrite parentOf_insert by lia. by case_decide.
    + destruct (Hok j ltac:(lia)) as [H1 H2]. split; [|done]. eapply cut_depth; [lia|exact Hk|done|lia].
  - apply IH in E; [exact E|lia|done|by rewrite length_insert|].
    split; intros j Hj; rewrite default_insert by lia; case_decide; try lia; [by subst j| |apply Hun; lia].
    apply Hok. lia.
Qed.

(** ** BuildThread *)

Lemma thread_limits options : let limits := normalizedLimits options in
  0 < lMaxThreadMessages limits <= 100 /\ 0 < lMaxThreadDepth limits <= 100.
Proof. cbn. unfold boundedLimit. repeat split_goal; bool_prop; lia. Qed.

Lemma freshKey_nonempty (fuel : nat) (base key : bytes) (suffix : Z) (keys : gmap bytes nat) : key <> [] -> freshKey fuel base key suffix keys <> [].
Proof.
  revert key suffix. induction fuel as [|fuel IH]; intros key suffix H; cbn; [done|]. destruct (keys !! key); [|done].
  apply IH. by destruct base.
Qed.

Lemma stableThreadKey_nonempty (m : ThreadMessage) (keys : gmap bytes nat) : stableThreadKey m keys <> [].
Proof.
  unfold stableThreadKey. apply freshKey_nonempty. destruct (beqs (tKey m) []) eqn:E1.
  - destruct (beqs (hMessageID (tmHeaders m)) []) eqn:E2; [done|]. intros K. by rewrite K in E2.
  - rewrite E1. intros K. by rewrite K in E1.
Qed.

Lemma assignKeys_nonempty (index : nat) (ordered : list ThreadMessage) (keys identifiers : gmap bytes nat) named ids (m : ThreadMessage) :
  assignKeys index ordered keys identifiers = (named, ids) -> m ∈ named -> tKey m <> [].
Proof.
  revert index keys identifiers named. induction ordered as [|x ordered IH]; intros index keys identifiers named; cbn.
  { intros [= <- <-] ?%elem_of_nil. done. }
  destruct (assignKeys _ _ _ _) as [rest ids'] eqn:E. intros [= <- <-] [->|Hm]%elem_of_cons; [apply stableThreadKey_nonempty|by eapply IH].
Qed.

(** The stages of [BuildThread], with what each guarantees. *)
Lemma BuildThread_stages messages options :
  let limits := normalizedLimits options in
  exists ordered ps missing depths,
    Nodes (BuildThread messages options) = imap (threadNode ordered ps missing depths) ordered
    /\ map (fun m => (tmHeaders m, ReceivedAt m)) ordered
       = map (fun m => (tmHeaders m, ReceivedAt m)) (earliestThreadMessages messages (Z.to_nat (lMaxThreadMessages limits)))
    /\ NoDup (map tKey ordered) /\ (forall m, m ∈ ordered -> tKey m <> [])
    /\ linked (length ordered) ps /\ depths_ok (length ordered) (lMaxThreadDepth limits) ps depths.
Proof.
  cbv zeta. pose proof (thread_limits options) as [Hm Hd]. unfold BuildThread.
  set (limits := normalizedLimits options) in *. destruct (assignKeys 0 _ ∅ ∅) as [ordered ids] eqn:Ea.
  destruct (linkParents _ _ _ _ _ _ _ _) as [[[ps missing] references] cycle] eqn:El.
  destruct (computeDepths _ _ _ _ _) as [[ps' depths] dt] eqn:Ed. cbn [Nodes].
  exists ordered, ps', missing, depths. pose proof (assignKeys_spec _ _ _ _ _ _ Ea) as (K1 & _ & K3).
  assert (Hlen : length ordered = length (earliestThreadMessages messages (Z.to_nat (lMaxThreadMessages limits))))
    by (apply (f_equal length) in K3; by rewrite !length_map in K3).
  assert (Hrange : in_range (length ordered) ids).
  { rewrite Hlen. eapply (assignKeys_range 0); [exact Ea|]. intros k v. by rewrite lookup_empty. }
  assert (Hnone : forall j, parentOf (replicate (length ordered) None) j = None).
  { intros j. unfold parentOf. destruct (replicate _ _ !! j) eqn:E; [|done]. apply lookup_replicate in E as [-> _]. done. }
  assert (Hl0 : linked (length ordered) (replicate (length ordered) None)).
  { split_and!; [apply length_replicate| |].
    - intros i. exists 0%nat. by apply depth_root.
    - intros i p. by rewrite Hnone. }
  pose proof (linkParents_linked _ _ _ _ _ _ _ _ _ _ _ _ El _ eq_refl Hrange Hl0 (fun j _ => Hnone j)) as Hl. cbn in Hl.
  split_and!; [done|done|done|by intros m; apply (assignKeys_nonempty _ _ _ _ _ _ _ Ea)| |];
    eapply (computeDepths_ok (length ordered) 0) in Ed as [R1 R2]; try done; try lia; try apply length_replicate;
    split; intros j Hj; try lia; destruct (replicate _ _ !! j) eqn:E; try done; by apply lookup_replicate in E as [-> _].
Qed.

Lemma map_imap {A B C} (f : nat -> A -> B) (g : B -> C) (h : A -> C) l :
  (forall i x, g (f i x) = h x) -> map g (imap f l) = map h l.
Proof.
  intros H. revert f H. induction l as [|x l IH]; intros f H; [done|]. rewrite imap_cons. cbn. rewrite H. f_equal.
  apply IH. intros i y. apply H.
Qed.

(** The selected messages are among the given ones. *)
Lemma earliest_among messages limit m : (0 < limit)%nat -> m ∈ earliestThreadMessages messages limit -> m ∈ messages.
Proof.
  intros Hl. unfold earliestThreadMessages. rewrite earliest_sorted by done. intros (x & -> & Hx)%list_elem_of_fmap.
  assert (Hi : x ∈ merge_sort before_eq (indexed messages)) by (rewrite <- (take_drop limit); apply elem_of_app; by left).
  rewrite merge_sort_Permutation in Hi.
  unfold indexed in Hi. apply list_elem_of_lookup in Hi as [k Hk]. rewrite list_lookup_imap in Hk. apply fmap_Some in Hk as (y & Hy & ->).
  by eapply list_elem_of_lookup_2.
Qed.

Lemma indexed_keys messages : map (fun x => tKey (message x)) (indexed messages) = map tKey messages.
Proof. unfold indexed. by rewrite (map_imap _ _ tKey). Qed.

Lemma earliest_keys messages limit : (0 < limit)%nat -> NoDup (map tKey messages) -> NoDup (map tKey (earliestThreadMessages messages limit)).
Proof.
  intros Hl Hn. unfold earliestThreadMessages. rewrite earliest_sorted by done. rewrite map_map.
  rewrite <- indexed_keys in Hn. rewrite <- (merge_sort_Permutation before_eq (indexed messages)) in Hn.
  rewrite <- (take_drop limit (merge_sort before_eq (indexed messages))), map_app in Hn. by apply NoDup_app in Hn as (? & _).
Qed.

(** Nodes of messages with distinct keys keep them. *)
Lemma BuildThread_keyed messages options : NoDup (map tKey messages) -> (forall m, m ∈ messages -> tKey m <> []) ->
  forall node, node ∈ Nodes (BuildThread messages options) -> nMessage node ∈ messages /\ nKey node = tKey (nMessage node).
Proof.
  intros Hn Hne node. pose proof (thread_limits options) as [Hm _]. unfold BuildThread. cbv zeta in *.
  set (limit := Z.to_nat (lMaxThreadMessages (normalizedLimits options))). assert (Hl : (0 < limit)%nat) by lia.
  pose proof (assignKeys_kept 0 (earliestThreadMessages messages limit) ∅ ∅ (earliest_keys _ _ Hl Hn)) as Ha.
  destruct (assignKeys 0 _ ∅ ∅) as [ordered ids]. cbn [fst] in Ha. destruct (linkParents _ _ _ _ _ _ _ _) as [[[ps missing] references] cycle].
  destruct (computeDepths _ _ _ _ _) as [[ps' depths] dt]. cbn [Nodes]. intros (i & Hi)%list_elem_of_lookup.
  rewrite list_lookup_imap in Hi. apply fmap_Some in Hi as (m & Hmi & ->). cbn [nMessage nKey threadNode]. split; [|done].
  apply list_elem_of_lookup_2 in Hmi. rewrite Ha in Hmi; [by eapply earliest_among|].
  intros x Hx. split; [|by rewrite lookup_empty]. apply Hne. by eapply earliest_among.
Qed.

(** Thread resolution keeps exactly the earliest messages: the nodes
    carry, in order, the headers and times of the first [MaxThreadMessages] of
    the messages sorted by time, key, identifier and place in the input, and
    the truncation flag says whether any was left out.  The bounded heap never
    drops an earlier message for a later one. *)
Theorem thread_selection messages options :
  let limit := Z.to_nat (lMaxThreadMessages (normalizedLimits options)) in
  map (fun n => (tmHeaders (nMessage n), ReceivedAt (nMessage n))) (Nodes (BuildThread messages options))
  = map (fun m => (tmHeaders (message m), ReceivedAt (message m))) (take limit (merge_sort before_eq (indexed messages)))
  /\ thThreadMessages (BuildThread messages options) = (length (Nodes (BuildThread messages options)) <? length messages)%nat.
Proof.
  cbv zeta. pose proof (thread_limits options) as [Hm _]. set (limit := Z.to_nat _).
  assert (Hlim : (0 < limit)%nat) by lia.
  assert (K : map (fun n => (tmHeaders (nMessage n), ReceivedAt (nMessage n))) (Nodes (BuildThread messages options))
    = map (fun m => (tmHeaders (message m), ReceivedAt (message m))) (take limit (merge_sort before_eq (indexed messages)))).
  { destruct (BuildThread_stages messages options) as (ordered & ps & missing & depths & -> & H & _). rewrite <- earliest_sorted by done.
    unfold earliestThreadMessages in H. fold limit in H. rewrite map_map in H. rewrite <- H. by apply map_imap. }
  split; [exact K|].
  apply (f_equal length) in K. rewrite !length_map, length_take, merge_sort_Permutation in K. unfold indexed in K. rewrite length_imap in K.
  rewrite K. unfold BuildThread. fold limit. destruct (assignKeys _ _ _ _) as [o ids]. destruct (linkParents _ _ _ _ _ _ _ _) as [[[? ?] ?] ?].
  destruct (computeDepths _ _ _ _ _) as [[? ?] ?]. cbn [thThreadMessages].
  destruct (Nat.ltb_spec limit (length messages)), (Nat.ltb_spec (limit `min` length messages) (length messages)); done || lia.
Qed.

(** The nodes form a forest.  Their keys are distinct and not empty; every
    node is a root of depth 0 without a parent key, or has a node of the
    thread as its parent, one less deep; and no depth exceeds
    [MaxThreadDepth].  So the headers of the messages, however they refer to
    each other, cannot make a cycle. *)
Theorem thread_forest messages options :
  let nodes := Nodes (BuildThread messages options) in
  NoDup (map nKey nodes)
  /\ forall node, node ∈ nodes ->
     nKey node <> [] /\ Z.of_nat (nDepth node) <= lMaxThreadDepth (normalizedLimits options)
     /\ ((nParentKey node = [] /\ nDepth node = O)
         \/ exists parent, parent ∈ nodes /\ nKey parent = nParentKey node /\ nDepth node = Datatypes.S (nDepth parent)).
Proof.
  cbv zeta. destruct (BuildThread_stages messages options) as (ordered & ps & missing & depths & -> & _ & Hn & Hne & (_ & _ & Hr) & [Hd _]).
  split.
  - by rewrite (map_imap _ _ tKey).
  - intros node (i & Hi)%list_elem_of_lookup. rewrite list_lookup_imap in Hi. apply fmap_Some in Hi as (m & Hm & ->).
    pose proof (lookup_lt_Some _ _ _ Hm) as Hlt. destruct (Hd i Hlt) as [Hdep Hle]. cbn [nKey nDepth nParentKey threadNode].
    split; [apply Hne; by eapply list_elem_of_lookup_2|]. split; [done|]. inversion Hdep as [i' Hroot|i' p d Hp Hpd]; subst i'.
    + left. by rewrite Hroot.
    + right. rewrite Hp. pose proof (Hr i p Hp) as Hpl. destruct (lookup_lt_is_Some_2 ordered p Hpl) as [pm Hpm]. rewrite Hpm.
      exists (threadNode ordered ps missing depths p pm). split; [|split; [done|]].
      * apply list_elem_of_lookup. exists p. by rewrite list_lookup_imap, Hpm.
      * cbn [nDepth threadNode]. f_equal. destruct (Hd p Hpl) as [Hdp _]. by eapply depth_fun.
Qed.

(** Two messages that name each other, and a third whose last reference is
    unknown: the link that would close the cycle is dropped. *)
Example thread_cycle_broken :
  let m id refs t := mkThreadMessage [] (mkCanonicalHeaders [] [] [] [] id [] refs) t in
  let t := BuildThread [m $"b" [$"a"] 2; m $"a" [$"b"] 1; m $"c" [$"b"; $"x"] 3] (mkLimits 0 0 0 0 0 0 0 0 0 0 0 0 0) in
  map (fun n => (nKey n, nParentKey n, nDepth n)) (Nodes t) = [($"a", $"b", 1%nat); ($"b", [], O); ($"c", $"b", 1%nat)].
Proof. vm_compute. reflexivity. Qed.
