(* ===== verification/Headers.v ===== *)
(** * Header normalization

    The bounded header rules of [bridge/mime.go], [bridge/imapclient.go] and
    [bridge/thread_fields.go]: counting and cutting header blocks, canonical
    values, encoded words, message identifiers, the sender and the date, and
    the record of one selected message.  The parsers of [net/mail] and the
    decoder of [mime.WordDecoder] (with its charsets) are parameters. *)
From Stdlib Require Import ZArith Lia Strings.Byte.
From stdpp Require Import base list gmap strings.
From S2P Require Import Prelude GoStrings Errors Config Session GoText.

(** ** Lines of a header block *)

(** The first line of [s] with its line feed, and the rest. *)
Definition next_line (s : bytes) : bytes * bytes :=
  match index_byte x0a s with Some i => (take (S i) s, drop (S i) s) | None => (s, []) end.

(** A raw line without its line feed and without the carriage return before it. *)
Definition line_text (raw : bytes) : bytes := trim_suffix (trim_suffix raw [x0a]) [x0d].

Definition continuation_line (line : bytes) : bool :=
  match line with c :: _ => (c =b " "%byte) || (c =b x09) | [] => false end.

(** The loop of [boundedHeaderCount]; [before] is [header[:lineStart]]. *)
Fixpoint headerCountLoop (fuel : nat) (before rest : bytes) (fieldCount limit : Z) : bytes * bool :=
  match fuel, rest with
  | O, _ | _, [] => (before ++ rest, false)
  | S fuel, _ =>
      let (raw, next) := next_line rest in
      let line := line_text raw in
      if bool_decide (line = []) then (before ++ rest, false)
      else if continuation_line line then headerCountLoop fuel (before ++ raw) next fieldCount limit
      else if limit <? fieldCount + 1 then
        (before ++ (if has_suffix before [x0d; x0a] then [x0d; x0a] else [x0a]), true)
      else headerCountLoop fuel (before ++ raw) next (fieldCount + 1) limit
  end.

Definition boundedHeaderCount (header : bytes) (limit : Z) : bytes * bool :=
  headerCountLoop (length header) [] header 0 limit.

(** [headerTerminatorEnd], with [None] for -1: a last line without a line feed
    is never the terminator. *)
Fixpoint terminatorLoop (fuel : nat) (lineStart : nat) (rest : bytes) : option nat :=
  match fuel, rest with
  | O, _ | _, [] => None
  | S fuel, _ =>
      match index_byte x0a rest with
      | None => None
      | Some lineLength =>
          if bool_decide (trim_suffix (take lineLength rest) [x0d] = []) then Some (lineStart + lineLength + 1)%nat
          else terminatorLoop fuel (lineStart + lineLength + 1) (drop (S lineLength) rest)
      end
  end.

Definition headerTerminatorEnd (header : bytes) : option nat := terminatorLoop (length header) 0 header.

(** ** Threading fields *)

Definition threadFieldNames : list bytes := [$"Subject"; $"Message-ID"; $"In-Reply-To"; $"References"].

Fixpoint asciiEqualFold (l r : bytes) : bool :=
  match l, r with
  | [], [] => true
  | a :: l, b :: r => (ascii_lower a =b ascii_lower b) && asciiEqualFold l r
  | _, _ => false
  end.

Fixpoint slotOf (name : bytes) (names : list bytes) : option nat :=
  match names with
  | [] => None
  | candidate :: rest => if asciiEqualFold name candidate then Some O else option_map S (slotOf name rest)
  end.

Definition threadFieldSlot (line : bytes) : option nat :=
  let '(name, _, found) := cut_byte ":"%byte line in
  if found : bool then slotOf name threadFieldNames else None.

(** A slot that is still empty is nil in the code. *)
Fixpoint threadFieldLoop (fuel : nat) (rest : bytes) (slots : list bytes) (current : option nat) : list bytes * bytes :=
  match fuel, rest with
  | O, _ | _, [] => (slots, [x0d; x0a])
  | S fuel, _ =>
      let (raw, next) := next_line rest in
      let line := line_text raw in
      if bool_decide (line = []) then (slots, raw)
      else
        let current :=
          if continuation_line line then current
          else match threadFieldSlot line with
               | Some slot => if bool_decide (slots !! slot = Some []) then Some slot else None
               | None => None
               end in
        let slots := match current with Some slot => alter (fun value => value ++ raw) slot slots | None => slots end in
        threadFieldLoop fuel next slots current
  end.

Definition threadFieldBlock (header : bytes) : bytes :=
  let (slots, terminator) := threadFieldLoop (length header) header (map (fun _ => []) threadFieldNames) None in
  concat slots ++ terminator.

(** ** Header values *)

(** [textproto.CanonicalMIMEHeaderKey] on a token. *)
Fixpoint canonicalKey (upper : bool) (s : bytes) : bytes :=
  match s with
  | [] => []
  | c :: s' => (if upper then ascii_upper c else ascii_lower c) :: canonicalKey (c =b "-"%byte) s'
  end.

(** [mail.Header]: the values of a canonical key, in order. *)
Abbreviation mailHeader := (gmap bytes (list bytes)).

Definition headerValues (header : mailHeader) (name : bytes) : list bytes := default [] (header !! name).

Definition headerGet (header : mailHeader) (name : bytes) : bytes :=
  match headerValues header (canonicalKey true name) with v :: _ => v | [] => [] end.

Definition errorCodeInputTooLarge : bytes := $"input_too_large".
Definition errorCodeMalformedHeader : bytes := $"malformed_header".
Definition errorCodeMalformedMIME : bytes := $"malformed_mime".
Definition errorCodeUnsupportedCharset : bytes := $"unsupported_charset".
Definition errorCodeMalformedEncoding : bytes := $"malformed_encoding".
Definition normalizeError (c : bytes) : goerror := [NNormalize c].

Fixpoint encodedWordsLoop (fuel : nat) (value : bytes) : bool :=
  match fuel with
  | O => true
  | S fuel =>
      match index_sub $"=?" value with
      | None => true
      | Some start =>
          let value := drop (start + 2) value in
          match index_sub $"?=" value with
          | None => true
          | Some e =>
              let rest := drop (e + 2) value in
              match split_byte "?"%byte (take e value) with
              | [charset; encoding; payload] =>
                  if bool_decide (charset = []) || negb (equal_fold encoding $"b") && negb (equal_fold encoding $"q")
                  then encodedWordsLoop fuel rest
                  else if bool_decide (payload = []) then false
                  else if equal_fold encoding $"b" && negb (base64_std_accepts payload) then false
                  else encodedWordsLoop fuel rest
              | _ => encodedWordsLoop fuel rest
              end
          end
      end
  end.

Definition validEncodedWords (value : bytes) : bool := encodedWordsLoop (S (length value)) value.

Fixpoint messageIDsLoop (fuel : nat) (value : bytes) : list bytes :=
  match fuel with
  | O => []
  | S fuel =>
      match index_byte "<"%byte value with
      | None => []
      | Some start =>
          let value := drop start value in
          match index_byte ">"%byte value with
          | None => []
          | Some e =>
              let identifier := take (e + 1) value in
              let rest := messageIDsLoop fuel (drop (e + 1) value) in
              if (2 <? zlen identifier) && negb (contains_any identifier [" "%byte; x09; x0d; x0a])
              then identifier :: rest else rest
          end
      end
  end.

Definition messageIDs (value : bytes) : list bytes := messageIDsLoop (S (length value)) value.
Definition firstMessageID (value : bytes) : bytes := match messageIDs value with id :: _ => id | [] => [] end.

(** ** Senders *)

Definition maxSenderBytes : Z := 512.

Fixpoint validQEscapes (text : bytes) : bool :=
  match text with
  | [] => true
  | c :: rest =>
      if negb (c =b "="%byte) then validQEscapes rest
      else match rest with
           | a :: b :: rest => hex_digit_ok a && hex_digit_ok b && validQEscapes rest
           | _ => false
           end
  end.

Fixpoint senderWordsLoop (fuel : nat) (value : bytes) : bool :=
  match fuel with
  | O => true
  | S fuel =>
      match index_sub $"=?" value with
      | None => true
      | Some start =>
          let value := drop (start + 2) value in
          match index_byte "?"%byte value with
          | None | Some O => false
          | Some charsetEnd =>
              match value !! (charsetEnd + 1)%nat, value !! (charsetEnd + 2)%nat with
              | Some encoding, Some question =>
                  if negb (question =b "?"%byte) then false
                  else
                    let value := drop (charsetEnd + 3) value in
                    match index_sub $"?=" value with
                    | None | Some O => false
                    | Some e =>
                        let payload := take e value in
                        let value := drop (e + 2) value in
                        if contains_byte "?"%byte payload || contains_func is_space payload then false
                        else if equal_fold [encoding] $"b" then base64_std_accepts payload && senderWordsLoop fuel value
                        else if equal_fold [encoding] $"q" then validQEscapes payload && senderWordsLoop fuel value
                        else false
                    end
              | _, _ => false
              end
          end
      end
  end.

Definition validSenderEncodedWords (value : bytes) : bool := senderWordsLoop (S (length value)) value.

(** ** Dates *)

Fixpoint cfwsLoop (depth : nat) (s : bytes) : bool :=
  match s with
  | [] => (depth =? 0)%nat
  | c :: rest =>
      if (0 <? depth)%nat && (c =b x5c) then match rest with [] => (depth =? 0)%nat | _ :: rest => cfwsLoop depth rest end
      else if c =b "("%byte then cfwsLoop (S depth) rest
      else if c =b ")"%byte then match depth with O => false | S depth => cfwsLoop depth rest end
      else if (0 <? depth)%nat || (c =b " "%byte) || (c =b x09) || (c =b x0d) || (c =b x0a) then cfwsLoop depth rest
      else false
  end.

Definition onlyCFWS (s : bytes) : bool := cfwsLoop 0 s.

Definition rfc5322NamedZones : list (bytes * Z) :=
  [($"UT", 0); ($"UTC", 0); ($"GMT", 0); ($"EST", -5 * 3600); ($"EDT", -4 * 3600); ($"CST", -6 * 3600);
   ($"CDT", -5 * 3600); ($"MST", -7 * 3600); ($"MDT", -6 * 3600); ($"PST", -8 * 3600); ($"PDT", -7 * 3600)].

Fixpoint zoneOffset (name : bytes) (zones : list (bytes * Z)) : option Z :=
  match zones with
  | [] => None
  | (zone, offset) :: rest => if beqs name zone then Some offset else zoneOffset name rest
  end.

(** [%02d] of a number below 100, [%04d] of one below 10000. *)
Definition digit (n : Z) : byte := byte_of_Z (48 + n mod 10).
Definition pad2 (n : Z) : bytes := [digit (n / 10); digit n].
Definition pad4 (n : Z) : bytes := [digit (n / 1000); digit (n / 100); digit (n / 10); digit n].

Definition foldingSpace : bytes := [" "%byte; x09; x0d; x0a].

Definition numericOffset (offset : Z) : bytes :=
  (if offset <? 0 then $"-" else $"+") ++ pad2 (Z.abs offset / 3600) ++ pad2 (Z.abs offset mod 3600 / 60).

Definition numericDateZone (value : bytes) : option bytes :=
  let uncommented := match index_byte "("%byte value with Some i => take i value | None => value end in
  let named :=
    let zoneEnd := length (trim_right foldingSpace uncommented) in
    let zoneStart := after_last_any foldingSpace (take zoneEnd uncommented) in
    match zoneStart with
    | O => None
    | _ =>
        match zoneOffset (to_upper (drop zoneStart (take zoneEnd uncommented))) rfc5322NamedZones with
        | Some offset =>
            if onlyCFWS (drop zoneEnd value)
            then Some (take zoneStart value ++ numericOffset offset ++ drop zoneEnd value) else None
        | None => None
        end
    end in
  match index_any $"+-" uncommented with
  | Some index =>
      if (index + 5 <=? length uncommented)%nat
      then if onlyCFWS (drop (index + 5) value) then Some value else None
      else named
  | None => named
  end.

(** Year, month and day of a number of days since 1970-01-01. *)
Definition civil (days : Z) : Z * Z * Z :=
  let z := days + 719468 in
  let era := z / 146097 in
  let doe := z mod 146097 in
  let yoe := (doe - doe / 1460 + doe / 36524 - doe / 146096) / 365 in
  let doy := doe - (365 * yoe + yoe / 4 - yoe / 100) in
  let mp := (5 * doy + 2) / 153 in
  let month := if mp <? 10 then mp + 3 else mp - 9 in
  (yoe + era * 400 + (if month <=? 2 then 1 else 0), month, doy - (153 * mp + 2) / 5 + 1).

(** [parsed.UTC().Year()] and [parsed.UTC().Format(time.RFC3339)] of an instant
    in seconds. *)
Definition utcYear (seconds : Z) : Z := let '(year, _, _) := civil (seconds / 86400) in year.

Definition formatRFC3339 (seconds : Z) : bytes :=
  let '(year, month, day) := civil (seconds / 86400) in
  let s := seconds mod 86400 in
  pad4 year ++ $"-" ++ pad2 month ++ $"-" ++ pad2 day ++ $"T" ++ pad2 (s / 3600) ++ $":" ++ pad2 (s mod 3600 / 60)
  ++ $":" ++ pad2 (s mod 60) ++ $"Z".

Section Headers.
(** [mail.ReadMessage] on a whole input: the header and the body bytes;
    [mime.WordDecoder.DecodeHeader]; [mail.ParseDate] in Unix seconds. *)
Variable ReadMessage : bytes -> option (mailHeader * bytes).
Variable DecodeHeader : bytes -> option bytes.
Variable ParseDate : bytes -> option Z.

Definition headerDate (header : mailHeader) : bytes * DateSource :=
  match headerValues header $"Date" with
  | [value] =>
      match numericDateZone value with
      | None => ([], DateSourceUnknown)
      | Some value =>
          match ParseDate value with
          | Some parsed =>
              if (utcYear parsed <? 1) || (9999 <? utcYear parsed) then ([], DateSourceUnknown)
              else (formatRFC3339 parsed, DateSourceHeader)
          | None => ([], DateSourceUnknown)
          end
      end
  | _ => ([], DateSourceUnknown)
  end.

Definition boundedSender (header : mailHeader) : bytes * bool :=
  match headerValues header $"From" with
  | [raw] =>
      if negb (valid_string raw) || negb (validSenderEncodedWords raw) then ([], false)
      else match DecodeHeader raw with
      | None => ([], false)
      | Some decoded =>
          if negb (valid_string decoded) || contains_func is_control decoded || contains_sub decoded $"=?"
             || contains_func (fun r => r =? RuneError) decoded
          then ([], false)
          else truncateUTF8 (trim_space decoded) maxSenderBytes
      end
  | _ => ([], false)
  end.

Definition applyHeaderMetadata (item : MessageMetadata) (header : mailHeader) : MessageMetadata :=
  item <| mSubject := headerGet header $"Subject" |> <| mFrom := fst (boundedSender header) |>
    <| mMetadataTruncated := snd (boundedSender header) |>
    <| mDate := fst (headerDate header) |> <| mDateSource := snd (headerDate header) |>.

(** [metadataReadState]; a flag is its text. *)
Definition metadataReadState (flags : list bytes) : ReadState :=
  if existsb (fun flag => equal_fold flag $"\Seen") flags then ReadStateRead else ReadStateUnread.

Definition canonicalHeaderValue (header : mailHeader) (name : bytes) (limit : Z) : (bytes * bool) + goerror :=
  let value := headerGet header name in
  if bool_decide (value = []) then inl ([], false)
  else
    let truncated := limit <? zlen value in
    let value := if truncated then take (Z.to_nat limit) value else value in
    if negb (validEncodedWords value) then inr (normalizeError errorCodeMalformedHeader)
    else match DecodeHeader value with
    | None => inr (normalizeError errorCodeMalformedHeader)
    | Some decoded =>
        let (decoded, wasTruncated) := truncateUTF8 decoded limit in
        inl (trim_space decoded, truncated || wasTruncated)
    end.

Definition noTruncation : Truncation := mkTruncation false false false false false false false false false false.
#[export] Instance eta_truncation : Eta Truncation := fun t =>
  mkTruncation (tHeaders t) (tHeaderCount t) (tText t) (tMIMEParts t) (tMIMEDepth t) (tAttachments t) (tReferences t)
    (tThreadCycle t) (tThreadDepth t) (tThreadMessages t).

Definition canonicalHeaders (header : mailHeader) (headerBytes : bytes) (limits : NormalizeLimits)
  : (CanonicalHeaders * Truncation) + goerror :=
  let value name := canonicalHeaderValue header name (lMaxHeaderBytes limits) in
  need! (date, dateTruncated) := value $"Date" in
  need! (from, fromTruncated) := value $"From" in
  need! (to, toTruncated) := value $"To" in
  need! (subject, subjectTruncated) := value $"Subject" in
  need! (messageID, messageIDTruncated) := value $"Message-ID" in
  need! (inReplyTo, inReplyToTruncated) := value $"In-Reply-To" in
  need! (referenceValues, referenceTruncated) := value $"References" in
  let references := messageIDs referenceValues in
  let many := lMaxReferenceCount limits <? zlen references in
  let references := if many then drop (length references - Z.to_nat (lMaxReferenceCount limits)) references else references in
  inl (mkCanonicalHeaders date from to subject (firstMessageID messageID) (firstMessageID inReplyTo) references,
       noTruncation <| tReferences := many |>
         <| tHeaders := (lMaxHeaderBytes limits <? zlen headerBytes) || dateTruncated || fromTruncated || toTruncated
              || subjectTruncated || messageIDTruncated || inReplyToTruncated || referenceTruncated |>).

(** [NormalizeLimits{MaxHeaderBytes: headerLimit}] normalized. *)
Definition headerLimits (headerLimit : Z) : NormalizeLimits :=
  normalizedLimits (mkLimits 0 headerLimit 0 0 0 0 0 0 0 0 0 0 0).

Definition selectedHeaderRecord (item : MessageMetadata) (header : bytes) (headerLimit : Z) : MessageHeaders + goerror :=
  if negb (bool_decide (headerTerminatorEnd header = Some (length header))) then inr (errorCode CodeIMAPProtocol)
  else
    let limits := headerLimits headerLimit in
    let (bounded, countTruncated) := boundedHeaderCount header (lMaxHeaderCount limits) in
    match ReadMessage bounded with
    | None => inr (errorCode CodeIMAPProtocol)
    | Some (parsed, _) =>
        let threadBlock := threadFieldBlock header in
        match ReadMessage threadBlock with
        | None => inr (errorCode CodeIMAPProtocol)
        | Some (threadParsed, _) =>
            let item := (applyHeaderMetadata item parsed) <| mSubject := headerGet threadParsed $"Subject" |> in
            need! (headers, truncation) := canonicalHeaders parsed bounded limits in
            need! (threadHeaders, threadTruncation) := canonicalHeaders threadParsed threadBlock limits in
            inl (mkHeaders item
              (mkCanonicalHeaders (hDate headers) (hFrom headers) (hTo headers) (hSubject threadHeaders)
                 (hMessageID threadHeaders) (hInReplyTo threadHeaders) (hReferences threadHeaders))
              (truncation <| tHeaders := tHeaders truncation || tHeaders threadTruncation |>
                 <| tReferences := tReferences truncation || tReferences threadTruncation |>
                 <| tHeaderCount := countTruncated |>))
        end
    end.

(** [boundedHeaderBlock]. *)
Definition boundedHeaderBlock (raw : bytes) (limits : NormalizeLimits) : bytes + goerror :=
  let window := take (Z.to_nat (lMaxHeaderBytes limits)) raw in
  let found := match index_sub [x0d; x0a; x0d; x0a] window with
               | Some i => Some (i + 4)%nat
               | None => match index_sub [x0a; x0a] window with Some i => Some (i + 2)%nat | None => None end
               end in
  match found with
  | None => if lMaxHeaderBytes limits <? zlen raw then inr (normalizeError errorCodeMalformedHeader) else inl raw
  | Some headerEnd =>
      if lMaxHeaderBytes limits <? Z.of_nat headerEnd then inr (normalizeError errorCodeMalformedHeader)
      else inl (take headerEnd raw)
  end.
End Headers.
