(* ===== verification/HeadersSpec.v ===== *)
(** * What header normalization guarantees

    Header blocks are only ever cut at line boundaries and stay complete
    blocks, the threading fields are exactly the first of each name, and the
    record of a selected message is bounded whatever the header holds. *)
From Stdlib Require Import ZArith Lia Strings.Byte.
From stdpp Require Import base list gmap strings.
From S2P Require Import Prelude GoStrings Errors Config Session GoText Headers.

(** ** Lines *)

Fixpoint raw_lines_fuel (fuel : nat) (s : bytes) : list bytes :=
  match fuel, s with
  | O, _ | _, [] => []
  | S fuel, _ => let (raw, next) := next_line s in raw :: raw_lines_fuel fuel next
  end.

(** The lines of a block, each with its line feed. *)
Definition raw_lines (s : bytes) : list bytes := raw_lines_fuel (length s) s.

Definition blank_line (raw : bytes) : bool := bool_decide (line_text raw = []).
Definition field_line (raw : bytes) : bool := negb (blank_line raw) && negb (continuation_line (line_text raw)).

(** A line with its line feed at the end and nowhere else. *)
Definition full_line (raw : bytes) : Prop := exists text, raw = text ++ [x0a] /\ x0a ∉ text.

Lemma next_line_spec s : s <> [] -> let (raw, next) := next_line s in
  s = raw ++ next /\ raw <> [] /\ (length next < length s)%nat /\ (full_line raw \/ next = [] /\ x0a ∉ raw).
Proof.
  intros Hne. unfold next_line. destruct (index_byte x0a s) as [i|] eqn:E.
  - apply index_byte_Some in E as [Hs Hn]. assert (Hi : (i < length s)%nat).
    { apply (f_equal length) in Hs. rewrite length_app, length_take in Hs. cbn [length] in Hs. lia. }
    assert (Ht : take (S i) s = take i s ++ [x0a]).
    { rewrite Hs at 1. change (S i) with (1 + i)%nat. rewrite take_app, length_take, Nat.min_l by lia.
      replace (1 + i - i)%nat with 1%nat by lia. rewrite take_take, Nat.min_r by lia. done. }
    split_and!; [by rewrite take_drop|rewrite Ht; by destruct (take i s)|rewrite length_drop; lia|].
    left. exists (take i s). split; [done|]. by rewrite list_elem_of_In.
  - apply index_byte_None in E. split_and!; [by rewrite app_nil_r|done|destruct s; [done|cbn; lia]|].
    right. split; [done|]. by rewrite list_elem_of_In.
Qed.

Lemma raw_lines_step s : s <> [] -> let (raw, next) := next_line s in raw_lines s = raw :: raw_lines next.
Proof.
  assert (K : forall n f s, (length s <= n <= f)%nat -> raw_lines_fuel f s = raw_lines_fuel n s).
  { intros n. induction n as [|n IH]; intros [|f] [|b t] Hl; try done; cbn [length] in Hl; try lia.
    cbn [raw_lines_fuel]. pose proof (next_line_spec (b :: t) ltac:(done)) as H. destruct (next_line (b :: t)) as [raw next].
    f_equal. apply IH. cbn [length] in H. lia. }
  intros Hne. pose proof (next_line_spec s Hne) as H. destruct (next_line s) as [raw next] eqn:E. destruct s as [|b t]; [done|].
  unfold raw_lines. cbn [length raw_lines_fuel]. rewrite E. f_equal. apply K. cbn [length] in H. lia.
Qed.

(** Induction over the lines of a block. *)
Lemma lines_ind (P : bytes -> Prop) : P [] ->
  (forall s raw next, s <> [] -> next_line s = (raw, next) -> s = raw ++ next -> raw <> [] -> (length next < length s)%nat ->
     (full_line raw \/ next = [] /\ x0a ∉ raw) -> raw_lines s = raw :: raw_lines next -> P next -> P s) -> forall s, P s.
Proof.
  intros H0 H s. remember (length s) as l eqn:Hl. revert s Hl. induction l as [l IH] using lt_wf_ind. intros s ->.
  destruct (decide (s = [])) as [->|Hne]; [done|]. pose proof (next_line_spec s Hne) as K. pose proof (raw_lines_step s Hne) as L.
  destruct (next_line s) as [raw next] eqn:E. destruct K as (K1 & K2 & K3 & K4). eapply (H s raw next); eauto.
Qed.

Lemma concat_raw_lines s : concat (raw_lines s) = s.
Proof. induction s as [|s raw next Hne En Hs Hr Hl Hf -> IH] using lines_ind; [done|]. cbn. by rewrite IH, <- Hs. Qed.

(** ** The count of fields *)

Fixpoint count_fields (lines : list bytes) : Z :=
  match lines with [] => 0 | raw :: rest => (if field_line raw then 1 else 0) + count_fields rest end.

(** The lines before the first blank one. *)
Fixpoint block_lines (lines : list bytes) : list bytes :=
  match lines with [] => [] | raw :: rest => if blank_line raw then [] else raw :: block_lines rest end.

Lemma count_fields_nonneg lines : 0 <= count_fields lines.
Proof. induction lines as [|raw lines IH]; cbn; [lia|]. destruct (field_line raw); lia. Qed.

Lemma count_fields_app l k : count_fields (l ++ k) = count_fields l + count_fields k.
Proof. induction l as [|raw l IH]; cbn; [lia|]. rewrite IH. lia. Qed.

(** What the loop does with what is left. *)
Lemma headerCountLoop_spec fuel before rest count limit : (length rest <= fuel)%nat -> count <= limit ->
  let r := headerCountLoop fuel before rest count limit in
  if snd r then
    exists kept field others, raw_lines rest = kept ++ field :: others /\ field_line field = true
      /\ Forall (fun raw => blank_line raw = false) kept /\ count_fields kept = limit - count
      /\ fst r = before ++ concat kept ++ (if has_suffix (before ++ concat kept) [x0d; x0a] then [x0d; x0a] else [x0a])
  else fst r = before ++ rest /\ count_fields (block_lines (raw_lines rest)) <= limit - count.
Proof.
  revert fuel before count. induction rest as [|rest raw next Hne En Hs Hr Hl Hf Hlines IH] using lines_ind;
    intros fuel before count Hfuel Hc.
  { destruct fuel; cbn; rewrite app_nil_r; split; done || lia. }
  destruct fuel as [|fuel]; [destruct rest; [done|cbn in Hfuel; lia]|]. cbn [headerCountLoop]. rewrite En. destruct rest as [|b0 rest0] eqn:Er; [done|].
  rewrite <- Er in *. rewrite Hlines. cbn [block_lines]. fold (blank_line raw). destruct (blank_line raw) eqn:Eb; cbn [fst snd].
  { split; [done|]. cbn. lia. }
  destruct (continuation_line (line_text raw)) eqn:Ec.
  - assert (Ef : field_line raw = false) by (unfold field_line; by rewrite Eb, Ec).
    specialize (IH fuel (before ++ raw) count ltac:(lia) Hc). cbv zeta in IH |- *. destruct (headerCountLoop fuel (before ++ raw) next count limit) as [b t].
    cbn [fst snd] in *. destruct t.
    + destruct IH as (kept & field & others & E1 & E2 & E3 & E4 & E5). exists (raw :: kept), field, others. rewrite E1. cbn. rewrite Ef.
      split_and!; [done|done|by constructor|lia|]. by rewrite E5, <- !app_assoc.
    + destruct IH as [E1 E2]. rewrite Hs, app_assoc. split; [done|]. cbn. rewrite Ef. lia.
  - assert (Ef : field_line raw = true) by (unfold field_line; by rewrite Eb, Ec).
    destruct (limit <? count + 1) eqn:El; bool_prop; cbn [fst snd].
    + exists [], raw, (raw_lines next). cbn. rewrite app_nil_r. split_and!; [done|done|constructor|lia|done].
    + specialize (IH fuel (before ++ raw) (count + 1) ltac:(lia) ltac:(lia)). cbv zeta in IH |- *.
      destruct (headerCountLoop fuel (before ++ raw) next (count + 1) limit) as [b t]. cbn [fst snd] in *. destruct t.
      * destruct IH as (kept & field & others & E1 & E2 & E3 & E4 & E5). exists (raw :: kept), field, others. rewrite E1. cbn. rewrite Ef.
        split_and!; [done|done|by constructor|lia|]. by rewrite E5, <- !app_assoc.
      * destruct IH as [E1 E2]. rewrite Hs, app_assoc. split; [done|]. cbn. rewrite Ef. lia.
Qed.

(** Every line but the last is a full line. *)
Lemma raw_lines_full s l x k : raw_lines s = l ++ x :: k -> Forall full_line l.
Proof.
  revert l. induction s as [|s raw next Hne En Hs Hr Hl Hf Hlines IH] using lines_ind; intros [|y l].
  - constructor.
  - cbn. done.
  - constructor.
  - rewrite Hlines. cbn. intros [= <- E]. constructor; [|by apply IH]. destruct Hf as [Hf|[-> _]]; [done|]. by destruct l.
Qed.

(** ** The terminator *)

Lemma trim_suffix_snoc c t : trim_suffix (t ++ [c]) [c] = t.
Proof.
  unfold trim_suffix. assert (K : cut_suffix (t ++ [c]) [c] = (t, true)) by (by apply cut_suffix_true). by rewrite K.
Qed.

Lemma index_byte_at c t k : c ∉ t -> index_byte c (t ++ c :: k) = Some (length t).
Proof.
  induction t as [|x t IH]; cbn; intros H; [by rewrite beq_refl|]. apply not_elem_of_cons in H as [Hx Ht].
  assert ((x =b c) = false) as -> by (apply beq_neq; congruence). by rewrite IH.
Qed.

Lemma next_line_full raw next : full_line raw -> next_line (raw ++ next) = (raw, next).
Proof.
  intros (t & -> & Hn). unfold next_line. rewrite <- app_assoc. cbn [app]. rewrite index_byte_at by done.
  change (t ++ x0a :: next) with (t ++ [x0a] ++ next). rewrite app_assoc.
  replace (S (length t)) with (length (t ++ [x0a])) by (rewrite length_app; cbn; lia). by rewrite take_app_length, drop_app_length.
Qed.

Lemma full_line_nonempty raw : full_line raw -> raw <> [].
Proof. intros (t & -> & _). by destruct t. Qed.

Lemma raw_lines_app lines s : Forall full_line lines -> raw_lines (concat lines ++ s) = lines ++ raw_lines s.
Proof.
  induction 1 as [|raw lines Hf _ IH]; [done|]. cbn [concat app]. rewrite <- app_assoc.
  pose proof (full_line_nonempty raw Hf). pose proof (raw_lines_step (raw ++ concat lines ++ s) ltac:(by destruct raw)) as K.
  rewrite next_line_full in K by done. by rewrite K, IH.
Qed.

Lemma terminator_step fuel start raw next : full_line raw ->
  terminatorLoop (S fuel) start (raw ++ next)
  = if blank_line raw then Some (start + length raw)%nat else terminatorLoop fuel (start + length raw) next.
Proof.
  intros Hf. pose proof (full_line_nonempty raw Hf). destruct Hf as (t & -> & Hn).
  assert (Hm : forall s, s <> [] -> terminatorLoop (S fuel) start s = match index_byte x0a s with
      | None => None
      | Some lineLength => if bool_decide (trim_suffix (take lineLength s) [x0d] = []) then Some (start + lineLength + 1)%nat
          else terminatorLoop fuel (start + lineLength + 1) (drop (S lineLength) s) end) by (by intros [|? ?]).
  rewrite Hm by (by destruct t). rewrite <- app_assoc. cbn [app]. rewrite index_byte_at by done. rewrite take_app_length.
  unfold blank_line, line_text. rewrite trim_suffix_snoc, length_app. cbn [length].
  replace (drop (S (length t)) (t ++ x0a :: next)) with next.
  2:{ change (t ++ x0a :: next) with (t ++ [x0a] ++ next). rewrite app_assoc.
      replace (S (length t)) with (length (t ++ [x0a])) by (rewrite length_app; cbn; lia). by rewrite drop_app_length. }
  by rewrite !Nat.add_assoc.
Qed.

(** A complete block: full lines that are not blank, then a blank one. *)
Definition complete_block (kept : list bytes) (sep : bytes) : Prop :=
  Forall (fun raw => full_line raw /\ blank_line raw = false) kept /\ full_line sep /\ blank_line sep = true.

Lemma terminator_block fuel start kept sep tail : complete_block kept sep -> (length kept < fuel)%nat ->
  terminatorLoop fuel start (concat kept ++ sep ++ tail) = Some (start + length (concat kept ++ sep))%nat.
Proof.
  intros (Hk & Hs & Hb). revert fuel start. induction Hk as [|raw kept [Hf Hn] _ IH]; intros [|fuel] start Hl; cbn in Hl; try lia.
  - cbn [concat app]. by rewrite terminator_step, Hb by done.
  - cbn [concat]. rewrite <- !app_assoc, terminator_step, Hn by done. rewrite IH by lia. f_equal. rewrite !length_app. lia.
Qed.

Lemma complete_length kept sep : complete_block kept sep -> (length kept < length (concat kept ++ sep))%nat.
Proof.
  intros (Hk & Hs & _). induction Hk as [|raw kept [Hf _] _ IH]; cbn.
  - apply full_line_nonempty in Hs. destruct sep; [done|cbn; lia].
  - apply full_line_nonempty in Hf. rewrite !length_app in *. destruct raw; [done|cbn [length]; lia].
Qed.

Lemma terminator_complete kept sep : complete_block kept sep ->
  headerTerminatorEnd (concat kept ++ sep) = Some (length (concat kept ++ sep)).
Proof.
  intros H. unfold headerTerminatorEnd. pose proof (terminator_block (length (concat kept ++ sep)) 0 kept sep [] H (complete_length _ _ H)) as K.
  by rewrite app_nil_r in K.
Qed.

Lemma terminator_inv fuel start s e : terminatorLoop fuel start s = Some e ->
  exists kept sep tail, s = concat kept ++ sep ++ tail /\ complete_block kept sep /\ e = (start + length (concat kept ++ sep))%nat.
Proof.
  revert fuel start. induction s as [|s raw next Hne En Hs Hr Hl Hf Hlines IH] using lines_ind; intros [|fuel] start; try done.
  destruct Hf as [Hf|[-> Hn]].
  - rewrite Hs, terminator_step by done. destruct (blank_line raw) eqn:Eb.
    + intros [= <-]. exists [], raw, next. split_and!; [done|split_and!; [constructor|done|done]|done].
    + intros (kept & sep & tail & -> & (K1 & K2 & K3) & ->)%IH. exists (raw :: kept), sep, tail. cbn. rewrite <- !app_assoc.
      split_and!; [done|split_and!; [by constructor|done|done]|]. rewrite !length_app. lia.
  - rewrite app_nil_r in Hs. subst raw. cbn [terminatorLoop]. destruct s; [done|].
    assert (E : index_byte x0a (b :: s) = None) by (apply index_byte_None; by rewrite <- list_elem_of_In). by rewrite E.
Qed.

Lemma terminator_whole header : headerTerminatorEnd header = Some (length header) ->
  exists kept sep, header = concat kept ++ sep /\ complete_block kept sep.
Proof.
  intros (kept & sep & tail & Hs & Hc & He)%terminator_inv. exists kept, sep. split; [|done].
  assert (tail = []) as ->; [|by rewrite app_nil_r in Hs]. apply (f_equal length) in Hs. rewrite !length_app in *.
  destruct tail; [done|cbn [length] in Hs; lia].
Qed.

Lemma separator_complete before : full_line (if has_suffix before [x0d; x0a] then [x0d; x0a] else [x0a])
  /\ blank_line (if has_suffix before [x0d; x0a] then [x0d; x0a] else [x0a]) = true.
Proof.
  destruct (has_suffix _ _); (split; [|by vm_compute]); [exists [x0d]|exists []]; (split; [done|]); rewrite ?list_elem_of_singleton; [done|apply not_elem_of_nil].
Qed.

(** The field count is enforced at a line boundary.  A block with at most
    [limit] fields before its blank line is returned as it is; from any other
    the first [limit] fields are kept with their folded lines, closed by a
    blank line in the style of the block, so it is again a complete block. *)
Theorem header_count_exact header limit (Hlim : 0 <= limit) :
  let r := boundedHeaderCount header limit in
  if snd r then
    exists kept field others sep, raw_lines header = kept ++ field :: others /\ fst r = concat kept ++ sep
      /\ (sep = [x0d; x0a] \/ sep = [x0a]) /\ field_line field = true
      /\ Forall (fun raw => blank_line raw = false) kept /\ count_fields kept = limit
      /\ headerTerminatorEnd (fst r) = Some (length (fst r))
  else fst r = header /\ count_fields (block_lines (raw_lines header)) <= limit.
Proof.
  pose proof (headerCountLoop_spec (length header) [] header 0 limit (Nat.le_refl _) Hlim) as K. cbv zeta in *. unfold boundedHeaderCount.
  destruct (headerCountLoop (length header) [] header 0 limit) as [b t]. cbn [fst snd] in *. destruct t.
  - destruct K as (kept & field & others & E1 & E2 & E3 & E4 & E5). cbn [app] in E5.
    pose proof (separator_complete (concat kept)) as [Hs1 Hs2]. revert Hs1 Hs2 E5.
    set (sep := if has_suffix (concat kept) [x0d; x0a] then [x0d; x0a] else [x0a]). intros Hs1 Hs2 E5.
    exists kept, field, others, sep. split_and!; [done|done|subst sep; destruct (has_suffix _ _); auto|done|done|lia|].
    rewrite E5. apply terminator_complete. split_and!; [|done|done]. pose proof (raw_lines_full _ _ _ _ E1) as Hfull.
    apply Forall_forall. intros raw Hin. rewrite Forall_forall in E3, Hfull. auto.
  - destruct K as [-> K]. split; [done|lia].
Qed.

Lemma header_count_exact_witness :
  let crlf := [x0d; x0a] in
  let header := $"A: 1" ++ crlf ++ $" x" ++ crlf ++ $"B: 2" ++ crlf ++ crlf in
  0 <= 1 /\ boundedHeaderCount header 1 = ($"A: 1" ++ crlf ++ $" x" ++ crlf ++ crlf, true)
  /\ exists kept field others sep, raw_lines header = kept ++ field :: others /\ fst (boundedHeaderCount header 1) = concat kept ++ sep.
Proof.
  cbv zeta. match goal with |- context [boundedHeaderCount ?h 1] => set (header := h) end.
  assert (E : boundedHeaderCount header 1 = ($"A: 1" ++ [x0d; x0a] ++ $" x" ++ [x0d; x0a] ++ [x0d; x0a], true)) by (vm_compute; reflexivity).
  split; [lia|]. split; [exact E|]. pose proof (header_count_exact header 1 ltac:(lia)) as K. cbv zeta in K.
  assert (E2 : snd (boundedHeaderCount header 1) = true) by (by rewrite E). rewrite E2 in K.
  destruct K as (kept & field & others & sep & K1 & K2 & _). by exists kept, field, others, sep.
Defined.

(** ** Threading fields *)

(** The folded lines that follow a field. *)
Fixpoint continuations (lines : list bytes) : list bytes :=
  match lines with
  | [] => []
  | raw :: rest => if continuation_line (line_text raw) then raw :: continuations rest else []
  end.

(** The lines of the first field of a slot. *)
Fixpoint first_field (slot : nat) (lines : list bytes) : list bytes :=
  match lines with
  | [] => []
  | raw :: rest =>
      if field_line raw && bool_decide (threadFieldSlot (line_text raw) = Some slot) then raw :: continuations rest
      else first_field slot rest
  end.

(** The first blank line, or the one the code adds. *)
Fixpoint terminator (lines : list bytes) : bytes :=
  match lines with [] => [x0d; x0a] | raw :: rest => if blank_line raw then raw else terminator rest end.

Lemma slotOf_lt name names slot : slotOf name names = Some slot -> (slot < length names)%nat.
Proof.
  revert slot. induction names as [|c names IH]; intros slot; cbn; [done|]. destruct (asciiEqualFold name c); [intros [= <-]; lia|].
  destruct (slotOf name names); [|done]. intros [= <-]. specialize (IH _ eq_refl). lia.
Qed.

Lemma threadFieldSlot_lt line slot : threadFieldSlot line = Some slot -> (slot < 4)%nat.
Proof. unfold threadFieldSlot. destruct (cut_byte _ _) as [[name ?] []]; [apply slotOf_lt|done]. Qed.

(** What a slot holds in the end. *)
Definition slot_result (slots : list bytes) (current : option nat) (lines : list bytes) (i : nat) : option bytes :=
  v ← slots !! i;
  Some (if bool_decide (v = []) then concat (first_field i lines)
        else v ++ if bool_decide (current = Some i) then concat (continuations lines) else []).

Lemma slot_result_nil slots current i : slot_result slots current [] i = slots !! i.
Proof.
  unfold slot_result. destruct (slots !! i) as [v|]; cbn; [|done]. f_equal. case_bool_decide; [done|].
  destruct (bool_decide _); by rewrite app_nil_r.
Qed.

Lemma slot_result_folded slots c v raw lines i : slots !! c = Some v -> v <> [] ->
  continuation_line (line_text raw) = true -> field_line raw = false ->
  slot_result (alter (fun value => value ++ raw) c slots) (Some c) lines i = slot_result slots (Some c) (raw :: lines) i.
Proof.
  intros Hv Hne Hc Hf. unfold slot_result. cbn [continuations first_field]. rewrite Hc, Hf. cbn [andb]. destruct (decide (i = c)) as [->|Hn].
  - rewrite list_lookup_alter_eq, Hv. cbn. rewrite (bool_decide_eq_false_2 (v = [])), (bool_decide_eq_false_2 (v ++ raw = [])) by (by destruct v).
    rewrite bool_decide_eq_true_2 by done. cbn. by rewrite app_assoc.
  - rewrite list_lookup_alter_ne by done. destruct (slots !! i); [|done]. cbn. by rewrite !(bool_decide_eq_false_2 (Some c = Some i)) by congruence.
Qed.

(** A field that starts another slot, or none. *)
Lemma slot_result_other slots current raw lines i :
  continuation_line (line_text raw) = false -> threadFieldSlot (line_text raw) <> Some i \/ slots !! i <> Some [] ->
  slot_result slots current (raw :: lines) i = slot_result slots None lines i.
Proof.
  intros Hc Hi. unfold slot_result. cbn [continuations first_field]. rewrite Hc. destruct (slots !! i) as [v|]; [|done]. cbn. f_equal.
  case_bool_decide as E; [|by destruct (bool_decide _)]. rewrite bool_decide_eq_false_2; [by rewrite andb_false_r|]. destruct Hi; [done|congruence].
Qed.

Lemma slot_result_opened slots current s raw lines i : slots !! s = Some [] -> raw <> [] ->
  field_line raw = true -> continuation_line (line_text raw) = false -> threadFieldSlot (line_text raw) = Some s ->
  slot_result (alter (fun value => value ++ raw) s slots) (Some s) lines i = slot_result slots current (raw :: lines) i.
Proof.
  intros Hs Hr Hf Hc Ht. destruct (decide (i = s)) as [->|Hn].
  - unfold slot_result. rewrite list_lookup_alter_eq, Hs. cbn. rewrite Hf, (bool_decide_eq_false_2 (raw = [])), !bool_decide_eq_true_2 by done. done.
  - rewrite slot_result_other by (try done; left; congruence). unfold slot_result. rewrite list_lookup_alter_ne by done.
    destruct (slots !! i); [|done]. cbn. by rewrite (bool_decide_eq_false_2 (Some s = Some i)) by congruence.
Qed.

Lemma length_alter_app (slots : list bytes) i raw : (i < length slots)%nat ->
  length (concat (alter (fun v => v ++ raw) i slots)) = (length (concat slots) + length raw)%nat.
Proof.
  revert i. induction slots as [|v slots IH]; intros [|i] Hi; cbn in Hi; try lia; cbn; rewrite !length_app; [lia|]. rewrite IH; lia.
Qed.

Definition slots_ok (slots : list bytes) (current : option nat) : Prop :=
  length slots = 4%nat /\ forall i, current = Some i -> exists v, slots !! i = Some v /\ v <> [].

Lemma slots_ok_append slots s v raw : length slots = 4%nat -> slots !! s = Some v -> raw <> [] ->
  slots_ok (alter (fun value => value ++ raw) s slots) (Some s).
Proof.
  intros Hl Hv Hr. split; [by rewrite length_alter|]. intros i [= <-]. exists (v ++ raw). rewrite list_lookup_alter_eq, Hv.
  split; [done|]. by destruct v.
Qed.

Lemma threadFieldLoop_spec fuel rest slots current : (length rest <= fuel)%nat -> slots_ok slots current ->
  let (slots', t) := threadFieldLoop fuel rest slots current in
  t = terminator (raw_lines rest) /\ length slots' = 4%nat
  /\ (forall i, slots' !! i = slot_result slots current (block_lines (raw_lines rest)) i)
  /\ (length (concat slots') <= length (concat slots) + length (concat (block_lines (raw_lines rest))))%nat.
Proof.
  revert fuel slots current. induction rest as [|rest raw next Hne En Hs Hr Hl Hf Hlines IH] using lines_ind;
    intros fuel slots current Hfuel Hok; pose proof Hok as [Hlen Hcur].
  { destruct fuel; cbn; (split_and!; [done|done|by intros i; rewrite slot_result_nil|lia]). }
  destruct fuel as [|fuel]; [destruct rest; [done|cbn in Hfuel; lia]|]. cbn [threadFieldLoop]. rewrite En. destruct rest as [|b0 rest0] eqn:Er; [done|].
  rewrite <- Er in *. rewrite Hlines. cbn [block_lines terminator]. fold (blank_line raw). destruct (blank_line raw) eqn:Eb.
  { split_and!; [done|done|by intros i; rewrite slot_result_nil|cbn; lia]. }
  assert (Ef : field_line raw = negb (continuation_line (line_text raw))) by (unfold field_line; by rewrite Eb).
  assert (Happ : forall s v, slots !! s = Some v -> length (concat (alter (fun v => v ++ raw) s slots)) = (length (concat slots) + length raw)%nat)
    by (intros s v Hv; apply length_alter_app; by eapply lookup_lt_Some).
  assert (Hgo : forall slots1 current1, slots_ok slots1 current1 ->
    (forall i, slot_result slots1 current1 (block_lines (raw_lines next)) i = slot_result slots current (raw :: block_lines (raw_lines next)) i) ->
    (length (concat slots1) <= length (concat slots) + length raw)%nat ->
    let (slots', t) := threadFieldLoop fuel next slots1 current1 in
    t = terminator (raw_lines next) /\ length slots' = 4%nat
    /\ (forall i, slots' !! i = slot_result slots current (raw :: block_lines (raw_lines next)) i)
    /\ (length (concat slots') <= length (concat slots) + length (concat (raw :: block_lines (raw_lines next))))%nat).
  { intros slots1 current1 Hok1 Hres Hlen1. specialize (IH fuel slots1 current1 ltac:(lia) Hok1).
    destruct (threadFieldLoop _ _ _ _) as [slots' t]. destruct IH as (K1 & K2 & K3 & K4).
    split_and!; [done|done|intros i; by rewrite K3|]. cbn [concat]. rewrite length_app. lia. }
  destruct (continuation_line (line_text raw)) eqn:Ec.
  - destruct current as [c|].
    + destruct (Hcur c eq_refl) as (v & Hv & Hvne). apply Hgo; [by eapply slots_ok_append|by intros i; eapply slot_result_folded|by erewrite Happ].
    + apply Hgo; [done| |lia]. intros i. unfold slot_result. cbn [first_field]. by rewrite Ef.
  - assert (Hskip : (forall i, threadFieldSlot (line_text raw) <> Some i \/ slots !! i <> Some []) ->
      forall i, slot_result slots None (block_lines (raw_lines next)) i = slot_result slots current (raw :: block_lines (raw_lines next)) i)
      by (intros Hno i; by rewrite slot_result_other).
    destruct (threadFieldSlot (line_text raw)) as [s|] eqn:Et; [case_bool_decide as Hse|].
    + apply Hgo; [by eapply slots_ok_append|by intros i; eapply slot_result_opened|by erewrite Happ].
    + apply Hgo; [by split| |lia]. apply Hskip. intros i. destruct (decide (i = s)) as [->|]; [by right|left; congruence].
    + apply Hgo; [by split| |lia]. apply Hskip. intros i. by left.
Qed.

Lemma raw_lines_block kept sep : complete_block kept sep ->
  block_lines (raw_lines (concat kept ++ sep)) = kept /\ terminator (raw_lines (concat kept ++ sep)) = sep.
Proof.
  intros (Hk & Hs & Hb). rewrite raw_lines_app by (eapply Forall_impl; [exact Hk|by intros ? []]).
  assert (E : raw_lines sep = [sep]).
  { pose proof (raw_lines_app [sep] [] ltac:(by constructor)) as K. cbn in K. by rewrite !app_nil_r in K. }
  rewrite E. induction Hk as [|raw kept [_ Hn] _ IH]; cbn; [by rewrite Hb|]. rewrite Hn. destruct IH as [-> ->]. done.
Qed.

Lemma continuations_incl lines raw : raw ∈ continuations lines -> raw ∈ lines.
Proof.
  induction lines as [|l lines IH]; cbn; [done|]. destruct (continuation_line _); [|by intros ?%elem_of_nil].
  intros [->|H]%elem_of_cons; [by left|right; auto].
Qed.

Lemma first_field_incl slot lines raw : raw ∈ first_field slot lines -> raw ∈ lines.
Proof.
  induction lines as [|l lines IH]; cbn; [done|]. destruct (_ && _).
  - intros [->|H]%elem_of_cons; [by left|right; by apply continuations_incl].
  - intros H. right. auto.
Qed.

(** The threading block is the first field of each of the four names,
    with its folded lines, in the fixed order of the slots, and the blank line
    of the input.  From a complete block it is again complete and never longer
    than its input. *)
Theorem thread_fields_exact header :
  threadFieldBlock header
    = concat (map (fun slot => concat (first_field slot (block_lines (raw_lines header)))) [0; 1; 2; 3]%nat)
      ++ terminator (raw_lines header)
  /\ (headerTerminatorEnd header = Some (length header) ->
      (length (threadFieldBlock header) <= length header)%nat
      /\ headerTerminatorEnd (threadFieldBlock header) = Some (length (threadFieldBlock header))).
Proof.
  assert (Hok : slots_ok [[]; []; []; []] None) by done.
  pose proof (threadFieldLoop_spec (length header) header [[]; []; []; []] None (Nat.le_refl _) Hok) as K. cbv zeta in K.
  assert (E : threadFieldBlock header = concat (threadFieldLoop (length header) header [[]; []; []; []] None).1
      ++ (threadFieldLoop (length header) header [[]; []; []; []] None).2) by (unfold threadFieldBlock; cbn [map threadFieldNames]; by destruct (threadFieldLoop _ _ _ _)).
  destruct (threadFieldLoop _ _ _ _) as [slots t]. cbn [fst snd] in E. destruct K as (-> & Hlen & Hres & Hle). cbn [concat app length] in Hle.
  assert (Hslots : slots = map (fun slot => concat (first_field slot (block_lines (raw_lines header)))) [0; 1; 2; 3]%nat).
  { apply list_eq. intros i. rewrite Hres. unfold slot_result. destruct i as [|[|[|[|i]]]]; reflexivity. }
  rewrite Hslots in E. split; [done|]. intros (kept & sep & Hh & Hc)%terminator_whole. rewrite E. rewrite Hslots in Hle.
  destruct (raw_lines_block kept sep Hc) as [E1 E2]. rewrite Hh in *. rewrite E1, E2 in *. split; [rewrite !length_app; lia|].
  replace (concat (map _ _)) with (concat (concat (map (fun slot => first_field slot kept) [0; 1; 2; 3]%nat)))
    by (cbn; rewrite !concat_app, !app_nil_r; done).
  apply terminator_complete. destruct Hc as (Hk & Hs & Hb). split_and!; [|done|done]. apply Forall_forall. intros raw Hin.
  rewrite Forall_forall in Hk. apply Hk. apply list_elem_of_In, in_concat in Hin as (l & (slot & <- & _)%in_map_iff & Hin).
  apply list_elem_of_In in Hin. by eapply first_field_incl.
Qed.

Lemma thread_fields_exact_witness :
  let header := $"subject: a" ++ [x0a] ++ $"To: b" ++ [x0a] ++ $"Subject: c" ++ [x0a; x0a] in
  headerTerminatorEnd header = Some (length header) /\ threadFieldBlock header = $"subject: a" ++ [x0a; x0a]
  /\ (length (threadFieldBlock header) <= length header)%nat.
Proof.
  cbv zeta. match goal with |- headerTerminatorEnd ?h = _ /\ _ => set (header := h) end.
  assert (E : headerTerminatorEnd header = Some (length header)) by (vm_compute; reflexivity).
  split; [exact E|]. split; [vm_compute; reflexivity|]. exact (proj1 (proj2 (thread_fields_exact header) E)).
Defined.

(** ** The record of a selected message *)

(** [<text>] with no whitespace and no bracket to close inside. *)
Definition identifier_shape (id : bytes) : Prop :=
  exists text, id = $"<" ++ text ++ $">" /\ text <> [] /\ ">"%byte ∉ text
    /\ (forall c, c ∈ foldingSpace -> c ∉ text).

Lemma messageIDs_shape value id : id ∈ messageIDs value -> identifier_shape id.
Proof.
  unfold messageIDs. generalize (S (length value)) as fuel. intros fuel. revert value. induction fuel as [|fuel IH]; intros value; cbn [messageIDsLoop].
  { by intros ?%elem_of_nil. }
  destruct (index_byte "<"%byte value) as [start|] eqn:Es; [|by intros ?%elem_of_nil].
  apply index_byte_Some in Es as [Hs _]. assert (Hd : drop start value = "<"%byte :: drop (S start) value).
  { rewrite Hs at 1. rewrite drop_app_length'; [done|]. apply (f_equal length) in Hs. rewrite length_app, length_take in Hs. cbn [length] in Hs.
    rewrite length_take, length_drop in *. lia. }
  rewrite Hd. cbn [index_byte]. change (Byte.eqb "<"%byte ">"%byte) with false. cbv iota.
  destruct (index_byte ">"%byte (drop (S start) value)) as [e|] eqn:Ee; cbn [option_map]; [|by intros ?%elem_of_nil].
  destruct (_ && _) eqn:Econd; [|apply IH]. intros [->|H]%elem_of_cons; [|by apply IH in H]. bool_prop.
  apply index_byte_Some in Ee as [He Hn]. replace (S e + 1)%nat with (S (S e)) in * by lia.
  assert (Ht : take (S (S e)) ("<"%byte :: drop (S start) value) = $"<" ++ take e (drop (S start) value) ++ $">").
  { cbn [take firstn app]. f_equal. rewrite He at 1. rewrite take_app, take_take, Nat.min_r by lia. f_equal.
    assert (Hl : length (take e (drop (S start) value)) = e).
    { rewrite length_take. apply (f_equal length) in He. rewrite length_app, length_take in He. cbn [length] in He. lia. }
    rewrite Hl. by replace (S e - e)%nat with 1%nat by lia. }
  rewrite Ht in *. exists (take e (drop (S start) value)). split; [done|]. split_and!.
  - intros K. rewrite K in *. bool_prop. done.
  - by rewrite list_elem_of_In.
  - intros c Hc Hin. match goal with H : contains_any _ _ = false |- _ => apply not_true_iff_false in H; apply H end.
    unfold contains_any. apply existsb_exists. exists c. split; [by apply list_elem_of_In in Hc|]. apply contains_byte_In.
    apply in_app_iff. right. apply in_app_iff. left. by apply list_elem_of_In.
Qed.

Lemma firstMessageID_shape value : firstMessageID value = [] \/ identifier_shape (firstMessageID value).
Proof.
  unfold firstMessageID. destruct (messageIDs value) as [|id rest] eqn:E; [by left|]. right. apply (messageIDs_shape value). rewrite E. by left.
Qed.

Section Record.
Variable ReadMessage : bytes -> option (mailHeader * bytes).
Variable DecodeHeader : bytes -> option bytes.
Variable ParseDate : bytes -> option Z.

#[local] Abbreviation record := (selectedHeaderRecord ReadMessage DecodeHeader ParseDate).

Lemma boundedSender_bounded header :
  zlen (fst (boundedSender DecodeHeader header)) <= maxSenderBytes /\ valid_string (fst (boundedSender DecodeHeader header)) = true.
Proof.
  assert (H0 : zlen (fst ([] : bytes, false)) <= maxSenderBytes /\ valid_string (fst ([] : bytes, false)) = true) by (vm_compute; done).
  unfold boundedSender. destruct (headerValues header $"From") as [|raw [|]]; [exact H0| |exact H0].
  destruct (_ || _); [exact H0|]. destruct (DecodeHeader raw) as [decoded|]; [|exact H0].
  destruct (valid_string decoded) eqn:Ev; cbn [negb orb]; [|exact H0]. destruct (_ || _); [exact H0|].
  apply truncate_bounded; [unfold maxSenderBytes; lia|by apply trim_space_valid].
Qed.

(** The headers and the truncation that [canonicalHeaders] gives. *)
Lemma canonicalHeaders_inv header headerBytes limits h t : 0 <= lMaxReferenceCount limits ->
  canonicalHeaders DecodeHeader header headerBytes limits = inl (h, t) ->
  zlen (hReferences h) <= lMaxReferenceCount limits
  /\ (forall id, id ∈ hReferences h -> identifier_shape id)
  /\ (hMessageID h = [] \/ identifier_shape (hMessageID h)) /\ (hInReplyTo h = [] \/ identifier_shape (hInReplyTo h)).
Proof.
  intros Hpos. unfold canonicalHeaders. repeat (destruct (canonicalHeaderValue _ _ _ _) as [[? ?]|]; [|done]).
  intros [= <- <-]. cbn [hReferences hMessageID hInReplyTo].
  match goal with |- context [messageIDs ?v] => generalize v as refs; intros refs end.
  split_and!; [| |apply firstMessageID_shape|apply firstMessageID_shape]; destruct (_ <? _) eqn:E; bool_prop; try lia.
  - unfold zlen in *. rewrite length_drop. lia.
  - intros id Hid. apply (messageIDs_shape refs). rewrite <- (take_drop (length (messageIDs refs) - Z.to_nat (lMaxReferenceCount limits))).
    apply elem_of_app. by right.
  - apply messageIDs_shape.
Qed.

(** What a selected message's record may hold.  Its header literal was one
    complete block; the references are at most the configured count, every
    identifier is a bracketed token without white space, and the sender is
    valid UTF-8 of at most [maxSenderBytes].  The thread fields are those of
    the threading block, so no number of fields before them hides them. *)
Theorem selected_header_bounded item header headerLimit r (H : record item header headerLimit = inl r) :
  headerTerminatorEnd header = Some (length header)
  /\ fetchedUID (mhMetadata r) = fetchedUID item /\ mSize (mhMetadata r) = mSize item
  /\ zlen (mFrom (mhMetadata r)) <= maxSenderBytes /\ valid_string (mFrom (mhMetadata r)) = true
  /\ zlen (hReferences (mhHeaders r)) <= lMaxReferenceCount (headerLimits headerLimit)
  /\ (forall id, id ∈ hReferences (mhHeaders r) \/ id = hMessageID (mhHeaders r) \/ id = hInReplyTo (mhHeaders r) ->
        id = [] \/ identifier_shape id)
  /\ exists threadParsed body threadHeaders t, ReadMessage (threadFieldBlock header) = Some (threadParsed, body)
       /\ canonicalHeaders DecodeHeader threadParsed (threadFieldBlock header) (headerLimits headerLimit) = inl (threadHeaders, t)
       /\ hSubject (mhHeaders r) = hSubject threadHeaders /\ hMessageID (mhHeaders r) = hMessageID threadHeaders
       /\ hInReplyTo (mhHeaders r) = hInReplyTo threadHeaders /\ hReferences (mhHeaders r) = hReferences threadHeaders.
Proof.
  unfold selectedHeaderRecord in H. case_bool_decide as Ht; [|done]. cbn [negb] in H.
  destruct (boundedHeaderCount _ _) as [bounded ct]. destruct (ReadMessage bounded) as [[parsed ?]|]; [|done].
  destruct (ReadMessage (threadFieldBlock header)) as [[tp body]|] eqn:Et; [|done].
  destruct (canonicalHeaders _ parsed _ _) as [[h t]|]; [|done].
  destruct (canonicalHeaders _ tp _ _) as [[th tt]|] eqn:Ec; [|done]. injection H as <-. cbn [mhMetadata mhHeaders hReferences hMessageID hInReplyTo hSubject].
  assert (Hpos : 0 <= lMaxReferenceCount (headerLimits headerLimit)) by (cbn; unfold boundedLimit; repeat split_goal; bool_prop; lia).
  pose proof (canonicalHeaders_inv _ _ _ _ _ Hpos Ec) as (K1 & K2 & K3 & K4).
  pose proof (boundedSender_bounded parsed) as [S1 S2]. destruct item. cbn. split_and!; try done.
  - intros id [Hid|[->| ->]]; [right; by apply K2|done|done].
  - by exists tp, body, th, tt.
Qed.
End Record.

(** A mailbox whose parsers are fixed functions. *)
Definition sampleRead (input : bytes) : option (mailHeader * bytes) :=
  Some ({[ $"Subject" := [$"Hi"]; $"Message-Id" := [$"<a@b>"]; $"From" := [$" A <a@b> "];
           $"References" := [$"<x> <y z> <w>"] ]}, []).

Definition sampleItem : MessageMetadata := mkMetadata [] [] 0 0 [] 7 [] [] DateSourceUnknown ReadStateRead false 9.
Definition sampleHeader : bytes := $"Subject: Hi" ++ [x0d; x0a; x0d; x0a].
Definition sampleRecord : MessageHeaders + goerror :=
  selectedHeaderRecord sampleRead Some (fun _ => None) sampleItem sampleHeader 1000.

Lemma selected_header_bounded_witness :
  match sampleRecord with
  | inl r => hReferences (mhHeaders r) = [$"<x>"; $"<w>"] /\ mFrom (mhMetadata r) = $"A <a@b>"
             /\ zlen (mFrom (mhMetadata r)) <= maxSenderBytes
  | inr _ => False
  end.
Proof.
  destruct sampleRecord as [r|e] eqn:E; [|by vm_compute in E].
  pose proof (selected_header_bounded sampleRead Some (fun _ => None) sampleItem sampleHeader 1000 r E) as (_ & _ & _ & K & _).
  assert (Hr : inl r = sampleRecord) by done. split_and!; [| |exact K]; vm_compute in Hr; injection Hr as ->; reflexivity.
Defined.
