(* ===== verification/Mime.v ===== *)
(** * Message normalization

    [bridge/mime.go]: one raw message becomes bounded headers, one text and
    attachment records.  What the standard library and [golang.org/x/net] parse
    is a parameter: a reader is what reading at most [n] bytes of it gives. *)
From Stdlib Require Import ZArith Lia Strings.Byte.
From stdpp Require Import base list gmap strings.
From S2P Require Import Prelude GoStrings Errors Config Session GoText Headers.

Inductive TextSource := TextSourceNone | TextSourcePlain | TextSourceHTML.

Record AttachmentMetadata := mkAttachment {
  Filename : bytes; ContentType : bytes; Disposition : bytes; DeclaredSize : Z; HasDeclaredSize : bool }.

Record NormalizedMessage := mkNormalized {
  nmHeaders : CanonicalHeaders; Text : bytes; nmTextSource : TextSource; nmAttachments : list AttachmentMetadata;
  nmTruncation : Truncation }.

(** A node of a parsed HTML document. *)
Inductive htmlNode :=
| ElementNode (data : bytes) (children : list htmlNode)
| TextNode (data : bytes) (children : list htmlNode)
| OtherNode (children : list htmlNode).

(** [mimeCollector]; an unset text is [None], the result's fields are its own. *)
Record mimeCollector := mkCollector {
  truncation : Truncation; attachments : list AttachmentMetadata; parts : Z; plain : option bytes; html : option bytes }.

#[export] Instance eta_collector : Eta mimeCollector := fun c =>
  mkCollector (truncation c) (attachments c) (parts c) (plain c) (html c).

Inductive mimeError := errMIMEPartsLimit | mimeFailed (err : goerror).

Definition blockedElements : list bytes := [$"script"; $"style"; $"head"; $"template"; $"noscript"].

(** [collect]: the text fragments outside blocked elements. *)
Fixpoint collect (blocked : bool) (node : htmlNode) : list bytes :=
  match node with
  | ElementNode data children => concat (map (collect (blocked || existsb (beqs (to_lower data)) blockedElements)) children)
  | TextNode data children => (if blocked then [] else [data]) ++ concat (map (collect blocked) children)
  | OtherNode children => concat (map (collect blocked) children)
  end.

Section Mime.
Context {R : Type}.
(** [io.ReadAll(io.LimitReader(reader, n))], with [None] for an error. *)
Variable ReadLimited : R -> Z -> option bytes.
Variable Base64 QuotedPrintable : R -> R.
Variable CharsetReader : bytes -> bytes -> option R.
(** The parts that [NextPart] gives one after the other, and whether [io.EOF]
    follows them rather than another error. *)
Variable Multipart : R -> bytes -> list (mailHeader * R) * bool.
Variable ParseMediaType : bytes -> option (bytes * gmap bytes bytes).
Variable ParseHTML : bytes -> option htmlNode.
Variable ReadMessage : bytes -> option (mailHeader * R).
Variable DecodeHeader : bytes -> option bytes.

Definition decodeTransfer (reader : R) (encoding : bytes) (limit : Z) : (bytes * bool) + goerror :=
  let encoding := to_lower (trim_space encoding) in
  let decoded :=
    if existsb (beqs encoding) [[]; $"7bit"; $"8bit"; $"binary"] then Some reader
    else if beqs encoding $"base64" then Some (Base64 reader)
    else if beqs encoding $"quoted-printable" then Some (QuotedPrintable reader)
    else None in
  match decoded with
  | None => inr (normalizeError errorCodeMalformedEncoding)
  | Some decoded =>
      match ReadLimited decoded (limit + 1) with
      | None => inr (normalizeError errorCodeMalformedEncoding)
      | Some content => inl (if limit <? zlen content then (take (Z.to_nat limit) content, true) else (content, false))
      end
  end.

Definition decodeCharset (content label : bytes) (limit : Z) : (bytes * bool) + goerror :=
  if beqs label [] || equal_fold label $"utf-8" || equal_fold label $"us-ascii" then
    let (text, truncated) := truncateUTF8 content limit in inl (trim_right [x0d; x0a] text, truncated)
  else match CharsetReader label content with
  | None => inr (normalizeError errorCodeUnsupportedCharset)
  | Some decoded =>
      match ReadLimited decoded (limit + 1) with
      | None => inr (normalizeError errorCodeUnsupportedCharset)
      | Some text => let (result, truncated) := truncateUTF8 text limit in inl (trim_right [x0d; x0a] result, truncated)
      end
  end.

Definition htmlText (source : bytes) (limit : Z) : bytes * bool :=
  match ParseHTML source with
  | None => ([], false)
  | Some document => truncateUTF8 (join_space (fields (join_space (collect false document)))) limit
  end.

Definition truncated_as (f : Truncation -> Truncation) (c : mimeCollector) : mimeCollector := c <| truncation := f (truncation c) |>.

Definition appendAttachment (limits : NormalizeLimits) (filename contentType disposition : bytes) (parameters : gmap bytes bytes)
    (c : mimeCollector) : mimeCollector :=
  if lMaxAttachmentCount limits <=? zlen (attachments c) then truncated_as (fun t => t <| tAttachments := true |>) c
  else
    let (filename, filenameTruncated) := truncateUTF8 filename (lMaxFilenameBytes limits) in
    let (contentType, contentTypeTruncated) := truncateUTF8 contentType (lMaxContentTypeBytes limits) in
    let (disposition, dispositionTruncated) := truncateUTF8 disposition (lMaxDispositionBytes limits) in
    let c := if filenameTruncated || contentTypeTruncated || dispositionTruncated
             then truncated_as (fun t => t <| tAttachments := true |>) c else c in
    let size := parse_nonnegative (default [] (parameters !! $"size")) in
    c <| attachments := attachments c ++ [mkAttachment filename contentType disposition (default 0 size)
                                            (match size with Some _ => true | None => false end)] |>.

(** The text of a leaf, once its type is known to be text. *)
Definition collectText (limits : NormalizeLimits) (header : mailHeader) (body : R) (contentType : bytes)
    (parameters : gmap bytes bytes) (c : mimeCollector) : mimeCollector * option mimeError :=
  match decodeTransfer body (headerGet header $"Content-Transfer-Encoding") (lMaxDecodedTextBytes limits) with
  | inr err => (c, Some (mimeFailed err))
  | inl (decoded, transferTruncated) =>
      match decodeCharset decoded (default [] (parameters !! $"charset")) (lMaxDecodedTextBytes limits) with
      | inr err => (c, Some (mimeFailed err))
      | inl (text, charsetTruncated) =>
          let c := truncated_as (fun t => t <| tText := tText t || transferTruncated || charsetTruncated |>) c in
          let c := if equal_fold contentType $"text/plain" && bool_decide (plain c = None) then c <| plain := Some text |> else c in
          let c := if equal_fold contentType $"text/html" && bool_decide (html c = None) then c <| html := Some text |> else c in
          (c, None)
      end
  end.

(** [Content-Type] and [Content-Disposition] with their parameters. *)
Definition mediaTypeOf (header : mailHeader) (name fallback : bytes) : (bytes * gmap bytes bytes) + goerror :=
  let raw := headerGet header name in
  if bool_decide (raw = []) then inl (fallback, ∅)
  else match ParseMediaType raw with
       | Some r => inl r
       | None => inr (normalizeError errorCodeMalformedMIME)
       end.

(** The loop over the parts of a multipart entity, with [parse] for each. *)
Fixpoint partsLoop (parse : mailHeader -> R -> mimeCollector -> mimeCollector * option mimeError) (limits : NormalizeLimits)
    (rest : list (mailHeader * R)) (complete : bool) (c : mimeCollector) : mimeCollector * option mimeError :=
  if lMaxMIMEParts limits <=? parts c then (truncated_as (fun t => t <| tMIMEParts := true |>) c, Some errMIMEPartsLimit)
  else match rest with
  | [] => (c, if complete then None else Some (mimeFailed (normalizeError errorCodeMalformedMIME)))
  | (header, body) :: rest =>
      match parse header body c with
      | (c, Some err) => (c, Some err)
      | (c, None) => partsLoop parse limits rest complete c
      end
  end.

(** [parseEntity] at depth [MaxMIMEDepth + 1 - levels]. *)
Fixpoint parseEntity (levels : nat) (limits : NormalizeLimits) (header : mailHeader) (body : R) (c : mimeCollector)
  : mimeCollector * option mimeError :=
  match levels with
  | O => (truncated_as (fun t => t <| tMIMEDepth := true |>) c, None)
  | Datatypes.S levels =>
      if lMaxMIMEParts limits <=? parts c then (truncated_as (fun t => t <| tMIMEParts := true |>) c, Some errMIMEPartsLimit)
      else
        let c := c <| parts := parts c + 1 |> in
        match mediaTypeOf header $"Content-Type" $"text/plain", mediaTypeOf header $"Content-Disposition" [] with
        | inr err, _ | _, inr err => (c, Some (mimeFailed err))
        | inl (contentType, parameters), inl (disposition, dispositionParameters) =>
            let filename := default [] (dispositionParameters !! $"filename") in
            let filename := if beqs filename [] then default [] (parameters !! $"name") else filename in
            if equal_fold disposition $"attachment" || negb (beqs filename []) then
              (appendAttachment limits filename contentType disposition dispositionParameters c, None)
            else if has_prefix (to_lower contentType) $"multipart/" then
              let boundary := default [] (parameters !! $"boundary") in
              if beqs boundary [] || (200 <? zlen boundary) then (c, Some (mimeFailed (normalizeError errorCodeMalformedMIME)))
              else
                let (children, complete) := Multipart body boundary in
                partsLoop (fun header body c => parseEntity levels limits header body c) limits children complete c
            else if equal_fold contentType $"message/rfc822" then
              (truncated_as (fun t => t <| tMIMEDepth := true |>) c, None)
            else if negb (equal_fold contentType $"text/plain") && negb (equal_fold contentType $"text/html") then (c, None)
            else collectText limits header body contentType parameters c
        end
  end.

(** [applyText]: the text, its source and the truncation. *)
Definition applyText (limits : NormalizeLimits) (c : mimeCollector) : bytes * TextSource * Truncation :=
  match plain c, html c with
  | Some text, _ => (text, TextSourcePlain, truncation c)
  | None, None => ([], TextSourceNone, truncation c)
  | None, Some source =>
      let (text, truncated) := htmlText source (lMaxDecodedTextBytes limits) in
      (text, TextSourceHTML, (truncation c) <| tText := tText (truncation c) || truncated |>)
  end.

Definition normalizeMessage (reader : option R) (options : NormalizeLimits) : NormalizedMessage + goerror :=
  match reader with
  | None => inr (normalizeError errorCodeMalformedMIME)
  | Some reader =>
      let limits := normalizedLimits options in
      match ReadLimited reader (lMaxRawBytes limits + 1) with
      | None => inr (normalizeError errorCodeMalformedMIME)
      | Some raw =>
          if lMaxRawBytes limits <? zlen raw then inr (normalizeError errorCodeInputTooLarge)
          else
            need! headerBytes := boundedHeaderBlock raw limits in
            let bodyOffset := length headerBytes in
            let (headerBytes, headerCountTruncated) := boundedHeaderCount headerBytes (lMaxHeaderCount limits) in
            match ReadMessage (headerBytes ++ drop bodyOffset raw) with
            | None => inr (normalizeError errorCodeMalformedHeader)
            | Some (header, body) =>
                need! (headers, truncation) := canonicalHeaders DecodeHeader header headerBytes limits in
                let collector := mkCollector (truncation <| tHeaderCount := headerCountTruncated |>) [] 0 None None in
                let (collector, err) := parseEntity (Z.to_nat (lMaxMIMEDepth limits + 1)) limits header body collector in
                match err with
                | Some (mimeFailed err) => inr err
                | _ =>
                    let '(text, source, truncation) := applyText limits collector in
                    inl (mkNormalized headers text source (attachments collector) truncation)
                end
            end
      end
  end.
End Mime.
