(* ===== verification/ImapSession.v ===== *)
(** * The IMAP session

    [imapSession] of [bridge/imapclient.go]: how each command's answer from the
    go-imap client becomes a result.  The client is third-party code, so its
    answer to a command is an argument: a decoded response, a list of FETCH
    items, an error.  Around every command stand the context mapping and the
    input budget; a failed FETCH aborts the transport. *)
From Stdlib Require Import ZArith Lia Strings.Byte.
From stdpp Require Import base list gmap strings.
From S2P Require Import Prelude GoStrings Errors Config Session GoText Headers Search SearchObserver Triage.

Definition maxSearchResponseBytes : Z := 4096.
Definition maxControlResponseBytes : Z := 65536.
Definition maxListResponseBytes : Z := maxControlResponseBytes.
Definition fetchResponseOverheadBytes : Z := 4096.

(** What surrounds a command: the context when it ended, and whether the input
    budget was exceeded while it ran. *)
Record around := mkAround { now : ctx; budgetExceeded : bool }.

(** [withContext] and [withBoundedInput], on the command's error. *)
Definition withContext (a : around) (err : option goerror) : option goerror := mapIMAPError (Some (now a)) err.
Definition withBoundedInput (a : around) (err : option goerror) : option goerror :=
  withContext a (if budgetExceeded a then Some (errorCode CodeBoundsExceeded) else err).

(** A result with its error; the caller ignores the result of a failure. *)
Definition answer {A} (value : A) (err : option goerror) : A + goerror :=
  match err with Some e => inr e | None => inl value end.

Definition protocol : option goerror := Some (errorCode CodeIMAPProtocol).
Definition bounds : option goerror := Some (errorCode CodeBoundsExceeded).

(** ** Control commands *)

(** [waitForCapabilities]; [caps] is whether the client knows capabilities. *)
Definition waitForCapabilities (caps : bool) : option goerror := if caps then None else Some [NEOF].

(** The greeting and capabilities of [startClient]. *)
Definition startClient (a : around) (greeting : option goerror) (caps : bool) : option goerror :=
  withBoundedInput a (match greeting with Some e => Some e | None => waitForCapabilities caps end).

(** [Authenticate]; [no] says that the LOGIN failure is a NO response, and
    [noopImap] that the NOOP failure is an IMAP error. *)
Definition Authenticate (a : around) (login : option goerror) (no : bool) (noop : option goerror) (noopImap caps : bool) : option goerror :=
  withBoundedInput a
    (match login with
     | Some e => if no then Some (NAuthFailure :: e) else Some e
     | None =>
         match noop with
         | Some e => if noopImap then Some e else Some [NEOF]
         | None => waitForCapabilities caps
         end
     end).

(** The loop of [ListMailboxes]: the entries, or more than [limit] of them, in
    which case the transport is closed. *)
Fixpoint listLoop (limit : Z) (mailboxes entries : list listedMailbox) : list listedMailbox * bool :=
  match entries with
  | [] => (mailboxes, false)
  | entry :: rest => if zlen mailboxes =? limit then (mailboxes, true) else listLoop limit (mailboxes ++ [entry]) rest
  end.

Definition ListMailboxes (a : around) (limit : Z) (entries : list listedMailbox) (closeErr : option goerror)
  : (list listedMailbox + goerror) * bool :=
  let (mailboxes, closed) := listLoop limit [] entries in
  (answer mailboxes (withBoundedInput a (if closed : bool then bounds else closeErr)), closed).

Definition List (a : around) (limit : Z) (entries : list listedMailbox) (closeErr : option goerror) : (list Folder + goerror) * bool :=
  match ListMailboxes a limit entries closeErr with
  | (inl mailboxes, closed) => (inl (map (fun m => mkFolder (Name m) (encodeRune (Delimiter m))) mailboxes), closed)
  | (inr err, closed) => (inr err, closed)
  end.

Definition canonicalMailbox (mailbox : bytes) : bytes := if equal_fold mailbox $"INBOX" then $"INBOX" else mailbox.

(** A decoded STATUS answer; absent counts are [None]. *)
Record statusData := mkStatusData { sdMailbox : bytes; sdMessages : option Z; sdUnseen : option Z; sdUIDNext : Z; sdUIDValidity : Z }.

Definition imapStatus (a : around) (mailbox : bytes) (reply : statusData + goerror) : MailboxStatus + goerror :=
  let wireMailbox := canonicalMailbox mailbox in
  let maxInt := 2 ^ 63 - 1 in
  match reply with
  | inr err => answer (mkStatus 0 0 0 0) (withBoundedInput a (Some err))
  | inl data =>
      match mailboxIdentityMatches wireMailbox (sdMailbox data), sdMessages data, sdUnseen data with
      | true, Some messages, Some unseen =>
          if (sdUIDNext data =? 0) || (sdUIDValidity data =? 0) then answer (mkStatus 0 0 0 0) (withBoundedInput a protocol)
          else if (maxInt <? messages) || (maxInt <? unseen) then answer (mkStatus 0 0 0 0) (withBoundedInput a protocol)
          else answer (mkStatus messages (sdUIDNext data) (sdUIDValidity data) unseen) (withBoundedInput a None)
      | _, _, _ => answer (mkStatus 0 0 0 0) (withBoundedInput a protocol)
      end
  end.

(** [Examine] and [SelectSource]: the decoded UIDNEXT and UIDVALIDITY. *)
Definition Examine (a : around) (reply : mailboxSnapshot + goerror) : mailboxSnapshot + goerror :=
  match reply with
  | inr err => answer (mkSnapshot 0 0) (withBoundedInput a (Some err))
  | inl snapshot =>
      answer snapshot (withBoundedInput a (if (UIDNext snapshot =? 0) || (UIDValidity snapshot =? 0) then protocol else None))
  end.

Definition SelectSource (a : around) (reply : mailboxSnapshot + goerror) : mailboxSnapshot + goerror :=
  match reply with
  | inr err => answer (mkSnapshot 0 0) (withBoundedInput a (Some err))
  | inl snapshot =>
      answer snapshot (withBoundedInput a (if (UIDNext snapshot =? 0) || (UIDValidity snapshot =? 0) then protocol else None))
  end.

(** [StoreSeen]: whether a STORE is sent, with its operation, and the error. *)
Inductive storeOp := StoreFlagsAdd | StoreFlagsDel.

Definition StoreSeen (a : around) (uid : Z) (seen : bool) (closeErr : option goerror) : option (Z * storeOp) * option goerror :=
  if uid =? 0 then (None, protocol)
  else (Some (uid, if seen then StoreFlagsAdd else StoreFlagsDel), withBoundedInput a closeErr).

Definition Logout (a : around) (client : bool) (err : option goerror) : option goerror :=
  if client then withContext a err else None.

(** ** Search *)

(** [imap.SearchData]; [All] is nil, a set of UID ranges or another set. *)
Inductive searchAll := AllNil | AllUIDs (ranges : list (Z * Z)) | AllOther.
Record searchData := mkSearchData { All : searchAll; Min : Z; Max : Z; Count : Z }.

Definition eSearchAppliedToUIDSearch (data : option searchData) : bool :=
  match data with
  | None => false
  | Some data => match All data with AllNil => true | AllUIDs ranges => negb (bool_decide (ranges = [])) | AllOther => true end
  end.

Inductive searchCriterion := CritUIDRange (start stop : Z) | CritSince (t : Z) | CritBefore (t : Z)
  | CritHeader (key value : bytes) | CritNotSeen.

(** The criteria of one window. *)
Definition searchCriteria (query : SearchQuery) (window : uidWindow) : list searchCriterion :=
  [CritUIDRange (Start window) (End window); CritSince (qSince query); CritBefore (qBefore query)]
  ++ (if beqs (qSender query) [] then [] else [CritHeader $"FROM" (qSender query)])
  ++ (if beqs (qSubject query) [] then [] else [CritHeader $"SUBJECT" (qSubject query)])
  ++ (if qUnread query then [CritNotSeen] else []).

(** The checks of [UIDSearchWindow] on the client's answer and what the
    observer saw. *)
Definition searchResult (observed : searchObservation) (reply : searchData + goerror) (window : uidWindow) (limit : Z) : list Z + goerror :=
  if oExceeded observed then inr (errorCode CodeBoundsExceeded)
  else match reply with
  | inr searchErr => inr searchErr
  | inl data =>
      if oDuplicate observed || oIncomplete observed then inr (errorCode CodeIMAPProtocol)
      else if oOutOfWindow observed then inr (errorCode CodeBoundsExceeded)
      else if negb (oSearchSeen observed) && (negb (oESearchSeen observed) || negb (eSearchAppliedToUIDSearch (Some data)))
      then inr (errorCode CodeIMAPProtocol)
      else
        let all :=
          if negb (oSearchSeen observed) then
            match All data with
            | AllNil => if negb (Min data =? 0) || negb (Max data =? 0) || negb (Count data =? 0) then None else Some (AllUIDs [])
            | all => Some all
            end
          else Some (All data) in
        match all with
        | None => inr (errorCode CodeIMAPProtocol)
        | Some all => boundedSearchUIDs (match all with AllUIDs ranges => Some ranges | _ => None end) window limit
        end
  end.

Definition UIDSearchWindow (a : around) (window : uidWindow) (limit : Z) (observed : searchObservation) (reply : searchData + goerror)
  : list Z + goerror :=
  if (limit <? 1) || (width window <? limit) then inr (errorCode CodeBoundsExceeded)
  else match searchResult observed reply window limit with
  | inl uids => inl uids
  | inr err => answer [] (withContext a (Some err))
  end.

(** ** Fetch *)

Definition fetchInputBudget (literalLimit messageCount : Z) : Z := messageCount * (literalLimit + fetchResponseOverheadBytes).

(** A literal: its announced size and what reading it whole gives. *)
Record literal := mkLiteral { literalSize : Z; literalRead : bytes + goerror }.

Definition readBoundedLiteral (l : literal) (limit : Z) : bytes + goerror :=
  if limit <? literalSize l then inr (errorCode CodeBoundsExceeded) else literalRead l.

Section Fetch.
(** A decoded body structure. *)
Context {Structure : Type}.

(** One item of a FETCH response.  [section] is false for a nil section and
    [matches] is [MatchCommand] of the requested one. *)
Inductive responseItem :=
| FetchUID (uid : Z)
| FetchFlags (flags : list bytes)
| FetchSize (size : Z)
| FetchBodySection (lit : option literal) (section matches : bool)
| FetchBodyStructure (extended : bool) (structure : option Structure)
| FetchOther.

(** The messages of one FETCH and the error of [Close]. *)
Record fetchReply := mkReply { fetched : list (list responseItem); closeErr : option goerror }.

(** What the item loops keep. *)
Record itemState := mkItems { item : MessageMetadata; uidItems : Z; flagsItems : Z; bodySections : Z; content : option bytes }.
#[export] Instance eta_items : Eta itemState := fun s =>
  mkItems (item s) (uidItems s) (flagsItems s) (bodySections s) (content s).

Definition noItems (m : MessageMetadata) : itemState := mkItems m 0 0 0 None.
Definition zeroMetadata : MessageMetadata := mkMetadata [] [] 0 0 [] 0 [] [] DateSourceUnknown ReadStateUnknown false 0.

(** The guard and the read of a body section. *)
Definition readSection (lit : option literal) (section matches : bool) (limit : Z) (s : itemState) : bytes + goerror :=
  match lit with
  | Some l => if negb section || negb matches || negb (bodySections s =? 0) then inr (errorCode CodeIMAPProtocol) else readBoundedLiteral l limit
  | None => inr (errorCode CodeIMAPProtocol)
  end.

Section Metadata.
Variable ReadMessage : bytes -> option (mailHeader * bytes).
Variable DecodeHeader : bytes -> option bytes.
Variable ParseDate : bytes -> option Z.

(** One item of [UIDFetchMetadata]. *)
Definition metadataItem (headerLimit : Z) (data : responseItem) (s : itemState) : itemState + goerror :=
  match data with
  | FetchUID uid =>
      if negb (uidItems s =? 0) || (uid =? 0) then inr (errorCode CodeIMAPProtocol)
      else inl (s <| uidItems := uidItems s + 1 |> <| item := (item s) <| fetchedUID := uid |> |>)
  | FetchFlags flags =>
      if negb (flagsItems s =? 0) then inr (errorCode CodeIMAPProtocol)
      else inl (s <| flagsItems := flagsItems s + 1 |> <| item := (item s) <| mReadState := metadataReadState flags |> |>)
  | FetchSize size => inl (s <| item := (item s) <| mSize := size |> |>)
  | FetchBodySection lit section matches =>
      match readSection lit section matches headerLimit s with
      | inr err => inr err
      | inl header =>
          match ReadMessage header with
          | None => inr (errorCode CodeIMAPProtocol)
          | Some (parsed, _) =>
              inl (s <| bodySections := bodySections s + 1 |> <| content := Some header |>
                     <| item := applyHeaderMetadata DecodeHeader ParseDate (item s) parsed |>)
          end
      end
  | FetchBodyStructure _ _ | FetchOther => inl s
  end.

Fixpoint itemsLoop (step : responseItem -> itemState -> itemState + goerror) (items : list responseItem) (s : itemState) : itemState + goerror :=
  match items with
  | [] => inl s
  | data :: rest => match step data s with inl s => itemsLoop step rest s | inr err => inr err end
  end.

Fixpoint metadataLoop (headerLimit : Z) (messages : list (list responseItem)) (results : list MessageMetadata)
  : list MessageMetadata * option goerror :=
  match messages with
  | [] => (results, None)
  | message :: rest =>
      match itemsLoop (metadataItem headerLimit) message (noItems zeroMetadata) with
      | inr err => (results, Some err)
      | inl s =>
          if negb (uidItems s =? 1) || (fetchedUID (item s) =? 0) || negb (bodySections s =? 1) then (results, protocol)
          else metadataLoop headerLimit rest (results ++ [item s])
      end
  end.

(** The deferred calls of a FETCH: the transport is aborted when the operation
    failed, then an exceeded budget replaces the error.  With the error after
    [withContext], and whether the transport was aborted. *)
Definition fetchEnd (a : around) (err : option goerror) : option goerror * bool :=
  (withBoundedInput a err, match err with Some _ => true | None => false end).

Definition UIDFetchMetadata (a : around) (uids : list Z) (headerLimit : Z) (reply : fetchReply) : (list MessageMetadata + goerror) * bool :=
  match uids with
  | [] => (inl [], false)
  | _ =>
      if headerLimit <? 1 then (inr (errorCode CodeBoundsExceeded), false)
      else if existsb (Z.eqb 0) uids then (inr (errorCode CodeIMAPProtocol), false)
      else
        let (results, err) := metadataLoop headerLimit (fetched reply) [] in
        let err := match err with
                   | Some e => Some e
                   | None => match closeErr reply with Some e => Some e | None => validateFetchedMetadataUIDs uids results end
                   end in
        let (err, aborted) := fetchEnd a err in
        (answer results err, aborted)
  end.

(** One item of [UIDFetchBody]. *)
Definition bodyItem (uid limit : Z) (data : responseItem) (s : itemState) : itemState + goerror :=
  match data with
  | FetchUID u =>
      if negb (uidItems s =? 0) || negb (u =? uid) then inr (errorCode CodeIMAPProtocol) else inl (s <| uidItems := uidItems s + 1 |>)
  | FetchBodySection lit section matches =>
      match readSection lit section matches limit s with
      | inr err => inr err
      | inl body => inl (s <| bodySections := bodySections s + 1 |> <| content := Some body |>)
      end
  | _ => inl s
  end.

(** One item of [UIDFetchHeaders]. *)
Definition headersItem (uid headerLimit : Z) (data : responseItem) (s : itemState) : itemState + goerror :=
  match data with
  | FetchUID u =>
      if negb (uidItems s =? 0) || negb (u =? uid) then inr (errorCode CodeIMAPProtocol) else inl (s <| uidItems := uidItems s + 1 |>)
  | FetchFlags flags =>
      if negb (flagsItems s =? 0) then inr (errorCode CodeIMAPProtocol)
      else inl (s <| flagsItems := flagsItems s + 1 |> <| item := (item s) <| mReadState := metadataReadState flags |> |>)
  | FetchSize size => inl (s <| item := (item s) <| mSize := size |> |>)
  | FetchBodySection lit section matches =>
      match readSection lit section matches headerLimit s with
      | inr err => inr err
      | inl header => inl (s <| bodySections := bodySections s + 1 |> <| content := Some header |>)
      end
  | FetchBodyStructure _ _ | FetchOther => inl s
  end.

(** The first message with its items, then no second one and a clean end. *)
Definition fetchOne (step : responseItem -> itemState -> itemState + goerror) (complete : itemState -> bool) (reply : fetchReply)
  : itemState * option goerror :=
  match fetched reply with
  | [] => (noItems zeroMetadata, match closeErr reply with Some err => Some err | None => protocol end)
  | message :: others =>
      match itemsLoop step message (noItems zeroMetadata) with
      | inr err => (noItems zeroMetadata, Some err)
      | inl s => (s, if negb (bool_decide (others = [])) || negb (complete s) then protocol else closeErr reply)
      end
  end.

(** A body that was read is never nil, so [body == nil] says that no section
    was. *)
Definition UIDFetchBody (a : around) (uid limit : Z) (reply : fetchReply) : (bytes + goerror) * bool :=
  if (uid =? 0) || (limit <? 1) then (inr (errorCode CodeBoundsExceeded), false)
  else
    let (s, err) := fetchOne (bodyItem uid limit)
      (fun s => match content s with Some _ => (bodySections s =? 1) && (uidItems s =? 1) | None => false end) reply in
    let (err, aborted) := fetchEnd a err in
    (answer (default [] (content s)) err, aborted).

Definition UIDFetchHeaders (a : around) (uid headerLimit : Z) (reply : fetchReply) : (MessageHeaders + goerror) * bool :=
  if (uid =? 0) || (headerLimit <? 1) then (inr (errorCode CodeBoundsExceeded), false)
  else
    let (s, err) := fetchOne (headersItem uid headerLimit) (fun s => (uidItems s =? 1) && (bodySections s =? 1)) reply in
    let (err, aborted) := fetchEnd a err in
    match err with
    | Some e => (inr e, aborted)
    | None =>
        (selectedHeaderRecord ReadMessage DecodeHeader ParseDate ((item s) <| fetchedUID := uid |>) (default [] (content s)) headerLimit,
         aborted)
    end.
End Metadata.

(** ** The structure fetch *)

Record structureState := mkStructureState { ssUID : Z; ssFlags : Z; ssStructure : option Structure }.

Definition structureItem (uid : Z) (data : responseItem) (s : structureState) : structureState + goerror :=
  match data with
  | FetchUID u =>
      if negb (ssUID s =? 0) || negb (u =? uid) then inr (errorCode CodeIMAPProtocol)
      else inl (mkStructureState (ssUID s + 1) (ssFlags s) (ssStructure s))
  | FetchFlags _ =>
      if negb (ssFlags s =? 0) then inr (errorCode CodeIMAPProtocol)
      else inl (mkStructureState (ssUID s) (ssFlags s + 1) (ssStructure s))
  | FetchBodyStructure extended structure =>
      match ssStructure s, extended, structure with
      | None, true, Some value => inl (mkStructureState (ssUID s) (ssFlags s) (Some value))
      | _, _, _ => inr (errorCode CodeIMAPProtocol)
      end
  | _ => inr (errorCode CodeIMAPProtocol)
  end.

Fixpoint structureLoop (uid : Z) (items : list responseItem) (s : structureState) : structureState + goerror :=
  match items with
  | [] => inl s
  | data :: rest => match structureItem uid data s with inl s => structureLoop uid rest s | inr err => inr err end
  end.

Definition fetchUIDStructure (a : around) (uid : Z) (reply : fetchReply) : (Structure + goerror) * bool :=
  let (structure, err) :=
    match fetched reply with
    | [] => (None, match closeErr reply with Some err => Some err | None => protocol end)
    | message :: others =>
        match structureLoop uid message (mkStructureState 0 0 None) with
        | inr err => (None, Some err)
        | inl s =>
            match ssStructure s with
            | Some value =>
                (Some value, if negb (bool_decide (others = [])) || negb (ssUID s =? 1) then protocol else closeErr reply)
            | None => (None, protocol)
            end
        end
    end in
  let (err, aborted) := fetchEnd a err in
  match err, structure with
  | Some e, _ => (inr e, aborted)
  | None, Some value => (inl value, aborted)
  | None, None => (inr (errorCode CodeIMAPProtocol), aborted)
  end.
End Fetch.
Arguments responseItem : clear implicits.
Arguments fetchReply : clear implicits.
