(* ===== verification/ImapSessionSpec.v ===== *)
(** * What a session's answers mean

    A FETCH result is only ever taken from messages that name the requested
    UIDs exactly once with one matching section inside the limit; everything
    else is an error that aborts the transport.  A search result is in its
    window, distinct, and the answer to this very command. *)
From Stdlib Require Import ZArith Lia Strings.Byte.
From stdpp Require Import base list gmap strings.
From S2P Require Import Prelude GoStrings Errors Config Session GoText Headers HeadersSpec Search SearchSpec SearchObserver Triage ImapSession.

(** ** The mapping around a command *)

Lemma mapIMAPError_None c err : mapIMAPError c err = None -> err = None.
Proof.
  unfold mapIMAPError. destruct err as [e|]; [|done]. destruct c as [[[[]|] []]|]; try done;
    (destruct (CodeOf e); [done|]); repeat (destruct (errors_is _ _ || _); [done|]); repeat (destruct (errors_is _ _); [done|]); done.
Qed.

Lemma answer_inl {A} (v r : A) err : answer v err = inl r -> err = None /\ r = v.
Proof. destruct err; [done|]. by intros [= <-]. Qed.

Lemma withBoundedInput_None a err : withBoundedInput a err = None -> err = None /\ budgetExceeded a = false.
Proof. unfold withBoundedInput, withContext. intros H%mapIMAPError_None. by destruct (budgetExceeded a). Qed.

(** The record of a selected message is of the item it was made from. *)
Lemma record_uid R D P item header limit r :
  selectedHeaderRecord R D P item header limit = inl r -> fetchedUID (mhMetadata r) = fetchedUID item.
Proof.
  unfold selectedHeaderRecord. destruct (negb _); [done|]. destruct (boundedHeaderCount _ _). destruct (R _) as [[parsed ?]|]; [|done].
  destruct (R _) as [[tp ?]|]; [|done]. destruct (canonicalHeaders _ parsed _ _) as [[? ?]|]; [|done].
  destruct (canonicalHeaders _ tp _ _) as [[? ?]|]; [|done]. intros [= <-]. by destruct item.
Qed.

Section FetchSpec.
Context {Structure : Type}.
#[local] Abbreviation responseItem := (responseItem Structure).

(** ** The items of a message *)

Definition uid_items (message : list responseItem) : list Z :=
  omap (fun data => match data with FetchUID u => Some u | _ => None end) message.

Definition sections (message : list responseItem) : list (option literal * bool * bool) :=
  omap (fun data => match data with FetchBodySection lit section matches => Some (lit, section, matches) | _ => None end) message.

(** Exactly one section, the requested one, read whole within the limit. *)
Definition one_section (limit : Z) (message : list responseItem) (bytes : bytes) : Prop :=
  exists l, sections message = [(Some l, true, true)] /\ literalSize l <= limit /\ literalRead l = inl bytes.

(** What the items so far gave. *)
Definition items_inv (limit : Z) (message : list responseItem) (s : itemState) : Prop :=
  uidItems s = zlen (uid_items message) /\ bodySections s = zlen (sections message)
  /\ match content s with None => sections message = [] | Some bytes => one_section limit message bytes end.

Lemma readSection_inv lit section matches limit s message bytes :
  items_inv limit message s -> readSection lit section matches limit s = inl bytes ->
  sections message = [] /\ exists l, lit = Some l /\ section = true /\ matches = true /\ literalSize l <= limit /\ literalRead l = inl bytes.
Proof.
  intros (_ & Hb & Hc). unfold readSection, readBoundedLiteral. destruct lit as [l|]; [|done].
  destruct section; [|done]. destruct matches; [|done]. cbn [negb orb]. destruct (bodySections s =? 0) eqn:E; [|done]. bool_prop. cbn [negb].
  destruct (limit <? literalSize l) eqn:El; [done|]. bool_prop. intros Hr. split; [|by exists l].
  rewrite Hb in E. by apply zlen_0_nil.
Qed.

Lemma sections_app m k : sections (m ++ k) = sections m ++ sections k.
Proof. unfold sections. by rewrite omap_app. Qed.
Lemma uid_items_app m k : uid_items (m ++ k) = uid_items m ++ uid_items k.
Proof. unfold uid_items. by rewrite omap_app. Qed.

Lemma items_inv_other limit message data (s s' : itemState) :
  (forall u, data <> FetchUID u) -> (forall l b m, data <> FetchBodySection l b m) ->
  uidItems s' = uidItems s -> bodySections s' = bodySections s -> content s' = content s ->
  items_inv limit message s -> items_inv limit (message ++ [data]) s'.
Proof.
  intros Hu Hs E1 E2 E3 (H1 & H2 & H3). unfold items_inv, one_section in *. rewrite E1, E2, E3, uid_items_app, sections_app.
  assert (Ku : uid_items [data] = []) by (destruct data; try done; by destruct (Hu uid)).
  assert (Ks : sections [data] = []) by (destruct data; try done; by destruct (Hs lit section matches)). by rewrite Ku, Ks, !app_nil_r.
Qed.

Lemma items_inv_uid limit message u (s s' : itemState) :
  uidItems s' = uidItems s + 1 -> bodySections s' = bodySections s -> content s' = content s ->
  items_inv limit message s -> items_inv limit (message ++ [FetchUID u]) s'.
Proof.
  intros E1 E2 E3 (H1 & H2 & H3). unfold items_inv, one_section in *. rewrite E1, E2, E3, uid_items_app, sections_app.
  change (uid_items [FetchUID u]) with [u]. change (sections [FetchUID u]) with (@nil (option literal * bool * bool)).
  rewrite app_nil_r, zlen_snoc. split_and!; [lia|done|done].
Qed.

Lemma items_inv_section limit message lit b m bytes (s s' : itemState) :
  readSection lit b m limit s = inl bytes ->
  uidItems s' = uidItems s -> bodySections s' = bodySections s + 1 -> content s' = Some bytes ->
  items_inv limit message s -> items_inv limit (message ++ [FetchBodySection lit b m]) s'.
Proof.
  intros Hr E1 E2 E3 H. destruct (readSection_inv _ _ _ _ _ _ _ H Hr) as (Hn & l & -> & -> & -> & Hl & Hb). destruct H as (H1 & H2 & H3).
  unfold items_inv, one_section. rewrite E1, E2, E3, uid_items_app, sections_app, Hn.
  change (uid_items [FetchBodySection (Some l) true true]) with (@nil Z).
  change (sections [FetchBodySection (Some l) true true]) with [(Some l, true, true)].
  rewrite app_nil_r, H2, Hn. split_and!; [done|done|]. by exists l.
Qed.

Lemma items_inv_nil limit m : items_inv limit [] (noItems m).
Proof. done. Qed.

(** An invariant of the items read so far. *)
Lemma itemsLoop_inv (P : list responseItem -> itemState -> Prop) step items s s' message :
  (forall data s s' message, P message s -> step data s = inl s' -> P (message ++ [data]) s') ->
  P message s -> itemsLoop step items s = inl s' -> P (message ++ items) s'.
Proof.
  intros Hstep. revert s message. induction items as [|data items IH]; intros s message H; cbn.
  { intros [= <-]. by rewrite app_nil_r. }
  destruct (step data s) as [s1|] eqn:E; [|done]. intros K. apply (Hstep _ _ _ message H) in E.
  change (data :: items) with ([data] ++ items). rewrite app_assoc. by eapply IH.
Qed.

(** [UIDFetchBody] and [UIDFetchHeaders]: every UID item is the requested one. *)
Definition one_inv (uid limit : Z) (message : list responseItem) (s : itemState) : Prop :=
  items_inv limit message s /\ Forall (eq uid) (uid_items message).

Lemma one_inv_other uid limit message data (s s' : itemState) :
  (forall u, data <> FetchUID u) -> (forall l b m, data <> FetchBodySection l b m) ->
  uidItems s' = uidItems s -> bodySections s' = bodySections s -> content s' = content s ->
  one_inv uid limit message s -> one_inv uid limit (message ++ [data]) s'.
Proof.
  intros Hu Hs E1 E2 E3 [H1 H2]. split; [by eapply items_inv_other|]. rewrite uid_items_app.
  assert (Ku : uid_items [data] = []) by (destruct data; try done; by destruct (Hu uid0)). by rewrite Ku, app_nil_r.
Qed.

Lemma one_inv_uid uid limit message u (s s' : itemState) : u = uid ->
  uidItems s' = uidItems s + 1 -> bodySections s' = bodySections s -> content s' = content s ->
  one_inv uid limit message s -> one_inv uid limit (message ++ [FetchUID u]) s'.
Proof.
  intros -> E1 E2 E3 [H1 H2]. split; [by eapply items_inv_uid|]. rewrite uid_items_app. apply Forall_app. split; [done|by constructor].
Qed.

Lemma one_inv_section uid limit message lit b m bytes (s s' : itemState) :
  readSection lit b m limit s = inl bytes ->
  uidItems s' = uidItems s -> bodySections s' = bodySections s + 1 -> content s' = Some bytes ->
  one_inv uid limit message s -> one_inv uid limit (message ++ [FetchBodySection lit b m]) s'.
Proof.
  intros Hr E1 E2 E3 [H1 H2]. split; [by eapply items_inv_section|]. rewrite uid_items_app. by rewrite app_nil_r.
Qed.

Lemma bodyItem_inv uid limit data s s' message :
  one_inv uid limit message s -> bodyItem uid limit data s = inl s' -> one_inv uid limit (message ++ [data]) s'.
Proof.
  intros H. destruct data; cbn [bodyItem]; try (intros [= <-]; eapply one_inv_other; done).
  - destruct (_ || _) eqn:E; [done|]. intros [= <-]. bool_prop. destruct s. by eapply one_inv_uid.
  - destruct (readSection _ _ _ _ _) as [body|] eqn:E; [|done]. intros [= <-]. destruct s. by eapply one_inv_section.
Qed.

Lemma headersItem_inv uid limit data s s' message :
  one_inv uid limit message s -> headersItem uid limit data s = inl s' -> one_inv uid limit (message ++ [data]) s'.
Proof.
  intros H. destruct data; cbn [headersItem]; try (intros [= <-]; destruct s; eapply one_inv_other; done).
  - destruct (_ || _) eqn:E; [done|]. intros [= <-]. bool_prop. destruct s. by eapply one_inv_uid.
  - destruct (negb _); [done|]. intros [= <-]. destruct s. by eapply one_inv_other.
  - destruct (readSection _ _ _ _ _) as [body|] eqn:E; [|done]. intros [= <-]. destruct s. by eapply one_inv_section.
Qed.

(** The whole reply of a FETCH of one UID. *)
Definition reply_of (uid limit : Z) (reply : fetchReply Structure) (bytes : bytes) : Prop :=
  exists message, fetched reply = [message] /\ closeErr reply = None /\ uid_items message = [uid] /\ one_section limit message bytes.

Lemma complete_message uid limit message s bytes : one_inv uid limit message s -> content s = Some bytes ->
  uidItems s = 1 -> uid_items message = [uid] /\ one_section limit message bytes.
Proof.
  intros [(H1 & H2 & H3) Hu] Hc H. rewrite Hc in H3. split; [|done]. rewrite H in H1.
  destruct (uid_items message) as [|u [|u' l]]; [done| |rewrite !zlen_cons in H1; pose proof (zlen_nonneg l); lia].
  apply Forall_cons in Hu as [-> _]. done.
Qed.

Lemma fetchOne_inv uid limit step complete reply s :
  (forall data s s' message, one_inv uid limit message s -> step data s = inl s' -> one_inv uid limit (message ++ [data]) s') ->
  (forall s, complete s = true -> uidItems s = 1 /\ bodySections s = 1) ->
  fetchOne step complete reply = (s, None) ->
  exists bytes, content s = Some bytes /\ reply_of uid limit reply bytes.
Proof.
  intros Hstep Hcomplete. unfold fetchOne. destruct (fetched reply) as [|message others] eqn:Er; [destruct (closeErr reply); done|].
  destruct (itemsLoop _ _ _) as [s'|] eqn:El; [|done]. intros [= <- Hn]. destruct (negb _ || _) eqn:E; [done|]. bool_prop.
  destruct (Hcomplete s') as [Hu Hb]; [done|]. match goal with H : bool_decide _ = true |- _ => apply bool_decide_eq_true in H; subst end.
  apply (itemsLoop_inv (one_inv uid limit) step message (noItems zeroMetadata) s' []) in El; [|done|by split].
  cbn [app] in El. destruct (content s') as [bytes|] eqn:Ec.
  - exists bytes. split; [done|]. exists message. destruct (complete_message _ _ _ _ _ El Ec Hu). by split_and!.
  - destruct El as [(_ & H2 & H3) _]. rewrite Ec in H3. rewrite H3, Hb in H2. done.
Qed.

(** [fetchEnd] succeeds only when nothing failed, and then nothing was aborted. *)
Lemma fetchEnd_None a err aborted : fetchEnd a err = (None, aborted) -> err = None /\ aborted = false /\ budgetExceeded a = false.
Proof. unfold fetchEnd. intros [= H <-]. apply withBoundedInput_None in H as [-> ->]. done. Qed.

(** A fetched body is the content of the one matching section of the one
    message the server sent, which named the requested UID exactly once, within
    the limit and the input budget, with a clean end.  After any other answer
    the transport was aborted, or only the budget was exceeded. *)
Theorem fetch_body_exact a uid limit (reply : fetchReply Structure) (Huid : uid <> 0) (Hlimit : 1 <= limit) :
  match UIDFetchBody a uid limit reply with
  | (inl body, aborted) => aborted = false /\ budgetExceeded a = false /\ reply_of uid limit reply body
  | (inr _, aborted) => aborted = true \/ budgetExceeded a = true
  end.
Proof.
  unfold UIDFetchBody. rewrite (proj2 (Z.eqb_neq _ _)) by done. rewrite (proj2 (Z.ltb_ge _ _)) by lia. cbn [orb].
  destruct (fetchOne _ _ _) as [s err] eqn:Ef. destruct (fetchEnd a err) as [err' aborted] eqn:Ee. destruct err' as [e|]; cbn [answer].
  - unfold fetchEnd in Ee. destruct err as [e0|]; [left; by injection Ee as _ <-|]. right. destruct (budgetExceeded a) eqn:Eb; [done|].
    unfold withBoundedInput in Ee. rewrite Eb in Ee. done.
  - apply fetchEnd_None in Ee as (-> & -> & Hb). split; [done|]. split; [done|].
    pose proof (fun H => fetchOne_inv uid limit _ _ _ _ (bodyItem_inv uid limit) H Ef) as K. destruct K as (bytes & Hc & Hr).
    { intros s0 H. destruct (content s0); [|done]. bool_prop. done. }
    by rewrite Hc.
Qed.

Section Parsers.
Variable ReadMessage : bytes -> option (mailHeader * bytes).
Variable DecodeHeader : bytes -> option bytes.
Variable ParseDate : bytes -> option Z.

(** ** Headers of one message *)

(** The headers of a selected message come from the one header section of
    the one message the server sent, which named the requested UID exactly
    once; the record carries that UID and the section was one complete header
    block.  After any other answer nothing is returned, and unless only the
    budget or the header block itself was at fault the transport was
    aborted. *)
Theorem fetch_headers_exact a uid headerLimit (reply : fetchReply Structure) (Huid : uid <> 0) (Hlimit : 1 <= headerLimit) :
  match UIDFetchHeaders ReadMessage DecodeHeader ParseDate a uid headerLimit reply with
  | (inl r, aborted) =>
      aborted = false /\ budgetExceeded a = false /\ fetchedUID (mhMetadata r) = uid
      /\ exists header, reply_of uid headerLimit reply header /\ headerTerminatorEnd header = Some (length header)
           /\ exists item, selectedHeaderRecord ReadMessage DecodeHeader ParseDate item header headerLimit = inl r
  | (inr _, aborted) => aborted = true \/ budgetExceeded a = true \/ exists header, reply_of uid headerLimit reply header
  end.
Proof.
  unfold UIDFetchHeaders. rewrite (proj2 (Z.eqb_neq _ _)) by done. rewrite (proj2 (Z.ltb_ge _ _)) by lia. cbn [orb].
  destruct (fetchOne _ _ _) as [s err] eqn:Ef. destruct (fetchEnd a err) as [err' aborted] eqn:Ee. destruct err' as [e|].
  - unfold fetchEnd in Ee. destruct err as [e0|]; [left; by injection Ee as _ <-|]. right. left. destruct (budgetExceeded a) eqn:Eb; [done|].
    unfold withBoundedInput in Ee. rewrite Eb in Ee. done.
  - apply fetchEnd_None in Ee as (-> & -> & Hb).
    pose proof (fun H => fetchOne_inv uid headerLimit _ _ _ _ (headersItem_inv uid headerLimit) H Ef) as K. destruct K as (header & Hc & Hr).
    { intros s0 H. bool_prop. done. }
    rewrite Hc. cbn [default]. destruct (selectedHeaderRecord _ _ _ _ _ _) as [r|e] eqn:Es; [|right; right; by exists header].
    split; [done|]. split; [done|]. unfold selectedHeaderRecord in Es. case_bool_decide as Ht; [|done].
    assert (Hrec : selectedHeaderRecord ReadMessage DecodeHeader ParseDate ((item s) <| fetchedUID := uid |>) header headerLimit = inl r)
      by (unfold selectedHeaderRecord; by rewrite bool_decide_eq_true_2).
    split; [|exists header; split; [done|]; split; [done|]; by exists ((item s) <| fetchedUID := uid |>)].
    pose proof (record_uid _ _ _ _ _ _ _ Hrec) as ->. by destruct (item s).
Qed.

(** ** Metadata of many messages *)

Definition metadata_inv (limit : Z) (message : list responseItem) (s : itemState) : Prop :=
  items_inv limit message s /\ (forall u, uid_items message = [u] -> fetchedUID (item s) = u)
  /\ (forall bytes, content s = Some bytes -> ReadMessage bytes <> None).

Lemma metadataItem_inv limit data s s' message :
  metadata_inv limit message s -> metadataItem ReadMessage DecodeHeader ParseDate limit data s = inl s' -> metadata_inv limit (message ++ [data]) s'.
Proof.
  intros (H1 & H2 & H3).
  assert (Hother : forall s', (forall u, data <> FetchUID u) -> (forall l b m, data <> FetchBodySection l b m) ->
    uidItems s' = uidItems s -> bodySections s' = bodySections s -> content s' = content s -> fetchedUID (item s') = fetchedUID (item s) ->
    metadata_inv limit (message ++ [data]) s').
  { intros t Ku Ks E1 E2 E3 E4. split; [by eapply items_inv_other|]. rewrite E3, E4. split; [|done]. intros u. rewrite uid_items_app.
    assert (K : uid_items [data] = []) by (destruct data; try done; by destruct (Ku uid)). rewrite K, app_nil_r. apply H2. }
  destruct data; cbn [metadataItem]; try (intros [= <-]; destruct s as [it ? ? ? ?]; destruct it; by apply Hother).
  - destruct (_ || _) eqn:E; [done|]. intros [= <-]. bool_prop. destruct s as [it ? ? ? ?], it. split; [by eapply items_inv_uid|]. split; [|exact H3].
    intros u. rewrite uid_items_app. destruct (uid_items message) as [|x [|]]; cbn; [by intros [= ->]|done|done].
  - destruct (negb _); [done|]. intros [= <-]. destruct s as [it ? ? ? ?], it. by apply Hother.
  - destruct (readSection _ _ _ _ _) as [header|] eqn:E; [|done]. destruct (ReadMessage header) as [[parsed b]|] eqn:Ep; [|done]. intros [= <-].
    split; [destruct s; by eapply items_inv_section|]. destruct s as [it ? ? ? ?], it. cbn. split.
    + intros u. rewrite uid_items_app. cbn. rewrite app_nil_r. apply H2.
    + intros bytes [= <-]. by rewrite Ep.
Qed.

(** A message that gave [m]. *)
Definition message_of (limit : Z) (message : list responseItem) (m : MessageMetadata) : Prop :=
  uid_items message = [fetchedUID m] /\ fetchedUID m <> 0
  /\ exists header, one_section limit message header /\ ReadMessage header <> None.

Lemma metadataLoop_inv limit messages results all :
  metadataLoop ReadMessage DecodeHeader ParseDate limit messages results = (all, None) ->
  exists more, all = results ++ more /\ Forall2 (message_of limit) messages more.
Proof.
  revert results. induction messages as [|message messages IH]; intros results; cbn [metadataLoop].
  { intros [= <-]. exists []. by rewrite app_nil_r. }
  destruct (itemsLoop _ _ _) as [s|] eqn:El; [|done]. destruct (_ || _) eqn:E; [done|]. bool_prop.
  intros (more & -> & Hm)%IH. exists (item s :: more). rewrite <- app_assoc. split; [done|]. constructor; [|done].
  apply (itemsLoop_inv (metadata_inv limit) _ message (noItems zeroMetadata) s [] (metadataItem_inv limit)) in El; [|by split_and!].
  cbn [app] in El. destruct El as ((K1 & K2 & K3) & K4 & K5). assert (Hu : exists u, uid_items message = [u]).
  { destruct (uid_items message) as [|u [|u' l]]; [by rewrite K1 in *|by exists u|]. rewrite !zlen_cons in K1. pose proof (zlen_nonneg l). lia. }
  destruct Hu as [u Hu]. split; [by rewrite (K4 u Hu)|]. split; [done|]. destruct (content s) as [header|]; [exists header; split; [done|by apply K5]|].
  rewrite K3 in K2. rewrite K2 in *. done.
Qed.

(** Fetched metadata are exactly the requested UIDs, once each.  Each
    message named one UID and carried one header section, the requested one,
    inside the limit and readable; no budget was exceeded and the command
    ended cleanly.  After any other answer the transport was aborted, or only
    the budget was exceeded. *)
Theorem fetch_metadata_exact a uids headerLimit (reply : fetchReply Structure) (Huids : uids <> []) (Hnz : 0 ∉ uids) (Hlimit : 1 <= headerLimit) :
  match UIDFetchMetadata ReadMessage DecodeHeader ParseDate a uids headerLimit reply with
  | (inl results, aborted) =>
      aborted = false /\ budgetExceeded a = false /\ closeErr reply = None
      /\ NoDup uids /\ map fetchedUID results ≡ₚ uids /\ Forall2 (message_of headerLimit) (fetched reply) results
  | (inr _, aborted) => aborted = true \/ budgetExceeded a = true
  end.
Proof.
  unfold UIDFetchMetadata. destruct uids as [|u0 uids0] eqn:Eu; [done|]. rewrite <- Eu in *. rewrite (proj2 (Z.ltb_ge _ _)) by lia.
  assert (Hz : existsb (Z.eqb 0) uids = false).
  { apply not_true_iff_false. intros (z & Hz & E%Z.eqb_eq)%existsb_exists. subst z. by apply list_elem_of_In in Hz. }
  rewrite Hz. destruct (metadataLoop _ _ _ _ _ _) as [results err] eqn:El.
  set (err1 := match err with Some e => Some e | None => _ end). destruct (fetchEnd a err1) as [err' aborted] eqn:Ee.
  destruct err' as [e|]; cbn [answer].
  - unfold fetchEnd in Ee. destruct err1 as [e0|]; [left; by injection Ee as _ <-|]. right. destruct (budgetExceeded a) eqn:Eb; [done|].
    unfold withBoundedInput in Ee. rewrite Eb in Ee. done.
  - apply fetchEnd_None in Ee as (He & -> & Hb). subst err1. destruct err; [done|]. destruct (closeErr reply); [done|].
    apply validateFetched_spec in He as [Hn Hp]. apply metadataLoop_inv in El as (more & -> & Hm). by split_and!.
Qed.
End Parsers.
End FetchSpec.

(** ** Search *)

(** The client decodes UIDs as uint32 ranges in order. *)
Definition decoded (reply : searchData + goerror) : Prop :=
  forall data ranges, reply = inl data -> All data = AllUIDs ranges -> wellformed ranges.

(** C34: a searched window's UIDs are distinct, inside the window and no more
    than asked for, and they are exactly what the client decoded; the observer
    saw nothing wrong on the wire, and the response answered this very
    command: a SEARCH line was seen, or an ESEARCH line that the client
    applied. *)
Theorem search_window_exact a window limit observed reply uids
  (Hwin : 0 <= Start window /\ End window < 2 ^ 32) (Hdec : decoded reply)
  (H : UIDSearchWindow a window limit observed reply = inl uids) :
  1 <= limit <= width window
  /\ observed = mkObservation false (oSearchSeen observed) (oESearchSeen observed) false false false
  /\ NoDup uids /\ Forall (in_window window) uids /\ zlen uids <= limit
  /\ exists data, reply = inl data
       /\ (All data = AllNil /\ uids = [] \/ exists ranges, All data = AllUIDs ranges /\ uids = expand ranges)
       /\ (oSearchSeen observed = true \/ oESearchSeen observed = true /\ eSearchAppliedToUIDSearch (Some data) = true).
Proof.
  unfold UIDSearchWindow in H. destruct (_ || _) eqn:El; [done|]. bool_prop.
  assert (Hw : width window < 2 ^ 32) by (unfold width in *; destruct (_ || _) eqn:E; [lia|]; bool_prop; lia).
  destruct (searchResult _ _ _ _) as [u|e] eqn:Es; [injection H as ->|destruct (withContext a (Some e)) eqn:E; [done|]; unfold withContext in E; by apply mapIMAPError_None in E].
  unfold searchResult in Es. destruct observed as [ox os oe od oi oo]; cbn [oExceeded oDuplicate oIncomplete oOutOfWindow oSearchSeen oESearchSeen] in *.
  destruct ox; [done|]. destruct reply as [data|]; [|done]. destruct od; [done|]. destruct oi; [done|]. destruct oo; [done|]. cbn [orb] in Es.
  destruct (negb os && _) eqn:Ea; [done|]. split; [lia|]. split; [done|].
  assert (Happ : os = true \/ oe = true /\ eSearchAppliedToUIDSearch (Some data) = true)
    by (destruct os; [by left|right]; cbn in Ea; bool_prop; done).
  assert (Hranges : forall ranges, All data = AllUIDs ranges -> boundedSearchUIDs (Some ranges) window limit = inl uids ->
     NoDup uids /\ Forall (in_window window) uids /\ zlen uids <= limit
     /\ exists d, inl data = @inl _ goerror d /\ (All d = AllNil /\ uids = []
          \/ exists ranges, All d = AllUIDs ranges /\ uids = expand ranges)
       /\ (os = true \/ oe = true /\ eSearchAppliedToUIDSearch (Some d) = true)).
  { intros ranges Hall Hb. assert (Hwf : wellformed ranges) by (by apply (Hdec data)).
    unfold boundedSearchUIDs in Hb. apply (boundedRanges_spec ranges window limit ∅ []) in Hb; [|done|lia|rewrite zlen_nil; lia|set_solver|constructor].
    destruct Hb as (-> & Hn & Hf & Hl). cbn [app] in *. split_and!; try done. exists data. split; [done|]. split; [|done]. right. by exists ranges. }
  destruct (All data) as [|ranges|] eqn:Eall.
  - destruct os; [done|]. cbn [negb] in Es. destruct (negb (Min data =? 0) || negb (Max data =? 0) || negb (Count data =? 0)); [done|]. cbn in Es. injection Es as <-.
    split_and!; [constructor|constructor|rewrite zlen_nil; lia|]. exists data. split; [done|]. split; [|done]. by left.
  - destruct os; cbn [negb] in Es; by eapply Hranges.
  - by destruct os.
Qed.

(** ** Concrete answers *)

Definition calm_around : around := mkAround live_ctx false.
Definition sampleLiteral (b : bytes) : option literal := Some (mkLiteral (zlen b) (inl b)).

Lemma fetch_body_exact_witness :
  let reply := mkReply (Structure := unit) [[FetchUID 7; FetchBodySection (sampleLiteral $"hi") true true]] None in
  7 <> 0 /\ 1 <= 10 /\ UIDFetchBody calm_around 7 10 reply = (inl $"hi", false) /\ reply_of 7 10 reply $"hi".
Proof.
  cbv zeta. set (reply := mkReply _ _). split; [lia|]. split; [lia|].
  assert (E : UIDFetchBody calm_around 7 10 reply = (inl $"hi", false)) by (vm_compute; reflexivity). split; [exact E|].
  pose proof (fetch_body_exact calm_around 7 10 reply ltac:(lia) ltac:(lia)) as K. rewrite E in K. exact (proj2 (proj2 K)).
Defined.

Lemma fetch_headers_exact_witness :
  let reply := mkReply (Structure := unit) [[FetchBodySection (sampleLiteral sampleHeader) true true; FetchUID 7; FetchSize 3]] None in
  7 <> 0 /\ 1 <= 1000 /\
  match UIDFetchHeaders sampleRead Some (fun _ => None) calm_around 7 1000 reply with
  | (inl r, aborted) => aborted = false /\ fetchedUID (mhMetadata r) = 7
  | (inr _, _) => False
  end.
Proof.
  cbv zeta. set (reply := mkReply _ _). split; [lia|]. split; [lia|].
  pose proof (fetch_headers_exact sampleRead Some (fun _ => None) calm_around 7 1000 reply ltac:(lia) ltac:(lia)) as K.
  destruct (UIDFetchHeaders _ _ _ _ _ _ _) as [[r|e] aborted] eqn:E; [by destruct K as (K1 & _ & K3 & _)|by vm_compute in E].
Defined.

Lemma fetch_metadata_exact_witness :
  let message u := [FetchUID u; FetchFlags [$"\Seen"]; FetchBodySection (sampleLiteral sampleHeader) true true] in
  let reply := mkReply (Structure := unit) [message 9; message 7] None in
  [7; 9] <> [] /\ 0 ∉ [7; 9] /\ 1 <= 1000 /\
  match UIDFetchMetadata sampleRead Some (fun _ => None) calm_around [7; 9] 1000 reply with
  | (inl results, aborted) => aborted = false /\ map fetchedUID results ≡ₚ [7; 9]
  | (inr _, _) => False
  end.
Proof.
  cbv zeta. set (reply := mkReply _ _). split; [done|]. assert (Hz : 0 ∉ [7; 9]) by set_solver. split; [exact Hz|]. split; [lia|].
  pose proof (fetch_metadata_exact sampleRead Some (fun _ => None) calm_around [7; 9] 1000 reply ltac:(done) Hz ltac:(lia)) as K.
  destruct (UIDFetchMetadata _ _ _ _ _ _ _) as [[results|e] aborted] eqn:E; [by destruct K as (K1 & _ & _ & _ & K5 & _)|by vm_compute in E].
Defined.

Lemma search_window_exact_witness :
  let window := mkWindow 5 9 in
  let observed := mkObservation false true false false false false in
  let reply : searchData + goerror := inl (mkSearchData (AllUIDs [(5, 6); (9, 9)]) 0 0 0) in
  UIDSearchWindow calm_around window 5 observed reply = inl [5; 6; 9] /\ NoDup [5; 6; 9] /\ Forall (in_window window) [5; 6; 9].
Proof.
  cbv zeta. set (window := mkWindow 5 9). set (observed := mkObservation _ _ _ _ _ _). set (reply := inl _).
  assert (E : UIDSearchWindow calm_around window 5 observed reply = inl [5; 6; 9]) by (vm_compute; reflexivity).
  assert (Hd : decoded reply).
  { intros data ranges H1 H2. subst reply. injection H1 as <-. injection H2 as <-. repeat constructor; lia. }
  pose proof (search_window_exact calm_around window 5 observed reply [5; 6; 9] ltac:(cbn; lia) Hd E) as (_ & _ & K1 & K2 & _).
  split; [exact E|]. split; [exact K1|exact K2].
Defined.
