(* ===== verification/AttachmentProjection.v ===== *)
(** * Attachment projection

    [bridge/attachment_projection.go]: the attachment list of a decoded extended
    BODYSTRUCTURE, in server order, with the selection and the limits of
    message normalization.  [mime.ParseMediaType] is a parameter. *)
From Stdlib Require Import ZArith Lia Strings.Byte.
From stdpp Require Import base list gmap strings sorting.
From S2P Require Import Prelude GoStrings GoText Errors Config Session Headers Mime.

(** A decoded BODYSTRUCTURE as the client gives it: a single part with its
    type, parameters, octets and disposition, a multipart with the parameters
    of its extension, a nil pointer of either, or another value. *)
Inductive bodyStructure :=
| singlePart (type subtype : bytes) (params : gmap bytes bytes) (size : Z) (disposition : option (bytes * gmap bytes bytes))
| multiPart (subtype : bytes) (extended : option (gmap bytes bytes)) (children : list bodyStructure)
    (disposition : option (bytes * gmap bytes bytes))
| nilPart
| otherPart.

Record AttachmentStructureEntry := mkEntry { metadata : AttachmentMetadata; HasTransferOctets : bool; TransferOctets : Z }.

Record projectedEntity := mkEntity {
  mediaType : bytes; parameters : gmap bytes bytes; disposition : bytes; dispositionParameters : gmap bytes bytes;
  children : list bodyStructure; hasTransferOctets : bool; transferOctets : Z }.

Record attachmentProjector := mkProjector { pParts : Z; pAttachments : list AttachmentStructureEntry; pTruncation : Truncation }.

#[export] Instance eta_projector : Eta attachmentProjector := fun p => mkProjector (pParts p) (pAttachments p) (pTruncation p).

Definition structureParameterToken (key : bytes) : bool :=
  match key with
  | [] => false
  | _ => forallb (fun c => (32 <? bZ c) && (bZ c <? 127) && negb (contains_byte c ($"()<>@,;:\" ++ [x22] ++ $"/[]?="))) key
  end.

(** The replacer of backslashes and quotes. *)
Fixpoint escapeQuoted (s : bytes) : bytes :=
  match s with
  | [] => []
  | c :: s' => if (c =b x5c) || (c =b x22) then x5c :: c :: escapeQuoted s' else c :: escapeQuoted s'
  end.

(** [slices.Sorted(maps.Keys(parameters))]. *)
Definition key_le (a b : bytes) : Prop := bytes_ltb b a = false.
#[export] Instance key_le_dec a b : Decision (key_le a b) := decide (bytes_ltb b a = false).
Definition sortedKeys (ps : gmap bytes bytes) : list bytes := merge_sort key_le (map fst (map_to_list ps)).

Definition parameterText (ps : gmap bytes bytes) (key : bytes) : bytes :=
  $"; " ++ key ++ $"=" ++ [x22] ++ escapeQuoted (default [] (ps !! key)) ++ [x22].

Section Projection.
Variable ParseMediaType : bytes -> option (bytes * gmap bytes bytes).

Definition malformed {A} : A + goerror := inr (normalizeError errorCodeMalformedMIME).

Definition parseStructureMediaType (base : bytes) (ps : gmap bytes bytes) : (bytes * gmap bytes bytes) + goerror :=
  if contains_byte ";"%byte base then malformed
  else if negb (forallb structureParameterToken (sortedKeys ps)) then malformed
  else match ParseMediaType (base ++ concat (map (parameterText ps) (sortedKeys ps))) with
       | Some r => inl r
       | None => malformed
       end.

(** The entity once its own type is known. *)
Definition entityOf (base : bytes) (ps : gmap bytes bytes) (value : option (bytes * gmap bytes bytes)) (cs : list bodyStructure)
    (octets : option Z) : projectedEntity + goerror :=
  need! (media, mediaParameters) := parseStructureMediaType base ps in
  match value with
  | None => inl (mkEntity media mediaParameters [] ∅ cs (match octets with Some _ => true | None => false end) (default 0 octets))
  | Some (disp, dispParams) =>
      need! (disp, dispParams) := parseStructureMediaType disp dispParams in
      inl (mkEntity media mediaParameters disp dispParams cs (match octets with Some _ => true | None => false end) (default 0 octets))
  end.

Definition structureEntity (structure : bodyStructure) : projectedEntity + goerror :=
  match structure with
  | singlePart type subtype params size value => entityOf (type ++ $"/" ++ subtype) params value [] (Some size)
  | multiPart subtype extended cs value => entityOf ($"multipart/" ++ subtype) (default ∅ extended) value cs None
  | nilPart | otherPart => malformed
  end.

(** [projector.appendAttachment]. *)
Definition listAttachment (limits : NormalizeLimits) (entity : projectedEntity) (filename : bytes) (p : attachmentProjector)
  : attachmentProjector :=
  if lMaxAttachmentCount limits <=? zlen (pAttachments p) then p <| pTruncation := (pTruncation p) <| tAttachments := true |> |>
  else
    let (filename, filenameTruncated) := truncateUTF8 filename (lMaxFilenameBytes limits) in
    let (contentType, contentTypeTruncated) := truncateUTF8 (mediaType entity) (lMaxContentTypeBytes limits) in
    let (disp, dispositionTruncated) := truncateUTF8 (disposition entity) (lMaxDispositionBytes limits) in
    let truncated := filenameTruncated || contentTypeTruncated || dispositionTruncated in
    let p := if truncated then p <| pTruncation := (pTruncation p) <| tAttachments := true |> |> else p in
    let size := parse_nonnegative (default [] (dispositionParameters entity !! $"size")) in
    p <| pAttachments := pAttachments p ++
           [mkEntry (mkAttachment filename contentType disp (default 0 size) (match size with Some _ => true | None => false end))
              (hasTransferOctets entity) (transferOctets entity)] |>.

Definition entityFilename (entity : projectedEntity) : bytes :=
  let filename := default [] (dispositionParameters entity !! $"filename") in
  if beqs filename [] then default [] (parameters entity !! $"name") else filename.

Definition qualified (entity : projectedEntity) : bool :=
  beqs (disposition entity) $"attachment" || negb (beqs (entityFilename entity) []).

Definition embeddedMessage (entity : projectedEntity) : bool :=
  beqs (mediaType entity) $"message/rfc822" || beqs (mediaType entity) $"message/global".

(** The loop over the children, with [visitChild] for each; [None] is no error. *)
Fixpoint childrenLoop (limits : NormalizeLimits) (visitChild : bodyStructure -> attachmentProjector -> attachmentProjector * option mimeError)
    (cs : list bodyStructure) (p : attachmentProjector) : attachmentProjector * option mimeError :=
  match cs with
  | [] => (p, None)
  | child :: rest =>
      if lMaxMIMEParts limits <=? pParts p then (p <| pTruncation := (pTruncation p) <| tMIMEParts := true |> |>, Some errMIMEPartsLimit)
      else
        match visitChild child (p <| pParts := pParts p + 1 |>) with
        | (p, Some err) => (p, Some err)
        | (p, None) => childrenLoop limits visitChild rest p
        end
  end.

(** [visit] at depth [MaxMIMEDepth + 1 - levels]. *)
Fixpoint visit (levels : nat) (limits : NormalizeLimits) (structure : bodyStructure) (p : attachmentProjector)
  : attachmentProjector * option mimeError :=
  match levels with
  | O => (p <| pTruncation := (pTruncation p) <| tMIMEDepth := true |> |>, None)
  | Datatypes.S levels =>
      match structureEntity structure with
      | inr err => (p, Some (mimeFailed err))
      | inl entity =>
          if qualified entity then (listAttachment limits entity (entityFilename entity) p, None)
          else
            match childrenLoop limits (fun child p => visit levels limits child p) (children entity) p with
            | (p, Some err) => (p, Some err)
            | (p, None) =>
                (if embeddedMessage entity then p <| pTruncation := (pTruncation p) <| tMIMEDepth := true |> |> else p, None)
            end
      end
  end.

(** [NormalizeLimits] with the two bounds of the adapter. *)
Definition projectionLimits (bounds : Bounds) : NormalizeLimits :=
  normalizedLimits (mkLimits 0 0 0 (MaxMimeParts bounds) 0 0 (MaxAttachmentCount bounds) 0 0 0 0 0 0).

Definition projectAttachmentStructure (structure : bodyStructure) (bounds : Bounds)
  : (list AttachmentStructureEntry * Truncation) + goerror :=
  let limits := projectionLimits bounds in
  let (p, err) := visit (Z.to_nat (lMaxMIMEDepth limits + 1)) limits structure (mkProjector 1 [] noTruncation) in
  match err with
  | Some (mimeFailed err) => inr err
  | _ => inl (pAttachments p, pTruncation p)
  end.

(** ** The unbounded enumeration *)

(** The entry of an attachment whose fields fit. *)
Definition entryOf (entity : projectedEntity) : AttachmentStructureEntry :=
  let size := parse_nonnegative (default [] (dispositionParameters entity !! $"size")) in
  mkEntry (mkAttachment (toValidUTF8 (entityFilename entity)) (toValidUTF8 (mediaType entity)) (toValidUTF8 (disposition entity))
             (default 0 size) (match size with Some _ => true | None => false end))
    (hasTransferOctets entity) (transferOctets entity).

(** The attachments of a list of structures, and whether an embedded message
    was left closed. *)
Fixpoint enumerateAll (f : bodyStructure -> option (list AttachmentStructureEntry * bool)) (cs : list bodyStructure)
  : option (list AttachmentStructureEntry * bool) :=
  match cs with
  | [] => Some ([], false)
  | child :: rest =>
      match f child, enumerateAll f rest with
      | Some (l, closed), Some (k, closed') => Some (l ++ k, closed || closed')
      | _, _ => None
      end
  end.

(** Every attachment of a structure in server order, without limits; [None]
    where some entity that is reached is malformed. *)
Fixpoint enumerate (structure : bodyStructure) : option (list AttachmentStructureEntry * bool) :=
  match structureEntity structure with
  | inr _ => None
  | inl entity =>
      if qualified entity then Some ([entryOf entity], false)
      else
        match (match structure with multiPart _ _ cs _ => enumerateAll enumerate cs | _ => Some ([], false) end) with
        | Some (l, closed) => Some (l, closed || embeddedMessage entity)
        | None => None
        end
  end.
End Projection.
