(* ===== verification/AttachmentProjectionSpec.v ===== *)
(** * What attachment projection guarantees

    The projected list stays within its limits, and a list without a
    truncation flag is the unbounded enumeration of the structure. *)
From Stdlib Require Import ZArith Lia Strings.Byte.
From stdpp Require Import base list gmap strings sorting.
From S2P Require Import Prelude GoStrings GoText Errors Config Session Headers Mime MimeSpec AttachmentProjection.

Section ProjectionSpec.
Variable ParseMediaType : bytes -> option (bytes * gmap bytes bytes).
Variable limits : NormalizeLimits.

#[local] Abbreviation visit := (visit ParseMediaType).
#[local] Abbreviation enumerate := (enumerate ParseMediaType).

(** The list so far is within the limits. *)
Definition projector_ok (p : attachmentProjector) : Prop :=
  1 <= pParts p <= lMaxMIMEParts limits /\ zlen (pAttachments p) <= lMaxAttachmentCount limits
  /\ Forall (fun e => attachment_ok limits (metadata e)) (pAttachments p).

Definition projection_limits_ok : Prop :=
  0 <= lMaxFilenameBytes limits /\ 0 <= lMaxContentTypeBytes limits /\ 0 <= lMaxDispositionBytes limits.
Hypothesis Hlimits : projection_limits_ok.

(** A flag that is set stays set. *)
Definition unflagged (p : attachmentProjector) : Prop := pTruncation p = noTruncation.

Lemma truncate_unflagged value limit text : truncateUTF8 value limit = (text, false) -> text = toValidUTF8 value.
Proof. unfold truncateUTF8. destruct (_ <=? _); congruence. Qed.

Lemma flagged (p : attachmentProjector) (f : Truncation -> Truncation) :
  (forall t, f t <> noTruncation) -> unflagged (p <| pTruncation := f (pTruncation p) |>) -> False.
Proof. intros Hf H. by apply (Hf (pTruncation p)). Qed.

Lemma listAttachment_ok entity p : projector_ok p -> projector_ok (listAttachment limits entity (entityFilename entity) p).
Proof.
  intros (H1 & H2 & H3). unfold listAttachment. destruct (_ <=? _) eqn:E; [done|]. bool_prop. destruct Hlimits as (Lf & Lc & Ld).
  pose proof (truncate_text (entityFilename entity) _ Lf) as Kf. pose proof (truncate_text (mediaType entity) _ Lc) as Kc.
  pose proof (truncate_text (disposition entity) _ Ld) as Kd.
  destruct (truncateUTF8 (entityFilename entity) _) as [f ft], (truncateUTF8 (mediaType entity) _) as [ct ctt], (truncateUTF8 (disposition entity) _) as [d dt].
  cbn [fst] in *. set (entry := mkEntry _ _ _).
  assert (Ha : attachment_ok limits (metadata entry)).
  { split; [exact Kf|]. split; [exact Kc|]. split; [exact Kd|]. cbn. destruct (parse_nonnegative _) eqn:Ep; [by apply parse_nonnegative_range in Ep|cbn; lia]. }
  assert (Hz : zlen (pAttachments p ++ [entry]) <= lMaxAttachmentCount limits) by (rewrite zlen_snoc; lia).
  assert (Hf : Forall (fun e => attachment_ok limits (metadata e)) (pAttachments p ++ [entry])) by (apply Forall_app; by split; [|constructor]).
  destruct (_ || _); (split; [exact H1|by split]).
Qed.

Lemma listAttachment_exact entity p : unflagged (listAttachment limits entity (entityFilename entity) p) ->
  unflagged p /\ pAttachments (listAttachment limits entity (entityFilename entity) p) = pAttachments p ++ [entryOf entity].
Proof.
  unfold listAttachment. destruct (_ <=? _); [intros []%flagged; by intros []|].
  destruct (truncateUTF8 (entityFilename entity) _) as [f ft] eqn:Ef, (truncateUTF8 (mediaType entity) _) as [ct ctt] eqn:Ec,
    (truncateUTF8 (disposition entity) _) as [d dt] eqn:Ed.
  destruct ft, ctt, dt; cbn [orb]; try (intros H; exfalso; by destruct p as [? ? []]).
  apply truncate_unflagged in Ef as ->, Ec as ->, Ed as ->. done.
Qed.

Lemma childrenLoop_inv (f : bodyStructure -> attachmentProjector -> attachmentProjector * option mimeError) cs p :
  (forall c p, projector_ok p -> projector_ok (fst (f c p)) /\ stable_error (snd (f c p))) -> projector_ok p ->
  projector_ok (fst (childrenLoop limits f cs p)) /\ stable_error (snd (childrenLoop limits f cs p)).
Proof.
  intros Hf. revert p. induction cs as [|c cs IH]; intros p Hp; cbn [childrenLoop]; [done|].
  destruct (_ <=? _) eqn:E; [done|]. bool_prop.
  assert (Hp' : projector_ok (p <| pParts := pParts p + 1 |>)) by (destruct p, Hp as (H1 & H2 & H3); cbn in *; split; [cbn; lia|done]).
  destruct (Hf c _ Hp') as [K1 K2]. destruct (f c _) as [p' [e|]]; [done|]. by apply IH.
Qed.

Lemma visit_inv levels structure p : projector_ok p ->
  projector_ok (fst (visit levels limits structure p)) /\ stable_error (snd (visit levels limits structure p)).
Proof.
  revert structure p. induction levels as [|levels IH]; intros structure p Hp; cbn [AttachmentProjection.visit]; [done|].
  destruct (structureEntity _ structure) as [entity|e] eqn:Ee.
  - destruct (qualified entity); [split; [by apply listAttachment_ok|done]|].
    pose proof (childrenLoop_inv (fun child p => visit levels limits child p) (children entity) p (fun c p => IH c p) Hp) as [K1 K2].
    destruct (childrenLoop _ _ _ _) as [p' [e|]]; [done|]. cbn [fst snd] in *. destruct (embeddedMessage entity); done.
  - split; [done|]. intros err [= <-]. exists errorCodeMalformedMIME. split; [by vm_compute; set_solver|].
    assert (K : forall b ps r, parseStructureMediaType ParseMediaType b ps = inr r -> r = normalizeError errorCodeMalformedMIME).
    { intros b ps r. unfold parseStructureMediaType. destruct (contains_byte _ _); [by intros [= <-]|]. destruct (negb _); [by intros [= <-]|].
      destruct (ParseMediaType _); [done|]. by intros [= <-]. }
    assert (K2 : forall b ps v cs o r, entityOf ParseMediaType b ps v cs o = inr r -> r = normalizeError errorCodeMalformedMIME).
    { intros b ps v cs o r. unfold entityOf. destruct (parseStructureMediaType _ b ps) as [[? ?]|e1] eqn:E1; [|intros [= <-]; by eapply K].
      destruct v as [[d dp]|]; [|done]. destruct (parseStructureMediaType _ d dp) as [[? ?]|e2] eqn:E2; [done|intros [= <-]; by eapply K]. }
    destruct structure; cbn in Ee; try (by eapply K2); by injection Ee as <-.
Qed.

(** The children of an entity are those of its structure. *)
Lemma entity_children structure entity : structureEntity ParseMediaType structure = inl entity ->
  children entity = match structure with multiPart _ _ cs _ => cs | _ => [] end.
Proof.
  assert (K : forall b ps v cs o r, entityOf ParseMediaType b ps v cs o = inl r -> children r = cs).
  { intros b ps v cs o r. unfold entityOf. destruct (parseStructureMediaType _ b ps) as [[? ?]|]; [|done].
    destruct v as [[d dp]|]; [|by intros [= <-]]. destruct (parseStructureMediaType _ d dp) as [[? ?]|]; [by intros [= <-]|done]. }
  destruct structure; cbn; try done; apply K.
Qed.

Lemma enumerate_unfold structure entity : structureEntity ParseMediaType structure = inl entity ->
  enumerate structure = if qualified entity then Some ([entryOf entity], false)
    else match enumerateAll enumerate (children entity) with
         | Some (l, closed) => Some (l, closed || embeddedMessage entity) | None => None end.
Proof.
  intros He. rewrite (entity_children _ _ He). destruct structure; cbn [AttachmentProjection.enumerate]; rewrite He; done.
Qed.

(** An unflagged visit lists exactly what the enumeration does. *)
Definition lists (structure : bodyStructure) (p p' : attachmentProjector) : Prop :=
  unflagged p /\ exists l, enumerate structure = Some (l, false) /\ pAttachments p' = pAttachments p ++ l.

Lemma childrenLoop_exact (f : bodyStructure -> attachmentProjector -> attachmentProjector * option mimeError) cs p p' err :
  (forall c p p' err, f c p = (p', err) -> unflagged p' -> (forall e, err <> Some (mimeFailed e)) -> err = None /\ lists c p p') ->
  childrenLoop limits f cs p = (p', err) -> unflagged p' -> (forall e, err <> Some (mimeFailed e)) ->
  err = None /\ unflagged p /\ exists l, enumerateAll enumerate cs = Some (l, false) /\ pAttachments p' = pAttachments p ++ l.
Proof.
  intros Hf. revert p. induction cs as [|c cs IH]; intros p; cbn [childrenLoop enumerateAll].
  { intros [= <- <-] Hu _. split; [done|]. split; [done|]. exists []. by rewrite app_nil_r. }
  destruct (_ <=? _); [intros [= <- <-] []%flagged; by intros []|].
  destruct (f c _) as [p1 [e|]] eqn:E.
  - intros [= <- <-] Hu Hne. apply Hf in E as [? _]; done.
  - intros Hl Hu Hne. destruct (IH p1 Hl Hu Hne) as (-> & Hu1 & k & Hk & Hp'). apply Hf in E as [_ [Hu0 (l & Hl' & Hp1)]]; [|done|done].
    split; [done|]. destruct p as [np at0 tr]. split; [exact Hu0|]. exists (l ++ k). rewrite Hl', Hk. split; [done|]. rewrite Hp', Hp1. cbn. by rewrite app_assoc.
Qed.

Lemma visit_exact levels structure p p' err : visit levels limits structure p = (p', err) -> unflagged p' ->
  (forall e, err <> Some (mimeFailed e)) -> err = None /\ lists structure p p'.
Proof.
  revert structure p p' err. induction levels as [|levels IH]; intros structure p p' err; cbn [AttachmentProjection.visit].
  { intros [= <- <-] []%flagged; by intros []. }
  destruct (structureEntity _ structure) as [entity|e] eqn:Ee; [|intros [= <- <-] _ Hne; by destruct (Hne e)].
  unfold lists. rewrite (enumerate_unfold _ _ Ee). destruct (qualified entity).
  - intros [= <- <-] Hu _. split; [done|]. destruct (listAttachment_exact _ _ Hu) as [H1 H2]. split; [done|]. by exists [entryOf entity].
  - destruct (childrenLoop _ _ _ _) as [p1 e1] eqn:El.
    assert (Hloop : unflagged p1 -> (forall e, e1 <> Some (mimeFailed e)) ->
      e1 = None /\ unflagged p /\ exists l, enumerateAll enumerate (children entity) = Some (l, false) /\ pAttachments p1 = pAttachments p ++ l)
      by (intros Hu Hne; by eapply childrenLoop_exact).
    destruct e1 as [e1|]; [intros [= <- <-] Hu Hne; destruct (Hloop Hu Hne) as [? _]; done|].
    destruct (embeddedMessage entity) eqn:Em; [intros [= <- <-] []%flagged; by intros []|]. intros [= <- <-] Hu Hne.
    destruct (Hloop Hu ltac:(done)) as (_ & Hu0 & l & Hl & Hp). split; [done|]. split; [done|]. exists l. by rewrite Hl.
Qed.
End ProjectionSpec.

