(* ===== verification/Dial.v ===== *)
(** * Dialing and the plaintext STARTTLS dialogue

    [bridge/dial.go].  The plaintext dialogue is a function of the bytes the
    server sends before TLS.  Sockets and TLS handshakes are parameters: what
    they return is an argument. *)
From Stdlib Require Import ZArith Lia Strings.Byte.
From stdpp Require Import base list strings.
From S2P Require Import Prelude GoStrings GoText Errors Config.

Definition maxStartTLSGreetingBytes : Z := 4 * 1024.
Definition maxStartTLSResponseBytes : Z := 16 * 1024.
Definition maxStartTLSResponseCount : Z := 32.
Definition maxStartTLSLineBytes : Z := 4 * 1024.

(** The errors of the dialogue; one of the transport or of TLS carries its
    text and what [errors.Is] and the type test of [connectionError] see. *)
Inductive dialError :=
| errStartTLSInputLimit
| errStartTLSProtocol
| errCommandRejected
| errTransport (text : bytes) (canceled recordHeader : bool).

#[export] Instance dialError_eq_dec : EqDecision dialError. Proof. solve_decision. Defined.

Definition errorText (err : dialError) : bytes :=
  match err with
  | errStartTLSInputLimit => $"STARTTLS input limit exceeded"
  | errStartTLSProtocol => $"invalid STARTTLS plaintext response"
  | errCommandRejected => $"IMAP command rejected"
  | errTransport text _ _ => text
  end.

(** [ended] is [ctx.Err() != nil] when the function looks. *)
Definition connectionError (ended : bool) (err : dialError) : goerror :=
  if ended then errorCode CodeBridgeUnreachable
  else if match err with errTransport _ canceled _ => canceled | _ => false end then errorCode CodeBridgeUnreachable
  else if contains_sub (errorText err) (code_text CodeTLSMismatch) then errorCode CodeTLSMismatch
  else if match err with errTransport _ _ recordHeader => recordHeader | _ => false end then errorCode CodeBridgeUnreachable
  else if contains_sub (errorText err) $"certificate" || contains_sub (errorText err) $"tls:" then errorCode CodeTLSMismatch
  else errorCode CodeBridgeUnreachable.

(** ** Lines *)

(** The bytes the server sends in plaintext and the error that follows them. *)
Record plaintext := mkPlaintext { wire : bytes; failure : dialError }.

(** One line without its CRLF, its raw length and what is left. *)
Definition readStartTLSLine (source : plaintext) (limit : Z) : (bytes * Z * plaintext) + dialError :=
  match readSlice (Z.to_nat (maxStartTLSLineBytes + 1)) (wire source) with
  | sliceFull _ _ => inr errStartTLSInputLimit
  | sliceEnd _ => inr (failure source)
  | sliceLine line rest =>
      if limit <? zlen line then inr errStartTLSInputLimit
      else if negb (has_suffix line [x0d; x0a]) then inr errStartTLSProtocol
      else
        let content := take (length line - 2) line in
        if existsb (fun value => (bZ value =? 0) || (value =b x0d) || (value =b x0a) || (127 <? bZ value)) content
        then inr errStartTLSProtocol
        else inl (content, zlen line, mkPlaintext rest (failure source))
  end.

Record startTLSResponseBudget := mkResponseBudget { budgetBytes : Z; budgetCount : Z }.

Definition add (budget : startTLSResponseBudget) (rawBytes : Z) : startTLSResponseBudget + dialError :=
  let budget := mkResponseBudget (budgetBytes budget + rawBytes) (budgetCount budget + 1) in
  if (maxStartTLSResponseCount <? budgetCount budget) || (maxStartTLSResponseBytes <? budgetBytes budget)
  then inr errStartTLSInputLimit else inl budget.

Definition validIMAPAtom (atom : bytes) : bool :=
  if beqs atom [] then false
  else forallb (fun value => (33 <=? bZ value) && (bZ value <=? 126) && negb (contains_byte value ($"(){%*" ++ [x22; x5c] ++ $"]"))) atom.

Definition validStartTLSGreeting (line : bytes) : bool :=
  match line with
  | a :: b :: c :: d :: e :: responseText =>
      if negb ((a =b "*"%byte) && (b =b " "%byte) && equal_fold [c; d] $"OK" && (e =b " "%byte)) then false
      else
        match responseText with
        | "["%byte :: _ =>
            match index_byte "]"%byte responseText with
            | None => false
            | Some closing =>
                if (closing <? 2)%nat then false
                else match responseText !! S closing with
                | Some " "%byte =>
                    let code := drop 1 (take closing responseText) in
                    match index_byte " "%byte code with
                    | Some separator =>
                        if (separator =? length code - 1)%nat then false else validIMAPAtom (take separator code)
                    | None => validIMAPAtom code
                    end
                | _ => false
                end
            end
        | _ => true
        end
  | _ => false
  end.

Definition capabilityHasStartTLS (line : bytes) : bool :=
  match fields line with
  | star :: name :: capabilities =>
      negb (bool_decide (capabilities = [])) && beqs star $"*" && equal_fold name $"CAPABILITY"
      && existsb (fun capability => equal_fold capability $"STARTTLS") capabilities
  | _ => false
  end.

(** ** Commands *)

(** The loop of [imapCommand]: whether STARTTLS was offered by the time the
    tagged response arrived.  [None] when [fuel] lines were not enough. *)
Fixpoint commandLoop (fuel : nat) (tag : bytes) (source : plaintext) (budget : startTLSResponseBudget) (hasStartTLS : bool)
  : option ((bool * plaintext * startTLSResponseBudget) + dialError) :=
  match fuel with
  | O => None
  | Datatypes.S fuel =>
      match readStartTLSLine source maxStartTLSLineBytes with
      | inr err => Some (inr err)
      | inl (line, rawBytes, source) =>
          match add budget rawBytes with
          | inr err => Some (inr err)
          | inl budget =>
              let hasStartTLS := capabilityHasStartTLS line || hasStartTLS in
              if negb (has_prefix line (tag ++ $" ")) then commandLoop fuel tag source budget hasStartTLS
              else if negb (has_prefix line (tag ++ $" OK ")) && negb (beqs line (tag ++ $" OK")) then Some (inr errCommandRejected)
              else Some (inl (hasStartTLS, source, budget))
          end
      end
  end.

Definition commandLine (tag command : bytes) : bytes := tag ++ $" " ++ command ++ [x0d; x0a].

(** [written] is the error of the flush, if it failed; the budget bounds the
    loop. *)
Definition imapCommand (source : plaintext) (written : option dialError) (budget : startTLSResponseBudget) (tag : bytes)
  : option ((bool * plaintext * startTLSResponseBudget) + dialError) :=
  match written with
  | Some err => Some (inr err)
  | None => commandLoop (Z.to_nat (maxStartTLSResponseCount + 1 - budgetCount budget)) tag source budget false
  end.

(** ** Establishing the connection *)

Record Connection := mkConnection { connection : bool; startTLS : bool }.

(** [takeConn]: whether the transport is STARTTLS, and the connection left inert. *)
Definition takeConn (c : option Connection) : (bool * option Connection) + goerror :=
  match c with
  | Some (mkConnection true startTLS) => inl (startTLS, Some (mkConnection false startTLS))
  | _ => inr (errorCode CodeAdapterClosed)
  end.

(** The world of one dial: what the writes and the handshake return, and
    [ctx.Err() != nil] at each look. *)
Record dialWorld := mkDialWorld {
  connected : plaintext + dialError; connectEnded : bool;
  greetingEnded : bool; capabilityWrite : option dialError; capabilityEnded : bool;
  startTLSWrite : option dialError; startTLSEnded : bool;
  handshake : option dialError; handshakeEnded : bool; finallyEnded : bool }.

(** The result and the plaintext sent; a failure has closed the transport. *)
Definition establishStartTLS (w : dialWorld) (source : plaintext) : option ((Connection + goerror) * bytes) :=
  match readStartTLSLine source maxStartTLSGreetingBytes with
  | inr err =>
      Some (inr (if greetingEnded w then connectionError true err
                 else if bool_decide (err = errStartTLSProtocol) then errorCode CodeTLSNegotiation
                 else connectionError false err), [])
  | inl (greeting, _, source) =>
      if negb (validStartTLSGreeting greeting) then Some (inr (errorCode CodeTLSNegotiation), [])
      else
        let sent := match capabilityWrite w with Some _ => [] | None => commandLine $"a001" $"CAPABILITY" end in
        match imapCommand source (capabilityWrite w) (mkResponseBudget 0 0) $"a001" with
        | None => None
        | Some (inr err) => Some (inr (if capabilityEnded w then connectionError true err else errorCode CodeTLSNegotiation), sent)
        | Some (inl (false, _, _)) => Some (inr (errorCode CodeTLSNegotiation), sent)
        | Some (inl (true, source, budget)) =>
            let sent := sent ++ match startTLSWrite w with Some _ => [] | None => commandLine $"a002" $"STARTTLS" end in
            match imapCommand source (startTLSWrite w) budget $"a002" with
            | None => None
            | Some (inr err) => Some (inr (if startTLSEnded w then connectionError true err else errorCode CodeTLSNegotiation), sent)
            | Some (inl _) =>
                match handshake w with
                | Some err => Some (inr (connectionError (handshakeEnded w) err), sent)
                | None =>
                    if finallyEnded w then Some (inr (errorCode CodeBridgeUnreachable), sent)
                    else Some (inl (mkConnection true true), sent)
                end
            end
        end
  end.

Definition establishImplicitTLS (w : dialWorld) : Connection + goerror :=
  match handshake w with
  | Some err => inr (connectionError (handshakeEnded w) err)
  | None => inl (mkConnection true false)
  end.

Section Dial.
Variable ParseAddr : bytes -> option addr.
Variable credentialProcessTreeKillSupported : bool.
Variable loadTrustAnchor : bytes -> certificate + goerror.

(** [Dial]; the second result is the plaintext sent. *)
Definition Dial (w : dialWorld) (input : Config) : option ((Connection + goerror) * bytes) :=
  match ValidateConfig ParseAddr credentialProcessTreeKillSupported input with
  | inr err => Some (inr err, [])
  | inl config =>
      match ParseLoopbackEndpoint ParseAddr (Host (vIMAP config)) (Port (vIMAP config)) with
      | inr err => Some (inr err, [])
      | inl _ =>
          match newTLSVerifier loadTrustAnchor (TLS (vIMAP config)) with
          | inr err => Some (inr err, [])
          | inl _ =>
              match connected w with
              | inr err => Some (inr (connectionError (connectEnded w) err), [])
              | inl source =>
                  if beqs (TLSMode (vIMAP config)) $"implicit" then Some (establishImplicitTLS w, [])
                  else establishStartTLS w source
              end
          end
      end
  end.
End Dial.
