(* ===== verification/DialSpec.v ===== *)
(** * What the STARTTLS dialogue guarantees

    The accepted dialogues are exactly those of a reference grammar of lines;
    nothing but the two commands is ever sent in plaintext. *)
From Stdlib Require Import ZArith Lia Strings.Byte.
From stdpp Require Import base list strings.
From S2P Require Import Prelude GoStrings GoText Errors Config Dial.

(** ** The reference dialogue *)

(** A line of the dialogue: ASCII without NUL, CR or LF. *)
Definition plain_line (text : bytes) : Prop := Forall (fun b => 1 <= bZ b <= 127 /\ b <> x0d /\ b <> x0a) text.
Definition raw_line (text : bytes) : bytes := text ++ [x0d; x0a].
Definition raw_lines (lines : list bytes) : bytes := concat (map raw_line lines).

(** Lines that answer the command [tag]: only the last is tagged, and it is OK. *)
Definition answers (tag : bytes) (lines : list bytes) : Prop :=
  exists before last, lines = before ++ [last]
    /\ Forall (fun l => has_prefix l (tag ++ $" ") = false) before
    /\ (last = tag ++ $" OK" \/ has_prefix last (tag ++ $" OK ") = true).

Definition line_ok (text : bytes) : Prop := plain_line text /\ zlen (raw_line text) <= maxStartTLSLineBytes.

(** ** Lines *)

Lemma readStartTLSLine_exact source limit content n source' : limit <= maxStartTLSLineBytes ->
  readStartTLSLine source limit = inl (content, n, source') <->
  plain_line content /\ n = zlen (raw_line content) /\ n <= limit /\ wire source = raw_line content ++ wire source' /\ failure source' = failure source.
Proof.
  intros Hlimit. unfold readStartTLSLine, raw_line. split.
  - destruct (readSlice _ _) as [line rest|?|?] eqn:E; [|done|done].
    destruct (limit <? zlen line) eqn:El; [done|]. destruct (negb (has_suffix line _)) eqn:Es; [done|].
    destruct (existsb _ _) eqn:Ex; [done|]. intros H. injection H as <- <- <-.
    apply negb_false_iff, has_suffix_spec in Es as [r ->]. bool_prop.
    assert (Et : take (length (r ++ [x0d; x0a]) - 2) (r ++ [x0d; x0a]) = r).
    { rewrite length_app. cbn [length]. replace (length r + 2 - 2)%nat with (length r) by lia. by rewrite take_app_length. }
    rewrite Et in *. apply readSlice_rest in E as [E _]. cbn [wire failure]. repeat split; [|done|done].
    apply Forall_forall. intros b Hb. rewrite <- not_true_iff_false, existsb_exists in Ex.
    pose proof (bZ_range b). destruct (decide (b = x0d)) as [->|]; [destruct Ex; exists x0d; by rewrite list_elem_of_In in Hb|].
    destruct (decide (b = x0a)) as [->|]; [destruct Ex; exists x0a; by rewrite list_elem_of_In in Hb|].
    repeat split; [| |done|done]; (apply Z.nlt_ge; intros Hlt; apply Ex; exists b; rewrite list_elem_of_In in Hb; split; [done|]).
    + assert (bZ b =? 0 = true) as -> by (apply Z.eqb_eq; lia). done.
    + assert (127 <? bZ b = true) as -> by (apply Z.ltb_lt; lia). by rewrite !orb_true_r.
  - intros (Hp & -> & Hn & Hw & Hf).
    assert (Hl : readSlice (Z.to_nat (maxStartTLSLineBytes + 1)) (wire source) = sliceLine (content ++ [x0d; x0a]) (wire source')).
    { apply readSlice_line. exists (content ++ [x0d]). rewrite Hw, <- !app_assoc. repeat split.
      - rewrite in_app_iff. intros [Hi|[?|[]]]; [|done]. rewrite <- list_elem_of_In in Hi. unfold plain_line in Hp; rewrite Forall_forall in Hp. by destruct (Hp _ Hi) as (_ & _ & ?).
      - unfold zlen in Hn. lia. }
    rewrite Hl. assert (limit <? zlen (content ++ [x0d; x0a]) = false) as -> by (apply Z.ltb_ge; lia).
    assert (has_suffix (content ++ [x0d; x0a]) [x0d; x0a] = true) as -> by (apply has_suffix_spec; by exists content).
    assert (Et : take (length (content ++ [x0d; x0a]) - 2) (content ++ [x0d; x0a]) = content).
    { rewrite length_app. cbn [length]. replace (length content + 2 - 2)%nat with (length content) by lia. by rewrite take_app_length. }
    rewrite Et. cbn [negb].
    assert (existsb (fun value => (bZ value =? 0) || (value =b x0d) || (value =b x0a) || (127 <? bZ value)) content = false) as ->.
    { apply not_true_iff_false. rewrite existsb_exists. intros (b & Hb & Hx). rewrite <- list_elem_of_In in Hb. unfold plain_line in Hp; rewrite Forall_forall in Hp.
      destruct (Hp _ Hb) as (Hr & H1 & H2). apply beq_neq in H1 as K1, H2 as K2. rewrite K1, K2 in Hx.
      rewrite !orb_false_r in Hx. apply orb_true_iff in Hx as [Hx|Hx]; [apply Z.eqb_eq in Hx|apply Z.ltb_lt in Hx]; lia. }
    destruct source, source'. cbn in *. by subst.
Qed.

(** ** Commands *)

Definition budget_after (budget : startTLSResponseBudget) (lines : list bytes) : startTLSResponseBudget :=
  mkResponseBudget (budgetBytes budget + zlen (raw_lines lines)) (budgetCount budget + zlen lines).

Definition budget_ok (budget : startTLSResponseBudget) : Prop :=
  budgetCount budget <= maxStartTLSResponseCount /\ budgetBytes budget <= maxStartTLSResponseBytes.

Lemma add_exact budget n budget' : add budget n = inl budget' <-> budget' = mkResponseBudget (budgetBytes budget + n) (budgetCount budget + 1) /\ budget_ok budget'.
Proof.
  unfold add, budget_ok. cbn [budgetCount budgetBytes]. destruct (_ || _) eqn:E.
  - split; [done|]. intros [-> [H1 H2]]. cbn [budgetCount budgetBytes] in *. apply orb_true_iff in E as [E|E]; apply Z.ltb_lt in E; lia.
  - apply orb_false_iff in E as [E1%Z.ltb_ge E2%Z.ltb_ge]. split; [intros H'; injection H' as <-; done|intros [-> _]; done].
Qed.

Lemma tagged_ok tag last : last = tag ++ $" OK" \/ has_prefix last (tag ++ $" OK ") = true ->
  has_prefix last (tag ++ $" ") = true /\ negb (has_prefix last (tag ++ $" OK ")) && negb (beqs last (tag ++ $" OK")) = false.
Proof.
  intros [->|H].
  - split; [|by rewrite beqs_refl, andb_false_r]. apply has_prefix_spec. exists $"OK". by rewrite <- app_assoc.
  - rewrite H. split; [|done]. apply has_prefix_spec in H as [r ->]. apply has_prefix_spec. exists ($"OK " ++ r). by rewrite <- !app_assoc.
Qed.

(** What a command that is answered consumed. *)
Definition dialogue (tag : bytes) (source : plaintext) (budget : startTLSResponseBudget) (lines : list bytes)
  (source' : plaintext) (budget' : startTLSResponseBudget) : Prop :=
  answers tag lines /\ Forall line_ok lines /\ wire source = raw_lines lines ++ wire source' /\ failure source' = failure source
  /\ budget' = budget_after budget lines /\ budget_ok budget'.

Lemma commandLoop_sound fuel tag source budget has has' source' budget' :
  commandLoop fuel tag source budget has = Some (inl (has', source', budget')) ->
  exists lines, dialogue tag source budget lines source' budget' /\ has' = existsb capabilityHasStartTLS lines || has.
Proof.
  revert source budget has. induction fuel as [|fuel IH]; intros source budget has; cbn [commandLoop]; [done|].
  destruct (readStartTLSLine _ _) as [[[line n] s1]|] eqn:Er; [|done].
  apply readStartTLSLine_exact in Er as (Hp & Hn & Hl & Hw & Hf); [|done].
  destruct (add _ _) as [b1|] eqn:Ea; [|done]. apply add_exact in Ea as [Hb1 Hbo].
  destruct (has_prefix line _) eqn:Et; cbn [negb].
  - destruct (_ && _) eqn:Eo; [done|]. intros H. injection H as <- <- <-. exists [line]. split.
    + split; [exists [], line; split; [done|]; split; [constructor|]|].
      * destruct (has_prefix line (tag ++ $" OK ")); [by right|left; apply beqs_eq; by destruct (beqs line _)].
      * split; [constructor; [split; [done|lia]|constructor]|]. unfold raw_lines. cbn. rewrite app_nil_r. repeat split; try done; try apply Hbo.
        subst b1 n. unfold budget_after, raw_lines. cbn [map concat]. by rewrite app_nil_r.
    + cbn. by rewrite orb_false_r.
  - intros (lines & (Ha & Hls & Hw' & Hf' & Hb' & Hbo') & ->)%IH. exists (line :: lines). split.
    + split; [destruct Ha as (before & last & -> & Hbe & Hla); exists (line :: before), last; split; [done|]; split; [by constructor|done]|].
      split; [constructor; [split; [done|lia]|done]|]. unfold raw_lines in *. cbn [map concat]. rewrite Hw, Hw', <- app_assoc.
      split; [done|]. split; [congruence|]. split; [|done]. subst budget' b1 n. unfold budget_after, raw_lines. cbn [map concat budgetBytes budgetCount].
      rewrite zlen_app, zlen_cons. f_equal; lia.
    + cbn. destruct (capabilityHasStartTLS line); by rewrite ?orb_true_r.
Qed.

Lemma budget_prefix b l k : budget_ok (budget_after b (l ++ k)) -> budget_ok (budget_after b l) /\ budget_ok (budget_after (budget_after b l) k).
Proof.
  unfold budget_ok, budget_after, raw_lines. cbn. rewrite map_app, concat_app, !zlen_app.
  pose proof (zlen_nonneg k). pose proof (zlen_nonneg (concat (map raw_line k))). lia.
Qed.

Lemma commandLoop_complete fuel tag source budget has lines source' budget' :
  dialogue tag source budget lines source' budget' -> (length lines <= fuel)%nat ->
  commandLoop fuel tag source budget has = Some (inl (existsb capabilityHasStartTLS lines || has, source', budget')).
Proof.
  intros ((before & last & -> & Hb & Hla) & Hls & Hw & Hf & -> & Hbo). rewrite length_app. cbn [length].
  revert source budget has fuel Hw Hf Hbo. induction before as [|line before IH]; intros source budget has fuel Hw Hf Hbo Hfuel.
  all: destruct fuel as [|fuel]; [cbn in Hfuel; lia|]; cbn [commandLoop app] in *.
  - apply Forall_cons in Hls as [[Hp Hl] _]. unfold raw_lines in Hw. cbn in Hw. rewrite app_nil_r in Hw.
    rewrite (proj2 (readStartTLSLine_exact source _ last _ source' (Z.le_refl _))) by done.
    assert (add budget (zlen (raw_line last)) = inl (budget_after budget [last])) as ->.
    { apply add_exact. split; [|done]. unfold budget_after, raw_lines. cbn [map concat]. by rewrite app_nil_r. }
    destruct (tagged_ok tag last Hla) as [-> ->]. cbn. by rewrite orb_false_r.
  - apply Forall_cons in Hls as [[Hp Hl] Hls]. apply Forall_cons in Hb as [Ht Hb].
    unfold raw_lines in Hw. cbn [map concat] in Hw. rewrite <- app_assoc in Hw.
    rewrite (proj2 (readStartTLSLine_exact source _ line _ (mkPlaintext (raw_lines (before ++ [last]) ++ wire source') (failure source)) (Z.le_refl _))) by done.
    destruct (budget_prefix budget [line] (before ++ [last]) Hbo) as [Hb1 Hb2].
    assert (add budget (zlen (raw_line line)) = inl (budget_after budget [line])) as ->.
    { apply add_exact. split; [|done]. unfold budget_after, raw_lines. cbn [map concat]. by rewrite app_nil_r. }
    rewrite Ht. cbn [negb]. rewrite (IH Hb Hls) by (done || (cbn in Hfuel; lia)). do 3 f_equal.
    + f_equal. cbn [existsb]. destruct (capabilityHasStartTLS line); by rewrite ?orb_true_r.
    + unfold budget_after, raw_lines. cbn [map concat budgetBytes budgetCount]. rewrite ?app_nil_r, ?zlen_app, ?zlen_cons, ?zlen_nil. rewrite ?zlen_app, ?zlen_cons, ?zlen_nil. change (zlen (@nil bytes)) with 0. f_equal; lia.
Qed.

(** The budget ends the loop before the fuel does. *)
Lemma commandLoop_returns fuel tag source budget has : maxStartTLSResponseCount + 1 - budgetCount budget <= Z.of_nat fuel ->
  (0 < fuel)%nat -> commandLoop fuel tag source budget has <> None.
Proof.
  revert source budget has. induction fuel as [|fuel IH]; intros source budget has Hf Hp; [lia|]. cbn [commandLoop].
  destruct (readStartTLSLine _ _) as [[[line n] s1]|]; [|done].
  destruct (add _ _) as [b1|] eqn:Ea; [|done]. apply add_exact in Ea as [-> [Hc _]]. cbn [budgetCount] in *.
  destruct (negb _); [|by destruct (_ && _)]. apply IH; cbn [budgetCount]; unfold maxStartTLSResponseCount in *; lia.
Qed.

(** ** Establishing the connection *)

(** A dialogue that ends in TLS: a greeting, an answered CAPABILITY that
    offers STARTTLS and an answered STARTTLS, within one response budget; the
    writes and the handshake succeeded and the context was still live. *)
Definition started (w : dialWorld) (source : plaintext) : Prop :=
  exists greeting caps answer rest b1 b2 s1 s2,
    line_ok greeting /\ validStartTLSGreeting greeting = true
    /\ wire source = raw_line greeting ++ wire s1 /\ failure s1 = failure source
    /\ dialogue $"a001" s1 (mkResponseBudget 0 0) caps s2 b1 /\ existsb capabilityHasStartTLS caps = true
    /\ dialogue $"a002" s2 b1 answer rest b2
    /\ capabilityWrite w = None /\ startTLSWrite w = None /\ handshake w = None /\ finallyEnded w = false.

Definition plaintext_commands : list bytes := [commandLine $"a001" $"CAPABILITY"; commandLine $"a002" $"STARTTLS"].

Definition dial_code (err : goerror) : Prop :=
  err = errorCode CodeTLSNegotiation \/ err = errorCode CodeTLSMismatch \/ err = errorCode CodeBridgeUnreachable.

Lemma connectionError_code ended err : dial_code (connectionError ended err).
Proof. unfold connectionError, dial_code. repeat case_match; eauto. Qed.

Lemma imapCommand_returns source written tag b : budget_ok b -> imapCommand source written b tag <> None.
Proof.
  intros [Hc _]. unfold imapCommand. destruct written; [done|]. apply commandLoop_returns; unfold maxStartTLSResponseCount in *; lia.
Qed.

Lemma imapCommand_sound source written b tag has source' b' : imapCommand source written b tag = Some (inl (has, source', b')) ->
  written = None /\ exists lines, dialogue tag source b lines source' b' /\ has = existsb capabilityHasStartTLS lines.
Proof.
  unfold imapCommand. destruct written; [done|]. intros (lines & H & ->)%commandLoop_sound. split; [done|].
  exists lines. by rewrite orb_false_r.
Qed.

Lemma imapCommand_complete source b tag lines source' b' : dialogue tag source b lines source' b' ->
  imapCommand source None b tag = Some (inl (existsb capabilityHasStartTLS lines, source', b')).
Proof.
  intros H. unfold imapCommand. rewrite (commandLoop_complete _ _ _ _ _ _ _ _ H); [by rewrite orb_false_r|].
  destruct H as (_ & _ & _ & _ & -> & [Hc _]). unfold budget_after in Hc. cbn in Hc. unfold zlen in Hc. lia.
Qed.

Lemma started_establish w source : started w source -> establishStartTLS w source = Some (inl (mkConnection true true), concat plaintext_commands).
Proof.
  intros (g & caps & answer & rest & b1 & b2 & s1 & s2 & [Hp Hl] & Hv & Hw & Hf & Hd1 & Hcap & Hd2 & Hw1 & Hw2 & Hh & He).
  unfold establishStartTLS. rewrite (proj2 (readStartTLSLine_exact source maxStartTLSGreetingBytes g _ s1 (Z.le_refl _))) by done.
  rewrite Hv, Hw1, (imapCommand_complete _ _ _ _ _ _ Hd1), Hcap, Hw2, (imapCommand_complete _ _ _ _ _ _ Hd2), Hh, He. done.
Qed.

Lemma establish_cases w source : exists r n, establishStartTLS w source = Some (r, concat (take n plaintext_commands))
  /\ match r with inl c => c = mkConnection true true /\ n = 2%nat /\ started w source | inr err => dial_code err end.
Proof.
  pose proof connectionError_code as Hc. assert (Hneg : dial_code (errorCode CodeTLSNegotiation)) by by left.
  unfold establishStartTLS. destruct (readStartTLSLine source _) as [[[greeting n0] s1]|err] eqn:Eg.
  2:{ eexists _, 0%nat. split; [done|]. destruct (greetingEnded w); [apply Hc|]. by case_bool_decide; [|apply Hc]. }
  apply readStartTLSLine_exact in Eg as (Hp & -> & Hl & Hw & Hf); [|done].
  destruct (validStartTLSGreeting greeting) eqn:Ev; cbn [negb]; [|by eexists _, 0%nat].
  assert (Hb0 : budget_ok (mkResponseBudget 0 0)) by by split. pose proof (imapCommand_returns s1 (capabilityWrite w) $"a001" _ Hb0) as Hr1.
  destruct (imapCommand s1 _ _ _) as [[[[has s2] b1]|err]|] eqn:E1; [| |congruence].
  2:{ exists (inr (if capabilityEnded w then connectionError true err else errorCode CodeTLSNegotiation)).
      exists (match capabilityWrite w with Some _ => 0 | None => 1 end)%nat. split; [by destruct (capabilityWrite w)|]. by destruct (capabilityEnded w). }
  apply imapCommand_sound in E1 as (Hw1 & caps & Hd1 & ->). rewrite Hw1.
  destruct (existsb _ caps) eqn:Ecap; [|by eexists _, 1%nat].
  assert (Hb1 : budget_ok b1) by apply Hd1. pose proof (imapCommand_returns s2 (startTLSWrite w) $"a002" b1 Hb1) as Hr2.
  destruct (imapCommand s2 _ _ _) as [[[[has s3] b2]|err]|] eqn:E2; [| |congruence].
  2:{ exists (inr (if startTLSEnded w then connectionError true err else errorCode CodeTLSNegotiation)).
      exists (match startTLSWrite w with Some _ => 1 | None => 2 end)%nat. split; [by destruct (startTLSWrite w)|]. by destruct (startTLSEnded w). }
  apply imapCommand_sound in E2 as (Hw2 & answer & Hd2 & ->). rewrite Hw2.
  destruct (handshake w) as [err|] eqn:Eh; [eexists _, 2%nat; split; [done|apply Hc]|].
  destruct (finallyEnded w) eqn:Ef; [eexists _, 2%nat; split; [done|by right; right]|].
  eexists _, 2%nat. split; [done|]. split; [done|]. split; [done|]. by exists greeting, caps, answer, s3, b1, b2, s1, s2.
Qed.

(** C22: the STARTTLS dialogue always ends, and connects exactly for the
    dialogues of the reference grammar: a valid greeting, CAPABILITY answered
    with STARTTLS offered, STARTTLS answered, at most 32 response lines and
    16384 bytes for both, then a handshake.  In plaintext it sends the two
    commands in order or a prefix of them, nothing else, and a failure is one
    of three codes. *)
Theorem starttls_exact w source :
  exists r sent, establishStartTLS w source = Some (r, sent)
    /\ (exists n, sent = concat (take n plaintext_commands))
    /\ match r with
       | inl c => c = mkConnection true true /\ sent = concat plaintext_commands /\ started w source
       | inr err => dial_code err /\ ~ started w source
       end.
Proof.
  destruct (establish_cases w source) as (r & n & E & H). exists r, (concat (take n plaintext_commands)).
  split; [done|]. split; [by exists n|]. destruct r as [c|err].
  - destruct H as (-> & -> & H). done.
  - split; [done|]. intros Hs%started_establish. congruence.
Qed.
