(* ===== verification/StructureSession.v ===== *)
(** * The dedicated structure session

    [bridge/structure_session.go]: one session, never pooled, that reads the
    extended BODYSTRUCTURE of one message through the structure quarantine, and
    the adapter operation of [bridge/attachment_structure.go] around it.

    The go-imap client is outside: it answers commands, and its only access to
    the transport is [Read] of the quarantine, which is the one law of the
    class [DedicatedClient].  The state is a step of [QuarantineSystem]'s
    relation at a time, so its theorems hold of every session. *)
From Stdlib Require Import ZArith Lia Strings.Byte.
From stdpp Require Import base list gmap strings.
From S2P Require Import Prelude GoStrings Errors Quarantine QuarantineSystem Config Session Adapter Search SearchObserver ImapSession Dial Mime AttachmentProjection.

Inductive structureSessionState := structureConnected | structureAuthenticated | structureSelected | structureDispatched | structureClosed.
#[export] Instance sessionState_eq_dec : EqDecision structureSessionState. Proof. solve_decision. Defined.

Record selectedStructure := mkSelected { Snapshot : mailboxSnapshot; Structure : bodyStructure }.
Record structureRequest := mkRequest { rMailbox : bytes; rUID : Z; rUIDValidity : Z }.

(** [bound]: the deadline an operation's transport may be given; 0 is none. *)
Definition bound (operation deadline : Z) : Z :=
  if (deadline =? 0) || (operation <? deadline) then operation else deadline.

(** [operationConn.Read]'s error: the operation's end comes first. *)
Definition operationError (ended : option ctx_end) (late : bool) (err : option goerror) : option goerror :=
  match err with
  | None => None
  | Some err =>
      match ended with
      | Some Canceled => Some [NCanceled]
      | Some DeadlineExceeded => Some [NDeadlineExceeded]
      | None => if late then Some [NDeadlineExceeded] else Some err
      end
  end.

(** ** The client *)

Inductive command :=
| CmdGreeting (synthetic : bool)
| CmdLogin
| CmdExamine (mailbox : bytes)
| CmdSearch (criteria : list searchCriterion)
| CmdFetch (uid : Z)
| CmdLogout.

(** What [imapSession] sees of a command's answer; [loginNo] and [noopImap] are
    the kinds of the two errors of a login. *)
Record loginReply := mkLogin { login : option goerror; loginNo : bool; noop : option goerror; noopImap : bool; loginCaps : bool }.

Definition reply (c : command) : Type :=
  match c with
  | CmdGreeting _ => option goerror * bool
  | CmdLogin => loginReply
  | CmdExamine _ => mailboxSnapshot + goerror
  | CmdSearch _ => searchObservation * (searchData + goerror)
  | CmdFetch _ => fetchReply bodyStructure
  | CmdLogout => option goerror
  end.

(** The client reads: the quarantine's lock is taken by [Read] alone. *)
Inductive client_step : system -> system -> Prop :=
| client_return q q' buffer data err w o :
    readPrepare buffer q = (q', readReturn data err) -> client_step (mkSystem q None w o) (mkSystem q' None w (o ++ data))
| client_ask q q' buffer limit w o :
    readPrepare buffer q = (q', readSource limit) -> client_step (mkSystem q None w o) (mkSystem q' (Some limit) w o)
| client_answer q limit chunk err w o :
    zlen chunk <= limit -> client_step (mkSystem q (Some limit) w o) (mkSystem (readAbsorb chunk err q) None (w ++ chunk) o).

Class DedicatedClient (W C : Type) := {
  dc_with_timeout : C -> Z -> W -> C * W;
  dc_now : C -> W -> ctx * W;
  dc_dial : C -> W -> (Connection + goerror) * W;
  dc_credentials : C -> W -> option goerror * W;
  (* a command, with what surrounds it *)
  dc_send : C -> forall c : command, system -> W -> around * reply c * (system * W);
  (* the reader goroutine between two steps of the session *)
  dc_pause : system -> W -> system * W;
  dc_send_reads : forall c cmd s w, star client_step s (fst (snd (dc_send c cmd s w)));
  dc_pause_reads : forall s w, star client_step s (fst (dc_pause s w)) }.

(** ** The session *)

Inductive devent :=
| EvSent (c : command)
| EvTerminal (t : option code)
| EvCredentials
| EvZeroed
| EvClosed.

Record dedicated (W : Type) := mkDedicated {
  dState : structureSessionState; dUID : Z; dSystem : system; dWorld : W; dLog : list devent }.
Arguments mkDedicated {W}. Arguments dState {W}. Arguments dUID {W}. Arguments dSystem {W}. Arguments dWorld {W}. Arguments dLog {W}.

Definition D (W A : Type) : Type := dedicated W -> A * dedicated W.
Definition dret {W A} (a : A) : D W A := fun s => (a, s).
Definition dbind {W A B} (m : D W A) (k : A -> D W B) : D W B := fun s => let '(a, s) := m s in k a s.

#[local] Notation "'then!' x := m 'in' k" := (dbind m (fun x => k)) (at level 10, x pattern, m at level 100, k at level 200).
#[local] Notation "m ;;; k" := (dbind m (fun _ => k)) (at level 100, k at level 200, right associativity).

Section Session.
Context {W C : Type} `{B : DedicatedClient W C}.

Definition record (ev : devent) : D W unit := fun s => (tt, mkDedicated (dState s) (dUID s) (dSystem s) (dWorld s) (dLog s ++ [ev])).
Definition looks {A} (f : W -> A * W) : D W A := fun s => let '(a, w) := f (dWorld s) in (a, mkDedicated (dState s) (dUID s) (dSystem s) w (dLog s)).
Definition pause : D W unit := fun s =>
  let '(q, w) := dc_pause (dSystem s) (dWorld s) in (tt, mkDedicated (dState s) (dUID s) q w (dLog s)).
Definition send (c : C) (cmd : command) : D W (around * reply cmd) := fun s =>
  let '(a, (q, w)) := dc_send c cmd (dSystem s) (dWorld s) in
  (a, mkDedicated (dState s) (dUID s) q w (dLog s ++ [EvSent cmd])).
Definition set_state (st : structureSessionState) : D W unit := fun s => (tt, mkDedicated st (dUID s) (dSystem s) (dWorld s) (dLog s)).
Definition get_state : D W structureSessionState := fun s => (dState s, s).
Definition get_uid : D W Z := fun s => (dUID s, s).

(** A step of the quarantine under its lock. *)
Definition locked (f : structureQuarantine -> qresult) : D W (option code) := fun s =>
  let '(q, err) := f (reader (dSystem s)) in
  (err, mkDedicated (dState s) (dUID s) (mkSystem q (awaiting (dSystem s)) (QuarantineSystem.wire (dSystem s)) (out (dSystem s))) (dWorld s) (dLog s)).

Definition terminalError : D W (option code) := fun s => (terminal (reader (dSystem s)), s).

Definition advance (from to : structureSessionState) : D W (option goerror) :=
  then! state := get_state in
  if negb (bool_decide (state = from)) then dret (Some (errorCode CodeIMAPProtocol))
  else set_state to ;;; dret None.

Definition finish : D W bool :=
  then! state := get_state in
  if bool_decide (state = structureClosed) then dret false
  else set_state structureClosed ;;; dret true.

Definition refusal (c : C) (err : option goerror) : D W (option goerror) :=
  match err with
  | None => dret None
  | Some err =>
      pause ;;;
      then! t := terminalError in
      record (EvTerminal t) ;;;
      match t with
      | Some e => dret (Some (errorCode e))
      | None => then! now := looks (dc_now c) in dret (mapIMAPError (Some now) (Some err))
      end
  end.

Definition dtry {A B'} (m : D W (A + goerror)) (k : A -> D W (B' + goerror)) : D W (B' + goerror) :=
  dbind m (fun r => match r with inl a => k a | inr e => dret (inr e) end).
(** [if err := m; err != nil { return err }]. *)
Definition check {B'} (m : D W (option goerror)) (k : D W (B' + goerror)) : D W (B' + goerror) :=
  dbind m (fun err => match err with Some e => dret (inr e) | None => k end).
(** The same through [refusal]. *)
Definition refused {A B'} (c : C) (r : A + goerror) (k : A -> D W (B' + goerror)) : D W (B' + goerror) :=
  match r with
  | inl a => k a
  | inr err => then! e := refusal c (Some err) in dret (inr (default err e))
  end.

Definition SessionAuthenticate (c : C) : D W (option goerror) :=
  then! err := advance structureConnected structureAuthenticated in
  match err with
  | Some err => record EvZeroed ;;; dret (Some err)
  | None =>
      then! (a, r) := send c CmdLogin in
      record EvZeroed ;;;
      refusal c (Authenticate a (login r) (loginNo r) (noop r) (noopImap r) (loginCaps r))
  end.

(** [requireMessageUID] over the session's own search. *)
Definition requireSelected (c : C) (uid : Z) : D W (unit + goerror) :=
  let window := mkWindow uid uid in
  if width window <? 1 then dret (messageUIDPresent uid (inr (errorCode CodeBoundsExceeded)))
  else
    then! (a, r) := send c (CmdSearch (searchCriteria emptyQuery window)) in
    dret (messageUIDPresent uid (UIDSearchWindow a window 1 (fst r) (snd r))).

Definition SessionExamine (c : C) (mailbox : bytes) : D W (mailboxSnapshot + goerror) :=
  check (advance structureAuthenticated structureSelected) (
  then! (a, r) := send c (CmdExamine mailbox) in
  refused c (Examine a r) (fun snapshot =>
  then! uid := get_uid in
  then! present := requireSelected c uid in
  refused c present (fun _ => dret (inl snapshot)))).

Definition FetchStructure (c : C) : D W (bodyStructure + goerror) :=
  check (advance structureSelected structureDispatched) (
  pause ;;;
  then! err := locked beginDispatch in
  match err with
  | Some e => dret (inr (errorCode e))
  | None =>
      then! uid := get_uid in
      then! (a, r) := send c (CmdFetch uid) in
      let '(structure, aborted) := fetchUIDStructure a uid r in
      (if aborted : bool then record EvClosed else dret tt) ;;;
      refused c structure (fun structure => dret (inl structure))
  end).

(** [Close]; [Logout] closes the client, and with it the transport. *)
Definition SessionClose (c : C) : D W (option goerror) :=
  then! first := finish in
  if negb first then dret None
  else
    then! (a, r) := send c CmdLogout in
    record EvClosed ;;;
    refusal c (Logout a true r).

Definition SessionAbort (cause : goerror) : D W unit :=
  then! first := finish in
  if negb first then dret tt
  else pause ;;; locked (abort cause) ;;; record EvClosed.

(** ** One dedicated read *)

(** [newStructureSessionOver] on an established transport: the session, or its
    error with the log of what happened. *)
Definition newStructureSessionOver (c : C) (transport hasDeadline startTLS : bool) (uid : Z) (w : W)
  : (option goerror) * option (dedicated W) * W * list devent :=
  if negb transport then (Some (errorCode CodeInvalidRequest), None, w, [])
  else if negb hasDeadline || (uid =? 0) then (Some (errorCode CodeInvalidRequest), None, w, [EvClosed])
  else match newStructureQuarantine uid with
  | inr e => (Some (errorCode e), None, w, [EvClosed])
  | inl q =>
      let s := mkDedicated structureConnected uid (mkSystem q None [] []) w [] in
      let '(err, s) :=
        (then! (a, r) := send c (CmdGreeting startTLS) in
         match startClient a (fst r) (snd r) with
         | Some err => record EvClosed ;;; refusal c (Some err)
         | None => dret None
         end) s in
      (err, Some s, dWorld s, dLog s)
  end.

Definition run (c : C) (request : structureRequest) : D W (selectedStructure + goerror) :=
  check (looks (dc_credentials c)) (
  record EvCredentials ;;;
  check (SessionAuthenticate c) (
  dtry (SessionExamine c (rMailbox request)) (fun snapshot =>
  if negb (rUIDValidity request =? 0) && negb (UIDValidity snapshot =? rUIDValidity request) then dret (inr (errorCode CodeStaleMessageID))
  else dtry (FetchStructure c) (fun structure => dret (inl (mkSelected snapshot structure)))))).

(** What follows [newStructureSessionOver] in [readStructure]. *)
Definition finishRead (c : C) (request : structureRequest) : D W (selectedStructure + goerror) :=
  then! result := run c request in
  match result with
  | inr err =>
      then! refused := refusal c (Some err) in
      let err := default err refused in
      SessionAbort err ;;; dret (inr err)
  | inl result => check (SessionClose c) (dret (inl result))
  end.

Variable config : ValidatedConfig.

(** [readStructure]: the result, the world and what the session did. *)
Definition readStructure (parent : C) (request : structureRequest) (w : W) : (selectedStructure + goerror) * W * list devent :=
  if rUID request =? 0 then (inr (errorCode CodeInvalidRequest), w, [])
  else
    let '(c, w) := dc_with_timeout parent (CommandTimeoutMs (vIMAP config)) w in
    match dc_dial c w with
    | (inr err, w) => (inr err, w, [])
    | (inl connection, w) =>
        match takeConn (Some connection) with
        | inr err => (inr err, w, [])
        | inl (startTLS, _) =>
            match newStructureSessionOver c true true startTLS (rUID request) w with
            | (None, Some s, _, _) =>
                let '(r, s) := finishRead c request s in (r, dWorld s, dLog s)
            | (err, _, w, log) => (inr (default (errorCode CodeInvalidRequest) err), w, log)
            end
        end
    end.
End Session.

(** ** The adapter's operation *)

Record MessageAttachmentStructure := mkMessageStructure {
  masID : bytes; masMailbox : bytes; masUIDValidity : Z; masUID : Z; masAttachments : list AttachmentStructureEntry; masTruncation : Truncation }.

Section Operation.
Context {W S C : Type} `{B : Backend W S C}.
Variable config : ValidatedConfig.
Variable decodeMessageID : bytes -> messageIDPayload + goerror.
Variable ParseMediaType : bytes -> option (bytes * gmap bytes bytes).
(** [adapter.reader]: one dedicated read. *)
Variable read : C -> structureRequest -> W -> (selectedStructure + goerror) * W.

(** At most [attempts] reads; with two left, a failure may be replayed. *)
Fixpoint readStructureAttempts (c : C) (request : structureRequest) (attempts : nat) : M W S (selectedStructure + goerror) :=
  match attempts with
  | O => fail CodeBridgeUnreachable
  | Datatypes.S more =>
      let! r := outside (read c request) in
      match r with
      | inl selected => ret (inl selected)
      | inr err =>
          let! err := mapError c err in
          let! replay := (if (more =? 1)%nat then canReplay c err else ret false) in
          if replay : bool then readStructureAttempts c request more else ret (inr err)
      end
  end.

Definition GetMessageAttachmentStructure (c : C) (identifier : bytes) : M W S (MessageAttachmentStructure + goerror) :=
  match decodeMessageID identifier with
  | inr err => ret (inr err)
  | inl payload =>
      let! busy := acquire c in
      match busy with
      | Some err => ret (inr err)
      | None =>
          let! cl := get_closed in
          if cl : bool then release ;; fail CodeAdapterClosed
          else
            let! oc := operationContext config c in
            let! selected := readStructureAttempts oc (mkRequest (pMailbox payload) (pUID payload) (pUIDValidity payload)) 2 in
            let r := match selected with
                     | inr err => inr err
                     | inl selected =>
                         match projectAttachmentStructure ParseMediaType (Structure selected) (vBounds config) with
                         | inr err => inr err
                         | inl (attachments, truncation) =>
                             inl (mkMessageStructure identifier (pMailbox payload) (pUIDValidity payload) (pUID payload) attachments truncation)
                         end
                     end in
            cancel oc ;; release ;; ret r
      end
  end.
End Operation.
