(* ===== verification/StructureSessionSpec.v ===== *)
(** * What a dedicated session guarantees

    Whatever methods are called in whatever order, the session sends its
    commands in one fixed order, at most one FETCH, and the quarantine's
    guarantees hold throughout; a dedicated read ends with the transport
    closed and reports the quarantine's first refusal. *)
From Stdlib Require Import ZArith Lia Strings.Byte.
From stdpp Require Import base list gmap strings sorting.
From S2P Require Import Prelude GoStrings Errors Quarantine QuarantineInv QuarantineSystem Config Session Adapter Search SearchObserver ImapSession.
From S2P Require Import Dial Mime AttachmentProjection StructureSession.

(** ** The client's reads *)

Lemma client_step_step s s' : client_step s s' -> step s s'.
Proof. intros []; econstructor; eauto. Qed.

Lemma client_star s s' : star client_step s s' -> star step s s'.
Proof. induction 1; [constructor|]. eapply star_snoc; [done|by apply client_step_step]. Qed.

Lemma star_refused s s' e : star step s s' -> terminal (reader s) = Some e -> terminal (reader s') = Some e.
Proof. intros H Ht. eapply (star_invariant step (fun s => terminal (reader s) = Some e)); [done| |exact H]. intros x y Hx Hxy. by eapply step_refused. Qed.

Lemma reachable_star uid s s' : reachable uid s -> star step s s' -> reachable uid s'.
Proof. intros (s0 & Hi & H) H'. exists s0. split; [done|]. by eapply star_trans. Qed.

(** No byte changes an idle dispatch. *)
Lemma idle_accepts q q' f : dispatch q = quarantineIdle -> accepts q q' f -> dispatch q' = quarantineIdle.
Proof. intros Hi [(_ & _ & _ & -> & _)|(_ & _ & [(_ & -> & _)|[(_ & Ha & _)|(_ & -> & _)]])]; congruence. Qed.

Lemma idle_chunk selected chunk q w o : quarantine_ok q -> terminal q = None -> framing selected q w o ->
  dispatch q = quarantineIdle -> dispatch (feedChunk chunk q) = quarantineIdle.
Proof.
  revert q w. induction chunk as [|v rest IH]; intros q w Hq Ht Hf Hi; cbn [feedChunk]; [done|].
  pose proof (framing_chunk selected [v] q w o Hq Ht Hf) as Hf'. pose proof (feedChunk_ok [v] q Hq Ht) as Hq'.
  cbn [feedChunk] in Hf', Hq'. destruct (feedLocked v q) as [q' [e|]] eqn:E.
  - apply feed_refused in E as (_ & Hd & _). cbn. congruence.
  - assert (terminal q' = None) as Ht' by (destruct Hq as [Hc Hl]; by apply feed_accepted in E as [_ E]; [| |apply Hl|]).
    eapply IH; [exact Hq'|done|exact Hf'|]. eapply idle_accepts; [exact Hi|].
    apply feed_accepts; [done|done| |exact E]. destruct Hf as (fs & r & _ & _ & _ & _ & _ & Hl). by apply Hl.
Qed.

Lemma idle_client uid s s' : reachable uid s -> star client_step s s' ->
  dispatch (reader s) = quarantineIdle -> dispatch (reader s') = quarantineIdle.
Proof.
  intros Hr H Hi. induction H as [|a b c Hab IH Hstep]; [done|]. specialize (IH Hr Hi).
  assert (Hb : reachable uid b) by (eapply reachable_star; [exact Hr|by apply client_star]).
  destruct (reachable_ok _ _ Hb) as [Hq Hf]. destruct Hstep as [q q' buffer data err w o E|q q' buffer limit w o E|q limit chunk err w o E]; cbn in *.
  - apply readPrepare_cases in E. destruct err; [by destruct E as (-> & _)|]. by destruct E as (-> & _).
  - by apply readPrepare_cases in E as (-> & _).
  - unfold readAbsorb. destruct (terminal q) eqn:Ht; [done|]. pose proof (idle_chunk _ chunk q w o Hq Ht Hf IH) as Hd.
    cbv zeta. destruct (terminal (feedChunk chunk q)); [done|]. destruct err; [|done].
    unfold sourceFailedLocked, abortLocked. repeat split_goal; done.
Qed.

(** ** The effect of a piece of the session *)

Definition commands (log : list devent) : list command := omap (fun e => match e with EvSent c => Some c | _ => None end) log.

Lemma commands_snoc log ev : commands (log ++ [ev]) = commands log ++ match ev with EvSent c => [c] | _ => [] end.
Proof. unfold commands. rewrite omap_app. by destruct ev. Qed.

Section SessionSpec.
Context {W C : Type} `{B : DedicatedClient W C}.

(** [cmds] were sent on the way from [s] to [s'], which is in state [st]. *)
Record ran (st : structureSessionState) (cmds : list command) (s s' : dedicated W) : Prop := mkRan {
  r_state : dState s' = st;
  r_uid : dUID s' = dUID s;
  r_commands : commands (dLog s') = commands (dLog s) ++ cmds;
  r_log : dLog s `prefix_of` dLog s';
  r_star : star step (dSystem s) (dSystem s');
  r_saw : forall e, EvTerminal (Some e) ∈ dLog s' -> EvTerminal (Some e) ∈ dLog s \/ terminal (reader (dSystem s')) = Some e;
  r_idle : forall uid, reachable uid (dSystem s) -> dispatch (reader (dSystem s)) = quarantineIdle ->
    dispatch (reader (dSystem s')) = quarantineIdle \/ exists u, CmdFetch u ∈ cmds }.

Lemma ran_refl s : ran (dState s) [] s s.
Proof. split; try done; [by rewrite app_nil_r|constructor|by left|by left]. Qed.

Lemma ran_trans st1 st2 c1 c2 s1 s2 s3 : ran st1 c1 s1 s2 -> ran st2 c2 s2 s3 -> ran st2 (c1 ++ c2) s1 s3.
Proof.
  intros [] []. split; [done|congruence|by rewrite r_commands1, r_commands0, app_assoc|by etrans|by eapply star_trans| |].
  - intros e [H|H]%r_saw1; [|by right]. destruct (r_saw0 e H) as [?|Ht]; [by left|right]. by eapply star_refused.
  - intros uid Hr Hi. destruct (r_idle0 uid Hr Hi) as [Hi'|[u Hu]]; [|right; exists u; set_solver].
    destruct (r_idle1 uid (reachable_star _ _ _ Hr r_star0) Hi') as [?|[u Hu]]; [by left|right; exists u; set_solver].
Qed.

Lemma ran_nil st1 st2 c s1 s2 s3 : ran st1 c s1 s2 -> ran st2 [] s2 s3 -> ran st2 c s1 s3.
Proof. intros H1 H2. rewrite <- (app_nil_r c). by eapply ran_trans. Qed.

Lemma ran_set_state st s : ran st [] s (snd (set_state st s)).
Proof. split; try done; [by rewrite app_nil_r|constructor|by left|by left]. Qed.

Lemma ran_looks {A} (f : W -> A * W) s : ran (dState s) [] s (snd (looks f s)).
Proof. unfold looks. destruct (f _). split; try done; [by rewrite app_nil_r|constructor|by left|by left]. Qed.

Lemma ran_record ev s : match ev with EvSent _ | EvTerminal (Some _) => False | _ => True end -> ran (dState s) [] s (snd (record ev s)).
Proof.
  intros Hev. split; try done; cbn.
  - rewrite commands_snoc. by destruct ev.
  - by exists [ev].
  - constructor.
  - intros e [H|H%list_elem_of_singleton]%elem_of_app; [by left|]. by subst ev.
  - by left.
Qed.

Lemma ran_terminal s : ran (dState s) [] s (snd (record (EvTerminal (terminal (reader (dSystem s)))) s)).
Proof.
  split; try done; cbn; [by rewrite commands_snoc|by eexists|constructor| |by left].
  intros e [H|H%list_elem_of_singleton]%elem_of_app; [by left|]. injection H as ->. by right.
Qed.

Lemma ran_pause s : ran (dState s) [] s (snd (pause s)).
Proof.
  unfold pause. pose proof (dc_pause_reads (dSystem s) (dWorld s)) as H. destruct (dc_pause _ _) as [q w]. cbn in *.
  split; try done; cbn; [by rewrite app_nil_r|by apply client_star|by left|]. intros uid Hr Hi. left. by eapply idle_client.
Qed.

Lemma ran_send c cmd s : ran (dState s) [cmd] s (snd (send c cmd s)).
Proof.
  unfold send. pose proof (dc_send_reads c cmd (dSystem s) (dWorld s)) as H. destruct (dc_send _ _ _ _) as [a [q w]]. cbn in *.
  split; try done; cbn; [by rewrite commands_snoc|by eexists|by apply client_star| |].
  - intros e [?|Hx%list_elem_of_singleton]%elem_of_app; [by left|done].
  - intros uid Hr Hi. left. by eapply idle_client.
Qed.

Lemma ran_abort cause s : ran (dState s) [] s (snd (locked (abort cause) s)).
Proof.
  unfold locked. destruct (abort cause _) as [q err] eqn:E. cbn.
  assert (Hs : step (dSystem s) (mkSystem q (awaiting (dSystem s)) (QuarantineSystem.wire (dSystem s)) (out (dSystem s)))).
  { replace q with (fst (abort cause (reader (dSystem s)))) by (by rewrite E). destruct (dSystem s). constructor. }
  split; try done; cbn; [by rewrite app_nil_r|eapply star_snoc; [constructor|done]|by left|].
  intros _ _ Hi. left. unfold abort, abortLocked in E. destruct (terminal _); [by injection E as <- _|].
  destruct (_ || _); injection E as <- _; done.
Qed.

(** [beginDispatch] and, when it succeeds, the FETCH. *)
Lemma locked_dispatch (s : dedicated W) : exists q err, locked beginDispatch s = (err, mkDedicated (dState s) (dUID s) q (dWorld s) (dLog s)) /\ star step (dSystem s) q
  /\ (forall e, err = Some e -> terminal (reader q) = Some e /\ dispatch (reader q) = dispatch (reader (dSystem s))).
Proof.
  unfold locked. destruct (beginDispatch _) as [q err] eqn:E.
  eexists (mkSystem q (awaiting (dSystem s)) (QuarantineSystem.wire (dSystem s)) (out (dSystem s))), err. split; [done|]. split.
  - replace q with (fst (beginDispatch (reader (dSystem s)))) by (by rewrite E). destruct (dSystem s). eapply star_snoc; constructor.
  - intros e ->. unfold beginDispatch, ok in E. destruct (terminal _) eqn:Ht; [by injection E as <- <-|].
    destruct (negb _); [|done]. by injection E as <- <-.
Qed.

(** ** Errors *)

(** The looks at the terminal category. *)
Definition looked (log : list devent) : list (option code) := omap (fun e => match e with EvTerminal t => Some t | _ => None end) log.
Definition quiet (s s' : dedicated W) : Prop := looked (dLog s') = looked (dLog s).

Lemma looked_snoc log ev : looked (log ++ [ev]) = looked log ++ match ev with EvTerminal t => [t] | _ => [] end.
Proof. unfold looked. rewrite omap_app. by destruct ev. Qed.

(** A refusal that was seen is still the quarantine's. *)
Definition sticky (s : dedicated W) : Prop := forall e, EvTerminal (Some e) ∈ dLog s -> terminal (reader (dSystem s)) = Some e.

Lemma ran_sticky st cmds s s' : ran st cmds s s' -> sticky s -> sticky s'.
Proof. intros [] Hs e [H|H]%r_saw0; [|done]. eapply star_refused; [exact r_star0|]. by apply Hs. Qed.

Definition coded (err : goerror) : Prop := exists d, err = errorCode d.

(** A piece that only looks or records. *)
Lemma refusal_spec c (err : option goerror) (s : dedicated W) r s' : refusal c err s = (r, s') ->
  ran (dState s) [] s s' /\ match err with
  | None => r = None /\ s' = s
  | Some _ => exists d, r = Some (errorCode d) /\ (sticky s -> forall e, EvTerminal (Some e) ∈ dLog s' -> d = e)
  end.
Proof.
  unfold refusal, dbind, dret, terminalError. destruct err as [err|]; [|intros [= <- <-]; split; [apply ran_refl|done]].
  pose proof (ran_pause s) as H1. destruct (pause s) as [[] s1]. cbn [snd] in H1. assert (E1 : dState s1 = dState s) by apply H1.
  pose proof (ran_terminal s1) as H2. destruct (record _ s1) as [[] s2] eqn:Er. cbn [snd] in H2. rewrite E1 in H2.
  assert (Hs2 : dState s2 = dState s) by apply H2. pose proof (ran_nil _ _ _ _ _ _ H1 H2) as H12.
  assert (Et : terminal (reader (dSystem s2)) = terminal (reader (dSystem s1))) by (injection Er as <-; done).
  destruct (terminal (reader (dSystem s1))) as [e|] eqn:Hterm.
  - intros [= <- <-]. split; [done|]. exists e. split; [done|]. intros Hs e' He. apply (ran_sticky _ _ _ _ H12 Hs) in He. congruence.
  - pose proof (ran_looks (dc_now c) s2) as H3. destruct (looks _ s2) as [now s3] eqn:El. cbn [snd] in H3. rewrite Hs2 in H3. intros [= <- <-].
    pose proof (ran_nil _ _ _ _ _ _ H12 H3) as H13. split; [done|]. destruct (mapIMAPError_Some (Some now) err) as [d ->]. exists d. split; [done|].
    intros Hs e He. apply (ran_sticky _ _ _ _ H13 Hs) in He. unfold looks in El. destruct (dc_now _ _); injection El as _ <-. cbn in He. congruence.
Qed.

Lemma refusal_log c (err : option goerror) (s : dedicated W) r s' : refusal c err s = (r, s') ->
  dLog s' = dLog s \/ exists t, dLog s' = dLog s ++ [EvTerminal t].
Proof.
  unfold refusal, dbind, terminalError, dret. destruct err; [|intros [= _ <-]; by left]. destruct (pause s) as [[] s1] eqn:Ep.
  assert (L : dLog s1 = dLog s) by (unfold pause in Ep; destruct (dc_pause _ _); by injection Ep as <-). cbn. rewrite <- L.
  destruct (terminal (reader (dSystem s1))); [intros [= _ <-]; right; by eexists|].
  unfold looks. cbn. destruct (dc_now _ _). intros [= _ <-]. right. by eexists.
Qed.

Lemma refused_spec {A B'} c (r : A + goerror) (k : A -> D W (B' + goerror)) (s : dedicated W) r' s' : refused c r k s = (r', s') ->
  (exists a, r = inl a /\ k a s = (r', s')) \/ (exists d, r' = inr (errorCode d) /\ ran (dState s) [] s s').
Proof.
  unfold refused, dbind, dret. destruct r as [a|err]; [left; by exists a|]. destruct (refusal c (Some err) s) as [e s1] eqn:E.
  apply refusal_spec in E as (H & d & -> & _). intros [= <- <-]. right. by exists d.
Qed.

Lemma advance_spec from to (s : dedicated W) r s' : advance from to s = (r, s') ->
  (dState s <> from /\ r = Some (errorCode CodeIMAPProtocol) /\ s' = s) \/ (dState s = from /\ r = None /\ ran to [] s s' /\ quiet s s').
Proof.
  unfold advance, dbind, get_state, dret. case_bool_decide; cbn [negb]; intros [= <- <-]; [right|by left].
  split; [done|]. split; [done|]. split; [apply ran_set_state|done].
Qed.

Lemma finish_spec (s : dedicated W) r s' : finish s = (r, s') ->
  (dState s = structureClosed /\ r = false /\ s' = s) \/ (dState s <> structureClosed /\ r = true /\ ran structureClosed [] s s' /\ quiet s s').
Proof.
  unfold finish, dbind, get_state, dret. case_bool_decide; intros [= <- <-]; [by left|right].
  split; [done|]. split; [done|]. split; [apply ran_set_state|done].
Qed.

Lemma send_spec c cmd (s : dedicated W) x s' : send c cmd s = (x, s') -> ran (dState s) [cmd] s s' /\ quiet s s'.
Proof.
  intros E. pose proof (ran_send c cmd s) as H. rewrite E in H. split; [exact H|]. unfold send in E. destruct (dc_send _ _ _ _) as [a [q w]].
  injection E as _ <-. unfold quiet. cbn. by rewrite looked_snoc, app_nil_r.
Qed.

Lemma record_spec ev (s : dedicated W) x s' : record ev s = (x, s') -> match ev with EvSent _ | EvTerminal _ => False | _ => True end ->
  ran (dState s) [] s s' /\ quiet s s' /\ ev ∈ dLog s'.
Proof.
  intros E Hev. pose proof (ran_record ev s) as H. rewrite E in H. split; [apply H; by destruct ev|]. injection E as _ <-. unfold quiet. cbn.
  rewrite looked_snoc. split; [by destruct ev; rewrite ?app_nil_r|]. apply elem_of_app. right. by constructor.
Qed.

(** ** The methods *)

Definition searchUID (uid : Z) : command := CmdSearch (searchCriteria emptyQuery (mkWindow uid uid)).

Lemma SessionAuthenticate_spec c s r s' : SessionAuthenticate c s = (r, s') -> EvZeroed ∈ dLog s' /\
  ((dState s <> structureConnected /\ r = Some (errorCode CodeIMAPProtocol) /\ ran (dState s) [] s s')
   \/ (dState s = structureConnected /\ ran structureAuthenticated [CmdLogin] s s' /\ (r = None -> quiet s s'))).
Proof.
  unfold SessionAuthenticate, dbind, dret. destruct (advance _ _ s) as [err s1] eqn:E1.
  apply advance_spec in E1 as [(Hs & -> & ->)|(Hs & -> & H1 & Q1)].
  - destruct (record _ s) as [[] s2] eqn:E2. apply record_spec in E2 as (H2 & _ & He); [|done]. intros [= <- <-]. split; [done|]. left. done.
  - destruct (send _ _ s1) as [[a x] s2] eqn:E2. apply send_spec in E2 as [H2 Q2].
    destruct (record _ s2) as [[] s3] eqn:E3. apply record_spec in E3 as (H3 & Q3 & He); [|done].
    intros H. apply refusal_spec in H as (H4 & H). 
    assert (HR : ran structureAuthenticated [CmdLogin] s s3).
    { rewrite (r_state _ _ _ _ H1) in H2. pose proof (ran_trans _ _ _ _ _ _ _ H1 H2) as H12. rewrite (r_state _ _ _ _ H2) in H3. by apply (ran_nil _ _ _ _ _ _ H12 H3). }
    rewrite (r_state _ _ _ _ HR) in H4. split; [destruct (r_log _ _ _ _ H4) as [l ->]; apply elem_of_app; by left|].
    right. split; [done|]. split; [by eapply ran_nil|]. intros ->. destruct (Authenticate _ _ _ _ _ _); [by destruct H as (? & ? & _)|].
    destruct H as [_ ->]. unfold quiet in *. congruence.
Qed.

(** The end of a method that sent [cmds]: its result, and its commands. *)
Definition method_end {A} (st : structureSessionState) (all : list command) (s : dedicated W) (r : A + goerror) (s' : dedicated W) : Prop :=
  exists cmds, ran st cmds s s' /\ cmds `prefix_of` all /\ match r with inl _ => cmds = all /\ quiet s s' | inr err => coded err end.

Lemma requireSelected_spec c uid (s : dedicated W) r s' : requireSelected c uid s = (r, s') -> exists cmds, ran (dState s) cmds s s' /\ quiet s s'
  /\ cmds `prefix_of` [searchUID uid] /\ (r = inl tt -> cmds = [searchUID uid]).
Proof.
  unfold requireSelected, dbind, dret. destruct (_ <? _).
  - intros [= <- <-]. exists []. split; [apply ran_refl|]. split; [done|]. split; [apply prefix_nil|]. done.
  - destruct (send _ _ s) as [[a x] s1] eqn:E. apply send_spec in E as [H Q]. intros [= <- <-]. exists [searchUID uid]. done.
Qed.

Lemma SessionExamine_spec c mailbox s r s' : SessionExamine c mailbox s = (r, s') ->
  (dState s <> structureAuthenticated /\ coded (match r with inr e => e | inl _ => [] end) /\ s' = s)
  \/ (dState s = structureAuthenticated /\ method_end structureSelected [CmdExamine mailbox; searchUID (dUID s)] s r s').
Proof.
  unfold SessionExamine, check, dbind, dret. destruct (advance _ _ s) as [err s1] eqn:E1.
  apply advance_spec in E1 as [(Hs & -> & ->)|(Hs & -> & H1 & Q1)]; [intros [= <- <-]; left; split; [done|]; split; [by eexists|done]|].
  intros H. right. split; [done|]. unfold method_end.
  destruct (send _ _ s1) as [[a x] s2] eqn:E2. apply send_spec in E2 as [H2 Q2]. rewrite (r_state _ _ _ _ H1) in H2.
  pose proof (ran_trans _ _ _ _ _ _ _ H1 H2) as H12. cbn [app] in H12.
  apply refused_spec in H as [(snapshot & _ & H)|(d & -> & H3)].
  2:{ exists [CmdExamine mailbox]. rewrite (r_state _ _ _ _ H2) in H3. split; [by eapply ran_nil|]. split; [by apply prefix_cons, prefix_nil|by eexists]. }
  unfold get_uid in H. rewrite (r_uid _ _ _ _ H12) in H. destruct (requireSelected _ _ s2) as [present s3] eqn:E3.
  apply requireSelected_spec in E3 as (cmds & H3 & Q3 & Hp & Hfull). rewrite (r_state _ _ _ _ H2) in H3.
  pose proof (ran_trans _ _ _ _ _ _ _ H12 H3) as H13. cbn [app] in H13.
  apply refused_spec in H as [([] & -> & H)|(d & -> & H4)].
  - injection H as <- <-. rewrite Hfull in H13 by done. eexists. split; [exact H13|]. split; [done|]. split; [done|]. unfold quiet in *. congruence.
  - rewrite (r_state _ _ _ _ H3) in H4. eexists. split; [eapply ran_nil; [exact H13|exact H4]|]. split; [by apply prefix_cons|by eexists].
Qed.

Lemma FetchStructure_spec c s r s' : FetchStructure c s = (r, s') ->
  (dState s <> structureSelected /\ coded (match r with inr e => e | inl _ => [] end) /\ s' = s)
  \/ (dState s = structureSelected /\ method_end structureDispatched [CmdFetch (dUID s)] s r s').
Proof.
  unfold FetchStructure, check, dbind, dret. destruct (advance _ _ s) as [err s1] eqn:E1.
  apply advance_spec in E1 as [(Hs & -> & ->)|(Hs & -> & H1 & Q1)]; [intros [= <- <-]; left; split; [done|]; split; [by eexists|done]|].
  intros H. right. split; [done|]. pose proof (ran_pause s1) as H2. destruct (pause s1) as [[] s2] eqn:E2. cbn [snd] in H2.
  rewrite (r_state _ _ _ _ H1) in H2. pose proof (ran_nil _ _ _ _ _ _ H1 H2) as H12.
  assert (Q2 : quiet s1 s2) by (unfold pause in E2; destruct (dc_pause _ _); injection E2 as <-; done).
  destruct (locked_dispatch s2) as (q & err & El & Hstar & Herr). rewrite El in H. clear El. set (s3 := mkDedicated _ _ q _ _) in *.
  destruct err as [e|].
  { injection H as <- <-. exists []. destruct (Herr e eq_refl) as [_ Hd]. split; [|split; [apply prefix_nil|by eexists]].
    eapply ran_nil; [exact H12|]. split; try done; cbn; [by apply (r_state _ _ _ _ H12)|by rewrite app_nil_r|by left|]. intros _ _ Hi. left. congruence. }
  unfold get_uid in H. destruct (send _ _ s3) as [[a x] s4] eqn:E4. apply send_spec in E4 as [H4 Q4].
  assert (H24 : ran structureDispatched [CmdFetch (dUID s)] s2 s4).
  { assert (Eu : dUID s3 = dUID s) by apply (r_uid _ _ _ _ H12). destruct H4. split; try done.
    - rewrite r_state0. apply (r_state _ _ _ _ H12).
    - by rewrite <- Eu.
    - by eapply star_trans.
    - intros _ _ _. right. eexists. by constructor. }
  pose proof (ran_trans _ _ _ _ _ _ _ H12 H24) as H14. cbn [app] in H14.
  destruct (fetchUIDStructure _ _ _) as [structure aborted].
  assert (exists s5, (if aborted : bool then record EvClosed else fun s : dedicated W => (tt, s)) s4 = (tt, s5) /\ ran structureDispatched [] s4 s5 /\ quiet s4 s5) as (s5 & E5 & H5 & Q5).
  { rewrite <- (r_state _ _ _ _ H14). destruct aborted; [|exists s4; split; [done|]; split; [apply ran_refl|done]].
    destruct (record EvClosed s4) as [[] s5] eqn:E5. apply record_spec in E5 as (? & ? & _); [|done]. by exists s5. }
  rewrite E5 in H. pose proof (ran_nil _ _ _ _ _ _ H14 H5) as H15.
  apply refused_spec in H as [(st & -> & H)|(d & -> & H6)].
  - injection H as <- <-. exists [CmdFetch (dUID s)]. split; [done|]. split; [done|]. split; [done|]. unfold quiet in *.
    change (dLog s3) with (dLog s2) in Q4. congruence.
  - rewrite (r_state _ _ _ _ H15) in H6. exists [CmdFetch (dUID s)]. split; [by eapply ran_nil|]. split; [done|by eexists].
Qed.

Lemma SessionClose_spec c s r s' : SessionClose c s = (r, s') ->
  (dState s = structureClosed /\ r = None /\ s' = s)
  \/ (dState s <> structureClosed /\ ran structureClosed [CmdLogout] s s' /\ EvClosed ∈ dLog s' /\ match r with
      | None => quiet s s'
      | Some err => exists d, err = errorCode d /\ (sticky s -> forall e, EvTerminal (Some e) ∈ dLog s' -> d = e)
      end).
Proof.
  unfold SessionClose, dbind, dret. destruct (finish s) as [first s1] eqn:E1.
  apply finish_spec in E1 as [(Hs & -> & ->)|(Hs & -> & H1 & Q1)]; cbn [negb]; [intros [= <- <-]; by left|].
  intros H. right. split; [done|]. destruct (send _ _ s1) as [[a x] s2] eqn:E2. apply send_spec in E2 as [H2 Q2]. rewrite (r_state _ _ _ _ H1) in H2.
  destruct (record _ s2) as [[] s3] eqn:E3. apply record_spec in E3 as (H3 & Q3 & He); [|done]. rewrite (r_state _ _ _ _ H2) in H3.
  assert (HR : ran structureClosed [CmdLogout] s s3) by (eapply ran_nil; [|exact H3]; apply (ran_trans _ _ _ _ _ _ _ H1 H2)).
  apply refusal_spec in H as [H4 H]. rewrite (r_state _ _ _ _ HR) in H4. split; [by eapply ran_nil|].
  split; [destruct (r_log _ _ _ _ H4) as [l ->]; apply elem_of_app; by left|].
  destruct (Logout _ _ _).
  - destruct H as (d & -> & H). exists d. split; [done|]. intros Hst. apply H. by eapply ran_sticky.
  - destruct H as [-> ->]. unfold quiet in *. congruence.
Qed.

Lemma SessionAbort_spec cause (s : dedicated W) x s' : SessionAbort cause s = (x, s') ->
  (dState s = structureClosed /\ s' = s) \/ (dState s <> structureClosed /\ ran structureClosed [] s s' /\ quiet s s' /\ EvClosed ∈ dLog s').
Proof.
  unfold SessionAbort, dbind, dret. destruct (finish s) as [first s1] eqn:E1.
  apply finish_spec in E1 as [(Hs & -> & ->)|(Hs & -> & H1 & Q1)]; cbn [negb]; [intros [= <- <-]; by left|].
  intros H. right. split; [done|]. pose proof (ran_pause s1) as H2. destruct (pause s1) as [[] s2] eqn:E2. cbn [snd] in H2. rewrite (r_state _ _ _ _ H1) in H2.
  assert (Q2 : quiet s1 s2) by (unfold pause in E2; destruct (dc_pause _ _); injection E2 as <-; done).
  pose proof (ran_abort cause s2) as H3. destruct (locked _ s2) as [err s3] eqn:E3. cbn [snd] in H3. rewrite (r_state _ _ _ _ H2) in H3.
  assert (Q3 : quiet s2 s3) by (unfold locked in E3; destruct (abort _ _); injection E3 as _ <-; done).
  apply record_spec in H as (H4 & Q4 & He); [|done]. rewrite (r_state _ _ _ _ H3) in H4.
  split; [|split; [unfold quiet in *; congruence|done]].
  eapply ran_nil; [|exact H4]. eapply ran_nil; [|exact H3]. by eapply ran_nil.
Qed.

(** ** Any sequence of calls *)

Inductive session_call : dedicated W -> dedicated W -> Prop :=
| call_authenticate c s : session_call s (snd (SessionAuthenticate c s))
| call_examine c mailbox s : session_call s (snd (SessionExamine c mailbox s))
| call_fetch c s : session_call s (snd (FetchStructure c s))
| call_close c s : session_call s (snd (SessionClose c s))
| call_abort cause s : session_call s (snd (SessionAbort cause s))
| call_pause s : session_call s (snd (pause s)).

Definition kind (c : command) : nat :=
  match c with CmdGreeting _ => 0 | CmdLogin => 1 | CmdExamine _ => 2 | CmdSearch _ => 3 | CmdFetch _ => 4 | CmdLogout => 5 end.

(** The last command a state allows. *)
Definition rank (st : structureSessionState) : nat :=
  match st with structureConnected => 0 | structureAuthenticated => 1 | structureSelected => 3 | structureDispatched => 4 | structureClosed => 5 end.

Definition before (a b : command) : Prop := (kind a < kind b)%nat.

Record session_ok (uid : Z) (s : dedicated W) : Prop := mkSessionOk {
  so_uid : dUID s = uid;
  so_reach : reachable uid (dSystem s);
  so_order : StronglySorted before (commands (dLog s));
  so_rank : Forall (fun c => (kind c <= rank (dState s))%nat) (commands (dLog s));
  so_fetch : forall u, CmdFetch u ∈ commands (dLog s) -> u = uid;
  so_idle : dispatch (reader (dSystem s)) = quarantineIdle \/ exists u, CmdFetch u ∈ commands (dLog s) }.

Lemma session_ok_ran uid st all cmds s s' : session_ok uid s -> ran st cmds s s' -> cmds `prefix_of` all -> StronglySorted before all ->
  Forall (fun c => (rank (dState s) < kind c <= rank st)%nat) all -> (rank (dState s) <= rank st)%nat ->
  (forall u, CmdFetch u ∈ all -> u = uid) -> session_ok uid s'.
Proof.
  intros [] [] [rest ->] Ho Hr Hs Hf. apply StronglySorted_app_1_l in Ho. apply Forall_app in Hr as [Hr _]. rewrite Forall_forall in Hr.
  split; [congruence|by eapply reachable_star| | | |].
  - rewrite r_commands0. rewrite Forall_forall in so_rank0. apply StronglySorted_app_2; [|done|done]. intros a b Ha Hb. unfold before.
    specialize (so_rank0 a Ha). specialize (Hr b Hb). cbn in *. lia.
  - rewrite r_commands0, r_state0. rewrite Forall_forall in *. intros c [Hc|Hc]%elem_of_app; [specialize (so_rank0 c Hc)|specialize (Hr c Hc)]; cbn in *; lia.
  - intros u. rewrite r_commands0. intros [Hu|Hu]%elem_of_app; [by apply so_fetch0|]. apply Hf. set_solver.
  - rewrite r_commands0. destruct so_idle0 as [Hi|[u Hu]]; [|right; exists u; set_solver].
    destruct (r_idle0 uid so_reach0 Hi) as [?|[u Hu]]; [by left|right; exists u; set_solver].
Qed.

Lemma session_ok_method {A} uid st all s (r : A + goerror) s' : session_ok uid s -> method_end st all s r s' -> StronglySorted before all ->
  Forall (fun c => (rank (dState s) < kind c <= rank st)%nat) all -> (rank (dState s) <= rank st)%nat ->
  (forall u, CmdFetch u ∈ all -> u = uid) -> session_ok uid s'.
Proof. intros Hok (cmds & Hran & Hp & _). by eapply session_ok_ran. Qed.

Lemma session_ok_silent uid st s s' : session_ok uid s -> ran st [] s s' -> (rank (dState s) <= rank st)%nat -> session_ok uid s'.
Proof. intros Hok Hran Hr. eapply session_ok_ran; [done|exact Hran|reflexivity|constructor|constructor|done|set_solver]. Qed.

Lemma rank_closed st : st <> structureClosed -> (rank st < 5)%nat.
Proof. destruct st; cbn; intros ?; [lia..|done]. Qed.

Lemma session_ok_call uid s s' : session_ok uid s -> session_call s s' -> session_ok uid s'.
Proof.
  intros Hok Hcall. assert (Hu : dUID s = uid) by apply Hok.
  destruct Hcall as [c s|c mailbox s|c s|c s|cause s|s].
  - destruct (SessionAuthenticate c s) as [r s'] eqn:E. apply SessionAuthenticate_spec in E as [_ [(Hs & _ & H)|(Hs & H & _)]].
    + by eapply session_ok_silent.
    + eapply session_ok_ran; [done|exact H|reflexivity|repeat constructor| |rewrite Hs; cbn; lia|set_solver]. rewrite Hs. repeat constructor.
  - destruct (SessionExamine c mailbox s) as [r s'] eqn:E. apply SessionExamine_spec in E as [(_ & _ & ->)|(Hs & H)]; [done|].
    eapply session_ok_method; [done|exact H| | |rewrite Hs; cbn; lia|set_solver].
    + repeat constructor.
    + rewrite Hs. repeat constructor.
  - destruct (FetchStructure c s) as [r s'] eqn:E. apply FetchStructure_spec in E as [(_ & _ & ->)|(Hs & H)]; [done|].
    eapply session_ok_method; [done|exact H|repeat constructor| |rewrite Hs; cbn; lia|].
    + rewrite Hs. repeat constructor.
    + intros u Hx%list_elem_of_singleton. by injection Hx as ->.
  - destruct (SessionClose c s) as [r s'] eqn:E. apply SessionClose_spec in E as [(_ & _ & ->)|(Hs & H & _)]; [done|]. apply rank_closed in Hs.
    eapply session_ok_ran; [done|exact H|reflexivity|repeat constructor| |cbn; lia|set_solver]. constructor; [cbn; lia|constructor].
  - destruct (SessionAbort cause s) as [x s'] eqn:E. apply SessionAbort_spec in E as [(_ & ->)|(Hs & H & _)]; [done|]. apply rank_closed in Hs.
    eapply session_ok_silent; [done|exact H|cbn; lia].
  - eapply session_ok_silent; [done|apply ran_pause|done].
Qed.

Definition refusal_reported (err : goerror) (log : list devent) : Prop :=
  coded err /\ forall e, EvTerminal (Some e) ∈ log -> err = errorCode e.

Lemma newStructureSession_spec c transport hasDeadline startTLS uid w err s w' log :
  newStructureSessionOver c transport hasDeadline startTLS uid w = (err, Some s, w', log) ->
  session_ok uid s /\ sticky s /\ dState s = structureConnected /\ commands log = [CmdGreeting startTLS] /\ log = dLog s
  /\ EvCredentials ∉ log
  /\ match err with None => looked log = [] | Some err => refusal_reported err log /\ EvClosed ∈ log end.
Proof.
  unfold newStructureSessionOver. destruct (negb transport); [done|]. destruct (negb hasDeadline || _) eqn:Eu; [done|].
  destruct (newStructureQuarantine uid) as [q|] eqn:En; [|done]. set (s0 := mkDedicated structureConnected uid _ w []).
  unfold dbind. destruct (send c _ s0) as [[a x] s1] eqn:E1. pose proof E1 as E1'. apply send_spec in E1 as [H1 Q1].
  assert (L1 : dLog s1 = [EvSent (CmdGreeting startTLS)]) by (unfold send in E1'; destruct (dc_send _ _ _ _) as [? [? ?]]; by injection E1' as _ <-).
  assert (Hs0 : session_ok uid s0).
  { assert (Hr : reachable uid (mkSystem q None [] [])) by (exists (mkSystem q None [] []); split; [by exists q|constructor]).
    split; [done|exact Hr|constructor|constructor|set_solver|]. left. cbn. unfold newStructureQuarantine in En. destruct (_ =? 0); [done|]. by injection En as <-. }
  assert (Hok1 : forall s2 st, ran st [] s1 s2 -> st = structureConnected -> session_ok uid s2).
  { intros s2 st H2 ->. destruct Hs0. pose proof (ran_nil _ _ _ _ _ _ H1 H2) as [].
    assert (Hc : commands (dLog s2) = [CmdGreeting startTLS]) by (rewrite r_commands0; done).
    split; [congruence|by eapply reachable_star|rewrite Hc; repeat constructor|rewrite Hc, r_state0; repeat constructor|rewrite Hc; intros u Hx%list_elem_of_singleton; done|].
    rewrite Hc. destruct so_idle0 as [Hi|[u Hx]]; [|set_solver]. destruct (r_idle0 uid so_reach0 Hi) as [?|[u Hu]]; [by left|].
    apply list_elem_of_singleton in Hu. done. }
  assert (St0 : sticky s0) by (intros e He; set_solver).
  destruct (startClient _ _ _) as [e0|].
  - destruct (record EvClosed s1) as [[] s2] eqn:E2. assert (L2 : dLog s2 = dLog s1 ++ [EvClosed]) by (by injection E2 as <-).
    apply record_spec in E2 as (H2 & Q2 & Hcl); [|done].
    destruct (refusal c (Some e0) s2) as [r s3] eqn:E3. pose proof E3 as E3'. apply refusal_spec in E3 as (H3 & d & -> & Hd).
    intros [= <- <- <- <-]. rewrite (r_state _ _ _ _ H1) in H2. rewrite (r_state _ _ _ _ H2) in H3.
    pose proof (ran_nil _ _ _ _ _ _ H2 H3) as H23. pose proof (ran_nil _ _ _ _ _ _ H1 H23) as H13.
    assert (Hst2 : sticky s2) by (eapply ran_sticky; [exact (ran_nil _ _ _ _ _ _ H1 H2)|done]).
    split; [by eapply Hok1|]. split; [by eapply ran_sticky|]. split; [by apply H3|]. split; [by rewrite (r_commands _ _ _ _ H13)|]. split; [done|].
    split.
    + destruct (refusal_log _ _ _ _ _ E3') as [->|[t ->]]; rewrite L2, L1; set_solver.
    + split; [split; [by eexists|]|destruct (r_log _ _ _ _ H3) as [l ->]; apply elem_of_app; by left].
      intros e He. by rewrite (Hd Hst2 e He).
  - unfold dret. intros [= <- <- <- <-]. rewrite L1. split; [eapply Hok1; [apply ran_refl|by apply H1]|]. split; [by eapply ran_sticky|].
    split; [by apply H1|]. split; [done|]. split; [done|]. split; [set_solver|done].
Qed.

(** C10: whatever methods are called on a session in whatever order, and
    however the client's reads interleave with them, its commands are sent in
    one fixed order, each at most once, the only FETCH being that of the
    selected UID; and the wire is framed as the quarantine promises, with at
    most one structure response released, and none before that FETCH. *)
Theorem session_single_dispatch uid c transport hasDeadline startTLS w err s0 w' log s :
  newStructureSessionOver c transport hasDeadline startTLS uid w = (err, Some s0, w', log) ->
  star session_call s0 s ->
  StronglySorted before (commands (dLog s)) /\ (forall u, CmdFetch u ∈ commands (dLog s) -> u = uid)
  /\ exists fs rest, QuarantineSystem.wire (dSystem s) = concat (map snd fs) ++ rest /\ Forall (frame_ok uid) fs
     /\ out (dSystem s) ++ pending (reader (dSystem s)) = released fs
     /\ structures fs <= 1 /\ (structures fs = 1 -> CmdFetch uid ∈ commands (dLog s)).
Proof.
  intros (Hok & _)%newStructureSession_spec Hstar.
  assert (session_ok uid s) as [] by (eapply star_invariant; [exact Hok|intros ? ?; apply session_ok_call|exact Hstar]).
  split; [done|]. split; [done|]. destruct (reachable_ok _ _ so_reach0) as [_ (fs & rest & Hw & Hf & Ho & Hs & _)].
  exists fs, rest. split; [done|]. split; [done|]. split; [done|]. rewrite Hs. destruct (decide _) as [Hd|]; [|done]. split; [done|]. intros _.
  destruct so_idle0 as [Hi|[u Hu]]; [congruence|]. by rewrite <- (so_fetch0 u Hu).
Qed.

(** ** One dedicated read *)

Definition read_commands (startTLS : bool) (request : structureRequest) : list command :=
  [CmdGreeting startTLS; CmdLogin; CmdExamine (rMailbox request); searchUID (rUID request); CmdFetch (rUID request)].

Definition zeroed (log : list devent) : Prop := EvCredentials ∈ log -> EvZeroed ∈ log.

Lemma zeroed_in (log log' : list devent) : log `prefix_of` log' -> EvZeroed ∈ log -> EvZeroed ∈ log'.
Proof. intros [l ->] H. apply elem_of_app. by left. Qed.

(** [cmds] were sent on the way, and what was seen of the quarantine stays. *)
Definition progress (cmds : list command) (s s' : dedicated W) : Prop :=
  commands (dLog s') = commands (dLog s) ++ cmds /\ dUID s' = dUID s /\ (sticky s -> sticky s').

Lemma progress_ran c1 c2 st s1 s2 s3 : progress c1 s1 s2 -> ran st c2 s2 s3 -> progress (c1 ++ c2) s1 s3.
Proof.
  intros (Hc & Hu & Ht) H. split; [rewrite (r_commands _ _ _ _ H), Hc; by rewrite app_assoc|].
  split; [by rewrite (r_uid _ _ _ _ H)|]. intros Hs. eapply ran_sticky; [exact H|by apply Ht].
Qed.

Lemma SessionAbort_log cause (s : dedicated W) x s' : SessionAbort cause s = (x, s') -> dLog s' = dLog s \/ dLog s' = dLog s ++ [EvClosed].
Proof.
  unfold SessionAbort, dbind, dret, finish, get_state. cbn. destruct (bool_decide _); cbn; [intros [= _ <-]; by left|].
  unfold pause, locked. cbn. destruct (dc_pause _ _). cbn. destruct (abort _ _). cbn. intros [= _ <-]. by right.
Qed.

(** Credentials and authentication: a failure, or an authenticated session. *)
Lemma run_authenticate {A} c (k : D W (A + goerror)) s r s' :
  check (looks (dc_credentials c)) (dbind (record EvCredentials) (fun _ => check (SessionAuthenticate c) k)) s = (r, s') ->
  dState s = structureConnected -> EvCredentials ∉ dLog s -> looked (dLog s) = [] ->
  (exists err cmds, r = inr err /\ progress cmds s s' /\ cmds `prefix_of` [CmdLogin] /\ dState s' <> structureClosed
    /\ (EvCredentials ∉ dLog s' \/ EvZeroed ∈ dLog s'))
  \/ exists s1, k s1 = (r, s') /\ progress [CmdLogin] s s1 /\ dState s1 = structureAuthenticated /\ EvZeroed ∈ dLog s1 /\ looked (dLog s1) = [].
Proof.
  intros H Hst Hcr Hlk. unfold check, dbind, dret in H.
  pose proof (ran_looks (dc_credentials c) s) as H1. destruct (looks _ s) as [err s1] eqn:E1. cbn [snd] in H1.
  assert (L1 : dLog s1 = dLog s) by (unfold looks in E1; destruct (dc_credentials _ _); by injection E1 as _ <-).
  assert (P0 : progress [] s s) by (split; [by rewrite app_nil_r|done]).
  destruct err as [err|].
  { injection H as <- <-. left. exists err, []. split; [done|]. split; [exact (progress_ran _ _ _ _ _ _ P0 H1)|].
    split; [apply prefix_nil|]. split; [rewrite (r_state _ _ _ _ H1); congruence|]. left. by rewrite L1. }
  destruct (record EvCredentials s1) as [[] s2] eqn:E2.
  assert (S2 : dState s2 = structureConnected /\ progress [] s s2 /\ looked (dLog s2) = []).
  { injection E2 as <-. unfold progress, sticky. cbn. rewrite commands_snoc, looked_snoc, L1, app_nil_r, Hlk. split; [rewrite (r_state _ _ _ _ H1); done|].
    split; [|done]. split; [done|]. split; [by apply H1|]. intros Hs e [He|He%list_elem_of_singleton]%elem_of_app; [|done].
    rewrite <- L1 in He. exact (ran_sticky _ _ _ _ H1 Hs e He). }
  destruct S2 as (S2 & P2 & K2). clear E2 E1 H1 L1.
  destruct (SessionAuthenticate c s2) as [err s3] eqn:E3. apply SessionAuthenticate_spec in E3 as [Hz [(? & _)|(_ & H3 & Q3)]]; [done|].
  pose proof (progress_ran _ _ _ _ _ _ P2 H3) as P3. assert (S3 : dState s3 = structureAuthenticated) by apply H3.
  destruct err as [err|].
  - injection H as <- <-. left. exists err, [CmdLogin]. split; [done|]. split; [done|]. split; [done|]. split; [congruence|by right].
  - right. exists s3. split; [done|]. split; [done|]. split; [done|]. split; [done|]. specialize (Q3 eq_refl). unfold quiet in Q3. congruence.
Qed.

(** [run] on a fresh session. *)
Lemma run_spec c request s r s' : run c request s = (r, s') -> dState s = structureConnected -> EvCredentials ∉ dLog s -> looked (dLog s) = [] ->
  exists cmds, progress cmds s s' /\ dState s' <> structureClosed /\ (EvCredentials ∉ dLog s' \/ EvZeroed ∈ dLog s')
  /\ let all := [CmdLogin; CmdExamine (rMailbox request); searchUID (dUID s); CmdFetch (dUID s)] in
     cmds `prefix_of` all /\ match r with
     | inl selected => cmds = all /\ EvZeroed ∈ dLog s' /\ looked (dLog s') = []
         /\ (rUIDValidity request <> 0 -> UIDValidity (Snapshot selected) = rUIDValidity request)
     | inr _ => True
     end.
Proof.
  intros H Hst Hcr Hlk. unfold run in H. cbv zeta.
  apply run_authenticate in H as [(err & cmds & -> & P & Hp & Hs & Hz)|(s1 & H & P1 & S1 & Z1 & K1)]; [| |done..].
  { exists cmds. split; [done|]. split; [done|]. split; [done|]. split; [|done]. etrans; [exact Hp|]. by apply prefix_cons, prefix_nil. }
  assert (U1 : dUID s1 = dUID s) by apply P1.
  unfold dtry, dbind, dret in H. destruct (SessionExamine c _ s1) as [r2 s2] eqn:E2.
  apply SessionExamine_spec in E2 as [(? & _)|(_ & cmds & H2 & Hp2 & R2)]; [done|]. rewrite U1 in Hp2, R2.
  pose proof (progress_ran _ _ _ _ _ _ P1 H2) as P2. assert (S2 : dState s2 = structureSelected) by apply H2.
  pose proof (zeroed_in _ _ (r_log _ _ _ _ H2) Z1) as Z2.
  assert (Hpre : [CmdLogin] ++ cmds `prefix_of` [CmdLogin; CmdExamine (rMailbox request); searchUID (dUID s); CmdFetch (dUID s)]).
  { apply (prefix_app [CmdLogin]). etrans; [exact Hp2|]. by exists [CmdFetch (dUID s)]. }
  assert (Hearly : forall err : goerror, r = inr err -> s' = s2 -> exists cmds', progress cmds' s s' /\ dState s' <> structureClosed
    /\ (EvCredentials ∉ dLog s' \/ EvZeroed ∈ dLog s')
    /\ cmds' `prefix_of` [CmdLogin; CmdExamine (rMailbox request); searchUID (dUID s); CmdFetch (dUID s)]
    /\ match r with inl selected => cmds' = [CmdLogin; CmdExamine (rMailbox request); searchUID (dUID s); CmdFetch (dUID s)] /\ EvZeroed ∈ dLog s' /\ looked (dLog s') = []
         /\ (rUIDValidity request <> 0 -> UIDValidity (Snapshot selected) = rUIDValidity request) | inr _ => True end).
  { intros err -> ->. exists ([CmdLogin] ++ cmds). split; [done|]. split; [congruence|]. split; [by right|]. done. }
  destruct r2 as [snapshot|err]; [|injection H as <- <-; by eapply Hearly]. destruct R2 as [-> Q2].
  destruct (negb (rUIDValidity request =? 0) && _) eqn:Ev; [injection H as <- <-; by eapply Hearly|]. clear Hearly.
  destruct (FetchStructure c s2) as [r3 s3] eqn:E3. apply FetchStructure_spec in E3 as [(? & _)|(_ & cmds & H3 & Hp3 & R3)]; [done|].
  assert (U2 : dUID s2 = dUID s) by apply P2. rewrite U2 in Hp3, R3. pose proof (progress_ran _ _ _ _ _ _ P2 H3) as P3.
  assert (S3 : dState s3 = structureDispatched) by apply H3. pose proof (zeroed_in _ _ (r_log _ _ _ _ H3) Z2) as Z3.
  destruct r3 as [st|err]; injection H as <- <-; (eexists; split; [exact P3|]; split; [congruence|]; split; [by right|]).
  - destruct R3 as [-> Q3]. split; [done|]. split; [done|]. split; [done|]. split; [unfold quiet in *; congruence|].
    intros Hne. cbn. destruct (Z.eqb_spec (rUIDValidity request) 0); [done|]. cbn in Ev. by destruct (Z.eqb_spec (UIDValidity snapshot) (rUIDValidity request)).
  - split; [|done]. by apply (prefix_app [CmdLogin; CmdExamine (rMailbox request); searchUID (dUID s)]).
Qed.

Lemma finishRead_spec c request s r s' : finishRead c request s = (r, s') -> dState s = structureConnected -> EvCredentials ∉ dLog s -> looked (dLog s) = [] ->
  sticky s -> dUID s = rUID request ->
  exists cmds, commands (dLog s') = commands (dLog s) ++ cmds /\ zeroed (dLog s') /\ EvClosed ∈ dLog s'
  /\ let all := [CmdLogin; CmdExamine (rMailbox request); searchUID (rUID request); CmdFetch (rUID request); CmdLogout] in
     cmds `prefix_of` all /\ match r with
     | inl selected => cmds = all /\ looked (dLog s') = [] /\ (rUIDValidity request <> 0 -> UIDValidity (Snapshot selected) = rUIDValidity request)
     | inr err => refusal_reported err (dLog s')
     end.
Proof.
  intros H Hst Hcr Hlk Hsk Hu. unfold finishRead, check, dbind, dret in H. destruct (run c request s) as [result s1] eqn:E1.
  apply run_spec in E1 as (cmds & (C1 & _ & T1) & S1 & Z1 & P1 & R1); [|done..]. rewrite Hu in P1, R1. specialize (T1 Hsk).
  destruct result as [selected|err0].
  - destruct R1 as (-> & Z & K1 & V1). destruct (SessionClose c s1) as [err s2] eqn:E2.
    pose proof E2 as E2'. apply SessionClose_spec in E2 as [(? & _)|(_ & H2 & Hc & R2)]; [done|].
    exists [CmdLogin; CmdExamine (rMailbox request); searchUID (rUID request); CmdFetch (rUID request); CmdLogout].
    assert (C2 : commands (dLog s2) = commands (dLog s) ++ [CmdLogin; CmdExamine (rMailbox request); searchUID (rUID request); CmdFetch (rUID request); CmdLogout])
      by (rewrite (r_commands _ _ _ _ H2), C1; by rewrite <- app_assoc).
    assert (Z2 : zeroed (dLog s2)).
    { intros _. by eapply zeroed_in; [exact (r_log _ _ _ _ H2)|]. }
    destruct err as [err|]; injection H as <- <-; (split; [done|]; split; [done|]; split; [done|]; split; [done|]).
    + destruct R2 as (d & -> & Hd). split; [by eexists|]. intros e He. by rewrite (Hd T1 e He).
    + split; [done|]. split; [unfold quiet in *; congruence|done].
  - destruct (refusal c (Some err0) s1) as [err s2] eqn:E2. pose proof (refusal_log _ _ _ _ _ E2) as L2. apply refusal_spec in E2 as (H2 & d & -> & Hd). cbn [default] in H.
    destruct (SessionAbort _ s2) as [x s3] eqn:E3. pose proof (SessionAbort_log _ _ _ _ E3) as L3.
    apply SessionAbort_spec in E3 as [(Hc & _)|(_ & H3 & Q3 & Hc)]; [rewrite (r_state _ _ _ _ H2) in Hc; done|]. injection H as <- <-.
    exists cmds. split; [by rewrite (r_commands _ _ _ _ H3), (r_commands _ _ _ _ H2), C1, !app_nil_r|].
    split; [|split; [done|split]].
    + destruct Z1 as [Hn|Hz]; [|intros _; eapply zeroed_in; [exact (r_log _ _ _ _ H3)|]; by eapply zeroed_in; [exact (r_log _ _ _ _ H2)|]].
      intros Hx. exfalso. destruct L2 as [L2|[t L2]], L3 as [L3|L3]; rewrite L3, L2 in Hx; set_solver.
    + destruct P1 as [k Hk]. exists (k ++ [CmdLogout]). by rewrite app_assoc, <- Hk.
    + split; [by eexists|]. intros e He. assert (He2 : EvTerminal (Some e) ∈ dLog s2) by (destruct L3 as [L3|L3]; rewrite L3 in He; set_solver).
      by rewrite (Hd T1 e He2).
Qed.

(** C18: a dedicated read sends a prefix of LOGIN, EXAMINE, the search for
    the requested UID, its FETCH and LOGOUT, in this order; it succeeds only
    after all of them, with no refusal seen and under the requested
    generation.  Whatever happens, once a session was opened the transport is
    closed and loaded credentials are erased, and a failure is a bridge code,
    which is the quarantine's refusal whenever one was seen. *)
Theorem read_structure_exact config parent request w r w' log :
  readStructure config parent request w = (r, w', log) -> commands log <> [] ->
  zeroed log /\ EvClosed ∈ log
  /\ exists startTLS, let all := read_commands startTLS request ++ [CmdLogout] in
     commands log `prefix_of` all
     /\ match r with
        | inl selected => commands log = all /\ looked log = []
            /\ (rUIDValidity request <> 0 -> UIDValidity (Snapshot selected) = rUIDValidity request)
        | inr err => refusal_reported err log
        end.
Proof.
  unfold readStructure. destruct (_ =? 0); [by intros [= <- <- <-]|]. destruct (dc_with_timeout _ _ w) as [c w1].
  destruct (dc_dial c w1) as [[connection|err] w2]; [|by intros [= <- <- <-]].
  destruct (takeConn _) as [[startTLS inert]|err]; [|by intros [= <- <- <-]].
  destruct (newStructureSessionOver _ _ _ _ _ _) as [[[err s] w3] log3] eqn:En. destruct s as [s|].
  2:{ unfold newStructureSessionOver in En. cbn [negb orb] in En. destruct (_ =? 0); [injection En as <- <- <-; by intros [= <- <- <-]|].
      destruct (newStructureQuarantine _); [by destruct (dbind _ _ _)|]. injection En as <- <- <-. by intros [= <- <- <-]. }
  pose proof En as En'. apply newStructureSession_spec in En as (Hok & Hsk & Hst & Hc & -> & Hcr & He).
  destruct err as [err|].
  - intros [= <- <- <-] _. destruct He as [Hr Hcl]. split; [by intros ?|]. split; [done|]. exists startTLS. cbn zeta. rewrite Hc. split; [|done].
    by apply prefix_cons, prefix_nil.
  - destruct (finishRead c request s) as [r1 s1] eqn:Ef. intros [= <- <- <-] _.
    apply finishRead_spec in Ef as (cmds & Cm & Z & Hcl & P & R); [|done..|by apply Hok]. split; [done|]. split; [done|]. exists startTLS. cbn zeta in *.
    rewrite Cm, Hc. split; [by apply (prefix_app [CmdGreeting startTLS])|]. destruct r1; [|done]. destruct R as (-> & R). done.
Qed.
End SessionSpec.

(** ** A client *)

(** What a reader with a buffer of [n] bytes does next when the transport
    holds [chunk]. *)
Definition client_read (n : nat) (chunk : bytes) (s : system) : system :=
  match awaiting s with
  | Some limit =>
      if zlen chunk <=? limit then mkSystem (readAbsorb chunk None (reader s)) None (QuarantineSystem.wire s ++ chunk) (out s) else s
  | None =>
      match readPrepare n (reader s) with
      | (q, readReturn data err) => mkSystem q None (QuarantineSystem.wire s) (out s ++ data)
      | (q, readSource limit) => mkSystem q (Some limit) (QuarantineSystem.wire s) (out s)
      end
  end.

Lemma client_read_star n chunk s s' : star client_step s s' -> star client_step s (client_read n chunk s').
Proof.
  intros H. unfold client_read. destruct s' as [q [limit|] w o]; cbn.
  - destruct (Z.leb_spec (zlen chunk) limit); [|done]. eapply star_snoc; [exact H|]. by constructor.
  - destruct (readPrepare n q) as [q' [data err|limit]] eqn:E; (eapply star_snoc; [exact H|]; econstructor; exact E).
Qed.

Definition sample_fetch : bytes := $"* 1 FETCH (UID 7 BODYSTRUCTURE (" ++ [x22] ++ $"text" ++ [x22] ++ $" " ++ [x22] ++ $"plain" ++ [x22]
  ++ $" NIL NIL NIL " ++ [x22] ++ $"7bit" ++ [x22] ++ $" 10 1 NIL NIL NIL NIL))" ++ [x0d; x0a].

Definition sample_around : around := mkAround live_ctx false.
Definition sample_part : bodyStructure := singlePart $"text" $"plain" ∅ 10 None.

Definition sample_send (cmd : command) (s : system) : around * reply cmd * (system * unit) :=
  let s' := match cmd with CmdFetch _ => client_read 4096 [] (client_read 4096 sample_fetch (client_read 4096 [] s)) | _ => s end in
  (sample_around,
   match cmd return reply cmd with
   | CmdGreeting _ => (None, true)
   | CmdLogin => mkLogin None false None false true
   | CmdExamine _ => inl (mkSnapshot 8 1)
   | CmdSearch _ => (mkObservation false true false false false false, inl (mkSearchData (AllUIDs [(7, 7)]) 0 0 0))
   | CmdFetch _ => mkReply [[FetchUID 7; FetchBodyStructure true (Some sample_part)]] None
   | CmdLogout => None
   end, (s', tt)).

#[local] Program Instance sample_client : DedicatedClient unit unit := {|
  dc_with_timeout := fun _ _ w => (tt, w);
  dc_now := fun _ w => (live_ctx, w);
  dc_dial := fun _ w => (inl (mkConnection true true), w);
  dc_credentials := fun _ w => (None, w);
  dc_send := fun _ cmd s w => sample_send cmd s;
  dc_pause := fun s w => (s, w) |}.
Next Obligation. intros c cmd s w. destruct cmd; cbn -[client_read]; try constructor. do 3 apply client_read_star. constructor. Qed.
Next Obligation. intros s w. constructor. Qed.

Definition sample_request : structureRequest := mkRequest $"INBOX" 7 1.
Definition sample_validated : ValidatedConfig := mkValidated (mkIMAP [] 1143 [] [] (mkTLS [] [] []) 5000 5000) defaultBounds false.

Definition sample_quarantine : structureQuarantine :=
  mkQuarantine 7 quarantineIdle [] None 0 0 0 quarantineBetween [] 0 0 false fetchOpen 0 0 previousOpen itemName itemUID false 0 0 0 0 0 0 0.
Definition sample_session : dedicated unit :=
  mkDedicated structureConnected 7 (mkSystem sample_quarantine None [] []) tt [EvSent (CmdGreeting true)].
Definition sample_examined : dedicated unit := snd (SessionExamine tt $"INBOX" (snd (SessionAuthenticate tt sample_session))).
Definition sample_fetched : dedicated unit := snd (FetchStructure tt sample_examined).

Lemma session_single_dispatch_witness :
  out (dSystem sample_fetched) = sample_fetch
  /\ StronglySorted before (commands (dLog sample_fetched)) /\ (forall u, CmdFetch u ∈ commands (dLog sample_fetched) -> u = 7)
  /\ exists fs rest, QuarantineSystem.wire (dSystem sample_fetched) = concat (map snd fs) ++ rest /\ Forall (frame_ok 7) fs
     /\ out (dSystem sample_fetched) ++ pending (reader (dSystem sample_fetched)) = released fs
     /\ structures fs <= 1 /\ (structures fs = 1 -> CmdFetch 7 ∈ commands (dLog sample_fetched)).
Proof.
  split; [vm_compute; reflexivity|].
  apply (session_single_dispatch 7 tt true true true tt None sample_session tt [EvSent (CmdGreeting true)]); [vm_compute; reflexivity|].
  eapply star_snoc; [|apply call_fetch]. eapply star_snoc; [|apply call_examine]. eapply star_snoc; [|apply call_authenticate]. constructor.
Defined.

Definition sample_log : list devent :=
  [EvSent (CmdGreeting true); EvCredentials; EvSent CmdLogin; EvZeroed; EvSent (CmdExamine $"INBOX"); EvSent (searchUID 7); EvSent (CmdFetch 7); EvSent CmdLogout; EvClosed].

Lemma read_structure_exact_witness :
  zeroed sample_log /\ EvClosed ∈ sample_log
  /\ exists startTLS, let all := read_commands startTLS sample_request ++ [CmdLogout] in
     commands sample_log `prefix_of` all
     /\ commands sample_log = all /\ looked sample_log = [] /\ (rUIDValidity sample_request <> 0 -> UIDValidity (mkSnapshot 8 1) = rUIDValidity sample_request).
Proof.
  apply (read_structure_exact sample_validated tt sample_request tt (inl (mkSelected (mkSnapshot 8 1) sample_part)) tt sample_log);
    [vm_compute; reflexivity|by vm_compute].
Defined.

(** ** The adapter's operation *)

Section OperationSpec.
Context {W S C : Type} `{B : Backend W S C}.
Variable config : ValidatedConfig.
Variable decodeMessageID : bytes -> messageIDPayload + goerror.
Variable ParseMediaType : bytes -> option (bytes * gmap bytes bytes).
Variable read : C -> structureRequest -> W -> (selectedStructure + goerror) * W.

(** The retained session is left alone. *)
Definition aside (s s' : st W S) : Prop := session s' = session s /\ closed s' = closed s /\ held s' = held s /\ log s' = log s.

Lemma outside_aside {A} (f : W -> A * W) (s : st W S) a s' : outside f s = (a, s') -> aside s s'.
Proof. unfold outside. destruct (f _). by intros [= <- <-]. Qed.

Lemma aside_trans s1 s2 s3 : aside s1 s2 -> aside s2 s3 -> aside s1 s3.
Proof. unfold aside. intuition congruence. Qed.

Lemma attempts_aside c request n s r s' : readStructureAttempts read c request n s = (r, s') -> aside s s'.
Proof.
  revert s. induction n as [|n IH]; intros s; cbn [readStructureAttempts]; [by intros [-> ->]%ret_inv|].
  intros (a & s1 & H1%outside_aside & H)%bind_inv. destruct a as [selected|err]; [by apply ret_inv in H as [-> ->]|].
  apply bind_inv in H as (err1 & s2 & H2 & H). unfold mapError in H2. apply bind_inv in H2 as (now & s3 & H3%outside_aside & [-> ->]%ret_inv).
  apply bind_inv in H as (replay & s4 & H4 & H). assert (aside s3 s4).
  { destruct (n =? 1)%nat; [|by apply ret_inv in H4 as [-> ->]]. unfold canReplay in H4. by apply bind_inv in H4 as (? & ? & H5%outside_aside & [-> ->]%ret_inv). }
  pose proof (aside_trans _ _ _ H1 (aside_trans _ _ _ H3 H0)) as K. destruct replay; [apply IH in H; by eapply aside_trans|by apply ret_inv in H as [-> ->]].
Qed.

(** The operation leaves the retained session and the log of its traffic as
    they were and returns the gate; a result is the projection of a structure
    that a dedicated read gave for the identifier's message. *)
Lemma attachment_structure_isolated c identifier s r s' :
  GetMessageAttachmentStructure config decodeMessageID ParseMediaType read c identifier s = (r, s') ->
  session s' = session s /\ closed s' = closed s /\ log s' = log s /\ (held s' = false \/ held s' = held s)
  /\ match r with
     | inr _ => True
     | inl m => closed s = false /\ masID m = identifier
         /\ decodeMessageID identifier = inl (mkPayload (masMailbox m) (masUIDValidity m) (masUID m))
         /\ exists structure, projectAttachmentStructure ParseMediaType structure (vBounds config) = inl (masAttachments m, masTruncation m)
     end.
Proof.
  unfold GetMessageAttachmentStructure. destruct (decodeMessageID identifier) as [payload|err] eqn:Ed; [|intros [-> ->]%ret_inv; eauto 6].
  intros (busy & s1 & Ha & H)%bind_inv. unfold acquire in Ha. apply bind_inv in Ha as (done & s2 & H2%outside_aside & Ha).
  destruct H2 as (A1 & A2 & A3 & A4). destruct done.
  { apply bind_inv in Ha as (now & s3 & H3%outside_aside & Ha). unfold mapError in Ha. apply bind_inv in Ha as (e & s4 & Hm & [-> ->]%ret_inv).
    apply bind_inv in Hm as (now' & s5 & H5%outside_aside & [-> ->]%ret_inv). apply ret_inv in H as [-> ->]. unfold aside in *. intuition congruence. }
  injection Ha as <- <-. apply bind_inv in H as (cl & s3 & Hg & H). injection Hg as <- <-. cbn [closed] in H.
  rewrite <- A2. destruct (closed s2) eqn:Ec; [injection H as <- <-; cbn; intuition congruence|].
  apply bind_inv in H as (oc & s4 & H4 & H). unfold operationContext in H4. apply bind_inv in H4 as (rem & s5 & H5%outside_aside & H6%outside_aside).
  apply bind_inv in H as (selected & s6 & H7%attempts_aside & H). pose proof (aside_trans _ _ _ H5 (aside_trans _ _ _ H6 H7)) as (K1 & K2 & K3 & K4). cbn in K1, K2, K4.
  cbv zeta in H. apply bind_inv in H as (u & s7 & H8 & H). unfold cancel in H8. apply outside_aside in H8. destruct H8 as (L1 & L2 & L3 & L4). injection H as <- <-. cbn.
  split; [congruence|]. split; [congruence|]. split; [congruence|]. split; [by left|].
  destruct selected as [selected|]; [|done]. destruct (projectAttachmentStructure _ _ _) as [[attachments truncation]|] eqn:Ep; [|done].
  cbn. destruct payload. eauto.
Qed.
End OperationSpec.
