(* ===== verification/StrictJson.v ===== *)
(** * Strict JSON objects

    [internal/strictjson]: the walk over a decoder's tokens that admits
    exactly one bounded, unambiguous object or array.  [strings.EqualFold] on
    arbitrary strings needs Unicode's folding tables and is a parameter, as is
    [decodeExact]'s reflection over the target. *)
From Stdlib Require Import ZArith Lia Strings.Byte.
From stdpp Require Import base list strings.
From S2P Require Import Prelude GoStrings GoText GoJson.

Definition maxNestingDepth : Z := 32.

Section StrictJson.
Variable EqualFold : bytes -> bytes -> bool.

Section Consume.
Variables (rejectNull foldAliases : bool).

(** [consumeValue], [consumeObject] and [consumeArray]: the decoder behind an
    admitted value, or [None] for false.  [seen] are the keys so far; the
    folded keys are the same list.  Each turn consumes a byte, so the length
    of the input is enough fuel. *)
Fixpoint consumeValue (fuel : nat) (d : decoder) (depth : Z) : option decoder :=
  match fuel with
  | O => None
  | S fuel =>
      match Token d with
      | inr _ => None
      | inl (t, d) =>
          if rejectNull && match t with TNull => true | _ => false end then None
          else match t with
          | Delim "{"%byte => if maxNestingDepth <? depth + 1 then None else consumeMembers fuel d (depth + 1) []
          | Delim "["%byte => if maxNestingDepth <? depth + 1 then None else consumeElements fuel d (depth + 1)
          | Delim _ => None
          | _ => Some d
          end
      end
  end
with consumeMembers (fuel : nat) (d : decoder) (depth : Z) (seen : list bytes) : option decoder :=
  match fuel with
  | O => None
  | S fuel =>
      if More d then
        match Token d with
        | inl (TString key, d) =>
            if existsb (beqs key) seen then None
            else if foldAliases && existsb (fun existing => EqualFold existing key) seen then None
            else match consumeValue fuel d depth with
                 | Some d => consumeMembers fuel d depth (seen ++ [key])
                 | None => None
                 end
        | _ => None
        end
      else match Token d with
           | inl (Delim "}"%byte, d) => Some d
           | _ => None
           end
  end
with consumeElements (fuel : nat) (d : decoder) (depth : Z) : option decoder :=
  match fuel with
  | O => None
  | S fuel =>
      if More d then
        match consumeValue fuel d depth with
        | Some d => consumeElements fuel d depth
        | None => None
        end
      else match Token d with
           | inl (Delim "]"%byte, d) => Some d
           | _ => None
           end
  end.

(** The equations of the walk. *)
Lemma consumeValue_S fuel d depth : consumeValue (S fuel) d depth =
  match Token d with
  | inr _ => None
  | inl (t, d) =>
      if rejectNull && match t with TNull => true | _ => false end then None
      else match t with
      | Delim "{"%byte => if maxNestingDepth <? depth + 1 then None else consumeMembers fuel d (depth + 1) []
      | Delim "["%byte => if maxNestingDepth <? depth + 1 then None else consumeElements fuel d (depth + 1)
      | Delim _ => None
      | _ => Some d
      end
  end.
Proof. reflexivity. Qed.
Lemma consumeMembers_S fuel d depth seen : consumeMembers (S fuel) d depth seen =
  if More d then
    match Token d with
    | inl (TString key, d) =>
        if existsb (beqs key) seen then None
        else if foldAliases && existsb (fun existing => EqualFold existing key) seen then None
        else match consumeValue fuel d depth with
             | Some d => consumeMembers fuel d depth (seen ++ [key])
             | None => None
             end
    | _ => None
    end
  else match Token d with inl (Delim "}"%byte, d) => Some d | _ => None end.
Proof. reflexivity. Qed.
Lemma consumeElements_S fuel d depth : consumeElements (S fuel) d depth =
  if More d then match consumeValue fuel d depth with Some d => consumeElements fuel d depth | None => None end
  else match Token d with inl (Delim "]"%byte, d) => Some d | _ => None end.
Proof. reflexivity. Qed.
End Consume.

Definition consumeFuel (data : bytes) : nat := 3 * (length data + 1).

(** The first token, the walk and the end of the input. *)
Definition validateComposite (opening : byte) (walk : nat -> decoder -> option decoder) (data : bytes) (maximumBytes : Z) : bool :=
  if (zlen data =? 0) || (maximumBytes <=? 0) || (maximumBytes <? zlen data) then false
  else
    match Token (newDecoder data) with
    | inl (Delim c, d) =>
        if negb (c =b opening) then false
        else match walk (consumeFuel data) d with
             | Some d => match Token d with inr tokenEOF => true | _ => false end
             | None => false
             end
    | _ => false
    end.

Definition validateObject (data : bytes) (maximumBytes : Z) (rejectNull foldAliases : bool) : bool :=
  validateComposite "{"%byte (fun fuel d => consumeMembers rejectNull foldAliases fuel d 1 []) data maximumBytes.

Definition validateArray (data : bytes) (maximumBytes : Z) : bool :=
  validateComposite "["%byte (fun fuel d => consumeElements false true fuel d 1) data maximumBytes.

Definition ValidateObject (data : bytes) (maximumBytes : Z) : bool := validateObject data maximumBytes false false.

Section Decode.
(** [decodeExact] into a target: its value, when every field is known and has
    its type. *)
Context {T : Type}.
Variable decodeExact : bytes -> option T.

Definition DecodeObject (data : bytes) (maximumBytes : Z) : option T :=
  let data := if zlen data =? 0 then $"{}" else data in
  if validateObject data maximumBytes true true then decodeExact data else None.

Definition DecodeArray (data : bytes) (maximumBytes : Z) : option T :=
  if validateArray data maximumBytes then decodeExact data else None.

Definition DecodeValue (data : bytes) (maximumBytes : Z) : option T :=
  match trim_space data with
  | "{"%byte :: _ => if validateObject data maximumBytes false true then decodeExact data else None
  | "["%byte :: _ => if validateArray data maximumBytes then decodeExact data else None
  | _ => None
  end.
End Decode.
End StrictJson.
