(* ===== verification/StrictJsonSpec.v ===== *)
(** * What strict JSON admits

    The walk admits exactly the inputs that the grammar reads as one
    unambiguous object (or array) within the depth limit. *)
From Stdlib Require Import ZArith Lia Strings.Byte.
From stdpp Require Import base list strings sorting.
From S2P Require Import Prelude GoStrings GoText GoJson StrictJson.

(** ** The reference *)

Fixpoint nesting (j : json) : Z :=
  match j with
  | JScalar _ => 0
  | JArray l => 1 + foldr Z.max 0 (map nesting l)
  | JObject m => 1 + foldr Z.max 0 (map (fun kv => nesting (snd kv)) m)
  end.

Section Spec.
Variable EqualFold : bytes -> bytes -> bool.

Section Walk.
Variables (rejectNull foldAliases : bool).

(** No two keys are equal, nor, where aliases are folded, equal under folding. *)
Definition distinct_keys (keys : list bytes) : Prop :=
  NoDup keys /\ (foldAliases = true -> StronglySorted (fun a b => EqualFold a b = false) keys).

(** Distinct keys at any depth, and no null where nulls are rejected. *)
Fixpoint unambiguous (j : json) : Prop :=
  match j with
  | JScalar t => rejectNull = true -> t <> TNull
  | JArray l => Forall id (map unambiguous l)
  | JObject m => distinct_keys (map fst m) /\ Forall id (map (fun kv => unambiguous (snd kv)) m)
  end.

Lemma maxes_nonneg (l : list Z) : 0 <= foldr Z.max 0 l.
Proof. induction l; cbn; lia. Qed.

Definition fits (depth : Z) (j : json) : Prop := unambiguous j /\ depth + nesting j <= maxNestingDepth.

Lemma fits_array depth l : fits depth (JArray l) <-> Forall (fits (depth + 1)) l /\ depth + 1 <= maxNestingDepth.
Proof.
  unfold fits. cbn. split.
  - intros [H1 H2]. split; [|pose proof (maxes_nonneg (map nesting l)); lia].
    induction l as [|j l IH]; [constructor|]. cbn in H1, H2. apply Forall_cons in H1 as [H1 H1']. constructor; [split; [done|lia]|]. apply IH; [done|lia].
  - intros [H Hd]. induction l as [|j l IH]; cbn; [split; [constructor|lia]|]. apply Forall_cons in H as [[H1 H2] H]. destruct (IH H) as [K1 K2].
    split; [by constructor|lia].
Qed.

Lemma fits_object depth m : fits depth (JObject m) <-> distinct_keys (map fst m) /\ Forall (fits (depth + 1)) (map snd m) /\ depth + 1 <= maxNestingDepth.
Proof.
  assert (H : fits depth (JObject m) <-> distinct_keys (map fst m) /\ fits depth (JArray (map snd m))).
  { unfold fits. cbn. rewrite !map_map. tauto. }
  by rewrite H, fits_array.
Qed.

(** The check of one key against those before it. *)
Lemma distinct_refused seen key keys : distinct_keys (seen ++ key :: keys) ->
  existsb (beqs key) seen = false /\ (foldAliases && existsb (fun existing => EqualFold existing key) seen) = false.
Proof.
  intros [Hn Hs]. split.
  - apply not_true_iff_false. rewrite existsb_exists. intros (k & Hk & He). apply beqs_eq in He as ->.
    apply NoDup_app in Hn as (_ & Hd & _). apply (Hd k); [by apply list_elem_of_In|by constructor].
  - destruct foldAliases; [|done]. specialize (Hs eq_refl). apply not_true_iff_false. cbn. rewrite existsb_exists. intros (k & Hk & He).
    apply StronglySorted_app in Hs as (Hx & _). rewrite <- list_elem_of_In in Hk. rewrite (Hx k key Hk) in He; [done|by constructor].
Qed.

Lemma distinct_nil : distinct_keys [].
Proof. split; [constructor|intros _; constructor]. Qed.

Lemma distinct_more seen key : distinct_keys seen -> existsb (beqs key) seen = false ->
  (foldAliases && existsb (fun existing => EqualFold existing key) seen) = false -> distinct_keys (seen ++ [key]).
Proof.
  intros [Hn Hs] H1 H2. split.
  - apply NoDup_app. split; [done|]. split; [|by apply NoDup_singleton]. intros k Hk ->%list_elem_of_singleton.
    rewrite <- not_true_iff_false, existsb_exists in H1. apply H1. exists key. rewrite beqs_refl. by rewrite <- list_elem_of_In.
  - intros ->. apply StronglySorted_app. split; [|split; [by apply Hs|repeat constructor]]. intros k k' Hk ->%list_elem_of_singleton.
    rewrite <- not_true_iff_false in H2. cbn in H2. rewrite existsb_exists in H2. apply not_true_iff_false. intros He. apply H2. exists k. by rewrite <- list_elem_of_In.
Qed.

#[local] Abbreviation consumeValue := (consumeValue EqualFold rejectNull foldAliases).
#[local] Abbreviation consumeMembers := (consumeMembers EqualFold rejectNull foldAliases).
#[local] Abbreviation consumeElements := (consumeElements EqualFold rejectNull foldAliases).

Lemma consume_sound fuel :
  (forall d depth d', depth <= maxNestingDepth -> consumeValue fuel d depth = Some d' -> exists j, reads d j d' /\ fits depth j)
  /\ (forall d depth d', depth <= maxNestingDepth -> consumeElements fuel d depth = Some d' -> exists l, elements d l d' /\ Forall (fits depth) l)
  /\ (forall d depth seen d', depth <= maxNestingDepth -> distinct_keys seen -> consumeMembers fuel d depth seen = Some d' ->
        exists m, members d m d' /\ distinct_keys (seen ++ map fst m) /\ Forall (fits depth) (map snd m)).
Proof.
  induction fuel as [|fuel (IHv & IHe & IHm)]; [done|].
  split; [|split].
  - intros d depth d' Hd. rewrite consumeValue_S. destruct (Token d) as [[t d1]|] eqn:Et; [|done]. destruct (rejectNull && _) eqn:En; [done|].
    assert (Hs : (forall c, t <> Delim c) -> Some d1 = Some d' -> exists j, reads d j d' /\ fits depth j).
    { intros Ht [= <-]. exists (JScalar t). split; [by constructor|]. split; [|cbn; lia]. cbn. intros -> ->. done. }
    destruct t as [c| | | |]; try (by apply Hs). clear Hs.
    destruct (decide (c = "{"%byte)) as [->|H1]; [|destruct (decide (c = "["%byte)) as [->|H2]; [|by destruct c]].
    + destruct (maxNestingDepth <? depth + 1) eqn:Ed; [done|]. bool_prop. intros H. apply IHm in H as (m & Hm & Hk & Hf); [|lia|apply distinct_nil].
      exists (JObject m). split; [by econstructor|]. apply fits_object. split; [done|]. split; [done|lia].
    + destruct (maxNestingDepth <? depth + 1) eqn:Ed; [done|]. bool_prop. intros H. apply IHe in H as (l & Hl & Hf); [|lia].
      exists (JArray l). split; [by econstructor|]. apply fits_array. split; [done|lia].
  - intros d depth d' Hd. rewrite consumeElements_S. destruct (More d) eqn:Em.
    + destruct (consumeValue fuel d depth) as [d1|] eqn:E; [|done]. intros H. apply IHv in E as (j & Hj & Hf); [|done].
      apply IHe in H as (l & Hl & Hfl); [|done]. exists (j :: l). split; [by econstructor|by constructor].
    + destruct (Token d) as [[[c| | | |] d1]|] eqn:Et; try done. destruct (decide (c = "]"%byte)) as [->|Hc]; [|by destruct c].
      intros [= <-]. exists []. split; [by constructor|constructor].
  - intros d depth seen d' Hd Hseen. rewrite consumeMembers_S. destruct (More d) eqn:Em.
    + destruct (Token d) as [[[c|key| | |] d1]|] eqn:Et; try done.
      destruct (existsb (beqs key) seen) eqn:E1; [done|]. destruct (foldAliases && _) eqn:E2; [done|].
      destruct (consumeValue fuel d1 depth) as [d2|] eqn:E; [|done]. intros H. apply IHv in E as (j & Hj & Hf); [|done].
      apply IHm in H as (m & Hm & Hk & Hfm); [|done|by apply distinct_more]. exists ((key, j) :: m). split; [by econstructor|].
      split; [cbn; by rewrite <- app_assoc in Hk|by constructor].
    + destruct (Token d) as [[[c| | | |] d1]|] eqn:Et; try done. destruct (decide (c = "}"%byte)) as [->|Hc]; [|by destruct c].
      intros [= <-]. exists []. split; [by constructor|]. split; [by rewrite app_nil_r|constructor].
Qed.

Lemma consume_complete :
  (forall d j d', reads d j d' -> forall fuel depth, (2 * length (rest d) < fuel)%nat -> fits depth j -> consumeValue fuel d depth = Some d')
  /\ (forall d l d', elements d l d' -> forall fuel depth, (2 * length (rest d) + 1 < fuel)%nat -> Forall (fits depth) l -> consumeElements fuel d depth = Some d')
  /\ (forall d m d', members d m d' -> forall fuel depth seen, (2 * length (rest d) < fuel)%nat -> distinct_keys (seen ++ map fst m) ->
        Forall (fits depth) (map snd m) -> consumeMembers fuel d depth seen = Some d').
Proof.
  apply (reads_elements_members (fun d j d' _ => forall fuel depth, (2 * length (rest d) < fuel)%nat -> fits depth j -> consumeValue fuel d depth = Some d')
    (fun d l d' _ => forall fuel depth, (2 * length (rest d) + 1 < fuel)%nat -> Forall (fits depth) l -> consumeElements fuel d depth = Some d')
    (fun d m d' _ => forall fuel depth seen, (2 * length (rest d) < fuel)%nat -> distinct_keys (seen ++ map fst m) ->
        Forall (fits depth) (map snd m) -> consumeMembers fuel d depth seen = Some d')).
  - intros d t d' Et Ht fuel depth Hfuel [Hu _]. destruct fuel as [|fuel]; [lia|]. rewrite consumeValue_S, Et.
    destruct t as [c| | | |]; try (by rewrite andb_false_r); [by destruct (Ht c)|]. destruct rejectNull eqn:En; [by destruct (Hu En)|done].
  - intros d d1 l d' Et _ IH fuel depth Hfuel [Hf Hd]%fits_array. destruct fuel as [|fuel]; [lia|]. rewrite consumeValue_S, Et, andb_false_r.
    assert (maxNestingDepth <? depth + 1 = false) as -> by (apply Z.ltb_ge; lia). apply Token_length in Et. apply IH; [lia|done].
  - intros d d1 m d' Et _ IH fuel depth Hfuel (Hk & Hf & Hd)%fits_object. destruct fuel as [|fuel]; [lia|]. rewrite consumeValue_S, Et, andb_false_r.
    assert (maxNestingDepth <? depth + 1 = false) as -> by (apply Z.ltb_ge; lia). apply Token_length in Et. apply IH; [lia|done|done].
  - intros d d' Em Et fuel depth Hfuel _. destruct fuel as [|fuel]; [lia|]. by rewrite consumeElements_S, Em, Et.
  - intros d j d1 l d' Em Hr IHv _ IHe fuel depth Hfuel [Hj Hl]%Forall_cons. destruct fuel as [|fuel]; [lia|]. rewrite consumeElements_S, Em.
    rewrite (IHv fuel depth) by (done || lia). apply reads_length in Hr. apply IHe; [lia|done].
  - intros d d' Em Et fuel depth seen Hfuel _ _. destruct fuel as [|fuel]; [lia|]. by rewrite consumeMembers_S, Em, Et.
  - intros d key d1 j d2 m d' Em Et Hr IHv _ IHm fuel depth seen Hfuel Hk [Hj Hm]%Forall_cons. destruct fuel as [|fuel]; [lia|]. rewrite consumeMembers_S, Em, Et.
    cbn in Hk. destruct (distinct_refused _ _ _ Hk) as [-> ->]. apply Token_length in Et. rewrite (IHv fuel depth) by (done || lia).
    apply reads_length in Hr. apply IHm; [lia|by rewrite <- app_assoc|done].
Qed.
End Walk.
End Spec.

Lemma validateComposite_exact opening walk data maximum :
  validateComposite opening walk data maximum = true <->
  (0 < zlen data <= maximum) /\ exists d d', Token (newDecoder data) = inl (Delim opening, d) /\ walk (consumeFuel data) d = Some d' /\ Token d' = inr tokenEOF.
Proof.
  unfold validateComposite. pose proof (zlen_nonneg data). destruct (_ || _) eqn:E.
  - split; [done|]. intros [Hr _]. apply orb_true_iff in E as [[E|E]%orb_true_iff|E]; [apply Z.eqb_eq in E|apply Z.leb_le in E|apply Z.ltb_lt in E]; lia.
  - apply orb_false_iff in E as [[E1%Z.eqb_neq E2%Z.leb_gt]%orb_false_iff E3%Z.ltb_ge]. split.
    + intros K. split; [lia|]. destruct (Token _) as [[[c| | | |] d]|]; try done. destruct (c =b opening) eqn:Ec; [|done]. apply beq_eq in Ec as ->.
      cbn [negb] in K. destruct (walk _ d) as [d'|] eqn:Ew; [|done]. exists d, d'. destruct (Token d') as [|[]]; done.
    + intros [_ (d & d' & -> & Hw & Ht)]. rewrite beq_refl. cbn [negb]. by rewrite Hw, Ht.
Qed.

(** C28: an input is admitted exactly when it is within the byte limit and
    reads as one object with nothing but white space around it, with distinct
    keys at every depth (distinct under folding where aliases are folded), no
    null where nulls are rejected, and at most 32 levels. *)
Theorem validate_object_exact EqualFold data maximum rejectNull foldAliases :
  validateObject EqualFold data maximum rejectNull foldAliases = true <->
  (0 < zlen data <= maximum)
  /\ exists m, document data (JObject m) /\ unambiguous EqualFold rejectNull foldAliases (JObject m) /\ nesting (JObject m) <= maxNestingDepth.
Proof.
  unfold validateObject. rewrite validateComposite_exact. apply and_iff_compat_l. split.
  - intros (d & d' & Et & Hw & Heof).
    apply (proj2 (proj2 (consume_sound EqualFold rejectNull foldAliases _))) in Hw as (m & Hm & Hk & Hf); [|done|apply distinct_nil].
    exists m. split; [exists d'; split; [by econstructor|done]|]. apply (fits_object EqualFold rejectNull foldAliases 0). done.
  - intros (m & (d' & Hr & Heof) & Hu). inversion Hr as [| |? d1 ? ? Et Hm]; subst. exists d1, d'. split; [done|]. split; [|done].
    apply (fits_object EqualFold rejectNull foldAliases 0) in Hu as (Hk & Hf & _). apply Token_length in Et as Hl. cbn [rest newDecoder] in Hl.
    eapply (proj2 (proj2 (consume_complete EqualFold rejectNull foldAliases))); [exact Hm|unfold consumeFuel; lia|done|done].
Qed.

Lemma validate_array_exact EqualFold data maximum :
  validateArray EqualFold data maximum = true <->
  (0 < zlen data <= maximum)
  /\ exists l, document data (JArray l) /\ unambiguous EqualFold false true (JArray l) /\ nesting (JArray l) <= maxNestingDepth.
Proof.
  unfold validateArray. rewrite validateComposite_exact. apply and_iff_compat_l. split.
  - intros (d & d' & Et & Hw & Heof).
    apply (proj1 (proj2 (consume_sound EqualFold false true _))) in Hw as (l & Hl & Hf); [|done].
    exists l. split; [exists d'; split; [by econstructor|done]|]. apply (fits_array EqualFold false true 0). done.
  - intros (l & (d' & Hr & Heof) & Hu). inversion Hr as [|? d1 ? ? Et Hm|]; subst. exists d1, d'. split; [done|]. split; [|done].
    apply (fits_array EqualFold false true 0) in Hu as (Hf & _). apply Token_length in Et as Hl. cbn [rest newDecoder] in Hl.
    eapply (proj1 (proj2 (consume_complete EqualFold false true))); [exact Hm|unfold consumeFuel; lia|done].
Qed.

(** A duplicate behind an escape is a duplicate; a name that differs in case
    is one only where aliases are folded. *)
Lemma strict_examples :
  validateObject equal_fold ($"{ " ++ [x22] ++ $"a" ++ [x22] ++ $": 1, " ++ [x22] ++ $"\u0061" ++ [x22] ++ $":2}") 100 false false = false
  /\ validateObject equal_fold ($"{" ++ [x22] ++ $"a" ++ [x22] ++ $":[1,true]," ++ [x22] ++ $"A" ++ [x22] ++ $":{}}") 100 false false = true
  /\ validateObject equal_fold ($"{" ++ [x22] ++ $"a" ++ [x22] ++ $":[1,true]," ++ [x22] ++ $"A" ++ [x22] ++ $":{}}") 100 false true = false.
Proof. by vm_compute. Qed.
