(* ===== verification/StdioFrame.v ===== *)
(** * Bounded stdio frames

    [internal/stdioframe]: the reader that admits a line of standard input to
    the SDK only when it is one bounded, unambiguous JSON object without
    case-folded aliases in its protocol envelope.  The SDK transport and
    Unicode folding are parameters. *)
From Stdlib Require Import ZArith Lia Strings.Byte.
From stdpp Require Import base list strings sorting.
From S2P Require Import Prelude GoStrings GoText GoJson StrictJson.

Definition MaxFrameBytes : Z := 64 * 1024.

(** How the source ends: [io.EOF] or another error. *)
Inductive sourceError := sourceEOF | sourceFailed (n : Z).
Inductive frameError := errStdioFrameTooLarge | errStdioFrameInvalid | errSource (e : sourceError).
#[export] Instance sourceError_eq_dec : EqDecision sourceError. Proof. solve_decision. Defined.
#[export] Instance frameError_eq_dec : EqDecision frameError. Proof. solve_decision. Defined.

Section StdioFrame.
Variable EqualFold : bytes -> bytes -> bool.
(** Whether [strconv.ParseFloat] accepts a number's text. *)
Variable float64 : bytes -> bool.

(** ** Aliases *)

Definition openProtocolMap (path : list bytes) : bool :=
  match rev path with
  | [] => false
  | last :: before =>
      if EqualFold last $"_meta" || EqualFold last $"arguments" then true
      else match before with
           | previous :: _ => EqualFold previous $"capabilities" && (EqualFold last $"experimental" || EqualFold last $"extensions")
           | [] => false
           end
  end.

(** The loop over an object's members, with [keys] the keys seen. *)
Fixpoint aliasesLoop (valid : json -> list bytes -> bool) (path keys : list bytes) (m : list (bytes * json)) : bool :=
  match m with
  | [] => true
  | (key, nested) :: m =>
      if existsb (fun existing => EqualFold existing key) keys then false
      else if negb (valid nested (path ++ [key])) then false
      else aliasesLoop valid path (keys ++ [key]) m
  end.

Fixpoint validAliasesAt (value : json) (path : list bytes) : bool :=
  match value with
  | JObject m => if openProtocolMap path then true else aliasesLoop (fun nested path => validAliasesAt nested path) path [] m
  | JArray l => forallb (fun nested => validAliasesAt nested path) l
  | JScalar _ => true
  end.

(** Every number fits a float64. *)
Fixpoint numbers (value : json) : bool :=
  match value with
  | JScalar (TNumber text) => float64 text
  | JScalar _ => true
  | JArray l => forallb numbers l
  | JObject m => forallb (fun kv => numbers (snd kv)) m
  end.

Definition validProtocolAliases (frame : bytes) : bool :=
  match parse frame with
  | Some value => numbers value && validAliasesAt value []
  | None => false
  end.

(** ** The reader *)

(** [input] is what the source has not given yet and [inputErr] the error it
    ends with. *)
Record boundedFrameReader := mkFrameReader {
  input : bytes; inputErr : sourceError; maximum : Z; fPending : bytes; terminalErr : option frameError }.

Definition newBoundedFrameReader (data : bytes) (err : sourceError) (maximum : Z) : boundedFrameReader :=
  if maximum <=? 0 then mkFrameReader data err maximum [] (Some errStdioFrameTooLarge) else mkFrameReader data err maximum [] None.

(** [bufio.NewReaderSize] never makes a buffer of fewer than 16 bytes. *)
Definition bufferSize (maximum : Z) : nat := Z.to_nat (Z.max 16 (maximum + 1)).

Definition admissible (maximum : Z) (frame : bytes) : bool := ValidateObject EqualFold frame maximum && validProtocolAliases frame.

(** The next frame into [fPending], or the error that ends the reader. *)
Definition nextFrame (r : boundedFrameReader) : boundedFrameReader * option frameError :=
  let stop e input := (mkFrameReader input (inputErr r) (maximum r) [] (Some e), Some e) in
  let frame frame rest err :=
    if maximum r <? zlen frame then stop errStdioFrameTooLarge rest
    else match (match err with Some (errSource sourceEOF) => None | _ => err end) with
    | Some e => stop e rest
    | None =>
        if zlen frame =? 0 then (mkFrameReader rest (inputErr r) (maximum r) [] err, err)
        else if negb (admissible (maximum r) frame) then stop errStdioFrameInvalid rest
        else (mkFrameReader rest (inputErr r) (maximum r) frame err, None)
    end in
  match readSlice (bufferSize (maximum r)) (input r) with
  | sliceFull _ rest => stop errStdioFrameTooLarge rest
  | sliceLine line rest => frame line rest None
  | sliceEnd line => frame line [] (Some (errSource (inputErr r)))
  end.

(** [Read] into [size] bytes: the reader, the data and the error. *)
Definition frameRead (size : nat) (r : boundedFrameReader) : boundedFrameReader * bytes * option frameError :=
  match size with
  | O => (r, [], None)
  | _ =>
      let (r, err) :=
        match fPending r with
        | _ :: _ => (r, None)
        | [] => match terminalErr r with Some e => (r, Some e) | None => nextFrame r end
        end in
      match err with
      | Some e => (r, [], Some e)
      | None => (mkFrameReader (input r) (inputErr r) (maximum r) (drop size (fPending r)) (terminalErr r), take size (fPending r), None)
      end
  end.

(** A sequence of reads: the reader and all it returned. *)
Fixpoint frameReads (sizes : list nat) (r : boundedFrameReader) : boundedFrameReader * bytes :=
  match sizes with
  | [] => (r, [])
  | size :: sizes =>
      let '(r, data, _) := frameRead size r in
      let (r, more) := frameReads sizes r in (r, data ++ more)
  end.
End StdioFrame.

(** * What the frame reader passes on

    However the reads are sized, what leaves the reader is a sequence of whole
    admissible lines of the input, and it stops exactly where the input stops
    or its next line is not admissible. *)

Section Spec.
Variable EqualFold : bytes -> bytes -> bool.
Variable float64 : bytes -> bool.

#[local] Abbreviation admissible := (admissible EqualFold float64).
#[local] Abbreviation nextFrame := (nextFrame EqualFold float64).
#[local] Abbreviation frameRead := (frameRead EqualFold float64).
#[local] Abbreviation frameReads := (frameReads EqualFold float64).

(** A line with its newline; the last line may lack it. *)
Definition terminated (f : bytes) : Prop := exists text, f = text ++ [x0a] /\ ~ In x0a text.

Inductive lines : list bytes -> bytes -> Prop :=
| lines_whole frames tail : Forall terminated frames -> lines frames tail
| lines_last frames f : Forall terminated frames -> ~ In x0a f -> f <> [] -> lines (frames ++ [f]) [].

(** Why the reader stopped before [tail], if it did. *)
Definition ending (r : boundedFrameReader) (frames : list bytes) (tail : bytes) : Prop :=
  match terminalErr r with
  | None => input r = tail /\ Forall terminated frames
  | Some errStdioFrameTooLarge => maximum r < zlen tail /\ ~ In x0a (take (Z.to_nat (maximum r)) tail)
  | Some errStdioFrameInvalid => exists f rest, tail = f ++ rest /\ lines [f] rest /\ admissible (maximum r) f = false
  | Some (errSource sourceEOF) => tail = [] /\ inputErr r = sourceEOF
  | Some (errSource e) => inputErr r = e /\ ~ In x0a tail
  end.

(** [before] are the bytes handed out. *)
Definition frames_ok (data : bytes) (r : boundedFrameReader) (before : bytes) : Prop :=
  exists frames tail, data = concat frames ++ tail /\ lines frames tail
    /\ Forall (fun f => zlen f <= maximum r /\ admissible (maximum r) f = true) frames
    /\ before ++ fPending r = concat frames /\ ending r frames tail.

Lemma lines_app frames f rest : Forall terminated frames -> lines [f] rest -> lines (frames ++ [f]) rest.
Proof.
  intros Hf H. inversion H as [? ? Ht|frames' f' Ht Hn He Heq]; subst.
  - constructor. apply Forall_app. done.
  - apply (app_singleton frames') in Heq as [[-> [= ->]]|[-> ?]]; [|done]. by constructor.
Qed.

Lemma nextFrame_ok data r before r' err : 0 < maximum r -> frames_ok data r before -> fPending r = [] -> terminalErr r = None ->
  nextFrame r = (r', err) -> maximum r' = maximum r /\ inputErr r' = inputErr r /\ frames_ok data r' before.
Proof.
  intros Hmax (frames & tail & Hd & Hl & Hok & Hb & Hend) Hp Ht. unfold ending in Hend. rewrite Ht in Hend. destruct Hend as [<- Hterm].
  rewrite Hp, app_nil_r in Hb. subst before. unfold nextFrame.
  assert (Hsize : Z.of_nat (bufferSize (maximum r)) = Z.max 16 (maximum r + 1)) by (unfold bufferSize; lia).
  (* the reader stops with the same frames *)
  assert (Hstop : forall e rest, ending (mkFrameReader rest (inputErr r) (maximum r) [] (Some e)) frames (input r) ->
    maximum r = maximum r /\ inputErr r = inputErr r /\ frames_ok data (mkFrameReader rest (inputErr r) (maximum r) [] (Some e)) (concat frames)).
  { intros e rest He. split; [done|]. split; [done|]. exists frames, (input r). cbn [fPending maximum]. by rewrite app_nil_r. }
  (* a frame is passed on *)
  assert (Hpass : forall f rest terr, input r = f ++ rest -> lines [f] rest -> zlen f <= maximum r -> admissible (maximum r) f = true ->
    ending (mkFrameReader rest (inputErr r) (maximum r) f terr) (frames ++ [f]) rest ->
    maximum r = maximum r /\ inputErr r = inputErr r /\ frames_ok data (mkFrameReader rest (inputErr r) (maximum r) f terr) (concat frames)).
  { intros f rest terr Hi Hlf Hlen Ha He. split; [done|]. split; [done|]. exists (frames ++ [f]), rest. cbn [fPending maximum].
    rewrite concat_app. cbn. rewrite app_nil_r. split; [by rewrite Hd, Hi, app_assoc|]. split; [by apply lines_app|]. split; [|done].
    apply Forall_app. split; [done|]. by constructor. }
  destruct (readSlice _ _) as [line rest|buffer rest|line] eqn:Es; cbv zeta.
  - pose proof (readSlice_rest _ _ _ _ Es) as [Hi Hne]. apply readSlice_line in Es as (text & -> & _ & Hn & Hlen).
    assert (Hterm1 : terminated (text ++ [x0a])) by by exists text.
    destruct (Z.ltb_spec (maximum r) (zlen (text ++ [x0a]))).
    { intros [= <- <-]. apply Hstop. cbn [ending terminalErr maximum]. rewrite Hi, zlen_app. split; [pose proof (zlen_nonneg rest); lia|].
      rewrite zlen_snoc in *. rewrite <- app_assoc, take_app_le by (unfold zlen in *; lia). intros Hx. apply Hn. apply list_elem_of_In. eapply subseteq_take. by apply list_elem_of_In. }
    assert (zlen (text ++ [x0a]) =? 0 = false) as -> by (apply Z.eqb_neq; rewrite zlen_snoc; pose proof (zlen_nonneg text); lia).
    destruct (admissible (maximum r) (text ++ [x0a])) eqn:Ea; cbn [negb]; intros [= <- <-].
    + apply Hpass; [done|constructor; by constructor|done|done|]. split; [done|]. apply Forall_app. split; [done|by constructor].
    + apply Hstop. exists (text ++ [x0a]), rest. split; [done|]. split; [constructor; by constructor|done].
  - intros [= <- <-]. apply Hstop. unfold readSlice in Es. destruct (index_byte _ _) eqn:Ei; [done|]. destruct (Nat.leb_spec (bufferSize (maximum r)) (length (input r))); [|done].
    apply index_byte_None in Ei. cbn [ending terminalErr maximum]. unfold zlen. split; [lia|]. intros Hx. apply Ei. apply list_elem_of_In. apply list_elem_of_In in Hx.
    replace (take (Z.to_nat (maximum r)) (input r)) with (take (Z.to_nat (maximum r)) (take (bufferSize (maximum r)) (input r))) in Hx by (rewrite take_take; f_equal; lia).
    by eapply subseteq_take.
  - apply readSlice_end in Es as (-> & Hlen & Hn).
    destruct (Z.ltb_spec (maximum r) (zlen (input r))).
    { intros [= <- <-]. apply Hstop. split; [done|]. intros Hx. apply Hn. apply list_elem_of_In. eapply subseteq_take. by apply list_elem_of_In. }
    destruct (inputErr r) as [|n] eqn:Ee; [|intros [= <- <-]; apply Hstop; done].
    destruct (Z.eqb_spec (zlen (input r)) 0) as [E0|E0].
    { intros [= <- <-]. apply zlen_0_nil in E0. apply Hstop. by rewrite E0. }
    assert (Hl1 : lines [input r] []) by (apply (lines_last []); [constructor|done|]; intros Hx; apply E0; by rewrite Hx, zlen_nil).
    destruct (admissible (maximum r) (input r)) eqn:Ea; cbn [negb]; intros [= <- <-].
    + apply Hpass; [by rewrite app_nil_r|done|done|done|]. cbn. done.
    + apply Hstop. exists (input r), []. by rewrite app_nil_r.
Qed.

Lemma frames_ok_take data r before size : frames_ok data r before ->
  frames_ok data (mkFrameReader (input r) (inputErr r) (maximum r) (drop size (fPending r)) (terminalErr r)) (before ++ take size (fPending r)).
Proof.
  intros (frames & tail & Hd & Hl & Hok & Hb & Hend). exists frames, tail. cbn [fPending maximum]. rewrite <- app_assoc, take_drop. done.
Qed.

Lemma frameRead_ok data size r before r' out err : 0 < maximum r -> frames_ok data r before -> frameRead size r = (r', out, err) ->
  maximum r' = maximum r /\ inputErr r' = inputErr r /\ frames_ok data r' (before ++ out).
Proof.
  intros Hmax Hok. unfold frameRead. destruct size as [|size]; [intros [= <- <- <-]; by rewrite app_nil_r|].
  destruct (fPending r) as [|b p] eqn:Ep.
  - destruct (terminalErr r) as [e|] eqn:Et; [intros [= <- <- <-]; by rewrite app_nil_r|].
    destruct (nextFrame r) as [r1 e] eqn:En. apply (nextFrame_ok data r before) in En as (Hm & Hi & Hok1); [|done..].
    destruct e as [e|]; intros [= <- <- <-]; [by rewrite app_nil_r|]. split; [done|]. split; [done|]. by apply (frames_ok_take data r1 before (S size)).
  - intros [= <- <- <-]. split; [done|]. split; [done|]. pose proof (frames_ok_take data r before (S size) Hok) as H. by rewrite Ep in H |- *.
Qed.

Lemma frameReads_ok data sizes r before : 0 < maximum r -> frames_ok data r before ->
  let (r', out) := frameReads sizes r in maximum r' = maximum r /\ inputErr r' = inputErr r /\ frames_ok data r' (before ++ out).
Proof.
  revert r before. induction sizes as [|size sizes IH]; intros r before Hmax Hok; cbn [frameReads]; [by rewrite app_nil_r|].
  destruct (frameRead size r) as [[r1 out1] err] eqn:E. apply (frameRead_ok data size r before) in E as (Hm & Hi & Hok1); [|done..].
  rewrite <- Hm in Hmax. specialize (IH r1 (before ++ out1) Hmax Hok1). destruct (frameReads sizes r1) as [r2 out2].
  destruct IH as (Hm2 & Hi2 & Hok2). rewrite app_assoc. split; [congruence|]. split; [congruence|done].
Qed.

(** ** The order of an object's members *)

Hypothesis EqualFold_sym : forall a b, EqualFold a b = EqualFold b a.

Lemma aliasesLoop_spec valid path keys m : aliasesLoop EqualFold valid path keys m = true <->
  Forall (fun kv => valid (snd kv) (path ++ [fst kv]) = true) m
  /\ Forall (fun kv => Forall (fun k => EqualFold k (fst kv) = false) keys) m
  /\ StronglySorted (fun a b => EqualFold (fst a) (fst b) = false) m.
Proof.
  revert keys. induction m as [|[key nested] m IH]; intros keys; cbn [aliasesLoop]; [split; [intros _; repeat constructor|done]|].
  destruct (existsb _ keys) eqn:Ex.
  { split; [done|]. intros (_ & [H _]%Forall_cons & _). apply existsb_exists in Ex as (k & Hk & He). rewrite Forall_forall in H.
    specialize (H k). cbn in H. rewrite H in He; [done|by apply list_elem_of_In]. }
  assert (Hk : Forall (fun k => EqualFold k key = false) keys).
  { apply Forall_forall. intros k Hk. apply not_true_iff_false. intros He. rewrite <- not_true_iff_false, existsb_exists in Ex. apply Ex. exists k.
    by rewrite <- list_elem_of_In. }
  destruct (valid nested (path ++ [key])) eqn:Ev; cbn [negb]; [|split; [done|]; intros ([H _]%Forall_cons & _); cbn in H; congruence].
  rewrite IH. split.
  - intros (H1 & H2 & H3). split; [by constructor|]. split.
    + constructor; [done|]. eapply Forall_impl; [exact H2|]. intros kv H. by apply Forall_app in H as [? _].
    + constructor; [done|]. eapply Forall_impl; [exact H2|]. intros kv H. apply Forall_app in H as [_ H]. exact (proj1 (Forall_singleton _ _) H).
  - intros ([_ H1]%Forall_cons & [_ H2]%Forall_cons & H3). apply StronglySorted_inv in H3 as [H3 H4]. split; [done|]. split; [|done].
    rewrite Forall_forall in *. intros kv Hin. apply Forall_app. split; [by apply H2|]. apply Forall_singleton. by apply H4.
Qed.

Lemma sorted_fold_permutation {A} (f : A -> bytes) l k : l ≡ₚ k -> StronglySorted (fun a b => EqualFold (f a) (f b) = false) l ->
  StronglySorted (fun a b => EqualFold (f a) (f b) = false) k.
Proof.
  induction 1 as [|x l k Hp IH|x y l|l k m _ IH1 _ IH2]; intros H; [done| | |auto].
  - apply StronglySorted_inv in H as [H1 H2]. constructor; [by apply IH|]. by rewrite <- Hp.
  - apply StronglySorted_inv in H as [H1 [H2 H3]%Forall_cons]. apply StronglySorted_inv in H1 as [H1 H4].
    constructor; [by constructor|]. constructor; [|done]. rewrite EqualFold_sym. done.
Qed.

(** Go's random map order does not matter. *)
Lemma aliases_order valid path m m' : m ≡ₚ m' -> aliasesLoop EqualFold valid path [] m = aliasesLoop EqualFold valid path [] m'.
Proof.
  assert (H : forall l l', l ≡ₚ l' -> aliasesLoop EqualFold valid path [] l = true -> aliasesLoop EqualFold valid path [] l' = true).
  { intros l l' Hp. rewrite !aliasesLoop_spec. intros (H1 & H2 & H3). split; [by rewrite <- Hp|]. split; [by rewrite <- Hp|]. by eapply sorted_fold_permutation. }
  intros Hp. apply eq_true_iff_eq. split; apply H; done.
Qed.
End Spec.

(** Whatever the sizes of the reads, the bytes the frame reader hands
    out and still holds are a sequence of whole lines of its input, in order
    and from its start, each at most 64 KiB and one admissible object; and it
    stops before the rest only because the input ended or failed there, or
    because the next line is too long or not admissible. *)
Theorem frames_exact EqualFold float64 data err sizes :
  let (r, out) := frameReads EqualFold float64 sizes (newBoundedFrameReader data err MaxFrameBytes) in
  inputErr r = err /\ exists frames tail, data = concat frames ++ tail /\ lines frames tail
    /\ Forall (fun f => zlen f <= MaxFrameBytes /\ admissible EqualFold float64 MaxFrameBytes f = true) frames
    /\ out ++ fPending r = concat frames /\ ending EqualFold float64 r frames tail.
Proof.
  pose proof (frameReads_ok EqualFold float64 data sizes (newBoundedFrameReader data err MaxFrameBytes) []) as H.
  destruct (frameReads _ _ _ _) as [r out]. destruct H as (Hm & Hi & H); [done| |split; [done|]; destruct H as (fs & tail & H); exists fs, tail; by rewrite Hm in H].
  exists [], data. split; [done|]. split; [by constructor|]. split; [constructor|]. split; [done|]. split; [done|constructor].
Qed.

(** Two requests pass; the second case is refused for an alias, the third for
    its length. *)
Definition q : bytes := [x22].
Definition sample_frame : bytes := $"{" ++ q ++ $"id" ++ q ++ $":1}" ++ [x0a].
Definition aliased_frame : bytes := $"{" ++ q ++ $"id" ++ q ++ $":1," ++ q ++ $"ID" ++ q ++ $":2}" ++ [x0a].

Lemma frame_examples :
  snd (frameReads equal_fold (fun _ => true) [5; 100; 100]%nat (newBoundedFrameReader (sample_frame ++ sample_frame) sourceEOF 64)) = sample_frame ++ sample_frame
  /\ terminalErr (fst (frameReads equal_fold (fun _ => true) [100; 100]%nat (newBoundedFrameReader (sample_frame ++ aliased_frame) sourceEOF 64))) = Some errStdioFrameInvalid
  /\ terminalErr (fst (frameReads equal_fold (fun _ => true) [100]%nat (newBoundedFrameReader (sample_frame ++ sample_frame) sourceEOF 8))) = Some errStdioFrameTooLarge.
Proof. by vm_compute. Qed.
