(* ===== verification/Credentials.v ===== *)
(** * The credential helper

    [bridge/credentials.go]: the bounded output of the operator's command and
    the one JSON object it must be.  Running the process is the operating
    system's: what it wrote, whether its deadline passed and whether it failed
    are arguments. *)
From Stdlib Require Import ZArith Lia Strings.Byte.
From stdpp Require Import base list gmap strings.
From S2P Require Import Prelude GoStrings GoText GoJson Errors Config.

Definition credentialOutputLimit : Z := 64 * 1024.

Record Credentials := mkCredentials { Username : bytes; Password : bytes }.

(** ** The bounded output *)

Record limitedBuffer := mkBuffer { bytesOf : bytes; limit : Z; overflow : bool }.

Definition Write (buffer : limitedBuffer) (input : bytes) : limitedBuffer :=
  if limit buffer - zlen (bytesOf buffer) <? zlen input then mkBuffer (bytesOf buffer) (limit buffer) true
  else mkBuffer (bytesOf buffer ++ input) (limit buffer) (overflow buffer).

(** ** The object *)

(** [decoder.Decode(&value)] into an empty string behind a key: a string, or
    null, which leaves it empty; any other value is a type or syntax error. *)
Definition decodeString (d : decoder) : option (bytes * decoder) :=
  match skip_space (rest d) with
  | ":"%byte :: s =>
      match scan_scalar (skip_space s) with
      | Some (TString value, s) => Some (value, mkDecoder s tokenObjectComma (tstack d))
      | Some (TNull, s) => Some ([], mkDecoder s tokenObjectComma (tstack d))
      | _ => None
      end
  | _ => None
  end.

(** The loop over the members; each turn consumes a byte. *)
Fixpoint credentialLoop (fuel : nat) (d : decoder) (values : gmap bytes bytes) : option (gmap bytes bytes * decoder) :=
  match fuel with
  | O => None
  | S fuel =>
      if More d then
        match Token d with
        | inl (TString name, d) =>
            if negb (beqs name $"username") && negb (beqs name $"password") then None
            else match values !! name with
            | Some _ => None
            | None =>
                match decodeString d with
                | Some (value, d) => credentialLoop fuel d (<[name := value]> values)
                | None => None
                end
            end
        | _ => None
        end
      else Some (values, d)
  end.

(** [ensureOnlyWhitespace]: nothing is left to decode. *)
Definition ensureOnlyWhitespace (d : decoder) : bool := match skip_space (rest d) with [] => true | _ => false end.

Definition badOutput : Credentials + goerror := inr (errorCode CodeCredentialOutput).

Definition parseCredentials (output : bytes) : Credentials + goerror :=
  if negb (valid_string output) then badOutput
  else match Token (newDecoder output) with
  | inl (Delim "{"%byte, d) =>
      match credentialLoop (S (length output)) d ∅ with
      | None => badOutput
      | Some (values, d) =>
          match Token d with
          | inl (Delim "}"%byte, d) =>
              let username := default [] (values !! $"username") in
              let password := default [] (values !! $"password") in
              if beqs username [] || beqs password [] then badOutput
              else if negb (ensureOnlyWhitespace d) then badOutput
              else inl (mkCredentials username password)
          | _ => badOutput
          end
      end
  | _ => badOutput
  end.

(** What the process did: its writes, whether its deadline had passed, and
    whether [Run] failed. *)
Record processRun := mkRun { writes : list bytes; deadlinePassed : bool; failed : bool }.

Section Load.
Variable credentialProcessTreeKillSupported : bool.

Definition LoadCredentials (command : list bytes) (timeout : Z) (process : processRun) : Credentials + goerror :=
  if negb (isSafeCredentialCommand credentialProcessTreeKillSupported command) || (timeout <=? 0) then inr (errorCode CodeInvalidConfig)
  else
    let output := foldl Write (mkBuffer [] credentialOutputLimit false) (writes process) in
    if overflow output then inr (errorCode CodeCredentialOverflow)
    else if deadlinePassed process then inr (errorCode CodeCredentialTimeout)
    else if failed process then inr (errorCode CodeCredentialCommand)
    else parseCredentials (bytesOf output).
End Load.

(** ** The buffer *)

Lemma write_overflow chunks buffer : overflow buffer = true -> overflow (foldl Write buffer chunks) = true.
Proof. revert buffer. induction chunks as [|c chunks IH]; intros buffer H; cbn; [done|]. apply IH. unfold Write. by destruct (_ <? _). Qed.

(** Overflow is exactly more output than the limit; otherwise all is kept. *)
Lemma writes_spec chunks buffer : overflow buffer = false -> zlen (bytesOf buffer) <= limit buffer ->
  if limit buffer <? zlen (bytesOf buffer) + zlen (concat chunks) then overflow (foldl Write buffer chunks) = true
  else overflow (foldl Write buffer chunks) = false /\ bytesOf (foldl Write buffer chunks) = bytesOf buffer ++ concat chunks.
Proof.
  revert buffer. induction chunks as [|c chunks IH]; intros buffer Ho Hl; cbn [concat foldl].
  - rewrite zlen_nil, app_nil_r. destruct (Z.ltb_spec (limit buffer) (zlen (bytesOf buffer) + 0)); [lia|done].
  - rewrite zlen_app. pose proof (zlen_nonneg (concat chunks)).
    assert (Ew : Write buffer c = if limit buffer - zlen (bytesOf buffer) <? zlen c then mkBuffer (bytesOf buffer) (limit buffer) true
      else mkBuffer (bytesOf buffer ++ c) (limit buffer) (overflow buffer)) by done. rewrite Ew. clear Ew.
    destruct (Z.ltb_spec (limit buffer - zlen (bytesOf buffer)) (zlen c)).
    + destruct (Z.ltb_spec (limit buffer) (zlen (bytesOf buffer) + (zlen c + zlen (concat chunks)))); [|lia]. by apply write_overflow.
    + specialize (IH (mkBuffer (bytesOf buffer ++ c) (limit buffer) (overflow buffer)) Ho). cbn [bytesOf limit] in IH. rewrite zlen_app in IH.
      rewrite <- Z.add_assoc, <- app_assoc in IH. apply IH. lia.
Qed.
