(* ===== verification/CredentialsSpec.v ===== *)
(** * What the credential helper accepts

    The accepted outputs are exactly the objects with one username and one
    password, both strings that are not empty. *)
From Stdlib Require Import ZArith Lia Strings.Byte.
From stdpp Require Import base list gmap strings.
From S2P Require Import Prelude GoStrings GoText GoJson Errors Config Credentials.

Definition credential_key (name : bytes) : bool := beqs name $"username" || beqs name $"password".

(** A member's value as [Decode] stores it. *)
Definition stored (j : json) : option bytes :=
  match j with JScalar (TString s) => Some s | JScalar TNull => Some [] | _ => None end.

(** The map the members leave, if each is a new credential key. *)
Fixpoint collectMembers (values : gmap bytes bytes) (m : list (bytes * json)) : option (gmap bytes bytes) :=
  match m with
  | [] => Some values
  | (name, j) :: m =>
      if credential_key name then
        match values !! name, stored j with
        | None, Some value => collectMembers (<[name := value]> values) m
        | _, _ => None
        end
      else None
  end.

(** ** One member *)

Lemma Token_colon d : tstate d = tokenObjectColon -> forall s, skip_space (rest d) = ":"%byte :: s ->
  Token d = tokenLoop 2 (mkDecoder s tokenObjectValue (tstack d)).
Proof. intros Ht s Hs. unfold Token. cbn [tokenLoop]. unfold tokenTurn at 1. by rewrite Hs, Ht. Qed.

Lemma scan_scalar_first s t r : scan_scalar s = Some (t, r) ->
  forall d, tokenTurn (mkDecoder s tokenObjectValue d) = turnToken t (mkDecoder r tokenObjectComma d).
Proof.
  intros H d. destruct s as [|c s]; [done|].
  assert (Hc : json_space c = false /\ c <> "["%byte /\ c <> "]"%byte /\ c <> "{"%byte /\ c <> "}"%byte /\ c <> ":"%byte /\ c <> ","%byte).
  { destruct c; try done; vm_compute in H; done. }
  destruct Hc as (Hc & H1 & H2 & H3 & H4 & H5 & H6). unfold tokenTurn. cbn [rest skip_space]. rewrite Hc.
  assert (Hs : scalarTurn c (c :: s) (mkDecoder (c :: s) tokenObjectValue d) = turnToken t (mkDecoder r tokenObjectComma d)).
  { unfold scalarTurn. cbv zeta. cbn [tstate tstack tokenValueAllowed]. rewrite andb_false_r. cbn [negb andb]. rewrite H, andb_false_r. done. }
  by destruct c.
Qed.

Lemma skip_space_idem s : skip_space (skip_space s) = skip_space s.
Proof. induction s as [|c s IH]; cbn; [done|]. destruct (json_space c) eqn:E; [done|]. cbn. by rewrite E. Qed.

Lemma tokenTurn_skip s t k : tokenTurn (mkDecoder s t k) = tokenTurn (mkDecoder (skip_space s) t k).
Proof. unfold tokenTurn. cbn [rest tstate tstack]. rewrite skip_space_idem. by destruct (skip_space s). Qed.

(** [Decode] into a string is the next token, if it is a string or null. *)
Lemma decodeString_reads d value d' : tstate d = tokenObjectColon ->
  decodeString d = Some (value, d') <-> exists j, reads d j d' /\ stored j = Some value.
Proof.
  intros Hc. unfold decodeString. split.
  - destruct (skip_space (rest d)) as [|c s] eqn:Es; [done|]. destruct (decide (c = ":"%byte)) as [->|Hn]; [|by destruct c].
    destruct (scan_scalar (skip_space s)) as [[t r]|] eqn:Er; [|done].
    assert (Ht : Token d = inl (t, mkDecoder r tokenObjectComma (tstack d))).
    { rewrite (Token_colon d Hc s Es). cbn. by rewrite tokenTurn_skip, (scan_scalar_first _ _ _ Er). }
    pose proof (scan_scalar_token _ _ _ Er) as Hd.
    destruct t; try done; intros [= <- <-]; eexists (JScalar _); (split; [by constructor|done]).
  - intros (j & Hr & Hj). destruct j as [t| |]; [|done|done]. inversion Hr as [? ? ? Ht Hd| |]; subst.
    unfold Token in Ht. cbn [tokenLoop] in Ht. unfold tokenTurn at 1 in Ht.
    destruct (skip_space (rest d)) as [|c s] eqn:Es; [done|]. rewrite Hc in Ht.
    assert (Hk : scalarTurn c (c :: s) d = turnError tokenSyntax).
    { unfold scalarTurn. rewrite Hc. cbv zeta. by rewrite andb_false_r. }
    destruct (decide (c = ":"%byte)) as [->|Hn]; [|by destruct c; rewrite ?Hk in Ht].
    cbn in Ht. rewrite tokenTurn_skip in Ht. set (d1 := mkDecoder (skip_space s) tokenObjectValue (tstack d)) in *.
    pose proof (tokenTurn_value d1) as Hv. specialize (Hv (or_introl eq_refl)). destruct (tokenTurn d1) as [t1 d2| |] eqn:Et; [|done|done].
    injection Ht as -> ->. unfold tokenTurn in Et. cbn [rest d1] in Et. rewrite skip_space_idem in Et.
    destruct (skip_space s) as [|c s1] eqn:Es1; [done|].
    assert (Hsc : scalarTurn c (c :: s1) d1 = turnToken t d').
    { cbn [tstate d1 tokenValueAllowed] in Et. destruct c; try exact Et; try done; injection Et as <- _; by edestruct Hd. }
    unfold scalarTurn in Hsc. cbv zeta in Hsc. cbn [tstate d1 tokenValueAllowed] in Hsc. rewrite !andb_false_r in Hsc. cbn [negb andb] in Hsc.
    destruct (scan_scalar (c :: s1)) as [[t2 r]|]; [|done]. injection Hsc as -> <-. destruct t; try discriminate Hj; by injection Hj as <-.
Qed.

Lemma decodeString_state d value d' : decodeString d = Some (value, d') -> tstate d' = tokenObjectComma /\ tstack d' = tstack d.
Proof.
  unfold decodeString. destruct (skip_space (rest d)) as [|c s]; [done|]. destruct (decide (c = ":"%byte)) as [->|Hn]; [|by destruct c].
  destruct (scan_scalar _) as [[t r]|]; [|done]. destruct t; try done; by intros [= _ <-].
Qed.

(** Keys stand where an object starts or behind a comma. *)
Lemma turn_key d key d1 : tstate d = tokenObjectStart \/ tstate d = tokenObjectKey -> tokenTurn d = turnToken (TString key) d1 ->
  tstate d1 = tokenObjectColon /\ tstack d1 = tstack d.
Proof.
  intros Hs. unfold tokenTurn. destruct (skip_space (rest d)) as [|c s]; [done|].
  assert (Hk : scalarTurn c (c :: s) d = turnToken (TString key) d1 -> tstate d1 = tokenObjectColon /\ tstack d1 = tstack d).
  { unfold scalarTurn. cbv zeta. destruct Hs as [-> | ->]; rewrite andb_true_r; (destruct (c =b x22); cbn [negb andb tokenValueAllowed]; [|done]);
      (destruct (scan_scalar _) as [[t r]|]; [|done]); by intros [= _ <-]. }
  destruct c; try exact Hk; destruct Hs as [-> | ->]; done.
Qed.

Lemma turn_comma d : tstate d = tokenObjectComma ->
  match tokenTurn d with turnToken t _ => t = Delim "}"%byte | turnAgain d' => tstate d' = tokenObjectKey /\ tstack d' = tstack d | turnError _ => True end.
Proof.
  intros Hs. unfold tokenTurn. destruct (skip_space (rest d)) as [|c s]; [done|]. rewrite Hs.
  assert (Hk : scalarTurn c (c :: s) d = turnError tokenSyntax) by (unfold scalarTurn; rewrite Hs; cbv zeta; by rewrite andb_false_r).
  destruct c; rewrite ?Hk; done.
Qed.

Lemma Token_key d key d1 : tstate d = tokenObjectStart \/ tstate d = tokenObjectComma -> Token d = inl (TString key, d1) ->
  tstate d1 = tokenObjectColon /\ tstack d1 = tstack d.
Proof.
  intros Hs. unfold Token. cbn [tokenLoop]. destruct Hs as [Hs|Hs].
  - destruct (tokenTurn d) as [t d2|d2|] eqn:E; [|exfalso|done].
    + intros [= -> ->]. eapply turn_key; [|exact E]. by left.
    + unfold tokenTurn in E. destruct (skip_space (rest d)) as [|c s]; [done|]. rewrite Hs in E. pose proof (scalarTurn_spec c (c :: s) d) as Hk.
      destruct (scalarTurn c (c :: s) d) eqn:Ek; [| |]; destruct c; rewrite ?Ek in E; try discriminate E; done.
  - pose proof (turn_comma d Hs) as Hc. destruct (tokenTurn d) as [t d2|d2|]; [|clear Hs; destruct Hc as [Hc Hk]|done]; [by subst|].
    pose proof (tokenTurn_value d2 (or_intror (or_intror Hc))) as Hv. destruct (tokenTurn d2) as [t d3|d3|] eqn:E; [|done|done].
    intros [= -> ->]. rewrite <- Hk. eapply turn_key; [|exact E]. by right.
Qed.

(** The end of the object: the state its opening saved, and nothing behind it. *)
Lemma turn_brace d d1 : (tstate d = tokenObjectStart \/ tstate d = tokenObjectComma) -> Token d = inl (Delim "}"%byte, d1) ->
  exists s, d1 = pop s (tstack d).
Proof.
  intros Hs. unfold Token. cbn [tokenLoop]. unfold tokenTurn at 1.
  destruct (skip_space (rest d)) as [|c s]; [done|]. assert (Hk : forall t d2, scalarTurn c (c :: s) d = turnToken t d2 -> t <> Delim "}"%byte).
  { intros t d2 E. pose proof (scalarTurn_spec c (c :: s) d) as H. rewrite E in H. apply H. }
  destruct (decide (c = "}"%byte)) as [->|Hc]; [destruct Hs as [-> | ->]; intros [= <-]; by exists s|].
  destruct (decide (c = ","%byte)) as [->|Hc'].
  - destruct Hs as [-> | ->]; [done|]. cbv iota beta. set (d2 := mkDecoder s tokenObjectKey (tstack d)).
    pose proof (tokenTurn_value d2 (or_intror (or_intror eq_refl))) as Hv. destruct (tokenTurn d2) as [t d3| |] eqn:E; [|done|done].
    intros [= -> ->]. exfalso. unfold tokenTurn in E. destruct (skip_space (rest d2)) as [|c s1]; [done|].
    assert (H : scalarTurn c (c :: s1) d2 <> turnToken (Delim "}"%byte) d1).
    { intros E2. pose proof (scalarTurn_spec c (c :: s1) d2) as H. rewrite E2 in H. destruct H as [_ H]. by apply (H "}"%byte). }
    destruct c; try (by apply H); discriminate E.
  - destruct (scalarTurn c (c :: s) d) as [t d2|d2|] eqn:E.
    + pose proof (Hk t d2 eq_refl) as Hn. destruct c; try done; first [intros [= Hx _]; by destruct Hn | destruct Hs as [-> | ->]; cbn; discriminate].
    + pose proof (scalarTurn_spec c (c :: s) d) as H. by rewrite E in H.
    + destruct c; try done; first [discriminate | destruct Hs as [-> | ->]; cbn; discriminate].
Qed.

Lemma Token_top_eof d : tstate d = tokenTopValue -> Token d = inr tokenEOF -> skip_space (rest d) = [].
Proof.
  intros Hs. unfold Token. cbn [tokenLoop]. unfold tokenTurn at 1. destruct (skip_space (rest d)) as [|c s]; [done|]. intros H. exfalso.
  rewrite Hs in H. assert (Hk : match scalarTurn c (c :: s) d with turnError tokenEOF => False | turnAgain _ => False | _ => True end).
  { unfold scalarTurn. rewrite Hs. cbv zeta. cbn [tokenValueAllowed negb andb]. rewrite andb_false_r. cbn [negb andb]. by destruct (scan_scalar (c :: s)) as [[t r]|]. }
  destruct (scalarTurn c (c :: s) d) as [| |[]] eqn:E; try done; destruct c; rewrite ?E in H; discriminate H.
Qed.

(** ** The object *)

Definition at_member (d : decoder) : Prop := tstate d = tokenObjectStart \/ tstate d = tokenObjectComma.

Lemma loop_sound fuel d values vals d1 d2 : at_member d -> credentialLoop fuel d values = Some (vals, d1) -> Token d1 = inl (Delim "}"%byte, d2) ->
  exists m, members d m d2 /\ collectMembers values m = Some vals.
Proof.
  revert d values. induction fuel as [|fuel IH]; intros d values Hs; cbn [credentialLoop]; [done|]. destruct (More d) eqn:Em.
  - destruct (Token d) as [[[c|name| | |] d3]|] eqn:Et; try done.
    destruct (negb (beqs name $"username") && negb (beqs name $"password")) eqn:Ek; [done|]. destruct (values !! name) eqn:Ev; [done|].
    destruct (decodeString d3) as [[value d4]|] eqn:Ed; [|done]. intros H Hend. destruct (Token_key d name d3 Hs Et) as [Hc _].
    destruct (decodeString_state _ _ _ Ed) as [Hc4 _]. apply (decodeString_reads d3 value d4 Hc) in Ed as (j & Hr & Hj).
    apply IH in H as (m & Hm & Hcol); [|by right|done]. exists ((name, j) :: m). split; [by econstructor|]. cbn [collectMembers].
    assert (credential_key name = true) as -> by (unfold credential_key; destruct (beqs name _), (beqs name _); done). by rewrite Ev, Hj.
  - intros [= <- <-] Hend. exists []. split; [by constructor|done].
Qed.

Lemma loop_complete m fuel d values vals d2 : at_member d -> members d m d2 -> collectMembers values m = Some vals -> (length (rest d) < fuel)%nat ->
  exists d1, credentialLoop fuel d values = Some (vals, d1) /\ Token d1 = inl (Delim "}"%byte, d2) /\ at_member d1 /\ tstack d1 = tstack d.
Proof.
  revert fuel d values. induction m as [|[name j] m IH]; intros fuel d values Hs Hm Hcol Hfuel; (destruct fuel as [|fuel]; [lia|]); cbn [credentialLoop].
  - inversion Hm as [? ? Em Et|]; subst. injection Hcol as <-. exists d. by rewrite Em.
  - inversion Hm as [|? ? d3 ? d4 ? ? Em Et Hr Hm']; subst. cbn [collectMembers] in Hcol. destruct (credential_key name) eqn:Ek; [|done].
    destruct (values !! name) eqn:Ev; [done|]. destruct (stored j) as [value|] eqn:Ej; [|done]. rewrite Em, Et.
    assert (negb (beqs name $"username") && negb (beqs name $"password") = false) as -> by (unfold credential_key in Ek; destruct (beqs name _), (beqs name _); done).
    rewrite Ev. destruct (Token_key d name d3 Hs Et) as [Hc Hk]. apply Token_length in Et. apply reads_length in Hr as Hl.
    assert (Hd : decodeString d3 = Some (value, d4)) by (apply decodeString_reads; eauto). rewrite Hd. apply decodeString_state in Hd as [Hc4 Hk4].
    destruct (IH fuel d4 (<[name:=value]> values)) as (d1 & H1 & H2 & H3 & H4); [by right|done|done|lia|]. exists d1. split; [done|]. split; [done|]. split; [done|congruence].
Qed.

(** Two new credential keys are one of each. *)
Lemma collect_members_pair m vals u p : collectMembers ∅ m = Some vals -> default [] (vals !! $"username") = u -> default [] (vals !! $"password") = p ->
  u <> [] -> p <> [] ->
  m = [($"username", JScalar (TString u)); ($"password", JScalar (TString p))] \/ m = [($"password", JScalar (TString p)); ($"username", JScalar (TString u))].
Proof.
  intros Hc Hu Hp Nu Np.
  assert (Hkey : forall name, credential_key name = true -> name = $"username" \/ name = $"password").
  { intros name. unfold credential_key. rewrite orb_true_iff, !beqs_eq. done. }
  assert (Hst : forall j v, stored j = Some v -> v <> [] -> j = JScalar (TString v)) by (intros [[]| |] v; cbn; try done; intros [= <-]; done).
  destruct m as [|[k1 j1] m]; [injection Hc as <-; by rewrite lookup_empty in Hu; subst u|]. cbn [collectMembers] in Hc.
  destruct (credential_key k1) eqn:E1; [|done]. rewrite lookup_empty in Hc. destruct (stored j1) as [v1|] eqn:S1; [|done].
  destruct m as [|[k2 j2] m].
  { injection Hc as <-. destruct (Hkey k1 E1) as [-> | ->]; [rewrite lookup_insert_ne in Hp by done; by rewrite lookup_empty in Hp; subst p|].
    rewrite lookup_insert_ne in Hu by done. by rewrite lookup_empty in Hu; subst u. }
  cbn [collectMembers] in Hc. destruct (credential_key k2) eqn:E2; [|done].
  assert (Hne : k2 <> k1) by (intros ->; by rewrite lookup_insert_eq in Hc). rewrite lookup_insert_ne, lookup_empty in Hc by done.
  destruct (stored j2) as [v2|] eqn:S2; [|done]. destruct m as [|[k3 j3] m].
  2:{ exfalso. cbn [collectMembers] in Hc. destruct (credential_key k3) eqn:E3; [|done].
      assert (k3 = k1 \/ k3 = k2) as [-> | ->] by (destruct (Hkey _ E1) as [-> | ->], (Hkey _ E2) as [-> | ->], (Hkey _ E3) as [-> | ->]; auto; done).
      - by rewrite lookup_insert_ne, lookup_insert_eq in Hc by done.
      - by rewrite lookup_insert_eq in Hc. }
  injection Hc as <-. destruct (Hkey _ E1) as [-> | ->], (Hkey _ E2) as [-> | ->]; try done; [left|right];
    rewrite lookup_insert_eq in *; rewrite lookup_insert_ne, lookup_insert_eq in * by done; cbn in Hu, Hp; subst; by rewrite (Hst _ _ S1), (Hst _ _ S2).
Qed.

Definition credential_object (c : Credentials) (m : list (bytes * json)) : Prop :=
  m = [($"username", JScalar (TString (Username c))); ($"password", JScalar (TString (Password c)))]
  \/ m = [($"password", JScalar (TString (Password c))); ($"username", JScalar (TString (Username c)))].

Lemma open_brace data d : Token (newDecoder data) = inl (Delim "{"%byte, d) -> at_member d /\ tstack d = [tokenTopValue].
Proof.
  unfold Token. cbn [tokenLoop]. unfold tokenTurn at 1. destruct (skip_space _) as [|c s]; [done|].
  pose proof (scalarTurn_spec c (c :: s) (newDecoder data)) as Hk.
  destruct (decide (c = "{"%byte)) as [->|Hc]; [cbn; intros [= <-]; split; [by left|done]|].
  destruct (scalarTurn c (c :: s) (newDecoder data)) as [t d2|d2|] eqn:E; [|done|].
  - destruct c; try done; cbn; try discriminate; intros [= Hx _]; destruct Hk as [_ Hk]; by destruct (Hk "{"%byte).
  - destruct c; done.
Qed.

Lemma parse_credentials_exact output c : parseCredentials output = inl c <->
  valid_string output = true /\ Username c <> [] /\ Password c <> [] /\ exists m, document output (JObject m) /\ credential_object c m.
Proof.
  unfold parseCredentials, badOutput. destruct (valid_string output) eqn:Ev; cbn [negb]; [|split; [done|by intros [? _]]]. split.
  - destruct (Token (newDecoder output)) as [[[b| | | |] d]|] eqn:Et; try done. destruct (decide (b = "{"%byte)) as [->|Hb]; [|by destruct b].
    destruct (open_brace _ _ Et) as [Hs Hk]. destruct (credentialLoop _ _ _) as [[vals d1]|] eqn:El; [|done].
    destruct (Token d1) as [[[b| | | |] d2]|] eqn:Et1; try done. destruct (decide (b = "}"%byte)) as [->|Hb]; [|by destruct b].
    cbv zeta. destruct (beqs (default [] (vals !! $"username")) [] || beqs (default [] (vals !! $"password")) []) eqn:Ee; [done|].
    apply orb_false_iff in Ee as [E1 E2]. unfold ensureOnlyWhitespace. destruct (skip_space (rest d2)) eqn:Esk; [|done]. cbn [negb]. intros [= <-].
    cbn [Username Password]. assert (Nu : default [] (vals !! $"username") <> []) by (intros K; rewrite K in E1; done).
    assert (Np : default [] (vals !! $"password") <> []) by (intros K; rewrite K in E2; done).
    split; [done|]. split; [done|]. split; [done|]. destruct (loop_sound _ _ _ _ _ _ Hs El Et1) as (m & Hm & Hc). exists m. split.
    + exists d2. split; [by econstructor|]. unfold Token. cbn [tokenLoop]. unfold tokenTurn. by rewrite Esk.
    + by apply (collect_members_pair m vals).
  - intros (_ & Nu & Np & m & (d2 & Hr & Heof) & Hm). inversion Hr as [| |? d ? ? Et Hmem]; subst. rewrite Et.
    destruct (open_brace _ _ Et) as [Hs Hk].
    assert (exists vals, collectMembers ∅ m = Some vals /\ vals !! $"username" = Some (Username c) /\ vals !! $"password" = Some (Password c)) as (vals & Hc & Hu & Hp).
    { destruct Hm as [-> | ->]; eexists; (split; [reflexivity|]); rewrite ?lookup_insert_eq, ?lookup_insert_ne, ?lookup_insert_eq by done; done. }
    apply Token_length in Et. cbn [rest newDecoder] in Et.
    destruct (loop_complete m (S (length output)) d ∅ vals d2 Hs Hmem Hc) as (d1 & -> & Hend & Hs1 & Hk1); [lia|]. rewrite Hend. cbv zeta. rewrite Hu, Hp. cbn [default from_option]. unfold id.
    assert (beqs (Username c) [] = false) as -> by (by destruct (Username c)). assert (beqs (Password c) [] = false) as -> by (by destruct (Password c)). cbn [orb].
    destruct (turn_brace _ _ Hs1 Hend) as [s ->]. rewrite Hk1, Hk in Heof |- *. unfold ensureOnlyWhitespace.
    apply Token_top_eof in Heof; [|done]. rewrite Heof. cbn. by destruct c.
Qed.

(** What it takes to load [c]. *)
Definition credentials_ok (killable : bool) (command : list bytes) (timeout : Z) (process : processRun) (c : Credentials) : Prop :=
  let output := concat (writes process) in
  isSafeCredentialCommand killable command = true /\ 0 < timeout /\ deadlinePassed process = false /\ failed process = false
  /\ zlen output <= credentialOutputLimit /\ valid_string output = true
  /\ Username c <> [] /\ Password c <> [] /\ exists m, document output (JObject m) /\ credential_object c m.

(** C40: credentials are loaded exactly when the command is an absolute path
    under a process-tree kill, its timeout is positive, it ended well and in
    time, and all it wrote is at most 64 KiB of valid UTF-8 that reads as one
    object with one username and one password, neither empty; every failure is
    a code without content. *)
Theorem credentials_exact killable command timeout process :
  match LoadCredentials killable command timeout process with
  | inl c => credentials_ok killable command timeout process c
  | inr err => (exists d, err = errorCode d) /\ forall c, ~ credentials_ok killable command timeout process c
  end.
Proof.
  unfold LoadCredentials, credentials_ok. set (output := concat (writes process)).
  destruct (isSafeCredentialCommand killable command); [|split; [by eexists|by intros c [? _]]].
  destruct (Z.leb_spec timeout 0); cbn [negb orb]; [split; [by eexists|intros c (_ & ? & _); lia]|].
  pose proof (writes_spec (writes process) (mkBuffer [] credentialOutputLimit false) eq_refl) as Hw. cbn [bytesOf limit] in Hw. fold output in Hw.
  rewrite zlen_nil, Z.add_0_l in Hw. specialize (Hw ltac:(done)).
  destruct (Z.ltb_spec credentialOutputLimit (zlen output)); [rewrite Hw; split; [by eexists|intros c (_ & _ & _ & _ & ? & _); lia]|]. destruct Hw as [-> ->].
  destruct (deadlinePassed process); [split; [by eexists|by intros c (_ & _ & ? & _)]|].
  destruct (failed process); [split; [by eexists|by intros c (_ & _ & _ & ? & _)]|]. cbn [app].
  destruct (parseCredentials output) as [c|err] eqn:Ep.
  - apply parse_credentials_exact in Ep as (? & ? & ? & ?). done.
  - assert (Hc : forall c, parseCredentials output <> inl c) by (intros c; by rewrite Ep). split.
    + unfold parseCredentials, badOutput in Ep. repeat case_match; simplify_eq; by eexists.
    + intros c (_ & _ & _ & _ & _ & ? & ? & ? & ?). by apply (Hc c), parse_credentials_exact.
Qed.

Definition sample_output : bytes := $"{ " ++ [x22] ++ $"username" ++ [x22] ++ $": " ++ [x22] ++ $"u\u0031" ++ [x22] ++ $"," ++ [x22] ++ $"password" ++ [x22] ++ $":" ++ [x22] ++ $"p" ++ [x22] ++ $"}" ++ [x0a].

Lemma credentials_example :
  LoadCredentials true [$"/bin/helper"] 5000 (mkRun [sample_output] false false) = inl (mkCredentials $"u1" $"p")
  /\ LoadCredentials true [$"/bin/helper"] 5000 (mkRun [sample_output; $"x"] false false) = inr (errorCode CodeCredentialOutput).
Proof. by vm_compute. Qed.
