(* ===== verification/GoMarshal.v ===== *)
(** * Writing and binding JSON values

    [json.Marshal] of the values the tools return, and the binding of an
    object to a struct by [Decoder.Decode] with unknown fields refused.  What
    is written reads back: strings as their repaired text.  Raw messages keep
    the bytes of a value. *)
From Stdlib Require Import ZArith Lia Strings.Byte DecimalString DecimalFacts DecimalPos.
From stdpp Require Import base list strings.
From S2P Require Import Prelude GoStrings GoText GoJson MessageID.

(** ** Marshalling *)

Definition JText (s : bytes) : json := JScalar (TString s).
Definition JInt (z : Z) : json := JScalar (TNumber (decimal z)).
Definition JBool (b : bool) : json := JScalar (TBool b).

Definition marshalScalar (t : token) : bytes :=
  match t with
  | Delim c => [c]
  | TString s => json_string s
  | TNumber text => text
  | TBool b => if b then $"true" else $"false"
  | TNull => $"null"
  end.

Fixpoint marshal (j : json) : bytes :=
  match j with
  | JScalar t => marshalScalar t
  | JArray l => $"[" ++ join_byte ","%byte (map marshal l) ++ $"]"
  | JObject m => $"{" ++ join_byte ","%byte (map (fun kv => json_key (fst kv) ++ marshal (snd kv)) m) ++ $"}"
  end.

(** A member, and members under [omitempty]. *)
Definition member (name : bytes) (j : json) : list (bytes * json) := [(name, j)].
Definition textMember (name s : bytes) : list (bytes * json) := if bool_decide (s = []) then [] else [(name, JText s)].
Definition intMember (name : bytes) (z : Z) : list (bytes * json) := if z =? 0 then [] else [(name, JInt z)].
Definition boolMember (name : bytes) (b : bool) : list (bytes * json) := if b then [(name, JBool true)] else [].
Definition listMember {A} (name : bytes) (f : A -> json) (l : list A) : list (bytes * json) :=
  match l with [] => [] | _ => [(name, JArray (map f l))] end.

(** ** Binding an object to a struct *)

(** [strconv.ParseInt(s, 10, 64)] of a JSON number's text. *)
Definition parse_int (s : bytes) : option Z :=
  match s with
  | "-"%byte :: digits =>
      match parse_uint digits 64 with Some v => if v <=? 2 ^ 63 then Some (- v) else None | None => None end
  | _ => parse_uint s 63
  end.

Definition asString (j : json) : option bytes := match j with JScalar (TString s) => Some s | _ => None end.
Definition asBool (j : json) : option bool := match j with JScalar (TBool b) => Some b | _ => None end.
Definition asInt (j : json) : option Z := match j with JScalar (TNumber text) => parse_int text | _ => None end.
Definition asUint32 (j : json) : option Z := match j with JScalar (TNumber text) => parse_uint text 32 | _ => None end.
Fixpoint asUint32List (l : list json) : option (list Z) :=
  match l with
  | [] => Some []
  | j :: l => match asUint32 j, asUint32List l with Some z, Some zs => Some (z :: zs) | _, _ => None end
  end.
Definition asUint32s (j : json) : option (list Z) := match j with JArray l => asUint32List l | _ => None end.

Section Bind.
Context {T : Type}.

(** A field: its name and how a value is stored. *)
Variable fields : list (bytes * (json -> T -> option T)).

(** The exact name, or else the first that folds to the key. *)
Definition findField (key : bytes) : option (json -> T -> option T) :=
  match List.find (fun f => beqs (fst f) key) fields with
  | Some f => Some (snd f)
  | None => option_map snd (List.find (fun f => equal_fold key (fst f)) fields)
  end.

Fixpoint bindMembers (m : list (bytes * json)) (target : T) : option T :=
  match m with
  | [] => Some target
  | (key, j) :: m =>
      match findField key with
      | Some store => match store j target with Some target => bindMembers m target | None => None end
      | None => None
      end
  end.

(** [decodeExact] into a struct whose zero value is [zero]; a null never
    reaches it, as the walk before refuses it. *)
Definition bindStruct (zero : T) (data : bytes) : option T :=
  match parse data with Some (JObject m) => bindMembers m zero | _ => None end.
End Bind.

(** ** The text a string reads back as *)

(** Every byte that is no part of a rune becomes U+FFFD. *)
Definition coercePiece (p : Z * bytes) : bytes := if bad_piece p then replacement else snd p.
Definition coerceUTF8 (s : bytes) : bytes := concat (map coercePiece (pieces s)).

Definition coerceScalar (t : token) : token := match t with TString s => TString (coerceUTF8 s) | _ => t end.
Fixpoint coerce (j : json) : json :=
  match j with
  | JScalar t => JScalar (coerceScalar t)
  | JArray l => JArray (map coerce l)
  | JObject m => JObject (map (fun kv => (coerceUTF8 (fst kv), coerce (snd kv))) m)
  end.

(** What the source marshals: scalars whose numbers are integers. *)
Definition plain_scalar (t : token) : Prop :=
  match t with Delim _ => False | TNumber text => exists z, text = decimal z | _ => True end.
Fixpoint plain_json (j : json) : Prop :=
  match j with
  | JScalar t => plain_scalar t
  | JArray l => fold_right (fun j P => plain_json j /\ P) True l
  | JObject m => fold_right (fun kv P => plain_json (snd kv) /\ P) True m
  end.

(** ** Strings *)

Lemma coerce_valid s : valid_string s = true -> coerceUTF8 s = s.
Proof.
  rewrite valid_pieces. intros H. rewrite <- (unpieces_pieces s) at 2. unfold coerceUTF8, unpieces, coercePiece. revert H.
  induction (pieces s) as [|p ps IH]; cbn; [done|]. destruct (bad_piece p); [done|]. cbn. intros H. by rewrite IH.
Qed.

(** The escape of one piece. *)
Definition json_piece (p : Z * bytes) : bytes :=
  if bad_piece p then $"\ufffd"
  else if (fst p =? 8232) || (fst p =? 8233) then $"\u202" ++ [hex_digit (fst p mod 16)]
  else match snd p with [b] => if bZ b <? 128 then json_ascii b else [b] | bs => bs end.

Lemma json_body_skip k s : json_body k s = take k s ++ json_body 0 (drop k s).
Proof. revert s. induction k as [|k IH]; intros [|b s]; cbn [json_body take drop firstn skipn app]; try done. by rewrite IH. Qed.

Lemma json_body_pieces s : json_body 0 s = concat (map json_piece (pieces s)).
Proof.
  induction s as [|s r n Hne Hd Hn -> IH] using pieces_ind; [done|]. cbn [map concat]. rewrite <- IH.
  destruct s as [|b s]; [done|]. cbn [json_body]. rewrite Hd. unfold json_piece, bad_piece. cbn [fst snd].
  rewrite length_take_le by lia. destruct (bZ b <? 128) eqn:E.
  { bool_prop. rewrite decode_rune_ascii in Hd by done. injection Hd as <- <-. cbn [take firstn drop skipn]. pose proof (bZ_range b).
    rewrite (proj2 (Z.eqb_neq (bZ b) RuneError)) by (unfold RuneError; lia). cbn [andb].
    rewrite (proj2 (Z.eqb_neq (bZ b) 8232)), (proj2 (Z.eqb_neq (bZ b) 8233)) by lia. cbn [orb]. by rewrite (proj2 (Z.ltb_lt _ _)) by lia. }
  destruct ((r =? RuneError) && (n =? 1)%nat) eqn:E1.
  { apply andb_prop in E1 as [_ ->%Nat.eqb_eq]. done. }
  destruct n as [|n]; [lia|]. replace (S n - 1)%nat with n by lia. change (drop (S n) (b :: s)) with (drop n s). change (take (S n) (b :: s)) with (b :: take n s).
  rewrite json_body_skip. destruct ((r =? 8232) || (r =? 8233)) eqn:E2.
  - rewrite drop_app_length'; [by rewrite <- app_assoc|]. rewrite length_take. cbn in Hn. lia.
  - destruct (take n s) eqn:Et; [|done]. by rewrite E.
Qed.

(** A byte of a longer rune is not ASCII. *)
Lemma good_high p b bs : good_piece p -> snd p = b :: bs -> 128 <= bZ b -> Forall (fun c => 128 <= bZ c) (snd p).
Proof.
  intros (_ & _ & Hd) E Hb. specialize (Hd []). rewrite app_nil_r in Hd. rewrite E in *. constructor; [done|].
  apply Forall_lookup. intros i c Hc. eapply (decode_continuations (b :: bs) (fst p) _ (S i)); [exact Hd| |done].
  apply lookup_lt_Some in Hc. cbn. lia.
Qed.

Lemma good_low p b bs : good_piece p -> snd p = b :: bs -> bZ b < 128 -> p = (bZ b, [b]).
Proof.
  intros (_ & _ & Hd) E Hb. specialize (Hd []). rewrite app_nil_r, E, decode_rune_ascii in Hd by done. destruct p as [r l]. cbn in *. subst l.
  injection Hd as -> Hl. destruct bs; [done|discriminate Hl].
Qed.

(** A decoded rune encodes to its bytes. *)
Lemma encode_good p : good_piece p -> encodeRune (fst p) = snd p.
Proof.
  intros (Hb & Hne & Hd). specialize (Hd []). rewrite app_nil_r in Hd. destruct p as [r s]. cbn [fst snd] in *. unfold bad_piece in Hb. cbn [fst snd] in Hb.
  destruct s as [|b0 s]; [done|]. pose proof (bZ_range b0). unfold decode_rune in Hd.
  assert (Hm : ~ ((RuneError, 1%nat) = (r, length (b0 :: s)))) by (intros Hm; injection Hm as <- Hl; cbn [length] in Hb; rewrite <- Hl in Hb; done). clear Hb.
  destruct (bZ b0 <? 128) eqn:E0.
  { injection Hd as <- Hl. destruct s; [|done]. bool_prop. unfold encodeRune.
    rewrite (proj2 (Z.ltb_ge _ _)), (proj2 (Z.ltb_ge _ (bZ b0))), (proj2 (Z.leb_gt _ _)), (proj2 (Z.ltb_lt _ _)) by lia. cbn. by rewrite byte_of_Z_bZ. }
  destruct ((bZ b0 <? 194) || (244 <? bZ b0)) eqn:E1; [by destruct Hm|]. bool_prop.
  destruct s as [|b1 s]; [by destruct Hm|]. pose proof (bZ_range b1).
  destruct (second_ok b0 b1) eqn:E2; [|by destruct Hm]. cbn [negb] in Hd.
  pose proof (second_ok_continuation _ _ E2) as C1. unfold continuation in C1. bool_prop.
  destruct (bZ b0 <? 224) eqn:E3.
  { injection Hd as <- Hl. destruct s; [|done]. bool_prop. unfold encodeRune.
    rewrite (proj2 (Z.ltb_ge _ _)), (proj2 (Z.ltb_ge 1114111 _)), (proj2 (Z.leb_gt 55296 _)), (proj2 (Z.ltb_ge _ 128)), (proj2 (Z.ltb_lt _ 2048)) by lia. cbn [orb andb].
    f_equal; [|f_equal]; rewrite <- byte_of_Z_bZ; f_equal; Z.to_euclidean_division_equations; lia. }
  destruct s as [|b2 s]; [by destruct Hm|]. pose proof (bZ_range b2).
  destruct (continuation b2) eqn:C2; [|by destruct Hm]. cbn [negb] in Hd. unfold continuation in C2. bool_prop.
  destruct (bZ b0 <? 240) eqn:E4.
  { injection Hd as <- Hl. destruct s; [|done]. bool_prop.
    assert (K : (bZ b0 = 224 -> 160 <= bZ b1) /\ (bZ b0 = 237 -> bZ b1 <= 159)).
    { unfold second_ok, between in E2. split; intros E; rewrite E in E2; cbn in E2; bool_prop; lia. }
    unfold encodeRune. rewrite (proj2 (Z.ltb_ge _ _)), (proj2 (Z.ltb_ge 1114111 _)) by lia. cbn [orb].
    match goal with |- (if ?a && ?b then _ else _) = _ => assert (Hs : a && b = false) by (apply andb_false_iff; destruct (decide (bZ b0 <= 237)); [left; apply Z.leb_gt|right; apply Z.leb_gt]; lia); rewrite Hs end.
    rewrite (proj2 (Z.ltb_ge _ 128)), (proj2 (Z.ltb_ge _ 2048)), (proj2 (Z.ltb_lt _ 65536)) by lia.
    f_equal; [|f_equal; [|f_equal]]; rewrite <- byte_of_Z_bZ; f_equal; Z.to_euclidean_division_equations; lia. }
  destruct s as [|b3 s]; [by destruct Hm|]. pose proof (bZ_range b3).
  destruct (continuation b3) eqn:C3; [|by destruct Hm]. cbn [negb] in Hd. unfold continuation in C3. bool_prop.
  injection Hd as <- Hl. destruct s; [|done].
  assert (K : (bZ b0 = 240 -> 144 <= bZ b1) /\ (bZ b0 = 244 -> bZ b1 <= 143)).
  { unfold second_ok, between in E2. split; intros E; rewrite E in E2; cbn in E2; bool_prop; lia. }
  unfold encodeRune. rewrite (proj2 (Z.ltb_ge _ 0)), (proj2 (Z.ltb_ge 1114111 _)), (proj2 (Z.leb_gt _ 57343)), andb_false_r by lia. cbn [orb].
  rewrite (proj2 (Z.ltb_ge _ 128)), (proj2 (Z.ltb_ge _ 2048)), (proj2 (Z.ltb_ge _ 65536)) by lia.
  f_equal; [|f_equal; [|f_equal; [|f_equal]]]; rewrite <- byte_of_Z_bZ; f_equal; Z.to_euclidean_division_equations; lia.
Qed.

(** Scanning a string over one piece. *)
Definition scanned (raw : bytes) : bytes * bytes -> bytes * bytes := fun '(r, rest) => (raw ++ r, rest).

Lemma scan_high l t : Forall (fun c => 128 <= bZ c) l -> scan_string (l ++ t) = option_map (scanned l) (scan_string t).
Proof.
  induction 1 as [|c l Hc _ IH]; cbn [app]; [by destruct (scan_string t) as [[? ?]|]|]. cbn [scan_string].
  assert (c =b x22 = false) as -> by (apply beq_neq; intros ->; cbn in Hc; lia). rewrite (proj2 (Z.ltb_ge _ _)) by lia.
  assert (c =b x5c = false) as -> by (apply beq_neq; intros ->; cbn in Hc; lia). rewrite IH. by destruct (scan_string t) as [[? ?]|].
Qed.

Lemma scan_ascii b t : bZ b < 128 -> scan_string (json_ascii b ++ t) = option_map (scanned (json_ascii b)) (scan_string t).
Proof. intros H. destruct b; try (cbn in H; lia); cbn; by destruct (scan_string t) as [[? ?]|]. Qed.

Lemma unquote_high f b s : 128 <= bZ b -> unquote (S f) (b :: s) = let (r, n) := decode_rune (b :: s) in encodeRune r ++ unquote f (drop n (b :: s)).
Proof. intros H. destruct b; try (cbn in H; lia); reflexivity. Qed.

Lemma unquote_ascii f b t : bZ b < 128 -> unquote (S f) (json_ascii b ++ t) = b :: unquote f t.
Proof. intros H. destruct b; try (cbn in H; lia); reflexivity. Qed.

(** What a piece of a string may be: a bad byte or a whole rune. *)
Definition known_piece (p : Z * bytes) : Prop := bad_piece p = true \/ good_piece p.

Lemma pieces_known s : Forall known_piece (pieces s).
Proof.
  apply Forall_forall. intros p Hp. destruct (bad_piece p) eqn:E; [by left|right]. by apply (pieces_good s).
Qed.

(** The shapes of an escape. *)
Lemma json_piece_cases p : known_piece p ->
  (bad_piece p = true /\ json_piece p = $"\ufffd")
  \/ (exists b, bZ b < 128 /\ p = (bZ b, [b]) /\ json_piece p = json_ascii b)
  \/ (good_piece p /\ fst p = 8232 /\ json_piece p = $"\u2028") \/ (good_piece p /\ fst p = 8233 /\ json_piece p = $"\u2029")
  \/ (good_piece p /\ exists b bs, snd p = b :: bs /\ 128 <= bZ b /\ json_piece p = snd p).
Proof.
  unfold json_piece. intros [->|Hp]; [by left|]. right. destruct Hp as (Hb & Hne & Hd). assert (Hp : good_piece p) by done. rewrite Hb.
  destruct ((fst p =? 8232) || (fst p =? 8233)) eqn:E.
  { apply orb_true_iff in E as [E|E]; apply Z.eqb_eq in E; rewrite E; [right; left|right; right; left]; done. }
  destruct (snd p) as [|b bs] eqn:Es; [done|]. destruct (decide (bZ b < 128)) as [Hlt|Hge].
  - left. exists b. pose proof (good_low _ _ _ Hp Es Hlt) as ->. cbn in Es. injection Es as <-. by rewrite (proj2 (Z.ltb_lt _ _)).
  - do 3 right. split; [done|]. exists b, bs. split; [done|]. split; [lia|]. destruct bs; [|done]. by rewrite (proj2 (Z.ltb_ge _ _)) by lia.
Qed.

Lemma scan_piece p t : known_piece p -> scan_string (json_piece p ++ t) = option_map (scanned (json_piece p)) (scan_string t).
Proof.
  intros Hp. destruct (json_piece_cases p Hp) as [[_ ->]|[(b & Hb & _ & ->)|[(_ & _ & ->)|[(_ & _ & ->)|(Hg & b & bs & E & Hb & ->)]]]];
    try (cbn; by destruct (scan_string t) as [[? ?]|]).
  - by apply scan_ascii.
  - apply scan_high. by eapply good_high.
Qed.

Lemma unquote_piece f p t : known_piece p -> unquote (S f) (json_piece p ++ t) = coercePiece p ++ unquote f t.
Proof.
  unfold coercePiece. intros Hp.
  destruct (json_piece_cases p Hp) as [[-> ->]|[(b & Hb & -> & ->)|[(Hg & E & ->)|[(Hg & E & ->)|(Hg & b & bs & E & Hb & ->)]]]]; try (destruct (Hg) as (-> & _)).
  - reflexivity.
  - rewrite unquote_ascii by done. unfold bad_piece. cbn [fst snd]. pose proof (bZ_range b). by rewrite (proj2 (Z.eqb_neq _ _)) by (unfold RuneError; lia).
  - rewrite <- encode_good, E by done. reflexivity.
  - rewrite <- encode_good, E by done. reflexivity.
  - rewrite <- (encode_good p) at 2 by done. destruct Hg as (_ & _ & Hd). specialize (Hd t). rewrite E in *. cbn [app] in *.
    rewrite unquote_high, Hd by done. f_equal. f_equal. change (b :: bs ++ t) with ((b :: bs) ++ t). by rewrite drop_app_length.
Qed.

Lemma json_piece_nonempty p : known_piece p -> (1 <= length (json_piece p))%nat.
Proof.
  intros Hp. destruct (json_piece_cases p Hp) as [[_ ->]|[(b & Hb & _ & ->)|[(_ & _ & ->)|[(_ & _ & ->)|(_ & b & bs & E & _ & ->)]]]]; try (cbn; lia).
  - destruct b; cbn; lia.
  - rewrite E. cbn. lia.
Qed.

Lemma scan_pieces ps t : Forall known_piece ps -> scan_string (concat (map json_piece ps) ++ x22 :: t) = Some (concat (map json_piece ps), t).
Proof.
  induction 1 as [|p ps Hp _ IH]; cbn [map concat]; [done|]. by rewrite <- app_assoc, scan_piece, IH.
Qed.

Lemma unquote_pieces f ps : Forall known_piece ps -> (length (concat (map json_piece ps)) <= f)%nat ->
  unquote f (concat (map json_piece ps)) = concat (map coercePiece ps).
Proof.
  intros H. revert f. induction H as [|p ps Hp _ IH]; intros f; cbn [map concat]; [by destruct f|]. rewrite length_app. intros Hf.
  pose proof (json_piece_nonempty p Hp). destruct f as [|f]; [lia|]. rewrite unquote_piece by done. f_equal. apply IH. lia.
Qed.

(** A string read back. *)
Lemma scan_text s t : scan_scalar (json_string s ++ t) = Some (TString (coerceUTF8 s), t).
Proof.
  unfold json_string. rewrite json_body_pieces, <- !app_assoc. cbn [app scan_scalar]. change (x22 =b x22) with true. cbv iota.
  rewrite scan_pieces by apply pieces_known. cbn [option_map]. by rewrite unquote_pieces by (done || apply pieces_known).
Qed.

(** ** Integers *)

Lemma uint_digits d : forallb is_digit (String.list_byte_of_string (NilEmpty.string_of_uint d)) = true.
Proof. induction d; cbn; done. Qed.

(** Digits without a leading zero, or zero. *)
Definition canonical_digits (ds : bytes) : Prop :=
  forallb is_digit ds = true /\ exists c ds', ds = c :: ds' /\ (c = "0"%byte -> ds' = []).

Lemma positive_digits p : canonical_digits (String.list_byte_of_string (NilZero.string_of_uint (Pos.to_uint p))).
Proof.
  pose proof (DecimalPos.Unsigned.to_uint_nonnil p) as Hn. pose proof (DecimalPos.Unsigned.to_uint_nonzero p) as Hz.
  assert (Hu : Decimal.unorm (Pos.to_uint p) = Pos.to_uint p) by (by rewrite <- DecimalPos.Unsigned.to_of, DecimalPos.Unsigned.of_to).
  destruct (Pos.to_uint p) as [|d|d|d|d|d|d|d|d|d|d] eqn:E; [done|..]; (split; [cbn; apply uint_digits|]); cbn; try (do 2 eexists; split; [done|]; intros; discriminate).
  exfalso. unfold Decimal.unorm in Hu. cbn in Hu. destruct (Decimal.nzhead d) eqn:Eh; try discriminate Hu; [by injection Hu as <-|].
  exact (DecimalFacts.nzhead_nonzero _ _ Eh).
Qed.

Lemma decimal_shape z : exists sign ds, decimal z = sign ++ ds /\ (sign = [] \/ sign = $"-") /\ canonical_digits ds.
Proof.
  destruct z as [|p|p]; unfold decimal; cbn [Z.to_int].
  - exists [], $"0". split; [done|]. split; [by left|]. split; [done|]. by exists "0"%byte, [].
  - exists [], (String.list_byte_of_string (NilZero.string_of_uint (Pos.to_uint p))). split; [done|]. split; [by left|]. apply positive_digits.
  - exists $"-", (String.list_byte_of_string (NilZero.string_of_uint (Pos.to_uint p))). split; [done|]. split; [by right|]. apply positive_digits.
Qed.

(** What may follow a value in a document. *)
Definition closes (t : bytes) : Prop := match t with [] => True | c :: _ => c = ","%byte \/ c = "]"%byte \/ c = "}"%byte end.

Lemma take_digits_all ds t : forallb is_digit ds = true -> closes t -> take_digits (ds ++ t) = (ds, t).
Proof.
  intros H Ht. induction ds as [|c ds IH]; cbn [app].
  - destruct t as [|c t]; [done|]. cbn in *. by destruct Ht as [-> | [-> | ->]].
  - cbn in H. apply andb_prop in H as [Hc H]. cbn [take_digits]. by rewrite Hc, IH.
Qed.

Lemma scan_int_digits ds t : canonical_digits ds -> closes t -> scan_int (ds ++ t) = Some (ds, t).
Proof.
  intros [Hd (c & ds' & -> & H0)] Ht. destruct (decide (c = "0"%byte)) as [->|Hc]; [by rewrite H0|].
  assert (E : scan_int ((c :: ds') ++ t) = some_digits ((c :: ds') ++ t)) by (by destruct c). rewrite E. unfold some_digits.
  by rewrite take_digits_all.
Qed.

Lemma scan_frac_closes t : closes t -> scan_frac t = Some ([], t).
Proof. destruct t as [|c t]; [done|]. by intros [-> | [-> | ->]]. Qed.
Lemma scan_exp_closes t : closes t -> scan_exp t = Some ([], t).
Proof. destruct t as [|c t]; [done|]. by intros [-> | [-> | ->]]. Qed.

Lemma scan_decimal z t : closes t -> scan_number (decimal z ++ t) = Some (decimal z, t).
Proof.
  intros Ht. destruct (decimal_shape z) as (sign & ds & -> & Hs & Hd). unfold scan_number.
  assert (E : scan_sign ((sign ++ ds) ++ t) = (sign, ds ++ t)).
  { destruct Hs as [-> | ->]; [|done]. destruct Hd as [Hd (c & ds' & -> & _)]. cbn in Hd. apply andb_prop in Hd as [Hd _]. by destruct c. }
  rewrite E, scan_int_digits, scan_frac_closes, scan_exp_closes by done. by rewrite !app_nil_r.
Qed.

(** The first byte of a number. *)
Lemma decimal_first z : exists c s, decimal z = c :: s /\ (c =b "-"%byte) || is_digit c = true.
Proof.
  destruct (decimal_shape z) as (sign & ds & -> & [-> | ->] & Hd & c & ds' & -> & _); [|by exists "-"%byte, (c :: ds')].
  exists c, ds'. split; [done|]. cbn in Hd. apply andb_prop in Hd as [-> _]. apply orb_true_r.
Qed.

Lemma scan_marshal_scalar tok t : plain_scalar tok -> closes t -> scan_scalar (marshalScalar tok ++ t) = Some (coerceScalar tok, t).
Proof.
  destruct tok as [c|s|text|b|]; cbn [plain_scalar marshalScalar coerceScalar]; [done|intros _ _; apply scan_text| |by destruct b, t|by destruct t].
  intros [z ->] Ht. pose proof (scan_decimal z t Ht) as Hs. destruct (decimal_first z) as (c & s & E & Hc). rewrite E in *. cbn [app] in *.
  unfold scan_scalar. assert (c =b x22 = false) as -> by (by destruct c). rewrite Hc. by rewrite Hs.
Qed.

(** ** Reading back *)

(** After a separator a decoder reads what stands behind it. *)
Lemma Token_again d d1 : tokenTurn d = turnAgain d1 -> Token d = Token d1.
Proof. intros H. unfold Token. cbn [tokenLoop]. rewrite H. change (tokenLoop 2 d1 = tokenLoop (2 + 1) d1). by rewrite tokenLoop_enough. Qed.

Lemma Token_first d t d1 : tokenTurn d = turnToken t d1 -> Token d = inl (t, d1).
Proof. intros H. unfold Token. cbn [tokenLoop]. by rewrite H. Qed.

(** The first byte of a scalar. *)
Definition scalar_first (c : byte) : bool := (c =b x22) || (c =b "-"%byte) || is_digit c || (c =b "t"%byte) || (c =b "f"%byte) || (c =b "n"%byte).

Lemma turn_scalar c s st stack : scalar_first c = true -> tokenTurn (mkDecoder (c :: s) st stack) = scalarTurn c (c :: s) (mkDecoder (c :: s) st stack).
Proof. intros H. by destruct c. Qed.

Lemma scalar_head tok : plain_scalar tok -> exists c s, marshalScalar tok = c :: s /\ scalar_first c = true.
Proof.
  destruct tok as [c|s|text|b|]; cbn [plain_scalar marshalScalar]; [done|intros _; by exists x22, (json_body 0 s ++ [x22])| |intros _; destruct b; eauto|intros _; eauto].
  intros [z ->]. destruct (decimal_first z) as (c & s & -> & Hc). exists c, s. split; [done|]. unfold scalar_first.
  apply orb_true_iff in Hc as [-> | ->]; by rewrite ?orb_true_r.
Qed.

(** A scalar where a value may stand. *)
Lemma Token_scalar tok t st stack : plain_scalar tok -> tokenValueAllowed st = true -> closes t ->
  Token (mkDecoder (marshalScalar tok ++ t) st stack) = inl (coerceScalar tok, mkDecoder t (tokenValueEnd st) stack).
Proof.
  intros Hp Hst Ht. pose proof (scan_marshal_scalar tok t Hp Ht) as Hs. destruct (scalar_head tok Hp) as (c & s & E & Hc). rewrite E in *. cbn [app] in *.
  apply Token_first. rewrite turn_scalar by done. unfold scalarTurn. cbv zeta. cbn [tstate tstack]. rewrite Hst, Hs. cbn [negb].
  rewrite andb_false_r. by destruct st; rewrite ?andb_false_r.
Qed.

(** A key. *)
Lemma Token_text key t st stack : st = tokenObjectStart \/ st = tokenObjectKey ->
  Token (mkDecoder (json_string key ++ t) st stack) = inl (TString (coerceUTF8 key), mkDecoder t tokenObjectColon stack).
Proof.
  intros Hst. pose proof (scan_text key t) as Hs. apply Token_first. unfold json_string in *. cbn [app] in *. rewrite turn_scalar by done.
  unfold scalarTurn. cbv zeta. cbn [tstate tstack]. rewrite Hs. by destruct Hst as [-> | ->].
Qed.

(** An opening bracket where a value may stand. *)
Lemma Token_array s st stack : tokenValueAllowed st = true -> Token (mkDecoder ("["%byte :: s) st stack) = inl (Delim "["%byte, mkDecoder s tokenArrayStart (st :: stack)).
Proof. intros H. apply Token_first. by destruct st. Qed.
Lemma Token_object s st stack : tokenValueAllowed st = true -> Token (mkDecoder ("{"%byte :: s) st stack) = inl (Delim "{"%byte, mkDecoder s tokenObjectStart (st :: stack)).
Proof. intros H. apply Token_first. by destruct st. Qed.

(** Decoders that read the same. *)
Lemma reads_as d d1 j d' : Token d = Token d1 -> reads d1 j d' -> reads d j d'.
Proof. intros E H. inversion H; subst; econstructor; by (rewrite E || idtac). Qed.

(** Elements and members behind the first, with what follows the array. *)
Definition moreElements (l : list json) : bytes := concat (map (fun j => ","%byte :: marshal j) l).
Definition moreMembers (m : list (bytes * json)) : bytes := concat (map (fun kv => ","%byte :: json_key (fst kv) ++ marshal (snd kv)) m).

Lemma join_more {A} (f : A -> bytes) a l : join_byte ","%byte (map f (a :: l)) = f a ++ concat (map (fun x => ","%byte :: f x) l).
Proof.
  revert a. induction l as [|b l IH]; intros a; [cbn; by rewrite app_nil_r|]. change (map f (a :: b :: l)) with (f a :: map f (b :: l)).
  change (join_byte _ (f a :: map f (b :: l))) with (f a ++ ","%byte :: join_byte ","%byte (map f (b :: l))). rewrite IH. by cbn.
Qed.

Lemma closes_more {A} (f : A -> bytes) l c t : closes (c :: t) -> closes (concat (map (fun x => ","%byte :: f x) l) ++ c :: t).
Proof. destruct l; cbn; [done|auto]. Qed.

(** The values that read back wherever they stand. *)
Definition reads_back (j : json) : Prop := plain_json j -> forall st stack t, tokenValueAllowed st = true -> closes t ->
  reads (mkDecoder (marshal j ++ t) st stack) (coerce j) (mkDecoder t (tokenValueEnd st) stack).

Lemma elements_back l stack st0 t : Forall reads_back l -> plain_json (JArray l) -> tokenValueAllowed st0 = true -> 
  elements (mkDecoder (moreElements l ++ "]"%byte :: t) tokenArrayComma (st0 :: stack)) (map coerce l) (mkDecoder t (tokenValueEnd st0) stack).
Proof.
  intros H Hp Hst. induction H as [|j l Hj _ IH]; cbn [map].
  - by constructor.
  - destruct Hp as [Hp Hl]. unfold moreElements in *. cbn [map concat app]. rewrite <- app_assoc. econstructor; [done| |by apply IH].
    eapply reads_as; [by apply Token_again|]. apply (Hj Hp tokenArrayValue); [done|]. apply closes_more. cbn. auto.
Qed.

Lemma members_back m stack st0 t : Forall (fun kv => reads_back (snd kv)) m -> plain_json (JObject m) -> tokenValueAllowed st0 = true ->
  members (mkDecoder (moreMembers m ++ "}"%byte :: t) tokenObjectComma (st0 :: stack)) (map (fun kv => (coerceUTF8 (fst kv), coerce (snd kv))) m)
    (mkDecoder t (tokenValueEnd st0) stack).
Proof.
  intros H Hp Hst. induction H as [|[k j] m Hj _ IH]; cbn [map].
  - by constructor.
  - destruct Hp as [Hp Hl]. cbn [fst snd] in *. unfold moreMembers, json_key in *. cbn [map concat app fst snd]. rewrite <- !app_assoc. econstructor; [done| | |by apply IH].
    + etransitivity; [by apply Token_again|]. apply Token_text. by right.
    + eapply reads_as; [by apply Token_again|]. apply (Hj Hp tokenObjectValue); [done|]. apply (closes_more (fun kv : bytes * json => json_key (fst kv) ++ marshal (snd kv))). cbn. auto.
Qed.

(** Induction over values. *)
Fixpoint json_values (P : json -> Prop) (Hs : forall t, P (JScalar t)) (Ha : forall l, Forall P l -> P (JArray l))
    (Ho : forall m, Forall (fun kv => P (snd kv)) m -> P (JObject m)) (j : json) : P j :=
  match j with
  | JScalar t => Hs t
  | JArray l => Ha l (list_rect (Forall P) (Forall_nil_2 P) (fun j l IH => Forall_cons_2 P j l (json_values P Hs Ha Ho j) IH) l)
  | JObject m => Ho m (list_rect (Forall (fun kv => P (snd kv))) (Forall_nil_2 _)
      (fun kv m IH => Forall_cons_2 (fun kv => P (snd kv)) kv m (json_values P Hs Ha Ho (snd kv)) IH) m)
  end.

Lemma marshal_reads j : reads_back j.
Proof.
  induction j as [tok|l Hl|m Hm] using json_values; intros Hp st stack t Hst Ht.
  - cbn [marshal coerce]. apply reads_scalar; [by apply Token_scalar|]. by destruct tok.
  - cbn [coerce]. apply reads_array with (d1 := mkDecoder (join_byte ","%byte (map marshal l) ++ "]"%byte :: t) tokenArrayStart (st :: stack)).
    { change (marshal (JArray l)) with ("["%byte :: join_byte ","%byte (map marshal l) ++ ["]"%byte]). cbn [app]. rewrite <- app_assoc. by apply Token_array. }
    destruct l as [|j l]; [by constructor|]. apply Forall_cons in Hl as [Hj Hl]. destruct Hp as [Hpj Hp]. rewrite (join_more marshal), <- app_assoc. cbn [map].
    econstructor; [| |by apply elements_back].
    + destruct j as [tok| |]; cbn [marshal]; [|done..]. destruct (scalar_head tok Hpj) as (c & s & -> & Hc). by destruct c.
    + apply (Hj Hpj tokenArrayStart); [done|]. apply closes_more. cbn. auto.
  - cbn [coerce].
    apply reads_object with (d1 := mkDecoder (join_byte ","%byte (map (fun kv => json_key (fst kv) ++ marshal (snd kv)) m) ++ "}"%byte :: t) tokenObjectStart (st :: stack)).
    { change (marshal (JObject m)) with ("{"%byte :: join_byte ","%byte (map (fun kv => json_key (fst kv) ++ marshal (snd kv)) m) ++ ["}"%byte]).
      cbn [app]. rewrite <- app_assoc. by apply Token_object. }
    destruct m as [|[k j] m]; [by constructor|]. apply Forall_cons in Hm as [Hj Hm]. destruct Hp as [Hpj Hp]. cbn [fst snd] in *.
    rewrite (join_more (fun kv : bytes * json => json_key (fst kv) ++ marshal (snd kv))), <- app_assoc. cbn [map fst snd]. unfold json_key at 1. rewrite <- !app_assoc.
    econstructor; [done|apply Token_text; by left| |by apply members_back].
    eapply reads_as; [by apply Token_again|]. apply (Hj Hpj tokenObjectValue); [done|].
    apply (closes_more (fun kv : bytes * json => json_key (fst kv) ++ marshal (snd kv))). cbn. auto.
Qed.

(** What is marshalled is one document: the value with its texts repaired. *)
Lemma marshal_document j : plain_json j -> document (marshal j) (coerce j).
Proof.
  intros Hp. exists (mkDecoder [] tokenTopValue []). split; [|done]. pose proof (marshal_reads j Hp tokenTopValue [] []) as H.
  rewrite app_nil_r in H. by apply H.
Qed.

Lemma marshal_parse j : plain_json j -> parse (marshal j) = Some (coerce j).
Proof. intros Hp. by apply parse_document, marshal_document. Qed.

(** * Raw JSON values

    [json.Unmarshal] with unknown fields refused, into structs whose fields
    are structs, slices, pointers and [json.RawMessage], and [json.Marshal]
    back.  A raw message keeps its text, so both sides work on texts. *)

(** ** Splitting *)

(** The text of the value between two decoders, without the separator and the
    white space before it. *)
Definition valueText (d d' : decoder) : bytes :=
  let s := skip_space (take (length (rest d) - length (rest d')) (rest d)) in
  match s with
  | c :: s' => if (c =b ":"%byte) || (c =b ","%byte) then skip_space s' else s
  | [] => []
  end.

Fixpoint rawElements (fuel : nat) (d : decoder) : option (list bytes * decoder) :=
  match fuel with
  | O => None
  | S fuel =>
      if More d then
        match parseValue fuel d with
        | Some (_, q1) => option_map (fun '(l, q2) => (valueText d q1 :: l, q2)) (rawElements fuel q1)
        | None => None
        end
      else match Token d with inl (Delim "]"%byte, d) => Some ([], d) | _ => None end
  end.

Fixpoint rawMembers (fuel : nat) (d : decoder) : option (list (bytes * bytes) * decoder) :=
  match fuel with
  | O => None
  | S fuel =>
      if More d then
        match Token d with
        | inl (TString key, d) =>
            match parseValue fuel d with
            | Some (_, q1) => option_map (fun '(m, q2) => ((key, valueText d q1) :: m, q2)) (rawMembers fuel q1)
            | None => None
            end
        | _ => None
        end
      else match Token d with inl (Delim "}"%byte, d) => Some ([], d) | _ => None end
  end.

(** The end of the input behind an array or object. *)
Definition atEnd {A} (r : option (A * decoder)) : option A :=
  match r with
  | Some (a, d) => match Token d with inr tokenEOF => Some a | _ => None end
  | None => None
  end.

Definition rawArray (data : bytes) : option (list bytes) :=
  match Token (newDecoder data) with
  | inl (Delim "["%byte, d) => atEnd (rawElements (parseFuel data) d)
  | _ => None
  end.
Definition rawObject (data : bytes) : option (list (bytes * bytes)) :=
  match Token (newDecoder data) with
  | inl (Delim "{"%byte, d) => atEnd (rawMembers (parseFuel data) d)
  | _ => None
  end.

(** ** Reading into a value *)

(** The new value of a target, or a type error; null leaves what is no
    pointer, slice or raw message. *)
Definition reader (A : Type) : Type := A -> bytes -> option A.

Definition isNull (raw : bytes) : bool := match parse raw with Some (JScalar TNull) => true | _ => false end.

Definition readScalar {A} (as_value : json -> option A) : reader A := fun current raw =>
  if isNull raw then Some current else match parse raw with Some j => as_value j | None => None end.
Definition readString : reader bytes := readScalar asString.
Definition readBool : reader bool := readScalar asBool.
Definition readInt64 : reader Z := readScalar asInt.
Definition readRaw : reader bytes := fun _ raw => Some raw.
Definition readPointer {A} (zero : A) (r : reader A) : reader (option A) := fun current raw =>
  if isNull raw then Some None else option_map Some (r (default zero current) raw).

Fixpoint readElements {A} (zero : A) (r : reader A) (raws : list bytes) : option (list A) :=
  match raws with
  | [] => Some []
  | raw :: raws => match r zero raw, readElements zero r raws with Some a, Some l => Some (a :: l) | _, _ => None end
  end.
(** A key is never repeated, so a slice is read into at most once. *)
Definition readSlice {A} (zero : A) (r : reader A) : reader (list A) := fun _ raw =>
  if isNull raw then Some [] else match rawArray raw with Some raws => readElements zero r raws | None => None end.

Section Struct.
Context {T : Type}.

(** A field of a struct: its name and how its raw value is stored. *)
Definition structField : Type := bytes * (bytes -> T -> option T).
Definition field {V} (name : bytes) (p : T -> V) `{!Setter p} (r : reader V) : structField :=
  (name, fun raw t => match r (p t) raw with Some v => Some (t <| p := v |>) | None => None end).

(** The exact name, or else the first that folds to the key. *)
Definition fieldFor (fields : list structField) (key : bytes) : option (bytes -> T -> option T) :=
  match List.find (fun f => beqs (fst f) key) fields with
  | Some f => Some (snd f)
  | None => option_map snd (List.find (fun f => equal_fold key (fst f)) fields)
  end.
Fixpoint storeMembers (fields : list structField) (m : list (bytes * bytes)) (target : T) : option T :=
  match m with
  | [] => Some target
  | (key, raw) :: m =>
      match fieldFor fields key with
      | Some store => match store raw target with Some target => storeMembers fields m target | None => None end
      | None => None
      end
  end.
Definition readStruct (fields : list structField) : reader T := fun current raw =>
  if isNull raw then Some current else match rawObject raw with Some m => storeMembers fields m current | None => None end.
End Struct.

(** [decodeExact] of a whole input. *)
Definition decodeInto {A} (zero : A) (r : reader A) (data : bytes) : option A :=
  match parse data with Some _ => r zero data | None => None end.

(** ** Writing *)

(** The text of a value, or the error of a raw message that is no value. *)
Definition written : Type := option bytes.

(** [appendCompact] with HTML escapes: white space outside strings goes. *)
Fixpoint compactLoop (skip : nat) (inString afterEscape : bool) (s : bytes) : bytes :=
  match s with
  | [] => []
  | c :: s' =>
      let separator := (c =b xe2) && match s' with x80 :: b2 :: _ => (b2 =b xa8) || (b2 =b xa9) | _ => false end in
      match skip with
      | S skip => compactLoop skip inString false s'
      | O =>
          if (c =b "<"%byte) || (c =b ">"%byte) || (c =b "&"%byte)
          then $"\u00" ++ [hex_digit (bZ c / 16); hex_digit (bZ c mod 16)] ++ compactLoop 0 inString false s'
          else if separator
          then $"\u202" ++ [hex_digit (bZ (default x00 (s !! 2%nat)) mod 16)] ++ compactLoop 2 inString false s'
          else if inString then c :: compactLoop 0 (afterEscape || negb (c =b x22)) (negb afterEscape && (c =b x5c)) s'
          else if json_space c then compactLoop 0 false false s'
          else c :: compactLoop 0 (c =b x22) false s'
      end
  end.
Definition rawText (raw : bytes) : written := match parse raw with Some _ => Some (compactLoop 0 false false raw) | None => None end.

Fixpoint writtenAll (l : list written) : option (list bytes) :=
  match l with
  | [] => Some []
  | Some text :: l => match writtenAll l with Some texts => Some (text :: texts) | None => None end
  | None :: _ => None
  end.
Definition objectText (members : list written) : written :=
  option_map (fun texts => $"{" ++ join_byte ","%byte texts ++ $"}") (writtenAll members).
Definition arrayText (elements : list written) : written :=
  option_map (fun texts => $"[" ++ join_byte ","%byte texts ++ $"]") (writtenAll elements).

(** A member of an object, and members under [omitempty]. *)
Definition put (name : bytes) (value : written) : list written := [option_map (fun text => json_key name ++ text) value].
Definition putString (name s : bytes) : list written := put name (Some (json_string s)).
Definition putBool (name : bytes) (b : bool) : list written := put name (Some (if b then $"true" else $"false")).
Definition putInt (name : bytes) (z : Z) : list written := put name (Some (decimal z)).
Definition orEmpty (empty : bool) (members : list written) : list written := if empty then [] else members.
Definition isEmpty {A} (l : list A) : bool := match l with [] => true | _ => false end.
Definition putPointer {A} (name : bytes) (f : A -> written) (p : option A) : list written :=
  match p with Some a => put name (f a) | None => [] end.

(** ** Concrete texts *)

Lemma raw_examples :
  rawObject ($"{ " ++ json_key $"a" ++ $" [1, 2] , " ++ json_key $"b" ++ json_string $"x" ++ $"} ") = Some [($"a", $"[1, 2]"); ($"b", json_string $"x")]
  /\ rawArray $"[ 1 ,{} , null]" = Some [$"1"; $"{}"; $"null"] /\ rawArray $"[1] 2" = None
  /\ rawText ($"{ " ++ json_string $"a b" ++ $" : [ 1 , " ++ [x22; x3c; x5c; x22; x20; x22] ++ $" ]}") = Some ($"{" ++ json_string $"a b" ++ $":[1," ++ [x22] ++ $"\u003c" ++ [x5c; x22; x20; x22] ++ $"]}").
Proof. vm_compute. done. Qed.
