(* ===== verification/ToolResults.v ===== *)
(** * Tool results and their bounded encoding

    The result types of [internal/mcpserver] with their JSON, the reductions
    of [output.go] and [encodeBounded].  A result type is an instance of
    [ToolResult]: what its methods do, with [ShrinkLaws] what they promise. *)
From Stdlib Require Import ZArith Lia Strings.Byte.
From stdpp Require Import base list strings.
From S2P Require Import Prelude GoStrings GoText GoJson Session MessageID Mime GoMarshal.

Definition maxToolResultBytes : Z := 100000.

(** ** The results *)

Record folderResult := mkFolderResult { frName : bytes; frDelimiter : bytes }.
Record listFoldersResult := mkListFolders { lfFolders : list folderResult; lfTruncated : bool }.

Record messageResult := mkMessageResult {
  mrID : bytes; mrMailbox : bytes; mrUIDValidity : Z; mrUID : Z; mrSubject : bytes; mrSize : Z; mrFrom : bytes; mrDate : bytes;
  mrDateSource : DateSource; mrReadState : ReadState; mrMetadataTruncated : bool }.

Record searchMailResult := mkSearchResult { smResults : list messageResult; smTruncated : bool }.

(** [DeclaredSize] is a pointer. *)
Record attachmentResult := mkAttachmentResult {
  arFilename : bytes; arContentType : bytes; arDisposition : bytes; arHasDeclaredSize : bool; arDeclaredSize : option Z }.

Record messageTruncation := mkMessageTruncation {
  mtHeaders : bool; mtHeaderCount : bool; mtText : bool; mtMIMEParts : bool; mtMIMEDepth : bool; mtAttachments : bool;
  mtReferences : bool; mtOutput : bool }.

Record attachmentListTruncation := mkListTruncation { ltMIMEParts : bool; ltMIMEDepth : bool; ltAttachments : bool; ltOutput : bool }.

Definition list_truncation_any (t : attachmentListTruncation) : bool := ltMIMEParts t || ltMIMEDepth t || ltAttachments t || ltOutput t.

Record getMessageResult := mkGetMessage {
  gmID : bytes; gmMailbox : bytes; gmUIDValidity : Z; gmUID : Z; gmSize : Z; gmHeaders : CanonicalHeaders; gmText : bytes;
  gmTextSource : bytes; gmAttachments : list attachmentResult; gmTruncation : messageTruncation; gmTruncated : bool }.

Record threadNodeTruncation := mkNodeTruncation { ntHeaders : bool; ntHeaderCount : bool; ntReferences : bool }.
Definition node_truncation_any (t : threadNodeTruncation) : bool := ntHeaders t || ntHeaderCount t || ntReferences t.

Record threadNodeResult := mkNodeResult {
  tnKey : bytes; tnMailbox : bytes; tnUIDValidity : Z; tnUID : Z; tnMessageID : bytes; tnParentKey : bytes; tnDepth : Z;
  tnSubject : bytes; tnFrom : bytes; tnDate : bytes; tnTruncation : threadNodeTruncation }.

(** [threadUnavailableMember] has a closed reason only. *)
Inductive unavailableReason := threadUnavailableStaleID | threadUnavailableInvalidIdentity | threadUnavailableMalformedHeader.

Record getThreadResult := mkGetThread {
  gtID : bytes; gtMailbox : bytes; gtNodes : list threadNodeResult; gtTruncated : bool; gtUnavailable : list unavailableReason }.

Record listAttachmentsResult := mkListAttachments {
  laID : bytes; laMailbox : bytes; laUIDValidity : Z; laUID : Z; laAttachments : list attachmentResult;
  laTruncation : attachmentListTruncation; laTruncated : bool }.

Record selectDigestResult := mkDigest {
  sdMailbox : bytes; sdCandidates : list messageResult; sdTotalMessages : Z; sdUnseenCount : Z; sdTruncated : bool }.

Record triageResultRow := mkRow { rowUID : Z; rowOutcome : bytes; rowCode : bytes }.
Record triageResult := mkTriage { tResults : list triageResultRow }.

#[export] Instance eta_message_result : Eta getMessageResult := fun r =>
  mkGetMessage (gmID r) (gmMailbox r) (gmUIDValidity r) (gmUID r) (gmSize r) (gmHeaders r) (gmText r) (gmTextSource r) (gmAttachments r) (gmTruncation r) (gmTruncated r).
#[export] Instance eta_message_truncation : Eta messageTruncation := fun t =>
  mkMessageTruncation (mtHeaders t) (mtHeaderCount t) (mtText t) (mtMIMEParts t) (mtMIMEDepth t) (mtAttachments t) (mtReferences t) (mtOutput t).
#[export] Instance eta_thread_result : Eta getThreadResult := fun r => mkGetThread (gtID r) (gtMailbox r) (gtNodes r) (gtTruncated r) (gtUnavailable r).
#[export] Instance eta_attachments_result : Eta listAttachmentsResult := fun r =>
  mkListAttachments (laID r) (laMailbox r) (laUIDValidity r) (laUID r) (laAttachments r) (laTruncation r) (laTruncated r).
#[export] Instance eta_list_truncation : Eta attachmentListTruncation := fun t => mkListTruncation (ltMIMEParts t) (ltMIMEDepth t) (ltAttachments t) (ltOutput t).

(** ** Their JSON, in the order of the fields *)

Definition folderJSON (r : folderResult) : json := JObject (member $"name" (JText (frName r)) ++ textMember $"delimiter" (frDelimiter r)).
Definition listFoldersJSON (r : listFoldersResult) : json :=
  JObject (member $"folders" (JArray (map folderJSON (lfFolders r))) ++ boolMember $"truncated" (lfTruncated r)).

Definition messageJSON (r : messageResult) : json :=
  JObject (member $"id" (JText (mrID r)) ++ member $"mailbox" (JText (mrMailbox r)) ++ intMember $"uidvalidity" (mrUIDValidity r)
    ++ intMember $"uid" (mrUID r) ++ textMember $"subject" (mrSubject r) ++ intMember $"size" (mrSize r) ++ textMember $"from" (mrFrom r)
    ++ textMember $"date" (mrDate r) ++ member $"dateSource" (JText (DateSource_MarshalText (mrDateSource r)))
    ++ member $"readState" (JText (ReadState_MarshalText (mrReadState r))) ++ boolMember $"metadataTruncated" (mrMetadataTruncated r)).

Definition searchMailJSON (r : searchMailResult) : json :=
  JObject (member $"results" (JArray (map messageJSON (smResults r))) ++ boolMember $"truncated" (smTruncated r)).

Definition attachmentJSON (r : attachmentResult) : json :=
  JObject (textMember $"filename" (arFilename r) ++ textMember $"contentType" (arContentType r) ++ textMember $"disposition" (arDisposition r)
    ++ member $"hasDeclaredSize" (JBool (arHasDeclaredSize r))
    ++ match arDeclaredSize r with Some size => member $"declaredSize" (JInt size) | None => [] end).

Definition headersJSON (h : CanonicalHeaders) : json :=
  JObject (textMember $"date" (hDate h) ++ textMember $"from" (hFrom h) ++ textMember $"to" (hTo h) ++ textMember $"subject" (hSubject h)
    ++ textMember $"messageId" (hMessageID h) ++ textMember $"inReplyTo" (hInReplyTo h) ++ listMember $"references" JText (hReferences h)).

Definition messageTruncationJSON (t : messageTruncation) : json :=
  JObject (boolMember $"headers" (mtHeaders t) ++ boolMember $"headerCount" (mtHeaderCount t) ++ boolMember $"text" (mtText t)
    ++ boolMember $"mimeParts" (mtMIMEParts t) ++ boolMember $"mimeDepth" (mtMIMEDepth t) ++ boolMember $"attachments" (mtAttachments t)
    ++ boolMember $"references" (mtReferences t) ++ boolMember $"output" (mtOutput t)).

Definition listTruncationJSON (t : attachmentListTruncation) : json :=
  JObject (boolMember $"mimeParts" (ltMIMEParts t) ++ boolMember $"mimeDepth" (ltMIMEDepth t) ++ boolMember $"attachments" (ltAttachments t)
    ++ boolMember $"output" (ltOutput t)).

Definition getMessageJSON (r : getMessageResult) : json :=
  JObject (member $"id" (JText (gmID r)) ++ member $"mailbox" (JText (gmMailbox r)) ++ intMember $"uidvalidity" (gmUIDValidity r)
    ++ intMember $"uid" (gmUID r) ++ intMember $"size" (gmSize r) ++ member $"headers" (headersJSON (gmHeaders r)) ++ textMember $"text" (gmText r)
    ++ member $"textSource" (JText (gmTextSource r)) ++ listMember $"attachments" attachmentJSON (gmAttachments r)
    ++ member $"truncation" (messageTruncationJSON (gmTruncation r)) ++ boolMember $"truncated" (gmTruncated r)).

Definition nodeTruncationJSON (t : threadNodeTruncation) : json :=
  JObject (boolMember $"headers" (ntHeaders t) ++ boolMember $"headerCount" (ntHeaderCount t) ++ boolMember $"references" (ntReferences t)).

Definition nodeJSON (r : threadNodeResult) : json :=
  JObject (member $"key" (JText (tnKey r)) ++ member $"mailbox" (JText (tnMailbox r)) ++ intMember $"uidvalidity" (tnUIDValidity r)
    ++ intMember $"uid" (tnUID r) ++ textMember $"messageId" (tnMessageID r) ++ textMember $"parentKey" (tnParentKey r)
    ++ member $"depth" (JInt (tnDepth r)) ++ textMember $"subject" (tnSubject r) ++ textMember $"from" (tnFrom r) ++ textMember $"date" (tnDate r)
    ++ member $"truncation" (nodeTruncationJSON (tnTruncation r))).

Definition reasonText (r : unavailableReason) : bytes :=
  match r with
  | threadUnavailableStaleID => $"stale_id"
  | threadUnavailableInvalidIdentity => $"invalid_identity"
  | threadUnavailableMalformedHeader => $"malformed_header"
  end.

Definition getThreadJSON (r : getThreadResult) : json :=
  JObject (member $"id" (JText (gtID r)) ++ member $"mailbox" (JText (gtMailbox r)) ++ member $"nodes" (JArray (map nodeJSON (gtNodes r)))
    ++ boolMember $"truncated" (gtTruncated r)
    ++ listMember $"unavailableMembers" (fun reason => JObject (member $"reason" (JText (reasonText reason)))) (gtUnavailable r)).

Definition listAttachmentsJSON (r : listAttachmentsResult) : json :=
  JObject (member $"id" (JText (laID r)) ++ member $"mailbox" (JText (laMailbox r)) ++ intMember $"uidvalidity" (laUIDValidity r)
    ++ intMember $"uid" (laUID r) ++ member $"attachments" (JArray (map attachmentJSON (laAttachments r)))
    ++ member $"truncation" (listTruncationJSON (laTruncation r)) ++ boolMember $"truncated" (laTruncated r)).

Definition selectDigestJSON (r : selectDigestResult) : json :=
  JObject (member $"mailbox" (JText (sdMailbox r)) ++ member $"candidates" (JArray (map messageJSON (sdCandidates r)))
    ++ member $"totalMessages" (JInt (sdTotalMessages r)) ++ member $"unseenCount" (JInt (sdUnseenCount r)) ++ boolMember $"truncated" (sdTruncated r)).

Definition rowJSON (r : triageResultRow) : json :=
  JObject (member $"uid" (JInt (rowUID r)) ++ member $"outcome" (JText (rowOutcome r)) ++ textMember $"code" (rowCode r)).
Definition triageJSON (r : triageResult) : json := JObject (member $"results" (JArray (map rowJSON (tResults r)))).

(** ** Cutting text *)

(** [utf8.RuneStart]. *)
Definition RuneStart (b : byte) : bool := negb (continuation b).

(** The loop of [halveRunes], [fallbackString], [boundedSenderResult] and
    [baseSubject]: back to the start of a rune.  Every index it looks at is
    within the text. *)
Fixpoint runeBoundary (value : bytes) (boundary : nat) : nat :=
  match boundary with
  | O => O
  | S less => if RuneStart (default x00 (value !! boundary)) then boundary else runeBoundary value less
  end.

Definition halveRunes (value : bytes) : bytes := take (runeBoundary value (length value / 2)) value.
#[global] Arguments halveRunes : simpl never.

(** A text cut to at most [maximum] bytes, and whether it was. *)
Definition cutRunes (value : bytes) (maximum : nat) : bytes * bool :=
  if (length value <=? maximum)%nat then (value, false) else (take (runeBoundary value maximum) value, true).

Definition fallbackString (value : bytes) : bytes := fst (cutRunes value 1024).

(** ** Reductions *)

Definition halve {A} (l : list A) : list A := take (length l / 2) l.
#[global] Arguments halve : simpl never.
(** The half that keeps at least one. *)
Definition firstHalf {A} (l : list A) : list A := take ((length l + 1) / 2) l.
#[global] Arguments firstHalf : simpl never.

(** What the methods of a result type do: [shrinkForOutput] is [None] where
    it reports false or is missing, [fallbackForOutput] where it is missing.
    [content] counts what is left to drop. *)
Class ToolResult (R : Type) := {
  toJSON : R -> json;
  shrinkForOutput : R -> option R;
  fallbackForOutput : R -> option R;
  selectableIdentity : R -> bool;
  content : R -> nat }.

#[export] Instance folders_result : ToolResult listFoldersResult := {|
  toJSON := listFoldersJSON;
  shrinkForOutput r := match lfFolders r with [] => None | l => Some (mkListFolders (halve l) true) end;
  fallbackForOutput _ := Some (mkListFolders [] true);
  selectableIdentity _ := false;
  content r := length (lfFolders r) |}.

#[export] Instance search_result : ToolResult searchMailResult := {|
  toJSON := searchMailJSON;
  shrinkForOutput r := match smResults r with [] => None | l => Some (mkSearchResult (halve l) true) end;
  fallbackForOutput _ := Some (mkSearchResult [] true);
  selectableIdentity _ := false;
  content r := length (smResults r) |}.

Definition emptyHeaders : CanonicalHeaders := mkCanonicalHeaders [] [] [] [] [] [] [].

#[export] Instance message_result : ToolResult getMessageResult := {|
  toJSON := getMessageJSON;
  shrinkForOutput r :=
    let marked (r : getMessageResult) := r <| gmTruncation := (gmTruncation r) <| mtOutput := true |> |> <| gmTruncated := true |> in
    match gmText r, gmAttachments r with
    | [], [] => None
    | [], l => Some (marked (r <| gmAttachments := halve l |>))
    | text, _ => Some (marked (r <| gmText := halveRunes text |>))
    end;
  fallbackForOutput r := Some (
    mkGetMessage (gmID r) (gmMailbox r) (gmUIDValidity r) (gmUID r) 0 emptyHeaders [] (fallbackString (gmTextSource r)) []
      ((gmTruncation r) <| mtOutput := true |>) true);
  selectableIdentity _ := true;
  content r := (length (gmText r) + length (gmAttachments r))%nat |}.

#[export] Instance thread_result : ToolResult getThreadResult := {|
  toJSON := getThreadJSON;
  shrinkForOutput r :=
    match gtUnavailable r, gtNodes r with
    | [], ([] | [_]) => None
    | [], l => Some (r <| gtNodes := firstHalf l |> <| gtTruncated := true |>)
    | l, _ => Some (r <| gtUnavailable := halve l |> <| gtTruncated := true |>)
    end;
  fallbackForOutput r := Some ( mkGetThread (fallbackString (gtID r)) (fallbackString (gtMailbox r)) [] true []);
  selectableIdentity _ := false;
  content r := (length (gtUnavailable r) + length (gtNodes r))%nat |}.

#[export] Instance attachments_result : ToolResult listAttachmentsResult := {|
  toJSON := listAttachmentsJSON;
  shrinkForOutput r :=
    match laAttachments r with
    | [] => None
    | l => Some (r <| laAttachments := halve l |> <| laTruncation := (laTruncation r) <| ltOutput := true |> |> <| laTruncated := true |>)
    end;
  fallbackForOutput r := Some (
    mkListAttachments (laID r) (laMailbox r) (laUIDValidity r) (laUID r) [] ((laTruncation r) <| ltOutput := true |>) true);
  selectableIdentity _ := true;
  content r := length (laAttachments r) |}.

#[export] Instance digest_result : ToolResult selectDigestResult := {|
  toJSON := selectDigestJSON;
  shrinkForOutput r :=
    match sdCandidates r with
    | [] => None
    | l => Some (mkDigest (sdMailbox r) (halve l) (sdTotalMessages r) (sdUnseenCount r) true)
    end;
  fallbackForOutput r := Some ( mkDigest (fallbackString (sdMailbox r)) [] (sdTotalMessages r) (sdUnseenCount r) true);
  selectableIdentity _ := false;
  content r := length (sdCandidates r) |}.

(** Triage results have none of the methods. *)
#[export] Instance triage_result : ToolResult triageResult := {|
  toJSON := triageJSON; shrinkForOutput _ := None; fallbackForOutput _ := None; selectableIdentity _ := false; content _ := O |}.

(** The result of a handler, an [any]: its methods are those of its type. *)
Inductive toolResult :=
| FoldersResult (r : listFoldersResult) | SearchResult (r : searchMailResult) | MessageResult (r : getMessageResult)
| ThreadResult (r : getThreadResult) | AttachmentsResult (r : listAttachmentsResult) | DigestResult (r : selectDigestResult)
| TriageRows (r : triageResult).

#[export] Instance any_result : ToolResult toolResult := {|
  toJSON any := match any with
    | FoldersResult r => toJSON r | SearchResult r => toJSON r | MessageResult r => toJSON r | ThreadResult r => toJSON r
    | AttachmentsResult r => toJSON r | DigestResult r => toJSON r | TriageRows r => toJSON r end;
  shrinkForOutput any := match any with
    | FoldersResult r => FoldersResult <$> shrinkForOutput r | SearchResult r => SearchResult <$> shrinkForOutput r
    | MessageResult r => MessageResult <$> shrinkForOutput r | ThreadResult r => ThreadResult <$> shrinkForOutput r
    | AttachmentsResult r => AttachmentsResult <$> shrinkForOutput r | DigestResult r => DigestResult <$> shrinkForOutput r
    | TriageRows r => TriageRows <$> shrinkForOutput r end;
  fallbackForOutput any := match any with
    | FoldersResult r => FoldersResult <$> fallbackForOutput r | SearchResult r => SearchResult <$> fallbackForOutput r
    | MessageResult r => MessageResult <$> fallbackForOutput r | ThreadResult r => ThreadResult <$> fallbackForOutput r
    | AttachmentsResult r => AttachmentsResult <$> fallbackForOutput r | DigestResult r => DigestResult <$> fallbackForOutput r
    | TriageRows r => TriageRows <$> fallbackForOutput r end;
  selectableIdentity any := match any with
    | FoldersResult r => selectableIdentity r | SearchResult r => selectableIdentity r | MessageResult r => selectableIdentity r
    | ThreadResult r => selectableIdentity r | AttachmentsResult r => selectableIdentity r | DigestResult r => selectableIdentity r
    | TriageRows r => selectableIdentity r end;
  content any := match any with
    | FoldersResult r => content r | SearchResult r => content r | MessageResult r => content r | ThreadResult r => content r
    | AttachmentsResult r => content r | DigestResult r => content r | TriageRows r => content r end |}.

(** ** The loop *)

(** The bytes of a result with whether it was truncated, or
    [errUnretainableIdentity].  [json.Marshal] cannot fail on these types. *)
Inductive encoding := Encoded (text : bytes) (truncated : bool) | Unretainable.

Section Encode.
Context {R : Type} `{T : ToolResult R}.

Definition fits (r : R) : bool := zlen (marshal (toJSON r)) <=? maxToolResultBytes.

Definition encodeFallback (r : R) : encoding :=
  let giveUp := if selectableIdentity r then Unretainable else Encoded (marshal (JObject (member $"truncated" (JBool true)))) true in
  match fallbackForOutput r with
  | Some fallback => if fits fallback then Encoded (marshal (toJSON fallback)) true else giveUp
  | None => giveUp
  end.

(** Each turn drops some content, which bounds the turns. *)
Fixpoint encodeLoop (fuel : nat) (truncated : bool) (r : R) : encoding :=
  match fuel with
  | O => Unretainable
  | S fuel =>
      if fits r then Encoded (marshal (toJSON r)) truncated
      else match shrinkForOutput r with
           | Some r => encodeLoop fuel true r
           | None => encodeFallback r
           end
  end.

Definition encodeBounded (r : R) : encoding := encodeLoop (S (content r)) false r.
End Encode.
