(* ===== verification/ToolResultsSpec.v ===== *)
(** * What the bounded encoding promises

    The reductions drop only the tail of a result's own content and say so,
    the loop ends at the first result that fits, and what it returns is one
    JSON document that reads back as that result. *)
From Stdlib Require Import ZArith Lia Strings.Byte.
From stdpp Require Import base list strings.
From S2P Require Import Prelude GoStrings GoText GoJson Session MessageID Mime GoMarshal ToolResults.

(** ** The laws of a result type *)

(** [kept r r']: what a reduced result [r'] keeps of [r]. *)
Class ShrinkLaws (R : Type) `{ToolResult R} := {
  kept : relation R;
  kept_preorder : PreOrder kept;
  shrink_kept r r' : shrinkForOutput r = Some r' -> kept r r';
  shrink_content r r' : shrinkForOutput r = Some r' -> (content r' < content r)%nat;
  shrink_fallback r r' : shrinkForOutput r = Some r' -> fallbackForOutput r' = fallbackForOutput r;
  shrink_identity r r' : shrinkForOutput r = Some r' -> selectableIdentity r' = selectableIdentity r;
  result_plain r : plain_json (toJSON r) }.

(** ** Values *)

Lemma plain_list (l : list json) : Forall plain_json l -> plain_json (JArray l).
Proof. induction 1; cbn; auto. Qed.
Lemma plain_map {A} (f : A -> json) l : (forall a, plain_json (f a)) -> plain_json (JArray (map f l)).
Proof. intros H. apply plain_list. induction l; cbn; constructor; auto. Qed.

Definition plain_members (m : list (bytes * json)) : Prop := Forall (fun kv => plain_json (snd kv)) m.
Lemma plain_object m : plain_members m -> plain_json (JObject m).
Proof. induction 1; cbn; auto. Qed.
Lemma plain_app a b : plain_members a -> plain_members b -> plain_members (a ++ b).
Proof. intros. by apply Forall_app. Qed.
Lemma plain_nil : plain_members [].
Proof. constructor. Qed.
Lemma plain_member name j : plain_json j -> plain_members (member name j).
Proof. intros H. by constructor. Qed.
Lemma plain_text name s : plain_members (textMember name s).
Proof. unfold textMember. case_bool_decide; by repeat constructor. Qed.
Lemma plain_int z : plain_json (JInt z).
Proof. by exists z. Qed.
Lemma plain_int_member name z : plain_members (intMember name z).
Proof. unfold intMember. destruct (z =? 0); repeat constructor. apply plain_int. Qed.
Lemma plain_bool name b : plain_members (boolMember name b).
Proof. unfold boolMember. destruct b; by repeat constructor. Qed.
Lemma plain_list_member {A} name (f : A -> json) l : (forall a, plain_json (f a)) -> plain_members (listMember name f l).
Proof. intros H. destruct l; [constructor|]. constructor; [|constructor]. by apply (plain_map f). Qed.

#[local] Hint Resolve plain_object plain_app plain_nil plain_member plain_text plain_int plain_int_member plain_bool plain_list_member plain_map : core.
#[local] Hint Extern 1 (plain_json (JText _)) => exact I : core.
#[local] Hint Extern 1 (plain_json (JBool _)) => exact I : core.

Lemma folder_plain r : plain_json (folderJSON r).
Proof. unfold folderJSON. auto 20. Qed.
Lemma message_plain r : plain_json (messageJSON r).
Proof. unfold messageJSON. auto 30. Qed.
Lemma attachment_plain r : plain_json (attachmentJSON r).
Proof. unfold attachmentJSON. destruct (arDeclaredSize r); auto 20. Qed.
Lemma headers_plain h : plain_json (headersJSON h).
Proof. unfold headersJSON. auto 20. Qed.
Lemma message_truncation_plain t : plain_json (messageTruncationJSON t).
Proof. unfold messageTruncationJSON. auto 20. Qed.
Lemma list_truncation_plain t : plain_json (listTruncationJSON t).
Proof. unfold listTruncationJSON. auto 20. Qed.
Lemma node_plain r : plain_json (nodeJSON r).
Proof. unfold nodeJSON, nodeTruncationJSON. auto 30. Qed.
Lemma row_plain r : plain_json (rowJSON r).
Proof. unfold rowJSON. auto 20. Qed.
#[local] Hint Resolve folder_plain message_plain attachment_plain headers_plain message_truncation_plain list_truncation_plain node_plain row_plain : core.

(** ** Cutting *)

Lemma runeBoundary_le value k : (runeBoundary value k <= k)%nat.
Proof. induction k as [|k IH]; cbn; [lia|]. destruct (RuneStart _); lia. Qed.

(** The boundary is the start of the text, its end or the start of a rune. *)
Lemma runeBoundary_start value k b : value !! runeBoundary value k = Some b -> (0 < runeBoundary value k)%nat -> RuneStart b = true.
Proof.
  induction k as [|k IH]; cbn [runeBoundary]; [lia|]. destruct (RuneStart (default x00 (value !! S k))) eqn:E; [|done].
  intros Hb _. by rewrite Hb in E.
Qed.

Lemma decode_continuation s r n i b : decode_rune s = (r, n) -> (1 <= i < n)%nat -> s !! i = Some b -> continuation b = true.
Proof.
  unfold decode_rune. intros Hd Hi Hb.
  destruct s as [|b0 [|b1 [|b2 [|b3 s]]]]; repeat split_in Hd; injection Hd as <- <-; cbn in Hi; try lia;
    repeat match goal with H : negb _ = false |- _ => apply negb_false_iff in H end;
    repeat match goal with H : second_ok _ _ = true |- _ => apply second_ok_continuation in H end;
    destruct i as [|[|[|[|i]]]]; try lia; cbn in Hb; injection Hb as <-; done.
Qed.

(** A cut at the start of a rune keeps a text valid. *)
Lemma take_valid s k : valid_string s = true -> (forall b, s !! k = Some b -> (0 < k)%nat -> RuneStart b = true) -> valid_string (take k s) = true.
Proof.
  revert k. induction s as [|s r n Hne Hd Hn Hp IH] using pieces_ind; intros k Hv Hk; [by rewrite take_nil|].
  destruct k as [|k]; [done|]. pose proof (valid_good s Hv) as Hg. rewrite Hp in Hg. apply Forall_cons in Hg as [Hg _].
  destruct (decide (S k < n)%nat) as [Hlt|Hge].
  - destruct (lookup_lt_is_Some_2 s (S k)) as [b Hb]; [lia|]. specialize (Hk b Hb ltac:(lia)).
    unfold RuneStart in Hk. by rewrite (decode_continuation s r n (S k) b Hd ltac:(lia) Hb) in Hk.
  - assert (E : take (S k) s = take n s ++ take (S k - n) (drop n s)).
    { rewrite <- (take_drop n s) at 1. rewrite take_app, (length_take_le s n) by lia. f_equal. apply take_ge. rewrite length_take_le by lia. lia. }
    rewrite E. change (take n s) with (snd (r, take n s)). rewrite valid_cons_good by done. apply IH.
    + rewrite <- (take_drop n s) in Hv. change (take n s) with (snd (r, take n s)) in Hv. by rewrite valid_cons_good in Hv.
    + intros b Hb Hpos. rewrite lookup_drop in Hb. replace (n + (S k - n))%nat with (S k) in Hb by lia. apply (Hk b Hb). lia.
Qed.

Lemma halveRunes_spec value : value <> [] ->
  halveRunes value `prefix_of` value /\ (length (halveRunes value) < length value)%nat /\ (valid_string value = true -> valid_string (halveRunes value) = true).
Proof.
  intros Hne. unfold halveRunes. pose proof (runeBoundary_le value (length value / 2)). assert (0 < length value)%nat by (destruct value; [done|cbn; lia]).
  pose proof (Nat.div_lt (length value) 2 ltac:(lia) ltac:(lia)). split_and!.
  - exists (drop (runeBoundary value (length value / 2)) value). by rewrite take_drop.
  - rewrite length_take. lia.
  - intros Hv. apply take_valid; [done|]. apply runeBoundary_start.
Qed.

Lemma cutRunes_spec value maximum : fst (cutRunes value maximum) `prefix_of` value /\ (length (fst (cutRunes value maximum)) <= maximum)%nat
  /\ (snd (cutRunes value maximum) = false -> fst (cutRunes value maximum) = value)
  /\ (valid_string value = true -> valid_string (fst (cutRunes value maximum)) = true).
Proof.
  unfold cutRunes. destruct (Nat.leb_spec (length value) maximum); cbn [fst snd]; [split_and!; done|].
  pose proof (runeBoundary_le value maximum). split_and!; [|rewrite length_take; lia|done|].
  - exists (drop (runeBoundary value maximum) value). by rewrite take_drop.
  - intros Hv. apply take_valid; [done|]. apply runeBoundary_start.
Qed.

Lemma halve_prefix {A} (l : list A) : halve l `prefix_of` l.
Proof. exists (drop (length l / 2) l). unfold halve. by rewrite take_drop. Qed.
Lemma halve_length {A} (x : A) l : (length (halve (x :: l)) < length (x :: l))%nat.
Proof. unfold halve. rewrite length_take. pose proof (Nat.div_lt (length (x :: l)) 2 ltac:(cbn; lia) ltac:(lia)). lia. Qed.

Lemma firstHalf_spec {A} (a b : A) l : firstHalf (a :: b :: l) `prefix_of` a :: b :: l /\ firstHalf (a :: b :: l) <> []
  /\ (length (firstHalf (a :: b :: l)) < length (a :: b :: l))%nat.
Proof.
  unfold firstHalf. assert (H : (1 <= (length (a :: b :: l) + 1) / 2 < length (a :: b :: l))%nat).
  { split; [apply Nat.div_le_lower_bound; cbn; lia|apply Nat.Div0.div_lt_upper_bound; cbn; lia]. }
  revert H. generalize ((length (a :: b :: l) + 1) / 2)%nat. intros n H. split_and!.
  - exists (drop n (a :: b :: l)). by rewrite take_drop.
  - by destruct n; [lia|].
  - rewrite length_take. lia.
Qed.

(** ** The instances *)

#[export] Program Instance folders_laws : ShrinkLaws listFoldersResult := {| kept r r' := lfFolders r' `prefix_of` lfFolders r |}.
Next Obligation. split; [intros r; reflexivity|]. intros r s t H K. by etransitivity. Qed.
Next Obligation. intros r r'. cbn. destruct (lfFolders r) eqn:E; [done|]. intros [= <-]. rewrite <- E. apply halve_prefix. Qed.
Next Obligation. intros r r'. cbn. destruct (lfFolders r); [done|]. intros [= <-]. apply halve_length. Qed.
Next Obligation. done. Qed.
Next Obligation. done. Qed.
Next Obligation. intros r. change (plain_json (listFoldersJSON r)). unfold listFoldersJSON. auto 20. Qed.

#[export] Program Instance search_laws : ShrinkLaws searchMailResult := {| kept r r' := smResults r' `prefix_of` smResults r |}.
Next Obligation. split; [intros r; reflexivity|]. intros r s t H K. by etransitivity. Qed.
Next Obligation. intros r r'. cbn. destruct (smResults r) eqn:E; [done|]. intros [= <-]. rewrite <- E. apply halve_prefix. Qed.
Next Obligation. intros r r'. cbn. destruct (smResults r); [done|]. intros [= <-]. apply halve_length. Qed.
Next Obligation. done. Qed.
Next Obligation. done. Qed.
Next Obligation. intros r. change (plain_json (searchMailJSON r)). unfold searchMailJSON. auto 20. Qed.

(** A message keeps its identity, size, headers and the other reasons; its
    text loses its end, then its attachments. *)
Definition message_kept (r r' : getMessageResult) : Prop :=
  gmID r' = gmID r /\ gmMailbox r' = gmMailbox r /\ gmUIDValidity r' = gmUIDValidity r /\ gmUID r' = gmUID r /\ gmSize r' = gmSize r
  /\ gmHeaders r' = gmHeaders r /\ gmTextSource r' = gmTextSource r
  /\ (gmTruncation r') <| mtOutput := true |> = (gmTruncation r) <| mtOutput := true |>
  /\ gmText r' `prefix_of` gmText r /\ gmAttachments r' `prefix_of` gmAttachments r
  /\ (gmText r' <> [] -> gmAttachments r' = gmAttachments r) /\ (valid_string (gmText r) = true -> valid_string (gmText r') = true).

#[export] Program Instance message_laws : ShrinkLaws getMessageResult := {| kept := message_kept |}.
Next Obligation.
  split; [intros r; by split_and!|]. intros r s t (? & ? & ? & ? & ? & ? & ? & ? & H1 & H2 & H3 & H4) (? & ? & ? & ? & ? & ? & ? & ? & K1 & K2 & K3 & K4).
  split_and!; try congruence; try (by etransitivity); [|auto]. intros Hne. rewrite K3, H3; [done| |done]. intros E. rewrite E in K1.
  by apply prefix_nil_inv in K1.
Qed.
Next Obligation.
  intros r r'. cbn. destruct (gmText r) as [|c text] eqn:E; [destruct (gmAttachments r) as [|a l] eqn:E2; [done|]|]; intros [= <-].
  - split_and!; try done; cbn; rewrite ?E, ?E2; try done. apply halve_prefix.
  - destruct (halveRunes_spec (c :: text)) as (H1 & H2 & H3); [done|]. split_and!; try done; cbn; by rewrite E.
Qed.
Next Obligation.
  intros r r'. cbn. destruct (gmText r) as [|c text] eqn:E; [destruct (gmAttachments r) as [|a l] eqn:E2; [done|]|]; intros [= <-].
  - cbn [gmText gmAttachments set_field]. cbn. rewrite E. apply halve_length.
  - destruct (halveRunes_spec (c :: text)) as (H1 & H2 & H3); [done|]. cbn in *. lia.
Qed.
Next Obligation. intros r r'. cbn. destruct (gmText r) as [|c text] eqn:E; [destruct (gmAttachments r) as [|a l] eqn:E2; [done|]|]; by intros [= <-]. Qed.
Next Obligation. done. Qed.
Next Obligation. intros r. change (plain_json (getMessageJSON r)). unfold getMessageJSON. auto 30. Qed.

#[export] Program Instance thread_laws : ShrinkLaws getThreadResult := {|
  kept r r' := gtID r' = gtID r /\ gtMailbox r' = gtMailbox r /\ gtNodes r' `prefix_of` gtNodes r /\ gtUnavailable r' `prefix_of` gtUnavailable r
    /\ (gtUnavailable r' <> [] -> gtNodes r' = gtNodes r) /\ (gtNodes r <> [] -> gtNodes r' <> []) |}.
Next Obligation.
  split; [intros r; by split_and!|]. intros r s t (? & ? & H1 & H2 & H3 & H4) (? & ? & K1 & K2 & K3 & K4).
  split_and!; try congruence; try (by etransitivity); [|auto]. intros Hne. rewrite K3, H3; [done| |done]. intros E. rewrite E in K2.
  by apply prefix_nil_inv in K2.
Qed.
Next Obligation.
  intros r r'. cbn. destruct (gtUnavailable r) as [|u l] eqn:E; [destruct (gtNodes r) as [|a [|b l]] eqn:E2; [done..|]|]; intros [= <-]; cbn; rewrite ?E, ?E2.
  - destruct (firstHalf_spec a b l) as (? & ? & ?). by split_and!.
  - split_and!; try done. apply halve_prefix.
Qed.
Next Obligation.
  intros r r'. cbn. destruct (gtUnavailable r) as [|u l] eqn:E; [destruct (gtNodes r) as [|a [|b l]] eqn:E2; [done..|]|]; intros [= <-]; cbn; rewrite ?E.
  - destruct (firstHalf_spec a b l) as (_ & _ & ?). done.
  - pose proof (halve_length u l). cbn in *. lia.
Qed.
Next Obligation. intros r r'. cbn. destruct (gtUnavailable r) as [|u l] eqn:E; [destruct (gtNodes r) as [|a [|b l]] eqn:E2; [done..|]|]; by intros [= <-]. Qed.
Next Obligation. done. Qed.
Next Obligation. intros r. change (plain_json (getThreadJSON r)). unfold getThreadJSON. auto 20. Qed.

#[export] Program Instance attachments_laws : ShrinkLaws listAttachmentsResult := {|
  kept r r' := laID r' = laID r /\ laMailbox r' = laMailbox r /\ laUIDValidity r' = laUIDValidity r /\ laUID r' = laUID r
    /\ laAttachments r' `prefix_of` laAttachments r /\ (laTruncation r') <| ltOutput := true |> = (laTruncation r) <| ltOutput := true |> |}.
Next Obligation. split; [intros r; by split_and!|]. intros r s t (? & ? & ? & ? & ? & ?) (? & ? & ? & ? & ? & ?). split_and!; try congruence. by etransitivity. Qed.
Next Obligation. intros r r'. cbn. destruct (laAttachments r) eqn:E; [done|]. intros [= <-]. split_and!; try done; cbn; rewrite ?E; apply halve_prefix. Qed.
Next Obligation. intros r r'. cbn. destruct (laAttachments r); [done|]. intros [= <-]. apply halve_length. Qed.
Next Obligation. intros r r'. cbn. destruct (laAttachments r); [done|]. by intros [= <-]. Qed.
Next Obligation. done. Qed.
Next Obligation. intros r. change (plain_json (listAttachmentsJSON r)). unfold listAttachmentsJSON. auto 20. Qed.

#[export] Program Instance digest_laws : ShrinkLaws selectDigestResult := {|
  kept r r' := sdMailbox r' = sdMailbox r /\ sdTotalMessages r' = sdTotalMessages r /\ sdUnseenCount r' = sdUnseenCount r
    /\ sdCandidates r' `prefix_of` sdCandidates r |}.
Next Obligation. split; [intros r; by split_and!|]. intros r s t (? & ? & ? & ?) (? & ? & ? & ?). split_and!; try congruence. by etransitivity. Qed.
Next Obligation. intros r r'. cbn. destruct (sdCandidates r) eqn:E; [done|]. intros [= <-]. split_and!; try done; cbn; rewrite ?E; apply halve_prefix. Qed.
Next Obligation. intros r r'. cbn. destruct (sdCandidates r); [done|]. intros [= <-]. apply halve_length. Qed.
Next Obligation. intros r r'. cbn. destruct (sdCandidates r); [done|]. by intros [= <-]. Qed.
Next Obligation. done. Qed.
Next Obligation. intros r. change (plain_json (selectDigestJSON r)). unfold selectDigestJSON. auto 20. Qed.

#[export] Program Instance triage_laws : ShrinkLaws triageResult := {| kept := eq |}.
Next Obligation. done. Qed.
Next Obligation. done. Qed.
Next Obligation. done. Qed.
Next Obligation. done. Qed.
Next Obligation. intros r. change (plain_json (triageJSON r)). unfold triageJSON. auto 20. Qed.

(** A result of any type. *)
Definition any_kept (a b : toolResult) : Prop :=
  match a, b with
  | FoldersResult r, FoldersResult r' => kept r r' | SearchResult r, SearchResult r' => kept r r'
  | MessageResult r, MessageResult r' => kept r r' | ThreadResult r, ThreadResult r' => kept r r'
  | AttachmentsResult r, AttachmentsResult r' => kept r r' | DigestResult r, DigestResult r' => kept r r'
  | TriageRows r, TriageRows r' => kept r r' | _, _ => False
  end.

#[local] Existing Instance kept_preorder.

(** The law of an alternative is the law of its type. *)
Tactic Notation "by_type" uconstr(law) := intros [] b; cbn [shrinkForOutput fallbackForOutput any_result];
  match goal with |- fmap _ (shrinkForOutput ?r) = _ -> _ =>
    destruct (shrinkForOutput r) eqn:E; [|done]; intros [= <-]; apply law in E; cbn [fallbackForOutput any_result]; first [exact E|rewrite E; reflexivity] end.

#[export] Program Instance any_laws : ShrinkLaws toolResult := {| kept := any_kept |}.
Next Obligation.
  split; [intros []; cbn [any_kept]; reflexivity|].
  intros [] [] [] H K; cbn [any_kept] in *; try done; by etransitivity.
Qed.
Next Obligation. by_type shrink_kept. Qed.
Next Obligation. by_type shrink_content. Qed.
Next Obligation. by_type shrink_fallback. Qed.
Next Obligation. by_type shrink_identity. Qed.
Next Obligation. intros []; cbn [toJSON any_result]; apply result_plain. Qed.

(** ** The loop *)

Section Loop.
Context {R : Type} `{SL : ShrinkLaws R}.

(** The result after [n] reductions. *)
Fixpoint reduction (n : nat) (r : R) : option R :=
  match n with O => Some r | S n => match shrinkForOutput r with Some r => reduction n r | None => None end end.

Definition nothing_fits (r : R) : Prop := forall n r', reduction n r = Some r' -> fits r' = false.

(** What [encodeBounded] may answer. *)
Definition encoded_as (r : R) (e : encoding) (flag : bool) : Prop :=
  match e with
  | Encoded text truncated =>
      (exists n r', reduction n r = Some r' /\ (forall m r'', (m < n)%nat -> reduction m r = Some r'' -> fits r'' = false)
         /\ fits r' = true /\ kept r r' /\ text = marshal (toJSON r') /\ truncated = flag || (0 <? n)%nat)
      \/ (nothing_fits r /\ truncated = true
          /\ ((exists f, fallbackForOutput r = Some f /\ fits f = true /\ text = marshal (toJSON f))
              \/ (selectableIdentity r = false /\ (forall f, fallbackForOutput r = Some f -> fits f = false) /\ text = marshal (JObject (member $"truncated" (JBool true))))))
  | Unretainable => nothing_fits r /\ selectableIdentity r = true /\ (forall f, fallbackForOutput r = Some f -> fits f = false)
  end.

Lemma nothing_more r r' : fits r = false -> shrinkForOutput r = Some r' -> nothing_fits r' -> nothing_fits r.
Proof. intros Hf Hs Hn [|n] r''; cbn; [by intros [= <-]|]. rewrite Hs. apply Hn. Qed.

Lemma nothing_last r : fits r = false -> shrinkForOutput r = None -> nothing_fits r.
Proof. intros Hf Hs [|n] r''; cbn; [by intros [= <-]|]. by rewrite Hs. Qed.

Lemma encodeFallback_spec r flag : nothing_fits r -> encoded_as r (encodeFallback r) flag.
Proof.
  intros Hn. unfold encodeFallback. destruct (fallbackForOutput r) as [f|] eqn:Ef; cbv zeta.
  - destruct (fits f) eqn:E; [right; split; [done|]; split; [done|]; left; by exists f|].
    destruct (selectableIdentity r) eqn:Ei; [split; [done|]; split; [done|]; intros ? K; by simplify_eq|].
    right. split; [done|]. split; [done|]. right. split; [done|]. split; [|done]. intros ? K. by simplify_eq.
  - assert (Hno : forall f, fallbackForOutput r = Some f -> fits f = false) by (intros f K; congruence).
    destruct (selectableIdentity r) eqn:Ei; [by split|]. right. split; [done|]. split; [done|]. right. by split.
Qed.

Lemma encodeLoop_spec fuel flag r : (content r < fuel)%nat -> encoded_as r (encodeLoop fuel flag r) flag.
Proof.
  revert flag r. induction fuel as [|fuel IH]; intros flag r Hf; [lia|]. cbn [encodeLoop]. destruct (fits r) eqn:Efits.
  { left. exists O, r. split; [done|]. split; [intros; lia|]. split; [done|]. split; [reflexivity|]. split; [done|]. by rewrite orb_false_r. }
  destruct (shrinkForOutput r) as [r1|] eqn:Es; [|apply encodeFallback_spec; by apply nothing_last].
  specialize (IH true r1). pose proof (shrink_content _ _ Es). specialize (IH ltac:(lia)).
  pose proof (shrink_fallback _ _ Es) as Hfb. pose proof (shrink_identity _ _ Es) as Hid. pose proof (shrink_kept _ _ Es) as Hk.
  destruct (encodeLoop fuel true r1) as [text truncated|]; unfold encoded_as in *; rewrite Hfb, Hid in IH.
  - destruct IH as [(n & r' & Hr & Hm & Hfit & Hkept & Ht & ->)|(Hn & Ht & Hrest)].
    + left. exists (S n), r'. cbn [reduction]. rewrite Es. split_and!; try done; [|by etransitivity|by rewrite orb_true_r].
      intros [|m] r'' Hlt; [intros [= <-]; done|]. cbn [reduction]. rewrite Es. apply Hm. lia.
    + right. split; [by eapply nothing_more|]. by split.
  - destruct IH as (Hn & Hrest). split; [by eapply nothing_more|done].
Qed.

Lemma encodeBounded_spec r : encoded_as r (encodeBounded r) false.
Proof. apply encodeLoop_spec. lia. Qed.
End Loop.

Lemma fits_length {R} `{ToolResult R} (r : R) : fits r = true -> zlen (marshal (toJSON r)) <= maxToolResultBytes.
Proof. unfold fits. intros ?. by bool_prop. Qed.

(** The read identity a result exposes beside its content. *)
Definition identity (r : toolResult) : option (bytes * bytes * Z * Z) :=
  match r with
  | MessageResult r => Some (gmID r, gmMailbox r, gmUIDValidity r, gmUID r)
  | AttachmentsResult r => Some (laID r, laMailbox r, laUIDValidity r, laUID r)
  | _ => None
  end.

Lemma kept_identity r r' : kept r r' -> identity r' = identity r.
Proof. destruct r, r'; cbn; try done; [intros (-> & -> & -> & -> & _)|intros (-> & -> & -> & -> & _)]; done. Qed.

Lemma fallback_identity r f : fallbackForOutput r = Some f -> identity f = identity r.
Proof. destruct r; cbn; intros H; simplify_eq; done. Qed.

Lemma identity_selectable r : selectableIdentity r = true <-> is_Some (identity r).
Proof. destruct r; cbn; split; try done; try (intros _; by eexists); by intros [? ?]. Qed.

(** A returned text is within the bound and one document. *)
Lemma encode_document (r : toolResult) text truncated : encodeBounded r = Encoded text truncated ->
  zlen text <= maxToolResultBytes /\ exists j, document text j /\ forall r', text = marshal (toJSON (r' : toolResult)) -> j = coerce (toJSON r').
Proof.
  intros E. pose proof (encodeBounded_spec r) as H. rewrite E in H.
  assert (Hd : forall j, plain_json j -> text = marshal j -> exists j, document text j /\ (forall r', text = marshal (toJSON (r' : toolResult)) -> j = coerce (toJSON r'))).
  { intros j Hp ->. exists (coerce j). split; [by apply marshal_document|]. intros r' Hr'. apply marshal_parse in Hp. rewrite Hr' in Hp.
    rewrite marshal_parse in Hp by apply result_plain. symmetry. exact (inj Some _ _ Hp). }
  destruct H as [(n & r' & _ & _ & Hfit & _ & -> & _)|(_ & _ & [(f & _ & Hfit & ->)|(_ & _ & ->)])].
  - split; [by apply fits_length|]. by eapply Hd; [apply result_plain|].
  - split; [by apply fits_length|]. by eapply Hd; [apply result_plain|].
  - split; [vm_compute; discriminate|]. eapply Hd; [|done]. cbn. auto.
Qed.

(** C5: the encoding of a tool result ends, never exceeds its bound and is one
    JSON document.  It is the first reduction that fits, which keeps what
    [kept] says; or, when none fits, the fallback; or the bare truncation
    mark.  A result with a selectable identity is refused instead of the mark:
    its identity is exact in whatever is returned. *)
Theorem encode_bounded_exact (r : toolResult) :
  encoded_as r (encodeBounded r) false
  /\ forall text truncated, encodeBounded r = Encoded text truncated ->
       zlen text <= maxToolResultBytes
       /\ (exists j, document text j /\ forall r', text = marshal (toJSON (r' : toolResult)) -> j = coerce (toJSON r'))
       /\ (is_Some (identity r) -> exists r' : toolResult, text = marshal (toJSON r') /\ identity r' = identity r).
Proof.
  pose proof (encodeBounded_spec r) as H. split; [done|]. intros text truncated E. destruct (encode_document _ _ _ E) as [Hl Hd].
  split; [done|]. split; [done|]. intros Hi. rewrite E in H. destruct H as [(n & r' & _ & _ & _ & Hk & -> & _)|(_ & _ & [(f & Hf & _ & ->)|(Hs & _ & _)])].
  - exists r'. split; [done|by apply kept_identity].
  - exists f. split; [done|by apply fallback_identity].
  - apply identity_selectable in Hi. by rewrite Hs in Hi.
Qed.

(** A long message loses its text before its identity, and says so. *)
Lemma encode_example :
  let r := MessageResult (mkGetMessage $"id" $"INBOX" 7 9 5 emptyHeaders $"hi" $"plain" [] (mkMessageTruncation false false false false false false false false) false) in
  encodeBounded r = Encoded ($"{" ++ json_key $"id" ++ json_string $"id" ++ $"," ++ json_key $"mailbox" ++ json_string $"INBOX" ++ $"," ++ json_key $"uidvalidity" ++ $"7,"
    ++ json_key $"uid" ++ $"9," ++ json_key $"size" ++ $"5," ++ json_key $"headers" ++ $"{}," ++ json_key $"text" ++ json_string $"hi" ++ $","
    ++ json_key $"textSource" ++ json_string $"plain" ++ $"," ++ json_key $"truncation" ++ $"{}}") false.
Proof. vm_compute. reflexivity. Qed.
