(* ===== verification/ToolServer.v ===== *)
(** * The tool server

    [internal/mcpserver]: argument checks, the handlers of the read-only and
    triage tools, their catalog, [makeHandler] and the audit events.  The
    adapter is reached through the interfaces [Mail] and [TriageSurface]; time,
    Unicode folding and message normalization through classes. *)
From Stdlib Require Import ZArith Lia Strings.Byte.
From stdpp Require Import base list gmap strings.
From S2P Require Import Prelude GoStrings GoText GoJson Errors Config Session StrictJson Mime AttachmentProjection Threads.
From S2P Require Import Search Triage StructureSession Headers GoMarshal ToolResults.

(** ** Limits *)

Definition maxMailboxArgumentBytes : Z := 512.
Definition maxSearchTermBytes : nat := 1024.
Definition maxMessageIDArgumentBytes : Z := 1366.
Definition maxTimestampArgumentBytes : Z := 64.
Definition maxSearchLimit : Z := 250.
Definition defaultSearchLimit : Z := 50.
Definition maxThreadMessages : Z := 20.
Definition defaultThreadMessages : Z := 10.
Definition maxDigestLimit : Z := 50.
Definition defaultDigestLimit : Z := 20.
Definition maxDigestSinceHours : Z := 168.
Definition defaultDigestHours : Z := 24.
Definition maxToolArgumentsBytes : Z := 24 * 1024.
Definition maxSenderResultBytes : nat := 512.

Definition toolCodeText (c : tool_code) : bytes :=
  match c with
  | errInvalidArgument => $"invalid_argument" | errNotFound => $"not_found" | errStaleID => $"stale_id"
  | errBoundsExceeded => $"bounds_exceeded" | errTimedOut => $"timed_out" | errCanceled => $"canceled"
  | errUnavailable => $"unavailable" | errUnsupported => $"unsupported" | errInternal => $"internal"
  end.

(** ** Interfaces *)

(** What a call to an adapter gives; it may panic. *)
Inductive reply (A : Type) := Answer (r : A + goerror) | Crash.
Arguments Answer {A}. Arguments Crash {A}.

(** [Mail], with the two optional interfaces beside it. *)
Record Mail (W : Type) := mkMail {
  mailListFolders : W -> reply (list Folder) * W;
  mailStatus : bytes -> W -> reply MailboxStatus * W;
  mailSearchMailPage : SearchQuery -> W -> reply SearchPage * W;
  mailGetMessageMetadata : bytes -> W -> reply MessageMetadata * W;
  mailGetMessageBody : bytes -> W -> reply bytes * W;
  messageHeaderReader : option (bytes -> W -> reply MessageHeaders * W);
  messageAttachmentStructureReader : option (bytes -> W -> reply MessageAttachmentStructure * W) }.
Arguments mailListFolders {W}. Arguments mailStatus {W}. Arguments mailSearchMailPage {W}. Arguments mailGetMessageMetadata {W}.
Arguments mailGetMessageBody {W}. Arguments messageHeaderReader {W}. Arguments messageAttachmentStructureReader {W}.

(** [Triage]: a mailbox, its generation and the UIDs of one approved payload. *)
Record TriageSurface (W : Type) := mkSurface {
  surfaceSetSeen : bytes -> Z -> list Z -> bool -> W -> reply (list TriageResult) * W;
  surfaceMove : bytes -> Z -> list Z -> bytes -> W -> reply (list TriageResult) * W;
  surfaceArchive : bytes -> Z -> list Z -> W -> reply (list TriageResult) * W;
  surfaceTrash : bytes -> Z -> list Z -> W -> reply (list TriageResult) * W }.
Arguments surfaceSetSeen {W}. Arguments surfaceMove {W}. Arguments surfaceArchive {W}. Arguments surfaceTrash {W}.

(** [Options]; an auditor is present or nil. *)
Record Options (W : Type) := mkOptions { optMail : option (Mail W); optTriage : option (TriageSurface W); optAudit : bool }.
Arguments optMail {W}. Arguments optTriage {W}. Arguments optAudit {W}.

(** [strings.EqualFold] and the instants of package [time], counted in
    nanoseconds from the zero time. *)
Class GoLibrary := {
  EqualFold : bytes -> bytes -> bool;
  Time : Type;
  ParseRFC3339 : bytes -> option Time;
  FormatRFC3339 : Time -> bytes;
  inUTC : Time -> bool;
  instant : Time -> Z }.

(** [time.Now().UTC()]. *)
Class Clock (W : Type) := now : W -> Z * W.

(** [bridge.NormalizeMessage] with default limits. *)
Class Normalizer := NormalizeMessage : bytes -> NormalizedMessage + goerror.

(** ** Steps of a handler *)

Inductive handled (A : Type) := Done (a : A) | Refused (code : tool_code) | Panicked.
Arguments Done {A}. Arguments Refused {A}. Arguments Panicked {A}.

Definition T (W A : Type) : Type := W -> handled A * W.

Definition tret {W A} (a : A) : T W A := fun w => (Done a, w).
Definition refuse {W A} (code : tool_code) : T W A := fun w => (Refused code, w).
Definition tbind {W A B} (m : T W A) (k : A -> T W B) : T W B := fun w =>
  match m w with
  | (Done a, w) => k a w
  | (Refused code, w) => (Refused code, w)
  | (Panicked, w) => (Panicked, w)
  end.
Notation "'do!' x := m 'in' k" := (tbind m (fun x => k)) (at level 10, x pattern, m at level 100, k at level 200) : go_scope.

(** A call to the adapter; [asked] returns its error as the tool's code. *)
Definition called {W A} (f : W -> reply A * W) : T W (A + goerror) := fun w =>
  match f w with (Answer r, w) => (Done r, w) | (Crash, w) => (Panicked, w) end.
Definition asked {W A} (f : W -> reply A * W) : T W A :=
  do! r := called f in match r with inl a => tret a | inr err => refuse (mapAdapterError err) end.

(** [if !ok { return nil, code }]. *)
Definition require {W A} (r : option A) (code : tool_code) : T W A := match r with Some a => tret a | None => refuse code end.
Definition ensure {W} (ok : bool) (code : tool_code) : T W unit := if ok then tret tt else refuse code.

(** A method of a nil interface panics. *)
Definition present {W A} (r : option A) : T W A := match r with Some a => tret a | None => fun w => (Panicked, w) end.

(** ** Arguments *)

Definition field {T' A} (name : bytes) (conv : json -> option A) (put : A -> T' -> T') : bytes * (json -> T' -> option T') :=
  (name, fun j t => option_map (fun a => put a t) (conv j)).

Definition validMailboxArgument (mailbox : bytes) : bool := negb (beqs mailbox []) && (zlen mailbox <=? maxMailboxArgumentBytes).
Definition validMessageIdentifier (identifier : bytes) : bool := negb (beqs identifier []) && (zlen identifier <=? maxMessageIDArgumentBytes).

Definition clampLimit (value : option Z) (fallback ceiling : Z) : option Z :=
  match value with
  | None => Some fallback
  | Some value => if value <=? 0 then None else if ceiling <? value then Some ceiling else Some value
  end.

Record searchInput := mkSearchInput {
  siMailbox : bytes; siSince : bytes; siBefore : bytes; siSender : bytes; siSubject : bytes; siUnreadOnly : bool; siLimit : option Z }.
#[export] Instance eta_search_input : Eta searchInput := fun i =>
  mkSearchInput (siMailbox i) (siSince i) (siBefore i) (siSender i) (siSubject i) (siUnreadOnly i) (siLimit i).
Definition searchFields : list (bytes * (json -> searchInput -> option searchInput)) :=
  [field $"mailbox" asString (fun v i => i <| siMailbox := v |>); field $"since" asString (fun v i => i <| siSince := v |>);
   field $"before" asString (fun v i => i <| siBefore := v |>); field $"sender" asString (fun v i => i <| siSender := v |>);
   field $"subject" asString (fun v i => i <| siSubject := v |>); field $"unreadOnly" asBool (fun v i => i <| siUnreadOnly := v |>);
   field $"limit" asInt (fun v i => i <| siLimit := Some v |>)].
Definition emptySearch : searchInput := mkSearchInput [] [] [] [] [] false None.

(** [messageIdentifierInput] is its one field. *)
Definition identifierFields : list (bytes * (json -> bytes -> option bytes)) := [field $"messageId" asString (fun v _ => v)].

Record threadInput := mkThreadInput { tiMessageID : bytes; tiMaxMessages : option Z }.
Definition threadFields : list (bytes * (json -> threadInput -> option threadInput)) :=
  [field $"messageId" asString (fun v i => mkThreadInput v (tiMaxMessages i));
   field $"maxMessages" asInt (fun v i => mkThreadInput (tiMessageID i) (Some v))].

Record digestInput := mkDigestInput { diMailbox : bytes; diSinceHours : option Z; diLimit : option Z; diUnreadOnly : option bool }.
#[export] Instance eta_digest_input : Eta digestInput := fun i => mkDigestInput (diMailbox i) (diSinceHours i) (diLimit i) (diUnreadOnly i).
Definition digestFields : list (bytes * (json -> digestInput -> option digestInput)) :=
  [field $"mailbox" asString (fun v i => i <| diMailbox := v |>); field $"sinceHours" asInt (fun v i => i <| diSinceHours := Some v |>);
   field $"limit" asInt (fun v i => i <| diLimit := Some v |>); field $"unreadOnly" asBool (fun v i => i <| diUnreadOnly := Some v |>)].

Record triageInput := mkTriageInput { trMailbox : bytes; trUIDValidity : Z; trUIDs : list Z }.
Definition triageFields : list (bytes * (json -> triageInput -> option triageInput)) :=
  [field $"mailbox" asString (fun v i => mkTriageInput v (trUIDValidity i) (trUIDs i));
   field $"uidvalidity" asUint32 (fun v i => mkTriageInput (trMailbox i) v (trUIDs i));
   field $"uids" asUint32s (fun v i => mkTriageInput (trMailbox i) (trUIDValidity i) v)].

Record triageMoveInput := mkMoveInput { tmInput : triageInput; tmDestination : bytes }.
Definition triageMoveFields : list (bytes * (json -> triageMoveInput -> option triageMoveInput)) :=
  map (fun f => (fst f, fun j i => option_map (fun t => mkMoveInput t (tmDestination i)) (snd f j (tmInput i)))) triageFields
  ++ [field $"destination" asString (fun v i => mkMoveInput (tmInput i) v)].
Definition emptyTriage : triageInput := mkTriageInput [] 0 [].

(** 1 to 50 distinct nonzero UIDs of a named mailbox and generation. *)
Definition validTriageInput (input : triageInput) : bool :=
  validMailboxArgument (trMailbox input) && negb (trUIDValidity input =? 0)
  && negb (zlen (trUIDs input) =? 0) && (zlen (trUIDs input) <=? MaxTriageUIDs) && validUIDs ∅ (trUIDs input).

(** ** Mapping results *)

(** [validReadIdentity]. *)
Definition validReadIdentity (m : MessageMetadata) : bool :=
  negb (beqs (mID m) []) && negb (beqs (mMailbox m) []) && negb (mUIDValidity m =? 0) && negb (mUID m =? 0).

(** Invalid UTF-8 is omitted, a longer sender cut. *)
Definition boundedSenderResult (sender : bytes) : bytes * bool :=
  if negb (valid_string sender) then ([], false) else cutRunes sender maxSenderResultBytes.

Definition attachmentResultOf (a : AttachmentMetadata) : attachmentResult :=
  let known := HasDeclaredSize a && (0 <=? DeclaredSize a) in
  mkAttachmentResult (Filename a) (ContentType a) (Disposition a) known (if known then Some (DeclaredSize a) else None).
Definition attachmentResults (l : list AttachmentMetadata) : list attachmentResult := map attachmentResultOf l.

Definition textSourceText (s : TextSource) : bytes :=
  match s with TextSourceNone => $"none" | TextSourcePlain => $"plain" | TextSourceHTML => $"html" end.

Definition newThreadNodeTruncation (t : Truncation) : threadNodeTruncation :=
  mkNodeTruncation (tHeaders t) (tHeaderCount t) (tReferences t).

Definition truncation_any (t : Truncation) : bool :=
  tHeaders t || tHeaderCount t || tText t || tMIMEParts t || tMIMEDepth t || tAttachments t || tReferences t || tThreadCycle t
  || tThreadDepth t || tThreadMessages t.

(** The first [*bridge.NormalizeError] of a chain. *)
Fixpoint normalizeCode (err : goerror) : option bytes :=
  match err with [] => None | NNormalize text :: _ => Some text | _ :: err => normalizeCode err end.

Definition threadHeaderLocalFailure (err : goerror) : bool :=
  if bool_decide (is_Some (CodeOf err)) || errors_is NCanceled err || errors_is NDeadlineExceeded err then false
  else match normalizeCode err with Some text => beqs text (reasonText threadUnavailableMalformedHeader) | None => false end.

Section Folding.
Context `{L : GoLibrary}.

(** [validHeaderDate]: the canonical RFC 3339 form in UTC. *)
Definition validHeaderDate (date : bytes) : bool :=
  match ParseRFC3339 date with Some parsed => inUTC parsed && beqs (FormatRFC3339 parsed) date | None => false end.

Definition newMessageResult (item : MessageMetadata) : messageResult :=
  let (sender, capped) := boundedSenderResult (mFrom item) in
  let dated := match mDateSource item with DateSourceHeader => validHeaderDate (mDate item) | _ => false end in
  mkMessageResult (mID item) (mMailbox item) (mUIDValidity item) (mUID item) (mSubject item) (mSize item) sender
    (if dated then mDate item else []) (if dated then DateSourceHeader else DateSourceUnknown) (mReadState item)
    (negb (beqs sender []) && (mMetadataTruncated item || capped)).

(** One page, refused as a whole when a message lacks its identity. *)
Fixpoint flatLoop (messages : list MessageMetadata) (limit : Z) (results : list messageResult) : (list messageResult * bool) + tool_code :=
  match messages with
  | [] => inl (results, false)
  | item :: messages =>
      if zlen results =? limit then inl (results, true)
      else if negb (validReadIdentity item) then inr errUnavailable
      else flatLoop messages limit (results ++ [newMessageResult item])
  end.
Definition flatMessageResults (messages : list MessageMetadata) (limit : Z) := flatLoop messages limit [].

(** An optional bounded RFC 3339 timestamp; no text is the zero time. *)
Definition parseTimestamp (value : bytes) : option Z :=
  if beqs value [] then Some 0
  else if maxTimestampArgumentBytes <? zlen value then None
  else option_map instant (ParseRFC3339 value).

(** The prefixes are stripped until nothing changes; each time the text gets
    shorter. *)
Definition stripPrefix (trimmed : bytes) : bytes :=
  let lowered := to_lower trimmed in
  if has_prefix lowered $"re:" then trim_space (drop 3 trimmed)
  else if has_prefix lowered $"fwd:" then trim_space (drop 4 trimmed)
  else if has_prefix lowered $"fw:" then trim_space (drop 3 trimmed)
  else trimmed.
Fixpoint stripLoop (fuel : nat) (trimmed : bytes) : bytes :=
  match fuel with
  | O => trimmed
  | S fuel => let stripped := stripPrefix trimmed in if beqs stripped trimmed then trimmed else stripLoop fuel stripped
  end.
Definition baseSubject (subject : bytes) : bytes :=
  let trimmed := trim_space subject in fst (cutRunes (stripLoop (S (length trimmed)) trimmed) maxSearchTermBytes).

(** [decodeArguments] into a struct. *)
Definition decodeArguments {T'} (fields : list (bytes * (json -> T' -> option T'))) (zero : T') (arguments : bytes) : option T' :=
  DecodeObject EqualFold (bindStruct fields zero) arguments maxToolArgumentsBytes.
End Folding.

(** ** The read-only tools *)

Section Handlers.
Context `{L : GoLibrary} `{N : Normalizer} {W : Type} `{K : Clock W}.

Definition toolFunc : Type := Options W -> bytes -> T W toolResult.

Definition runListFolders : toolFunc := fun deps arguments =>
  do! _ := require (decodeArguments [] tt arguments) errInvalidArgument in
  do! mail := present (optMail deps) in
  do! folders := asked (mailListFolders mail) in
  tret (FoldersResult (mkListFolders (map (fun f => mkFolderResult (fName f) (fDelimiter f)) folders) false)).

Definition searchPage (mail : Mail W) (query : SearchQuery) (limit : Z) : T W (SearchPage * list messageResult * bool) :=
  do! page := asked (mailSearchMailPage mail query) in
  match flatMessageResults (Messages page) limit with
  | inl (results, limited) => tret (page, results, limited)
  | inr code => refuse code
  end.

Definition runSearchMail : toolFunc := fun deps arguments =>
  do! input := require (decodeArguments searchFields emptySearch arguments) errInvalidArgument in
  do! _ := ensure (validMailboxArgument (siMailbox input)) errInvalidArgument in
  do! _ := ensure ((length (siSender input) <=? maxSearchTermBytes)%nat && (length (siSubject input) <=? maxSearchTermBytes)%nat) errInvalidArgument in
  do! since := require (parseTimestamp (siSince input)) errInvalidArgument in
  do! before := require (parseTimestamp (siBefore input)) errInvalidArgument in
  do! limit := require (clampLimit (siLimit input) defaultSearchLimit maxSearchLimit) errInvalidArgument in
  do! mail := present (optMail deps) in
  do! (page, results, limited) := searchPage mail
    (mkQuery (siMailbox input) since before (siSender input) (siSubject input) (siUnreadOnly input)) limit in
  tret (SearchResult (mkSearchResult results (Truncated page || limited))).

(** The two adapter operations behind [get_message] and the normalization. *)
Definition fetchNormalizedMessage (deps : Options W) (identifier : bytes) : T W (MessageMetadata * NormalizedMessage) :=
  do! mail := present (optMail deps) in
  do! metadata := asked (mailGetMessageMetadata mail identifier) in
  do! body := asked (mailGetMessageBody mail identifier) in
  match NormalizeMessage body with
  | inl normalized => tret (metadata, normalized)
  | inr err => refuse (mapAdapterError err)
  end.

Definition runGetMessage : toolFunc := fun deps arguments =>
  do! identifier := require (decodeArguments identifierFields [] arguments) errInvalidArgument in
  do! _ := ensure (validMessageIdentifier identifier) errInvalidArgument in
  do! (metadata, normalized) := fetchNormalizedMessage deps identifier in
  do! _ := ensure (validReadIdentity metadata) errUnavailable in
  let t := nmTruncation normalized in
  tret (MessageResult (mkGetMessage (mID metadata) (mMailbox metadata) (mUIDValidity metadata) (mUID metadata) (mSize metadata)
    (nmHeaders normalized) (Text normalized) (textSourceText (nmTextSource normalized)) (attachmentResults (nmAttachments normalized))
    (mkMessageTruncation (tHeaders t) (tHeaderCount t) (tText t) (tMIMEParts t) (tMIMEDepth t) (tAttachments t) (tReferences t) false)
    (truncation_any t))).

(** *** Threads *)

(** What the sibling search has gathered. *)
Record siblings := mkSiblings {
  sibMembers : list ThreadMessage; sibIdentities : gmap bytes MessageMetadata; sibTruncations : gmap bytes threadNodeTruncation;
  sibUnavailable : list unavailableReason; sibTruncated : bool; sibAttempts : Z; sibSeen : gset bytes }.
#[export] Instance eta_siblings : Eta siblings := fun s =>
  mkSiblings (sibMembers s) (sibIdentities s) (sibTruncations s) (sibUnavailable s) (sibTruncated s) (sibAttempts s) (sibSeen s).

(** An attempted sibling that is left out. *)
Definition omitSibling (reason : unavailableReason) (s : siblings) : siblings :=
  s <| sibUnavailable := sibUnavailable s ++ [reason] |> <| sibTruncated := true |>.

Definition addSibling (key : bytes) (sibling : MessageHeaders) (s : siblings) : siblings :=
  s <| sibIdentities := <[key := mhMetadata sibling]> (sibIdentities s) |>
    <| sibTruncations := <[key := newThreadNodeTruncation (mhTruncation sibling)]> (sibTruncations s) |>
    <| sibMembers := sibMembers s ++ [mkThreadMessage key (mhHeaders sibling) 0] |>.

(** One header read of a candidate; [None] ends the loop with a code. *)
Definition readSibling (reader : bytes -> W -> reply MessageHeaders * W) (subject key : bytes) (s : siblings) : T W siblings :=
  do! r := called (reader key) in
  match r with
  | inr err =>
      if threadHeaderLocalFailure err then tret (omitSibling threadUnavailableMalformedHeader s)
      else if bool_decide (mapAdapterError err = errStaleID) then tret (omitSibling threadUnavailableStaleID s)
      else refuse (mapAdapterError err)
  | inl sibling =>
      if negb (EqualFold (baseSubject (hSubject (mhHeaders sibling))) subject) then tret s
      else if negb (validReadIdentity (mhMetadata sibling)) then tret (omitSibling threadUnavailableInvalidIdentity s)
      else tret (addSibling key sibling s)
  end.

Fixpoint siblingLoop (reader : bytes -> W -> reply MessageHeaders * W) (subject : bytes) (maximumAttempts : Z)
    (candidates : list MessageMetadata) (s : siblings) : T W siblings :=
  match candidates with
  | [] => tret s
  | candidate :: candidates =>
      let key := mID candidate in
      if beqs key [] || bool_decide (key ∈ sibSeen s) then siblingLoop reader subject maximumAttempts candidates s
      else
        let s := s <| sibSeen := {[key]} ∪ sibSeen s |> in
        if negb (EqualFold (baseSubject (mSubject candidate)) subject) then siblingLoop reader subject maximumAttempts candidates s
        else if sibAttempts s =? maximumAttempts then tret (s <| sibTruncated := true |>)
        else
          do! s := readSibling reader subject key (s <| sibAttempts := sibAttempts s + 1 |>) in
          siblingLoop reader subject maximumAttempts candidates s
  end.

(** [members] is the target's own message under its argument. *)
Definition appendThreadSiblings (reader : bytes -> W -> reply MessageHeaders * W) (deps : Options W) (s : siblings)
    (target : MessageMetadata) (limit : Z) : T W siblings :=
  let subject := baseSubject (mSubject target) in
  if beqs subject [] || beqs (mMailbox target) [] then tret s
  else
    do! mail := present (optMail deps) in
    do! page := asked (mailSearchMailPage mail (mkQuery (mMailbox target) 0 0 [] subject false)) in
    siblingLoop reader subject (limit - zlen (sibMembers s)) (Messages page)
      (s <| sibTruncated := Truncated page |> <| sibSeen := {[mID target]} ∪ list_to_set (map tKey (sibMembers s)) |>).

(** The nodes of the built thread, each with the identity of its key. *)
Fixpoint threadNodes (s : siblings) (nodes : list ThreadNode) (results : list threadNodeResult) (truncated : bool)
  : option (list threadNodeResult * bool) :=
  match nodes with
  | [] => Some (results, truncated)
  | node :: nodes =>
      match sibIdentities s !! nKey node with
      | None => None
      | Some identity =>
          let truncation := default (mkNodeTruncation false false false) (sibTruncations s !! nKey node) in
          let h := tmHeaders (nMessage node) in
          threadNodes s nodes
            (results ++ [mkNodeResult (nKey node) (mMailbox identity) (mUIDValidity identity) (mUID identity) (nMessageID node)
               (nParentKey node) (Z.of_nat (nDepth node)) (hSubject h) (hFrom h) (hDate h) truncation])
            (truncated || node_truncation_any truncation)
      end
  end.

Definition thread_any (t : Thread) : bool := thThreadMessages t || thReferences t || thThreadCycle t || thThreadDepth t.

(** [NormalizeLimits{MaxThreadMessages: limit}]. *)
Definition threadLimits (limit : Z) : NormalizeLimits := mkLimits 0 0 0 0 0 0 0 0 0 0 0 0 limit.

Definition runGetThread : toolFunc := fun deps arguments =>
  do! input := require (decodeArguments threadFields (mkThreadInput [] None) arguments) errInvalidArgument in
  let identifier := tiMessageID input in
  do! _ := ensure (validMessageIdentifier identifier) errInvalidArgument in
  do! limit := require (clampLimit (tiMaxMessages input) defaultThreadMessages maxThreadMessages) errInvalidArgument in
  do! reader := require (optMail deps ≫= messageHeaderReader) errUnsupported in
  do! r := called (reader identifier) in
  do! target := match r with
    | inl target => tret target
    | inr err => refuse (if threadHeaderLocalFailure err then errUnavailable else mapAdapterError err)
    end in
  do! _ := ensure (validReadIdentity (mhMetadata target)) errUnavailable in
  do! s := appendThreadSiblings reader deps
    (mkSiblings [mkThreadMessage identifier (mhHeaders target) 0] {[identifier := mhMetadata target]}
       {[identifier := newThreadNodeTruncation (mhTruncation target)]} [] false 0 ∅)
    (mhMetadata target) limit in
  let thread := BuildThread (sibMembers s) (threadLimits limit) in
  do! (nodes, truncated) := require (threadNodes s (Nodes thread) [] (sibTruncated s || thread_any thread)) errInternal in
  tret (ThreadResult (mkGetThread identifier (mMailbox (mhMetadata target)) nodes truncated (sibUnavailable s))).

Definition runListAttachments : toolFunc := fun deps arguments =>
  do! identifier := require (decodeArguments identifierFields [] arguments) errInvalidArgument in
  do! _ := ensure (validMessageIdentifier identifier) errInvalidArgument in
  do! reader := require (optMail deps ≫= messageAttachmentStructureReader) errUnsupported in
  do! structure := asked (reader identifier) in
  do! _ := ensure (beqs (masID structure) identifier && negb (beqs (masMailbox structure) []) && negb (masUIDValidity structure =? 0)
    && negb (masUID structure =? 0)) errUnavailable in
  let t := masTruncation structure in
  let truncation := mkListTruncation (tMIMEParts t) (tMIMEDepth t) (tAttachments t) false in
  tret (AttachmentsResult (mkListAttachments (masID structure) (masMailbox structure) (masUIDValidity structure) (masUID structure)
    (attachmentResults (map metadata (masAttachments structure))) truncation (list_truncation_any truncation))).

(** An hour and a day in nanoseconds; the zero time is a midnight. *)
Definition hour : Z := 3600 * 1000000000.
Definition day : Z := 24 * hour.

Definition runSelectDigestCandidates : toolFunc := fun deps arguments =>
  do! input := require (decodeArguments digestFields (mkDigestInput [] None None None) arguments) errInvalidArgument in
  do! _ := ensure (validMailboxArgument (diMailbox input)) errInvalidArgument in
  do! sinceHours := require (clampLimit (diSinceHours input) defaultDigestHours maxDigestSinceHours) errInvalidArgument in
  do! limit := require (clampLimit (diLimit input) defaultDigestLimit maxDigestLimit) errInvalidArgument in
  let unreadOnly := default true (diUnreadOnly input) in
  do! clock := (fun w => let (t, w) := now w in (Done t, w)) in
  let upperDate := (clock / day + 1) * day in
  do! mail := present (optMail deps) in
  do! status := asked (mailStatus mail (diMailbox input)) in
  do! (page, candidates, limited) := searchPage mail (mkQuery (diMailbox input) (clock - sinceHours * hour) upperDate [] [] unreadOnly) limit in
  tret (DigestResult (mkDigest (diMailbox input) candidates (sMessages status) (sUnseen status) (Truncated page || limited))).

(** ** The triage tools *)

(** Anything unexpected is unknown, never applied. *)
Definition sanitizeTriageOutcome (o : outcome) : bytes :=
  match o with
  | OutcomeApplied => $"applied"
  | OutcomeRefused => $"refused"
  | OutcomeNotAttempted => $"not_attempted"
  | _ => $"unknown"
  end.

Definition triageRow (o : TriageResult) : triageResultRow :=
  mkRow (UID o) (sanitizeTriageOutcome (Outcome o))
    (match Code o with Some code => toolCodeText (mapAdapterError (errorCode code)) | None => [] end).

(** The outcomes paired with the requested UIDs, in input order. *)
Fixpoint pairRows (uids : list Z) (outcomes : list TriageResult) : option (list triageResultRow) :=
  match uids, outcomes with
  | [], [] => Some []
  | uid :: uids, o :: outcomes => if UID o =? uid then option_map (cons (triageRow o)) (pairRows uids outcomes) else None
  | _, _ => None
  end.

Definition triageResults (uids : list Z) (outcomes : list TriageResult) : T W toolResult :=
  do! rows := require (pairRows uids outcomes) errInternal in tret (TriageRows (mkTriage rows)).

Definition runSetSeen (seen : bool) : toolFunc := fun deps arguments =>
  do! input := require (decodeArguments triageFields emptyTriage arguments) errInvalidArgument in
  do! _ := ensure (validTriageInput input) errInvalidArgument in
  do! triage := require (optTriage deps) errUnavailable in
  do! outcomes := asked (surfaceSetSeen triage (trMailbox input) (trUIDValidity input) (trUIDs input) seen) in
  triageResults (trUIDs input) outcomes.
Definition runMarkRead : toolFunc := runSetSeen true.
Definition runMarkUnread : toolFunc := runSetSeen false.

Definition runMoveMail : toolFunc := fun deps arguments =>
  do! input := require (decodeArguments triageMoveFields (mkMoveInput emptyTriage []) arguments) errInvalidArgument in
  let source := tmInput input in
  do! _ := ensure (validTriageInput source && validMailboxArgument (tmDestination input)) errInvalidArgument in
  do! triage := require (optTriage deps) errUnavailable in
  do! outcomes := asked (surfaceMove triage (trMailbox source) (trUIDValidity source) (trUIDs source) (tmDestination input)) in
  triageResults (trUIDs source) outcomes.

Definition runAttributeMove (trash : bool) : toolFunc := fun deps arguments =>
  do! input := require (decodeArguments triageFields emptyTriage arguments) errInvalidArgument in
  do! _ := ensure (validTriageInput input) errInvalidArgument in
  do! triage := require (optTriage deps) errUnavailable in
  do! outcomes := asked ((if trash then surfaceTrash triage else surfaceArchive triage) (trMailbox input) (trUIDValidity input) (trUIDs input)) in
  triageResults (trUIDs input) outcomes.
Definition runArchiveMail : toolFunc := runAttributeMove false.
Definition runTrashMail : toolFunc := runAttributeMove true.

(** ** The catalog *)

(** A definition with its client-facing hints; description and schema are
    texts the server only publishes. *)
Record toolDefinition := mkDefinition { toolName : bytes; toolReadOnly : bool; toolDestructive : bool; toolIdempotent : bool; toolRun : toolFunc }.

Definition toolDefinitions : list toolDefinition :=
  [mkDefinition $"list_folders" true false false runListFolders; mkDefinition $"search_mail" true false false runSearchMail;
   mkDefinition $"get_message" true false false runGetMessage; mkDefinition $"get_thread" true false false runGetThread;
   mkDefinition $"list_attachments" true false false runListAttachments;
   mkDefinition $"select_digest_candidates" true false false runSelectDigestCandidates].

Definition triageToolDefinitions : list toolDefinition :=
  [mkDefinition $"mark_read" false false true runMarkRead; mkDefinition $"mark_unread" false false true runMarkUnread;
   mkDefinition $"move_mail" false true false runMoveMail; mkDefinition $"archive_mail" false true false runArchiveMail;
   mkDefinition $"trash_mail" false true false runTrashMail].

(** What [registerTools] adds to the server, in its order. *)
Definition registerTools (options : Options W) : list toolDefinition :=
  toolDefinitions ++ match optTriage options with Some _ => triageToolDefinitions | None => [] end.

(** [allowlistMiddleware]: the methods that reach the server. *)
Definition allowedMethods : list bytes :=
  [$"initialize"; $"ping"; $"server/discover"; $"tools/list"; $"tools/call"; $"notifications/initialized"; $"notifications/cancelled";
   $"notifications/progress"].
Definition allowedMethod (method : bytes) : bool := bool_decide (method ∈ allowedMethods).

(** ** Audit *)

Record auditEvent := mkEvent { evTool : bytes; evOutcome : bytes; evCode : bytes; evTruncated : bool }.

Definition auditJSON (e : auditEvent) : json :=
  JObject (member $"event" (JText $"tool_call") ++ member $"tool" (JText (evTool e)) ++ member $"outcome" (JText (evOutcome e))
    ++ textMember $"code" (evCode e) ++ boolMember $"truncated" (evTruncated e)).

Definition toolNames : list bytes :=
  [$"list_folders"; $"search_mail"; $"get_message"; $"get_thread"; $"list_attachments"; $"select_digest_candidates"; $"mark_read";
   $"mark_unread"; $"move_mail"; $"archive_mail"; $"trash_mail"].
Definition errorCodes : list tool_code :=
  [errInvalidArgument; errNotFound; errStaleID; errBoundsExceeded; errTimedOut; errCanceled; errUnavailable; errUnsupported; errInternal].

Definition sanitizeToolName (tool : bytes) : bytes := if bool_decide (tool ∈ toolNames) then tool else $"unknown_tool".
Definition sanitizeOutcome (o : bytes) : bytes := if beqs o $"ok" then $"ok" else $"error".
Definition sanitizeErrorCode (code : bytes) : bytes :=
  if beqs code [] || bool_decide (code ∈ map toolCodeText errorCodes) then code else toolCodeText errInternal.

(** One line for each call, when there is an auditor. *)
Definition ToolCall (audit : bool) (tool o code : bytes) (truncated : bool) : list bytes :=
  if audit then [marshal (auditJSON (mkEvent (sanitizeToolName tool) (sanitizeOutcome o) (sanitizeErrorCode code) truncated)) ++ [x0a]] else [].

(** The end of the transport; [closed] is [mcp.ErrConnectionClosed]. *)
Definition transportCategory (closed : goerror -> bool) (err : option goerror) : bytes :=
  match err with
  | None => $"normal_close"
  | Some err =>
      if errors_is NEOF err || closed err then $"normal_close"
      else if errors_is NCanceled err then $"canceled"
      else if errors_is NPipe err then $"client_disconnected"
      else $"transport_failure"
  end.
Definition transportEnd (audit : bool) (closed : goerror -> bool) (err : option goerror) : list bytes :=
  if audit then [marshal (JObject (member $"event" (JText $"transport_end") ++ member $"category" (JText (transportCategory closed err)))) ++ [x0a]] else [].

(** [Serve] behind the run of the server: its audit line, and whether it
    fails with [errServerUnavailable]. *)
Definition Serve (options : Options W) (closed : goerror -> bool) (err : option goerror) : list bytes * bool :=
  (transportEnd (optAudit options) closed err,
   match err with
   | None => false
   | Some err => negb (errors_is NEOF err || closed err || errors_is NCanceled err)
   end).

(** ** Calling a tool *)

Record CallToolResult := mkCall { IsError : bool; callText : bytes }.

Definition errorResult (code : bytes) : CallToolResult :=
  mkCall true (marshal (JObject (member $"error" (JObject (member $"code" (JText code)))))).

(** A panic becomes [errInternal]. *)
Definition runTool (definition : toolDefinition) (options : Options W) (arguments : bytes) : W -> (toolResult + tool_code) * W := fun w =>
  match optMail options with
  | None => (inr errUnavailable, w)
  | Some _ =>
      match toolRun definition options arguments w with
      | (Done result, w) => (inl result, w)
      | (Refused code, w) => (inr code, w)
      | (Panicked, w) => (inr errInternal, w)
      end
  end.

(** The handler the server registers: its answer and its audit lines. *)
Definition makeHandler (definition : toolDefinition) (options : Options W) (arguments : bytes) : W -> (CallToolResult * list bytes) * W := fun w =>
  let audit := ToolCall (optAudit options) (toolName definition) in
  let (result, w) := runTool definition options arguments w in
  (match result with
   | inr code => (errorResult (toolCodeText code), audit $"error" (toolCodeText code) false)
   | inl result =>
       match encodeBounded result with
       | Unretainable => (errorResult (toolCodeText errBoundsExceeded), audit $"error" (toolCodeText errBoundsExceeded) false)
       | Encoded text truncated => (mkCall false text, audit $"ok" [] truncated)
       end
   end, w).
End Handlers.
