(* ===== verification/ToolServerSpec.v ===== *)
(** * What the tool server promises

    Whatever relation the adapter's operations keep between the worlds before
    and after, the read-only tools keep; every call ends with one bounded
    document and one audit line of a closed vocabulary; and the results are
    exactly what the adapter answered. *)
From Stdlib Require Import ZArith Lia Strings.Byte.
From stdpp Require Import base list gmap strings sorting.
From S2P Require Import Prelude GoStrings GoText GoJson Errors Config Session StrictJson Mime AttachmentProjection Threads.
From S2P Require Import Search Triage StructureSession Headers GoMarshal ToolResults ToolServer ToolResultsSpec ThreadsSpec.

(** ** Keeping a relation *)

Definition within {W A} (R : relation W) (f : W -> A * W) : Prop := forall w a w', f w = (a, w') -> R w w'.

(** An adapter whose operations keep [R]. *)
Record mail_within {W} (R : relation W) (mail : Mail W) : Prop := {
  within_folders : within R (mailListFolders mail);
  within_status mailbox : within R (mailStatus mail mailbox);
  within_search query : within R (mailSearchMailPage mail query);
  within_metadata identifier : within R (mailGetMessageMetadata mail identifier);
  within_body identifier : within R (mailGetMessageBody mail identifier);
  within_headers reader identifier : messageHeaderReader mail = Some reader -> within R (reader identifier);
  within_structure reader identifier : messageAttachmentStructureReader mail = Some reader -> within R (reader identifier) }.

Section Within.
Context {W : Type} (R : relation W) `{!PreOrder R}.

Lemma within_ret {A} (a : A) : within R (tret a).
Proof. by intros w o w' [= _ <-]. Qed.
Lemma within_refuse {A} code : within R (refuse (A := A) code).
Proof. by intros w o w' [= _ <-]. Qed.
Lemma within_bind {A B} (m : T W A) (k : A -> T W B) : within R m -> (forall a, within R (k a)) -> within R (tbind m k).
Proof.
  intros Hm Hk w o w'. unfold tbind. destruct (m w) as [[a|code|] w1] eqn:E; apply Hm in E; [|by intros [= _ <-]..].
  intros H%Hk. by etransitivity.
Qed.
Lemma within_called {A} (f : W -> reply A * W) : within R f -> within R (called f).
Proof. intros Hf w o w'. unfold called. destruct (f w) as [[r|] w1] eqn:E; apply Hf in E; by intros [= _ <-]. Qed.
Lemma within_asked {A} (f : W -> reply A * W) : within R f -> within R (asked f).
Proof. intros Hf. apply within_bind; [by apply within_called|]. intros [a|e]; [apply within_ret|apply within_refuse]. Qed.
Lemma within_require {A} (r : option A) code : within R (require r code).
Proof. destruct r; [apply within_ret|apply within_refuse]. Qed.
Lemma within_ensure ok code : within R (ensure ok code).
Proof. destruct ok; [apply within_ret|apply within_refuse]. Qed.
Lemma within_present {A} (r : option A) : within R (present r).
Proof. destruct r; [apply within_ret|]. by intros w o w' [= _ <-]. Qed.
End Within.

(** A handler step by step. *)
Ltac keeps := repeat first
  [ match goal with |- within ?R (tbind (tret ?a) ?k) => change (within R (k a)); cbv beta iota end
  | apply within_ret; exact _ | apply within_refuse; exact _ | apply within_require; exact _ | apply within_ensure; exact _
  | apply within_present; exact _ | apply within_asked; [exact _|] | apply within_called | apply within_bind; [exact _| |intros ?]
  | match goal with |- within _ (match ?x with _ => _ end) => destruct x eqn:? end | assumption ].

Section ReadOnly.
Context `{L : GoLibrary} `{N : Normalizer} {W : Type} `{K : Clock W}.
Variable R : relation W.
Context `{!PreOrder R}.
Variable mail : Mail W.
Hypothesis Hmail : mail_within R mail.
Hypothesis Hclock : within R now.

Lemma siblingLoop_within reader subject maximum candidates s :
  (forall key, within R (reader key)) -> within R (siblingLoop reader subject maximum candidates s).
Proof.
  intros Hr. revert s. induction candidates as [|c candidates IH]; intros s; cbn [siblingLoop]; [keeps|]. cbv zeta.
  destruct (_ || _); [apply IH|]. destruct (negb _); [apply IH|]. destruct (_ =? _); [keeps|].
  apply within_bind; [done| |intros; apply IH]. unfold readSibling. keeps. apply Hr.
Qed.

Variable options : Options W.
Hypothesis Hoptions : optMail options = Some mail.

Lemma read_tools_within d arguments : d ∈ toolDefinitions -> within R (toolRun d options arguments).
Proof.
  intros Hd. unfold toolDefinitions in Hd. repeat (apply elem_of_cons in Hd as [-> | Hd]); [..|by apply elem_of_nil in Hd]; cbn [toolRun].
  - unfold runListFolders. rewrite Hoptions. cbn [present]. keeps. by apply within_folders.
  - unfold runSearchMail. rewrite Hoptions. cbn [present]. keeps. by apply within_search.
  - unfold runGetMessage, fetchNormalizedMessage. rewrite Hoptions. cbn [present]. keeps; [by apply within_metadata|by apply within_body].
  - unfold runGetThread. rewrite Hoptions. cbn [mbind option_bind].
    destruct (messageHeaderReader mail) as [reader|] eqn:Er; cbn [require]; keeps; [by eapply within_headers|].
    unfold appendThreadSiblings. rewrite Hoptions. cbn [present]. cbv zeta. keeps; [by apply within_search|].
    apply siblingLoop_within. intros key. by eapply within_headers.
  - unfold runListAttachments. rewrite Hoptions. cbn [mbind option_bind].
    destruct (messageAttachmentStructureReader mail) as [reader|] eqn:Er; cbn [require]; keeps. by eapply within_structure.
  - unfold runSelectDigestCandidates. rewrite Hoptions. cbn [present]. keeps; [|by apply within_status|by apply within_search].
    intros w o w'. destruct (now w) as [t w1] eqn:E. intros [= _ <-]. by apply Hclock in E.
Qed.

Lemma runTool_within d arguments : d ∈ toolDefinitions -> within R (runTool d options arguments).
Proof.
  intros Hd w o w'. unfold runTool. rewrite Hoptions. destruct (toolRun d options arguments w) as [[a|code|] w1] eqn:E;
    intros [= _ <-]; by apply read_tools_within in E.
Qed.

Lemma makeHandler_within d arguments : d ∈ toolDefinitions -> within R (makeHandler d options arguments).
Proof.
  intros Hd w o w'. unfold makeHandler. cbv zeta. destruct (runTool d options arguments w) as [r w1] eqn:E. intros [= _ <-].
  by apply runTool_within in E.
Qed.
End ReadOnly.

(** ** Every call ends *)

Section Calls.
Context `{L : GoLibrary} `{N : Normalizer} {W : Type} `{K : Clock W}.

Definition toolErrorText (code : tool_code) : bytes :=
  marshal (JObject (member $"error" (JObject (member $"code" (JText (toolCodeText code)))))).

(** What the audit line of an answer says. *)
Definition audited (name line : bytes) (r : CallToolResult) : Prop :=
  exists e, line = marshal (auditJSON e) ++ [x0a] /\ evTool e = name /\ name ∈ toolNames
    /\ evOutcome e = (if IsError r then $"error" else $"ok")
    /\ (if IsError r then exists code, evCode e = toolCodeText code /\ callText r = toolErrorText code else evCode e = []).

Lemma sanitize_code (code : tool_code) : sanitizeErrorCode (toolCodeText code) = toolCodeText code.
Proof. by destruct code. Qed.

Lemma registered_name (options : Options W) (d : toolDefinition) : d ∈ registerTools options -> toolName d ∈ toolNames.
Proof.
  unfold registerTools, toolDefinitions, triageToolDefinitions, toolNames. intros [Hd|Hd]%elem_of_app.
  - repeat (apply elem_of_cons in Hd as [-> | Hd]); [..|by apply elem_of_nil in Hd]; cbn [toolName]; set_solver.
  - destruct (optTriage options); [|by apply elem_of_nil in Hd].
    repeat (apply elem_of_cons in Hd as [-> | Hd]); [..|by apply elem_of_nil in Hd]; cbn [toolName]; set_solver.
Qed.

(** An error is small and a document. *)
Lemma error_text (code : tool_code) : zlen (toolErrorText code) <= maxToolResultBytes /\ exists j, document (toolErrorText code) j.
Proof. split; [by destruct code; vm_compute|]. eexists. apply marshal_document. cbn. auto. Qed.

(** The answer of a handler and its audit lines. *)
Definition answered (audit : bool) (name : bytes) (r : CallToolResult) (lines : list bytes) : Prop :=
  zlen (callText r) <= maxToolResultBytes /\ (exists j, document (callText r) j)
  /\ (IsError r = true -> exists code, callText r = toolErrorText code)
  /\ if audit then exists line, lines = [line] /\ audited name line r else lines = [].

Lemma answered_error audit name code : name ∈ toolNames ->
  answered audit name (errorResult (toolCodeText code)) (ToolCall audit name $"error" (toolCodeText code) false).
Proof.
  intros Hn. destruct (error_text code) as [Hl Hd]. split; [done|]. split; [done|]. split; [by exists code|]. destruct audit; [|done].
  eexists. split; [done|]. eexists. split; [done|]. cbn [evTool evOutcome evCode IsError errorResult]. unfold sanitizeToolName.
  rewrite bool_decide_eq_true_2, sanitize_code by done. split; [done|]. split; [done|]. split; [done|]. by exists code.
Qed.

(** C2: every call of a registered tool, whatever its arguments and whatever
    the adapter does (panics included), ends with one JSON document within the
    bound: a result, or an error that is one of the nine codes and nothing
    else.  With an auditor it leaves exactly one line, which names the tool,
    the outcome and that same code; without a mail adapter nothing is called. *)
Theorem tool_call_closed (options : Options W) (d : toolDefinition) arguments w (Hd : d ∈ registerTools options) :
  exists r lines w', makeHandler d options arguments w = ((r, lines), w') /\ answered (optAudit options) (toolName d) r lines
    /\ (optMail options = None -> r = errorResult (toolCodeText errUnavailable) /\ w' = w).
Proof.
  pose proof (registered_name _ _ Hd) as Hn. unfold makeHandler. cbv zeta. destruct (runTool d options arguments w) as [[result|code] w'] eqn:E.
  - assert (Hm : optMail options <> None) by (unfold runTool in E; by destruct (optMail options)).
    destruct (encodeBounded result) as [text truncated|] eqn:Ee.
    + destruct (encode_document _ _ _ Ee) as (Hl & j & Hj & _). eexists _, _, _. split; [done|]. split; [|done].
      split; [done|]. split; [by exists j|]. split; [done|]. destruct (optAudit options); [|done]. eexists. split; [done|]. eexists. split; [done|].
      cbn [evTool evOutcome evCode IsError]. unfold sanitizeToolName. by rewrite bool_decide_eq_true_2 by done.
    + eexists _, _, _. split; [done|]. split; [by apply answered_error|done].
  - eexists _, _, _. split; [done|]. split; [by apply answered_error|]. intros Hm. unfold runTool in E. rewrite Hm in E. by injection E as <- <-.
Qed.
End Calls.
