(* ===== verification/ToolTriageSpec.v ===== *)
(** * The triage tools

    Only an approved payload (a named mailbox and generation, 1 to 50 distinct
    nonzero 32-bit UIDs) reaches the adapter, in one call, and the rows are
    the adapter's outcomes for exactly those UIDs. *)
From Stdlib Require Import ZArith Lia Strings.Byte.
From stdpp Require Import base list gmap strings.
From S2P Require Import Prelude GoStrings GoJson Errors StrictJson Triage TriageSpec GoMarshal ToolResults ToolServer.

(** ** Arguments *)

Section Bound.
Context {T' : Type} (fields : list (bytes * (json -> T' -> option T'))) (P : T' -> Prop).

Lemma findField_in key store : findField fields key = Some store -> exists name, (name, store) ∈ fields.
Proof.
  unfold findField. destruct (List.find _ fields) as [[n f]|] eqn:E.
  - intros [= <-]. apply List.find_some in E as [E _]. exists n. by apply list_elem_of_In.
  - destruct (List.find (fun f => equal_fold key (fst f)) fields) as [[n f]|] eqn:E2; cbn; [|by intros [=]]. intros [= <-]. apply List.find_some in E2 as [E2 _]. exists n. by apply list_elem_of_In.
Qed.

(** What every field keeps, the bound struct has. *)
Lemma bindMembers_keeps m target r : (forall name store j t t', (name, store) ∈ fields -> store j t = Some t' -> P t -> P t') ->
  P target -> bindMembers fields m target = Some r -> P r.
Proof.
  intros Hf. revert target. induction m as [|[key j] m IH]; intros target Ht; cbn; [by intros [= <-]|].
  destruct (findField fields key) as [store|] eqn:E; [|done]. destruct (store j target) as [t|] eqn:Es; [|done].
  apply findField_in in E as [name E]. apply IH. by eapply Hf.
Qed.
End Bound.

Lemma decodeArguments_keeps `{L : GoLibrary} {T'} (P : T' -> Prop) fields zero arguments r :
  (forall name store j t t', (name, store) ∈ fields -> store j t = Some t' -> P t -> P t') -> P zero ->
  decodeArguments fields zero arguments = Some r -> P r.
Proof.
  intros Hf Hz. unfold decodeArguments, DecodeObject. cbv zeta. destruct (validateObject _ _ _ _ _); [|done].
  unfold bindStruct. destruct (parse _) as [[| |m]|]; try done. by apply (bindMembers_keeps fields P).
Qed.

Definition uint32s (uids : list Z) : Prop := Forall (fun z => 0 <= z < 2 ^ 32) uids.

Lemma asUint32List_range l zs : asUint32List l = Some zs -> uint32s zs.
Proof.
  revert zs. induction l as [|j l IH]; intros zs; cbn; [intros [= <-]; constructor|].
  destruct (asUint32 j) as [z|] eqn:E; [|done]. destruct (asUint32List l) as [zs'|]; [|done]. intros [= <-]. constructor; [|by apply IH].
  unfold asUint32 in E. destruct j as [[]| |]; try done. by apply parse_uint_range in E.
Qed.

Definition payload_uint32 (i : triageInput) : Prop := 0 <= trUIDValidity i < 2 ^ 32 /\ uint32s (trUIDs i).

Lemma triageFields_keep name store j t t' : (name, store) ∈ triageFields -> store j t = Some t' -> payload_uint32 t -> payload_uint32 t'.
Proof.
  unfold triageFields, field. intros Hin. repeat (apply elem_of_cons in Hin as [[= -> ->] | Hin]); [..|by apply elem_of_nil in Hin];
    intros Hs [H1 H2]; apply fmap_Some in Hs as (v & Hv & ->); split; cbn; try done.
  - unfold asUint32 in Hv. destruct j as [[]| |]; try done. by apply parse_uint_range in Hv.
  - unfold asUint32s in Hv. destruct j as [|l|]; try done. by apply asUint32List_range in Hv.
Qed.

Lemma triageMoveFields_keep name store j t t' : (name, store) ∈ triageMoveFields -> store j t = Some t' -> payload_uint32 (tmInput t) -> payload_uint32 (tmInput t').
Proof.
  unfold triageMoveFields. intros [Hin|Hin]%elem_of_app.
  - apply list_elem_of_fmap in Hin as ([n f] & [= -> ->] & Hin). intros Hs Hp. apply fmap_Some in Hs as (v & Hv & ->). by eapply triageFields_keep.
  - apply list_elem_of_singleton in Hin as [= -> ->]. intros Hs. by apply fmap_Some in Hs as (v & _ & ->).
Qed.

(** ** Triage *)

(** One approved payload. *)
Record payload_ok (i : triageInput) : Prop := {
  payload_mailbox : trMailbox i <> [] /\ zlen (trMailbox i) <= maxMailboxArgumentBytes;
  payload_generation : 0 < trUIDValidity i < 2 ^ 32;
  payload_count : 1 <= zlen (trUIDs i) <= MaxTriageUIDs;
  payload_uids : NoDup (trUIDs i) /\ Forall (fun uid => 0 < uid < 2 ^ 32) (trUIDs i) }.

Lemma validMailboxArgument_spec mailbox : validMailboxArgument mailbox = true -> mailbox <> [] /\ zlen mailbox <= maxMailboxArgumentBytes.
Proof. unfold validMailboxArgument. intros H. bool_prop. split; [|done]. intros ->. done. Qed.

Lemma validTriageInput_ok i : payload_uint32 i -> validTriageInput i = true -> payload_ok i.
Proof.
  intros [Hv Hu] H. unfold validTriageInput in H. apply andb_prop in H as [H Huids]. apply andb_prop in H as [H Hmax].
  apply andb_prop in H as [H Hne]. apply andb_prop in H as [Hm Hgen]. bool_prop. apply validUIDs_spec in Huids as (Hn & Hz).
  constructor; [by apply validMailboxArgument_spec|lia| |].
  - pose proof (zlen_nonneg (trUIDs i)). lia.
  - split; [done|]. unfold uint32s in Hu. rewrite Forall_forall in *. intros z Hz'. specialize (Hu z Hz'). destruct (Hz z Hz') as [? _]. lia.
Qed.

(** The rows: all or nothing. *)
Lemma pairRows_spec uids outcomes : pairRows uids outcomes = if bool_decide (map UID outcomes = uids) then Some (map triageRow outcomes) else None.
Proof.
  revert outcomes. induction uids as [|uid uids IH]; intros [|o outcomes]; cbn [pairRows map]; try done.
  destruct (Z.eqb_spec (UID o) uid) as [->|Hne].
  - rewrite IH. case_bool_decide as H1; case_bool_decide as H2; cbn; try done; [by rewrite H1 in H2|by injection H2].
  - rewrite bool_decide_eq_false_2; [done|]. by intros [= ? _].
Qed.

(** A row says applied exactly when the adapter did. *)
Lemma row_applied o : rowOutcome (triageRow o) = $"applied" <-> Outcome o = OutcomeApplied.
Proof. destruct o as [u [] c]; cbn; split; done. Qed.

Section Calls.
Context `{L : GoLibrary} `{N : Normalizer} {W : Type} `{K : Clock W}.

(** The call a tool makes with an approved payload. *)
Inductive triage_call (t : TriageSurface W) (i : triageInput) : bytes -> (W -> reply (list TriageResult) * W) -> Prop :=
| call_mark_read : triage_call t i $"mark_read" (surfaceSetSeen t (trMailbox i) (trUIDValidity i) (trUIDs i) true)
| call_mark_unread : triage_call t i $"mark_unread" (surfaceSetSeen t (trMailbox i) (trUIDValidity i) (trUIDs i) false)
| call_move destination : destination <> [] -> zlen destination <= maxMailboxArgumentBytes ->
    triage_call t i $"move_mail" (surfaceMove t (trMailbox i) (trUIDValidity i) (trUIDs i) destination)
| call_archive : triage_call t i $"archive_mail" (surfaceArchive t (trMailbox i) (trUIDValidity i) (trUIDs i))
| call_trash : triage_call t i $"trash_mail" (surfaceTrash t (trMailbox i) (trUIDValidity i) (trUIDs i)).

(** What the tool makes of the reply. *)
Definition triage_outcome (i : triageInput) (r : reply (list TriageResult)) : handled toolResult :=
  match r with
  | Crash => Panicked
  | Answer (inr err) => Refused (mapAdapterError err)
  | Answer (inl outcomes) =>
      if bool_decide (map UID outcomes = trUIDs i) then Done (TriageRows (mkTriage (map triageRow outcomes))) else Refused errInternal
  end.

Lemma triage_asked (i : triageInput) (f : W -> reply (list TriageResult) * W) w r w' : f w = (r, w') ->
  tbind (asked f) (triageResults (trUIDs i)) w = (triage_outcome i r, w').
Proof.
  intros E. unfold tbind, asked, called, tbind. rewrite E. destruct r as [[outcomes|err]|]; [|done..]. cbn [tret triage_outcome].
  unfold triageResults, tbind, tret. rewrite pairRows_spec. by case_bool_decide.
Qed.

(** The two ways a call goes. *)
Definition triage_exact (options : Options W) (name : bytes) (w : W) (o : handled toolResult) (w' : W) : Prop :=
  (w' = w /\ exists code, o = Refused code)
  \/ exists i t f r, payload_ok i /\ optTriage options = Some t /\ triage_call t i name f /\ f w = (r, w') /\ o = triage_outcome i r.

(** The handlers behind the checks. *)
Lemma checked_exact {I} (options : Options W) name (decode : option I) (source : I -> triageInput) (ok : I -> bool)
    (call : TriageSurface W -> I -> W -> reply (list TriageResult) * W) w o w' :
  (forall i t, decode = Some i -> ok i = true -> payload_ok (source i) /\ triage_call t (source i) name (call t i)) ->
  tbind (require decode errInvalidArgument) (fun i => tbind (ensure (ok i) errInvalidArgument) (fun _ =>
    tbind (require (optTriage options) errUnavailable) (fun t => tbind (asked (call t i)) (triageResults (trUIDs (source i)))))) w = (o, w') ->
  triage_exact options name w o w'.
Proof.
  intros Hi H. destruct decode as [i|]; [|injection H as <- <-; left; eauto]. destruct (ok i) eqn:Eok; [|unfold tbind in H; cbn in H; rewrite Eok in H; injection H as <- <-; left; eauto].
  unfold tbind at 1 2 in H. cbn [require tret] in H. rewrite Eok in H. cbn [ensure tret] in H.
  destruct (optTriage options) as [t|] eqn:Et; [|injection H as <- <-; left; eauto]. unfold tbind at 1 in H. cbn [require tret] in H.
  destruct (Hi i t eq_refl Eok) as [Hp Hc]. destruct (call t i w) as [r w1] eqn:Ec. rewrite (triage_asked _ _ _ _ _ Ec) in H. injection H as <- <-.
  right. by exists (source i), t, (call t i), r.
Qed.

(** An object that binds to a payload has 32-bit numbers. *)
Lemma decoded_payload arguments i : decodeArguments triageFields emptyTriage arguments = Some i -> payload_uint32 i.
Proof. apply decodeArguments_keeps; [apply triageFields_keep|]. split; [cbn; lia|constructor]. Qed.
Lemma decoded_move arguments i : decodeArguments triageMoveFields (mkMoveInput emptyTriage []) arguments = Some i -> payload_uint32 (tmInput i).
Proof. apply (decodeArguments_keeps (fun i => payload_uint32 (tmInput i))); [apply triageMoveFields_keep|]. split; [cbn; lia|constructor]. Qed.

End Calls.

(** ** A run *)

(** A surface that applies the first UID and knows nothing of the others. *)
Definition sample_outcomes (uids : list Z) : list TriageResult :=
  match uids with [] => [] | uid :: rest => mkResult uid OutcomeApplied None :: map (fun u => mkResult u OutcomeNotAttempted None) rest end.
Definition sample_surface : TriageSurface nat :=
  let answer uids w := (Answer (inl (sample_outcomes uids)), S w) in
  mkSurface nat (fun _ _ uids _ => answer uids) (fun _ _ uids _ => answer uids) (fun _ _ uids => answer uids) (fun _ _ uids => answer uids).
#[local] Instance sample_library : GoLibrary := {|
  EqualFold := beqs; Time := Z; ParseRFC3339 _ := None; FormatRFC3339 _ := []; inUTC _ := true; instant t := t |}.
#[local] Instance sample_normalizer : Normalizer := fun _ => inr [].
#[local] Instance sample_clock : Clock nat := fun w => (0, w).
Definition sample_options : Options nat := mkOptions nat None (Some sample_surface) false.
Definition sample_arguments : bytes := marshal (JObject [($"mailbox", JText $"INBOX"); ($"uidvalidity", JInt 9); ($"uids", JArray [JInt 5; JInt 3])]).

