(* ===== verification/ToolThreadSpec.v ===== *)
(** * The thread tool

    [get_thread] reads headers only: the target's and at most [limit - 1]
    siblings', each once.  Every node carries the identity and the headers of
    one of those reads, and whatever was left out is reported. *)
From Stdlib Require Import ZArith Lia Strings.Byte.
From stdpp Require Import base list gmap strings sorting.
From S2P Require Import Prelude GoStrings GoJson Errors Config Session Threads Search Headers GoMarshal ToolResults ToolServer ThreadsSpec.

(** ** Header reads *)

(** A sequence of header reads with their answers. *)
Inductive header_reads {W} (reader : bytes -> W -> reply MessageHeaders * W) : list (bytes * reply MessageHeaders) -> W -> W -> Prop :=
| reads_none w : header_reads reader [] w w
| reads_more key w r w1 l w2 : reader key w = (r, w1) -> header_reads reader l w1 w2 -> header_reads reader ((key, r) :: l) w w2.

Section Siblings.
Context `{L : GoLibrary} {W : Type}.
Variable reader : bytes -> W -> reply MessageHeaders * W.

(** A member whose headers were read in [l] with a complete identity. *)
Definition member_read (l : list (bytes * reply MessageHeaders)) (s : siblings) (m : ThreadMessage) : Prop :=
  exists h, (tKey m, Answer (inl h)) ∈ l /\ validReadIdentity (mhMetadata h) = true /\ m = mkThreadMessage (tKey m) (mhHeaders h) 0
    /\ sibIdentities s !! tKey m = Some (mhMetadata h) /\ sibTruncations s !! tKey m = Some (newThreadNodeTruncation (mhTruncation h)).

(** What the loop keeps, over the reads [l] made so far, the target's first. *)
Record siblings_ok (l : list (bytes * reply MessageHeaders)) (s : siblings) : Prop := {
  sok_attempts : zlen l = sibAttempts s + 1;
  sok_seen : forall key, key ∈ map fst l -> key ∈ sibSeen s;
  sok_once : NoDup (map fst l);
  sok_keys : NoDup (map tKey (sibMembers s)) /\ (forall m, m ∈ sibMembers s -> tKey m <> [] /\ tKey m ∈ map fst l);
  sok_members : Forall (member_read l s) (sibMembers s);
  sok_omitted : zlen (sibMembers s) + zlen (sibUnavailable s) <= zlen l /\ (sibUnavailable s <> [] -> sibTruncated s = true) }.

Lemma member_read_more l s s' x m : member_read l s m ->
  sibIdentities s' !! tKey m = sibIdentities s !! tKey m -> sibTruncations s' !! tKey m = sibTruncations s !! tKey m -> member_read (l ++ [x]) s' m.
Proof. intros (h & H1 & H2 & H3 & H4 & H5) E1 E2. exists h. rewrite E1, E2. split; [|done]. apply elem_of_app. by left. Qed.

(** A new read: the attempt is counted and its key seen. *)
Definition attempt (key : bytes) (s : siblings) : siblings :=
  s <| sibSeen := {[key]} ∪ sibSeen s |> <| sibAttempts := sibAttempts s + 1 |>.

Lemma attempt_ok l s key r : siblings_ok l s -> key ∉ sibSeen s ->
  siblings_ok (l ++ [(key, r)]) (attempt key s) /\ zlen (sibMembers s) + zlen (sibUnavailable s) + 1 <= zlen (l ++ [(key, r)]).
Proof.
  intros [Ha Hs Ho [Hk1 Hk2] Hm [Hu Ht]] Hns. assert (Hl : zlen (l ++ [(key, r)]) = zlen l + 1) by apply zlen_snoc. rewrite Hl.
  split; [|lia]. constructor; cbn [attempt sibAttempts sibSeen sibMembers sibUnavailable sibTruncated sibIdentities sibTruncations set_field]; cbn.
  - rewrite Hl, Ha. done.
  - intros k. rewrite map_app. intros [Hk%Hs|Hk]%elem_of_app; [set_solver|]. apply list_elem_of_singleton in Hk as ->. set_solver.
  - rewrite map_app. apply NoDup_app. split; [done|]. split; [|apply NoDup_singleton]. intros k Hk%Hs ->%list_elem_of_singleton. done.
  - split; [done|]. intros m Hmm. destruct (Hk2 m Hmm). split; [done|]. rewrite map_app. apply elem_of_app. by left.
  - eapply Forall_impl; [exact Hm|]. intros m Hmm. by eapply member_read_more.
  - split; [lia|done].
Qed.

Lemma omit_ok l s reason : siblings_ok l s -> zlen (sibMembers s) + zlen (sibUnavailable s) + 1 <= zlen l -> siblings_ok l (omitSibling reason s).
Proof.
  intros [Ha Hs Ho Hk Hm [Hu Ht]] Hl. constructor; cbn; try done. split; [|done]. rewrite zlen_snoc. lia.
Qed.

Lemma add_ok l s key h : siblings_ok l s -> zlen (sibMembers s) + zlen (sibUnavailable s) + 1 <= zlen l ->
  key <> [] -> (key, Answer (inl h)) ∈ l -> key ∉ map tKey (sibMembers s) -> validReadIdentity (mhMetadata h) = true ->
  siblings_ok l (addSibling key h s).
Proof.
  intros [Ha Hs Ho [Hk1 Hk2] Hm [Hu Ht]] Hl Hne Hin Hnew Hv. constructor; cbn; try done.
  - split.
    + rewrite map_app. apply NoDup_app. split; [done|]. split; [|apply NoDup_singleton]. intros k Hk ->%list_elem_of_singleton. done.
    + intros m [Hmm|Hmm]%elem_of_app; [by apply Hk2|]. apply list_elem_of_singleton in Hmm as ->. cbn. split; [done|].
      change key with (fst (key, Answer (inl h))) . by apply list_elem_of_fmap_2.
  - apply Forall_app. split.
    + rewrite Forall_forall in *. intros m Hmm. destruct (Hm m Hmm) as (h' & H1 & H2 & H3 & H4 & H5). exists h'. cbn.
      assert (tKey m <> key) by (intros <-; apply Hnew; by apply list_elem_of_fmap_2). by rewrite !lookup_insert_ne by done.
    + constructor; [|constructor]. exists h. cbn. by rewrite !lookup_insert_eq.
  - split; [|done]. rewrite zlen_snoc. lia.
Qed.

(** One header read of an unseen key. *)
Lemma readSibling_ok subject key l s w s' w' : siblings_ok l s -> key <> [] -> key ∉ sibSeen s ->
  readSibling reader subject key (attempt key s) w = (Done s', w') ->
  exists r, reader key w = (r, w') /\ siblings_ok (l ++ [(key, r)]) s' /\ sibAttempts s' = sibAttempts s + 1
    /\ sibMembers s `prefix_of` sibMembers s'.
Proof.
  intros Hok Hne Hns H. unfold readSibling, called in H. unfold tbind at 1 in H.
  destruct (reader key w) as [r w1] eqn:Er. destruct (attempt_ok l s key r Hok Hns) as [Hok1 Hl].
  assert (Hnew : key ∉ map tKey (sibMembers s)).
  { intros (m & -> & Hm)%list_elem_of_fmap. apply Hns. destruct Hok as [_ Hs _ [_ Hk] _ _]. apply Hs. by apply Hk. }
  assert (Hin : (key, r) ∈ l ++ [(key, r)]) by (apply elem_of_app; right; by left).
  destruct r as [[h|err]|]; [| |done].
  - destruct (negb (EqualFold _ _)); [|destruct (validReadIdentity (mhMetadata h)) eqn:Ev]; injection H as <- <-;
      exists (Answer (inl h)); (split; [done|]); (split; [|split; [done|]]); try (by apply add_ok); try (by apply omit_ok); try done; by eexists.
  - destruct (threadHeaderLocalFailure err); [|case_bool_decide; [|done]]; injection H as <- <-;
      exists (Answer (inr err)); (split; [done|]); (split; [by apply omit_ok|done]).
Qed.

Lemma siblingLoop_ok subject maximum candidates l s w s' w' :
  siblings_ok l s -> sibAttempts s <= maximum -> siblingLoop reader subject maximum candidates s w = (Done s', w') ->
  exists l', header_reads reader l' w w' /\ siblings_ok (l ++ l') s' /\ sibAttempts s' <= maximum /\ sibMembers s `prefix_of` sibMembers s'.
Proof.
  revert l s w. induction candidates as [|c candidates IH]; intros l s w Hok Hmax; cbn [siblingLoop].
  { intros [= <- <-]. exists []. split; [constructor|]. by rewrite app_nil_r. }
  cbv zeta. destruct (beqs (mID c) [] || bool_decide (mID c ∈ sibSeen s)) eqn:E; [by apply IH|]. apply orb_false_iff in E as [E1 E2%bool_decide_eq_false].
  assert (Hne : mID c <> []) by (intros K; by rewrite K in E1).
  assert (Hseen : siblings_ok l (s <| sibSeen := {[mID c]} ∪ sibSeen s |>)).
  { destruct Hok as [Ha Hs Ho Hk Hm Hu]. constructor; cbn; try done. intros k Hk'%Hs. set_solver. }
  destruct (negb (EqualFold _ _)); [exact (IH l _ w Hseen Hmax)|]. destruct (Z.eqb_spec (sibAttempts s) maximum) as [Hx|Hx].
  { change (sibAttempts (s <| sibSeen := {[mID c]} ∪ sibSeen s |>)) with (sibAttempts s). rewrite (proj2 (Z.eqb_eq _ _) Hx).
    intros [= <- <-]. exists []. split; [constructor|]. rewrite app_nil_r. split; [|done].
    destruct Hseen as [Ha Hs Ho Hk Hm [Hu Ht]]. by constructor. }
  change (sibAttempts (s <| sibSeen := {[mID c]} ∪ sibSeen s |>)) with (sibAttempts s). rewrite (proj2 (Z.eqb_neq _ _) Hx).
  unfold tbind. change (s <| sibSeen := _ |> <| sibAttempts := _ |>) with (attempt (mID c) s).
  destruct (readSibling reader subject (mID c) (attempt (mID c) s) w) as [[s1|code|] w1] eqn:Er; [|done..]. intros H.
  destruct (readSibling_ok _ _ _ _ _ _ _ Hok Hne E2 Er) as (r & Hr & Hok1 & Ha1 & Hpre).
  destruct (IH _ _ _ Hok1 ltac:(lia) H) as (l' & H1 & H2 & H3 & H4). exists ((mID c, r) :: l'). split; [by econstructor|].
  split; [by rewrite <- app_assoc in H2|]. split; [done|]. by etransitivity.
Qed.
End Siblings.

(** ** The nodes *)

Lemma clampLimit_spec value fallback ceiling limit : 1 <= fallback <= ceiling -> clampLimit value fallback ceiling = Some limit -> 1 <= limit <= ceiling.
Proof. intros Hf. unfold clampLimit. destruct value as [v|]; [|intros [= <-]; lia]. repeat split_goal; intros [= <-]; bool_prop; lia. Qed.

Definition nodeResult (s : siblings) (node : ThreadNode) (m : MessageMetadata) : threadNodeResult :=
  let h := tmHeaders (nMessage node) in
  mkNodeResult (nKey node) (mMailbox m) (mUIDValidity m) (mUID m) (nMessageID node) (nParentKey node) (Z.of_nat (nDepth node)) (hSubject h) (hFrom h)
    (hDate h) (default (mkNodeTruncation false false false) (sibTruncations s !! nKey node)).

(** Every key resolves when every key has an identity. *)
Lemma threadNodes_total s nodes results flag : (forall node, node ∈ nodes -> is_Some (sibIdentities s !! nKey node)) ->
  exists added, threadNodes s nodes results flag = Some (results ++ added, flag || existsb (fun r => node_truncation_any (tnTruncation r)) added)
  /\ Forall2 (fun node r => exists m, sibIdentities s !! nKey node = Some m /\ r = nodeResult s node m) nodes added.
Proof.
  revert results flag. induction nodes as [|node nodes IH]; intros results flag Hs; cbn [threadNodes].
  { exists []. split; [|constructor]. by rewrite app_nil_r, orb_false_r. }
  destruct (Hs node) as [m Hm]; [by left|]. rewrite Hm. cbv zeta.
  destruct (IH (results ++ [nodeResult s node m]) (flag || node_truncation_any (tnTruncation (nodeResult s node m)))) as (added & E & Ha); [intros; apply Hs; by right|].
  exists (nodeResult s node m :: added). split; [|by constructor; [exists m|]]. etransitivity; [exact E|]. cbn [existsb]. by rewrite <- app_assoc, orb_assoc.
Qed.

(** The remembered keys play no part. *)
Lemma threadNodes_seen s seen nodes results flag : threadNodes (s <| sibSeen := seen |>) nodes results flag = threadNodes s nodes results flag.
Proof. revert results flag. induction nodes as [|node nodes IH]; intros results flag; cbn; [done|]. destruct (_ !! _); [apply IH|done]. Qed.

Lemma BuildThread_length messages options :
  length (Nodes (BuildThread messages options)) = (Z.to_nat (lMaxThreadMessages (normalizedLimits options)) `min` length messages)%nat.
Proof.
  destruct (BuildThread_stages messages options) as (ordered & ps & missing & depths & -> & H & _). cbv zeta in H. rewrite length_imap.
  apply (f_equal length) in H. rewrite !length_map in H. rewrite H. unfold earliestThreadMessages. pose proof (thread_limits options) as [Hm _]. cbv zeta in Hm.
  rewrite length_map, earliest_sorted by lia. rewrite length_take, merge_sort_Permutation. unfold indexed. by rewrite length_imap.
Qed.

(** Within the limit no message is lost. *)
Lemma BuildThread_all messages options : NoDup (map tKey messages) -> (forall m, m ∈ messages -> tKey m <> []) ->
  (length messages <= Z.to_nat (lMaxThreadMessages (normalizedLimits options)))%nat ->
  NoDup (map nKey (Nodes (BuildThread messages options))) /\ map nKey (Nodes (BuildThread messages options)) ≡ₚ map tKey messages.
Proof.
  intros Hn Hne Hl. pose proof (BuildThread_keyed messages options Hn Hne) as Hk. pose proof (BuildThread_length messages options) as Hlen.
  assert (Hnk : NoDup (map nKey (Nodes (BuildThread messages options)))).
  { destruct (BuildThread_stages messages options) as (ordered & ps & missing & depths & -> & _ & Ho & _). by rewrite (map_imap _ _ tKey). }
  split; [done|]. apply submseteq_length_Permutation; [|rewrite !length_map, Hlen; lia]. apply NoDup_submseteq; [done|].
  intros k (node & -> & Hin)%list_elem_of_fmap. destruct (Hk node Hin) as [Hm ->]. by apply list_elem_of_fmap_2.
Qed.

(** ** The tool *)

Lemma tbind_done {W A B} (m : T W A) (k : A -> T W B) w r w' : tbind m k w = (Done r, w') -> exists a w1, m w = (Done a, w1) /\ k a w1 = (Done r, w').
Proof. unfold tbind. destruct (m w) as [[a|c|] w1]; [eauto|done..]. Qed.
Lemma require_done {W A} (r : option A) code (w : W) a w' : require r code w = (Done a, w') -> r = Some a /\ w' = w.
Proof. destruct r; [by intros [= <- <-]|done]. Qed.
Lemma ensure_done {W} ok code (w : W) a w' : ensure ok code w = (Done a, w') -> ok = true /\ w' = w.
Proof. destruct ok; [by intros [= <- <-]|done]. Qed.
Lemma called_done {W A} (f : W -> reply A * W) w r w' : called f w = (Done r, w') -> f w = (Answer r, w').
Proof. unfold called. destruct (f w) as [[x|] w1]; [by intros [= <- <-]|done]. Qed.
Lemma asked_done {W A} (f : W -> reply A * W) w a w' : asked f w = (Done a, w') -> f w = (Answer (inl a), w').
Proof. unfold asked. intros (r & w1 & Hc%called_done & H)%tbind_done. destruct r; [by injection H as <- <-|done]. Qed.

Section Tool.
Context `{L : GoLibrary} {W : Type}.

(** A node shows the headers and the identity of one of the reads. *)
Definition node_read (reads : list (bytes * reply MessageHeaders)) (n : threadNodeResult) : Prop :=
  exists h, (tnKey n, Answer (inl h)) ∈ reads /\ validReadIdentity (mhMetadata h) = true
    /\ (tnMailbox n, tnUIDValidity n, tnUID n) = (mMailbox (mhMetadata h), mUIDValidity (mhMetadata h), mUID (mhMetadata h))
    /\ (tnSubject n, tnFrom n, tnDate n) = (hSubject (mhHeaders h), hFrom (mhHeaders h), hDate (mhHeaders h))
    /\ tnTruncation n = newThreadNodeTruncation (mhTruncation h).

(** The thread of what was gathered. *)
Lemma gathered_nodes reads s limit flag : siblings_ok reads s -> zlen reads <= limit -> 1 <= limit <= maxThreadMessages ->
  exists nodes, threadNodes s (Nodes (BuildThread (sibMembers s) (threadLimits limit))) [] flag
      = Some (nodes, flag || existsb (fun r => node_truncation_any (tnTruncation r)) nodes)
    /\ Forall (node_read reads) nodes /\ NoDup (map tnKey nodes) /\ map tnKey nodes ≡ₚ map tKey (sibMembers s).
Proof.
  intros [Ha Hs Ho [Hk1 Hk2] Hm [Hu Ht]] Hreads Hl.
  assert (Hlim : lMaxThreadMessages (normalizedLimits (threadLimits limit)) = limit).
  { cbn. unfold boundedLimit, maxThreadMessages in *. repeat split_goal; bool_prop; lia. }
  assert (Hne : forall m, m ∈ sibMembers s -> tKey m <> []) by (intros m Hin; by apply Hk2).
  pose proof (zlen_nonneg (sibUnavailable s)).
  destruct (BuildThread_all (sibMembers s) (threadLimits limit) Hk1 Hne) as [Hn Hp]; [rewrite Hlim; unfold zlen in *; lia|].
  pose proof (BuildThread_keyed (sibMembers s) (threadLimits limit) Hk1 Hne) as Hkeyed. rewrite Forall_forall in Hm.
  set (built := Nodes (BuildThread (sibMembers s) (threadLimits limit))) in *.
  destruct (threadNodes_total s built [] flag) as (added & E & Hadd).
  { intros node Hin. destruct (Hkeyed node Hin) as [Hmem ->]. destruct (Hm _ Hmem) as (h & _ & _ & _ & -> & _). eauto. }
  exists added. split; [exact E|]. assert (Hkeys : map tnKey added = map nKey built).
  { clear -Hadd. induction Hadd as [|node r l l' (m & _ & ->) _ IH]; [done|]. cbn. by rewrite IH. }
  rewrite Hkeys. split; [|done]. apply Forall_forall. intros r Hr. apply list_elem_of_lookup in Hr as [i Hi].
  destruct (Forall2_lookup_r _ _ _ _ _ Hadd Hi) as (node & Hnode & m & Hid & ->). apply list_elem_of_lookup_2 in Hnode.
  destruct (Hkeyed node Hnode) as [Hmem Hkey]. destruct (Hm _ Hmem) as (h & H1 & H2 & H3 & H4 & H5). exists h. cbn [tnKey nodeResult]. rewrite Hkey.
  rewrite Hkey, H4 in Hid. injection Hid as <-. split; [done|]. split; [done|]. split; [done|]. split; [|cbn; by rewrite Hkey, H5].
  cbn. by rewrite H3.
Qed.

(** The state the target's read starts with. *)
Definition target_read (id : bytes) (target : MessageHeaders) : siblings :=
  mkSiblings [mkThreadMessage id (mhHeaders target) 0] {[id := mhMetadata target]} {[id := newThreadNodeTruncation (mhTruncation target)]} [] false 0 ∅.

Lemma target_ok id target seen flag : id <> [] -> validReadIdentity (mhMetadata target) = true -> id ∈ seen ->
  siblings_ok [(id, Answer (inl target))] ((target_read id target) <| sibTruncated := flag |> <| sibSeen := seen |>).
Proof.
  intros Hne Hv Hin. constructor; cbn; try done.
  - intros key ->%list_elem_of_singleton. done.
  - apply NoDup_singleton.
  - split; [apply NoDup_singleton|]. intros m ->%list_elem_of_singleton. cbn. split; [done|]. by left.
  - constructor; [|constructor]. exists target. cbn. rewrite !lookup_singleton_eq. split; [by left|done].
Qed.

(** What the sibling search gathers, up to the keys it remembers. *)
Lemma appendThreadSiblings_ok (options : Options W) mail reader id target limit w1 s w' :
  optMail options = Some mail -> id <> [] -> validReadIdentity (mhMetadata target) = true -> 1 <= limit ->
  appendThreadSiblings reader options (target_read id target) (mhMetadata target) limit w1 = (Done s, w') ->
  exists w2 siblings, ((w2 = w1 /\ siblings = []) \/ exists query page, mailSearchMailPage mail query w1 = (Answer (inl page), w2))
    /\ header_reads reader siblings w2 w' /\ sibAttempts s <= limit - 1 /\ id ∈ map tKey (sibMembers s)
    /\ exists seen, siblings_ok ((id, Answer (inl target)) :: siblings) (s <| sibSeen := seen |>).
Proof.
  intros Hm Hne Hv Hl. unfold appendThreadSiblings. cbv zeta. destruct (_ || _).
  - intros [= <- <-]. exists w1, []. split; [by left|]. split; [constructor|]. split; [cbn; lia|]. split; [by left|]. exists {[id]}.
    apply (target_ok id target {[id]} false); [done..|set_solver].
  - rewrite Hm. intros (mail' & w0 & E & H)%tbind_done. injection E as <- <-. apply tbind_done in H as (page & w2 & Hp%asked_done & H).
    apply (siblingLoop_ok reader _ _ _ [(id, Answer (inl target))]) in H as (siblings & H1 & H2 & H3 & H4).
    + exists w2, siblings. split; [right; eauto|]. split; [done|]. split; [done|]. split; [destruct H4 as [k ->]; by left|]. exists (sibSeen s). by destruct s.
    + apply target_ok; [done..|]. cbn. set_solver.
    + cbn. unfold zlen. cbn. lia.
Qed.

End Tool.
