(* ===== verification/ToolAdapter.v ===== *)
(** * The adapter behind the tool server

    [*bridge.Adapter] satisfies [Mail], the optional readers and [Triage]: the
    operations of the adapter's model as instances of those interfaces, and
    what the tools therefore cannot do to a mailbox. *)
From Stdlib Require Import ZArith Lia Strings.Byte.
From stdpp Require Import base list gmap strings.
From S2P Require Import Prelude GoStrings Errors Config Session Adapter MessageID Search AdapterSpec Triage AttachmentProjection StructureSession StructureSessionSpec.
From S2P Require Import Mime ToolResults ToolServer ToolServerSpec.

Section Adapter.
Context {W S C : Type} `{B : Backend W S C}.
Variable config : ValidatedConfig.
Variable mac : bytes -> bytes.
Variable unmarshalPayload : bytes -> option messageIDPayload.
Variable ParseMediaType : bytes -> option (bytes * gmap bytes bytes).
(** One dedicated structure read. *)
Variable dedicated : C -> structureRequest -> W -> (selectedStructure + goerror) * W.
(** The context of the call. *)
Variable c : C.

(** An operation of the adapter; it answers and does not panic. *)
Definition operation {A} (m : M W S (A + goerror)) : st W S -> reply A * st W S := fun s => let (r, s') := m s in (Answer r, s').

Let decode := decodeMessageID mac unmarshalPayload.

Definition adapterMail : Mail (st W S) := {|
  mailListFolders := operation (ListFolders config c);
  mailStatus mailbox := operation (Status config c mailbox);
  mailSearchMailPage query := operation (SearchMailPage config mac c query);
  mailGetMessageMetadata identifier := operation (GetMessageMetadata config decode c identifier);
  mailGetMessageBody identifier := operation (GetMessageBody config decode c identifier);
  messageHeaderReader := Some (fun identifier => operation (GetMessageHeaders config decode c identifier));
  messageAttachmentStructureReader := Some (fun identifier => operation (GetMessageAttachmentStructure config decode ParseMediaType dedicated c identifier)) |}.

Definition adapterTriage : TriageSurface (st W S) := {|
  surfaceSetSeen mailbox uidValidity uids seen := operation (SetSeen config c mailbox uidValidity uids seen);
  surfaceMove mailbox uidValidity uids destination := operation (Move config c mailbox uidValidity uids destination);
  surfaceArchive mailbox uidValidity uids := operation (Archive config c mailbox uidValidity uids);
  surfaceTrash mailbox uidValidity uids := operation (Trash config c mailbox uidValidity uids) |}.

(** Only events that write nothing are added to the log. *)
Definition quiet_log (s s' : st W S) : Prop := exists l, log s' = log s ++ l /\ Forall (fun he => not_write (snd he)) l.

#[local] Instance quiet_preorder : PreOrder quiet_log.
Proof.
  split; [intros s; exists []; by rewrite app_nil_r|].
  intros s1 s2 s3 (l1 & E1 & H1) (l2 & E2 & H2). exists (l1 ++ l2). split; [by rewrite E2, E1, app_assoc|by apply Forall_app].
Qed.

Lemma operation_quiet {A} (m : M W S (A + goerror)) : (forall s r s', m s = (r, s') -> read_operation config s s') -> within quiet_log (operation m).
Proof.
  intros Hm s r s'. unfold operation. destruct (m s) as [r' s1] eqn:E. intros [= _ <-]. apply Hm, read_operations_quiet in E as (l & E & Hl).
  exists (map (pair true) l). split; [done|]. by apply Forall_fmap.
Qed.

Lemma adapterMail_quiet : mail_within quiet_log adapterMail.
Proof.
  constructor; cbn.
  - apply operation_quiet. intros s r s' H. by eapply reads_folders.
  - intros mailbox. apply operation_quiet. intros s r s' H. by eapply reads_status.
  - intros query. apply operation_quiet. intros s r s' H. by eapply reads_search.
  - intros identifier. apply operation_quiet. intros s r s' H. by eapply reads_metadata.
  - intros identifier. apply operation_quiet. intros s r s' H. by eapply reads_body.
  - intros reader identifier [= <-]. apply operation_quiet. intros s r s' H. by eapply reads_headers.
  - intros reader identifier [= <-] s r s'. unfold operation. destruct (GetMessageAttachmentStructure _ _ _ _ _ _ s) as [r' s1] eqn:E. intros [= _ <-].
    apply attachment_structure_isolated in E as (_ & _ & Hl & _). exists []. by rewrite app_nil_r.
Qed.

#[export] Instance adapter_clock `{K : Clock W} : Clock (st W S) := outside now.

End Adapter.
