(* ===== verification/ToolSearchSpec.v ===== *)
(** * The search tools

    [search_mail] and [select_digest_candidates] list the first messages of
    one page as they came, each with a complete identity, and never guess. *)
From Stdlib Require Import ZArith Lia Strings.Byte.
From stdpp Require Import base list gmap strings.
From S2P Require Import Prelude GoStrings GoText GoJson Errors Config Session Search Mime GoMarshal ToolResults ToolServer ToolResultsSpec ToolTriageSpec ToolThreadSpec.

Section Search.
Context `{L : GoLibrary}.

(** A row shows a sender within its bound and no date but a canonical one. *)
Definition row_bounded (row : messageResult) : Prop :=
  (length (mrFrom row) <= maxSenderResultBytes)%nat /\ valid_string (mrFrom row) = true
  /\ (mrDate row <> [] -> mrDateSource row = DateSourceHeader /\ validHeaderDate (mrDate row) = true)
  /\ (mrMetadataTruncated row = true -> mrFrom row <> []).

Lemma newMessageResult_bounded item : row_bounded (newMessageResult item).
Proof.
  unfold newMessageResult, boundedSenderResult. destruct (valid_string (mFrom item)) eqn:Ev; cbn [negb].
  - pose proof (cutRunes_spec (mFrom item) maxSenderResultBytes) as (_ & Hl & _ & Hv). destruct (cutRunes _ _) as [sender capped]. cbn in *.
    unfold row_bounded. cbn. split; [done|]. split; [auto|]. split.
    + destruct (mDateSource item); [done|]. destruct (validHeaderDate (mDate item)) eqn:E; done.
    + intros H. apply andb_prop in H as [H _]. intros ->. done.
  - unfold row_bounded. cbn. split; [lia|]. split; [done|]. split; [|done].
    destruct (mDateSource item); [done|]. destruct (validHeaderDate (mDate item)) eqn:E; done.
Qed.

Lemma flatLoop_spec messages limit results rows flag : zlen results <= limit -> flatLoop messages limit results = inl (rows, flag) ->
  exists k, rows = results ++ map newMessageResult (take k messages) /\ Forall (fun m => validReadIdentity m = true) (take k messages)
    /\ (k <= length messages)%nat /\ zlen rows <= limit /\ flag = (k <? length messages)%nat /\ (flag = true -> zlen rows = limit).
Proof.
  revert results. induction messages as [|m messages IH]; intros results Hl; cbn [flatLoop].
  { intros [= <- <-]. exists O. by rewrite app_nil_r. }
  destruct (Z.eqb_spec (zlen results) limit) as [E|E].
  - intros [= <- <-]. exists O. cbn. rewrite app_nil_r. split_and!; try done; try constructor; lia.
  - destruct (validReadIdentity m) eqn:Ev; [|done]. cbn [negb]. intros H. apply IH in H as (k & -> & Hv & Hk & Hr & Hf & Ht); [|rewrite zlen_snoc; lia].
    exists (S k). cbn [take map firstn length]. rewrite <- app_assoc in *. cbn [app] in *. split_and!; try done; [by constructor|lia].
Qed.

Context `{N : Normalizer} {W : Type} `{K : Clock W}.

(** A result that lists messages, with its rows and its mark. *)
Inductive listing : toolResult -> list messageResult -> bool -> Prop :=
| listing_search r : listing (SearchResult r) (smResults r) (smTruncated r)
| listing_digest r : listing (DigestResult r) (sdCandidates r) (sdTruncated r).

Definition query_bounded (q : SearchQuery) : Prop :=
  qMailbox q <> [] /\ zlen (qMailbox q) <= maxMailboxArgumentBytes /\ (length (qSender q) <= ToolServer.maxSearchTermBytes)%nat
  /\ (length (qSubject q) <= ToolServer.maxSearchTermBytes)%nat.

(** What one listing call did. *)
Definition listed_from (options : Options W) (result : toolResult) (w' : W) : Prop :=
  exists mail query limit page w1 rows flag,
    optMail options = Some mail /\ query_bounded query /\ 1 <= limit <= maxSearchLimit
    /\ mailSearchMailPage mail query w1 = (Answer (inl page), w') /\ listing result rows flag
    /\ rows = map newMessageResult (take (length rows) (Messages page)) /\ zlen rows <= limit
    /\ Forall (fun m => validReadIdentity m = true) (take (length rows) (Messages page)) /\ Forall row_bounded rows
    /\ flag = Truncated page || (length rows <? length (Messages page))%nat.

Lemma searchPage_listed (options : Options W) mail query limit w page rows limited w' result :
  optMail options = Some mail -> query_bounded query -> 1 <= limit <= maxSearchLimit ->
  searchPage mail query limit w = (Done (page, rows, limited), w') -> listing result rows (Truncated page || limited) -> listed_from options result w'.
Proof.
  intros Hm Hq Hl H Hr. unfold searchPage in H. apply tbind_done in H as (page' & w1 & Hp%asked_done & H).
  destruct (flatMessageResults (Messages page') limit) as [[rows' limited']|code] eqn:E; [|done]. injection H as -> -> -> ->.
  apply flatLoop_spec in E as (k & Erows & Hv & Hk & Hlen & -> & _); [|unfold zlen; cbn; lia]. cbn [app] in Erows.
  assert (El : length rows = k) by (rewrite Erows, length_map, length_take; lia).
  exists mail, query, limit, page, w, rows, (Truncated page || (k <? length (Messages page))%nat). rewrite El. split_and!; try done; try lia.
  rewrite Erows. apply Forall_fmap, Forall_true. intros m. apply newMessageResult_bounded.
Qed.

End Search.
