(* ===== verification/ToolRuns.v ===== *)
(** * Concrete runs of the tool server

    The tools over a small mailbox and over the adapter's model, at inputs
    where the hypotheses of their properties hold. *)
From Stdlib Require Import ZArith Lia Strings.Byte.
From stdpp Require Import base list gmap strings.
From S2P Require Import Prelude GoStrings GoText GoJson Errors Config Session Adapter Search AdapterRuns Threads StructureSession Mime.
From S2P Require Import GoMarshal ToolResults ToolServer ToolServerSpec ToolThreadSpec ToolSearchSpec ToolAdapter.

#[local] Existing Instances sample_server.

#[local] Instance ascii_library : GoLibrary := {|
  EqualFold := beqs; Time := Z; ParseRFC3339 _ := None; FormatRFC3339 _ := []; inUTC _ := true; instant t := t |}.
#[local] Instance empty_normalizer : Normalizer := fun _ => inr [].
#[local] Instance stopped_clock : Clock nat := fun w => (0, w).

(** A mailbox of a message and its reply; the third is stale. *)
Definition plan_metadata (id : bytes) (uid : Z) : MessageMetadata :=
  mkMetadata id $"INBOX" 5 uid $"Re: plan" 512 $"Ann" [] DateSourceUnknown ReadStateRead false uid.
Definition plan_headers (id : bytes) (uid : Z) : MessageHeaders :=
  mkHeaders (plan_metadata id uid) (mkCanonicalHeaders [] $"Ann" [] $"plan" id [] []) (mkTruncation false false false false false false false false false false).
Definition plan_reader (id : bytes) (w : nat) : reply MessageHeaders * nat :=
  (if beqs id $"c" then Answer (inr (errorCode CodeStaleMessageID)) else Answer (inl (plan_headers id (if beqs id $"a" then 7 else 8))), Datatypes.S w).
Definition plan_mail : Mail nat := {|
  mailListFolders w := (Answer (inl [mkFolder $"INBOX" $"/"]), w);
  mailStatus _ w := (Answer (inl (mkStatus 3 9 5 0)), w);
  mailSearchMailPage _ w := (Answer (inl (mkPage [plan_metadata $"c" 9; plan_metadata $"b" 8; plan_metadata $"a" 7] false)), Datatypes.S w);
  mailGetMessageMetadata id w := (Answer (inl (plan_metadata id 7)), w);
  mailGetMessageBody _ w := (Answer (inl []), w);
  messageHeaderReader := Some plan_reader;
  messageAttachmentStructureReader := None |}.
Definition plan_options : Options nat := mkOptions nat (Some plan_mail) None true.
Definition thread_arguments : bytes := marshal (JObject [($"messageId", JText $"a")]).
Definition thread_run := runGetThread plan_options thread_arguments 0%nat.
Definition thread_answer : toolResult := match fst thread_run with Done r => r | _ => TriageRows (mkTriage []) end.

Lemma thread_run_done : thread_run = (Done thread_answer, 4%nat).
Proof. vm_compute. reflexivity. Qed.


Definition search_tool {W} `{K : Clock W} : toolDefinition (W := W) := mkDefinition $"search_mail" true false false runSearchMail.
Definition search_arguments : bytes := marshal (JObject [($"mailbox", JText $"INBOX"); ($"limit", JInt 2)]).
Definition search_answer : toolResult := match fst (runSearchMail plan_options search_arguments 0%nat) with Done r => r | _ => TriageRows (mkTriage []) end.


Definition folders_tool {W} `{K : Clock W} : toolDefinition (W := W) := mkDefinition $"list_folders" true false false runListFolders.

Lemma tool_call_closed_witness :
  folders_tool ∈ registerTools plan_options
  /\ exists r lines w', makeHandler folders_tool plan_options [] 0%nat = ((r, lines), w') /\ answered true $"list_folders" r lines.
Proof.
  assert (Hd : folders_tool ∈ registerTools plan_options) by left. split; [exact Hd|].
  destruct (tool_call_closed plan_options folders_tool [] 0%nat Hd) as (r & lines & w' & H & Ha & _). exists r, lines, w'. split; [exact H|exact Ha].
Defined.

(** The same tool over the adapter's model. *)
Definition no_payload (_ : bytes) : option messageIDPayload := None.
Definition no_media (_ : bytes) : option (bytes * gmap bytes bytes) := None.
Definition no_structure (_ : unit) (_ : structureRequest) (w : nat) : (selectedStructure + goerror) * nat := (inr (errorCode CodeUnsupported), w).
Definition adapter_options : Options (st nat nat) :=
  mkOptions (st nat nat) (Some (adapterMail adapter_config sample_mac no_payload no_media no_structure tt)) None true.
Definition adapter_call := makeHandler folders_tool adapter_options [] start.

