(* ===== verification/Monitor.v ===== *)
(** * Logged operations and monitors

    Operations on an abstract world that record every call they make, and
    monitors: automata that read such a log and admit or refuse it.  The
    tracking judgement composes along the operations, like a triple whose
    states are those of the monitor. *)
From Stdlib Require Import ZArith Lia.
From stdpp Require Import base list gmap.
From S2P Require Import Prelude.

(** ** Logged operations *)

Definition logged (W E A : Type) : Type := W * list E -> A * (W * list E).
Definition lret {W E A} (a : A) : logged W E A := fun s => (a, s).
Definition lbind {W E A B} (m : logged W E A) (k : A -> logged W E B) : logged W E B := fun s => let (a, s) := m s in k a s.
(** A call and its record. *)
Definition lcall {W E A} (f : W -> A * W) (e : A -> E) : logged W E A := fun '(w, l) => let (a, w) := f w in (a, (w, l ++ [e a])).

Notation "'let*' x := m 'in' k" := (lbind m (fun x => k)) (at level 10, x pattern, m at level 100, k at level 200) : go_scope.

(** ** Monitors *)

Section Monitor.
Context {S E : Type}.
Variable step : S -> E -> option S.

Fixpoint mrun (m : S) (events : list E) : option S :=
  match events with [] => Some m | e :: events => match step m e with Some m => mrun m events | None => None end end.

Lemma mrun_app m l k : mrun m (l ++ k) = match mrun m l with Some m => mrun m k | None => None end.
Proof. revert m. induction l as [|e l IH]; intros m; cbn; [done|]. by destruct (step m e). Qed.

Lemma mrun_before m0 k1 e k2 m : mrun m0 (k1 ++ e :: k2) = Some m -> exists m1 m2, mrun m0 k1 = Some m1 /\ step m1 e = Some m2.
Proof.
  rewrite mrun_app. destruct (mrun m0 k1) as [m1|] eqn:E1; [|done]. cbn. destruct (step m1 e) as [m2|] eqn:E2; [|done]. intros _. by exists m1, m2.
Qed.

(** An invariant of a log and the state behind it. *)
Lemma mrun_invariant (I : list E -> S -> Prop) m0 k m : I [] m0 -> (forall k m e m', I k m -> step m e = Some m' -> I (k ++ [e]) m') ->
  mrun m0 k = Some m -> I k m.
Proof.
  intros H0 Hstep. revert m. induction k as [|e k IH] using rev_ind; intros m; [by intros [= <-]|].
  rewrite mrun_app. destruct (mrun m0 k) as [m1|] eqn:E1; [|done]. cbn. destruct (step m1 e) as [m2|] eqn:E2; [|done]. intros [= <-].
  eapply Hstep; [by apply IH|done].
Qed.

(** From the state [m] the calls of [f] are admitted, and [post] holds of its
    answer and the state behind them. *)
Definition tracks {W A} (m : S) (f : logged W E A) (post : A -> S -> Prop) : Prop := forall w l,
  exists k m', snd (snd (f (w, l))) = l ++ k /\ mrun m k = Some m' /\ post (fst (f (w, l))) m'.

Lemma tracks_ret {W A} m (a : A) (post : A -> S -> Prop) : post a m -> tracks m (lret (W := W) a) post.
Proof. intros H w l. exists [], m. by rewrite app_nil_r. Qed.

Lemma tracks_bind {W A B} m (f : logged W E A) (g : A -> logged W E B) mid post :
  tracks m f mid -> (forall a m1, mid a m1 -> tracks m1 (g a) post) -> tracks m (lbind f g) post.
Proof.
  intros Hf Hg w l. destruct (Hf w l) as (k1 & m1 & E1 & R1 & P1). unfold lbind. destruct (f (w, l)) as [a [w1 l1]]; cbn [fst snd] in *. subst l1.
  destruct (Hg a m1 P1 w1 (l ++ k1)) as (k2 & m2 & E2 & R2 & P2). exists (k1 ++ k2), m2. rewrite app_assoc. split; [done|]. by rewrite mrun_app, R1.
Qed.

Lemma tracks_impl {W A} m (f : logged W E A) (post post' : A -> S -> Prop) : tracks m f post -> (forall a m', post a m' -> post' a m') -> tracks m f post'.
Proof. intros H Hi w l. destruct (H w l) as (k & m' & ? & ? & ?). exists k, m'. auto. Qed.

Lemma tracks_call {W A} m (f : W -> A * W) (e : A -> E) (next : A -> S) : (forall r, step m (e r) = Some (next r)) ->
  tracks m (lcall f e) (fun r m' => m' = next r).
Proof. intros H w l. unfold lcall. destruct (f w) as [a w1]. exists [e a], (next a). cbn. by rewrite H. Qed.
End Monitor.

(** * Step relations that come to rest

    Lemmas on step relations over a finite map of processes: the work that is
    left as a sum over the map, and how a relation whose every step lessens it
    comes to rest. *)

(** From a state of the invariant, where a state that is not at rest can step
    and each step lessens a measure, a state at rest can be reached. *)
Lemma star_settles {A} (R : A -> A -> Prop) (I rest : A -> Prop) (measure : A -> nat) :
  (forall s, I s -> rest s \/ exists s', R s s') -> (forall s s', I s -> R s s' -> I s' /\ (measure s' < measure s)%nat) ->
  forall s, I s -> exists s', star R s s' /\ rest s'.
Proof.
  intros Hmove Hless s. remember (measure s) as n eqn:En. revert s En. induction n as [n IH] using lt_wf_ind. intros s -> Hs.
  destruct (Hmove s Hs) as [H|(s1 & H1)]; [exists s; split; [constructor|done]|]. destruct (Hless _ _ Hs H1) as [Hs1 Hl].
  destruct (IH (measure s1) Hl s1 eq_refl Hs1) as (s' & Hr & Hd). exists s'. split; [|done]. eapply star_trans; [|exact Hr]. econstructor; [constructor|done].
Qed.

Section Total.
Context {K P : Type} `{Countable K}.
Variable weight : P -> nat.

(** The weights of the processes. *)
Definition total (m : gmap K P) : nat := map_fold (fun _ p n => (weight p + n)%nat) O m.

Lemma total_new m k p : m !! k = None -> total (<[k := p]> m) = (weight p + total m)%nat.
Proof. intros Hk. unfold total. by rewrite map_fold_insert_L by (try lia; done). Qed.

Lemma total_insert m k p p' : m !! k = Some p -> (total (<[k := p']> m) + weight p = total m + weight p')%nat.
Proof.
  intros Hk. rewrite <- (insert_delete_id m k p Hk) at 2. rewrite <- insert_delete_eq. rewrite !total_new by apply lookup_delete_eq. lia.
Qed.
End Total.
