(* ===== verification/DriveTypes.v ===== *)
(** * The objects of the Drive command line

    [drivecli/types.go]: the frozen objects the command prints, how they are
    read from its output and how the tools write them.  [omitempty] has no
    effect on a field that is a struct: it is always written. *)
From Stdlib Require Import ZArith Lia Strings.Byte.
From stdpp Require Import base list strings.
From S2P Require Import Prelude GoStrings GoText GoJson MessageID GoMarshal.

(** ** The objects *)

Record RootSection := mkSection { rsPath : bytes }.
Record InvalidNameError := mkNameError { ineName : bytes; ineError : bytes }.
Record NameResult := mkName { nrOK : bool; nrValue : bytes; nrError : InvalidNameError }.
Record UnverifiedAuthorError := mkAuthorError { uaClaimedAuthor : option bytes; uaError : bytes }.
Record AuthorResult := mkAuthor { auOK : bool; auValue : option bytes; auError : UnverifiedAuthorError }.
Record Device := mkDevice {
  dvUID : bytes; dvType : bytes; dvName : NameResult; dvRootFolderUID : bytes; dvCreationTime : bytes; dvLastSyncTime : bytes; dvShareID : bytes }.
Record OwnedBy := mkOwned { obEmail : bytes; obOrganization : bytes }.
Record Membership := mkMembership { mbRole : bytes; mbInviteTime : bytes; mbSharedBy : AuthorResult }.
Record ClaimedDigests := mkDigests { cdSHA1 : bytes; cdSHA1Verified : bool }.
Record Revision := mkRevision {
  rvUID : bytes; rvState : bytes; rvCreationTime : bytes; rvContentAuthor : AuthorResult; rvStorageSize : Z; rvIsImported : bool;
  rvClaimedSize : option Z; rvClaimedModificationTime : bytes; rvClaimedDigests : option ClaimedDigests; rvClaimedAdditionalMetadata : bytes }.
Record FolderInfo := mkFolderInfo { fiClaimedModificationTime : bytes; fiIsImported : bool }.
Record NodeEntity := mkNode {
  neUID : bytes; neParentUID : bytes; neName : NameResult; neKeyAuthor : AuthorResult; neNameAuthor : AuthorResult; neDirectRole : bytes;
  neMembership : option Membership; neOwnedBy : OwnedBy; neType : bytes; neMediaType : bytes; neIsShared : bool; neIsSharedByURL : bool;
  neDeprecatedShareID : bytes; neCreationTime : bytes; neModificationTime : bytes; neTrashTime : bytes; neTotalStorageSize : option Z;
  neActiveRevision : option Revision; neFolder : option FolderInfo; neTreeEventScopeID : bytes; neErrors : bytes }.
(** Exactly one of the lists is read; none is told from an empty one. *)
Record ListResult := mkList { lrSections : list RootSection; lrDevices : list Device; lrNodes : list NodeEntity }.
Record Member := mkMember {
  meUID : bytes; meInvitationTime : bytes; meAddedByEmail : AuthorResult; meInviteeEmail : bytes; meRole : bytes; meState : bytes }.
Record URLAccess := mkURLAccess {
  uaUID : bytes; uaCreationTime : bytes; uaRole : bytes; uaURL : bytes; uaCustomPassword : bytes; uaExpirationTime : bytes;
  uaNumberOfInitializedDownloads : Z }.
Record ShareResult := mkShare {
  shProtonInvitations : list Member; shNonProtonInvitations : list Member; shMembers : list Member; shURLAccess : option URLAccess;
  shEditorsCanShare : bool }.
Record SharingStatus := mkStatus { ssShared : bool; ssInfo : option ShareResult }.
Record DownloadFailure := mkFailure { dfName : bytes; dfNodeUID : bytes; dfError : bytes }.
Record DownloadSummary := mkSummary {
  dsTransferredItems : Z; dsTransferredBytes : Z; dsSkippedItems : Z; dsFailedItems : Z; dsFailures : list DownloadFailure }.

#[export] Instance eta_section : Eta RootSection := fun r => mkSection (rsPath r).
#[export] Instance eta_name_error : Eta InvalidNameError := fun r => mkNameError (ineName r) (ineError r).
#[export] Instance eta_name : Eta NameResult := fun r => mkName (nrOK r) (nrValue r) (nrError r).
#[export] Instance eta_author_error : Eta UnverifiedAuthorError := fun r => mkAuthorError (uaClaimedAuthor r) (uaError r).
#[export] Instance eta_author : Eta AuthorResult := fun r => mkAuthor (auOK r) (auValue r) (auError r).
#[export] Instance eta_device : Eta Device := fun r =>
  mkDevice (dvUID r) (dvType r) (dvName r) (dvRootFolderUID r) (dvCreationTime r) (dvLastSyncTime r) (dvShareID r).
#[export] Instance eta_owned : Eta OwnedBy := fun r => mkOwned (obEmail r) (obOrganization r).
#[export] Instance eta_membership : Eta Membership := fun r => mkMembership (mbRole r) (mbInviteTime r) (mbSharedBy r).
#[export] Instance eta_digests : Eta ClaimedDigests := fun r => mkDigests (cdSHA1 r) (cdSHA1Verified r).
#[export] Instance eta_revision : Eta Revision := fun r =>
  mkRevision (rvUID r) (rvState r) (rvCreationTime r) (rvContentAuthor r) (rvStorageSize r) (rvIsImported r) (rvClaimedSize r)
    (rvClaimedModificationTime r) (rvClaimedDigests r) (rvClaimedAdditionalMetadata r).
#[export] Instance eta_folder_info : Eta FolderInfo := fun r => mkFolderInfo (fiClaimedModificationTime r) (fiIsImported r).
#[export] Instance eta_node : Eta NodeEntity := fun r =>
  mkNode (neUID r) (neParentUID r) (neName r) (neKeyAuthor r) (neNameAuthor r) (neDirectRole r) (neMembership r) (neOwnedBy r) (neType r)
    (neMediaType r) (neIsShared r) (neIsSharedByURL r) (neDeprecatedShareID r) (neCreationTime r) (neModificationTime r) (neTrashTime r)
    (neTotalStorageSize r) (neActiveRevision r) (neFolder r) (neTreeEventScopeID r) (neErrors r).
#[export] Instance eta_member : Eta Member := fun r =>
  mkMember (meUID r) (meInvitationTime r) (meAddedByEmail r) (meInviteeEmail r) (meRole r) (meState r).
#[export] Instance eta_url : Eta URLAccess := fun r =>
  mkURLAccess (uaUID r) (uaCreationTime r) (uaRole r) (uaURL r) (uaCustomPassword r) (uaExpirationTime r) (uaNumberOfInitializedDownloads r).
#[export] Instance eta_share : Eta ShareResult := fun r =>
  mkShare (shProtonInvitations r) (shNonProtonInvitations r) (shMembers r) (shURLAccess r) (shEditorsCanShare r).
#[export] Instance eta_failure : Eta DownloadFailure := fun r => mkFailure (dfName r) (dfNodeUID r) (dfError r).
#[export] Instance eta_summary : Eta DownloadSummary := fun r =>
  mkSummary (dsTransferredItems r) (dsTransferredBytes r) (dsSkippedItems r) (dsFailedItems r) (dsFailures r).

(** Zero values. *)
Definition zeroSection : RootSection := mkSection [].
Definition zeroName : NameResult := mkName false [] (mkNameError [] []).
Definition zeroAuthor : AuthorResult := mkAuthor false None (mkAuthorError None []).
Definition zeroDevice : Device := mkDevice [] [] zeroName [] [] [] [].
Definition zeroMembership : Membership := mkMembership [] [] zeroAuthor.
Definition zeroDigests : ClaimedDigests := mkDigests [] false.
Definition zeroRevision : Revision := mkRevision [] [] [] zeroAuthor 0 false None [] None [].
Definition zeroFolderInfo : FolderInfo := mkFolderInfo [] false.
Definition zeroNode : NodeEntity :=
  mkNode [] [] zeroName zeroAuthor zeroAuthor [] None (mkOwned [] []) [] [] false false [] [] [] [] None None None [] [].
Definition zeroMember : Member := mkMember [] [] zeroAuthor [] [] [].
Definition zeroURLAccess : URLAccess := mkURLAccess [] [] [] [] [] [] 0.
Definition zeroShare : ShareResult := mkShare [] [] [] None false.
Definition zeroFailure : DownloadFailure := mkFailure [] [] [].
Definition zeroSummary : DownloadSummary := mkSummary 0 0 0 0 [].

(** ** Reading them *)

Definition readRootSection : reader RootSection := readStruct [field $"path" rsPath readString].
Definition readNameError : reader InvalidNameError := readStruct [field $"name" ineName readString; field $"error" ineError readString].
Definition readName : reader NameResult :=
  readStruct [field $"ok" nrOK readBool; field $"value" nrValue readString; field $"error" nrError readNameError].
Definition readAuthorError : reader UnverifiedAuthorError :=
  readStruct [field $"claimedAuthor" uaClaimedAuthor (readPointer [] readString); field $"error" uaError readString].
Definition readAuthor : reader AuthorResult :=
  readStruct [field $"ok" auOK readBool; field $"value" auValue (readPointer [] readString); field $"error" auError readAuthorError].
Definition readDevice : reader Device :=
  readStruct [field $"uid" dvUID readString; field $"type" dvType readString; field $"name" dvName readName;
    field $"rootFolderUid" dvRootFolderUID readString; field $"creationTime" dvCreationTime readString;
    field $"lastSyncTime" dvLastSyncTime readString; field $"shareId" dvShareID readString].
Definition readOwned : reader OwnedBy :=
  readStruct [field $"email" obEmail readString; field $"organization" obOrganization readString].
Definition readMembership : reader Membership :=
  readStruct [field $"role" mbRole readString; field $"inviteTime" mbInviteTime readString; field $"sharedBy" mbSharedBy readAuthor].
Definition readDigests : reader ClaimedDigests :=
  readStruct [field $"sha1" cdSHA1 readString; field $"sha1Verified" cdSHA1Verified readBool].
Definition readRevision : reader Revision :=
  readStruct [field $"uid" rvUID readString; field $"state" rvState readString; field $"creationTime" rvCreationTime readString;
    field $"contentAuthor" rvContentAuthor readAuthor; field $"storageSize" rvStorageSize readInt64; field $"isImported" rvIsImported readBool;
    field $"claimedSize" rvClaimedSize (readPointer 0 readInt64); field $"claimedModificationTime" rvClaimedModificationTime readString;
    field $"claimedDigests" rvClaimedDigests (readPointer zeroDigests readDigests);
    field $"claimedAdditionalMetadata" rvClaimedAdditionalMetadata readRaw].
Definition readFolderInfo : reader FolderInfo :=
  readStruct [field $"claimedModificationTime" fiClaimedModificationTime readString; field $"isImported" fiIsImported readBool].
Definition readNode : reader NodeEntity :=
  readStruct [field $"uid" neUID readString; field $"parentUid" neParentUID readString; field $"name" neName readName;
    field $"keyAuthor" neKeyAuthor readAuthor; field $"nameAuthor" neNameAuthor readAuthor; field $"directRole" neDirectRole readString;
    field $"membership" neMembership (readPointer zeroMembership readMembership); field $"ownedBy" neOwnedBy readOwned;
    field $"type" neType readString; field $"mediaType" neMediaType readString; field $"isShared" neIsShared readBool;
    field $"isSharedByUrl" neIsSharedByURL readBool; field $"deprecatedShareId" neDeprecatedShareID readString;
    field $"creationTime" neCreationTime readString; field $"modificationTime" neModificationTime readString;
    field $"trashTime" neTrashTime readString; field $"totalStorageSize" neTotalStorageSize (readPointer 0 readInt64);
    field $"activeRevision" neActiveRevision (readPointer zeroRevision readRevision);
    field $"folder" neFolder (readPointer zeroFolderInfo readFolderInfo); field $"treeEventScopeId" neTreeEventScopeID readString;
    field $"errors" neErrors readRaw].
Definition readMember : reader Member :=
  readStruct [field $"uid" meUID readString; field $"invitationTime" meInvitationTime readString; field $"addedByEmail" meAddedByEmail readAuthor;
    field $"inviteeEmail" meInviteeEmail readString; field $"role" meRole readString; field $"state" meState readString].
Definition readURLAccess : reader URLAccess :=
  readStruct [field $"uid" uaUID readString; field $"creationTime" uaCreationTime readString; field $"role" uaRole readString;
    field $"url" uaURL readString; field $"customPassword" uaCustomPassword readString; field $"expirationTime" uaExpirationTime readString;
    field $"numberOfInitializedDownloads" uaNumberOfInitializedDownloads readInt64].
Definition readShare : reader ShareResult :=
  readStruct [field $"protonInvitations" shProtonInvitations (readSlice zeroMember readMember);
    field $"nonProtonInvitations" shNonProtonInvitations (readSlice zeroMember readMember);
    field $"members" shMembers (readSlice zeroMember readMember); field $"urlAccess" shURLAccess (readPointer zeroURLAccess readURLAccess);
    field $"editorsCanShare" shEditorsCanShare readBool].
Definition readFailure : reader DownloadFailure :=
  readStruct [field $"name" dfName readString; field $"nodeUid" dfNodeUID readString; field $"error" dfError readString].
Definition readSummary : reader DownloadSummary :=
  readStruct [field $"transferredItems" dsTransferredItems readInt64; field $"transferredBytes" dsTransferredBytes readInt64;
    field $"skippedItems" dsSkippedItems readInt64; field $"failedItems" dsFailedItems readInt64;
    field $"failures" dsFailures (readSlice zeroFailure readFailure)].

(** ** Writing them *)

Definition putText (name s : bytes) : list written := orEmpty (isEmpty s) (putString name s).
Definition sectionText (r : RootSection) : written := objectText (putString $"path" (rsPath r)).
Definition nameErrorText (r : InvalidNameError) : written := objectText (putText $"name" (ineName r) ++ putText $"error" (ineError r)).
Definition nameText (r : NameResult) : written :=
  objectText (putBool $"ok" (nrOK r) ++ putText $"value" (nrValue r) ++ put $"error" (nameErrorText (nrError r))).
Definition authorErrorText (r : UnverifiedAuthorError) : written :=
  objectText (putPointer $"claimedAuthor" (fun s => Some (json_string s)) (uaClaimedAuthor r) ++ putText $"error" (uaError r)).
Definition authorText (r : AuthorResult) : written :=
  objectText (putBool $"ok" (auOK r) ++ put $"value" (match auValue r with Some s => Some (json_string s) | None => Some $"null" end)
    ++ put $"error" (authorErrorText (auError r))).
Definition deviceText (r : Device) : written :=
  objectText (putString $"uid" (dvUID r) ++ putString $"type" (dvType r) ++ put $"name" (nameText (dvName r))
    ++ putString $"rootFolderUid" (dvRootFolderUID r) ++ putString $"creationTime" (dvCreationTime r)
    ++ putText $"lastSyncTime" (dvLastSyncTime r) ++ putString $"shareId" (dvShareID r)).
Definition ownedText (r : OwnedBy) : written := objectText (putText $"email" (obEmail r) ++ putText $"organization" (obOrganization r)).
Definition membershipText (r : Membership) : written :=
  objectText (putString $"role" (mbRole r) ++ putString $"inviteTime" (mbInviteTime r) ++ put $"sharedBy" (authorText (mbSharedBy r))).
Definition digestsText (r : ClaimedDigests) : written := objectText (putText $"sha1" (cdSHA1 r) ++ putBool $"sha1Verified" (cdSHA1Verified r)).
Definition revisionText (r : Revision) : written :=
  objectText (putString $"uid" (rvUID r) ++ putString $"state" (rvState r) ++ putString $"creationTime" (rvCreationTime r)
    ++ put $"contentAuthor" (authorText (rvContentAuthor r)) ++ putInt $"storageSize" (rvStorageSize r) ++ putBool $"isImported" (rvIsImported r)
    ++ putPointer $"claimedSize" (fun z => Some (decimal z)) (rvClaimedSize r)
    ++ putText $"claimedModificationTime" (rvClaimedModificationTime r) ++ putPointer $"claimedDigests" digestsText (rvClaimedDigests r)
    ++ orEmpty (isEmpty (rvClaimedAdditionalMetadata r)) (put $"claimedAdditionalMetadata" (rawText (rvClaimedAdditionalMetadata r)))).
Definition folderInfoText (r : FolderInfo) : written :=
  objectText (putText $"claimedModificationTime" (fiClaimedModificationTime r) ++ putBool $"isImported" (fiIsImported r)).
Definition nodeText (r : NodeEntity) : written :=
  objectText (putString $"uid" (neUID r) ++ putText $"parentUid" (neParentUID r) ++ put $"name" (nameText (neName r))
    ++ put $"keyAuthor" (authorText (neKeyAuthor r)) ++ put $"nameAuthor" (authorText (neNameAuthor r)) ++ putString $"directRole" (neDirectRole r)
    ++ putPointer $"membership" membershipText (neMembership r) ++ put $"ownedBy" (ownedText (neOwnedBy r)) ++ putString $"type" (neType r)
    ++ putText $"mediaType" (neMediaType r) ++ putBool $"isShared" (neIsShared r) ++ putBool $"isSharedByUrl" (neIsSharedByURL r)
    ++ putText $"deprecatedShareId" (neDeprecatedShareID r) ++ putString $"creationTime" (neCreationTime r)
    ++ putString $"modificationTime" (neModificationTime r) ++ putText $"trashTime" (neTrashTime r)
    ++ putPointer $"totalStorageSize" (fun z => Some (decimal z)) (neTotalStorageSize r) ++ putPointer $"activeRevision" revisionText (neActiveRevision r)
    ++ putPointer $"folder" folderInfoText (neFolder r) ++ putString $"treeEventScopeId" (neTreeEventScopeID r)
    ++ orEmpty (isEmpty (neErrors r)) (put $"errors" (rawText (neErrors r)))).
Definition memberText (r : Member) : written :=
  objectText (putString $"uid" (meUID r) ++ putString $"invitationTime" (meInvitationTime r) ++ put $"addedByEmail" (authorText (meAddedByEmail r))
    ++ putString $"inviteeEmail" (meInviteeEmail r) ++ putString $"role" (meRole r) ++ putText $"state" (meState r)).

(** A node is read and written back as it was. *)
Lemma node_example :
  let text := $"{" ++ json_key $"ok" ++ $"true, " ++ json_key $"value" ++ json_string $"a" ++ $"}" in
  decodeInto zeroName readName text = Some (mkName true $"a" (mkNameError [] []))
  /\ nameText (mkName true $"a" (mkNameError [] [])) = Some ($"{" ++ json_key $"ok" ++ $"true," ++ json_key $"value" ++ json_string $"a" ++ $"," ++ json_key $"error" ++ $"{}}")
  /\ decodeInto zeroName readName ($"{" ++ json_key $"no" ++ $"1}") = None.
Proof. vm_compute. done. Qed.
