(* ===== verification/DriveCli.v ===== *)
(** * The Drive command line client

    [drivecli]: the argument vectors the client may run, the classification
    of what a process did, the version handshake and the commands.  Running a
    process is the operating system's: [Run] is a parameter, and every
    invocation handed to it is recorded. *)
From Stdlib Require Import ZArith Lia Strings.Byte.
From stdpp Require Import base list strings.
From S2P Require Import Prelude GoStrings GoText GoJson StrictJson Credentials GoMarshal DriveTypes.

Definition pinnedCLIVersion : bytes := $"0.8.0".
Definition versionBannerPrefix : bytes := $"Proton Drive CLI cli-drive@".
Definition defaultMaxBytes : Z := 64 * 1024.
(** In nanoseconds. *)
Definition defaultTimeout : Z := 15 * 1000000000.
Definition subprocessWorkingDirectory : bytes := $"/".

(** ** Errors *)

Module Cli.
Inductive cliCode := InvalidConfig | VersionMismatch | TimedOut | OutputOverflow | MalformedOutput | TruncatedOutput | CommandFailed | AuthRequired
  | OperationCanceled.
End Cli.

Inductive contextError := ContextCanceled | DeadlineExceeded.

(** The errors of the client and of the gate before it. *)
Inductive driveError := AdapterError (c : Cli.cliCode) | ContextError (e : contextError).

(** ** The client *)

Record Options := mkOptions { oBinaryPath : bytes; oCacheDir : bytes; oCredentialsStore : bytes; oTimeout : Z; oMaxBytes : Z }.
Record Client := mkClient { binaryPath : bytes; cacheDir : bytes; credentialsStore : bytes; timeout : Z; maxBytes : Z }.

(** [filepath.IsAbs] on Unix. *)
Definition IsAbs (path : bytes) : bool := has_prefix path $"/".

(** [supportedOS] is the test of [runtime.GOOS]. *)
Definition New (supportedOS : bool) (options : Options) : Client + Cli.cliCode :=
  if negb (IsAbs (oBinaryPath options)) then inr Cli.InvalidConfig
  else if negb (beqs (oCacheDir options) []) && negb (IsAbs (oCacheDir options)) then inr Cli.InvalidConfig
  else if negb (beqs (oCredentialsStore options) [] || beqs (oCredentialsStore options) $"keychain" || beqs (oCredentialsStore options) $"pass")
  then inr Cli.InvalidConfig
  else if negb supportedOS then inr Cli.InvalidConfig
  else
    let timeout := if oTimeout options <=? 0 then defaultTimeout else oTimeout options in
    let maxBytes := if oMaxBytes options <=? 0 then defaultMaxBytes else oMaxBytes options in
    inl (mkClient (oBinaryPath options) (oCacheDir options) (oCredentialsStore options) timeout maxBytes).

(** ** Argument vectors *)

Definition isOperand (argument : bytes) : bool := negb (beqs argument []) && negb (has_prefix argument $"-").

Definition isAllowlistedInvocation (arguments : list bytes) : bool :=
  match arguments with
  | [a] => beqs a $"version"
  | [a; b; operand; json] =>
      if beqs a $"filesystem" && beqs b $"list" then isOperand operand && beqs json $"--json"
      else if beqs a $"filesystem" && beqs b $"info" then isOperand operand && beqs json $"--json"
      else if beqs a $"sharing" && beqs b $"status" then isOperand operand && beqs json $"--json"
      else false
  | [a; b; operand; type; value; json] =>
      if beqs a $"filesystem" && beqs b $"list"
      then isOperand operand && beqs type $"--type" && (beqs value $"file" || beqs value $"folder") && beqs json $"--json"
      else false
  | _ => false
  end.

Definition AllowedCommandLines : list bytes :=
  [$"version"; $"filesystem list <path> [--type file|folder] --json"; $"filesystem info <path> --json"; $"sharing status <path> --json"].

(** ** The banner *)

(** The pattern of three runs of digits between two dots. *)
Definition digitRun (s : bytes) : bool := match s with [] => false | _ => forallb is_digit s end.
Definition exactSemanticVersion (s : bytes) : bool :=
  match split_byte "."%byte s with [a; b; c] => digitRun a && digitRun b && digitRun c | _ => false end.

Definition parseVersionBanner (stdout : bytes) : option bytes :=
  let firstLine := trim_suffix (fst (fst (cut_byte x0a stdout))) [x0d] in
  match cut_prefix firstLine versionBannerPrefix with
  | (version, true) => if exactSemanticVersion version then Some version else None
  | (_, false) => None
  end.

(** ** Running the command *)

Section Run.
Context {W : Type}.

(** [os.LookupEnv]. *)
Variable LookupEnv : bytes -> option bytes.
Variable EqualFold : bytes -> bytes -> bool.

Definition inheritedVariables : list bytes := [$"HOME"; $"USER"; $"LOGNAME"; $"LANG"; $"LC_ALL"].
Definition isolatedEnvironment (cacheDir credentialsStore : bytes) : list bytes :=
  [$"PATH=/usr/bin:/bin"]
  ++ concat (map (fun key => match LookupEnv key with Some value => [key ++ $"=" ++ value] | None => [] end) inheritedVariables)
  ++ (if beqs cacheDir [] then [] else [$"PROTON_DRIVE_CACHE_DIR=" ++ cacheDir])
  ++ (if beqs credentialsStore [] then [] else [$"PROTON_DRIVE_CREDENTIALS_STORE=" ++ credentialsStore]).

(** What the operating system is asked to run; standard input is empty. *)
Record invocation := mkInvocation { ivPath : bytes; ivArguments : list bytes; ivDirectory : bytes; ivEnvironment : list bytes; ivTimeout : Z }.

(** What the process did: its writes, the error of the deadline's context
    afterwards, whether the caller's was cancelled, and whether [Run] failed. *)
Record commandRun := mkCommandRun {
  stdoutWrites : list bytes; stderrWrites : list bytes; deadlineErr : option contextError; callerCanceled : bool; runFailed : bool }.

Variable Run : invocation -> W -> commandRun * W.

(** The world and the invocations so far. *)
Record state := mkState { world : W; ran : list invocation }.
Definition M (A : Type) : Type := state -> (A + driveError) * state.
Definition mret {A} (a : A) : M A := fun s => (inl a, s).
Definition mfail {A} (c : Cli.cliCode) : M A := fun s => (inr (AdapterError c), s).
Definition mbind {A B} (m : M A) (k : A -> M B) : M B := fun s =>
  match m s with (inl a, s) => k a s | (inr e, s) => (inr e, s) end.

(** A [limitedBuffer] behind its writes. *)
Definition captured (limit : Z) (chunks : list bytes) : limitedBuffer := foldl Write (mkBuffer [] limit false) chunks.

Definition looksTruncated (output : bytes) : bool :=
  match trim_space output with
  | [] => true
  | ("["%byte :: _) as trimmed => negb (has_suffix trimmed $"]")
  | ("{"%byte :: _) as trimmed => negb (has_suffix trimmed $"}")
  | _ => false
  end.

(** [invoke] behind the process. *)
Definition classify (client : Client) (run : commandRun) (requireJSON : bool) : bytes + driveError :=
  let stdout := captured (maxBytes client) (stdoutWrites run) in
  let stderr := captured (maxBytes client) (stderrWrites run) in
  let exited :=
    if runFailed run then
      if contains_sub (bytesOf stderr) $"You need to login first" then inr (AdapterError Cli.AuthRequired) else inr (AdapterError Cli.CommandFailed)
    else if requireJSON && looksTruncated (bytesOf stdout) then inr (AdapterError Cli.TruncatedOutput)
    else inl (bytesOf stdout) in
  if overflow stdout || overflow stderr then inr (AdapterError Cli.OutputOverflow)
  else match deadlineErr run with
       | Some err =>
           if callerCanceled run then inr (AdapterError Cli.OperationCanceled)
           else match err with DeadlineExceeded => inr (AdapterError Cli.TimedOut) | ContextCanceled => exited end
       | None => exited
       end.

Definition invocationOf (client : Client) (arguments : list bytes) : invocation :=
  mkInvocation (binaryPath client) arguments subprocessWorkingDirectory (isolatedEnvironment (cacheDir client) (credentialsStore client)) (timeout client).

Definition invoke (client : Client) (arguments : list bytes) (requireJSON : bool) : M bytes := fun s =>
  if negb (isAllowlistedInvocation arguments) then (inr (AdapterError Cli.InvalidConfig), s)
  else
    let (run, w) := Run (invocationOf client arguments) (world s) in
    (classify client run requireJSON, mkState w (ran s ++ [invocationOf client arguments])).

(** [Handshake] behind the output of the command. *)
Definition checkBanner (stdout : bytes) : M unit :=
  match parseVersionBanner stdout with
  | None => mfail Cli.MalformedOutput
  | Some version => if negb (beqs version pinnedCLIVersion) then mfail Cli.VersionMismatch else mret tt
  end.
Definition Handshake (client : Client) : M unit := mbind (invoke client [$"version"] false) checkBanner.

(** ** The commands *)

Definition decoded {A} (r : option A) : M A := match r with Some a => mret a | None => mfail Cli.MalformedOutput end.

Definition decodeList (path stdout : bytes) (maxBytes : Z) : M ListResult :=
  if beqs path $"/" then
    mbind (decoded (DecodeArray EqualFold (decodeInto [] (readSlice zeroSection readRootSection)) stdout maxBytes)) (fun sections => mret (mkList sections [] []))
  else if beqs path $"/devices" then
    mbind (decoded (DecodeArray EqualFold (decodeInto [] (readSlice zeroDevice readDevice)) stdout maxBytes)) (fun devices => mret (mkList [] devices []))
  else
    mbind (decoded (DecodeArray EqualFold (decodeInto [] (readSlice zeroNode readNode)) stdout maxBytes)) (fun nodes => mret (mkList [] [] nodes)).

Definition listArguments (path nodeType : bytes) : list bytes :=
  [$"filesystem"; $"list"; path] ++ (if beqs nodeType [] then [] else [$"--type"; nodeType]) ++ [$"--json"].
Definition List (client : Client) (path nodeType : bytes) : M ListResult :=
  if beqs path [] then mfail Cli.InvalidConfig
  else if negb (beqs nodeType []) && negb (beqs nodeType $"file") && negb (beqs nodeType $"folder") then mfail Cli.InvalidConfig
  else mbind (invoke client (listArguments path nodeType) true) (fun stdout => decodeList path stdout (maxBytes client)).

Definition infoArguments (path : bytes) : list bytes := [$"filesystem"; $"info"; path; $"--json"].
Definition Info (client : Client) (path : bytes) : M NodeEntity :=
  if beqs path [] then mfail Cli.InvalidConfig
  else mbind (invoke client (infoArguments path) true) (fun stdout => decoded (DecodeValue EqualFold (decodeInto zeroNode readNode) stdout (maxBytes client))).

Definition sharingArguments (path : bytes) : list bytes := [$"sharing"; $"status"; path; $"--json"].

(** [SharingStatus] behind the output of the command. *)
Definition decodeSharing (stdout : bytes) (maxBytes : Z) : M SharingStatus :=
  if beqs (trim_space stdout) $"undefined" then mret (mkStatus false None)
  else if looksTruncated stdout then mfail Cli.TruncatedOutput
  else mbind (decoded (DecodeValue EqualFold (decodeInto zeroShare readShare) stdout maxBytes)) (fun info => mret (mkStatus true (Some info))).
Definition GetSharingStatus (client : Client) (path : bytes) : M SharingStatus :=
  if beqs path [] then mfail Cli.InvalidConfig
  else mbind (invoke client (sharingArguments path) false) (fun stdout => decodeSharing stdout (maxBytes client)).

Definition downloadArguments (remotePaths : list bytes) (localFolder : bytes) : list bytes :=
  [$"filesystem"; $"download"] ++ remotePaths
  ++ [localFolder; $"--file-conflict-strategy"; $"skip"; $"--folder-conflict-strategy"; $"skip"; $"--json"].
Definition Download (client : Client) (remotePaths : list bytes) (localFolder : bytes) : M DownloadSummary :=
  match remotePaths with
  | [] => mfail Cli.InvalidConfig
  | _ =>
      if negb (IsAbs localFolder) then mfail Cli.InvalidConfig
      else mbind (invoke client (downloadArguments remotePaths localFolder) true)
             (fun stdout => decoded (DecodeValue EqualFold (decodeInto zeroSummary readSummary) stdout (maxBytes client)))
  end.
End Run.
Arguments mret {W A}. Arguments mfail {W A}. Arguments mbind {W A B}. Arguments world {W}. Arguments ran {W}. Arguments mkState {W}.
