(* ===== verification/DriveGate.v ===== *)
(** * The handshake gate

    [drivemcp/gate.go]: any number of requests pass the gate at once, each at
    its own point of [ensure].  The slot is a channel of capacity one;
    [verified] is read and written atomically, so every access is a step. *)
From Stdlib Require Import ZArith Lia Strings.Byte.
From stdpp Require Import base list gmap.
From S2P Require Import Prelude DriveCli.

(** ** The gate and a request at it *)

Record gate := mkGate { slot : option nat; verified : bool }.
Definition newHandshakeGate : gate := mkGate None false.

(** Where a request stands in [ensure], and behind it: [Left] with the
    error it was given, if any, and [Finished] when it has run its command. *)
Inductive phase := Entered | Waiting | Holding | Negotiating | Succeeded | Releasing (err : option driveError)
  | Left (err : option driveError) | Finished.

(** What a request does that others see: a handshake and how it ended, and a
    data command. *)
Inductive gateEvent := Started (r : nat) | Accepted (r : nat) | Refused (r : nat) | DataCommand (r : nat).

(** One step of the request [r] while its context lives. *)
Inductive moves (g : gate) (r : nat) : phase -> gate -> phase -> list gateEvent -> Prop :=
| loads_verified : verified g = true -> moves g r Entered g (Left None) []
| loads : verified g = false -> moves g r Entered g Waiting []
| acquires : slot g = None -> moves g r Waiting (mkGate (Some r) (verified g)) Holding []
| reloads_verified : verified g = true -> moves g r Holding g (Releasing None) []
| reloads : verified g = false -> moves g r Holding g Negotiating [Started r]
| handshake_succeeds : moves g r Negotiating g Succeeded [Accepted r]
| handshake_fails err : moves g r Negotiating g (Releasing (Some err)) [Refused r]
| stores : moves g r Succeeded (mkGate (slot g) true) (Releasing None) []
| releases err : moves g r (Releasing err) (mkGate None (verified g)) (Left err) []
| commands : moves g r (Left None) g Finished [DataCommand r].

(** ** The requests together *)

Record system := mkSystem { theGate : gate; phases : gmap nat phase; trace : list gateEvent }.
Definition initial : system := mkSystem newHandshakeGate ∅ [].

(** A step while no context ends. *)
Inductive calm_step (s : system) : system -> Prop :=
| request_moves r p g' p' events : phases s !! r = Some p -> moves (theGate s) r p g' p' events ->
    calm_step s (mkSystem g' (<[r := p']> (phases s)) (trace s ++ events)).

Inductive step (s : system) : system -> Prop :=
| arrives r : phases s !! r = None -> step s (mkSystem (theGate s) (<[r := Entered]> (phases s)) (trace s))
| abandons r err : phases s !! r = Some Waiting ->
    step s (mkSystem (theGate s) (<[r := Left (Some (ContextError err))]> (phases s)) (trace s))
| goes_on s' : calm_step s s' -> step s s'.

Definition reachable (s : system) : Prop := star step initial s.

(** ** What may be seen *)

(** No handshake yet has succeeded and none is running; the one of a request
    runs; one has succeeded. *)
Inductive status := Idle | Busy (r : nat) | Open.

Definition observe (st : status) (e : gateEvent) : option status :=
  match st, e with
  | Idle, Started r => Some (Busy r)
  | Busy r, Accepted q => if decide (r = q) then Some Open else None
  | Busy r, Refused q => if decide (r = q) then Some Idle else None
  | Open, DataCommand _ => Some Open
  | _, _ => None
  end.
Fixpoint observeAll (st : status) (events : list gateEvent) : option status :=
  match events with
  | [] => Some st
  | e :: events => match observe st e with Some st => observeAll st events | None => None end
  end.

#[export] Instance gateEvent_eq_dec : EqDecision gateEvent.
Proof. solve_decision. Defined.

(** How often a request starts a handshake or runs a command. *)
Definition occurrences (e : gateEvent) (events : list gateEvent) : nat := length (filter (e =.) events).

(** The phases in which a request has the slot, and those without a way on. *)
Definition holds (p : phase) : bool := match p with Holding | Negotiating | Succeeded | Releasing _ => true | _ => false end.
Definition settled (p : phase) : bool := match p with Left (Some _) | Finished => true | _ => false end.
