(* ===== verification/DriveGateSpec.v ===== *)
(** * What the handshake gate promises

    However the requests interleave: one handshake runs at a time, none after
    one has succeeded, a data command only after that, each request starts at
    most one, and no request is stuck. *)
From Stdlib Require Import ZArith Lia Strings.Byte.
From stdpp Require Import base list gmap.
From S2P Require Import Prelude Monitor DriveCli DriveGate.

(** ** The trace *)

Lemma observeAll_app st l k : observeAll st (l ++ k) = match observeAll st l with Some st => observeAll st k | None => None end.
Proof. revert st. induction l as [|e l IH]; intros st; cbn; [done|]. by destruct (observe st e). Qed.

Lemma occurrences_app e l k : occurrences e (l ++ k) = (occurrences e l + occurrences e k)%nat.
Proof. unfold occurrences. by rewrite filter_app, length_app. Qed.

Lemma occurrences_one e e' : occurrences e [e'] = if decide (e = e') then 1%nat else O.
Proof. unfold occurrences. rewrite filter_cons. by destruct (decide (e = e')). Qed.

(** ** The invariant *)

(** A request behind a verified gate. *)
Definition passed (p : phase) : bool := match p with Succeeded | Releasing None | Left None | Finished => true | _ => false end.
Definition startedBound (p : option phase) : nat := match p with None | Some (Entered | Waiting | Holding) => 0 | _ => 1 end.
Definition commandedBound (p : option phase) : nat := match p with Some Finished => 1 | _ => 0 end.

Record gate_ok (s : system) (st : status) : Prop := {
  ok_slot r p : phases s !! r = Some p -> holds p = true -> slot (theGate s) = Some r;
  ok_seen : observeAll Idle (trace s) = Some st;
  ok_negotiating r : phases s !! r = Some Negotiating <-> st = Busy r;
  ok_passed r p : phases s !! r = Some p -> passed p = true -> st = Open;
  ok_verified : verified (theGate s) = true -> st = Open;
  ok_open : st = Open -> verified (theGate s) = true \/ exists r, phases s !! r = Some Succeeded;
  ok_started r : (occurrences (Started r) (trace s) <= startedBound (phases s !! r))%nat;
  ok_commanded r : (occurrences (DataCommand r) (trace s) <= commandedBound (phases s !! r))%nat;
  ok_owner r : slot (theGate s) = Some r -> exists p, phases s !! r = Some p /\ holds p = true }.

Definition invariant (s : system) : Prop := exists st, gate_ok s st.

Lemma gate_initial_ok : invariant initial.
Proof. exists Idle. split; cbn; try done; intros; rewrite ?lookup_empty in *; done. Qed.

(** Look a request up behind the update of another. *)
Ltac at_requests := repeat match goal with
  | H : context [<[?r := _]> _ !! ?q] |- _ => destruct (decide (q = r)) as [->|]; [rewrite lookup_insert_eq in H|rewrite lookup_insert_ne in H by done]
  | |- context [<[?r := _]> _ !! ?q] => destruct (decide (q = r)) as [->|]; [rewrite lookup_insert_eq|rewrite lookup_insert_ne by done]
  end.

Section Move.
Variables (s : system) (st : status).
Hypothesis I : gate_ok s st.

(** The slot is one request's. *)
Lemma holder_unique r q p p' : phases s !! r = Some p -> holds p = true -> phases s !! q = Some p' -> holds p' = true -> q = r.
Proof. intros H Hp K Kp. apply (ok_slot _ _ I) in H, K; try done. congruence. Qed.

(** What the events of a request count for it and for others. *)
Definition counts_for (r : nat) (p p' : phase) (events : list gateEvent) : Prop :=
  (occurrences (Started r) events + startedBound (Some p) <= startedBound (Some p'))%nat
  /\ (occurrences (DataCommand r) events + commandedBound (Some p) <= commandedBound (Some p'))%nat
  /\ forall q, q <> r -> occurrences (Started q) events = O /\ occurrences (DataCommand q) events = O.

(** How a request may change the slot: keep, take or return it. *)
Definition slot_moves (r : nat) (p p' : phase) (g g' : option nat) : Prop :=
  (g' = g /\ holds p' = holds p) \/ (g = None /\ g' = Some r /\ holds p' = true) \/ (holds p = true /\ g' = None /\ holds p' = false).

Lemma move_ok r p p' g' events st' : phases s !! r = Some p -> observeAll st events = Some st' ->
  (p' = Negotiating <-> st' = Busy r) -> (forall q, q <> r -> st' = Busy q <-> st = Busy q) ->
  (passed p' = true -> st' = Open) -> (st = Open -> st' = Open) -> (verified g' = true -> st' = Open) ->
  (st' = Open -> verified g' = true \/ exists q, <[r := p']> (phases s) !! q = Some Succeeded) ->
  counts_for r p p' events -> slot_moves r p p' (slot (theGate s)) (slot g') ->
  gate_ok (mkSystem g' (<[r := p']> (phases s)) (trace s ++ events)) st'.
Proof.
  intros Hr He Hn Hn' Hp Hopen Hv Ho (Hs & Hc & Hq) Hslot. pose proof I as [I1 I2 I3 I4 I5 I6 I7 I8 I9].
  split; cbn [phases theGate trace].
  - intros q x Hx Hxh. at_requests; simplify_eq.
    + destruct Hslot as [[-> E]|[(? & ? & ?)|(? & ? & ?)]]; [|done|congruence]. rewrite E in *. by eapply I1.
    + pose proof (I1 _ _ Hx Hxh) as Hq'. destruct Hslot as [[-> E]|[(? & ? & ?)|(Hph & ? & ?)]]; [done|congruence|]. pose proof (I1 _ _ Hr Hph). congruence.
  - by rewrite observeAll_app, I2.
  - intros q. at_requests; [rewrite <- Hn; split; congruence|]. rewrite Hn' by done. apply I3.
  - intros q x Hx Hxp. at_requests; simplify_eq; [by apply Hp|]. apply Hopen. by eapply I4.
  - exact Hv.
  - exact Ho.
  - intros q. rewrite occurrences_app. at_requests; [specialize (I7 r); rewrite Hr in I7; lia|]. destruct (Hq q) as [-> _]; [done|]. specialize (I7 q). lia.
  - intros q. rewrite occurrences_app. at_requests; [specialize (I8 r); rewrite Hr in I8; lia|]. destruct (Hq q) as [_ ->]; [done|]. specialize (I8 q). lia.
  - intros q Hg. at_requests.
    + exists p'. split; [done|]. destruct Hslot as [[E1 E2]|[(? & ? & ?)|(? & ? & ?)]]; [|done|congruence].
      rewrite E1 in Hg. destruct (I9 r Hg) as (y & Hy & Hyh). rewrite E2. congruence.
    + destruct Hslot as [[E1 E2]|[(? & ? & ?)|(? & ? & ?)]]; [rewrite E1 in Hg; by apply I9|congruence|congruence].
Qed.
End Move.

Lemma arrives_ok s st r : gate_ok s st -> phases s !! r = None -> gate_ok (mkSystem (theGate s) (<[r := Entered]> (phases s)) (trace s)) st.
Proof.
  intros [I1 I2 I3 I4 I5 I6 I7 I8 I9] Hr. split; cbn [phases theGate trace]; try done.
  - intros q x Hx Hxh. at_requests; simplify_eq; by eapply I1.
  - intros q. at_requests; [|apply I3]. rewrite <- I3, Hr. by split.
  - intros q x Hx Hxp. at_requests; simplify_eq; by eapply I4.
  - intros K. destruct (I6 K) as [|(y & Hy)]; [by left|right]. exists y. at_requests; congruence.
  - intros q. specialize (I7 q). at_requests; [by rewrite Hr in I7|done].
  - intros q. specialize (I8 q). at_requests; [by rewrite Hr in I8|done].
  - intros q Hg. destruct (I9 q Hg) as (y & Hy & Hyh). exists y. at_requests; [congruence|done].
Qed.

(** Another request that has succeeded still has, when this one moves. *)
Lemma still_open s st r p p' : gate_ok s st -> phases s !! r = Some p -> p <> Succeeded -> st = Open ->
  verified (theGate s) = true \/ exists q, <[r := p']> (phases s) !! q = Some Succeeded.
Proof.
  intros I Hr Hp K. destruct (ok_open _ _ I K) as [|(y & Hy)]; [by left|right]. exists y. at_requests; congruence.
Qed.

(** The side conditions of a move. *)
Ltac by_counts := repeat split; cbn [startedBound commandedBound]; intros; rewrite ?occurrences_one;
  repeat match goal with |- context [decide ?P] => destruct (decide P) end; simplify_eq; cbn; lia.
Ltac by_move := first
  [ done | by_counts | by left | by (right; left) | by (right; right) | by (split; intros; simplify_eq; intuition congruence) | by intuition congruence ].

Lemma moves_ok s st r p g' p' events : gate_ok s st -> phases s !! r = Some p -> moves (theGate s) r p g' p' events ->
  exists st', gate_ok (mkSystem g' (<[r := p']> (phases s)) (trace s ++ events)) st'.
Proof.
  intros I Hr Hm. pose proof (ok_slot _ _ I r p Hr) as Hslot. pose proof (ok_passed _ _ I r p Hr) as Hpass. pose proof (ok_negotiating _ _ I r) as Hneg.
  pose proof (still_open s st r p p' I Hr) as Hstill. pose proof (ok_verified _ _ I) as Hver.
  assert (Hnv : verified (theGate s) = false -> holds p = true -> p <> Succeeded -> st <> Open).
  { intros Hv Hh Hp K. destruct (ok_open _ _ I K) as [|(q & Hq)]; [congruence|]. pose proof (holder_unique _ _ I r q _ _ Hr Hh Hq eq_refl). congruence. }
  assert (Hbusy : forall q, st = Busy q -> holds p = true -> q = r).
  { intros q Hq Hh. apply (ok_negotiating _ _ I) in Hq. by eapply holder_unique. }
  rewrite Hr in Hneg.
  destruct Hm; cbn [holds passed] in *.
  - exists st. eapply (move_ok _ _ I); by_move.
  - exists st. eapply (move_ok _ _ I); by_move.
  - exists st. eapply (move_ok _ _ I); by_move.
  - exists st. eapply (move_ok _ _ I); by_move.
  - assert (st = Idle) as ->.
    { destruct st as [|q|]; [done| |by destruct Hnv]. rewrite (Hbusy q eq_refl eq_refl) in Hneg. by destruct Hneg as [_ Hneg]; specialize (Hneg eq_refl). }
    exists (Busy r). eapply (move_ok _ _ I); by_move.
  - assert (st = Busy r) as -> by (by apply Hneg). exists Open. eapply (move_ok _ _ I); try by_move.
    + cbn. by rewrite decide_True.
    + intros _. right. exists r. by rewrite lookup_insert_eq.
  - assert (st = Busy r) as -> by (by apply Hneg). exists Idle. eapply (move_ok _ _ I); try by_move. cbn. by rewrite decide_True.
  - rewrite (Hpass eq_refl) in *. exists Open. eapply (move_ok _ _ I); by_move.
  - exists st. eapply (move_ok _ _ I); by_move.
  - rewrite (Hpass eq_refl) in *. exists Open. eapply (move_ok _ _ I); by_move.
Qed.

Lemma gate_step_ok s s' : invariant s -> step s s' -> invariant s'.
Proof.
  intros [st I] [r Hr|r err Hr|_ [r p g' p' events Hr Hm]].
  - exists st. by apply arrives_ok.
  - exists st. rewrite <- (app_nil_r (trace s)). pose proof (ok_negotiating _ _ I r) as Hneg. rewrite Hr in Hneg.
    pose proof (still_open s st r _ (Left (Some (ContextError err))) I Hr) as Hstill. pose proof (ok_verified _ _ I) as Hver. eapply (move_ok _ _ I); by_move.
  - by eapply moves_ok.
Qed.

Lemma gate_reachable_ok s : reachable s -> invariant s.
Proof. apply star_invariant; [apply gate_initial_ok|apply gate_step_ok]. Qed.

(** ** Reading a trace *)

Lemma open_stays st events : st = Open -> forall st', observeAll st events = Some st' -> st' = Open.
Proof. intros ->. induction events as [|e l IH]; intros st'; cbn; [by intros [= <-]|]. destruct e; cbn; try done. apply IH. Qed.

(** Only an accepted handshake opens. *)
Lemma opened st events : observeAll st events = Some Open -> st = Open \/ exists r, Accepted r ∈ events.
Proof.
  revert st. induction events as [|e l IH]; intros st; cbn; [intros [= ->]; by left|]. destruct (observe st e) as [st1|] eqn:E; [|done].
  intros H. destruct (IH _ H) as [->|(r & Hr)]; [|right; exists r; by right].
  destruct st as [|q|], e as [r|r|r|r]; cbn in E; try done; try (by left); destruct (decide (q = r)); try done. right. exists r. by left.
Qed.

(** The prefix of an admitted trace up to one of its events. *)
Lemma seen_before l1 e l2 st : observeAll Idle (l1 ++ e :: l2) = Some st ->
  exists st1 st2, observeAll Idle l1 = Some st1 /\ observe st1 e = Some st2 /\ observeAll st2 l2 = Some st.
Proof.
  rewrite observeAll_app. destruct (observeAll Idle l1) as [st1|] eqn:E1; [|done]. cbn. destruct (observe st1 e) as [st2|] eqn:E2; [|done].
  intros H. by exists st1, st2.
Qed.

Lemma accepted_opens st l st' r : observeAll st l = Some st' -> Accepted r ∈ l -> st' = Open.
Proof.
  revert st. induction l as [|e l IH]; intros st; cbn; [intros _ H; by apply elem_of_nil in H|]. destruct (observe st e) as [st1|] eqn:E; [|done].
  intros H [<- | Hr]%elem_of_cons; [|by eapply IH]. destruct st; cbn in E; try done. destruct (decide _); [|done]. injection E as <-.
  by eapply open_stays.
Qed.

(** ** No request is stuck *)

(** How many steps a request still has. *)
Definition stepsLeft (p : phase) : nat :=
  match p with Entered => 7 | Waiting => 6 | Holding => 5 | Negotiating => 4 | Succeeded => 3 | Releasing _ => 2 | Left None => 1 | Left (Some _) | Finished => 0 end.
Definition work (s : system) : nat := total stepsLeft (phases s).

Lemma gate_moves_less g r p g' p' events : moves g r p g' p' events -> (stepsLeft p' < stepsLeft p)%nat.
Proof. destruct 1; cbn; try lia. destruct err; cbn; lia. Qed.

Lemma gate_calm_less s s' : calm_step s s' -> (work s' < work s)%nat.
Proof. intros [r p g' p' events Hr Hm]. unfold work. cbn [phases]. pose proof (total_insert stepsLeft _ _ _ p' Hr). apply gate_moves_less in Hm. lia. Qed.

Definition all_settled (s : system) : Prop := forall r p, phases s !! r = Some p -> settled p = true.

(** A request that has the slot can go on. *)
Lemma holder_moves g r p : holds p = true -> exists g' p' events, moves g r p g' p' events.
Proof.
  destruct p as [| | | | |err|err|]; try done; intros _; [|by do 3 eexists; constructor..].
  destruct (verified g) eqn:E; do 3 eexists; [by apply reloads_verified|by apply reloads].
Qed.

Lemma request_can_move s : invariant s -> all_settled s \/ exists s', calm_step s s'.
Proof.
  intros [st I].
  destruct (decide (map_Forall (fun _ p => settled p = true) (phases s))) as [H|H]; [left; exact H|right].
  apply map_not_Forall in H as (r & p & Hr & Hp); [|apply _].
  assert (Hgo : forall q x, phases s !! q = Some x -> (exists g' p' events, moves (theGate s) q x g' p' events) -> exists s', calm_step s s').
  { intros q x Hq (g' & p' & events & Hm). eexists. by econstructor. }
  destruct p as [| | | | |err|err|]; try (by eapply Hgo; [done|apply holder_moves]); [| |destruct err as [err|]; [done|]].
  - eapply Hgo; [exact Hr|]. destruct (verified (theGate s)) eqn:E; do 3 eexists; [by apply loads_verified|by apply loads].
  - destruct (slot (theGate s)) as [q|] eqn:E.
    + destruct (ok_owner _ _ I q E) as (x & Hx & Hh). eapply Hgo; [exact Hx|by apply holder_moves].
    + eapply Hgo; [exact Hr|]. do 3 eexists. by apply acquires.
  - eapply Hgo; [exact Hr|]. do 3 eexists. apply commands.
Qed.

Lemma gate_calm_settles s : invariant s -> exists s', star calm_step s s' /\ all_settled s'.
Proof.
  apply (star_settles _ _ _ work); [apply request_can_move|]. intros x y Ix Hxy. split; [by eapply gate_step_ok; [|apply goes_on]|by apply gate_calm_less].
Qed.

(** ** The properties *)

(** C12: however the requests interleave, the slot is one request's, a
    handshake never starts beside another or after one was accepted, a data
    command follows an accepted handshake, and a request starts at most one
    handshake and runs at most one command. *)
Theorem gate_single_flight s : reachable s ->
  (exists st, observeAll Idle (trace s) = Some st)
  /\ (forall r q p p', phases s !! r = Some p -> phases s !! q = Some p' -> holds p = true -> holds p' = true -> r = q)
  /\ (forall l1 r l2, trace s = l1 ++ DataCommand r :: l2 -> exists q, Accepted q ∈ l1)
  /\ (forall l1 r l2, trace s = l1 ++ Started r :: l2 -> (forall q, Accepted q ∉ l1) /\ observeAll Idle l1 = Some Idle)
  /\ (forall r, (occurrences (Started r) (trace s) <= 1 /\ occurrences (DataCommand r) (trace s) <= 1)%nat).
Proof.
  intros [st I]%gate_reachable_ok. pose proof (ok_seen _ _ I) as Hseen. split; [by exists st|].
  split; [intros r q p p' Hr Hq Hp Hp'; symmetry; by eapply holder_unique|]. split; [|split].
  - intros l1 r l2 E. rewrite E in Hseen. apply seen_before in Hseen as (st1 & st2 & H1 & H2 & _).
    destruct st1; cbn in H2; try done. by destruct (opened _ _ H1).
  - intros l1 r l2 E. rewrite E in Hseen. apply seen_before in Hseen as (st1 & st2 & H1 & H2 & _).
    destruct st1; cbn in H2; try done. split; [|done]. intros q Hq. by pose proof (accepted_opens _ _ _ _ H1 Hq).
  - intros r. pose proof (ok_started _ _ I r) as Hs. pose proof (ok_commanded _ _ I r) as Hc.
    destruct (phases s !! r) as [[]|]; cbn in *; lia.
Qed.

(** No deadlock at the gate: from every reachable state, whatever the
    handshakes answer, the requests there can all be served or refused without
    any context ending; each step brings the end nearer. *)
Theorem gate_settles s : reachable s ->
  (exists s', star calm_step s s' /\ all_settled s') /\ (forall s', calm_step s s' -> (work s' < work s)%nat)
  /\ (~ all_settled s -> exists s', calm_step s s').
Proof.
  intros I%gate_reachable_ok. split; [by apply gate_calm_settles|]. split; [apply gate_calm_less|]. intros H. by destruct (request_can_move s I).
Qed.

(** One request alone, from its arrival to its command. *)
Definition alone (g : gate) (p : phase) (t : list gateEvent) : system := mkSystem g (<[1%nat := p]> ∅) t.

Lemma alone_moves g p t g' p' events : reachable (alone g p t) -> moves g 1 p g' p' events -> reachable (alone g' p' (t ++ events)).
Proof.
  intros H Hm. eapply star_snoc; [exact H|]. apply goes_on. unfold alone. rewrite <- (insert_insert_eq ∅ 1%nat p p').
  by apply (request_moves (alone g p t) 1%nat p); [apply lookup_insert_eq|].
Qed.

Lemma alone_commands : reachable (alone (mkGate None true) Finished [Started 1; Accepted 1; DataCommand 1]).
Proof.
  assert (H0 : reachable (alone newHandshakeGate Entered [])) by (eapply star_snoc; [constructor|]; by apply (arrives initial 1%nat)).
  pose proof (alone_moves _ _ _ _ _ _ H0 (loads newHandshakeGate 1 eq_refl)) as H1. pose proof (alone_moves _ _ _ _ _ _ H1 (acquires newHandshakeGate 1 eq_refl)) as H2.
  pose proof (alone_moves _ _ _ _ _ _ H2 (reloads (mkGate (Some 1%nat) false) 1 eq_refl)) as H3. pose proof (alone_moves _ _ _ _ _ _ H3 (handshake_succeeds _ _)) as H4.
  pose proof (alone_moves _ _ _ _ _ _ H4 (stores _ _)) as H5. pose proof (alone_moves _ _ _ _ _ _ H5 (releases _ _ _)) as H6.
  exact (alone_moves _ _ _ _ _ _ H6 (commands _ _)).
Qed.

Lemma gate_single_flight_witness : exists q, Accepted q ∈ [Started 1; Accepted 1].
Proof.
  destruct (gate_single_flight _ alone_commands) as (_ & _ & H & _). apply (H [Started 1; Accepted 1] 1%nat []). reflexivity.
Defined.
Lemma gate_settles_witness : exists s', star calm_step initial s' /\ all_settled s'.
Proof. apply (proj1 (gate_settles initial (star_refl _ _))). Defined.
