(* ===== verification/DriveServer.v ===== *)
(** * The Drive tool server

    [drivemcp]: the paths it accepts, the gate before every command as one
    request sees it, the handlers, the bounded output and the audit lines.
    Where [drivemcp] repeats a function of [mcpserver] in the same words the
    definition of [ToolServer] stands for both. *)
From Stdlib Require Import ZArith Lia Strings.Byte.
From stdpp Require Import base list strings.
From S2P Require Import Prelude GoStrings GoText GoJson Errors StrictJson MessageID GoMarshal ToolResults ToolServer.
From S2P Require Import DriveTypes DriveCli.

Definition maxListEntries : Z := 200.
Definition defaultListEntries : Z := 100.
Definition maxSharingMembers : Z := 100.
Definition maxDrivePathBytes : Z := 1024.

(** ** Paths *)

Definition plainSegment (segment : bytes) : bool := negb (beqs segment [] || beqs segment $"." || beqs segment $"..").

Definition validDrivePath (path : bytes) : bool :=
  if beqs path [] || (maxDrivePathBytes <? zlen path) || negb (valid_string path) then false
  else if existsb (fun rn => (fst rn <? 32) || (fst rn =? 127)) (runes path) then false
  else match path with
       | "/"%byte :: rest =>
           if beqs path $"/" then true
           else if has_suffix path $"/" then false
           else forallb plainSegment (split_byte "/"%byte rest)
       | _ => false
       end.

(** ** Errors *)

Definition mapDriveError (err : driveError) : tool_code :=
  match err with
  | ContextError ContextCanceled => errCanceled
  | ContextError DeadlineExceeded => errTimedOut
  | AdapterError Cli.TimedOut => errTimedOut
  | AdapterError Cli.OperationCanceled => errCanceled
  | AdapterError Cli.OutputOverflow => errBoundsExceeded
  | AdapterError _ => errUnavailable
  end.

(** ** Results *)

(** The listing asked for is present, the others are nil. *)
Record listDriveResult := mkListing {
  ldPath : bytes; ldSections : option (list RootSection); ldDevices : option (list Device); ldEntries : option (list NodeEntity); ldTruncated : bool }.
Record sharingURLAccess := mkSharingURL {
  suUID : bytes; suCreationTime : bytes; suRole : bytes; suURL : bytes; suExpirationTime : bytes; suNumberOfInitializedDownloads : Z }.
Record sharingStatusResult := mkSharing {
  srShared : bool; srProtonInvitations : list Member; srNonProtonInvitations : list Member; srMembers : list Member;
  srURLAccess : option sharingURLAccess; srEditorsCanShare : bool; srTruncated : bool }.

#[export] Instance eta_listing : Eta listDriveResult := fun r => mkListing (ldPath r) (ldSections r) (ldDevices r) (ldEntries r) (ldTruncated r).
#[export] Instance eta_sharing : Eta sharingStatusResult := fun r =>
  mkSharing (srShared r) (srProtonInvitations r) (srNonProtonInvitations r) (srMembers r) (srURLAccess r) (srEditorsCanShare r) (srTruncated r).

Definition putTrue (name : bytes) (b : bool) : list written := orEmpty (negb b) (putBool name b).
Definition putList {A} (name : bytes) (f : A -> written) (l : list A) : list written := put name (arrayText (map f l)).
Definition putPresent {A} (name : bytes) (f : A -> written) (l : option (list A)) : list written :=
  match l with Some l => putList name f l | None => [] end.

Definition listingText (r : listDriveResult) : written :=
  objectText (putString $"path" (ldPath r) ++ putPresent $"sections" sectionText (ldSections r) ++ putPresent $"devices" deviceText (ldDevices r)
    ++ putPresent $"entries" nodeText (ldEntries r) ++ putTrue $"truncated" (ldTruncated r)).
Definition sharingURLText (r : sharingURLAccess) : written :=
  objectText (putString $"uid" (suUID r) ++ putString $"creationTime" (suCreationTime r) ++ putString $"role" (suRole r) ++ putString $"url" (suURL r)
    ++ putText $"expirationTime" (suExpirationTime r) ++ putInt $"numberOfInitializedDownloads" (suNumberOfInitializedDownloads r)).
Definition sharingText (r : sharingStatusResult) : written :=
  objectText (putBool $"shared" (srShared r) ++ putList $"protonInvitations" memberText (srProtonInvitations r)
    ++ putList $"nonProtonInvitations" memberText (srNonProtonInvitations r) ++ putList $"members" memberText (srMembers r)
    ++ putPointer $"urlAccess" sharingURLText (srURLAccess r) ++ putBool $"editorsCanShare" (srEditorsCanShare r) ++ putTrue $"truncated" (srTruncated r)).

(** ** Bounded output *)

(** [shrinkForOutput]: [None] where it reports false. *)
Definition shrinkListing (r : listDriveResult) : option listDriveResult :=
  match ldEntries r, ldDevices r, ldSections r with
  | Some ((_ :: _) as l), _, _ => Some (r <| ldEntries := Some (halve l) |> <| ldTruncated := true |>)
  | _, Some ((_ :: _) as l), _ => Some (r <| ldDevices := Some (halve l) |> <| ldTruncated := true |>)
  | _, _, Some ((_ :: _) as l) => Some (r <| ldSections := Some (halve l) |> <| ldTruncated := true |>)
  | _, _, _ => None
  end.

(** The three lists, and the longest of them, the first among equals. *)
Inductive sharingList := ProtonInvitations | NonProtonInvitations | Members.
Definition sharingOf (r : sharingStatusResult) (which : sharingList) : list Member :=
  match which with ProtonInvitations => srProtonInvitations r | NonProtonInvitations => srNonProtonInvitations r | Members => srMembers r end.
Definition largestList (r : sharingStatusResult) : sharingList :=
  foldl (fun largest which => if (length (sharingOf r largest) <? length (sharingOf r which))%nat then which else largest)
    ProtonInvitations [NonProtonInvitations; Members].
Definition halveSharing (r : sharingStatusResult) (which : sharingList) : sharingStatusResult :=
  match which with
  | ProtonInvitations => r <| srProtonInvitations := halve (srProtonInvitations r) |>
  | NonProtonInvitations => r <| srNonProtonInvitations := halve (srNonProtonInvitations r) |>
  | Members => r <| srMembers := halve (srMembers r) |>
  end.
Definition shrinkSharing (r : sharingStatusResult) : option sharingStatusResult :=
  match sharingOf r (largestList r), srURLAccess r with
  | _ :: _, _ => Some ((halveSharing r (largestList r)) <| srTruncated := true |>)
  | [], Some _ => Some (r <| srURLAccess := None |> <| srTruncated := true |>)
  | [], None => None
  end.

(** The result of a handler, an [any], and its methods. *)
Inductive driveResult := ListingResult (r : listDriveResult) | NodeResult (r : NodeEntity) | SharingResult (r : sharingStatusResult).
Definition driveText (r : driveResult) : written :=
  match r with ListingResult r => listingText r | NodeResult r => nodeText r | SharingResult r => sharingText r end.
Definition driveShrink (r : driveResult) : option driveResult :=
  match r with
  | ListingResult r => option_map ListingResult (shrinkListing r)
  | NodeResult _ => None
  | SharingResult r => option_map SharingResult (shrinkSharing r)
  end.
Definition wasTruncated (r : driveResult) : bool :=
  match r with ListingResult r => ldTruncated r | NodeResult _ => false | SharingResult r => srTruncated r end.
(** What is left to drop. *)
Definition driveContent (r : driveResult) : nat :=
  match r with
  | ListingResult r => length (default [] (ldEntries r)) + length (default [] (ldDevices r)) + length (default [] (ldSections r))
  | NodeResult _ => 0
  | SharingResult r => length (srProtonInvitations r) + length (srNonProtonInvitations r) + length (srMembers r) + (if srURLAccess r then 1 else 0)
  end.

Definition truncationMark : bytes := marshal (JObject (member $"truncated" (JBool true))).

(** [encodeBounded]: the text and whether the loop reduced it, or an error. *)
Fixpoint driveEncodeLoop (fuel : nat) (truncated : bool) (r : driveResult) : option (bytes * bool) :=
  match fuel with
  | O => None
  | S fuel =>
      match driveText r with
      | None => None
      | Some encoded =>
          if zlen encoded <=? maxToolResultBytes then Some (encoded, truncated)
          else match driveShrink r with
               | None => Some (truncationMark, true)
               | Some r => driveEncodeLoop fuel true r
               end
      end
  end.
Definition driveEncode (r : driveResult) : option (bytes * bool) := driveEncodeLoop (S (driveContent r)) false r.

(** ** What a handler returns *)

(** A list is never nil here; the flag tells that entries were dropped. *)
Definition boundEntries {A} (entries : list A) (limit : Z) : list A * bool :=
  if limit <? zlen entries then (take (Z.to_nat limit) entries, true) else (entries, false).

Definition boundListing (path : bytes) (listing : ListResult) (limit : Z) : listDriveResult :=
  if beqs path $"/" then let (l, t) := boundEntries (lrSections listing) limit in mkListing path (Some l) None None t
  else if beqs path $"/devices" then let (l, t) := boundEntries (lrDevices listing) limit in mkListing path None (Some l) None t
  else let (l, t) := boundEntries (lrNodes listing) limit in mkListing path None None (Some l) t.

Definition mapURLAccess (u : URLAccess) : sharingURLAccess :=
  mkSharingURL (uaUID u) (uaCreationTime u) (uaRole u) (uaURL u) (uaExpirationTime u) (uaNumberOfInitializedDownloads u).

Definition mapSharingStatus (status : SharingStatus) : sharingStatusResult :=
  let info := default zeroShare (ssInfo status) in
  let (protonInvitations, protonTruncated) := boundEntries (shProtonInvitations info) maxSharingMembers in
  let (nonProtonInvitations, nonProtonTruncated) := boundEntries (shNonProtonInvitations info) maxSharingMembers in
  let (members, membersTruncated) := boundEntries (shMembers info) maxSharingMembers in
  mkSharing (ssShared status && if ssInfo status then true else false) protonInvitations nonProtonInvitations members
    (option_map mapURLAccess (shURLAccess info)) (shEditorsCanShare info) (protonTruncated || nonProtonTruncated || membersTruncated).

(** ** The handlers *)

Section Handlers.
Context `{L : GoLibrary} {W : Type}.
Variable LookupEnv : bytes -> option bytes.
Variable Run : invocation -> W -> commandRun * W.

(** What [ensure] finds when it waits for the slot: the context's end, or the
    slot and whether a request before it has been verified meanwhile. *)
Inductive slotWait := SlotAcquired (verifiedMeanwhile : bool) | SlotAbandoned (err : contextError).
Variable waitSlot : W -> slotWait * W.

(** What one request sees: the calls it makes and the latch. *)
Record served := mkServed { calls : @state W; latched : bool }.
Definition H (A : Type) : Type := served -> (A + tool_code) * served.
Definition hret {A} (a : A) : H A := fun s => (inl a, s).
Definition hfail {A} (code : tool_code) : H A := fun s => (inr code, s).
Definition hbind {A B} (m : H A) (k : A -> H B) : H B := fun s => match m s with (inl a, s) => k a s | (inr c, s) => (inr c, s) end.
Definition wanted {A} (r : option A) (code : tool_code) : H A := match r with Some a => hret a | None => hfail code end.
Definition guarded (ok : bool) (code : tool_code) : H unit := if ok then hret tt else hfail code.

(** A command of the client, with its error as the tool's code. *)
Definition command {A} (m : M A) : H A := fun s =>
  match m (calls s) with
  | (inl a, c) => (inl a, mkServed c (latched s))
  | (inr err, c) => (inr (mapDriveError err), mkServed c (latched s))
  end.

(** [ensure], with the error as the tool's code. *)
Definition gateEnsure (client : Client) : H unit := fun s =>
  if latched s then (inl tt, s)
  else
    let (wait, w) := waitSlot (world (calls s)) in
    let s := mkServed (mkState w (ran (calls s))) (latched s) in
    match wait with
    | SlotAbandoned err => (inr (mapDriveError (ContextError err)), s)
    | SlotAcquired true => (inl tt, mkServed (calls s) true)
    | SlotAcquired false => hbind (command (Handshake LookupEnv Run client)) (fun _ s => (inl tt, mkServed (calls s) true)) s
    end.

Record listInput := mkListInput { inPath : bytes; inType : bytes; inLimit : option Z }.
Definition listFields : list (bytes * (json -> listInput -> option listInput)) :=
  [ToolServer.field $"path" asString (fun v i => mkListInput v (inType i) (inLimit i));
   ToolServer.field $"type" asString (fun v i => mkListInput (inPath i) v (inLimit i));
   ToolServer.field $"limit" asInt (fun v i => mkListInput (inPath i) (inType i) (Some v))].
Definition pathFields : list (bytes * (json -> bytes -> option bytes)) := [ToolServer.field $"path" asString (fun v _ => v)].

Definition runListDriveEntries (client : Client) (arguments : bytes) : H driveResult :=
  hbind (wanted (decodeArguments listFields (mkListInput [] [] None) arguments) errInvalidArgument) (fun input =>
  hbind (guarded (validDrivePath (inPath input)) errInvalidArgument) (fun _ =>
  hbind (guarded (beqs (inType input) [] || beqs (inType input) $"file" || beqs (inType input) $"folder") errInvalidArgument) (fun _ =>
  hbind (wanted (clampLimit (inLimit input) defaultListEntries maxListEntries) errInvalidArgument) (fun limit =>
  hbind (gateEnsure client) (fun _ =>
  hbind (command (List LookupEnv EqualFold Run client (inPath input) (inType input))) (fun listing =>
  hret (ListingResult (boundListing (inPath input) listing limit)))))))).

(** The path argument of the two other tools. *)
Definition pathArgument (arguments : bytes) : H bytes :=
  hbind (wanted (decodeArguments pathFields [] arguments) errInvalidArgument) (fun path =>
  hbind (guarded (validDrivePath path) errInvalidArgument) (fun _ => hret path)).

Definition runGetDriveMetadata (client : Client) (arguments : bytes) : H driveResult :=
  hbind (pathArgument arguments) (fun path =>
  hbind (gateEnsure client) (fun _ =>
  hbind (command (Info LookupEnv EqualFold Run client path)) (fun node => hret (NodeResult node)))).

Definition runGetDriveSharingStatus (client : Client) (arguments : bytes) : H driveResult :=
  hbind (pathArgument arguments) (fun path =>
  hbind (gateEnsure client) (fun _ =>
  hbind (command (GetSharingStatus LookupEnv EqualFold Run client path)) (fun status => hret (SharingResult (mapSharingStatus status))))).

(** ** The catalog, the audit and a call *)

Record driveTool := mkTool { dtName : bytes; dtRun : Client -> bytes -> H driveResult }.
Definition driveToolDefinitions : list driveTool :=
  [mkTool $"list_drive_entries" runListDriveEntries; mkTool $"get_drive_metadata" runGetDriveMetadata;
   mkTool $"get_drive_sharing_status" runGetDriveSharingStatus].

Definition driveToolNames : list bytes := [$"list_drive_entries"; $"get_drive_metadata"; $"get_drive_sharing_status"].
Definition driveErrorCodes : list tool_code := [errInvalidArgument; errBoundsExceeded; errTimedOut; errCanceled; errUnavailable; errInternal].
Definition sanitizeDriveTool (tool : bytes) : bytes := if bool_decide (tool ∈ driveToolNames) then tool else $"unknown_tool".
Definition sanitizeDriveCode (code : bytes) : bytes :=
  if beqs code [] || bool_decide (code ∈ map toolCodeText driveErrorCodes) then code else toolCodeText errInternal.
Definition driveToolCall (audit : bool) (tool o code : bytes) (truncated : bool) : list bytes :=
  if audit then [marshal (auditJSON (mkEvent (sanitizeDriveTool tool) (sanitizeOutcome o) (sanitizeDriveCode code) truncated)) ++ [x0a]] else [].

(** [runTool]; no command of the client panics. *)
Definition driveRunTool (cli : option Client) (definition : driveTool) (arguments : bytes) : H driveResult :=
  match cli with None => hfail errUnavailable | Some client => dtRun definition client arguments end.

(** [makeHandler]: the answer and the audit lines. *)
Definition driveHandler (cli : option Client) (audit : bool) (definition : driveTool) (arguments : bytes) : served -> (CallToolResult * list bytes) * served :=
  fun s =>
  let line := driveToolCall audit (dtName definition) in
  let (result, s) := driveRunTool cli definition arguments s in
  (match result with
   | inr code => (errorResult (toolCodeText code), line $"error" (toolCodeText code) false)
   | inl result =>
       match driveEncode result with
       | None => (errorResult (toolCodeText errInternal), line $"error" (toolCodeText errInternal) false)
       | Some (encoded, truncated) => (mkCall false encoded, line $"ok" [] (truncated || wasTruncated result))
       end
   end, s).
End Handlers.
Arguments calls {W}. Arguments latched {W}. Arguments mkServed {W}.

(** [Serve] behind the run of the server: whether it fails. *)
Definition driveServe (closed : goerror -> bool) (err : option goerror) : bool :=
  match err with None => false | Some err => negb (errors_is NEOF err || closed err || errors_is NCanceled err) end.
