(* ===== verification/DriveCliSpec.v ===== *)
(** * What the Drive client promises

    Only argument vectors of four frozen shapes are ever run, an output is
    used only when it is complete, and the handshake admits one version. *)
From Stdlib Require Import ZArith Lia Strings.Byte.
From stdpp Require Import base list strings.
From S2P Require Import Prelude GoStrings GoText GoJson StrictJson Credentials GoMarshal DriveTypes DriveCli.

(** ** The allowlist *)

(** The shapes of [AllowedCommandLines]. *)
Inductive frozen : list bytes -> Prop :=
| frozen_version : frozen [$"version"]
| frozen_list path : isOperand path = true -> frozen [$"filesystem"; $"list"; path; $"--json"]
| frozen_list_type path type : isOperand path = true -> type = $"file" \/ type = $"folder" ->
    frozen [$"filesystem"; $"list"; path; $"--type"; type; $"--json"]
| frozen_info path : isOperand path = true -> frozen [$"filesystem"; $"info"; path; $"--json"]
| frozen_sharing path : isOperand path = true -> frozen [$"sharing"; $"status"; path; $"--json"].

Lemma allowlist_exact arguments : isAllowlistedInvocation arguments = true <-> frozen arguments.
Proof.
  split.
  - destruct arguments as [|a [|b [|operand [|json [|value [|last [|]]]]]]]; unfold isAllowlistedInvocation; try done.
    + intros ->%beqs_eq. constructor.
    + destruct (beqs a $"filesystem" && beqs b $"list") eqn:E1; [|destruct (beqs a $"filesystem" && beqs b $"info") eqn:E2; [|destruct (beqs a $"sharing" && beqs b $"status") eqn:E3; [|done]]];
        intros [? ->%beqs_eq]%andb_prop.
      * apply andb_prop in E1 as [->%beqs_eq ->%beqs_eq]. by constructor.
      * apply andb_prop in E2 as [->%beqs_eq ->%beqs_eq]. by constructor.
      * apply andb_prop in E3 as [->%beqs_eq ->%beqs_eq]. by constructor.
    + destruct (beqs a $"filesystem" && beqs b $"list") eqn:E1; [|done]. apply andb_prop in E1 as [->%beqs_eq ->%beqs_eq].
      intros [[[? ->%beqs_eq]%andb_prop Ht]%andb_prop ->%beqs_eq]%andb_prop. constructor; [done|].
      apply orb_true_iff in Ht as [->%beqs_eq | ->%beqs_eq]; auto.
  - intros [|path H|path type H [-> | ->]|path H|path H]; cbn; rewrite ?H; reflexivity.
Qed.

(** ** The banner *)

Lemma banner_pinned stdout : parseVersionBanner stdout = Some pinnedCLIVersion <->
  trim_suffix (fst (fst (cut_byte x0a stdout))) [x0d] = versionBannerPrefix ++ pinnedCLIVersion.
Proof.
  unfold parseVersionBanner. cbv zeta. set (line := trim_suffix _ _). split.
  - destruct (cut_prefix line versionBannerPrefix) as [v [|]] eqn:E; [|done]. destruct (exactSemanticVersion v); [|done]. intros [= ->]. by apply cut_prefix_true.
  - intros ->. rewrite (proj2 (cut_prefix_true (versionBannerPrefix ++ pinnedCLIVersion) versionBannerPrefix pinnedCLIVersion) eq_refl). reflexivity.
Qed.

(** ** What a process did *)

Lemma captured_spec limit chunks : 0 <= limit ->
  if limit <? zlen (concat chunks) then overflow (captured limit chunks) = true
  else overflow (captured limit chunks) = false /\ bytesOf (captured limit chunks) = concat chunks.
Proof. intros Hl. exact (writes_spec chunks (mkBuffer [] limit false) eq_refl Hl). Qed.

(** The run is over, in time, and was not cancelled; nothing was cut off. *)
Definition within_caps (client : Client) (run : commandRun) : Prop :=
  zlen (concat (stdoutWrites run)) <= maxBytes client /\ zlen (concat (stderrWrites run)) <= maxBytes client.
Definition in_time (run : commandRun) : Prop :=
  match deadlineErr run with None => True | Some err => callerCanceled run = false /\ err <> DeadlineExceeded end.

Lemma classify_spec client run requireJSON : 0 <= maxBytes client ->
  match classify client run requireJSON with
  | inl out => within_caps client run /\ in_time run /\ runFailed run = false /\ out = concat (stdoutWrites run)
      /\ (requireJSON = true -> looksTruncated out = false)
  | inr err =>
      (err = AdapterError Cli.OutputOverflow /\ ~ within_caps client run)
      \/ (within_caps client run /\
          ((err = AdapterError Cli.OperationCanceled /\ deadlineErr run <> None /\ callerCanceled run = true)
           \/ (err = AdapterError Cli.TimedOut /\ deadlineErr run = Some DeadlineExceeded /\ callerCanceled run = false)
           \/ (in_time run /\
               ((err = AdapterError Cli.AuthRequired /\ runFailed run = true /\ contains_sub (concat (stderrWrites run)) $"You need to login first" = true)
                \/ (err = AdapterError Cli.CommandFailed /\ runFailed run = true /\ contains_sub (concat (stderrWrites run)) $"You need to login first" = false)
                \/ (err = AdapterError Cli.TruncatedOutput /\ runFailed run = false /\ requireJSON = true /\ looksTruncated (concat (stdoutWrites run)) = true)))))
  end.
Proof.
  intros Hm. unfold classify, within_caps, in_time. cbv zeta. pose proof (captured_spec _ (stdoutWrites run) Hm) as Ho. pose proof (captured_spec _ (stderrWrites run) Hm) as He.
  destruct (Z.ltb_spec (maxBytes client) (zlen (concat (stdoutWrites run)))) as [Hlo|Hlo]; [rewrite Ho; left; split; [done|lia]|].
  destruct (Z.ltb_spec (maxBytes client) (zlen (concat (stderrWrites run)))) as [Hle|Hle]; [rewrite He, orb_true_r; left; split; [done|lia]|].
  destruct Ho as [-> ->], He as [-> ->]. cbn [orb].
  set (exited := if runFailed run then _ else _).
  assert (Hdone : match exited with
    | inl out => runFailed run = false /\ out = concat (stdoutWrites run) /\ (requireJSON = true -> looksTruncated out = false)
    | inr err => (err = AdapterError Cli.AuthRequired /\ runFailed run = true /\ contains_sub (concat (stderrWrites run)) $"You need to login first" = true)
                \/ (err = AdapterError Cli.CommandFailed /\ runFailed run = true /\ contains_sub (concat (stderrWrites run)) $"You need to login first" = false)
                \/ (err = AdapterError Cli.TruncatedOutput /\ runFailed run = false /\ requireJSON = true /\ looksTruncated (concat (stdoutWrites run)) = true) end).
  { unfold exited. destruct (runFailed run); [destruct (contains_sub _ _); auto 6|]. destruct requireJSON; [destruct (looksTruncated _) eqn:El; cbn; auto 8|by cbn]. }
  clearbody exited.
  destruct (deadlineErr run) as [err|] eqn:Ed; [destruct (callerCanceled run) eqn:Ec; [right; split; [done|left; done]|destruct err]|].
  - destruct exited; [by destruct Hdone as (? & ? & ?)|]. right. split; [done|]. do 2 right. split; [done|]. exact Hdone.
  - right. split; [done|]. right. left. done.
  - destruct exited; [by destruct Hdone as (? & ? & ?)|]. right. split; [done|]. do 2 right. split; [done|]. exact Hdone.
Qed.

(** ** The operations *)

Section Operations.
Context {W : Type}.
Variable LookupEnv : bytes -> option bytes.
Variable EqualFold : bytes -> bytes -> bool.
Variable Run : invocation -> W -> commandRun * W.

(** The run behind one invocation. *)
Definition runs (client : Client) (arguments : list bytes) (s : @state W) : commandRun := fst (Run (invocationOf LookupEnv client arguments) (world s)).

Lemma invoke_frozen client arguments json s : frozen arguments ->
  invoke LookupEnv Run client arguments json s
  = (classify client (runs client arguments s) json,
     mkState (snd (Run (invocationOf LookupEnv client arguments) (world s))) (ran s ++ [invocationOf LookupEnv client arguments])).
Proof. intros H%allowlist_exact. unfold invoke, runs. rewrite H. by destruct (Run _ _). Qed.

Lemma invoke_refused client arguments json s : ~ frozen arguments ->
  invoke LookupEnv Run client arguments json s = (inr (AdapterError Cli.InvalidConfig), s).
Proof. intros H. unfold invoke. destruct (isAllowlistedInvocation arguments) eqn:E; [|done]. by apply allowlist_exact in E. Qed.

(** What stands behind the output of a command reads nothing and runs nothing. *)
Definition pureStep {A} (m : @M W A) : Prop := forall s, snd (m s) = s.
Lemma pure_mret {A} (a : A) : pureStep (mret a).
Proof. done. Qed.
Lemma pure_mfail {A} c : pureStep (@mfail W A c).
Proof. done. Qed.
Lemma pure_mbind {A B} (m : @M W A) (k : A -> @M W B) : pureStep m -> (forall a, pureStep (k a)) -> pureStep (mbind m k).
Proof. intros Hm Hk s. unfold mbind. specialize (Hm s). destruct (m s) as [[a|e] s1]; cbn in *; subst; [apply Hk|done]. Qed.
Lemma pure_decoded {A} (r : option A) : pureStep (decoded r).
Proof. by destruct r. Qed.
Hint Resolve pure_mret pure_mfail pure_mbind pure_decoded : core.
Lemma pure_decodeList path stdout maximum : pureStep (@decodeList W EqualFold path stdout maximum).
Proof. unfold decodeList. repeat case_match; auto. Qed.
Lemma pure_decodeSharing stdout maximum : pureStep (@decodeSharing W EqualFold stdout maximum).
Proof. unfold decodeSharing. repeat case_match; auto. Qed.
Lemma pure_checkBanner stdout : pureStep (@checkBanner W stdout).
Proof. unfold checkBanner. repeat case_match; auto. Qed.
Hint Resolve pure_decodeList pure_decodeSharing pure_checkBanner : core.

(** The vectors an operation has added to the invocations. *)
Definition adds {A} (client : Client) (m : @M W A) (vectors : list (list bytes)) : Prop :=
  forall s, ran (snd (m s)) = ran s ++ map (invocationOf LookupEnv client) vectors.

Lemma adds_none {A} client (m : @M W A) : pureStep m -> adds client m [].
Proof. intros H s. rewrite H. by rewrite app_nil_r. Qed.

Lemma adds_invoke {B} client arguments json (k : bytes -> @M W B) : frozen arguments -> (forall out, pureStep (k out)) ->
  adds client (mbind (invoke LookupEnv Run client arguments json) k) [arguments].
Proof.
  intros H Hk s. unfold mbind. rewrite invoke_frozen by done. destruct (classify _ _ _) as [out|e]; [|done]. by rewrite Hk.
Qed.

Lemma frozen_listArguments path type : isOperand path = true -> type = [] \/ type = $"file" \/ type = $"folder" -> frozen (listArguments path type).
Proof. intros Hp [-> | [-> | ->]]; [by apply frozen_list|apply frozen_list_type; auto..]. Qed.

Lemma not_frozen_download remotePaths localFolder : ~ frozen (downloadArguments remotePaths localFolder).
Proof. unfold downloadArguments. cbn [app]. intros H. inversion H. Qed.

(** An operation runs its one vector when that is frozen, or nothing. *)
Definition runs_only {A} (client : Client) (m : @M W A) (arguments : list bytes) : Prop :=
  exists vectors, adds client m vectors /\ (vectors = [] \/ vectors = [arguments] /\ frozen arguments).

Lemma runs_none {A} client (m : @M W A) arguments : pureStep m -> runs_only client m arguments.
Proof. intros H. exists []. split; [by apply adds_none|by left]. Qed.

Lemma runs_invoke {A} client arguments json (k : bytes -> @M W A) : (forall out, pureStep (k out)) ->
  runs_only client (mbind (invoke LookupEnv Run client arguments json) k) arguments.
Proof.
  intros Hk. destruct (isAllowlistedInvocation arguments) eqn:E.
  - apply allowlist_exact in E. exists [arguments]. split; [by apply adds_invoke|by right].
  - exists []. split; [|by left]. intros s. unfold mbind. rewrite invoke_refused; [by rewrite app_nil_r|]. rewrite <- allowlist_exact. by rewrite E.
Qed.
Hint Resolve runs_none runs_invoke : core.

Lemma list_runs client path type : runs_only client (List LookupEnv EqualFold Run client path type) (listArguments path type).
Proof. unfold List. repeat case_match; auto. Qed.
Lemma info_runs client path : runs_only client (Info LookupEnv EqualFold Run client path) (infoArguments path).
Proof. unfold Info. repeat case_match; auto. Qed.
Lemma sharing_runs client path : runs_only client (GetSharingStatus LookupEnv EqualFold Run client path) (sharingArguments path).
Proof. unfold GetSharingStatus. repeat case_match; auto. Qed.
Lemma handshake_adds client : adds client (Handshake LookupEnv Run client) [[$"version"]].
Proof. apply adds_invoke; [constructor|auto]. Qed.

(** The handshake succeeds exactly when the version command does and the
    first line of its output is the banner of the pinned release. *)
Lemma handshake_pinned client s :
  fst (Handshake LookupEnv Run client s) = inl tt <->
  exists out, classify client (runs client [$"version"] s) false = inl out
    /\ trim_suffix (fst (fst (cut_byte x0a out))) [x0d] = $"Proton Drive CLI cli-drive@0.8.0".
Proof.
  unfold Handshake, mbind. rewrite invoke_frozen by constructor. destruct (classify _ _ _) as [out|e] eqn:E; [|split; [done|intros (? & [=] & _)]].
  unfold checkBanner. split.
  - intros H. exists out. split; [done|]. apply (banner_pinned out). destruct (parseVersionBanner out) as [v|]; [|done].
    destruct (beqs v pinnedCLIVersion) eqn:Ev; [|done]. by apply beqs_eq in Ev as ->.
  - intros (? & [= <-] & H). apply (proj2 (banner_pinned out)) in H. by rewrite H.
Qed.


End Operations.

(** ** A concrete process *)

Definition pinnedBanner : bytes := $"Proton Drive CLI cli-drive@0.8.0" ++ [x0d; x0a].
Definition demoClient : Client := mkClient $"/bin/drive" [] $"pass" defaultTimeout 64.
Definition demoRun (iv : invocation) (w : list bytes) : commandRun * list bytes :=
  match w with
  | out :: w => (mkCommandRun [out] [] None false false, w)
  | [] => (mkCommandRun [] [$"You need to login first"] None false true, [])
  end.
Definition noEnvironment : bytes -> option bytes := fun _ => None.
Definition exactFold : bytes -> bytes -> bool := beqs.


