(* ===== verification/DriveServerSpec.v ===== *)
(** * What the Drive tools promise

    Every accepted path is canonical, a call runs a data command only behind
    the pinned handshake and only with a frozen vector, what it returns is
    bounded and never depends on a link's password. *)
From Stdlib Require Import ZArith Lia Strings.Byte.
From stdpp Require Import base list strings.
From S2P Require Import Prelude GoStrings GoText GoJson Errors StrictJson MessageID GoMarshal ToolResults ToolResultsSpec ToolServer.
From S2P Require Import DriveTypes DriveCli DriveCliSpec DriveServer.

(** ** Paths *)

(** A segment of a canonical path. *)
Definition canonicalSegment (s : bytes) : Prop := s <> [] /\ s <> $"." /\ s <> $".." /\ "/"%byte ∉ s.

Definition joinPath (segments : list bytes) : bytes := "/"%byte :: join_byte "/"%byte segments.

Definition canonicalPath (path : bytes) : Prop :=
  zlen path <= maxDrivePathBytes /\ valid_string path = true
  /\ (forall r n, In (r, n) (runes path) -> 32 <= r /\ r <> 127)
  /\ (path = $"/" \/ exists segments, segments <> [] /\ Forall canonicalSegment segments /\ path = joinPath segments).

Lemma plainSegment_spec s : plainSegment s = true <-> s <> [] /\ s <> $"." /\ s <> $"..".
Proof.
  unfold plainSegment. rewrite negb_true_iff, !orb_false_iff. rewrite <- !not_true_iff_false, !beqs_eq. tauto.
Qed.

Lemma segment_last s : canonicalSegment s -> exists q x, s = q ++ [x] /\ x <> "/"%byte.
Proof.
  intros (Hne & _ & _ & Hs). destruct (exists_last Hne) as (q & x & ->). exists q, x. split; [done|]. intros ->. apply Hs, list_elem_of_In, in_or_app. right. by left.
Qed.
Lemma join_last segments : segments <> [] -> Forall canonicalSegment segments ->
  exists q x, join_byte "/"%byte segments = q ++ [x] /\ x <> "/"%byte.
Proof.
  intros Hne H. induction H as [|s [|t segments] Hs Ht IH]; [done|by apply segment_last|].
  destruct IH as (q & x & Hq & Hx); [done|]. exists (s ++ "/"%byte :: q), x. split; [|done].
  change (join_byte _ (s :: t :: segments)) with (s ++ "/"%byte :: join_byte "/"%byte (t :: segments)). rewrite Hq. by rewrite <- app_assoc.
Qed.

Lemma path_segments rest : rest <> [] ->
  negb (has_suffix ("/"%byte :: rest) $"/") && forallb plainSegment (split_byte "/"%byte rest) = true
  <-> exists segments, segments <> [] /\ Forall canonicalSegment segments /\ rest = join_byte "/"%byte segments.
Proof.
  intros Hr. rewrite andb_true_iff, negb_true_iff, forallb_forall. split.
  - intros [_ H]. exists (split_byte "/"%byte rest). split; [apply split_byte_nonempty|]. split; [|by rewrite join_split].
    apply Forall_forall. intros p Hp%list_elem_of_In. destruct (proj1 (plainSegment_spec p) (H p Hp)) as (? & ? & ?). split_and!; try done.
    intros K%list_elem_of_In. by eapply split_byte_no_sep.
  - intros (segments & Hne & Hs & ->). split.
    + apply not_true_iff_false. intros [r Hr']%has_suffix_spec. destruct (join_last _ Hne Hs) as (q & x & Hq & Hx). rewrite Hq in Hr'.
      change ("/"%byte :: q ++ [x]) with (("/"%byte :: q) ++ [x]) in Hr'. apply app_inj_tail in Hr' as [_ ?]. done.
    + rewrite split_join; [|done|].
      * intros p Hp%list_elem_of_In. rewrite Forall_forall in Hs. destruct (Hs p Hp) as (? & ? & ? & _). by apply plainSegment_spec.
      * eapply Forall_impl; [exact Hs|]. intros p (_ & _ & _ & H) K. by apply H, list_elem_of_In.
Qed.

Lemma control_free path : existsb (fun rn => (fst rn <? 32) || (fst rn =? 127)) (runes path) = false
  <-> forall r n, In (r, n) (runes path) -> 32 <= r /\ r <> 127.
Proof.
  rewrite <- not_true_iff_false, existsb_exists. split.
  - intros H r n Hin. destruct (decide (32 <= r /\ r <> 127)) as [|Hn]; [done|]. exfalso. apply H. exists (r, n). split; [done|]. cbn.
    apply orb_true_iff. destruct (decide (r = 127)); [right; lia|left; lia].
  - intros H ([r n] & Hin & Hb). specialize (H r n Hin). cbn in Hb. apply orb_true_iff in Hb. lia.
Qed.

Lemma validDrivePath_spec path : validDrivePath path = true <-> canonicalPath path.
Proof.
  unfold validDrivePath, canonicalPath. destruct path as [|c rest].
  { cbn. split; [done|]. intros (_ & _ & _ & [H|(segments & _ & _ & H)]); done. }
  change (beqs (c :: rest) []) with false. cbn [orb].
  destruct (maxDrivePathBytes <? zlen (c :: rest)) eqn:El; [split; [done|intros (? & _); apply Z.ltb_lt in El; lia]|]. apply Z.ltb_ge in El. cbn [orb].
  destruct (valid_string (c :: rest)) eqn:Ev; cbn [negb]; [|by split; [|intros (_ & ? & _)]].
  destruct (existsb _ _) eqn:Ec.
  { split; [done|]. intros (_ & _ & H & _). apply (proj2 (control_free _)) in H. congruence. }
  pose proof (proj1 (control_free _) Ec) as Ec1. clear Ec. destruct (decide (c = "/"%byte)) as [->|Hc].
  2: { assert (E : forall a : bool, match c :: rest with "/"%byte :: _ => a | _ => false end = false) by (intros; by destruct c).
       split; [destruct c; done|]. intros (_ & _ & _ & [[= -> _]|(segments & _ & _ & [= -> _])]); done. }
  destruct (beqs ("/"%byte :: rest) $"/") eqn:Er.
  { apply beqs_eq in Er. split; [|done]. intros _. split_and!; try done. by left. }
  assert (Hr : rest <> []) by (intros ->; by rewrite beqs_refl in Er). pose proof (path_segments rest Hr) as Hp.
  destruct (has_suffix ("/"%byte :: rest) $"/"); cbn [negb andb] in Hp.
  - split; [done|]. intros (_ & _ & _ & [[= ->]|(segments & H1 & H2 & [= H3])]); [done|]. apply Hp. by exists segments.
  - rewrite Hp. split.
    + intros (segments & H1 & H2 & ->). split_and!; try done. right. by exists segments.
    + intros (_ & _ & _ & [[= ->]|(segments & H1 & H2 & [= H3])]); [done|]. by exists segments.
Qed.

Lemma valid_operand path : validDrivePath path = true -> isOperand path = true.
Proof. destruct path as [|c rest]; [done|]. unfold validDrivePath. repeat (case_match; [done|]). by destruct c. Qed.

(** A path is accepted exactly when it is the root or the join of
    segments that are neither empty nor dots, in at most 1024 bytes of UTF-8
    without control characters; then it is one operand of the command, never
    a flag, and its segments are told from it. *)
Theorem drive_path_exact path :
  (validDrivePath path = true <-> canonicalPath path)
  /\ (validDrivePath path = true -> isOperand path = true)
  /\ (forall a b, a <> [] -> b <> [] -> Forall canonicalSegment a -> Forall canonicalSegment b -> path = joinPath a -> path = joinPath b -> a = b).
Proof.
  split; [apply validDrivePath_spec|]. split; [apply valid_operand|]. intros a b Ha Hb Fa Fb -> [= E].
  assert (Hs : forall l, Forall canonicalSegment l -> Forall (fun p => ~ In "/"%byte p) l).
  { intros l H. eapply Forall_impl; [exact H|]. intros p (_ & _ & _ & Hp) K. by apply Hp, list_elem_of_In. }
  rewrite <- (split_join "/"%byte a), <- (split_join "/"%byte b) by auto. by rewrite E.
Qed.

(** ** Bounded output *)

Fixpoint driveReduction (n : nat) (r : driveResult) : option driveResult :=
  match n with O => Some r | S n => match driveShrink r with Some r => driveReduction n r | None => None end end.

(** What a reduced listing keeps: its path and shape, and a prefix of it. *)
Definition option_prefix {A} (l k : option (list A)) : Prop :=
  match l, k with Some l, Some k => l `prefix_of` k | None, None => True | _, _ => False end.
Definition listing_kept (r r' : listDriveResult) : Prop :=
  ldPath r' = ldPath r /\ option_prefix (ldSections r') (ldSections r) /\ option_prefix (ldDevices r') (ldDevices r)
  /\ option_prefix (ldEntries r') (ldEntries r).
(** A sharing result loses its link only with every list empty. *)
Definition sharing_kept (r r' : sharingStatusResult) : Prop :=
  srShared r' = srShared r /\ srEditorsCanShare r' = srEditorsCanShare r /\ (forall which, sharingOf r' which `prefix_of` sharingOf r which)
  /\ (srURLAccess r' = srURLAccess r \/ srURLAccess r' = None /\ forall which, sharingOf r' which = []).
Definition drive_kept (r r' : driveResult) : Prop :=
  match r, r' with
  | ListingResult r, ListingResult r' => listing_kept r r'
  | NodeResult r, NodeResult r' => r' = r
  | SharingResult r, SharingResult r' => sharing_kept r r'
  | _, _ => False
  end.

Lemma option_prefix_refl {A} (l : option (list A)) : option_prefix l l.
Proof. destruct l; cbn; [reflexivity|done]. Qed.
Lemma option_prefix_trans {A} (l k j : option (list A)) : option_prefix l k -> option_prefix k j -> option_prefix l j.
Proof. destruct l, k, j; cbn; try done. by etransitivity. Qed.

#[local] Instance drive_kept_preorder : PreOrder drive_kept.
Proof.
  split.
  - intros [r|r|r]; cbn; try done; split_and!; try done; try apply option_prefix_refl; by left.
  - intros [r|r|r] [s|s|s] [t|t|t]; cbn; try done; try congruence.
    + intros (E1 & A1 & A2 & A3) (E2 & B1 & B2 & B3). split_and!; [congruence|by eapply option_prefix_trans..].
    + intros (E1 & E2 & A1 & A2) (F1 & F2 & B1 & B2). split_and!; [congruence|congruence|intros; etransitivity; [apply B1|apply A1]|].
      destruct B2 as [B2|B2]; [|by right]. destruct A2 as [A2|[A2 A3]]; [left; congruence|right]. split; [congruence|]. intros which.
      specialize (B1 which). rewrite A3 in B1. by apply prefix_nil_inv in B1.
Qed.

(** The longest list is no shorter than the others. *)
Lemma largest_spec r which : (length (sharingOf r which) <= length (sharingOf r (largestList r)))%nat.
Proof.
  unfold largestList. cbn [foldl]. destruct (Nat.ltb_spec (length (sharingOf r ProtonInvitations)) (length (sharingOf r NonProtonInvitations)));
    match goal with |- context [if (?a <? ?b)%nat then _ else _] => destruct (Nat.ltb_spec a b) end; destruct which; lia.
Qed.

Lemma halve_sharing r which k : sharingOf (halveSharing r which) k `prefix_of` sharingOf r k.
Proof. destruct which, k; cbn; first [reflexivity|apply halve_prefix]. Qed.

Lemma drive_shrink_kept r r' : driveShrink r = Some r' -> drive_kept r r'.
Proof.
  destruct r as [r|r|r]; cbn; [| done|].
  - unfold shrinkListing, listing_kept. destruct (ldEntries r) as [[|e l]|] eqn:E1, (ldDevices r) as [[|d l']|] eqn:E2, (ldSections r) as [[|s l'']|] eqn:E3; cbn; try done; intros [= <-];
      cbn; rewrite ?E1, ?E2, ?E3; split_and!; first [done|apply option_prefix_refl|apply halve_prefix].
  - unfold shrinkSharing. pose proof (largest_spec r) as Hl. destruct (sharingOf r (largestList r)) as [|m l] eqn:El.
    + destruct (srURLAccess r) eqn:Eu; [|done]. intros [= <-]. split_and!; try done. right. split; [done|]. intros which. specialize (Hl which).
      cbn [length] in Hl. assert (E : sharingOf r which = []) by (apply nil_length_inv; lia). by destruct which.
    + intros [= <-]. split_and!; try (by destruct (largestList r)); [|left; by destruct (largestList r)]. apply halve_sharing.
Qed.

Lemma drive_shrink_content r r' : driveShrink r = Some r' -> (driveContent r' < driveContent r)%nat.
Proof.
  destruct r as [r|r|r]; cbn; [| done|].
  - unfold shrinkListing. destruct (ldEntries r) as [[|e l]|] eqn:E1, (ldDevices r) as [[|d l']|] eqn:E2, (ldSections r) as [[|s l'']|] eqn:E3; cbn; try done; intros [= <-];
      cbn; rewrite ?E1, ?E2, ?E3; cbn [length default];
      repeat match goal with |- context [length (halve (?a :: ?l))] => pose proof (halve_length a l); generalize dependent (length (halve (a :: l))); intros end; cbn in *; lia.
  - unfold shrinkSharing. destruct (sharingOf r (largestList r)) as [|m l] eqn:El.
    + destruct (srURLAccess r) eqn:Eu; [|done]. intros [= <-]. cbn. lia.
    + intros [= <-]. pose proof (halve_length m l). destruct (largestList r); cbn in *; rewrite El; cbn in *; lia.
Qed.

Definition oversize (r : driveResult) : Prop := exists text, driveText r = Some text /\ maxToolResultBytes < zlen text.

(** What [encodeBounded] may answer. *)
Definition drive_encoded (r : driveResult) (e : option (bytes * bool)) (flag : bool) : Prop :=
  match e with
  | None => exists n r', driveReduction n r = Some r' /\ driveText r' = None
  | Some (text, truncated) =>
      (exists n r', driveReduction n r = Some r' /\ (forall m r'', (m < n)%nat -> driveReduction m r = Some r'' -> oversize r'')
         /\ driveText r' = Some text /\ zlen text <= maxToolResultBytes /\ drive_kept r r' /\ truncated = flag || (0 <? n)%nat)
      \/ (text = truncationMark /\ truncated = true /\ forall n r', driveReduction n r = Some r' -> oversize r')
  end.

Lemma driveEncodeLoop_spec fuel flag r : (driveContent r < fuel)%nat -> drive_encoded r (driveEncodeLoop fuel flag r) flag.
Proof.
  revert flag r. induction fuel as [|fuel IH]; intros flag r Hf; [lia|]. cbn [driveEncodeLoop].
  destruct (driveText r) as [text|] eqn:Et; [|by exists O, r]. destruct (Z.leb_spec (zlen text) maxToolResultBytes) as [Hl|Hl].
  { left. exists O, r. split; [done|]. split; [intros; lia|]. split; [done|]. split; [done|]. split; [reflexivity|]. by rewrite orb_false_r. }
  assert (Ho : oversize r) by (by exists text). destruct (driveShrink r) as [r1|] eqn:Es.
  2: { right. split; [done|]. split; [done|]. intros [|n] r'; cbn; [by intros [= <-]|by rewrite Es]. }
  pose proof (drive_shrink_content _ _ Es). specialize (IH true r1 ltac:(lia)). pose proof (drive_shrink_kept _ _ Es) as Hk.
  destruct (driveEncodeLoop fuel true r1) as [[text' truncated]|]; cbn [drive_encoded] in *.
  - destruct IH as [(n & r' & Hr & Hm & Ht & Hz & Hkept & ->)|(-> & -> & Hn)].
    + left. exists (S n), r'. cbn [driveReduction]. rewrite Es. split_and!; try done; [|by etransitivity|by rewrite orb_true_r].
      intros [|m] r'' Hlt; cbn; [by intros [= <-]|]. rewrite Es. apply Hm. lia.
    + right. split; [done|]. split; [done|]. intros [|n] r'; cbn; [by intros [= <-]|]. rewrite Es. apply Hn.
  - destruct IH as (n & r' & Hr & Ht). exists (S n), r'. cbn. by rewrite Es.
Qed.

Lemma encode_bound r text truncated : driveEncode r = Some (text, truncated) -> zlen text <= maxToolResultBytes.
Proof.
  intros E. pose proof (driveEncodeLoop_spec (S (driveContent r)) false r ltac:(lia)) as H. unfold driveEncode in E. rewrite E in H.
  destruct H as [(n & r' & _ & _ & _ & Hz & _)|(-> & _)]; [done|]. by vm_compute.
Qed.

(** A tool result is encoded within its bound: as the first reduction
    that fits, which keeps the path, what is shared and a prefix of every
    list, with the flag telling whether anything went; or, when none fits, as
    the bare mark. *)
Theorem drive_encode_exact r :
  drive_encoded r (driveEncode r) false
  /\ forall text truncated, driveEncode r = Some (text, truncated) -> zlen text <= maxToolResultBytes.
Proof. split; [apply driveEncodeLoop_spec; lia|]. intros text truncated. apply encode_bound. Qed.

(** ** What a handler makes of an answer *)

Lemma boundEntries_spec {A} (l : list A) limit : 0 <= limit ->
  boundEntries l limit = (take (Z.to_nat limit) l, limit <? zlen l) /\ zlen (fst (boundEntries l limit)) <= limit.
Proof.
  intros Hl. unfold boundEntries, zlen. destruct (Z.ltb_spec limit (Z.of_nat (length l))); cbn [fst].
  - split; [done|]. rewrite length_take. lia.
  - split; [by rewrite take_ge by lia|lia].
Qed.

(** A status whose link has another password. *)
Definition withPassword (password : bytes) (status : SharingStatus) : SharingStatus :=
  mkStatus (ssShared status) (option_map (fun info : ShareResult =>
    info <| shURLAccess := option_map (fun u : URLAccess => u <| uaCustomPassword := password |>) (shURLAccess info) |>) (ssInfo status)).

Definition statusList (status : SharingStatus) (which : sharingList) : list Member :=
  let info := default zeroShare (ssInfo status) in
  match which with ProtonInvitations => shProtonInvitations info | NonProtonInvitations => shNonProtonInvitations info | Members => shMembers info end.

(** The answer about sharing is the same whatever the link's password;
    it is shared exactly when the command said so with an object, and each
    list is the first hundred of what the command listed, with the flag set
    exactly when one was longer. *)
Theorem sharing_redacted status :
  (forall password, driveEncode (SharingResult (mapSharingStatus (withPassword password status))) = driveEncode (SharingResult (mapSharingStatus status)))
  /\ (srShared (mapSharingStatus status) = true <-> ssShared status = true /\ ssInfo status <> None)
  /\ (forall which, sharingOf (mapSharingStatus status) which = take 100 (statusList status which))
  /\ (srTruncated (mapSharingStatus status) = true <-> exists which, (100 < length (statusList status which))%nat).
Proof.
  assert (Hm : forall st, exists a b c, mapSharingStatus st = mkSharing (ssShared st && if ssInfo st then true else false)
      (take 100 (statusList st ProtonInvitations)) (take 100 (statusList st NonProtonInvitations)) (take 100 (statusList st Members))
      (option_map mapURLAccess (shURLAccess (default zeroShare (ssInfo st)))) (shEditorsCanShare (default zeroShare (ssInfo st))) (a || b || c)
      /\ a = (100 <? zlen (statusList st ProtonInvitations)) /\ b = (100 <? zlen (statusList st NonProtonInvitations)) /\ c = (100 <? zlen (statusList st Members))).
  { intros st. unfold mapSharingStatus, statusList. cbv zeta. unfold maxSharingMembers.
    rewrite !(proj1 (boundEntries_spec _ 100 ltac:(lia))). do 3 eexists. split; [reflexivity|done]. }
  split; [|split; [|split]].
  - intros password. do 2 f_equal. unfold mapSharingStatus, withPassword. destruct status as [shared [info|]]; [|done]. cbn.
    destruct (shURLAccess info); done.
  - destruct (Hm status) as (a & b & c & -> & _). cbn [srShared]. destruct (ssShared status), (ssInfo status); cbn; split; try done; by intros [? ?].
  - intros which. destruct (Hm status) as (a & b & c & -> & _). by destruct which.
  - destruct (Hm status) as (a & b & c & -> & -> & -> & ->). cbn [srTruncated]. unfold zlen. rewrite !orb_true_iff, !Z.ltb_lt. split.
    + intros [[H|H]|H]; [exists ProtonInvitations|exists NonProtonInvitations|exists Members]; lia.
    + intros [[| |] H]; [left; left|left; right|right]; lia.
Qed.

(** A listing is the first entries the command listed, at most the limit. *)
Lemma boundListing_spec path listing limit : 0 <= limit ->
  ldPath (boundListing path listing limit) = path
  /\ match ldSections (boundListing path listing limit), ldDevices (boundListing path listing limit), ldEntries (boundListing path listing limit) with
     | Some l, None, None => path = $"/" /\ l = take (Z.to_nat limit) (lrSections listing)
         /\ ldTruncated (boundListing path listing limit) = (limit <? zlen (lrSections listing))
     | None, Some l, None => path = $"/devices" /\ l = take (Z.to_nat limit) (lrDevices listing)
         /\ ldTruncated (boundListing path listing limit) = (limit <? zlen (lrDevices listing))
     | None, None, Some l => path <> $"/" /\ path <> $"/devices" /\ l = take (Z.to_nat limit) (lrNodes listing)
         /\ ldTruncated (boundListing path listing limit) = (limit <? zlen (lrNodes listing))
     | _, _, _ => False
     end.
Proof.
  intros Hl. unfold boundListing. rewrite !(proj1 (boundEntries_spec _ limit Hl)).
  destruct (beqs path $"/") eqn:E1; [by apply beqs_eq in E1|]. destruct (beqs path $"/devices") eqn:E2; [by apply beqs_eq in E2|].
  cbn. rewrite <- not_true_iff_false, beqs_eq in E1, E2. done.
Qed.

(** ** A call *)

Section Calls.
Context `{L : GoLibrary} {W : Type}.
Variable LookupEnv : bytes -> option bytes.
Variable Run : invocation -> W -> commandRun * W.
Variable waitSlot : W -> slotWait * W.
Variable client : Client.

Abbreviation inv := (invocationOf LookupEnv client).

(** A data command of a tool: one frozen vector with a canonical path. *)
Definition dataVector (path : bytes) (arguments : list bytes) : Prop :=
  frozen arguments /\ (arguments = infoArguments path \/ arguments = sharingArguments path \/ exists type, arguments = listArguments path type).

(** What a request may have run between two states: a handshake, unless the
    gate was open, and then one data command, if the gate is open now. *)
Definition call_runs (s s' : @served W) : Prop :=
  (latched s = true -> latched s' = true)
  /\ exists handshake data, ran (calls s') = ran (calls s) ++ map inv (handshake ++ data)
     /\ (handshake = [] \/ handshake = [[$"version"]] /\ latched s = false)
     /\ (data = [] \/ latched s' = true /\ exists path arguments, canonicalPath path /\ dataVector path arguments /\ data = [arguments]).

Lemma call_nothing s : call_runs s s.
Proof. split; [done|]. exists [], []. split; [by rewrite app_nil_r|]. split; by left. Qed.

(** A step of a handler that stays within this and within the codes. *)
Definition closed {A} (m : @H W A) : Prop := forall s,
  call_runs s (snd (m s)) /\ forall c, fst (m s) = inr c -> c ∈ driveErrorCodes.

Lemma closed_hret {A} (a : A) : closed (hret a).
Proof. intros s. split; [apply call_nothing|done]. Qed.
Lemma closed_hfail {A} c : c ∈ driveErrorCodes -> closed (hfail (A := A) c).
Proof. intros H s. split; [apply call_nothing|]. by intros c' [= <-]. Qed.
Lemma invalid_known : errInvalidArgument ∈ driveErrorCodes.
Proof. by left. Qed.
Lemma closed_wanted {A B} (r : option A) (k : A -> @H W B) : (forall a, r = Some a -> closed (k a)) -> closed (hbind (wanted r errInvalidArgument) k).
Proof. intros H. destruct r as [a|]; [by apply H|]. apply closed_hfail, invalid_known. Qed.
Lemma closed_guarded {B} ok (k : unit -> @H W B) : (ok = true -> closed (k tt)) -> closed (hbind (guarded ok errInvalidArgument) k).
Proof. intros H. destruct ok; [by apply H|]. apply closed_hfail, invalid_known. Qed.

Lemma mapDriveError_known err : mapDriveError err ∈ driveErrorCodes.
Proof. unfold driveErrorCodes. destruct err as [[]|[]]; cbn; repeat (first [by left | right]). Qed.

(** The gate: open behind it, and at most the handshake run. *)
Lemma gateEnsure_spec s :
  (latched s = true -> gateEnsure LookupEnv Run waitSlot client s = (inl tt, s))
  /\ (fst (gateEnsure LookupEnv Run waitSlot client s) = inl tt -> latched (snd (gateEnsure LookupEnv Run waitSlot client s)) = true)
  /\ (forall c, fst (gateEnsure LookupEnv Run waitSlot client s) = inr c -> c ∈ driveErrorCodes)
  /\ exists handshake, ran (calls (snd (gateEnsure LookupEnv Run waitSlot client s))) = ran (calls s) ++ map inv handshake
       /\ (handshake = [] \/ handshake = [[$"version"]] /\ latched s = false).
Proof.
  unfold gateEnsure. destruct (latched s) eqn:El.
  { split_and!; try done. exists []. split; [by rewrite app_nil_r|by left]. }
  split; [done|]. destruct (waitSlot (world (calls s))) as [[[|]|err] w]; cbn [fst snd calls latched].
  - split_and!; try done. exists []. split; [by rewrite app_nil_r|by left].
  - unfold hbind, command. pose proof (handshake_adds LookupEnv Run client (mkState w (ran (calls s)))) as Ha. cbn [calls world ran].
    destruct (Handshake LookupEnv Run client (mkState w (ran (calls s)))) as [[[]|err] c]; cbn [fst snd calls latched] in *.
    + split_and!; try done. exists [[$"version"]]. split; [exact Ha|by right].
    + split; [done|]. split; [intros ? [= <-]; apply mapDriveError_known|]. exists [[$"version"]]. split; [exact Ha|by right].
  - split; [done|]. split; [intros ? [= <-]; apply (mapDriveError_known (ContextError err))|]. exists []. split; [by rewrite app_nil_r|by left].
Qed.

(** The gate and one command behind it. *)
Lemma closed_command {A} path arguments (m : @M W A) (f : A -> driveResult) : canonicalPath path -> (frozen arguments -> dataVector path arguments) ->
  runs_only LookupEnv client m arguments ->
  closed (hbind (gateEnsure LookupEnv Run waitSlot client) (fun _ => hbind (command m) (fun a => hret (f a)))).
Proof.
  intros Hp Hd (vectors & Hadd & Hv) s. pose proof (gateEnsure_spec s) as (Hkeep & Hopen & Hcode & handshake & Hran & Hh). unfold hbind at 1 3.
  assert (Hlatch : latched s = true -> latched (snd (gateEnsure LookupEnv Run waitSlot client s)) = true) by (intros K; by rewrite Hkeep).
  destruct (gateEnsure LookupEnv Run waitSlot client s) as [[[]|c] s1]; cbn [fst snd] in *.
  - specialize (Hadd (calls s1)). specialize (Hopen eq_refl). unfold hbind, command. destruct (m (calls s1)) as [[a|err] c1]; cbn [fst snd calls latched hret] in *.
    all: split; [split; [auto|]|intros c [= <-]; try apply mapDriveError_known].
    all: exists handshake, vectors; split; [by rewrite map_app, app_assoc, <- Hran|]; split; [done|].
    all: destruct Hv as [-> | [-> Hf]]; [by left|right]; split; [done|]; exists path, arguments; auto.
  - split; [|by intros c' [= <-]; apply Hcode]. split; [auto|]. exists handshake, []. rewrite app_nil_r. split; [done|]. split; [done|by left].
Qed.

Lemma closed_pathArgument (arguments : bytes) (k : bytes -> @H W driveResult) : (forall path, canonicalPath path -> isOperand path = true -> closed (k path)) ->
  closed (hbind (pathArgument arguments) k).
Proof.
  intros Hk. unfold pathArgument.
  destruct (decodeArguments pathFields [] arguments) as [path|]; [|apply closed_hfail, invalid_known].
  destruct (validDrivePath path) eqn:E; [|intros s; unfold hbind, guarded; cbn; rewrite E; apply closed_hfail, invalid_known].
  intros s. unfold hbind, wanted, guarded, hret. rewrite E.
  apply Hk; [by apply validDrivePath_spec|by apply valid_operand].
Qed.

Lemma tools_closed definition arguments : definition ∈ driveToolDefinitions LookupEnv Run waitSlot -> closed (dtRun definition client arguments).
Proof.
  intros Hd. repeat (apply elem_of_cons in Hd as [-> | Hd]); [..|by apply elem_of_nil in Hd]; cbn [dtRun].
  - unfold runListDriveEntries. apply closed_wanted. intros input _. apply closed_guarded. intros Hp. apply closed_guarded. intros Ht.
    apply closed_wanted. intros limit _.
    apply (closed_command (inPath input) (listArguments (inPath input) (inType input))); [by apply validDrivePath_spec| |apply list_runs].
    intros Hf. split; [done|]. right. right. by exists (inType input).
  - apply closed_pathArgument. intros path Hp Ho. apply (closed_command path (infoArguments path)); [done| |apply info_runs]. intros Hf. split; auto.
  - apply closed_pathArgument. intros path Hp Ho. apply (closed_command path (sharingArguments path)); [done| |apply sharing_runs]. intros Hf. split; auto.
Qed.

(** What a call answers, and its audit lines when there is an auditor: the
    text of a result within the bound, or one of six codes. *)
Definition drive_answer (name : bytes) (audit : bool) (answer : CallToolResult) (lines : list bytes) : Prop :=
  (IsError answer = false /\ zlen (callText answer) <= maxToolResultBytes
     /\ exists truncated, lines = driveToolCall audit name $"ok" [] truncated)
  \/ (exists code, code ∈ driveErrorCodes /\ answer = errorResult (toolCodeText code) /\ lines = driveToolCall audit name $"error" (toolCodeText code) false).

(** C6: a call of a Drive tool, whatever its arguments: it runs nothing but a
    handshake while the gate is shut, and then at most one frozen data command
    with a canonical path, behind the gate; it answers within the bound or
    with one of six codes, and leaves one audit line, made of the tool's name,
    the outcome, the code and the truncation alone. *)
Theorem drive_call_closed definition audit arguments (s : @served W) :
  definition ∈ driveToolDefinitions LookupEnv Run waitSlot ->
  let '((answer, lines), s') := driveHandler (Some client) audit definition arguments s in
  call_runs s s' /\ drive_answer (dtName definition) audit answer lines
  /\ driveHandler None audit definition arguments s
     = ((errorResult (toolCodeText errUnavailable), driveToolCall audit (dtName definition) $"error" (toolCodeText errUnavailable) false), s).
Proof.
  intros Hd. unfold driveHandler. cbn [driveRunTool]. destruct (tools_closed definition arguments Hd s) as [Hruns Hcodes].
  destruct (dtRun definition client arguments s) as [[result|code] s1]; cbn [fst snd] in *.
  - destruct (driveEncode result) as [[text truncated]|] eqn:E; (split; [done|]); (split; [|done]).
    + left. split; [done|]. split; [by eapply encode_bound|]. by eexists.
    + right. exists errInternal. split; [|done]. unfold driveErrorCodes. repeat (first [by left | right]).
  - split; [done|]. split; [|done]. right. exists code. split; [by apply Hcodes|done].
Qed.
End Calls.

(** ** Concrete calls *)

Definition freeSlot {W} : W -> slotWait * W := fun w => (SlotAcquired false, w).
Definition rootOutput : bytes := $"[{" ++ json_key $"path" ++ json_string $"/my-files" ++ $"},{" ++ json_key $"path" ++ json_string $"/devices" ++ $"}]".
Definition rootArguments : bytes := $"{" ++ json_key $"path" ++ json_string $"/" ++ $"," ++ json_key $"limit" ++ $"1}".

#[local] Instance plain_library : GoLibrary := {| EqualFold := equal_fold; Time := unit; ParseRFC3339 _ := None; FormatRFC3339 _ := []; inUTC _ := true; instant _ := 0 |}.

Definition rootCall : (CallToolResult * list bytes) * @served (list bytes) :=
  driveHandler (Some demoClient) true (mkTool $"list_drive_entries" (runListDriveEntries noEnvironment demoRun freeSlot)) rootArguments
    (mkServed (mkState [pinnedBanner; rootOutput] []) false).

Lemma drive_call_closed_witness :
  fst (fst rootCall) = mkCall false ($"{" ++ json_key $"path" ++ json_string $"/" ++ $"," ++ json_key $"sections" ++ $"[{" ++ json_key $"path"
    ++ json_string $"/my-files" ++ $"}]," ++ json_key $"truncated" ++ $"true}")
  /\ map ivArguments (ran (calls (snd rootCall))) = [[$"version"]; [$"filesystem"; $"list"; $"/"; $"--json"]]
  /\ call_runs noEnvironment demoClient (mkServed (mkState [pinnedBanner; rootOutput] []) false) (snd rootCall).
Proof.
  split; [vm_compute; reflexivity|]. split; [vm_compute; reflexivity|].
  pose proof (drive_call_closed noEnvironment demoRun freeSlot demoClient (mkTool $"list_drive_entries" (runListDriveEntries noEnvironment demoRun freeSlot))
    true rootArguments (mkServed (mkState [pinnedBanner; rootOutput] []) false) ltac:(by left)) as H.
  unfold rootCall. destruct (driveHandler _ _ _ _ _) as [[answer lines] s']. exact (proj1 H).
Defined.

(** The encoding of a small listing, and paths. *)
Lemma drive_encode_exact_witness :
  driveEncode (ListingResult (mkListing $"/" (Some []) None None false))
    = Some ($"{" ++ json_key $"path" ++ json_string $"/" ++ $"," ++ json_key $"sections" ++ $"[]}", false)
  /\ zlen ($"{" ++ json_key $"path" ++ json_string $"/" ++ $"," ++ json_key $"sections" ++ $"[]}") <= maxToolResultBytes.
Proof.
  assert (E : driveEncode (ListingResult (mkListing $"/" (Some []) None None false))
    = Some ($"{" ++ json_key $"path" ++ json_string $"/" ++ $"," ++ json_key $"sections" ++ $"[]}", false)) by (vm_compute; reflexivity).
  split; [exact E|]. exact (proj2 (drive_encode_exact (ListingResult (mkListing $"/" (Some []) None None false))) _ _ E).
Defined.
Lemma drive_path_exact_witness : isOperand $"/my-files/a b" = true /\ validDrivePath $"/a//b" = false /\ validDrivePath $"/a/../b" = false.
Proof. split; [apply (proj1 (proj2 (drive_path_exact $"/my-files/a b"))); vm_compute; reflexivity|]. vm_compute. done. Defined.
Lemma sharing_redacted_witness :
  let status := mkStatus true (Some (zeroShare <| shURLAccess := Some (zeroURLAccess <| uaCustomPassword := $"secret" |>) |>)) in
  ssShared status = true /\ srShared (mapSharingStatus status) = true.
Proof. cbv zeta. split; [reflexivity|]. apply (proj1 (proj2 (sharing_redacted _))). by split. Defined.
