(* ===== verification/DriveFS.v ===== *)
(** * Confined and transactional output

    [internal/drivefs]: the walk along held directory descriptors, a fresh
    file, the transaction that publishes a complete file by a link, and the
    bounded copy into it.  The kernel is a class over an abstract world; every
    call made to it is recorded with its answer. *)
From Stdlib Require Import ZArith Lia Strings.Byte.
From stdpp Require Import base list strings.
From S2P Require Import Prelude GoStrings Monitor DriveCli.

(** ** Errors *)

Inductive cause :=
| Errno (number : Z) | ErrExist | InvalidArguments | WriterRequired | InvalidComponent | StageNotPrivate | StageChanged
| AuthorityUnavailable | RemoveDirectory | RemoveFile | ErrInvalidCopyInput | ErrCopyLimit | ErrCopyRead | ErrShortWrite | WriteFailed
| ContextCause (e : contextError).
(** A Go error is the causes that are joined and wrapped in it; nil has none. *)
Definition failure : Type := list cause.

Definition ENOENT : Z := 2.

(** ** The kernel *)

Inductive openFlag := O_RDONLY | O_WRONLY | O_CREAT | O_EXCL | O_CLOEXEC | O_NOFOLLOW | O_DIRECTORY.
Inductive resolveFlag := RESOLVE_BENEATH | RESOLVE_NO_SYMLINKS.
Record stat := mkStat { stDev : Z; stIno : Z; stMode : Z; stUid : Z }.

Definition S_IFMT : Z := 61440.
Definition S_IFDIR : Z := 16384.

(** A failed call gives its error number. *)
Class Kernel (W : Type) := {
  sysOpen : bytes -> list openFlag -> Z -> W -> (Z + Z) * W;
  sysOpenat2 : Z -> bytes -> list openFlag -> Z -> list resolveFlag -> W -> (Z + Z) * W;
  sysFstatat : Z -> bytes -> W -> (stat + Z) * W;
  sysFstat : Z -> W -> (stat + Z) * W;
  sysMkdirat : Z -> bytes -> Z -> W -> option Z * W;
  sysUnlinkat : Z -> bytes -> bool -> W -> option Z * W;
  sysLinkat : Z -> bytes -> Z -> bytes -> W -> option Z * W;
  sysClose : Z -> W -> option Z * W;
  geteuid : Z;
  randText : W -> bytes * W }.

(** [io.EOF] or another error of a reader. *)
Inductive readError := ReadEOF | ReadFailed.

(** What a bounded copy does: a read of at most some bytes, what came and the
    error with it, and a write. *)
Inductive copyEvent := CopyRead (size : Z) (got : bytes) (err : option readError) | CopyWrite (data : bytes).

(** The calls, with what they gave.  [AT_FDCWD] is an open without parent. *)
Inductive event :=
| Opened (parent : option Z) (name : bytes) (flags : list openFlag) (mode : Z) (resolve : list resolveFlag) (result : Z + Z)
| Stated (parent : Z) (name : bytes) (result : stat + Z)
| StatedFd (fd : Z) (result : stat + Z)
| MadeDirectory (parent : Z) (name : bytes) (mode : Z) (result : option Z)
| Removed (parent : Z) (name : bytes) (directory : bool) (result : option Z)
| Linked (from : Z) (source : bytes) (to : Z) (destination : bytes) (result : option Z)
| Closed (fd : Z) (result : option Z)
| Wrote (fd : Z) (events : list copyEvent) (result : failure).

Section FS.
Context {W : Type} `{K : Kernel W}.

Definition F (A : Type) : Type := logged W event A.
(** The error of a call that gives none or an error number. *)
Definition failed (r : option Z) : failure := match r with Some number => [Errno number] | None => [] end.

(** [platformOpen] on Linux. *)
Definition platformOpen (parent : option Z) (name : bytes) (flags : list openFlag) (mode : Z) : F (Z + Z) :=
  match parent with
  | None => lcall (sysOpen name flags mode) (Opened None name flags mode [])
  | Some fd =>
      let resolve := [RESOLVE_BENEATH; RESOLVE_NO_SYMLINKS] in
      lcall (sysOpenat2 fd name flags mode resolve) (Opened (Some fd) name flags mode resolve)
  end.
Definition fstatat (parent : Z) (name : bytes) : F (stat + Z) := lcall (sysFstatat parent name) (Stated parent name).
Definition fstat (fd : Z) : F (stat + Z) := lcall (sysFstat fd) (StatedFd fd).
Definition mkdirat (parent : Z) (name : bytes) (mode : Z) : F failure :=
  let* r := lcall (sysMkdirat parent name mode) (MadeDirectory parent name mode) in lret (failed r).
Definition remove (parent : Z) (name : bytes) (directory : bool) : F failure :=
  let* r := lcall (sysUnlinkat parent name directory) (Removed parent name directory) in lret (failed r).
Definition publishLink (from : Z) (source : bytes) (to : Z) (destination : bytes) : F failure :=
  let* r := lcall (sysLinkat from source to destination) (Linked from source to destination) in lret (failed r).
Definition closeFd (fd : Z) : F failure := let* r := lcall (sysClose fd) (Closed fd) in lret (failed r).

(** A writer that borrows the descriptor: what it did and its error. *)
Definition writer : Type := Z -> W -> (failure * list copyEvent) * W.
Definition runWriter (write : writer) (fd : Z) : F failure := fun '(w, l) =>
  let '((err, events), w) := write fd w in (err, (w, l ++ [Wrote fd events err])).

(** ** The directory chain *)

Definition badComponent (part : bytes) : bool :=
  beqs part [] || beqs part $"." || beqs part $".." || contains_byte x00 part.
Definition components (path : bytes) : list bytes + failure :=
  let parts := split_byte "/"%byte path in if existsb badComponent parts then inr [InvalidComponent] else inl parts.

Definition directoryFlags : list openFlag := [O_RDONLY; O_CLOEXEC; O_NOFOLLOW; O_DIRECTORY].

(** The loop over the components: the descriptors held, newest first, and the
    last one or the error. *)
Fixpoint walk (parent : Z) (held : list Z) (parts : list bytes) : F ((Z + failure) * list Z) :=
  match parts with
  | [] => lret (inl parent, held)
  | part :: parts =>
      let* r := platformOpen (Some parent) part directoryFlags 0 in
      match r with
      | inr number => lret (inr [Errno number], held)
      | inl fd => walk fd (fd :: held) parts
      end
  end.

(** The deferred closes, innermost first; their errors are joined. *)
Fixpoint closeHeld (err : failure) (held : list Z) : F failure :=
  match held with
  | [] => lret err
  | fd :: held => let* closeErr := closeFd fd in closeHeld (err ++ closeErr) held
  end.

Definition withConfinedParent (root destination : bytes) (use : Z -> bytes -> F failure) : F failure :=
  if negb (has_prefix root $"/") || has_prefix destination $"/" then lret [InvalidArguments]
  else
    match (if beqs root $"/" then inl [] else components (trim_prefix root $"/")), components destination with
    | inr err, _ => lret err
    | _, inr err => lret err
    | inl roots, inl targets =>
        let* r := platformOpen None $"/" directoryFlags 0 in
        match r with
        | inr number => closeHeld [Errno number] []
        | inl fd =>
            let* (at_parent, held) := walk fd [fd] (roots ++ removelast targets) in
            let* err := match at_parent with
              | inr err => lret err
              | inl parent => use parent (List.last targets [])
              end in
            closeHeld err held
        end
    end.

Definition outputFlags : list openFlag := [O_WRONLY; O_CREAT; O_EXCL; O_CLOEXEC; O_NOFOLLOW].
(** The permission bits 0600 and 0700. *)
Definition outputMode : Z := 384.
Definition stageMode : Z := 448.

Definition freshFile (write : writer) (parent : Z) (name : bytes) : F failure :=
  let* r := platformOpen (Some parent) name outputFlags outputMode in
  match r with
  | inr number => lret [Errno number]
  | inl fd =>
      let* err := runWriter write fd in
      let* closeErr := closeFd fd in
      lret (err ++ closeErr)
  end.
Definition WriteFresh (root destination : bytes) (write : option writer) : F failure :=
  match write with
  | None => lret [InvalidArguments]
  | Some write => withConfinedParent root destination (freshFile write)
  end.

(** ** The transaction *)

(** A mode with bits for group or others is refused: 63 is 0077. *)
Definition privateStage (st : stat) : failure :=
  if negb (Z.land (stMode st) S_IFMT =? S_IFDIR) || negb (stUid st =? geteuid) || negb (Z.land (stMode st) 63 =? 0)
  then [StageNotPrivate] else [].

Definition checkStage (parent : Z) (name : bytes) (expected : stat) : F failure :=
  let* r := fstatat parent name in
  lret (match r with
        | inr number => [Errno number]
        | inl current =>
            if negb (stDev current =? stDev expected) || negb (stIno current =? stIno expected)
               || negb (Z.land (stMode current) S_IFMT =? S_IFDIR) then [StageChanged] else []
        end).

Definition sourceName : bytes := $"output".

(** Behind the open output file: its writer, its close and the publication,
    which comes only after both succeeded. *)
Definition writeAndPublish (write : writer) (stageFd outputFd parent : Z) (name : bytes) : F failure :=
  let* err := runWriter write outputFd in
  let* closeErr := closeFd outputFd in
  match err, closeErr with
  | [], [] => publishLink stageFd sourceName parent name
  | [], closeErr => lret closeErr
  | err, closeErr => lret (err ++ closeErr)
  end.

(** Behind the open staging directory. *)
Definition inDirectory (write : writer) (created : stat) (stageFd parent : Z) (name : bytes) : F failure :=
  let* r := fstat stageFd in
  match r with
  | inr number => lret [Errno number]
  | inl opened =>
      if negb (stDev opened =? stDev created) || negb (stIno opened =? stIno created) then lret [StageChanged]
      else match privateStage opened with
      | (_ :: _) as err => lret err
      | [] =>
          let* r := platformOpen (Some stageFd) sourceName outputFlags outputMode in
          match r with
          | inr number => lret [Errno number]
          | inl outputFd =>
              let* err := writeAndPublish write stageFd outputFd parent name in
              let* cleanupErr := remove stageFd sourceName false in
              lret (err ++ match cleanupErr with [] => [] | _ => RemoveFile :: cleanupErr end)
          end
      end
  end.

(** Behind the staging directory that was made and found private. *)
Definition inStage (write : writer) (created : stat) (parent : Z) (stage name : bytes) : F failure :=
  let* r := platformOpen (Some parent) stage directoryFlags 0 in
  match r with
  | inr number => lret [Errno number]
  | inl stageFd =>
      let* err := inDirectory write created stageFd parent name in
      let* closeErr := closeFd stageFd in
      lret (err ++ closeErr)
  end.

(** The deferred removal of the staging directory, if it is still the one made. *)
Definition removeStage (err : failure) (parent : Z) (stage : bytes) (created : stat) : F failure :=
  let* checkErr := checkStage parent stage created in
  match checkErr with
  | _ :: _ => lret (err ++ RemoveDirectory :: checkErr)
  | [] =>
      let* cleanupErr := remove parent stage true in
      lret (err ++ match cleanupErr with [] => [] | _ => RemoveDirectory :: cleanupErr end)
  end.

Definition stagePrefix : bytes := $".croton-output-".

Definition transact (write : writer) (parent : Z) (name : bytes) : F failure :=
  let* r := fstatat parent name in
  match r with
  | inl _ => lret [ErrExist]
  | inr number =>
      if negb (number =? ENOENT) then lret [Errno number]
      else
        let* text := (fun '(w, l) => let (text, w) := randText w in (text, (w, l))) in
        let stage := stagePrefix ++ text in
        let* err := mkdirat parent stage stageMode in
        match err with
        | _ :: _ => lret err
        | [] =>
            let* r := fstatat parent stage in
            match r with
            | inr number => lret [AuthorityUnavailable; Errno number]
            | inl created =>
                match privateStage created with
                | (_ :: _) as err => lret (AuthorityUnavailable :: err)
                | [] =>
                    let* err := inStage write created parent stage name in
                    removeStage err parent stage created
                end
            end
        end
  end.

Definition WriteTransactional (root destination : bytes) (write : option writer) : F failure :=
  match write with
  | None => lret [WriterRequired]
  | Some write => withConfinedParent root destination (transact write)
  end.

(** ** The bounded copy *)

(** What a read returned, and what it put into the buffer. *)
Record readResult := mkRead { readCount : Z; readData : bytes; readErr : option readError }.

(** The source, the context and the file behind a descriptor. *)
Variable Read : Z -> W -> readResult * W.
Variable ctxErr : W -> option contextError * W.
Variable WriteFile : Z -> bytes -> W -> (Z * bool) * W.

Definition bufferSize : Z := 32 * 1024.

(** How far the loop went: done with an error, or out of the fuel given. *)
Inductive copyEnd := CopyDone (err : failure) | CopyFuel.

Fixpoint copyLoop (fuel : nat) (fd remaining emptyReads : Z) (w : W) (l : list copyEvent) : (copyEnd * list copyEvent) * W :=
  match fuel with
  | O => ((CopyFuel, l), w)
  | S fuel =>
      match ctxErr w with
      | (Some e, w) => ((CopyDone [ContextCause e], l), w)
      | (None, w) =>
          let size := if remaining =? 0 then 1 else Z.min remaining bufferSize in
          let (r, w) := Read size w in
          let n := readCount r in
          let data := take (Z.to_nat n) (resize (Z.to_nat size) x00 (readData r)) in
          let l := l ++ [CopyRead size data (readErr r)] in
          match ctxErr w with
          | (Some e, w) => ((CopyDone [ContextCause e], l), w)
          | (None, w) =>
              if (n <? 0) || (size <? n) then ((CopyDone [ErrCopyRead], l), w)
              else if (remaining =? 0) && (0 <? n) then ((CopyDone [ErrCopyLimit], l), w)
              else
                (* The end of a round, with the new bounds. *)
                let next remaining emptyReads w l :=
                  match readErr r with
                  | Some ReadEOF =>
                      let (e, w) := ctxErr w in ((CopyDone (match e with Some e => [ContextCause e] | None => [] end), l), w)
                  | Some ReadFailed => ((CopyDone [ErrCopyRead], l), w)
                  | None => if 100 <=? emptyReads then ((CopyDone [ErrCopyRead], l), w) else copyLoop fuel fd remaining emptyReads w l
                  end in
                if 0 <? n then
                  let '((written, writeFailed), w) := WriteFile fd data w in
                  let l := l ++ [CopyWrite data] in
                  if writeFailed then ((CopyDone [WriteFailed], l), w)
                  else if negb (written =? n) then ((CopyDone [ErrShortWrite], l), w)
                  else next (remaining - n) 0 w l
                else next remaining (emptyReads + 1) w l
          end
      end
  end.

(** A round reads a byte or is one of a hundred that do not. *)
Definition copyFuel (limit : Z) : nat := S (100 * S (Z.to_nat limit)).

Definition copyBounded (limit : Z) : writer := fun fd w =>
  match copyLoop (copyFuel limit) fd limit 0 w [] with
  | ((CopyDone err, l), w) => ((err, l), w)
  | ((CopyFuel, l), w) => (([ErrCopyRead], l), w)
  end.

(** [present]: the context and the source are not nil. *)
Definition BoundedTransactionalCopy (present : bool) (root destination : bytes) (limit : Z) : F failure := fun '(w, l) =>
  if negb present || (limit <=? 0) then ([ErrInvalidCopyInput], (w, l))
  else match ctxErr w with
       | (Some e, w) => ([ContextCause e], (w, l))
       | (None, w) => WriteTransactional root destination (Some (copyBounded limit)) (w, l)
       end.
End FS.

(** * What confined output promises

    A monitor reads the calls of one operation.  It admits them only while
    every call goes to the innermost descriptor held, by one plain name and
    without following a link, closes undo opens in order, a directory is
    removed only just after its identity was checked, and a link comes only
    directly behind a writer that succeeded and a close that did. *)

(** ** The monitor *)

Inductive draft := NoDraft | Written (events : list copyEvent) | Ready (events : list copyEvent).
Record monitor := mkMonitor { stack : list Z; drafted : draft; made : option bytes; checked : bool; published : option (list copyEvent) }.
Definition watching : monitor := mkMonitor [] NoDraft None false None.

Definition plainName (name : bytes) : bool := negb (badComponent name) && negb (contains_byte "/"%byte name).

(** Directories and fresh files: never through a link, never over a file. *)
#[export] Instance openFlag_eq_dec : EqDecision openFlag.
Proof. solve_decision. Defined.
#[export] Instance resolveFlag_eq_dec : EqDecision resolveFlag.
Proof. solve_decision. Defined.
Definition safeFlags (flags : list openFlag) : bool :=
  bool_decide (O_NOFOLLOW ∈ flags) && (bool_decide (O_DIRECTORY ∈ flags) || bool_decide (O_EXCL ∈ flags)).
Definition safeResolve (resolve : list resolveFlag) : bool :=
  bool_decide (RESOLVE_BENEATH ∈ resolve) && bool_decide (RESOLVE_NO_SYMLINKS ∈ resolve).

Definition atTop (m : monitor) (fd : Z) : bool := match stack m with top :: _ => top =? fd | [] => false end.
(** Behind any other call. *)
Definition calm (m : monitor) (held : list Z) : monitor := mkMonitor held NoDraft (made m) false (published m).
Definition pushed (m : monitor) (r : Z + Z) : monitor := calm m (match r with inl fd => fd :: stack m | inr _ => stack m end).

Definition mstep (m : monitor) (e : event) : option monitor :=
  match e with
  | Opened None name flags _ _ r => if bool_decide (stack m = []) && beqs name $"/" && safeFlags flags then Some (pushed m r) else None
  | Opened (Some parent) name flags _ resolve r =>
      if atTop m parent && plainName name && safeFlags flags && safeResolve resolve then Some (pushed m r) else None
  | Stated parent name r =>
      if atTop m parent && plainName name
      then Some (mkMonitor (stack m) NoDraft (made m) (bool_decide (made m = Some name) && if r then true else false) (published m)) else None
  | StatedFd fd _ => if atTop m fd then Some (calm m (stack m)) else None
  | MadeDirectory parent name mode r =>
      if atTop m parent && plainName name && (mode =? stageMode) && bool_decide (made m = None)
      then Some (mkMonitor (stack m) NoDraft (match r with None => Some name | Some _ => None end) false (published m)) else None
  | Removed parent name true r =>
      if atTop m parent && bool_decide (made m = Some name) && checked m
      then Some (mkMonitor (stack m) NoDraft (match r with None => None | Some _ => made m end) false (published m)) else None
  | Removed parent name false _ => if atTop m parent && beqs name sourceName then Some (calm m (stack m)) else None
  | Linked from source to destination r =>
      match stack m, drafted m, published m with
      | top :: next :: _, Ready events, None =>
          if (top =? from) && (next =? to) && beqs source sourceName && plainName destination
          then Some (mkMonitor (stack m) NoDraft (made m) false (match r with None => Some events | Some _ => None end)) else None
      | _, _, _ => None
      end
  | Closed fd r =>
      match stack m with
      | top :: held =>
          if top =? fd
          then Some (mkMonitor held (match drafted m, r with Written events, None => Ready events | _, _ => NoDraft end) (made m) false (published m))
          else None
      | [] => None
      end
  | Wrote fd events result =>
      if atTop m fd then Some (mkMonitor (stack m) (match result with [] => Written events | _ => NoDraft end) (made m) false (published m)) else None
  end.
Abbreviation mrun := (Monitor.mrun mstep).
Abbreviation tracks := (Monitor.tracks mstep).

(** ** Tracking an operation *)

Section Track.
Context {W : Type} `{K : Kernel W}.

(** A call that gives no more than an error. *)
Lemma tracks_failed m (f : W -> option Z * W) (e : option Z -> event) (next : option Z -> monitor) : (forall r, mstep m (e r) = Some (next r)) ->
  tracks m (lbind (lcall f e) (fun r => lret (failed r))) (fun err m' => exists r, err = failed r /\ m' = next r).
Proof. intros H. eapply tracks_bind; [by apply tracks_call|]. intros r m1 ->. apply tracks_ret. by exists r. Qed.
End Track.

(** ** Names *)

Lemma component_plain part : badComponent part = false -> ~ In "/"%byte part -> plainName part = true.
Proof. intros Hb Hs. unfold plainName. rewrite Hb. apply contains_byte_false in Hs. by rewrite Hs. Qed.

Lemma components_plain path parts : components path = inl parts -> parts <> [] /\ Forall (fun part => plainName part = true) parts.
Proof.
  unfold components. cbv zeta. destruct (existsb badComponent (split_byte "/"%byte path)) eqn:E; [done|]. intros [= <-].
  split; [apply split_byte_nonempty|]. apply Forall_forall. intros part Hp%list_elem_of_In. apply component_plain; [|by eapply split_byte_no_sep].
  destruct (badComponent part) eqn:Eb; [|done]. exfalso. apply not_true_iff_false in E. apply E, existsb_exists. by exists part.
Qed.

Lemma atTop_cons m fd held : stack m = fd :: held -> atTop m fd = true.
Proof. unfold atTop. intros ->. apply Z.eqb_refl. Qed.

(** ** The chain of directories *)

Section Chain.
Context {W : Type} `{K : Kernel W}.

(** What a step keeps. *)
Definition kept (m m' : monitor) : Prop := made m' = made m /\ published m' = published m.

Lemma tracks_open m parent held name flags mode : stack m = parent :: held -> plainName name = true -> safeFlags flags = true ->
  tracks m (platformOpen (Some parent) name flags mode) (fun r m' => m' = pushed m r).
Proof.
  intros Hs Hn Hf. unfold platformOpen. apply tracks_call. intros r. cbn [mstep]. rewrite (atTop_cons _ _ _ Hs), Hn, Hf. reflexivity.
Qed.

Lemma tracks_close m fd held : stack m = fd :: held ->
  tracks m (closeFd fd) (fun err m' => stack m' = held /\ kept m m' /\ (forall events, drafted m = Written events -> err = [] -> drafted m' = Ready events)
    /\ (drafted m' <> NoDraft -> err = [] /\ exists events, drafted m = Written events)).
Proof.
  intros Hs. unfold closeFd. eapply tracks_impl; [apply (tracks_failed m (sysClose fd) (Closed fd) (fun r =>
    mkMonitor held (match drafted m, r with Written events, None => Ready events | _, _ => NoDraft end) (made m) false (published m)))|].
  - intros r. cbn [mstep]. by rewrite Hs, Z.eqb_refl.
  - intros err m' (r & -> & ->). cbn. split_and!; try done; [by intros events -> ?; destruct r|].
    destruct (drafted m), r; try done. intros _. split; [done|by eexists].
Qed.

Lemma closeHeld_tracks err held m : stack m = held ->
  tracks m (closeHeld err held) (fun err' m' => stack m' = [] /\ kept m m' /\ exists more, err' = err ++ more).
Proof.
  revert err m. induction held as [|fd held IH]; intros err m Hs; cbn [closeHeld].
  - apply tracks_ret. split; [done|]. split; [done|]. exists []. by rewrite app_nil_r.
  - eapply tracks_bind; [by apply tracks_close|]. intros e m1 (Hs1 & Hk & _). eapply tracks_impl; [by apply IH|].
    intros err' m' (H1 & H2 & more & ->). split; [done|]. unfold kept in *. split; [destruct Hk as [<- <-]; done|]. exists (e ++ more). by rewrite app_assoc.
Qed.

Lemma walk_tracks parts parent held m : stack m = parent :: held -> Forall (fun part => plainName part = true) parts ->
  tracks m (walk parent (parent :: held) parts) (fun r m' => stack m' = snd r /\ kept m m' /\
    match fst r with inl last => exists rest, snd r = last :: rest | inr err => err <> [] end).
Proof.
  revert parent held m. induction parts as [|part parts IH]; intros parent held m Hs Hp; cbn [walk].
  - apply tracks_ret. split_and!; try done. by exists held.
  - apply Forall_cons in Hp as [Hp Hps]. eapply tracks_bind; [by eapply tracks_open|]. intros [fd|number] m1 ->.
    + eapply tracks_impl; [apply IH; [cbn; by rewrite Hs|done]|]. intros r m' (H1 & H2 & H3). by split_and!.
    + apply tracks_ret. by split_and!.
Qed.

(** An operation under the parent directory of a destination. *)
Lemma confined_tracks root destination use (Q : failure -> option bytes -> option (list copyEvent) -> Prop) :
  (forall parent name held m, stack m = parent :: held -> plainName name = true -> made m = None -> published m = None ->
     tracks m (use parent name) (fun err m' => stack m' = stack m /\ Q err (made m') (published m'))) ->
  tracks watching (withConfinedParent (W := W) root destination use) (fun err m' => stack m' = [] /\
    ((err <> [] /\ made m' = None /\ published m' = None) \/ exists err0 more, err = err0 ++ more /\ Q err0 (made m') (published m'))).
Proof.
  intros Huse. unfold withConfinedParent. destruct (_ || _); [apply tracks_ret; split; [done|by left]|].
  destruct (if beqs root $"/" then inl [] else components (trim_prefix root $"/")) as [roots|err] eqn:Er.
  2: { destruct (beqs root $"/"); [done|]. unfold components in Er. cbv zeta in Er. destruct (existsb _ _); [|done]. injection Er as <-.
       apply tracks_ret. split; [done|by left]. }
  destruct (components destination) as [targets|err] eqn:Et.
  2: { unfold components in Et. cbv zeta in Et. destruct (existsb _ _); [|done]. injection Et as <-. apply tracks_ret. split; [done|by left]. }
  assert (Hroots : Forall (fun part => plainName part = true) roots).
  { destruct (beqs root $"/"); [by injection Er as <-|]. by apply components_plain in Er as [_ ?]. }
  apply components_plain in Et as [Hne Htargets].
  eapply tracks_bind; [apply (tracks_call mstep watching _ _ (pushed watching)); reflexivity|]. intros [fd|number] m1 ->.
  2: { cbn [closeHeld]. apply tracks_ret. split; [done|by left]. }
  destruct (exists_last Hne) as (front & name & ->). rewrite removelast_last, last_last. apply Forall_app in Htargets as [Hfront Hname].
  eapply tracks_bind; [apply (walk_tracks _ fd []); [done|by apply Forall_app]|]. intros [[parent|err] held] m2 (Hs & [Hm Hpub] & Hr); cbn [fst snd] in *.
  - destruct Hr as (rest & ->). eapply tracks_bind; [apply (Huse parent name rest m2); [done| |done|done]|].
    { by apply Forall_cons in Hname as [? _]. }
    intros err m3 (Hs3 & HQ). eapply tracks_impl; [apply closeHeld_tracks; congruence|]. intros err' m' (H1 & [H2 H3] & more & ->).
    split; [done|]. right. exists err, more. by rewrite H2, H3.
  - eapply tracks_bind; [by apply (tracks_ret mstep m2 err (fun e m' => e = err /\ m' = m2))|]. intros e m3 [-> ->].
    eapply tracks_impl; [by apply closeHeld_tracks|]. intros err' m' (H1 & [H2 H3] & more & ->).
    split; [done|]. left. rewrite H2, H3, Hm, Hpub. split; [by destruct err|done].
Qed.
End Chain.

(** ** A fresh file and the transaction *)

Section Output.
Context {W : Type} `{K : Kernel W}.
Variable write : @writer W.

(** What holds of the events of a writer that succeeds. *)
Variable P : list copyEvent -> Prop.
Hypothesis Hwrite : forall fd w events, fst (write fd w) = ([], events) -> P events.

Lemma writer_tracks m fd held : stack m = fd :: held ->
  tracks m (runWriter write fd) (fun err m' => stack m' = stack m /\ kept m m' /\ (err = [] -> exists events, drafted m' = Written events /\ P events)
    /\ (forall events, drafted m' = Written events -> err = [])).
Proof.
  intros Hs w l. unfold runWriter. specialize (Hwrite fd w). destruct (write fd w) as [[err events] w1]; cbn [fst snd].
  eexists [_], _. split; [done|]. split; [cbn [Monitor.mrun mstep]; by rewrite (atTop_cons _ _ _ Hs)|]. cbn. split_and!; try done.
  - intros ->. exists events. split; [done|]. by apply Hwrite.
  - by destruct err.
Qed.

Lemma output_safe : safeFlags outputFlags = true /\ safeFlags directoryFlags = true.
Proof. split; reflexivity. Qed.

Lemma fresh_tracks m parent held name : stack m = parent :: held -> plainName name = true ->
  tracks m (freshFile write parent name) (fun err m' => stack m' = stack m /\ kept m m' /\ (err = [] -> exists events, drafted m' = Ready events /\ P events)).
Proof.
  intros Hs Hn. unfold freshFile. eapply tracks_bind; [eapply tracks_open; [done|done|apply output_safe]|]. intros [fd|number] m1 ->; [|by apply tracks_ret].
  eapply tracks_bind; [by eapply writer_tracks|]. intros err m2 (Hs2 & Hk2 & Hd2 & Hd2').
  eapply tracks_bind; [eapply tracks_close; by rewrite Hs2|]. intros closeErr m3 (Hs3 & Hk3 & Hd3 & _). apply tracks_ret. unfold kept in *.
  split; [done|]. split; [destruct Hk2, Hk3; split; etransitivity; eauto|]. intros [-> ->]%app_eq_nil.
  destruct (Hd2 eq_refl) as (events & Hw & HP). exists events. split; [by apply Hd3|done].
Qed.

(** Of a finished transaction: success has published what [P] says, and the
    staging directory is gone. *)
Definition settledBy (err : failure) (stage : option bytes) (pub : option (list copyEvent)) : Prop :=
  (err = [] -> pub <> None /\ stage = None) /\ (forall events, pub = Some events -> P events).

Lemma plain_source : plainName sourceName = true.
Proof. reflexivity. Qed.

Lemma publish_tracks m outputFd stageFd parent held name : stack m = outputFd :: stageFd :: parent :: held -> plainName name = true -> published m = None ->
  tracks m (writeAndPublish write stageFd outputFd parent name) (fun err m' => stack m' = stageFd :: parent :: held /\ made m' = made m
    /\ (err = [] -> published m' <> None) /\ (forall events, published m' = Some events -> P events)).
Proof.
  intros Hs Hn Hp. unfold writeAndPublish. eapply tracks_bind; [by eapply writer_tracks|]. intros err m1 (Hs1 & [Hm1 Hp1] & Hd1 & Hd1').
  eapply tracks_bind; [eapply tracks_close; by rewrite Hs1|]. intros closeErr m2 (Hs2 & [Hm2 Hp2] & Hd2 & _).
  assert (Hnone : published m2 = None) by congruence.
  assert (Hquit : forall e : failure, e <> [] -> tracks m2 (lret (W := W) e) (fun err m' => stack m' = stageFd :: parent :: held /\ made m' = made m
    /\ (err = [] -> published m' <> None) /\ (forall events, published m' = Some events -> P events))).
  { intros e He. apply tracks_ret. rewrite Hnone. split_and!; [done|congruence|done|done]. }
  destruct err as [|c err]; [|by apply Hquit]. destruct closeErr as [|c closeErr]; [|by apply Hquit].
  destruct (Hd1 eq_refl) as (events & Hw & HP). specialize (Hd2 events Hw eq_refl).
  unfold publishLink. eapply tracks_impl; [eapply (tracks_failed m2 _ _ (fun r =>
    mkMonitor (stack m2) NoDraft (made m2) false (match r with None => Some events | Some _ => None end)))|].
  - intros r. cbn [mstep]. rewrite Hs2, Hd2, Hnone, Hn, !Z.eqb_refl. change (beqs sourceName sourceName) with true. reflexivity.
  - intros err m' (r & -> & ->). cbn. split_and!; [done|congruence|by destruct r|]. intros ev. destruct r; [done|]. by intros [= <-].
Qed.

Lemma tracks_remove_file m stageFd held : stack m = stageFd :: held ->
  tracks m (remove stageFd sourceName false) (fun err m' => stack m' = stack m /\ kept m m').
Proof.
  intros Hs. unfold remove. eapply tracks_impl; [apply (tracks_failed m _ _ (fun _ => calm m (stack m)))|].
  - intros r. cbn [mstep]. by rewrite (atTop_cons _ _ _ Hs).
  - by intros err m' (r & -> & ->).
Qed.

Lemma directory_tracks m created stageFd parent held name : stack m = stageFd :: parent :: held -> plainName name = true -> published m = None ->
  tracks m (inDirectory write created stageFd parent name) (fun err m' => stack m' = stack m /\ made m' = made m
    /\ (err = [] -> published m' <> None) /\ (forall events, published m' = Some events -> P events)).
Proof.
  intros Hs Hn Hp. unfold inDirectory.
  assert (Hquit : forall (m1 : monitor) (e : failure), stack m1 = stack m -> made m1 = made m -> published m1 = None -> e <> [] ->
    tracks m1 (lret (W := W) e) (fun err m' => stack m' = stack m /\ made m' = made m /\ (err = [] -> published m' <> None) /\ (forall events, published m' = Some events -> P events))).
  { intros m1 e H1 H2 H3 He. apply tracks_ret. rewrite H3. by split_and!. }
  eapply tracks_bind; [apply (tracks_call mstep m _ _ (fun _ => calm m (stack m))); intros r; cbn [mstep]; by rewrite (atTop_cons _ _ _ Hs)|].
  intros [opened|number] m1 ->; [|by apply Hquit]. destruct (_ || _); [by apply Hquit|]. destruct (privateStage opened); [|by apply Hquit].
  eapply tracks_bind; [eapply tracks_open; [exact Hs|apply plain_source|apply output_safe]|]. intros [outputFd|number] m2 ->; [|by apply Hquit].
  eapply tracks_bind; [by apply (publish_tracks _ outputFd stageFd parent held); [cbn; rewrite Hs| |]|]. intros err m3 (Hs3 & Hm3 & Hp3 & HP3).
  eapply tracks_bind; [by apply (tracks_remove_file m3 stageFd (parent :: held))|]. intros cleanupErr m4 (Hs4 & [Hm4 Hp4]). apply tracks_ret.
  rewrite Hs4, Hm4, Hp4, Hs3, Hm3, Hs. split; [done|]. split; [done|]. split; [|done]. intros [-> _]%app_eq_nil. by apply Hp3.
Qed.

Lemma stage_tracks m created parent held stage name : stack m = parent :: held -> plainName stage = true -> plainName name = true -> published m = None ->
  tracks m (inStage write created parent stage name) (fun err m' => stack m' = stack m /\ made m' = made m
    /\ (err = [] -> published m' <> None) /\ (forall events, published m' = Some events -> P events)).
Proof.
  intros Hs Hst Hn Hp. unfold inStage. eapply tracks_bind; [eapply tracks_open; [exact Hs|done|apply output_safe]|].
  intros [stageFd|number] m1 ->; [|apply tracks_ret; cbn; by rewrite Hp].
  eapply tracks_bind; [by apply (directory_tracks _ created stageFd parent held); [cbn; rewrite Hs| |]|]. intros err m2 (Hs2 & Hm2 & Hp2 & HP2).
  eapply tracks_bind; [eapply tracks_close; rewrite Hs2; reflexivity|]. intros closeErr m3 (Hs3 & [Hm3 Hp3] & _). apply tracks_ret.
  rewrite Hs3, Hm3, Hp3, Hm2. split; [done|]. split; [done|]. split; [|done]. intros [-> _]%app_eq_nil. by apply Hp2.
Qed.

Lemma check_tracks m parent held stage created : stack m = parent :: held -> plainName stage = true -> made m = Some stage ->
  tracks m (checkStage parent stage created) (fun err m' => stack m' = stack m /\ kept m m' /\ (err = [] -> checked m' = true)).
Proof.
  intros Hs Hst Hm. unfold checkStage. eapply tracks_bind; [apply (tracks_call mstep m _ _ (fun r =>
    mkMonitor (stack m) NoDraft (made m) (bool_decide (made m = Some stage) && match r with inl _ => true | inr _ => false end) (published m)))|].
  - intros r. cbn [mstep]. by rewrite (atTop_cons _ _ _ Hs), Hst.
  - intros [current|number] m1 ->; apply tracks_ret; cbn; (split; [done|]); (split; [done|]); [|done]. intros _. by rewrite bool_decide_eq_true_2.
Qed.

Lemma removal_tracks m err parent held stage created : stack m = parent :: held -> plainName stage = true -> made m = Some stage ->
  tracks m (removeStage err parent stage created) (fun err' m' => stack m' = stack m /\ published m' = published m /\ (err' = [] -> err = [] /\ made m' = None)).
Proof.
  intros Hs Hst Hm. unfold removeStage. eapply tracks_bind; [by eapply check_tracks|]. intros checkErr m1 (Hs1 & [Hm1 Hp1] & Hc).
  destruct checkErr as [|c checkErr].
  - unfold remove. eapply tracks_bind.
    + apply (tracks_failed m1 _ _ (fun r => mkMonitor (stack m1) NoDraft (match r with None => None | Some _ => made m1 end) false (published m1))).
      intros r. cbn [mstep]. rewrite (atTop_cons m1 parent held) by congruence. rewrite (Hc eq_refl), bool_decide_eq_true_2 by congruence. done.
    + intros cleanupErr m2 (r & -> & ->). apply tracks_ret. cbn. split; [done|]. split; [done|]. intros [-> H]%app_eq_nil. by destruct r.
  - apply tracks_ret. split; [done|]. split; [done|]. by intros [-> [=]]%app_eq_nil.
Qed.

(** [rand.Text] is base32. *)
Hypothesis Hrand : forall w, Forall (fun c => c <> "/"%byte /\ c <> x00) (fst (randText w)).

Lemma stage_plain w : plainName (stagePrefix ++ fst (randText w)) = true.
Proof.
  assert (Hin : forall c : byte, c = "/"%byte \/ c = x00 -> ~ In c (stagePrefix ++ fst (randText w))).
  { intros c Hc. rewrite in_app_iff. intros [H|H].
    - destruct Hc as [-> | ->]; cbn in H; repeat destruct H as [H|H]; done.
    - specialize (Hrand w). rewrite Forall_forall in Hrand. apply list_elem_of_In, Hrand in H. destruct Hc, H; congruence. }
  unfold plainName, badComponent. rewrite !(proj2 (contains_byte_false _ _)) by (apply Hin; auto). reflexivity.
Qed.

Lemma transact_tracks m parent held name : stack m = parent :: held -> plainName name = true -> made m = None -> published m = None ->
  tracks m (transact write parent name) (fun err m' => stack m' = stack m /\ settledBy err (made m') (published m')).
Proof.
  intros Hs Hn Hm Hp. unfold transact.
  assert (Hquit : forall (m1 : monitor) (e : failure), stack m1 = stack m -> published m1 = None -> e <> [] ->
    tracks m1 (lret (W := W) e) (fun err m' => stack m' = stack m /\ settledBy err (made m') (published m'))).
  { intros m1 e H1 H2 He. apply tracks_ret. split; [done|]. unfold settledBy. by rewrite H2. }
  eapply tracks_bind; [apply (tracks_call mstep m _ _ (fun _ => mkMonitor (stack m) NoDraft None false (published m)));
    intros r; cbn [mstep]; by rewrite (atTop_cons _ _ _ Hs), Hn, Hm|].
  intros [st|number] m1 ->; [by apply Hquit|]. destruct (negb (number =? ENOENT)); [by apply Hquit|].
  eapply (tracks_bind mstep _ _ _ (fun text m' => m' = mkMonitor (stack m) NoDraft None false (published m) /\ plainName (stagePrefix ++ text) = true)).
  { intros w l. pose proof (stage_plain w) as Hst. destruct (randText w) as [text w1]. exists [], (mkMonitor (stack m) NoDraft None false (published m)). cbn. rewrite app_nil_r. by split_and!. }
  intros text m1 (-> & Hst). set (stage := stagePrefix ++ text) in *. cbv zeta.
  unfold mkdirat. eapply tracks_bind; [apply (tracks_failed (mkMonitor (stack m) NoDraft None false (published m)) _ _ (fun r =>
    mkMonitor (stack m) NoDraft (match r with None => Some stage | Some _ => None end) false (published m)));
    intros r; unfold mstep, atTop; cbn [stack made published]; by rewrite Hs, Z.eqb_refl, Hst|].
  intros err m1 (r & -> & ->). destruct r as [number'|]; cbn [failed]; [by apply Hquit|].
  eapply tracks_bind; [apply (tracks_call mstep (mkMonitor (stack m) NoDraft (Some stage) false (published m)) _ _ (fun r =>
    mkMonitor (stack m) NoDraft (Some stage) (match r with inl _ => true | inr _ => false end) (published m)));
    intros r; unfold mstep, atTop; cbn [stack made published]; rewrite Hs, Z.eqb_refl, Hst, bool_decide_eq_true_2 by done; by destruct r|].
  intros [created|number'] m1 ->; [|by apply Hquit]. destruct (privateStage created); [|by apply Hquit].
  eapply tracks_bind; [by eapply stage_tracks|]. intros err m2 (Hs2 & Hm2 & Hp2 & HP2). cbn [stack made] in *.
  eapply tracks_impl; [apply (removal_tracks m2 err parent held stage created); [congruence|done|done]|]. intros err' m' (H1 & H2 & H3).
  split; [congruence|]. split; [|intros events; rewrite H2; apply HP2]. intros He. destruct (H3 He) as [-> ?]. rewrite H2. auto.
Qed.
End Output.

(** ** What an admitted log says *)

Definition openedBy (e : event) : list Z := match e with Opened _ _ _ _ _ (inl fd) => [fd] | _ => [] end.
Definition closedBy (e : event) : list Z := match e with Closed fd _ => [fd] | _ => [] end.
Definition linkedBy (e : event) : nat := match e with Linked _ _ _ _ None => 1 | _ => 0 end.
Definition opened (k : list event) : list Z := concat (map openedBy k).
Definition closed (k : list event) : list Z := concat (map closedBy k).
Definition links (k : list event) : nat := list_sum (map linkedBy k).

(** The directories made, and those removed. *)
Definition madeBy (e : event) : list bytes := match e with MadeDirectory _ name _ None => [name] | _ => [] end.
Definition removedBy (e : event) : list bytes := match e with Removed _ name true None => [name] | _ => [] end.
Definition madeDirectories (k : list event) : list bytes := concat (map madeBy k).
Definition removedDirectories (k : list event) : list bytes := concat (map removedBy k).

(** Where the draft of a monitor comes from. *)
Definition draft_seen (k : list event) (m : monitor) : Prop :=
  match drafted m with
  | NoDraft => True
  | Written events => exists k0 fd, k = k0 ++ [Wrote fd events []] /\ atTop m fd = true
  | Ready events => exists k0 fd, k = k0 ++ [Wrote fd events []; Closed fd None]
  end.

Record admitted (k : list event) (m : monitor) : Prop := {
  seen_draft : draft_seen k m;
  seen_checked : checked m = true -> exists k0 parent name st, k = k0 ++ [Stated parent name (inl st)] /\ made m = Some name /\ atTop m parent = true;
  seen_stack : opened k ≡ₚ closed k ++ stack m;
  seen_published events : published m = Some events -> exists k0 fd from source to destination k2,
    k = k0 ++ [Wrote fd events []; Closed fd None; Linked from source to destination None] ++ k2;
  seen_made : madeDirectories k = removedDirectories k ++ option_list (made m);
  seen_links : links k = match published m with Some _ => 1%nat | None => O end }.

Lemma mstep_admitted k m e m' : admitted k m -> mstep m e = Some m' -> admitted (k ++ [e]) m'.
Proof.
  intros [Hd Hch Hs Hpub Hmd Hl] E.
  assert (Hop : opened (k ++ [e]) = opened k ++ openedBy e) by (unfold opened; rewrite map_app, concat_app; cbn; by rewrite app_nil_r).
  assert (Hcl : closed (k ++ [e]) = closed k ++ closedBy e) by (unfold closed; rewrite map_app, concat_app; cbn; by rewrite app_nil_r).
  assert (Hli : links (k ++ [e]) = (links k + linkedBy e)%nat) by (unfold links; rewrite map_app, list_sum_app; cbn; lia).
  assert (Hma : madeDirectories (k ++ [e]) = madeDirectories k ++ madeBy e) by (unfold madeDirectories; rewrite map_app, concat_app; cbn; by rewrite app_nil_r).
  assert (Hre : removedDirectories (k ++ [e]) = removedDirectories k ++ removedBy e) by (unfold removedDirectories; rewrite map_app, concat_app; cbn; by rewrite app_nil_r).
  assert (Hsame : madeBy e = [] -> removedBy e = [] -> made m' = made m -> madeDirectories (k ++ [e]) = removedDirectories (k ++ [e]) ++ option_list (made m')).
  { intros H1 H2 H3. by rewrite Hma, Hre, H1, H2, H3, !app_nil_r. }
  assert (Hmore : published m' = published m -> forall events, published m' = Some events -> exists k0 fd from source to destination k2,
    k ++ [e] = k0 ++ [Wrote fd events []; Closed fd None; Linked from source to destination None] ++ k2).
  { intros Ep events Hev. rewrite Ep in Hev. destruct (Hpub events Hev) as (k0 & fd & from & source & to & destination & k2 & ->).
    exists k0, fd, from, source, to, destination, (k2 ++ [e]). by rewrite <- !app_assoc. }
  assert (Hcalm : drafted m' = NoDraft -> checked m' = false -> openedBy e = [] -> closedBy e = [] -> stack m' = stack m -> published m' = published m ->
    madeDirectories (k ++ [e]) = removedDirectories (k ++ [e]) ++ option_list (made m') -> (links k + linkedBy e)%nat = match published m' with Some _ => 1%nat | None => O end -> admitted (k ++ [e]) m').
  { intros H1 H0 H2 H3 H4 Hp Hm' H5. split; [unfold draft_seen; by rewrite H1|by rewrite H0|rewrite Hop, Hcl, H2, H3, H4, !app_nil_r; exact Hs|by apply Hmore|exact Hm'|by rewrite Hli]. }
  destruct e as [[parent|] name flags mode resolve r|parent name r|fd r|parent name mode r|parent name [|] r|from source to destination r|fd r|fd events result]; cbn [mstep] in E.
  - destruct (_ && _); [|done]. injection E as <-. split; [done|done| |by apply Hmore|by apply Hsame|by rewrite Hli; cbn; rewrite Nat.add_0_r].
    rewrite Hop, Hcl, Hs. cbn. destruct r; cbn; rewrite ?app_nil_r; [|done]. rewrite <- app_assoc. by rewrite (Permutation_app_comm (stack m)).
  - destruct (_ && _); [|done]. injection E as <-. split; [done|done| |by apply Hmore|by apply Hsame|by rewrite Hli; cbn; rewrite Nat.add_0_r].
    rewrite Hop, Hcl, Hs. cbn. destruct r; cbn; rewrite ?app_nil_r; [|done]. rewrite <- app_assoc. by rewrite (Permutation_app_comm (stack m)).
  - destruct (atTop m parent && plainName name) eqn:Et; [|done]. injection E as <-. apply andb_prop in Et as [Et _].
    split; [done| |rewrite Hop, Hcl, Hs; cbn; by rewrite !app_nil_r|by apply Hmore|by apply Hsame|rewrite Hli; cbn; by rewrite Nat.add_0_r].
    cbn. intros [Em Er]%andb_prop. apply bool_decide_eq_true in Em. destruct r as [st|]; [|done]. exists k, parent, name, st. done.
  - destruct (atTop m fd); [|done]. injection E as <-. apply Hcalm; try done; [by apply Hsame|]. cbn. by rewrite Nat.add_0_r.
  - destruct (_ && _) eqn:Et; [|done]. apply andb_prop in Et as [_ Em%bool_decide_eq_true]. injection E as <-. apply Hcalm; try done; [|cbn; by rewrite Nat.add_0_r].
    rewrite Hma, Hre, Hmd, Em. cbn. by destruct r; rewrite ?app_nil_r.
  - destruct (_ && _) eqn:Et; [|done]. apply andb_prop in Et as [[_ Em%bool_decide_eq_true]%andb_prop _]. injection E as <-.
    apply Hcalm; try done; [|cbn; by rewrite Nat.add_0_r]. rewrite Hma, Hre, Hmd, Em. cbn. by destruct r; rewrite ?app_nil_r.
  - destruct (_ && _); [|done]. injection E as <-. apply Hcalm; try done; [by apply Hsame|]. cbn. by rewrite Nat.add_0_r.
  - destruct (stack m) as [|top [|next held]] eqn:Est; try done. unfold draft_seen in Hd. destruct (drafted m) as [|drafts|events]; try done.
    destruct (published m) eqn:Ep; [done|]. destruct (_ && _); [|done]. injection E as <-. split; [done|done| | | |].
    + rewrite Hop, Hcl, Hs. cbn. by rewrite !app_nil_r.
    + cbn. intros events'. destruct r; [done|]. intros [= <-]. destruct Hd as (k0 & fd & ->).
      exists k0, fd, from, source, to, destination, []. by rewrite <- app_assoc.
    + by apply Hsame.
    + rewrite Hli, Hl. cbn. by destruct r.
  - destruct (stack m) as [|top held] eqn:Est; [done|]. destruct (Z.eqb_spec top fd) as [->|]; [|done]. injection E as <-. split.
    + unfold draft_seen in *. cbn [drafted]. destruct (drafted m) as [|events|events]; try done. destruct r; [done|]. destruct Hd as (k0 & fd' & -> & Htop).
      unfold atTop in Htop. rewrite Est in Htop. apply Z.eqb_eq in Htop as ->. exists k0, fd'. by rewrite <- app_assoc.
    + done.
    + rewrite Hop, Hcl, Hs. cbn. rewrite app_nil_r, <- app_assoc. reflexivity.
    + by apply Hmore.
    + by apply Hsame.
    + rewrite Hli. cbn. by rewrite Nat.add_0_r.
  - destruct (atTop m fd) eqn:Et; [|done]. injection E as <-. split.
    + unfold draft_seen. cbn. destruct result; [|done]. by exists k, fd.
    + done.
    + rewrite Hop, Hcl, Hs. cbn. by rewrite !app_nil_r.
    + by apply Hmore.
    + by apply Hsame.
    + rewrite Hli. cbn. by rewrite Nat.add_0_r.
Qed.

Lemma mrun_admitted k m : mrun watching k = Some m -> admitted k m.
Proof. apply mrun_invariant; [by split|apply mstep_admitted]. Qed.

(** In an admitted log every call goes through held descriptors by plain
    names, and a link stands directly behind a writer and a close that
    succeeded; what was opened was closed; one file at most was published. *)
Definition orderly (k : list event) : Prop :=
  (forall k1 parent name flags mode resolve r k2, k = k1 ++ Opened (Some parent) name flags mode resolve r :: k2 ->
     parent ∈ opened k1 /\ plainName name = true /\ O_NOFOLLOW ∈ flags /\ RESOLVE_BENEATH ∈ resolve /\ (O_DIRECTORY ∈ flags \/ O_EXCL ∈ flags))
  /\ (forall k1 from source to destination r k2, k = k1 ++ Linked from source to destination r :: k2 ->
        plainName destination = true /\ exists k0 fd events, k1 = k0 ++ [Wrote fd events []; Closed fd None])
  /\ (forall k1 parent name r k2, k = k1 ++ Removed parent name true r :: k2 -> exists k0 st, k1 = k0 ++ [Stated parent name (inl st)])
  /\ opened k ≡ₚ closed k /\ (links k <= 1)%nat.

Lemma mrun_orderly k m : mrun watching k = Some m -> stack m = [] -> orderly k.
Proof.
  intros Hrun Hst. pose proof (mrun_admitted _ _ Hrun) as [_ _ Hs _ _ Hl]. rewrite Hst, app_nil_r in Hs. split; [|split; [|split; [|split; [exact Hs|]]]].
  - intros k1 parent name flags mode resolve r k2 ->. apply mrun_before in Hrun as (m1 & m2 & E1 & E2). cbn in E2.
    destruct (atTop m1 parent && plainName name && safeFlags flags && safeResolve resolve) eqn:E; [|done].
    apply andb_prop in E as [[[Et Hn]%andb_prop Hf]%andb_prop Hr]. apply andb_prop in Hf as [Hf1 Hf2], Hr as [Hr1 Hr2].
    apply bool_decide_eq_true in Hf1, Hr1. apply orb_true_iff in Hf2. rewrite !bool_decide_eq_true in Hf2. split_and!; try done.
    pose proof (seen_stack _ _ (mrun_admitted _ _ E1)) as Hp. rewrite Hp. apply elem_of_app. right. unfold atTop in Et.
    destruct (stack m1); [done|]. apply Z.eqb_eq in Et as ->. by left.
  - intros k1 from source to destination r k2 ->. apply mrun_before in Hrun as (m1 & m2 & E1 & E2). unfold mstep in E2.
    destruct (stack m1) as [|top [|next held]]; try done. pose proof (seen_draft _ _ (mrun_admitted _ _ E1)) as Hd. unfold draft_seen in Hd.
    destruct (drafted m1) as [|drafts|events]; try done. destruct (published m1); [done|].
    destruct ((top =? from) && (next =? to) && beqs source sourceName && plainName destination) eqn:E; [|done].
    apply andb_prop in E as [_ Hn]. split; [done|]. destruct Hd as (k0 & fd & ->). by exists k0, fd, events.
  - intros k1 parent name r k2 ->. apply mrun_before in Hrun as (m1 & m2 & E1 & E2). cbn in E2.
    destruct (atTop m1 parent && bool_decide (made m1 = Some name) && checked m1) eqn:E; [|done].
    apply andb_prop in E as [[Et Em]%andb_prop Hc]. apply bool_decide_eq_true in Em.
    destruct (seen_checked _ _ (mrun_admitted _ _ E1) Hc) as (k0 & parent' & name' & st & -> & Em' & Et').
    assert (name' = name) as -> by congruence. exists k0, st. unfold atTop in Et, Et'. destruct (stack m1); [done|].
    apply Z.eqb_eq in Et, Et'. by subst.
  - rewrite Hl. destruct (published m); lia.
Qed.
