(* ===== verification/DriveCopySpec.v ===== *)
(** * What the bounded copy promises

    The copy ends within its bound of rounds, writes what it read and no more
    than the limit, and reads at most one byte past it; with the transaction,
    what is published is a whole source. *)
From Stdlib Require Import ZArith Lia Strings.Byte.
From stdpp Require Import base list strings.
From S2P Require Import Prelude GoStrings Monitor DriveCli DriveFS.

(** ** What a copy did *)

Definition gotten (e : copyEvent) : bytes := match e with CopyRead _ got _ => got | CopyWrite _ => [] end.
Definition wroteBy (e : copyEvent) : bytes := match e with CopyRead _ _ _ => [] | CopyWrite data => data end.
(** All the bytes read and all those written. *)
Definition got (l : list copyEvent) : bytes := concat (map gotten l).
Definition wrote (l : list copyEvent) : bytes := concat (map wroteBy l).

(** The last read told the end of the source. *)
Definition ended (l : list copyEvent) : Prop := exists front size data tail, l = front ++ CopyRead size data (Some ReadEOF) :: tail /\ (tail = [] \/ tail = [CopyWrite data]).
(** The whole of a source within the limit was written. *)
Definition complete (limit : Z) (l : list copyEvent) : Prop := wrote l = got l /\ zlen (wrote l) <= limit /\ ended l.

Lemma got_app l k : got (l ++ k) = got l ++ got k.
Proof. unfold got. by rewrite map_app, concat_app. Qed.
Lemma wrote_app l k : wrote (l ++ k) = wrote l ++ wrote k.
Proof. unfold wrote. by rewrite map_app, concat_app. Qed.

(** Within the bounds, whatever happened. *)
Definition bounded (limit : Z) (l : list copyEvent) : Prop :=
  wrote l `prefix_of` got l /\ zlen (wrote l) <= limit /\ zlen (got l) <= limit + 1
  /\ Forall (fun e => match e with CopyRead size _ _ => 1 <= size <= bufferSize | CopyWrite _ => True end) l.

(** How a copy may end. *)
Definition copy_end (limit : Z) (err : failure) (l : list copyEvent) : Prop :=
  match err with
  | [] => complete limit l
  | [ContextCause _] | [WriteFailed] | [ErrShortWrite] | [ErrCopyRead] => True
  | [ErrCopyLimit] => zlen (wrote l) = limit /\ zlen (got l) = limit + 1
  | _ => False
  end.

Section Copy.
Context {W : Type}.
Variable Read : Z -> W -> readResult * W.
Variable ctxErr : W -> option contextError * W.
Variable WriteFile : Z -> bytes -> W -> (Z * bool) * W.

Definition rounds (remaining emptyReads : Z) : Z := 100 * remaining + (100 - emptyReads).

Lemma copyLoop_spec fuel limit fd remaining emptyReads w l :
  wrote l = got l -> zlen (wrote l) = limit - remaining -> 0 <= remaining -> 0 <= emptyReads < 100 ->
  Forall (fun e => match e with CopyRead size _ _ => 1 <= size <= bufferSize | CopyWrite _ => True end) l ->
  rounds remaining emptyReads < Z.of_nat fuel ->
  exists err l' w', copyLoop Read ctxErr WriteFile fuel fd remaining emptyReads w l = ((CopyDone err, l'), w') /\ bounded limit l' /\ copy_end limit err l'.
Proof.
  revert remaining emptyReads w l. induction fuel as [|fuel IH]; intros remaining emptyReads w l Heq Hlen Hrem Hempty Hl Hfuel; [unfold rounds in Hfuel; lia|].
  cbn [copyLoop]. destruct (ctxErr w) as [[e|] w1].
  { do 3 eexists. split; [reflexivity|]. split; [|done]. unfold bounded. rewrite Heq in *. split_and!; [done|lia|lia|done]. }
  set (size := if remaining =? 0 then 1 else Z.min remaining bufferSize).
  assert (Hsize : 1 <= size <= bufferSize /\ (remaining = 0 /\ size = 1 \/ 0 < remaining /\ size <= remaining)).
  { unfold size, bufferSize. destruct (Z.eqb_spec remaining 0); lia. }
  destruct (Read size w1) as [r w2]. set (n := readCount r). set (data := take (Z.to_nat n) (resize (Z.to_nat size) x00 (readData r))).
  assert (Hdata : zlen data = Z.min (Z.max 0 n) size).
  { unfold data, zlen. rewrite length_take, length_resize. lia. }
  set (l1 := l ++ [CopyRead size data (readErr r)]).
  assert (Hgot1 : got l1 = got l ++ data) by (unfold l1; rewrite got_app; cbn; by rewrite app_nil_r).
  assert (Hwrote1 : wrote l1 = wrote l) by (unfold l1; rewrite wrote_app; cbn; by rewrite app_nil_r).
  assert (Hb1 : bounded limit l1).
  { unfold bounded. rewrite Hgot1, Hwrote1, Heq, zlen_app. rewrite Heq in Hlen. split_and!; [by apply prefix_app_r|lia|lia|].
    unfold l1. apply Forall_app. split; [done|]. repeat constructor; lia. }
  assert (Hquit : forall (err : failure) (w' : W), copy_end limit err l1 -> exists (err' : failure) l' (w'' : W), ((CopyDone err, l1), w') = ((CopyDone err', l'), w'') /\ bounded limit l' /\ copy_end limit err' l')
    by (intros err w' H; by exists err, l1, w').
  cbv zeta. destruct (ctxErr w2) as [[e|] w3]; [by apply Hquit|].
  destruct ((n <? 0) || (size <? n)) eqn:Ebad; [by apply Hquit|]. apply orb_false_iff in Ebad as [Hn0%Z.ltb_ge Hns%Z.ltb_ge].
  destruct ((remaining =? 0) && (0 <? n)) eqn:Eover.
  { apply andb_prop in Eover as [E1%Z.eqb_eq E2%Z.ltb_lt]. apply Hquit. unfold copy_end. rewrite Hwrote1, Hgot1, zlen_app, Hdata, <- Heq. lia. }
  destruct (Z.ltb_spec 0 n) as [Hn|Hn].
  - destruct (WriteFile fd data w3) as [[written writeFailed] w4]. set (l2 := l1 ++ [CopyWrite data]).
    assert (Hw2 : wrote l2 = got l2).
    { unfold l2. rewrite wrote_app, got_app, Hwrote1, Hgot1, Heq. cbn. by rewrite !app_nil_r. }
    assert (Hz2 : zlen (wrote l2) = limit - (remaining - n)).
    { unfold l2. rewrite wrote_app, Hwrote1, zlen_app. cbn. rewrite app_nil_r, Hdata. lia. }
    assert (Hrem2 : 0 <= remaining - n). { destruct Hsize as [_ [[-> Hs1]|[? ?]]]; [|lia]. done. }
    assert (Hl2 : Forall (fun e => match e with CopyRead size _ _ => 1 <= size <= bufferSize | CopyWrite _ => True end) l2).
    { apply Forall_app. split; [apply Hb1|by repeat constructor]. }
    assert (Hb2 : bounded limit l2) by (unfold bounded; rewrite <- Hw2; split_and!; [done|lia|lia|done]).
    assert (Hquit2 : forall (err : failure) (w' : W), copy_end limit err l2 -> exists (err' : failure) l' (w'' : W), ((CopyDone err, l2), w') = ((CopyDone err', l'), w'') /\ bounded limit l' /\ copy_end limit err' l')
      by (intros err w' H; by exists err, l2, w').
    destruct writeFailed; [by apply Hquit2|]. destruct (negb (written =? n)); [by apply Hquit2|].
    destruct (readErr r) as [[|]|] eqn:Er; [|by apply Hquit2|].
    + destruct (ctxErr w4) as [[e|] w5]; apply Hquit2; [done|]. split; [done|]. split; [lia|]. exists l, size, data, [CopyWrite data].
      split; [|by right]. unfold l2, l1. by rewrite <- app_assoc.
    + change (100 <=? 0) with false. cbv iota. apply IH; [done|done|done|lia|done|]. unfold rounds in *. lia.
  - destruct (readErr r) as [[|]|] eqn:Er; [|by apply Hquit|].
    + assert (Hd0 : data = []) by (apply zlen_0_nil; lia).
      destruct (ctxErr w3) as [[e|] w5]; apply Hquit; [done|]. split; [rewrite Hwrote1, Hgot1, Hd0; by rewrite app_nil_r|]. split; [rewrite Hwrote1; lia|].
      exists l, size, data, []. split; [done|by left].
    + destruct (Z.leb_spec 100 (emptyReads + 1)); [by apply Hquit|].
      assert (Hd0 : data = []) by (apply zlen_0_nil; lia).
      apply IH; [by rewrite Hwrote1, Hgot1, Hd0, app_nil_r|rewrite Hwrote1; lia|done|lia|apply Hb1|]. unfold rounds in *. lia.
Qed.

Lemma copyBounded_spec limit fd w : 0 < limit ->
  exists err l w', copyBounded Read ctxErr WriteFile limit fd w = ((err, l), w')
    /\ copyLoop Read ctxErr WriteFile (copyFuel limit) fd limit 0 w [] = ((CopyDone err, l), w') /\ bounded limit l /\ copy_end limit err l.
Proof.
  intros Hl. destruct (copyLoop_spec (copyFuel limit) limit fd limit 0 w []) as (err & l & w' & E & Hb & He); try done; [change (zlen (wrote [])) with 0; lia|lia|unfold rounds, copyFuel; lia|].
  exists err, l, w'. unfold copyBounded. by rewrite E.
Qed.
End Copy.

(** More rounds change nothing. *)
Lemma copyLoop_more {W} (Read : Z -> W -> readResult * W) ctxErr WriteFile more fuel fd remaining emptyReads w l err l' w' :
  copyLoop Read ctxErr WriteFile fuel fd remaining emptyReads w l = ((CopyDone err, l'), w') ->
  copyLoop Read ctxErr WriteFile (fuel + more) fd remaining emptyReads w l = ((CopyDone err, l'), w').
Proof.
  revert remaining emptyReads w l. induction fuel as [|fuel IH]; intros remaining emptyReads w l; [done|]. cbn [copyLoop Nat.add]. cbv zeta.
  repeat (case_match; try done); auto.
Qed.

(** ** The properties *)

Section Properties.
Context {W : Type} `{K : Kernel W}.
Hypothesis Hrand : forall w, Forall (fun c => c <> "/"%byte /\ c <> x00) (fst (randText w)).

(** A transaction whose writer succeeds only with events that satisfy [P]. *)
Lemma transactional_spec (P : list copyEvent -> Prop) root destination (write : writer) w l :
  (forall fd w events, fst (write fd w) = ([], events) -> P events) ->
  let '(err, (_, l')) := WriteTransactional root destination (Some write) (w, l) in
  exists k m, l' = l ++ k /\ mrun watching k = Some m /\ stack m = [] /\ (err = [] -> published m <> None /\ made m = None)
    /\ (forall events, published m = Some events -> P events).
Proof.
  intros HP. pose proof (confined_tracks root destination (transact write) (settledBy P)) as H.
  assert (Hu : forall parent name held m, stack m = parent :: held -> plainName name = true -> made m = None -> published m = None ->
    tracks m (transact write parent name) (fun err m' => stack m' = stack m /\ settledBy P err (made m') (published m'))) by (intros; by eapply transact_tracks).
  destruct (H Hu w l) as (k & m & El & Ek & Hs & Hq). unfold WriteTransactional. destruct (withConfinedParent _ _ _ _) as [err [w' l']]; cbn [fst snd] in *.
  exists k, m. split; [done|]. split; [done|]. split; [done|]. destruct Hq as [(He & _ & Hp)|(err0 & more & -> & Hp & Hev)].
  - rewrite Hp. by split.
  - split; [|done]. intros [-> _]%app_eq_nil. by apply Hp.
Qed.

Lemma fresh_spec root destination (write : writer) w l :
  let '(_, (_, l')) := WriteFresh root destination (Some write) (w, l) in
  exists k m, l' = l ++ k /\ mrun watching k = Some m /\ stack m = [] /\ published m = None.
Proof.
  pose proof (confined_tracks root destination (freshFile write) (fun _ _ pub => pub = None)) as H.
  assert (Hu : forall parent name held m, stack m = parent :: held -> plainName name = true -> made m = None -> published m = None ->
    tracks m (freshFile write parent name) (fun err m' => stack m' = stack m /\ published m' = None)).
  { intros parent name held m Hs Hn Hm Hp. eapply tracks_impl; [by eapply (fresh_tracks write (fun _ => True))|]. intros err m' (H1 & [_ H2] & _). split; congruence. }
  destruct (H Hu w l) as (k & m & El & Ek & Hs & Hq). unfold WriteFresh. destruct (withConfinedParent _ _ _ _) as [err [w' l']]; cbn [fst snd] in *.
  exists k, m. split_and!; try done. by destruct Hq as [(_ & _ & ?)|(? & ? & _ & ?)].
Qed.


Variable Read : Z -> W -> readResult * W.
Variable ctxErr : W -> option contextError * W.
Variable WriteFile : Z -> bytes -> W -> (Z * bool) * W.


(** A bounded copy publishes nothing but a whole source within its
    limit: the link stands directly behind the copy that wrote every byte up
    to the end of the source, and the close; and it answers success only with
    the link made.  Without a context, a source or a positive limit nothing is
    touched. *)
Theorem copy_published present root destination limit w l :
  let '(err, (_, l')) := BoundedTransactionalCopy Read ctxErr WriteFile present root destination limit (w, l) in
  exists k, l' = l ++ k /\ orderly k /\ (err = [] -> links k = 1%nat)
    /\ (present = false \/ limit <= 0 -> k = [] /\ err = [ErrInvalidCopyInput])
    /\ (links k = 1%nat -> exists k0 fd events from source to name k2,
          k = k0 ++ [Wrote fd events []; Closed fd None; Linked from source to name None] ++ k2 /\ complete limit events).
Proof.
  assert (Hnil : orderly []) by (split_and!; try done; [intros k1; intros; by destruct k1..|cbn; lia]).
  assert (Hstop : forall (err : failure) (w' : W), err <> [] -> exists k, l = l ++ k /\ orderly k /\ (err = [] -> links k = 1%nat) /\ k = []).
  { intros err w' H. exists []. by rewrite app_nil_r. }
  unfold BoundedTransactionalCopy. destruct (negb present || (limit <=? 0)) eqn:Ep.
  { destruct (Hstop [ErrInvalidCopyInput] w) as (k & H1 & H2 & H3 & ->); [done|]. exists []. split_and!; try done. }
  apply orb_false_iff in Ep as [Ep%negb_false_iff El%Z.leb_gt].
  assert (Hok : present = false \/ limit <= 0 -> False) by (intros [?|?]; [congruence|lia]).
  destruct (ctxErr w) as [[e|] w1].
  { destruct (Hstop [ContextCause e] w1) as (k & H1 & H2 & H3 & ->); [done|]. exists []. split_and!; try done; by intros ?%Hok. }
  assert (Hw : forall fd v events, fst (copyBounded Read ctxErr WriteFile limit fd v) = ([], events) -> complete limit events).
  { intros fd v events. destruct (copyBounded_spec Read ctxErr WriteFile limit fd v El) as (err & ev & v' & -> & _ & _ & He). cbn. intros [= -> ->]. exact He. }
  pose proof (transactional_spec _ root destination (copyBounded Read ctxErr WriteFile limit) w1 l Hw) as H.
  destruct (WriteTransactional _ _ _ _) as [err [w' l']]. destruct H as (k & m & Elog & Ek & Hs & He & Hp). pose proof (mrun_admitted _ _ Ek) as [_ _ _ Hpub _ Hl].
  exists k. split; [done|]. split; [by eapply mrun_orderly|]. split; [|split; [by intros ?%Hok|]].
  - intros E. destruct (He E) as [Hn _]. rewrite Hl. by destruct (published m).
  - rewrite Hl. destruct (published m) as [events|]; [|done]. intros _. destruct (Hpub events eq_refl) as (k0 & fd & from & source & to & name & k2 & ->).
    exists k0, fd, events, from, source, to, name, k2. split; [done|]. by apply Hp.
Qed.
End Properties.

(** ** A small kernel *)

(** The chunks a source still has, and the next descriptor. *)
Definition demoStat : stat := mkStat 1 77 (S_IFDIR + 448) 1000.
#[local] Instance demo_kernel : Kernel (list bytes * Z) := {|
  sysOpen _ _ _ w := (inl (snd w), (fst w, snd w + 1));
  sysOpenat2 _ _ _ _ _ w := (inl (snd w), (fst w, snd w + 1));
  sysFstatat _ name w := (if has_prefix name stagePrefix then inl demoStat else inr ENOENT, w);
  sysFstat _ w := (inl demoStat, w);
  sysMkdirat _ _ _ w := (None, w);
  sysUnlinkat _ _ _ w := (None, w);
  sysLinkat _ _ _ _ w := (None, w);
  sysClose _ w := (None, w);
  geteuid := 1000;
  randText w := ($"ABCDEF", w) |}.

Definition demoRead (size : Z) (w : list bytes * Z) : readResult * (list bytes * Z) :=
  match fst w with
  | [] => (mkRead 0 [] (Some ReadEOF), w)
  | chunk :: chunks =>
      let got := take (Z.to_nat size) chunk in
      let left := drop (Z.to_nat size) chunk in
      (mkRead (zlen got) got None, (match left with [] => chunks | _ => left :: chunks end, snd w))
  end.
Definition demoContext (w : list bytes * Z) : option contextError * (list bytes * Z) := (None, w).
Definition demoWriteFile (fd : Z) (data : bytes) (w : list bytes * Z) : (Z * bool) * (list bytes * Z) := ((zlen data, false), w).

Lemma demo_rand (w : list bytes * Z) : Forall (fun c => c <> "/"%byte /\ c <> x00) (fst (randText w)).
Proof. by repeat constructor. Qed.



Lemma copy_published_witness : exists k,
  snd (snd (BoundedTransactionalCopy demoRead demoContext demoWriteFile true $"/out" $"a/b" 2 (([$"ab"], 4), []))) = k
  /\ exists k0 fd events from source to name k2, k = k0 ++ [Wrote fd events []; Closed fd None; Linked from source to name None] ++ k2 /\ complete 2 events.
Proof.
  pose proof (copy_published demo_rand demoRead demoContext demoWriteFile true $"/out" $"a/b" 2 ([$"ab"], 4) []) as H.
  destruct (BoundedTransactionalCopy demoRead demoContext demoWriteFile true $"/out" $"a/b" 2 ([$"ab"], 4, [])) as [err [w' l']] eqn:E.
  assert (Eerr : err = []) by (vm_compute in E; congruence).
  destruct H as (k & El & _ & He & _ & Hl). exists k. split; [exact El|]. by apply Hl, He.
Defined.
