(* ===== verification/ConfigFile.v ===== *)
(** * Configuration files and the two programs

    [internal/config]: the secure opening of one file, what is asked of it,
    its decoding into either configuration; and [cmd]: what each program
    starts with.  The kernel and the parsing of flags are parameters. *)
From Stdlib Require Import ZArith Lia Strings.Byte.
From stdpp Require Import base list strings.
From S2P Require Import Prelude GoStrings GoText GoJson Errors Config StrictJson ToolServer GoMarshal Monitor DriveCli.

Definition maxConfigBytes : Z := 64 * 1024.

Inductive configError := ErrConfigUnreadable | ErrConfigInvalid.

(** ** Opening the file *)

(** [filepath.Clean] of a rooted path: its segments without empty ones and
    dots, and with each pair of dots taking the segment before it. *)
Definition cleanStep (kept : list bytes) (segment : bytes) : list bytes :=
  if beqs segment [] || beqs segment $"." then kept else if beqs segment $".." then removelast kept else kept ++ [segment].
Definition Clean (path : bytes) : bytes := "/"%byte :: join_byte "/"%byte (foldl cleanStep [] (split_byte "/"%byte path)).

Inductive configFlag := F_RDONLY | F_DIRECTORY | F_CLOEXEC | F_NOFOLLOW | F_NONBLOCK.
Record fileInfo := mkInfo { isRegular : bool; ownedByCurrentUser : bool; infoSize : Z; permissions : Z }.

(** [None] is an error; [cfRead fd n] reads at most [n] bytes. *)
Class ConfigKernel (W : Type) := {
  cfOpen : bytes -> list configFlag -> W -> option Z * W;
  cfOpenat : Z -> bytes -> list configFlag -> W -> option Z * W;
  cfClose : Z -> W -> W;
  cfStat : Z -> W -> option fileInfo * W;
  cfRead : Z -> Z -> W -> option bytes * W }.

Inductive configEvent :=
| CfOpened (parent : option Z) (name : bytes) (flags : list configFlag) (result : option Z)
| CfClosed (fd : Z) | CfStated (fd : Z) (result : option fileInfo) | CfRead (fd limit : Z) (result : option bytes).

Section Load.
Context {W : Type} `{CK : ConfigKernel W}.

Definition C (A : Type) : Type := logged W configEvent A.
Definition closeConfig (fd : Z) : C unit := fun '(w, l) => (tt, (cfClose fd w, l ++ [CfClosed fd])).

Definition chainFlags : list configFlag := [F_RDONLY; F_DIRECTORY; F_CLOEXEC; F_NOFOLLOW].
Definition fileFlags : list configFlag := [F_RDONLY; F_NONBLOCK; F_CLOEXEC; F_NOFOLLOW].

(** The loop over the directories: each is closed once the next is open. *)
Fixpoint descend (directory : Z) (components : list bytes) : C (option Z) :=
  match components with
  | [] => lret (Some directory)
  | component :: components =>
      let* next := lcall (cfOpenat directory component chainFlags) (CfOpened (Some directory) component chainFlags) in
      let* _ := closeConfig directory in
      match next with None => lret None | Some next => descend next components end
  end.

(** The components of a cleaned path; there is always a first. *)
Definition cleanedComponents (path : bytes) : list bytes := split_byte "/"%byte (trim_prefix (Clean path) $"/").

Definition openSecure (path : bytes) : C (option Z) :=
  let components := cleanedComponents path in
  match components with
  | [] | [] :: _ => lret None
  | _ =>
      let* root := lcall (cfOpen $"/" [F_RDONLY; F_DIRECTORY; F_CLOEXEC]) (CfOpened None $"/" [F_RDONLY; F_DIRECTORY; F_CLOEXEC]) in
      match root with
      | None => lret None
      | Some root =>
          let* directory := descend root (removelast components) in
          match directory with
          | None => lret None
          | Some directory =>
              let name := List.last components [] in
              let* file := lcall (cfOpenat directory name fileFlags) (CfOpened (Some directory) name fileFlags) in
              let* _ := closeConfig directory in
              lret file
          end
      end
  end.

(** A file fit to be read: 63 is 0077. *)
Definition fitFile (info : fileInfo) : bool :=
  isRegular info && ownedByCurrentUser info && (infoSize info <=? maxConfigBytes) && (Z.land (permissions info) 63 =? 0).

(** [load] behind the open file. *)
Definition readConfig {T} (decode : bytes -> option T) (file : Z) : C (T + configError) :=
  let* info := lcall (cfStat file) (CfStated file) in
  match info with
  | None => lret (inr ErrConfigUnreadable)
  | Some info =>
      if negb (fitFile info) then lret (inr ErrConfigUnreadable)
      else
        let* contents := lcall (cfRead file (maxConfigBytes + 1)) (CfRead file (maxConfigBytes + 1)) in
        match contents with
        | None => lret (inr ErrConfigUnreadable)
        | Some contents =>
            if maxConfigBytes <? zlen contents then lret (inr ErrConfigUnreadable)
            else match decode contents with Some target => lret (inl target) | None => lret (inr ErrConfigInvalid) end
        end
  end.

Definition load {T} (decode : bytes -> option T) (path : bytes) : C (T + configError) :=
  if negb (IsAbs path) then lret (inr ErrConfigUnreadable)
  else
    let* file := openSecure path in
    match file with
    | None => lret (inr ErrConfigUnreadable)
    | Some file =>
        let* result := readConfig decode file in
        let* _ := closeConfig file in
        lret result
    end.
End Load.

(** ** The Mail configuration *)

#[export] Instance eta_tls : Eta TLSConfig := fun t => mkTLS (TrustAnchorFile t) (SPKISHA256 t) (MinVersion t).
#[export] Instance eta_imap : Eta IMAPConfig := fun i =>
  mkIMAP (Host i) (Port i) (TLSMode i) (CredentialCommand i) (TLS i) (ConnectTimeoutMs i) (CommandTimeoutMs i).
#[export] Instance eta_patch : Eta BoundsPatch := fun p =>
  mkPatch (pSearchResults p) (pFolderResults p) (pBodyBytes p) (pHeaderBytes p) (pMimeParts p) (pAttachmentCount p) (pThreadMessages p)
    (pThreadFetches p) (pPreviewChars p) (pOutputBytes p).
#[export] Instance eta_config : Eta Config := fun c => mkConfig (cIMAP c) (cBounds c) (cAudit c) (cMutations c).

Definition zeroTLS : TLSConfig := mkTLS [] [] [].
Definition zeroConfig : Config :=
  mkConfig (mkIMAP [] 0 [] [] zeroTLS 0 0) (mkPatch None None None None None None None None None None) false false.

Definition readTLS : reader TLSConfig :=
  readStruct [field $"trustAnchorFile" TrustAnchorFile readString; field $"spkiSha256" SPKISHA256 readString; field $"minVersion" MinVersion readString].
Definition readIMAP : reader IMAPConfig :=
  readStruct [field $"host" Host readString; field $"port" Port readInt64; field $"tlsMode" TLSMode readString;
    field $"credentialCommand" CredentialCommand (readSlice [] readString); field $"tls" TLS readTLS;
    field $"connectTimeoutMs" ConnectTimeoutMs readInt64; field $"commandTimeoutMs" CommandTimeoutMs readInt64].
Definition readPatch : reader BoundsPatch :=
  let bound := readPointer 0 readInt64 in
  readStruct [field $"maxSearchResults" pSearchResults bound; field $"maxFolderResults" pFolderResults bound; field $"maxBodyBytes" pBodyBytes bound;
    field $"maxHeaderBytes" pHeaderBytes bound; field $"maxMimeParts" pMimeParts bound; field $"maxAttachmentCount" pAttachmentCount bound;
    field $"maxThreadMessages" pThreadMessages bound; field $"maxThreadFetches" pThreadFetches bound; field $"maxPreviewChars" pPreviewChars bound;
    field $"maxOutputBytes" pOutputBytes bound].
(** [AuditConfig], [MutationsConfig] and [DriveWrites] are one flag each. *)
Definition readEnabled : reader bool := readStruct [($"enabled", fun raw enabled => readBool enabled raw)].
Definition readConfigObject : reader Config :=
  readStruct [field $"imap" cIMAP readIMAP; field $"bounds" cBounds readPatch; field $"audit" cAudit readEnabled; field $"mutations" cMutations readEnabled].

(** ** The Drive configuration *)

Record DriveDownload := mkDownload { dlEnabled : bool; dlMaxBytes : Z; dlTimeoutSeconds : Z }.
Record DriveConfig := mkDriveConfig { dcBinaryPath : bytes; dcAllowedDownloadDirectories : list bytes; dcDownload : DriveDownload; dcWrites : bool }.
#[export] Instance eta_download : Eta DriveDownload := fun d => mkDownload (dlEnabled d) (dlMaxBytes d) (dlTimeoutSeconds d).
#[export] Instance eta_drive_config : Eta DriveConfig := fun c =>
  mkDriveConfig (dcBinaryPath c) (dcAllowedDownloadDirectories c) (dcDownload c) (dcWrites c).

Section Decoding.
Context `{L : GoLibrary}.

(** The exact keys of the download policy. *)
Definition policyField (key value : bytes) (policy : DriveDownload) : option DriveDownload :=
  if beqs key $"enabled" then match readBool (dlEnabled policy) value with Some v => Some (policy <| dlEnabled := v |>) | None => None end
  else if beqs key $"maxBytes" then match readInt64 (dlMaxBytes policy) value with Some v => Some (policy <| dlMaxBytes := v |>) | None => None end
  else if beqs key $"timeoutSeconds" then match readInt64 (dlTimeoutSeconds policy) value with Some v => Some (policy <| dlTimeoutSeconds := v |>) | None => None end
  else None.
(** The loop over a map; every key is there once. *)
Fixpoint policyFields (fields : list (bytes * bytes)) (policy : DriveDownload) : option DriveDownload :=
  match fields with
  | [] => Some policy
  | (key, value) :: fields => match policyField key value policy with Some policy => policyFields fields policy | None => None end
  end.
(** [UnmarshalJSON]. *)
Definition readDownload : reader DriveDownload := fun policy data =>
  match DecodeObject EqualFold rawObject data maxConfigBytes with Some fields => policyFields fields policy | None => None end.

Definition readDriveCLI : reader bytes := readStruct [($"binaryPath", fun raw path => readString path raw)].
Definition readDriveConfig : reader DriveConfig :=
  readStruct [field $"cli" dcBinaryPath readDriveCLI; field $"allowedDownloadDirectories" dcAllowedDownloadDirectories (readSlice [] readString);
    field $"download" dcDownload readDownload; field $"writes" dcWrites readEnabled].

Definition decodeMail (contents : bytes) : option Config := DecodeObject EqualFold (decodeInto zeroConfig readConfigObject) contents maxConfigBytes.
Definition driveDefaults : DriveConfig := mkDriveConfig [] [] (mkDownload false (256 * 1024 * 1024) 120) false.
Definition decodeDrive (contents : bytes) : option DriveConfig :=
  DecodeObject EqualFold (decodeInto driveDefaults readDriveConfig) contents maxConfigBytes.

(** What [LoadDrive] asks of a decoded configuration; the longest timeout is
    the largest whole number of seconds in a duration. *)
Definition maxTimeoutSeconds : Z := (2 ^ 63 - 1) / 1000000000.
Definition checkDrive (loaded : DriveConfig) : DriveConfig + configError :=
  let download := dcDownload loaded in
  if dlEnabled download || (dlMaxBytes download <=? 0) || (dlTimeoutSeconds download <=? 0) || (maxTimeoutSeconds <? dlTimeoutSeconds download)
  then inr ErrConfigInvalid
  else if negb (IsAbs (dcBinaryPath loaded)) then inr ErrConfigInvalid
  else if existsb (fun directory => negb (IsAbs directory)) (dcAllowedDownloadDirectories loaded) then inr ErrConfigInvalid
  else inl loaded.

Context {W : Type} `{CK : ConfigKernel W}.
Definition Load (path : bytes) : @C W (Config + configError) := load decodeMail path.
Definition LoadDrive (path : bytes) : @C W (DriveConfig + configError) :=
  lbind (load decodeDrive path) (fun loaded => lret (match loaded with inl loaded => checkDrive loaded | inr err => inr err end)).

(** ** The programs *)

(** What [flag] parsed: the value of [--config] and how many arguments are left. *)
Record arguments := mkArguments { configPath : bytes; remaining : nat }.

Inductive startError := InvalidArguments | Usage | ConfigFailure (e : configError) | AdapterFailure (e : goerror) | ErrWritesEnabled | InvalidDriveCLI.

Definition usable (parsed : option arguments) : bytes + startError :=
  match parsed with
  | None => inr InvalidArguments
  | Some a => if negb (remaining a =? 0)%nat || beqs (configPath a) [] then inr Usage else inl (configPath a)
  end.

(** [NewAdapter]: the validated configuration and the identifier key, if the
    random source gave one. *)
Definition NewAdapter (ParseAddr : bytes -> option addr) (credentialProcessTreeKillSupported : bool) (idKey : option bytes) (input : Config)
  : (ValidatedConfig * bytes) + goerror :=
  match ValidateConfig ParseAddr credentialProcessTreeKillSupported input with
  | inr err => inr err
  | inl config => match idKey with None => inr (errorCode CodeBridgeUnreachable) | Some key => inl (config, key) end
  end.

(** The server's options; [surfaces] is the adapter as the interfaces of the
    tools, and the auditor writes to standard error. *)
Definition runMail {V} (newAdapter : Config -> (ValidatedConfig * bytes) + goerror) (surfaces : ValidatedConfig -> bytes -> Mail V * TriageSurface V)
  (parsed : option arguments) : @C W (ToolServer.Options V + startError) :=
  match usable parsed with
  | inr err => lret (inr err)
  | inl path =>
      lbind (Load path) (fun loaded => lret (
        match loaded with
        | inr err => inr (ConfigFailure err)
        | inl loaded =>
            match newAdapter loaded with
            | inr err => inr (AdapterFailure err)
            | inl (config, key) =>
                let '(mail, triage) := surfaces config key in
                inl (ToolServer.mkOptions V (Some mail) (if cMutations loaded then Some triage else None) (cAudit loaded))
            end
        end))
  end.

(** The client the Drive server is made with. *)
Definition runDrive (supportedOS : bool) (parsed : option arguments) : @C W (Client + startError) :=
  match usable parsed with
  | inr err => lret (inr err)
  | inl path =>
      lbind (LoadDrive path) (fun loaded => lret (
        match loaded with
        | inr err => inr (ConfigFailure err)
        | inl loaded =>
            if dcWrites loaded then inr ErrWritesEnabled
            else match New supportedOS (mkOptions (dcBinaryPath loaded) [] [] 0 0) with inl client => inl client | inr _ => inr InvalidDriveCLI end
        end))
  end.
End Decoding.
