(* ===== verification/ConfigFileSpec.v ===== *)
(** * What loading a configuration promises

    A monitor admits the opening of a file only along the segments of the
    cleaned path, each under the directory opened before and without following
    a link, and reading only from a file found fit; what a program starts with
    is what such a file says. *)
From Stdlib Require Import ZArith Lia Strings.Byte.
From stdpp Require Import base list strings sets.
From S2P Require Import Prelude GoStrings GoText GoJson Errors Config StrictJson GoMarshal ToolServer Monitor DriveCli ConfigFile.

(** ** The monitor *)

(** The descriptors held, the segments walked, whether the file was found fit
    and what was read of it. *)
Record opening := mkOpening { held : list Z; walked : list bytes; fit : bool; readBytes : option bytes }.
Definition unopened : opening := mkOpening [] [] false None.

#[export] Instance configFlag_eq_dec : EqDecision configFlag.
Proof. solve_decision. Defined.

Definition holding (m : opening) (r : option Z) : list Z := match r with Some fd => fd :: held m | None => held m end.

Definition ostep (m : opening) (e : configEvent) : option opening :=
  match e with
  | CfOpened None name _ r => if bool_decide (held m = []) && beqs name $"/" then Some (mkOpening (holding m r) (walked m) (fit m) (readBytes m)) else None
  | CfOpened (Some parent) name flags r =>
      if bool_decide (held m = [parent]) && bool_decide (F_NOFOLLOW ∈ flags)
      then Some (mkOpening (holding m r) (walked m ++ [name]) (fit m) (readBytes m)) else None
  | CfClosed fd =>
      match held m with
      | [only] => if only =? fd then Some (mkOpening [] (walked m) (fit m) (readBytes m)) else None
      | [next; last] => if last =? fd then Some (mkOpening [next] (walked m) (fit m) (readBytes m)) else None
      | _ => None
      end
  | CfStated fd r =>
      if bool_decide (held m = [fd]) then Some (mkOpening (held m) (walked m) (match r with Some info => fitFile info | None => false end) (readBytes m)) else None
  | CfRead fd limit r =>
      if bool_decide (held m = [fd]) && fit m && (limit =? maxConfigBytes + 1) then Some (mkOpening (held m) (walked m) (fit m) r) else None
  end.

Abbreviation tracks := (Monitor.tracks ostep).

Section Load.
Context {W : Type} `{CK : ConfigKernel W}.

Lemma tracks_closed m fd next : ostep m (CfClosed fd) = Some next -> tracks m (closeConfig (W := W) fd) (fun _ m' => m' = next).
Proof. intros H w l. exists [CfClosed fd], next. cbn [Monitor.mrun]. by rewrite H. Qed.

Lemma descend_tracks components directory m : held m = [directory] ->
  tracks m (descend (W := W) directory components) (fun r m' => fit m' = fit m /\ readBytes m' = readBytes m /\
    match r with
    | Some last => held m' = [last] /\ walked m' = walked m ++ components
    | None => held m' = [] /\ exists front, front `prefix_of` components /\ walked m' = walked m ++ front
    end).
Proof.
  revert directory m. induction components as [|component components IH]; intros directory m Hh; cbn [descend].
  - apply tracks_ret. by rewrite app_nil_r.
  - eapply tracks_bind; [apply (tracks_call ostep m _ _ (fun r => mkOpening (holding m r) (walked m ++ [component]) (fit m) (readBytes m)))|].
    { intros r. cbn [ostep]. by rewrite !bool_decide_eq_true_2 by (try done; unfold chainFlags; set_solver). }
    intros r m1 ->. eapply tracks_bind.
    + apply (tracks_closed _ directory (mkOpening (option_list r) (walked m ++ [component]) (fit m) (readBytes m))).
      unfold ostep, holding. cbn [held walked]. rewrite Hh. destruct r; by rewrite Z.eqb_refl.
    + intros [] m2 ->. destruct r as [next|].
      * eapply tracks_impl; [by apply IH|]. intros r m' (H1 & H2 & H3). cbn in *. split; [done|]. split; [done|]. destruct r.
        -- destruct H3 as [-> ->]. split; [done|]. by rewrite <- app_assoc.
        -- destruct H3 as (-> & front & Hf & ->). split; [done|]. exists (component :: front). rewrite <- app_assoc. split; [by apply prefix_cons|done].
      * apply tracks_ret. cbn. split_and!; try done. exists [component]. split; [by apply prefix_cons, prefix_nil|done].
Qed.

Lemma openSecure_tracks path : tracks unopened (openSecure (W := W) path) (fun r m' => fit m' = false /\ readBytes m' = None /\
  match r with
  | Some file => held m' = [file] /\ walked m' = cleanedComponents path
  | None => held m' = [] /\ walked m' `prefix_of` cleanedComponents path
  end).
Proof.
  unfold openSecure. set (components := cleanedComponents path). clearbody components.
  assert (Hquit : forall m' : opening, held m' = [] -> fit m' = false -> readBytes m' = None -> walked m' `prefix_of` components ->
    tracks m' (lret (W := W) None) (fun (r : option Z) m' => fit m' = false /\ readBytes m' = None /\
      match r with Some file => held m' = [file] /\ walked m' = components | None => held m' = [] /\ walked m' `prefix_of` components end))
    by (intros; by apply tracks_ret).
  destruct components as [|first components]; [apply Hquit; try done; apply prefix_nil|].
  destruct first as [|c first]; [apply Hquit; try done; apply prefix_nil|].
  destruct (exists_last (l := (c :: first) :: components)) as (front & name & E); [done|]. rewrite E in *. rewrite removelast_last, last_last.
  eapply tracks_bind; [apply (tracks_call ostep unopened _ _ (fun r => mkOpening (option_list r) [] false None)); intros r; by destruct r|].
  intros [root|] m1 ->; [|apply Hquit; try done; apply prefix_nil].
  eapply tracks_bind; [by apply (descend_tracks front root)|]. intros [directory|] m2 (Hf & Hr & Hd); cbn in Hf, Hr.
  - destruct Hd as [Hh Hw]. cbn in Hw. eapply tracks_bind; [apply (tracks_call ostep m2 _ _ (fun r => mkOpening (holding m2 r) (walked m2 ++ [name]) (fit m2) (readBytes m2)))|].
    { intros r. cbn [ostep]. by rewrite !bool_decide_eq_true_2 by (try done; unfold fileFlags; set_solver). }
    intros file m3 ->. eapply tracks_bind.
    + apply (tracks_closed _ directory (mkOpening (option_list file) (walked m2 ++ [name]) (fit m2) (readBytes m2))).
      unfold ostep, holding. cbn [held walked]. rewrite Hh. destruct file; by rewrite Z.eqb_refl.
    + intros [] m4 ->. apply tracks_ret. cbn. rewrite Hf, Hr, Hw. split; [done|]. split; [done|]. by destruct file.
  - destruct Hd as (Hh & front' & Hp & Hw). cbn in Hw. apply Hquit; try done. rewrite Hw. etransitivity; [exact Hp|]. by apply prefix_app_r.
Qed.

(** What a finished loading has left, and the answer in terms of what was
    read: every file is closed, and only the file the whole path leads to was
    read, once it was found fit. *)
Definition answerOf {T} (decode : bytes -> option T) (contents : option bytes) : T + configError :=
  match contents with
  | None => inr ErrConfigUnreadable
  | Some contents =>
      if maxConfigBytes <? zlen contents then inr ErrConfigUnreadable
      else match decode contents with Some target => inl target | None => inr ErrConfigInvalid end
  end.
Definition read_fitly (path : bytes) (m : opening) : Prop :=
  held m = [] /\ walked m `prefix_of` cleanedComponents path
  /\ (readBytes m <> None -> IsAbs path = true /\ walked m = cleanedComponents path /\ fit m = true).
Definition loaded {T} (decode : bytes -> option T) (path : bytes) (r : T + configError) (m : opening) : Prop :=
  read_fitly path m /\ r = answerOf decode (readBytes m).

Lemma readConfig_tracks {T} (decode : bytes -> option T) file m : held m = [file] -> readBytes m = None ->
  tracks m (readConfig (W := W) decode file) (fun r m' => held m' = [file] /\ walked m' = walked m
    /\ (readBytes m' <> None -> fit m' = true) /\ r = answerOf decode (readBytes m')).
Proof.
  intros Hh Hn. unfold readConfig. eapply tracks_bind; [apply (tracks_call ostep m _ _ (fun r =>
    mkOpening (held m) (walked m) (match r with Some info => fitFile info | None => false end) (readBytes m)))|].
  { intros r. cbn [ostep]. by rewrite bool_decide_eq_true_2. }
  intros [info|] m1 ->; [|by apply tracks_ret; cbn; rewrite Hn]. destruct (fitFile info) eqn:Ef; cbn [negb]; [|by apply tracks_ret; cbn; rewrite Hn].
  eapply tracks_bind; [apply (tracks_call ostep _ _ _ (fun r => mkOpening (held m) (walked m) true r))|].
  { intros r. cbn [ostep held fit]. by rewrite bool_decide_eq_true_2, Z.eqb_refl. }
  intros [contents|] m2 ->; [|by apply tracks_ret]. cbn [answerOf]. destruct (Z.ltb_spec maxConfigBytes (zlen contents)) as [Hl|Hl].
  - apply tracks_ret. cbn. by rewrite (proj2 (Z.ltb_lt _ _) Hl).
  - destruct (decode contents) eqn:Ed; apply tracks_ret; cbn; by rewrite (proj2 (Z.ltb_ge _ _) Hl), Ed.
Qed.

Lemma load_tracks {T} (decode : bytes -> option T) path : tracks unopened (load (W := W) decode path) (loaded decode path).
Proof.
  unfold load, loaded, read_fitly. destruct (IsAbs path); cbn [negb]; [|apply tracks_ret; split_and!; try done; apply prefix_nil].
  eapply tracks_bind; [apply openSecure_tracks|]. intros [file|] m1 (Hf & Hr & Hh).
  - destruct Hh as [Hh Hw]. eapply tracks_bind; [by apply readConfig_tracks|]. intros r m2 (Hh2 & Hw2 & Hf2 & Hr2).
    eapply tracks_bind; [apply (tracks_closed m2 file (mkOpening [] (walked m2) (fit m2) (readBytes m2))); cbn [ostep]; by rewrite Hh2, Z.eqb_refl|].
    intros [] m3 ->. apply tracks_ret. cbn. rewrite Hw2, Hw. split_and!; try done. intros Hn. split_and!; auto.
  - apply tracks_ret. destruct Hh as [Hh Hp]. rewrite Hr. by split_and!.
Qed.

(** ** The two configurations *)

Context `{L : GoLibrary}.

(** What the Drive program can start with. *)
Definition drive_allowed (c : DriveConfig) : Prop :=
  dlEnabled (dcDownload c) = false /\ 0 < dlMaxBytes (dcDownload c) /\ 0 < dlTimeoutSeconds (dcDownload c)
  /\ dlTimeoutSeconds (dcDownload c) * 1000000000 < 2 ^ 63
  /\ IsAbs (dcBinaryPath c) = true /\ Forall (fun directory => IsAbs directory = true) (dcAllowedDownloadDirectories c).

Lemma checkDrive_exact c : (drive_allowed c /\ checkDrive c = inl c) \/ (~ drive_allowed c /\ checkDrive c = inr ErrConfigInvalid).
Proof.
  unfold checkDrive, drive_allowed. pose proof (Z.div_mod (2 ^ 63 - 1) 1000000000 ltac:(lia)) as Hd. pose proof (Z.mod_pos_bound (2 ^ 63 - 1) 1000000000 ltac:(lia)).
  fold maxTimeoutSeconds in Hd. destruct (dlEnabled (dcDownload c)); cbn [orb]; [right; split; [intros (? & _); done|done]|].
  destruct (Z.leb_spec (dlMaxBytes (dcDownload c)) 0); cbn [orb]; [right; split; [intros (_ & ? & _); lia|done]|].
  destruct (Z.leb_spec (dlTimeoutSeconds (dcDownload c)) 0); cbn [orb]; [right; split; [intros (_ & _ & ? & _); lia|done]|].
  destruct (Z.ltb_spec maxTimeoutSeconds (dlTimeoutSeconds (dcDownload c))); [right; split; [intros (_ & _ & _ & ? & _); lia|done]|].
  destruct (IsAbs (dcBinaryPath c)); cbn [negb]; [|right; split; [intros (_ & _ & _ & _ & ? & _); done|done]].
  destruct (existsb _ _) eqn:E.
  - right. split; [|done]. intros (_ & _ & _ & _ & _ & Ha). apply existsb_exists in E as (x & Hx & E). rewrite Forall_forall in Ha.
    rewrite Ha in E by by apply list_elem_of_In. done.
  - left. split; [|done]. split_and!; try done; try lia. apply Forall_forall. intros x Hx. destruct (IsAbs x) eqn:Ex; [done|].
    assert (existsb (fun directory => negb (IsAbs directory)) (dcAllowedDownloadDirectories c) = true); [|congruence].
    apply existsb_exists. exists x. rewrite Ex. split; [by apply list_elem_of_In|done].
Qed.

(** The answer of [LoadDrive] in terms of what was read. *)
Definition driveAnswer (contents : option bytes) : DriveConfig + configError :=
  match answerOf decodeDrive contents with inl loaded => checkDrive loaded | inr err => inr err end.

Lemma LoadDrive_tracks path : tracks unopened (LoadDrive (W := W) path) (fun r m => read_fitly path m /\ r = driveAnswer (readBytes m)).
Proof. unfold LoadDrive, driveAnswer. eapply tracks_bind; [apply load_tracks|]. intros r m [Hm ->]. by apply tracks_ret. Qed.

(** ** The programs *)

Definition ready (parsed : option arguments) (path : bytes) : Prop := exists a, parsed = Some a /\ remaining a = 0%nat /\ configPath a = path /\ path <> [].

Lemma usable_exact parsed path : usable parsed = inl path <-> ready parsed path.
Proof.
  unfold ready. destruct parsed as [[p n]|]; cbn; [|split; [done|by intros (a & ? & _)]]. split.
  - destruct (n =? 0)%nat eqn:En; cbn; [|done]. destruct (beqs p []) eqn:Ep; [done|]. intros [= <-]. exists (mkArguments p n). apply Nat.eqb_eq in En.
    split_and!; try done. intros ->. done.
  - intros (a & [= <-] & Hn & <- & Hp). cbn in *. subst n. cbn. destruct (beqs p []) eqn:E; [by apply beqs_eq in E|done].
Qed.
End Load.

(** ** Properties *)

Section Properties.
Context {W : Type} `{CK : ConfigKernel W} `{L : GoLibrary}.

(** The log a run leaves, as the monitor read it. *)
Definition observed {A} (r : A * (W * list configEvent)) (m : opening) : Prop := mrun ostep unopened (snd (snd r)) = Some m.

Lemma tracks_run {A} (f : @C W A) post w : tracks unopened f post -> exists m, observed (f (w, [])) m /\ post (fst (f (w, []))) m.
Proof. intros H. destruct (H w []) as (k & m & El & Hm & Hp). exists m. unfold observed. by rewrite El. Qed.


Lemma drive_answer_inl contents loaded : driveAnswer contents = inl loaded -> exists c, contents = Some c /\ zlen c <= maxConfigBytes /\ decodeDrive c = Some loaded /\ drive_allowed loaded.
Proof.
  unfold driveAnswer, answerOf. destruct contents as [c|]; [|done]. destruct (Z.ltb_spec maxConfigBytes (zlen c)); [done|].
  destruct (decodeDrive c) as [d|] eqn:Ed; [|done]. destruct (checkDrive_exact d) as [[Ha ->]|[_ ->]]; [|done]. intros [= <-]. by exists c.
Qed.

Lemma mail_answer_inl contents loaded : answerOf decodeMail contents = inl loaded -> exists c, contents = Some c /\ zlen c <= maxConfigBytes /\ decodeMail c = Some loaded.
Proof.
  unfold answerOf. destruct contents as [c|]; [|done]. destruct (Z.ltb_spec maxConfigBytes (zlen c)); [done|].
  destruct (decodeMail c) as [d|] eqn:Ed; [|done]. intros [= <-]. by exists c.
Qed.

(** A client for the binary of an allowed configuration. *)
Definition plain_client (binary : bytes) : Client := mkClient binary [] [] defaultTimeout defaultMaxBytes.

Lemma new_plain supportedOS binary : IsAbs binary = true ->
  New supportedOS (DriveCli.mkOptions binary [] [] 0 0) = if supportedOS then inl (plain_client binary) else inr Cli.InvalidConfig.
Proof. intros H. unfold New. cbn -[IsAbs]. rewrite H. by destruct supportedOS. Qed.

(** What the Drive program starts with, in terms of what was read. *)
Definition driveStart (supportedOS : bool) (contents : option bytes) : Client + startError :=
  match driveAnswer contents with
  | inr err => inr (ConfigFailure err)
  | inl loaded =>
      if dcWrites loaded then inr ErrWritesEnabled
      else if supportedOS then inl (plain_client (dcBinaryPath loaded)) else inr InvalidDriveCLI
  end.

(** The Drive program starts only with the private file named on its
    command line, read safely, and only when it asks for neither writes nor
    downloads, with positive limits and absolute paths; its client is then
    made for the configured binary with the default limits and an empty
    environment, and on a supported system making it cannot fail. *)
Theorem drive_program_start supportedOS parsed path w (Hready : ready parsed path) :
  exists m, observed (runDrive supportedOS parsed (w, [])) m /\ read_fitly path m
    /\ fst (runDrive supportedOS parsed (w, [])) = driveStart supportedOS (readBytes m)
    /\ forall client, driveStart supportedOS (readBytes m) = inl client ->
         exists contents loaded, readBytes m = Some contents /\ zlen contents <= maxConfigBytes /\ decodeDrive contents = Some loaded
           /\ drive_allowed loaded /\ dcWrites loaded = false /\ client = plain_client (dcBinaryPath loaded).
Proof.
  apply usable_exact in Hready. unfold runDrive. rewrite Hready.
  destruct (tracks_run (lbind (LoadDrive path) (fun loaded => lret (match loaded with
    | inr err => inr (ConfigFailure err)
    | inl loaded => if dcWrites loaded then inr ErrWritesEnabled
        else match New supportedOS (DriveCli.mkOptions (dcBinaryPath loaded) [] [] 0 0) with inl client => inl client | inr _ => inr InvalidDriveCLI end end)))
    (fun r m => read_fitly path m /\ r = driveStart supportedOS (readBytes m)) w) as (m & Ho & Hf & Hr).
  { eapply tracks_bind; [apply LoadDrive_tracks|]. intros r m [Hm Er]. apply tracks_ret. split; [done|]. unfold driveStart. rewrite <- Er.
    destruct r as [loaded|]; [|done]. destruct (dcWrites loaded); [done|]. symmetry in Er. apply drive_answer_inl in Er as (c & _ & _ & _ & Ha).
    rewrite new_plain by apply Ha. by destruct supportedOS. }
  exists m. split; [done|]. split; [done|]. split; [done|]. intros client. unfold driveStart.
  destruct (driveAnswer (readBytes m)) as [loaded|] eqn:Ea; [|done]. destruct (dcWrites loaded) eqn:Ew; [done|]. destruct supportedOS; [|done]. intros [= <-].
  apply drive_answer_inl in Ea as (c & ? & ? & ? & ?). by exists c, loaded.
Qed.

Section Mail.
Context {V : Type} `{N : Normalizer} `{K : Clock V}.
Variable ParseAddr : bytes -> option addr.
Variable killSupported : bool.
Variable idKey : option bytes.
Variable surfaces : ValidatedConfig -> bytes -> Mail V * TriageSurface V.
Let program parsed w := runMail (NewAdapter ParseAddr killSupported idKey) surfaces parsed (w, []).

(** What the mail program starts with, in terms of what was loaded. *)
Definition mailStart (loaded : Config + configError) : ToolServer.Options V + startError :=
  match loaded with
  | inr err => inr (ConfigFailure err)
  | inl loaded =>
      match NewAdapter ParseAddr killSupported idKey loaded with
      | inr err => inr (AdapterFailure err)
      | inl (config, key) =>
          let '(mail, triage) := surfaces config key in
          inl (ToolServer.mkOptions V (Some mail) (if cMutations loaded then Some triage else None) (cAudit loaded))
      end
  end.

(** The mail program starts only with the private file named on its
    command line, read safely, whose configuration validates; its server then
    offers the triage tools and writes the audit exactly when that file says
    so, over an adapter with the validated configuration. *)
Theorem mail_program_start parsed path w (Hready : ready parsed path) :
  exists m, observed (program parsed w) m /\ read_fitly path m
    /\ forall options, fst (program parsed w) = inl options ->
         exists contents loaded config key, readBytes m = Some contents /\ zlen contents <= maxConfigBytes /\ decodeMail contents = Some loaded
           /\ ValidateConfig ParseAddr killSupported loaded = inl config /\ idKey = Some key
           /\ optMail options = Some (fst (surfaces config key))
           /\ registerTools options = toolDefinitions ++ (if cMutations loaded then triageToolDefinitions else [])
           /\ optTriage options = (if cMutations loaded then Some (snd (surfaces config key)) else None) /\ optAudit options = cAudit loaded.
Proof.
  apply usable_exact in Hready. unfold program, runMail. rewrite Hready.
  destruct (tracks_run (lbind (Load path) (fun loaded => lret (mailStart loaded))) (fun r m => read_fitly path m /\ r = mailStart (answerOf decodeMail (readBytes m))) w)
    as (m & Ho & Hf & Hr).
  { eapply tracks_bind; [apply load_tracks|]. intros r m [Hm ->]. by apply tracks_ret. }
  exists m. split; [done|]. split; [done|]. intros options Hs. assert (E : mailStart (answerOf decodeMail (readBytes m)) = inl options) by (by rewrite <- Hr).
  clear Hs Ho Hr. unfold mailStart, NewAdapter in E.
  destruct (answerOf decodeMail (readBytes m)) as [loaded|] eqn:Er; [|done]. apply mail_answer_inl in Er as (c & E1 & E2 & E3).
  destruct (ValidateConfig ParseAddr killSupported loaded) as [config|] eqn:Ev; [|done]. destruct idKey as [key|]; [|done].
  destruct (surfaces config key) as [mail triage] eqn:Es. injection E as <-. exists c, loaded, config, key. rewrite Es. unfold registerTools. cbn.
  by destruct (cMutations loaded).
Qed.
End Mail.
End Properties.

(** ** A small kernel *)

(** A file of the user's own with the contents in the world, under whatever
    directories a path names. *)
#[local] Instance demo_kernel : ConfigKernel (bytes * Z) := {|
  cfOpen _ _ w := (Some (snd w), (fst w, snd w + 1));
  cfOpenat _ name _ w := (if beqs name $"link" then None else Some (snd w), (fst w, snd w + 1));
  cfClose _ w := w;
  cfStat _ w := (Some (mkInfo true true (zlen (fst w)) 384), w);
  cfRead _ n w := (Some (take (Z.to_nat n) (fst w)), w) |}.
#[local] Instance demo_library : GoLibrary := {| EqualFold := equal_fold; Time := unit; ParseRFC3339 _ := None; FormatRFC3339 _ := []; inUTC _ := true; instant _ := 0 |}.
#[local] Instance demo_clock : Clock unit := fun w => (0, w).
#[local] Instance demo_normalizer : Normalizer := fun _ => inr (errorCode CodeIMAPProtocol).

(** JSON text, with apostrophes for quotes. *)
Definition quoted (s : String.string) : bytes := map (fun c => if c =b "'"%byte then x22 else c) $s.

Example clean_examples : cleanedComponents $"/etc/../srv//./croton/x.json" = [$"srv"; $"croton"; $"x.json"] /\ cleanedComponents $"/.." = [[]].
Proof. split; reflexivity. Qed.

Example load_through_link : fst (LoadDrive $"/home/link/drive.json" ($"{}", 3, [])) = inr ErrConfigUnreadable.
Proof. vm_compute. reflexivity. Qed.

Definition demo_drive : bytes := quoted "{'cli': {'binaryPath': '/opt/drive'}, 'download': {'timeoutSeconds': 60}}".

Example drive_defaults : fst (LoadDrive $"/home/u/drive.json" (demo_drive, 3, [])) = inl (mkDriveConfig $"/opt/drive" [] (mkDownload false 268435456 60) false).
Proof. vm_compute. reflexivity. Qed.

Example drive_refusals : map (fun text => fst (LoadDrive $"/d" (quoted text, 3, [])))
    ["{'cli':{'binaryPath':'/x'},'download':{'maxBytes':0}}"; "{'cli':{'binaryPath':'/x'},'download':{'MaxBytes':1}}";
     "{'cli':{'binaryPath':'/x'},'download':{'timeoutSeconds':9223372037}}"; "{'cli':{'binaryPath':'x'}}"; "{}"; "{'cli':null}"]%string
  = repeat (inr ErrConfigInvalid) 6.
Proof. vm_compute. reflexivity. Qed.

Lemma drive_program_start_witness : ready (Some (mkArguments $"/home/u/drive.json" 0)) $"/home/u/drive.json"
  /\ fst (runDrive true (Some (mkArguments $"/home/u/drive.json" 0)) (demo_drive, 3, [])) = inl (plain_client $"/opt/drive")
  /\ exists contents loaded, decodeDrive contents = Some loaded /\ drive_allowed loaded /\ plain_client $"/opt/drive" = plain_client (dcBinaryPath loaded).
Proof.
  assert (Hr : ready (Some (mkArguments $"/home/u/drive.json" 0)) $"/home/u/drive.json") by (by exists (mkArguments $"/home/u/drive.json" 0)).
  split; [exact Hr|]. assert (E : fst (runDrive true (Some (mkArguments $"/home/u/drive.json" 0)) (demo_drive, 3, [])) = inl (plain_client $"/opt/drive")) by (vm_compute; reflexivity).
  split; [exact E|]. destruct (drive_program_start true _ _ (demo_drive, 3) Hr) as (m & _ & _ & Es & H). rewrite E in Es.
  destruct (H _ (eq_sym Es)) as (contents & loaded & _ & _ & Ed & Ha & _ & Ec). exists contents, loaded. split; [exact Ed|]. split; [exact Ha|exact Ec].
Defined.

Definition demo_mail : bytes := quoted
  "{'imap': {'credentialCommand': ['/bin/cat'], 'tls': {'spkiSha256': '0000000000000000000000000000000000000000000000000000000000000000'}}, 'mutations': {'enabled': true}}".
Definition demo_surfaces (_ : ValidatedConfig) (_ : bytes) : Mail unit * TriageSurface unit :=
  (mkMail unit (fun w => (Crash, w)) (fun _ w => (Crash, w)) (fun _ w => (Crash, w)) (fun _ w => (Crash, w)) (fun _ w => (Crash, w)) None None,
   mkSurface unit (fun _ _ _ _ w => (Crash, w)) (fun _ _ _ _ w => (Crash, w)) (fun _ _ _ w => (Crash, w)) (fun _ _ _ w => (Crash, w))).
Definition demo_program := runMail (W := bytes * Z) (NewAdapter loopback_only true (Some (repeat x01 32))) demo_surfaces.

Example mail_options : map (fun text => match fst (demo_program (Some (mkArguments $"/c" 0)) (quoted text, 3, [])) with inl o => inl (optAudit o) | inr e => inr e end)
    ["{'imap':{'host':'10.0.0.1'}}"; "{'imap':{'host':5}}"; "{'Imap':{},'imap':{}}"; ""]%string
  = [inr (AdapterFailure (errorCode CodeInvalidEndpoint)); inr (ConfigFailure ErrConfigInvalid); inr (ConfigFailure ErrConfigInvalid);
     inr (AdapterFailure (errorCode CodeInvalidConfig))].
Proof. vm_compute. reflexivity. Qed.

Lemma mail_program_start_witness : ready (Some (mkArguments $"/home/u/mail.json" 0)) $"/home/u/mail.json"
  /\ exists options loaded, fst (demo_program (Some (mkArguments $"/home/u/mail.json" 0)) (demo_mail, 3, [])) = inl options
       /\ decodeMail demo_mail = Some loaded /\ cMutations loaded = true /\ registerTools options = toolDefinitions ++ triageToolDefinitions.
Proof.
  assert (Hr : ready (Some (mkArguments $"/home/u/mail.json" 0)) $"/home/u/mail.json") by (by exists (mkArguments $"/home/u/mail.json" 0)).
  split; [exact Hr|]. destruct (mail_program_start loopback_only true (Some (repeat x01 32)) demo_surfaces _ _ (demo_mail, 3) Hr) as (m & Ho & _ & H).
  unfold demo_program. destruct (fst (runMail _ _ _ _)) as [options|e] eqn:E in H |- *; [|vm_compute in E; discriminate E].
  destruct (H options eq_refl) as (contents & loaded & config & key & Ec & _ & Ed & _ & _ & _ & Er & _). exists options, loaded. split; [done|].
  assert (Em : readBytes m = Some demo_mail) by (unfold observed in Ho; vm_compute in Ho; injection Ho as <-; vm_compute; reflexivity).
  rewrite Em in Ec. injection Ec as <-. split; [exact Ed|].
  assert (Hm : cMutations loaded = true) by (vm_compute in Ed; injection Ed as <-; reflexivity). split; [exact Hm|]. by rewrite Er, Hm.
Defined.
