(* ===== verification/OpenSession.v ===== *)
(** * Opening a session

    [openSession] of [bridge/bridge.go] and [newIMAPSession] of
    [bridge/imapclient.go]: the dial, the session's client, the credential
    helper and the login in their order, with what each leaves open.  What the
    socket, the go-imap client and the helper process did are arguments. *)
From Stdlib Require Import ZArith Lia Strings.Byte.
From stdpp Require Import base list strings sets.
From S2P Require Import Prelude GoStrings GoText GoJson Errors Config Dial DialSpec Session ImapSession Credentials.

Inductive openEvent :=
| Dialled (c : Connection) (sent : bytes)
| Started (syntheticGreeting : bool)
| HelperRan (command : list bytes)
| LoginSent (c : Credentials)
| TransportClosed.

(** What the calls of one opening meet. *)
Record openWorld := mkOpenWorld {
  dialling : dialWorld;
  starting : around; greeting : option goerror; startCaps : bool;
  helper : processRun;
  authenticating : around; login : option goerror; loginNo : bool; noop : option goerror; noopImap : bool; loginCaps : bool }.

(** [newIMAPSession]: the connection it leaves behind is inert; a failure has
    closed the client and so the transport. *)
Definition newIMAPSession (w : openWorld) (c : Connection) : (Connection + Connection * goerror) * list openEvent :=
  match takeConn (Some c) with
  | inr err => (inr (c, err), [])
  | inl (startTLS, inert) =>
      let inert := default c inert in
      match startClient (starting w) (greeting w) (startCaps w) with
      | None => (inl inert, [Started startTLS])
      | Some err => (inr (inert, err), [Started startTLS; TransportClosed])
      end
  end.

(** [Connection.Close]. *)
Definition closeConnection (c : Connection) : list openEvent := if connection c then [TransportClosed] else [].

Section Open.
Variable ParseAddr : bytes -> option addr.
Variable credentialProcessTreeKillSupported : bool.
Variable loadTrustAnchor : bytes -> certificate + goerror.

(** The helper is started behind the guards of [LoadCredentials]; a timeout
    in milliseconds becomes a duration. *)
Definition helperEvents (command : list bytes) (timeout : Z) : list openEvent :=
  if negb (isSafeCredentialCommand credentialProcessTreeKillSupported command) || (timeout <=? 0) then [] else [HelperRan command].

Definition openSession (w : openWorld) (config : ValidatedConfig) : option ((unit + goerror) * list openEvent) :=
  match Dial ParseAddr credentialProcessTreeKillSupported loadTrustAnchor (dialling w) (dialConfig config) with
  | None => None
  | Some (inr err, _) => Some (inr err, [])
  | Some (inl c, sent) =>
      match newIMAPSession w c with
      | (inr (inert, err), started) => Some (inr err, Dialled c sent :: started ++ closeConnection inert)
      | (inl _, started) =>
          let command := CredentialCommand (vIMAP config) in
          let timeout := CommandTimeoutMs (vIMAP config) * 1000000 in
          let begun := Dialled c sent :: started ++ helperEvents command timeout in
          match LoadCredentials credentialProcessTreeKillSupported command timeout (helper w) with
          | inr err => Some (inr err, begun ++ [TransportClosed])
          | inl credentials =>
              match Authenticate (authenticating w) (login w) (loginNo w) (noop w) (noopImap w) (loginCaps w) with
              | Some err => Some (inr err, begun ++ [LoginSent credentials; TransportClosed])
              | None => Some (inl tt, begun ++ [LoginSent credentials])
              end
          end
      end
  end.
End Open.

(** ** What an opening guarantees *)

(** The transport the dial gave is a verified one: the handshake, which runs
    the verifier, succeeded, and under STARTTLS the plaintext dialogue before
    it was a proper one, in which the two commands were sent. *)
Definition verified_transport (w : openWorld) (config : ValidatedConfig) (c : Connection) (sent : bytes) : Prop :=
  handshake (dialling w) = None
  /\ if beqs (TLSMode (vIMAP config)) $"implicit" then c = mkConnection true false /\ sent = []
     else c = mkConnection true true /\ sent = concat plaintext_commands
          /\ exists source, connected (dialling w) = inl source /\ started (dialling w) source.

(** The calls of one opening in their order: nothing; or a dial and a start;
    or these and the helper; or these and one login. *)
Inductive opening_log (w : openWorld) (config : ValidatedConfig) : list openEvent -> Prop :=
| log_refused : opening_log w config []
| log_started c sent : verified_transport w config c sent -> opening_log w config [Dialled c sent; Started (startTLS c); TransportClosed]
| log_helped c sent : verified_transport w config c sent ->
    opening_log w config [Dialled c sent; Started (startTLS c); HelperRan (CredentialCommand (vIMAP config)); TransportClosed]
| log_refused_login c sent credentials : verified_transport w config c sent ->
    opening_log w config [Dialled c sent; Started (startTLS c); HelperRan (CredentialCommand (vIMAP config)); LoginSent credentials; TransportClosed]
| log_open c sent credentials : verified_transport w config c sent ->
    opening_log w config [Dialled c sent; Started (startTLS c); HelperRan (CredentialCommand (vIMAP config)); LoginSent credentials].

Section Open.
Variable ParseAddr : bytes -> option addr.
Variable killSupported : bool.
Variable loadTrustAnchor : bytes -> certificate + goerror.

Lemma dial_cases w config input : ValidateConfig ParseAddr killSupported input = inl config ->
  exists r sent, Dial ParseAddr killSupported loadTrustAnchor (dialling w) (dialConfig config) = Some (r, sent)
    /\ forall c, r = inl c -> verified_transport w config c sent.
Proof.
  intros Hv. unfold Dial. rewrite (proj2 (proj2 (validate_again _ _ _ _ Hv))).
  destruct (ParseLoopbackEndpoint _ _ _) as [endpoint|err]; [|by eexists _, _].
  destruct (newTLSVerifier _ _) as [v|err]; [|by eexists _, _]. destruct (connected (dialling w)) as [source|err] eqn:Ec; [|by eexists _, _].
  unfold verified_transport. destruct (beqs (TLSMode (vIMAP config)) _) eqn:Em.
  - unfold establishImplicitTLS. destruct (handshake (dialling w)) as [err|]; eexists _, _; (split; [done|]); [done|by intros c [= <-]].
  - destruct (establish_cases (dialling w) source) as (r & n & -> & Hr). eexists _, _. split; [done|]. intros c ->. destruct Hr as (-> & -> & Hs).
    split; [by destruct Hs as (? & ? & ? & ? & ? & ? & ? & ? & _ & _ & _ & _ & _ & _ & _ & _ & _ & Hh & _)|].
    split; [done|]. split; [done|]. by exists source.
Qed.

Lemma verified_open w config c sent : verified_transport w config c sent -> connection c = true.
Proof. intros [_ H]. destruct (beqs _ _); [by destruct H as [-> _]|by destruct H as (-> & _)]. Qed.

(** A validated configuration has a command the helper can run with. *)
Lemma validated_command input config : ValidateConfig ParseAddr killSupported input = inl config ->
  isSafeCredentialCommand killSupported (CredentialCommand (vIMAP config)) = true.
Proof.
  intros H. pose proof (proj2 (proj2 (validate_again _ _ _ _ H))) as E. revert E. unfold ValidateConfig. cbn [dialConfig cIMAP].
  destruct (ParseLoopbackEndpoint _ _ _); [|done]. cbv zeta. destruct (_ && _); [done|].
  by destruct (isSafeCredentialCommand killSupported (CredentialCommand (vIMAP config))).
Qed.

(** The logs as the definition builds them, over a transport. *)
Lemma newIMAPSession_open w c : connection c = true -> newIMAPSession w c =
  match startClient (starting w) (greeting w) (startCaps w) with
  | None => (inl (mkConnection false (startTLS c)), [Started (startTLS c)])
  | Some err => (inr (mkConnection false (startTLS c), err), [Started (startTLS c); TransportClosed])
  end.
Proof. destruct c as [[] tls]; [intros _|done]. reflexivity. Qed.

(** C16: opening a session with a validated configuration always ends.  The
    credential helper runs only over a transport whose handshake verified the
    server, under STARTTLS after the exact plaintext dialogue, and whose
    greeting was read; a login is sent once, with what the helper printed and
    nothing else; and every opening that fails behind the dial closes the
    transport once, at its end. *)
Theorem session_opening w config input (Hv : ValidateConfig ParseAddr killSupported input = inl config) :
  exists r log, openSession ParseAddr killSupported loadTrustAnchor w config = Some (r, log)
    /\ opening_log w config log
    /\ (forall command, HelperRan command ∈ log -> startClient (starting w) (greeting w) (startCaps w) = None)
    /\ (forall credentials, LoginSent credentials ∈ log ->
          LoadCredentials killSupported (CredentialCommand (vIMAP config)) (CommandTimeoutMs (vIMAP config) * 1000000) (helper w) = inl credentials)
    /\ match r with
       | inl _ => exists credentials, last log = Some (LoginSent credentials)
       | inr _ => log = [] \/ last log = Some TransportClosed
       end.
Proof.
  unfold openSession. destruct (dial_cases w config input Hv) as (r & sent & -> & Hc).
  destruct r as [c|err]; [|exists (inr err), []; split; [done|]; split; [by constructor|]; split; [by intros ? ?%not_elem_of_nil|]; split; [by intros ? ?%not_elem_of_nil|by left]].
  specialize (Hc c eq_refl). rewrite newIMAPSession_open by by eapply verified_open.
  destruct (startClient _ _ _) as [err|].
  { eexists _, _. split; [done|]. split; [by constructor|]. split; [set_solver|]. split; [set_solver|by right]. }
  unfold helperEvents. rewrite (validated_command _ _ Hv). pose proof (proj1 (proj2 (validate_again _ _ _ _ Hv))) as Ht.
  destruct (Z.leb_spec (CommandTimeoutMs (vIMAP config) * 1000000) 0); [lia|]. cbn [negb orb].
  destruct (LoadCredentials _ _ _ _) as [credentials|err]; cbn [app].
  2:{ eexists _, _. split; [done|]. split; [by constructor|]. split; [done|]. split; [set_solver|by right]. }
  destruct (Authenticate _ _ _ _ _ _) as [err|]; eexists _, _; (split; [done|]); (split; [by constructor|]); (split; [done|]); (split; [set_solver|]);
    [by right|by exists credentials].
Qed.
End Open.

(** ** A small opening *)

Definition sample_dial (mode : bytes) : Config :=
  mkConfig (mkIMAP [] 0 mode [$"/bin/cat"] (mkTLS [] sample_pin []) 0 2000) (cBounds sample_config) true false.
Definition sample_world (printed : bytes) : openWorld :=
  mkOpenWorld (mkDialWorld (inl (mkPlaintext [] errStartTLSProtocol)) false false None false None false None false false)
    (mkAround live_ctx false) None true (mkRun [printed] false false) (mkAround live_ctx false) None false None false true.
Definition sample_credentials : bytes :=
  $"{" ++ [x22] ++ $"username" ++ [x22] ++ $":" ++ [x22] ++ $"u" ++ [x22] ++ $"," ++ [x22] ++ $"password" ++ [x22] ++ $":" ++ [x22] ++ $"p" ++ [x22] ++ $"}".

(** Under STARTTLS a server that says nothing is refused; with implicit TLS
    the login follows, and a helper that prints no credentials ends it. *)
Definition opened_with (mode printed : bytes) : option ((unit + goerror) * list openEvent) :=
  match ValidateConfig loopback_only true (sample_dial mode) with
  | inl config => openSession loopback_only true no_anchor (sample_world printed) config
  | inr _ => None
  end.

Example openings :
  opened_with [] sample_credentials = Some (inr (errorCode CodeTLSNegotiation), [])
  /\ opened_with $"implicit" $"{}" = Some (inr (errorCode CodeCredentialOutput),
       [Dialled (mkConnection true false) []; Started false; HelperRan [$"/bin/cat"]; TransportClosed]).
Proof. split; vm_compute; reflexivity. Qed.

Lemma session_opening_witness : exists config log,
  ValidateConfig loopback_only true (sample_dial $"implicit") = inl config
  /\ openSession loopback_only true no_anchor (sample_world sample_credentials) config = Some (inl tt, log)
  /\ log = [Dialled (mkConnection true false) []; Started false; HelperRan [$"/bin/cat"]; LoginSent (mkCredentials $"u" $"p")]
  /\ opening_log (sample_world sample_credentials) config log.
Proof.
  destruct (ValidateConfig loopback_only true (sample_dial $"implicit")) as [config|] eqn:Ev; [|vm_compute in Ev; discriminate Ev].
  destruct (session_opening loopback_only true no_anchor (sample_world sample_credentials) config (sample_dial $"implicit") Ev) as (r & log & E & Hl & _).
  assert (Eo : openSession loopback_only true no_anchor (sample_world sample_credentials) config
    = Some (inl tt, [Dialled (mkConnection true false) []; Started false; HelperRan [$"/bin/cat"]; LoginSent (mkCredentials $"u" $"p")]))
    by (vm_compute in Ev; injection Ev as <-; vm_compute; reflexivity).
  rewrite Eo in E. injection E as <- <-. exists config. eexists. split; [reflexivity|]. split; [exact Eo|]. split; [reflexivity|exact Hl].
Defined.
