(* ===== verification/Lifecycle.v ===== *)
(** * The end of a connection

    [mcpserver/lifecycle.go]: a connection closes when its context ends or
    when it is closed, whichever comes first, and any number of closers and
    the context's callback race.  The mutex makes taking the stop function one
    step; [sync.Once] lets one goroutine in and holds the others until it is
    done; [context.AfterFunc] starts its callback in a goroutine of its own,
    which may run before the stop function is stored. *)
From Stdlib Require Import ZArith Lia Strings.Byte.
From stdpp Require Import base list gmap strings.
From S2P Require Import Prelude GoStrings Monitor.

(** ** The connection and its closers *)

(** What the underlying [Close] returned: nil or an error. *)
Definition closeResult : Type := option bytes.

(** A goroutine: a closer, or the callback, which has no number. *)
Abbreviation goroutine := (option nat).

(** [sync.Once]: not used, running in a goroutine, done. *)
Inductive onceState := Fresh | Running (t : goroutine) | Used.
(** The registration of the callback: pending, stopped, or started. *)
Inductive hookState := Registered | Stopped | Fired.

Record contextClosingConnection := mkClosing { hook : hookState; stop : bool; closeOnce : onceState; closeErr : closeResult }.

(** Where a goroutine stands: at the start of [Close], with the stop function
    it took or without one, before [closeOnce.Do], in its function before and
    behind the underlying [Close], behind [Do], and returned. *)
Inductive phase := Entered | Took (stop : bool) | AtOnce | Inside | Stored | Behind | Returned (err : closeResult).

(** One step of [Close] or [closeUnderlying]; the last index is what the
    underlying [Close] returned, if it was called. *)
Inductive moves (c : contextClosingConnection) (t : goroutine) : phase -> contextClosingConnection -> phase -> list closeResult -> Prop :=
| takes : moves c t Entered (mkClosing (hook c) false (closeOnce c) (closeErr c)) (Took (stop c)) []
| stops : moves c t (Took true) (mkClosing (match hook c with Registered => Stopped | h => h end) (stop c) (closeOnce c) (closeErr c)) AtOnce []
| skips : moves c t (Took false) c AtOnce []
| enters : closeOnce c = Fresh -> moves c t AtOnce (mkClosing (hook c) (stop c) (Running t) (closeErr c)) Inside []
| closes err : moves c t Inside (mkClosing (hook c) (stop c) (closeOnce c) err) Stored [err]
| finishes : moves c t Stored (mkClosing (hook c) (stop c) Used (closeErr c)) Behind []
| passes : closeOnce c = Used -> moves c t AtOnce c Behind []
| returns : moves c t Behind c (Returned (closeErr c)) [].

(** ** The goroutines together *)

Record system := mkSystem { connected : bool; ended : bool; theConnection : contextClosingConnection; goroutines : gmap goroutine phase; closings : list closeResult }.
(** [Connect] behind [AfterFunc]. *)
Definition initial : system := mkSystem false false (mkClosing Registered false Fresh None) ∅ [].

(** What happens without the context and without new closers. *)
Inductive calm_step (s : system) : system -> Prop :=
| connects : connected s = false ->
    calm_step s (mkSystem true (ended s) (mkClosing (hook (theConnection s)) true (closeOnce (theConnection s)) (closeErr (theConnection s))) (goroutines s) (closings s))
| fires : ended s = true -> hook (theConnection s) = Registered ->
    calm_step s (mkSystem (connected s) true (mkClosing Fired (stop (theConnection s)) (closeOnce (theConnection s)) (closeErr (theConnection s)))
      (<[None := AtOnce]> (goroutines s)) (closings s))
| goroutine_moves t p c' p' closed : goroutines s !! t = Some p -> moves (theConnection s) t p c' p' closed ->
    calm_step s (mkSystem (connected s) (ended s) c' (<[t := p']> (goroutines s)) (closings s ++ closed)).

Inductive step (s : system) : system -> Prop :=
| context_ends : step s (mkSystem (connected s) true (theConnection s) (goroutines s) (closings s))
| arrives r : connected s = true -> goroutines s !! Some r = None ->
    step s (mkSystem true (ended s) (theConnection s) (<[Some r := Entered]> (goroutines s)) (closings s))
| goes_on s' : calm_step s s' -> step s s'.

Definition reachable (s : system) : Prop := star step initial s.

(** ** The invariant *)

Definition before (p : phase) : bool := match p with Entered | Took _ | AtOnce => true | _ => false end.
Definition behind (e : closeResult) (p : phase) : Prop := before p = true \/ p = Behind \/ p = Returned e.

Definition once_ok (s : system) : Prop :=
  match closeOnce (theConnection s) with
  | Fresh => closings s = [] /\ forall t p, goroutines s !! t = Some p -> before p = true
  | Running u => (goroutines s !! u = Some Inside /\ closings s = [] \/ goroutines s !! u = Some Stored /\ closings s = [closeErr (theConnection s)])
      /\ forall t p, goroutines s !! t = Some p -> t <> u -> before p = true
  | Used => closings s = [closeErr (theConnection s)] /\ forall t p, goroutines s !! t = Some p -> behind (closeErr (theConnection s)) p
  end.
Definition hook_ok (s : system) : Prop :=
  match hook (theConnection s) with
  | Registered => goroutines s !! None = None
  | Stopped => goroutines s !! None = None /\ exists r p, goroutines s !! Some r = Some p
  | Fired => ended s = true /\ exists p, goroutines s !! None = Some p
  end.
Definition invariant (s : system) : Prop := once_ok s /\ hook_ok s.

(** Look a goroutine up behind the update of another. *)
Ltac at_goroutines := repeat match goal with
  | H : context [<[?r := _]> _ !! ?q] |- _ => destruct (decide (q = r)) as [->|]; [rewrite lookup_insert_eq in H|rewrite lookup_insert_ne in H by done]
  | |- context [<[?r := _]> _ !! ?q] => destruct (decide (q = r)) as [->|]; [rewrite lookup_insert_eq|rewrite lookup_insert_ne by done]
  end; simplify_eq.

Lemma hook_moves s t p c' p' closed : hook_ok s -> goroutines s !! t = Some p -> moves (theConnection s) t p c' p' closed ->
  hook_ok (mkSystem (connected s) (ended s) c' (<[t := p']> (goroutines s)) (closings s ++ closed)).
Proof.
  unfold hook_ok. cbn [theConnection goroutines ended]. intros H Ht Hm.
  assert (Hc : hook c' = hook (theConnection s) \/ (hook (theConnection s) = Registered /\ hook c' = Stopped))
    by (destruct Hm; cbn; auto; destruct (hook (theConnection s)); auto).
  assert (Hsome : forall u, is_Some (goroutines s !! u) -> is_Some (<[t := p']> (goroutines s) !! u)) by (intros u; rewrite lookup_insert_is_Some; destruct (decide (t = u)); auto).
  assert (Hnone : goroutines s !! None = None -> <[t := p']> (goroutines s) !! None = None) by (intros E; rewrite lookup_insert_ne by congruence; done).
  destruct Hc as [-> | [E ->]].
  - destruct (hook (theConnection s)); [auto| |].
    + destruct H as (H & r & q & Hr). split; [auto|]. exists r. apply Hsome. eauto.
    + destruct H as (H & q & Hq). split; [auto|]. apply Hsome. eauto.
  - rewrite E in H. split; [auto|]. destruct t as [r|]; [|congruence]. exists r, p'. apply lookup_insert_eq.
Qed.

Lemma once_moves s t p c' p' closed : once_ok s -> goroutines s !! t = Some p -> moves (theConnection s) t p c' p' closed ->
  once_ok (mkSystem (connected s) (ended s) c' (<[t := p']> (goroutines s)) (closings s ++ closed)).
Proof.
  unfold once_ok. intros H Ht Hm. cbn [theConnection goroutines closings].
  assert (Hother : before p' = true -> closeOnce c' = closeOnce (theConnection s) -> closeErr c' = closeErr (theConnection s) -> before p = true ->
    closed = [] -> once_ok (mkSystem (connected s) (ended s) c' (<[t := p']> (goroutines s)) (closings s ++ closed))).
  { intros Hb E1 E2 Hp ->. unfold once_ok. cbn [theConnection goroutines closings]. rewrite E1, E2, app_nil_r. destruct (closeOnce (theConnection s)) as [|u|].
    - destruct H as [-> H]. split; [done|]. intros u q Hu. at_goroutines; eauto.
    - destruct H as [Hu H]. assert (u <> t) by (intros ->; rewrite Ht in Hu; destruct Hu as [[[= ->] _]|[[= ->] _]]; done).
      rewrite lookup_insert_ne by done. split; [done|]. intros v q Hv Hne. at_goroutines; eauto.
    - destruct H as [-> H]. split; [done|]. intros u q Hu. at_goroutines; [by left|eauto]. }
  destruct Hm as [| | |E|err| |E|]; try (by apply Hother); cbn [closeOnce closeErr hook].
  - rewrite app_nil_r. rewrite E in H. destruct H as [-> H]. split; [left; by rewrite lookup_insert_eq|]. intros u q Hu Hne. at_goroutines; eauto.
  - destruct (closeOnce (theConnection s)) as [|u|]; [destruct H as [_ H]; by pose proof (H _ _ Ht)| |destruct H as [_ H]; by destruct (H _ _ Ht) as [?|[?|?]]].
    destruct H as [Hu H]. destruct (decide (t = u)) as [->|Hne]; [|by pose proof (H _ _ Ht Hne)].
    rewrite Ht in Hu. destruct Hu as [[_ ->]|[[= ] _]]. split; [right; by rewrite lookup_insert_eq|]. intros v q Hv Hne. at_goroutines; eauto.
  - rewrite app_nil_r. destruct (closeOnce (theConnection s)) as [|u|]; [destruct H as [_ H]; by pose proof (H _ _ Ht)| |destruct H as [_ H]; by destruct (H _ _ Ht) as [?|[?|?]]].
    destruct H as [Hu H]. destruct (decide (t = u)) as [->|Hne]; [|by pose proof (H _ _ Ht Hne)].
    rewrite Ht in Hu. destruct Hu as [[[= ] _]|[_ ->]]. split; [done|]. intros v q Hv. at_goroutines; [right; by left|]. left. eauto.
  - rewrite app_nil_r, E in *. destruct H as [-> H]. split; [done|]. intros u q Hu. at_goroutines; [right; by left|eauto].
  - rewrite app_nil_r. destruct (closeOnce (theConnection s)) as [|u|]; [destruct H as [_ H]; by pose proof (H _ _ Ht)| |].
    + destruct H as [Hu H]. destruct (decide (t = u)) as [->|Hne]; [|by pose proof (H _ _ Ht Hne)]. rewrite Ht in Hu. by destruct Hu as [[[= ] _]|[[= ] _]].
    + destruct H as [-> H]. split; [done|]. intros u q Hu. at_goroutines; [right; by right|eauto].
Qed.

Lemma once_same s connected' ended' h st m : once_ok s ->
  (forall t p, m !! t = Some p -> goroutines s !! t = Some p \/ before p = true) -> (forall t, is_Some (goroutines s !! t) -> m !! t = goroutines s !! t) ->
  once_ok (mkSystem connected' ended' (mkClosing h st (closeOnce (theConnection s)) (closeErr (theConnection s))) m (closings s)).
Proof.
  unfold once_ok. cbn. intros H Hm Hk. destruct (closeOnce (theConnection s)) as [|u|].
  - destruct H as [-> H]. split; [done|]. intros t p Ht. destruct (Hm _ _ Ht); eauto.
  - destruct H as [Hu H]. rewrite Hk by (destruct Hu as [[-> _]|[-> _]]; eauto). split; [done|]. intros t p Ht Hne. destruct (Hm _ _ Ht); eauto.
  - destruct H as [-> H]. split; [done|]. intros t p Ht. destruct (Hm _ _ Ht); [eauto|by left].
Qed.

(** A new goroutine stands before the once. *)
Lemma once_added s connected' ended' h st t p : once_ok s -> goroutines s !! t = None -> before p = true ->
  once_ok (mkSystem connected' ended' (mkClosing h st (closeOnce (theConnection s)) (closeErr (theConnection s))) (<[t := p]> (goroutines s)) (closings s)).
Proof.
  intros H Ht Hp. apply once_same; [done|intros u q Hu; at_goroutines; auto|]. intros u [q Hu]. at_goroutines; congruence.
Qed.

Lemma mkClosing_eta c : c = mkClosing (hook c) (stop c) (closeOnce c) (closeErr c).
Proof. by destruct c. Qed.

Lemma calm_ok s s' : invariant s -> calm_step s s' -> invariant s'.
Proof.
  intros [Ho Hh] [Hc|He Hk|t p c' p' closed Ht Hm]; (split; [|]).
  - apply once_same; [done|auto|done].
  - unfold hook_ok in *. exact Hh.
  - unfold hook_ok in Hh. rewrite Hk in Hh. by apply once_added.
  - unfold hook_ok. cbn. split; [done|]. exists AtOnce. apply lookup_insert_eq.
  - by eapply once_moves.
  - by eapply hook_moves.
Qed.

Lemma lifecycle_step_ok s s' : invariant s -> step s s' -> invariant s'.
Proof.
  intros [Ho Hh] [|r Hc Hr|s1 H1]; [| |by apply (calm_ok s)]; (split; [|]).
  - rewrite (mkClosing_eta (theConnection s)). apply once_same; [done|auto|done].
  - unfold hook_ok in *. cbn. destruct (hook (theConnection s)); [done|done|]. by destruct Hh as [_ ?].
  - rewrite (mkClosing_eta (theConnection s)). by apply once_added.
  - unfold hook_ok in *. cbn. rewrite (lookup_insert_ne _ (Some r) None) by done. destruct (hook (theConnection s)); [done| |done].
    destruct Hh as (Hn & q & p & Hq). split; [done|]. exists q. destruct (decide (r = q)) as [->|]; [congruence|].
    exists p. by rewrite lookup_insert_ne by congruence.
Qed.

Lemma lifecycle_reachable_ok s : reachable s -> invariant s.
Proof. apply star_invariant; [|apply lifecycle_step_ok]. split; [by split|]. cbn. by rewrite lookup_empty. Qed.

(** ** No goroutine is stuck *)

Definition stepsLeft (p : phase) : nat :=
  match p with Entered => 6 | Took _ => 5 | AtOnce => 4 | Inside => 3 | Stored => 2 | Behind => 1 | Returned _ => 0 end.
Definition work (s : system) : nat :=
  (if connected s then 0 else 1) + (match hook (theConnection s) with Registered => 5 | _ => 0 end) + total stepsLeft (goroutines s).

Lemma closer_moves_less c t p c' p' closed : moves c t p c' p' closed -> (stepsLeft p' < stepsLeft p)%nat /\ (hook c' = hook c \/ hook c' = Stopped).
Proof. destruct 1; cbn; split; try lia; auto. destruct (hook c); auto. Qed.

Lemma closer_calm_less s s' : invariant s -> calm_step s s' -> (work s' < work s)%nat.
Proof.
  intros [_ Hh] [Hc|He Hk|t p c' p' closed Ht Hm]; unfold work; cbn [connected theConnection goroutines hook].
  - rewrite Hc. lia.
  - unfold hook_ok in Hh. rewrite Hk in *. rewrite total_new by done. cbn [stepsLeft]. lia.
  - pose proof (total_insert stepsLeft _ _ _ p' Ht). apply closer_moves_less in Hm as [Hl [-> | ->]]; [lia|]. destruct (hook (theConnection s)); lia.
Qed.

(** All that was going on is over. *)
Definition is_returned (p : phase) : bool := match p with Returned _ => true | _ => false end.
Definition settled (s : system) : Prop :=
  connected s = true /\ (ended s = true -> hook (theConnection s) <> Registered) /\ map_Forall (fun _ p => is_returned p = true) (goroutines s).

Lemma closer_can_move s : invariant s -> settled s \/ exists s', calm_step s s'.
Proof.
  intros [Ho Hh]. unfold settled. destruct (connected s) eqn:Ec; [|right; eexists; by apply connects].
  destruct (ended s) eqn:Ee, (hook (theConnection s)) eqn:Eh;
    try (right; eexists; by apply fires);
    (destruct (decide (map_Forall (fun _ p => is_returned p = true) (goroutines s))) as [Hd|Hd]; [by left|right]);
    apply map_not_Forall in Hd as (t & p & Ht & Hp); try apply _;
    (assert (Hgo : forall u q, goroutines s !! u = Some q -> (exists c' q' closed, moves (theConnection s) u q c' q' closed) -> exists s', calm_step s s')
      by (intros u q Hu (c' & q' & closed & Hm); eexists; by econstructor));
    (assert (Hmid : forall u q, goroutines s !! u = Some q -> q = Inside \/ q = Stored -> exists s', calm_step s s')
      by (intros u q Hu [-> | ->]; (eapply Hgo; [exact Hu|]); do 3 eexists; [by apply (closes _ _ None)|by apply finishes]));
    unfold once_ok in Ho;
    (destruct p as [|[]| | | | |]; try done; try (by eapply Hmid; [exact Ht|auto]);
      [by eapply Hgo; [exact Ht|]; do 3 eexists; constructor|by eapply Hgo; [exact Ht|]; do 3 eexists; constructor|by eapply Hgo; [exact Ht|]; do 3 eexists; constructor
      | |by eapply Hgo; [exact Ht|]; do 3 eexists; constructor]);
    (destruct (closeOnce (theConnection s)) as [|u|] eqn:E;
      [eapply Hgo; [exact Ht|]; do 3 eexists; by apply enters
      |destruct Ho as [[[Hu _]|[Hu _]] _]; (eapply Hmid; [exact Hu|auto])
      |eapply Hgo; [exact Ht|]; do 3 eexists; by apply passes]).
Qed.

Lemma closers_settle s : invariant s -> exists s', star calm_step s s' /\ settled s'.
Proof.
  apply (star_settles _ _ _ work); [apply closer_can_move|]. intros x y Ix Hxy. split; [by apply (calm_ok x)|by apply closer_calm_less].
Qed.

(** Neither the end of the context nor a goroutine is forgotten. *)
Definition busy (s : system) : Prop := ended s = true \/ exists t, is_Some (goroutines s !! t).

Lemma calm_busy s s' : busy s -> calm_step s s' -> busy s'.
Proof.
  intros H [Hc|He Hk|t p c' p' closed Ht Hm]; [done|by left|]. right. exists t. cbn. rewrite lookup_insert_eq. eauto.
Qed.

(** Once all is over, what was busy has been closed. *)
Lemma settled_closed s : invariant s -> settled s -> busy s -> exists e, closings s = [e].
Proof.
  intros [Ho Hh] (_ & Hk & Hr) Hb.
  assert (exists t p, goroutines s !! t = Some p) as (t & p & Ht).
  { destruct Hb as [He|(t & p & Ht)]; [|eauto]. specialize (Hk He). unfold hook_ok in Hh. destruct (hook (theConnection s)); [done| |].
    - destruct Hh as (_ & r & p & Hp). eauto.
    - destruct Hh as (_ & p & Hp). eauto. }
  pose proof (Hr _ _ Ht) as Hp. destruct p as [| | | | | |e]; try done. unfold once_ok in Ho.
  destruct (closeOnce (theConnection s)) as [|u|]; [by pose proof (proj2 Ho _ _ Ht)| |by eexists; apply Ho].
  destruct Ho as [Hu Ho]. destruct (decide (t = u)) as [->|Hne]; [|by pose proof (Ho _ _ Ht Hne)].
  rewrite Ht in Hu. by destruct Hu as [[[= ] _]|[[= ] _]].
Qed.

(** ** The properties *)


(** No closer waits for ever: from every reachable state the goroutines
    there can all return, every step brings that nearer, and if the context
    ended or anyone closes, the underlying connection is then closed. *)
Theorem close_settles s : reachable s ->
  (exists s', star calm_step s s' /\ settled s' /\ (busy s -> exists e, closings s' = [e]))
  /\ (forall s', calm_step s s' -> (work s' < work s)%nat) /\ (~ settled s -> exists s', calm_step s s').
Proof.
  intros I%lifecycle_reachable_ok. split; [|split].
  - destruct (closers_settle s I) as (s' & Hs & Hd). exists s'. split; [done|]. split; [done|]. intros Hb.
    assert (H : invariant s' /\ busy s'); [|destruct H; by apply settled_closed].
    revert Hs. apply (star_invariant calm_step (fun x => invariant x /\ busy x)); [done|]. intros x y [Ix Hx] Hxy. split; [by eapply calm_ok|by eapply calm_busy].
  - intros s'. by apply closer_calm_less.
  - intros H. by destruct (closer_can_move s I).
Qed.

(** A closer that comes first stops the callback. *)
Definition one_closer (c : contextClosingConnection) (p : phase) (l : list closeResult) : system := mkSystem true false c (<[Some 1%nat := p]> ∅) l.

Lemma one_moves c p c' p' l closed : reachable (one_closer c p l) -> moves c (Some 1%nat) p c' p' closed -> reachable (one_closer c' p' (l ++ closed)).
Proof.
  intros H Hm. eapply star_snoc; [exact H|]. apply goes_on. unfold one_closer. rewrite <- (insert_insert_eq ∅ (Some 1%nat) p p').
  by apply (goroutine_moves (one_closer c p l) (Some 1%nat) p); [apply lookup_insert_eq|].
Qed.

Lemma one_closes : reachable (one_closer (mkClosing Stopped false Used (Some $"broken")) (Returned (Some $"broken")) [Some $"broken"]).
Proof.
  set (c0 := mkClosing Registered true Fresh None).
  assert (H0 : reachable (one_closer c0 Entered [])).
  { eapply star_snoc; [eapply star_snoc; [constructor|by apply goes_on, connects]|]. by apply (arrives (mkSystem true false c0 ∅ []) 1%nat). }
  set (c1 := mkClosing Registered false Fresh None). set (c2 := mkClosing Stopped false Fresh None).
  set (c3 := mkClosing Stopped false (Running (Some 1%nat)) None). set (c4 := mkClosing Stopped false (Running (Some 1%nat)) (Some $"broken")).
  pose proof (one_moves _ _ _ _ _ _ H0 (takes c0 _)) as H1. pose proof (one_moves c1 _ _ _ _ _ H1 (stops c1 _)) as H2.
  pose proof (one_moves c2 _ _ _ _ _ H2 (enters c2 _ eq_refl)) as H3. pose proof (one_moves c3 _ _ _ _ _ H3 (closes c3 _ (Some $"broken"))) as H4.
  pose proof (one_moves c4 _ _ _ _ _ H4 (finishes c4 _)) as H5. exact (one_moves _ _ _ _ _ _ H5 (returns (mkClosing Stopped false Used (Some $"broken")) _)).
Qed.

Lemma close_settles_witness : exists s', star calm_step initial s' /\ settled s'.
Proof. destruct (proj1 (close_settles initial (star_refl _ _))) as (s' & Hs & Hd & _). exists s'. split; [exact Hs|exact Hd]. Defined.
