(* ===== verification/TrustAnchor.v ===== *)
(** * The trust anchor and the TLS configuration

    [bridge/tlspolicy.go] and [trust_anchor_unix.go]: the one certificate read
    from the anchor file and the only TLS configuration a connection is made
    with.  The kernel is the one of [ConfigFile]; [pem.Decode] and
    [x509.ParseCertificate] are parameters. *)
From Stdlib Require Import ZArith Lia Strings.Byte.
From stdpp Require Import base list strings.
From S2P Require Import Prelude GoStrings GoText Errors Config Monitor ConfigFile.

Definition trustAnchorMaxBytes : Z := 16 * 1024.
Definition anchorFlags : list configFlag := [F_RDONLY; F_CLOEXEC; F_NOFOLLOW; F_NONBLOCK].
Definition certificateHeader : bytes := $"-----BEGIN CERTIFICATE-----".

(** A decoded PEM block and what follows it. *)
Record pemBlock := mkBlock { blockType : bytes; blockBytes : bytes; blockRest : bytes }.

(** The fields of [tls.Config] that are set. *)
Record tlsSettings := mkSettings { InsecureSkipVerify : bool; minimumVersion : tlsVersion; VerifyConnection : tlsVerifier }.

Section TrustAnchor.
Context {W : Type} `{CK : ConfigKernel W}.
Variable pemDecode : bytes -> option pemBlock.
(** The certificate and [IsCA]. *)
Variable ParseCertificate : bytes -> option (certificate * bool).
Variable sha256 : bytes -> bytes.
Variable trustAnchorFileSupported : bool.

Definition badAnchor : certificate + goerror := inr (errorCode CodeInvalidConfig).

Definition openTrustAnchor (path : bytes) : @C W (option Z) :=
  let* fd := lcall (cfOpen path anchorFlags) (CfOpened None path anchorFlags) in
  match fd with
  | None => lret None
  | Some fd =>
      let* info := lcall (cfStat fd) (CfStated fd) in
      if match info with Some info => isRegular info | None => false end then lret (Some fd)
      else let* _ := closeConfig fd in lret None
  end.

(** The certificate of a file that was read. *)
Definition anchorOf (pemBytes : bytes) : certificate + goerror :=
  match pemDecode pemBytes with
  | None => badAnchor
  | Some block =>
      if negb (has_prefix pemBytes certificateHeader) || negb (beqs (blockType block) $"CERTIFICATE") || negb (beqs (blockRest block) [])
      then badAnchor
      else match ParseCertificate (blockBytes block) with
           | Some (c, isCA) => if isCA : bool then badAnchor else inl c
           | None => badAnchor
           end
  end.

Definition loadTrustAnchor (path : bytes) : @C W (certificate + goerror) :=
  if negb trustAnchorFileSupported then lret badAnchor
  else
    let* file := openTrustAnchor path in
    match file with
    | None => lret badAnchor
    | Some file =>
        let* pemBytes := lcall (cfRead file (trustAnchorMaxBytes + 1)) (CfRead file (trustAnchorMaxBytes + 1)) in
        let* _ := closeConfig file in
        lret (match pemBytes with
              | None => badAnchor
              | Some pemBytes => if trustAnchorMaxBytes <? zlen pemBytes then badAnchor else anchorOf pemBytes
              end)
    end.

(** [newTLSVerifier] with its file: the anchor is loaded behind the first two
    checks, if one is configured. *)
Definition loadVerifier (input : TLSConfig) : @C W ((tlsVerifier * tlsVersion) + goerror) :=
  let plain := newTLSVerifier (fun _ => badAnchor) input in
  if blank (TrustAnchorFile input) && blank (SPKISHA256 input) then lret plain
  else match parseTLSMinimumVersion (MinVersion input) with
       | inr err => lret (inr err)
       | inl _ =>
           if beqs (TrustAnchorFile input) [] then lret plain
           else let* anchor := loadTrustAnchor (TrustAnchorFile input) in lret (newTLSVerifier (fun _ => anchor) input)
       end.

Definition NewTLSConfig (input : TLSConfig) : @C W (tlsSettings + goerror) :=
  let* r := loadVerifier input in
  lret (match r with inr err => inr err | inl (verifier, version) => inl (mkSettings true version verifier) end).

(** ** What a connection is verified against *)

(** The calls that read the anchor [a] from the file at a path. *)
Definition anchor_read (path : bytes) (l : list configEvent) (a : certificate) : Prop :=
  exists fd info contents, l = [CfOpened None path anchorFlags (Some fd); CfStated fd (Some info); CfRead fd (trustAnchorMaxBytes + 1) (Some contents); CfClosed fd]
    /\ isRegular info = true /\ zlen contents <= trustAnchorMaxBytes /\ anchorOf contents = inl a.

Lemma loadTrustAnchor_read path w a w' l : loadTrustAnchor path (w, []) = (inl a, (w', l)) -> anchor_read path l a.
Proof.
  unfold loadTrustAnchor, openTrustAnchor, lbind, lcall, closeConfig, lret. destruct trustAnchorFileSupported; cbn [negb]; [|done].
  destruct (cfOpen path anchorFlags w) as [[fd|] w1]; [|done]. destruct (cfStat fd w1) as [[info|] w2]; [|done].
  destruct (isRegular info) eqn:Ei; [|done]. destruct (cfRead fd _ w2) as [[contents|] w3]; [|done].
  destruct (Z.ltb_spec trustAnchorMaxBytes (zlen contents)); [done|]. intros [= Ha _ <-]. by exists fd, info, contents.
Qed.

(** A configuration was built over the plain verifier or over a loaded anchor. *)
Lemma loadVerifier_cases input w r w' l : loadVerifier input (w, []) = (inl r, (w', l)) ->
  if beqs (TrustAnchorFile input) [] then l = [] /\ newTLSVerifier (fun _ => badAnchor) input = inl r
  else exists a, anchor_read (TrustAnchorFile input) l a /\ newTLSVerifier (fun _ => inl a) input = inl r.
Proof.
  unfold loadVerifier. destruct (_ && _) eqn:Eb.
  - unfold newTLSVerifier at 1. rewrite Eb. done.
  - destruct (parseTLSMinimumVersion _) eqn:Ev; [|done]. destruct (beqs (TrustAnchorFile input) []) eqn:E; [by intros [= -> _ <-]|].
    unfold lbind. destruct (loadTrustAnchor _ _) as [[a|err] [w1 l1]] eqn:El; intros [= H _ <-].
    + exists a. split; [by eapply loadTrustAnchor_read|done].
    + unfold newTLSVerifier in H. rewrite Eb, Ev in H. by rewrite E in H.
Qed.

End TrustAnchor.

(** ** A small kernel *)

#[local] Instance anchor_kernel : ConfigKernel bytes := {|
  cfOpen path _ w := ((if beqs path $"/link" then None else Some 3), w); cfOpenat _ _ _ w := (None, w); cfClose _ w := w;
  cfStat _ w := (Some (mkInfo true true (zlen w) 420), w); cfRead _ n w := (Some (take (Z.to_nat n) w), w) |}.
Definition demo_pem : bytes := certificateHeader ++ $"x".
Definition demo_decode (data : bytes) : option pemBlock := Some (mkBlock $"CERTIFICATE" (drop (length certificateHeader) data) []).
Definition demo_parse (der : bytes) : option (certificate * bool) := Some (mkCertificate der $"spki" 10 20 [1], beqs der $"authority").

Example anchor_refusals : map (fun s => fst (loadTrustAnchor (W := bytes) demo_decode demo_parse true $"/anchor" (s, [])))
    [certificateHeader ++ $"authority"; $"x"; certificateHeader ++ List.repeat x00 16384] = List.repeat badAnchor 3
  /\ fst (loadTrustAnchor (W := bytes) demo_decode demo_parse true $"/link" (demo_pem, [])) = badAnchor.
Proof. split; vm_compute; reflexivity. Qed.

