(* ===== verification/ImapTokens.v ===== *)
(** * The command tokens of the test servers

    The argument parser of the stateful IMAP fixture ([stateful.go]): atoms,
    quoted strings and parenthesised lists, and the UID sequence sets the
    commands take.  The parser is total (fuel one above the length of the
    input is enough), every token it returns is well formed, and printing
    well-formed tokens and parsing them again gives the same tokens. *)
From Stdlib Require Import ZArith Lia Strings.Byte DecimalString DecimalFacts DecimalPos.
From stdpp Require Import base list gmap strings.
From S2P Require Import Prelude GoStrings GoText MessageID.

(** ** Tokens *)

(** An atom, quoted string or parenthesised list: the three shapes the parser
    builds of the struct [imapToken], whose fields are the accessors below. *)
Inductive imapToken :=
| Atom (value : bytes)
| Quoted (value : bytes)
| Parens (list : list imapToken).

Definition tokValue (t : imapToken) : bytes := match t with Atom v => v | Quoted v => v | Parens _ => [] end.
Definition tokQuoted (t : imapToken) : bool := match t with Quoted _ => true | _ => false end.
Definition tokIsList (t : imapToken) : bool := match t with Parens _ => true | _ => false end.
Definition tokList (t : imapToken) : list imapToken := match t with Parens l => l | _ => [] end.

Inductive tokenError :=
| UnbalancedParentheses
| UnbalancedBrackets
| MalformedQuoted
| UnterminatedQuoted.

(** [err.Error()]. *)
Definition tokenErrorText (e : tokenError) : bytes :=
  match e with
  | UnbalancedParentheses => $"unbalanced parentheses"
  | UnbalancedBrackets => $"unbalanced brackets"
  | MalformedQuoted => $"malformed quoted string"
  | UnterminatedQuoted => $"unterminated quoted string"
  end.

Definition dquote : byte := x22.
Definition backslash : byte := x5c.

(** The loop of [readQuoted]: [acc] is the builder. *)
Fixpoint readQuotedFrom (acc s : bytes) : tokenError + bytes * bytes :=
  match s with
  | [] => inl UnterminatedQuoted
  | c :: s =>
      if c =b dquote then inr (acc, s)
      else if c =b backslash then
        match s with
        | [] => inl MalformedQuoted
        | d :: s => if (d =b dquote) || (d =b backslash) then readQuotedFrom (acc ++ [d]) s else inl MalformedQuoted
        end
      else readQuotedFrom (acc ++ [c]) s
  end.
Definition readQuoted (s : bytes) : tokenError + bytes * bytes := readQuotedFrom [] s.

(** [strings.TrimLeft(input, " ")]. *)
Fixpoint trimSpaces (s : bytes) : bytes :=
  match s with
  | c :: s' => if c =b " "%byte then trimSpaces s' else s
  | [] => []
  end.

Definition stopByte (c : byte) : bool := (c =b " "%byte) || (c =b "("%byte) || (c =b ")"%byte).

(** The atom loop: its bytes, the rest and the bracket depth it ends with. *)
Fixpoint scanAtom (depth : Z) (s : bytes) : bytes * bytes * Z :=
  match s with
  | [] => ([], [], depth)
  | c :: s' =>
      if (0 <? depth) || negb (stopByte c) then
        let depth := if c =b "["%byte then depth + 1 else if c =b "]"%byte then depth - 1 else depth in
        let '(value, rest, depth) := scanAtom depth s' in (c :: value, rest, depth)
      else ([], s, depth)
  end.

(** [tokenizeList]: [None] is the fuel running out, which it never does. *)
Fixpoint tokenizeList (fuel : nat) (nested : bool) (tokens : list imapToken) (input : bytes) :
    option (tokenError + list imapToken * bytes) :=
  match fuel with
  | O => None
  | S fuel =>
      match trimSpaces input with
      | [] => Some (if nested then inl UnbalancedParentheses else inr (tokens, []))
      | c :: rest =>
          if c =b ")"%byte then Some (inr (if nested then (tokens, rest) else ([], c :: rest)))
          else if c =b "("%byte then
            match tokenizeList fuel true [] rest with
            | Some (inr (list, rest)) => tokenizeList fuel nested (tokens ++ [Parens list]) rest
            | Some (inl e) => Some (inl e)
            | None => None
            end
          else if c =b dquote then
            match readQuoted rest with
            | inr (value, rest) => tokenizeList fuel nested (tokens ++ [Quoted value]) rest
            | inl e => Some (inl e)
            end
          else
            let '(value, rest, depth) := scanAtom 0 (c :: rest) in
            if negb (depth =? 0) then Some (inl UnbalancedBrackets)
            else tokenizeList fuel nested (tokens ++ [Atom value]) rest
      end
  end.

(** [strings.SplitN(raw, " ", 3)[2]], when there are three parts. *)
Definition argumentText (raw : bytes) : option bytes :=
  let '(_, rest, found) := cut_byte " "%byte raw in
  if negb found then None else
  let '(_, rest, found) := cut_byte " "%byte rest in
  if negb found then None else Some rest.

Definition tokenizeText (text : bytes) : tokenError + list imapToken :=
  match tokenizeList (S (length text)) false [] text with
  | Some (inr (tokens, [])) => inr tokens
  | Some (inr (_, _ :: _)) => inl UnbalancedParentheses
  | Some (inl e) => inl e
  | None => inl UnbalancedParentheses
  end.

(** [tokenizeArguments]: the arguments after the tag and the command name. *)
Definition tokenizeArguments (raw : bytes) : tokenError + list imapToken :=
  match argumentText raw with
  | None => inr []
  | Some text => tokenizeText text
  end.

(** ** UID sets *)

Definition uidRange : Type := Z * Z.

Definition parseUIDSetNumber (text : bytes) (largest : Z) : option Z :=
  if beqs text ($"*") then Some largest
  else match parse_uint text 32 with
       | Some value => if value =? 0 then None else Some value
       | None => None
       end.

(** One span: a number or [start:end], the smaller first. *)
Definition parseUIDSpan (largest : Z) (span : bytes) : option uidRange :=
  let '(startText, endText, isRange) := cut_byte ":"%byte span in
  let endText := if isRange then endText else startText in
  match parseUIDSetNumber startText largest, parseUIDSetNumber endText largest with
  | Some a, Some b => Some (if b <? a then (b, a) else (a, b))
  | _, _ => None
  end.

Fixpoint parseUIDSpans (largest : Z) (spans : list bytes) : option (list uidRange) :=
  match spans with
  | [] => Some []
  | span :: spans =>
      match parseUIDSpan largest span with
      | Some range => match parseUIDSpans largest spans with Some ranges => Some (range :: ranges) | None => None end
      | None => None
      end
  end.

(** [None] is the error "malformed UID set". *)
Definition parseUIDSet (token : imapToken) (largest : Z) : option (list uidRange) :=
  match token with
  | Atom value => match value with [] => None | _ => parseUIDSpans largest (split_byte ","%byte value) end
  | _ => None
  end.

Definition uidInRanges (uid : Z) (ranges : list uidRange) : bool :=
  existsb (fun span => (fst span <=? uid) && (uid <=? snd span)) ranges.

(** ** Printing tokens *)

Fixpoint escapeQuoted (s : bytes) : bytes :=
  match s with
  | [] => []
  | c :: s => if (c =b dquote) || (c =b backslash) then backslash :: c :: escapeQuoted s else c :: escapeQuoted s
  end.

Fixpoint printToken (t : imapToken) : bytes :=
  match t with
  | Atom value => value
  | Quoted value => dquote :: escapeQuoted value ++ [dquote]
  | Parens l => "("%byte :: join_byte " "%byte (map printToken l) ++ [")"%byte]
  end.
Definition printTokens (l : list imapToken) : bytes := join_byte " "%byte (map printToken l).

(** An atom the scan reads whole: it is not empty, does not start with a quote,
    has spaces and parentheses only inside brackets, and the brackets balance. *)
Definition atomOK (v : bytes) : Prop :=
  (exists c v', v = c :: v' /\ c <> dquote) /\ scanAtom 0 v = (v, [], 0).

Inductive tokenOK : imapToken -> Prop :=
| AtomOK v : atomOK v -> tokenOK (Atom v)
| QuotedOK v : tokenOK (Quoted v)
| ParensOK l : Forall tokenOK l -> tokenOK (Parens l).

(** Induction over tokens with the elements of a list. *)
Lemma imapToken_rect' (P : imapToken -> Prop) :
  (forall v, P (Atom v)) -> (forall v, P (Quoted v)) -> (forall l, Forall P l -> P (Parens l)) -> forall t, P t.
Proof.
  intros Ha Hq Hp. fix IH 1. intros [v|v|l]; [apply Ha|apply Hq|]. apply Hp.
  induction l as [|t l IHl]; constructor; [apply IH|apply IHl].
Qed.

(** ** The parser always returns *)

Lemma trimSpaces_length s : (length (trimSpaces s) <= length s)%nat.
Proof. induction s as [|c s IH]; cbn; [lia|]. destruct (c =b _); cbn; lia. Qed.

Lemma trimSpaces_head s r : trimSpaces s <> " "%byte :: r.
Proof.
  induction s as [|x s IH]; cbn; [done|]. destruct (x =b " "%byte) eqn:Ex; [done|]. intros [= -> _]. by rewrite beq_refl in Ex.
Qed.

Lemma readQuotedFrom_length s : forall acc v r, readQuotedFrom acc s = inr (v, r) -> (length r < length s)%nat.
Proof.
  induction s as [s IH] using (induction_ltof1 _ (@length byte)). unfold ltof in IH.
  intros acc v r. destruct s as [|c s]; cbn; [done|].
  destruct (c =b dquote); [intros [= <- <-]; lia|]. destruct (c =b backslash).
  - destruct s as [|d s]; [done|]. destruct (_ || _); [|done]. intros H. apply IH in H; cbn in *; lia.
  - intros H. apply IH in H; cbn in *; lia.
Qed.

Lemma scanAtom_split s : forall d v r e, scanAtom d s = (v, r, e) -> s = v ++ r.
Proof.
  induction s as [|c s IH]; intros d v r e; cbn; [by intros [= <- <- <-]|].
  destruct (_ || _); [|by intros [= <- <- <-]].
  destruct (scanAtom _ s) as [[v' r'] e'] eqn:E. intros [= <- <- <-]. apply IH in E. by rewrite E.
Qed.

Lemma scanAtom_first c s : stopByte c = false -> exists d v, scanAtom 0 (c :: s) = (c :: (scanAtom d s).1.1, (scanAtom d s).1.2, v).
Proof.
  intros H. exists (if c =b "["%byte then 1 else if c =b "]"%byte then -1 else 0). cbn [scanAtom]. rewrite H. cbn -[Z.add Z.sub].
  change (0 + 1) with 1. change (0 - 1) with (-1). destruct (scanAtom _ s) as [[v r] e]. by exists e.
Qed.

Lemma scanAtom_length c s v r e : stopByte c = false -> scanAtom 0 (c :: s) = (v, r, e) -> (length r <= length s)%nat.
Proof.
  intros Hc H. destruct (scanAtom_first c s Hc) as (d & w & E). rewrite H in E.
  destruct (scanAtom d s) as [[v' r'] e'] eqn:F. apply scanAtom_split in F. cbn in E. simplify_eq.
  rewrite length_app. lia.
Qed.

(** What a returned value says of the rest of the input. *)
Definition restShorter (nested : bool) (input : bytes) (res : tokenError + list imapToken * bytes) : Prop :=
  match res with
  | inl _ => True
  | inr (_, r) => if nested then (length r < length input)%nat else (length r <= length input)%nat
  end.

Lemma tokenizeList_returns fuel : forall nested tokens input, (length input < fuel)%nat ->
  exists res, tokenizeList fuel nested tokens input = Some res /\ restShorter nested input res.
Proof.
  induction fuel as [|fuel IH]; intros nested tokens input Hf; [lia|]. cbn [tokenizeList].
  pose proof (trimSpaces_length input) as Ht. destruct (trimSpaces input) as [|c rest] eqn:E.
  { eexists. split; [done|]. destruct nested; cbn; [done|lia]. }
  cbn in Ht.
  assert (Hweaken : forall input' res, (length input' <= length rest)%nat -> restShorter nested input' res -> restShorter nested input res).
  { intros input' [?|[? r]] Hi; cbn; [done|]. destruct nested; lia. }
  destruct (c =b ")"%byte) eqn:Ec. { eexists. split; [done|]. destruct nested; cbn; lia. }
  destruct (c =b "("%byte) eqn:Eo.
  { destruct (IH true [] rest) as ([e|[l r]] & -> & Hr); [lia| |]. { by (eexists; split). } cbn in Hr.
    destruct (IH nested (tokens ++ [Parens l]) r) as (res & -> & Hres); [lia|]. eexists. split; [done|]. apply (Hweaken r); [lia|done]. }
  destruct (c =b dquote) eqn:Eq.
  { destruct (readQuoted rest) as [e|[v r]] eqn:Er; [by (eexists; split)|]. apply readQuotedFrom_length in Er.
    destruct (IH nested (tokens ++ [Quoted v]) r) as (res & -> & Hres); [lia|]. eexists. split; [done|]. apply (Hweaken r); [lia|done]. }
  destruct (scanAtom 0 (c :: rest)) as [[v r] d] eqn:Es.
  destruct (d =? 0); cbn; [|by (eexists; split)].
  destruct (stopByte c) eqn:Esp.
  - exfalso. unfold stopByte in Esp. rewrite Eo, Ec, !orb_false_r in Esp. apply beq_eq in Esp as ->. by eapply trimSpaces_head.
  - apply scanAtom_length in Es; [|done].
    destruct (IH nested (tokens ++ [Atom v]) r) as (res & -> & Hres); [lia|]. eexists. split; [done|]. by apply (Hweaken r).
Qed.

Lemma tokenizeList_mono fuel : forall fuel' nested tokens input res, (fuel <= fuel')%nat ->
  tokenizeList fuel nested tokens input = Some res -> tokenizeList fuel' nested tokens input = Some res.
Proof.
  induction fuel as [|fuel IH]; intros [|fuel'] nested tokens input res Hf; cbn [tokenizeList]; try done; [lia|].
  destruct (trimSpaces input) as [|c rest]; [done|].
  destruct (c =b ")"%byte); [done|]. destruct (c =b "("%byte).
  { destruct (tokenizeList fuel true [] rest) as [r1|] eqn:E; [|done]. rewrite (IH fuel' _ _ _ _ ltac:(lia) E).
    destruct r1 as [e|[l r]]; [done|]. apply IH. lia. }
  destruct (c =b dquote). { destruct (readQuoted rest) as [e|[v r]]; [done|]. apply IH. lia. }
  destruct (scanAtom 0 (c :: rest)) as [[v r] d]. destruct (negb (d =? 0)); [done|]. apply IH. lia.
Qed.

(** The parser without fuel, with its equation. *)
Definition parseTokens (nested : bool) (tokens : list imapToken) (input : bytes) : tokenError + list imapToken * bytes :=
  default (inl UnbalancedParentheses) (tokenizeList (S (length input)) nested tokens input).

Lemma tokenizeList_enough fuel nested tokens input : (length input < fuel)%nat ->
  tokenizeList fuel nested tokens input = Some (parseTokens nested tokens input).
Proof.
  intros Hf. unfold parseTokens. destruct (tokenizeList_returns (S (length input)) nested tokens input) as (res & E & _); [lia|].
  rewrite E. cbn. eapply tokenizeList_mono; [|done]. lia.
Qed.

Lemma parseTokens_shorter nested tokens input : restShorter nested input (parseTokens nested tokens input).
Proof.
  unfold parseTokens. destruct (tokenizeList_returns (S (length input)) nested tokens input) as (res & -> & H); [lia|]. done.
Qed.

Lemma parseTokens_eq nested tokens input : parseTokens nested tokens input =
  match trimSpaces input with
  | [] => if nested then inl UnbalancedParentheses else inr (tokens, [])
  | c :: rest =>
      if c =b ")"%byte then inr (if nested then (tokens, rest) else ([], c :: rest))
      else if c =b "("%byte then
        match parseTokens true [] rest with
        | inr (list, rest) => parseTokens nested (tokens ++ [Parens list]) rest
        | inl e => inl e
        end
      else if c =b dquote then
        match readQuoted rest with
        | inr (value, rest) => parseTokens nested (tokens ++ [Quoted value]) rest
        | inl e => inl e
        end
      else
        let '(value, rest, depth) := scanAtom 0 (c :: rest) in
        if negb (depth =? 0) then inl UnbalancedBrackets
        else parseTokens nested (tokens ++ [Atom value]) rest
  end.
Proof.
  unfold parseTokens at 1. cbn [tokenizeList]. pose proof (trimSpaces_length input) as Ht.
  destruct (trimSpaces input) as [|c rest] eqn:E; [by destruct nested|]. cbn in Ht.
  destruct (c =b ")"%byte) eqn:Ec; [done|]. destruct (c =b "("%byte) eqn:Eo.
  { rewrite tokenizeList_enough by lia. pose proof (parseTokens_shorter true [] rest) as Hs.
    destruct (parseTokens true [] rest) as [e|[l r]]; [done|]. cbn in Hs. rewrite tokenizeList_enough by lia. done. }
  destruct (c =b dquote).
  { destruct (readQuoted rest) as [e|[v r]] eqn:Er; [done|]. apply readQuotedFrom_length in Er. rewrite tokenizeList_enough by lia. done. }
  destruct (scanAtom 0 (c :: rest)) as [[v r] d] eqn:Es. destruct (negb (d =? 0)); [done|].
  apply scanAtom_length in Es; [|]. { rewrite tokenizeList_enough by lia. done. }
  destruct (stopByte c) eqn:Esp; [|done]. exfalso. unfold stopByte in Esp. rewrite Eo, Ec, !orb_false_r in Esp.
  apply beq_eq in Esp as ->. by eapply trimSpaces_head.
Qed.

(** ** Printing and parsing *)

Lemma readQuoted_escape s : forall acc r, readQuotedFrom acc (escapeQuoted s ++ dquote :: r) = inr (acc ++ s, r).
Proof.
  induction s as [|c s IH]; intros acc r; [cbn; by rewrite app_nil_r|]. cbn [escapeQuoted].
  destruct ((c =b dquote) || (c =b backslash)) eqn:E.
  - cbn [app readQuotedFrom]. change (backslash =b dquote) with false. change (backslash =b backslash) with true. cbn iota beta.
    rewrite E, IH, <- app_assoc. done.
  - cbn [app readQuotedFrom]. apply orb_false_iff in E as [-> ->]. rewrite IH, <- app_assoc. done.
Qed.

(** The rest of the input at the end of a token. *)
Definition stops (r : bytes) : Prop := match r with [] => True | c :: _ => stopByte c = true end.

Lemma scanAtom_app v : forall d e r, scanAtom d v = (v, [], e) -> e <= 0 -> stops r -> scanAtom d (v ++ r) = (v, r, e).
Proof.
  induction v as [|c v IH]; intros d e r; cbn.
  { intros [= ->] He Hr. destruct r as [|c r]; [done|]. cbn. cbn in Hr. rewrite Hr. destruct (0 <? e) eqn:F; [apply Z.ltb_lt in F; lia|done]. }
  destruct (_ || _) eqn:G; [|done]. destruct (scanAtom _ v) as [[v' r'] e'] eqn:F. intros [= -> -> ->] He Hr.
  by rewrite (IH _ _ _ F He Hr).
Qed.

Lemma atomOK_first v : atomOK v -> exists c v', v = c :: v' /\ stopByte c = false /\ c <> dquote.
Proof.
  intros ((c & v' & -> & Hq) & Hs). exists c, v'. split; [done|]. split; [|done]. cbn in Hs.
  destruct (stopByte c); [done|done].
Qed.

Lemma stopByte_false c : stopByte c = false -> (c =b " "%byte) = false /\ (c =b "("%byte) = false /\ (c =b ")"%byte) = false.
Proof. unfold stopByte. intros H. apply orb_false_iff in H as [[? ?]%orb_false_iff ?]. done. Qed.

Lemma parseTokens_space nested tokens r : parseTokens nested tokens (" "%byte :: r) = parseTokens nested tokens r.
Proof. rewrite parseTokens_eq, (parseTokens_eq nested tokens r). done. Qed.

(** A list of tokens before a closing parenthesis or the end. *)
Lemma parse_printTokens l :
  Forall (fun t => forall nested tokens r, stops r ->
    parseTokens nested tokens (printToken t ++ r) = parseTokens nested (tokens ++ [t]) r) l ->
  forall nested tokens r, stops r -> parseTokens nested tokens (printTokens l ++ r) = parseTokens nested (tokens ++ l) r.
Proof.
  unfold printTokens. induction 1 as [|t l Ht Hl IH]; intros nested tokens r Hr; [by rewrite app_nil_r|].
  destruct l as [|t' l]; [by apply Ht|]. cbn [map]. change (join_byte _ (?p :: ?q :: ?ps)) with (p ++ " "%byte :: join_byte " "%byte (q :: ps)).
  rewrite <- app_assoc, Ht by done. cbn [app]. rewrite parseTokens_space.
  change (printToken t' :: map printToken l) with (map printToken (t' :: l)). rewrite IH by done. by rewrite <- app_assoc.
Qed.

Lemma parse_printToken t : tokenOK t -> forall nested tokens r, stops r ->
  parseTokens nested tokens (printToken t ++ r) = parseTokens nested (tokens ++ [t]) r.
Proof.
  induction t as [v|v|l IH] using imapToken_rect'; intros Hok nested tokens r Hr; inversion Hok as [v' Ha| |l' Hl]; subst; rewrite parseTokens_eq.
  - destruct (atomOK_first v Ha) as (c & v' & -> & Hs & Hq). cbn [printToken app trimSpaces].
    destruct (stopByte_false _ Hs) as (E1 & E2 & E3). apply beq_neq in Hq. rewrite E1, E2, E3, Hq. cbn [app].
    destruct Ha as [_ Ha]. rewrite app_comm_cons, (scanAtom_app _ 0 0 r Ha) by done. done.
  - cbn [printToken app trimSpaces]. change (dquote =b " "%byte) with false. cbn iota beta.
    change (dquote =b ")"%byte) with false. change (dquote =b "("%byte) with false. change (dquote =b dquote) with true. cbn iota beta.
    unfold readQuoted. rewrite <- app_assoc. cbn [app]. by rewrite readQuoted_escape.
  - cbn [printToken app trimSpaces]. change ("("%byte =b " "%byte) with false. change ("("%byte =b ")"%byte) with false.
    change ("("%byte =b "("%byte) with true. cbn iota beta. rewrite <- app_assoc. cbn [app].
    assert (Hall : Forall (fun t => forall nested tokens r, stops r ->
      parseTokens nested tokens (printToken t ++ r) = parseTokens nested (tokens ++ [t]) r) l).
    { rewrite Forall_forall in *. intros t Ht. by apply IH, Hl. }
    pose proof (parse_printTokens l Hall true [] (")"%byte :: r) eq_refl) as E. unfold printTokens in E. cbn [app] in E. rewrite E.
    rewrite (parseTokens_eq true l). done.
Qed.

Lemma tokenize_print l : Forall tokenOK l -> tokenizeText (printTokens l) = inr l.
Proof.
  intros Hl. unfold tokenizeText. rewrite tokenizeList_enough by lia.
  pose proof (parse_printTokens l) as E. rewrite <- (app_nil_r (printTokens l)), E; [done| |done].
  eapply Forall_impl; [done|]. intros t Ht. by apply parse_printToken.
Qed.

(** ** Every parsed token is well formed *)

Lemma scanAtom_idem s : forall d v r e, scanAtom d s = (v, r, e) -> scanAtom d v = (v, [], e).
Proof.
  induction s as [|c s IH]; intros d v r e; cbn; [by intros [= <- <- <-]|].
  destruct (_ || _) eqn:G; [|by intros [= <- <- <-]].
  destruct (scanAtom _ s) as [[v' r'] e'] eqn:F. intros [= <- <- <-]. apply IH in F. cbn. by rewrite G, F.
Qed.

Lemma parseTokens_wf n : forall nested tokens input l r, (length input < n)%nat -> Forall tokenOK tokens ->
  parseTokens nested tokens input = inr (l, r) -> Forall tokenOK l.
Proof.
  induction n as [|n IH]; intros nested tokens input l r Hn Ht; [lia|]. rewrite parseTokens_eq.
  pose proof (trimSpaces_length input) as Hl. destruct (trimSpaces input) as [|c rest] eqn:E.
  { destruct nested; [done|]. by intros [= <- _]. }
  cbn in Hl. destruct (c =b ")"%byte) eqn:Ec; [destruct nested; by intros [= <- _]|].
  destruct (c =b "("%byte) eqn:Eo.
  { pose proof (parseTokens_shorter true [] rest) as Hs. destruct (parseTokens true [] rest) as [e|[l' r']] eqn:E1; [done|]. cbn in Hs.
    apply IH; [lia|]. apply Forall_app. split; [done|]. constructor; [|done]. constructor. eapply IH; [|constructor|exact E1]. lia. }
  destruct (c =b dquote) eqn:Eq.
  { destruct (readQuoted rest) as [e|[v r']] eqn:Er; [done|]. apply readQuotedFrom_length in Er.
    apply IH; [lia|]. apply Forall_app. split; [done|]. constructor; [|done]. constructor. }
  assert (Hc : stopByte c = false).
  { unfold stopByte. rewrite Ec, Eo, !orb_false_r. destruct (c =b " "%byte) eqn:F; [|done].
    apply beq_eq in F as ->. exfalso. by eapply trimSpaces_head. }
  destruct (scanAtom 0 (c :: rest)) as [[v r'] d] eqn:Es.
  destruct (d =? 0) eqn:Ed; [|done]. apply Z.eqb_eq in Ed as ->. cbn [negb].
  pose proof (scanAtom_length _ _ _ _ _ Hc Es). apply IH; [lia|]. apply Forall_app. split; [done|]. constructor; [|done]. constructor. split.
  - destruct (scanAtom_first c rest Hc) as (d' & w & F). rewrite F in Es. simplify_eq. eexists c, _. split; [done|]. by apply beq_neq.
  - by eapply scanAtom_idem.
Qed.

Lemma tokenizeText_wf text l : tokenizeText text = inr l -> Forall tokenOK l.
Proof.
  unfold tokenizeText. rewrite tokenizeList_enough by lia. destruct (parseTokens false [] text) as [e|[l' [|c r]]] eqn:E; [done| |done].
  intros [= <-]. eapply parseTokens_wf; [|constructor|exact E]. apply Nat.lt_succ_diag_r.
Qed.

Lemma argumentText_command tag name text : ~ In " "%byte tag -> ~ In " "%byte name ->
  argumentText (tag ++ " "%byte :: name ++ " "%byte :: text) = Some text.
Proof. intros H1 H2. unfold argumentText. rewrite cut_byte_app by done. cbn. rewrite cut_byte_app by done. done. Qed.

(** ** Decimal numbers read back *)

Lemma digits_value_uint l : forall acc,
  digits_value (Zpos acc) ($(NilEmpty.string_of_uint l)) = Some (Zpos (Pos.of_uint_acc l acc)).
Proof.
  induction l as [|l IH|l IH|l IH|l IH|l IH|l IH|l IH|l IH|l IH|l IH]; intros acc; [done|..];
    cbn [NilEmpty.string_of_uint Pos.of_uint_acc];
    change (String.list_byte_of_string (String.String ?a ?t)) with (Ascii.byte_of_ascii a :: String.list_byte_of_string t);
    rewrite <- IH; cbn [digits_value]; vm_compute Ascii.byte_of_ascii; f_equal; cbn -[Z.mul Z.add Pos.mul Pos.add]; lia.
Qed.

Lemma digits_value_of_uint l : digits_value 0 ($(NilEmpty.string_of_uint l)) = Some (Z.of_N (Pos.of_uint l)).
Proof.
  induction l as [|l IH|l _|l _|l _|l _|l _|l _|l _|l _|l _]; [done| |..];
    cbn [NilEmpty.string_of_uint Pos.of_uint];
    change (String.list_byte_of_string (String.String ?a ?t)) with (Ascii.byte_of_ascii a :: String.list_byte_of_string t);
    cbn [Z.of_N]; rewrite <- ?digits_value_uint, <- ?IH; done.
Qed.

Lemma decimal_pos p : decimal (Zpos p) = $(NilEmpty.string_of_uint (Pos.to_uint p)).
Proof.
  unfold decimal. cbn [Z.to_int NilZero.string_of_int]. unfold NilZero.string_of_uint.
  pose proof (Unsigned.to_uint_nonnil p). by destruct (Pos.to_uint p).
Qed.

Lemma decimal_value z : 0 <= z -> digits_value 0 (decimal z) = Some z.
Proof.
  destruct z as [|p|p]; intros H; [done| |lia]. rewrite decimal_pos, digits_value_of_uint, Unsigned.of_to. done.
Qed.

Lemma digits_value_digits s : forall acc v, digits_value acc s = Some v -> Forall (fun c => is_digit c = true) s.
Proof. induction s as [|c s IH]; intros acc v; cbn; [constructor|]. destruct (is_digit c) eqn:E; [|done]. intros H. constructor; eauto. Qed.

Lemma decimal_nonempty z : decimal z <> [].
Proof. unfold decimal, NilZero.string_of_int. destruct (Z.to_int z) as [u|u]; unfold NilZero.string_of_uint; by destruct u. Qed.

Lemma parse_decimal z bits : 0 <= z < 2 ^ bits -> parse_uint (decimal z) bits = Some z.
Proof.
  intros Hz. unfold parse_uint. pose proof (decimal_nonempty z) as Hn. destruct (decimal z) as [|c s] eqn:E; [done|].
  rewrite <- E, decimal_value by lia. destruct (z <? 2 ^ bits) eqn:F; [done|]. bool_prop. lia.
Qed.

Lemma decimal_digit z c : 0 <= z -> In c (decimal z) -> is_digit c = true.
Proof. intros Hz Hc. pose proof (digits_value_digits _ _ _ (decimal_value z Hz)) as H. rewrite List.Forall_forall in H. by apply H. Qed.

Lemma decimal_without z c : 0 <= z -> is_digit c = false -> ~ In c (decimal z).
Proof. intros Hz Hc Hi. apply decimal_digit in Hi; [congruence|done]. Qed.

(** ** UID sets *)

Lemma parseUIDSetNumber_decimal u largest : 1 <= u <= MaxUint32 -> parseUIDSetNumber (decimal u) largest = Some u.
Proof.
  intros Hu. unfold parseUIDSetNumber. destruct (beqs _ _) eqn:E.
  { apply beqs_eq in E. assert (H : is_digit "*"%byte = true) by (apply (decimal_digit u); [lia|]; rewrite E; by left). done. }
  rewrite parse_decimal by (unfold MaxUint32 in Hu; lia). destruct (u =? 0) eqn:F; [|done]. bool_prop. lia.
Qed.

Lemma parseUIDSetNumber_range text largest u : 0 <= largest <= MaxUint32 ->
  parseUIDSetNumber text largest = Some u -> u = largest \/ 1 <= u <= MaxUint32.
Proof.
  intros Hl. unfold parseUIDSetNumber. destruct (beqs _ _); [intros [= <-]; by left|].
  destruct (parse_uint text 32) as [v|] eqn:E; [|done]. apply parse_uint_range in E.
  destruct (v =? 0) eqn:F; [done|]. intros [= <-]. bool_prop. right. unfold MaxUint32. lia.
Qed.

Lemma parseUIDSpan_decimal u largest : 1 <= u <= MaxUint32 -> parseUIDSpan largest (decimal u) = Some (u, u).
Proof.
  intros Hu. unfold parseUIDSpan, cut_byte. assert (E : index_byte ":"%byte (decimal u) = None) by (apply index_byte_None, decimal_without; [lia|done]).
  rewrite E. rewrite parseUIDSetNumber_decimal by done. by rewrite Z.ltb_irrefl.
Qed.

(** The set a client writes for a list of UIDs. *)
Definition uidSetText (uids : list Z) : bytes := join_byte ","%byte (map decimal uids).

Lemma parseUIDSpans_decimal uids largest : Forall (fun u => 1 <= u <= MaxUint32) uids ->
  parseUIDSpans largest (map decimal uids) = Some (map (fun u => (u, u)) uids).
Proof. induction 1 as [|u uids Hu _ IH]; cbn [map parseUIDSpans]; [done|]. by rewrite parseUIDSpan_decimal, IH. Qed.

Lemma uidSetText_nonempty uids : uids <> [] -> uidSetText uids <> [].
Proof.
  destruct uids as [|u [|u' uids]]; [done|intros _; apply decimal_nonempty|]. intros _.
  unfold uidSetText. cbn [map]. change (join_byte _ (?p :: ?q :: ?ps)) with (p ++ ","%byte :: join_byte ","%byte (q :: ps)).
  pose proof (decimal_nonempty u). by destruct (decimal u).
Qed.

Lemma parse_uidSetText uids largest : uids <> [] -> Forall (fun u => 1 <= u <= MaxUint32) uids ->
  parseUIDSet (Atom (uidSetText uids)) largest = Some (map (fun u => (u, u)) uids).
Proof.
  intros Hne Hu. unfold parseUIDSet. pose proof (uidSetText_nonempty uids Hne) as Hn.
  destruct (uidSetText uids) as [|c s] eqn:E; [done|]. rewrite <- E. unfold uidSetText.
  rewrite split_join; [by apply parseUIDSpans_decimal|by destruct uids|].
  rewrite List.Forall_map. eapply List.Forall_impl; [|by apply Hu]. cbn. intros u H. apply decimal_without; [lia|done].
Qed.

Lemma uidInRanges_single uid uids : uidInRanges uid (map (fun u => (u, u)) uids) = bool_decide (uid ∈ uids).
Proof.
  induction uids as [|u uids IH]; [done|]. cbn [map uidInRanges existsb fst snd]. unfold uidInRanges in IH. rewrite IH.
  destruct (decide (uid = u)) as [->|Hn].
  - rewrite !Z.leb_refl. cbn. symmetry. apply bool_decide_eq_true. by left.
  - assert (E : (u <=? uid) && (uid <=? u) = false) by (destruct (u <=? uid) eqn:E1, (uid <=? u) eqn:E2; try done; bool_prop; lia).
    rewrite E. cbn. apply bool_decide_ext. rewrite elem_of_cons. naive_solver.
Qed.

(** Every range of a parsed set is ordered, and a bound is a nonzero 32-bit
    UID or the largest UID present. *)
Lemma parseUIDSet_ranges token largest ranges : 0 <= largest <= MaxUint32 -> parseUIDSet token largest = Some ranges ->
  ranges <> [] /\ Forall (fun r => fst r <= snd r /\ 0 <= fst r /\ snd r <= MaxUint32) ranges.
Proof.
  intros Hl. unfold parseUIDSet. destruct token as [[|c v]|v|l]; try done.
  pose proof (split_byte_nonempty ","%byte (c :: v)) as Hne. generalize dependent (split_byte ","%byte (c :: v)). intros spans Hne H. split.
  { destruct spans as [|s spans]; [done|]. cbn in H. repeat split_in H; try done. by injection H as <-. }
  clear Hne. revert ranges H. induction spans as [|s spans IH]; intros ranges; cbn; [intros [= <-]; constructor|].
  destruct (parseUIDSpan largest s) as [r|] eqn:E; [|done]. destruct (parseUIDSpans largest spans) as [rs|]; [|done].
  intros [= <-]. constructor; [|by apply IH]. unfold parseUIDSpan in E.
  destruct (cut_byte _ s) as [[a b] f]. destruct (parseUIDSetNumber a largest) as [x|] eqn:Ex; [|done].
  destruct (parseUIDSetNumber (if f then b else a) largest) as [y|] eqn:Ey; [|done].
  apply parseUIDSetNumber_range in Ex, Ey; try done. injection E as <-. destruct (y <? x) eqn:F; bool_prop; cbn; lia.
Qed.

(** An atom made of digits and commas is well formed. *)
Lemma scanAtom_plain s : Forall (fun c => stopByte c = false /\ c <> "["%byte /\ c <> "]"%byte) s -> scanAtom 0 s = (s, [], 0).
Proof.
  induction 1 as [|c s (Hc & H1 & H2) _ IH]; [done|]. cbn. rewrite Hc. cbn. apply beq_neq in H1, H2. by rewrite H1, H2, IH.
Qed.

(** ** The properties *)

(** C38: the argument parser of the fixture servers always returns, and reads
    every printed list of well-formed tokens back as it was: after a tag and a
    command name without spaces, [tokenizeArguments] gives exactly the tokens
    printed, nested lists and quoted strings with their escapes included. *)
Theorem tokenize_roundtrip tag name l : ~ In " "%byte tag -> ~ In " "%byte name -> Forall tokenOK l ->
  tokenizeArguments (tag ++ " "%byte :: name ++ " "%byte :: printTokens l) = inr l.
Proof. intros Ht Hn Hl. unfold tokenizeArguments. rewrite argumentText_command by done. by apply tokenize_print. Qed.

Lemma tokenize_roundtrip_witness :
  let l := [Atom ($"FETCH"); Atom ($"1:*"); Parens [Atom ($"UID"); Atom ($"BODY.PEEK[HEADER.FIELDS (TO)]"); Quoted [x22; x5c; x20]]] in
  tokenizeArguments ($"A1 UID " ++ printTokens l) = inr l.
Proof.
  refine (tokenize_roundtrip ($"A1") ($"UID") _ _ _ _); [cbn; intuition discriminate|cbn; intuition discriminate|].
  repeat first [constructor | eexists _, _; split; [reflexivity|discriminate] | vm_compute; reflexivity].
Defined.
