(* ===== verification/MailboxStore.v ===== *)
(** * The stateful mailbox fixture

    The mutable mailbox model the tests run the adapter against
    ([stateful.go]): construction from seeds, the fixture's own mutators, and
    the LIST, SELECT, EXAMINE, STATUS and UID commands as functions from the
    store and the session to the store, the session and the response lines.
    A message is a value here: the only alias the source creates, the flags
    slice a moved message shares with the message it replaces, is to a message
    no mailbox holds any more. *)
From Stdlib Require Import ZArith Lia Strings.Byte.
From stdpp Require Import base list gmap strings.
From S2P Require Import Prelude GoStrings GoText MessageID ImapTokens.

(** ** Seeds, state and sessions *)

Record MessageSeed := mkMessageSeed { sdUID : Z; sdFlags : list bytes; sdBody : bytes }.
Record MailboxSeed := mkMailboxSeed { sdName : bytes; sdAttributes : list bytes; sdUIDValidity : Z; sdMessages : list MessageSeed }.
Record StatefulOptions := mkStatefulOptions { soMailboxes : list MailboxSeed; soMove : bool }.

Record statefulMessage := mkMessage { msUID : Z; msFlags : list bytes; msBody : bytes }.

(** [mbMade] says that the slice of messages is not nil. *)
Record statefulMailbox := mkMailbox {
  mbName : bytes; mbAttributes : list bytes; mbUIDValidity : Z; mbUIDNext : Z;
  mbMessages : list statefulMessage; mbMade : bool }.
Record mailboxStore := mkStore { storeMove : bool; storeMailboxes : list statefulMailbox }.

(** The zero session has nothing selected. *)
Record statefulSession := mkStatefulSession { ssSelected : bytes; ssReadOnly : bool }.
Definition newStatefulSession : statefulSession := mkStatefulSession [] false.

#[export] Instance eta_message : Eta statefulMessage := fun m => mkMessage (msUID m) (msFlags m) (msBody m).
#[export] Instance eta_mailbox : Eta statefulMailbox := fun m =>
  mkMailbox (mbName m) (mbAttributes m) (mbUIDValidity m) (mbUIDNext m) (mbMessages m) (mbMade m).
#[export] Instance eta_mailboxStore : Eta mailboxStore := fun s => mkStore (storeMove s) (storeMailboxes s).

#[export] Instance statefulMessage_eq : EqDecision statefulMessage.
Proof. solve_decision. Defined.
#[export] Instance statefulMailbox_eq : EqDecision statefulMailbox.
Proof. solve_decision. Defined.
#[export] Instance mailboxStore_eq : EqDecision mailboxStore.
Proof. solve_decision. Defined.

(** ** Names and flags *)

Inductive storeError :=
| EmptyMailboxName
| BadMailboxName (name : bytes)
| DuplicateMailbox (name : bytes)
| InvalidAtom (value : bytes)
| DuplicateAtom (value : bytes)
| UIDsMustIncrease (name : bytes)
| NoValidUIDNext (name : bytes) (uid : Z)
| UnknownMailbox (name : bytes)
| NeedsNewUIDValidity (name : bytes).

Definition mailboxNameByte (c : byte) : bool :=
  negb ((bZ c <? 32) || (126 <? bZ c) || contains_byte c [dquote; backslash; "*"%byte; "%"%byte]).

Definition validateMailboxName (name : bytes) : option storeError :=
  match name with
  | [] => Some EmptyMailboxName
  | _ => if forallb mailboxNameByte name then None else Some (BadMailboxName name)
  end.

Definition atomByte (c : byte) : bool :=
  negb ((bZ c <=? 32) || (127 <=? bZ c) || contains_byte c ($"(){%*" ++ [dquote; backslash] ++ $"]")).
Definition isAtom (value : bytes) : bool := forallb atomByte value && negb (beqs value []).

(** The loop of [validateAtoms]: [seen] holds the lower-cased values. *)
Fixpoint validateAtomsFrom (seen : list bytes) (values : list bytes) (requireBackslash : bool) : option storeError :=
  match values with
  | [] => None
  | value :: values =>
      let atom := trim_prefix value [backslash] in
      if beqs atom [] || requireBackslash && negb (has_prefix value [backslash]) || negb (isAtom atom) then Some (InvalidAtom value)
      else if existsb (beqs (to_lower value)) seen then Some (DuplicateAtom value)
      else validateAtomsFrom (to_lower value :: seen) values requireBackslash
  end.
Definition validateAtoms (values : list bytes) (requireBackslash : bool) : option storeError :=
  validateAtomsFrom [] values requireBackslash.

Definition mailboxNameMatches (stored requested : bytes) : bool :=
  if equal_fold stored ($"INBOX") then equal_fold requested ($"INBOX") else beqs stored requested.

(** [find]: the first mailbox that matches, with its position; the position
    stands for the pointer, which the MOVE command compares. *)
Fixpoint findMailbox (name : bytes) (mailboxes : list statefulMailbox) : option (nat * statefulMailbox) :=
  match mailboxes with
  | [] => None
  | mailbox :: mailboxes =>
      if mailboxNameMatches (mbName mailbox) name then Some (O, mailbox)
      else option_map (fun p => (S (fst p), snd p)) (findMailbox name mailboxes)
  end.
Definition find (store : mailboxStore) (name : bytes) : option (nat * statefulMailbox) := findMailbox name (storeMailboxes store).

Definition selectableAttributes (attributes : list bytes) : bool :=
  forallb (fun a => negb (equal_fold a ($"\Noselect") || equal_fold a ($"\NonExistent"))) attributes.
Definition selectable (mailbox : statefulMailbox) : bool := selectableAttributes (mbAttributes mailbox).

Definition isSeen (flag : bytes) : bool := equal_fold flag ($"\Seen").
Definition messageSeen (message : statefulMessage) : bool := existsb isSeen (msFlags message).
Definition setSeen (seen : bool) (message : statefulMessage) : statefulMessage :=
  if Bool.eqb (messageSeen message) seen then message
  else if seen then message <| msFlags := msFlags message ++ [$"\Seen"] |>
  else message <| msFlags := List.filter (fun flag => negb (isSeen flag)) (msFlags message) |>.

Definition unseen (mailbox : statefulMailbox) : Z :=
  zlen (List.filter (fun m => negb (messageSeen m)) (mbMessages mailbox)).
Definition maxUID (mailbox : statefulMailbox) : Z :=
  match last (mbMessages mailbox) with Some m => msUID m | None => 0 end.

(** ** Construction *)

(** The inner loop of [newMailboxStore]: [previous] is the last UID. *)
Fixpoint seedMessages (name : bytes) (previous : Z) (seeds : list MessageSeed) :
    storeError + list statefulMessage * Z :=
  match seeds with
  | [] => inr ([], previous)
  | seed :: seeds =>
      let uid := if sdUID seed =? 0 then u32 (previous + 1) else sdUID seed in
      if uid <=? previous then inl (UIDsMustIncrease name)
      else if uid =? MaxUint32 then inl (NoValidUIDNext name uid)
      else match validateAtoms (sdFlags seed) false with
      | Some e => inl e
      | None =>
          match seedMessages name uid seeds with
          | inl e => inl e
          | inr (messages, previous) => inr (mkMessage uid (sdFlags seed) (sdBody seed) :: messages, previous)
          end
      end
  end.

(** One mailbox of [newMailboxStore], the [index]th. *)
Definition seedMailbox (index : nat) (seed : MailboxSeed) (mailboxes : list statefulMailbox) : storeError + statefulMailbox :=
  match validateMailboxName (sdName seed) with
  | Some e => inl e
  | None =>
  match findMailbox (sdName seed) mailboxes with
  | Some _ => inl (DuplicateMailbox (sdName seed))
  | None =>
  match validateAtoms (sdAttributes seed) true with
  | Some e => inl e
  | None =>
      let uidValidity := if sdUIDValidity seed =? 0 then u32 (1001 + Z.of_nat index) else sdUIDValidity seed in
      match seedMessages (sdName seed) 0 (sdMessages seed) with
      | inl e => inl e
      | inr (messages, previous) =>
          inr (mkMailbox (sdName seed) (sdAttributes seed) uidValidity (u32 (previous + 1)) messages
                 (negb (bool_decide (messages = []))))
      end
  end end end.

Fixpoint seedMailboxes (index : nat) (seeds : list MailboxSeed) (mailboxes : list statefulMailbox) :
    storeError + list statefulMailbox :=
  match seeds with
  | [] => inr mailboxes
  | seed :: seeds =>
      match seedMailbox index seed mailboxes with
      | inl e => inl e
      | inr mailbox => seedMailboxes (S index) seeds (mailboxes ++ [mailbox])
      end
  end.

Definition newMailboxStore (options : StatefulOptions) : storeError + mailboxStore :=
  match seedMailboxes 0 (soMailboxes options) [] with
  | inl e => inl e
  | inr mailboxes => inr (mkStore (soMove options) mailboxes)
  end.

(** ** Snapshots and the fixture's mutators *)

Record MessageState := mkMessageState { stUID : Z; stFlags : list bytes; stBody : bytes }.
(** [stMessages] is [None] when the slice is nil. *)
Record MailboxState := mkMailboxState {
  stName : bytes; stAttributes : list bytes; stUIDValidity : Z; stUIDNext : Z; stMessages : option (list MessageState) }.

Definition snapshot (mailbox : statefulMailbox) : MailboxState :=
  mkMailboxState (mbName mailbox) (mbAttributes mailbox) (mbUIDValidity mailbox) (mbUIDNext mailbox)
    (if mbMade mailbox then Some (map (fun m => mkMessageState (msUID m) (msFlags m) (msBody m)) (mbMessages mailbox)) else None).
Definition Snapshot (store : mailboxStore) : list MailboxState := map snapshot (storeMailboxes store).
Definition MailboxSnapshot (store : mailboxStore) (name : bytes) : option MailboxState :=
  option_map (fun p => snapshot (snd p)) (find store name).

(** The mailbox at a position is replaced. *)
Definition setMailbox (store : mailboxStore) (index : nat) (mailbox : statefulMailbox) : mailboxStore :=
  store <| storeMailboxes := <[index := mailbox]> (storeMailboxes store) |>.

Definition withMailbox (store : mailboxStore) (name : bytes) (change : statefulMailbox -> storeError + statefulMailbox) :
    storeError + mailboxStore :=
  match find store name with
  | None => inl (UnknownMailbox name)
  | Some (index, mailbox) =>
      match change mailbox with inl e => inl e | inr mailbox => inr (setMailbox store index mailbox) end
  end.

Definition SetMailboxAttributes (store : mailboxStore) (name : bytes) (attributes : list bytes) : storeError + mailboxStore :=
  match validateAtoms attributes true with
  | Some e => inl e
  | None => withMailbox store name (fun mailbox => inr (mailbox <| mbAttributes := attributes |>))
  end.

Definition ReplaceUIDValidity (store : mailboxStore) (name : bytes) (uidValidity : Z) : storeError + mailboxStore :=
  withMailbox store name (fun mailbox =>
    if (uidValidity =? 0) || (uidValidity =? mbUIDValidity mailbox) then inl (NeedsNewUIDValidity name)
    else inr (mailbox <| mbUIDValidity := uidValidity |>)).

Definition RemoveMailbox (store : mailboxStore) (name : bytes) : storeError + mailboxStore :=
  match find store name with
  | None => inl (UnknownMailbox name)
  | Some (index, _) => inr (store <| storeMailboxes := delete index (storeMailboxes store) |>)
  end.

(** ** Response lines *)

Definition tagged (tag response : bytes) : bytes := tag ++ $" " ++ response.
Definition refusedBy (tag command : bytes) : bytes :=
  tagged tag ($"NO [CANNOT] " ++ command ++ $" is refused by the stateful fixture").
Definition quote (s : bytes) : bytes := dquote :: s ++ [dquote].
Definition quoteMailbox (name : bytes) : bytes := quote name.

Definition permanentSeenFlags : bytes := $"* OK [PERMANENTFLAGS (\Seen)] only \Seen is mutable".
Definition systemFlagsResponse : bytes := $"* FLAGS (\Answered \Flagged \Deleted \Seen \Draft)".

(** ** LIST *)

(** [listPatternMatches]: [*] matches anything, [%] anything but [/].  The
    inner fixpoint is the loop over [index]. *)
Fixpoint listPatternMatches (pattern name : bytes) : bool :=
  match pattern with
  | [] => match name with [] => true | _ => false end
  | p :: pattern' =>
      if (p =b "*"%byte) || (p =b "%"%byte) then
        (fix from (name : bytes) : bool :=
           listPatternMatches pattern' name ||
           match name with
           | [] => false
           | c :: name' => if (p =b "%"%byte) && (c =b "/"%byte) then false else from name'
           end) name
      else match name with
           | [] => false
           | c :: name' => (c =b p) && listPatternMatches pattern' name'
           end
  end.

Definition listLine (mailbox : statefulMailbox) : bytes :=
  $"* LIST (" ++ join_space (mbAttributes mailbox) ++ $") " ++ quote ($"/") ++ $" " ++ quoteMailbox (mbName mailbox).
Definition listed (pattern : bytes) (mailbox : statefulMailbox) : bool :=
  listPatternMatches pattern (mbName mailbox) || mailboxNameMatches (mbName mailbox) pattern.

Definition listLines (tag : bytes) (arguments : list imapToken) (mailboxes : list statefulMailbox) : list bytes :=
  match arguments with
  | [reference; pattern] =>
      if tokIsList reference || tokIsList pattern then [tagged tag ($"BAD LIST requires a reference and a pattern")]
      else if negb (beqs (tokValue reference) []) then [tagged tag ($"BAD only an empty LIST reference is supported")]
      else if beqs (tokValue pattern) [] then
        [$"* LIST (\Noselect) " ++ quote ($"/") ++ $" " ++ quote []; tagged tag ($"OK LIST completed")]
      else map listLine (List.filter (listed (tokValue pattern)) mailboxes) ++ [tagged tag ($"OK LIST completed")]
  | _ => [tagged tag ($"BAD LIST requires a reference and a pattern")]
  end.

(** ** SELECT, EXAMINE and STATUS *)

Definition noMailbox (tag : bytes) : bytes := tagged tag ($"NO mailbox does not exist or is not selectable").

Definition selectLines (mailbox : statefulMailbox) (tag : bytes) (readOnly : bool) : list bytes :=
  [ systemFlagsResponse; $"* " ++ decimal (zlen (mbMessages mailbox)) ++ $" EXISTS"; $"* 0 RECENT";
    (if readOnly then $"* OK [PERMANENTFLAGS ()] read-only" else permanentSeenFlags);
    $"* OK [UIDVALIDITY " ++ decimal (mbUIDValidity mailbox) ++ $"] mailbox generation";
    $"* OK [UIDNEXT " ++ decimal (mbUIDNext mailbox) ++ $"] next UID";
    tagged tag (if readOnly then $"OK [READ-ONLY] EXAMINE completed" else $"OK [READ-WRITE] SELECT completed") ].

(** [statefulSelect]: whatever the outcome, the old selection is gone. *)
Definition statefulSelect (store : mailboxStore) (tag name : bytes) (arguments : list imapToken) : statefulSession * list bytes :=
  match arguments with
  | [argument] =>
      if tokIsList argument then (newStatefulSession, [tagged tag ($"BAD " ++ name ++ $" requires exactly one mailbox")])
      else match find store (tokValue argument) with
      | Some (_, mailbox) =>
          if selectable mailbox then
            let readOnly := beqs name ($"EXAMINE") in
            (mkStatefulSession (mbName mailbox) readOnly, selectLines mailbox tag readOnly)
          else (newStatefulSession, [noMailbox tag])
      | None => (newStatefulSession, [noMailbox tag])
      end
  | _ => (newStatefulSession, [tagged tag ($"BAD " ++ name ++ $" requires exactly one mailbox")])
  end.

(** One STATUS item, or the text of the refusal. *)
Definition statusItem (mailbox : statefulMailbox) (item : imapToken) : bytes + bytes :=
  let upper := to_upper (tokValue item) in
  if tokIsList item || tokQuoted item then inl ($"BAD malformed STATUS item")
  else if beqs upper ($"MESSAGES") then inr ($"MESSAGES " ++ decimal (zlen (mbMessages mailbox)))
  else if beqs upper ($"UIDNEXT") then inr ($"UIDNEXT " ++ decimal (mbUIDNext mailbox))
  else if beqs upper ($"UIDVALIDITY") then inr ($"UIDVALIDITY " ++ decimal (mbUIDValidity mailbox))
  else if beqs upper ($"UNSEEN") then inr ($"UNSEEN " ++ decimal (unseen mailbox))
  else inl ($"BAD unsupported STATUS item").

Fixpoint statusItems (mailbox : statefulMailbox) (items : list imapToken) : bytes + list bytes :=
  match items with
  | [] => inr []
  | item :: items =>
      match statusItem mailbox item with
      | inl e => inl e
      | inr text => match statusItems mailbox items with inl e => inl e | inr texts => inr (text :: texts) end
      end
  end.

Definition statusLines (tag : bytes) (arguments : list imapToken) (find : bytes -> option statefulMailbox) : list bytes :=
  let bad := [tagged tag ($"BAD STATUS requires a mailbox and an item list")] in
  match arguments with
  | [name; Parens ((_ :: _) as items)] =>
      if tokIsList name then bad
      else match find (tokValue name) with
      | Some mailbox =>
          if selectable mailbox then
            match statusItems mailbox items with
            | inl e => [tagged tag e]
            | inr texts =>
                [$"* STATUS " ++ quoteMailbox (mbName mailbox) ++ $" (" ++ join_space texts ++ $")"; tagged tag ($"OK STATUS completed")]
            end
          else [noMailbox tag]
      | None => [noMailbox tag]
      end
  | _ => bad
  end.
Definition statefulStatus (store : mailboxStore) (tag : bytes) (arguments : list imapToken) : list bytes :=
  statusLines tag arguments (fun name => option_map snd (find store name)).

(** ** UID SEARCH *)

Inductive criterion :=
| CritSeen
| CritUnseen
| CritUIDs (ranges : list uidRange).

Definition criterionMatches (c : criterion) (m : statefulMessage) : bool :=
  match c with
  | CritSeen => messageSeen m
  | CritUnseen => negb (messageSeen m)
  | CritUIDs ranges => uidInRanges (msUID m) ranges
  end.

(** The loop over the arguments: the criteria, or the text of the refusal. *)
Fixpoint searchCriteria (largest : Z) (arguments : list imapToken) : bytes + list criterion :=
  match arguments with
  | [] => inr []
  | argument :: rest =>
      let cons c r := match r with inl e => inl e | inr cs => inr (c :: cs) end in
      if tokIsList argument || tokQuoted argument then inl ($"BAD unsupported search grammar")
      else
        let key := to_upper (tokValue argument) in
        if beqs key ($"ALL") then searchCriteria largest rest
        else if beqs key ($"SEEN") then cons CritSeen (searchCriteria largest rest)
        else if beqs key ($"UNSEEN") then cons CritUnseen (searchCriteria largest rest)
        else if beqs key ($"UID") then
          match rest with
          | [] => inl ($"BAD UID search key requires a set")
          | set :: rest =>
              match parseUIDSet set largest with
              | None => inl ($"BAD malformed UID set")
              | Some ranges => cons (CritUIDs ranges) (searchCriteria largest rest)
              end
          end
        else inl ($"BAD unsupported search key")
  end.

Definition searchMatches (criteria : list criterion) (messages : list statefulMessage) : list statefulMessage :=
  List.filter (fun m => forallb (fun c => criterionMatches c m) criteria) messages.

(** The untagged response for the UIDs found. *)
Definition searchResponse (uids : list Z) : bytes := $"* SEARCH" ++ concat (map (fun u => $" " ++ decimal u) uids).

Definition statefulSearch (mailbox : statefulMailbox) (tag : bytes) (arguments : list imapToken) : list bytes :=
  match arguments with
  | [] => [tagged tag ($"BAD missing search criteria")]
  | _ =>
      match searchCriteria (maxUID mailbox) arguments with
      | inl e => [tagged tag e]
      | inr criteria =>
          [searchResponse (map msUID (searchMatches criteria (mbMessages mailbox))); tagged tag ($"OK SEARCH completed")]
      end
  end.

(** ** UID FETCH *)

(** What [bodyPeekItem] captures: the section, and the offset and size digits. *)
Definition peekMatch : Type := bytes * option (bytes * bytes).

Definition allDigits (s : bytes) : bool := forallb is_digit s && negb (beqs s []).

(** The partial of a BODY.PEEK item, which must be all that follows the section. *)
Definition peekPartial (rest : bytes) : option (option (bytes * bytes)) :=
  match rest with
  | [] => Some None
  | c :: inner =>
      if negb (c =b "<"%byte) then None else
      let '(offset, rest, found) := cut_byte "."%byte inner in
      let '(size, closed) := cut_suffix rest ($">") in
      if found && closed && allDigits offset && allDigits size then Some (Some (offset, size)) else None
  end.

(** [bodyPeekItem.FindStringSubmatch]. *)
Definition bodyPeekItem (upper : bytes) : option peekMatch :=
  let '(rest, found) := cut_prefix upper ($"BODY.PEEK[") in
  if negb found then None else
  let '(section, rest, found) := cut_byte "]"%byte rest in
  if negb (found && (beqs section [] || beqs section ($"HEADER") || beqs section ($"TEXT"))) then None else
  option_map (fun p => (section, p)) (peekPartial rest).

Definition parsePartial (partial : bytes * bytes) : Z * Z * bool :=
  match parse_uint (fst partial) 32, parse_uint (snd partial) 32 with
  | Some offset, Some size => (offset, size, 0 <? size)
  | _, _ => (0, 0, false)
  end.

Inductive fetchItem :=
| FetchUID
| FetchFlags
| FetchSize
| FetchDate
| FetchBody (m : peekMatch).

(** The validation of one item and what the response loop reads of it. *)
Definition parseFetchItem (item : imapToken) : bytes + fetchItem :=
  let upper := to_upper (tokValue item) in
  if tokIsList item || tokQuoted item then inl ($"BAD unsupported FETCH item")
  else if beqs upper ($"UID") then inr FetchUID
  else if beqs upper ($"FLAGS") then inr FetchFlags
  else if beqs upper ($"RFC822.SIZE") then inr FetchSize
  else if beqs upper ($"INTERNALDATE") then inr FetchDate
  else match bodyPeekItem upper with
  | None => inl ($"BAD unsupported FETCH item")
  | Some (section, Some partial) =>
      if snd (parsePartial partial) then inr (FetchBody (section, Some partial))
      else inl ($"BAD partial range must be a 32-bit offset and nonzero size")
  | Some m => inr (FetchBody m)
  end.

Fixpoint parseFetchItems (items : list imapToken) : bytes + list fetchItem :=
  match items with
  | [] => inr []
  | item :: items =>
      match parseFetchItem item with
      | inl e => inl e
      | inr i => match parseFetchItems items with inl e => inl e | inr parsed => inr (i :: parsed) end
      end
  end.

Definition crlf2 : bytes := [x0d; x0a; x0d; x0a].
(** [strings.Cut(body, "\r\n\r\n")]. *)
Definition cutBlankLine (body : bytes) : bytes * bytes * bool :=
  match index_sub crlf2 body with
  | Some i => (take i body, drop (i + 4) body, true)
  | None => (body, [], false)
  end.

Definition peekLiteral (body section : bytes) : bytes :=
  let '(header, text, found) := cutBlankLine body in
  if beqs section ($"HEADER") then header ++ crlf2
  else if beqs section ($"TEXT") then (if found then text else [])
  else body.

(** [literal[start:end]] with the bounds clamped. *)
Definition partialSlice (literal : bytes) (offset size : Z) : bytes :=
  let start := Z.min offset (zlen literal) in
  let stop := start + Z.min size (zlen literal - start) in
  take (Z.to_nat (stop - start)) (drop (Z.to_nat start) literal).

Definition bodyPeekResponse (body : bytes) (m : peekMatch) : bytes :=
  let '(section, partial) := m in
  let literal := peekLiteral body section in
  let label := $"BODY[" ++ section ++ $"]" in
  let '(literal, label) :=
    match partial with
    | None => (literal, label)
    | Some p =>
        let '(offset, size, _) := parsePartial p in
        (partialSlice literal offset size, label ++ $"<" ++ decimal offset ++ $">")
    end in
  label ++ $" {" ++ decimal (zlen literal) ++ $"}" ++ [x0d; x0a] ++ literal.

Definition fetchPart (m : statefulMessage) (item : fetchItem) : list bytes :=
  match item with
  | FetchUID => []
  | FetchFlags => [$"FLAGS (" ++ join_space (msFlags m) ++ $")"]
  | FetchSize => [$"RFC822.SIZE " ++ decimal (zlen (msBody m))]
  | FetchDate => [$"INTERNALDATE " ++ quote ($"01-Jan-2026 00:00:00 +0000")]
  | FetchBody p => [bodyPeekResponse (msBody m) p]
  end.

Definition fetchLine (items : list fetchItem) (index : nat) (m : statefulMessage) : bytes :=
  $"* " ++ decimal (Z.of_nat index + 1) ++ $" FETCH ("
    ++ join_space (($"UID " ++ decimal (msUID m)) :: concat (map (fetchPart m) items)) ++ $")".

(** The messages of a set, each with its position. *)
Fixpoint chosen (index : nat) (ranges : list uidRange) (messages : list statefulMessage) : list (nat * statefulMessage) :=
  match messages with
  | [] => []
  | m :: messages => (if uidInRanges (msUID m) ranges then [(index, m)] else []) ++ chosen (S index) ranges messages
  end.

Definition statefulFetch (mailbox : statefulMailbox) (tag : bytes) (arguments : list imapToken) : list bytes :=
  match arguments with
  | [set; spec] =>
      match parseUIDSet set (maxUID mailbox) with
      | None => [tagged tag ($"BAD malformed UID set")]
      | Some ranges =>
          match parseFetchItems (match spec with Parens items => items | _ => [spec] end) with
          | inl e => [tagged tag e]
          | inr items =>
              map (fun p => fetchLine items (fst p) (snd p)) (chosen 0 ranges (mbMessages mailbox)) ++ [tagged tag ($"OK FETCH completed")]
          end
      end
  | _ => [tagged tag ($"BAD UID FETCH requires a UID set and items")]
  end.

(** ** UID STORE *)

(** The operation: what it does to the Seen flag, and whether it is silent. *)
Definition storeOperation (token : bytes) : bytes + bool * bool :=
  let operation := to_upper token in
  let silent := has_suffix operation ($".SILENT") in
  let base := trim_suffix operation ($".SILENT") in
  if beqs base ($"+FLAGS") then inr (true, silent)
  else if beqs base ($"-FLAGS") then inr (false, silent)
  else if beqs base ($"FLAGS") then inl ($"FLAGS replacement")
  else inl [].

Definition storeFlagsSeen (flags : imapToken) : bool :=
  match (match flags with Parens l => l | _ => [flags] end) with
  | [flag] => negb (tokIsList flag) && negb (tokQuoted flag) && isSeen (tokValue flag)
  | _ => false
  end.

Definition storeMessages (ranges : list uidRange) (seen : bool) (messages : list statefulMessage) : list statefulMessage :=
  map (fun m => if uidInRanges (msUID m) ranges then setSeen seen m else m) messages.

Definition storeLine (index : nat) (m : statefulMessage) : bytes :=
  $"* " ++ decimal (Z.of_nat index + 1) ++ $" FETCH (UID " ++ decimal (msUID m) ++ $" FLAGS (" ++ join_space (msFlags m) ++ $"))".

Definition readOnlyLine (tag : bytes) : bytes := tagged tag ($"NO [READ-ONLY] mailbox was opened with EXAMINE").

(** [statefulStore]: the mailbox after it, and the lines. *)
Definition statefulStore (session : statefulSession) (mailbox : statefulMailbox) (tag : bytes) (arguments : list imapToken) :
    statefulMailbox * list bytes :=
  if ssReadOnly session then (mailbox, [readOnlyLine tag]) else
  match arguments with
  | [set; operation; flags] =>
      if tokIsList operation || tokQuoted operation
      then (mailbox, [tagged tag ($"BAD UID STORE requires a UID set, an operation and flags")])
      else match parseUIDSet set (maxUID mailbox) with
      | None => (mailbox, [tagged tag ($"BAD malformed UID set")])
      | Some ranges =>
          match storeOperation (tokValue operation) with
          | inl [] => (mailbox, [tagged tag ($"BAD unsupported STORE operation")])
          | inl what => (mailbox, [refusedBy tag what])
          | inr (seen, silent) =>
              if negb (storeFlagsSeen flags) then (mailbox, [refusedBy tag ($"changing flags other than \Seen")])
              else
                let messages := storeMessages ranges seen (mbMessages mailbox) in
                (mailbox <| mbMessages := messages |>,
                 (if silent then [] else map (fun p => storeLine (fst p) (snd p)) (chosen 0 ranges messages))
                   ++ [tagged tag ($"OK STORE completed")])
          end
      end
  | _ => (mailbox, [tagged tag ($"BAD UID STORE requires a UID set, an operation and flags")])
  end.

(** ** UID MOVE *)

(** The moved messages as the destination stores them, from its UIDNEXT. *)
Fixpoint allocate (uidNext : Z) (messages : list statefulMessage) : list statefulMessage :=
  match messages with
  | [] => []
  | m :: messages => m <| msUID := uidNext |> :: allocate (u32 (uidNext + 1)) messages
  end.

Definition moving (ranges : list uidRange) (messages : list statefulMessage) : list statefulMessage :=
  List.filter (fun m => uidInRanges (msUID m) ranges) messages.
Definition staying (ranges : list uidRange) (messages : list statefulMessage) : list statefulMessage :=
  List.filter (fun m => negb (uidInRanges (msUID m) ranges)) messages.

Definition expungeLine (index : nat) : bytes := $"* " ++ decimal (Z.of_nat index + 1) ++ $" EXPUNGE".

Definition statefulMove (store : mailboxStore) (session : statefulSession) (position : nat) (source : statefulMailbox)
    (tag : bytes) (arguments : list imapToken) : mailboxStore * list bytes :=
  if ssReadOnly session then (store, [readOnlyLine tag]) else
  match arguments with
  | [set; target] =>
      if tokIsList target then (store, [tagged tag ($"BAD UID MOVE requires a UID set and a mailbox")])
      else match parseUIDSet set (maxUID source) with
      | None => (store, [tagged tag ($"BAD malformed UID set")])
      | Some ranges =>
          match find store (tokValue target) with
          | None => (store, [tagged tag ($"NO [TRYCREATE] destination mailbox does not exist")])
          | Some (index, destination) =>
              if negb (selectable destination) then (store, [tagged tag ($"NO [CANNOT] destination mailbox is not selectable")])
              else if (index =? position)%nat then (store, [tagged tag ($"NO [CANNOT] destination is the selected mailbox")])
              else
                let moved := moving ranges (mbMessages source) in
                if MaxUint32 <? u64 (mbUIDNext destination + zlen moved)
                then (store, [tagged tag ($"NO [LIMIT] destination mailbox has too few UIDs left")])
                else
                  let arrived := allocate (mbUIDNext destination) moved in
                  let destination' := destination <| mbMessages := mbMessages destination ++ arrived |>
                    <| mbUIDNext := u32 (mbUIDNext destination + zlen moved) |>
                    <| mbMade := mbMade destination || negb (bool_decide (moved = [])) |> in
                  let source' := source <| mbMessages := staying ranges (mbMessages source) |> <| mbMade := true |> in
                  let store' := setMailbox (setMailbox store index destination') position source' in
                  (store',
                   if bool_decide (moved = []) then [tagged tag ($"OK MOVE completed")]
                   else
                     ($"* OK [COPYUID " ++ decimal (mbUIDValidity destination) ++ $" "
                        ++ uidSetText (map msUID moved) ++ $" " ++ uidSetText (map msUID arrived) ++ $"] moved")
                     :: rev (map (fun p => expungeLine (fst p)) (chosen 0 ranges (mbMessages source)))
                     ++ [tagged tag ($"OK MOVE completed")])
          end
      end
  | _ => (store, [tagged tag ($"BAD UID MOVE requires a UID set and a mailbox")])
  end.

(** ** Dispatch *)

Inductive uidCommand := UIDFetch | UIDSearch | UIDStore | UIDMove.

(** The subcommand, or the line that refuses it. *)
Definition uidSubcommand (move : bool) (tag : bytes) (arguments : list imapToken) : bytes + uidCommand :=
  match arguments with
  | [] => inl (tagged tag ($"BAD incomplete UID command"))
  | argument :: _ =>
      if tokIsList argument || tokQuoted argument then inl (tagged tag ($"BAD incomplete UID command"))
      else
        let subcommand := to_upper (tokValue argument) in
        if beqs subcommand ($"FETCH") then inr UIDFetch
        else if beqs subcommand ($"SEARCH") then inr UIDSearch
        else if beqs subcommand ($"STORE") then inr UIDStore
        else if beqs subcommand ($"MOVE") then (if move then inr UIDMove else inl (tagged tag ($"BAD MOVE is not enabled")))
        else if beqs subcommand ($"COPY") || beqs subcommand ($"EXPUNGE") then inl (refusedBy tag ($"UID " ++ subcommand))
        else inl (tagged tag ($"BAD unsupported UID command"))
  end.

Definition statefulUID (store : mailboxStore) (session : statefulSession) (tag : bytes) (arguments : list imapToken) :
    mailboxStore * list bytes :=
  match uidSubcommand (storeMove store) tag arguments with
  | inl line => (store, [line])
  | inr command =>
      if beqs (ssSelected session) [] then (store, [tagged tag ($"BAD no mailbox selected")])
      else match find store (ssSelected session) with
      | None => (store, [tagged tag ($"NO selected mailbox no longer exists")])
      | Some (position, mailbox) =>
          match command with
          | UIDFetch => (store, statefulFetch mailbox tag (drop 1 arguments))
          | UIDSearch => (store, statefulSearch mailbox tag (drop 1 arguments))
          | UIDStore =>
              let '(mailbox, lines) := statefulStore session mailbox tag (drop 1 arguments) in
              (setMailbox store position mailbox, lines)
          | UIDMove => statefulMove store session position mailbox tag (drop 1 arguments)
          end
      end
  end.

(** [trailingLiteral]: [{digits}] or [{digits+}] at the end of the line. *)
Fixpoint dropDigits (s : bytes) : bytes :=
  match s with c :: s' => if is_digit c then dropDigits s' else s | [] => [] end.
Definition trailingLiteral (raw : bytes) : option bool :=
  match rev raw with
  | c :: r =>
      if negb (c =b "}"%byte) then None else
      let '(plus, r) := match r with d :: r' => if d =b "+"%byte then (true, r') else (false, r) | [] => (false, []) end in
      match r with
      | d :: _ => if is_digit d && match dropDigits r with o :: _ => o =b "{"%byte | [] => false end then Some plus else None
      | [] => None
      end
  | [] => None
  end.

(** What a command does to the connection: left to the shared paths, closed
    without a word, or answered; an answered connection stays open as long as
    the lines can be written. *)
Inductive served :=
| Unhandled
| CloseConnection
| Answer (lines : list bytes).

Definition refuseLiteral (tag raw : bytes) : option served :=
  match trailingLiteral raw with
  | None => None
  | Some true => Some CloseConnection
  | Some false => Some (Answer [tagged tag ($"NO [CANNOT] literals are refused by the stateful fixture")])
  end.

Definition oneOf (name : bytes) (names : list bytes) : bool := existsb (beqs name) names.
Definition sharedCommands : list bytes := [$"STARTTLS"; $"LOGIN"; $"AUTHENTICATE"; $"NOOP"; $"LOGOUT"].
Definition refusedCommands : list bytes :=
  [$"COPY"; $"MOVE"; $"STORE"; $"EXPUNGE"; $"DELETE"; $"APPEND"; $"CREATE"; $"RENAME"; $"SUBSCRIBE"; $"UNSUBSCRIBE"; $"CLOSE"].

Definition capabilityLines (tag capabilities : bytes) : list bytes :=
  [$"* CAPABILITY IMAP4rev1 AUTH=PLAIN" ++ capabilities; tagged tag ($"OK CAPABILITY completed")].

(** The last switch of [serveStateful]. *)
Definition statefulCommand (store : mailboxStore) (session : statefulSession) (tag name : bytes) (arguments : list imapToken) :
    mailboxStore * statefulSession * list bytes :=
  if beqs name ($"LIST") then (store, session, listLines tag arguments (storeMailboxes store))
  else if beqs name ($"SELECT") || beqs name ($"EXAMINE") then
    let '(session, lines) := statefulSelect store tag name arguments in (store, session, lines)
  else if beqs name ($"STATUS") then (store, session, statefulStatus store tag arguments)
  else if beqs name ($"UID") then
    let '(store, lines) := statefulUID store session tag arguments in (store, session, lines)
  else if oneOf name refusedCommands then (store, session, [refusedBy tag name])
  else (store, session, [tagged tag ($"BAD unsupported command")]).

Definition serveStateful (store : mailboxStore) (session : statefulSession) (tag name raw : bytes)
    (tlsEstablished authenticated : bool) : mailboxStore * statefulSession * served :=
  match refuseLiteral tag raw with
  | Some s => (store, session, s)
  | None =>
      if oneOf name sharedCommands || beqs name ($"CAPABILITY") && negb tlsEstablished then (store, session, Unhandled)
      else if beqs name ($"CAPABILITY") then
        (store, session, Answer (capabilityLines tag (if storeMove store then $" MOVE" else [])))
      else if negb authenticated then (store, session, Answer [tagged tag ($"NO authenticate first")])
      else match tokenizeArguments raw with
      | inl e => (store, session, Answer [tagged tag ($"BAD " ++ tokenErrorText e)])
      | inr arguments =>
          let '(store, session, lines) := statefulCommand store session tag name arguments in (store, session, Answer lines)
      end
  end.
