(* ===== verification/MailboxStoreSpec.v ===== *)
(** * The mailbox fixture keeps its promises

    Every store built from well-typed seeds is well formed (UIDs strictly
    increase below a nonzero 32-bit UIDNEXT, a mailbox is found by its own
    name), and every command and mutator keeps it so.  No command loses or
    duplicates a message or alters more than a Seen flag; UIDs are never
    reused; sessions that are read-only, unauthenticated or have nothing
    selected change nothing; the LIST wildcards match what their grammar
    says. *)
From Stdlib Require Import ZArith Lia Strings.Byte Sorting.Sorted.
From stdpp Require Import base list gmap strings sorting.
From S2P Require Import Prelude GoStrings GoText MessageID ImapTokens MailboxStore.

(** ** Well-formed stores *)

(** UIDs strictly increase above [low] and stay below [high]. *)
Fixpoint uidsBetween (low : Z) (messages : list statefulMessage) (high : Z) : Prop :=
  match messages with
  | [] => low < high
  | m :: messages => low < msUID m /\ uidsBetween (msUID m) messages high
  end.

Record mailboxOK (mb : statefulMailbox) : Prop := {
  mbUIDs : uidsBetween 0 (mbMessages mb) (mbUIDNext mb);
  mbNextRange : mbUIDNext mb <= MaxUint32;
  mbValidityRange : 0 < mbUIDValidity mb <= MaxUint32;
  mbNameOK : validateMailboxName (mbName mb) = None;
  mbNil : mbMade mb = false -> mbMessages mb = [] }.

(** Every mailbox is the one its own name finds. *)
Definition namesOK (l : list statefulMailbox) : Prop :=
  forall i mb, l !! i = Some mb -> findMailbox (mbName mb) l = Some (i, mb).

Record storeOK (s : mailboxStore) : Prop := {
  storeMailboxOK : Forall mailboxOK (storeMailboxes s);
  storeNames : namesOK (storeMailboxes s) }.

(** ** Finding *)

Lemma mailboxNameMatches_refl n : mailboxNameMatches n n = true.
Proof. unfold mailboxNameMatches. destruct (equal_fold n _) eqn:E; [done|apply beqs_refl]. Qed.

Lemma findMailbox_Some name l i mb : findMailbox name l = Some (i, mb) <->
  l !! i = Some mb /\ mailboxNameMatches (mbName mb) name = true /\
  (forall j mb', (j < i)%nat -> l !! j = Some mb' -> mailboxNameMatches (mbName mb') name = false).
Proof.
  revert i. induction l as [|m l IH]; intros i; cbn; [naive_solver|].
  destruct (mailboxNameMatches (mbName m) name) eqn:E.
  - split.
    + intros [= <- <-]. split_and!; [done|done|]. intros j mb' Hj. lia.
    + intros (Hi & Hm & Hlt). destruct i as [|i]; [by simplify_eq/=|]. specialize (Hlt 0%nat m ltac:(lia) eq_refl). congruence.
  - destruct i as [|i].
    + split; [by destruct (findMailbox name l) as [[? ?]|]|]. intros ([= ->] & Hm & _). congruence.
    + split.
      * destruct (findMailbox name l) as [[k b]|] eqn:F; [|done]. cbn. intros [= -> ->]. pose proof (proj1 (IH i) eq_refl) as F'.
        destruct F' as (H1 & H2 & H3). split_and!; [done|done|]. intros [|j] mb' Hj; cbn; [by intros [= <-]|]. apply H3. lia.
      * intros (H1 & H2 & H3). assert (F : findMailbox name l = Some (i, mb)).
        { apply IH. split_and!; [done|done|]. intros j mb' Hj Hl. apply (H3 (S j) mb'); [lia|done]. }
        by rewrite F.
Qed.

Lemma findMailbox_lookup name l i mb : findMailbox name l = Some (i, mb) -> l !! i = Some mb.
Proof. by intros (H & _)%findMailbox_Some. Qed.

Lemma findMailbox_None name l : findMailbox name l = None <-> Forall (fun mb => mailboxNameMatches (mbName mb) name = false) l.
Proof.
  induction l as [|m l IH]; cbn; [done|]. rewrite Forall_cons, <- IH.
  destruct (mailboxNameMatches _ _); [naive_solver|]. destruct (findMailbox name l); naive_solver.
Qed.

(** Only names matter to finding. *)
Lemma findMailbox_insert name l i mb mb' : l !! i = Some mb -> mbName mb' = mbName mb ->
  findMailbox name (<[i := mb']> l) =
  option_map (fun p => (fst p, if (fst p =? i)%nat then mb' else snd p)) (findMailbox name l).
Proof.
  revert i. induction l as [|m l IH]; intros [|i]; cbn; [done|done| |].
  - intros [= ->] ->. destruct (mailboxNameMatches _ _); [done|]. by destruct (findMailbox name l) as [[k b]|].
  - intros Hi Hn. destruct (mailboxNameMatches _ _); [done|]. rewrite IH by done. by destruct (findMailbox name l) as [[k b]|].
Qed.

Lemma namesOK_insert l i mb mb' : l !! i = Some mb -> mbName mb' = mbName mb -> namesOK l -> namesOK (<[i := mb']> l).
Proof.
  intros Hi Hn Hok j m Hj. rewrite (findMailbox_insert _ _ _ mb) by done. destruct (decide (j = i)) as [->|Hne].
  - rewrite list_lookup_insert_eq in Hj by (by eapply lookup_lt_Some). simplify_eq. rewrite Hn, (Hok i mb Hi). cbn. by rewrite Nat.eqb_refl.
  - rewrite list_lookup_insert_ne in Hj by done. rewrite (Hok j m Hj). cbn. by apply Nat.eqb_neq in Hne as ->.
Qed.

Lemma namesOK_delete l i : namesOK l -> namesOK (delete i l).
Proof.
  intros Hok j m Hj. apply findMailbox_Some. split_and!; [done|apply mailboxNameMatches_refl|].
  intros k m' Hk Hl. destruct (decide (j < i)%nat).
  - rewrite list_lookup_delete_lt in Hj by done. rewrite list_lookup_delete_lt in Hl by lia.
    pose proof (Hok j m Hj) as (_ & _ & H)%findMailbox_Some. by eapply H.
  - rewrite list_lookup_delete_ge in Hj by lia. pose proof (Hok (S j) m Hj) as (_ & _ & H)%findMailbox_Some.
    destruct (decide (k < i)%nat); [rewrite list_lookup_delete_lt in Hl by done; eapply (H k); [lia|done]|].
    rewrite list_lookup_delete_ge in Hl by lia. eapply (H (S k)); [lia|done].
Qed.

Lemma namesOK_snoc l mb : namesOK l -> findMailbox (mbName mb) l = None -> namesOK (l ++ [mb]).
Proof.
  intros Hok Hn i m. rewrite lookup_app. destruct (l !! i) as [m'|] eqn:E.
  - intros [= ->]. pose proof (Hok i m E) as (_ & H2 & H3)%findMailbox_Some. apply findMailbox_Some.
    split_and!; [by apply lookup_app_l_Some|done|]. intros j mb' Hj Hl. apply (H3 j mb' Hj).
    by rewrite lookup_app_l in Hl by (apply lookup_lt_Some in E; lia).
  - intros Hi. apply list_lookup_singleton_Some in Hi as [Hi <-]. apply lookup_ge_None in E.
    apply findMailbox_Some. assert (i = length l) as -> by lia. split_and!; [by rewrite list_lookup_middle|apply mailboxNameMatches_refl|].
    intros j mb' Hj Hl. rewrite lookup_app_l in Hl by done. apply findMailbox_None in Hn. rewrite Forall_forall in Hn.
    apply Hn, list_elem_of_lookup. by exists j.
Qed.

Lemma storeOK_set s i mb mb' : storeOK s -> storeMailboxes s !! i = Some mb -> mbName mb' = mbName mb -> mailboxOK mb' ->
  storeOK (setMailbox s i mb').
Proof. intros [H1 H2] Hi Hn Hok. split; cbn; [by apply Forall_insert|by eapply namesOK_insert]. Qed.

Lemma storeOK_find s name i mb : storeOK s -> find s name = Some (i, mb) -> storeMailboxes s !! i = Some mb /\ mailboxOK mb.
Proof.
  intros [H _] Hf. apply findMailbox_lookup in Hf. split; [done|]. rewrite Forall_forall in H. apply H. eapply list_elem_of_lookup_2, Hf.
Qed.

(** ** UIDs in order *)

Lemma uidsBetween_lt low l high : uidsBetween low l high -> low < high.
Proof. revert low. induction l as [|m l IH]; intros low; cbn; [done|]. intros [H1 H2]. apply IH in H2. lia. Qed.

Lemma uidsBetween_weaken low low' l high high' : low' <= low -> high <= high' -> uidsBetween low l high -> uidsBetween low' l high'.
Proof.
  revert low low'. induction l as [|m l IH]; intros low low' Hl Hh; cbn; [lia|]. intros [H1 H2]. split; [lia|]. by eapply IH, H2.
Qed.

Lemma uidsBetween_map f low l high : (forall m, msUID (f m) = msUID m) -> uidsBetween low l high -> uidsBetween low (map f l) high.
Proof. intros Hf. revert low. induction l as [|m l IH]; intros low; cbn; [done|]. rewrite Hf. intros [? ?]. auto. Qed.

Lemma uidsBetween_filter f low l high : uidsBetween low l high -> uidsBetween low (List.filter f l) high.
Proof.
  revert low. induction l as [|m l IH]; intros low; cbn; [done|]. intros [H1 H2]. destruct (f m); cbn; [auto|].
  apply IH. eapply uidsBetween_weaken; [|reflexivity|done]. lia.
Qed.

Lemma uidsBetween_app low l mid k high : uidsBetween low l mid -> uidsBetween (mid - 1) k high -> uidsBetween low (l ++ k) high.
Proof.
  revert low. induction l as [|m l IH]; intros low; cbn.
  - intros H. apply uidsBetween_weaken; lia.
  - intros [H1 H2] Hk. auto.
Qed.

Lemma uidsBetween_elem low l high m : uidsBetween low l high -> m ∈ l -> low < msUID m < high.
Proof.
  revert low. induction l as [|x l IH]; intros low; cbn; [intros _ H; inversion H|]. intros [H1 H2].
  intros [->|Hm]%elem_of_cons; [apply uidsBetween_lt in H2; lia|]. specialize (IH _ H2 Hm). lia.
Qed.

Lemma uidsBetween_inj low l high m m' : uidsBetween low l high -> m ∈ l -> m' ∈ l -> msUID m = msUID m' -> m = m'.
Proof.
  revert low. induction l as [|x l IH]; intros low; cbn; [intros _ H; inversion H|]. intros [H1 H2].
  intros [->|Hm]%elem_of_cons [->|Hm']%elem_of_cons He; [done| | |by eapply IH].
  - pose proof (uidsBetween_elem _ _ _ _ H2 Hm'). lia.
  - pose proof (uidsBetween_elem _ _ _ _ H2 Hm). lia.
Qed.

Lemma u32_small z : 0 <= z <= MaxUint32 -> u32 z = z.
Proof. intros H. unfold u32. apply Z.mod_small. unfold MaxUint32 in H. lia. Qed.
Lemma u64_small z : 0 <= z < 2 ^ 64 -> u64 z = z.
Proof. intros H. unfold u64. by apply Z.mod_small. Qed.

Lemma allocate_uids msgs : forall n, 0 < n -> n + zlen msgs <= MaxUint32 ->
  uidsBetween (n - 1) (allocate n msgs) (n + zlen msgs).
Proof.
  induction msgs as [|m msgs IH]; intros n Hn Hmax; cbn [allocate uidsBetween]; [rewrite zlen_nil; lia|].
  rewrite zlen_cons in *. pose proof (zlen_nonneg msgs). change (msUID (m <| msUID := n |>)) with n. split; [lia|].
  rewrite u32_small by lia. specialize (IH (n + 1) ltac:(lia) ltac:(lia)). replace (n + 1 - 1) with n in IH by lia.
  by replace (n + (1 + zlen msgs)) with (n + 1 + zlen msgs) by lia.
Qed.

Lemma setSeen_uid b m : msUID (setSeen b m) = msUID m.
Proof. unfold setSeen. by repeat case_match. Qed.

Lemma maxUID_range mb : mailboxOK mb -> 0 <= maxUID mb <= MaxUint32.
Proof.
  intros [H1 H2 _ _ _]. unfold maxUID. destruct (last (mbMessages mb)) as [m|] eqn:E; [|unfold MaxUint32; lia].
  apply last_Some_elem_of in E. pose proof (uidsBetween_elem _ _ _ _ H1 E). lia.
Qed.

(** ** Seeds build well-formed stores *)

Definition uint32 (z : Z) : Prop := 0 <= z <= MaxUint32.
Definition seedOK (seed : MailboxSeed) : Prop :=
  uint32 (sdUIDValidity seed) /\ Forall (fun m => uint32 (sdUID m)) (sdMessages seed).

Lemma seedMessages_ok name seeds : forall previous messages after, 0 <= previous < MaxUint32 ->
  Forall (fun m => uint32 (sdUID m)) seeds -> seedMessages name previous seeds = inr (messages, after) ->
  uidsBetween previous messages (after + 1) /\ after < MaxUint32.
Proof.
  induction seeds as [|seed seeds IH]; intros previous messages after Hp Hs; cbn [seedMessages].
  { intros [= <- <-]. cbn. lia. }
  apply Forall_cons in Hs as [Hu Hs]. set (uid := if sdUID seed =? 0 then _ else _).
  assert (Hr : 0 <= uid <= MaxUint32).
  { subst uid. destruct (sdUID seed =? 0); [rewrite u32_small; lia|done]. }
  destruct (uid <=? previous) eqn:E1; [done|]. destruct (uid =? MaxUint32) eqn:E2; [done|]. bool_prop.
  destruct (validateAtoms _ _); [done|]. destruct (seedMessages name uid seeds) as [e|[ms a]] eqn:E; [done|].
  intros [= <- <-]. cbn. apply IH in E; [|lia|done]. destruct E. split; [split; [lia|done]|done].
Qed.

Lemma seedMailbox_ok index seed l mb : (Z.of_nat index < MaxUint32 - 1001) -> seedOK seed -> seedMailbox index seed l = inr mb ->
  mailboxOK mb /\ findMailbox (mbName mb) l = None.
Proof.
  intros Hi [Hv Hm]. unfold seedMailbox. destruct (validateMailboxName (sdName seed)) eqn:En; [done|].
  destruct (findMailbox (sdName seed) l) eqn:Ef; [done|]. destruct (validateAtoms _ _); [done|].
  destruct (seedMessages _ 0 _) as [e|[ms after]] eqn:E; [done|]. intros [= <-].
  apply seedMessages_ok in E as [Hu Ha]; [|unfold MaxUint32; lia|done]. split; [|done]. pose proof (uidsBetween_lt _ _ _ Hu).
  split; cbn [mbMessages mbUIDNext mbUIDValidity mbName mbMade].
  - by rewrite u32_small by (unfold MaxUint32 in *; lia).
  - rewrite u32_small; lia.
  - destruct (sdUIDValidity seed =? 0) eqn:Ez; bool_prop; [rewrite u32_small; lia|]. unfold uint32 in Hv. lia.
  - done.
  - intros Hb. apply negb_false_iff, bool_decide_eq_true in Hb. done.
Qed.

Lemma seedMailboxes_ok seeds : forall index l l', (Z.of_nat (index + length seeds) < MaxUint32 - 1001) -> Forall seedOK seeds ->
  Forall mailboxOK l -> namesOK l -> seedMailboxes index seeds l = inr l' -> Forall mailboxOK l' /\ namesOK l'.
Proof.
  induction seeds as [|seed seeds IH]; intros index l l' Hi Hs Hl Hn; cbn [seedMailboxes]; [by intros [= <-]|].
  apply Forall_cons in Hs as [Hseed Hs]. destruct (seedMailbox index seed l) as [e|mb] eqn:E; [done|].
  cbn in Hi. apply seedMailbox_ok in E as [Hmb Hf]; [|lia|done].
  apply IH; [lia|done| |by apply namesOK_snoc]. apply Forall_app. by split; [|constructor].
Qed.

Lemma newMailboxStore_ok options store : Z.of_nat (length (soMailboxes options)) < MaxUint32 - 1001 -> Forall seedOK (soMailboxes options) ->
  newMailboxStore options = inr store -> storeOK store.
Proof.
  intros Hl Hs. unfold newMailboxStore. destruct (seedMailboxes 0 _ []) as [e|l] eqn:E; [done|]. intros [= <-].
  apply seedMailboxes_ok in E as [H1 H2]; [by split|done|done|constructor|done].
Qed.

(** ** What a command may change *)

(** A message without its Seen flag and its UID. *)
Definition content (m : statefulMessage) : list bytes * bytes :=
  (List.filter (fun flag => negb (isSeen flag)) (msFlags m), msBody m).
Definition contents (mb : statefulMailbox) : list (list bytes * bytes) := map content (mbMessages mb).
Definition storeContents (s : mailboxStore) : list (list bytes * bytes) := concat (map contents (storeMailboxes s)).

(** A mailbox keeps its name and its UIDs: UIDNEXT does not go down, and a UID
    allocated before still denotes the message it denoted, or none. *)
Definition keepsUIDs (mb mb' : statefulMailbox) : Prop :=
  mbName mb' = mbName mb /\ mbUIDNext mb <= mbUIDNext mb' /\
  forall m', m' ∈ mbMessages mb' -> msUID m' < mbUIDNext mb ->
    exists m, m ∈ mbMessages mb /\ msUID m = msUID m' /\ content m = content m'.
Definition storeKeepsUIDs (s s' : mailboxStore) : Prop :=
  forall mb', mb' ∈ storeMailboxes s' -> exists mb, mb ∈ storeMailboxes s /\ keepsUIDs mb mb'.

Lemma keepsUIDs_refl mb : keepsUIDs mb mb.
Proof. split_and!; [done|lia|]. intros m' Hm _. by exists m'. Qed.

Lemma keepsUIDs_trans a b c : keepsUIDs a b -> keepsUIDs b c -> keepsUIDs a c.
Proof.
  intros (N1 & U1 & M1) (N2 & U2 & M2). split_and!; [congruence|lia|]. intros m'' Hm Hu.
  destruct (M2 m'' Hm ltac:(lia)) as (m' & Hm' & E & C). destruct (M1 m' Hm' ltac:(lia)) as (m & ? & ? & ?).
  exists m. split_and!; congruence || done.
Qed.

#[export] Instance storeKeepsUIDs_preorder : PreOrder storeKeepsUIDs.
Proof.
  split; [intros s mb Hmb; exists mb; split; [done|apply keepsUIDs_refl]|].
  intros a b c H1 H2 mc Hc. destruct (H2 mc Hc) as (mb & Hb & K). destruct (H1 mb Hb) as (ma & Ha & K').
  exists ma. split; [done|]. by eapply keepsUIDs_trans.
Qed.

Lemma insert_elem {A} (l : list A) i x y : y ∈ <[i := x]> l -> y = x \/ y ∈ l.
Proof.
  revert i. induction l as [|z l IH]; intros [|i]; cbn; rewrite ?elem_of_cons; [auto|auto|intuition|].
  intros [->|H]; [auto|]. apply IH in H as [H|H]; auto.
Qed.

Lemma storeKeepsUIDs_set s i mb mb' : storeMailboxes s !! i = Some mb -> keepsUIDs mb mb' -> storeKeepsUIDs s (setMailbox s i mb').
Proof.
  intros Hi Hk m Hm. cbn in Hm. apply insert_elem in Hm as [->|Hm].
  - exists mb. split; [by eapply list_elem_of_lookup_2|done].
  - exists m. split; [done|apply keepsUIDs_refl].
Qed.

Lemma contents_set s i mb mb' : storeMailboxes s !! i = Some mb ->
  storeContents (setMailbox s i mb') ++ contents mb ≡ₚ storeContents s ++ contents mb'.
Proof.
  unfold storeContents, setMailbox. cbn. generalize (storeMailboxes s). intros l. revert i.
  induction l as [|m l IH]; intros [|i]; cbn; [done|done| |].
  - intros [= ->]. rewrite <- !app_assoc. rewrite (Permutation_app_comm (concat _) (contents mb)).
    rewrite (Permutation_app_comm (concat _) (contents mb')). rewrite !app_assoc. f_equiv. apply Permutation_app_comm.
  - intros Hi. rewrite <- !app_assoc. f_equiv. by apply IH.
Qed.

Lemma content_setSeen b m : content (setSeen b m) = content m.
Proof.
  unfold content, setSeen. destruct (Bool.eqb _ _); [done|]. destruct b; cbn.
  - rewrite List.filter_app. cbn. change (isSeen ($"\Seen")) with true. cbn. by rewrite app_nil_r.
  - f_equal. induction (msFlags m) as [|f l IH]; cbn; [done|]. destruct (isSeen f) eqn:E; cbn; [done|]. by rewrite E; cbn; rewrite IH.
Qed.

Lemma allocate_content n msgs : map content (allocate n msgs) = map content msgs.
Proof. revert n. induction msgs as [|m msgs IH]; intros n; cbn; [done|]. by rewrite IH. Qed.

Lemma split_messages ranges l : map content (moving ranges l) ++ map content (staying ranges l) ≡ₚ map content l.
Proof.
  unfold moving, staying. induction l as [|m l IH]; cbn; [done|]. destruct (uidInRanges _ _); cbn; [by rewrite IH|].
  by rewrite <- Permutation_middle, IH.
Qed.

(** ** The commands *)

(** What every command guarantees of the store. *)
Record servesWell (s s' : mailboxStore) : Prop := {
  swOK : storeOK s';
  swContents : storeContents s' ≡ₚ storeContents s;
  swUIDs : storeKeepsUIDs s s';
  swNames : map mbName (storeMailboxes s') = map mbName (storeMailboxes s) }.

Lemma servesWell_refl s : storeOK s -> servesWell s s.
Proof. intros H. by split. Qed.

Lemma names_set s i mb mb' : storeMailboxes s !! i = Some mb -> mbName mb' = mbName mb ->
  map mbName (storeMailboxes (setMailbox s i mb')) = map mbName (storeMailboxes s).
Proof.
  intros Hi Hn. cbn. change (@map) with (@List.map). rewrite list_fmap_insert, Hn. apply list_insert_id.
  change (map mbName ?l) with (mbName <$> l). by rewrite list_lookup_fmap, Hi.
Qed.

Lemma statefulStore_ok session mb tag args : mailboxOK mb ->
  let mb' := fst (statefulStore session mb tag args) in
  mailboxOK mb' /\ contents mb' = contents mb /\ keepsUIDs mb mb'.
Proof.
  intros Hok. cbn zeta. assert (Hsame : mailboxOK mb /\ contents mb = contents mb /\ keepsUIDs mb mb).
  { split_and!; [done|done|apply keepsUIDs_refl]. }
  unfold statefulStore. destruct (ssReadOnly session); [done|].
  destruct args as [|set [|operation [|flags [|]]]]; try done.
  destruct (tokIsList operation || tokQuoted operation); [done|]. destruct (parseUIDSet _ _) as [ranges|]; [|done].
  destruct (storeOperation _) as [[|]|[seen silent]]; [done|done|]. destruct (negb _); [done|]. clear Hsame. cbn [fst].
  assert (Hu : forall m, msUID (if uidInRanges (msUID m) ranges then setSeen seen m else m) = msUID m).
  { intros m. destruct (uidInRanges _ _); [apply setSeen_uid|done]. }
  assert (Hc : forall m, content (if uidInRanges (msUID m) ranges then setSeen seen m else m) = content m).
  { intros m. destruct (uidInRanges _ _); [apply content_setSeen|done]. }
  split_and!.
  - destruct Hok. split; cbn; [by apply uidsBetween_map|done..|]. intros Hm. by rewrite mbNil0.
  - unfold contents, storeMessages. cbn. rewrite map_map. by apply map_ext.
  - split_and!; [done|cbn; lia|]. intros m' Hm _. cbn in Hm. unfold storeMessages in Hm.
    apply list_elem_of_In, in_map_iff in Hm as (m & <- & Hm). exists m. rewrite Hu, Hc.
    split_and!; [by apply list_elem_of_In|done|done].
Qed.

Lemma servesWell_set s i mb mb' : storeOK s -> storeMailboxes s !! i = Some mb -> mailboxOK mb' -> contents mb' = contents mb ->
  keepsUIDs mb mb' -> servesWell s (setMailbox s i mb').
Proof.
  intros Hs Hi Hok Hc Hk. pose proof Hk as [Hn _]. split.
  - by eapply storeOK_set.
  - apply (Permutation_app_inv_r (contents mb)). rewrite contents_set by done. by rewrite Hc.
  - by eapply storeKeepsUIDs_set.
  - by eapply names_set.
Qed.

(** The source and the destination of a move, with the messages [ranges] name. *)
Definition moveSource (ranges : list uidRange) (source : statefulMailbox) : statefulMailbox :=
  source <| mbMessages := staying ranges (mbMessages source) |> <| mbMade := true |>.
Definition moveDestination (moved : list statefulMessage) (destination : statefulMailbox) : statefulMailbox :=
  destination <| mbMessages := mbMessages destination ++ allocate (mbUIDNext destination) moved |>
    <| mbUIDNext := u32 (mbUIDNext destination + zlen moved) |>
    <| mbMade := mbMade destination || negb (bool_decide (moved = [])) |>.

Lemma moveSource_ok ranges source : mailboxOK source -> mailboxOK (moveSource ranges source) /\ keepsUIDs source (moveSource ranges source).
Proof.
  intros Hok. split.
  - destruct Hok. split; cbn; [by apply uidsBetween_filter|done..].
  - split_and!; [done|cbn; lia|]. intros m Hm _. exists m. cbn in Hm. unfold staying in Hm.
    apply list_elem_of_In, List.filter_In in Hm as [Hm _]. by apply list_elem_of_In in Hm.
Qed.

Lemma allocate_ge msgs n m : 0 < n -> n + zlen msgs <= MaxUint32 -> m ∈ allocate n msgs -> n <= msUID m.
Proof. intros Hn Hm He. pose proof (uidsBetween_elem _ _ _ _ (allocate_uids msgs n Hn Hm) He). lia. Qed.

Lemma moveDestination_ok moved destination : mailboxOK destination -> mbUIDNext destination + zlen moved <= MaxUint32 ->
  mailboxOK (moveDestination moved destination) /\ keepsUIDs destination (moveDestination moved destination).
Proof.
  intros Hok Hmax. pose proof (zlen_nonneg moved) as Hz. pose proof (uidsBetween_lt _ _ _ (mbUIDs _ Hok)) as Hpos. split.
  - pose proof (allocate_uids moved _ Hpos Hmax) as Ha. destruct Hok. split; cbn; [|rewrite u32_small by lia; lia|done|done|].
    + rewrite u32_small by lia. by eapply uidsBetween_app.
    + intros [Hm Hn]%orb_false_iff. apply negb_false_iff, bool_decide_eq_true in Hn as ->. by rewrite mbNil0.
  - split_and!; [done|cbn; rewrite u32_small; lia|]. intros m Hm Hu. exists m. cbn in Hm. apply elem_of_app in Hm as [Hm|Hm]; [done|].
    apply allocate_ge in Hm; [|done|done]. lia.
Qed.

(** The 64-bit sum of the guard cannot wrap. *)
Lemma uidsBetween_count low l high : uidsBetween low l high -> low + zlen l < high.
Proof. revert low. induction l as [|m l IH]; intros low; cbn; [rewrite zlen_nil; lia|]. intros [? H%IH]. rewrite zlen_cons. lia. Qed.

Lemma move_no_overflow source destination ranges : mailboxOK source -> mailboxOK destination ->
  0 <= mbUIDNext destination + zlen (moving ranges (mbMessages source)) < 2 ^ 64.
Proof.
  intros Hs Hd. pose proof (uidsBetween_lt _ _ _ (mbUIDs _ Hd)). pose proof (zlen_nonneg (moving ranges (mbMessages source))).
  pose proof (uidsBetween_count _ _ _ (uidsBetween_filter (fun m => uidInRanges (msUID m) ranges) _ _ _ (mbUIDs _ Hs))) as Hc.
  unfold moving in *. destruct Hs, Hd. unfold MaxUint32 in *. lia.
Qed.

Lemma move_contents s i j source destination ranges : i <> j ->
  storeMailboxes s !! i = Some source -> storeMailboxes s !! j = Some destination ->
  storeContents (setMailbox (setMailbox s j (moveDestination (moving ranges (mbMessages source)) destination)) i (moveSource ranges source))
    ≡ₚ storeContents s.
Proof.
  intros Hne Hi Hj. set (moved := moving ranges (mbMessages source)).
  set (s1 := setMailbox s j _). assert (Hi1 : storeMailboxes s1 !! i = Some source).
  { subst s1. cbn. by rewrite list_lookup_insert_ne. }
  apply (Permutation_app_inv_r (contents source)). rewrite (contents_set s1 i source) by done.
  apply (Permutation_app_inv_r (contents destination)). rewrite <- !app_assoc.
  rewrite (Permutation_app_comm (contents (moveSource _ _))), app_assoc. subst s1. rewrite (contents_set s j destination) by done.
  rewrite <- !app_assoc. f_equiv.
  unfold contents at 1. unfold moveDestination. cbn [mbMessages set_field]. change (map content (mbMessages ?m)) with (contents m).
  cbn. rewrite map_app, allocate_content. change (contents (moveSource ranges source)) with (map content (staying ranges (mbMessages source))).
  rewrite <- app_assoc. unfold moved. rewrite split_messages. apply Permutation_app_comm.
Qed.

Lemma statefulMove_ok s session position source tag args : storeOK s -> storeMailboxes s !! position = Some source ->
  servesWell s (fst (statefulMove s session position source tag args)).
Proof.
  intros Hs Hpos. pose proof (servesWell_refl s Hs) as Hsame. unfold statefulMove. destruct (ssReadOnly session); [done|].
  destruct args as [|set [|target [|]]]; try done. destruct (tokIsList target); [done|].
  destruct (parseUIDSet _ _) as [ranges|]; [|done]. destruct (find s (tokValue target)) as [[index destination]|] eqn:Ef; [|done].
  destruct (negb (selectable destination)); [done|]. destruct (index =? position)%nat eqn:Ei; [done|]. apply Nat.eqb_neq in Ei.
  destruct (MaxUint32 <? _) eqn:Em; [done|]. apply Z.ltb_ge in Em. clear Hsame. cbn [fst].
  change (servesWell s (setMailbox (setMailbox s index (moveDestination (moving ranges (mbMessages source)) destination)) position (moveSource ranges source))).
  destruct (storeOK_find s _ _ _ Hs Ef) as [Hd Hdok].
  assert (Hsok : mailboxOK source) by (pose proof (storeMailboxOK _ Hs) as H; rewrite Forall_forall in H; apply H; by eapply list_elem_of_lookup_2).
  rewrite u64_small in Em by (by apply move_no_overflow).
  destruct (moveDestination_ok _ _ Hdok Em) as [D1 D2]. destruct (moveSource_ok ranges _ Hsok) as [S1 S2].
  set (s1 := setMailbox s index _) in *. assert (Hi1 : storeMailboxes s1 !! position = Some source).
  { subst s1. cbn. by rewrite list_lookup_insert_ne. }
  assert (Hs1 : storeOK s1) by (eapply storeOK_set; [done|exact Hd|done|done]). split.
  - by eapply storeOK_set.
  - by apply move_contents.
  - etrans; [by eapply storeKeepsUIDs_set, D2|]. by eapply storeKeepsUIDs_set, S2.
  - rewrite (names_set s1 position source) by done. by eapply names_set.
Qed.

(** Every subcommand, and every command of a connection. *)
Lemma statefulUID_ok s session tag args : storeOK s -> servesWell s (fst (statefulUID s session tag args)).
Proof.
  intros Hs. pose proof (servesWell_refl s Hs) as Hsame. unfold statefulUID. destruct (uidSubcommand _ _ _) as [e|c]; [done|].
  destruct (beqs _ _); [done|]. destruct (find s (ssSelected session)) as [[position mb]|] eqn:Ef; [|done].
  destruct (storeOK_find s _ _ _ Hs Ef) as [Hi Hok]. destruct c; [done|done| |by apply statefulMove_ok].
  pose proof (statefulStore_ok session mb tag (drop 1 args) Hok) as (H1 & H2 & H3).
  destruct (statefulStore session mb tag (drop 1 args)) as [mb' lines]. by apply (servesWell_set s position mb).
Qed.

Lemma serveStateful_ok s session tag name raw tls auth : storeOK s ->
  servesWell s (serveStateful s session tag name raw tls auth).1.1.
Proof.
  intros Hs. pose proof (servesWell_refl s Hs) as Hsame. unfold serveStateful. destruct (refuseLiteral tag raw); [done|].
  destruct (_ || _); [done|]. destruct (beqs name _); [done|]. destruct (negb auth); [done|].
  destruct (tokenizeArguments raw) as [e|args]; [done|]. unfold statefulCommand.
  destruct (beqs name ($"LIST")); [done|]. destruct (_ || _).
  { by destruct (statefulSelect s tag name args). }
  destruct (beqs name ($"STATUS")); [done|]. destruct (beqs name ($"UID")); [|by destruct (oneOf _ _)].
  pose proof (statefulUID_ok s session tag args Hs) as H. by destruct (statefulUID s session tag args).
Qed.

(** ** The mutators, and every interleaving *)

Lemma withMailbox_ok s name change s' : storeOK s -> withMailbox s name change = inr s' ->
  (forall mb mb', mailboxOK mb -> change mb = inr mb' -> mailboxOK mb' /\ keepsUIDs mb mb') -> storeOK s' /\ storeKeepsUIDs s s'.
Proof.
  intros Hs. unfold withMailbox. destruct (find s name) as [[i mb]|] eqn:Ef; [|done]. destruct (storeOK_find s _ _ _ Hs Ef) as [Hi Hok].
  destruct (change mb) as [e|mb'] eqn:Ec; [done|]. intros [= <-] H. destruct (H mb mb' Hok Ec) as [H1 H2]. pose proof H2 as [Hn _]. split.
  - by eapply storeOK_set.
  - by eapply storeKeepsUIDs_set.
Qed.

Lemma RemoveMailbox_ok s name s' : storeOK s -> RemoveMailbox s name = inr s' -> storeOK s' /\ storeKeepsUIDs s s'.
Proof.
  intros Hs. unfold RemoveMailbox. destruct (find s name) as [[i mb]|] eqn:Ef; [|done]. intros [= <-]. split.
  - destruct Hs. split; cbn; [by apply Forall_delete|by apply namesOK_delete].
  - intros m Hm. exists m. cbn in Hm. split; [|apply keepsUIDs_refl]. apply list_elem_of_lookup in Hm as [j Hj].
    apply list_elem_of_lookup. destruct (decide (j < i)%nat).
    + rewrite list_lookup_delete_lt in Hj by done. by exists j.
    + rewrite list_lookup_delete_ge in Hj by lia. by exists (S j).
Qed.

(** One step of the fixture: a command on some session, or a test changing it. *)
Inductive fixtureStep : mailboxStore -> mailboxStore -> Prop :=
| StepCommand s session tag name raw tls auth : fixtureStep s (serveStateful s session tag name raw tls auth).1.1
| StepAttributes s name attributes s' : SetMailboxAttributes s name attributes = inr s' -> fixtureStep s s'
| StepValidity s name uidValidity s' : uint32 uidValidity -> ReplaceUIDValidity s name uidValidity = inr s' -> fixtureStep s s'
| StepRemove s name s' : RemoveMailbox s name = inr s' -> fixtureStep s s'.

Lemma fixtureStep_ok s s' : storeOK s -> fixtureStep s s' -> storeOK s' /\ storeKeepsUIDs s s'.
Proof.
  intros Hs H. destruct H as [s session tag name raw tls auth|s name attributes s' H|s name v s' Hv H|s name s' H].
  - destruct (serveStateful_ok s session tag name raw tls auth Hs). done.
  - unfold SetMailboxAttributes in H. destruct (validateAtoms _ _); [done|]. eapply withMailbox_ok; [done|exact H|].
    intros mb mb' Hok [= <-]. split; [by destruct Hok; split|]. split_and!; [done|cbn; lia|]. intros m Hm _. by exists m.
  - eapply withMailbox_ok; [done|exact H|]. intros mb mb' Hok. cbn beta.
    destruct (_ || _) eqn:E; [done|]. intros [= <-]. bool_prop. split; [|split_and!; [done|cbn; lia|intros m Hm _; by exists m]].
    destruct Hok. unfold uint32 in Hv. split; cbn; [done|done|lia|done|done].
  - by eapply RemoveMailbox_ok.
Qed.

Lemma fixture_invariant s s' : storeOK s -> star fixtureStep s s' -> storeOK s' /\ storeKeepsUIDs s s'.
Proof.
  intros Hs H. apply (star_invariant fixtureStep (fun t => storeOK t /\ storeKeepsUIDs s t) s); [|intros a b [Ha Hk] Hab|done].
  - split; [done|reflexivity].
  - destruct (fixtureStep_ok a b Ha Hab). split; [done|by etrans].
Qed.

(** ** Sessions that change nothing *)

Lemma serve_unchanged s session tag name raw tls auth :
  auth = false \/ ssReadOnly session = true \/ ssSelected session = [] \/ name <> $"UID" ->
  (serveStateful s session tag name raw tls auth).1.1 = s.
Proof.
  intros H. unfold serveStateful. destruct (refuseLiteral tag raw); [done|]. destruct (_ || _); [done|]. destruct (beqs name _); [done|].
  destruct (negb auth) eqn:Ea; [done|]. apply negb_false_iff in Ea as ->. destruct (tokenizeArguments raw) as [e|args]; [done|].
  unfold statefulCommand. destruct (beqs name ($"LIST")); [done|]. destruct (_ || _); [by destruct (statefulSelect s tag name args)|].
  destruct (beqs name ($"STATUS")); [done|]. destruct (beqs name ($"UID")) eqn:En; [|by destruct (oneOf _ _)]. apply beqs_eq in En.
  unfold statefulUID. destruct (uidSubcommand _ _ _) as [e|c]; [done|]. destruct (beqs (ssSelected session) []) eqn:Es; [done|].
  destruct (find s _) as [[i mb]|] eqn:Ef; [|done]. destruct H as [|[Hr|[Hn|]]]; [done| |by rewrite Hn in Es|done].
  destruct c; [done|done| |unfold statefulMove; by rewrite Hr]. unfold statefulStore. rewrite Hr. cbn.
  unfold setMailbox. apply findMailbox_lookup in Ef. rewrite list_insert_id by done. by destruct s.
Qed.

(** The session after a command names a mailbox of the store, or it kept the
    selection it had. *)
Lemma serve_session s session tag name raw tls auth : storeOK s ->
  let '(s', session', _) := serveStateful s session tag name raw tls auth in
  session' = session \/ session' = newStatefulSession \/
  exists i mb, storeMailboxes s' !! i = Some mb /\ selectable mb = true /\ find s' (ssSelected session') = Some (i, mb) /\
    ssSelected session' = mbName mb /\ ssReadOnly session' = beqs name ($"EXAMINE").
Proof.
  intros Hs. unfold serveStateful. destruct (refuseLiteral tag raw); [by left|]. destruct (_ || _); [by left|]. destruct (beqs name ($"CAPABILITY")); [by left|].
  destruct (negb auth); [by left|]. destruct (tokenizeArguments raw) as [e|args]; [by left|].
  unfold statefulCommand. destruct (beqs name ($"LIST")); [by left|]. destruct (_ || _).
  - unfold statefulSelect. destruct args as [|a [|]]; [by right; left| |by right; left]. destruct (tokIsList a); [by right; left|].
    destruct (find s (tokValue a)) as [[i mb]|] eqn:Ef; [|by right; left]. destruct (selectable mb) eqn:Esel; [|by right; left].
    right. right. exists i, mb. cbn. apply findMailbox_lookup in Ef. split_and!; [done|done|by apply (storeNames _ Hs)|done|done].
  - destruct (beqs name ($"STATUS")); [by left|]. destruct (beqs name ($"UID")); [|by destruct (oneOf _ _); left].
    destruct (statefulUID s session tag args). by left.
Qed.

(** ** The LIST wildcards *)

Inductive globs : bytes -> bytes -> Prop :=
| GlobNil : globs [] []
| GlobStar p pre s : globs p s -> globs ("*"%byte :: p) (pre ++ s)
| GlobPercent p pre s : ~ In "/"%byte pre -> globs p s -> globs ("%"%byte :: p) (pre ++ s)
| GlobByte c p s : c <> "*"%byte -> c <> "%"%byte -> globs p s -> globs (c :: p) (c :: s).

Lemma globs_star_inv p n : globs ("*"%byte :: p) n -> exists pre s, n = pre ++ s /\ globs p s.
Proof. inversion 1; subst; [eauto|done]. Qed.
Lemma globs_percent_inv p n : globs ("%"%byte :: p) n -> exists pre s, n = pre ++ s /\ ~ In "/"%byte pre /\ globs p s.
Proof. inversion 1; subst; [eauto|done]. Qed.

(** The loop of a wildcard tries every split its guard allows. *)
Lemma wildcard_loop p c0 : (forall n, listPatternMatches p n = true <-> globs p n) -> forall n,
  (fix from (name : bytes) : bool :=
     listPatternMatches p name ||
     match name with
     | [] => false
     | c :: name' => if (c0 =b "%"%byte) && (c =b "/"%byte) then false else from name'
     end) n = true <->
  exists pre s, n = pre ++ s /\ (c0 = "%"%byte -> ~ In "/"%byte pre) /\ globs p s.
Proof.
  intros IH. induction n as [|c n IHn].
  - rewrite orb_false_r, IH. split; [intros H; exists [], []; naive_solver|]. intros ([|] & s & E & _ & H); [by destruct s|done].
  - rewrite orb_true_iff, IH. split.
    + intros [H|H]; [exists [], (c :: n); naive_solver|].
      destruct ((c0 =b _) && _) eqn:E; [done|]. apply IHn in H as (pre & s & -> & Hp & Hg). exists (c :: pre), s.
      split_and!; [done| |done]. intros -> [->|Hi]; [done|by apply Hp].
    + intros ([|x pre] & s & E & Hp & Hg); [left; by cbn in E; subst|]. right. cbn in E. simplify_eq.
      destruct ((c0 =b _) && _) eqn:E.
      * apply andb_true_iff in E as [->%beq_eq ->%beq_eq]. exfalso. apply Hp; [done|by left].
      * apply IHn. exists pre, s. split_and!; [done| |done]. intros H1 H2. apply Hp; [done|by right].
Qed.

Lemma listPatternMatches_globs p : forall n, listPatternMatches p n = true <-> globs p n.
Proof.
  induction p as [|c p IH]; intros n; cbn [listPatternMatches].
  { destruct n; split; intros H; try done; [constructor|inversion H]. }
  destruct ((c =b "*"%byte) || (c =b "%"%byte)) eqn:E.
  - rewrite (wildcard_loop p c IH). split.
    + intros (pre & s & -> & Hp & Hg). apply orb_true_iff in E as [->%beq_eq| ->%beq_eq]; constructor; auto.
    + apply orb_true_iff in E as [->%beq_eq| ->%beq_eq].
      * intros (pre & s & -> & Hg)%globs_star_inv. by exists pre, s.
      * intros (pre & s & -> & Hp & Hg)%globs_percent_inv. by exists pre, s.
  - apply orb_false_iff in E as [E1%beq_neq E2%beq_neq]. destruct n as [|d n].
    + split; [done|]. inversion 1; done.
    + rewrite andb_true_iff, beq_eq, IH. split; [intros [-> H]; by constructor|]. inversion 1; subst; done.
Qed.

(** ** STORE and MOVE of a list of UIDs *)

Definition validUIDs (uids : list Z) : Prop := uids <> [] /\ Forall (fun u => 1 <= u <= MaxUint32) uids.

Definition markSeen (seen : bool) (uids : list Z) (mb : statefulMailbox) : statefulMailbox :=
  mb <| mbMessages := map (fun m => if bool_decide (msUID m ∈ uids) then setSeen seen m else m) (mbMessages mb) |>.

Lemma storeMessages_uids seen uids l : storeMessages (map (fun u => (u, u)) uids) seen l =
  map (fun m => if bool_decide (msUID m ∈ uids) then setSeen seen m else m) l.
Proof. unfold storeMessages. apply map_ext. intros m. by rewrite uidInRanges_single. Qed.

(** A silent STORE marks exactly the messages whose UIDs it names. *)
Lemma store_marks s session tag i mb uids (seen : bool) : find s (ssSelected session) = Some (i, mb) ->
  ssSelected session <> [] -> ssReadOnly session = false -> validUIDs uids ->
  statefulUID s session tag [Atom ($"STORE"); Atom (uidSetText uids);
    Atom (if seen then $"+FLAGS.SILENT" else $"-FLAGS.SILENT"); Parens [Atom ($"\Seen")]] =
  (setMailbox s i (markSeen seen uids mb), [tagged tag ($"OK STORE completed")]).
Proof.
  intros Hf Hn Hr [Hne Hu]. unfold statefulUID. cbn [uidSubcommand tokIsList tokQuoted tokValue orb]. 
  change (to_upper ($"STORE")) with ($"STORE"). cbn -[find setMailbox statefulStore beqs statefulFetch statefulSearch drop].
  destruct (beqs (ssSelected session) []) eqn:E; [by apply beqs_eq in E|]. clear E. rewrite Hf. cbn -[find setMailbox statefulStore].
  unfold statefulStore. rewrite Hr. cbn -[parseUIDSet storeOperation storeFlagsSeen setMailbox storeMessages].
  rewrite parse_uidSetText by done.
  match goal with |- context [storeOperation ?x] => replace (storeOperation x) with (@inr bytes _ (seen, true)) by (by destruct seen) end.
  match goal with |- context [storeFlagsSeen ?x] => change (storeFlagsSeen x) with true end. cbn -[setMailbox storeMessages].
  by rewrite storeMessages_uids.
Qed.

(** A MOVE takes the named messages out of the selected mailbox and appends
    them to the destination under its next UIDs, or changes nothing. *)
Definition movedBy (uids : list Z) (l : list statefulMessage) : list statefulMessage :=
  List.filter (fun m => bool_decide (msUID m ∈ uids)) l.
Definition leftBy (uids : list Z) (l : list statefulMessage) : list statefulMessage :=
  List.filter (fun m => negb (bool_decide (msUID m ∈ uids))) l.

Lemma filter_ext' {A} (f g : A -> bool) l : (forall x, f x = g x) -> List.filter f l = List.filter g l.
Proof. intros H. induction l as [|x l IH]; cbn; [done|]. by rewrite H, IH. Qed.

Lemma allocate_seq msgs : forall n, 0 < n -> n + zlen msgs <= MaxUint32 ->
  map msUID (allocate n msgs) = map (fun i => n + Z.of_nat i) (seq 0 (length msgs)).
Proof.
  induction msgs as [|m msgs IH]; intros n Hn Hm; cbn [allocate map length seq]; [done|]. rewrite zlen_cons in Hm. pose proof (zlen_nonneg msgs).
  rewrite u32_small by lia. f_equal; [cbn; lia|]. rewrite IH by lia. rewrite <- seq_shift, map_map. apply map_ext. intros i. lia.
Qed.

Lemma move_moves s session tag i j source destination name uids : storeOK s -> storeMove s = true ->
  find s (ssSelected session) = Some (i, source) -> ssSelected session <> [] -> ssReadOnly session = false ->
  find s name = Some (j, destination) -> selectable destination = true -> i <> j -> validUIDs uids ->
  let moved := movedBy uids (mbMessages source) in
  mbUIDNext destination + zlen moved <= MaxUint32 ->
  (statefulUID s session tag [Atom ($"MOVE"); Atom (uidSetText uids); Quoted name]).1 =
    setMailbox (setMailbox s j (moveDestination moved destination)) i
      (source <| mbMessages := leftBy uids (mbMessages source) |> <| mbMade := true |>).
Proof.
  intros Hok Hmove Hf Hn Hr Hd Hsel Hij [Hne Hu] moved Hmax. unfold statefulUID. cbn [uidSubcommand tokIsList tokQuoted tokValue orb].
  change (to_upper ($"MOVE")) with ($"MOVE"). rewrite Hmove. cbn -[find setMailbox statefulMove beqs statefulFetch statefulSearch drop].
  change (beqs ($"MOVE") ($"FETCH")) with false. change (beqs ($"MOVE") ($"SEARCH")) with false.
  change (beqs ($"MOVE") ($"STORE")) with false. change (beqs ($"MOVE") ($"MOVE")) with true. cbv iota.
  destruct (beqs (ssSelected session) []) eqn:E; [by apply beqs_eq in E|]. clear E. rewrite Hf. cbn -[find setMailbox statefulMove].
  unfold statefulMove. rewrite Hr. cbn -[find parseUIDSet setMailbox]. rewrite parse_uidSetText, Hd, Hsel by done.
  destruct (j =? i)%nat eqn:Eij; [apply Nat.eqb_eq in Eij; congruence|].
  assert (Em : moving (map (fun u => (u, u)) uids) (mbMessages source) = moved).
  { unfold moving, moved, movedBy. apply filter_ext'. intros m. by rewrite uidInRanges_single. }
  assert (Es : staying (map (fun u => (u, u)) uids) (mbMessages source) = leftBy uids (mbMessages source)).
  { unfold staying, leftBy. apply filter_ext'. intros m. by rewrite uidInRanges_single. }
  rewrite Em, Es. destruct (storeOK_find s _ _ _ Hok Hd) as [_ Hdok]. pose proof (uidsBetween_lt _ _ _ (mbUIDs _ Hdok)).
  pose proof (zlen_nonneg moved). rewrite u64_small by (unfold MaxUint32 in Hmax; lia).
  destruct (MaxUint32 <? _) eqn:Elim; [apply Z.ltb_lt in Elim; lia|]. done.
Qed.

(** ** The properties *)

(** A concrete fixture: an inbox of two messages and an archive. *)
Definition sampleOptions : StatefulOptions := mkStatefulOptions
  [ mkMailboxSeed ($"INBOX") [] 0 [mkMessageSeed 7 [$"\Flagged"] ($"one"); mkMessageSeed 0 [$"\Seen"] ($"two")];
    mkMailboxSeed ($"Archive") [$"\Archive"] 9 [] ] true.
Definition sampleStore : mailboxStore := mkStore true
  [ mkMailbox ($"INBOX") [] 1001 9 [mkMessage 7 [$"\Flagged"] ($"one"); mkMessage 8 [$"\Seen"] ($"two")] true;
    mkMailbox ($"Archive") [$"\Archive"] 9 1 [] false ].

Example sample_store : newMailboxStore sampleOptions = inr sampleStore.
Proof. vm_compute. reflexivity. Qed.

Lemma sample_ok : storeOK sampleStore.
Proof.
  apply (newMailboxStore_ok sampleOptions); [cbn; unfold MaxUint32; lia| |apply sample_store].
  repeat constructor; cbn; unfold uint32, MaxUint32; lia.
Qed.

(** The fixture is sound under every interleaving.  From a store built of
    32-bit seeds, after any commands on any sessions mixed with the test's own
    changes of attributes, generations and mailboxes, UIDs strictly increase
    below a nonzero 32-bit UIDNEXT in every mailbox, every mailbox is the one
    its name finds, and no UID was reused: a UID allocated at the start still
    denotes the message it denoted (up to its Seen flag), or none. *)
Theorem fixture_sound options s s' : Z.of_nat (length (soMailboxes options)) < MaxUint32 - 1001 ->
  Forall seedOK (soMailboxes options) -> newMailboxStore options = inr s -> star fixtureStep s s' ->
  storeOK s' /\ storeKeepsUIDs s s'.
Proof. intros Hl Hs Hn. apply fixture_invariant. by eapply newMailboxStore_ok. Qed.

Lemma fixture_sound_witness :
  let s' := (serveStateful sampleStore (mkStatefulSession ($"INBOX") false) ($"a") ($"UID") ($"a UID MOVE 7 Archive") true true).1.1 in
  storeOK s' /\ storeKeepsUIDs sampleStore s'.
Proof.
  cbv zeta. refine (fixture_sound sampleOptions sampleStore _ _ _ _ _); [vm_compute; reflexivity| |apply sample_store|].
  - repeat constructor; vm_compute; discriminate.
  - eapply star_snoc; [apply star_refl|apply StepCommand].
Defined.

(** No command loses, duplicates or alters a message.  Whatever the bytes
    of the command and the session, the messages of the whole store, each with
    its flags other than Seen and its body, are the same afterwards up to their
    order, and the mailboxes keep their names and order. *)
Theorem commands_conserve_messages s session tag name raw tls auth : storeOK s ->
  let s' := (serveStateful s session tag name raw tls auth).1.1 in
  storeContents s' ≡ₚ storeContents s /\ map mbName (storeMailboxes s') = map mbName (storeMailboxes s).
Proof. intros Hs s'. destruct (serveStateful_ok s session tag name raw tls auth Hs). done. Qed.

Lemma commands_conserve_messages_witness :
  let s' := (serveStateful sampleStore (mkStatefulSession ($"INBOX") false) ($"a") ($"UID") ($"a UID MOVE 7 Archive") true true).1.1 in
  s' <> sampleStore /\ storeContents s' ≡ₚ storeContents sampleStore.
Proof.
  split; [vm_compute; discriminate|]. exact (proj1 (commands_conserve_messages sampleStore (mkStatefulSession ($"INBOX") false) ($"a") ($"UID")
    ($"a UID MOVE 7 Archive") true true sample_ok)).
Defined.

(** A session that is not authenticated, was opened with EXAMINE or has
    selected nothing, and any command but UID, leaves the store as it is. *)
Theorem readonly_changes_nothing s session tag name raw tls auth :
  auth = false \/ ssReadOnly session = true \/ ssSelected session = [] \/ name <> $"UID" ->
  (serveStateful s session tag name raw tls auth).1.1 = s.
Proof. apply serve_unchanged. Qed.

Lemma readonly_changes_nothing_witness :
  (serveStateful sampleStore (mkStatefulSession ($"INBOX") true) ($"a") ($"UID") ($"a UID STORE 7 +FLAGS (\Seen)") true true).1.1 = sampleStore.
Proof. apply (readonly_changes_nothing sampleStore (mkStatefulSession ($"INBOX") true)). right. left. reflexivity. Defined.

(** The LIST wildcards are matched as their grammar says: [*] stands for
    any bytes, [%] for any bytes but the hierarchy delimiter, any other byte
    for itself, and the whole name must match. *)
Theorem list_pattern_spec p n : listPatternMatches p n = true <-> globs p n.
Proof. apply listPatternMatches_globs. Qed.
