(* ===== verification/Transcript.v ===== *)
(** * Recorded commands

    The exact grammar the tests read their transcripts with
    ([transcript.go]): a cursor over one recorded command, the structured
    operands of STORE, COPY, MOVE and UID EXPUNGE, and the sequence sets. *)
From Stdlib Require Import ZArith Lia Strings.Byte.
From stdpp Require Import base list gmap strings.
From S2P Require Import Prelude GoStrings GoText ImapTokens MessageID.

(** One client command a server recorded ([server.go]). *)
Record Command := mkCommand { cmdSequence : Z; cmdConnectionID : Z; cmdRaw : bytes; cmdName : bytes; cmdTLS : bool }.

(** One element of a set as sent; 0 stands for [*]. *)
Record SetRange := mkSetRange { rangeStart : Z; rangeStop : Z }.

Record TranscriptCommand := mkTranscript {
  tcSequence : Z; tcConnectionID : Z; tcTLS : bool; tcTag : bytes; tcVerb : bytes; tcArguments : bytes;
  tcSet : bytes; tcRanges : list SetRange; tcStore : bytes; tcSilent : bool; tcFlags : list bytes; tcDestination : bytes }.

#[export] Instance eta_transcript : Eta TranscriptCommand := fun p =>
  mkTranscript (tcSequence p) (tcConnectionID p) (tcTLS p) (tcTag p) (tcVerb p) (tcArguments p)
    (tcSet p) (tcRanges p) (tcStore p) (tcSilent p) (tcFlags p) (tcDestination p).

Inductive transcriptError :=
| ControlCharacter | MissingTag | MissingCommand | MissingName | MissingSubcommand | CommandSeparator
| EmptySet | MalformedSet | MissingOperand | StoreOperation | MissingFlags | FlagSeparator | MissingFlag
| MissingMailboxOperand | QuotedEscape | UnterminatedMailbox | TrailingOperands.

(** ** Character classes *)

Definition isAtomChar (c : byte) : bool :=
  (32 <? bZ c) && (bZ c <? 127) && negb (contains_byte c ($"(){%*" ++ [dquote; backslash] ++ $"]")).
Definition isAstringChar (c : byte) : bool := isAtomChar c || (c =b "]"%byte).
Definition isTagChar (c : byte) : bool := isAstringChar c && negb (c =b "+"%byte).
Definition isSequenceSetChar (c : byte) : bool :=
  is_digit c || (c =b ":"%byte) || (c =b ","%byte) || (c =b "*"%byte).

(** ** The cursor: the rest of the input *)

(** [cursor.run]: the longest run of allowed bytes, and the rest. *)
Fixpoint run (allowed : byte -> bool) (s : bytes) : bytes * bytes :=
  match s with
  | c :: s' => if allowed c then let '(r, rest) := run allowed s' in (c :: r, rest) else ([], s)
  | [] => ([], [])
  end.

(** [cursor.consume]. *)
Definition consume (c : byte) (s : bytes) : option bytes :=
  match s with d :: s' => if d =b c then Some s' else None | [] => None end.

(** [cursor.flag]: an atom, or a backslash and an atom; empty when neither. *)
Definition flag (s : bytes) : bytes * bytes :=
  let '(slash, body) := match consume backslash s with Some s' => ([backslash], s') | None => ([], s) end in
  let '(atom, rest) := run isAtomChar body in
  match atom with [] => ([], s) | _ => (slash ++ atom, rest) end.

(** ** Sequence sets *)

Definition parseSequenceNumber (text : bytes) : option Z :=
  if beqs text ($"*") then Some 0
  else match text with
  | c :: _ => if (49 <=? bZ c) && (bZ c <=? 57) then parse_uint text 32 else None
  | [] => None
  end.

Definition parseSetElement (element : bytes) : option SetRange :=
  let '(startText, stopText, isRange) := cut_byte ":"%byte element in
  let stopText := if isRange then stopText else startText in
  match parseSequenceNumber startText, parseSequenceNumber stopText with
  | Some start, Some stop => Some (mkSetRange start stop)
  | _, _ => None
  end.

Fixpoint parseSetElements (elements : list bytes) : option (list SetRange) :=
  match elements with
  | [] => Some []
  | e :: es =>
      match parseSetElement e with
      | Some r => match parseSetElements es with Some rs => Some (r :: rs) | None => None end
      | None => None
      end
  end.

Definition parseSequenceSet (text : bytes) : transcriptError + list SetRange :=
  match text with
  | [] => inl EmptySet
  | _ => match parseSetElements (split_byte ","%byte text) with Some rs => inr rs | None => inl MalformedSet end
  end.

(** ** Operands *)

Definition parseSetOperand (parsed : TranscriptCommand) (s : bytes) : transcriptError + TranscriptCommand * bytes :=
  let '(set, rest) := run isSequenceSetChar s in
  match parseSequenceSet set with
  | inl e => inl e
  | inr ranges => inr (parsed <| tcSet := set |> <| tcRanges := ranges |>, rest)
  end.

Definition parseSet (parsed : TranscriptCommand) (s : bytes) : transcriptError + TranscriptCommand * bytes :=
  match parseSetOperand parsed s with
  | inl e => inl e
  | inr (parsed, rest) => match consume " "%byte rest with Some rest => inr (parsed, rest) | None => inl MissingOperand end
  end.

(** The loop over the flags, one flag a round; [flags] are those read.  Fuel
    one above the length of the input is enough, a flag being not empty. *)
Fixpoint parseFlags (fuel : nat) (parenthesized : bool) (flags : list bytes) (s : bytes) :
    option (transcriptError + list bytes * bytes) :=
  match fuel with
  | O => None
  | S fuel =>
      match (if parenthesized then consume ")"%byte s else None) with
      | Some rest => Some (inr (flags, rest))
      | None =>
          match (match flags with [] => Some s | _ => consume " "%byte s end) with
          | None => Some (inl FlagSeparator)
          | Some s =>
              let '(f, rest) := flag s in
              match f, rest with
              | [], _ => Some (inl MissingFlag)
              | _, [] => if parenthesized then parseFlags fuel parenthesized (flags ++ [f]) rest else Some (inr (flags ++ [f], rest))
              | _, _ => parseFlags fuel parenthesized (flags ++ [f]) rest
              end
          end
      end
  end.

Definition parseStore (parsed : TranscriptCommand) (s : bytes) : transcriptError + TranscriptCommand * bytes :=
  match parseSet parsed s with
  | inl e => inl e
  | inr (parsed, rest) =>
      let '(operation, rest) := run isAtomChar rest in
      let '(store, silent) := cut_suffix (to_upper operation) ($".SILENT") in
      let parsed := parsed <| tcStore := store |> <| tcSilent := silent |> in
      if negb (beqs store ($"FLAGS") || beqs store ($"+FLAGS") || beqs store ($"-FLAGS")) then inl StoreOperation
      else match consume " "%byte rest with
      | None | Some [] => inl MissingFlags
      | Some rest =>
          let '(parenthesized, rest) := match consume "("%byte rest with Some rest => (true, rest) | None => (false, rest) end in
          match parseFlags (S (length rest)) parenthesized [] rest with
          | Some (inr (flags, rest)) => inr (parsed <| tcFlags := flags |>, rest)
          | Some (inl e) => inl e
          | None => inl MissingFlag
          end
      end
  end.

(** The quoted mailbox name, decoded. *)
Fixpoint quotedMailbox (acc s : bytes) : transcriptError + bytes * bytes :=
  match s with
  | [] => inl UnterminatedMailbox
  | c :: s =>
      if c =b dquote then inr (acc, s)
      else if c =b backslash then
        match s with
        | d :: s => if (d =b dquote) || (d =b backslash) then quotedMailbox (acc ++ [d]) s else inl QuotedEscape
        | [] => inl QuotedEscape
        end
      else quotedMailbox (acc ++ [c]) s
  end.

Definition parseTransfer (parsed : TranscriptCommand) (s : bytes) : transcriptError + TranscriptCommand * bytes :=
  match parseSet parsed s with
  | inl e => inl e
  | inr (parsed, rest) =>
      match consume dquote rest with
      | None =>
          let '(destination, rest) := run isAstringChar rest in
          match destination with [] => inl MissingMailboxOperand | _ => inr (parsed <| tcDestination := destination |>, rest) end
      | Some rest =>
          match quotedMailbox [] rest with
          | inl e => inl e
          | inr (destination, rest) => inr (parsed <| tcDestination := destination |>, rest)
          end
      end
  end.

(** ** The command *)

Definition controlByte (c : byte) : bool := (bZ c <? 32) || (bZ c =? 127).

(** The verb, uppercase, with the subcommand of a UID form. *)
Definition parseVerb (s : bytes) : transcriptError + bytes * bytes :=
  let '(name, rest) := run isAtomChar s in
  let verb := to_upper name in
  match verb with
  | [] => inl MissingName
  | _ =>
      if beqs verb ($"UID") then
        let '(subcommand, rest) := match consume " "%byte rest with Some rest => run isAtomChar rest | None => ([], rest) end in
        match to_upper subcommand with
        | [] => inl MissingSubcommand
        | sub => inr (verb ++ $" " ++ sub, rest)
        end
      else inr (verb, rest)
  end.

(** The text after the verb, where the operands are read: [None] when the
    separator is wrong. *)
Definition argumentsOf (s : bytes) : option bytes :=
  match s with
  | [] => Some []
  | _ => match consume " "%byte s with Some (c :: s) => Some (c :: s) | _ => None end
  end.

(** The structured operands of a verb, and what they leave unread. *)
Definition parseOperands (parsed : TranscriptCommand) (s : bytes) : option (transcriptError + TranscriptCommand * bytes) :=
  let verb := tcVerb parsed in
  if beqs verb ($"STORE") || beqs verb ($"UID STORE") then Some (parseStore parsed s)
  else if beqs verb ($"COPY") || beqs verb ($"UID COPY") || beqs verb ($"MOVE") || beqs verb ($"UID MOVE") then Some (parseTransfer parsed s)
  else if beqs verb ($"UID EXPUNGE") then Some (parseSetOperand parsed s)
  else None.

Definition ParseTranscriptCommand (command : Command) : transcriptError + TranscriptCommand :=
  if existsb controlByte (cmdRaw command) then inl ControlCharacter else
  let '(tag, rest) := run isTagChar (cmdRaw command) in
  match tag with
  | [] => inl MissingTag
  | _ =>
  match consume " "%byte rest with
  | None => inl MissingCommand
  | Some rest =>
  match parseVerb rest with
  | inl e => inl e
  | inr (verb, rest) =>
  match argumentsOf rest with
  | None => inl CommandSeparator
  | Some arguments =>
      let parsed := mkTranscript (cmdSequence command) (cmdConnectionID command) (cmdTLS command) tag verb arguments
                      [] [] [] false [] [] in
      match parseOperands parsed arguments with
      | None => inr parsed
      | Some (inl e) => inl e
      | Some (inr (parsed, [])) => inr parsed
      | Some (inr (_, _ :: _)) => inl TrailingOperands
      end
  end end end end.

(** [ParseTranscript]: the first malformed command stops it. *)
Fixpoint ParseTranscript (commands : list Command) : Z * transcriptError + list TranscriptCommand :=
  match commands with
  | [] => inr []
  | c :: cs =>
      match ParseTranscriptCommand c with
      | inl e => inl (cmdSequence c, e)
      | inr p => match ParseTranscript cs with inl e => inl e | inr ps => inr (p :: ps) end
      end
  end.

(** * The transcript grammar agrees with the servers' parser

    What [ParseTranscriptCommand] accepts is the text it was read from; on the
    structured UID commands it reads the operands the fixture servers read
    ([tokenizeArguments], [parseUIDSet]), brackets in unquoted names apart. *)

(** ** The cursor *)

Lemma run_split allowed s r rest : run allowed s = (r, rest) -> s = r ++ rest /\ Forall (fun c => allowed c = true) r.
Proof.
  revert r. induction s as [|c s IH]; intros r; cbn; [by intros [= <- <-]|]. destruct (allowed c) eqn:E; [|by intros [= <- <-]].
  destruct (run allowed s) as [r' rest'] eqn:F. intros [= <- <-]. destruct (IH r' eq_refl) as [-> ?]. split; [done|]. by constructor.
Qed.

Lemma consume_Some c s rest : consume c s = Some rest -> s = c :: rest.
Proof. destruct s as [|d s]; cbn; [done|]. destruct (d =b c) eqn:E; [|done]. intros [= <-]. apply beq_eq in E. by subst. Qed.

Lemma quotedMailbox_escape s : forall acc d rest, quotedMailbox acc s = inr (d, rest) ->
  exists d', d = acc ++ d' /\ s = escapeQuoted d' ++ dquote :: rest.
Proof.
  induction s as [s IH] using (induction_ltof1 _ (@length byte)). unfold ltof in IH.
  intros acc d rest. destruct s as [|c s]; cbn; [done|]. destruct (c =b dquote) eqn:Eq.
  { intros [= <- <-]. apply beq_eq in Eq as ->. exists []. by rewrite app_nil_r. }
  destruct (c =b backslash) eqn:Eb.
  - destruct s as [|e s]; [done|]. destruct ((e =b dquote) || (e =b backslash)) eqn:Ee; [|done]. intros H.
    apply IH in H as (d' & -> & ->); [|cbn; lia]. exists (e :: d'). rewrite <- app_assoc. split; [done|]. apply beq_eq in Eb as ->.
    cbn [escapeQuoted]. by rewrite Ee.
  - intros H. apply IH in H as (d' & -> & ->); [|cbn; lia]. exists (c :: d'). rewrite <- app_assoc. split; [done|].
    cbn [escapeQuoted]. by rewrite Eq, Eb.
Qed.

Lemma flag_split s f rest : flag s = (f, rest) -> s = f ++ rest /\
  (f = [] \/ exists atom, atom <> [] /\ Forall (fun c => isAtomChar c = true) atom /\ (f = atom \/ f = backslash :: atom)).
Proof.
  unfold flag. destruct (consume backslash s) as [s'|] eqn:E.
  - apply consume_Some in E as ->. destruct (run isAtomChar s') as [atom r] eqn:F. apply run_split in F as [-> Ha].
    destruct atom as [|c atom]; intros [= <- <-]; [split; [done|by left]|]. split; [done|]. right. exists (c :: atom). auto.
  - destruct (run isAtomChar s) as [atom r] eqn:F. apply run_split in F as [-> Ha].
    destruct atom as [|c atom]; intros [= <- <-]; [split; [done|by left]|]. split; [done|]. right. exists (c :: atom). auto.
Qed.

(** The loop over the flags returns. *)
Lemma parseFlags_returns fuel : forall p flags s, (length s < fuel)%nat -> parseFlags fuel p flags s <> None.
Proof.
  induction fuel as [|fuel IH]; intros p flags s Hf; [lia|]. cbn.
  destruct (if p then consume _ s else None); [done|].
  destruct (match flags with [] => Some s | _ => consume _ s end) as [t|] eqn:E; [|done].
  assert (Hl : (length t <= length s)%nat).
  { destruct flags; [by injection E as ->|]. apply consume_Some in E as ->. cbn. lia. }
  destruct (flag t) as [f rest] eqn:F. apply flag_split in F as [-> _]. destruct f as [|c f]; [done|].
  rewrite length_app in Hl. cbn in Hl. destruct rest as [|d rest]; [destruct p; [apply IH; cbn; lia|done]|]. apply IH. lia.
Qed.

(** ** What the flags were read from *)

Definition flagsText (parenthesized : bool) (flags : list bytes) : bytes :=
  if parenthesized then "("%byte :: join_byte " "%byte flags ++ [")"%byte] else join_byte " "%byte flags.

Lemma join_byte_snoc c parts p : parts <> [] -> join_byte c (parts ++ [p]) = join_byte c parts ++ c :: p.
Proof.
  induction parts as [|q [|r parts] IH]; intros Hn; [done|done|]. cbn [app].
  change (join_byte c (q :: r :: parts ++ [p])) with (q ++ c :: join_byte c ((r :: parts) ++ [p])). rewrite IH by done.
  change (join_byte c (q :: r :: parts)) with (q ++ c :: join_byte c (r :: parts)). by rewrite <- app_assoc.
Qed.

(** An atom, or a backslash and an atom. *)
Definition flagShape (f : bytes) : Prop :=
  exists atom, atom <> [] /\ Forall (fun c => isAtomChar c = true) atom /\ (f = atom \/ f = backslash :: atom).

Lemma parseFlags_text fuel : forall (p : bool) flags s flags' rest, parseFlags fuel p flags s = Some (inr (flags', rest)) ->
  Forall flagShape flags ->
  join_byte " "%byte flags ++ s = join_byte " "%byte flags' ++ (if p then ")"%byte :: rest else rest) /\
  (p = false -> flags' <> []) /\ Forall flagShape flags'.
Proof.
  induction fuel as [|fuel IH]; intros p flags s flags' rest; cbn; [done|].
  destruct (if p then consume ")"%byte s else None) as [r|] eqn:Ec.
  { intros [= <- <-]. destruct p; [|done]. apply consume_Some in Ec as ->. done. }
  destruct (match flags with [] => Some s | _ => consume _ s end) as [t|] eqn:E; [|done].
  destruct (flag t) as [f r] eqn:F. apply flag_split in F as [-> [->|Hshape]]; [done|]. destruct f as [|c f]; [done|].
  assert (Hs : join_byte " "%byte flags ++ s = join_byte " "%byte (flags ++ [c :: f]) ++ r).
  { destruct flags as [|g flags]; [by simplify_eq/=|]. apply consume_Some in E as ->. rewrite join_byte_snoc by done. by rewrite <- app_assoc. }
  rewrite Hs. intros H Hf. assert (Hf' : Forall flagShape (flags ++ [c :: f])) by (apply Forall_app; split; [done|by constructor]).
  destruct r as [|d r]; [destruct p; [exact (IH _ _ _ _ _ H Hf')|]|exact (IH _ _ _ _ _ H Hf')]. injection H as <- <-. split_and!; [done| |done].
  intros _. by destruct flags.
Qed.

(** The text of the operands of a structured verb, as parsed. *)
Inductive operandText (p : TranscriptCommand) : bytes -> Prop :=
| SetOnly : tcVerb p = $"UID EXPUNGE" -> operandText p (tcSet p)
| StoreOperand operation parenthesized :
    (tcVerb p = $"STORE" \/ tcVerb p = $"UID STORE") -> Forall (fun c => isAtomChar c = true) operation ->
    to_upper operation = tcStore p ++ (if tcSilent p then $".SILENT" else []) ->
    Forall flagShape (tcFlags p) -> (parenthesized = false -> tcFlags p <> []) -> operation <> [] ->
    (tcStore p = $"FLAGS" \/ tcStore p = $"+FLAGS" \/ tcStore p = $"-FLAGS") ->
    operandText p (tcSet p ++ " "%byte :: operation ++ " "%byte :: flagsText parenthesized (tcFlags p))
| PlainMailbox : (tcVerb p = $"COPY" \/ tcVerb p = $"UID COPY" \/ tcVerb p = $"MOVE" \/ tcVerb p = $"UID MOVE") ->
    Forall (fun c => isAstringChar c = true) (tcDestination p) -> tcDestination p <> [] ->
    operandText p (tcSet p ++ " "%byte :: tcDestination p)
| QuotedMailbox : (tcVerb p = $"COPY" \/ tcVerb p = $"UID COPY" \/ tcVerb p = $"MOVE" \/ tcVerb p = $"UID MOVE") ->
    operandText p (tcSet p ++ " "%byte :: printToken (Quoted (tcDestination p))).

Lemma parseSetOperand_text p s p' rest : parseSetOperand p s = inr (p', rest) ->
  s = tcSet p' ++ rest /\ parseSequenceSet (tcSet p') = inr (tcRanges p') /\
  Forall (fun c => isSequenceSetChar c = true) (tcSet p') /\ p' = p <| tcSet := tcSet p' |> <| tcRanges := tcRanges p' |>.
Proof.
  unfold parseSetOperand. destruct (run isSequenceSetChar s) as [set r] eqn:E. apply run_split in E as [-> H].
  destruct (parseSequenceSet set) as [e|ranges] eqn:F; [done|]. intros [= <- <-]. done.
Qed.

Lemma parseSet_text p s p' rest : parseSet p s = inr (p', rest) ->
  s = tcSet p' ++ " "%byte :: rest /\ parseSequenceSet (tcSet p') = inr (tcRanges p') /\
  Forall (fun c => isSequenceSetChar c = true) (tcSet p') /\ p' = p <| tcSet := tcSet p' |> <| tcRanges := tcRanges p' |>.
Proof.
  unfold parseSet. destruct (parseSetOperand p s) as [e|[q r]] eqn:E; [done|]. apply parseSetOperand_text in E as (-> & H).
  destruct (consume _ r) as [r'|] eqn:F; [|done]. intros [= <- <-]. apply consume_Some in F as ->. done.
Qed.

Lemma cut_suffix_false s t r : cut_suffix s t = (r, false) -> r = s.
Proof. unfold cut_suffix. destruct (has_suffix s t); [done|]. by intros [= <-]. Qed.

(** What a structured command keeps of its header. *)
Definition sameHeader (p q : TranscriptCommand) : Prop :=
  tcTag p = tcTag q /\ tcVerb p = tcVerb q /\ tcArguments p = tcArguments q.

Lemma parseStore_text p s p' : (tcVerb p = $"STORE" \/ tcVerb p = $"UID STORE") -> parseStore p s = inr (p', []) ->
  operandText p' s /\ parseSequenceSet (tcSet p') = inr (tcRanges p') /\ Forall (fun c => isSequenceSetChar c = true) (tcSet p') /\ sameHeader p p'.
Proof.
  intros Hv. unfold parseStore. destruct (parseSet p s) as [e|[q r]] eqn:E; [done|]. apply parseSet_text in E as (-> & Hr & Hs & Hq).
  assert (Hh : sameHeader p q) by (by rewrite Hq).
  destruct (run isAtomChar r) as [operation r1] eqn:Eo. apply run_split in Eo as [-> Ho].
  destruct (cut_suffix (to_upper operation) _) as [store silent] eqn:Ec.
  destruct (negb _) eqn:En; [done|].
  assert (Hop : operation <> []) by (intros ->; by injection Ec as <- <-).
  destruct (consume " "%byte r1) as [[|c r2]|] eqn:E2; [done| |done]. apply consume_Some in E2 as ->.
  destruct (match consume "("%byte (c :: r2) with Some _ => _ | None => _ end) as [par r3] eqn:E3.
  destruct (parseFlags _ par [] r3) as [[e|[flags r4]]|] eqn:E4; [done| |done]. intros [= <- ->].
  apply parseFlags_text in E4 as (E4 & Hne & Hshape); [|constructor]. cbn [join_byte app] in E4.
  assert (Hu : to_upper operation = store ++ (if silent then $".SILENT" else [])).
  { destruct silent; [by apply cut_suffix_true in Ec|]. apply cut_suffix_false in Ec as ->. by rewrite app_nil_r. }
  assert (Ht : c :: r2 = flagsText par flags).
  { destruct (consume "("%byte (c :: r2)) as [r'|] eqn:Ep; injection E3 as <- <-.
    - apply consume_Some in Ep as ->. subst r'. done.
    - by rewrite app_nil_r in E4. }
  split_and!; [|done|done|done]. rewrite Ht.
  refine (StoreOperand (q <| tcStore := store |> <| tcSilent := silent |> <| tcFlags := flags |>) operation par _ Ho Hu Hshape Hne Hop _).
  2:{ apply negb_false_iff in En. cbn. repeat (apply orb_true_iff in En as [En|En]); apply beqs_eq in En; auto. }
  destruct Hh as (_ & Hq' & _). rewrite Hq' in Hv. exact Hv.
Qed.

Lemma parseTransfer_text p s p' : (tcVerb p = $"COPY" \/ tcVerb p = $"UID COPY" \/ tcVerb p = $"MOVE" \/ tcVerb p = $"UID MOVE") ->
  parseTransfer p s = inr (p', []) ->
  operandText p' s /\ parseSequenceSet (tcSet p') = inr (tcRanges p') /\ Forall (fun c => isSequenceSetChar c = true) (tcSet p') /\ sameHeader p p'.
Proof.
  intros Hv. unfold parseTransfer. destruct (parseSet p s) as [e|[q r]] eqn:E; [done|]. apply parseSet_text in E as (-> & Hr & Hs & Hq).
  assert (Hh : sameHeader p q) by (by rewrite Hq). pose proof Hh as (_ & Hq' & _). rewrite Hq' in Hv.
  destruct (consume dquote r) as [r1|] eqn:Ec.
  - apply consume_Some in Ec as ->. destruct (quotedMailbox [] r1) as [e|[d r2]] eqn:Em; [done|]. intros [= <- ->].
    apply quotedMailbox_escape in Em as (d' & Ed & ->). cbn in Ed. subst d'. split_and!; [|done|done|done].
    set (q' := q <| tcDestination := d |>). exact (QuotedMailbox q' Hv).
  - destruct (run isAstringChar r) as [d r2] eqn:Ed. apply run_split in Ed as [-> Ha]. destruct d as [|c d]; [done|]. intros [= <- ->].
    rewrite app_nil_r. split_and!; [|done|done|done]. set (q' := q <| tcDestination := c :: d |>). by apply (PlainMailbox q').
Qed.

Lemma parseSetOperand_whole p s p' : tcVerb p = $"UID EXPUNGE" -> parseSetOperand p s = inr (p', []) ->
  operandText p' s /\ parseSequenceSet (tcSet p') = inr (tcRanges p') /\ Forall (fun c => isSequenceSetChar c = true) (tcSet p') /\ sameHeader p p'.
Proof.
  intros Hv H. apply parseSetOperand_text in H as (-> & Hr & Hs & Hq). rewrite app_nil_r.
  split_and!; [|done|done|by rewrite Hq]. apply SetOnly. by rewrite Hq.
Qed.

(** A command that parses is its tag, its verb and its operands, single
    spaces between them. *)
Lemma parseVerb_text s verb rest : parseVerb s = inr (verb, rest) ->
  exists name, Forall (fun c => isAtomChar c = true) name /\
    ((to_upper name = verb /\ verb <> $"UID" /\ s = name ++ rest) \/
     exists sub, Forall (fun c => isAtomChar c = true) sub /\ to_upper name = $"UID" /\ to_upper sub <> [] /\
       verb = $"UID " ++ to_upper sub /\ s = name ++ " "%byte :: sub ++ rest).
Proof.
  unfold parseVerb. destruct (run isAtomChar s) as [name r] eqn:E. apply run_split in E as [-> Hn].
  destruct (to_upper name) as [|c v] eqn:Ev; [done|]. rewrite <- Ev. destruct (beqs (to_upper name) ($"UID")) eqn:Eu.
  - apply beqs_eq in Eu. destruct (match consume " "%byte r with Some _ => _ | None => _ end) as [sub r1] eqn:E1.
    destruct (to_upper sub) as [|d u] eqn:Es; [done|]. intros [= <- <-]. exists name. split; [done|]. right. exists sub.
    destruct (consume " "%byte r) as [r2|] eqn:E2; [|by injection E1 as <- <-]. apply consume_Some in E2 as ->.
    apply run_split in E1 as [-> Hs]. rewrite Es, Eu. split_and!; done.
  - intros [= <- <-]. exists name. split; [done|]. left. split_and!; [done| |done]. intros H. rewrite H in Eu. by vm_compute in Eu.
Qed.

Lemma argumentsOf_text s t : argumentsOf s = Some t -> (s = [] /\ t = []) \/ (s = " "%byte :: t /\ t <> []).
Proof.
  unfold argumentsOf. destruct s as [|c s]; [intros [= <-]; by left|]. destruct (consume _ (c :: s)) as [[|d u]|] eqn:E; [done| |done].
  apply consume_Some in E. intros [= <-]. right. by rewrite E.
Qed.

Definition structuredVerb (verb : bytes) : Prop :=
  verb = $"STORE" \/ verb = $"UID STORE" \/ verb = $"COPY" \/ verb = $"UID COPY" \/ verb = $"MOVE" \/ verb = $"UID MOVE" \/ verb = $"UID EXPUNGE".

Lemma parseOperands_text p s p' : parseOperands p s = Some (inr (p', [])) ->
  operandText p' s /\ parseSequenceSet (tcSet p') = inr (tcRanges p') /\ Forall (fun c => isSequenceSetChar c = true) (tcSet p') /\ sameHeader p p'.
Proof.
  unfold parseOperands.
  destruct (beqs (tcVerb p) ($"STORE") || beqs (tcVerb p) ($"UID STORE")) eqn:E1.
  { intros [= H]. apply (parseStore_text p); [|done]. apply orb_true_iff in E1 as [?%beqs_eq|?%beqs_eq]; auto. }
  match goal with |- context [if ?b then _ else _] => destruct b eqn:E2 end.
  { intros [= H]. apply (parseTransfer_text p); [|done]. repeat (apply orb_true_iff in E2 as [E2|E2]); apply beqs_eq in E2; auto. }
  destruct (beqs (tcVerb p) ($"UID EXPUNGE")) eqn:E3; [|done]. intros [= H]. apply beqs_eq in E3. by apply (parseSetOperand_whole p).
Qed.

Lemma parseOperands_None p s : parseOperands p s = None -> ~ structuredVerb (tcVerb p).
Proof.
  unfold parseOperands. intros H. unfold structuredVerb. rewrite <- !beqs_eq.
  destruct (beqs (tcVerb p) ($"STORE")), (beqs (tcVerb p) ($"UID STORE")); try done.
  destruct (beqs (tcVerb p) ($"COPY")), (beqs (tcVerb p) ($"UID COPY")), (beqs (tcVerb p) ($"MOVE")), (beqs (tcVerb p) ($"UID MOVE")); try done.
  destruct (beqs (tcVerb p) ($"UID EXPUNGE")); try done. naive_solver.
Qed.

(** ** The whole command *)

Lemma atomChar_ascii c : isAtomChar c = true -> bZ c < 127.
Proof. unfold isAtomChar. intros H. bool_prop. lia. Qed.

Lemma to_upper_ascii s : Forall (fun c => bZ c < 127) s -> to_upper s = map ascii_upper s.
Proof.
  induction s as [|a s IH]; intros H; [done|]. apply Forall_cons in H as [Ha H]. specialize (IH H). destruct s as [|b s]; [done|].
  cbn [map] in *. rewrite <- IH. change (to_upper (a :: b :: s)) with
    (if (a =b xc4) && (b =b xb1) then "I"%byte :: to_upper s
     else if (a =b xc5) && (b =b xbf) then "S"%byte :: to_upper s else ascii_upper a :: to_upper (b :: s)).
  destruct (a =b xc4) eqn:E1; [apply beq_eq in E1; subst; cbn in Ha; lia|]. cbn [andb].
  destruct (a =b xc5) eqn:E2; [apply beq_eq in E2; subst; cbn in Ha; lia|]. done.
Qed.

Lemma upper_space c : ascii_upper c = " "%byte -> c = " "%byte.
Proof.
  intros H. assert (E : negb (ascii_upper c =b " "%byte) || (c =b " "%byte) = true) by (clear H; by_all_bytes c).
  rewrite H in E. cbn in E. by apply beq_eq in E.
Qed.

Lemma atom_no_space s : Forall (fun c => isAtomChar c = true) s -> ~ In " "%byte s.
Proof. intros H Hi. rewrite List.Forall_forall in H. by specialize (H _ Hi). Qed.

Lemma upper_no_space s : Forall (fun c => isAtomChar c = true) s -> ~ In " "%byte (to_upper s).
Proof.
  intros H. rewrite to_upper_ascii. 2:{ eapply Forall_impl; [done|]. intros c. apply atomChar_ascii. }
  intros (c & Hc & Hi)%in_map_iff. apply upper_space in Hc as ->. by eapply atom_no_space.
Qed.

Lemma parseSequenceSet_nonempty s ranges : parseSequenceSet s = inr ranges -> s <> [].
Proof. by destruct s. Qed.

Lemma operandText_nonempty p t : tcSet p <> [] -> operandText p t -> t <> [].
Proof. intros Hs [ |op par| |]; try done; destruct (tcSet p); done. Qed.

(** A structured UID command: the words before its operands. *)
Lemma structured_text c p sub : ParseTranscriptCommand c = inr p -> tcVerb p = $"UID " ++ sub -> structuredVerb (tcVerb p) ->
  exists name subText, to_upper name = $"UID" /\ to_upper subText = sub /\ ~ In " "%byte (tcTag p) /\ ~ In " "%byte name /\
    Forall (fun c => isAtomChar c = true) subText /\ subText <> [] /\
    cmdRaw c = tcTag p ++ " "%byte :: name ++ " "%byte :: subText ++ " "%byte :: tcArguments p /\
    operandText p (tcArguments p) /\ parseSequenceSet (tcSet p) = inr (tcRanges p) /\
    Forall (fun c => isSequenceSetChar c = true) (tcSet p).
Proof.
  unfold ParseTranscriptCommand. destruct (existsb controlByte (cmdRaw c)); [done|].
  destruct (run isTagChar (cmdRaw c)) as [tag rest] eqn:Er. apply run_split in Er as [-> Htag]. destruct tag as [|t0 tag0] eqn:Et; [done|]. rewrite <- Et in *.
  destruct (consume " "%byte rest) as [r1|] eqn:E1; [|done]. apply consume_Some in E1 as ->.
  destruct (parseVerb r1) as [e|[verb r2]] eqn:Ev; [done|]. destruct (argumentsOf r2) as [args|] eqn:Ea; [|done].
  set (p0 := mkTranscript _ _ _ tag verb args _ _ _ _ _ _). destruct (parseOperands p0 args) as [[e|[p' [|? ?]]]|] eqn:Eo; [done| |done|].
  2:{ intros [= <-] _ Hs. by apply parseOperands_None in Eo. }
  intros [= ->] Hv _. apply parseOperands_text in Eo as (Ht & Hr & Hset & Ha1 & Ha2 & Ha3). cbn in Ha1, Ha2, Ha3. subst.
  apply parseSequenceSet_nonempty in Hr as Hne. pose proof (operandText_nonempty _ _ Hne Ht) as Hta.
  apply argumentsOf_text in Ea as [[-> Ea]|[-> _]]; [by rewrite Ea in Hta|].
  apply parseVerb_text in Ev as (name & Hname & [(Hu & _ & ->)|(subText & Hsub & Hu & Hne' & Hv' & ->)]).
  { exfalso. apply (upper_no_space name Hname). rewrite Hu, Hv. cbn. auto. }
  exists name, subText. rewrite Hv in Hv'. apply app_inv_head in Hv'. split_and!; [done|done| |by apply atom_no_space|done| | |done|done|done].
  - rewrite <- Ha1. intros Hi. rewrite Forall_forall in Htag. specialize (Htag " "%byte). rewrite list_elem_of_In in Htag. by specialize (Htag Hi).
  - intros ->. done.
  - by rewrite <- Ha1.
Qed.

(** ** The operands as tokens *)

Definition noBrackets (s : bytes) : Prop := ~ In "["%byte s /\ ~ In "]"%byte s.
(** Unquoted names without brackets; a bracket would bind spaces in the
    servers' parser. *)
Definition plainOperands (p : TranscriptCommand) : Prop := noBrackets (tcDestination p) /\ Forall noBrackets (tcFlags p).

Inductive operandTokens (p : TranscriptCommand) : list imapToken -> Prop :=
| TokensSet : tcVerb p = $"UID EXPUNGE" -> operandTokens p [Atom (tcSet p)]
| TokensStore operation flags :
    to_upper operation = tcStore p ++ (if tcSilent p then $".SILENT" else []) ->
    flags = [Parens (map Atom (tcFlags p))] \/ (flags = map Atom (tcFlags p) /\ tcFlags p <> []) ->
    tcVerb p = $"STORE" \/ tcVerb p = $"UID STORE" ->
    operandTokens p (Atom (tcSet p) :: Atom operation :: flags)
| TokensTransfer target : target = Atom (tcDestination p) \/ target = Quoted (tcDestination p) ->
    tcVerb p = $"COPY" \/ tcVerb p = $"UID COPY" \/ tcVerb p = $"MOVE" \/ tcVerb p = $"UID MOVE" ->
    operandTokens p [Atom (tcSet p); target].

(** What an atom of the grammar needs to be one token. *)
Definition plainByte (c : byte) : bool := negb (stopByte c) && negb (c =b "["%byte) && negb (c =b "]"%byte).

Lemma plain_atomOK v : v <> [] -> (forall v', v <> dquote :: v') -> Forall (fun c => plainByte c = true) v -> tokenOK (Atom v).
Proof.
  intros Hne Hq H. constructor. split.
  - destruct v as [|c v]; [done|]. exists c, v. split; [done|]. intros ->. by eapply Hq.
  - apply scanAtom_plain. eapply Forall_impl; [exact H|]. intros c Hc. unfold plainByte in Hc. bool_prop. by rewrite <- !beq_neq.
Qed.

Lemma atomChar_plain c : isAtomChar c = true -> c <> "["%byte -> plainByte c = true /\ c <> dquote.
Proof.
  intros H Hb. assert (E : negb (isAtomChar c) || (c =b "["%byte) || (plainByte c && negb (c =b dquote)) = true) by (clear H Hb; by_all_bytes c).
  apply beq_neq in Hb. rewrite H, Hb in E. cbn in E. bool_prop. by rewrite <- beq_neq.
Qed.

Lemma astring_plain c : isAstringChar c = true -> c <> "["%byte -> c <> "]"%byte -> plainByte c = true /\ c <> dquote.
Proof. unfold isAstringChar. intros [H|H%beq_eq]%orb_true_iff Hb Hb'; [by apply atomChar_plain|done]. Qed.

Lemma setChar_plain c : isSequenceSetChar c = true -> plainByte c = true /\ c <> dquote.
Proof.
  intros H. assert (E : negb (isSequenceSetChar c) || (plainByte c && negb (c =b dquote)) = true) by (clear H; by_all_bytes c).
  rewrite H in E. cbn in E. bool_prop. by rewrite <- beq_neq.
Qed.

Lemma class_tokenOK (allowed : byte -> bool) v : v <> [] -> Forall (fun c => allowed c = true) v ->
  (forall c, In c v -> allowed c = true -> plainByte c = true /\ c <> dquote) -> tokenOK (Atom v).
Proof.
  intros Hne H Hc. rewrite List.Forall_forall in H. apply plain_atomOK; [done| |].
  - intros v' ->. destruct (Hc dquote ltac:(by left) (H dquote ltac:(by left))). done.
  - apply List.Forall_forall. intros c Hi. by apply Hc, H.
Qed.

Lemma flag_tokenOK f : flagShape f -> noBrackets f -> tokenOK (Atom f).
Proof.
  intros (atom & Hne & Ha & Hf) [Hb _].
  assert (Hat : forall c, In c atom -> plainByte c = true /\ c <> dquote).
  { intros c Hi. rewrite List.Forall_forall in Ha. apply atomChar_plain; [by apply Ha|]. intros ->. apply Hb.
    destruct Hf as [->| ->]; [done|by right]. }
  destruct Hf as [->| ->]; (apply plain_atomOK; [done| |]).
  - intros v' ->. destruct (Hat dquote); [by left|done].
  - apply List.Forall_forall. intros c Hi. by apply Hat.
  - done.
  - constructor; [done|]. apply List.Forall_forall. intros c Hi. by apply Hat.
Qed.

Lemma map_print_atoms l : map printToken (map Atom l) = l.
Proof. rewrite map_map. cbn. apply map_id. Qed.

(** The STORE operations have no bracket. *)
Lemma store_no_bracket p op : Forall (fun c => isAtomChar c = true) op ->
  to_upper op = tcStore p ++ (if tcSilent p then $".SILENT" else []) ->
  (tcStore p = $"FLAGS" \/ tcStore p = $"+FLAGS" \/ tcStore p = $"-FLAGS") -> ~ In "["%byte op.
Proof.
  intros Hop Hu Hst Hi. rewrite to_upper_ascii in Hu. 2:{ eapply Forall_impl; [done|]. intros c. apply atomChar_ascii. }
  assert (H : In "["%byte (map ascii_upper op)) by (apply in_map_iff; by exists "["%byte).
  rewrite Hu in H. destruct Hst as [E|[E|E]], (tcSilent p); rewrite E in H; cbn in H; intuition discriminate.
Qed.

Lemma operand_tokens p t : operandText p t -> plainOperands p -> tcSet p <> [] -> Forall (fun c => isSequenceSetChar c = true) (tcSet p) ->
  exists tokens, operandTokens p tokens /\ t = printTokens tokens /\ Forall tokenOK tokens.
Proof.
  intros Ht [Hd Hf] Hne Hset.
  assert (Hs : tokenOK (Atom (tcSet p))) by (eapply class_tokenOK; [done|done|intros c _; apply setChar_plain]).
  destruct Ht as [Hv|op par Hv Hop Hu Hsh Hpar Hopne Hst|Hv Hdest Hdne|Hv].
  - exists [Atom (tcSet p)]. split_and!; [by constructor|done|by constructor].
  - assert (Hfl : Forall tokenOK (map Atom (tcFlags p))).
    { apply List.Forall_map, List.Forall_forall. intros f Hi. rewrite List.Forall_forall in Hsh. rewrite Forall_forall in Hf.
      apply flag_tokenOK; [by apply Hsh|by apply Hf, list_elem_of_In]. }
    assert (Ho : tokenOK (Atom op)).
    { eapply class_tokenOK; [done|exact Hop|]. intros c Hi Hc. apply atomChar_plain; [done|]. intros ->. by eapply store_no_bracket. }
    destruct par.
    + exists [Atom (tcSet p); Atom op; Parens (map Atom (tcFlags p))]. split_and!; [by econstructor; eauto| |].
      * unfold printTokens. cbn [map printToken join_byte flagsText]. by rewrite map_print_atoms.
      * repeat (constructor; [done|]). constructor; [by constructor|constructor].
    + exists (Atom (tcSet p) :: Atom op :: map Atom (tcFlags p)). split_and!; [by econstructor; eauto| |].
      * unfold printTokens. cbn [map printToken flagsText]. rewrite map_print_atoms. specialize (Hpar eq_refl).
        destruct (tcFlags p) as [|f fs]; [done|]. done.
      * by repeat (constructor; [done|]).
  - exists [Atom (tcSet p); Atom (tcDestination p)]. split_and!; [by constructor; auto|done|]. apply Forall_cons. split; [done|]. apply Forall_cons. split; [|done].
    eapply class_tokenOK; [done|exact Hdest|]. intros c Hi Hc. destruct Hd. apply astring_plain; [done|by intros ->|by intros ->].
  - exists [Atom (tcSet p); Quoted (tcDestination p)]. split_and!; [by constructor; auto|done|]. apply Forall_cons. split; [done|]. repeat constructor.
Qed.

Lemma transcript_tokens c p sub : ParseTranscriptCommand c = inr p -> tcVerb p = $"UID " ++ sub -> structuredVerb (tcVerb p) ->
  plainOperands p ->
  exists name tokens, to_upper name = sub /\ operandTokens p tokens /\ tokenizeArguments (cmdRaw c) = inr (Atom name :: tokens).
Proof.
  intros Hp Hv Hs Hplain. destruct (structured_text c p sub Hp Hv Hs) as (name & subText & Hname & Hsub & Htag & Hn & Hat & Hne & Hraw & Ht & Hr & Hset).
  apply parseSequenceSet_nonempty in Hr. destruct (operand_tokens p _ Ht Hplain Hr Hset) as (tokens & Htok & Heq & Hok).
  exists subText, tokens. split_and!; [done|done|]. rewrite Hraw. unfold tokenizeArguments. rewrite argumentText_command by done.
  destruct tokens as [|t0 tokens]; [by inversion Htok|].
  assert (E : subText ++ " "%byte :: tcArguments p = printTokens (Atom subText :: t0 :: tokens)) by (by rewrite Heq).
  rewrite E. apply tokenize_print. apply Forall_cons. split; [|done].
  assert (Hsub' : sub = $"STORE" \/ sub = $"COPY" \/ sub = $"MOVE" \/ sub = $"EXPUNGE").
  { rewrite Hv in Hs. destruct Hs as [H|[H|[H|[H|[H|[H|H]]]]]]; try discriminate H; injection H as ->; auto. }
  eapply class_tokenOK; [done|exact Hat|]. intros c' Hi Hc. apply atomChar_plain; [done|]. intros ->.
  rewrite to_upper_ascii in Hsub. 2:{ eapply Forall_impl; [done|]. intros x. apply atomChar_ascii. }
  assert (H : In "["%byte (map ascii_upper subText)) by (apply in_map_iff; by exists "["%byte).
  rewrite Hsub in H. destruct Hsub' as [->|[->|[->| ->]]]; cbn in H; intuition discriminate.
Qed.

(** ** The sets *)

(** A range as the servers use it: 0, the [*], is the largest UID, and the
    smaller bound comes first. *)
Definition resolveRange (largest : Z) (r : SetRange) : uidRange :=
  let a := if rangeStart r =? 0 then largest else rangeStart r in
  let b := if rangeStop r =? 0 then largest else rangeStop r in
  if b <? a then (b, a) else (a, b).

Lemma sequenceNumber_uid s n largest : parseSequenceNumber s = Some n ->
  parseUIDSetNumber s largest = Some (if n =? 0 then largest else n).
Proof.
  unfold parseSequenceNumber, parseUIDSetNumber. destruct (beqs s ($"*")); [by intros [= <-]|].
  destruct s as [|c s]; [done|]. destruct ((49 <=? bZ c) && (bZ c <=? 57)) eqn:E; [|done]. bool_prop. intros Hp. rewrite Hp.
  assert (Hn : n =? 0 = false); [|by rewrite Hn]. apply Z.eqb_neq. unfold parse_uint in Hp. cbn [digits_value] in Hp.
  destruct (is_digit c); [|done]. destruct (digits_value _ s) as [v|] eqn:F; [|done]. apply digits_value_ge in F; [|lia].
  destruct (v <? 2 ^ 32); [|done]. injection Hp as <-. lia.
Qed.

Lemma parseSetElements_spans largest elements : forall ranges, parseSetElements elements = Some ranges ->
  parseUIDSpans largest elements = Some (map (resolveRange largest) ranges).
Proof.
  induction elements as [|e es IH]; intros ranges; cbn; [by intros [= <-]|].
  destruct (parseSetElement e) as [r|] eqn:E; [|done]. destruct (parseSetElements es) as [rs|]; [|done]. intros [= <-].
  rewrite (IH rs eq_refl). unfold parseSetElement in E. unfold parseUIDSpan. destruct (cut_byte _ e) as [[a b] f].
  destruct (parseSequenceNumber a) as [x|] eqn:Ex; [|done].
  destruct (parseSequenceNumber (if f then b else a)) as [y|] eqn:Ey; [|done]. injection E as <-.
  by rewrite (sequenceNumber_uid _ _ largest Ex), (sequenceNumber_uid _ _ largest Ey).
Qed.

Lemma sequenceSet_uids s ranges largest : parseSequenceSet s = inr ranges ->
  parseUIDSet (Atom s) largest = Some (map (resolveRange largest) ranges).
Proof.
  unfold parseSequenceSet, parseUIDSet. destruct s as [|c s]; [done|]. destruct (parseSetElements _) as [rs|] eqn:E; [|done].
  intros [= <-]. by apply parseSetElements_spans.
Qed.

(** ** The property *)


Definition sampleCommand : Command := mkCommand 3 1 ($"A7 uid store 4:2,* +flags.silent (\Seen)") ($"UID") true.
Definition sampleTranscript : TranscriptCommand :=
  mkTranscript 3 1 true ($"A7") ($"UID STORE") ($"4:2,* +flags.silent (\Seen)") ($"4:2,*") [mkSetRange 4 2; mkSetRange 0 0]
    ($"+FLAGS") true [$"\Seen"] [].

