(* ===== verification/LabelStore.v ===== *)
(** * The folder and label-view fixture

    The linked model of messages, folders and label views of the test servers
    ([labels.go]): a message is one identity with shared flags and a body, a
    view holds memberships with UIDs and Deleted markers of its own.  The
    pointer to a message is its position in the store's list. *)
From Stdlib Require Import ZArith Lia Strings.Byte.
From stdpp Require Import base list gmap strings.
From S2P Require Import Prelude GoStrings GoText MessageID ImapTokens MailboxStore.

(** ** Seeds and state *)

Inductive ViewRole := FolderRole | LabelRole | UnknownRole (role : Z).
Definition viewRoleString (role : ViewRole) : bytes :=
  match role with FolderRole => $"folder" | LabelRole => $"label" | UnknownRole n => $"unknown-" ++ decimal n end.
Definition isFolder (role : ViewRole) : bool := match role with FolderRole => true | _ => false end.
Definition isLabel (role : ViewRole) : bool := match role with LabelRole => true | _ => false end.

Record labelMessage := mkLabelMessage { lmID : bytes; lmFlags : list bytes; lmBody : bytes }.
Record Membership := mkMembershipSeed { seedMessage : bytes; seedUID : Z; seedDeleted : bool }.
Record LabelViewSeed := mkViewSeed {
  lvsName : bytes; lvsRole : ViewRole; lvsAttributes : list bytes; lvsUIDValidity : Z; lvsMembers : list Membership }.
Record LabelOptions := mkLabelOptions { loMessages : list labelMessage; loViews : list LabelViewSeed; loUIDPlus : bool }.

Record membership := mkMembership { memMessage : nat; memUID : Z; memDeleted : bool }.
Record labelView := mkView {
  lvName : bytes; lvRole : ViewRole; lvAttributes : list bytes; lvUIDValidity : Z; lvUIDNext : Z; lvMembers : list membership }.
Record labelStore := mkLabelStore { lsUIDPlus : bool; lsMessages : list labelMessage; lsViews : list labelView }.

#[export] Instance eta_membership : Eta membership := fun m => mkMembership (memMessage m) (memUID m) (memDeleted m).
#[export] Instance eta_labelView : Eta labelView := fun v =>
  mkView (lvName v) (lvRole v) (lvAttributes v) (lvUIDValidity v) (lvUIDNext v) (lvMembers v).
#[export] Instance eta_labelStore : Eta labelStore := fun s => mkLabelStore (lsUIDPlus s) (lsMessages s) (lsViews s).

#[export] Instance viewRole_eq : EqDecision ViewRole.
Proof. solve_decision. Defined.
#[export] Instance labelMessage_eq : EqDecision labelMessage.
Proof. solve_decision. Defined.
#[export] Instance membership_eq : EqDecision membership.
Proof. solve_decision. Defined.
#[export] Instance labelView_eq : EqDecision labelView.
Proof. solve_decision. Defined.
#[export] Instance labelStore_eq : EqDecision labelStore.
Proof. solve_decision. Defined.

Definition isDeletedFlag (flag : bytes) : bool := equal_fold flag ($"\Deleted").

(** ** Finding *)

Fixpoint findView (name : bytes) (views : list labelView) : option (nat * labelView) :=
  match views with
  | [] => None
  | view :: views =>
      if mailboxNameMatches (lvName view) name then Some (O, view)
      else option_map (fun p => (S (fst p), snd p)) (findView name views)
  end.
Definition labelFind (store : labelStore) (name : bytes) : option (nat * labelView) := findView name (lsViews store).

Definition byUID (members : list membership) (uid : Z) : option membership := List.find (fun m => memUID m =? uid) members.
Definition byMessage (members : list membership) (message : nat) : option membership :=
  List.find (fun m => (memMessage m =? message)%nat) members.

Fixpoint indexByID (id : bytes) (messages : list labelMessage) : option nat :=
  match messages with
  | [] => None
  | m :: messages => if beqs (lmID m) id then Some O else option_map S (indexByID id messages)
  end.

(** ** Construction *)

Inductive labelError :=
| EmptyMessageID
| DuplicateMessageID (id : bytes)
| BadMessageFlags (id : bytes) (e : storeError)
| SharedDeleted (id : bytes)
| BadView (e : storeError)
| DuplicateView (name : bytes)
| NeedsRole (name : bytes)
| UnknownMessage (name id : bytes)
| BadMemberUID (name : bytes) (uid : Z)
| DuplicateUID (name : bytes) (uid : Z)
| DuplicateMember (name id : bytes)
| TwoFolders (id folder name : bytes)
| NeedsFolder (id : bytes).

Definition checkMessage (seed : labelMessage) (messages : list labelMessage) : option labelError :=
  if beqs (lmID seed) [] then Some EmptyMessageID
  else match indexByID (lmID seed) messages with
  | Some _ => Some (DuplicateMessageID (lmID seed))
  | None =>
      match validateAtoms (lmFlags seed) false with
      | Some e => Some (BadMessageFlags (lmID seed) e)
      | None => if existsb isDeletedFlag (lmFlags seed) then Some (SharedDeleted (lmID seed)) else None
      end
  end.

Fixpoint seedLabelMessages (seeds messages : list labelMessage) : labelError + list labelMessage :=
  match seeds with
  | [] => inr messages
  | seed :: seeds =>
      match checkMessage seed messages with
      | Some e => inl e
      | None => seedLabelMessages seeds (messages ++ [seed])
      end
  end.

(** The members of one seed in order; [folders] names the folder of each
    message placed so far. *)
Fixpoint seedMembers (messages : list labelMessage) (name : bytes) (role : ViewRole) (folders : gmap nat bytes)
    (members : list membership) (seeds : list Membership) : labelError + gmap nat bytes * list membership :=
  match seeds with
  | [] => inr (folders, members)
  | seed :: seeds =>
      match indexByID (seedMessage seed) messages with
      | None => inl (UnknownMessage name (seedMessage seed))
      | Some message =>
          if (seedUID seed =? 0) || (seedUID seed =? MaxUint32) then inl (BadMemberUID name (seedUID seed))
          else match byUID members (seedUID seed) with
          | Some _ => inl (DuplicateUID name (seedUID seed))
          | None =>
          match byMessage members message with
          | Some _ => inl (DuplicateMember name (seedMessage seed))
          | None =>
              let member := mkMembership message (seedUID seed) (seedDeleted seed) in
              if isFolder role then
                match folders !! message with
                | Some folder => inl (TwoFolders (seedMessage seed) folder name)
                | None => seedMembers messages name role (<[message := name]> folders) (members ++ [member]) seeds
                end
              else seedMembers messages name role folders (members ++ [member]) seeds
          end end
      end
  end.

(** [slices.SortFunc] by UID; the UIDs of a view are distinct. *)
Fixpoint insertMember (m : membership) (l : list membership) : list membership :=
  match l with
  | [] => [m]
  | x :: l' => if memUID m <=? memUID x then m :: l else x :: insertMember m l'
  end.
Definition sortMembers (l : list membership) : list membership := foldr insertMember [] l.

Definition seedView (messages : list labelMessage) (index : nat) (folders : gmap nat bytes) (seed : LabelViewSeed)
    (views : list labelView) : labelError + gmap nat bytes * labelView :=
  match validateMailboxName (lvsName seed) with
  | Some e => inl (BadView e)
  | None =>
  match findView (lvsName seed) views with
  | Some _ => inl (DuplicateView (lvsName seed))
  | None =>
      if negb (isFolder (lvsRole seed)) && negb (isLabel (lvsRole seed)) then inl (NeedsRole (lvsName seed))
      else match validateAtoms (lvsAttributes seed) true with
      | Some e => inl (BadView e)
      | None =>
          match seedMembers messages (lvsName seed) (lvsRole seed) folders [] (lvsMembers seed) with
          | inl e => inl e
          | inr (folders, members) =>
              let members := sortMembers members in
              let uidNext := match last members with Some m => u32 (memUID m + 1) | None => 1 end in
              let uidValidity := if lvsUIDValidity seed =? 0 then u32 (1001 + Z.of_nat index) else lvsUIDValidity seed in
              inr (folders, mkView (lvsName seed) (lvsRole seed) (lvsAttributes seed) uidValidity uidNext members)
          end
      end
  end end.

Fixpoint seedViews (messages : list labelMessage) (index : nat) (folders : gmap nat bytes) (seeds : list LabelViewSeed)
    (views : list labelView) : labelError + gmap nat bytes * list labelView :=
  match seeds with
  | [] => inr (folders, views)
  | seed :: seeds =>
      match seedView messages index folders seed views with
      | inl e => inl e
      | inr (folders, view) => seedViews messages (S index) folders seeds (views ++ [view])
      end
  end.

(** The last loop: the first message without a folder. *)
Fixpoint missingFolder (index : nat) (folders : gmap nat bytes) (messages : list labelMessage) : option bytes :=
  match messages with
  | [] => None
  | m :: messages => match folders !! index with None => Some (lmID m) | Some _ => missingFolder (S index) folders messages end
  end.

Definition newLabelStore (options : LabelOptions) : labelError + labelStore :=
  match seedLabelMessages (loMessages options) [] with
  | inl e => inl e
  | inr messages =>
      match seedViews messages 0 ∅ (loViews options) [] with
      | inl e => inl e
      | inr (folders, views) =>
          match missingFolder 0 folders messages with
          | Some id => inl (NeedsFolder id)
          | None => inr (mkLabelStore (loUIDPlus options) messages views)
          end
      end
  end.

(** ** The view as an ordinary mailbox, and snapshots *)

Definition memberMessage (messages : list labelMessage) (m : membership) : statefulMessage :=
  let shared := default (mkLabelMessage [] [] []) (messages !! memMessage m) in
  mkMessage (memUID m) (lmFlags shared ++ (if memDeleted m then [$"\Deleted"] else [])) (lmBody shared).

(** [labelView.mailbox]. *)
Definition viewMailbox (messages : list labelMessage) (view : labelView) : statefulMailbox :=
  mkMailbox (lvName view) (lvAttributes view) (lvUIDValidity view) (lvUIDNext view)
    (map (memberMessage messages) (lvMembers view)) (negb (bool_decide (lvMembers view = []))).

Record LabelViewState := mkViewState {
  vsName : bytes; vsRole : ViewRole; vsAttributes : list bytes; vsUIDValidity : Z; vsUIDNext : Z; vsMembers : list Membership }.
Definition LabelSnapshot (store : labelStore) : list labelMessage * list LabelViewState :=
  (lsMessages store,
   map (fun v => mkViewState (lvName v) (lvRole v) (lvAttributes v) (lvUIDValidity v) (lvUIDNext v)
     (map (fun m => mkMembershipSeed (default [] (lmID <$> lsMessages store !! memMessage m)) (memUID m) (memDeleted m)) (lvMembers v)))
     (lsViews store)).

Definition setView (store : labelStore) (index : nat) (view : labelView) : labelStore :=
  store <| lsViews := <[index := view]> (lsViews store) |>.

(** ** LIST, STATUS and SELECT *)

Definition labelList (store : labelStore) (tag : bytes) (arguments : list imapToken) : list bytes :=
  listLines tag arguments (map (fun v => mkMailbox (lvName v) (lvAttributes v) 0 0 [] false) (lsViews store)).

Definition labelStatus (store : labelStore) (tag : bytes) (arguments : list imapToken) : list bytes :=
  statusLines tag arguments (fun name => option_map (fun p => viewMailbox (lsMessages store) (snd p)) (labelFind store name)).

Definition labelSelectLines (view : labelView) (tag : bytes) (readOnly : bool) : list bytes :=
  [ systemFlagsResponse; $"* " ++ decimal (zlen (lvMembers view)) ++ $" EXISTS"; $"* 0 RECENT";
    (if readOnly then $"* OK [PERMANENTFLAGS ()] read-only"
     else if isLabel (lvRole view) then $"* OK [PERMANENTFLAGS (\Deleted)] only \Deleted is mutable"
     else $"* OK [PERMANENTFLAGS ()] folder flags are read-only");
    $"* OK [UIDVALIDITY " ++ decimal (lvUIDValidity view) ++ $"] mailbox generation";
    $"* OK [UIDNEXT " ++ decimal (lvUIDNext view) ++ $"] next UID";
    tagged tag (if readOnly then $"OK [READ-ONLY] EXAMINE completed" else $"OK [READ-WRITE] SELECT completed") ].

Definition labelSelect (store : labelStore) (tag name : bytes) (arguments : list imapToken) : statefulSession * list bytes :=
  match arguments with
  | [argument] =>
      if tokIsList argument then (newStatefulSession, [tagged tag ($"BAD " ++ name ++ $" requires exactly one mailbox")])
      else match labelFind store (tokValue argument) with
      | Some (_, view) =>
          if selectableAttributes (lvAttributes view) then
            let readOnly := beqs name ($"EXAMINE") in
            (mkStatefulSession (lvName view) readOnly, labelSelectLines view tag readOnly)
          else (newStatefulSession, [noMailbox tag])
      | None => (newStatefulSession, [noMailbox tag])
      end
  | _ => (newStatefulSession, [tagged tag ($"BAD " ++ name ++ $" requires exactly one mailbox")])
  end.

(** ** UID COPY, STORE and EXPUNGE *)

(** [parseSingleUID]: the UID, or the line that refuses the operand. *)
Definition parseSingleUID (tag : bytes) (token : imapToken) : bytes + Z :=
  match parseUIDSet token 0 with
  | None => inl (tagged tag ($"BAD malformed UID set"))
  | Some _ =>
      match parse_uint (tokValue token) 32 with
      | None => inl (refusedBy tag ($"a UID set other than one UID"))
      | Some uid => inr uid
      end
  end.

Definition copied (tag : bytes) : bytes := tagged tag ($"OK COPY completed").

Definition labelCopy (store : labelStore) (source : labelView) (tag : bytes) (arguments : list imapToken) : labelStore * list bytes :=
  match arguments with
  | [set; target] =>
      if tokIsList target then (store, [tagged tag ($"BAD UID COPY requires a UID set and a mailbox")])
      else match parseSingleUID tag set with
      | inl line => (store, [line])
      | inr uid =>
          if negb (isFolder (lvRole source)) then (store, [tagged tag ($"NO [CANNOT] UID COPY source must be a folder")])
          else match labelFind store (tokValue target) with
          | None => (store, [tagged tag ($"NO [TRYCREATE] destination mailbox does not exist")])
          | Some (index, destination) =>
              if negb (isLabel (lvRole destination)) then (store, [tagged tag ($"NO [CANNOT] destination is not a label view")])
              else if negb (selectableAttributes (lvAttributes destination))
              then (store, [tagged tag ($"NO [CANNOT] destination mailbox is not selectable")])
              else match byUID (lvMembers source) uid with
              | None => (store, [copied tag])
              | Some member =>
                  match byMessage (lvMembers destination) (memMessage member) with
                  | Some _ => (store, [copied tag])
                  | None =>
                      if lvUIDNext destination =? MaxUint32
                      then (store, [tagged tag ($"NO [LIMIT] destination mailbox has no UIDs left")])
                      else
                        let added := mkMembership (memMessage member) (lvUIDNext destination) false in
                        let destination' := destination <| lvMembers := lvMembers destination ++ [added] |>
                          <| lvUIDNext := u32 (lvUIDNext destination + 1) |> in
                        (setView store index destination',
                         [if lsUIDPlus store
                          then tagged tag ($"OK [COPYUID " ++ decimal (lvUIDValidity destination) ++ $" " ++ decimal uid ++ $" "
                                 ++ decimal (memUID added) ++ $"] COPY completed")
                          else copied tag])
                  end
              end
          end
      end
  | _ => (store, [tagged tag ($"BAD UID COPY requires a UID set and a mailbox")])
  end.

(** The operand list of a STORE is one [\Deleted]. *)
Definition onlyDeleted (flags : imapToken) : bool :=
  match (match flags with Parens l => l | _ => [flags] end) with
  | [flag] => negb (tokIsList flag) && negb (tokQuoted flag) && isDeletedFlag (tokValue flag)
  | _ => false
  end.

(** [member.deleted = true] of the first member with the UID. *)
Fixpoint markDeleted (uid : Z) (members : list membership) : list membership :=
  match members with
  | [] => []
  | m :: members => if memUID m =? uid then m <| memDeleted := true |> :: members else m :: markDeleted uid members
  end.

Definition labelStoreDeleted (view : labelView) (tag : bytes) (arguments : list imapToken) : labelView * list bytes :=
  match arguments with
  | [set; operation; flags] =>
      if tokIsList operation || tokQuoted operation
      then (view, [tagged tag ($"BAD UID STORE requires a UID set, an operation and flags")])
      else match parseSingleUID tag set with
      | inl line => (view, [line])
      | inr uid =>
          let op := to_upper (tokValue operation) in
          if oneOf op [$"+FLAGS"; $"-FLAGS"; $"-FLAGS.SILENT"] then (view, [refusedBy tag ($"STORE other than +FLAGS.SILENT")])
          else if oneOf op [$"FLAGS"; $"FLAGS.SILENT"] then (view, [refusedBy tag ($"FLAGS replacement")])
          else if negb (beqs op ($"+FLAGS.SILENT")) then (view, [tagged tag ($"BAD unsupported STORE operation")])
          else if negb (onlyDeleted flags) then (view, [refusedBy tag ($"changing flags other than \Deleted")])
          else if negb (isLabel (lvRole view)) then (view, [tagged tag ($"NO [CANNOT] \Deleted STORE requires a selected label view")])
          else (view <| lvMembers := markDeleted uid (lvMembers view) |>, [tagged tag ($"OK STORE completed")])
      end
  | _ => (view, [tagged tag ($"BAD UID STORE requires a UID set, an operation and flags")])
  end.

(** [slices.IndexFunc] of the marked member with the UID. *)
Fixpoint indexMarked (uid : Z) (members : list membership) : option nat :=
  match members with
  | [] => None
  | m :: members => if (memUID m =? uid) && memDeleted m then Some O else option_map S (indexMarked uid members)
  end.

Definition labelExpunge (view : labelView) (tag : bytes) (arguments : list imapToken) : labelView * list bytes :=
  match arguments with
  | [set] =>
      match parseSingleUID tag set with
      | inl line => (view, [line])
      | inr uid =>
          if negb (isLabel (lvRole view)) then (view, [tagged tag ($"NO [CANNOT] UID EXPUNGE requires a selected label view")])
          else match indexMarked uid (lvMembers view) with
          | None => (view, [tagged tag ($"OK EXPUNGE completed")])
          | Some index =>
              (view <| lvMembers := delete index (lvMembers view) |>, [expungeLine index; tagged tag ($"OK EXPUNGE completed")])
          end
      end
  | _ => (view, [tagged tag ($"BAD UID EXPUNGE requires a UID set")])
  end.

(** ** Dispatch *)

Inductive labelCommand := LabelFetch | LabelSearch | LabelCopy | LabelStoreCommand | LabelExpunge.

Definition labelSubcommand (uidPlus : bool) (tag : bytes) (arguments : list imapToken) : bytes + labelCommand :=
  match arguments with
  | [] => inl (tagged tag ($"BAD incomplete UID command"))
  | argument :: _ =>
      if tokIsList argument || tokQuoted argument then inl (tagged tag ($"BAD incomplete UID command"))
      else
        let subcommand := to_upper (tokValue argument) in
        if beqs subcommand ($"FETCH") then inr LabelFetch
        else if beqs subcommand ($"SEARCH") then inr LabelSearch
        else if beqs subcommand ($"COPY") then inr LabelCopy
        else if beqs subcommand ($"STORE") then inr LabelStoreCommand
        else if beqs subcommand ($"EXPUNGE") then (if uidPlus then inr LabelExpunge else inl (tagged tag ($"BAD UIDPLUS is not enabled")))
        else if beqs subcommand ($"MOVE") then inl (refusedBy tag ($"UID MOVE"))
        else inl (tagged tag ($"BAD unsupported UID command"))
  end.

(** A change of the view at a position. *)
Definition changeView (store : labelStore) (position : nat) (r : labelView * list bytes) : labelStore * list bytes :=
  (setView store position (fst r), snd r).

Definition labelUID (store : labelStore) (session : statefulSession) (tag : bytes) (arguments : list imapToken) :
    labelStore * list bytes :=
  match labelSubcommand (lsUIDPlus store) tag arguments with
  | inl line => (store, [line])
  | inr command =>
      if beqs (ssSelected session) [] then (store, [tagged tag ($"BAD no mailbox selected")])
      else match labelFind store (ssSelected session) with
      | None => (store, [tagged tag ($"NO selected mailbox no longer exists")])
      | Some (position, view) =>
          let mailbox := viewMailbox (lsMessages store) view in
          let operands := drop 1 arguments in
          match command with
          | LabelFetch => (store, statefulFetch mailbox tag operands)
          | LabelSearch => (store, statefulSearch mailbox tag operands)
          | LabelCopy => if ssReadOnly session then (store, [readOnlyLine tag]) else labelCopy store view tag operands
          | LabelStoreCommand =>
              if ssReadOnly session then (store, [readOnlyLine tag])
              else changeView store position (labelStoreDeleted view tag operands)
          | LabelExpunge =>
              if ssReadOnly session then (store, [readOnlyLine tag])
              else changeView store position (labelExpunge view tag operands)
          end
      end
  end.

Definition labelCommandLines (store : labelStore) (session : statefulSession) (tag name : bytes) (arguments : list imapToken) :
    labelStore * statefulSession * list bytes :=
  if beqs name ($"LIST") then (store, session, labelList store tag arguments)
  else if beqs name ($"SELECT") || beqs name ($"EXAMINE") then
    let '(session, lines) := labelSelect store tag name arguments in (store, session, lines)
  else if beqs name ($"STATUS") then (store, session, labelStatus store tag arguments)
  else if beqs name ($"UID") then
    let '(store, lines) := labelUID store session tag arguments in (store, session, lines)
  else if oneOf name refusedCommands then (store, session, [refusedBy tag name])
  else (store, session, [tagged tag ($"BAD unsupported command")]).

Definition serveLabels (store : labelStore) (session : statefulSession) (tag name raw : bytes)
    (tlsEstablished authenticated : bool) : labelStore * statefulSession * served :=
  match refuseLiteral tag raw with
  | Some s => (store, session, s)
  | None =>
      if oneOf name sharedCommands || beqs name ($"CAPABILITY") && negb tlsEstablished then (store, session, Unhandled)
      else if beqs name ($"CAPABILITY") then
        (store, session, Answer (capabilityLines tag (if authenticated && lsUIDPlus store then $" UIDPLUS" else [])))
      else if negb authenticated then (store, session, Answer [tagged tag ($"NO authenticate first")])
      else match tokenizeArguments raw with
      | inl e => (store, session, Answer [tagged tag ($"BAD " ++ tokenErrorText e)])
      | inr arguments =>
          let '(store, session, lines) := labelCommandLines store session tag name arguments in (store, session, Answer lines)
      end
  end.
