(* ===== verification/LabelStoreSpec.v ===== *)
(** * Labels never touch a message

    The label fixture keeps what it is built for: every view is a well-formed
    mailbox, every message has exactly one folder, shared flags and bodies and
    the folders themselves never change, whatever commands the sessions send;
    and adding a label and taking it away again restores the view. *)
From Stdlib Require Import ZArith Lia Strings.Byte.
From stdpp Require Import base list gmap strings sets.
From S2P Require Import Prelude GoStrings GoText MessageID ImapTokens MailboxStore MailboxStoreSpec LabelStore.

(** ** Well-formed label stores *)

(** The store of ordinary mailboxes the views stand for. *)
Definition viewStore (s : labelStore) : mailboxStore := mkStore false (map (viewMailbox (lsMessages s)) (lsViews s)).

Definition holds (i : nat) (v : labelView) : bool := existsb (fun m => (memMessage m =? i)%nat) (lvMembers v).
Definition folderViews (s : labelStore) : list labelView := List.filter (fun v => isFolder (lvRole v)) (lsViews s).
Definition foldersHolding (i : nat) (views : list labelView) : list labelView :=
  List.filter (fun v => isFolder (lvRole v) && holds i v) views.

Definition membersOK (n : nat) (v : labelView) : Prop :=
  NoDup (map memMessage (lvMembers v)) /\ Forall (fun m => (memMessage m < n)%nat) (lvMembers v).

Record labelOK (s : labelStore) : Prop := {
  lbViews : storeOK (viewStore s);
  lbMembers : Forall (membersOK (length (lsMessages s))) (lsViews s);
  lbFolders : forall i, (i < length (lsMessages s))%nat -> length (foldersHolding i (lsViews s)) = 1%nat;
  lbShared : Forall (fun m => existsb isDeletedFlag (lmFlags m) = false) (lsMessages s) }.

Lemma findView_map ms name views :
  findMailbox name (map (viewMailbox ms) views) = option_map (fun p => (fst p, viewMailbox ms (snd p))) (findView name views).
Proof.
  induction views as [|v views IH]; cbn; [done|]. destruct (mailboxNameMatches _ _); [done|]. rewrite IH. by destruct (findView name views).
Qed.

Lemma findView_lookup name views i v : findView name views = Some (i, v) -> views !! i = Some v.
Proof.
  revert i. induction views as [|w views IH]; intros i; cbn; [done|]. destruct (mailboxNameMatches _ _); [by intros [= <- <-]|].
  destruct (findView name views) as [[j u]|]; [|done]. cbn. intros [= <- <-]. by apply IH.
Qed.

Lemma findView_store s name i v : labelFind s name = Some (i, v) ->
  find (viewStore s) name = Some (i, viewMailbox (lsMessages s) v) /\ lsViews s !! i = Some v.
Proof.
  unfold labelFind. intros H. split; [|by eapply findView_lookup]. unfold find, viewStore. cbn. rewrite findView_map, H. done.
Qed.

(** ** UIDs of members *)

Fixpoint increasing (low : Z) (l : list Z) (high : Z) : Prop :=
  match l with [] => low < high | u :: l => low < u /\ increasing u l high end.

Lemma uidsBetween_increasing low l high : uidsBetween low l high <-> increasing low (map msUID l) high.
Proof. revert low. induction l as [|m l IH]; intros low; cbn; [done|]. by rewrite IH. Qed.

Lemma view_uids ms l : map msUID (map (memberMessage ms) l) = map memUID l.
Proof. rewrite map_map. done. Qed.

Lemma increasing_bounds low l high : increasing low l high -> low < high /\ Forall (fun u => low < u < high) l.
Proof.
  revert low. induction l as [|u l IH]; intros low; cbn; [done|]. intros [H1 H2]. apply IH in H2 as [H2 H3].
  split; [lia|]. constructor; [lia|]. eapply Forall_impl; [exact H3|]. cbn. lia.
Qed.

Lemma increasing_weaken low low' l high high' : low' <= low -> high <= high' -> increasing low l high -> increasing low' l high'.
Proof.
  revert low low'. induction l as [|u l IH]; intros low low' H1 H2; cbn; [lia|]. intros [H3 H4]. split; [lia|]. eapply IH; [|exact H2|exact H4]. lia.
Qed.

Lemma increasing_snoc low l u high : increasing low l u -> u < high -> increasing low (l ++ [u]) high.
Proof. revert low. induction l as [|x l IH]; intros low; cbn; [lia|]. intros [? ?] ?. split; [done|]. by apply IH. Qed.

Lemma increasing_delete low l i high : increasing low l high -> increasing low (delete i l) high.
Proof.
  revert low i. induction l as [|u l IH]; intros low i H; [by destruct i|]. destruct H as [H1 H2]. destruct i as [|i]; cbn.
  - eapply increasing_weaken; [|reflexivity|exact H2]. lia.
  - split; [done|]. by apply IH.
Qed.

Lemma increasing_last low l high : increasing low l high -> increasing low l (default low (last l) + 1).
Proof.
  revert low. induction l as [|u l IH]; intros low; cbn; [lia|]. intros [H1 H2]. split; [done|]. specialize (IH u H2).
  destruct l as [|v l]; [cbn; lia|]. rewrite last_cons_cons. destruct (last (v :: l)) eqn:E; [done|]. by apply last_None in E.
Qed.

Lemma insertMember_increasing m l : forall low high, increasing low (map memUID l) high -> low < memUID m < high ->
  memUID m ∉ map memUID l -> increasing low (map memUID (insertMember m l)) high.
Proof.
  induction l as [|x l IH]; intros low high; cbn; [lia|]. intros [H1 H2] H3 Hn. apply not_elem_of_cons in Hn as [Hn1 Hn2].
  destruct (memUID m <=? memUID x) eqn:E; bool_prop; cbn.
  - split; [lia|]. split; [lia|done].
  - split; [done|]. apply IH; [done|lia|done].
Qed.

Lemma insertMember_perm m l : insertMember m l ≡ₚ m :: l.
Proof. induction l as [|x l IH]; cbn; [done|]. destruct (_ <=? _); [done|]. rewrite IH. apply Permutation_swap. Qed.

Lemma sortMembers_perm l : sortMembers l ≡ₚ l.
Proof. unfold sortMembers. induction l as [|m l IH]; cbn; [done|]. by rewrite insertMember_perm, IH. Qed.

Lemma sortMembers_increasing l high : 0 < high -> NoDup (map memUID l) -> Forall (fun m => 0 < memUID m < high) l ->
  increasing 0 (map memUID (sortMembers l)) high.
Proof.
  intros Hh Hn Hf. unfold sortMembers. induction l as [|m l IH]; cbn; [done|]. cbn in Hn. apply NoDup_cons in Hn as [Hm Hn].
  apply Forall_cons in Hf as [Hb Hf]. apply insertMember_increasing; [by apply IH|lia|].
  intros Hi. apply Hm. eapply elem_of_Permutation_proper; [|exact Hi]. symmetry. change (map memUID ?x) with (memUID <$> x).
  apply fmap_Permutation. apply sortMembers_perm.
Qed.

(** ** Construction *)

Lemma byUID_None l uid : byUID l uid = None -> uid ∉ map memUID l.
Proof.
  intros H Hi. apply list_elem_of_In, in_map_iff in Hi as (m & Hm & Hi). pose proof (List.find_none _ _ H m Hi) as E. cbn in E. lia.
Qed.
Lemma byMessage_None l i : byMessage l i = None -> i ∉ map memMessage l.
Proof.
  intros H Hi. apply list_elem_of_In, in_map_iff in Hi as (m & Hm & Hi). pose proof (List.find_none _ _ H m Hi) as E. cbn in E.
  apply Nat.eqb_neq in E. done.
Qed.

Lemma indexByID_lt id l i : indexByID id l = Some i -> (i < length l)%nat.
Proof.
  revert i. induction l as [|m l IH]; intros i; cbn; [done|]. destruct (beqs _ _); [intros [= <-]; lia|].
  destruct (indexByID id l) as [j|]; [|done]. cbn. intros [= <-]. specialize (IH j eq_refl). lia.
Qed.

(** What holds of the members read so far. *)
Record seedingOK (n : nat) (role : ViewRole) (folders0 folders : gmap nat bytes) (members : list membership) : Prop := {
  sgUIDs : NoDup (map memUID members);
  sgMessages : NoDup (map memMessage members);
  sgBounds : Forall (fun m => 0 < memUID m < MaxUint32) members;
  sgKnown : Forall (fun m => (memMessage m < n)%nat) members;
  sgFolders : forall i, is_Some (folders !! i) <-> is_Some (folders0 !! i) \/ (isFolder role = true /\ i ∈ map memMessage members);
  sgFresh : isFolder role = true -> forall i, i ∈ map memMessage members -> folders0 !! i = None }.

Lemma seedingOK_snoc n role folders0 folders members m : seedingOK n role folders0 folders members ->
  memUID m ∉ map memUID members -> memMessage m ∉ map memMessage members -> 0 < memUID m < MaxUint32 -> (memMessage m < n)%nat ->
  (isFolder role = true -> folders !! memMessage m = None) ->
  seedingOK n role folders0 (if isFolder role then <[memMessage m := []]> folders else folders) (members ++ [m]).
Proof.
  intros [H1 H2 H3 H4 H5 H6] Hu Hm Hb Hk Hf.
  assert (Hin : forall i, i ∈ map memMessage (members ++ [m]) <-> i ∈ map memMessage members \/ i = memMessage m).
  { intros i. rewrite map_app, elem_of_app. cbn. rewrite list_elem_of_singleton. done. }
  split.
  - rewrite map_app. apply NoDup_app. split_and!; [done| |apply NoDup_singleton]. cbn. intros u Hu1 Hu2%list_elem_of_singleton. congruence.
  - rewrite map_app. apply NoDup_app. split_and!; [done| |apply NoDup_singleton]. cbn. intros u Hu1 Hu2%list_elem_of_singleton. congruence.
  - apply Forall_app. split; [done|]. by constructor.
  - apply Forall_app. split; [done|]. by constructor.
  - intros i. rewrite Hin. destruct (isFolder role); [|rewrite H5; naive_solver]. rewrite lookup_insert_is_Some, H5.
    destruct (decide (memMessage m = i)); naive_solver.
  - intros Hr i. rewrite Hin. intros [Hi| ->]; [by apply H6|]. apply eq_None_not_Some. intros Hs. specialize (Hf Hr).
    apply eq_None_not_Some in Hf. apply Hf, H5. by left.
Qed.

(** The name stored with a folder does not matter. *)
Lemma seedingOK_names n role folders0 folders folders' members : (forall i, is_Some (folders !! i) <-> is_Some (folders' !! i)) ->
  seedingOK n role folders0 folders members -> seedingOK n role folders0 folders' members.
Proof. intros H [H1 H2 H3 H4 H5 H6]. split; [done..| |done]. intros i. by rewrite <- H. Qed.

Lemma seedMembers_ok messages name role folders0 seeds : forall folders members folders' members',
  Forall (fun m => uint32 (seedUID m)) seeds -> seedingOK (length messages) role folders0 folders members ->
  seedMembers messages name role folders members seeds = inr (folders', members') ->
  seedingOK (length messages) role folders0 folders' members'.
Proof.
  induction seeds as [|seed seeds IH]; intros folders members folders' members' Hs Hok; cbn [seedMembers]; [by intros [= <- <-]|].
  apply Forall_cons in Hs as [Hu Hs]. destruct (indexByID _ messages) as [i|] eqn:Ei; [|done]. apply indexByID_lt in Ei.
  destruct ((seedUID seed =? 0) || _) eqn:Eu; [done|]. destruct (byUID members _) eqn:E1; [done|]. apply byUID_None in E1.
  destruct (byMessage members i) eqn:E2; [done|]. apply byMessage_None in E2.
  set (m := mkMembership i (seedUID seed) (seedDeleted seed)).
  assert (Hb : 0 < memUID m < MaxUint32) by (unfold uint32 in Hu; bool_prop; cbn; lia).
  pose proof (seedingOK_snoc _ role folders0 folders members m Hok E1 E2 Hb Ei) as Hsnoc.
  destruct (isFolder role) eqn:Er.
  - destruct (folders !! i) as [folder|] eqn:Ef; [done|]. apply IH; [done|].
    eapply seedingOK_names; [|apply Hsnoc; done]. intros j. rewrite !lookup_insert_is_Some. done.
  - apply IH; [done|]. by apply Hsnoc.
Qed.

Definition viewSeedOK (seed : LabelViewSeed) : Prop :=
  uint32 (lvsUIDValidity seed) /\ Forall (fun m => uint32 (seedUID m)) (lvsMembers seed).

Lemma members_holds i v : holds i v = true <-> i ∈ map memMessage (lvMembers v).
Proof.
  unfold holds. rewrite existsb_exists, list_elem_of_In, in_map_iff. split; intros (m & H1 & H2); exists m.
  - apply Nat.eqb_eq in H2. done.
  - subst. split; [done|]. apply Nat.eqb_refl.
Qed.

Lemma seedView_ok messages index folders seed views folders' v : Z.of_nat index < MaxUint32 - 1001 -> viewSeedOK seed ->
  seedView messages index folders seed views = inr (folders', v) ->
  mailboxOK (viewMailbox messages v) /\ membersOK (length messages) v /\ findView (lvName v) views = None /\
  (forall i, is_Some (folders' !! i) <-> is_Some (folders !! i) \/ (isFolder (lvRole v) && holds i v = true)) /\
  (forall i, isFolder (lvRole v) && holds i v = true -> folders !! i = None).
Proof.
  intros Hi [Hv Hm]. unfold seedView. destruct (validateMailboxName _) eqn:En; [done|]. destruct (findView _ views) eqn:Ef; [done|].
  destruct (negb _ && _); [done|]. destruct (validateAtoms _ _); [done|].
  destruct (seedMembers _ _ _ folders [] _) as [e|[fs ms]] eqn:E; [done|]. intros [= <- <-].
  assert (H0 : seedingOK (length messages) (lvsRole seed) folders folders []).
  { split; cbn; try constructor; intros; [by left| |by inversion H0]. destruct H as [H|[_ H]]; [done|by inversion H]. }
  apply seedMembers_ok with (folders0 := folders) in E as [S1 S2 S3 S4 S5 S6]; [|done|done].
  pose proof (sortMembers_perm ms) as Hp. set (sorted := sortMembers ms) in *.
  assert (Hpm : memMessage <$> sorted ≡ₚ memMessage <$> ms) by (by apply fmap_Permutation).
  assert (Hmsg : forall i, i ∈ map memMessage sorted <-> i ∈ map memMessage ms).
  { intros i. change (map memMessage ?x) with (memMessage <$> x). by rewrite Hpm. }
  assert (Hinc : increasing 0 (map memUID sorted) MaxUint32) by (by apply sortMembers_increasing).
  assert (Hnext : exists l, last (map memUID sorted) = l /\ (match last sorted with Some m => u32 (memUID m + 1) | None => 1 end) = default 0 l + 1 /\ default 0 l + 1 <= MaxUint32).
  { exists (last (map memUID sorted)). split; [done|]. change (map memUID ?x) with (memUID <$> x). rewrite fmap_last.
    destruct (last sorted) as [m|] eqn:El; cbn; [|unfold MaxUint32; lia]. apply increasing_bounds in Hinc as [_ Hb]. rewrite Forall_forall in Hb.
    assert (Hb' : 0 < memUID m < MaxUint32).
    { apply Hb. apply last_Some_elem_of in El. apply list_elem_of_In, in_map. by apply list_elem_of_In. }
    rewrite u32_small by lia. lia. }
  destruct Hnext as (l & Hl & Hn & Hmax). rewrite Hn. split_and!.
  - split; cbn [viewMailbox mbMessages mbUIDNext mbUIDValidity mbName mbMade lvMembers lvUIDNext lvUIDValidity lvName].
    + apply uidsBetween_increasing. rewrite view_uids, <- Hl. by eapply increasing_last.
    + done.
    + destruct (lvsUIDValidity seed =? 0) eqn:Ez; bool_prop; [rewrite u32_small; lia|]. unfold uint32 in Hv. lia.
    + done.
    + intros Hb. apply negb_false_iff, bool_decide_eq_true in Hb. by rewrite Hb.
  - split; cbn.
    + change (map memMessage ?x) with (memMessage <$> x). by rewrite Hpm.
    + rewrite Forall_forall in S4. apply Forall_forall. intros m Hin. apply S4. by rewrite <- Hp.
  - done.
  - intros i. rewrite S5, andb_true_iff, members_holds. cbn. by rewrite Hmsg.
  - intros i. rewrite andb_true_iff, members_holds. cbn. rewrite Hmsg. intros [H1 H2]. by apply S6.
Qed.

Lemma findView_None name ms views : findView name views = None -> findMailbox name (map (viewMailbox ms) views) = None.
Proof. intros H. by rewrite findView_map, H. Qed.

(** What holds of the views read so far. *)
Record viewsSeeded (messages : list labelMessage) (folders : gmap nat bytes) (views : list labelView) : Prop := {
  vdMailboxes : Forall mailboxOK (map (viewMailbox messages) views);
  vdNames : namesOK (map (viewMailbox messages) views);
  vdMembers : Forall (membersOK (length messages)) views;
  vdFolders : forall i, length (foldersHolding i views) = if decide (is_Some (folders !! i)) then 1%nat else 0%nat }.

Lemma seedViews_ok messages seeds : forall index folders views folders' views',
  Z.of_nat (index + length seeds) < MaxUint32 - 1001 -> Forall viewSeedOK seeds -> viewsSeeded messages folders views ->
  seedViews messages index folders seeds views = inr (folders', views') -> viewsSeeded messages folders' views'.
Proof.
  induction seeds as [|seed seeds IH]; intros index folders views folders' views' Hi Hs Hok; cbn [seedViews]; [by intros [= <- <-]|].
  apply Forall_cons in Hs as [Hseed Hs]. cbn [length] in Hi.
  destruct (seedView _ _ _ _ _) as [e|[fs v]] eqn:E; [done|]. apply seedView_ok in E as (H1 & H2 & H3 & H4 & H5); [|lia|done].
  apply IH; [lia|done|]. destruct Hok as [K1 K2 K3 K4]. split.
  - rewrite map_app. apply Forall_app. split; [done|]. by constructor.
  - rewrite map_app. apply namesOK_snoc; [done|]. by apply findView_None.
  - apply Forall_app. split; [done|]. by constructor.
  - intros i. specialize (K4 i). unfold foldersHolding in *. rewrite List.filter_app, length_app, K4. cbn [List.filter].
    specialize (H4 i). specialize (H5 i). destruct (isFolder (lvRole v) && holds i v) eqn:Eb; cbn [length].
    + rewrite H5 by done. destruct (decide (is_Some None)) as [Hn|]; [by apply is_Some_None in Hn|].
      rewrite decide_True by naive_solver. done.
    + rewrite Nat.add_0_r. destruct (decide (is_Some (folders !! i))) as [Hy|Hn].
      * rewrite decide_True by naive_solver. done.
      * rewrite decide_False by naive_solver. done.
Qed.

Lemma seedLabelMessages_ok seeds : forall messages messages', Forall (fun m => existsb isDeletedFlag (lmFlags m) = false) messages ->
  seedLabelMessages seeds messages = inr messages' -> Forall (fun m => existsb isDeletedFlag (lmFlags m) = false) messages'.
Proof.
  induction seeds as [|seed seeds IH]; intros messages messages' Hm; cbn [seedLabelMessages]; [by intros [= <-]|].
  unfold checkMessage. destruct (beqs _ _); [done|]. destruct (indexByID _ _); [done|]. destruct (validateAtoms _ _); [done|].
  destruct (existsb _ _) eqn:E; [done|]. apply IH, Forall_app. split; [done|]. by constructor.
Qed.

Lemma missingFolder_None folders messages : forall index, missingFolder index folders messages = None ->
  forall i, (i < length messages)%nat -> is_Some (folders !! (index + i)%nat).
Proof.
  induction messages as [|m messages IH]; intros index; cbn; [lia|]. destruct (folders !! index) eqn:E; [|done].
  intros H [|i] Hi; [by rewrite Nat.add_0_r, E|]. replace (index + S i)%nat with (S index + i)%nat by lia. apply IH; [done|lia].
Qed.

Lemma newLabelStore_ok options s : Z.of_nat (length (loViews options)) < MaxUint32 - 1001 -> Forall viewSeedOK (loViews options) ->
  newLabelStore options = inr s -> labelOK s.
Proof.
  intros Hl Hs. unfold newLabelStore. destruct (seedLabelMessages _ []) as [e|messages] eqn:Em; [done|].
  apply seedLabelMessages_ok in Em; [|constructor]. destruct (seedViews _ _ _ _ _) as [e|[folders views]] eqn:Ev; [done|].
  apply seedViews_ok in Ev as [H1 H2 H3 H4]; [|done|done|]. 2:{ split; cbn; [constructor|done|constructor|]. intros i. done. }
  destruct (missingFolder _ _ _) eqn:E; [done|]. intros [= <-]. split; [by split|done| |done].
  intros i Hi. specialize (H4 i). rewrite decide_True in H4; [exact H4|]. by apply (missingFolder_None _ _ 0 E).
Qed.

(** ** The commands *)

(** What every command guarantees: messages, folders and names are untouched. *)
Record labelServes (s s' : labelStore) : Prop := {
  lvOK : labelOK s';
  lvMessages : lsMessages s' = lsMessages s;
  lvFolders : folderViews s' = folderViews s;
  lvNames : map lvName (lsViews s') = map lvName (lsViews s) }.

Lemma labelServes_refl s : labelOK s -> labelServes s s.
Proof. by split. Qed.
Lemma labelServes_trans a b c : labelServes a b -> labelServes b c -> labelServes a c.
Proof. intros [A1 A2 A3 A4] [B1 B2 B3 B4]. split; congruence || done. Qed.

Lemma filter_insert {A} (f : A -> bool) l i x y : l !! i = Some x -> f x = false -> f y = false ->
  List.filter f (<[i := y]> l) = List.filter f l.
Proof.
  intros Hi Hx Hy. revert i Hi. induction l as [|z l IH]; intros [|i] Hi; cbn in *; [done|done| |by rewrite IH].
  simplify_eq. by rewrite Hx, Hy.
Qed.

Lemma viewOK_intro ms v v' : mailboxOK (viewMailbox ms v) -> lvName v' = lvName v -> lvUIDValidity v' = lvUIDValidity v ->
  increasing 0 (map memUID (lvMembers v')) (lvUIDNext v') -> lvUIDNext v' <= MaxUint32 -> mailboxOK (viewMailbox ms v').
Proof.
  intros [H1 H2 H3 H4 H5] Hn Hv Hi Hm. split; cbn in *; [|done|by rewrite Hv|by rewrite Hn|].
  - apply uidsBetween_increasing. by rewrite view_uids.
  - intros Hb. apply negb_false_iff, bool_decide_eq_true in Hb. by rewrite Hb.
Qed.

Lemma viewOK_increasing ms v : mailboxOK (viewMailbox ms v) -> increasing 0 (map memUID (lvMembers v)) (lvUIDNext v).
Proof. intros [H _ _ _ _]. apply uidsBetween_increasing in H. cbn in H. by rewrite view_uids in H. Qed.

Lemma setView_id s i v : lsViews s !! i = Some v -> setView s i v = s.
Proof. intros H. unfold setView. destruct s. cbn in *. by rewrite list_insert_id. Qed.

Lemma labelServes_set s i v v' : labelOK s -> lsViews s !! i = Some v -> isFolder (lvRole v) = false ->
  lvRole v' = lvRole v -> lvName v' = lvName v -> mailboxOK (viewMailbox (lsMessages s) v') -> membersOK (length (lsMessages s)) v' ->
  labelServes s (setView s i v').
Proof.
  intros [H1 H2 H3 H4] Hi Hr Hr' Hn Hok Hm. split.
  - split; [|by apply Forall_insert| |done].
    + assert (E : viewStore (setView s i v') = setMailbox (viewStore s) i (viewMailbox (lsMessages s) v')).
      { change (mkStore false (viewMailbox (lsMessages s) <$> <[i := v']> (lsViews s)) =
                mkStore false (<[i := viewMailbox (lsMessages s) v']> (viewMailbox (lsMessages s) <$> lsViews s))).
        by rewrite list_fmap_insert. }
      rewrite E. eapply storeOK_set; [done| | |done].
      * cbn. change (map (viewMailbox ?m) ?l) with (viewMailbox m <$> l). by rewrite list_lookup_fmap, Hi.
      * done.
    + intros j Hj. specialize (H3 j Hj). rewrite <- H3. f_equal. cbn. apply (filter_insert _ _ _ v); [done|by rewrite Hr|by rewrite Hr', Hr].
  - done.
  - apply (filter_insert _ _ _ v); [done|done|by rewrite Hr'].
  - cbn. change (map lvName ?l) with (lvName <$> l). rewrite list_fmap_insert, Hn. apply list_insert_id. by rewrite list_lookup_fmap, Hi.
Qed.

Lemma labelOK_view s i v : labelOK s -> lsViews s !! i = Some v -> mailboxOK (viewMailbox (lsMessages s) v) /\ membersOK (length (lsMessages s)) v.
Proof.
  intros [H1 H2 _ _] Hi. split.
  - destruct H1 as [H1 _]. rewrite Forall_forall in H1. apply H1. cbn. change (map (viewMailbox ?m) ?l) with (viewMailbox m <$> l).
    apply list_elem_of_lookup. exists i. by rewrite list_lookup_fmap, Hi.
  - rewrite Forall_forall in H2. apply H2. by eapply list_elem_of_lookup_2.
Qed.

Lemma byUID_Some l uid m : byUID l uid = Some m -> m ∈ l /\ memUID m = uid.
Proof. intros H. apply List.find_some in H as [H1 H2]. split; [by apply list_elem_of_In|lia]. Qed.

Lemma labelRole_not_folder r : isLabel r = true -> isFolder r = false.
Proof. by destruct r. Qed.

(** The destination of a COPY with its new member. *)
Definition copyInto (message : nat) (destination : labelView) : labelView :=
  destination <| lvMembers := lvMembers destination ++ [mkMembership message (lvUIDNext destination) false] |>
    <| lvUIDNext := u32 (lvUIDNext destination + 1) |>.

Lemma copyInto_ok s i v message : labelOK s -> lsViews s !! i = Some v -> isLabel (lvRole v) = true -> (message < length (lsMessages s))%nat ->
  byMessage (lvMembers v) message = None -> lvUIDNext v <> MaxUint32 -> labelServes s (setView s i (copyInto message v)).
Proof.
  intros Hs Hi Hr Hm Hb Hu. destruct (labelOK_view s i v Hs Hi) as [Hok [Hn Hl]]. apply byMessage_None in Hb.
  pose proof (viewOK_increasing _ _ Hok) as Hinc. pose proof (increasing_bounds _ _ _ Hinc) as [Hpos _]. pose proof (mbNextRange _ Hok) as Hmax. cbn in Hmax.
  apply (labelServes_set s i v); [done|done|by apply labelRole_not_folder|done|done| |].
  - eapply viewOK_intro; [exact Hok|done|done| |cbn; rewrite u32_small; lia].
    cbn. rewrite u32_small by lia. rewrite map_app. apply increasing_snoc; [done|]. cbn. lia.
  - split; cbn.
    + rewrite map_app. apply NoDup_app. split_and!; [done| |apply NoDup_singleton]. cbn. intros x Hx1 Hx2%list_elem_of_singleton. congruence.
    + apply Forall_app. split; [done|]. by constructor.
Qed.

Lemma labelCopy_ok s source tag args i : labelOK s -> lsViews s !! i = Some source -> labelServes s (fst (labelCopy s source tag args)).
Proof.
  intros Hs Hi. pose proof (labelServes_refl s Hs) as Hsame. unfold labelCopy. destruct args as [|set [|target [|]]]; try done.
  destruct (tokIsList target); [done|]. destruct (parseSingleUID tag set) as [e|uid]; [done|]. destruct (negb (isFolder _)); [done|].
  destruct (labelFind s _) as [[j destination]|] eqn:Ef; [|done]. destruct (negb (isLabel _)) eqn:Er; [done|]. apply negb_false_iff in Er.
  destruct (negb (selectableAttributes _)); [done|]. destruct (byUID _ uid) as [member|] eqn:Eu; [|done].
  destruct (byMessage _ _) eqn:Em; [done|]. destruct (_ =? MaxUint32) eqn:El; [done|]. bool_prop. cbn [fst].
  apply findView_store in Ef as [_ Hj]. apply (copyInto_ok s j destination (memMessage member)); [done|done|done| |done|done].
  destruct (labelOK_view s i source Hs Hi) as [_ [_ Hl]]. rewrite Forall_forall in Hl. apply byUID_Some in Eu as [Hu _]. by apply Hl.
Qed.

Lemma markDeleted_uids uid l : map memUID (markDeleted uid l) = map memUID l.
Proof. induction l as [|m l IH]; cbn; [done|]. destruct (_ =? _); cbn; [done|by rewrite IH]. Qed.
Lemma markDeleted_messages uid l : map memMessage (markDeleted uid l) = map memMessage l.
Proof. induction l as [|m l IH]; cbn; [done|]. destruct (_ =? _); cbn; [done|by rewrite IH]. Qed.

Lemma membersOK_messages n v v' : map memMessage (lvMembers v') = map memMessage (lvMembers v) -> membersOK n v -> membersOK n v'.
Proof.
  intros E [H1 H2]. split; [by rewrite E|]. rewrite Forall_forall in *. intros m Hm.
  assert (Hi : memMessage m ∈ map memMessage (lvMembers v)) by (rewrite <- E; apply list_elem_of_In, in_map; by apply list_elem_of_In).
  apply list_elem_of_In, in_map_iff in Hi as (m' & <- & Hi). by apply H2, list_elem_of_In.
Qed.

Lemma markDeleted_ok s i v uid : labelOK s -> lsViews s !! i = Some v -> isLabel (lvRole v) = true ->
  labelServes s (setView s i (v <| lvMembers := markDeleted uid (lvMembers v) |>)).
Proof.
  intros Hs Hi Hr. destruct (labelOK_view s i v Hs Hi) as [Hok Hm].
  apply (labelServes_set s i v); [done|done|by apply labelRole_not_folder|done|done| |].
  - eapply viewOK_intro; [exact Hok|done|done| |exact (mbNextRange _ Hok)]. cbn. rewrite markDeleted_uids. by eapply viewOK_increasing.
  - eapply membersOK_messages; [|exact Hm]. cbn. apply markDeleted_messages.
Qed.

Lemma expunge_ok s i v index : labelOK s -> lsViews s !! i = Some v -> isLabel (lvRole v) = true ->
  labelServes s (setView s i (v <| lvMembers := delete index (lvMembers v) |>)).
Proof.
  intros Hs Hi Hr. destruct (labelOK_view s i v Hs Hi) as [Hok [Hn Hl]].
  apply (labelServes_set s i v); [done|done|by apply labelRole_not_folder|done|done| |].
  - eapply viewOK_intro; [exact Hok|done|done| |exact (mbNextRange _ Hok)]. cbn. change (map memUID ?l) with (memUID <$> l).
    rewrite list_fmap_delete. apply increasing_delete. by eapply viewOK_increasing.
  - split; cbn; [|by apply Forall_delete]. change (map memMessage ?l) with (memMessage <$> l). rewrite list_fmap_delete.
    eapply sublist_NoDup; [exact Hn|apply sublist_delete].
Qed.

Lemma changeView_ok s i v (r : labelView * list bytes) : labelOK s -> lsViews s !! i = Some v ->
  fst r = v \/ labelServes s (setView s i (fst r)) -> labelServes s (fst (changeView s i r)).
Proof. intros Hs Hi [H|H]; cbn; [|done]. rewrite H, setView_id by done. by apply labelServes_refl. Qed.

Lemma labelStoreDeleted_ok s i v tag args : labelOK s -> lsViews s !! i = Some v ->
  fst (labelStoreDeleted v tag args) = v \/ labelServes s (setView s i (fst (labelStoreDeleted v tag args))).
Proof.
  intros Hs Hi. unfold labelStoreDeleted. destruct args as [|set [|operation [|flags [|]]]]; try by left.
  destruct (tokIsList operation || _); [by left|]. destruct (parseSingleUID tag set) as [e|uid]; [by left|].
  destruct (oneOf _ [_; _; _]); [by left|]. destruct (oneOf _ [_; _]); [by left|]. destruct (negb (beqs _ _)); [by left|].
  destruct (negb (onlyDeleted _)); [by left|]. destruct (negb (isLabel _)) eqn:Er; [by left|]. apply negb_false_iff in Er.
  right. by apply markDeleted_ok.
Qed.

Lemma labelExpunge_ok s i v tag args : labelOK s -> lsViews s !! i = Some v ->
  fst (labelExpunge v tag args) = v \/ labelServes s (setView s i (fst (labelExpunge v tag args))).
Proof.
  intros Hs Hi. unfold labelExpunge. destruct args as [|set [|]]; try by left. destruct (parseSingleUID tag set) as [e|uid]; [by left|].
  destruct (negb (isLabel _)) eqn:Er; [by left|]. apply negb_false_iff in Er. destruct (indexMarked _ _) as [index|]; [|by left].
  right. by apply expunge_ok.
Qed.

Lemma labelUID_ok s session tag args : labelOK s -> labelServes s (fst (labelUID s session tag args)).
Proof.
  intros Hs. pose proof (labelServes_refl s Hs) as Hsame. unfold labelUID. destruct (labelSubcommand _ _ _) as [e|c]; [done|].
  destruct (beqs _ _); [done|]. destruct (labelFind s _) as [[i v]|] eqn:Ef; [|done]. apply findView_store in Ef as [_ Hi].
  destruct c; [done|done|..]; (destruct (ssReadOnly session); [done|]).
  - by eapply labelCopy_ok.
  - eapply changeView_ok; [done|done|]. by apply labelStoreDeleted_ok.
  - eapply changeView_ok; [done|done|]. by apply labelExpunge_ok.
Qed.

Lemma serveLabels_ok s session tag name raw tls auth : labelOK s -> labelServes s (serveLabels s session tag name raw tls auth).1.1.
Proof.
  intros Hs. pose proof (labelServes_refl s Hs) as Hsame. unfold serveLabels. destruct (refuseLiteral tag raw); [done|].
  destruct (_ || _); [done|]. destruct (beqs name _); [done|]. destruct (negb auth); [done|].
  destruct (tokenizeArguments raw) as [e|args]; [done|]. unfold labelCommandLines.
  destruct (beqs name ($"LIST")); [done|]. destruct (_ || _); [by destruct (labelSelect s tag name args)|].
  destruct (beqs name ($"STATUS")); [done|]. destruct (beqs name ($"UID")); [|by destruct (oneOf _ _)].
  pose proof (labelUID_ok s session tag args Hs) as H. by destruct (labelUID s session tag args).
Qed.

(** Commands of any sessions, one after the other. *)
Inductive labelStep : labelStore -> labelStore -> Prop :=
| LabelStepCommand s session tag name raw tls auth : labelStep s (serveLabels s session tag name raw tls auth).1.1.

Lemma label_invariant s s' : labelOK s -> star labelStep s s' -> labelServes s s'.
Proof.
  intros Hs H. apply (star_invariant labelStep (labelServes s) s); [by apply labelServes_refl| |done].
  intros a b Ha Hab. destruct Hab. eapply labelServes_trans; [exact Ha|]. apply serveLabels_ok, Ha.
Qed.

(** ** The label round trip *)

Lemma parseSingleUID_decimal tag uid : 1 <= uid <= MaxUint32 -> parseSingleUID tag (Atom (decimal uid)) = inr uid.
Proof.
  intros Hu. unfold parseSingleUID. pose proof (parse_uidSetText [uid] 0 ltac:(done) ltac:(by repeat constructor; lia)) as E.
  unfold uidSetText in E. cbn [map join_byte] in E. rewrite E. cbn [tokValue]. rewrite parse_decimal; [done|]. unfold MaxUint32 in Hu. lia.
Qed.

Lemma markDeleted_snoc uid l m : memUID m = uid -> uid ∉ map memUID l -> markDeleted uid (l ++ [m]) = l ++ [m <| memDeleted := true |>].
Proof.
  intros Hm. induction l as [|x l IH]; cbn; intros Hn; [by rewrite (proj2 (Z.eqb_eq _ _) Hm)|].
  apply not_elem_of_cons in Hn as [H1 H2]. destruct (memUID x =? uid) eqn:E; [bool_prop; congruence|]. by rewrite IH.
Qed.

Lemma indexMarked_snoc uid l m : memUID m = uid -> memDeleted m = true -> uid ∉ map memUID l ->
  indexMarked uid (l ++ [m]) = Some (length l).
Proof.
  intros Hm Hd. induction l as [|x l IH]; cbn; intros Hn; [by rewrite (proj2 (Z.eqb_eq _ _) Hm), Hd|].
  apply not_elem_of_cons in Hn as [H1 H2]. destruct (memUID x =? uid) eqn:E; [bool_prop; congruence|]. cbn. by rewrite IH.
Qed.

(** The commands a client sends to label a message and to take the label off. *)
Definition copyArguments (uid : Z) (label : bytes) : list imapToken := [Atom ($"COPY"); Atom (decimal uid); Quoted label].
Definition storeArguments (uid : Z) : list imapToken :=
  [Atom ($"STORE"); Atom (decimal uid); Atom ($"+FLAGS.SILENT"); Parens [Atom ($"\Deleted")]].
Definition expungeArguments (uid : Z) : list imapToken := [Atom ($"EXPUNGE"); Atom (decimal uid)].

Lemma findView_set l name v v' : lvName v' = lvName v -> forall j, findView name l = Some (j, v) -> findView name (<[j := v']> l) = Some (j, v').
Proof.
  intros Hn. induction l as [|w l IH]; intros j; cbn [findView]; [done|]. destruct (mailboxNameMatches (lvName w) name) eqn:E.
  - intros [= <- ->]. change (<[0%nat := v']> (v :: l)) with (v' :: l). cbn [findView]. by rewrite Hn, E.
  - destruct (findView name l) as [[k u]|]; [|done]. cbn [option_map fst snd]. intros [= <- ->].
    change (<[S k := v']> (w :: l)) with (w :: <[k := v']> l). cbn [findView]. by rewrite E, (IH k eq_refl).
Qed.

Lemma labelFind_set s name j v v' : labelFind s name = Some (j, v) -> lvName v' = lvName v ->
  labelFind (setView s j v') name = Some (j, v').
Proof. intros H Hn. by apply (findView_set _ _ v). Qed.

Lemma setView_twice s j v v' : setView (setView s j v) j v' = setView s j v'.
Proof.
  change (mkLabelStore (lsUIDPlus s) (lsMessages s) (<[j := v']> (<[j := v]> (lsViews s))) =
          mkLabelStore (lsUIDPlus s) (lsMessages s) (<[j := v']> (lsViews s))).
  by rewrite list_insert_insert_eq.
Qed.

Section RoundTrip.
Context (s : labelStore) (folder label : statefulSession) (tag target : bytes).
Context (i j : nat) (source view : labelView) (member : membership) (uid : Z).
Hypothesis (Hok : labelOK s) (Hplus : lsUIDPlus s = true).
Hypothesis (Hfolder : labelFind s (ssSelected folder) = Some (i, source)) (Hfn : ssSelected folder <> []) (Hfw : ssReadOnly folder = false).
Hypothesis (Hlabel : labelFind s (ssSelected label) = Some (j, view)) (Hln : ssSelected label <> []) (Hlw : ssReadOnly label = false).
Hypothesis (Htarget : labelFind s target = Some (j, view)) (Hsel : selectableAttributes (lvAttributes view) = true).
Hypothesis (Hrole : lvRole source = FolderRole) (Hrole' : lvRole view = LabelRole).
Hypothesis (Huid : 1 <= uid <= MaxUint32) (Hmember : byUID (lvMembers source) uid = Some member).
Hypothesis (Hnew : byMessage (lvMembers view) (memMessage member) = None) (Hroom : lvUIDNext view <> MaxUint32).

Let labelled : labelStore := setView s j (copyInto (memMessage member) view).

Lemma label_copies : fst (labelUID s folder tag (copyArguments uid target)) = labelled.
Proof.
  unfold labelUID, copyArguments. cbn [labelSubcommand tokIsList tokQuoted tokValue orb].
  change (to_upper ($"COPY")) with ($"COPY"). change (beqs ($"COPY") ($"FETCH")) with false.
  change (beqs ($"COPY") ($"SEARCH")) with false. change (beqs ($"COPY") ($"COPY")) with true. cbv iota.
  destruct (beqs (ssSelected folder) []) eqn:E; [by apply beqs_eq in E|]. rewrite Hfolder, Hfw. cbn [drop labelCopy tokIsList tokValue].
  rewrite parseSingleUID_decimal by done. rewrite Hrole, Htarget, Hrole', Hsel. cbn [isFolder isLabel negb].
  rewrite Hmember, Hnew. destruct (lvUIDNext view =? MaxUint32) eqn:En; [by apply Z.eqb_eq in En|]. done.
Qed.

Let marked : labelView := (copyInto (memMessage member) view) <| lvMembers := lvMembers view ++
  [mkMembership (memMessage member) (lvUIDNext view) true] |>.

Lemma label_room : 1 <= lvUIDNext view <= MaxUint32 /\ lvUIDNext view ∉ map memUID (lvMembers view).
Proof.
  apply findView_store in Hlabel as [_ Hj]. destruct (labelOK_view s j view Hok Hj) as [Hv _].
  pose proof (viewOK_increasing _ _ Hv) as Hinc. apply increasing_bounds in Hinc as [H1 H2]. pose proof (mbNextRange _ Hv) as H3. cbn in H3.
  split; [lia|]. intros Hi. rewrite Forall_forall in H2. specialize (H2 _ Hi). lia.
Qed.

Lemma label_marks : fst (labelUID labelled label tag (storeArguments (lvUIDNext view))) = setView s j marked.
Proof.
  destruct label_room as [Hr Hn]. unfold labelUID, storeArguments. cbn [labelSubcommand tokIsList tokQuoted tokValue orb].
  change (to_upper ($"STORE")) with ($"STORE"). change (beqs ($"STORE") ($"FETCH")) with false.
  change (beqs ($"STORE") ($"SEARCH")) with false. change (beqs ($"STORE") ($"COPY")) with false. change (beqs ($"STORE") ($"STORE")) with true. cbv iota.
  destruct (beqs (ssSelected label) []) eqn:E; [by apply beqs_eq in E|].
  assert (Hf : labelFind labelled (ssSelected label) = Some (j, copyInto (memMessage member) view)) by (by apply (labelFind_set s _ j view)).
  rewrite Hf, Hlw. cbn [drop labelStoreDeleted tokIsList tokQuoted tokValue orb]. rewrite parseSingleUID_decimal by done.
  change (to_upper ($"+FLAGS.SILENT")) with ($"+FLAGS.SILENT").
  change (oneOf ($"+FLAGS.SILENT") [$"+FLAGS"; $"-FLAGS"; $"-FLAGS.SILENT"]) with false.
  change (oneOf ($"+FLAGS.SILENT") [$"FLAGS"; $"FLAGS.SILENT"]) with false.
  change (beqs ($"+FLAGS.SILENT") ($"+FLAGS.SILENT")) with true. change (onlyDeleted (Parens [Atom ($"\Deleted")])) with true.
  change (lvRole (copyInto (memMessage member) view)) with (lvRole view). rewrite Hrole'. cbn [isLabel negb changeView fst].
  unfold labelled. rewrite setView_twice. f_equal. unfold marked. 
  change (lvMembers (copyInto (memMessage member) view)) with (lvMembers view ++ [mkMembership (memMessage member) (lvUIDNext view) false]).
  rewrite (markDeleted_snoc (lvUIDNext view) (lvMembers view)); [reflexivity|reflexivity|exact Hn].
Qed.

Lemma label_expunges : fst (labelUID (setView s j marked) label tag (expungeArguments (lvUIDNext view))) =
  setView s j (view <| lvUIDNext := u32 (lvUIDNext view + 1) |>).
Proof.
  destruct label_room as [Hr Hn]. unfold labelUID, expungeArguments. cbn [labelSubcommand tokIsList tokQuoted tokValue orb].
  change (to_upper ($"EXPUNGE")) with ($"EXPUNGE"). change (beqs ($"EXPUNGE") ($"FETCH")) with false.
  change (beqs ($"EXPUNGE") ($"SEARCH")) with false. change (beqs ($"EXPUNGE") ($"COPY")) with false.
  change (beqs ($"EXPUNGE") ($"STORE")) with false. change (beqs ($"EXPUNGE") ($"EXPUNGE")) with true. cbv iota.
  change (lsUIDPlus (setView s j marked)) with (lsUIDPlus s). rewrite Hplus.
  destruct (beqs (ssSelected label) []) eqn:E; [by apply beqs_eq in E|].
  assert (Hf : labelFind (setView s j marked) (ssSelected label) = Some (j, marked)) by (by apply (labelFind_set s _ j view)).
  rewrite Hf, Hlw. cbn [drop labelExpunge]. rewrite parseSingleUID_decimal by done.
  change (lvRole marked) with (lvRole view). rewrite Hrole'. cbn [isLabel negb].
  change (lvMembers marked) with (lvMembers view ++ [mkMembership (memMessage member) (lvUIDNext view) true]).
  rewrite indexMarked_snoc by done. cbn [changeView fst]. rewrite setView_twice. f_equal.
  assert (Hd : delete (length (lvMembers view)) (lvMembers view ++ [mkMembership (memMessage member) (lvUIDNext view) true]) = lvMembers view).
  { rewrite delete_middle. apply app_nil_r. }
  rewrite Hd. reflexivity.
Qed.
End RoundTrip.

(** ** The properties *)

(** A concrete model: two folders and a label view. *)
Definition sampleLabels : LabelOptions := mkLabelOptions
  [mkLabelMessage ($"m1") [$"\Seen"] ($"one"); mkLabelMessage ($"m2") [] ($"two")]
  [ mkViewSeed ($"INBOX") FolderRole [] 0 [mkMembershipSeed ($"m2") 12 false; mkMembershipSeed ($"m1") 5 false];
    mkViewSeed ($"Labels/One") LabelRole [] 8001 [mkMembershipSeed ($"m2") 40 false] ] true.
Definition sampleLabelStore : labelStore := mkLabelStore true
  [mkLabelMessage ($"m1") [$"\Seen"] ($"one"); mkLabelMessage ($"m2") [] ($"two")]
  [ mkView ($"INBOX") FolderRole [] 1001 13 [mkMembership 0 5 false; mkMembership 1 12 false];
    mkView ($"Labels/One") LabelRole [] 8001 41 [mkMembership 1 40 false] ].

Example sample_labels : newLabelStore sampleLabels = inr sampleLabelStore.
Proof. vm_compute. reflexivity. Qed.

Lemma sample_labels_ok : labelOK sampleLabelStore.
Proof.
  apply (newLabelStore_ok sampleLabels); [cbn; unfold MaxUint32; lia| |apply sample_labels].
  repeat constructor; cbn; unfold uint32, MaxUint32; lia.
Qed.

(** Labels never touch a message.  From a model built of 32-bit seeds,
    after any commands on any sessions, the messages with their shared flags
    and bodies, every folder with its members and UIDs, and the names of all
    views are what they were; each message is still in exactly one folder, and
    every view is still a mailbox with strictly increasing UIDs below a
    nonzero 32-bit UIDNEXT that its name finds. *)
Theorem labels_sound options s s' : Z.of_nat (length (loViews options)) < MaxUint32 - 1001 ->
  Forall viewSeedOK (loViews options) -> newLabelStore options = inr s -> star labelStep s s' -> labelServes s s'.
Proof. intros Hl Hs Hn. apply label_invariant. by eapply newLabelStore_ok. Qed.

Lemma labels_sound_witness :
  labelServes sampleLabelStore
    (serveLabels sampleLabelStore (mkStatefulSession ($"INBOX") false) ($"a") ($"UID") ($"a UID COPY 5 Labels/One") true true).1.1.
Proof.
  refine (labels_sound sampleLabels sampleLabelStore _ _ _ _ _); [vm_compute; reflexivity| |apply sample_labels|].
  - repeat constructor; vm_compute; discriminate.
  - eapply star_snoc; [apply star_refl|apply LabelStepCommand].
Defined.

(** Adding a label and taking it away again restores the label view.  A
    UID COPY from a folder selection, the silent [\Deleted] STORE of the UID
    the view allocated and its UID EXPUNGE leave the whole model as it was but
    for that view's UIDNEXT, which has moved on by one. *)
Theorem label_roundtrip s folder label tag target i j source view member uid : labelOK s -> lsUIDPlus s = true ->
  labelFind s (ssSelected folder) = Some (i, source) -> ssSelected folder <> [] -> ssReadOnly folder = false ->
  labelFind s (ssSelected label) = Some (j, view) -> ssSelected label <> [] -> ssReadOnly label = false ->
  labelFind s target = Some (j, view) -> selectableAttributes (lvAttributes view) = true ->
  lvRole source = FolderRole -> lvRole view = LabelRole -> 1 <= uid <= MaxUint32 ->
  byUID (lvMembers source) uid = Some member -> byMessage (lvMembers view) (memMessage member) = None ->
  lvUIDNext view <> MaxUint32 ->
  let s1 := fst (labelUID s folder tag (copyArguments uid target)) in
  let s2 := fst (labelUID s1 label tag (storeArguments (lvUIDNext view))) in
  let s3 := fst (labelUID s2 label tag (expungeArguments (lvUIDNext view))) in
  holds (memMessage member) (copyInto (memMessage member) view) = true /\
  labelFind s1 target = Some (j, copyInto (memMessage member) view) /\
  s3 = setView s j (view <| lvUIDNext := u32 (lvUIDNext view + 1) |>).
Proof.
  intros Hok Hplus Hfolder Hfn Hfw Hlabel Hln Hlw Htarget Hsel Hrole Hrole' Huid Hmember Hnew Hroom s1 s2 s3.
  assert (E1 : s1 = setView s j (copyInto (memMessage member) view)) by (by eapply label_copies). split_and!.
  - apply members_holds. cbn. rewrite map_app. apply elem_of_app. right. by left.
  - rewrite E1. by apply (labelFind_set s _ j view).
  - subst s3. subst s2. rewrite E1. erewrite label_marks; try done. by eapply label_expunges.
Qed.

Lemma label_roundtrip_witness :
  let s1 := fst (labelUID sampleLabelStore (mkStatefulSession ($"INBOX") false) ($"a") (copyArguments 5 ($"Labels/One"))) in
  let s2 := fst (labelUID s1 (mkStatefulSession ($"Labels/One") false) ($"b") (storeArguments 41)) in
  s1 <> sampleLabelStore /\
  fst (labelUID s2 (mkStatefulSession ($"Labels/One") false) ($"b") (expungeArguments 41)) =
    setView sampleLabelStore 1 (mkView ($"Labels/One") LabelRole [] 8001 42 [mkMembership 1 40 false]).
Proof.
  split; [vm_compute; discriminate|].
  refine (proj2 (proj2 (label_roundtrip sampleLabelStore (mkStatefulSession ($"INBOX") false) (mkStatefulSession ($"Labels/One") false)
    ($"b") ($"Labels/One") 0 1 (mkView ($"INBOX") FolderRole [] 1001 13 [mkMembership 0 5 false; mkMembership 1 12 false])
    (mkView ($"Labels/One") LabelRole [] 8001 41 [mkMembership 1 40 false]) (mkMembership 0 5 false) 5
    sample_labels_ok _ _ _ _ _ _ _ _ _ _ _ _ _ _ _)));
    first [reflexivity | discriminate | vm_compute; split; discriminate].
Defined.
