(* ===== verification/TestCommands.v ===== *)
(** * Recorded commands of the test server and its assertions

    How [server.go] names a command, records it and decides whether a
    transcript is free of insecure authentication and of commands outside the
    read-only allowlist, and the readers of search windows, fetched UIDs and
    partial bodies its scripted answers use.  Upper case is exact on the
    runes that fold into ASCII ([to_upper]). *)
From Stdlib Require Import ZArith Lia Strings.Byte.
From stdpp Require Import base list gmap strings.
From S2P Require Import Prelude GoStrings GoText MessageID ImapTokens MailboxStore Transcript MailboxStoreSpec LabelStore LabelStoreSpec.

(** ** Naming and recording *)

Definition parseCommand (raw : bytes) : bytes * bytes :=
  match fields raw with
  | [] => ($"*", [])
  | [tag] => (tag, [])
  | tag :: name :: _ => (tag, to_upper name)
  end.

(** [record]: the commands in receive order, numbered from 1. *)
Definition record (commands : list Command) (raw name : bytes) (tlsEstablished : bool) (connectionID : Z) : list Command * Command :=
  let command := mkCommand (zlen commands + 1) connectionID raw name tlsEstablished in
  (commands ++ [command], command).

Definition isAuthentication (name : bytes) : bool := beqs name ($"LOGIN") || beqs name ($"AUTHENTICATE").

Definition effectiveCommandName (command : Command) : bytes :=
  if negb (beqs (cmdName command) ($"UID")) then cmdName command
  else match fields (cmdRaw command) with
  | _ :: _ :: subcommand :: _ => $"UID " ++ to_upper subcommand
  | _ => cmdName command
  end.

Definition readOnlyUID : list bytes := [$"FETCH"; $"SEARCH"; $"SORT"; $"THREAD"].
Definition readOnlyNames : list bytes :=
  [$"CAPABILITY"; $"STARTTLS"; $"LOGIN"; $"AUTHENTICATE"; $"LOGOUT"; $"NOOP"; $"ID"; $"ENABLE";
   $"LIST"; $"LSUB"; $"STATUS"; $"NAMESPACE"; $"EXAMINE"; $"SEARCH"; $"FETCH"; $"SORT"; $"THREAD";
   $"GETACL"; $"LISTRIGHTS"; $"MYRIGHTS"; $"GETQUOTA"; $"GETQUOTAROOT"; $"GETMETADATA"; $"GETANNOTATION";
   $"IDLE"; $"UNSELECT"].
Definition isReadOnlyCommand (name : bytes) : bool :=
  if has_prefix name ($"UID ") then oneOf (trim_prefix name ($"UID ")) readOnlyUID else oneOf name readOnlyNames.

(** [strings.ReplaceAll] of a nonempty pattern: [skip] bytes of the match
    before are still to be dropped. *)
Fixpoint replaceFrom (old new : bytes) (skip : nat) (s : bytes) : bytes :=
  match s with
  | [] => []
  | c :: s' =>
      match skip with
      | S skip => replaceFrom old new skip s'
      | O => if has_prefix s old then new ++ replaceFrom old new (length old - 1) s' else c :: replaceFrom old new 0 s'
      end
  end.
Definition replaceAll (s old new : bytes) : bytes := replaceFrom old new 0 s.

(** What is left of a FETCH once the items that never set Seen are removed. *)
Definition unsafeBodyText (raw : bytes) : bytes :=
  let upper := to_upper raw in
  let upper := replaceAll upper ($"BODY.PEEK[") [] in
  let upper := replaceAll upper ($"BINARY.PEEK[") [] in
  let upper := replaceAll upper ($"RFC822.SIZE") [] in
  replaceAll upper ($"RFC822.HEADER") [].

Definition isUnsafeBodyFetch (command : Command) : bool :=
  let name := trim_prefix (effectiveCommandName command) ($"UID ") in
  if negb (beqs name ($"FETCH")) then false
  else
    let upper := unsafeBodyText (cmdRaw command) in
    contains_sub upper ($"BODY[") || contains_sub upper ($"BODY<") || contains_sub upper ($"BINARY[") || contains_sub upper ($"RFC822").

(** ** The assertions *)

(** The first LOGIN or AUTHENTICATE received before TLS: name and sequence. *)
Definition AssertNoInsecureAuthentication (commands : list Command) : option (bytes * Z) :=
  match List.find (fun c => negb (cmdTLS c) && isAuthentication (cmdName c)) commands with
  | Some c => Some (cmdName c, cmdSequence c)
  | None => None
  end.

Definition readOnlyViolation (command : Command) : bool :=
  negb (isReadOnlyCommand (effectiveCommandName command)) || isUnsafeBodyFetch command.

(** The violations the error lists; none is success. *)
Definition AssertReadOnlyCommands (commands : list Command) : list (bytes * Z) :=
  map (fun c => (effectiveCommandName c, cmdSequence c)) (List.filter readOnlyViolation commands).

(** ** Reading search windows, UIDs and partials *)

Fixpoint trimLeftSet (set s : bytes) : bytes :=
  match s with c :: s' => if contains_byte c set then trimLeftSet set s' else s | [] => [] end.
(** [strings.Trim]. *)
Definition trimSet (set s : bytes) : bytes := trim_right set (trimLeftSet set s).

(** One value after a UID key. *)
Definition searchUIDValue (value : bytes) : option (Z * Z) :=
  let '(startText, endText, hasRange) := cut_byte ":"%byte value in
  let endText := if hasRange then endText else value in
  match parse_uint startText 32, parse_uint endText 32 with
  | Some start, Some stop => if (0 <? start) && (start <=? stop) then Some (start, stop) else None
  | _, _ => None
  end.

(** [searchUIDRange]: the first UID key with a well-formed value. *)
Fixpoint searchUIDFields (words : list bytes) : option (Z * Z) :=
  match words with
  | [] => None
  | field :: rest =>
      match (if equal_fold field ($"UID") then match rest with value :: _ => searchUIDValue (trimSet ($"(),") value) | [] => None end else None) with
      | Some r => Some r
      | None => searchUIDFields rest
      end
  end.
Definition searchUIDRange (raw : bytes) : option (Z * Z) := searchUIDFields (fields raw).

Definition searchWindowIsExact (raw : bytes) : bool :=
  match searchUIDRange raw with Some (start, stop) => start =? stop | None => false end.
Definition searchWindowEnd (raw : bytes) : Z :=
  match searchUIDRange raw with Some (_, stop) => stop | None => 1 end.

Fixpoint fetchUIDFields (words : list bytes) : Z :=
  match words with
  | [] => 101
  | field :: rest =>
      match (if equal_fold field ($"FETCH") then match rest with value :: _ => parse_uint (trimSet ($"(),") value) 32 | [] => None end else None) with
      | Some v => if 0 <? v then v else fetchUIDFields rest
      | None => fetchUIDFields rest
      end
  end.
Definition fetchResponseUID (raw : bytes) : Z := fetchUIDFields (fields raw).

(** [partialBodyLiteral]: the first bytes of the literal, as many as the
    partial asks for, when it starts at 0 and asks for fewer than there are. *)
Definition partialBodyLiteral (raw literal : bytes) : bytes :=
  let marker := $"BODY.PEEK[]<0." in
  match index_sub marker (to_upper raw) with
  | None => literal
  | Some start =>
      let rest := drop (start + length marker) raw in
      match index_byte ">"%byte rest with
      | None => literal
      | Some stop =>
          match parse_nonnegative (take stop rest) with
          | None => literal
          | Some size => if zlen literal <=? size then literal else take (Z.to_nat size) literal
          end
      end
  end.

Definition fetchResponseSection (raw : bytes) (header : bool) : bytes :=
  if header then $"[HEADER]"
  else
    let upper := to_upper raw in
    let marker := $"BODY.PEEK[]<" in
    match index_sub marker upper with
    | None => $"[]"
    | Some start =>
        let rest := drop (start + length marker) upper in
        match index_byte "."%byte rest with
        | None => $"[]"
        | Some stop => $"[]<" ++ take stop rest ++ $">"
        end
    end.

(** [strings.Map] of [fetchRequestsFlags]: the bytes inside brackets become
    spaces.  The bytes of other runes are kept as they are. *)
Fixpoint stripSections (depth : Z) (s : bytes) : bytes :=
  match s with
  | [] => []
  | c :: s =>
      if c =b "["%byte then " "%byte :: stripSections (depth + 1) s
      else if (c =b "]"%byte) && (0 <? depth) then " "%byte :: stripSections (depth - 1) s
      else (if 0 <? depth then " "%byte else c) :: stripSections depth s
  end.

(** [strings.FieldsFunc] at spaces and parentheses; [word] is the field so far. *)
Fixpoint itemWords (word s : bytes) : list bytes :=
  match s with
  | [] => match word with [] => [] | _ => [word] end
  | c :: s =>
      if stopByte c then match word with [] => itemWords [] s | _ => word :: itemWords [] s end
      else itemWords (word ++ [c]) s
  end.

Definition fetchRequestsFlags (items : list bytes) : bool :=
  existsb (fun item => equal_fold item ($"FLAGS")) (itemWords [] (stripSections 0 (join_space items))).

(** * What the read-only assertion sees

    On printable commands the words [AssertReadOnlyCommands] looks at are the
    words the servers act on: a UID command that could change a mailbox never
    has a read-only name.  With a tab in it, it can. *)

(** ** Words of printable text *)

Definition printable (c : byte) : bool := (32 <=? bZ c) && (bZ c <? 127).
Definition commandLine (raw : bytes) : Prop :=
  Forall (fun c => printable c = true) raw /\ (forall r, raw <> " "%byte :: r).

Lemma pieces_printable b s : printable b = true -> pieces (b :: s) = (bZ b, [b]) :: pieces s.
Proof.
  intros H. pose proof (pieces_step b s) as E. unfold printable in H. rewrite decode_rune_ascii in E by (bool_prop; lia). done.
Qed.

Lemma space_printable b : printable b = true -> is_space (bZ b) = (b =b " "%byte).
Proof.
  intros H. assert (E : negb (printable b) || Bool.eqb (is_space (bZ b)) (b =b " "%byte) = true) by (clear H; by_all_bytes b).
  rewrite H in E. by apply Bool.eqb_prop in E.
Qed.

(** The fields of printable text: cut at every space, empty words dropped. *)
Fixpoint spaceWords (word s : bytes) : list bytes :=
  match s with
  | [] => match word with [] => [] | _ => [word] end
  | c :: s =>
      if c =b " "%byte then match word with [] => spaceWords [] s | _ => word :: spaceWords [] s end
      else spaceWords (word ++ [c]) s
  end.

Lemma fields_printable s : Forall (fun c => printable c = true) s -> fields s = spaceWords [] s.
Proof.
  unfold fields. generalize (@nil byte) as word. induction s as [|c s IH]; intros word H; [done|]. apply Forall_cons in H as [Hc H].
  rewrite pieces_printable by done. cbn [fields_aux spaceWords]. rewrite space_printable by done.
  destruct (c =b " "%byte); [destruct word; by rewrite IH|]. by apply IH.
Qed.

Lemma spaceWords_word w word s : ~ In " "%byte w -> spaceWords word (w ++ s) = spaceWords (word ++ w) s.
Proof.
  revert word. induction w as [|c w IH]; intros word H; [by rewrite app_nil_r|]. cbn.
  destruct (c =b " "%byte) eqn:E; [apply beq_eq in E as ->; destruct H; by left|]. rewrite IH, <- app_assoc; [done|]. intros ?. apply H. by right.
Qed.

Lemma spaceWords_space word s : word <> [] -> spaceWords word (" "%byte :: s) = word :: spaceWords [] s.
Proof. by destruct word. Qed.

Lemma spaceWords_trim s : spaceWords [] s = spaceWords [] (trimSpaces s).
Proof. induction s as [|c s IH]; [done|]. cbn. destruct (c =b " "%byte) eqn:E; [done|]. cbn. by rewrite E. Qed.

(** The word in progress is a prefix of the next word. *)
Lemma spaceWords_first word s : word <> [] -> exists x ws, spaceWords word s = (word ++ x) :: ws /\ (exists r, s = x ++ r).
Proof.
  revert word. induction s as [|c s IH]; intros word H; cbn.
  - destruct word as [|d word]; [done|]. exists [], []. rewrite app_nil_r. split; [done|]. by exists [].
  - destruct (c =b " "%byte).
    + destruct word as [|d word]; [done|]. exists [], (spaceWords [] s). rewrite app_nil_r. split; [done|]. by exists (c :: s).
    + destruct (IH (word ++ [c])) as (x & ws & E & r & ->); [by destruct word|]. exists (c :: x), ws. rewrite E, <- app_assoc. split; [done|]. by exists r.
Qed.

(** ** The first token *)

Lemma parseTokens_acc n : forall nested acc input l r, (length input < n)%nat -> parseTokens nested acc input = inr (l, r) ->
  l = [] \/ exists l', l = acc ++ l'.
Proof.
  induction n as [|n IH]; intros nested acc input l r Hn; [lia|]. rewrite parseTokens_eq.
  pose proof (trimSpaces_length input) as Hl. destruct (trimSpaces input) as [|c rest] eqn:E.
  { destruct nested; [done|]. intros [= <- _]. right. exists []. by rewrite app_nil_r. }
  cbn in Hl. destruct (c =b ")"%byte) eqn:Ec.
  { destruct nested; intros [= <- _]; [right; exists []; by rewrite app_nil_r|by left]. }
  assert (Hstep : forall t input', (length input' < n)%nat -> parseTokens nested (acc ++ [t]) input' = inr (l, r) -> l = [] \/ exists l', l = acc ++ l').
  { intros t input' Hi H. apply IH in H as [->|[l' ->]]; [by left|right|done]. exists (t :: l'). by rewrite <- app_assoc. }
  destruct (c =b "("%byte) eqn:Eo.
  { pose proof (parseTokens_shorter true [] rest) as Hs. destruct (parseTokens true [] rest) as [e|[l1 r1]]; [done|]. cbn in Hs. apply Hstep. lia. }
  destruct (c =b dquote).
  { destruct (readQuoted rest) as [e|[v r1]] eqn:Er; [done|]. apply readQuotedFrom_length in Er. apply Hstep. lia. }
  assert (Hc : stopByte c = false).
  { unfold stopByte. rewrite Ec, Eo, !orb_false_r. destruct (c =b " "%byte) eqn:F; [|done].
    apply beq_eq in F as ->. exfalso. by eapply trimSpaces_head. }
  destruct (scanAtom 0 (c :: rest)) as [[v r1] d] eqn:Es. destruct (negb (d =? 0)); [done|].
  apply scanAtom_length in Es; [|done]. apply Hstep. lia.
Qed.

(** The text of a first atom starts the text. *)
Lemma tokenizeText_first text v ts : tokenizeText text = inr (Atom v :: ts) -> v <> [] /\ exists r, trimSpaces text = v ++ r.
Proof.
  unfold tokenizeText. rewrite tokenizeList_enough by lia. destruct (parseTokens false [] text) as [e|[l [|? ?]]] eqn:E; [done| |done].
  intros [= ->]. rewrite parseTokens_eq in E. destruct (trimSpaces text) as [|c rest] eqn:Et; [done|].
  destruct (c =b ")"%byte) eqn:Ec; [done|].
  assert (Hacc : forall t input, parseTokens false [t] input = inr (Atom v :: ts, []) -> t = Atom v).
  { intros t input H. eapply parseTokens_acc in H as [H|[l' H]]; [done|by injection H as ->|apply Nat.lt_succ_diag_r]. }
  destruct (c =b "("%byte) eqn:Eo; [destruct (parseTokens true [] rest) as [?|[? ?]]; [done|]; by apply Hacc in E|].
  destruct (c =b dquote); [destruct (readQuoted rest) as [?|[? ?]]; [done|]; by apply Hacc in E|].
  assert (Hc : stopByte c = false).
  { unfold stopByte. rewrite Ec, Eo, !orb_false_r. destruct (c =b " "%byte) eqn:F; [|done].
    apply beq_eq in F as ->. exfalso. by eapply trimSpaces_head. }
  destruct (scanAtom_first c rest Hc) as (d & w & Es). destruct (scanAtom 0 (c :: rest)) as [[v1 r1] d1] eqn:Es1.
  destruct (negb (d1 =? 0)); [done|]. apply Hacc in E. injection E as ->. injection Es as -> -> ->. split; [done|].
  exists (scanAtom d rest).1.2. by apply scanAtom_split in Es1.
Qed.

(** ** The name the assertion sees *)

Lemma argumentText_split raw text : argumentText raw = Some text ->
  exists w1 w2, raw = w1 ++ " "%byte :: w2 ++ " "%byte :: text /\ ~ In " "%byte w1 /\ ~ In " "%byte w2.
Proof.
  unfold argumentText. destruct (cut_byte _ raw) as [[w1 r1] f1] eqn:E1. destruct f1; [|done]. cbn [negb].
  destruct (cut_byte _ r1) as [[w2 r2] f2] eqn:E2. destruct f2; [|done]. cbn [negb]. intros [= ->].
  apply cut_byte_true in E1 as [-> H1]. apply cut_byte_true in E2 as [-> H2]. by exists w1, w2.
Qed.

Lemma first_word_atom text v ts : tokenizeText text = inr (Atom v :: ts) -> ~ In " "%byte v ->
  exists x ws, spaceWords [] text = (v ++ x) :: ws /\ exists r, trimSpaces text = (v ++ x) ++ r.
Proof.
  intros H Hv. destruct (tokenizeText_first text v ts H) as (Hne & r & E). rewrite spaceWords_trim, E, spaceWords_word by done. cbn [app].
  destruct (spaceWords_first v r Hne) as (x & ws & E' & r' & ->). exists x, ws. split; [done|]. exists r'. by rewrite <- app_assoc.
Qed.

Lemma trimSpaces_suffix s : exists l, s = l ++ trimSpaces s.
Proof. induction s as [|c s [l IH]]; [by exists []|]. cbn. destruct (c =b " "%byte); [exists (c :: l); by rewrite IH at 1|by exists []]. Qed.

Lemma Forall_app_l {A} (P : A -> Prop) l k : Forall P (l ++ k) -> Forall P l.
Proof. by intros [? ?]%Forall_app. Qed.

Lemma text_ascii raw text t : commandLine raw -> argumentText raw = Some text -> trimSpaces text = t -> Forall (fun c => bZ c < 127) t.
Proof.
  intros [Hp _] Ha <-. destruct (argumentText_split _ _ Ha) as (w1 & w2 & Hraw & _). destruct (trimSpaces_suffix text) as [l Hl].
  rewrite Hl in Hraw. rewrite Hraw in Hp. apply Forall_app in Hp as [_ Hp]. apply Forall_cons in Hp as [_ Hp]. apply Forall_app in Hp as [_ Hp].
  apply Forall_cons in Hp as [_ Hp]. apply Forall_app in Hp as [_ Hp]. eapply Forall_impl; [exact Hp|]. intros c Hc. unfold printable in Hc. cbn in Hc. bool_prop. lia.
Qed.

Lemma effective_name tag raw seq conn tls text v ts : commandLine raw -> parseCommand raw = (tag, $"UID") ->
  argumentText raw = Some text -> tokenizeText text = inr (Atom v :: ts) -> ~ In " "%byte v ->
  exists x, Forall (fun c => bZ c < 127) (v ++ x) /\ (to_upper (v ++ x) = $"UID" \/
    effectiveCommandName (mkCommand seq conn raw ($"UID") tls) = $"UID " ++ to_upper (v ++ x)).
Proof.
  intros Hl Hname Ha Ht Hv. destruct (first_word_atom _ _ _ Ht Hv) as (x & ws & Hw & r & Hr). exists x.
  split; [eapply Forall_app_l; by eapply text_ascii|]. pose proof Hl as [Hp Hlead].
  destruct (argumentText_split _ _ Ha) as (w1 & w2 & Hraw & H1 & H2).
  assert (Hw1 : w1 <> []) by (intros ->; by eapply Hlead).
  assert (Hf : fields raw = w1 :: (match w2 with [] => [] | _ => [w2] end) ++ (v ++ x) :: ws).
  { rewrite fields_printable by done. rewrite Hraw, spaceWords_word by done. cbn [app]. rewrite spaceWords_space by done. f_equal.
    rewrite spaceWords_word by done. cbn [app]. destruct w2 as [|c w2]; [done|]. by rewrite spaceWords_space, Hw. }
  unfold parseCommand in Hname. rewrite Hf in Hname. unfold effectiveCommandName. cbn [cmdName cmdRaw].
  change (beqs ($"UID") ($"UID")) with true. cbn [negb]. rewrite Hf.
  destruct w2 as [|c w2]; cbn [app] in *; [injection Hname as _ ->; by left|by right].
Qed.

Lemma to_upper_app s t : Forall (fun c => bZ c < 127) (s ++ t) -> to_upper (s ++ t) = to_upper s ++ to_upper t.
Proof. intros H. pose proof H as [H1 H2]%Forall_app. by rewrite !to_upper_ascii, map_app. Qed.

(** The subcommands that can change a mailbox. *)
Definition mutating (v : bytes) : bool := oneOf (to_upper v) [$"STORE"; $"MOVE"; $"COPY"; $"EXPUNGE"].

Lemma mutating_not_readonly v x : mutating v = true -> Forall (fun c => bZ c < 127) (v ++ x) ->
  to_upper (v ++ x) <> $"UID" /\ isReadOnlyCommand ($"UID " ++ to_upper (v ++ x)) = false.
Proof.
  intros Hm Ha. rewrite to_upper_app by done. unfold mutating, oneOf in Hm. cbn [existsb] in Hm.
  repeat (apply orb_true_iff in Hm as [Hm|Hm]); try discriminate Hm; apply beqs_eq in Hm; rewrite Hm; split; try discriminate; reflexivity.
Qed.

Lemma mutating_no_space v : mutating v = true -> Forall (fun c => bZ c < 127) v -> ~ In " "%byte v.
Proof.
  intros Hm Ha Hi. unfold mutating, oneOf in Hm. cbn [existsb] in Hm. rewrite to_upper_ascii in Hm by done.
  assert (H : In " "%byte (map ascii_upper v)) by (apply in_map_iff; by exists " "%byte).
  repeat (apply orb_true_iff in Hm as [Hm|Hm]); try discriminate Hm; apply beqs_eq in Hm; rewrite Hm in H; cbn in H; intuition discriminate.
Qed.

(** The guard: on a command line, a first token that can change a mailbox
    never has a read-only name. *)
Lemma mutation_has_name tag raw seq conn tls v ts : commandLine raw -> parseCommand raw = (tag, $"UID") ->
  tokenizeArguments raw = inr (Atom v :: ts) -> mutating v = true ->
  readOnlyViolation (mkCommand seq conn raw ($"UID") tls) = true.
Proof.
  intros Hl Hname Ht Hm. unfold tokenizeArguments in Ht. destruct (argumentText raw) as [text|] eqn:Ea; [|done].
  assert (Hu : Forall (fun c => bZ c < 127) v).
  { destruct (tokenizeText_first _ _ _ Ht) as [_ [r Er]]. eapply Forall_app_l, text_ascii; [exact Hl|exact Ea|exact Er]. }
  assert (Hv : ~ In " "%byte v) by (by apply mutating_no_space).
  destruct (effective_name tag raw seq conn tls text v ts Hl Hname Ea Ht Hv) as (x & Hx & Heff).
  destruct (mutating_not_readonly v x Hm Hx) as [H1 H2]. destruct Heff as [Heff|Heff]; [done|].
  unfold readOnlyViolation. by rewrite Heff, H2.
Qed.

(** ** What changes a store has such a name *)

Lemma stateful_change s session tag name raw tls auth :
  (serveStateful s session tag name raw tls auth).1.1 <> s ->
  name = $"UID" /\ exists v ts, tokenizeArguments raw = inr (Atom v :: ts) /\ mutating v = true.
Proof.
  intros H. assert (Hname : name = $"UID").
  { destruct (decide (name = $"UID")); [done|]. destruct H. apply serve_unchanged. auto. }
  split; [done|]. subst name. unfold serveStateful in H. destruct (refuseLiteral tag raw); [done|].
  destruct (_ || _); [done|]. destruct (beqs _ ($"CAPABILITY")); [done|]. destruct (negb auth); [done|].
  destruct (tokenizeArguments raw) as [e|args]; [done|]. unfold statefulCommand in H.
  change (beqs ($"UID") ($"LIST")) with false in H. change (beqs ($"UID") ($"SELECT") || beqs ($"UID") ($"EXAMINE")) with false in H.
  change (beqs ($"UID") ($"STATUS")) with false in H. change (beqs ($"UID") ($"UID")) with true in H. cbv iota in H.
  destruct (statefulUID s session tag args) as [s' lines] eqn:E. cbn in H. unfold statefulUID in E.
  destruct (uidSubcommand (storeMove s) tag args) as [e|c] eqn:Es; [by injection E as <- _|].
  destruct (beqs (ssSelected session) []); [by injection E as <- _|]. destruct (find s _) as [[i mb]|]; [|by injection E as <- _].
  unfold uidSubcommand in Es. destruct args as [|[v|v|l] ts]; [done| |done|done]. exists v, ts. split; [done|].
  cbn [tokIsList tokQuoted tokValue orb] in Es. unfold mutating, oneOf. cbn [existsb].
  destruct (beqs (to_upper v) ($"FETCH")); [injection Es as <-; by injection E as <- _|].
  destruct (beqs (to_upper v) ($"SEARCH")); [injection Es as <-; by injection E as <- _|].
  destruct (beqs (to_upper v) ($"STORE")); [done|]. destruct (beqs (to_upper v) ($"MOVE")); [done|].
  by destruct (_ || _).
Qed.

Lemma label_change s session tag name raw tls auth :
  (serveLabels s session tag name raw tls auth).1.1 <> s ->
  name = $"UID" /\ exists v ts, tokenizeArguments raw = inr (Atom v :: ts) /\ mutating v = true.
Proof.
  unfold serveLabels. destruct (refuseLiteral tag raw); [done|].
  destruct (_ || _); [done|]. destruct (beqs name ($"CAPABILITY")); [done|]. destruct (negb auth); [done|].
  destruct (tokenizeArguments raw) as [e|args]; [done|]. unfold labelCommandLines.
  destruct (beqs name ($"LIST")); [done|]. destruct (_ || _); [by destruct (labelSelect s tag name args)|].
  destruct (beqs name ($"STATUS")); [done|]. destruct (beqs name ($"UID")) eqn:En; [|by destruct (oneOf _ _)]. apply beqs_eq in En.
  destruct (labelUID s session tag args) as [s' lines] eqn:E. cbn. intros H. split; [done|]. unfold labelUID in E.
  destruct (labelSubcommand (lsUIDPlus s) tag args) as [e|c] eqn:Es; [by injection E as <- _|].
  destruct (beqs (ssSelected session) []); [by injection E as <- _|]. destruct (labelFind s _) as [[i v]|]; [|by injection E as <- _].
  unfold labelSubcommand in Es. destruct args as [|[a|a|l] ts]; [done| |done|done]. exists a, ts. split; [done|].
  cbn [tokIsList tokQuoted tokValue orb] in Es. unfold mutating, oneOf. cbn [existsb].
  destruct (beqs (to_upper a) ($"FETCH")); [injection Es as <-; by injection E as <- _|].
  destruct (beqs (to_upper a) ($"SEARCH")); [injection Es as <-; by injection E as <- _|].
  destruct (beqs (to_upper a) ($"COPY")) eqn:E9; [apply beqs_eq in E9; by rewrite E9|]. destruct (beqs (to_upper a) ($"STORE")) eqn:E8; [apply beqs_eq in E8; by rewrite E8|].
  destruct (beqs (to_upper a) ($"EXPUNGE")) eqn:E10; [apply beqs_eq in E10; by rewrite E10|]. by destruct (beqs (to_upper a) ($"MOVE")).
Qed.

(** A printable command the assertion accepts changes neither store. *)
Lemma readonly_command_inert raw seq conn tls : commandLine raw ->
  let '(tag, name) := parseCommand raw in
  readOnlyViolation (mkCommand seq conn raw name tls) = false ->
  (forall s session reply t a, (serveStateful s session reply name raw t a).1.1 = s) /\
  (forall s session reply t a, (serveLabels s session reply name raw t a).1.1 = s).
Proof.
  intros Hl. destruct (parseCommand raw) as [tag name] eqn:Hp. intros Hv. split; intros s session reply t a.
  - destruct (decide ((serveStateful s session reply name raw t a).1.1 = s)) as [|Hne]; [done|exfalso].
    destruct (stateful_change _ _ _ _ _ _ _ Hne) as (-> & v & ts & Ht & Hm).
    rewrite (mutation_has_name tag raw seq conn tls v ts) in Hv; done.
  - destruct (decide ((serveLabels s session reply name raw t a).1.1 = s)) as [|Hne]; [done|exfalso].
    destruct (label_change _ _ _ _ _ _ _ Hne) as (-> & v & ts & Ht & Hm).
    rewrite (mutation_has_name tag raw seq conn tls v ts) in Hv; done.
Qed.

(** With a tab the assertion reads another word than the server: the command
    is named UID FETCH and marks a message Seen. *)
Definition tabCommand : bytes := $"a" ++ [x09] ++ $"UID FETCH STORE 7 +FLAGS (\Seen)".

Lemma tab_bypasses_assertion :
  readOnlyViolation (mkCommand 1 1 tabCommand (parseCommand tabCommand).2 true) = false /\
  (serveStateful sampleStore (mkStatefulSession ($"INBOX") false) (parseCommand tabCommand).1 (parseCommand tabCommand).2 tabCommand true true).1.1
    <> sampleStore.
Proof. split; [vm_compute; reflexivity|]. vm_compute. discriminate. Qed.
