(* ===== verification/BodyStructureFixture.v ===== *)
(** * The typed BODYSTRUCTURE fixture

    The descriptors of synthetic BODYSTRUCTURE trees ([bodystructure.go]):
    their validation, their rendering and the request-driven FETCH that serves
    them.  Descriptors are pointers, so a tree is given by a heap and a root:
    parts may be nil, shared or cyclic, and validation is what rules the cycles
    out. *)
From Stdlib Require Import ZArith Lia Strings.Byte.
From stdpp Require Import base list gmap strings.
From S2P Require Import Prelude GoStrings GoText MessageID ImapTokens MailboxStore ImapGrammar Quarantine QuarantineGrammar.

(** ** Descriptors *)

Definition maxBodyStructureMessages : Z := 64.
Definition maxBodyStructureNodes : Z := 128.
Definition maxBodyStructureDepth : Z := 16.
Definition maxBodyStructureParams : Z := 8.
Definition maxBodyStructureValue : Z := 512.
Definition maxBodyStructureBytes : Z := 65536.

Inductive BodyPartKind := BodyPartText | BodyPartBasic | BodyPartMultipart | UnknownKind (kind : Z).
Record BodyParam := mkBodyParam { bpName : bytes; bpValue : bytes }.
Record BodyDisposition := mkDisposition { bdValue : bytes; bdParams : list BodyParam }.

(** A pointer: [None] is nil. *)
Abbreviation pointer := (option nat).
Record BodyPart := mkBodyPart {
  partKind : BodyPartKind; partType : bytes; partSubtype : bytes; partParams : list BodyParam; partEncoding : bytes;
  partSize : Z; partLines : Z; partDisposition : option BodyDisposition; partChildren : list pointer }.
Abbreviation heap := (gmap nat BodyPart).

Definition bodyStructureEncodings : list bytes := [$"7bit"; $"8bit"; $"binary"; $"base64"; $"quoted-printable"].

(** ** Validation *)

Inductive bodyError :=
| NilPart | CyclicPart | TooManyParts | TooDeep | TooManyParams
| EmptyValue | LongValue | NotSingleLine
| MultipartType | MultipartFields | LeafChildren | BadEncoding | TextType | BasicType | BasicLines | BadKind.

Definition validateBodyValue (value : bytes) (optional : bool) : option bodyError :=
  if beqs value [] && negb optional then Some EmptyValue
  else if maxBodyStructureValue <? zlen value then Some LongValue
  else if negb (valid_string value) || contains_any value [x0d; x0a; x00] then Some NotSingleLine
  else None.

Fixpoint firstError {A} (check : A -> option bodyError) (l : list A) : option bodyError :=
  match l with
  | [] => None
  | x :: l => match check x with Some e => Some e | None => firstError check l end
  end.

Definition paramValues (params : list BodyParam) : list bytes := concat (map (fun p => [bpName p; bpValue p]) params).
(** The values that must not be empty, in the order they are checked. *)
Definition requiredValues (part : BodyPart) : list bytes :=
  partSubtype part :: paramValues (partParams part)
    ++ match partDisposition part with Some d => bdValue d :: paramValues (bdParams d) | None => [] end.

Definition validateKind (part : BodyPart) : option bodyError :=
  let leaf :=
    if negb (bool_decide (partChildren part = [])) then Some LeafChildren
    else if negb (beqs (partEncoding part) []) && negb (existsb (beqs (to_lower (partEncoding part))) bodyStructureEncodings) then Some BadEncoding
    else None in
  let text := equal_fold (partType part) ($"text") in
  match partKind part with
  | BodyPartMultipart =>
      if negb (beqs (partType part) []) && negb (equal_fold (partType part) ($"multipart")) then Some MultipartType
      else if bool_decide (partChildren part = []) || negb (beqs (partEncoding part) []) || negb (partSize part =? 0) || negb (partLines part =? 0)
      then Some MultipartFields
      else None
  | BodyPartText => match leaf with Some e => Some e | None => if negb text then Some TextType else None end
  | BodyPartBasic =>
      match leaf with
      | Some e => Some e
      | None =>
          if beqs (partType part) [] || text || equal_fold (partType part) ($"multipart") || equal_fold (partType part) ($"message")
          then Some BasicType
          else if negb (partLines part =? 0) then Some BasicLines
          else None
      end
  | UnknownKind _ => Some BadKind
  end.

Definition validateBodyPartFields (part : BodyPart) : option bodyError :=
  let params := zlen (partParams part) + match partDisposition part with Some d => zlen (bdParams d) | None => 0 end in
  if maxBodyStructureParams <? params then Some TooManyParams
  else match firstError (fun v => validateBodyValue v false) (requiredValues part) with
  | Some e => Some e
  | None =>
      match firstError (fun v => validateBodyValue v true) [partType part; partEncoding part] with
      | Some e => Some e
      | None => validateKind part
      end
  end.

(** [validateBodyPart]: the count of nodes after it, or the error.  [path] holds
    the nodes of the current branch.  A node deeper than the limit is refused
    before its children, so fuel for one level more than the limit is enough. *)
Fixpoint validateBodyPart (fuel : nat) (h : heap) (part : pointer) (depth nodes : Z) (path : list nat) : option (bodyError + Z) :=
  match fuel with
  | O => None
  | S fuel =>
      match part with
      | None => Some (inl NilPart)
      | Some p =>
          match h !! p with
          | None => Some (inl NilPart)
          | Some node =>
              if bool_decide (p ∈ path) then Some (inl CyclicPart)
              else if maxBodyStructureNodes <? nodes + 1 then Some (inl TooManyParts)
              else if maxBodyStructureDepth <? depth then Some (inl TooDeep)
              else match validateBodyPartFields node with
              | Some e => Some (inl e)
              | None =>
                  (fix children (l : list pointer) (nodes : Z) : option (bodyError + Z) :=
                     match l with
                     | [] => Some (inr nodes)
                     | child :: l =>
                         match validateBodyPart fuel h child (depth + 1) nodes (p :: path) with
                         | Some (inr nodes) => children l nodes
                         | r => r
                         end
                     end) (partChildren node) (nodes + 1)
              end
          end
      end
  end.

(** ** Rendering *)

Definition quotable (value : bytes) : bool := forallb (fun c => negb ((bZ c <? 32) || (126 <? bZ c))) value.

Definition renderBodyString (value : bytes) : bytes :=
  if quotable value then dquote :: escapeQuoted value ++ [dquote]
  else $"{" ++ decimal (zlen value) ++ $"}" ++ [x0d; x0a] ++ value.

Definition renderParam (p : BodyParam) : bytes := renderBodyString (bpName p) ++ $" " ++ renderBodyString (bpValue p).
Definition renderBodyParams (params : list BodyParam) : bytes :=
  match params with
  | [] => $"NIL"
  | _ => $"(" ++ join_byte " "%byte (map renderParam params) ++ $")"
  end.

Definition renderBodyDisposition (disposition : option BodyDisposition) : bytes :=
  match disposition with
  | None => $"NIL"
  | Some d => $"(" ++ renderBodyString (bdValue d) ++ $" " ++ renderBodyParams (bdParams d) ++ $")"
  end.

Definition partEncodingText (part : BodyPart) : bytes := if beqs (partEncoding part) [] then $"7bit" else partEncoding part.

Definition renderLeaf (part : BodyPart) : bytes :=
  $"(" ++ renderBodyString (partType part) ++ $" " ++ renderBodyString (partSubtype part) ++ $" " ++ renderBodyParams (partParams part)
    ++ $" NIL NIL " ++ renderBodyString (partEncodingText part) ++ $" " ++ decimal (partSize part)
    ++ (match partKind part with BodyPartText => $" " ++ decimal (partLines part) | _ => [] end)
    ++ $" NIL " ++ renderBodyDisposition (partDisposition part) ++ $" NIL NIL)".

Definition renderMultipart (part : BodyPart) (children : bytes) : bytes :=
  $"(" ++ children ++ $" " ++ renderBodyString (partSubtype part) ++ $" " ++ renderBodyParams (partParams part) ++ $" "
    ++ renderBodyDisposition (partDisposition part) ++ $" NIL NIL)".

(** [renderBodyPart]; [None] when the fuel runs out or a pointer is nil, which a
    validated part rules out. *)
Fixpoint renderBodyPart (fuel : nat) (h : heap) (part : pointer) : option bytes :=
  match fuel with
  | O => None
  | S fuel =>
      match part ≫= (fun p => h !! p) with
      | None => None
      | Some node =>
          match partKind node with
          | BodyPartMultipart =>
              option_map (renderMultipart node)
                ((fix children (l : list pointer) : option bytes :=
                    match l with
                    | [] => Some []
                    | child :: l =>
                        match renderBodyPart fuel h child, children l with
                        | Some s, Some rest => Some (s ++ rest)
                        | _, _ => None
                        end
                    end) (partChildren node))
          | _ => Some (renderLeaf node)
          end
      end
  end.

(** ** All descriptors of a server *)

Inductive structuresError :=
| NeedMessages | CountMismatch | TooManyMessages | CannotCombine | BadStructure (index : nat) (e : bodyError) | TooLong (index : nat) (size : Z).

Definition maxLevels : nat := Z.to_nat maxBodyStructureDepth + 1.

Definition renderStructure (h : heap) (index : nat) (root : pointer) : structuresError + bytes :=
  match validateBodyPart maxLevels h root 1 0 [] with
  | Some (inl e) => inl (BadStructure index e)
  | None => inl (BadStructure index TooDeep)
  | Some (inr _) =>
      match renderBodyPart maxLevels h root with
      | None => inl (BadStructure index NilPart)
      | Some text => if maxBodyStructureBytes <? zlen text then inl (TooLong index (zlen text)) else inr text
      end
  end.

Fixpoint renderStructures (h : heap) (index : nat) (roots : list pointer) : structuresError + list bytes :=
  match roots with
  | [] => inr []
  | root :: roots =>
      match renderStructure h index root with
      | inl e => inl e
      | inr text => match renderStructures h (S index) roots with inl e => inl e | inr texts => inr (text :: texts) end
      end
  end.

(** [newBodyStructures]; [plain] says that the metadata FLAGS mode is ordinary
    and the scenario is the zero one.  [None] is the nil result. *)
Definition newBodyStructures (h : heap) (structures : option (list pointer)) (messages : list bytes) (plain : bool) :
    structuresError + option (list bytes) :=
  match structures with
  | None => inr None
  | Some roots =>
      if bool_decide (messages = []) then inl NeedMessages
      else if negb (zlen roots =? zlen messages) then inl CountMismatch
      else if maxBodyStructureMessages <? zlen messages then inl TooManyMessages
      else if negb plain then inl CannotCombine
      else match renderStructures h 0 roots with inl e => inl e | inr texts => inr (Some texts) end
  end.

(** ** The request-driven FETCH *)

Inductive structureName := NameUID | NameFlags | NameSize | NameStructure | NameHeader | NameBody.
#[export] Instance structureName_eq : EqDecision structureName.
Proof. solve_decision. Defined.

Definition structureNameText (n : structureName) : bytes :=
  match n with
  | NameUID => $"UID" | NameFlags => $"FLAGS" | NameSize => $"RFC822.SIZE" | NameStructure => $"BODYSTRUCTURE"
  | NameHeader => $"HEADER" | NameBody => $"BODY"
  end.

(** An item, with the offset and size of a partial body. *)
Record structureFetchItem := mkStructureItem { siName : structureName; siPartial : option (Z * Z) }.

Inductive fetchError :=
| MissingItems
| UnsupportedItem (token : bytes)
| InvalidPartial (token : bytes)
| DuplicateItem (name : structureName)
| InvalidUIDSet (set : bytes).

(** [%q] of ASCII text; the bytes of other runes are kept. *)
Definition goQuoteByte (c : byte) : bytes :=
  if (c =b dquote) || (c =b backslash) then [backslash; c]
  else if c =b x07 then $"\a" else if c =b x08 then $"\b" else if c =b x0c then $"\f" else if c =b x0a then $"\n"
  else if c =b x0d then $"\r" else if c =b x09 then $"\t" else if c =b x0b then $"\v"
  else if (bZ c <? 32) || (bZ c =? 127) then $"\x" ++ [hex_digit (bZ c / 16); hex_digit (bZ c mod 16)]
  else [c].
Definition goQuote (s : bytes) : bytes := dquote :: concat (map goQuoteByte s) ++ [dquote].

(** [err.Error()]. *)
Definition fetchErrorText (e : fetchError) : bytes :=
  match e with
  | MissingItems => $"missing UID set or items"
  | UnsupportedItem token => $"unsupported FETCH item " ++ goQuote token
  | InvalidPartial token => $"invalid partial FETCH item " ++ goQuote token
  | DuplicateItem name => $"duplicate FETCH item " ++ structureNameText name
  | InvalidUIDSet set => $"invalid UID set " ++ goQuote set
  end.

Definition parseStructureFetchItem (token : bytes) : fetchError + structureFetchItem :=
  if beqs token ($"UID") then inr (mkStructureItem NameUID None)
  else if beqs token ($"FLAGS") then inr (mkStructureItem NameFlags None)
  else if beqs token ($"RFC822.SIZE") then inr (mkStructureItem NameSize None)
  else if beqs token ($"BODYSTRUCTURE") then inr (mkStructureItem NameStructure None)
  else if beqs token ($"BODY.PEEK[HEADER]") then inr (mkStructureItem NameHeader None)
  else if beqs token ($"BODY.PEEK[]") then inr (mkStructureItem NameBody None)
  else
    let '(partial, found) := cut_prefix token ($"BODY.PEEK[]<") in
    if negb found || negb (has_suffix partial ($">")) then inl (UnsupportedItem token)
    else
      let '(offsetText, sizeText, _) := cut_byte "."%byte (trim_suffix partial ($">")) in
      match parse_uint offsetText 32, parse_uint sizeText 32 with
      | Some offset, Some size =>
          if size =? 0 then inl (InvalidPartial token) else inr (mkStructureItem NameBody (Some (offset, size)))
      | _, _ => inl (InvalidPartial token)
      end.

(** The loop over the tokens; [seen] are the names read, [items] the items. *)
Fixpoint structureItems (seen : list structureName) (items : list structureFetchItem) (tokens : list bytes) :
    fetchError + list structureFetchItem :=
  match tokens with
  | [] => inr items
  | token :: tokens =>
      match parseStructureFetchItem (to_upper token) with
      | inl e => inl e
      | inr item =>
          if bool_decide (siName item ∈ seen) then inl (DuplicateItem (siName item))
          else structureItems (siName item :: seen)
                 (if bool_decide (siName item = NameUID) then items else items ++ [item]) tokens
      end
  end.

(** [strings.SplitN(raw, " ", 5)], its fourth and fifth parts. *)
Definition setAndItems (raw : bytes) : option (bytes * bytes) :=
  match argumentText raw with
  | None => None
  | Some rest =>
      let '(_, rest, found) := cut_byte " "%byte rest in
      if negb found then None else
      let '(set, rest, found) := cut_byte " "%byte rest in
      if negb found then None else Some (set, rest)
  end.

Definition parseStructureFetch (raw : bytes) : fetchError + bytes * list structureFetchItem :=
  match setAndItems raw with
  | None => inl MissingItems
  | Some (set, items) =>
      let items := if has_prefix items ($"(") && has_suffix items ($")") then take (length items - 2) (drop 1 items) else items in
      match structureItems [] [] (fields items) with
      | inl e => inl e
      | inr items => inr (set, items)
      end
  end.

(** One span of [uidSetContains]. *)
Definition spanContains (uid : Z) (span : bytes) : option bool :=
  let '(startText, endText, bounded) := cut_byte ":"%byte span in
  let endText := if bounded then endText else startText in
  match parse_uint startText 32, parse_uint endText 32 with
  | Some a, Some b =>
      let '(a, b) := if b <? a then (b, a) else (a, b) in Some ((a <=? uid) && (uid <=? b))
  | _, _ => None
  end.
Fixpoint spansContain (uid : Z) (matched : bool) (spans : list bytes) : option bool :=
  match spans with
  | [] => Some matched
  | span :: spans => match spanContains uid span with None => None | Some m => spansContain uid (matched || m) spans end
  end.
(** [None] is the error. *)
Definition uidSetContains (set : bytes) (uid : Z) : option bool := spansContain uid false (split_byte ","%byte set).

(** One item of the response for a message. *)
Definition structureItemText (seen : bool) (body structure : bytes) (item : structureFetchItem) : bytes :=
  match siName item with
  | NameUID => []
  | NameFlags => $" FLAGS (" ++ (if seen then $"\Seen" else []) ++ $")"
  | NameSize => $" RFC822.SIZE " ++ decimal (zlen body)
  | NameStructure => $" BODYSTRUCTURE " ++ structure
  | NameHeader =>
      let '(header, _, _) := cutBlankLine body in
      let header := header ++ crlf2 in
      $" BODY[HEADER] {" ++ decimal (zlen header) ++ $"}" ++ [x0d; x0a] ++ header
  | NameBody =>
      let '(literal, section) :=
        match siPartial item with
        | Some (offset, size) =>
            let start := Z.min offset (zlen body) in
            let stop := Z.min (start + size) (zlen body) in
            (take (Z.to_nat (stop - start)) (drop (Z.to_nat start) body), $"BODY[]<" ++ decimal offset ++ $">")
        | None => (body, $"BODY[]")
        end in
      $" " ++ section ++ $" {" ++ decimal (zlen literal) ++ $"}" ++ [x0d; x0a] ++ literal
  end.

Definition structureLine (items : list structureFetchItem) (index : nat) (seen : bool) (body structure : bytes) : bytes :=
  $"* " ++ decimal (Z.of_nat index + 1) ++ $" FETCH (UID " ++ decimal (101 + Z.of_nat index)
    ++ concat (map (structureItemText seen body structure) items) ++ $")".

(** The loop over the messages. *)
Fixpoint structureLines (set : bytes) (items : list structureFetchItem) (seen : nat -> bool) (index : nat)
    (messages structures : list bytes) : list bytes :=
  match messages, structures with
  | body :: messages, structure :: structures =>
      (match uidSetContains set (101 + Z.of_nat index) with
       | Some true => [structureLine items index (seen index) body structure]
       | _ => []
       end) ++ structureLines set items seen (S index) messages structures
  | _, _ => []
  end.

Definition structureFetchLines (seen : nat -> bool) (messages structures : list bytes) (tag raw : bytes) : list bytes :=
  match parseStructureFetch raw with
  | inl e => [tagged tag ($"BAD " ++ fetchErrorText e)]
  | inr (set, items) =>
      match uidSetContains set 0 with
      | None => [tagged tag ($"BAD " ++ fetchErrorText (InvalidUIDSet set))]
      | Some _ => structureLines set items seen 0 messages structures ++ [tagged tag ($"OK FETCH completed")]
      end
  end.

(** * Validated descriptors and what they render to

    Validation terminates on every heap and accepts only finite trees within
    the limits; a validated tree renders, and what it renders to is a structure
    list of the grammar the bridge's quarantine releases, so the served
    response is a structure frame of the message's UID. *)

(** ** The tree a pointer stands for *)

Inductive partTree := PartNode (part : BodyPart) (children : list partTree).

Lemma partTree_rect' (P : partTree -> Prop) : (forall part l, Forall P l -> P (PartNode part l)) -> forall t, P t.
Proof. intros H. fix IH 1. intros [part l]. apply H. induction l as [|t l IHl]; constructor; [apply IH|apply IHl]. Qed.

Fixpoint treeSize (t : partTree) : Z :=
  match t with PartNode _ l => 1 + foldr (fun t n => treeSize t + n) 0 l end.

Section Unroll.
Context (h : heap).
Fixpoint unroll (fuel : nat) (part : pointer) : option partTree :=
  match fuel with
  | O => None
  | S fuel => match part ≫= (fun p => h !! p) with None => None | Some node => PartNode node <$> mapM (unroll fuel) (partChildren node) end
  end.
End Unroll.

(** Valid nodes, the root at [depth], no node deeper than the limit. *)
Inductive validTree : Z -> partTree -> Prop :=
| ValidNode depth part l : depth <= maxBodyStructureDepth -> validateBodyPartFields part = None ->
    length l = length (partChildren part) -> Forall (validTree (depth + 1)) l -> validTree depth (PartNode part l).

Lemma treeSize_pos t : 1 <= treeSize t.
Proof.
  induction t as [part l IH] using partTree_rect'. cbn. assert (0 <= foldr (fun t n => treeSize t + n) 0 l); [|lia].
  induction IH; cbn; lia.
Qed.

(** The loop over the children, as [validateBodyPart] has it. *)
Fixpoint validateChildren (fuel : nat) (h : heap) (depth : Z) (path : list nat) (l : list pointer) (nodes : Z) : option (bodyError + Z) :=
  match l with
  | [] => Some (inr nodes)
  | child :: l =>
      match validateBodyPart fuel h child depth nodes path with
      | Some (inr nodes) => validateChildren fuel h depth path l nodes
      | r => r
      end
  end.

Lemma validateBodyPart_eq fuel h part depth nodes path : validateBodyPart (S fuel) h part depth nodes path =
  match part with
  | None => Some (inl NilPart)
  | Some p =>
      match h !! p with
      | None => Some (inl NilPart)
      | Some node =>
          if bool_decide (p ∈ path) then Some (inl CyclicPart)
          else if maxBodyStructureNodes <? nodes + 1 then Some (inl TooManyParts)
          else if maxBodyStructureDepth <? depth then Some (inl TooDeep)
          else match validateBodyPartFields node with
          | Some e => Some (inl e)
          | None => validateChildren fuel h (depth + 1) (p :: path) (partChildren node) (nodes + 1)
          end
      end
  end.
Proof.
  cbn [validateBodyPart]. destruct part as [p|]; [|done]. destruct (h !! p) as [node|]; [|done].
  destruct (bool_decide _); [done|]. destruct (_ <? nodes + 1); [done|]. destruct (_ <? depth); [done|].
  destruct (validateBodyPartFields node); [done|]. generalize (nodes + 1). induction (partChildren node) as [|c l IH]; intros n; [done|].
  cbn. destruct (validateBodyPart fuel h c (depth + 1) n (p :: path)) as [[e|n']|]; [done|apply IH|done].
Qed.

(** Fuel for one level more than the limit is enough, cycles or not. *)
Lemma validate_returns h fuel : forall part depth nodes path, depth <= maxBodyStructureDepth + 1 ->
  maxBodyStructureDepth + 1 < Z.of_nat fuel + depth -> validateBodyPart fuel h part depth nodes path <> None.
Proof.
  induction fuel as [|fuel IH]; intros part depth nodes path Hd Hf; [lia|]. rewrite validateBodyPart_eq.
  destruct part as [p|]; [|done]. destruct (h !! p) as [node|]; [|done].
  destruct (bool_decide _); [done|]. destruct (_ <? nodes + 1); [done|]. destruct (maxBodyStructureDepth <? depth) eqn:E; [done|]. bool_prop.
  destruct (validateBodyPartFields node); [done|]. generalize (nodes + 1). induction (partChildren node) as [|c l IHl]; intros n; [done|]. cbn.
  pose proof (IH c (depth + 1) n (p :: path) ltac:(lia) ltac:(lia)) as Hc.
  destruct (validateBodyPart fuel h c (depth + 1) n (p :: path)) as [[e|n']|]; [done|apply IHl|done].
Qed.

Lemma validate_tree h fuel : forall part depth nodes path nodes', validateBodyPart fuel h part depth nodes path = Some (inr nodes') ->
  exists t, unroll h fuel part = Some t /\ validTree depth t /\ nodes' = nodes + treeSize t /\ nodes' <= maxBodyStructureNodes.
Proof.
  induction fuel as [|fuel IH]; intros part depth nodes path nodes'; [done|]. rewrite validateBodyPart_eq.
  destruct part as [p|]; [|done]. cbn [unroll mbind option_bind]. destruct (h !! p) as [node|] eqn:Ep; [|done].
  destruct (bool_decide _); [done|]. destruct (_ <? nodes + 1) eqn:En; [done|]. destruct (_ <? depth) eqn:Ed; [done|]. bool_prop.
  destruct (validateBodyPartFields node) eqn:Ev; [done|]. intros H.
  assert (K : forall l n, n <= maxBodyStructureNodes -> validateChildren fuel h (depth + 1) (p :: path) l n = Some (inr nodes') ->
    exists ts, mapM (unroll h fuel) l = Some ts /\ length ts = length l /\ Forall (validTree (depth + 1)) ts /\
      nodes' = n + foldr (fun t m => treeSize t + m) 0 ts /\ nodes' <= maxBodyStructureNodes).
  { clear H. induction l as [|c l IHl]; intros n Hn; cbn.
    - intros [= <-]. exists []. split_and!; [done|done|constructor|cbn; lia|done].
    - destruct (validateBodyPart fuel h c (depth + 1) n (p :: path)) as [[e|n']|] eqn:Ec; [done| |done].
      apply IH in Ec as (t & Ht & Hv & -> & Hm). intros H. apply IHl in H as (ts & Hts & Hl & Hvs & Hsz & Hmax); [|done].
      exists (t :: ts). rewrite Ht. cbn. rewrite Hts. cbn. split_and!; [done|by rewrite Hl|by constructor|lia|done]. }
  apply K in H as (ts & Hts & Hl & Hvs & Hsz & Hmax); [|lia]. exists (PartNode node ts). rewrite Hts. cbn.
  split_and!; [done|by constructor|lia|done].
Qed.

(** ** Rendering trees *)

Fixpoint renderTree (t : partTree) : bytes :=
  match t with
  | PartNode part l =>
      match partKind part with BodyPartMultipart => renderMultipart part (concat (map renderTree l)) | _ => renderLeaf part end
  end.

Lemma render_unroll h fuel : forall part t, unroll h fuel part = Some t -> renderBodyPart fuel h part = Some (renderTree t).
Proof.
  induction fuel as [|fuel IH]; intros part t; [done|]. cbn [unroll renderBodyPart]. destruct (part ≫= _) as [node|]; [|done].
  destruct (mapM (unroll h fuel) (partChildren node)) as [ts|] eqn:E; [|done]. cbn -[renderLeaf renderMultipart option_map renderBodyPart]. intros [= <-]. cbn [renderTree].
  destruct (partKind node); try done. match goal with |- option_map _ (?f _) = _ => set (children := f) end.
  assert (K : children (partChildren node) = Some (concat (map renderTree ts))); [|by rewrite K]. revert ts E.
  induction (partChildren node) as [|c l IHl]; intros ts; cbn; [by intros [= <-]|].
  destruct (unroll h fuel c) as [t|] eqn:Ec; [|done]. cbn. destruct (mapM (unroll h fuel) l) as [ts'|] eqn:El; [|done]. cbn. intros [= <-].
  rewrite (IH _ _ Ec). fold children. rewrite (IHl ts' eq_refl). done.
Qed.

(** ** Elements of the quarantine's grammar *)

Definition element (x : bytes) : Prop := token x \/ body_list x.

Lemma elems_element p s x : elems p s -> can_start p -> element x -> exists p', elems p' (s ++ x) /\ can_end p'.
Proof.
  intros Hs Hp [Hx|(q & l & Hl & Hq & ->)].
  - exists previousToken. split; [by eapply elems_token|by left].
  - exists previousClose. split; [|by right]. eapply elems_list; [exact Hs| |exact Hl|done]. by destruct Hp as [->| ->].
Qed.

Lemma elems_next p s x : elems p s -> can_end p -> element x -> exists p', elems p' (s ++ " "%byte :: x) /\ can_end p'.
Proof.
  intros Hs Hp Hx. change (" "%byte :: x) with ([SP] ++ x). rewrite app_assoc.
  apply (elems_element previousSpace); [by eapply elems_space|by right|done].
Qed.

Lemma elems_join xs : forall p s, elems p s -> can_end p -> Forall element xs ->
  exists p', elems p' (s ++ concat (map (fun x => " "%byte :: x) xs)) /\ can_end p'.
Proof.
  induction xs as [|x xs IH]; intros p s Hs Hp Hx; cbn; [exists p; by rewrite app_nil_r|].
  apply Forall_cons in Hx as [Hx Hxs]. destruct (elems_next p s x Hs Hp Hx) as (p' & Hs' & Hp').
  destruct (IH p' _ Hs' Hp' Hxs) as (p'' & H & Hp''). exists p''. split; [|done]. by rewrite <- app_assoc in H.
Qed.

Lemma can_end_not_space p : can_end p -> p <> previousSpace.
Proof. by intros [->| ->]. Qed.

(** A list of elements, one space between them. *)
Lemma list_of_elements x xs : element x -> Forall element xs ->
  body_list ("("%byte :: (x ++ concat (map (fun y => " "%byte :: y) xs)) ++ [")"%byte]).
Proof.
  intros Hx Hxs. destruct (elems_element _ [] x elems_open (or_introl eq_refl) Hx) as (p & H & Hp).
  destruct (elems_join xs p _ H Hp Hxs) as (p' & H' & Hp'). exists p', (x ++ concat (map (fun y => " "%byte :: y) xs)).
  split_and!; [exact H'|by apply can_end_not_space|done].
Qed.

(** ** The rendered pieces are elements *)

Lemma escape_quoted_text v : Forall (fun c => 32 <= bZ c <= 126) v -> forall s, quoted_text s -> quoted_text (s ++ escapeQuoted v).
Proof.
  induction 1 as [|c v Hc _ IH]; intros s Hs; cbn; [by rewrite app_nil_r|].
  destruct ((c =b dquote) || (c =b backslash)) eqn:E.
  - assert (Ec : c = DQUOTE \/ c = BACKSLASH) by (apply orb_true_iff in E as [->%beq_eq| ->%beq_eq]; auto).
    change (backslash :: c :: escapeQuoted v) with ([BACKSLASH; c] ++ escapeQuoted v). rewrite app_assoc. apply IH. by apply quoted_escape.
  - apply orb_false_iff in E as [E1%beq_neq E2%beq_neq]. change (c :: escapeQuoted v) with ([c] ++ escapeQuoted v). rewrite app_assoc.
    apply IH, quoted_char; [done|done|done|intros ->; cbn in Hc; lia..].
Qed.

Lemma decimal_short n : 0 <= n <= maxBodyStructureValue -> 1 <= zlen (decimal n) <= 10.
Proof.
  intros H. assert (E : forallb (fun i => (1 <=? zlen (decimal (Z.of_nat i))) && (zlen (decimal (Z.of_nat i)) <=? 10)) (seq 0 513) = true) by (vm_compute; reflexivity).
  rewrite forallb_forall in E. specialize (E (Z.to_nat n)). rewrite Z2Nat.id in E by lia. unfold maxBodyStructureValue in H.
  assert (Hin : In (Z.to_nat n) (seq 0 513)) by (apply in_seq; lia). specialize (E Hin). bool_prop. lia.
Qed.

Lemma renderBodyString_token v : zlen v <= maxBodyStructureValue -> token (renderBodyString v).
Proof.
  intros Hv. unfold renderBodyString. destruct (quotable v) eqn:E.
  - apply token_quoted. apply (escape_quoted_text v) with (s := []); [|constructor]. unfold quotable in E. rewrite forallb_forall in E.
    apply List.Forall_forall. intros c Hi. specialize (E c Hi). bool_prop. lia.
  - pose proof (zlen_nonneg v). apply (token_literal (decimal (zlen v)) (zlen v)); [|done]. split_and!; [by apply decimal_value|..].
    1, 2: pose proof (decimal_short (zlen v)); lia. unfold MaxUint32, maxBodyStructureValue in *. lia.
Qed.

Lemma atom_digits n : 0 <= n -> token (decimal n).
Proof.
  intros Hn. apply token_atom. pose proof (decimal_nonempty n) as Hne. pose proof (fun c => decimal_digit n c Hn) as Hd.
  assert (Ha : forall c, is_digit c = true -> quarantineAtomChar c = true).
  { intros c Hc. assert (E : negb (is_digit c) || quarantineAtomChar c = true) by (clear Hc; by_all_bytes c). by rewrite Hc in E. }
  destruct (decimal n) as [|c s]; [done|]. split; [rewrite Ha; [done|apply Hd; by left]|]. apply forallb_forall. intros x Hx. apply Ha, Hd. by right.
Qed.

Lemma nil_token : token ($"NIL").
Proof. apply token_atom. split; reflexivity. Qed.

Lemma params_element params : Forall (fun v => zlen v <= maxBodyStructureValue) (paramValues params) -> element (renderBodyParams params).
Proof.
  intros H. destruct params as [|p ps]; [left; apply nil_token|]. right.
  assert (E : renderBodyParams (p :: ps) = "("%byte :: (renderBodyString (bpName p) ++
    concat (map (fun y => " "%byte :: y) (renderBodyString (bpValue p) :: map renderBodyString (paramValues ps)))) ++ [")"%byte]).
  { cbn [renderBodyParams]. change ($"(") with ["("%byte]. change ($")") with [")"%byte]. cbn [app]. f_equal. f_equal. clear H.
    cbn [map concat]. assert (K : forall q qs, join_byte " "%byte (map renderParam (q :: qs)) =
      renderBodyString (bpName q) ++ (" "%byte :: renderBodyString (bpValue q)) ++ concat (map (fun y => " "%byte :: y) (map renderBodyString (paramValues qs)))).
    { intros q qs. revert q. induction qs as [|r qs IH]; intros q; cbn [map]; [cbn; unfold renderParam; change ($" ") with [" "%byte]; cbn; by rewrite app_nil_r|].
      change (join_byte " "%byte (renderParam q :: renderParam r :: map renderParam qs)) with
        (renderParam q ++ " "%byte :: join_byte " "%byte (map renderParam (r :: qs))). rewrite IH. unfold renderParam at 1. change ($" ") with [" "%byte].
      rewrite <- ?app_assoc. cbn. by rewrite <- ?app_assoc. }
    apply K. }
  rewrite E. unfold paramValues in H. cbn [map concat app] in H. apply Forall_cons in H as [H1 H]. apply Forall_cons in H as [H2 H].
  apply list_of_elements; [left; by apply renderBodyString_token|]. apply Forall_cons. split; [left; by apply renderBodyString_token|].
  apply List.Forall_map. eapply Forall_impl; [exact H|]. intros v Hv. left. by apply renderBodyString_token.
Qed.

Lemma disposition_element d : match d with Some d => Forall (fun v => zlen v <= maxBodyStructureValue) (bdValue d :: paramValues (bdParams d)) | None => True end ->
  element (renderBodyDisposition d).
Proof.
  destruct d as [d|]; [|intros _; left; apply nil_token]. intros [H1 H2]%Forall_cons. right.
  assert (E : renderBodyDisposition (Some d) = "("%byte :: (renderBodyString (bdValue d) ++ concat (map (fun y => " "%byte :: y) [renderBodyParams (bdParams d)])) ++ [")"%byte]).
  { cbn. rewrite app_nil_r, <- !app_assoc. done. }
  rewrite E. apply list_of_elements; [left; by apply renderBodyString_token|]. apply Forall_cons. split; [by apply params_element|constructor].
Qed.

(** ** Trees are lists of the grammar *)

Lemma firstError_None {A} (check : A -> option bodyError) l : firstError check l = None -> Forall (fun x => check x = None) l.
Proof. induction l as [|x l IH]; cbn; [constructor|]. destruct (check x) eqn:E; [done|]. intros H. constructor; auto. Qed.

Lemma bodyValue_length v optional : validateBodyValue v optional = None -> zlen v <= maxBodyStructureValue.
Proof. unfold validateBodyValue. destruct (_ && _); [done|]. destruct (_ <? zlen v) eqn:E; [done|]. intros _. bool_prop. lia. Qed.

(** The strings of a valid node are short. *)
Record shortFields (part : BodyPart) : Prop := {
  sfRequired : Forall (fun v => zlen v <= maxBodyStructureValue) (requiredValues part);
  sfType : zlen (partType part) <= maxBodyStructureValue;
  sfEncoding : zlen (partEncodingText part) <= maxBodyStructureValue }.

Lemma valid_short part : validateBodyPartFields part = None -> shortFields part.
Proof.
  unfold validateBodyPartFields. destruct (_ <? _); [done|]. destruct (firstError _ (requiredValues part)) eqn:E1; [done|].
  destruct (firstError _ [_; _]) eqn:E2; [done|]. intros _. apply firstError_None in E1, E2.
  apply Forall_cons in E2 as [E2 E3]. apply Forall_cons in E3 as [E3 _]. apply bodyValue_length in E2, E3. split.
  - eapply Forall_impl; [exact E1|]. intros v. apply bodyValue_length.
  - done.
  - unfold partEncodingText. destruct (beqs _ []); [|done]. unfold maxBodyStructureValue. vm_compute. discriminate.
Qed.

Lemma short_subtype part : shortFields part -> element (renderBodyString (partSubtype part)).
Proof. intros [H _ _]. left. apply renderBodyString_token. by apply Forall_cons in H as [H _]. Qed.
Lemma short_params part : shortFields part -> element (renderBodyParams (partParams part)).
Proof. intros [H _ _]. apply params_element. apply Forall_cons in H as [_ H]. by apply Forall_app in H as [H _]. Qed.
Lemma short_disposition part : shortFields part -> element (renderBodyDisposition (partDisposition part)).
Proof. intros [H _ _]. apply disposition_element. apply Forall_cons in H as [_ H]. apply Forall_app in H as [_ H]. by destruct (partDisposition part). Qed.

Lemma leaf_list part : shortFields part -> 0 <= partSize part -> 0 <= partLines part -> body_list (renderLeaf part).
Proof.
  intros Hs Hsize Hlines.
  set (lines := match partKind part with BodyPartText => [decimal (partLines part)] | _ => [] end).
  assert (E : renderLeaf part = "("%byte :: (renderBodyString (partType part) ++ concat (map (fun y => " "%byte :: y)
    ([renderBodyString (partSubtype part); renderBodyParams (partParams part); $"NIL"; $"NIL"; renderBodyString (partEncodingText part); decimal (partSize part)]
      ++ lines ++ [$"NIL"; renderBodyDisposition (partDisposition part); $"NIL"; $"NIL"]))) ++ [")"%byte]).
  { unfold renderLeaf. subst lines.
    destruct (partKind part); repeat (progress (cbn -[renderBodyString renderBodyParams renderBodyDisposition decimal];
      rewrite <- ?app_assoc, ?app_nil_r)); reflexivity. }
  rewrite E. pose proof (fun H => or_introl H : element ($"NIL")) as Hnil. specialize (Hnil nil_token).
  apply list_of_elements; [left; apply renderBodyString_token, sfType, Hs|].
  repeat (apply Forall_cons; split); [by apply short_subtype|by apply short_params|done|done|left; apply renderBodyString_token, sfEncoding, Hs|left; by apply atom_digits|].
  apply Forall_app. split.
  - subst lines. destruct (partKind part); [|constructor..]. apply Forall_cons. split; [left; by apply atom_digits|constructor].
  - repeat (apply Forall_cons; split); [done|by apply short_disposition|done|done|constructor].
Qed.

(** Lists directly after each other. *)
Lemma elems_lists xs : Forall body_list xs -> xs <> [] -> forall p s, elems p s -> p <> previousToken -> elems previousClose (s ++ concat xs).
Proof.
  induction 1 as [|x xs (q & l & Hl & Hq & ->) _ IH]; intros Hne p s Hs Hp; [done|]. cbn [concat]. rewrite app_assoc.
  pose proof (elems_list p s q l Hs Hp Hl Hq) as Hx. destruct xs as [|y ys]; [cbn [concat]; by rewrite app_nil_r|]. by eapply IH.
Qed.

Lemma multipart_list part xs : shortFields part -> Forall body_list xs -> xs <> [] -> body_list (renderMultipart part (concat xs)).
Proof.
  intros Hs Hx Hne. pose proof (elems_lists xs Hx Hne _ [] elems_open ltac:(done)) as H0. cbn [app] in H0.
  destruct (elems_join [renderBodyString (partSubtype part); renderBodyParams (partParams part);
    renderBodyDisposition (partDisposition part); $"NIL"; $"NIL"] previousClose _ H0 (or_intror eq_refl)) as (p & H & Hp).
  { repeat (apply Forall_cons; split); [by apply short_subtype|by apply short_params|by apply short_disposition|left; apply nil_token|left; apply nil_token|constructor]. }
  eexists p, _. split_and!; [exact H|by apply can_end_not_space|]. unfold renderMultipart.
  repeat (progress (cbn -[renderBodyString renderBodyParams renderBodyDisposition]; rewrite <- ?app_assoc, ?app_nil_r)). reflexivity.
Qed.

(** 32-bit sizes and line counts throughout the heap. *)
Definition heapTyped (h : heap) : Prop := forall p node, h !! p = Some node -> 0 <= partSize node <= MaxUint32 /\ 0 <= partLines node <= MaxUint32.
Inductive typedTree : partTree -> Prop :=
| TypedNode part l : 0 <= partSize part <= MaxUint32 -> 0 <= partLines part <= MaxUint32 -> Forall typedTree l -> typedTree (PartNode part l).

Lemma unroll_typed h fuel : heapTyped h -> forall part t, unroll h fuel part = Some t -> typedTree t.
Proof.
  intros Hh. induction fuel as [|fuel IH]; intros part t; [done|]. cbn [unroll]. destruct (part ≫= _) as [node|] eqn:Ep; [|done].
  destruct part as [p|]; [|done]. cbn in Ep. apply Hh in Ep as [H1 H2].
  destruct (mapM (unroll h fuel) (partChildren node)) as [ts|] eqn:E; [|done]. cbn. intros [= <-]. constructor; [done|done|].
  revert ts E. induction (partChildren node) as [|c l IHl]; intros ts; cbn; [intros [= <-]; constructor|].
  destruct (unroll h fuel c) as [t|] eqn:Ec; [|done]. cbn. destruct (mapM (unroll h fuel) l) as [ts'|] eqn:El; [|done]. cbn. intros [= <-].
  constructor; [by eapply IH|by apply IHl].
Qed.

(** A valid multipart node has children. *)
Lemma valid_multipart part : validateBodyPartFields part = None -> partKind part = BodyPartMultipart -> partChildren part <> [].
Proof.
  unfold validateBodyPartFields. destruct (_ <? _); [done|]. destruct (firstError _ _); [done|]. destruct (firstError _ [_; _]); [done|].
  intros H Hk Hc. unfold validateKind in H. rewrite Hk, Hc in H. cbn in H. by destruct (_ && _).
Qed.

Lemma tree_list t : forall depth, validTree depth t -> typedTree t -> body_list (renderTree t).
Proof.
  induction t as [part l IH] using partTree_rect'. intros depth Hv Ht. inversion Hv as [d p' l' Hd Hf Hl Hc]; subst.
  inversion Ht as [p' l' H1 H2 H3]; subst. pose proof (valid_short _ Hf) as Hs. cbn [renderTree].
  assert (Hleaf : body_list (renderLeaf part)) by (apply leaf_list; [done|lia|lia]).
  destruct (partKind part) eqn:Ek; try exact Hleaf. apply multipart_list; [done| |].
  - apply List.Forall_map. apply List.Forall_forall. intros t Hi. rewrite Forall_forall in IH, Hc, H3.
    apply list_elem_of_In in Hi. by eapply IH; [|apply Hc|apply H3].
  - pose proof (valid_multipart _ Hf Ek). destruct l; [|done]. by destruct (partChildren part).
Qed.

(** ** The served frame *)

Definition structureRequest : list structureFetchItem := [mkStructureItem NameStructure None].

Lemma fixture_prefix n : (n < 64)%nat -> fetchPrefix ($"* " ++ decimal (Z.of_nat n + 1) ++ $" FETCH ") = Some true.
Proof.
  intros H. assert (E : forallb (fun n => bool_decide (fetchPrefix ($"* " ++ decimal (Z.of_nat n + 1) ++ $" FETCH ") = Some true)) (seq 0 64) = true) by (vm_compute; reflexivity).
  rewrite forallb_forall in E. specialize (E n). apply bool_decide_eq_true in E; [done|]. apply in_seq. lia.
Qed.

Lemma fixture_uid n : (n < 64)%nat -> quarantineNumber (decimal (101 + Z.of_nat n)) false = Some (101 + Z.of_nat n).
Proof.
  intros H. assert (E : forallb (fun n => bool_decide (quarantineNumber (decimal (101 + Z.of_nat n)) false = Some (101 + Z.of_nat n))) (seq 0 64) = true) by (vm_compute; reflexivity).
  rewrite forallb_forall in E. specialize (E n). apply bool_decide_eq_true in E; [done|]. apply in_seq. lia.
Qed.

Lemma served_frame index seen body text : (index < 64)%nat -> body_list text ->
  structure_frame (101 + Z.of_nat index) (structureLine structureRequest index seen body text ++ [x0d; x0a]).
Proof.
  intros Hi Ht. exists [(itemUID, 101 + Z.of_nat index); (itemStructure, 0)]. split; [|split; [by left|right; by left]].
  exists ($"* " ++ decimal (Z.of_nat index + 1) ++ $" FETCH "), (($"UID" ++ SP :: decimal (101 + Z.of_nat index)) ++ SP :: ($"BODYSTRUCTURE" ++ SP :: text)).
  split_and!.
  - by apply fixture_prefix.
  - apply (attrs_snoc [(itemUID, 101 + Z.of_nat index)]); [|by apply attr_structure].
    apply attrs_one. by apply attr_uid; [|apply fixture_uid].
  - cbn. repeat (apply NoDup_cons; split); [|set_solver|apply NoDup_nil; done]. intros H. apply list_elem_of_singleton in H. done.
  - unfold structureLine. repeat (progress (cbn -[decimal Z.add Z.of_nat]; rewrite <- ?app_assoc, ?app_nil_r)). reflexivity.
Qed.


(** A mixed multipart with a text part and an attachment, and a cycle. *)
Definition sampleHeap : heap := list_to_map
  [ (0%nat, mkBodyPart BodyPartMultipart [] ($"mixed") [mkBodyParam ($"boundary") ($"b")] [] 0 0 None [Some 1%nat; Some 2%nat]);
    (1%nat, mkBodyPart BodyPartText ($"text") ($"plain") [] [] 12 1 None []);
    (2%nat, mkBodyPart BodyPartBasic ($"application") ($"pdf") [] ($"base64") 90 0
       (Some (mkDisposition ($"attachment") [mkBodyParam ($"filename") [xc3; xa9]])) []);
    (3%nat, mkBodyPart BodyPartMultipart [] ($"mixed") [] [] 0 0 None [Some 3%nat]) ].

Lemma sample_heap_typed : heapTyped sampleHeap.
Proof.
  intros p node H. apply elem_of_list_to_map_2 in H. repeat (apply elem_of_cons in H as [H|H]; [simplify_eq; vm_compute; repeat split; discriminate|]). by inversion H.
Qed.

