(* ===== verification/TestFaults.v ===== *)
(** * One-shot mutation faults

    The faults the tests arm around a mutation ([faults.go],
    [label_faults.go]): their validation, the matching of a recorded command
    against the armed faults in injection order, and what a fault reports. *)
From Stdlib Require Import ZArith Lia Strings.Byte.
From stdpp Require Import base list gmap strings.
From S2P Require Import Prelude GoStrings GoText MessageID ImapTokens MailboxStore LabelStore Transcript TestCommands LabelStoreSpec.

(** ** Selectors *)

Inductive FaultBoundary := BeforeApplication | AfterApplication | UnknownBoundary (n : Z).
Inductive FaultAction := DropConnection | HoldResponse | RejectCommand | UnknownAction (n : Z).

Definition boundaryString (b : FaultBoundary) : bytes :=
  match b with BeforeApplication => $"before_application" | AfterApplication => $"after_application" | UnknownBoundary n => $"unknown-" ++ decimal n end.
Definition boundaryKnown (b : FaultBoundary) : bool := match b with UnknownBoundary _ => false | _ => true end.

Record MutationFault := mkFault { fltCommand : bytes; fltUIDs : bytes; fltBoundary : FaultBoundary; fltAction : FaultAction }.
Record LabelFault := mkLabelFault {
  lfCommand : bytes; lfView : bytes; lfUID : bytes; lfDestination : bytes; lfBoundary : FaultBoundary; lfAction : FaultAction }.
(** A target in canonical view names. *)
Record labelFaultKey := mkFaultKey { keyCommand : bytes; keyView : bytes; keyUID : bytes; keyDestination : bytes }.
#[export] Instance labelFaultKey_eq : EqDecision labelFaultKey.
Proof. solve_decision. Defined.

(** A handle is known by its number; the armed lists hold the selectors, the
    reports what each handle tells: its command and completion once triggered,
    and whether its connection is over. *)
Record armedFault := mkArmed { armedID : nat; armedFaultSelector : MutationFault }.
Record armedLabelFault := mkArmedLabel { armedLabelID : nat; armedLabel : LabelFault; armedKey : labelFaultKey }.
Record faultReport := mkReport { reportCommand : Command; reportCompletion : bytes; reportFinished : bool }.

(** ** Arming *)

Inductive faultError :=
| FaultCommand | FaultUIDs (e : transcriptError) | FaultBoundaryMissing | FaultActionMissing
| FaultNeedsDestination | FaultTakesNoDestination | FaultOneUID | FaultUIDNumber | FaultRefusal
| FaultView | FaultDestination.

Definition checkFault (fault : MutationFault) : option faultError :=
  if negb (beqs (fltCommand fault) ($"UID STORE") || beqs (fltCommand fault) ($"UID MOVE")) then Some FaultCommand
  else match parseSequenceSet (fltUIDs fault) with
  | inl e => Some (FaultUIDs e)
  | inr _ =>
      if negb (boundaryKnown (fltBoundary fault)) then Some FaultBoundaryMissing
      else match fltAction fault with DropConnection | HoldResponse => None | _ => Some FaultActionMissing end
  end.

(** [InjectFault] on a stateful server: the armed faults with it at the end. *)
Definition InjectFault (armed : list armedFault) (id : nat) (fault : MutationFault) : faultError + list armedFault :=
  match checkFault fault with Some e => inl e | None => inr (armed ++ [mkArmed id fault]) end.

Definition checkLabelFault (fault : LabelFault) : option faultError :=
  let command := lfCommand fault in
  let destination :=
    if beqs command ($"UID COPY") then (if beqs (lfDestination fault) [] then Some FaultNeedsDestination else None)
    else if beqs command ($"UID STORE") || beqs command ($"UID EXPUNGE")
    then (if beqs (lfDestination fault) [] then None else Some FaultTakesNoDestination)
    else Some FaultCommand in
  match destination with
  | Some e => Some e
  | None =>
      if contains_any (lfUID fault) ($",:*") then Some FaultOneUID
      else match parseSequenceNumber (lfUID fault) with
      | None => Some FaultUIDNumber
      | Some _ =>
          if negb (boundaryKnown (lfBoundary fault)) then Some FaultBoundaryMissing
          else match lfAction fault with
          | DropConnection | HoldResponse => None
          | RejectCommand =>
              if beqs command ($"UID EXPUNGE") && (match lfBoundary fault with BeforeApplication => true | _ => false end)
              then None else Some FaultRefusal
          | UnknownAction _ => Some FaultActionMissing
          end
      end
  end.

Definition faultKey (store : labelStore) (fault : LabelFault) : faultError + labelFaultKey :=
  match labelFind store (lfView fault) with
  | None => inl FaultView
  | Some (_, view) =>
      if beqs (lfCommand fault) ($"UID COPY") then
        match labelFind store (lfDestination fault) with
        | None => inl FaultDestination
        | Some (_, destination) => inr (mkFaultKey (lfCommand fault) (lvName view) (lfUID fault) (lvName destination))
        end
      else inr (mkFaultKey (lfCommand fault) (lvName view) (lfUID fault) [])
  end.

Definition InjectLabelFault (store : labelStore) (armed : list armedLabelFault) (id : nat) (fault : LabelFault) :
    faultError + list armedLabelFault :=
  match checkLabelFault fault with
  | Some e => inl e
  | None => match faultKey store fault with inl e => inl e | inr key => inr (armed ++ [mkArmedLabel id fault key]) end
  end.

(** ** Claiming *)

(** The first element a test accepts, and the list without it. *)
Fixpoint takeFirst {A} (f : A -> bool) (l : list A) : option (A * list A) :=
  match l with
  | [] => None
  | x :: l => if f x then Some (x, l) else option_map (fun p => (fst p, x :: snd p)) (takeFirst f l)
  end.

Definition claimFault (armed : list armedFault) (command : Command) (authenticated : bool) : option (armedFault * list armedFault) :=
  if negb authenticated then None
  else match ParseTranscriptCommand command with
  | inl _ => None
  | inr parsed =>
      takeFirst (fun a => beqs (fltCommand (armedFaultSelector a)) (tcVerb parsed) && beqs (fltUIDs (armedFaultSelector a)) (tcSet parsed)) armed
  end.

(** The STORE forms a label fault can target. *)
Definition deletedStore (parsed : TranscriptCommand) : bool :=
  beqs (tcStore parsed) ($"+FLAGS") && tcSilent parsed
  && match tcFlags parsed with [flag] => isDeletedFlag flag | _ => false end.

(** Whether a COPY that would add a membership has a UID left for it. *)
Definition copyHasRoom (source destination : labelView) (uid : Z) : bool :=
  match byUID (lvMembers source) uid with
  | Some member =>
      match byMessage (lvMembers destination) (memMessage member) with
      | None => negb (lvUIDNext destination =? MaxUint32)
      | Some _ => true
      end
  | None => true
  end.

Definition labelDispatchable (store : labelStore) (session : statefulSession) (command : Command) : option labelFaultKey :=
  match ParseTranscriptCommand command with
  | inl _ => None
  | inr parsed =>
      let verb := tcVerb parsed in
      if beqs (ssSelected session) [] || ssReadOnly session then None
      else if contains_any (tcSet parsed) ($",:*") then None
      else if negb (beqs verb ($"UID COPY") || beqs verb ($"UID STORE") && deletedStore parsed || beqs verb ($"UID EXPUNGE") && lsUIDPlus store)
      then None
      else match labelFind store (ssSelected session) with
      | None => None
      | Some (_, view) =>
          if negb (beqs verb ($"UID COPY")) then
            (if isLabel (lvRole view) then Some (mkFaultKey verb (lvName view) (tcSet parsed) []) else None)
          else match labelFind store (tcDestination parsed) with
          | None => None
          | Some (_, destination) =>
              if negb (isFolder (lvRole view) && isLabel (lvRole destination) && selectableAttributes (lvAttributes destination)) then None
              else if negb (copyHasRoom view destination (match tcRanges parsed with r :: _ => rangeStart r | [] => 0 end)) then None
              else Some (mkFaultKey verb (lvName view) (tcSet parsed) (lvName destination))
          end
      end
  end.

Definition claimLabelFault (store : labelStore) (armed : list armedLabelFault) (session : statefulSession) (command : Command)
    (authenticated : bool) : option (armedLabelFault * list armedLabelFault) :=
  if negb authenticated || bool_decide (armed = []) then None
  else match labelDispatchable store session command with
  | None => None
  | Some key => takeFirst (fun a => bool_decide (armedKey a = key)) armed
  end.

(** ** Running *)

(** The last line of what was written. *)
Fixpoint lastLineFrom (current s : bytes) : bytes :=
  match s with
  | [] => current
  | c :: s' =>
      match s' with
      | d :: s'' => if (c =b x0d) && (d =b x0a) then lastLineFrom [] s'' else lastLineFrom (current ++ [c]) s'
      | [] => current ++ [c]
      end
  end.
(** A line as [writeLine] sends it. *)
Definition wireLine (line : bytes) : bytes := trim_right [x0d; x0a] line ++ [x0d; x0a].
Definition lastWritten (lines : list bytes) : bytes :=
  lastLineFrom [] (trim_suffix (concat (map wireLine lines)) [x0d; x0a]).

(** [runFault]: the store after the fault and the completion it withholds. *)
Definition runFault (store : mailboxStore) (fault : MutationFault) (session : statefulSession) (command : Command) (tag : bytes) :
    mailboxStore * bytes :=
  match fltBoundary fault with
  | AfterApplication =>
      match tokenizeArguments (cmdRaw command) with
      | inl _ => (store, tagged tag ($"BAD malformed arguments"))
      | inr arguments =>
          let '(store, lines) := statefulUID store session tag arguments in (store, default [] (last lines))
      end
  | _ => (store, [])
  end.

Definition labelFaultRefusal : bytes := $"NO [UNAVAILABLE] UID EXPUNGE refused by fixture fault".

(** The state part of [runLabelFault]. *)
Definition applyLabelFault (store : labelStore) (fault : LabelFault) (session : statefulSession) (command : Command) (tag : bytes) :
    labelStore * statefulSession * bytes :=
  match lfBoundary fault with
  | AfterApplication =>
      let '(store, session, result) := serveLabels store session tag (cmdName command) (cmdRaw command) (cmdTLS command) true in
      (store, session, lastWritten (match result with Answer lines => lines | _ => [] end))
  | _ => (store, session, [])
  end.

(** * Claimed label faults are applied

    The test server lets a label fault claim only commands its dispatcher
    would apply ([labelDispatchable]).  That holds of every command whose
    unquoted names carry no bracket; a bracket, which the transcript grammar
    allows in a mailbox name and the argument parser does not, breaks it. *)

(** ** One UID *)

Lemma contains_any_In s set c : contains_any s set = false -> In c set -> ~ In c s.
Proof.
  unfold contains_any. intros H Hc. apply contains_byte_false. destruct (contains_byte c s) eqn:E; [|done].
  rewrite <- H. symmetry. apply existsb_exists. by exists c.
Qed.

(** A set without the characters of lists, ranges and the star is one UID. *)
Lemma plain_set_uid set ranges tag : contains_any set ($",:*") = false -> parseSequenceSet set = inr ranges ->
  exists uid, ranges = [mkSetRange uid uid] /\ parseSingleUID tag (Atom set) = inr uid.
Proof.
  intros Hc Hr. pose proof (sequenceSet_uids set ranges 0 Hr) as Hu. unfold parseSequenceSet in Hr. destruct set as [|c s]; [done|]. set (t := c :: s) in *.
  rewrite split_byte_whole in Hr by (eapply contains_any_In; [exact Hc|cbn; auto]). cbn [parseSetElements] in Hr. unfold parseSetElement in Hr.
  destruct (cut_byte ":"%byte t) as [[a b] f] eqn:E. destruct f.
  { apply cut_byte_true in E as [E _]. exfalso. eapply (contains_any_In t ($",:*") ":"%byte Hc); [cbn; auto|]. rewrite E. apply in_app_iff. right. by left. }
  apply cut_byte_false in E as (-> & _ & _). destruct (parseSequenceNumber t) as [n|] eqn:En; [|done]. injection Hr as <-. exists n. split; [done|].
  unfold parseSingleUID. rewrite Hu. cbn [tokValue]. unfold parseSequenceNumber in En. destruct (beqs t ($"*")) eqn:Es.
  { exfalso. apply beqs_eq in Es. eapply (contains_any_In t ($",:*") "*"%byte Hc); [cbn; auto|]. rewrite Es. by left. }
  unfold t in En. destruct ((49 <=? bZ c) && (bZ c <=? 57)); [|done]. fold t in En. by rewrite En.
Qed.

(** ** The three commands *)

(** The last line is the tagged OK. *)
Definition accepted (tag : bytes) (lines : list bytes) : Prop := exists text, last lines = Some (tagged tag ($"OK " ++ text)).

Lemma copy_accepted store source tag target uid index destination :
  parseSingleUID tag target = inr uid -> isFolder (lvRole source) = true -> labelFind store (tokValue destination) = Some index ->
  tokIsList destination = false -> isLabel (lvRole index.2) && selectableAttributes (lvAttributes index.2) = true ->
  copyHasRoom source index.2 uid = true -> accepted tag (labelCopy store source tag [target; destination]).2.
Proof.
  intros Hu Hf Hd Hl Hok Hroom. destruct index as [i d]. cbn [snd] in *. apply andb_prop in Hok as [H1 H2]. unfold labelCopy.
  rewrite Hl, Hu, Hf, Hd, H1, H2. cbn [negb]. unfold copyHasRoom in Hroom. destruct (byUID _ uid) as [m|]; [|by eexists].
  destruct (byMessage _ _); [by eexists|]. destruct (lvUIDNext d =? MaxUint32); [done|]. cbn. unfold accepted. destruct (lsUIDPlus store); [|by eexists].
  eexists ($"[COPYUID " ++ _). reflexivity.
Qed.

Lemma store_accepted view tag target uid operation flags f : parseSingleUID tag target = inr uid -> isLabel (lvRole view) = true ->
  to_upper operation = $"+FLAGS.SILENT" -> isDeletedFlag f = true -> flags = [Parens [Atom f]] \/ flags = [Atom f] ->
  accepted tag (labelStoreDeleted view tag (target :: Atom operation :: flags)).2.
Proof.
  intros Hu Hr Ho Hf Hfl. assert (Hd : exists flag, flags = [flag] /\ onlyDeleted flag = true).
  { destruct Hfl as [->| ->]; eexists; (split; [done|]); unfold onlyDeleted; cbn [tokIsList tokQuoted tokValue negb andb]; by rewrite Hf. }
  destruct Hd as (flag & -> & Hd). unfold labelStoreDeleted. cbn [tokIsList tokQuoted orb tokValue]. rewrite Hu, Ho.
  change (oneOf ($"+FLAGS.SILENT") [$"+FLAGS"; $"-FLAGS"; $"-FLAGS.SILENT"]) with false.
  change (oneOf ($"+FLAGS.SILENT") [$"FLAGS"; $"FLAGS.SILENT"]) with false. change (beqs ($"+FLAGS.SILENT") ($"+FLAGS.SILENT")) with true.
  cbv iota. rewrite Hd, Hr. by eexists.
Qed.

Lemma expunge_accepted view tag target uid : parseSingleUID tag target = inr uid -> isLabel (lvRole view) = true ->
  accepted tag (labelExpunge view tag [target]).2.
Proof. intros Hu Hr. unfold labelExpunge. rewrite Hu, Hr. cbn [negb]. destruct (indexMarked _ _); by eexists. Qed.

(** ** The property *)

Lemma operandTokens_verb p tokens : operandTokens p tokens ->
  (tcVerb p = $"UID EXPUNGE" -> tokens = [Atom (tcSet p)]) /\
  (tcVerb p = $"UID STORE" -> exists operation flags, tokens = Atom (tcSet p) :: Atom operation :: flags /\
     to_upper operation = tcStore p ++ (if tcSilent p then $".SILENT" else []) /\
     (flags = [Parens (map Atom (tcFlags p))] \/ flags = map Atom (tcFlags p))) /\
  (tcVerb p = $"UID COPY" -> exists target, tokens = [Atom (tcSet p); target] /\ tokIsList target = false /\ tokValue target = tcDestination p).
Proof.
  intros [Hv|operation flags Ho Hf Hv|target Ht Hv].
  - split_and!; [done|by rewrite Hv|by rewrite Hv].
  - split_and!; [by destruct Hv as [-> | ->]| |by destruct Hv as [-> | ->]]. intros _. exists operation, flags. split_and!; [done|done|tauto].
  - split_and!; [by destruct Hv as [->|[->|[->| ->]]]|by destruct Hv as [->|[->|[->| ->]]]|]. intros _. exists target. by destruct Ht as [-> | ->].
Qed.

Lemma labelSubcommand_named uidPlus tag name tokens :
  (to_upper name = $"COPY" -> labelSubcommand uidPlus tag (Atom name :: tokens) = inr LabelCopy) /\
  (to_upper name = $"STORE" -> labelSubcommand uidPlus tag (Atom name :: tokens) = inr LabelStoreCommand) /\
  (to_upper name = $"EXPUNGE" -> uidPlus = true -> labelSubcommand uidPlus tag (Atom name :: tokens) = inr LabelExpunge).
Proof. unfold labelSubcommand. cbn [tokIsList tokQuoted tokValue orb]. split_and!; intros ->; [done|done|by intros ->]. Qed.

(** The verbs [labelDispatchable] lets through. *)
Lemma dispatchable_verb (store : labelStore) p :
  beqs (tcVerb p) ($"UID COPY") || beqs (tcVerb p) ($"UID STORE") && deletedStore p || beqs (tcVerb p) ($"UID EXPUNGE") && lsUIDPlus store = true ->
  exists sub, tcVerb p = $"UID " ++ sub /\ structuredVerb (tcVerb p) /\
    ((sub = $"COPY") \/ (sub = $"STORE" /\ deletedStore p = true) \/ (sub = $"EXPUNGE" /\ lsUIDPlus store = true)).
Proof.
  intros Ev. apply orb_true_iff in Ev as [Ev|Ev]; [apply orb_true_iff in Ev as [Ev|Ev]|]; [|apply andb_prop in Ev as [Ev ?]..]; apply beqs_eq in Ev; rewrite Ev.
  - exists ($"COPY"). unfold structuredVerb. tauto.
  - exists ($"STORE"). unfold structuredVerb. tauto.
  - exists ($"EXPUNGE"). unfold structuredVerb. tauto.
Qed.


Definition claimedCommand : Command := mkCommand 1 1 ($"a UID COPY 5 Labels/One") ($"UID") true.


(** A bracket in the destination: the fixture accepts the name, the selector
    and the command match, and the dispatcher refuses the arguments. *)
Definition bracketLabels : LabelOptions := mkLabelOptions [mkLabelMessage ($"m1") [] ($"one")]
  [mkViewSeed ($"INBOX") FolderRole [] 0 [mkMembershipSeed ($"m1") 5 false]; mkViewSeed ($"Labels[1") LabelRole [] 8001 []] true.
Definition bracketCommand : Command := mkCommand 1 1 ($"a UID COPY 5 Labels[1") ($"UID") true.

Lemma bracket_fault_refused : exists store key, newLabelStore bracketLabels = inr store /\
  faultKey store (mkLabelFault ($"UID COPY") ($"INBOX") ($"5") ($"Labels[1") AfterApplication DropConnection) = inr key /\
  labelDispatchable store (mkStatefulSession ($"INBOX") false) bracketCommand = Some key /\
  serveLabels store (mkStatefulSession ($"INBOX") false) ($"a") ($"UID") (cmdRaw bracketCommand) true true =
    (store, mkStatefulSession ($"INBOX") false, Answer [$"a BAD unbalanced brackets"]).
Proof. eexists _, _. split_and!; vm_compute; reflexivity. Qed.
