(* ===== verification/TestServer.v ===== *)
(** * The test IMAP server

    [server.go]: the options and their validation, the scripted answers of the
    legacy fixture and the connection loop that ties TLS, authentication, the
    scripted faults, the mutation faults and the stateful and label fixtures
    together.  A connection is driven by events - a line received, the outcome
    of a TLS handshake, the end of the connection - and answers with the
    chunks it writes; a write that fails ends the connection as a disconnect
    after the same event does. *)
From Stdlib Require Import ZArith Lia Strings.Byte.
From stdpp Require Import base list gmap strings.
From S2P Require Import Prelude GoStrings GoText MessageID ImapTokens MailboxStore LabelStore Transcript TestCommands BodyStructureFixture TestFaults.

(** ** Options *)

Inductive TLSMode := StartTLS | ImplicitTLS | UnknownMode (n : Z).
Definition tlsModeString (mode : TLSMode) : bytes :=
  match mode with StartTLS => $"starttls" | ImplicitTLS => $"implicit-tls" | UnknownMode n => $"unknown-" ++ decimal n end.

Record Scenario := mkScenario {
  scGreeting : bytes; scRejectAuthentication : bool; scResponseDelay : Z; scDisconnectAfterCommand : Z;
  scDisconnectOnPostLoginCapability : bool; scDisconnectOnExactUIDSearch : bool; scMalformedResponse : bytes;
  scOversizedResponseBytes : Z; scOversizedResponseCommand : bytes; scIgnoreBodyPartial : bool;
  scOversizedLiteralBytes : Z; scOversizedBodyLiteralBytes : Z; scUIDValidityAfterExamine : Z; scUIDNext : Z;
  scListResponseCount : Z; scListMailboxLiteralBytes : Z; scSearchResponse : bytes; scExactUIDSearchResponse : bytes;
  scOmitExactUIDSearchResponse : bool; scOmitExactUIDSearchData : bool; scSearchWindowResult : bool;
  scStatusResponse : bytes; scOmitStatusResponse : bool; scOmitMetadataFetchResponse : bool;
  scFetchResponseSection : bytes; scBodyFetchResponseSection : bytes; scFetchResponseUID : Z;
  scFetchExtraUIDBefore : Z; scFetchExtraUIDAfter : Z; scBodyFetchResponseUID : Z;
  scDuplicateFetchSection : bool; scDuplicateBodyFetchSection : bool;
  scFetchLiteralDeclaredBytes : Z; scBodyFetchLiteralDeclaredBytes : Z;
  scUnexpectedFetchBinaryLiteralBytes : Z; scUnexpectedBodyFetchBinaryLiteralBytes : Z }.
#[export] Instance Scenario_eq : EqDecision Scenario.
Proof. solve_decision. Defined.

(** [Scenario{}]. *)
Definition zeroScenario : Scenario :=
  mkScenario [] false 0 0 false false [] 0 [] false 0 0 0 0 0 0 [] [] false false false [] false false
    [] [] 0 0 0 0 false false 0 0 0 0.

Inductive MetadataFlagsMode := MetadataFlagsOrdinary | MetadataFlagsOmitted | MetadataFlagsDuplicated | UnknownMetadata (n : Z).
#[export] Instance MetadataFlagsMode_eq : EqDecision MetadataFlagsMode.
Proof. solve_decision. Defined.

Record Options := mkOptions {
  opMode : TLSMode; opScenario : Scenario; opMessages : list bytes; opSeen : list bool; opMetadataFlags : MetadataFlagsMode;
  opStateful : option StatefulOptions; opLabels : option LabelOptions;
  opHeap : heap; opBodyStructures : option (list pointer) }.

Inductive startError :=
| UnsupportedMode | NegativeOption | UnsupportedMetadata | MetadataNeedsMessages
| StatefulCombined | StatefulError (e : storeError)
| LabelsCombined | LabelsError (e : labelError)
| StructuresError (e : structuresError).

Definition modeKnown (mode : TLSMode) : bool := match mode with UnknownMode _ => false | _ => true end.

(** The sizes and counts [Start] requires not to be negative. *)
Definition nonnegativeOptions (s : Scenario) : list Z :=
  [scResponseDelay s; scOversizedResponseBytes s; scOversizedLiteralBytes s; scOversizedBodyLiteralBytes s; scListResponseCount s;
   scListMailboxLiteralBytes s; scFetchLiteralDeclaredBytes s; scBodyFetchLiteralDeclaredBytes s;
   scUnexpectedFetchBinaryLiteralBytes s; scUnexpectedBodyFetchBinaryLiteralBytes s].

Definition scripted (options : Options) : bool :=
  negb (bool_decide (opMessages options = [])) || negb (bool_decide (opSeen options = []))
  || negb (bool_decide (opScenario options = zeroScenario)).

(** ** The server's state *)

Record serverState := mkServer {
  svCommands : list Command; svDisconnectUsed : bool; svExamineCount : Z; svNextConnectionID : Z;
  svStateful : option mailboxStore; svLabels : option labelStore;
  svFaults : list armedFault; svLabelFaults : list armedLabelFault; svReports : gmap nat faultReport; svNextFault : nat }.
#[export] Instance eta_serverState : Eta serverState := fun s =>
  mkServer (svCommands s) (svDisconnectUsed s) (svExamineCount s) (svNextConnectionID s) (svStateful s) (svLabels s)
    (svFaults s) (svLabelFaults s) (svReports s) (svNextFault s).

(** What stays fixed once the server runs: the options and the rendered
    structures. *)
Record server := mkTestServer { srvOptions : Options; srvStructures : option (list bytes) }.

(** [Start], up to the certificate and the listener. *)
Definition Start (options : Options) : startError + server * serverState :=
  if negb (modeKnown (opMode options)) then inl UnsupportedMode
  else if existsb (fun z => z <? 0) (nonnegativeOptions (opScenario options)) then inl NegativeOption
  else if (match opMetadataFlags options with UnknownMetadata _ => true | _ => false end) then inl UnsupportedMetadata
  else if negb (bool_decide (opMetadataFlags options = MetadataFlagsOrdinary)) && bool_decide (opMessages options = [])
  then inl MetadataNeedsMessages
  else
    let stateful :=
      match opStateful options with
      | None => inr None
      | Some seeds =>
          if scripted options then inl StatefulCombined
          else match newMailboxStore seeds with inl e => inl (StatefulError e) | inr store => inr (Some store) end
      end in
    match stateful with
    | inl e => inl e
    | inr stateful =>
    let labels :=
      match opLabels options with
      | None => inr None
      | Some seeds =>
          if scripted options || match opStateful options with Some _ => true | None => false end then inl LabelsCombined
          else match newLabelStore seeds with inl e => inl (LabelsError e) | inr store => inr (Some store) end
      end in
    match labels with
    | inl e => inl e
    | inr labels =>
        let plain := bool_decide (opMetadataFlags options = MetadataFlagsOrdinary) && bool_decide (opScenario options = zeroScenario) in
        match newBodyStructures (opHeap options) (opBodyStructures options) (opMessages options) plain with
        | inl e => inl (StructuresError e)
        | inr structures => inr (mkTestServer options structures, mkServer [] false 0 0 stateful labels [] [] ∅ 0)
        end
    end end.

(** ** Scripted answers *)

Definition fixtureSeen (options : Options) (index : nat) : bool := default false (opSeen options !! index).

Definition fixtureFlagsItems (options : Options) (index : nat) : bytes :=
  let item := if fixtureSeen options index then $" FLAGS (\Seen)" else $" FLAGS ()" in
  match opMetadataFlags options with
  | MetadataFlagsOmitted => []
  | MetadataFlagsDuplicated => item ++ item
  | _ => item
  end.

(** [strings.Repeat]; a negative count panics in the source. *)
Definition repeatByte (c : byte) (count : Z) : bytes := replicate (Z.to_nat count) c.

Definition listCount (s : Scenario) : Z := if scListResponseCount s =? 0 then 1 else scListResponseCount s.
Definition listMailbox (index : nat) : bytes := if (index =? 0)%nat then $"INBOX" else $"Archive-" ++ decimal (Z.of_nat index).

(** [writeList], as the chunks written. *)
Definition listChunks (s : Scenario) (tag : bytes) : list bytes :=
  if 0 <? scListMailboxLiteralBytes s then
    let literal := repeatByte "x"%byte (scListMailboxLiteralBytes s) in
    [$"* LIST (\HasNoChildren) " ++ quote ($"/") ++ $" {" ++ decimal (zlen literal) ++ $"}" ++ [x0d; x0a] ++ literal ++ [x0d; x0a]
       ++ tag ++ $" OK LIST completed" ++ [x0d; x0a]]
  else
    map wireLine (map (fun index => $"* LIST (\HasNoChildren) " ++ quote ($"/") ++ $" " ++ quote (listMailbox index)) (seq 0 (Z.to_nat (listCount s)))
      ++ [tagged tag ($"OK LIST completed")]).

Definition statusResponse (options : Options) : bytes :=
  let s := opScenario options in
  if negb (beqs (scStatusResponse s) []) then scStatusResponse s
  else match opMessages options with
  | [] => $"* STATUS " ++ quote ($"INBOX") ++ $" (MESSAGES 2 UIDNEXT 103 UIDVALIDITY 9001 UNSEEN 1)"
  | messages =>
      let count := zlen messages in
      let unseen := count - zlen (List.filter (fixtureSeen options) (seq 0 (length messages))) in
      $"* STATUS " ++ quote ($"INBOX") ++ $" (MESSAGES " ++ decimal count ++ $" UIDNEXT " ++ decimal (101 + count)
        ++ $" UIDVALIDITY 9001 UNSEEN " ++ decimal unseen ++ $")"
  end.

Definition statusChunks (options : Options) (tag : bytes) : list bytes :=
  map wireLine ((if scOmitStatusResponse (opScenario options) then [] else [statusResponse options]) ++ [tagged tag ($"OK STATUS completed")]).

(** [nextUIDValidity]: the state after it and the generation. *)
Definition nextUIDValidity (s : Scenario) (st : serverState) : serverState * Z :=
  let count := svExamineCount st + 1 in
  (st <| svExamineCount := count |>,
   if (1 <? count) && negb (scUIDValidityAfterExamine s =? 0) then scUIDValidityAfterExamine s else 9001).

Definition examineChunks (options : Options) (tag : bytes) (uidValidity : Z) : list bytes :=
  let exists_ := match opMessages options with [] => 2 | messages => zlen messages end in
  let uidNext := if scUIDNext (opScenario options) =? 0 then u32 (101 + exists_) else scUIDNext (opScenario options) in
  map wireLine
    [$"* " ++ decimal exists_ ++ $" EXISTS"; $"* OK [UIDVALIDITY " ++ decimal uidValidity ++ $"] fixture generation";
     $"* OK [UIDNEXT " ++ decimal uidNext ++ $"] fixture next UID"; tagged tag ($"OK [READ-ONLY] EXAMINE completed")].

(** The UIDs a SEARCH of custom messages lists. *)
Definition customSearch (options : Options) (raw : bytes) : list Z :=
  let unseenOnly := contains_sub ($" " ++ to_upper raw ++ $" ") ($" UNSEEN ") in
  let window := searchUIDRange raw in
  concat (map (fun index =>
    let uid := u32 (101 + Z.of_nat index) in
    if unseenOnly && fixtureSeen options index then []
    else match window with
    | None => [uid]
    | Some (start, stop) => if (start <=? uid) && (uid <=? stop) then [uid] else []
    end) (seq 0 (length (opMessages options)))).

Definition searchAnswer (options : Options) (tag raw : bytes) : bytes :=
  let s := opScenario options in
  let exact := searchWindowIsExact raw in
  let plain :=
    match opMessages options with
    | [] =>
        if contains_sub raw ($"UID 3:102") then $"* SEARCH 101"
        else if exact then $"* SEARCH " ++ decimal (searchWindowEnd raw)
        else $"* SEARCH"
    | _ => searchResponse (customSearch options raw)
    end in
  if negb (beqs (scExactUIDSearchResponse s) []) && exact then replaceAll (scExactUIDSearchResponse s) ($"{TAG}") tag
  else if scOmitExactUIDSearchResponse s && exact then $"* SEARCH"
  else if negb (beqs (scSearchResponse s) []) then replaceAll (scSearchResponse s) ($"{TAG}") tag
  else if scSearchWindowResult s then $"* SEARCH " ++ decimal (searchWindowEnd raw)
  else plain.

Definition searchChunks (options : Options) (tag raw : bytes) : list bytes :=
  map wireLine ((if scOmitExactUIDSearchData (opScenario options) && searchWindowIsExact raw then [] else [searchAnswer options tag raw])
    ++ [tagged tag ($"OK SEARCH completed")]).

(** ** Scripted FETCH *)

Definition syntheticMessageHeader : bytes :=
  $"From: Croton Fixture <fixture@croton.test>" ++ [x0d; x0a] ++ $"To: Reader <reader@croton.test>" ++ [x0d; x0a]
    ++ $"Subject: Welcome to Croton" ++ [x0d; x0a] ++ $"Date: Thu, 01 Jan 2026 00:00:00 +0000" ++ [x0d; x0a]
    ++ $"Message-ID: <welcome@croton.test>" ++ crlf2.
Definition syntheticMessageBody : bytes :=
  syntheticMessageHeader ++ $"Welcome to Croton. This synthetic message exists only for adapter tests." ++ [x0d; x0a].

(** The arguments [handle] computes for [writeFetch]. *)
Record fetchReply := mkFetchReply {
  frUID : Z; frExtraBefore : Z; frExtraAfter : Z; frLiteral : bytes; frSection : bytes; frDeclared : Z; frDuplicate : bool; frBinary : Z }.

Definition fetchReplyOf (s : Scenario) (raw : bytes) : fetchReply :=
  let header := contains_sub (to_upper raw) ($"HEADER") in
  let literal := if header then syntheticMessageHeader else syntheticMessageBody in
  let literal := if 0 <? scOversizedLiteralBytes s then repeatByte "x"%byte (scOversizedLiteralBytes s) else literal in
  let literal := if negb header && (0 <? scOversizedBodyLiteralBytes s) then repeatByte "x"%byte (scOversizedBodyLiteralBytes s) else literal in
  let literal := if negb header && negb (scIgnoreBodyPartial s) then partialBodyLiteral raw literal else literal in
  let section := if beqs (scFetchResponseSection s) [] then fetchResponseSection raw header else scFetchResponseSection s in
  let section := if negb header && negb (beqs (scBodyFetchResponseSection s) []) then scBodyFetchResponseSection s else section in
  let declared := if negb header && negb (scBodyFetchLiteralDeclaredBytes s =? 0) then scBodyFetchLiteralDeclaredBytes s else scFetchLiteralDeclaredBytes s in
  let uid := if scFetchResponseUID s =? 0 then fetchResponseUID raw else scFetchResponseUID s in
  mkFetchReply
    (if negb header && negb (scBodyFetchResponseUID s =? 0) then scBodyFetchResponseUID s else uid)
    (if header then scFetchExtraUIDBefore s else 0) (if header then scFetchExtraUIDAfter s else 0)
    literal section declared
    (scDuplicateFetchSection s || negb header && scDuplicateBodyFetchSection s)
    (if negb header && (0 <? scUnexpectedBodyFetchBinaryLiteralBytes s) then scUnexpectedBodyFetchBinaryLiteralBytes s
     else scUnexpectedFetchBinaryLiteralBytes s).

Definition literalText (label : bytes) (declared : Z) (literal : bytes) : bytes :=
  label ++ $" {" ++ decimal declared ++ $"}" ++ [x0d; x0a] ++ literal.

(** [writeFetch]: the one chunk it writes. *)
Definition fetchChunk (tag : bytes) (r : fetchReply) : bytes :=
  let declared := if frDeclared r =? 0 then zlen (frLiteral r) else frDeclared r in
  let body := literalText ($"BODY" ++ frSection r) declared (frLiteral r) in
  let items := body ++ (if frDuplicate r then $" " ++ body else [])
    ++ (if 0 <? frBinary r then $" " ++ literalText ($"BINARY[]") (frBinary r) (repeatByte "x"%byte (frBinary r)) else []) in
  let uidItems := (if frExtraBefore r =? 0 then [] else $"UID " ++ decimal (frExtraBefore r) ++ $" ") ++ $"UID " ++ decimal (frUID r)
    ++ (if frExtraAfter r =? 0 then [] else $" UID " ++ decimal (frExtraAfter r)) in
  $"* 1 FETCH (" ++ uidItems ++ $" FLAGS () INTERNALDATE " ++ quote ($"01-Jan-2026 00:00:00 +0000") ++ $" RFC822.SIZE "
    ++ decimal (zlen syntheticMessageBody) ++ $" " ++ items ++ $")" ++ [x0d; x0a] ++ tag ++ $" OK FETCH completed" ++ [x0d; x0a].

(** Whether a span of the custom FETCH names the UID: no error and no swap. *)
Definition plainSpan (uid : Z) (span : bytes) : bool :=
  let '(startText, endText, bounded) := cut_byte ":"%byte span in
  let endText := if bounded then endText else startText in
  match parse_uint startText 32, parse_uint endText 32 with
  | Some a, Some b => (a <=? uid) && (uid <=? b)
  | _, _ => false
  end.

Definition fixtureLine (options : Options) (header flagsRequested : bool) (raw : bytes) (index : nat) (uid : Z) (body : bytes) : bytes :=
  let literal := if header then (cutBlankLine body).1.1 ++ crlf2 else partialBodyLiteral raw body in
  let flags := if flagsRequested then fixtureFlagsItems options index else [] in
  $"* " ++ decimal (Z.of_nat index + 1) ++ $" FETCH (UID " ++ decimal uid ++ flags ++ $" RFC822.SIZE " ++ decimal (zlen body) ++ $" "
    ++ literalText ($"BODY" ++ fetchResponseSection raw header) (zlen literal) literal ++ $")".

Fixpoint fixtureLines (options : Options) (header flagsRequested : bool) (raw set : bytes) (index : nat) (messages : list bytes) : list bytes :=
  match messages with
  | [] => []
  | body :: messages =>
      let uid := u32 (101 + Z.of_nat index) in
      (if existsb (plainSpan uid) (split_byte ","%byte set) then [fixtureLine options header flagsRequested raw index uid body] else [])
        ++ fixtureLines options header flagsRequested raw set (S index) messages
  end.

(** [writeFixtureFetch]. *)
Definition fixtureFetchLines (srv : server) (tag raw : bytes) : list bytes :=
  let options := srvOptions srv in
  match srvStructures srv with
  | Some structures => structureFetchLines (fixtureSeen options) (opMessages options) structures tag raw
  | None =>
      match fields raw with
      | _ :: _ :: _ :: set :: items =>
          let header := contains_sub (to_upper raw) ($"HEADER") in
          fixtureLines options header (header && fetchRequestsFlags items) raw set 0 (opMessages options) ++ [tagged tag ($"OK FETCH completed")]
      | _ => [tagged tag ($"BAD missing UID set")]
      end
  end.

Definition fetchChunks (srv : server) (tag raw : bytes) : list bytes :=
  let s := opScenario (srvOptions srv) in
  match opMessages (srvOptions srv) with
  | [] =>
      if contains_sub (to_upper raw) ($"HEADER") && scOmitMetadataFetchResponse s then [wireLine (tagged tag ($"OK FETCH completed"))]
      else [fetchChunk tag (fetchReplyOf s raw)]
  | _ => map wireLine (fixtureFetchLines srv tag raw)
  end.

(** ** Connections *)

(** What a connection waits for. *)
Inductive connMode :=
| Handshaking (greeted : bool)          (* the TLS handshake, before or after the greeting *)
| Ready                                 (* a command *)
| AwaitPlain (tag : bytes)              (* the response line of AUTHENTICATE PLAIN *)
| Discarding                            (* nothing more: input of a held mutation fault *)
| Recording (target : Command)          (* lines to record: a held label fault *)
| Closed
| Panicked.                             (* the handler panicked *)

Record connection := mkConnection {
  cnID : Z; cnTLS : bool; cnAuthenticated : bool; cnCommands : Z; cnSession : statefulSession; cnMode : connMode;
  cnPending : list nat;                 (* the faults that finish when the connection ends *)
  cnLabelFaults : list nat }.
#[export] Instance eta_connection : Eta connection := fun c =>
  mkConnection (cnID c) (cnTLS c) (cnAuthenticated c) (cnCommands c) (cnSession c) (cnMode c) (cnPending c) (cnLabelFaults c).

Inductive event :=
| LineReceived (line : bytes)
| HandshakeResult (ok : bool)
| Disconnected.

Definition fixtureMode (st : serverState) : bool :=
  match svStateful st, svLabels st with None, None => false | _, _ => true end.

(** [accept]: the connection's number, and its first chunks. *)
Definition greetingChunk (options : Options) : bytes :=
  wireLine (if beqs (scGreeting (opScenario options)) [] then $"* OK fake IMAP server ready" else scGreeting (opScenario options)).
Definition accept (options : Options) (st : serverState) : serverState * connection * list bytes :=
  let id := svNextConnectionID st + 1 in
  let fresh mode := mkConnection id false false 0 newStatefulSession mode [] [] in
  (st <| svNextConnectionID := id |>,
   match opMode options with ImplicitTLS => fresh (Handshaking false) | _ => fresh Ready end,
   match opMode options with ImplicitTLS => [] | _ => [greetingChunk options] end).

(** A handle is finished. *)
Definition finishFault (st : serverState) (id : nat) : serverState :=
  match svReports st !! id with
  | Some r => st <| svReports := <[id := mkReport (reportCommand r) (reportCompletion r) true]> (svReports st) |>
  | None => st
  end.
(** The connection is over: the faults it carries finish. *)
Definition endConnection (st : serverState) (c : connection) : serverState * connection :=
  (fold_left finishFault (cnPending c ++ cnLabelFaults c) st, c <| cnMode := Closed |> <| cnPending := [] |> <| cnLabelFaults := [] |>).

Definition triggerFault (st : serverState) (id : nat) (command : Command) (completion : bytes) : serverState :=
  st <| svReports := <[id := mkReport command completion false]> (svReports st) |>.

(** [shouldDisconnectForScenario] and [shouldDisconnect]: one disconnect per
    server. *)
Definition scenarioDisconnect (s : Scenario) (name raw : bytes) (authenticated : bool) : bool :=
  (scDisconnectOnPostLoginCapability s && authenticated && beqs name ($"CAPABILITY"))
  || (scDisconnectOnExactUIDSearch s && beqs name ($"UID") && contains_sub (to_upper raw) ($" SEARCH ") && searchWindowIsExact raw).
Definition countDisconnect (s : Scenario) (sequence : Z) : bool :=
  negb ((scDisconnectAfterCommand s <=? 0) || (sequence <? scDisconnectAfterCommand s)).
Definition disconnects (s : Scenario) (st : serverState) (c : connection) (name raw : bytes) : bool :=
  negb (svDisconnectUsed st) && (scenarioDisconnect s name raw (cnAuthenticated c) || countDisconnect s (cnCommands c)).

(** ** The shared command paths *)

Definition base64StdDigit (c : byte) : option Z :=
  if is_upper c then Some (bZ c - 65) else if is_lower c then Some (bZ c - 71) else if is_digit c then Some (bZ c + 4)
  else if c =b "+"%byte then Some 62 else if c =b "/"%byte then Some 63 else None.

(** [base64.StdEncoding.DecodeString]: full quanta, padding at the end only,
    line breaks skipped, trailing bits ignored. *)
Fixpoint base64StdQuanta (s : bytes) : option bytes :=
  match s with
  | [] => Some []
  | a :: b :: c :: d :: rest =>
      match base64StdDigit a, base64StdDigit b with
      | Some x, Some y =>
          match rest with
          | [] =>
              if (c =b "="%byte) && (d =b "="%byte) then Some [byte_of_Z ((x * 64 + y) / 16)]
              else match base64StdDigit c with
              | None => None
              | Some z =>
                  let v := x * 262144 + y * 4096 + z * 64 in
                  if d =b "="%byte then Some [byte_of_Z (v / 65536); byte_of_Z (v / 256 mod 256)]
                  else match base64StdDigit d with
                  | None => None
                  | Some w => let v := v + w in Some [byte_of_Z (v / 65536); byte_of_Z (v / 256 mod 256); byte_of_Z (v mod 256)]
                  end
              end
          | _ =>
              match base64StdDigit c, base64StdDigit d, base64StdQuanta rest with
              | Some z, Some w, Some r =>
                  let v := x * 262144 + y * 4096 + z * 64 + w in
                  Some (byte_of_Z (v / 65536) :: byte_of_Z (v / 256 mod 256) :: byte_of_Z (v mod 256) :: r)
              | _, _, _ => None
              end
          end
      | _, _ => None
      end
  | _ => None
  end.
Definition base64StdDecode (s : bytes) : option bytes :=
  base64StdQuanta (List.filter (fun b => negb ((b =b x0a) || (b =b x0d))) s).

(** A PLAIN response with a user and a password. *)
Definition plainAccepted (response : bytes) : bool :=
  match base64StdDecode response with
  | Some decoded => match split_byte x00 decoded with [_; user; password] => negb (beqs user []) && negb (beqs password []) | _ => false end
  | None => false
  end.

(** What the loop does after a command. *)
Inductive reply :=
| Say (chunks : list bytes)
| SayAuthenticated (chunks : list bytes)
| SayHandshake (chunks : list bytes)
| SayAwaitPlain (chunks : list bytes)
| SayClose (chunks : list bytes).

Definition say (tag text : bytes) : reply := Say [wireLine (tagged tag text)].

(** The end of AUTHENTICATE PLAIN, with the response in hand. *)
Definition plainReply (tag response : bytes) : reply :=
  if beqs response ($"*") then say tag ($"BAD AUTHENTICATE cancelled")
  else if plainAccepted response then SayAuthenticated [wireLine (tagged tag ($"OK AUTHENTICATE completed"))]
  else say tag ($"BAD invalid PLAIN response").

Definition authenticateReply (options : Options) (c : connection) (tag raw : bytes) : reply :=
  if negb (cnTLS c) then say tag ($"NO TLS required")
  else match fields raw with
  | _ :: _ :: mechanism :: rest =>
      if negb (equal_fold mechanism ($"PLAIN")) then say tag ($"BAD unsupported authentication mechanism")
      else if scRejectAuthentication (opScenario options) then say tag ($"NO authentication failed")
      else match rest with
      | response :: _ => plainReply tag response
      | [] => SayAwaitPlain [wireLine ($"+")]
      end
  | _ => say tag ($"BAD unsupported authentication mechanism")
  end.

Definition loginReply (options : Options) (c : connection) (tag : bytes) : reply :=
  if negb (cnTLS c) then say tag ($"NO TLS required")
  else if scRejectAuthentication (opScenario options) then say tag ($"NO authentication failed")
  else SayAuthenticated [wireLine (tagged tag ($"OK LOGIN completed"))].

Definition uidReply (srv : server) (tag raw : bytes) : reply :=
  match fields raw with
  | _ :: _ :: subcommand :: _ =>
      let sub := to_upper subcommand in
      if beqs sub ($"SEARCH") then Say (searchChunks (srvOptions srv) tag raw)
      else if beqs sub ($"FETCH") then Say (fetchChunks srv tag raw)
      else say tag ($"BAD unsupported UID command")
  | _ => say tag ($"BAD incomplete UID command")
  end.

(** The switch at the end of the loop. *)
Definition sharedCommand (srv : server) (st : serverState) (c : connection) (tag name raw : bytes) : serverState * reply :=
  let options := srvOptions srv in
  let authenticated (r : reply) := if cnAuthenticated c then r else say tag ($"NO authenticate first") in
  if beqs name ($"CAPABILITY") then
    (st, Say (map wireLine [if cnTLS c then $"* CAPABILITY IMAP4rev1 AUTH=PLAIN" else $"* CAPABILITY IMAP4rev1 STARTTLS LOGINDISABLED";
                            tagged tag ($"OK CAPABILITY completed")]))
  else if beqs name ($"STARTTLS") then
    (st, if cnTLS c then say tag ($"BAD TLS already established") else SayHandshake [wireLine (tagged tag ($"OK Begin TLS negotiation"))])
  else if beqs name ($"LOGIN") then (st, loginReply options c tag)
  else if beqs name ($"AUTHENTICATE") then (st, authenticateReply options c tag raw)
  else if beqs name ($"NOOP") then (st, say tag ($"OK NOOP completed"))
  else if beqs name ($"LIST") then (st, authenticated (Say (listChunks (opScenario options) tag)))
  else if beqs name ($"STATUS") then (st, authenticated (Say (statusChunks options tag)))
  else if beqs name ($"EXAMINE") then
    (if cnAuthenticated c then
       let '(st, uidValidity) := nextUIDValidity (opScenario options) st in (st, Say (examineChunks options tag uidValidity))
     else (st, say tag ($"NO authenticate first")))
  else if beqs name ($"UID") then (st, authenticated (uidReply srv tag raw))
  else if beqs name ($"LOGOUT") then
    (st, SayClose (map wireLine [$"* BYE fake IMAP server logging out"; tagged tag ($"OK LOGOUT completed")]))
  else (st, say tag ($"BAD unsupported command")).

(** ** The loop *)

(** The session fixtures on a command: the store of the label mode when there
    is one, else the stateful one. *)
Definition serveSession (st : serverState) (c : connection) (tag name raw : bytes) : serverState * statefulSession * served :=
  match svLabels st with
  | Some labels =>
      let '(labels, session, result) := serveLabels labels (cnSession c) tag name raw (cnTLS c) (cnAuthenticated c) in
      (st <| svLabels := Some labels |>, session, result)
  | None =>
      match svStateful st with
      | Some store =>
          let '(store, session, result) := serveStateful store (cnSession c) tag name raw (cnTLS c) (cnAuthenticated c) in
          (st <| svStateful := Some store |>, session, result)
      | None => (st, cnSession c, Unhandled)
      end
  end.

(** A claimed mutation fault, up to its action: the store is changed or not,
    the handle triggered. *)
Definition applyFault (st : serverState) (c : connection) (a : armedFault) (command : Command) (tag : bytes) : serverState * connection :=
  let '(st, completion) :=
    match svStateful st with
    | Some store =>
        let '(store, completion) := runFault store (armedFaultSelector a) (cnSession c) command tag in
        (st <| svStateful := Some store |>, completion)
    | None => (st, [])
    end in
  (triggerFault st (armedID a) command completion, c <| cnPending := armedID a :: cnPending c |>).

(** The connection is closed, or held until the other end closes it. *)
Definition serveFault (st : serverState) (c : connection) (a : armedFault) (command : Command) (tag : bytes) : serverState * connection * list bytes :=
  let '(st, c) := applyFault st c a command tag in
  match fltAction (armedFaultSelector a) with
  | HoldResponse => (st, c <| cnMode := Discarding |>, [])
  | _ => let '(st, c) := endConnection st c in (st, c, [])
  end.

(** A claimed label fault: refused, held or dropped. *)
Definition triggerLabelFault (st : serverState) (labels : labelStore) (c : connection) (a : armedLabelFault) (command : Command) (tag : bytes) :
    serverState * connection :=
  let '(labels, session, completion) := applyLabelFault labels (armedLabel a) (cnSession c) command tag in
  (triggerFault (st <| svLabels := Some labels |>) (armedLabelID a) command completion,
   c <| cnSession := session |> <| cnLabelFaults := cnLabelFaults c ++ [armedLabelID a] |>).
Definition serveLabelFault (st : serverState) (labels : labelStore) (c : connection) (a : armedLabelFault) (command : Command) (tag : bytes) :
    serverState * connection * list bytes :=
  let '(st, c) := triggerLabelFault st labels c a command tag in
  match lfAction (armedLabel a) with
  | RejectCommand => (st, c, [wireLine (tagged tag labelFaultRefusal)])
  | HoldResponse => (st, c <| cnMode := Recording command |>, [])
  | _ => let '(st, c) := endConnection st c in (st, c, [])
  end.

Definition applyReply (st : serverState) (c : connection) (tag : bytes) (r : reply) : serverState * connection * list bytes :=
  match r with
  | Say chunks => (st, c <| cnMode := Ready |>, chunks)
  | SayAuthenticated chunks => (st, c <| cnAuthenticated := true |> <| cnMode := Ready |>, chunks)
  | SayHandshake chunks => (st, c <| cnMode := Handshaking true |>, chunks)
  | SayAwaitPlain chunks => (st, c <| cnMode := AwaitPlain tag |>, chunks)
  | SayClose chunks => let '(st, c) := endConnection st c in (st, c, chunks)
  end.

(** The session part of the loop, then the shared paths; the commands and the
    scripted faults of the scenario came before. *)
Definition serveCommand (srv : server) (st : serverState) (c : connection) (command : Command) (tag : bytes) :
    serverState * connection * list bytes :=
  let name := cmdName command in
  let raw := cmdRaw command in
  match (if fixtureMode st then claimFault (svFaults st) command (cnAuthenticated c) else None) with
  | Some (a, armed) => serveFault (st <| svFaults := armed |>) c a command tag
  | None =>
      match (match svLabels st with Some labels => claimLabelFault labels (svLabelFaults st) (cnSession c) command (cnAuthenticated c) | None => None end),
            svLabels st with
      | Some (a, armed), Some labels => serveLabelFault (st <| svLabelFaults := armed |>) labels c a command tag
      | _, _ =>
          let '(st, session, result) := serveSession st c tag name raw in
          let c := c <| cnSession := session |> in
          match result with
          | CloseConnection => let '(st, c) := endConnection st c in (st, c, [])
          | Answer lines => (st, c, map wireLine lines)
          | Unhandled => let '(st, r) := sharedCommand srv st c tag name raw in applyReply st c tag r
          end
      end
  end.

(** Whether an oversized response precedes a command; the command it is limited
    to is ASCII. *)
Definition oversized (s : Scenario) (name : bytes) : bool :=
  (0 <? scOversizedResponseBytes s)
  && (beqs (scOversizedResponseCommand s) [] || equal_fold name (scOversizedResponseCommand s)).
(** Its line: [size-5] bytes after ["* OK "], so a size below five panics. *)
Definition oversizedPanics (s : Scenario) : bool := scOversizedResponseBytes s - 5 <? 0.
Definition oversizedChunk (s : Scenario) : bytes := wireLine ($"* OK " ++ repeatByte "X"%byte (scOversizedResponseBytes s - 5)).

(** One command line in the [Ready] mode. *)
Definition handleCommand (srv : server) (st : serverState) (c : connection) (line : bytes) : serverState * connection * list bytes :=
  let s := opScenario (srvOptions srv) in
  let raw := trim_right [x0d; x0a] line in
  let '(tag, name) := parseCommand raw in
  let '(commands, command) := record (svCommands st) raw name (cnTLS c) (cnID c) in
  let st := st <| svCommands := commands |> in
  let c := c <| cnCommands := cnCommands c + 1 |> in
  if disconnects s st c name raw then
    let '(st, c) := endConnection (st <| svDisconnectUsed := true |>) c in (st, c, [])
  else if negb (beqs (scMalformedResponse s) []) then (st, c, [wireLine (scMalformedResponse s)])
  else if oversized s name && oversizedPanics s then (st, c <| cnMode := Panicked |>, [])
  else
    let first := if oversized s name then [oversizedChunk s] else [] in
    let '(st, c, chunks) := serveCommand srv st c command tag in
    (st, c, first ++ chunks).

(** A line on a held label fault is recorded, never dispatched. *)
Definition recordLine (st : serverState) (target : Command) (line : bytes) : serverState :=
  let raw := trim_right [x0d; x0a] line in
  let '(_, name) := parseCommand raw in
  st <| svCommands := fst (record (svCommands st) raw name (cmdTLS target) (cmdConnectionID target)) |>.

(** One event of a connection. *)
Definition handleEvent (srv : server) (st : serverState) (c : connection) (e : event) : serverState * connection * list bytes :=
  match cnMode c, e with
  | (Closed | Panicked), _ => (st, c, [])
  | Handshaking greeted, HandshakeResult true =>
      (st, c <| cnTLS := true |> <| cnMode := Ready |>, if greeted then [] else [greetingChunk (srvOptions srv)])
  | Ready, LineReceived line => handleCommand srv st c line
  | AwaitPlain tag, LineReceived line => applyReply st c tag (plainReply tag (trim_space line))
  | Discarding, LineReceived _ => (st, c, [])
  | Recording target, LineReceived line => (recordLine st target line, c, [])
  | _, HandshakeResult true => (st, c, [])
  | _, _ => let '(st, c) := endConnection st c in (st, c, [])
  end.

(** ** The whole server *)

Record system := mkSystem { sysState : serverState; sysConnections : gmap Z connection; sysWritten : gmap Z (list bytes) }.

(** One step: a connection is accepted, an event reaches one, or a test arms a
    fault.  The changes a test makes to a stateful fixture directly are those
    of [MailboxStoreSpec.fixtureStep]. *)
Inductive systemStep (srv : server) : system -> system -> Prop :=
| SystemAccept s st c chunks : accept (srvOptions srv) (sysState s) = (st, c, chunks) ->
    systemStep srv s (mkSystem st (<[cnID c := c]> (sysConnections s)) (<[cnID c := chunks]> (sysWritten s)))
| SystemEvent s id c e st c' chunks : sysConnections s !! id = Some c -> handleEvent srv (sysState s) c e = (st, c', chunks) ->
    systemStep srv s (mkSystem st (<[id := c']> (sysConnections s)) (<[id := default [] (sysWritten s !! id) ++ chunks]> (sysWritten s)))
| SystemInject s fault armed : svStateful (sysState s) <> None ->
    InjectFault (svFaults (sysState s)) (svNextFault (sysState s)) fault = inr armed ->
    systemStep srv s (mkSystem ((sysState s) <| svFaults := armed |> <| svNextFault := S (svNextFault (sysState s)) |>) (sysConnections s) (sysWritten s))
| SystemInjectLabel s labels fault armed : svLabels (sysState s) = Some labels ->
    InjectLabelFault labels (svLabelFaults (sysState s)) (svNextFault (sysState s)) fault = inr armed ->
    systemStep srv s (mkSystem ((sysState s) <| svLabelFaults := armed |> <| svNextFault := S (svNextFault (sysState s)) |>) (sysConnections s) (sysWritten s)).

Definition initialSystem (st : serverState) : system := mkSystem st ∅ ∅.

(** The same steps, as instructions to run; one that does not apply changes
    nothing. *)
Inductive action := Accept | Deliver (id : Z) (e : event) | Arm (fault : MutationFault) | ArmLabel (fault : LabelFault).

Definition act (srv : server) (s : system) (a : action) : system :=
  let st := sysState s in
  match a with
  | Accept =>
      let '(st, c, chunks) := accept (srvOptions srv) st in
      mkSystem st (<[cnID c := c]> (sysConnections s)) (<[cnID c := chunks]> (sysWritten s))
  | Deliver id e =>
      match sysConnections s !! id with
      | Some c =>
          let '(st, c, chunks) := handleEvent srv st c e in
          mkSystem st (<[id := c]> (sysConnections s)) (<[id := default [] (sysWritten s !! id) ++ chunks]> (sysWritten s))
      | None => s
      end
  | Arm fault =>
      match svStateful st, InjectFault (svFaults st) (svNextFault st) fault with
      | Some _, inr armed => mkSystem (st <| svFaults := armed |> <| svNextFault := S (svNextFault st) |>) (sysConnections s) (sysWritten s)
      | _, _ => s
      end
  | ArmLabel fault =>
      match svLabels st with
      | Some labels =>
          match InjectLabelFault labels (svLabelFaults st) (svNextFault st) fault with
          | inr armed => mkSystem (st <| svLabelFaults := armed |> <| svNextFault := S (svNextFault st) |>) (sysConnections s) (sysWritten s)
          | inl _ => s
          end
      | None => s
      end
  end.
Definition acts (srv : server) (s : system) (actions : list action) : system := fold_left (act srv) actions s.

Lemma act_star srv s a : star (systemStep srv) s (act srv s a).
Proof.
  assert (Hstep : forall s', systemStep srv s s' -> star (systemStep srv) s s') by (intros s' H; eapply star_snoc; [constructor|done]).
  destruct a as [|id e|fault|fault]; cbn -[accept handleEvent InjectFault InjectLabelFault].
  - destruct (accept _ _) as [[st c] chunks] eqn:E. by apply Hstep, SystemAccept.
  - destruct (sysConnections s !! id) as [c|] eqn:Ec; [|constructor]. destruct (handleEvent _ _ _ _) as [[st k] chunks] eqn:E.
    apply Hstep. by eapply SystemEvent.
  - destruct (svStateful (sysState s)) eqn:Es; [|constructor]. destruct (InjectFault _ _ _) eqn:E; [constructor|].
    apply Hstep. eapply SystemInject; [by rewrite Es|done].
  - destruct (svLabels (sysState s)) as [labels|] eqn:Es; [|constructor]. destruct (InjectLabelFault _ _ _ _) eqn:E; [constructor|].
    apply Hstep. by eapply SystemInjectLabel.
Qed.

Lemma acts_star srv actions : forall s, star (systemStep srv) s (acts srv s actions).
Proof. induction actions as [|a actions IH]; intros s; [constructor|]. eapply star_trans; [apply act_star|apply IH]. Qed.

(** * What an event does to the test server

    The handling of one event, in atoms: every change [handleEvent] makes to
    the server's state and the connection is a run of the effects below, each
    with what the loop knows when it happens.  The invariants of
    [TestServerSpec] are proved of one effect at a time. *)

(** ** What the loop knows *)

(** A command of this connection in the log, named by its own bytes. *)
Definition recorded (st : serverState) (c : connection) (command : Command) : Prop :=
  command ∈ svCommands st /\ cmdConnectionID command = cnID c /\ cmdTLS command = cnTLS c /\
  cmdName command = (parseCommand (cmdRaw command)).2.

(** The log holds an authentication this connection sent under TLS. *)
Definition authRecorded (st : serverState) (c : connection) : Prop :=
  exists command, command ∈ svCommands st /\ cmdConnectionID command = cnID c /\ cmdTLS command = true /\
    isAuthentication (cmdName command) = true.

(** ** Effects *)

Inductive effect : serverState * connection -> serverState * connection -> Prop :=
| EffRecord st c raw tls id :
    effect (st, c) (st <| svCommands := (record (svCommands st) raw (parseCommand raw).2 tls id).1 |>, c)
| EffCount st c : effect (st, c) (st, c <| cnCommands := cnCommands c + 1 |>)
| EffDisconnect st c : effect (st, c) (st <| svDisconnectUsed := true |>, c)
| EffExamine st c count : effect (st, c) (st <| svExamineCount := count |>, c)
| EffMode st c mode : (forall tag, mode <> AwaitPlain tag) -> mode <> Closed -> effect (st, c) (st, c <| cnMode := mode |>)
| EffAwait st c tag : cnTLS c = true -> authRecorded st c -> effect (st, c) (st, c <| cnMode := AwaitPlain tag |>)
| EffTLS st c : effect (st, c) (st, c <| cnTLS := true |>)
| EffAuthenticated st c : cnTLS c = true -> authRecorded st c -> effect (st, c) (st, c <| cnAuthenticated := true |>)
| EffServe st c command tag st' session result : recorded st c command ->
    serveSession st c tag (cmdName command) (cmdRaw command) = (st', session, result) ->
    effect (st, c) (st', c <| cnSession := session |>)
| EffFault st c command tag a armed : recorded st c command -> cnMode c = Ready ->
    claimFault (svFaults st) command (cnAuthenticated c) = Some (a, armed) ->
    effect (st, c) (applyFault (st <| svFaults := armed |>) c a command tag)
| EffLabelFault st c labels command tag a armed : recorded st c command -> cnMode c = Ready -> svLabels st = Some labels ->
    claimLabelFault labels (svLabelFaults st) (cnSession c) command (cnAuthenticated c) = Some (a, armed) ->
    effect (st, c) (triggerLabelFault (st <| svLabelFaults := armed |>) labels c a command tag)
| EffEnd st c : effect (st, c) (endConnection st c).

Abbreviation effects := (star effect).

Lemma effect_star x y : effect x y -> effects x y.
Proof. intros. eapply star_snoc; [constructor|done]. Qed.
Lemma effects_snoc x y z : effects x y -> effect y z -> effects x z.
Proof. apply star_snoc. Qed.

(** ** Every reply *)

Lemma end_effects st c st' c' (chunks chunks' : list bytes) : (let '(st, c) := endConnection st c in (st, c, chunks)) = (st', c', chunks') ->
  effects (st, c) (st', c').
Proof. destruct (endConnection st c) as [s k] eqn:E. intros [= <- <- _]. apply effect_star. rewrite <- E. constructor. Qed.

Lemma ready_effects st c : effects (st, c) (st, c <| cnMode := Ready |>).
Proof. apply effect_star. by constructor. Qed.

(** What a reply needs of the connection it is given on. *)
Definition replyFits (st : serverState) (c : connection) (r : reply) : Prop :=
  match r with SayAuthenticated _ | SayAwaitPlain _ => cnTLS c = true /\ authRecorded st c | _ => True end.

Lemma applyReply_effects st c tag r st' c' chunks : replyFits st c r -> applyReply st c tag r = (st', c', chunks) -> effects (st, c) (st', c').
Proof.
  intros Hr. destruct r as [l|l|l|l|l]; cbn; try (intros [= <- <- _]).
  - apply ready_effects.
  - eapply effects_snoc; [apply effect_star, EffAuthenticated; apply Hr|]. by constructor.
  - apply effect_star. by constructor.
  - apply effect_star. constructor; apply Hr.
  - apply effect_star, EffEnd.
Qed.

Lemma plainReply_fits st c tag response : cnTLS c = true -> authRecorded st c -> replyFits st c (plainReply tag response).
Proof. intros. unfold plainReply. destruct (beqs _ _); [done|]. by destruct (plainAccepted response). Qed.

Lemma recorded_auth st c command : recorded st c command -> cnTLS c = true -> isAuthentication (cmdName command) = true -> authRecorded st c.
Proof. intros (Hi & Hid & Ht & _) H Ha. exists command. by rewrite Ht. Qed.

Lemma sharedCommand_effects srv st c command tag st1 r : recorded st c command ->
  sharedCommand srv st c tag (cmdName command) (cmdRaw command) = (st1, r) ->
  effects (st, c) (st1, c) /\ replyFits st1 c r.
Proof.
  intros Hc. unfold sharedCommand. repeat (match goal with |- context [if beqs (cmdName command) ?n then _ else _] => destruct (beqs (cmdName command) n) eqn:?E end);
    try (intros [= <- <-]; split; [constructor|]; first [done|by destruct (cnTLS c)|by destruct (cnAuthenticated c)]).
  - (* LOGIN *) intros [= <- <-]. split; [constructor|]. unfold loginReply. destruct (cnTLS c) eqn:Et; [|done]. cbn [negb].
    destruct (scRejectAuthentication _); [done|]. split; [done|]. eapply recorded_auth; [done|done|]. unfold isAuthentication. by rewrite E1.
  - (* AUTHENTICATE *) intros [= <- <-]. split; [constructor|]. unfold authenticateReply. destruct (cnTLS c) eqn:Et; [|done]. cbn [negb].
    assert (Ha : authRecorded st c) by (eapply recorded_auth; [done|done|]; unfold isAuthentication; by rewrite E2, orb_true_r).
    destruct (fields (cmdRaw command)) as [|? [|? [|mechanism rest]]]; try done. destruct (negb _); [done|]. destruct (scRejectAuthentication _); [done|].
    destruct rest; [done|]. by apply plainReply_fits.
  - (* EXAMINE *) destruct (cnAuthenticated c); [|by intros [= <- <-]; split; [constructor|]]. unfold nextUIDValidity. intros [= <- <-].
    split; [apply effect_star; constructor|done].
  - (* UID *) intros [= <- <-]. split; [constructor|]. destruct (cnAuthenticated c); [|done]. unfold uidReply.
    destruct (fields _) as [|? [|? [|sub rest]]]; [done..|]. by destruct (beqs (to_upper sub) ($"SEARCH")), (beqs (to_upper sub) ($"FETCH")).
Qed.

(** ** Every command *)

Lemma serveFault_effects st c a command tag armed st' c' chunks : recorded st c command -> cnMode c = Ready ->
  claimFault (svFaults st) command (cnAuthenticated c) = Some (a, armed) ->
  serveFault (st <| svFaults := armed |>) c a command tag = (st', c', chunks) -> effects (st, c) (st', c').
Proof.
  intros Hc Hm Hf. unfold serveFault. pose proof (EffFault st c command tag a armed Hc Hm Hf) as H%effect_star.
  destruct (applyFault _ c a command tag) as [s k]. destruct (fltAction _); try (intros E%end_effects; by eapply star_trans).
  intros [= <- <- _]. eapply effects_snoc; [done|]. by constructor.
Qed.

Lemma serveLabelFault_effects st c labels a command tag armed st' c' chunks : recorded st c command -> cnMode c = Ready -> svLabels st = Some labels ->
  claimLabelFault labels (svLabelFaults st) (cnSession c) command (cnAuthenticated c) = Some (a, armed) ->
  serveLabelFault (st <| svLabelFaults := armed |>) labels c a command tag = (st', c', chunks) -> effects (st, c) (st', c').
Proof.
  intros Hc Hm Hl Hf. unfold serveLabelFault. pose proof (EffLabelFault st c labels command tag a armed Hc Hm Hl Hf) as H%effect_star.
  destruct (triggerLabelFault _ labels c a command tag) as [s k]. destruct (lfAction _); try (intros E%end_effects; by eapply star_trans).
  - intros [= <- <- _]. eapply effects_snoc; [done|]. by constructor.
  - by intros [= <- <- _].
Qed.

Lemma serveSession_recorded st c k tag name raw st' session result command : serveSession st c tag name raw = (st', session, result) ->
  recorded st k command -> recorded st' (k <| cnSession := session |>) command.
Proof.
  unfold serveSession. intros H Hr. destruct (svLabels st) as [labels|].
  - destruct (serveLabels _ _ _ _ _ _ _) as [[? ?] ?]. by injection H as <- _ _.
  - destruct (svStateful st) as [store|]; [|by injection H as <- _ _]. destruct (serveStateful _ _ _ _ _ _ _) as [[? ?] ?]. by injection H as <- _ _.
Qed.

Lemma serveCommand_effects srv st c command tag st' c' chunks : recorded st c command -> cnMode c = Ready ->
  serveCommand srv st c command tag = (st', c', chunks) -> effects (st, c) (st', c').
Proof.
  intros Hc Hm. unfold serveCommand. destruct (if fixtureMode st then _ else None) as [[a armed]|] eqn:Ef.
  { destruct (fixtureMode st); [|done]. by apply serveFault_effects. }
  destruct (match svLabels st with Some _ => _ | None => _ end) as [[a armed]|] eqn:El; destruct (svLabels st) as [labels|] eqn:Es; try done.
  { by apply serveLabelFault_effects. }
  all: destruct (serveSession st c tag _ _) as [[s session] result] eqn:E;
    pose proof (effect_star _ _ (EffServe st c command tag s session result Hc E)) as H1;
    pose proof (serveSession_recorded _ _ c _ _ _ _ _ _ command E Hc) as H2;
    destruct result as [| |lines];
    [ destruct (sharedCommand srv s _ tag _ _) as [s2 r] eqn:E2;
      apply sharedCommand_effects in E2 as [H3 H4]; [|done]; intros H5%applyReply_effects; [|done]; eauto using star_trans
    | intros H3%end_effects; by eapply star_trans
    | by intros [= <- <- _] ].
Qed.

(** ** Every event *)

Lemma record_recorded st c raw name commands command : name = (parseCommand raw).2 ->
  record (svCommands st) raw name (cnTLS c) (cnID c) = (commands, command) ->
  recorded (st <| svCommands := commands |>) c command /\ commands = (record (svCommands st) raw name (cnTLS c) (cnID c)).1.
Proof.
  intros Hn H. rewrite H. injection H as <- <-. split; [|done]. split; [|done]. cbn. apply elem_of_app. right. by left.
Qed.

Lemma handleCommand_effects srv st c line st' c' chunks : cnMode c = Ready ->
  handleCommand srv st c line = (st', c', chunks) -> effects (st, c) (st', c').
Proof.
  intros Hm. unfold handleCommand. destruct (parseCommand (trim_right _ line)) as [tag name] eqn:Ep.
  destruct (record _ _ _ _ _) as [commands command] eqn:Er. set (raw := trim_right _ line) in *.
  assert (Hn : name = (parseCommand raw).2) by (by rewrite Ep).
  destruct (record_recorded st c raw name commands command Hn Er) as [Hc Hs].
  set (st1 := st <| svCommands := commands |>) in *. set (c1 := c <| cnCommands := cnCommands c + 1 |>).
  assert (H1 : effects (st, c) (st1, c1)).
  { eapply effects_snoc; [|apply EffCount]. apply effect_star. unfold st1. rewrite Hs, Hn. apply EffRecord. }
  assert (Hc1 : recorded st1 c1 command) by exact Hc.
  destruct (disconnects _ _ _ _ _).
  { intros H%end_effects. eapply star_trans; [|exact H]. eapply effects_snoc; [exact H1|]. constructor. }
  destruct (negb _); [by intros [= <- <- _]|]. destruct (oversized _ _ && _).
  { intros [= <- <- _]. eapply effects_snoc; [exact H1|]. by constructor. }
  destruct (serveCommand srv st1 c1 command tag) as [[s k] l] eqn:E. intros [= <- <- _].
  eapply star_trans; [exact H1|]. by eapply serveCommand_effects.
Qed.

(** A connection that waits for a PLAIN response has sent its authentication. *)
Definition awaitsFairly (st : serverState) (c : connection) : Prop :=
  forall tag, cnMode c = AwaitPlain tag -> cnTLS c = true /\ authRecorded st c.

Lemma handleEvent_effects srv st c e st' c' chunks : awaitsFairly st c -> handleEvent srv st c e = (st', c', chunks) -> effects (st, c) (st', c').
Proof.
  intros Ha. assert (Hend : (let '(st, c) := endConnection st c in (st, c, [])) = (st', c', chunks) -> effects (st, c) (st', c')) by (intros H; by apply (end_effects _ _ _ _ [] chunks)).
  assert (Hsame : (st, c, []) = (st', c', chunks) -> effects (st, c) (st', c')) by (intros [= <- <- _]; constructor).
  unfold handleEvent. destruct (cnMode c) as [greeted| |tag| |target| |] eqn:Em, e as [line|[]|]; try done.
  - intros [= <- <- _]. eapply effects_snoc; [apply effect_star, EffTLS|]. by constructor.
  - by apply handleCommand_effects.
  - intros H%applyReply_effects; [done|]. apply plainReply_fits; by eapply Ha.
  - intros [= <- <- _]. unfold recordLine. destruct (parseCommand _) as [t name] eqn:Ep.
    assert (En : name = (parseCommand (trim_right [x0d; x0a] line)).2) by (by rewrite Ep). rewrite En. apply effect_star, EffRecord.
Qed.
