(* ===== verification/TestServerSpec.v ===== *)
(** * The test server, over all its connections

    Whatever clients send and tests arm, the server numbers the commands it
    records, authenticates nobody outside TLS, keeps its fixtures well formed
    and consumes every armed fault once, on a connection that finishes it; and
    when the read-only assertion accepts a log of printable commands, the
    fixtures are as they were started. *)
From Stdlib Require Import ZArith Lia Strings.Byte.
From stdpp Require Import base list gmap strings.
From S2P Require Import Prelude GoStrings GoText MessageID ImapTokens MailboxStore MailboxStoreSpec.
From S2P Require Import LabelStore LabelStoreSpec Transcript TestCommands BodyStructureFixture TestFaults TestServer.

(** ** The log *)

Definition logExtends (st st' : serverState) : Prop := exists more, svCommands st' = svCommands st ++ more.
#[export] Instance logExtends_preorder : PreOrder logExtends.
Proof.
  split; [intros st; exists []; by rewrite app_nil_r|]. intros a b c [l H1] [k H2]. exists (l ++ k). by rewrite H2, H1, app_assoc.
Qed.

(** What a claimed fault changes of the state. *)
Lemma applyFault_state st c a command tag st' c' : applyFault st c a command tag = (st', c') ->
  svCommands st' = svCommands st /\ svLabels st' = svLabels st /\ svNextConnectionID st' = svNextConnectionID st /\
  svFaults st' = svFaults st /\ svLabelFaults st' = svLabelFaults st /\ svNextFault st' = svNextFault st /\
  (exists completion, svReports st' = <[armedID a := mkReport command completion false]> (svReports st)) /\
  svStateful st' = option_map (fun store => (runFault store (armedFaultSelector a) (cnSession c) command tag).1) (svStateful st) /\
  c' = c <| cnPending := armedID a :: cnPending c |>.
Proof.
  unfold applyFault. destruct (svStateful st) as [store|] eqn:Es.
  - destruct (runFault store _ _ _ _) as [s completion] eqn:Er. intros [= <- <-]. split_and!; try done; [by exists completion|]. cbn. by rewrite Er.
  - intros [= <- <-]. split_and!; try done. by exists [].
Qed.

Lemma triggerLabelFault_state st labels c a command tag st' c' : triggerLabelFault st labels c a command tag = (st', c') ->
  svCommands st' = svCommands st /\ svStateful st' = svStateful st /\ svNextConnectionID st' = svNextConnectionID st /\
  svFaults st' = svFaults st /\ svLabelFaults st' = svLabelFaults st /\ svNextFault st' = svNextFault st /\
  (exists completion, svReports st' = <[armedLabelID a := mkReport command completion false]> (svReports st)) /\
  svLabels st' = Some (applyLabelFault labels (armedLabel a) (cnSession c) command tag).1.1 /\
  exists session, c' = c <| cnSession := session |> <| cnLabelFaults := cnLabelFaults c ++ [armedLabelID a] |>.
Proof.
  unfold triggerLabelFault. destruct (applyLabelFault _ _ _ _ _) as [[l session] completion]. intros [= <- <-].
  split_and!; try done; [by exists completion|by exists session].
Qed.

(** What the session fixtures change. *)
Lemma serveSession_state st c tag name raw st' session result : serveSession st c tag name raw = (st', session, result) ->
  svCommands st' = svCommands st /\ svNextConnectionID st' = svNextConnectionID st /\ svFaults st' = svFaults st /\
  svLabelFaults st' = svLabelFaults st /\ svNextFault st' = svNextFault st /\ svReports st' = svReports st /\
  match svLabels st with
  | Some labels => svStateful st' = svStateful st /\
      svLabels st' = Some (serveLabels labels (cnSession c) tag name raw (cnTLS c) (cnAuthenticated c)).1.1
  | None => svLabels st' = None /\
      svStateful st' = option_map (fun s => (serveStateful s (cnSession c) tag name raw (cnTLS c) (cnAuthenticated c)).1.1) (svStateful st)
  end.
Proof.
  unfold serveSession. destruct (svLabels st) as [labels|] eqn:El.
  - destruct (serveLabels _ _ _ _ _ _ _) as [[l s] r]. by intros [= <- _ _].
  - destruct (svStateful st) as [store|] eqn:Es; [|by intros [= <- _ _]; rewrite El, Es].
    destruct (serveStateful store _ _ _ _ _ _) as [[l s] r] eqn:E. intros [= <- _ _]. cbn. rewrite E. by rewrite El.
Qed.

(** Finishing handles only ends reports. *)
Lemma finishFault_state st id : svCommands (finishFault st id) = svCommands st /\ svStateful (finishFault st id) = svStateful st /\
  svLabels (finishFault st id) = svLabels st /\ svNextConnectionID (finishFault st id) = svNextConnectionID st /\
  svFaults (finishFault st id) = svFaults st /\ svLabelFaults (finishFault st id) = svLabelFaults st /\
  svNextFault (finishFault st id) = svNextFault st.
Proof. unfold finishFault. by destruct (svReports st !! id). Qed.

Lemma finishFaults_state ids : forall st, let st' := fold_left finishFault ids st in
  svCommands st' = svCommands st /\ svStateful st' = svStateful st /\ svLabels st' = svLabels st /\
  svNextConnectionID st' = svNextConnectionID st /\ svFaults st' = svFaults st /\ svLabelFaults st' = svLabelFaults st /\
  svNextFault st' = svNextFault st.
Proof.
  induction ids as [|id ids IH]; intros st; [done|]. cbn. specialize (IH (finishFault st id)). cbn in IH.
  destruct (finishFault_state st id) as (H1 & H2 & H3 & H4 & H5 & H6 & H7).
  by rewrite H1, H2, H3, H4, H5, H6, H7 in IH.
Qed.

Lemma endConnection_state st c st' c' : endConnection st c = (st', c') ->
  svCommands st' = svCommands st /\ svStateful st' = svStateful st /\ svLabels st' = svLabels st /\
  svNextConnectionID st' = svNextConnectionID st /\ svFaults st' = svFaults st /\ svLabelFaults st' = svLabelFaults st /\
  svNextFault st' = svNextFault st /\ svReports st' = svReports (fold_left finishFault (cnPending c ++ cnLabelFaults c) st) /\
  c' = c <| cnMode := Closed |> <| cnPending := [] |> <| cnLabelFaults := [] |>.
Proof.
  unfold endConnection. intros [= <- <-]. destruct (finishFaults_state (cnPending c ++ cnLabelFaults c) st) as (H1 & H2 & H3 & H4 & H5 & H6 & H7).
  split_and!; done.
Qed.

(** Every effect, as what it leaves alone: the log is only appended to, the
    connection keeps its number. *)
Lemma effect_log x y : effect x y -> logExtends x.1 y.1 /\ cnID y.2 = cnID x.2 /\ svNextConnectionID y.1 = svNextConnectionID x.1.
Proof.
  intros H. destruct H as [st c raw tls id|st c|st c|st c count|st c mode|st c tag|st c|st c|st c command tag st' session result Hc E|
    st c command tag a armed Hc Hm E|st c labels command tag a armed Hc Hm Hl E|st c]; cbn; try (split; [exists []; by rewrite app_nil_r|done]).
  - split; [|done]. by eexists.
  - destruct (serveSession_state _ _ _ _ _ _ _ _ E) as (H & ? & _). split; [|done]. exists []. rewrite app_nil_r; exact H.
  - destruct (applyFault _ c a command tag) as [s k] eqn:Ea. apply applyFault_state in Ea as (H & _ & ? & _ & _ & _ & _ & _ & ->).
    split; [|done]. exists []. rewrite app_nil_r; exact H.
  - destruct (triggerLabelFault _ labels c a command tag) as [s k] eqn:Ea. apply triggerLabelFault_state in Ea as (H & _ & ? & _ & _ & _ & _ & _ & session & ->).
    split; [|done]. exists []. rewrite app_nil_r; exact H.
  - destruct (finishFaults_state (cnPending c ++ cnLabelFaults c) st) as (H & _ & _ & ? & _). split; [|done].
    exists []. rewrite app_nil_r; exact H.
Qed.

Lemma effects_log x y : effects x y -> logExtends x.1 y.1 /\ cnID y.2 = cnID x.2 /\ svNextConnectionID y.1 = svNextConnectionID x.1.
Proof.
  intros H. apply (star_invariant effect (fun z => logExtends x.1 z.1 /\ cnID z.2 = cnID x.2 /\ svNextConnectionID z.1 = svNextConnectionID x.1) x); [done| |done].
  intros a b (H1 & H2 & H3) Hab. apply effect_log in Hab as (G1 & G2 & G3). split; [by etrans|]. split; congruence.
Qed.

(** ** The invariant of the state and one connection *)

Definition numbered (commands : list Command) : Prop :=
  forall i c, commands !! i = Some c -> cmdSequence c = Z.of_nat i + 1.

Record connOK (st : serverState) (c : connection) : Prop := {
  coAuth : cnAuthenticated c = true -> cnTLS c = true /\ authRecorded st c;
  coAwait : awaitsFairly st c;
  coClosed : cnMode c = Closed -> cnPending c = [] /\ cnLabelFaults c = [] }.

Definition armedIDs (st : serverState) : list nat := map armedID (svFaults st) ++ map armedLabelID (svLabelFaults st).
Definition mutationName (name : bytes) : Prop := name = $"UID STORE" \/ name = $"UID MOVE".

(** Every handle is armed once or has triggered, never both; a triggered one
    tells a recorded command. *)
Record faultsOK (st : serverState) : Prop := {
  foNoDup : NoDup (armedIDs st);
  foNew : forall id, id ∈ armedIDs st -> (id < svNextFault st)%nat;
  foReported : forall id r, svReports st !! id = Some r -> (id < svNextFault st)%nat /\ id ∉ armedIDs st /\ reportCommand r ∈ svCommands st;
  foNames : Forall (fun a => mutationName (fltCommand (armedFaultSelector a))) (svFaults st) }.

(** The faults a connection finishes when it ends. *)
Definition carried (c : connection) : list nat := cnPending c ++ cnLabelFaults c.
Definition unfinished (st : serverState) (id : nat) : Prop := exists r, svReports st !! id = Some r /\ reportFinished r = false.

(** With [others], what the other connections carry. *)
Record stateOK (others : nat -> Prop) (st : serverState) (c : connection) : Prop := {
  soNumbered : numbered (svCommands st);
  soConn : connOK st c;
  soFaults : faultsOK st;
  soCarried : forall id, unfinished st id -> id ∈ carried c \/ others id }.

Lemma numbered_snoc commands command : numbered commands -> cmdSequence command = zlen commands + 1 -> numbered (commands ++ [command]).
Proof.
  intros H Hc i c. rewrite lookup_app_Some. intros [|[Hl Hi]]; [by apply H|]. apply list_lookup_singleton_Some in Hi as [Hi <-].
  rewrite Hc. unfold zlen. lia.
Qed.

Lemma log_elem st st' c : logExtends st st' -> c ∈ svCommands st -> c ∈ svCommands st'.
Proof. intros [more E] H. rewrite E. apply elem_of_app. by left. Qed.

Lemma authRecorded_mono st st' c c' : logExtends st st' -> cnID c' = cnID c -> authRecorded st c -> authRecorded st' c'.
Proof. intros Hl Hi (k & Hk & Hid & ?). exists k. rewrite Hi. split; [by eapply log_elem|done]. Qed.

Lemma connOK_mono st st' c : logExtends st st' -> connOK st c -> connOK st' c.
Proof.
  intros Hl [H1 H2 H3]. split; [|intros tag Ht|done].
  - intros Ha. destruct (H1 Ha). split; [done|]. by eapply authRecorded_mono.
  - destruct (H2 tag Ht). split; [done|]. by eapply authRecorded_mono.
Qed.

Lemma faultsOK_mono st st' : logExtends st st' -> svFaults st' = svFaults st -> svLabelFaults st' = svLabelFaults st ->
  svNextFault st' = svNextFault st -> svReports st' = svReports st -> faultsOK st -> faultsOK st'.
Proof.
  intros Hl Hf Hlf Hn Hr [H1 H2 H3 H4]. assert (E : armedIDs st' = armedIDs st) by (unfold armedIDs; by rewrite Hf, Hlf).
  split; rewrite ?E, ?Hn, ?Hr, ?Hf; try done. intros id r Hi. destruct (H3 id r Hi) as (? & ? & ?). split_and!; try done. by eapply log_elem.
Qed.

Lemma stateOK_mono others st st' c : logExtends st st' -> numbered (svCommands st') -> svFaults st' = svFaults st ->
  svLabelFaults st' = svLabelFaults st -> svNextFault st' = svNextFault st -> svReports st' = svReports st ->
  stateOK others st c -> stateOK others st' c.
Proof.
  intros Hl Hnum Hf Hlf Hn Hr [H1 H2 H3 H4]. split; [done|by eapply connOK_mono|by eapply faultsOK_mono|].
  intros id (r & Hi & Hu). apply H4. exists r. by rewrite <- Hr.
Qed.

(** A change of the connection alone. *)
Lemma stateOK_conn others st c c' : connOK st c' -> carried c' = carried c -> stateOK others st c -> stateOK others st c'.
Proof. intros Hc E [H1 H2 H3 H4]. split; [done|done|done|]. by rewrite E. Qed.

(** ** Faults *)

Lemma takeFirst_Some {A} (f : A -> bool) l x rest : takeFirst f l = Some (x, rest) -> l ≡ₚ x :: rest /\ f x = true.
Proof.
  revert rest. induction l as [|y l IH]; intros rest; cbn; [done|]. destruct (f y) eqn:E; [by intros [= <- <-]|].
  destruct (takeFirst f l) as [[z r]|]; [|done]. intros [= <- <-]. destruct (IH r eq_refl) as [-> Hf]. split; [|done]. apply perm_swap.
Qed.

(** A claimed handle leaves the armed ones and is reported. *)
Lemma faultsOK_claim st st' id command completion : faultsOK st -> armedIDs st ≡ₚ id :: armedIDs st' ->
  (forall a, a ∈ svFaults st' -> a ∈ svFaults st) -> svNextFault st' = svNextFault st -> logExtends st st' ->
  command ∈ svCommands st -> svReports st' = <[id := mkReport command completion false]> (svReports st) -> faultsOK st'.
Proof.
  intros [H1 H2 H3 H4] Hp Hs Hn Hl Hc Hr. rewrite Hp in H1. apply NoDup_cons in H1 as [Hid Hnd].
  assert (Hin : forall k, k ∈ armedIDs st' -> k ∈ armedIDs st) by (intros k Hk; rewrite Hp; by right).
  split; [done|intros k Hk; rewrite Hn; auto| |].
  - intros k r. rewrite Hr, lookup_insert_Some, Hn. intros [[<- <-]|[Hne Hk]].
    + split_and!; [apply H2; rewrite Hp; by left|done|by eapply log_elem].
    + destruct (H3 k r Hk) as (? & Hni & ?). split_and!; [done|by intros ?%Hin|by eapply log_elem].
  - rewrite Forall_forall in *. auto.
Qed.

Lemma carried_claim (others : nat -> Prop) st st' c c' id report : (forall k, unfinished st k -> k ∈ carried c \/ others k) ->
  svReports st' = <[id := report]> (svReports st) -> id ∈ carried c' -> (forall k, k ∈ carried c -> k ∈ carried c') ->
  forall k, unfinished st' k -> k ∈ carried c' \/ others k.
Proof.
  intros H Hr Hid Hsub k (r & Hk & Hu). rewrite Hr, lookup_insert_Some in Hk. destruct Hk as [[<- _]|[_ Hk]]; [by left|].
  destruct (H k) as [?|?]; [by exists r|left; auto|by right].
Qed.

Lemma claimFault_Some armed command auth a rest : claimFault armed command auth = Some (a, rest) ->
  armed ≡ₚ a :: rest /\ exists p, ParseTranscriptCommand command = inr p /\ tcVerb p = fltCommand (armedFaultSelector a).
Proof.
  unfold claimFault. destruct (negb auth); [done|]. destruct (ParseTranscriptCommand command) as [e|p]; [done|].
  intros [Hp Hf]%takeFirst_Some. split; [done|]. exists p. split; [done|]. apply andb_prop in Hf as [Hf%beqs_eq _]. done.
Qed.

Lemma claimLabelFault_Some labels armed session command auth a rest : claimLabelFault labels armed session command auth = Some (a, rest) ->
  armed ≡ₚ a :: rest /\ labelDispatchable labels session command = Some (armedKey a).
Proof.
  unfold claimLabelFault. destruct (_ || _); [done|]. destruct (labelDispatchable _ _ _) as [key|]; [|done].
  intros [Hp Hf]%takeFirst_Some. split; [done|]. by apply bool_decide_eq_true in Hf as ->.
Qed.

Lemma finishFaults_reports ids : forall st id r', svReports (fold_left finishFault ids st) !! id = Some r' ->
  exists r, svReports st !! id = Some r /\ reportCommand r' = reportCommand r /\
    (reportFinished r' = false -> reportFinished r = false /\ id ∉ ids).
Proof.
  induction ids as [|k ids IH]; intros st id r'; cbn [fold_left].
  - intros H. exists r'. split_and!; [done|done|]. intros ?. split; [done|]. apply not_elem_of_nil.
  - intros (r & Hr & Hc & Hf)%IH. unfold finishFault in Hr. destruct (svReports st !! k) as [q|] eqn:Eq.
    + cbn in Hr. rewrite lookup_insert_Some in Hr. destruct Hr as [[<- <-]|[Hne Hr]].
      * exists q. split_and!; [done|done|]. intros H%Hf. by destruct H.
      * exists r. split_and!; [done|done|]. intros [? ?]%Hf. split; [done|]. by intros [->|?]%elem_of_cons.
    + exists r. split_and!; [done|done|]. intros [? ?]%Hf. split; [done|]. intros [->|?]%elem_of_cons; [by rewrite Eq in Hr|done].
Qed.

(** ** Every effect keeps the invariant *)

Lemma claim_ok others st c a armed command tag : recorded st c command -> cnMode c = Ready ->
  claimFault (svFaults st) command (cnAuthenticated c) = Some (a, armed) -> stateOK others st c ->
  stateOK others (applyFault (st <| svFaults := armed |>) c a command tag).1 (applyFault (st <| svFaults := armed |>) c a command tag).2.
Proof.
  intros (Hin & _) Hm Hf [H1 H2 H3 H4]. destruct (applyFault _ c a command tag) as [s k] eqn:Ea. cbn [fst snd].
  apply applyFault_state in Ea as (Hc & _ & _ & Hfs & Hls & Hn & (completion & Hr) & _ & ->).
  apply claimFault_Some in Hf as [Hp _]. assert (Hl : logExtends st s) by (exists []; rewrite app_nil_r; exact Hc).
  split; [by rewrite Hc|..].
  - destruct (connOK_mono _ _ c Hl H2) as [G1 G2 G3]. split; [exact G1|exact G2|]. cbn. by rewrite Hm.
  - apply (faultsOK_claim st s (armedID a) command completion); try done.
    + unfold armedIDs. rewrite Hfs, Hls. cbn. by rewrite Hp.
    + intros x. rewrite Hfs. cbn. intros Hx. rewrite Hp. by right.
  - eapply carried_claim; [exact H4|exact Hr| |]; unfold carried; cbn; [by left|]. intros j Hj. by right.
Qed.

Lemma claimLabel_ok others st c labels a armed command tag : recorded st c command -> cnMode c = Ready ->
  claimLabelFault labels (svLabelFaults st) (cnSession c) command (cnAuthenticated c) = Some (a, armed) -> stateOK others st c ->
  stateOK others (triggerLabelFault (st <| svLabelFaults := armed |>) labels c a command tag).1
    (triggerLabelFault (st <| svLabelFaults := armed |>) labels c a command tag).2.
Proof.
  intros (Hin & _) Hm Hf [H1 H2 H3 H4]. destruct (triggerLabelFault _ labels c a command tag) as [s k] eqn:Ea. cbn [fst snd].
  apply triggerLabelFault_state in Ea as (Hc & _ & _ & Hfs & Hls & Hn & (completion & Hr) & _ & session & ->).
  apply claimLabelFault_Some in Hf as [Hp _]. assert (Hl : logExtends st s) by (exists []; rewrite app_nil_r; exact Hc).
  split; [by rewrite Hc|..].
  - destruct (connOK_mono _ _ c Hl H2) as [G1 G2 G3]. split; [exact G1|exact G2|]. cbn. by rewrite Hm.
  - apply (faultsOK_claim st s (armedLabelID a) command completion); try done.
    + unfold armedIDs. rewrite Hfs, Hls. cbn. rewrite Hp. cbn. by rewrite <- Permutation_middle.
    + intros x. by rewrite Hfs.
  - eapply carried_claim; [exact H4|exact Hr| |]; unfold carried; cbn.
    + rewrite !elem_of_app. right. right. by left.
    + intros j. rewrite !elem_of_app. tauto.
Qed.

Lemma end_ok others st c : stateOK others st c -> stateOK others (endConnection st c).1 (endConnection st c).2.
Proof.
  intros [H1 H2 H3 H4]. destruct (endConnection st c) as [s k] eqn:Ea. cbn [fst snd].
  apply endConnection_state in Ea as (Hc & _ & _ & _ & Hfs & Hls & Hn & Hr & ->).
  assert (Hl : logExtends st s) by (exists []; by rewrite app_nil_r, Hc).
  assert (Ei : armedIDs s = armedIDs st) by (unfold armedIDs; by rewrite Hfs, Hls).
  split; [by rewrite Hc|..].
  - destruct (connOK_mono _ _ c Hl H2) as [G1 G2 G3]. split; [exact G1|done|done].
  - destruct H3 as [F1 F2 F3 F4]. split; rewrite ?Ei, ?Hn, ?Hfs; try done. intros id r. rewrite Hr.
    intros (r0 & H0 & -> & _)%finishFaults_reports. destruct (F3 id r0 H0) as (? & ? & ?). split_and!; try done. by rewrite Hc.
  - intros id (r & Hi & Hu). rewrite Hr in Hi. apply finishFaults_reports in Hi as (r0 & H0 & _ & Hf). destruct (Hf Hu) as [Hu0 Hni].
    destruct (H4 id) as [?|?]; [by exists r0|done|by right].
Qed.

Lemma effect_ok others x y : effect x y -> stateOK others x.1 x.2 -> stateOK others y.1 y.2.
Proof.
  intros H Hx. pose proof (effect_log _ _ H) as (Hl & _ & _). pose proof Hx as [H1 H2 H3 H4].
  destruct H as [st c raw tls id|st c|st c|st c count|st c mode Hm Hm'|st c tag Ht Ha|st c|st c Ht Ha|st c command tag st' session result Hc E|
    st c command tag a armed Hc Hm E|st c labels command tag a armed Hc Hm Hl' E|st c]; cbn [fst snd] in *.
  - eapply stateOK_mono; [exact Hl|..|exact Hx]; try done. by apply numbered_snoc.
  - apply (stateOK_conn others st c); [|done|exact Hx]. by destruct H2.
  - eapply stateOK_mono; [exact Hl|..|exact Hx]; done.
  - eapply stateOK_mono; [exact Hl|..|exact Hx]; done.
  - apply (stateOK_conn others st c); [|done|exact Hx]. destruct H2 as [G1 G2 G3]. split; [exact G1|intros tag Ht; by destruct (Hm tag)|done].
  - apply (stateOK_conn others st c); [|done|exact Hx]. destruct H2 as [G1 G2 G3]. split; [exact G1|by intros t _|done].
  - apply (stateOK_conn others st c); [|done|exact Hx]. destruct H2 as [G1 G2 G3].
    split; [intros Ha; by destruct (G1 Ha)|intros t Ht; by destruct (G2 t Ht)|exact G3].
  - apply (stateOK_conn others st c); [|done|exact Hx]. destruct H2 as [G1 G2 G3]. split; [done|exact G2|exact G3].
  - apply serveSession_state in E as (Hcs & _ & ? & ? & ? & ? & _). eapply (stateOK_conn _ _ c).
    + destruct (connOK_mono _ _ c Hl H2) as [G1 G2 G3]. by split.
    + done.
    + eapply stateOK_mono; [exact Hl|by rewrite Hcs|..|exact Hx]; done.
  - by apply claim_ok.
  - by apply claimLabel_ok.
  - by apply end_ok.
Qed.

Lemma effects_ok others x y : effects x y -> stateOK others x.1 x.2 -> stateOK others y.1 y.2.
Proof. intros H Hx. eapply (star_invariant effect (fun z => stateOK others z.1 z.2)); [exact Hx| |exact H]. intros a b Ha Hab. by eapply effect_ok. Qed.

Lemma handleEvent_ok others srv st c e st' c' chunks : stateOK others st c -> handleEvent srv st c e = (st', c', chunks) ->
  stateOK others st' c' /\ logExtends st st' /\ cnID c' = cnID c /\ svNextConnectionID st' = svNextConnectionID st.
Proof.
  intros H E. apply handleEvent_effects in E; [|apply H]. pose proof (effects_log _ _ E) as (? & ? & ?).
  split_and!; try done. by apply (effects_ok others _ _ E).
Qed.

(** ** The invariant of the whole server *)

(** Whether a connection of the table other than [id] carries the fault. *)
Definition carriedElsewhere (connections : gmap Z connection) (id : Z) (fault : nat) : Prop :=
  exists k c, k <> id /\ connections !! k = Some c /\ fault ∈ carried c.

Record systemOK (s : system) : Prop := {
  syNumbered : numbered (svCommands (sysState s));
  syConns : forall id c, sysConnections s !! id = Some c -> connOK (sysState s) c /\ cnID c = id /\ 0 < id <= svNextConnectionID (sysState s);
  syFaults : faultsOK (sysState s);
  syCarried : forall fault, unfinished (sysState s) fault -> exists id c, sysConnections s !! id = Some c /\ fault ∈ carried c;
  syCount : 0 <= svNextConnectionID (sysState s) }.

Lemma systemOK_conn s id c : systemOK s -> sysConnections s !! id = Some c -> stateOK (carriedElsewhere (sysConnections s) id) (sysState s) c.
Proof.
  intros [H1 H2 H3 H4 _] Hi. split; [done|by eapply H2|done|]. intros f (k & d & Hk & Hf)%H4.
  destruct (decide (k = id)) as [->|]; [left; by simplify_eq|right; by exists k, d].
Qed.

Lemma systemOK_update s id c st' c' written : systemOK s -> sysConnections s !! id = Some c ->
  stateOK (carriedElsewhere (sysConnections s) id) st' c' -> logExtends (sysState s) st' -> cnID c' = cnID c ->
  svNextConnectionID st' = svNextConnectionID (sysState s) -> systemOK (mkSystem st' (<[id := c']> (sysConnections s)) written).
Proof.
  intros Hs Hi [G1 G2 G3 G4] Hl Hid Hn. destruct Hs as [H1 H2 H3 H4 H5]. split; cbn; [done| |done| |lia].
  - intros k d. rewrite lookup_insert_Some. intros [[<- <-]|[Hne Hk]].
    + split; [done|]. rewrite Hid, Hn. by apply H2.
    + destruct (H2 k d Hk) as (? & ? & ?). rewrite Hn. split_and!; try done; try lia. by eapply connOK_mono.
  - intros f Hf. destruct (G4 f Hf) as [?|(k & d & Hne & Hk & ?)]; [exists id, c'; by rewrite lookup_insert_eq|].
    exists k, d. by rewrite lookup_insert_ne.
Qed.

Lemma accept_ok srv s st c chunks : systemOK s -> accept (srvOptions srv) (sysState s) = (st, c, chunks) ->
  systemOK (mkSystem st (<[cnID c := c]> (sysConnections s)) (<[cnID c := chunks]> (sysWritten s))).
Proof.
  intros [H1 H2 H3 H4 H5]. unfold accept.
  set (id := svNextConnectionID (sysState s) + 1). set (st1 := (sysState s) <| svNextConnectionID := id |>). set (mode := match opMode _ with ImplicitTLS => _ | _ => _ end).
  intros [= <- <- _]. assert (Hm : exists m, mode = mkConnection id false false 0 newStatefulSession m [] [] /\ forall tag, m <> AwaitPlain tag).
  { unfold mode. destruct (opMode _); eexists; by split. }
  clearbody mode. destruct Hm as (m & -> & Hm). cbn [cnID]. split; cbn [sysState sysConnections]; [done| |apply (faultsOK_mono (sysState s)); [exists []; by rewrite app_nil_r|done..]| |cbn; lia].
  - intros k d. rewrite lookup_insert_Some. intros [[<- <-]|[Hne Hk]].
    + split; [split; [done|intros tag Ht; by destruct (Hm tag)|done]|]. cbn. lia.
    + destruct (H2 k d Hk) as (? & ? & ?). cbn. split_and!; try done; try lia. eapply connOK_mono; [|done]. exists []. by rewrite app_nil_r.
  - intros f (k & d & Hk & Hf)%H4. exists k, d. rewrite lookup_insert_ne; [done|]. intros <-. destruct (H2 _ _ Hk) as (_ & _ & ?). cbn in *. lia.
Qed.

Lemma inject_ok st st' : faultsOK st -> svNextFault st' = S (svNextFault st) -> svReports st' = svReports st -> svCommands st' = svCommands st ->
  armedIDs st' ≡ₚ svNextFault st :: armedIDs st -> Forall (fun a => mutationName (fltCommand (armedFaultSelector a))) (svFaults st') -> faultsOK st'.
Proof.
  intros [H1 H2 H3 H4] Hn Hr Hc Hp Hf. split; [|..|done].
  - rewrite Hp. apply NoDup_cons. split; [|done]. intros ?%H2. lia.
  - intros id. rewrite Hp, Hn. intros [->|?%H2]%elem_of_cons; lia.
  - intros id r. rewrite Hr, Hn, Hc. intros Hi. destruct (H3 id r Hi) as (? & ? & ?). split_and!; [lia| |done].
    rewrite Hp. intros [->|?]%elem_of_cons; [lia|done].
Qed.

(** Arming a fault changes the state alone. *)
Lemma systemOK_armed s st : systemOK s -> faultsOK st -> svCommands st = svCommands (sysState s) -> svReports st = svReports (sysState s) ->
  svNextConnectionID st = svNextConnectionID (sysState s) -> systemOK (mkSystem st (sysConnections s) (sysWritten s)).
Proof.
  intros [H1 H2 H3 H4 H5] Hf Hc Hr Hn. assert (Hl : logExtends (sysState s) st) by (exists []; by rewrite app_nil_r).
  split; cbn [sysState sysConnections]; rewrite ?Hc, ?Hn; try done.
  - intros id c Hi. destruct (H2 id c Hi) as (? & ? & ?). split; [by eapply connOK_mono|done].
  - intros fault (r & Hi & Hu). apply H4. exists r. by rewrite <- Hr.
Qed.

Lemma systemStep_ok srv s s' : systemOK s -> systemStep srv s s' -> systemOK s'.
Proof.
  intros Hs H. destruct H as [s st c chunks E|s id c e st c' chunks Hi E|s fault armed _ E|s labels fault armed _ E].
  - by eapply accept_ok.
  - pose proof (systemOK_conn s id c Hs Hi) as Hc. destruct (handleEvent_ok _ srv _ c e st c' chunks Hc E) as (? & ? & ? & ?).
    by eapply systemOK_update.
  - unfold InjectFault in E. destruct (checkFault fault) eqn:Ec; [done|]. injection E as <-.
    apply systemOK_armed; try done. eapply inject_ok; [exact (syFaults s Hs)|done..| |].
    + unfold armedIDs. cbn. rewrite map_app, <- app_assoc. cbn. by rewrite <- Permutation_middle.
    + cbn. apply Forall_app. split; [apply (syFaults s Hs)|]. constructor; [|done]. unfold checkFault in Ec. cbn. unfold mutationName.
      destruct (beqs _ _) eqn:E1; [left; by apply beqs_eq|]. destruct (beqs _ ($"UID MOVE")) eqn:E2; [right; by apply beqs_eq|done].
  - unfold InjectLabelFault in E. destruct (checkLabelFault fault) eqn:Ec; [done|].
    destruct (faultKey labels fault) as [e|key]; [done|]. injection E as <-.
    apply systemOK_armed; try done. eapply inject_ok; [exact (syFaults s Hs)|done..| |by apply (syFaults s Hs)].
    unfold armedIDs. cbn. rewrite map_app, app_assoc. cbn. by rewrite (Permutation_app_comm _ [_]).
Qed.

(** ** The fixtures *)

(** What the session commands and the faults make of a store. *)
Definition storeServed (before after : option mailboxStore) : Prop :=
  match before, after with
  | Some s, Some s' => storeOK s -> servesWell s s'
  | None, None => True
  | _, _ => False
  end.
Definition labelsServed (before after : option labelStore) : Prop :=
  match before, after with
  | Some s, Some s' => labelOK s -> labelServes s s'
  | None, None => True
  | _, _ => False
  end.

Lemma servesWell_trans a b c : servesWell a b -> servesWell b c -> servesWell a c.
Proof. intros [A1 A2 A3 A4] [B1 B2 B3 B4]. split; [done|by etrans|by etrans|congruence]. Qed.

#[export] Instance storeServed_preorder : PreOrder storeServed.
Proof.
  split; [intros [s|]; [exact (servesWell_refl s)|done]|]. intros [a|] [b|] [c|]; try done. cbn. intros H1 H2 Ha.
  specialize (H1 Ha). eapply servesWell_trans; [exact H1|]. by apply H2, (swOK a).
Qed.
#[export] Instance labelsServed_preorder : PreOrder labelsServed.
Proof.
  split; [intros [s|]; [exact (labelServes_refl s)|done]|]. intros [a|] [b|] [c|]; try done. cbn. intros H1 H2 Ha.
  specialize (H1 Ha). eapply labelServes_trans; [exact H1|]. by apply H2, (lvOK a).
Qed.

Lemma runFault_serves store fault session command tag : storeOK store -> servesWell store (runFault store fault session command tag).1.
Proof.
  intros H. unfold runFault. destruct (fltBoundary fault); try (by apply servesWell_refl).
  destruct (tokenizeArguments _) as [e|args]; [by apply servesWell_refl|]. pose proof (statefulUID_ok store session tag args H).
  by destruct (statefulUID store session tag args).
Qed.

Lemma applyLabelFault_serves labels fault session command tag : labelOK labels ->
  labelServes labels (applyLabelFault labels fault session command tag).1.1.
Proof.
  intros H. unfold applyLabelFault. destruct (lfBoundary fault); try (by apply labelServes_refl).
  pose proof (serveLabels_ok labels session tag (cmdName command) (cmdRaw command) (cmdTLS command) true H) as Hs.
  by destruct (serveLabels labels session tag _ _ _ true) as [[l s] r].
Qed.

Definition fixturesServed (st st' : serverState) : Prop :=
  storeServed (svStateful st) (svStateful st') /\ labelsServed (svLabels st) (svLabels st').

Lemma effect_serves x y : effect x y -> fixturesServed x.1 y.1.
Proof.
  intros H. destruct H as [st c raw tls id|st c|st c|st c count|st c mode Hm Hm'|st c tag Ht Ha|st c|st c Ht Ha|st c command tag st' session result Hc E|
    st c command tag a armed Hc Hm E|st c labels command tag a armed Hc Hm Hl E|st c]; cbn [fst snd]; try (by split; reflexivity).
  - apply serveSession_state in E as (_ & _ & _ & _ & _ & _ & E). destruct (svLabels st) as [labels|] eqn:El.
    + destruct E as [E1 E2]. unfold fixturesServed. rewrite E1, E2, El. split; [reflexivity|]. intros Hok. by apply serveLabels_ok.
    + destruct E as [E1 E2]. unfold fixturesServed. rewrite E1, E2, El. split; [|done]. destruct (svStateful st); [|done]. intros Hok. by apply serveStateful_ok.
  - destruct (applyFault _ c a command tag) as [s k] eqn:Ea. apply applyFault_state in Ea as (_ & El & _ & _ & _ & _ & _ & Es & _).
    unfold fixturesServed. cbn [fst]. rewrite El, Es. cbn. split; [|reflexivity]. destruct (svStateful st); [|done]. intros Hok. by apply runFault_serves.
  - destruct (triggerLabelFault _ labels c a command tag) as [s k] eqn:Ea. apply triggerLabelFault_state in Ea as (_ & Es & _ & _ & _ & _ & _ & El & _).
    unfold fixturesServed. cbn [fst]. rewrite El, Es, Hl. cbn. split; [reflexivity|]. intros Hok. by apply applyLabelFault_serves.
  - destruct (finishFaults_state (cnPending c ++ cnLabelFaults c) st) as (_ & Es & El & _). unfold fixturesServed, endConnection. cbn [fst].
    rewrite Es, El. by split; reflexivity.
Qed.

(** ** Read-only logs *)

(** A log the assertion accepts, of printable commands. *)
Definition cleanLog (commands : list Command) : Prop :=
  Forall (fun c => commandLine (cmdRaw c)) commands /\ AssertReadOnlyCommands commands = [].

(** Decided on a concrete log. *)
Definition plainLine (raw : bytes) : bool :=
  forallb printable raw && match raw with c :: _ => negb (c =b " "%byte) | [] => true end.
Lemma plainLog_lines commands : forallb (fun c => plainLine (cmdRaw c)) commands = true -> Forall (fun c => commandLine (cmdRaw c)) commands.
Proof.
  intros H. apply Forall_forall. intros c Hc. rewrite forallb_forall in H. apply list_elem_of_In, H in Hc. apply andb_prop in Hc as [Hp Hl].
  split; [by apply Forall_forall; intros x Hx; apply list_elem_of_In in Hx; rewrite forallb_forall in Hp; auto|]. intros r E. rewrite E in Hl. done.
Qed.

Lemma cleanLog_violation commands c : cleanLog commands -> c ∈ commands -> commandLine (cmdRaw c) /\ readOnlyViolation c = false.
Proof.
  intros [Hl Ha] Hc. rewrite Forall_forall in Hl. split; [by apply Hl|]. destruct (readOnlyViolation c) eqn:E; [exfalso|done].
  assert (Hf : c ∈ List.filter readOnlyViolation commands) by (apply list_elem_of_In, filter_In; by rewrite <- list_elem_of_In).
  unfold AssertReadOnlyCommands in Ha. apply map_eq_nil in Ha. rewrite Ha in Hf. by apply not_elem_of_nil in Hf.
Qed.

Lemma cleanLog_before st st' : logExtends st st' -> cleanLog (svCommands st') -> cleanLog (svCommands st).
Proof.
  intros [more E] [Hl Ha]. rewrite E in Hl, Ha. apply Forall_app in Hl as [Hl _]. split; [done|]. unfold AssertReadOnlyCommands in *.
  rewrite List.filter_app, map_app in Ha. by apply app_eq_nil in Ha as [Ha _].
Qed.

(** A structured UID command is never read-only. *)
Lemma structured_violation c p sub : ParseTranscriptCommand c = inr p -> tcVerb p = $"UID " ++ sub -> structuredVerb (tcVerb p) ->
  commandLine (cmdRaw c) -> cmdName c = (parseCommand (cmdRaw c)).2 -> readOnlyViolation c = true.
Proof.
  intros Hp Hv Hs [Hl Hlead] Hn. destruct (structured_text c p sub Hp Hv Hs) as (name & text & Hname & Hsub & Ht & Hns & Hatoms & Hne & Hraw & _).
  assert (Htag : tcTag p <> []) by (intros E; rewrite E in Hraw; by eapply Hlead).
  assert (Hname' : name <> []) by (by intros ->). assert (Hnt : ~ In " "%byte text) by (by apply atom_no_space).
  assert (Hf : fields (cmdRaw c) = tcTag p :: name :: text :: spaceWords [] (tcArguments p)).
  { rewrite fields_printable, Hraw by done. rewrite spaceWords_word by done. cbn [app]. rewrite spaceWords_space by done. f_equal.
    rewrite spaceWords_word by done. cbn [app]. rewrite spaceWords_space by done. f_equal.
    rewrite spaceWords_word by done. cbn [app]. by rewrite spaceWords_space. }
  assert (En : cmdName c = $"UID") by (rewrite Hn; unfold parseCommand; by rewrite Hf).
  unfold readOnlyViolation, effectiveCommandName. rewrite En, Hf. change (negb (beqs ($"UID") ($"UID"))) with false. cbv iota. rewrite Hsub, <- Hv.
  destruct Hs as [E|[E|[E|[E|[E|[E|E]]]]]]; rewrite E in Hv |- *; try done.
Qed.

Lemma labelDispatchable_verb labels session command key : labelDispatchable labels session command = Some key ->
  exists p sub, ParseTranscriptCommand command = inr p /\ tcVerb p = $"UID " ++ sub /\ structuredVerb (tcVerb p).
Proof.
  unfold labelDispatchable. destruct (ParseTranscriptCommand command) as [e|p]; [done|]. destruct (beqs (ssSelected session) [] || ssReadOnly session); [done|].
  destruct (contains_any _ _); [done|]. unfold structuredVerb.
  destruct (beqs (tcVerb p) ($"UID COPY")) eqn:E1; [apply beqs_eq in E1; intros _; exists p, ($"COPY"); rewrite E1; split_and!; [done|done|tauto]|].
  destruct (beqs (tcVerb p) ($"UID STORE")) eqn:E2; [apply beqs_eq in E2; intros _; exists p, ($"STORE"); rewrite E2; split_and!; [done|done|tauto]|].
  destruct (beqs (tcVerb p) ($"UID EXPUNGE")) eqn:E3; [|done]. apply beqs_eq in E3. intros _. exists p, ($"EXPUNGE"). rewrite E3. split_and!; [done|done|tauto].
Qed.

Lemma recorded_line st c command : recorded st c command -> cleanLog (svCommands st) ->
  commandLine (cmdRaw command) /\ readOnlyViolation command = false.
Proof. intros (Hin & _) H. by eapply cleanLog_violation. Qed.

Definition sameFixtures (st st' : serverState) : Prop := svStateful st' = svStateful st /\ svLabels st' = svLabels st.

Lemma effect_clean x y : effect x y -> faultsOK x.1 -> cleanLog (svCommands y.1) -> sameFixtures x.1 y.1.
Proof.
  intros H Hok Hclean. pose proof (effect_log _ _ H) as (Hl & _). pose proof (cleanLog_before _ _ Hl Hclean) as Hx.
  destruct H as [st c raw tls id|st c|st c|st c count|st c mode Hm Hm'|st c tag Ht Ha|st c|st c Ht Ha|st c command tag st' session result Hc E|
    st c command tag a armed Hc Hm E|st c labels command tag a armed Hc Hm Hlb E|st c]; cbn [fst snd] in *; try done.
  - apply serveSession_state in E as (_ & _ & _ & _ & _ & _ & E). destruct (recorded_line _ _ _ Hc Hx) as [Hline Hv].
    destruct command as [seq conn raw name tls]. cbn [cmdName cmdRaw] in *. destruct Hc as (_ & _ & _ & Hn). cbn in Hn.
    pose proof (readonly_command_inert raw seq conn tls Hline) as Hi. destruct (parseCommand raw) as [t n]. cbn in Hn. subst n.
    destruct (Hi Hv) as [H1 H2]. split; destruct (svLabels st) as [labels|]; destruct E as [E1 E2]; rewrite ?E1, ?E2; try done.
    + destruct (svStateful st); [|done]. cbn. by rewrite H1.
    + by rewrite H2.
  - exfalso. destruct (recorded_line _ _ _ Hc Hx) as [Hline Hv]. apply claimFault_Some in E as (Hp & p & Hpc & Hverb).
    destruct Hok as [_ _ _ Hnames]. rewrite Forall_forall in Hnames. specialize (Hnames a). rewrite Hp in Hnames.
    destruct Hnames as [En|En]; [by left|rewrite En in Hverb..].
    + rewrite (structured_violation command p ($"STORE")) in Hv; try done; [|by apply Hc]. rewrite Hverb. unfold structuredVerb. auto.
    + rewrite (structured_violation command p ($"MOVE")) in Hv; try done; [|by apply Hc]. rewrite Hverb. unfold structuredVerb. tauto.
  - exfalso. destruct (recorded_line _ _ _ Hc Hx) as [Hline Hv]. apply claimLabelFault_Some in E as [_ E].
    apply labelDispatchable_verb in E as (p & sub & Hpc & Hverb & Hs). rewrite (structured_violation command p sub) in Hv; try done. by apply Hc.
  - destruct (finishFaults_state (cnPending c ++ cnLabelFaults c) st) as (_ & Es & El & _). by split.
Qed.

Lemma effects_clean others x y : effects x y -> stateOK others x.1 x.2 -> cleanLog (svCommands y.1) -> sameFixtures x.1 y.1.
Proof.
  intros H Hx. induction H as [|x y z Hxy IH Hyz]; [done|]. intros Hz. pose proof (effects_ok others _ _ Hxy Hx) as Hy.
  pose proof (effect_log _ _ Hyz) as (Hl & _). destruct (IH Hx (cleanLog_before _ _ Hl Hz)) as [H1 H2].
  destruct (effect_clean _ _ Hyz (soFaults _ _ _ Hy) Hz) as [H3 H4]. split; congruence.
Qed.

Lemma effects_serve x y : effects x y -> fixturesServed x.1 y.1.
Proof.
  intros H. apply (star_invariant effect (fun z => fixturesServed x.1 z.1) x); [by split; reflexivity| |done].
  intros a b [H1 H2] Hab. apply effect_serves in Hab as [H3 H4]. split; by etrans.
Qed.

(** ** Over the whole server *)

Lemma systemStep_fixtures srv s s' : systemOK s -> systemStep srv s s' ->
  logExtends (sysState s) (sysState s') /\ fixturesServed (sysState s) (sysState s') /\
  (cleanLog (svCommands (sysState s')) -> sameFixtures (sysState s) (sysState s')).
Proof.
  intros Hs H. assert (Hsame : forall st, svCommands st = svCommands (sysState s) -> svStateful st = svStateful (sysState s) ->
    svLabels st = svLabels (sysState s) -> logExtends (sysState s) st /\ fixturesServed (sysState s) st /\
    (cleanLog (svCommands st) -> sameFixtures (sysState s) st)).
  { intros st H1 H2 H3. split_and!; [exists []; by rewrite app_nil_r| |done]. unfold fixturesServed. rewrite H2, H3. by split; reflexivity. }
  destruct H as [s st c chunks E|s id c e st c' chunks Hi E|s fault armed _ E|s labels fault armed _ E]; cbn [sysState]; try (by apply Hsame).
  - unfold accept in E. injection E as <- _ _. by apply Hsame.
  - pose proof (systemOK_conn s id c Hs Hi) as Hc. apply handleEvent_effects in E; [|apply Hc].
    pose proof (effects_log _ _ E) as (? & _). split_and!; [done|exact (effects_serve _ _ E)|]. intros Hcl. exact (effects_clean _ _ _ E Hc Hcl).
Qed.

Definition servedFrom (st : serverState) (s : system) : Prop :=
  systemOK s /\ fixturesServed st (sysState s) /\ (cleanLog (svCommands (sysState s)) -> sameFixtures st (sysState s)).

Lemma served_reachable srv st s : systemOK (initialSystem st) -> star (systemStep srv) (initialSystem st) s -> servedFrom st s.
Proof.
  intros H0 H. apply (star_invariant (systemStep srv) (servedFrom st) (initialSystem st)); [split_and!; [done|split; reflexivity|done]| |done].
  intros a b (Ha & Hf & Hc) Hab. destruct (systemStep_fixtures srv a b Ha Hab) as (Hl & [G1 G2] & Hc'). destruct Hf as [F1 F2].
  split_and!; [by eapply systemStep_ok|split; by etrans|]. intros Hb. destruct (Hc' Hb) as [E1 E2], (Hc (cleanLog_before _ _ Hl Hb)) as [E3 E4].
  split; congruence.
Qed.

Lemma start_ok options srv st : Start options = inr (srv, st) -> systemOK (initialSystem st).
Proof.
  unfold Start. repeat (match goal with |- context [if ?b then _ else _] => destruct b; [done|] | |- context [match ?x with inl _ => _ | inr _ => _ end] => destruct x; [done|] end).
  intros [= _ <-]. split; cbn; try done.
  - split; cbn; [constructor|by intros id ?%elem_of_nil|done|constructor].
  - intros f (r & Hr & _). done.
Qed.

(** ** Properties *)

(** C17: the server is sound under every interleaving of clients and tests.
    From [Start], whatever connections are accepted, lines, handshakes and
    disconnects arrive and faults are armed: recorded commands are numbered
    from 1 in receive order; a connection is authenticated only under TLS and
    only after this connection sent a LOGIN or AUTHENTICATE under TLS that the
    log holds; armed fault handles are distinct and none of them has
    triggered, so a fault fires at most once, and a triggered one tells a
    command of the log; and every triggered handle that is not finished is
    carried by a connection that is still open, whose end finishes it. *)
Theorem test_server_sound options srv st s : Start options = inr (srv, st) -> star (systemStep srv) (initialSystem st) s ->
  (forall i c, svCommands (sysState s) !! i = Some c -> cmdSequence c = Z.of_nat i + 1) /\
  (forall id c, sysConnections s !! id = Some c -> cnAuthenticated c = true -> cnTLS c = true /\
    exists command, command ∈ svCommands (sysState s) /\ cmdConnectionID command = id /\ cmdTLS command = true /\
      isAuthentication (cmdName command) = true) /\
  (NoDup (armedIDs (sysState s)) /\
   forall id r, svReports (sysState s) !! id = Some r -> id ∉ armedIDs (sysState s) /\ reportCommand r ∈ svCommands (sysState s)) /\
  (forall fault r, svReports (sysState s) !! fault = Some r -> reportFinished r = false ->
    exists id c, sysConnections s !! id = Some c /\ fault ∈ carried c /\ cnMode c <> Closed).
Proof.
  intros Hst Hs. destruct (served_reachable srv st s (start_ok _ _ _ Hst) Hs) as ([H1 H2 [F1 F2 F3 F4] H4 _] & _).
  split_and!; [done| |done| |].
  - intros id c Hc Ha. destruct (H2 id c Hc) as ([G1 _ _] & Hid & _). destruct (G1 Ha) as [Ht (k & Hk)]. split; [done|]. exists k. by rewrite <- Hid.
  - intros id r Hr. by destruct (F3 id r Hr).
  - intros f r Hr Hu. destruct (H4 f) as (id & c & Hc & Hf); [by exists r|]. exists id, c. split_and!; [done|done|]. intros Hm.
    destruct (H2 id c Hc) as ([_ _ G3] & _). unfold carried in Hf. destruct (G3 Hm) as [E1 E2]. rewrite E1, E2 in Hf. by apply not_elem_of_nil in Hf.
Qed.

(** C19: a read-only log means untouched mailboxes.  In every reachable state
    of a started server the fixtures have only been served - stores stay well
    formed, no message is lost, duplicated or renumbered, folders and shared
    messages are as seeded - and when every recorded command is a line of
    printable bytes and [AssertReadOnlyCommands] accepts the log, the stateful
    and the label fixture are exactly the ones the server was started with, no
    fault having changed them either. *)
Theorem readonly_log_untouched options srv st s : Start options = inr (srv, st) -> star (systemStep srv) (initialSystem st) s ->
  (storeServed (svStateful st) (svStateful (sysState s)) /\ labelsServed (svLabels st) (svLabels (sysState s))) /\
  (Forall (fun c => commandLine (cmdRaw c)) (svCommands (sysState s)) -> AssertReadOnlyCommands (svCommands (sysState s)) = [] ->
   svStateful (sysState s) = svStateful st /\ svLabels (sysState s) = svLabels st).
Proof.
  intros Hst Hs. destruct (served_reachable srv st s (start_ok _ _ _ Hst) Hs) as (_ & Hf & Hc). split; [done|]. intros Hl Ha. by apply Hc.
Qed.

(** ** Witnesses *)

Definition sampleServerOptions : Options :=
  mkOptions StartTLS zeroScenario [] [] MetadataFlagsOrdinary (Some sampleOptions) None ∅ None.
Definition sampleServer : server := mkTestServer sampleServerOptions None.
Definition sampleStart : serverState := mkServer [] false 0 0 (Some sampleStore) None [] [] ∅ 0.

Example sample_started : Start sampleServerOptions = inr (sampleServer, sampleStart).
Proof. vm_compute. reflexivity. Qed.

Definition sampleLine (text : bytes) : action := Deliver 1 (LineReceived (text ++ [x0d; x0a])).
Definition signIn : list action :=
  [Accept; sampleLine ($"a STARTTLS"); Deliver 1 (HandshakeResult true); sampleLine ($"b LOGIN me secret")].

(** A MOVE applied and dropped: the connection ends, the handle is finished. *)
Definition movedAndDropped : list action :=
  signIn ++ [Arm (mkFault ($"UID MOVE") ($"7") AfterApplication DropConnection); sampleLine ($"c SELECT INBOX"); sampleLine ($"d UID MOVE 7 Archive")].

Lemma test_server_sound_witness :
  let s := acts sampleServer (initialSystem sampleStart) movedAndDropped in
  (reportFinished <$> svReports (sysState s) !! 0%nat) = Some true /\ svStateful (sysState s) <> Some sampleStore /\
  (cnAuthenticated <$> sysConnections s !! 1) = Some true /\
  forall id c, sysConnections s !! id = Some c -> cnAuthenticated c = true -> cnTLS c = true /\
    exists command, command ∈ svCommands (sysState s) /\ cmdConnectionID command = id /\ cmdTLS command = true /\
      isAuthentication (cmdName command) = true.
Proof.
  cbv zeta. split; [vm_compute; reflexivity|]. split; [vm_compute; discriminate|]. split; [vm_compute; reflexivity|].
  exact (proj1 (proj2 (test_server_sound sampleServerOptions sampleServer sampleStart _ sample_started (acts_star _ _ _)))).
Defined.

(** A session that only reads, in a selected mailbox. *)
Definition readingOnly : list action :=
  signIn ++ [sampleLine ($"c EXAMINE INBOX"); sampleLine ($"d UID SEARCH UNSEEN"); sampleLine ($"e UID FETCH 7 (FLAGS BODY.PEEK[])"); sampleLine ($"f LOGOUT")].

Lemma readonly_log_untouched_witness :
  let s := acts sampleServer (initialSystem sampleStart) readingOnly in
  length (svCommands (sysState s)) = 6%nat /\ AssertReadOnlyCommands (svCommands (sysState s)) = [] /\ svStateful (sysState s) = Some sampleStore.
Proof.
  cbv zeta. split; [vm_compute; reflexivity|]. split; [vm_compute; reflexivity|].
  refine (proj1 (proj2 (readonly_log_untouched sampleServerOptions sampleServer sampleStart _ sample_started (acts_star _ _ _)) _ _)).
  - apply plainLog_lines. vm_compute. reflexivity.
  - vm_compute. reflexivity.
Defined.

(** The validated options include sizes the loop cannot serve: an oversized
    response of one to four bytes passes [Start] and panics the handler at the
    first command. *)
Lemma oversized_panics size : 1 <= size <= 4 ->
  let options := mkOptions StartTLS (mkScenario [] false 0 0 false false [] size [] false 0 0 0 0 0 0 [] [] false false false [] false false
    [] [] 0 0 0 0 false false 0 0 0 0) [] [] MetadataFlagsOrdinary None None ∅ None in
  exists srv st, Start options = inr (srv, st) /\ forall c line, cnMode c = Ready -> exists st' c',
    handleEvent srv st c (LineReceived line) = (st', c', []) /\ cnMode c' = Panicked.
Proof.
  intros Hs. assert (E : size = 1 \/ size = 2 \/ size = 3 \/ size = 4) by lia.
  destruct E as [-> | [-> | [-> | ->]]]; cbv zeta; eexists _, _; (split; [vm_compute; reflexivity|]);
    intros c line Hm; unfold handleEvent, handleCommand; rewrite Hm; destruct (parseCommand _) as [tag name]; cbn; eauto.
Qed.
