(* ===== verification/EndToEnd.v ===== *)
(** * From a triage request to the mailboxes of the test server

    The adapter's [SetSeen] composed with the mutable mailboxes of the test
    server.  Between them stands a client library, which is a parameter: a
    [Backend] whose sessions are connections of a server with a store, and
    whose SELECT and STORE are command lines the server reads as those
    requests and answers ([FixtureClient]).  Everything above (the adapter)
    and below (parsing, dispatch, the store) is the code. *)
From Stdlib Require Import ZArith Lia Strings.Byte.
From stdpp Require Import base list gmap strings.
From S2P Require Import Prelude GoStrings GoText ThreadsSpec Errors Config Session Adapter Triage TriageSpec MessageID ImapTokens MailboxStore MailboxStoreSpec AdapterRuns.


(** ** The client *)

(** What the client makes of a tagged NO or BAD: an error that a live context
    maps to the refusal of a command. *)
Definition negative (err : goerror) : Prop := mapIMAPError (Some live_ctx) (Some err) = Some (errorCode CodeIMAPCommand).

(** The arguments of a silent STORE of the Seen flag of one UID. *)
Definition storeSeenTokens (uid : Z) (seen : bool) : list imapToken :=
  [Atom ($"STORE"); Atom (decimal uid); Atom (if seen then $"+FLAGS.SILENT" else $"-FLAGS.SILENT"); Parens [Atom ($"\Seen")]].

(** [fixture]: the server's store in a world; [attached]: what the server
    keeps of a session's connection. *)
Class FixtureClient (W S C : Type) `{B : Backend W S C} (fixture : W -> mailboxStore) (attached : W -> S -> statefulSession) := {
  undisturbed (w w' : W) : Prop := fixture w' = fixture w /\ forall x, attached w' x = attached w x;
  fc_now : forall c w a w', ctx_now c w = (a, w') -> undisturbed w w';
  fc_done_first : forall c w a w', ctx_done_first c w = (a, w') -> undisturbed w w';
  fc_remaining : forall c w a w', ctx_remaining c w = (a, w') -> undisturbed w w';
  fc_with_timeout : forall c ms w a w', ctx_with_timeout c ms w = (a, w') -> undisturbed w w';
  fc_cancel : forall c w, undisturbed w (ctx_cancel c w);
  fc_abort : forall s w, undisturbed w (op_abort s w);
  fc_search : forall c s query window limit w a w', op_search c s query window limit w = (a, w') -> undisturbed w w';
  (* a new session is a new connection *)
  fc_factory : forall c w a w', factory c w = (a, w') -> fixture w' = fixture w;
  (* a snapshot is what a completed SELECT answered *)
  fc_select : forall c s mailbox w r w', op_select c s mailbox w = (r, w') -> fixture w' = fixture w /\
    forall snapshot, r = inl snapshot -> exists tag target lines, tokValue target = mailbox /\
      statefulSelect (fixture w) tag ($"SELECT") [target] = (attached w' s, lines) /\
      last lines = Some (tagged tag ($"OK [READ-WRITE] SELECT completed")) /\
      lines !! 4%nat = Some ($"* OK [UIDVALIDITY " ++ decimal (UIDValidity snapshot) ++ $"] mailbox generation");
  (* nothing sent, or one STORE line and its answer *)
  fc_store : forall c s uid seen w r w', op_store c s uid seen w = (r, w') -> attached w' s = attached w s /\
    ((fixture w' = fixture w /\ r <> None) \/
     exists tag raw lines, tokenizeArguments raw = inr (storeSeenTokens uid seen) /\
       serveStateful (fixture w) (attached w s) tag ($"UID") raw true true = (fixture w', attached w' s, Answer lines) /\
       (r = None -> last lines = Some (tagged tag ($"OK STORE completed"))) /\
       (forall err, r = Some err -> negative err -> last lines <> Some (tagged tag ($"OK STORE completed")))) }.

(** An error that any context maps to a refused command is the server's. *)
Lemma mapped_negative now err : CodeOf (default err (mapIMAPError (Some now) (Some err))) = Some CodeIMAPCommand -> negative err.
Proof.
  unfold negative, mapIMAPError. destruct now as [[[|]|] [|]]; cbn; try done. destruct (CodeOf err) as [c|]; [intros [= ->]; done|].
  repeat (match goal with |- context [if ?b then _ else _] => destruct b end; cbn; try done).
Qed.

(** ** The server's side of a request *)

Lemma selected_mailbox f tag target session lines validity : statefulSelect f tag ($"SELECT") [target] = (session, lines) ->
  last lines = Some (tagged tag ($"OK [READ-WRITE] SELECT completed")) ->
  lines !! 4%nat = Some ($"* OK [UIDVALIDITY " ++ decimal validity ++ $"] mailbox generation") ->
  exists i mb, find f (tokValue target) = Some (i, mb) /\ session = mkStatefulSession (mbName mb) false /\ mbUIDValidity mb = validity.
Proof.
  unfold statefulSelect. intros H Hl Hv. destruct (tokIsList target); [injection H as <- <-; discriminate Hv|].
  destruct (find f (tokValue target)) as [[i mb]|]; [|injection H as <- <-; discriminate Hv]. destruct (selectable mb); [|injection H as <- <-; discriminate Hv].
  injection H as <- <-. exists i, mb. split_and!; [done|done|]. cbn [selectLines lookup list_lookup] in Hv. injection Hv as Hv.
  apply app_inv_tail in Hv. by apply ThreadsSpec.decimal_inj.
Qed.

(** The store with the messages of one mailbox marked. *)
Definition marked (f : mailboxStore) (i : nat) (mb : statefulMailbox) (seen : bool) (uids : list Z) : mailboxStore :=
  setMailbox f i (markSeen seen uids mb).

Lemma marked_nil f i mb seen : storeMailboxes f !! i = Some mb -> marked f i mb seen [] = f.
Proof.
  intros Hi. unfold marked, setMailbox, markSeen. destruct f as [mv l], mb as [n a v u ms md]. cbn in *.
  change (mkStore mv (<[i := mkMailbox n a v u (map (fun m => m) ms) md]> l) = mkStore mv l). rewrite map_id. f_equal. by apply list_insert_id.
Qed.

Lemma setSeen_UID seen m : msUID (setSeen seen m) = msUID m.
Proof. unfold setSeen. destruct (Bool.eqb (messageSeen m) seen); [done|by destruct seen]. Qed.

Lemma markSeen_snoc seen uids uid mb : uid ∉ uids -> markSeen seen [uid] (markSeen seen uids mb) = markSeen seen (uids ++ [uid]) mb.
Proof.
  intros Hu. unfold markSeen. destruct mb as [n a v u ms md]. change (mkMailbox n a v u (map (fun m => if bool_decide (msUID m ∈ [uid]) then setSeen seen m else m)
    (map (fun m => if bool_decide (msUID m ∈ uids) then setSeen seen m else m) ms)) md = mkMailbox n a v u
    (map (fun m => if bool_decide (msUID m ∈ uids ++ [uid]) then setSeen seen m else m) ms) md). f_equal. rewrite map_map. apply map_ext. intros m.
  destruct (decide (msUID m ∈ uids)) as [H1|H1].
  - rewrite (bool_decide_eq_true_2 (msUID m ∈ uids)) by done. rewrite setSeen_UID.
    rewrite bool_decide_eq_false_2 by (intros E%list_elem_of_singleton; by rewrite E in H1).
    rewrite bool_decide_eq_true_2; [done|]. apply elem_of_app. by left.
  - rewrite (bool_decide_eq_false_2 (msUID m ∈ uids)) by done. case_bool_decide as H2.
    + rewrite bool_decide_eq_true_2; [done|]. apply elem_of_app. by right.
    + rewrite bool_decide_eq_false_2; [done|]. intros [?|?]%elem_of_app; done.
Qed.

Section Server.
Context (f : mailboxStore) (i : nat) (mb : statefulMailbox) (seen : bool).
Hypothesis Hok : storeOK f.
Hypothesis Hi : storeMailboxes f !! i = Some mb.

Lemma marked_find uids : find (marked f i mb seen uids) (mbName mb) = Some (i, markSeen seen uids mb).
Proof.
  unfold find, marked. cbn. rewrite (findMailbox_insert _ _ _ mb) by done. rewrite (storeNames f Hok i mb Hi). cbn. by rewrite Nat.eqb_refl.
Qed.

Lemma mailbox_named : mbName mb <> [].
Proof.
  destruct Hok as [Hm _]. rewrite Forall_lookup in Hm. pose proof (mbNameOK _ (Hm i mb Hi)) as Hn. intros E. by rewrite E in Hn.
Qed.

(** A STORE line in the selected mailbox marks its UID and is acknowledged, or
    is refused unread. *)
Lemma store_line uids uid tag raw f' session lines : uid ∉ uids -> 1 <= uid <= MaxUint32 ->
  tokenizeArguments raw = inr (storeSeenTokens uid seen) ->
  serveStateful (marked f i mb seen uids) (mkStatefulSession (mbName mb) false) tag ($"UID") raw true true = (f', session, Answer lines) ->
  f' = marked f i mb seen (uids ++ [uid]) /\ last lines = Some (tagged tag ($"OK STORE completed")) \/
  f' = marked f i mb seen uids /\ last lines <> Some (tagged tag ($"OK STORE completed")).
Proof.
  intros Hn Hu Ht. unfold serveStateful. unfold refuseLiteral. destruct (trailingLiteral raw) as [[|]|]; [done| |].
  { intros [= <- _ <-]. right. split; [done|]. unfold tagged. cbn [last]. intros [= E]. apply app_inv_head in E. discriminate E. }
  change (oneOf ($"UID") sharedCommands || beqs ($"UID") ($"CAPABILITY") && negb true) with false.
  change (beqs ($"UID") ($"CAPABILITY")) with false. cbv iota. cbn [negb]. rewrite Ht. unfold statefulCommand.
  change (beqs ($"UID") ($"LIST")) with false. change (beqs ($"UID") ($"SELECT") || beqs ($"UID") ($"EXAMINE")) with false.
  change (beqs ($"UID") ($"STATUS")) with false. change (beqs ($"UID") ($"UID")) with true. cbv iota.
  assert (Hvalid : validUIDs [uid]) by (split; [done|by apply Forall_singleton]).
  pose proof (store_marks (marked f i mb seen uids) (mkStatefulSession (mbName mb) false) tag i (markSeen seen uids mb) [uid] seen
    (marked_find uids) mailbox_named eq_refl Hvalid) as E.
  unfold storeSeenTokens. change (uidSetText [uid]) with (decimal uid) in E. rewrite E. intros [= <- _ <-]. left. split; [|done].
  rewrite markSeen_snoc by done. unfold marked, setMailbox. destruct f as [mv l]. cbn. 
  change (mkStore mv (<[i := markSeen seen (uids ++ [uid]) mb]> (<[i := markSeen seen uids mb]> l)) = mkStore mv (<[i := markSeen seen (uids ++ [uid]) mb]> l)).
  by rewrite list_insert_insert_eq.
Qed.
End Server.

(** ** Triples of the adapter's monad *)

Section Triples.
Context {W S : Type}.

Definition triple (P : W -> Prop) {A} (m : M W S A) (Q : A -> W -> Prop) : Prop :=
  forall s r s', m s = (r, s') -> P (world s) -> Q r (world s').

Lemma triple_ret (P : W -> Prop) {A} (a : A) (Q : A -> W -> Prop) : (forall w, P w -> Q a w) -> triple P (ret a) Q.
Proof. intros H s r s' [-> ->]%ret_inv HP. auto. Qed.

Lemma triple_bind {A B} (P : W -> Prop) (m : M W S A) (k : A -> M W S B) R Q : triple P m R -> (forall a, triple (R a) (k a) Q) -> triple P (bind m k) Q.
Proof. intros Hm Hk s r s' (a & s1 & H1 & H2)%bind_inv HP. eapply Hk; [exact H2|]. by eapply Hm. Qed.

Lemma triple_weaken {A} (P P' : W -> Prop) (m : M W S A) (Q Q' : A -> W -> Prop) : triple P' m Q' -> (forall w, P w -> P' w) ->
  (forall a w, Q' a w -> Q a w) -> triple P m Q.
Proof. intros H HP HQ s r s' Hm Hs. apply HQ. eapply H; [exact Hm|]. auto. Qed.

Lemma triple_outside {A} (P : W -> Prop) (f : W -> A * W) (Q : A -> W -> Prop) : (forall w a w', P w -> f w = (a, w') -> Q a w') ->
  triple P (outside f) Q.
Proof. intros H s r s'. unfold outside. destruct (f (world s)) as [a w] eqn:E. intros [= <- <-] HP. cbn. by eapply H. Qed.

Lemma triple_call {A} (P : W -> Prop) (f : W -> A * W) (ev : A -> event S) (Q : A -> W -> Prop) :
  (forall w a w', P w -> f w = (a, w') -> Q a w') -> triple P (call f ev) Q.
Proof. intros H s r s'. unfold call. destruct (f (world s)) as [a w] eqn:E. intros [= <- <-] HP. cbn. by eapply H. Qed.

Lemma triple_set_session P v : triple P (set_session v) (fun _ => P).
Proof. intros s r s' [= <- <-]. done. Qed.
Lemma triple_set_held P v : triple P (set_held v) (fun _ => P).
Proof. intros s r s' [= <- <-]. done. Qed.
Lemma triple_get_session P : triple P get_session (fun _ => P).
Proof. intros s r s' [= <- <-]. done. Qed.
Lemma triple_get_closed P : triple P get_closed (fun _ => P).
Proof. intros s r s' [= <- <-]. done. Qed.
End Triples.

(** ** What the adapter leaves alone *)

Section EndToEnd.
Context {W S C : Type} `{B : Backend W S C} {fixture : W -> mailboxStore} {attached : W -> S -> statefulSession}.
Context {F : FixtureClient W S C fixture attached}.
Variable config : ValidatedConfig.

(** Predicates that quiet calls keep. *)
Definition stable (P : W -> Prop) : Prop := forall w w', undisturbed w w' -> P w -> P w'.
Local Notation "'kept' P m" := (triple P m (fun _ => P)) (at level 10, P at level 9, m at level 9).

Lemma kept_mapError P c err : stable P -> triple P (mapError c err) (fun e w => P w /\ (CodeOf e = Some CodeIMAPCommand -> negative err)).
Proof.
  intros HP. eapply triple_bind; [apply triple_outside; intros w a w' Hw E; exact (HP _ _ (fc_now _ _ _ _ E) Hw)|].
  intros now. apply triple_ret. intros w Hw. split; [done|]. apply mapped_negative.
Qed.

Lemma kept_error P c err : stable P -> kept P (mapError c err).
Proof. intros HP. eapply triple_weaken; [by apply (kept_mapError P c err)|done|]. by intros a w [? _]. Qed.

Lemma kept_cancel P c : stable P -> kept P (cancel c).
Proof. intros HP. apply triple_outside. intros w a w' Hw [= <- <-]. eapply HP; [apply fc_cancel|done]. Qed.

Lemma kept_operationContext P c : stable P -> kept P (operationContext config c).
Proof.
  intros HP. eapply triple_bind; [apply triple_outside; intros w a w' Hw E; exact (HP _ _ (fc_remaining _ _ _ _ E) Hw)|].
  intros remaining. apply triple_outside. intros w a w' Hw E. exact (HP _ _ (fc_with_timeout _ _ _ _ _ E) Hw).
Qed.

Lemma kept_invalidate P x : stable P -> kept P (invalidate x).
Proof.
  intros HP. eapply triple_bind; [apply triple_get_session|]. intros current. cbn. case_bool_decide; [|by apply triple_ret].
  eapply triple_bind; [apply triple_call|intros; apply triple_set_session]. intros w a w' Hw [= <- <-]. eapply HP; [apply fc_abort|done].
Qed.

Lemma kept_canReplay P c err : stable P -> kept P (canReplay c err).
Proof.
  intros HP. eapply triple_bind; [apply triple_outside; intros w a w' Hw E; exact (HP _ _ (fc_now _ _ _ _ E) Hw)|].
  intros now. by apply triple_ret.
Qed.

Lemma kept_requireMessageUID P c x uid : stable P -> kept P (requireMessageUID c x uid).
Proof.
  intros HP. eapply triple_bind; [apply triple_call; intros w a w' Hw E; exact (HP _ _ (fc_search _ _ _ _ _ _ _ _ E) Hw)|].
  intros r. by apply triple_ret.
Qed.

Lemma kept_acquire P c : stable P -> kept P (acquire c).
Proof.
  intros HP. eapply triple_bind; [apply triple_outside; intros w a w' Hw E; exact (HP _ _ (fc_done_first _ _ _ _ E) Hw)|].
  intros [|]; cbn; [|eapply triple_bind; [apply triple_set_held|intros; by apply triple_ret]].
  eapply triple_bind; [apply triple_outside; intros w a w' Hw E; exact (HP _ _ (fc_now _ _ _ _ E) Hw)|].
  intros now. eapply triple_bind; [by apply kept_error|]. intros e. by apply triple_ret.
Qed.


(** ** Opening the source *)

Lemma fixture_stable f : stable (fun w => fixture w = f).
Proof. intros w w' [E _] Hw. congruence. Qed.
Lemma attached_stable f x session : stable (fun w => fixture w = f /\ attached w x = session).
Proof. intros w w' [E Ha] [Hf Hs]. rewrite Ha. split; congruence. Qed.

Lemma opened_session f c : triple (fun w => fixture w = f) (sessionForOperation c) (fun _ w => fixture w = f).
Proof.
  eapply triple_bind; [apply triple_get_closed|]. intros [|]; cbn; [by apply triple_ret|].
  eapply triple_bind; [apply triple_get_session|]. intros [x|]; cbn; [by apply triple_ret|].
  eapply (triple_bind _ _ _ (fun _ w => fixture w = f)); [apply triple_call; intros w a w' Hw E; etrans; [exact (fc_factory (FixtureClient := F) _ _ _ _ E)|exact Hw]|].
  intros [x|e]; cbn; [|by apply triple_ret]. eapply triple_bind; [apply triple_set_session|]. intros ?. by apply triple_ret.
Qed.

(** What a SELECT that answered a snapshot leaves on the connection. *)
Definition sourceOpen (f : mailboxStore) (mailbox : bytes) (validity : Z) (x : S) (w : W) : Prop :=
  fixture w = f /\ exists i mb, find f mailbox = Some (i, mb) /\ mbUIDValidity mb = validity /\
    attached w x = mkStatefulSession (mbName mb) false.

Lemma sourceOpen_stable f mailbox validity x : stable (sourceOpen f mailbox validity x).
Proof. intros w w' [E Ha] [Hf Hs]. split; [congruence|]. by rewrite Ha. Qed.

Lemma selected_source f c mailbox : triple (fun w => fixture w = f) (selectTriageSource c mailbox)
  (fun r w => match r with (Some x, inl snapshot) => sourceOpen f mailbox (UIDValidity snapshot) x w | _ => fixture w = f end).
Proof.
  eapply triple_bind; [apply opened_session|]. intros [x|e]; cbn; [|by apply triple_ret].
  destruct (negb (as_seen x)); [by apply triple_ret|]. eapply (triple_bind _ _ _ (fun r w => match r with inl snapshot => sourceOpen f mailbox (UIDValidity snapshot) x w | inr _ => fixture w = f end)).
  - apply triple_call. intros w r w' Hw E. destruct (fc_select _ _ _ _ _ _ E) as [Hf Hs]. destruct r as [snapshot|e]; [|congruence].
    destruct (Hs snapshot eq_refl) as (tag & target & lines & Ht & Hsel & Hlast & Hline). split; [congruence|].
    destruct (selected_mailbox _ _ _ _ _ _ Hsel Hlast Hline) as (i & mb & Hfind & Hatt & Hv). exists i, mb. rewrite <- Hw, <- Ht. done.
  - intros r. apply triple_ret. done.
Qed.

Lemma source_opened f c mailbox validity n : triple (fun w => fixture w = f) (openSourceLoop config c mailbox validity n)
  (fun r w => match r with inl x => sourceOpen f mailbox validity x w | inr _ => fixture w = f end).
Proof.
  induction n as [|n IH]; [by apply triple_ret|]. cbn [openSourceLoop].
  eapply triple_bind; [apply kept_operationContext, fixture_stable|]. intros oc. eapply triple_bind; [apply selected_source|]. intros [opened [snapshot|err]].
  - destruct opened as [x|]; [|by apply triple_ret].
    eapply triple_bind; [apply kept_cancel, sourceOpen_stable|]. intros ?. destruct (UIDValidity snapshot =? validity) eqn:E.
    + apply Z.eqb_eq in E as <-. by apply triple_ret.
    + apply triple_ret. by intros w [Hw _].
  - assert (Herror : forall e, kept (fun w => fixture w = f) (mapError oc e)) by (intros; apply kept_error, fixture_stable).
    assert (Hretry : forall e, kept (fun w => fixture w = f) (if (n =? 1)%nat then canReplay oc e else ret false)).
    { intros e. destruct (n =? 1)%nat; [apply kept_canReplay, fixture_stable|by apply triple_ret]. }
    destruct opened as [x|]; (eapply triple_bind; [apply Herror|]; intros err'; eapply triple_bind; [apply Hretry|]; intros retry;
      eapply triple_bind; [apply kept_cancel, fixture_stable|]; intros ?; eapply (triple_bind _ _ _ (fun _ w => fixture w = f));
      [|intros ?; destruct retry; [apply IH|by apply triple_ret]]).
    + destruct (retry || invalidatesSession err'); [apply kept_invalidate, fixture_stable|by apply triple_ret].
    + by apply triple_ret.
Qed.

(** ** Storing *)

Section Storing.
Context (f : mailboxStore) (i : nat) (mb : statefulMailbox) (seen : bool).
Hypothesis Hok : storeOK f.
Hypothesis Hi : storeMailboxes f !! i = Some mb.

(** The source is selected on [x], and these UIDs have been marked in it. *)
Definition storing (x : S) (uids : list Z) (w : W) : Prop :=
  fixture w = marked f i mb seen uids /\ attached w x = mkStatefulSession (mbName mb) false.

Lemma storing_stable x uids : stable (storing x uids).
Proof. apply attached_stable. Qed.

(** What the outcome of one UID says of the store. *)
Definition oneStored (x : S) (uids : list Z) (uid : Z) (r : TriageResult * bool) (w : W) : Prop :=
  UID r.1 = uid /\
  match Outcome r.1 with
  | OutcomeApplied => r.2 = false /\ storing x (uids ++ [uid]) w
  | OutcomeUnknown => r.2 = true /\ (storing x uids w \/ storing x (uids ++ [uid]) w)
  | _ => storing x uids w
  end.

Lemma store_called x uids uid c w r w' : uid ∉ uids -> 1 <= uid <= MaxUint32 -> storing x uids w -> op_store c x uid seen w = (r, w') ->
  (r = None -> storing x (uids ++ [uid]) w') /\ (forall err, r = Some err -> negative err -> storing x uids w') /\
  (storing x uids w' \/ storing x (uids ++ [uid]) w').
Proof.
  intros Hn Hu [Hf Ha] E. destruct (fc_store _ _ _ _ _ _ _ E) as [Hatt [[Hsame Hr]|(tag & raw & lines & Ht & Hs & Hnone & Hneg)]].
  - assert (Hst : storing x uids w') by (split; congruence). split_and!; [done|done|by left].
  - rewrite Hf, Ha in Hs. unfold storing. rewrite Hatt, Ha.
    destruct (store_line f i mb seen Hok Hi uids uid tag raw _ _ _ Hn Hu Ht Hs) as [[-> Hl]|[-> Hl]].
    + split_and!; [done|intros err He Hng; by destruct (Hneg err He Hng)|by right].
    + split_and!; [intros He; by destruct (Hl (Hnone He))|done|by left].
Qed.

Lemma stored_seen c x uids uid : uid ∉ uids -> 1 <= uid <= MaxUint32 ->
  triple (storing x uids) (storeSeen config c x uid seen) (oneStored x uids uid).
Proof.
  intros Hn Hu. eapply triple_bind; [apply kept_operationContext, storing_stable|]. intros oc.
  eapply triple_bind; [apply kept_requireMessageUID, storing_stable|]. intros [[]|err].
  - eapply triple_bind; [apply triple_call; intros w r w' Hw E; exact (store_called x uids uid oc w r w' Hn Hu Hw E)|]. cbn beta.
    intros [err|].
    + eapply triple_bind.
      { eapply (kept_mapError (fun w => (Some err = None -> storing x (uids ++ [uid]) w) /\ (forall e, Some err = Some e -> negative e -> storing x uids w) /\
          (storing x uids w \/ storing x (uids ++ [uid]) w))).
        intros w w' Hd (H1 & H2 & H3). split_and!; [done|intros e He Hng; eapply storing_stable; eauto|].
        destruct H3; [left|right]; by eapply storing_stable. }
      intros err'. cbn beta. case_bool_decide as Hd.
      * eapply (triple_bind _ _ _ (fun _ => storing x uids)); [|intros; by apply triple_ret].
        eapply triple_weaken; [apply (kept_cancel _ oc (storing_stable x uids))| |done].
        intros w [(_ & H2 & _) H4]. eapply H2; [done|]. by apply H4.
      * assert (Hst : stable (fun w => storing x uids w \/ storing x (uids ++ [uid]) w)) by (intros w w' Hd' [?|?]; [left|right]; by eapply storing_stable).
        eapply (triple_bind _ _ _ (fun _ w => storing x uids w \/ storing x (uids ++ [uid]) w)).
        { eapply triple_weaken; [apply (kept_invalidate _ x Hst)| |done]. by intros w [(_ & _ & ?) _]. }
        intros ?. eapply triple_bind; [apply (kept_cancel _ oc Hst)|]. intros ?. by apply triple_ret.
    + eapply (triple_bind _ _ _ (fun _ => storing x (uids ++ [uid]))); [|intros; by apply triple_ret].
      eapply triple_weaken; [apply (kept_cancel _ oc (storing_stable x (uids ++ [uid])))| |done]. intros w [H1 _]. by apply H1.
  - case_bool_decide.
    + eapply triple_bind; [apply kept_cancel, storing_stable|]. intros ?. by apply triple_ret.
    + eapply triple_bind; [apply kept_invalidate, storing_stable|]. intros ?.
      eapply triple_bind; [apply kept_error, storing_stable|]. intros err'.
      eapply triple_bind; [apply kept_cancel, storing_stable|]. intros ?. by apply triple_ret.
Qed.

(** ** The whole request *)

Definition appliedUIDs (results : list TriageResult) : list Z := map UID (filter was_applied results).

(** The UIDs that were marked are the applied ones, and perhaps the one whose
    outcome is unknown. *)
Definition accounted (results : list TriageResult) (changed : list Z) : Prop :=
  changed = appliedUIDs results \/
  exists r, r ∈ results /\ Outcome r = OutcomeUnknown /\ changed = appliedUIDs results ++ [UID r].

Lemma appliedUIDs_cons r results : appliedUIDs (r :: results) = if decide (was_applied r) then UID r :: appliedUIDs results else appliedUIDs results.
Proof. unfold appliedUIDs. rewrite filter_cons. by case_decide. Qed.

Lemma applied_pending r uids : appliedUIDs (r :: pendingResults uids) = if decide (was_applied r) then [UID r] else [].
Proof. rewrite appliedUIDs_cons. unfold appliedUIDs. by rewrite (proj2 (pending_not_written uids)). Qed.

Lemma accounted_applied r results changed : Outcome r = OutcomeApplied -> accounted results changed -> accounted (r :: results) (UID r :: changed).
Proof.
  intros Hr. unfold accounted. rewrite appliedUIDs_cons, decide_True by done. intros [->|(q & Hq & Ho & ->)]; [by left|].
  right. exists q. split_and!; [by apply list_elem_of_further|done|done].
Qed.

Lemma accounted_skipped r results changed : Outcome r <> OutcomeApplied -> accounted results changed -> accounted (r :: results) changed.
Proof.
  intros Hr. unfold accounted. rewrite appliedUIDs_cons, decide_False by done. intros [->|(q & Hq & Ho & ->)]; [by left|].
  right. exists q. split_and!; [by apply list_elem_of_further|done|done].
Qed.

(** The results answer the UIDs, and account for what was marked after [done]. *)
Definition batchStored (x : S) (before uids : list Z) (results : list TriageResult) (w : W) : Prop :=
  map UID results = uids /\ exists changed, accounted results changed /\ storing x (before ++ changed) w.

Lemma batch_step x before uid uids r results w : UID r = uid -> 
  (Outcome r = OutcomeApplied -> batchStored x (before ++ [uid]) uids results w) ->
  (Outcome r <> OutcomeApplied -> batchStored x before uids results w) -> batchStored x before (uid :: uids) (r :: results) w.
Proof.
  intros Hu Ha Hs. destruct (decide (Outcome r = OutcomeApplied)) as [Ho|Ho].
  - destruct (Ha Ho) as [Hm (changed & Hc & Hst)]. split; [cbn; congruence|]. exists (uid :: changed). split; [|by rewrite <- app_assoc in Hst].
    rewrite <- Hu. by apply accounted_applied.
  - destruct (Hs Ho) as [Hm (changed & Hc & Hst)]. split; [cbn; congruence|]. exists changed. split; [by apply accounted_skipped|done].
Qed.

Lemma batch_nil x before w : storing x before w -> batchStored x before [] [] w.
Proof. intros H. split; [done|]. exists []. split; [by left|by rewrite app_nil_r]. Qed.

Lemma batch_halted x before uid uids r w : oneStored x before uid (r, true) w -> batchStored x before (uid :: uids) (r :: pendingResults uids) w.
Proof.
  intros [Hu Ho]. cbn in *. split; [cbn; by rewrite Hu, pending_UID|]. unfold accounted. rewrite applied_pending. unfold was_applied.
  destruct (decide (Outcome r = OutcomeApplied)) as [Ea|Ea]; [rewrite Ea in Ho; by destruct Ho|].
  assert (Hnone : storing x before w -> exists changed : list Z, (changed = [] \/ exists q, q ∈ r :: pendingResults uids /\ Outcome q = OutcomeUnknown /\ changed = [] ++ [UID q])
    /\ storing x (before ++ changed) w) by (intros Hst; exists []; rewrite app_nil_r; split; [by left|done]).
  destruct (Outcome r) eqn:Er; try (by apply Hnone). destruct Ho as [_ [Hst|Hst]]; [by apply Hnone|].
  exists [uid]. split; [|done]. right. exists r. split_and!; [apply list_elem_of_here|done|by rewrite Hu].
Qed.

Lemma seen_stored c x uids : NoDup uids -> Forall (fun uid => 1 <= uid <= MaxUint32) uids -> forall before, (forall uid, uid ∈ uids -> uid ∉ before) ->
  triple (storing x before) (seenLoop config c x seen uids) (batchStored x before uids).
Proof.
  intros Hn Hr. induction Hr as [|uid uids Hu _ IH]; intros before Hb; cbn [seenLoop]; [apply triple_ret; intros w; apply batch_nil|].
  inversion Hn as [|? ? Hni Hnd]; subst. eapply triple_bind; [apply (stored_seen c x before uid); [apply Hb, list_elem_of_here|done]|].
  intros [r [|]]; cbn [snd fst]; [apply triple_ret; intros w; apply batch_halted|].
  intros s results s' (rest & s1 & H1 & [-> ->]%ret_inv)%bind_inv [Hid Ho]. cbn in Hid, Ho. apply batch_step; [done|..]; intros E.
  - eapply IH; [done| |exact H1|rewrite E in Ho; apply Ho]. intros u Hin [Hin2|Heq%list_elem_of_singleton]%elem_of_app; [|by subst].
    by apply (Hb u); [apply list_elem_of_further|].
  - eapply IH; [done| |exact H1|destruct (Outcome r); by try destruct Ho]. intros u Hin. apply Hb. by apply list_elem_of_further.
Qed.
End Storing.

(** C8: a triage request does to the test server's mailboxes what it says.
    Through any client whose SELECT and STORE are command lines of that
    server, [SetSeen] either fails and leaves the store exactly as it was, or
    answers its UIDs in order; then the mailbox was found by name with the
    requested UIDVALIDITY, and of the whole store only the Seen flags of
    the messages under the UIDs reported as applied differ, in that mailbox,
    with at most one more UID, and only one reported as unknown.  Refused and
    unattempted UIDs are untouched. *)
Theorem set_seen_end_to_end c mailbox validity uids seen s r s' : storeOK (fixture (world s)) -> Forall (fun uid => 0 <= uid <= MaxUint32) uids ->
  SetSeen config c mailbox validity uids seen s = (r, s') ->
  match r with
  | inl results => map UID results = uids /\ exists i mb changed, find (fixture (world s)) mailbox = Some (i, mb) /\ mbUIDValidity mb = validity /\
      accounted results changed /\ fixture (world s') = marked (fixture (world s)) i mb seen changed
  | inr _ => fixture (world s') = fixture (world s)
  end.
Proof.
  intros Hok Hu. set (f := fixture (world s)) in *.
  assert (Ht : triple (fun w => fixture w = f) (SetSeen config c mailbox validity uids seen) (fun r w => match r with
    | inl results => map UID results = uids /\ exists i mb changed, find f mailbox = Some (i, mb) /\ mbUIDValidity mb = validity /\
        accounted results changed /\ fixture w = marked f i mb seen changed
    | inr _ => fixture w = f end)).
  { unfold SetSeen. destruct (validateTriageRequest mailbox validity uids) eqn:Ev; [by apply triple_ret|].
    apply validateTriageRequest_ok in Ev as (Hn & _ & Hz & _).
    eapply triple_bind; [apply kept_acquire, fixture_stable|]. intros [e|]; [by apply triple_ret|].
    eapply triple_bind; [apply source_opened|]. intros [x|e].
    - intros s1 r1 s2 H1 Ho. pose proof Ho as [Hf (i & mb & Hfind & Hv & Ha)]. destruct (storeOK_find f _ _ _ Hok Hfind) as [Hi _].
      apply bind_inv in H1 as (results & s3 & H3 & H1).
      assert (Hs : storing f i mb seen x [] (world s1)) by (split; [by rewrite marked_nil|done]).
      assert (Hr : Forall (fun uid => 1 <= uid <= MaxUint32) uids).
      { rewrite Forall_forall in Hu |- *. intros uid Hin. specialize (Hu uid Hin). specialize (Hz uid Hin). lia. }
      destruct (seen_stored f i mb seen Hok Hi c x uids Hn Hr [] ltac:(set_solver) s1 results s3 H3 Hs) as [Hm (changed & Hc & [Hm' _])].
      apply bind_inv in H1 as (? & s4 & H4 & [-> ->]%ret_inv). injection H4 as _ <-. split; [done|]. by exists i, mb, changed.
    - eapply triple_bind; [apply triple_set_held|]. intros ?. by apply triple_ret. }
  intros H. exact (Ht s r s' H eq_refl).
Qed.
End EndToEnd.

(** ** A client of the sample server *)

(** One connection and its store. *)
Definition wireWorld : Type := mailboxStore * statefulSession.

Definition seenCommand (uid : Z) (seen : bool) : bytes := $"A1 UID " ++ printTokens (storeSeenTokens uid seen).
Definition storeDone : bytes := tagged ($"A1") ($"OK STORE completed").

Definition wireSelect (mailbox : bytes) (w : wireWorld) : (mailboxSnapshot + goerror) * wireWorld :=
  let '(session, _) := statefulSelect (fst w) ($"A1") ($"SELECT") [Quoted mailbox] in
  (match find (fst w) mailbox with
   | Some (_, mb) => if selectable mb then inl (mkSnapshot (mbUIDNext mb) (mbUIDValidity mb)) else inr [NImap]
   | None => inr [NImap]
   end, (fst w, session)).

(** Numbers no UID has are not sent. *)
Definition wireStore (uid : Z) (seen : bool) (w : wireWorld) : option goerror * wireWorld :=
  if uid <? 0 then (Some [NImap], w)
  else match serveStateful (fst w) (snd w) ($"A1") ($"UID") (seenCommand uid seen) true true with
  | (f, session, Answer lines) => (if bool_decide (last lines = Some storeDone) then None else Some [NImap], (f, session))
  | _ => (Some [NImap], w)
  end.

#[local] Instance wire : Backend wireWorld unit unit := {|
  session_eq := _;
  background := tt;
  ctx_now := fun _ w => (live_ctx, w);
  ctx_done_first := fun _ w => (false, w);
  ctx_remaining := fun _ w => (None, w);
  ctx_with_timeout := fun _ _ w => (tt, w);
  ctx_cancel := fun _ w => w;
  factory := fun _ w => (inl tt, (fst w, newStatefulSession));
  op_list := fun _ _ _ w => (inr [NImap], w);
  op_status := fun _ _ _ w => (inr [NImap], w);
  op_examine := fun _ _ _ w => (inr [NImap], w);
  op_search := fun _ _ _ window _ w => (inl [Start window], w);
  op_metadata := fun _ _ _ _ _ w => (inr [NImap], w);
  op_body := fun _ _ _ _ w => (inr [NImap], w);
  op_logout := fun _ _ w => (None, w);
  op_abort := fun _ w => w;
  as_headers := fun _ => false;
  as_seen := fun _ => true;
  as_move := fun _ => false;
  op_headers := fun _ _ _ _ w => (inr [NImap], w);
  op_select := fun _ _ mailbox w => wireSelect mailbox w;
  op_store := fun _ _ uid seen w => wireStore uid seen w;
  op_supports_move := fun _ w => (false, w);
  op_list_mailboxes := fun _ _ _ _ w => (inr [NImap], w);
  op_move := fun _ _ _ _ w => (Some [NImap], w) |}.

Lemma decimal_atomOK uid : 0 <= uid -> atomOK (decimal uid).
Proof.
  intros Hu. assert (Hd : Forall (fun c => is_digit c = true) (decimal uid)).
  { rewrite List.Forall_forall. intros c. by apply decimal_digit. }
  split; [|apply scanAtom_plain; eapply Forall_impl; [exact Hd|]; intros c; by destruct c].
  pose proof (decimal_nonempty uid). destruct (decimal uid) as [|c v]; [done|]. exists c, v. split; [done|].
  intros ->. inversion Hd; subst. discriminate.
Qed.

Lemma seenCommand_reads uid seen : 0 <= uid -> tokenizeArguments (seenCommand uid seen) = inr (storeSeenTokens uid seen).
Proof.
  intros Hu. change (seenCommand uid seen) with ($"A1" ++ " "%byte :: $"UID" ++ " "%byte :: printTokens (storeSeenTokens uid seen)).
  unfold tokenizeArguments. rewrite argumentText_command by (cbn; intuition discriminate). apply tokenize_print.
  repeat (apply Forall_cons; split); [..|by apply Forall_nil].
  - constructor. split; [by eexists _, _|reflexivity].
  - constructor. by apply decimal_atomOK.
  - constructor. destruct seen; (split; [by eexists _, _|reflexivity]).
  - constructor. apply Forall_singleton. constructor. split; [by eexists _, _|reflexivity].
Qed.

Lemma uid_session f session tag raw f' session' a : serveStateful f session tag ($"UID") raw true true = (f', session', a) -> session' = session.
Proof.
  unfold serveStateful. destruct (refuseLiteral tag raw); [by intros [= _ <- _]|].
  change (oneOf ($"UID") sharedCommands || beqs ($"UID") ($"CAPABILITY") && negb true) with false.
  change (beqs ($"UID") ($"CAPABILITY")) with false. cbv iota. cbn [negb]. destruct (tokenizeArguments raw) as [e|arguments]; [by intros [= _ <- _]|].
  unfold statefulCommand. change (beqs ($"UID") ($"LIST")) with false. change (beqs ($"UID") ($"SELECT") || beqs ($"UID") ($"EXAMINE")) with false.
  change (beqs ($"UID") ($"STATUS")) with false. change (beqs ($"UID") ($"UID")) with true. cbv iota.
  destruct (statefulUID _ _ _ _). by intros [= _ <- _].
Qed.

#[local] Instance wireClient : FixtureClient wireWorld unit unit fst (fun w _ => snd w).
Proof.
  split; try (by intros; simplify_eq/=).
  - intros c s mailbox w r w'. cbn [op_select wire]. unfold wireSelect. destruct (statefulSelect _ _ _ _) as [session lines] eqn:E.
    intros [= <- <-]. split; [done|]. intros snapshot Hs. exists ($"A1"), (Quoted mailbox), lines. split; [done|]. cbn [fst snd]. split; [done|].
    revert E. unfold statefulSelect. cbn [tokIsList tokValue]. destruct (find w.1 mailbox) as [[i mb]|]; [|done]. destruct (selectable mb); [|done].
    injection Hs as <-. by intros [= <- <-].
  - intros c s uid seen w r w'. cbn [op_store wire]. unfold wireStore. destruct (uid <? 0) eqn:Eu; [intros [= <- <-]; split; [done|by left]|]. bool_prop.
    destruct (serveStateful _ _ _ _ _ _ _) as [[f session] a] eqn:E. pose proof (uid_session _ _ _ _ _ _ _ E) as ->.
    destruct a as [| |lines]; intros [= <- <-]; (split; [done|]); [by left|by left|]. right. exists ($"A1"), (seenCommand uid seen), lines.
    split_and!; [by apply seenCommand_reads|done|..]; fold storeDone; by case_bool_decide.
Qed.

Definition wire_start : st wireWorld unit := mkSt None false false (sampleStore, newStatefulSession) [].

(** Marking the two messages of the inbox. *)
Definition wire_run := SetSeen (B := wire) adapter_config tt ($"INBOX") 1001 [7; 8] true wire_start.

Example wire_run_done : exists results, fst wire_run = inl results /\ map Outcome results = [OutcomeApplied; OutcomeApplied].
Proof. eexists. split; vm_compute; reflexivity. Qed.

Lemma set_seen_end_to_end_witness :
  let f := fst (world (snd wire_run)) in
  f <> sampleStore /\
  match fst wire_run with
  | inl results => map UID results = [7; 8] /\ exists i mb changed, find (fst (world wire_start)) ($"INBOX") = Some (i, mb) /\ mbUIDValidity mb = 1001 /\
      accounted results changed /\ f = marked (fst (world wire_start)) i mb true changed
  | inr _ => f = fst (world wire_start)
  end.
Proof.
  split; [vm_compute; discriminate|].
  assert (Hu : Forall (fun uid => 0 <= uid <= MaxUint32) [7; 8]) by (repeat constructor; unfold MaxUint32; lia).
  assert (E : SetSeen adapter_config tt ($"INBOX") 1001 [7; 8] true wire_start = (fst wire_run, snd wire_run)) by apply surjective_pairing.
  assert (Hok : storeOK (fst (world wire_start))) by exact sample_ok.
  exact (set_seen_end_to_end (F := wireClient) adapter_config tt ($"INBOX") 1001 [7; 8] true wire_start (fst wire_run) (snd wire_run) Hok Hu E).
Defined.
